(* ===== verification/_CoqProject ===== *)
-Q . S2P
Prelude.v
Number.v
Opcodes.v
Object.v
Table.v
TableInv.v
TableInsert.v
TableSet.v
TableSizes.v
TableSpec.v
TableNext.v
StringTable.v
Zio.v
Proto.v
CheckCode.v
CheckSafe.v
Dump.v
DumpProofs.v
TableClass.v
Code.v
CodeJumps.v
CodeConst.v
Lexer.v
StrLib.v
StrMatch.v
StrFind.v
LexProofs.v
Parser.v
ParserProofs.v
Heap.v
Tm.v
Gc.v
Func.v
GcSweep.v
HeapString.v
State.v
Mach.v
VmOps.v
Do.v
Execute.v
Call.v
Api.v
Debug.v
AuxLib.v
TabLib.v
BaseLib.v
MathLib.v
Load.v
DbLib.v
LoadLib.v
IoLib.v
OsLib.v
Programs.v
GcLogic.v
GcInv.v
GcMark.v
GcTraverse.v
GcPropagate.v
GcLinks.v
GcAtomic.v
GcPhase.v
GcLists.v
GcSwept.v
GcFree.v
GcSweepLoop.v
GcStep.v
GcFinalize.v
GcAlloc.v
StateProofs.v
GcSafety.v
FuncProofs.v
StackView.v
TabState.v
Samples.v
VmProofs.v
DoProofs.v
SortProofs.v
TabProofs.v
LoadProofs.v
ProgramProofs.v
