(* ===== verification/Prelude.v ===== *)
(** * gafq: a verification development

    gafq is a scripting language implemented in C: a register-based virtual machine with
    its compiler, its incremental garbage collector, its libraries and a format for
    precompiled chunks.  Source text goes through a buffered stream (gzio.c), the lexical
    analyser (glex.c), the parser (gparser.c) and the code generator (gcode.c) to a
    function prototype; a prototype can be dumped to a binary chunk (gdump.c), loaded
    again (gundump.c) and is then checked by the bytecode verifier (gdebug.c) before the
    virtual machine (gvm.c) runs it.  Values are tagged unions (gobject.h), strings are
    interned in a global table (gstring.c), and tables (gtable.c) are the only data
    structure of the language; the code generator uses one to find constants again.
    Objects live in a heap that the collector (ggc.c) marks and sweeps in steps, closures
    share variables through upvalues (gfunc.c), calls, errors and coroutines are in
    gdo.c, and C functions work on the stack of a thread through the API (gapi.c).  Over
    the API are the auxiliary library (gauxlib.c), the libraries of the language and two
    programs, an interpreter (gafq.c) and a compiler (gafqc.c).

    The development is a shallow embedding: a C function is a function of the model, with
    the state it changes as an argument and a result.  C integers are [Z] with the
    wrap-around written out ([u32], [s32], [u8], [size_t] below), doubles are IEEE binary64
    numbers (Stdlib's SpecFloat), bytes are [Z], arrays are lists read and written by [vget]
    and [vset].  An error raised by [longjmp] is [Err]; [Undefined] marks behaviour that
    the C standard leaves undefined and [Fuel] a loop whose fuel is used up.  Theorems
    that exclude errors exclude these two as well.  Code that changes a state and can
    raise an error is written in the monad [stateres]: with the errors of this file
    ([stres]) the state is lost, with those of Heap.v it is kept, since a protected call
    (gdo.c) goes on with it.  What the operating system and the C library keep is the
    number [world] of the global state, which a call of theirs ([sys]) may change.

    ** Parts and files

    - Prelude.v: machine integers, the result and state monads, characters and their
      classes (<ctype.h>), arrays, shared lemmas.
    - Number.v: [gafq_Number] and the arithmetic macros of gafqconf.h.
    - Opcodes.v: the instruction format, gopcodes.h and gopcodes.c.
    - Object.v: values and helpers, gobject.h and gobject.c (raw equality, log2,
      floating-point bytes, chunk ids).
    - Table.v: every operation of gtable.c on the array part, the node vector with its
      chains, the free pointer and the flags.  TableInv.v: the representation invariant
      and lookups.  TableInsert.v: [newkey] and its two ways to resolve a collision.
      TableSizes.v: [computesizes], [resize] and [rehash].  TableSet.v, TableSpec.v: stores; a table implements a finite map of acceptable keys up to raw
      equality.  TableNext.v: traversal and length.  TableClass.v: what a table promises
      to its clients, a class with gtable.c as its instance.
    - StringTable.v: the string table of gstring.c.
    - Zio.v: buffered streams, gzio.c.
    - Proto.v: prototypes, gobject.h.
    - CheckCode.v: the verifier of gdebug.c ([precheck], [symbexec]).  CheckSafe.v: it
      reads inside the prototype only, and what acceptance guarantees for the
      instructions that the virtual machine can reach.
    - Dump.v: gdump.c and gundump.c.  DumpProofs.v: round trips, errors, header.
    - Code.v: gcode.c, over the parts of [FuncState] it uses (gparser.h).  CodeJumps.v:
      lists of jumps and their resolution.  CodeConst.v: constants, registers, folding,
      [LOADNIL] and [SETLIST].
    - Lexer.v: glex.c, with the text of its error messages.  LexProofs.v: termination, names, look-ahead, and reading back what
      the string library quotes.
    - Parser.v: gparser.c, every grammar rule as a computation over the analyser, the
      chain of function states and the level of nesting.  ParserProofs.v: the scope of
      names; loops and recursion end.
    - StrLib.v: gstrlib.c.  StrMatch.v: the pattern matcher against a declarative relation
      of the ways to match.  StrFind.v: searching and replacing, the simple functions and
      format specifications.
    - Heap.v: collectable objects and the global state (gstate.h, gobject.h), the colours
      of ggc.h.  Tm.v: gtm.c.  Gc.v, GcSweep.v: ggc.c, marking and the rest.  Func.v:
      gfunc.c.  HeapString.v: gstring.c on the heap.  State.v: gstate.c.
    - GcLogic.v: a calculus of weakest preconditions for the code on the heap.  GcInv.v,
      GcMark.v, GcTraverse.v, GcPropagate.v, GcLinks.v, GcAtomic.v, GcPhase.v: the
      invariant of marking and that each of its steps keeps it.  GcLists.v, GcSwept.v,
      GcFree.v, GcSweepLoop.v: the sweep.  GcStep.v, GcFinalize.v, GcAlloc.v, GcSafety.v:
      the steps of the driver, finalizers, and the program between two steps.
      FuncProofs.v: upvalues.  StateProofs.v: a new state.
    - Mach.v: slots of a stack, run-time errors and their messages (gdebug.c, gobject.c,
      gdo.h); [Host] is the platform and [Calls] the interface to the functions that are
      called.  VmOps.v: the operations of gvm.c.  Do.v: gdo.c.  Execute.v: [gafqV_execute],
      an operation per instruction.  Call.v: [gafqD_call], which closes the recursion
      and is the instance of [Calls].  Api.v: gapi.c.  AuxLib.v: gauxlib.c.  TabLib.v,
      BaseLib.v, MathLib.v: gtablib.c, gbaselib.c, gmathlib.c.
    - Debug.v: the debug interface of gdebug.c.  Load.v: [gafq_load] and everything over
      it in gdo.c, gapi.c, gauxlib.c, gbaselib.c and gstrlib.c, from a reader, a file or
      a string to a closure on the stack, and back with [gafq_dump]; the class [Stdio] is
      what the program uses of <stdio.h>.  DbLib.v, LoadLib.v, IoLib.v, OsLib.v: gdblib.c,
      loadlib.c with ginit.c, giolib.c, goslib.c.  Programs.v: gafq.c, gafqc.c, print.c.
    - StackView.v: the API on a stack seen as the frames below, the values of the running
      function and the free slots.  TabState.v: a function that works on an array.
      Samples.v: states for the witnesses.  VmProofs.v: strings and arithmetic of the
      machine, loads, stores and chains of metatables.  DoProofs.v: calls, errors, and
      insertion and removal on the stack.  SortProofs.v, TabProofs.v: sorting and removal
      in an array.  LoadProofs.v: functions that are loaded, stacks that are written.
      ProgramProofs.v: what the compiler and the interactive interpreter rely on.

    ** What the theorems show

    - Tables: every store updates exactly its key, rehashing included; a traversal lists
      every entry once; the length is a border; the array part has the optimal size; a
      new table is empty; bad keys are reported.
    - Strings: interning keeps one object per contents, also across a resize, and in
      every phase of a collection.
    - Streams: bytes come in order, whatever the blocks of the reader.
    - Chunks: loading a dumped function gives it back; a stripped one loses its debug
      information only; every loaded function was accepted by the verifier.
    - Loading: a dumped function that is loaded is a closure whose prototype in the memory
      is the function that was dumped, in every phase of the collector; a text that is
      rejected is one value more on the stack, the message.
    - Verifier: it reads inside the prototype; an accepted function never leaves its code
      and names only existing registers, constants, upvalues and functions, but for the
      [LOADBOOL] hole, which has a theorem of its own.
    - Code generator: jumps land where they are patched to and pending ones are kept;
      constants are found again; registers stay in the frame; folding computes what the
      instruction would; merged and split instructions mean what was asked.
    - Lexical analyser: it terminates and never reads past the end mark; names and reserved
      words; quoted strings are read back; look-ahead.
    - Parser: a name means the variable of the innermost scope that declares it, through
      the upvalues of the functions in between; parsing ends.
    - Patterns: the matcher terminates, stays inside subject and pattern, finds a match
      exactly when there is one and undoes captures; repetitions are greedy or lazy;
      searches find the leftmost match; [gsub] loses nothing; [gmatch] moves on.
    - Collector: a step in any phase keeps the invariant of the phase and never frees what
      the program can reach; the sweep frees exactly the dead objects; a collection
      ends; new objects, upvalues and what is pushed on a stack are safe in every phase.
    - Upvalues: one per variable; closing keeps the values.
    - Calls and errors: results are cut or filled to the number that the caller wants; a
      protected call restores its frame whatever the error.
    - Virtual machine: loads after stores, chains of [__index] up to their limit and the
      error beyond, the order of strings, arithmetic as the code generator folds it.
    - Libraries: [table.sort] sorts numbers, [table.remove] shifts; insertion and removal on
      the stack of the API.
    - Programs: the function that the compiler makes of several files is accepted by the
      verifier; an error at the end of a line makes the interactive interpreter go on
      reading; the search path is the list of its parts.
    - Instruction fields, numbers and format buffers: round trips and bounds.

    ** Fuel and bounds

    Loops over lists are structural.  Other loops take fuel computed from their input:
    the length of the code for jump lists (a list visits a jump once), the length of the
    pattern for [match] (every call moves forward in it), the length of the subject or of
    the pending input for scanning loops and the loops of the parser, the number of
    blocks of a reader, 33 bits for binary searches, the number of entries for
    rehashing, the size of the heap for the collector, [MAXTAGLOOP] for metatables.  The
    recursion of the parser gets [GAFQI_MAXCCALLS] levels.  The theorems show that the
    fuel suffices: none of them has running out of fuel as a case of its own.  What the
    source does not bound, a running program and the nesting of its calls, is bounded by
    [rounds] of [Host] and the argument of [calls].  Bounds that appear as hypotheses are
    those of the machine: sizes below [MAXASIZE], code shorter than the range of a jump
    offset, strings whose length is a [ptrdiff_t].

    ** What is not modelled

    Memory allocation succeeds; the allocator is a callback of the host.  The debug hooks
    ([gafq_sethook], [traceexec], [gafqD_callhook]) and the signal handlers of gafq.c are
    left out: a hook is any C function, run between two instructions.  So are the two
    [main] functions, [os.exit], [gafqL_newstate] with its allocator, and [gafq_atpanic].
    While a text is parsed its objects are values of the model, which come into the memory
    when the function is complete ([install]): the steps that the collector makes inside
    [gafqX_newstring] and the memory of the parser are left out.  The string library takes
    its arguments and gives its results directly, not on the stack.  [pow] and the other
    functions of <math.h>, [strtod], [strtoul], [sprintf], [rand], the locale, the calendar,
    the streams of <stdio.h>, [dlopen] and the terminal are parameters.
*)

From Stdlib Require Import ZArith Lia Ascii String.
From stdpp Require Import base decidable option list numbers strings.
From stdpp Require Export base decidable option list numbers strings.
From Stdlib Require Export ZArith Lia Btauto Ascii.

Global Open Scope Z_scope.

(** ** Machine integers

    A [w]-bit C integer is a [Z] together with an explicit wrap-around. *)

Definition INT_MAX : Z := 2147483647.
Definition INT_MIN : Z := -2147483648.
Definition UINT_MOD : Z := 4294967296.

(** conversion to [unsigned int] *)
Definition u32 (z : Z) : Z := z mod UINT_MOD.

(** conversion to [int] (two's complement) *)
Definition s32 (z : Z) : Z := (z + 2147483648) mod UINT_MOD - 2147483648.

(** conversion to [unsigned char] ([lu_byte]) *)
Definition u8 (z : Z) : Z := z mod 256.

(** conversion to [char] (signed on the platform of the Makefile) *)
Definition s8 (z : Z) : Z := (z + 128) mod 256 - 128.

(** conversion to [size_t] *)
Definition SIZE_MOD : Z := 2 ^ 64.
Definition size_t (z : Z) : Z := z mod SIZE_MOD.

Definition int_range (z : Z) : Prop := INT_MIN <= z <= INT_MAX.

Lemma u32_range z : 0 <= u32 z < UINT_MOD.
Proof. unfold u32, UINT_MOD. apply Z.mod_pos_bound. lia. Qed.

Lemma u32_id z : 0 <= z < UINT_MOD -> u32 z = z.
Proof. unfold u32. apply Z.mod_small. Qed.

Lemma s32_id z : int_range z -> s32 z = z.
Proof.
  unfold int_range, s32, INT_MIN, INT_MAX, UINT_MOD. intros H.
  rewrite Z.mod_small; lia.
Qed.

Lemma s32_range z : int_range (s32 z).
Proof.
  unfold int_range, s32, INT_MIN, INT_MAX, UINT_MOD.
  pose proof (Z.mod_pos_bound (z + 2147483648) 4294967296). lia.
Qed.

Lemma u8_range z : 0 <= u8 z < 256.
Proof. apply Z.mod_pos_bound. lia. Qed.

Lemma u8_id z : 0 <= z < 256 -> u8 z = z.
Proof. apply Z.mod_small. Qed.

(** case analysis on the integer comparisons of the goal, pruned by [lia] *)
Ltac zbool :=
  repeat (match goal with
          | |- context [?a <=? ?b] => destruct (Z.leb_spec a b)
          | |- context [?a <? ?b] => destruct (Z.ltb_spec a b)
          | |- context [?a =? ?b] => destruct (Z.eqb_spec a b)
          end; try lia).

(** ** Results of code that can raise an error

    [gafqG_runerror], [gafqX_syntaxerror] and the like leave the function by
    [longjmp]: a model of fallible code returns [res].  [Fuel] is the value of
    a loop whose fuel is used up; the theorems show where it cannot occur. *)

Inductive error :=
  | RunError (msg : string)      (* gafqG_runerror: GAFQ_ERRRUN *)
  | SyntaxError (msg : string) (unread : nat)   (* gafqX_lexerror and gundump.c error:
                                    GAFQ_ERRSYNTAX; the blocks not asked for by then *)
  | MemError                     (* gafqD_throw(L, GAFQ_ERRMEM) *)
  | Undefined                    (* behaviour the C standard leaves undefined *)
  | Fuel.

Inductive outcome (E A : Type) :=
  | Ok (a : A)
  | Err (e : E).
Arguments Ok {E A} a.
Arguments Err {E A} e.

Notation res := (outcome error).

#[export] Instance res_ret {E} : MRet (outcome E) := @Ok E.

#[export] Instance res_bind {E} : MBind (outcome E) := fun A B f m =>
  match m with Ok a => f a | Err e => Err e end.

#[export] Instance res_fmap {E} : FMap (outcome E) := fun A B f m =>
  match m with Ok a => Ok (f a) | Err e => Err e end.

#[export] Instance error_eq_dec : EqDecision error.
Proof. solve_decision. Defined.

Lemma res_bind_ok {A B} (m : res A) (f : A -> res B) b :
  m ≫= f = Ok b -> exists a, m = Ok a /\ f a = Ok b.
Proof. destruct m; simpl; [eauto | discriminate]. Qed.

(** *** State and errors

    Code that changes a state and can raise an error.  With the errors above the
    state of a computation that raised one is lost, as after [longjmp]; the errors
    of the object memory (Heap.v) carry the state in which they were raised. *)

Definition stateres (E S A : Type) : Type := S -> outcome E (A * S).
Notation stres := (stateres error).

#[export] Instance stres_ret {E S} : MRet (stateres E S) := fun A a s => Ok (a, s).

#[export] Instance stres_bind {E S} : MBind (stateres E S) := fun A B f m s =>
  match m s with Ok (a, s') => f a s' | Err e => Err e end.

Definition gets {E S A} (f : S -> A) : stateres E S A := fun s => Ok (f s, s).
Definition modify {E S} (f : S -> S) : stateres E S unit := fun s => Ok (tt, f s).
Definition raise {S A} (e : error) : stres S A := fun _ => Err e.
Definition lift {S A} (m : res A) : stres S A := fun s => match m with Ok a => Ok (a, s) | Err e => Err e end.

(** ** Characters

    A [char] is its code as an [unsigned char]. *)

Definition chr (c : ascii) : Z := Z.of_N (N_of_ascii c).
Arguments chr c%_char.
Definition bytes := list Z.
Fixpoint str (s : string) : bytes :=
  match s with
  | EmptyString => []
  | String c s' => chr c :: str s'
  end.

(** a C string: the bytes before the first zero *)
Fixpoint cstr (b : bytes) : bytes :=
  match b with
  | [] => []
  | c :: b => if c =? 0 then [] else c :: cstr b
  end.

(** the string of a small integer (number format "%.14g") *)
Fixpoint digits (fuel : nat) (n : Z) : bytes :=
  match fuel with
  | O => []
  | S fuel' => (if n <? 10 then [] else digits fuel' (n / 10)) ++ [chr "0" + n mod 10]
  end.

Definition int_str (n : Z) : bytes := digits 20 n.

Definition is_byte (z : Z) : Prop := 0 <= z < 256.

(** *** Character classes: <ctype.h> in the C locale

    The arguments are values of [unsigned char] or [EOZ]. *)

Definition in_range (lo hi : ascii) (c : Z) : bool := (chr lo <=? c) && (c <=? chr hi).
Arguments in_range (lo hi)%_char c.

Definition isdigit (c : Z) : bool := in_range "0" "9" c.
Definition isupper (c : Z) : bool := in_range "A" "Z" c.
Definition islower (c : Z) : bool := in_range "a" "z" c.
Definition isalpha (c : Z) : bool := isupper c || islower c.
Definition isalnum (c : Z) : bool := isalpha c || isdigit c.
Definition isxdigit (c : Z) : bool := isdigit c || in_range "a" "f" c || in_range "A" "F" c.
Definition isspace (c : Z) : bool := (c =? 32) || ((9 <=? c) && (c <=? 13)).
Definition iscntrl (c : Z) : bool := ((0 <=? c) && (c <? 32)) || (c =? 127).
Definition isgraph (c : Z) : bool := (33 <=? c) && (c <=? 126).
Definition ispunct (c : Z) : bool := isgraph c && negb (isalnum c).
Definition tolower (c : Z) : Z := if isupper c then c + 32 else c.
Definition toupper (c : Z) : Z := if islower c then c - 32 else c.

(** ** Arrays

    [a[i]] with a default for reads the code never makes; [vset] updates one
    slot and keeps the length. *)

Definition vget {A} (d : A) (l : list A) (i : Z) : A :=
  if i <? 0 then d else nth (Z.to_nat i) l d.

Definition vset {A} (l : list A) (i : Z) (x : A) : list A :=
  if i <? 0 then l else <[Z.to_nat i := x]> l.

Definition zlen {A} (l : list A) : Z := Z.of_nat (length l).

Lemma vget_vset {A} (d : A) l i j x :
  0 <= i < zlen l -> vget d (vset l i x) j = if decide (i = j) then x else vget d l j.
Proof.
  unfold zlen. intros Hi. unfold vget, vset. destruct (Z.ltb_spec i 0); [lia|].
  destruct (Z.ltb_spec j 0); [rewrite decide_False by lia; done|].
  rewrite !nth_lookup. case_decide as E.
  - subst j. by rewrite list_lookup_insert_eq by lia.
  - by rewrite list_lookup_insert_ne by lia.
Qed.

Lemma vget_vset_ne {A} (d : A) l i j x : i <> j -> vget d (vset l i x) j = vget d l j.
Proof.
  intros Hne. unfold vget, vset. destruct (Z.ltb_spec i 0), (Z.ltb_spec j 0); try done.
  rewrite !nth_lookup. by rewrite list_lookup_insert_ne by lia.
Qed.

Lemma length_vset {A} (l : list A) i x : length (vset l i x) = length l.
Proof. unfold vset. destruct (i <? 0); [done|apply length_insert]. Qed.

(** ** Counting with [filter] *)

Section Filter.

Context {A : Type} (P : A -> Prop) `{forall x, Decision (P x)}.

Lemma filter_all (l : list A) : Forall P l -> filter P l = l.
Proof.
  induction 1 as [|x l Hx _ IH]; [done|]. rewrite filter_cons_True by done. by rewrite IH.
Qed.

Lemma filter_none (l : list A) : Forall (fun x => ~ P x) l -> filter P l = [].
Proof.
  induction 1 as [|x l Hx _ IH]; [done|]. by rewrite filter_cons_False by done.
Qed.

Lemma filter_split_length (l : list A) :
  (length (filter P l) + length (filter (fun x => ~ P x) l))%nat = length l.
Proof.
  induction l as [|x l IH]; [done|]. destruct (decide (P x)).
  - rewrite filter_cons_True, (filter_cons_False (fun x => ~ P x)) by tauto. simpl. lia.
  - rewrite filter_cons_False, (filter_cons_True (fun x => ~ P x)) by tauto. simpl. lia.
Qed.

End Filter.

Lemma filter_length_impl {A} (P Q : A -> Prop) `{forall x, Decision (P x)} `{forall x, Decision (Q x)}
    (l : list A) :
  Forall (fun x => P x -> Q x) l -> (length (filter P l) <= length (filter Q l))%nat.
Proof.
  induction 1 as [|x l Hx _ IH]; [done|]. destruct (decide (P x)).
  - rewrite !filter_cons_True by auto. simpl. lia.
  - rewrite (filter_cons_False P) by done. destruct (decide (Q x)).
    + rewrite filter_cons_True by done. simpl. lia.
    + by rewrite filter_cons_False by done.
Qed.
