(* ===== verification/Number.v ===== *)
(** * Numbers: [gafq_Number], [int] conversions and the [gafqi_num*] macros

    [gafqconf.h] configures [gafq_Number] as [double].  A double is an IEEE
    binary64 datum, modelled by the Standard Library's [spec_float] with
    precision 53 and exponent bound 1024: the arithmetic is executable and
    rounds to nearest even.  The payload of a NaN is not represented.

    [cast_num] is the C conversion [int -> double], [gafq_number2int] the
    conversion [double -> int] of the portable branch of [gafqconf.h]
    (truncation; the value of an out-of-range conversion is the x86-64
    "integer indefinite" INT_MIN).  [num_bits]/[num_of_bits] are the memory
    representation used by [hashnum] (gtable.c) and by the dump format. *)

From Stdlib Require Import SpecFloat.
From S2P Require Import Prelude.

Definition gafq_Number : Type := spec_float.

Definition prec : Z := 53.
Definition emax : Z := 1024.

Definition gafqi_numadd (a b : gafq_Number) : gafq_Number := SFadd prec emax a b.
Definition gafqi_numsub (a b : gafq_Number) : gafq_Number := SFsub prec emax a b.
Definition gafqi_nummul (a b : gafq_Number) : gafq_Number := SFmul prec emax a b.
Definition gafqi_numdiv (a b : gafq_Number) : gafq_Number := SFdiv prec emax a b.
Definition gafqi_numunm (a : gafq_Number) : gafq_Number := SFopp a.
Definition gafqi_numeq (a b : gafq_Number) : bool := SFeqb a b.
Definition gafqi_numlt (a b : gafq_Number) : bool := SFltb a b.
Definition gafqi_numle (a b : gafq_Number) : bool := SFleb a b.
Definition gafqi_numisnan (a : gafq_Number) : bool := negb (gafqi_numeq a a).

(** [floor] of <math.h> *)
Definition num_floor (a : gafq_Number) : gafq_Number :=
  match a with
  | S754_finite s m e =>
      if 0 <=? e then a
      else
        let d := 2 ^ (- e) in
        let z := if s then - ((Zpos m + d - 1) / d) else Zpos m / d in
        binary_normalize prec emax z 0 s
  | _ => a
  end.

Definition gafqi_nummod (a b : gafq_Number) : gafq_Number :=
  gafqi_numsub a (gafqi_nummul (num_floor (gafqi_numdiv a b)) b).

(** [cast_num(i)] for an [int] [i] *)
Definition cast_num (i : Z) : gafq_Number :=
  match i with
  | Z0 => S754_zero false
  | Zpos p => S754_finite false (Z.to_pos (Z.shiftl (Zpos p) (52 - Z.log2 (Zpos p))))
                          (Z.log2 (Zpos p) - 52)
  | Zneg p => S754_finite true (Z.to_pos (Z.shiftl (Zpos p) (52 - Z.log2 (Zpos p))))
                          (Z.log2 (Zpos p) - 52)
  end.

Definition num_trunc (a : gafq_Number) : option Z :=
  match a with
  | S754_zero _ => Some 0
  | S754_finite s m e =>
      let v := if 0 <=? e then Zpos m * 2 ^ e else Zpos m / 2 ^ (- e) in
      Some (if s then - v else v)
  | _ => None
  end.

(** [gafq_number2int(i,d)]: [(i)=(int)(d)] *)
Definition gafq_number2int (a : gafq_Number) : Z :=
  match num_trunc a with
  | Some v => if (INT_MIN <=? v) && (v <=? INT_MAX) then v else INT_MIN
  | None => INT_MIN
  end.

(** The eight bytes of a double as one 64-bit number. *)
Definition num_bits (a : gafq_Number) : Z :=
  let sg (s : bool) := if s then 2 ^ 63 else 0 in
  match a with
  | S754_zero s => sg s
  | S754_infinity s => sg s + 2047 * 2 ^ 52
  | S754_nan => 2047 * 2 ^ 52 + 2 ^ 51
  | S754_finite s m e =>
      if Zpos m <? 2 ^ 52 then sg s + Zpos m
      else sg s + (e + 1075) * 2 ^ 52 + (Zpos m - 2 ^ 52)
  end.

Definition num_of_bits (z : Z) : gafq_Number :=
  let s := 2 ^ 63 <=? z in
  let E := (z / 2 ^ 52) mod 2048 in
  let M := z mod 2 ^ 52 in
  if E =? 0 then
    match M with Zpos m => S754_finite s m (-1074) | _ => S754_zero s end
  else if E =? 2047 then
    if M =? 0 then S754_infinity s else S754_nan
  else S754_finite s (Z.to_pos (M + 2 ^ 52)) (E - 1075).

(** A datum that a [double] can hold. *)
Definition num_valid (a : gafq_Number) : bool := valid_binary prec emax a.

#[export] Instance spec_float_eq_dec : EqDecision spec_float.
Proof. solve_decision. Defined.

(** ** Equality of numbers *)

Lemma numeq_inv a b :
  gafqi_numeq a b = true ->
  a = b \/ exists s t, a = S754_zero s /\ b = S754_zero t.
Proof.
  unfold gafqi_numeq, SFeqb.
  destruct a as [s|s| |s m e], b as [t|t| |t m' e']; simpl; try discriminate;
    try (destruct s; discriminate); try (destruct t; discriminate); eauto.
  - destruct s, t; try discriminate; auto.
  - change (Pos.compare_cont Eq m m') with (Pos.compare m m').
    destruct s, t; try discriminate;
      (destruct (Z.compare_spec e e'); try discriminate; subst);
      destruct (Pos.compare_spec m m'); simpl; try discriminate; subst; auto.
Qed.

Lemma numeq_refl a : a <> S754_nan -> gafqi_numeq a a = true.
Proof.
  unfold gafqi_numeq, SFeqb.
  destruct a as [s|s| |s m e]; simpl; try congruence; try (now destruct s).
  change (Pos.compare_cont Eq m m) with (Pos.compare m m).
  rewrite Z.compare_refl, Pos.compare_refl. now destruct s.
Qed.

Lemma numisnan_spec a : gafqi_numisnan a = true <-> a = S754_nan.
Proof.
  unfold gafqi_numisnan. split.
  - destruct (decide (a = S754_nan)) as [|H]; [done|]. now rewrite numeq_refl.
  - now intros ->.
Qed.

Lemma numeq_not_nan a b : gafqi_numeq a b = true -> a <> S754_nan /\ b <> S754_nan.
Proof. intros H. destruct a, b; try discriminate; split; discriminate. Qed.

Lemma numeq_sym a b : gafqi_numeq a b = gafqi_numeq b a.
Proof.
  destruct (gafqi_numeq a b) eqn:E.
  - pose proof (numeq_not_nan _ _ E) as [_ Hb].
    destruct (numeq_inv _ _ E) as [->|(s & t & -> & ->)]; [|done].
    now rewrite numeq_refl.
  - destruct (gafqi_numeq b a) eqn:E'; [|done].
    pose proof (numeq_not_nan _ _ E') as [Hb _].
    destruct (numeq_inv _ _ E') as [->|(s & t & -> & ->)]; [|done].
    rewrite numeq_refl in E; done.
Qed.

Lemma numeq_trans a b c :
  gafqi_numeq a b = true -> gafqi_numeq b c = true -> gafqi_numeq a c = true.
Proof.
  intros H1 H2.
  destruct (numeq_inv _ _ H1) as [->|(s & t & -> & ->)]; [done|].
  destruct (numeq_inv _ _ H2) as [<-|(s' & t' & E & ->)]; [done|].
  now inversion E.
Qed.

(** ** [int] conversions *)

Lemma shiftl_mantissa p :
  Z.log2 (Zpos p) <= 52 ->
  0 < Z.shiftl (Zpos p) (52 - Z.log2 (Zpos p)).
Proof. intros H. rewrite Z.shiftl_mul_pow2 by lia. nia. Qed.

Lemma int_log2 p : Zpos p <= 2147483648 -> 0 <= Z.log2 (Zpos p) <= 31.
Proof.
  intros H. split; [apply Z.log2_nonneg|].
  change 31 with (Z.log2 2147483648). now apply Z.log2_le_mono.
Qed.

Lemma trunc_shifted p :
  Zpos p <= 2147483648 ->
  num_trunc (cast_num (Zpos p)) = Some (Zpos p) /\
  num_trunc (cast_num (Zneg p)) = Some (Zneg p).
Proof.
  intros H. pose proof (int_log2 p H) as Hl.
  unfold cast_num, num_trunc.
  pose proof (shiftl_mantissa p ltac:(lia)) as Hpos.
  rewrite Z2Pos.id by done.
  destruct (Z.leb_spec 0 (Z.log2 (Zpos p) - 52)); [lia|].
  rewrite Z.shiftl_mul_pow2 by lia.
  replace (- (Z.log2 (Zpos p) - 52)) with (52 - Z.log2 (Zpos p)) by lia.
  rewrite Z.div_mul by (apply Z.pow_nonzero; lia).
  split; do 2 f_equal; lia.
Qed.

(** [int -> double -> int] is the identity on every [int]. *)
Lemma number2int_cast i : int_range i -> gafq_number2int (cast_num i) = i.
Proof.
  unfold int_range, INT_MIN, INT_MAX. intros H. unfold gafq_number2int.
  assert (num_trunc (cast_num i) = Some i) as ->.
  { destruct i as [|p|p]; [done| |]; apply trunc_shifted; lia. }
  unfold INT_MIN, INT_MAX.
  destruct (Z.leb_spec (-2147483648) i), (Z.leb_spec i 2147483647); simpl; lia.
Qed.

Lemma number2int_range a : int_range (gafq_number2int a).
Proof.
  unfold gafq_number2int, int_range. destruct (num_trunc a) as [v|];
    [|unfold INT_MIN, INT_MAX; lia].
  destruct (Z.leb_spec INT_MIN v), (Z.leb_spec v INT_MAX); simpl;
    unfold INT_MIN, INT_MAX in *; lia.
Qed.

Lemma cast_num_not_nan i : cast_num i <> S754_nan.
Proof. destruct i; discriminate. Qed.

(** Distinct [int]s are distinct numbers. *)
Lemma cast_num_inj i j :
  int_range i -> int_range j ->
  gafqi_numeq (cast_num i) (cast_num j) = true -> i = j.
Proof.
  intros Hi Hj H. destruct (numeq_inv _ _ H) as [E|(s & t & E1 & E2)].
  - rewrite <- (number2int_cast i), <- (number2int_cast j) by done. now f_equal.
  - destruct i, j; try discriminate. done.
Qed.

Lemma numeq_cast i : gafqi_numeq (cast_num i) (cast_num i) = true.
Proof. apply numeq_refl, cast_num_not_nan. Qed.

(** ** The memory representation *)

Lemma digits2_pos_log2 p : Zpos (digits2_pos p) = Z.log2 (Zpos p) + 1.
Proof.
  induction p as [p IH|p IH|]; [..|done]; simpl digits2_pos; rewrite Pos2Z.inj_succ, IH.
  - change (Zpos p~1) with (2 * Zpos p + 1). rewrite Z.log2_succ_double; lia.
  - change (Zpos p~0) with (2 * Zpos p). rewrite Z.log2_double; lia.
Qed.

(** A finite datum is normal (53-bit mantissa) or subnormal. *)
Lemma num_valid_finite s m e :
  num_valid (S754_finite s m e) = true ->
  (2 ^ 52 <= Zpos m < 2 ^ 53 /\ -1074 <= e <= 971) \/ (Zpos m < 2 ^ 52 /\ e = -1074).
Proof.
  unfold num_valid, valid_binary, bounded, canonical_mantissa, fexp, emin, prec, emax.
  rewrite digits2_pos_log2. intros [H1%Z.eqb_eq H2%Z.leb_le]%andb_prop.
  destruct (Z.log2_spec (Zpos m)) as [Hl Hu]; [lia|].
  destruct (Z_lt_le_dec (Z.log2 (Zpos m)) 52) as [L|L].
  - right. split; [|lia]. eapply Z.lt_le_trans; [exact Hu|]. apply Z.pow_le_mono_r; lia.
  - left. assert (Z.log2 (Zpos m) = 52) as E by lia. rewrite E in *.
    split; [split|]; simpl in *; lia.
Qed.

Lemma num_bits_range a : num_valid a = true -> 0 <= num_bits a < 2 ^ 64.
Proof.
  destruct a as [s|s| |s m e]; intros H; try (destruct s; simpl; lia); [simpl; lia|].
  apply num_valid_finite in H. unfold num_bits.
  destruct (Z.ltb_spec (Zpos m) (2 ^ 52)); destruct s; lia.
Qed.

(** The two halves of a 64-bit double, with the sign, exponent and fraction. *)
Lemma num_of_bits_fields (s : bool) E M :
  0 <= E < 2048 -> 0 <= M < 2 ^ 52 ->
  num_of_bits ((if s then 2 ^ 63 else 0) + E * 2 ^ 52 + M) =
  if E =? 0 then match M with Zpos m => S754_finite s m (-1074) | _ => S754_zero s end
  else if E =? 2047 then if M =? 0 then S754_infinity s else S754_nan
  else S754_finite s (Z.to_pos (M + 2 ^ 52)) (E - 1075).
Proof.
  intros HE HM. unfold num_of_bits.
  set (z := (if s then 2 ^ 63 else 0) + E * 2 ^ 52 + M).
  assert (z = ((if s then 2048 else 0) + E) * 2 ^ 52 + M) as Hz by (subst z; destruct s; lia).
  assert ((2 ^ 63 <=? z) = s) as ->.
  { destruct (Z.leb_spec (2 ^ 63) z); subst z; destruct s; lia. }
  assert (z mod 2 ^ 52 = M) as ->.
  { rewrite Hz, Z.add_comm, Z.mod_add by lia. now apply Z.mod_small. }
  assert ((z / 2 ^ 52) mod 2048 = E) as ->.
  { rewrite Hz, Z.div_add_l, Z.div_small, Z.add_0_r by lia.
    destruct s; [|now apply Z.mod_small].
    replace (2048 + E) with (E + 1 * 2048) by lia.
    rewrite Z.mod_add by lia. now apply Z.mod_small. }
  reflexivity.
Qed.

(** Reading the eight bytes of a double gives the double back. *)
Lemma num_of_bits_bits a : num_valid a = true -> num_of_bits (num_bits a) = a.
Proof.
  destruct a as [s|s| |s m e]; intros H; try (destruct s; reflexivity); [reflexivity|].
  apply num_valid_finite in H. unfold num_bits.
  destruct (Z.ltb_spec (Zpos m) (2 ^ 52)) as [L|L].
  - assert (e = -1074) as -> by lia.
    transitivity (num_of_bits ((if s then 2 ^ 63 else 0) + 0 * 2 ^ 52 + Zpos m));
      [f_equal; lia|].
    now rewrite num_of_bits_fields by lia.
  - rewrite num_of_bits_fields by lia.
    destruct (Z.eqb_spec (e + 1075) 0); [lia|].
    destruct (Z.eqb_spec (e + 1075) 2047); [lia|].
    f_equal; [|lia]. replace (Zpos m - 2 ^ 52 + 2 ^ 52) with (Zpos m) by lia. done.
Qed.

(** What is read from eight arbitrary bytes is a double. *)
Lemma num_of_bits_valid z : num_valid (num_of_bits z) = true.
Proof.
  unfold num_of_bits.
  pose proof (Z.mod_pos_bound z (2 ^ 52) ltac:(lia)) as HM.
  pose proof (Z.mod_pos_bound (z / 2 ^ 52) 2048 ltac:(lia)) as HE.
  set (M := z mod 2 ^ 52) in *. set (E := (z / 2 ^ 52) mod 2048) in *.
  assert (forall s m e, (2 ^ 52 <= Zpos m < 2 ^ 53 /\ -1074 <= e <= 971) \/
                        (Zpos m < 2 ^ 52 /\ e = -1074) ->
          num_valid (S754_finite s m e) = true) as Hfin.
  { intros s m e H. unfold num_valid, valid_binary, bounded, canonical_mantissa, fexp, emin, prec, emax.
    rewrite digits2_pos_log2. destruct H as [[Hm He]|[Hm ->]].
    - assert (Z.log2 (Zpos m) = 52) as -> by (apply Z.log2_unique; lia).
      apply andb_true_intro. split; [apply Z.eqb_eq|apply Z.leb_le]; lia.
    - assert (Z.log2 (Zpos m) < 52) by (apply Z.log2_lt_pow2; lia).
      apply andb_true_intro. split; [apply Z.eqb_eq|apply Z.leb_le]; lia. }
  destruct (Z.eqb_spec E 0).
  - destruct M eqn:EM; try done. apply Hfin. right. lia.
  - destruct (Z.eqb_spec E 2047); [destruct (M =? 0); done|].
    apply Hfin. left. rewrite Z2Pos.id by lia. lia.
Qed.

(** Every [int] is a double. *)
Lemma cast_num_valid i : int_range i -> num_valid (cast_num i) = true.
Proof.
  unfold int_range, INT_MIN, INT_MAX. intros H.
  assert (forall p, Zpos p <= 2147483648 ->
    bounded prec emax (Z.to_pos (Z.shiftl (Zpos p) (52 - Z.log2 (Zpos p)))) (Z.log2 (Zpos p) - 52)
    = true) as Hp.
  { intros p Hp. pose proof (int_log2 p Hp). pose proof (shiftl_mantissa p ltac:(lia)) as Hs.
    unfold bounded, canonical_mantissa, fexp, emin, prec, emax.
    rewrite digits2_pos_log2, Z2Pos.id by done. rewrite Z.log2_shiftl by lia.
    apply andb_true_intro. split; [apply Z.eqb_eq|apply Z.leb_le]; lia. }
  destruct i as [|p|p]; [done| |]; apply Hp; lia.
Qed.
