(* ===== verification/Opcodes.v ===== *)
(** * Instructions of the virtual machine: gopcodes.h, gopcodes.c

    An [Instruction] is an unsigned 32-bit number with the opcode in bits 0-5,
    [A] in bits 6-13, [C] in bits 14-22 and [B] in bits 23-31; [Bx] is [B] and
    [C] together, [sBx] is [Bx] in excess [MAXARG_sBx].  The macros of
    gopcodes.h are translated with the 32-bit wrap-around written out. *)

From S2P Require Import Prelude.

Inductive OpCode :=
  | OP_MOVE | OP_LOADK | OP_LOADBOOL | OP_LOADNIL | OP_GETUPVAL
  | OP_GETGLOBAL | OP_GETTABLE | OP_SETGLOBAL | OP_SETUPVAL | OP_SETTABLE
  | OP_NEWTABLE | OP_SELF
  | OP_ADD | OP_SUB | OP_MUL | OP_DIV | OP_MOD | OP_POW
  | OP_UNM | OP_NOT | OP_LEN | OP_CONCAT | OP_JMP
  | OP_EQ | OP_LT | OP_LE | OP_TEST | OP_TESTSET
  | OP_CALL | OP_TAILCALL | OP_RETURN | OP_FORLOOP | OP_FORPREP
  | OP_TFORLOOP | OP_SETLIST | OP_CLOSE | OP_CLOSURE | OP_VARARG.

#[export] Instance OpCode_eq_dec : EqDecision OpCode.
Proof. solve_decision. Defined.

(** The constructors in the order of the C enumeration. *)
Definition opcodes : list OpCode :=
  [ OP_MOVE; OP_LOADK; OP_LOADBOOL; OP_LOADNIL; OP_GETUPVAL;
    OP_GETGLOBAL; OP_GETTABLE; OP_SETGLOBAL; OP_SETUPVAL; OP_SETTABLE;
    OP_NEWTABLE; OP_SELF;
    OP_ADD; OP_SUB; OP_MUL; OP_DIV; OP_MOD; OP_POW;
    OP_UNM; OP_NOT; OP_LEN; OP_CONCAT; OP_JMP;
    OP_EQ; OP_LT; OP_LE; OP_TEST; OP_TESTSET;
    OP_CALL; OP_TAILCALL; OP_RETURN; OP_FORLOOP; OP_FORPREP;
    OP_TFORLOOP; OP_SETLIST; OP_CLOSE; OP_CLOSURE; OP_VARARG ].

(** The number of an opcode in the C enumeration. *)
Definition op_num (o : OpCode) : Z :=
  match o with
  | OP_MOVE => 0 | OP_LOADK => 1 | OP_LOADBOOL => 2 | OP_LOADNIL => 3 | OP_GETUPVAL => 4
  | OP_GETGLOBAL => 5 | OP_GETTABLE => 6 | OP_SETGLOBAL => 7 | OP_SETUPVAL => 8
  | OP_SETTABLE => 9 | OP_NEWTABLE => 10 | OP_SELF => 11
  | OP_ADD => 12 | OP_SUB => 13 | OP_MUL => 14 | OP_DIV => 15 | OP_MOD => 16 | OP_POW => 17
  | OP_UNM => 18 | OP_NOT => 19 | OP_LEN => 20 | OP_CONCAT => 21 | OP_JMP => 22
  | OP_EQ => 23 | OP_LT => 24 | OP_LE => 25 | OP_TEST => 26 | OP_TESTSET => 27
  | OP_CALL => 28 | OP_TAILCALL => 29 | OP_RETURN => 30 | OP_FORLOOP => 31 | OP_FORPREP => 32
  | OP_TFORLOOP => 33 | OP_SETLIST => 34 | OP_CLOSE => 35 | OP_CLOSURE => 36 | OP_VARARG => 37
  end.

Definition NUM_OPCODES : Z := op_num OP_VARARG + 1.

(** The enumerator a number stands for; six bits can hold numbers that stand for none. *)
Definition op_of (z : Z) : option OpCode := if z <? 0 then None else opcodes !! Z.to_nat z.

Definition SIZE_C : Z := 9.
Definition SIZE_B : Z := 9.
Definition SIZE_Bx : Z := SIZE_C + SIZE_B.
Definition SIZE_A : Z := 8.
Definition SIZE_OP : Z := 6.
Definition POS_OP : Z := 0.
Definition POS_A : Z := POS_OP + SIZE_OP.
Definition POS_C : Z := POS_A + SIZE_A.
Definition POS_B : Z := POS_C + SIZE_C.
Definition POS_Bx : Z := POS_C.

Definition MAXARG_Bx : Z := Z.shiftl 1 SIZE_Bx - 1.
Definition MAXARG_sBx : Z := Z.shiftr MAXARG_Bx 1.
Definition MAXARG_A : Z := Z.shiftl 1 SIZE_A - 1.
Definition MAXARG_B : Z := Z.shiftl 1 SIZE_B - 1.
Definition MAXARG_C : Z := Z.shiftl 1 SIZE_C - 1.

(** 32-bit [~] and [<<] *)
Definition not32 (z : Z) : Z := u32 (Z.lnot z).
Definition shl32 (z n : Z) : Z := u32 (Z.shiftl z n).

(** [MASK1(n,p)]: [n] 1 bits at position [p]; [MASK0(n,p)] its complement *)
Definition MASK1 (n p : Z) : Z := shl32 (not32 (shl32 (not32 0) n)) p.
Definition MASK0 (n p : Z) : Z := not32 (MASK1 n p).

(** The common shape of the GET and SET macros: a field of size [n] at [p]. *)
Definition get_field (n p i : Z) : Z := Z.land (Z.shiftr i p) (MASK1 n 0).
Definition set_field (n p i u : Z) : Z :=
  Z.lor (Z.land i (MASK0 n p)) (Z.land (shl32 (u32 u) p) (MASK1 n p)).

Definition GET_OPCODE (i : Z) : Z := get_field SIZE_OP POS_OP i.
Definition SET_OPCODE (i o : Z) : Z := set_field SIZE_OP POS_OP i o.
Definition GETARG_A (i : Z) : Z := get_field SIZE_A POS_A i.
Definition SETARG_A (i u : Z) : Z := set_field SIZE_A POS_A i u.
Definition GETARG_B (i : Z) : Z := get_field SIZE_B POS_B i.
Definition SETARG_B (i b : Z) : Z := set_field SIZE_B POS_B i b.
Definition GETARG_C (i : Z) : Z := get_field SIZE_C POS_C i.
Definition SETARG_C (i b : Z) : Z := set_field SIZE_C POS_C i b.
Definition GETARG_Bx (i : Z) : Z := get_field SIZE_Bx POS_Bx i.
Definition SETARG_Bx (i b : Z) : Z := set_field SIZE_Bx POS_Bx i b.
Definition GETARG_sBx (i : Z) : Z := GETARG_Bx i - MAXARG_sBx.
Definition SETARG_sBx (i b : Z) : Z := SETARG_Bx i (u32 (b + MAXARG_sBx)).

Definition CREATE_ABC (o a b c : Z) : Z :=
  Z.lor (Z.lor (Z.lor (shl32 (u32 o) POS_OP) (shl32 (u32 a) POS_A))
               (shl32 (u32 b) POS_B)) (shl32 (u32 c) POS_C).

Definition CREATE_ABx (o a bc : Z) : Z :=
  Z.lor (Z.lor (shl32 (u32 o) POS_OP) (shl32 (u32 a) POS_A)) (shl32 (u32 bc) POS_Bx).

(** RK operands: bit 8 set means a constant index *)
Definition BITRK : Z := Z.shiftl 1 (SIZE_B - 1).
Definition ISK (x : Z) : bool := negb (Z.land x BITRK =? 0).
Definition INDEXK (r : Z) : Z := Z.land r (Z.lnot BITRK).
Definition MAXINDEXRK : Z := BITRK - 1.
Definition RKASK (x : Z) : Z := Z.lor x BITRK.
Definition NO_REG : Z := MAXARG_A.

(** ** The table of instruction properties (gopcodes.c) *)

Inductive OpMode := iABC | iABx | iAsBx.
Inductive OpArgMask := OpArgN | OpArgU | OpArgR | OpArgK.

#[export] Instance OpMode_eq_dec : EqDecision OpMode.
Proof. solve_decision. Defined.

#[export] Instance OpArgMask_eq_dec : EqDecision OpArgMask.
Proof. solve_decision. Defined.

Definition opmode_num (m : OpMode) : Z := match m with iABC => 0 | iABx => 1 | iAsBx => 2 end.
Definition argmask_num (m : OpArgMask) : Z :=
  match m with OpArgN => 0 | OpArgU => 1 | OpArgR => 2 | OpArgK => 3 end.

Definition opmode (t a : Z) (b c : OpArgMask) (m : OpMode) : Z :=
  Z.lor (Z.lor (Z.lor (Z.lor (Z.shiftl t 7) (Z.shiftl a 6)) (Z.shiftl (argmask_num b) 4))
               (Z.shiftl (argmask_num c) 2)) (opmode_num m).

Definition gafqP_opmodes : list Z :=
  [ opmode 0 1 OpArgR OpArgN iABC;   (* OP_MOVE *)
    opmode 0 1 OpArgK OpArgN iABx;   (* OP_LOADK *)
    opmode 0 1 OpArgU OpArgU iABC;   (* OP_LOADBOOL *)
    opmode 0 1 OpArgR OpArgN iABC;   (* OP_LOADNIL *)
    opmode 0 1 OpArgU OpArgN iABC;   (* OP_GETUPVAL *)
    opmode 0 1 OpArgK OpArgN iABx;   (* OP_GETGLOBAL *)
    opmode 0 1 OpArgR OpArgK iABC;   (* OP_GETTABLE *)
    opmode 0 0 OpArgK OpArgN iABx;   (* OP_SETGLOBAL *)
    opmode 0 0 OpArgU OpArgN iABC;   (* OP_SETUPVAL *)
    opmode 0 0 OpArgK OpArgK iABC;   (* OP_SETTABLE *)
    opmode 0 1 OpArgU OpArgU iABC;   (* OP_NEWTABLE *)
    opmode 0 1 OpArgR OpArgK iABC;   (* OP_SELF *)
    opmode 0 1 OpArgK OpArgK iABC;   (* OP_ADD *)
    opmode 0 1 OpArgK OpArgK iABC;   (* OP_SUB *)
    opmode 0 1 OpArgK OpArgK iABC;   (* OP_MUL *)
    opmode 0 1 OpArgK OpArgK iABC;   (* OP_DIV *)
    opmode 0 1 OpArgK OpArgK iABC;   (* OP_MOD *)
    opmode 0 1 OpArgK OpArgK iABC;   (* OP_POW *)
    opmode 0 1 OpArgR OpArgN iABC;   (* OP_UNM *)
    opmode 0 1 OpArgR OpArgN iABC;   (* OP_NOT *)
    opmode 0 1 OpArgR OpArgN iABC;   (* OP_LEN *)
    opmode 0 1 OpArgR OpArgR iABC;   (* OP_CONCAT *)
    opmode 0 0 OpArgR OpArgN iAsBx;  (* OP_JMP *)
    opmode 1 0 OpArgK OpArgK iABC;   (* OP_EQ *)
    opmode 1 0 OpArgK OpArgK iABC;   (* OP_LT *)
    opmode 1 0 OpArgK OpArgK iABC;   (* OP_LE *)
    opmode 1 1 OpArgR OpArgU iABC;   (* OP_TEST *)
    opmode 1 1 OpArgR OpArgU iABC;   (* OP_TESTSET *)
    opmode 0 1 OpArgU OpArgU iABC;   (* OP_CALL *)
    opmode 0 1 OpArgU OpArgU iABC;   (* OP_TAILCALL *)
    opmode 0 0 OpArgU OpArgN iABC;   (* OP_RETURN *)
    opmode 0 1 OpArgR OpArgN iAsBx;  (* OP_FORLOOP *)
    opmode 0 1 OpArgR OpArgN iAsBx;  (* OP_FORPREP *)
    opmode 1 0 OpArgN OpArgU iABC;   (* OP_TFORLOOP *)
    opmode 0 0 OpArgU OpArgU iABC;   (* OP_SETLIST *)
    opmode 0 0 OpArgN OpArgN iABC;   (* OP_CLOSE *)
    opmode 0 1 OpArgU OpArgN iABx;   (* OP_CLOSURE *)
    opmode 0 1 OpArgU OpArgN iABC ]. (* OP_VARARG *)

Definition opmodes_at (m : Z) : Z := vget 0 gafqP_opmodes m.

Definition OpMode_of (z : Z) : OpMode :=
  if z =? 0 then iABC else if z =? 1 then iABx else iAsBx.
Definition OpArgMask_of (z : Z) : OpArgMask :=
  if z =? 0 then OpArgN else if z =? 1 then OpArgU else if z =? 2 then OpArgR else OpArgK.

Definition getOpMode (m : Z) : OpMode := OpMode_of (Z.land (opmodes_at m) 3).
Definition getBMode (m : Z) : OpArgMask := OpArgMask_of (Z.land (Z.shiftr (opmodes_at m) 4) 3).
Definition getCMode (m : Z) : OpArgMask := OpArgMask_of (Z.land (Z.shiftr (opmodes_at m) 2) 3).
Definition testAMode (m : Z) : bool := negb (Z.land (opmodes_at m) (Z.shiftl 1 6) =? 0).
Definition testTMode (m : Z) : bool := negb (Z.land (opmodes_at m) (Z.shiftl 1 7) =? 0).

Definition LFIELDS_PER_FLUSH : Z := 50.

(** the limit of registers (glimits.h) and "all results" (gafq.h) *)
Definition MAXSTACK : Z := 250.
Definition GAFQ_MULTRET : Z := -1.

Definition is_instruction (i : Z) : Prop := 0 <= i < UINT_MOD.

(** ** Bit-level lemmas *)

Lemma u32_testbit z k : 0 <= k -> Z.testbit (u32 z) k = (k <? 32) && Z.testbit z k.
Proof.
  intros Hk. unfold u32, UINT_MOD. change 4294967296 with (2 ^ 32).
  destruct (Z.ltb_spec k 32).
  - now rewrite Z.mod_pow2_bits_low.
  - now rewrite Z.mod_pow2_bits_high by lia.
Qed.

Lemma MASK1_testbit n p k :
  0 <= n -> 0 <= p -> n + p <= 32 -> 0 <= k ->
  Z.testbit (MASK1 n p) k = (p <=? k) && (k <? n + p).
Proof.
  intros. unfold MASK1, shl32, not32.
  rewrite u32_testbit, Z.shiftl_spec by lia.
  destruct (Z.leb_spec p k); [|rewrite Z.testbit_neg_r by lia; btauto].
  rewrite u32_testbit, Z.lnot_spec, u32_testbit, Z.shiftl_spec by lia.
  destruct (Z.ltb_spec (k - p) n).
  - rewrite Z.testbit_neg_r by lia.
    destruct (Z.ltb_spec k 32), (Z.ltb_spec (k - p) 32), (Z.ltb_spec k (n + p)); try lia; done.
  - rewrite u32_testbit, Z.lnot_spec, Z.bits_0 by lia.
    destruct (Z.ltb_spec k 32), (Z.ltb_spec (k - p) 32), (Z.ltb_spec (k - p - n) 32),
      (Z.ltb_spec k (n + p)); try lia; done.
Qed.

Lemma MASK0_testbit n p k :
  0 <= n -> 0 <= p -> n + p <= 32 -> 0 <= k ->
  Z.testbit (MASK0 n p) k = (k <? 32) && negb ((p <=? k) && (k <? n + p)).
Proof.
  intros. unfold MASK0, not32. rewrite u32_testbit, Z.lnot_spec by lia.
  now rewrite MASK1_testbit.
Qed.

Create Rewrite HintDb bits.

Ltac side := lia.

#[export] Hint Rewrite Z.lor_spec Z.land_spec u32_testbit MASK1_testbit MASK0_testbit
  Z.shiftr_spec Z.shiftl_spec Z.bits_0 using side : bits.

(** a bit of [get_field] *)
Lemma get_field_testbit n p i k :
  0 <= n -> 0 <= p -> n + p <= 32 -> 0 <= k ->
  Z.testbit (get_field n p i) k = Z.testbit i (k + p) && (k <? n).
Proof.
  intros. unfold get_field. autorewrite with bits. f_equal.
  destruct (Z.leb_spec 0 k); [|lia]. simpl. f_equal. lia.
Qed.

Lemma shl32_testbit u p k :
  0 <= p -> 0 <= k ->
  Z.testbit (shl32 (u32 u) p) k = (k <? 32) && (p <=? k) && Z.testbit u (k - p).
Proof.
  intros. unfold shl32. rewrite u32_testbit, Z.shiftl_spec by lia.
  destruct (Z.leb_spec p k).
  - rewrite u32_testbit by lia.
    destruct (Z.ltb_spec k 32), (Z.ltb_spec (k - p) 32); try lia; done.
  - rewrite Z.testbit_neg_r by lia. btauto.
Qed.

Lemma set_field_testbit n p i u k :
  0 <= n -> 0 <= p -> n + p <= 32 -> 0 <= k ->
  Z.testbit (set_field n p i u) k =
  (k <? 32) && (if (p <=? k) && (k <? n + p) then Z.testbit u (k - p) else Z.testbit i k).
Proof.
  intros. unfold set_field.
  rewrite Z.lor_spec, !Z.land_spec, MASK0_testbit, MASK1_testbit, shl32_testbit by lia.
  destruct (Z.leb_spec p k), (Z.ltb_spec k (n + p)), (Z.ltb_spec k 32); simpl; try lia;
    rewrite ?andb_true_r, ?andb_false_r, ?orb_false_r; done.
Qed.

(** ** Fields of an updated instruction *)

(** reading the field just written *)
Lemma get_set_same n p i u :
  0 <= n -> 0 <= p -> n + p <= 32 -> 0 <= u < 2 ^ n ->
  get_field n p (set_field n p i u) = u.
Proof.
  intros Hn Hp Hnp Hu. apply Z.bits_inj'. intros k Hk.
  rewrite get_field_testbit, set_field_testbit by lia.
  destruct (Z.ltb_spec k n).
  - replace (k + p - p) with k by lia.
    destruct (Z.leb_spec p (k + p)), (Z.ltb_spec (k + p) (n + p)), (Z.ltb_spec (k + p) 32);
      simpl; try lia. now rewrite andb_true_r.
  - rewrite andb_false_r. symmetry. destruct (Z.eq_dec u 0) as [->|]; [apply Z.bits_0|].
    assert (Z.log2 u < n) by (apply Z.log2_lt_pow2; lia).
    apply Z.bits_above_log2; lia.
Qed.

(** reading a field disjoint from the one written *)
Lemma get_set_other n p n' p' i u :
  0 <= n -> 0 <= p -> n + p <= 32 -> 0 <= n' -> 0 <= p' -> n' + p' <= 32 ->
  n + p <= p' \/ n' + p' <= p ->
  get_field n' p' (set_field n p i u) = get_field n' p' i.
Proof.
  intros. apply Z.bits_inj'. intros k Hk.
  rewrite !get_field_testbit, set_field_testbit by lia.
  destruct (Z.ltb_spec k n'); [|now rewrite !andb_false_r].
  destruct (Z.leb_spec p (k + p')), (Z.ltb_spec (k + p') (n + p)), (Z.ltb_spec (k + p') 32);
    simpl; try lia; now rewrite !andb_true_r.
Qed.

Lemma set_field_instruction n p i u :
  0 <= n -> 0 <= p -> n + p <= 32 -> is_instruction i ->
  is_instruction (set_field n p i u).
Proof.
  intros Hn Hp Hnp Hi. unfold is_instruction.
  enough (set_field n p i u = u32 (set_field n p i u)) as -> by apply u32_range.
  apply Z.bits_inj'. intros k Hk. rewrite u32_testbit, set_field_testbit by lia.
  destruct (k <? 32); done.
Qed.

Lemma get_field_range n p i : 0 <= n -> 0 <= p -> n + p <= 32 -> 0 <= get_field n p i < 2 ^ n.
Proof.
  intros Hn Hp Hnp.
  assert (get_field n p i = get_field n p i mod 2 ^ n) as ->.
  { apply Z.bits_inj'. intros k Hk. destruct (Z.ltb_spec k n).
    - now rewrite Z.mod_pow2_bits_low by lia.
    - rewrite Z.mod_pow2_bits_high, get_field_testbit by lia.
      destruct (Z.ltb_spec k n); [lia|btauto]. }
  apply Z.mod_pos_bound. apply Z.pow_pos_nonneg; lia.
Qed.

(** the layout constants as numerals *)
Ltac fields :=
  change SIZE_Bx with 18 in *; change POS_Bx with 14 in *; change POS_B with 23 in *;
  change POS_C with 14 in *; change POS_A with 6 in *; change POS_OP with 0 in *;
  change SIZE_A with 8 in *; change SIZE_B with 9 in *; change SIZE_C with 9 in *;
  change SIZE_OP with 6 in *; change MAXARG_A with 255 in *; change MAXARG_B with 511 in *;
  change MAXARG_C with 511 in *; change MAXARG_Bx with 262143 in *;
  change MAXARG_sBx with 131071 in *.

Lemma small_testbit u n k : 0 <= u < 2 ^ n -> 0 <= n <= k -> Z.testbit u k = false.
Proof.
  intros Hu Hk. destruct (Z.eq_dec u 0) as [->|]; [apply Z.bits_0|].
  assert (Z.log2 u < n) by (apply Z.log2_lt_pow2; lia).
  apply Z.bits_above_log2; lia.
Qed.

(** [CREATE_ABC] writes the four fields of an empty instruction. *)
Lemma CREATE_ABC_fields o a b c :
  0 <= o < 2 ^ SIZE_OP -> 0 <= a <= MAXARG_A -> 0 <= b <= MAXARG_B -> 0 <= c <= MAXARG_C ->
  CREATE_ABC o a b c = SETARG_C (SETARG_B (SETARG_A (SET_OPCODE 0 o) a) b) c.
Proof.
  unfold CREATE_ABC, SETARG_C, SETARG_B, SETARG_A, SET_OPCODE.
  fields. intros Ho Ha Hb Hc. apply Z.bits_inj'. intros k Hk.
  rewrite !Z.lor_spec, !shl32_testbit by lia. rewrite !set_field_testbit by lia.
  zbool; simpl; rewrite ?Z.bits_0, ?orb_false_r; auto;
    rewrite ?(small_testbit o 6), ?(small_testbit a 8), ?(small_testbit c 9) by lia; btauto.
Qed.

Lemma CREATE_ABx_fields o a bc :
  0 <= o < 2 ^ SIZE_OP -> 0 <= a <= MAXARG_A -> 0 <= bc <= MAXARG_Bx ->
  CREATE_ABx o a bc = SETARG_Bx (SETARG_A (SET_OPCODE 0 o) a) bc.
Proof.
  unfold CREATE_ABx, SETARG_Bx, SETARG_A, SET_OPCODE.
  fields. intros Ho Ha Hb. apply Z.bits_inj'. intros k Hk.
  rewrite !Z.lor_spec, !shl32_testbit by lia. rewrite !set_field_testbit by lia.
  zbool; simpl; rewrite ?Z.bits_0, ?orb_false_r; auto;
    rewrite ?(small_testbit o 6), ?(small_testbit a 8) by lia; btauto.
Qed.

(** an instruction is determined by its four fields *)
Lemma instruction_ext i j :
  is_instruction i -> is_instruction j ->
  GET_OPCODE i = GET_OPCODE j -> GETARG_A i = GETARG_A j ->
  GETARG_B i = GETARG_B j -> GETARG_C i = GETARG_C j -> i = j.
Proof.
  intros Hi Hj EO EA EB EC. apply Z.bits_inj'. intros k Hk.
  destruct (Z.ltb_spec k 32);
    [|rewrite !(small_testbit _ 32) by (unfold is_instruction, UINT_MOD in *; lia); done].
  assert (forall n p, get_field n p i = get_field n p j -> 0 <= n -> 0 <= p -> n + p <= 32 ->
          p <= k < n + p -> Z.testbit i k = Z.testbit j k) as Hf.
  { intros n p E Hn Hp Hnp Hkp. apply (f_equal (fun z => Z.testbit z (k - p))) in E.
    rewrite !get_field_testbit in E by lia. replace (k - p + p) with k in E by lia.
    destruct (Z.ltb_spec (k - p) n); [|lia]. now rewrite !andb_true_r in E. }
  unfold GET_OPCODE, GETARG_A, GETARG_B, GETARG_C in *. fields.
  destruct (Z_lt_le_dec k 6); [apply (Hf _ _ EO); lia|].
  destruct (Z_lt_le_dec k 14); [apply (Hf _ _ EA); lia|].
  destruct (Z_lt_le_dec k 23); [apply (Hf _ _ EC); lia|apply (Hf _ _ EB); lia].
Qed.

(** the value of each field, and its disjointness from the others *)
Ltac field_get :=
  unfold SETARG_C, SETARG_B, SETARG_A, SETARG_Bx, SET_OPCODE,
         GETARG_C, GETARG_B, GETARG_A, GETARG_Bx, GET_OPCODE;
  fields;
  repeat ((rewrite get_set_same by lia) || (rewrite get_set_other by lia)); try done.

Lemma GETARG_range i :
  (0 <= GET_OPCODE i < 2 ^ SIZE_OP) /\ (0 <= GETARG_A i <= MAXARG_A) /\
  (0 <= GETARG_B i <= MAXARG_B) /\ (0 <= GETARG_C i <= MAXARG_C) /\
  (0 <= GETARG_Bx i <= MAXARG_Bx).
Proof.
  unfold GET_OPCODE, GETARG_A, GETARG_B, GETARG_C, GETARG_Bx. fields.
  pose proof (get_field_range 6 0 i). pose proof (get_field_range 8 6 i).
  pose proof (get_field_range 9 23 i). pose proof (get_field_range 9 14 i).
  pose proof (get_field_range 18 14 i). lia.
Qed.

Lemma is_instruction_0 : is_instruction 0.
Proof. unfold is_instruction, UINT_MOD. lia. Qed.

Ltac instr := repeat (apply set_field_instruction; [done..|]); try exact is_instruction_0.

Lemma CREATE_ABC_get o a b c :
  0 <= o < 2 ^ SIZE_OP -> 0 <= a <= MAXARG_A -> 0 <= b <= MAXARG_B -> 0 <= c <= MAXARG_C ->
  is_instruction (CREATE_ABC o a b c) /\
  GET_OPCODE (CREATE_ABC o a b c) = o /\ GETARG_A (CREATE_ABC o a b c) = a /\
  GETARG_B (CREATE_ABC o a b c) = b /\ GETARG_C (CREATE_ABC o a b c) = c.
Proof.
  intros. rewrite CREATE_ABC_fields by done.
  fields. split; [instr|]. repeat split; field_get.
Qed.

Lemma CREATE_ABx_get o a bc :
  0 <= o < 2 ^ SIZE_OP -> 0 <= a <= MAXARG_A -> 0 <= bc <= MAXARG_Bx ->
  is_instruction (CREATE_ABx o a bc) /\
  GET_OPCODE (CREATE_ABx o a bc) = o /\ GETARG_A (CREATE_ABx o a bc) = a /\
  GETARG_Bx (CREATE_ABx o a bc) = bc.
Proof.
  intros. rewrite CREATE_ABx_fields by done.
  fields. split; [instr|]. repeat split; field_get.
Qed.

(** ** Properties *)

(** encoding an instruction and decoding it are inverse to each other: for
    field values in range, the getters applied to [CREATE_ABC] and
    [CREATE_ABx] return the fields and the result is a 32-bit word, and every
    32-bit word is the [CREATE_ABC] of its own fields. *)
Theorem instruction_roundtrip :
  (forall o a b c,
     0 <= o < 2 ^ SIZE_OP -> 0 <= a <= MAXARG_A -> 0 <= b <= MAXARG_B -> 0 <= c <= MAXARG_C ->
     let i := CREATE_ABC o a b c in
     is_instruction i /\ GET_OPCODE i = o /\ GETARG_A i = a /\ GETARG_B i = b /\ GETARG_C i = c) /\
  (forall o a bc,
     0 <= o < 2 ^ SIZE_OP -> 0 <= a <= MAXARG_A -> 0 <= bc <= MAXARG_Bx ->
     let i := CREATE_ABx o a bc in
     is_instruction i /\ GET_OPCODE i = o /\ GETARG_A i = a /\ GETARG_Bx i = bc) /\
  (forall i, is_instruction i ->
     CREATE_ABC (GET_OPCODE i) (GETARG_A i) (GETARG_B i) (GETARG_C i) = i).
Proof.
  split; [exact CREATE_ABC_get|]. split; [exact CREATE_ABx_get|].
  intros i Hi. destruct (GETARG_range i) as (HO & HA & HB & HC & _).
  destruct (CREATE_ABC_get _ _ _ _ HO HA HB HC) as (H & E1 & E2 & E3 & E4).
  now apply instruction_ext.
Qed.

Lemma instruction_roundtrip_witness :
  GETARG_B (CREATE_ABC 12 5 256 511) = 256 /\
  CREATE_ABC (GET_OPCODE 3229614080) (GETARG_A 3229614080) (GETARG_B 3229614080)
             (GETARG_C 3229614080) = 3229614080.
Proof.
  split.
  - apply (proj1 instruction_roundtrip 12 5 256 511); vm_compute; split; congruence.
  - apply (proj2 (proj2 instruction_roundtrip) 3229614080). vm_compute; split; congruence.
Defined.

(** each SETARG macro writes its own field and no other: it stores the
    value modulo nothing when the value is in range, keeps the opcode and the
    remaining fields, and [SETARG_sBx] stores a signed offset that
    [GETARG_sBx] reads back. *)
Theorem setarg_frame i u :
  (0 <= u <= MAXARG_A ->
     let j := SETARG_A i u in
     GETARG_A j = u /\ GET_OPCODE j = GET_OPCODE i /\ GETARG_Bx j = GETARG_Bx i) /\
  (0 <= u <= MAXARG_B ->
     let j := SETARG_B i u in
     GETARG_B j = u /\ GET_OPCODE j = GET_OPCODE i /\ GETARG_A j = GETARG_A i /\
     GETARG_C j = GETARG_C i) /\
  (0 <= u <= MAXARG_C ->
     let j := SETARG_C i u in
     GETARG_C j = u /\ GET_OPCODE j = GET_OPCODE i /\ GETARG_A j = GETARG_A i /\
     GETARG_B j = GETARG_B i) /\
  (- MAXARG_sBx <= u <= MAXARG_sBx ->
     let j := SETARG_sBx i u in
     GETARG_sBx j = u /\ GET_OPCODE j = GET_OPCODE i /\ GETARG_A j = GETARG_A i).
Proof.
  unfold GETARG_sBx, SETARG_sBx. fields.
  repeat split; intros; try rewrite (u32_id (u + 131071)) by (unfold UINT_MOD; lia); field_get.
  lia.
Qed.

Lemma setarg_frame_witness :
  GETARG_sBx (SETARG_sBx (CREATE_ABC 22 0 0 0) (-7)) = -7 /\
  GETARG_A (SETARG_A (CREATE_ABC 12 1 2 3) 250) = 250.
Proof.
  split.
  - apply (setarg_frame (CREATE_ABC 22 0 0 0) (-7)). vm_compute; split; discriminate.
  - apply (setarg_frame (CREATE_ABC 12 1 2 3) 250). vm_compute; split; discriminate.
Defined.

(** [op_of] inverts [op_num]: the enumeration has no gap below [NUM_OPCODES]. *)
Lemma op_of_num o : op_of (op_num o) = Some o.
Proof. destruct o; reflexivity. Qed.

Lemma op_num_of z o : op_of z = Some o -> op_num o = z.
Proof.
  unfold op_of. destruct (Z.ltb_spec z 0); [discriminate|]. intros E.
  pose proof (lookup_lt_Some _ _ _ E) as Hlt. simpl in Hlt.
  assert (exists n, Z.to_nat z = n /\ (n < 38)%nat) as (n & En & Hn) by eauto.
  rewrite En in E. assert (z = Z.of_nat n) as -> by lia. clear - E Hn.
  do 38 (destruct n as [|n]; [inversion E; reflexivity|]). lia.
Qed.

Lemma op_of_Some z : 0 <= z < NUM_OPCODES -> is_Some (op_of z).
Proof.
  unfold NUM_OPCODES, op_of. simpl. intros H. destruct (Z.ltb_spec z 0); [lia|].
  apply lookup_lt_is_Some. simpl. lia.
Qed.
