(* ===== verification/Object.v ===== *)
(** * Values and generic object functions: gobject.h, gobject.c

    A [TValue] is a tag with the union field of that tag.  Collectable values
    carry the address of their object ([GCObject *]); two collectable values
    are the same object iff the addresses are equal. *)

From S2P Require Import Prelude Number.

(** address of a collectable object, or a light userdata pointer *)
Definition pointer := Z.

(** the largest "safe" [int] and [size_t] (glimits.h) *)
Definition MAX_INT : Z := INT_MAX - 2.
Definition MAX_SIZET : Z := SIZE_MOD - 3.

Inductive TValue :=
  | VNil
  | VBoolean (b : Z)
  | VLightUserdata (p : pointer)
  | VNumber (n : gafq_Number)
  | VString (ts : pointer)
  | VTable (h : pointer)
  | VFunction (cl : pointer)
  | VUserdata (u : pointer)
  | VThread (th : pointer)
  | VProto (pt : pointer)
  | VDeadKey (gc : pointer).

#[export] Instance TValue_eq_dec : EqDecision TValue.
Proof. solve_decision. Defined.

Definition GAFQ_TNIL : Z := 0.
Definition GAFQ_TBOOLEAN : Z := 1.
Definition GAFQ_TLIGHTUSERDATA : Z := 2.
Definition GAFQ_TNUMBER : Z := 3.
Definition GAFQ_TSTRING : Z := 4.
Definition GAFQ_TTABLE : Z := 5.
Definition GAFQ_TFUNCTION : Z := 6.
Definition GAFQ_TUSERDATA : Z := 7.
Definition GAFQ_TTHREAD : Z := 8.
Definition GAFQ_TPROTO : Z := 9.
Definition GAFQ_TDEADKEY : Z := 11.

Definition ttype (o : TValue) : Z :=
  match o with
  | VNil => GAFQ_TNIL
  | VBoolean _ => GAFQ_TBOOLEAN
  | VLightUserdata _ => GAFQ_TLIGHTUSERDATA
  | VNumber _ => GAFQ_TNUMBER
  | VString _ => GAFQ_TSTRING
  | VTable _ => GAFQ_TTABLE
  | VFunction _ => GAFQ_TFUNCTION
  | VUserdata _ => GAFQ_TUSERDATA
  | VThread _ => GAFQ_TTHREAD
  | VProto _ => GAFQ_TPROTO
  | VDeadKey _ => GAFQ_TDEADKEY
  end.

Definition ttisnil (o : TValue) : bool := ttype o =? GAFQ_TNIL.
Definition ttisnumber (o : TValue) : bool := ttype o =? GAFQ_TNUMBER.
Definition ttisstring (o : TValue) : bool := ttype o =? GAFQ_TSTRING.
Definition iscollectable (o : TValue) : bool := GAFQ_TSTRING <=? ttype o.

(** [gcvalue(o)]: the address in the union (0 where the union holds no address) *)
Definition gcvalue (o : TValue) : pointer :=
  match o with
  | VString p | VTable p | VFunction p | VUserdata p | VThread p | VProto p | VDeadKey p => p
  | _ => 0
  end.

Definition l_isfalse (o : TValue) : bool :=
  match o with VNil => true | VBoolean b => b =? 0 | _ => false end.

(** [gafqO_rawequalObj] *)
Definition gafqO_rawequalObj (t1 t2 : TValue) : bool :=
  if negb (ttype t1 =? ttype t2) then false
  else match t1, t2 with
       | VNil, _ => true
       | VNumber n1, VNumber n2 => gafqi_numeq n1 n2
       | VBoolean b1, VBoolean b2 => b1 =? b2
       | VLightUserdata p1, VLightUserdata p2 => p1 =? p2
       | _, _ => gcvalue t1 =? gcvalue t2
       end.

(** ** "Floating point bytes" *)

(** the loop of [gafqO_int2fb]: [while (x >= 16) { x = (x+1) >> 1; e++; }] *)
Fixpoint int2fb_loop (fuel : nat) (x e : Z) : Z * Z :=
  match fuel with
  | O => (x, e)
  | S fuel' => if 16 <=? x then int2fb_loop fuel' (Z.shiftr (u32 (x + 1)) 1) (e + 1) else (x, e)
  end.

(** 32 rounds halve every 32-bit number below 16 *)
Definition gafqO_int2fb (x : Z) : Z :=
  let '(x, e) := int2fb_loop 32 x 0 in
  if x <? 8 then x else Z.lor (Z.shiftl (e + 1) 3) (x - 8).

Definition gafqO_fb2int (x : Z) : Z :=
  let e := Z.land (Z.shiftr x 3) 31 in
  if e =? 0 then x else s32 (Z.shiftl (Z.land x 7 + 8) (e - 1)).

(** ** Logarithms *)

Definition log_2 : list Z :=
  [ 0;1;2;2;3;3;3;3;4;4;4;4;4;4;4;4;5;5;5;5;5;5;5;5;5;5;5;5;5;5;5;5;
    6;6;6;6;6;6;6;6;6;6;6;6;6;6;6;6;6;6;6;6;6;6;6;6;6;6;6;6;6;6;6;6;
    7;7;7;7;7;7;7;7;7;7;7;7;7;7;7;7;7;7;7;7;7;7;7;7;7;7;7;7;7;7;7;7;
    7;7;7;7;7;7;7;7;7;7;7;7;7;7;7;7;7;7;7;7;7;7;7;7;7;7;7;7;7;7;7;7;
    8;8;8;8;8;8;8;8;8;8;8;8;8;8;8;8;8;8;8;8;8;8;8;8;8;8;8;8;8;8;8;8;
    8;8;8;8;8;8;8;8;8;8;8;8;8;8;8;8;8;8;8;8;8;8;8;8;8;8;8;8;8;8;8;8;
    8;8;8;8;8;8;8;8;8;8;8;8;8;8;8;8;8;8;8;8;8;8;8;8;8;8;8;8;8;8;8;8;
    8;8;8;8;8;8;8;8;8;8;8;8;8;8;8;8;8;8;8;8;8;8;8;8;8;8;8;8;8;8;8;8 ].

(** [while (x >= 256) { l += 8; x >>= 8; }] *)
Fixpoint log2_loop (fuel : nat) (l x : Z) : Z * Z :=
  match fuel with
  | O => (l, x)
  | S fuel' => if 256 <=? x then log2_loop fuel' (l + 8) (Z.shiftr x 8) else (l, x)
  end.

(** 4 rounds bring every 32-bit number below 256 *)
Definition gafqO_log2 (x : Z) : Z :=
  let '(l, x) := log2_loop 4 (-1) x in l + vget 0 log_2 x.

Definition ceillog2 (x : Z) : Z := gafqO_log2 (u32 (x - 1)) + 1.

Definition twoto (x : Z) : Z := Z.shiftl 1 x.

(** ** Chunk names

    [gafqO_chunkid] writes a C string into [out]; the model returns the
    characters before the terminating 0.  [source] is the C string at
    [source], without its terminator. *)

Fixpoint strcspn_nl (s : bytes) : nat :=
  match s with
  | [] => 0%nat
  | c :: s' => if (c =? 10) || (c =? 13) then 0%nat else S (strcspn_nl s')
  end.

Definition sizeof_file_deco : Z := 8.    (* sizeof of the decoration around a file name *)
Definition sizeof_string_deco : Z := 17. (* sizeof of the decoration around a string chunk *)

(** the branch for [[string "..."]] *)
Definition chunkid_string (source : bytes) (bufflen : Z) : bytes :=
  let len := Z.of_nat (strcspn_nl source) in
  let bufflen := bufflen - sizeof_string_deco in
  let len := if bufflen <? len then bufflen else len in
  str "[string " ++ [34] ++
  (if len <? Z.of_nat (length source) then take (Z.to_nat len) source ++ str "..."
   else source) ++
  [34] ++ str "]".

Definition gafqO_chunkid (source : bytes) (bufflen : Z) : bytes :=
  match source with
  | [] => chunkid_string source bufflen
  | c :: rest =>
      if c =? chr "=" then take (Z.to_nat (bufflen - 1)) rest
      else if c =? chr "@" then
        let bufflen := bufflen - sizeof_file_deco in
        let l := Z.of_nat (length rest) in
        if bufflen <? l then str "..." ++ drop (Z.to_nat (l - bufflen)) rest else rest
      else chunkid_string source bufflen
  end.

(** ** Raw equality *)

Lemma rawequal_inv v w :
  gafqO_rawequalObj v w = true ->
  v = w \/ exists m n, v = VNumber m /\ w = VNumber n /\ gafqi_numeq m n = true.
Proof.
  unfold gafqO_rawequalObj. destruct v, w; simpl; try discriminate; eauto 7;
    intros ->%Z.eqb_eq; auto.
Qed.

Definition is_nan (v : TValue) : bool :=
  match v with VNumber n => gafqi_numisnan n | _ => false end.

Lemma rawequal_refl v : is_nan v = false -> gafqO_rawequalObj v v = true.
Proof.
  unfold gafqO_rawequalObj. rewrite Z.eqb_refl. destruct v; simpl; try (intros; apply Z.eqb_refl);
    [done|]. intros H. apply numeq_refl. intros ->. discriminate.
Qed.

Lemma rawequal_sym v w : gafqO_rawequalObj v w = gafqO_rawequalObj w v.
Proof.
  unfold gafqO_rawequalObj. destruct v, w; simpl; try reflexivity; try apply Z.eqb_sym.
  apply numeq_sym.
Qed.

Lemma rawequal_trans u v w :
  gafqO_rawequalObj u v = true -> gafqO_rawequalObj v w = true -> gafqO_rawequalObj u w = true.
Proof.
  intros H1 H2. destruct (rawequal_inv _ _ H1) as [->|(m & n & -> & -> & E)]; [done|].
  destruct (rawequal_inv _ _ H2) as [<-|(m' & n' & [= <-] & -> & E')]; [done|].
  unfold gafqO_rawequalObj. simpl. eapply numeq_trans; eauto.
Qed.

Lemma rawequal_nan v w : gafqO_rawequalObj v w = true -> is_nan v = false /\ is_nan w = false.
Proof.
  intros H. destruct (rawequal_inv _ _ H) as [<-|(m & n & -> & -> & E)].
  - destruct v; try done. simpl.
    unfold gafqO_rawequalObj in H. simpl in H. unfold gafqi_numisnan. now rewrite H.
  - destruct (numeq_not_nan _ _ E). simpl.
    split; apply not_true_is_false; rewrite numisnan_spec; done.
Qed.

(** raw equality of non-NaN values is an equivalence relation, and a NaN is
    equal to nothing, not even itself. *)
Theorem rawequal_equivalence u v w :
  (is_nan u = false -> gafqO_rawequalObj u u = true) /\
  gafqO_rawequalObj u v = gafqO_rawequalObj v u /\
  (gafqO_rawequalObj u v = true -> gafqO_rawequalObj v w = true ->
   gafqO_rawequalObj u w = true) /\
  (is_nan u = true -> gafqO_rawequalObj u v = false).
Proof.
  split; [apply rawequal_refl|]. split; [apply rawequal_sym|].
  split; [apply rawequal_trans|]. intros Hn.
  apply not_true_is_false. intros [E _]%rawequal_nan. congruence.
Qed.

Lemma rawequal_equivalence_witness :
  gafqO_rawequalObj (VNumber (cast_num 3)) (VNumber (cast_num 3)) = true /\
  gafqO_rawequalObj (VNumber SpecFloat.S754_nan) (VNumber SpecFloat.S754_nan) = false.
Proof.
  split.
  - apply (rawequal_equivalence (VNumber (cast_num 3)) VNil VNil). reflexivity.
  - apply (rawequal_equivalence (VNumber SpecFloat.S754_nan) (VNumber SpecFloat.S754_nan) VNil).
    reflexivity.
Defined.

(** ** Logarithms *)

Lemma log_2_table x : 0 <= x < 256 -> vget 0 log_2 x = if x =? 0 then 0 else Z.log2 x + 1.
Proof.
  intros H.
  assert (forallb (fun x => vget 0 log_2 x =? (if x =? 0 then 0 else Z.log2 x + 1)) (seqZ 0 256)
          = true) as F by (vm_compute; reflexivity).
  rewrite forallb_forall in F. apply Z.eqb_eq, F. apply list_elem_of_In, elem_of_seqZ. lia.
Qed.

Lemma log2_loop_spec fuel l x :
  0 < x < 2 ^ (8 * Z.of_nat (S fuel)) ->
  let '(l', y) := log2_loop fuel l x in
  0 < y < 256 /\ l' + Z.log2 y = l + Z.log2 x.
Proof.
  revert l x. induction fuel as [|fuel IH]; intros l x Hx.
  - simpl. split; [|done]. change (2 ^ (8 * Z.of_nat 1)) with 256 in Hx. done.
  - simpl. destruct (Z.leb_spec 256 x) as [L|L]; [|simpl; lia].
    rewrite Z.shiftr_div_pow2 by lia. change (2 ^ 8) with 256.
    assert (0 < x / 256) by (apply Z.div_str_pos; lia).
    specialize (IH (l + 8) (x / 256)).
    destruct (log2_loop fuel (l + 8) (x / 256)) as [l' y].
    destruct IH as [Hy E].
    { split; [done|]. apply Z.div_lt_upper_bound; [lia|].
      replace (8 * Z.of_nat (S (S fuel))) with (8 + 8 * Z.of_nat (S fuel)) in Hx by lia.
      rewrite Z.pow_add_r in Hx by lia. change (2 ^ 8) with 256 in Hx. lia. }
    split; [done|]. rewrite E.
    assert (Z.log2 x = Z.log2 (x / 256) + 8); [|lia].
    change 256 with (2 ^ 8). rewrite <- Z.shiftr_div_pow2 by lia.
    rewrite Z.log2_shiftr by lia.
    assert (8 <= Z.log2 x) by (change 8 with (Z.log2 256); now apply Z.log2_le_mono). lia.
Qed.

Lemma gafqO_log2_spec x : 0 < x < UINT_MOD -> gafqO_log2 x = Z.log2 x.
Proof.
  intros Hx. unfold gafqO_log2. pose proof (log2_loop_spec 4 (-1) x) as H.
  destruct (log2_loop 4 (-1) x) as [l y]. destruct H as [Hy E].
  { unfold UINT_MOD in Hx. split; [lia|]. eapply Z.lt_le_trans; [apply Hx|].
    vm_compute. discriminate. }
  rewrite log_2_table by lia. destruct (Z.eqb_spec y 0); lia.
Qed.

Lemma ceillog2_spec x : 0 < x <= INT_MAX -> ceillog2 x = Z.log2_up x.
Proof.
  intros Hx. unfold ceillog2. unfold INT_MAX in Hx.
  rewrite u32_id by (unfold UINT_MOD; lia).
  destruct (Z.eq_dec x 1) as [->|]; [reflexivity|].
  rewrite gafqO_log2_spec by (unfold UINT_MOD; lia).
  rewrite Z.log2_up_eqn by lia. replace (Z.pred x) with (x - 1) by lia. lia.
Qed.

(** the table-driven [gafqO_log2] is the integer logarithm of every positive
    32-bit number and -1 on 0, and [ceillog2(x)] is the least [n] with
    [x <= 2^n]. *)
Theorem log2_correct x :
  gafqO_log2 0 = -1 /\
  (0 < x < UINT_MOD -> 2 ^ gafqO_log2 x <= x < 2 ^ (gafqO_log2 x + 1)) /\
  (0 < x <= INT_MAX ->
     0 <= ceillog2 x /\ x <= 2 ^ ceillog2 x /\ forall n, 0 <= n -> x <= 2 ^ n -> ceillog2 x <= n).
Proof.
  split; [reflexivity|]. split.
  - intros Hx. rewrite gafqO_log2_spec by done. apply Z.log2_spec. lia.
  - intros Hx. rewrite ceillog2_spec by done.
    split; [apply Z.log2_up_nonneg|]. split.
    + destruct (Z.eq_dec x 1) as [->|]; [vm_compute; discriminate|].
      apply Z.log2_up_spec. lia.
    + intros n Hn Hxn. destruct (Z.eq_dec x 1) as [->|]; [done|].
      apply Z.log2_up_le_pow2; lia.
Qed.

Lemma log2_correct_witness : 2 ^ gafqO_log2 1000 <= 1000 < 2 ^ (gafqO_log2 1000 + 1).
Proof. apply (log2_correct 1000). vm_compute. split; reflexivity. Defined.

(** ** Floating point bytes *)

(** [ceil(x / 2^e)] *)
Definition cdiv (x d : Z) : Z := (x + d - 1) / d.

Lemma cdiv_half x e : 0 <= e -> Z.shiftr (cdiv x (2 ^ e) + 1) 1 = cdiv x (2 ^ (e + 1)).
Proof.
  intros He. unfold cdiv. rewrite Z.shiftr_div_pow2, Z.pow_add_r by lia. change (2 ^ 1) with 2.
  assert (0 < 2 ^ e) by (apply Z.pow_pos_nonneg; lia).
  rewrite <- Z.div_div by lia. set (d := 2 ^ e) in *.
  replace (x + d * 2 - 1) with (x + d - 1 + 1 * d) by lia. now rewrite Z.div_add by lia.
Qed.

Lemma cdiv_bounds x d : 0 < d -> x <= cdiv x d * d < x + d.
Proof.
  intros Hd. unfold cdiv.
  pose proof (Z.div_mod (x + d - 1) d ltac:(lia)). pose proof (Z.mod_pos_bound (x + d - 1) d Hd).
  nia.
Qed.

(** the loop ends with [x] divided by a power of two, rounded up; it stopped at
    the first power that brings it below 16 *)
Lemma int2fb_loop_spec fuel x0 e :
  0 <= x0 < UINT_MOD - 1 -> 0 <= e -> x0 < 16 * 2 ^ (e + Z.of_nat fuel) - 2 ^ (e + Z.of_nat fuel) ->
  (1 <= e -> 15 * 2 ^ (e - 1) < x0) ->
  let '(y, e') := int2fb_loop fuel (cdiv x0 (2 ^ e)) e in
  0 <= e' /\ y = cdiv x0 (2 ^ e') /\ y < 16 /\ (1 <= e' -> 15 * 2 ^ (e' - 1) < x0).
Proof.
  revert e. induction fuel as [|fuel IH]; intros e Hx He Hf Hlow;
    assert (0 < 2 ^ e) by (apply Z.pow_pos_nonneg; lia);
    pose proof (cdiv_bounds x0 (2 ^ e) ltac:(lia)) as Hb.
  - simpl. rewrite Z.add_0_r in Hf. repeat split; try done. nia.
  - simpl. destruct (Z.leb_spec 16 (cdiv x0 (2 ^ e))) as [L|L]; [|auto].
    rewrite u32_id, cdiv_half by (unfold UINT_MOD in *; nia).
    apply IH; [done|lia| |].
    + replace (e + 1 + Z.of_nat fuel) with (e + Z.of_nat (S fuel)) by lia. done.
    + intros _. replace (e + 1 - 1) with e by lia. nia.
Qed.

Lemma lor_shifted a b n : 0 <= n -> 0 <= b < 2 ^ n -> Z.lor (Z.shiftl a n) b = a * 2 ^ n + b.
Proof.
  intros Hn Hb. rewrite Z.shiftl_mul_pow2 by done. rewrite <- Z.add_lor_land.
  enough (Z.land (a * 2 ^ n) b = 0) by lia.
  apply Z.bits_inj'. intros k Hk. rewrite Z.land_spec, Z.bits_0.
  destruct (Z_lt_le_dec k n); [now rewrite Z.mul_pow2_bits_low by lia|].
  rewrite <- (Z.mod_small b (2 ^ n)), Z.mod_pow2_bits_high by lia. btauto.
Qed.

Lemma fb2int_code e y :
  0 <= e < 31 -> 8 <= y < 16 -> y * 2 ^ e <= INT_MAX ->
  gafqO_fb2int (Z.lor (Z.shiftl (e + 1) 3) (y - 8)) = y * 2 ^ e.
Proof.
  intros He Hy Hmax. unfold gafqO_fb2int.
  assert (Z.lor (Z.shiftl (e + 1) 3) (y - 8) = (e + 1) * 8 + (y - 8)) as ->.
  { now rewrite lor_shifted by lia. }
  rewrite Z.shiftr_div_pow2 by lia. change (2 ^ 3) with 8.
  rewrite Z.div_add_l, (Z.div_small (y - 8)), Z.add_0_r by lia.
  assert (Z.land (e + 1) 31 = e + 1) as ->.
  { change 31 with (Z.ones 5). rewrite Z.land_ones by lia. apply Z.mod_small. lia. }
  destruct (Z.eqb_spec (e + 1) 0); [lia|].
  change 7 with (Z.ones 3). rewrite Z.land_ones by lia. change (2 ^ 3) with 8.
  replace ((e + 1) * 8 + (y - 8)) with (y - 8 + (e + 1) * 8) by lia.
  rewrite Z.mod_add, Z.mod_small by lia.
  rewrite Z.shiftl_mul_pow2 by lia. replace (y - 8 + 8) with y by lia.
  replace (e + 1 - 1) with e by lia. apply s32_id.
  unfold int_range, INT_MIN, INT_MAX in *. nia.
Qed.

(** [gafqO_int2fb] rounds up to the next representable size: for every
    request up to 15*2^27 the code fits a byte, decodes to a size that is at
    least the request and still an [int], and no smaller size above the
    request has a code. *)
Theorem int2fb_rounds_up x :
  0 <= x <= 15 * 2 ^ 27 ->
  let c := gafqO_int2fb x in
  0 <= c < 256 /\ x <= gafqO_fb2int c <= INT_MAX /\
  forall m e, 0 <= e -> 0 <= m < 16 -> x <= m * 2 ^ e -> gafqO_fb2int c <= m * 2 ^ e.
Proof.
  intros Hx. unfold gafqO_int2fb.
  pose proof (int2fb_loop_spec 32 x 0) as H.
  replace (cdiv x (2 ^ 0)) with x in H by (unfold cdiv; simpl; rewrite Z.div_1_r; lia).
  destruct (int2fb_loop 32 x 0) as [y e].
  destruct H as (He & Hy & Hlt & Hlow); [unfold UINT_MOD; lia|lia|simpl; lia|lia|].
  assert (0 < 2 ^ e) as Hpe by (apply Z.pow_pos_nonneg; lia).
  pose proof (cdiv_bounds x (2 ^ e) Hpe) as Hb. rewrite <- Hy in Hb.
  assert (e <= 27) as He27.
  { destruct (Z_le_gt_dec e 27) as [|G]; [done|]. exfalso. specialize (Hlow ltac:(lia)).
    pose proof (Z.pow_le_mono_r 2 27 (e - 1)). lia. }
  assert (forall m k, 0 <= k -> 0 <= m < 16 -> x <= m * 2 ^ k -> y * 2 ^ e <= m * 2 ^ k) as Hleast.
  { intros m k Hk Hm Hmk. destruct (Z_lt_le_dec k e) as [L|L].
    - exfalso. specialize (Hlow ltac:(lia)). pose proof (Z.pow_le_mono_r 2 k (e - 1)). nia.
    - replace k with (e + (k - e)) in * by lia. rewrite Z.pow_add_r in * by lia.
      assert (0 < 2 ^ (k - e)) by (apply Z.pow_pos_nonneg; lia).
      assert (y <= m * 2 ^ (k - e)); [|nia].
      destruct (Z_le_gt_dec y (m * 2 ^ (k - e))) as [|G]; [done|].
      assert (y - 1 >= m * 2 ^ (k - e)) by lia. nia. }
  destruct (Z.ltb_spec y 8) as [L8|L8].
  - assert (e = 0) as ->.
    { destruct (Z.eq_dec e 0); [done|]. exfalso. specialize (Hlow ltac:(lia)).
      replace e with (e - 1 + 1) in Hb by lia. rewrite Z.pow_add_r in Hb by lia. nia. }
    simpl in Hb. assert (y = x) by lia. subst y. clear Hleast.
    unfold gafqO_fb2int. rewrite Z.shiftr_div_pow2 by lia. change (2 ^ 3) with 8.
    rewrite Z.div_small by lia. simpl. unfold INT_MAX. repeat split; lia.
  - assert (y * 2 ^ e <= INT_MAX).
    { transitivity (15 * 2 ^ 27); [|vm_compute; discriminate]. apply Hleast; lia. }
    rewrite fb2int_code by lia. split; [|split; [lia|done]].
    rewrite lor_shifted by lia. lia.
Qed.

Lemma int2fb_rounds_up_witness :
  0 <= 1000 <= 15 * 2 ^ 27 /\ 1000 <= gafqO_fb2int (gafqO_int2fb 1000) <= INT_MAX.
Proof.
  split; [vm_compute; split; discriminate|].
  apply (int2fb_rounds_up 1000). vm_compute; split; discriminate.
Defined.

(** ** Chunk names *)

Lemma strcspn_nl_le s : (strcspn_nl s <= length s)%nat.
Proof. induction s as [|c s IH]; simpl; [lia|]. destruct (_ || _); lia. Qed.

(** [gafqO_chunkid] never writes outside its buffer: with a buffer of at least
    17 bytes (the callers give 60 and 80) the name and its terminating 0 fit, and
    a name that is cut off still has the leading or trailing dots. *)
Theorem chunkid_fits source bufflen :
  sizeof_string_deco <= bufflen ->
  Z.of_nat (length (gafqO_chunkid source bufflen)) < bufflen.
Proof.
  unfold sizeof_string_deco. intros Hb.
  assert (forall s, Z.of_nat (length (chunkid_string s bufflen)) < bufflen) as Hgen.
  { intros s. unfold chunkid_string, sizeof_string_deco. cbv zeta.
    rewrite !length_app. simpl (length (str _)). simpl (length [_]).
    pose proof (strcspn_nl_le s).
    destruct (Z.ltb_spec (bufflen - 17) (Z.of_nat (strcspn_nl s)));
      match goal with |- context [if ?c then _ else _] => destruct c eqn:E end;
      rewrite ?length_app, ?length_take; simpl (length (str _));
      try apply Z.ltb_lt in E; try apply Z.ltb_ge in E; lia. }
  unfold gafqO_chunkid, sizeof_file_deco.
  destruct source as [|c rest]; [apply Hgen|].
  destruct (c =? chr "="); [rewrite length_take; lia|].
  destruct (c =? chr "@"); [|apply Hgen]. cbv zeta.
  destruct (Z.ltb_spec (bufflen - 8) (Z.of_nat (length rest))); [|lia].
  rewrite length_app, length_drop. simpl (length (str _)). lia.
Qed.

Lemma chunkid_fits_witness :
  sizeof_string_deco <= 60 /\
  Z.of_nat (length (gafqO_chunkid (str "return 1") 60)) < 60.
Proof.
  split; [vm_compute; discriminate|].
  apply (chunkid_fits (str "return 1") 60). vm_compute; discriminate.
Defined.
