(* ===== verification/Table.v ===== *)
(** * Tables: gtable.c, gtable.h

    A table has an array part for the keys [1 .. sizearray] and a hash part, a
    chained scatter table with Brent's variation whose chains run through the
    node vector itself.  [Node *] is an index into the node vector, [NULL] is
    [None]; the shared [dummynode] of an empty hash part is the flag
    [isdummy].  The functions that return a [TValue *] into the table return a
    [Slot] (an array index or a node index), [gafqO_nilobject] being [None];
    the caller reads it with [slot_val] and writes through it with [set_slot].

    [ts_hash] is the field [tsv.hash] of the string object at an address: it is
    computed when the string is created (gstring.c) and never written again.

    Allocation always succeeds in this model; the errors left are the ones
    gtable.c raises itself.

    [newkey], [rehash], [resize], [gafqH_set] and [gafqH_setnum] are mutually
    recursive.  They are written here with [newkey] as a parameter [nk] and the
    knot is tied in [newkey], whose fuel counts nested rehashes: one is always
    enough, because a rehash makes room for every key (TableSizes.v). *)

From S2P Require Import Prelude Number Object.

Record Node := mkNode { i_val : TValue; i_key : TValue; next : option nat }.

Record Table := mkTable {
  flags : Z;
  lsizenode : Z;
  metatable : option pointer;
  array : list TValue;
  sizearray : Z;
  node : list Node;
  isdummy : bool;     (* t->node == dummynode *)
  lastfree : Z        (* index of *lastfree relative to node *)
}.

Inductive Slot := SArray (i : nat) | SNode (n : nat).

#[export] Instance Slot_eq_dec : EqDecision Slot.
Proof. solve_decision. Defined.

Definition dummynode_ : Node := mkNode VNil VNil None.

Definition with_flags (t : Table) (x : Z) : Table :=
  mkTable x (lsizenode t) (metatable t) (array t) (sizearray t) (node t) (isdummy t) (lastfree t).
Definition with_array (t : Table) (a : list TValue) (n : Z) : Table :=
  mkTable (flags t) (lsizenode t) (metatable t) a n (node t) (isdummy t) (lastfree t).
Definition with_nodes (t : Table) (ns : list Node) : Table :=
  mkTable (flags t) (lsizenode t) (metatable t) (array t) (sizearray t) ns (isdummy t) (lastfree t).
Definition with_lastfree (t : Table) (x : Z) : Table :=
  mkTable (flags t) (lsizenode t) (metatable t) (array t) (sizearray t) (node t) (isdummy t) x.
Definition with_hash (t : Table) (lsize : Z) (ns : list Node) (d : bool) (lf : Z) : Table :=
  mkTable (flags t) lsize (metatable t) (array t) (sizearray t) ns d lf.

Definition set_val (v : TValue) (nd : Node) : Node := mkNode v (i_key nd) (next nd).
Definition set_key (k : TValue) (nd : Node) : Node := mkNode (i_val nd) k (next nd).
Definition set_next (x : option nat) (nd : Node) : Node := mkNode (i_val nd) (i_key nd) x.

Definition gnode (t : Table) (i : nat) : Node := nth i (node t) dummynode_.
Definition gkey (t : Table) (i : nat) : TValue := i_key (gnode t i).
Definition gval (t : Table) (i : nat) : TValue := i_val (gnode t i).
Definition gnext (t : Table) (i : nat) : option nat := next (gnode t i).

(** [*node(i) = f *node(i)] *)
Definition upd_node (t : Table) (i : nat) (f : Node -> Node) : Table :=
  with_nodes t (alter f i (node t)).

Definition sizenode (t : Table) : Z := twoto (lsizenode t).

Definition slot_val (t : Table) (s : Slot) : TValue :=
  match s with
  | SArray i => nth i (array t) VNil
  | SNode n => gval t n
  end.

Definition set_slot (t : Table) (s : Slot) (v : TValue) : Table :=
  match s with
  | SArray i => with_array t (<[i := v]> (array t)) (sizearray t)
  | SNode n => upd_node t n (set_val v)
  end.

Definition MAXBITS : Z := 26.
Definition MAXASIZE : Z := Z.shiftl 1 MAXBITS.

Section WithStrings.

Variable ts_hash : pointer -> Z.

(** ** Hashing *)

Definition lmod (s size : Z) : Z := Z.land s (size - 1).

Definition hashpow2 (t : Table) (n : Z) : nat := Z.to_nat (lmod n (sizenode t)).
Definition hashstr (t : Table) (ts : pointer) : nat := hashpow2 t (ts_hash ts).
Definition hashboolean (t : Table) (b : Z) : nat := hashpow2 t b.
Definition hashmod (t : Table) (n : Z) : nat :=
  Z.to_nat (n mod (Z.lor (sizenode t - 1) 1)).
Definition hashpointer (t : Table) (p : pointer) : nat := hashmod t (u32 p).

Definition hashnum (t : Table) (n : gafq_Number) : nat :=
  if gafqi_numeq n (cast_num 0) then 0%nat
  else
    let a0 := u32 (num_bits n) in
    let a1 := u32 (Z.shiftr (num_bits n) 32) in
    hashmod t (u32 (a0 + a1)).

Definition mainposition (t : Table) (key : TValue) : nat :=
  match key with
  | VNumber n => hashnum t n
  | VString ts => hashstr t ts
  | VBoolean b => hashboolean t b
  | VLightUserdata p => hashpointer t p
  | _ => hashpointer t (gcvalue key)
  end.

Definition arrayindex (key : TValue) : Z :=
  match key with
  | VNumber n => let k := gafq_number2int n in if gafqi_numeq (cast_num k) n then k else -1
  | _ => -1
  end.

(** ** Search

    [do { if (p(n)) return n; else n = gnext(n); } while (n)]; a chain visits a
    node at most once, so the number of nodes is enough fuel. *)
Fixpoint chain_find (fuel : nat) (ns : list Node) (p : Node -> bool) (n : nat) : option nat :=
  match fuel with
  | O => None
  | S fuel' =>
      let nd := nth n ns dummynode_ in
      if p nd then Some n
      else match next nd with
           | Some n' => chain_find fuel' ns p n'
           | None => None
           end
  end.

Definition find_node (t : Table) (p : Node -> bool) (n : nat) : option nat :=
  chain_find (length (node t)) (node t) p n.

Definition key_is_num (nk : gafq_Number) (nd : Node) : bool :=
  match i_key nd with VNumber n => gafqi_numeq n nk | _ => false end.
Definition key_is_str (ts : pointer) (nd : Node) : bool :=
  match i_key nd with VString ts' => ts' =? ts | _ => false end.
Definition key_is (key : TValue) (nd : Node) : bool := gafqO_rawequalObj (i_key nd) key.

Definition gafqH_getnum (t : Table) (key : Z) : option Slot :=
  if u32 (key - 1) <? u32 (sizearray t) then Some (SArray (Z.to_nat (key - 1)))
  else
    let nk := cast_num key in
    SNode <$> find_node t (key_is_num nk) (hashnum t nk).

Definition gafqH_getstr (t : Table) (key : pointer) : option Slot :=
  SNode <$> find_node t (key_is_str key) (hashstr t key).

Definition get_default (t : Table) (key : TValue) : option Slot :=
  SNode <$> find_node t (key_is key) (mainposition t key).

Definition gafqH_get (t : Table) (key : TValue) : option Slot :=
  match key with
  | VNil => None
  | VString ts => gafqH_getstr t ts
  | VNumber n =>
      let k := gafq_number2int n in
      if gafqi_numeq (cast_num k) n then gafqH_getnum t k
      else get_default t key
  | _ => get_default t key
  end.

(** [*gafqH_get(t,key)], the nil object when there is no entry *)
Definition deref (t : Table) (s : option Slot) : TValue :=
  match s with Some s => slot_val t s | None => VNil end.

(** ** Traversal *)

(** the test of [findindex]: the key itself, or the dead key of the same object *)
Definition key_is_or_dead (key : TValue) (nd : Node) : bool :=
  gafqO_rawequalObj (i_key nd) key ||
  (match i_key nd with
   | VDeadKey p => iscollectable key && (p =? gcvalue key)
   | _ => false
   end).

Definition findindex (t : Table) (key : TValue) : res Z :=
  if ttisnil key then Ok (-1)
  else
    let i := arrayindex key in
    if (0 <? i) && (i <=? sizearray t) then Ok (i - 1)
    else match find_node t (key_is_or_dead key) (mainposition t key) with
         | Some n => Ok (Z.of_nat n + sizearray t)
         | None => Err (RunError "invalid key to 'next'")
         end.

(** [for (; i < t->sizearray; i++)] over the array slots from index [i] on *)
Fixpoint next_array (l : list TValue) (i : Z) : option (TValue * TValue) :=
  match l with
  | [] => None
  | v :: l' => if negb (ttisnil v) then Some (VNumber (cast_num (i + 1)), v)
               else next_array l' (i + 1)
  end.

(** [for (; i < sizenode(t); i++)] over the nodes from some index on *)
Fixpoint next_node (l : list Node) : option (TValue * TValue) :=
  match l with
  | [] => None
  | nd :: l' => if negb (ttisnil (i_val nd)) then Some (i_key nd, i_val nd)
                else next_node l'
  end.

(** the pair left at [key] and [key+1], or [None] for the return value 0 *)
Definition gafqH_next (t : Table) (key : TValue) : res (option (TValue * TValue)) :=
  i ← findindex t key;
  let i := i + 1 in
  match next_array (drop (Z.to_nat i) (array t)) i with
  | Some kv => Ok (Some kv)
  | None =>
      let i := Z.max i (sizearray t) - sizearray t in
      Ok (next_node (drop (Z.to_nat i) (node t)))
  end.

(** ** Rehash *)

(** the loop of [computesizes]: returns [(na, n)] *)
Fixpoint computesizes_loop (fuel : nat) (nums : list Z) (narray i twotoi a na n : Z) : Z * Z :=
  match fuel with
  | O => (na, n)
  | S fuel' =>
      if twotoi / 2 <? narray then
        let c := vget 0 nums i in
        let '(a, na, n) :=
          if 0 <? c then
            let a := a + c in
            if twotoi / 2 <? a then (a, a, twotoi) else (a, na, n)
          else (a, na, n) in
        if a =? narray then (na, n)
        else computesizes_loop fuel' nums narray (i + 1) (twotoi * 2) a na n
      else (na, n)
  end.

(** [computesizes(nums, &narray)]: the result and the new value of [narray] *)
Definition computesizes (nums : list Z) (narray : Z) : Z * Z :=
  computesizes_loop 33 nums narray 0 1 0 0 0.

Definition countint (key : TValue) (nums : list Z) : Z * list Z :=
  let k := arrayindex key in
  if (0 <? k) && (k <=? MAXASIZE) then
    (1, vset nums (ceillog2 k) (vget 0 nums (ceillog2 k) + 1))
  else (0, nums).

(** [for (; i <= lim; i++) if (!ttisnil(&t->array[i-1])) lc++;] over [array[i-1 .. lim-1]] *)
Definition count_slice (a : list TValue) (i lim : Z) : Z :=
  Z.of_nat (length (filter (fun v => ttisnil v = false)
                           (take (Z.to_nat (lim - i + 1)) (drop (Z.to_nat (i - 1)) a)))).

(** the slices [(2^(lg-1), 2^lg]]: returns [(ause, nums)] *)
Fixpoint numusearray_loop (fuel : nat) (t : Table) (lg ttlg i ause : Z) (nums : list Z)
  : Z * list Z :=
  match fuel with
  | O => (ause, nums)
  | S fuel' =>
      let lim := if sizearray t <? ttlg then sizearray t else ttlg in
      if (sizearray t <? ttlg) && (lim <? i) then (ause, nums)
      else
        let lc := count_slice (array t) i lim in
        numusearray_loop fuel' t (lg + 1) (ttlg * 2) (Z.max i (lim + 1)) (ause + lc)
                         (vset nums lg (vget 0 nums lg + lc))
  end.

Definition numusearray (t : Table) (nums : list Z) : Z * list Z :=
  numusearray_loop 27 t 0 1 1 0 nums.

(** [while (i--)] over the nodes from the last to the first: [(totaluse, ause, nums)] *)
Fixpoint numusehash_loop (l : list Node) (nums : list Z) : Z * Z * list Z :=
  match l with
  | [] => (0, 0, nums)
  | nd :: l' =>
      let '(totaluse, ause, nums) := numusehash_loop l' nums in
      if negb (ttisnil (i_val nd)) then
        let '(c, nums) := countint (i_key nd) nums in (totaluse + 1, ause + c, nums)
      else (totaluse, ause, nums)
  end.

(** returns [(totaluse, nums, *pnasize)] *)
Definition numusehash (t : Table) (nums : list Z) (nasize : Z) : Z * list Z * Z :=
  let '(totaluse, ause, nums) := numusehash_loop (node t) nums in
  (totaluse, nums, nasize + ause).

Definition setarrayvector (t : Table) (size : Z) : Table :=
  with_array t (take (Z.to_nat size) (array t) ++
                replicate (Z.to_nat size - Z.to_nat (sizearray t)) VNil) size.

Definition setnodevector (t : Table) (size : Z) : res Table :=
  if size =? 0 then Ok (with_hash t 0 [dummynode_] true 0)
  else
    let lsize := ceillog2 size in
    if MAXBITS <? lsize then Err (RunError "table overflow")
    else
      let size := twoto lsize in
      Ok (with_hash t lsize (replicate (Z.to_nat size) (mkNode VNil VNil None)) false size).

Definition newkey_fun := Table -> TValue -> res (Table * Slot).

Definition gafqH_set_ (nk : newkey_fun) (t : Table) (key : TValue) : res (Table * Slot) :=
  let p := gafqH_get t key in
  let t := with_flags t 0 in
  match p with
  | Some s => Ok (t, s)
  | None =>
      if ttisnil key then Err (RunError "table index is nil")
      else if is_nan key then Err (RunError "table index is NaN")
      else nk t key
  end.

Definition gafqH_setnum_ (nk : newkey_fun) (t : Table) (key : Z) : res (Table * Slot) :=
  match gafqH_getnum t key with
  | Some s => Ok (t, s)
  | None => nk t (VNumber (cast_num key))
  end.

Definition gafqH_setstr_ (nk : newkey_fun) (t : Table) (key : pointer) : res (Table * Slot) :=
  match gafqH_getstr t key with
  | Some s => Ok (t, s)
  | None => nk t (VString key)
  end.

(** re-insertion of the vanishing array slots [l], the first of them at index [i] *)
Fixpoint reinsert_array (nk : newkey_fun) (t : Table) (i : Z) (l : list TValue) : res Table :=
  match l with
  | [] => Ok t
  | v :: l' =>
      if negb (ttisnil v) then
        '(t, s) ← gafqH_setnum_ nk t (i + 1);
        reinsert_array nk (set_slot t s v) (i + 1) l'
      else reinsert_array nk t (i + 1) l'
  end.

(** re-insertion of old nodes, given in the order the loop visits them *)
Fixpoint reinsert_nodes (nk : newkey_fun) (t : Table) (l : list Node) : res Table :=
  match l with
  | [] => Ok t
  | old :: l' =>
      if negb (ttisnil (i_val old)) then
        '(t, s) ← gafqH_set_ nk t (i_key old);
        reinsert_nodes nk (set_slot t s (i_val old)) l'
      else reinsert_nodes nk t l'
  end.

Definition resize_ (nk : newkey_fun) (t : Table) (nasize nhsize : Z) : res Table :=
  let oldasize := sizearray t in
  let nold := node t in
  let t := if oldasize <? nasize then setarrayvector t nasize else t in
  t ← setnodevector t nhsize;
  t ← (if nasize <? oldasize then
         let t := with_array t (array t) nasize in
         t ← reinsert_array nk t nasize (drop (Z.to_nat nasize) (array t));
         Ok (with_array t (take (Z.to_nat nasize) (array t)) (sizearray t))
       else Ok t);
  reinsert_nodes nk t (reverse nold).

Definition rehash_ (nk : newkey_fun) (t : Table) (ek : TValue) : res Table :=
  let nums := replicate (Z.to_nat (MAXBITS + 1)) 0 in
  let '(nasize, nums) := numusearray t nums in
  let totaluse := nasize in
  let '(use, nums, nasize) := numusehash t nums nasize in
  let totaluse := totaluse + use in
  let '(c, nums) := countint ek nums in
  let nasize := nasize + c in
  let totaluse := totaluse + 1 in
  let '(na, nasize) := computesizes nums nasize in
  resize_ nk t nasize (totaluse - na).

(** ** Insertion *)

(** [while (t->lastfree-- > t->node) if (ttisnil(gkey(t->lastfree))) return t->lastfree;]
    starting with [lastfree] at [node + lf] *)
Fixpoint getfreepos_loop (ns : list Node) (lf : nat) : option nat :=
  match lf with
  | O => None
  | S lf' => if ttisnil (i_key (nth lf' ns dummynode_)) then Some lf' else getfreepos_loop ns lf'
  end.

Definition getfreepos (t : Table) : Table * option nat :=
  match getfreepos_loop (node t) (Z.to_nat (lastfree t)) with
  | Some n => (with_lastfree t (Z.of_nat n), Some n)
  | None => (with_lastfree t (Z.min (lastfree t) 0 - 1), None)
  end.

(** [while (gnext(othern) != mp) othern = gnext(othern);] *)
Definition find_previous (t : Table) (othern mp : nat) : option nat :=
  find_node t (fun nd => bool_decide (next nd = Some mp)) othern.

(** [gkey(mp)->value = key->value; gkey(mp)->tt = key->tt; ... return gval(mp);] *)
Definition put_key (t : Table) (mp : nat) (key : TValue) : res (Table * Slot) :=
  Ok (upd_node t mp (set_key key), SNode mp).

(** the colliding node is out of its main position: move it to the free node [n] *)
Definition move_colliding (t : Table) (othern mp n : nat) : res Table :=
  match find_previous t othern mp with
  | None => Err Fuel
  | Some prev =>
      let t := upd_node t prev (set_next (Some n)) in
      let t := upd_node t n (fun _ => gnode t mp) in
      Ok (upd_node t mp (fun nd => set_val VNil (set_next None nd)))
  end.

Fixpoint newkey (fuel : nat) (t : Table) (key : TValue) : res (Table * Slot) :=
  let mp := mainposition t key in
  if negb (ttisnil (gval t mp)) || isdummy t then
    let '(t, n) := getfreepos t in
    match n with
    | None =>
        match fuel with
        | O => Err Fuel
        | S fuel' =>
            t ← rehash_ (newkey fuel') t key;
            gafqH_set_ (newkey fuel') t key
        end
    | Some n =>
        let othern := mainposition t (gkey t mp) in
        if negb (othern =? mp)%nat then
          t ← move_colliding t othern mp n;
          put_key t mp key
        else
          let t := upd_node t n (set_next (gnext t mp)) in
          let t := upd_node t mp (set_next (Some n)) in
          put_key t n key
    end
  else put_key t mp key.

Definition rehash_fuel : nat := 1.

Definition gafqH_set : Table -> TValue -> res (Table * Slot) := gafqH_set_ (newkey rehash_fuel).
Definition gafqH_setnum : Table -> Z -> res (Table * Slot) := gafqH_setnum_ (newkey rehash_fuel).
Definition gafqH_setstr : Table -> pointer -> res (Table * Slot) := gafqH_setstr_ (newkey rehash_fuel).
Definition resize : Table -> Z -> Z -> res Table := resize_ (newkey rehash_fuel).

Definition gafqH_resizearray (t : Table) (nasize : Z) : res Table :=
  let nsize := if isdummy t then 0 else sizenode t in
  resize t nasize nsize.

Definition gafqH_new (narray nhash : Z) : res Table :=
  let t := mkTable (u8 (Z.lnot 0)) 0 None [] 0 [dummynode_] true 0 in
  setnodevector (setarrayvector t narray) nhash.

(** ** Length *)

Definition getnum_nil (t : Table) (k : Z) : bool := ttisnil (deref t (gafqH_getnum t (s32 k))).


(** [while (j - i > 1) { m = (i+j)/2; if (nil(m)) j = m; else i = m; } return i;] *)
Fixpoint bsearch (fuel : nat) (nil : Z -> bool) (i j : Z) : res Z :=
  match fuel with
  | O => Err Fuel
  | S fuel' =>
      if 1 <? j - i then
        let m := (i + j) / 2 in
        if nil m then bsearch fuel' nil i m else bsearch fuel' nil m j
      else Ok i
  end.

(** [i = 1; while (!nil(i)) i++; return i - 1;] *)
Fixpoint linear_search (fuel : nat) (nil : Z -> bool) (i : Z) : res Z :=
  match fuel with
  | O => Err Fuel
  | S fuel' => if negb (nil i) then linear_search fuel' nil (i + 1) else Ok (i - 1)
  end.

Fixpoint unbound_loop (fuel : nat) (t : Table) (i j : Z) : res Z :=
  match fuel with
  | O => Err Fuel
  | S fuel' =>
      if negb (getnum_nil t j) then
        let i := j in
        let j := u32 (j * 2) in
        if MAX_INT <? j then
          linear_search (S (S (length (array t) + length (node t)))) (getnum_nil t) 1
        else unbound_loop fuel' t i j
      else bsearch 33 (getnum_nil t) i j
  end.

Definition unbound_search (t : Table) (j : Z) : res Z :=
  unbound_loop 33 t j (u32 (j + 1)).

Definition array_nil (t : Table) (m : Z) : bool := ttisnil (vget VNil (array t) (m - 1)).

Definition gafqH_getn (t : Table) : res Z :=
  let j := sizearray t in
  if (0 <? j) && array_nil t j then bsearch 33 (array_nil t) 0 j
  else if isdummy t then Ok j
  else unbound_search t j.

End WithStrings.
