(* ===== verification/TableInv.v ===== *)
(** * The invariant of tables

    [wf] is the representation invariant of a table: sizes, the chains through
    the node vector (acyclic, no sharing), every proper key reachable from its
    main position and occurring once, and the invariant stated at the top of
    gtable.c (a node that is out of its main position never occupies the main
    position of another key).  The lemmas of this file describe the search
    functions on a well-formed table. *)

From S2P Require Import Prelude Number Object Table.

(** A key that a lookup can match: neither empty nor dead. *)
Definition proper (k : TValue) : bool :=
  match k with VNil | VDeadKey _ => false | _ => true end.

(** A key the API accepts: not nil and not NaN (dead keys are never seen outside). *)
Definition okkey (k : TValue) : bool := proper k && negb (is_nan k).

(** ** Walking chains *)

Section Chains.

Variable ns : list Node.

Definition nxt (i : nat) : option nat := next (nth i ns dummynode_).

Inductive reach : nat -> nat -> Prop :=
  | reach_refl i : reach i i
  | reach_step i j k : nxt i = Some j -> reach j k -> reach i k.

Lemma reach_trans i j k : reach i j -> reach j k -> reach i k.
Proof. induction 1; eauto using reach_step. Qed.

Lemma reach_snoc i j k : reach i j -> nxt j = Some k -> reach i k.
Proof. intros H E. eapply reach_trans; [done|]. eapply reach_step; [done|constructor]. Qed.

Lemma reach_inv i k : reach i k -> i = k \/ exists j, nxt i = Some j /\ reach j k.
Proof. inversion 1; eauto. Qed.

(** the nodes visited from [n], at most [fuel] of them *)
Fixpoint walk (fuel : nat) (n : nat) : list nat :=
  match fuel with
  | O => []
  | S fuel' => n :: match nxt n with Some n' => walk fuel' n' | None => [] end
  end.

Lemma chain_find_walk fuel p n :
  chain_find fuel ns p n = List.find (fun i => p (nth i ns dummynode_)) (walk fuel n).
Proof.
  revert n. induction fuel as [|fuel IH]; intros n; simpl; [done|].
  unfold nxt. destruct (p _); [done|]. destruct (next _); [apply IH|done].
Qed.

Lemma walk_reach fuel n m : m ∈ walk fuel n -> reach n m.
Proof.
  revert n. induction fuel as [|fuel IH]; intros n; simpl; [by intros ?%not_elem_of_nil|].
  intros [->|H]%elem_of_cons; [constructor|].
  destruct (nxt n) as [n'|] eqn:E; [|by apply not_elem_of_nil in H].
  eapply reach_step; eauto.
Qed.

Lemma walk_short fuel n : (length (walk (S fuel) n) <= fuel)%nat -> walk fuel n = walk (S fuel) n.
Proof.
  revert n. induction fuel as [|fuel IH]; intros n H; [simpl in H; lia|].
  change (walk (S (S fuel)) n) with
    (n :: match nxt n with Some n' => walk (S fuel) n' | None => [] end) in *.
  simpl (walk (S fuel) n). f_equal. destruct (nxt n) as [n'|]; [|done].
  apply IH. simpl in *. lia.
Qed.

Variable rank : nat -> nat.
Hypothesis Hrank : forall i n, nxt i = Some n -> (rank n < rank i)%nat.
Hypothesis Hbound : forall i n, nxt i = Some n -> (n < length ns)%nat.

Lemma walk_rank fuel n m : m ∈ walk fuel n -> (rank m <= rank n)%nat.
Proof.
  intros H%walk_reach. induction H as [|i j k E _ IH]; [lia|]. apply Hrank in E. lia.
Qed.

Lemma walk_NoDup fuel n : NoDup (walk fuel n).
Proof.
  revert n. induction fuel as [|fuel IH]; intros n; simpl; [constructor|].
  constructor; [|destruct (nxt n); [apply IH|constructor]].
  destruct (nxt n) as [n'|] eqn:E; [|apply not_elem_of_nil].
  intros H%walk_rank. apply Hrank in E. lia.
Qed.

Lemma reach_bound n m : (n < length ns)%nat -> reach n m -> (m < length ns)%nat.
Proof. intros Hn H. induction H; eauto. Qed.

Lemma walk_length fuel n : (n < length ns)%nat -> (length (walk fuel n) <= length ns)%nat.
Proof.
  intros Hn. transitivity (length (seq 0 (length ns))); [|by rewrite length_seq].
  apply submseteq_length, NoDup_submseteq; [apply walk_NoDup|].
  intros x Hx%walk_reach. apply elem_of_seq. apply reach_bound in Hx; lia.
Qed.

Lemma reach_walk_or fuel n m :
  reach n m -> m ∈ walk (S fuel) n \/ length (walk (S fuel) n) = S fuel.
Proof.
  revert n. induction fuel as [|fuel IH]; intros n H.
  - right. simpl. destruct (nxt n); done.
  - apply reach_inv in H as [->|(j & E & H)]; [left; simpl; constructor|].
    change (walk (S (S fuel)) n) with
      (n :: match nxt n with Some n' => walk (S fuel) n' | None => [] end).
    rewrite E. destruct (IH j H) as [?|L]; [left; by constructor|right; simpl in *; lia].
Qed.

(** [length ns] steps visit every node a chain reaches. *)
Lemma reach_walk n m : (n < length ns)%nat -> reach n m -> m ∈ walk (length ns) n.
Proof.
  intros Hn H. pose proof (walk_length (S (length ns)) n Hn).
  rewrite walk_short by done.
  destruct (reach_walk_or (length ns) _ _ H) as [?|L]; [done|]. lia.
Qed.

Lemma chain_find_some p n m :
  chain_find (length ns) ns p n = Some m -> reach n m /\ p (nth m ns dummynode_) = true.
Proof.
  rewrite chain_find_walk. intros [H1 H2]%List.find_some.
  split; [|done]. eapply walk_reach. by apply list_elem_of_In.
Qed.

Lemma chain_find_none p n m :
  (n < length ns)%nat -> chain_find (length ns) ns p n = None -> reach n m ->
  p (nth m ns dummynode_) = false.
Proof.
  rewrite chain_find_walk. intros Hn H Hr.
  apply (List.find_none _ _ H m). apply list_elem_of_In. by apply reach_walk.
Qed.

(** the search returns the only reachable node that satisfies the test *)
Lemma chain_find_unique p n m :
  (n < length ns)%nat -> reach n m -> p (nth m ns dummynode_) = true ->
  (forall m', reach n m' -> p (nth m' ns dummynode_) = true -> m' = m) ->
  chain_find (length ns) ns p n = Some m.
Proof.
  intros Hn Hr Hp Hu. destruct (chain_find (length ns) ns p n) as [m'|] eqn:E.
  - apply chain_find_some in E as [Hr' Hp']. f_equal. by apply Hu.
  - eapply chain_find_none in E; [|done..]. congruence.
Qed.

End Chains.

Section Invariant.

Variable ts_hash : pointer -> Z.
#[local] Abbreviation mainposition := (mainposition ts_hash).
#[local] Abbreviation gafqH_get := (gafqH_get ts_hash).
#[local] Abbreviation get_default := (get_default ts_hash).

(** The invariant of the hash part. *)
Record whash (t : Table) : Prop := {
  wh_lsize : 0 <= lsizenode t <= MAXBITS;
  wh_nodes : Z.of_nat (length (node t)) = sizenode t;
  wh_asize : 0 <= sizearray t <= MAXASIZE;
  wh_dummy : isdummy t = true -> node t = [dummynode_] /\ lastfree t <= 0;
  wh_next i n : gnext t i = Some n -> (n < length (node t))%nat;
  wh_rank : exists rank : nat -> nat, forall i n, gnext t i = Some n -> (rank n < rank i)%nat;
  wh_inj i j n : gnext t i = Some n -> gnext t j = Some n -> i = j;
  wh_nil i : gkey t i = VNil ->
    gnext t i = None /\ gval t i = VNil /\ forall j, gnext t j <> Some i;
  wh_live i : gval t i <> VNil -> proper (gkey t i) = true;
  wh_nan i : is_nan (gkey t i) = false;
  wh_main i : proper (gkey t i) = true -> reach (node t) (mainposition t (gkey t i)) i;
  wh_uniq i j : proper (gkey t i) = true ->
    gafqO_rawequalObj (gkey t i) (gkey t j) = true -> i = j;
  wh_own i j : proper (gkey t i) = true -> proper (gkey t j) = true ->
    mainposition t (gkey t j) = i -> mainposition t (gkey t i) = i;
  wh_arr i : proper (gkey t i) = true ->
    ~ (1 <= arrayindex (gkey t i) <= sizearray t);
  wh_lf : lastfree t <= Z.of_nat (length (node t));
  wh_free i : isdummy t = false -> (i < length (node t))%nat -> lastfree t <= Z.of_nat i ->
    gkey t i <> VNil
}.

(** The invariant of a table. *)
Record wf (t : Table) : Prop := {
  wf_hash : whash t;
  wf_array : Z.of_nat (length (array t)) = sizearray t
}.

(** ** Main positions *)

Lemma mainposition_lsize t t' k :
  lsizenode t = lsizenode t' -> mainposition t k = mainposition t' k.
Proof.
  intros E. destruct k; unfold Table.mainposition, hashnum, hashstr, hashboolean, hashpointer,
    hashpow2, hashmod, sizenode; by rewrite E.
Qed.

Lemma twoto_pos x : 0 <= x -> 0 < twoto x.
Proof. intros. unfold twoto. rewrite Z.shiftl_mul_pow2 by done. lia. Qed.

Lemma twoto_pow x : 0 <= x -> twoto x = 2 ^ x.
Proof. intros. unfold twoto. rewrite Z.shiftl_mul_pow2 by done. lia. Qed.

Lemma hashpow2_bound t n : 0 <= lsizenode t -> Z.of_nat (hashpow2 t n) < sizenode t.
Proof.
  intros H. unfold hashpow2, lmod, sizenode. rewrite twoto_pow by done.
  replace (2 ^ lsizenode t - 1) with (Z.ones (lsizenode t)) by (rewrite Z.ones_equiv; lia).
  rewrite Z.land_ones by done.
  pose proof (Z.mod_pos_bound n (2 ^ lsizenode t)). lia.
Qed.

Lemma hashmod_bound t n : 0 <= lsizenode t -> Z.of_nat (hashmod t n) < sizenode t.
Proof.
  intros H. unfold hashmod, sizenode. pose proof (twoto_pos _ H) as Hpos.
  rewrite twoto_pow in * by done.
  assert (0 < Z.lor (2 ^ lsizenode t - 1) 1 <= 2 ^ lsizenode t) as Hb.
  { destruct (Z.eq_dec (lsizenode t) 0) as [->|Hne]; [done|].
    pose proof (Z.pow_le_mono_r 2 1 (lsizenode t)).
    assert (Z.lor (2 ^ lsizenode t - 1) 1 = 2 ^ lsizenode t - 1) as ->; [|lia].
    replace (2 ^ lsizenode t - 1) with (Z.ones (lsizenode t)) by (rewrite Z.ones_equiv; lia).
    apply Z.bits_inj'. intros k Hk. rewrite Z.lor_spec.
    destruct (Z.eq_dec k 0) as [->|].
    - rewrite (Z.ones_spec_low _ 0) by lia. done.
    - change 1 with (2 ^ 0). rewrite Z.pow2_bits_false by lia. apply orb_false_r. }
  pose proof (Z.mod_pos_bound n (Z.lor (2 ^ lsizenode t - 1) 1)). lia.
Qed.

Lemma mainposition_bound t k : whash t -> (mainposition t k < length (node t))%nat.
Proof.
  intros W. destruct (wh_lsize _ W) as [Hl _].
  pose proof (wh_nodes _ W). pose proof (twoto_pos _ Hl).
  pose proof (hashpow2_bound t) as H1. pose proof (hashmod_bound t) as H2.
  unfold sizenode in *.
  destruct k; unfold Table.mainposition, hashnum, hashstr, hashboolean, hashpointer;
    try match goal with
        | |- (hashpow2 _ ?n < _)%nat => specialize (H1 n Hl)
        | |- (hashmod _ ?n < _)%nat => specialize (H2 n Hl)
        end; try lia.
  destruct (gafqi_numeq _ _); [lia|].
  match goal with |- (hashmod _ ?n < _)%nat => specialize (H2 n Hl) end. lia.
Qed.

Lemma hashnum_numeq t m n : gafqi_numeq m n = true -> hashnum t m = hashnum t n.
Proof.
  intros H. destruct (numeq_inv _ _ H) as [->|(s & s' & -> & ->)]; [done|].
  destruct s, s'; reflexivity.
Qed.

(** equal keys have the same main position *)
Lemma mainposition_rawequal t k k' :
  gafqO_rawequalObj k k' = true -> mainposition t k = mainposition t k'.
Proof.
  intros H. destruct (rawequal_inv _ _ H) as [->|(m & n & -> & -> & E)]; [done|].
  by apply hashnum_numeq.
Qed.

Lemma proper_rawequal k k' : gafqO_rawequalObj k k' = true -> proper k = proper k'.
Proof. intros H. by destruct (rawequal_inv _ _ H) as [->|(m & n & -> & -> & E)]. Qed.

Lemma arrayindex_rawequal k k' :
  gafqO_rawequalObj k k' = true -> arrayindex k = arrayindex k'.
Proof.
  intros H. destruct (rawequal_inv _ _ H) as [->|(m & n & -> & -> & E)]; [done|].
  destruct (numeq_inv _ _ E) as [->|(s & s' & -> & ->)]; [done|].
  destruct s, s'; reflexivity.
Qed.

Lemma arrayindex_range k : int_range (arrayindex k).
Proof.
  unfold arrayindex. destruct k; try (unfold int_range, INT_MIN, INT_MAX; lia).
  destruct (gafqi_numeq _ _); [apply number2int_range|unfold int_range, INT_MIN, INT_MAX; lia].
Qed.

Lemma arrayindex_cast i : int_range i -> arrayindex (VNumber (cast_num i)) = i.
Proof. intros H. simpl. rewrite number2int_cast by done. by rewrite numeq_cast. Qed.

(** a key with a positive array index is that integer *)
Lemma arrayindex_inv k :
  0 < arrayindex k -> gafqO_rawequalObj (VNumber (cast_num (arrayindex k))) k = true.
Proof.
  unfold arrayindex. destruct k; try lia. destruct (gafqi_numeq _ _) eqn:E; [|lia].
  intros _. unfold gafqO_rawequalObj. simpl. done.
Qed.

(** ** The search functions *)

Definition in_array (t : Table) (k : TValue) : Prop := 1 <= arrayindex k <= sizearray t.

#[local] Instance in_array_dec t k : Decision (in_array t k).
Proof. unfold in_array. apply _. Defined.

Lemma chain_find_ext fuel ns p q n :
  (forall nd, p nd = q nd) -> chain_find fuel ns p n = chain_find fuel ns q n.
Proof.
  intros E. revert n. induction fuel as [|fuel IH]; intros n; simpl; [done|].
  rewrite E. destruct (q _); [done|]. destruct (next _); [apply IH|done].
Qed.

Lemma getnum_index t k :
  0 <= sizearray t <= MAXASIZE -> int_range k ->
  (u32 (k - 1) <? u32 (sizearray t)) = bool_decide (1 <= k <= sizearray t).
Proof.
  unfold MAXASIZE, MAXBITS, int_range, INT_MIN, INT_MAX. intros Ha Hk.
  change (1 ≪ 26) with 67108864 in Ha.
  rewrite (u32_id (sizearray t)) by (unfold UINT_MOD; lia).
  case_bool_decide as E.
  - rewrite u32_id by (unfold UINT_MOD; lia). apply Z.ltb_lt. lia.
  - apply Z.ltb_ge. unfold u32, UINT_MOD.
    destruct (Z_lt_le_dec k 1).
    + rewrite <- (Z.mod_add _ 1) by lia. rewrite Z.mod_small by lia. lia.
    + rewrite Z.mod_small by lia. lia.
Qed.

Lemma getnum_spec t k :
  0 <= sizearray t <= MAXASIZE -> int_range k ->
  gafqH_getnum t k =
  if decide (1 <= k <= sizearray t) then Some (SArray (Z.to_nat (k - 1)))
  else SNode <$> find_node t (key_is (VNumber (cast_num k))) (mainposition t (VNumber (cast_num k))).
Proof.
  intros Ha Hk. unfold gafqH_getnum. rewrite getnum_index by done.
  destruct (decide _) as [D|D].
  - by rewrite bool_decide_true by done.
  - rewrite bool_decide_false by done. f_equal. apply chain_find_ext.
    intros nd. unfold key_is_num, key_is, gafqO_rawequalObj. by destruct (i_key nd).
Qed.

Lemma gafqH_get_spec t key :
  0 <= sizearray t <= MAXASIZE -> proper key = true ->
  gafqH_get t key =
  if decide (in_array t key) then Some (SArray (Z.to_nat (arrayindex key - 1)))
  else SNode <$> find_node t (key_is key) (mainposition t key).
Proof.
  intros Ha Hp.
  destruct key; try done; unfold Table.gafqH_get, Table.get_default;
    destruct (decide _) as [D|D]; try (unfold in_array in D; simpl in D; lia); try done.
  - unfold in_array, arrayindex in *. destruct (gafqi_numeq _ _); [|lia].
    rewrite getnum_spec by (done || apply number2int_range). by rewrite decide_True.
  - unfold in_array, arrayindex in *. destruct (gafqi_numeq _ _) eqn:E; [|done].
    rewrite getnum_spec by (done || apply number2int_range). rewrite decide_False by done.
    f_equal. unfold find_node, Table.mainposition. rewrite (hashnum_numeq _ _ _ E).
    apply chain_find_ext. intros nd. unfold key_is. rewrite !(rawequal_sym (i_key nd)).
    apply eq_true_iff_eq. split; intros H; eapply rawequal_trans; [|exact H| |exact H].
    + rewrite rawequal_sym. unfold gafqO_rawequalObj. simpl. done.
    + unfold gafqO_rawequalObj. simpl. done.
  - unfold gafqH_getstr. f_equal. apply chain_find_ext.
    intros nd. unfold key_is_str, key_is, gafqO_rawequalObj. by destruct (i_key nd).
Qed.

(** A lookup finds exactly the node that holds the key. *)
Lemma find_node_key t key i :
  whash t -> proper (gkey t i) = true -> gafqO_rawequalObj (gkey t i) key = true ->
  find_node t (key_is key) (mainposition t key) = Some i.
Proof.
  intros W Hp E. destruct (wh_rank _ W) as [rank Hrank].
  apply (chain_find_unique _ rank); [apply Hrank|apply (wh_next _ W)| | |done|].
  - by apply mainposition_bound.
  - rewrite <- (mainposition_rawequal _ _ _ E). by apply (wh_main _ W).
  - intros m _ Hm. symmetry. apply (wh_uniq _ W); [done|].
    eapply rawequal_trans; [exact E|]. by rewrite rawequal_sym.
Qed.

Lemma find_node_inv t key i :
  find_node t (key_is key) (mainposition t key) = Some i ->
  gafqO_rawequalObj (gkey t i) key = true.
Proof. intros [_ H]%chain_find_some. done. Qed.

Lemma okkey_proper k : okkey k = true -> proper k = true.
Proof. unfold okkey. by intros [? _]%andb_prop. Qed.

Lemma okkey_nan k : okkey k = true -> is_nan k = false.
Proof. unfold okkey. intros [_ H%negb_true_iff]%andb_prop. done. Qed.

Variant get_view (t : Table) (key : TValue) : option Slot -> Prop :=
  | get_view_array : in_array t key ->
      get_view t key (Some (SArray (Z.to_nat (arrayindex key - 1))))
  | get_view_node i : ~ in_array t key -> gafqO_rawequalObj (gkey t i) key = true ->
      get_view t key (Some (SNode i))
  | get_view_none : ~ in_array t key -> (forall i, gafqO_rawequalObj (gkey t i) key = false) ->
      get_view t key None.

Lemma gafqH_getP t key : whash t -> okkey key = true -> get_view t key (gafqH_get t key).
Proof.
  intros W Hk. pose proof (okkey_proper _ Hk) as Hp.
  rewrite gafqH_get_spec by (done || apply (wh_asize _ W)).
  destruct (decide _) as [D|D]; [by constructor|].
  destruct (find_node _ _ _) as [i|] eqn:E; simpl.
  - constructor; [done|]. by apply find_node_inv.
  - constructor; [done|]. intros i. apply not_true_is_false. intros Hi.
    rewrite (find_node_key t key i) in E; [done|done| |done].
    by rewrite (proper_rawequal _ _ Hi).
Qed.

Lemma gafqH_get_node t key i :
  whash t -> proper (gkey t i) = true -> gafqO_rawequalObj (gkey t i) key = true ->
  gafqH_get t key = Some (SNode i).
Proof.
  intros W Hp E. pose proof (proper_rawequal _ _ E) as Hp'. rewrite Hp in Hp'.
  rewrite gafqH_get_spec by (done || apply (wh_asize _ W)).
  rewrite decide_False.
  2:{ unfold in_array. rewrite <- (arrayindex_rawequal _ _ E). by apply (wh_arr _ W). }
  by rewrite (find_node_key t key i).
Qed.

(** the value of a key *)
Definition content (t : Table) (key : TValue) : TValue := deref t (gafqH_get t key).

Lemma gafqH_get_rawequal t k k' :
  whash t -> gafqO_rawequalObj k k' = true -> okkey k = true -> gafqH_get t k = gafqH_get t k'.
Proof.
  intros W E Hk.
  assert (okkey k' = true) as Hk'.
  { unfold okkey in *. rewrite <- (proper_rawequal _ _ E).
    destruct (rawequal_nan _ _ E) as [H1 H2]. rewrite H2, <- H1. done. }
  assert (in_array t k <-> in_array t k') as Ea.
  { unfold in_array. by rewrite (arrayindex_rawequal _ _ E). }
  destruct (gafqH_getP t k W Hk) as [D|i D H|D H].
  - destruct (gafqH_getP t k' W Hk'); [|tauto..].
    by rewrite (arrayindex_rawequal _ _ E).
  - symmetry. apply gafqH_get_node; [done| |].
    + rewrite (proper_rawequal _ _ H). by apply okkey_proper.
    + by eapply rawequal_trans.
  - destruct (gafqH_getP t k' W Hk') as [|i D' H'|]; [tauto| |done].
    rewrite rawequal_sym in E. pose proof (rawequal_trans _ _ _ H' E).
    rewrite H in *. done.
Qed.

End Invariant.
