(* ===== verification/TableInsert.v ===== *)
(** * Inserting a key into a table with a free node

    The part of [newkey] (gtable.c) that does not rehash: the key goes to its
    main position when that is free, to a free node chained after the main
    position when the colliding node is in its own main position, and takes
    the main position over from a colliding node that is not.  Each case keeps
    the invariant, keeps the value of every key, and makes the key present. *)

From S2P Require Import Prelude Number Object Table TableInv.

(** ** Reading an updated node vector *)

Lemma gnode_upd t i f j :
  (i < length (node t))%nat ->
  gnode (upd_node t i f) j = if decide (i = j) then f (gnode t j) else gnode t j.
Proof.
  intros Hi. unfold gnode, upd_node. simpl. rewrite !nth_lookup.
  rewrite list_lookup_alter. case_decide as E; [subst j|done].
  destruct (lookup_lt_is_Some_2 (node t) i Hi) as [nd ->]. done.
Qed.

Lemma upd_node_length t i f : length (node (upd_node t i f)) = length (node t).
Proof. unfold upd_node. simpl. apply length_alter. Qed.

Lemma gnode_ge t i : (length (node t) <= i)%nat -> gnode t i = dummynode_.
Proof. intros H. unfold gnode. by apply nth_overflow. Qed.

(** chains survive when each old step is still connected *)
Lemma reach_map ns ns' (f : nat -> nat) a b :
  (forall i j, nxt ns i = Some j -> reach ns' (f i) (f j)) ->
  reach ns a b -> reach ns' (f a) (f b).
Proof. intros H. induction 1; [constructor|]. eapply reach_trans; eauto. Qed.

Lemma reach_pred ns a b : reach ns a b -> a <> b -> exists p, reach ns a p /\ nxt ns p = Some b.
Proof.
  induction 1 as [|i j k E Hr IH]; [done|]. intros _.
  destruct (decide (j = k)) as [->|Hne]; [exists i; split; [constructor|done]|].
  destruct (IH Hne) as (p & Hp & Ep). exists p. split; [|done]. by eapply reach_step.
Qed.

(** ** Free nodes *)

Definition nilcount (t : Table) : nat :=
  length (filter (fun i => gkey t i = VNil) (seq 0 (length (node t)))).

Lemma nilcount_pos t : (0 < nilcount t)%nat -> exists i, (i < length (node t))%nat /\ gkey t i = VNil.
Proof.
  unfold nilcount. destruct (filter _ _) as [|i l] eqn:E; simpl; [lia|]. intros _.
  assert (i ∈ filter (fun i => gkey t i = VNil) (seq 0 (length (node t)))) as H
    by (rewrite E; constructor).
  apply list_elem_of_filter in H as [H1 [_ H2]%elem_of_seq]. exists i. split; [lia|done].
Qed.

(** losing the empty key of one node only *)
Lemma nilcount_step t t' p :
  length (node t') = length (node t) ->
  (forall i, i <> p -> gkey t i = VNil -> gkey t' i = VNil) ->
  (nilcount t <= nilcount t' + 1)%nat.
Proof.
  intros Hl H. unfold nilcount.
  transitivity (length (p :: filter (fun i => gkey t' i = VNil) (seq 0 (length (node t')))));
    [|simpl; lia].
  apply submseteq_length, NoDup_submseteq; [apply NoDup_filter, NoDup_seq|].
  intros x [Hx1 Hx2]%list_elem_of_filter. destruct (decide (x = p)) as [->|Hne]; [by constructor|].
  apply elem_of_cons. right. apply list_elem_of_filter. split; [by apply H|]. by rewrite Hl.
Qed.

Lemma getfreepos_loop_some ns lf i :
  (i < lf)%nat -> i_key (nth i ns dummynode_) = VNil ->
  exists n, getfreepos_loop ns lf = Some n.
Proof.
  intros Hi Hk. induction lf as [|lf IH]; [lia|]. simpl.
  destruct (ttisnil _) eqn:E; [eauto|]. apply IH.
  destruct (decide (i = lf)) as [->|]; [|lia]. by rewrite Hk in E.
Qed.

Lemma ttisnil_spec v : ttisnil v = true <-> v = VNil.
Proof. split; [by destruct v|by intros ->]. Qed.

Lemma ttisnil_false v : ttisnil v = false <-> v <> VNil.
Proof. rewrite <- not_true_iff_false, ttisnil_spec. done. Qed.

Lemma getfreepos_loop_inv ns lf n :
  getfreepos_loop ns lf = Some n ->
  (n < lf)%nat /\ i_key (nth n ns dummynode_) = VNil /\
  forall i, (n < i < lf)%nat -> i_key (nth i ns dummynode_) <> VNil.
Proof.
  induction lf as [|lf IH]; simpl; [done|].
  destruct (ttisnil _) eqn:E.
  - intros [= <-]. apply ttisnil_spec in E. split; [lia|]. split; [done|]. lia.
  - intros (H1 & H2 & H3)%IH. split; [lia|]. split; [done|].
    intros i Hi. destruct (decide (i = lf)) as [->|]; [by apply ttisnil_false|apply H3; lia].
Qed.

Section Insert.

Variable ts_hash : pointer -> Z.
#[local] Abbreviation mainposition := (mainposition ts_hash).
#[local] Abbreviation gafqH_get := (gafqH_get ts_hash).
#[local] Abbreviation whash := (whash ts_hash).
#[local] Abbreviation content := (content ts_hash).

Lemma getfreepos_some t :
  whash t -> isdummy t = false -> (0 < nilcount t)%nat ->
  exists n, getfreepos t = (with_lastfree t (Z.of_nat n), Some n) /\
    (n < length (node t))%nat /\ gkey t n = VNil /\
    forall i, (n < i < length (node t))%nat -> gkey t i <> VNil.
Proof.
  intros W Hd Hn. destruct (nilcount_pos t Hn) as (i & Hi & Hk).
  assert (Z.of_nat i < lastfree t) as Hlf.
  { destruct (Z_lt_le_dec (Z.of_nat i) (lastfree t)) as [|L]; [done|].
    by destruct (wh_free _ _ W i Hd Hi L). }
  destruct (getfreepos_loop_some (node t) (Z.to_nat (lastfree t)) i) as [n En]; [lia|done|].
  exists n. unfold getfreepos. rewrite En. split; [done|].
  apply getfreepos_loop_inv in En as (H1 & H2 & H3).
  pose proof (wh_lf _ _ W). split; [lia|]. split; [done|].
  intros j Hj. destruct (Z_lt_le_dec (Z.of_nat j) (lastfree t)); [apply H3; lia|].
  apply (wh_free _ _ W); [done|lia|lia].
Qed.

(** ** Tables with the same entries *)

(** every entry of [t] is an entry of [t'] *)
Definition entries_in (t t' : Table) : Prop :=
  forall i, gval t i <> VNil -> exists j, gkey t' j = gkey t i /\ gval t' j = gval t i.

Lemma content_sub t t' k :
  whash t -> whash t' -> array t' = array t -> sizearray t' = sizearray t ->
  entries_in t t' -> okkey k = true ->
  content t k <> VNil -> content t' k = content t k.
Proof.
  intros W W' Ea Es He Hk. unfold TableInv.content.
  destruct (gafqH_getP _ _ _ W Hk) as [D|i D H|D H]; simpl.
  - intros _. destruct (gafqH_getP _ _ _ W' Hk) as [D'|i D' H|D' H]; unfold in_array in *;
      rewrite Es in *; [|done..]. simpl. by rewrite Ea.
  - intros Hv. destruct (He i Hv) as (j & Ej & Ev).
    rewrite (gafqH_get_node ts_hash t' k j); [done|done| |by rewrite Ej].
    rewrite Ej, (proper_rawequal _ _ H). by apply okkey_proper.
  - done.
Qed.

Lemma content_same t t' k :
  whash t -> whash t' -> array t' = array t -> sizearray t' = sizearray t ->
  entries_in t t' -> entries_in t' t -> okkey k = true -> content t' k = content t k.
Proof.
  intros W W' Ea Es H1 H2 Hk.
  destruct (decide (content t k = VNil)) as [E|E].
  - destruct (decide (content t' k = VNil)) as [E'|E']; [congruence|].
    symmetry. by apply content_sub.
  - by apply content_sub.
Qed.

(** What inserting [key] at the slot [s] guarantees. *)
Record inserted (t : Table) (key : TValue) (t' : Table) (s : Slot) : Prop := {
  ins_wf : whash t';
  ins_get : gafqH_get t' key = Some s;
  ins_content k : okkey k = true -> content t' k = content t k;
  ins_array : array t' = array t;
  ins_size : sizearray t' = sizearray t;
  ins_dummy : isdummy t' = isdummy t;
  ins_nil : (nilcount t <= nilcount t' + 1)%nat
}.

(** ** The three cases of [newkey] *)

Section Cases.

Variables (t : Table) (key : TValue).
Hypothesis (W : whash t) (Hk : okkey key = true) (Hna : ~ in_array t key).
Hypothesis Hnew : forall i, gafqO_rawequalObj (gkey t i) key = false.

#[local] Abbreviation mp := (mainposition t key).

Lemma mp_bound : (mp < length (node t))%nat.
Proof. by apply mainposition_bound. Qed.

Lemma key_refl : gafqO_rawequalObj key key = true.
Proof. apply rawequal_refl. by apply okkey_nan. Qed.

Lemma key_proper : proper key = true.
Proof. by apply okkey_proper. Qed.

Lemma key_not_nil : key <> VNil.
Proof. intros ->. done. Qed.

Lemma Hnew' i : gafqO_rawequalObj key (gkey t i) = false.
Proof. rewrite rawequal_sym. apply Hnew. Qed.

Lemma inserted_intro t' p q :
  whash t' -> array t' = array t -> sizearray t' = sizearray t -> isdummy t' = isdummy t ->
  length (node t') = length (node t) ->
  gkey t' p = key -> entries_in t t' -> entries_in t' t ->
  (forall i, i <> q -> gkey t i = VNil -> gkey t' i = VNil) ->
  inserted t key t' (SNode p).
Proof.
  intros W' Ea Es Ed El Ep H1 H2 Hq. split; try done.
  - apply gafqH_get_node; [done| |]; rewrite Ep; [apply key_proper|apply key_refl].
  - intros k Hok. by apply content_same.
  - by apply (nilcount_step t t' q).
Qed.

(** the main position is free *)
Lemma insert_main :
  isdummy t = false -> gval t mp = VNil ->
  inserted t key (upd_node t mp (set_key key)) (SNode mp).
Proof.
  intros Hd Hv. set (t' := upd_node t mp (set_key key)).
  assert (forall i, gnode t' i = if decide (mp = i) then set_key key (gnode t i) else gnode t i)
    as Hg by (intros i; apply gnode_upd, mp_bound).
  assert (forall i, gkey t' i = if decide (mp = i) then key else gkey t i) as gk
    by (intros i; unfold gkey; rewrite Hg; by case_decide).
  assert (forall i, gval t' i = gval t i) as gv
    by (intros i; unfold gval; rewrite Hg; by case_decide).
  assert (forall i, gnext t' i = gnext t i) as gx
    by (intros i; unfold gnext; rewrite Hg; by case_decide).
  assert (length (node t') = length (node t)) as gl by apply upd_node_length.
  assert (forall k, mainposition t' k = mainposition t k) as gm by done.
  assert (forall a b, reach (node t) a b -> reach (node t') a b) as gr.
  { intros a b. apply (reach_map _ _ id). intros i j E. eapply reach_step; [|constructor].
    etransitivity; [apply gx|done]. }
  pose proof key_not_nil as Hkn. pose proof (Hnew' ) as Hn'.
  apply (inserted_intro t' mp mp); try done.
  - split; try apply W; intros *; rewrite ?gk, ?gv, ?gx, ?gl, ?gm; try apply W.
    + change (isdummy t') with (isdummy t). by rewrite Hd.
    + destruct (wh_rank _ _ W) as [rank Hr]. exists rank. intros i n. rewrite gx. apply Hr.
    + case_decide; [done|]. intros (H1 & H2 & H3)%(wh_nil _ _ W). split; [done|]. split; [done|].
      intros j. rewrite gx. apply H3.
    + case_decide as E; [|apply (wh_live _ _ W)]. subst i. by rewrite Hv.
    + case_decide; [by apply okkey_nan|apply (wh_nan _ _ W)].
    + case_decide as E; [subst i; constructor|]. intros. apply gr. by apply (wh_main _ _ W).
    + repeat case_decide; subst; try done; rewrite ?Hnew, ?Hn'; try done. apply (wh_uniq _ _ W).
    + repeat case_decide; subst; try done. apply (wh_own _ _ W).
    + case_decide as E; [by intros _|apply (wh_arr _ _ W)].
    + intros _ ? ?. case_decide; [done|]. by apply (wh_free _ _ W).
  - rewrite gk. by rewrite decide_True.
  - intros i Hi. exists i. rewrite gk, gv. case_decide; [congruence|done].
  - intros i. rewrite gv, gk. intros Hi. exists i. case_decide; [congruence|done].
  - intros i Hi. rewrite gk. rewrite decide_False; done.
Qed.

(** a free node [n] above which no node is free *)
Variable n : nat.
Hypothesis (Hd : isdummy t = false) (Hn : (n < length (node t))%nat) (Hnk : gkey t n = VNil).
Hypothesis Hfree : forall i, (n < i < length (node t))%nat -> gkey t i <> VNil.
Hypothesis Hmp : gval t mp <> VNil.

#[local] Abbreviation t0 := (with_lastfree t (Z.of_nat n)).

Lemma mp_ne_n : mp <> n.
Proof. intros E. rewrite E in Hmp. destruct (wh_nil _ _ W n Hnk) as (_ & H & _). done. Qed.

Lemma no_pred_n j : gnext t j <> Some n.
Proof. destruct (wh_nil _ _ W n Hnk) as (_ & _ & H). apply H. Qed.

(** no key lives in the chain of a free node *)
Lemma mainposition_ne_n j : proper (gkey t j) = true -> mainposition t (gkey t j) <> n.
Proof.
  intros Hp E. pose proof (wh_main _ _ W j Hp) as Hr. rewrite E in Hr.
  destruct (wh_nil _ _ W n Hnk) as (Hx & _ & _).
  destruct (reach_inv _ _ _ Hr) as [<-|(x & Ex & _)].
  - by rewrite Hnk in Hp.
  - change (gnext t n = Some x) in Ex. congruence.
Qed.

Definition chain_after : Table :=
  let t1 := upd_node t0 n (set_next (gnext t0 mp)) in
  let t2 := upd_node t1 mp (set_next (Some n)) in
  upd_node t2 n (set_key key).

Lemma chain_after_gnode i :
  gnode chain_after i =
    if decide (n = i) then mkNode (gval t i) key (gnext t mp)
    else if decide (mp = i) then set_next (Some n) (gnode t i) else gnode t i.
Proof.
  pose proof mp_bound as Hb. pose proof mp_ne_n as Hne. unfold chain_after.
  rewrite !gnode_upd by (rewrite ?upd_node_length; done).
  repeat case_decide; subst; try done.
Qed.

Lemma chain_after_key i : gkey chain_after i = if decide (n = i) then key else gkey t i.
Proof. unfold gkey. rewrite chain_after_gnode. by repeat case_decide. Qed.

Lemma chain_after_val i : gval chain_after i = gval t i.
Proof. unfold gval. rewrite chain_after_gnode. by repeat case_decide. Qed.

Lemma chain_after_next i :
  gnext chain_after i = if decide (n = i) then gnext t mp else if decide (mp = i) then Some n else gnext t i.
Proof. unfold gnext. rewrite chain_after_gnode. by repeat case_decide. Qed.

Lemma chain_after_length : length (node chain_after) = length (node t).
Proof. unfold chain_after. by rewrite !upd_node_length. Qed.

Lemma chain_after_mp : nxt (node chain_after) mp = Some n.
Proof.
  change (gnext chain_after mp = Some n). pose proof mp_ne_n.
  by rewrite chain_after_next, decide_False, decide_True.
Qed.

(** chains only get longer *)
Lemma chain_after_reach a b : reach (node t) a b -> reach (node chain_after) a b.
Proof.
  apply (reach_map _ _ id). intros i j E. change (gnext t i = Some j) in E.
  destruct (decide (mp = i)) as [<-|].
  - eapply reach_step; [exact chain_after_mp|]. eapply reach_step; [|constructor].
    change (gnext chain_after n = Some j). rewrite chain_after_next. by rewrite decide_True.
  - eapply reach_step; [|constructor]. change (gnext chain_after i = Some j). rewrite chain_after_next.
    destruct (wh_nil _ _ W n Hnk) as (Hx & _ & _).
    rewrite decide_False, decide_False by congruence. done.
Qed.

Lemma chain_after_rank :
  exists rank, forall i j, gnext chain_after i = Some j -> (rank j < rank i)%nat.
Proof.
  pose proof mp_ne_n as Hne. pose proof no_pred_n as Hnp. destruct (wh_rank _ _ W) as [rank Hr].
  exists (fun x => if decide (n = x) then 2 * rank mp + 1 else 2 * rank x + 2)%nat.
  intros i x. rewrite chain_after_next. repeat case_decide; subst; try done; intros E;
    try (by apply Hnp in E); try (apply Hr in E; lia); try (by inversion E; subst; lia).
Qed.

Lemma chain_after_inj i j k :
  gnext chain_after i = Some k -> gnext chain_after j = Some k -> i = j.
Proof.
  pose proof mp_ne_n as Hne. pose proof no_pred_n as Hnp. pose proof (wh_inj _ _ W) as Hi.
  rewrite !chain_after_next. repeat case_decide; subst; try done; intros E1 E2;
    try (by apply Hnp in E1); try (by apply Hnp in E2);
    try (inversion E1; subst; by apply Hnp in E2);
    try (inversion E2; subst; by apply Hnp in E1);
    try (by eapply Hi); try (by destruct (Hi _ _ _ E1 E2)).
Qed.

Lemma chain_after_nil i :
  gkey chain_after i = VNil ->
  gnext chain_after i = None /\ gval chain_after i = VNil /\ forall j, gnext chain_after j <> Some i.
Proof.
  pose proof mp_ne_n as Hne. pose proof key_not_nil as Hkn. rewrite chain_after_key, chain_after_val.
  case_decide; [done|]. intros Hki. destruct (wh_nil _ _ W i Hki) as (H1 & H2 & H3).
  rewrite chain_after_next. rewrite decide_False by done. split; [|split; [done|]].
  - case_decide; [subst; by rewrite H2 in Hmp|done].
  - intros j. rewrite chain_after_next. repeat case_decide; [apply H3|congruence|apply H3].
Qed.

Lemma chain_after_wf : mainposition t (gkey t mp) = mp -> whash chain_after.
Proof.
  intros Hown. pose proof mp_ne_n as Hne. pose proof key_not_nil as Hkn. pose proof Hnew' as Hn'.
  destruct (wh_nil _ _ W n Hnk) as (_ & Hnv & _).
  assert (forall k, mainposition chain_after k = mainposition t k) as gm by done.
  split; try apply W; try apply chain_after_rank; try apply chain_after_inj; try apply chain_after_nil; intros *;
    rewrite ?chain_after_key, ?chain_after_val, ?chain_after_length, ?gm; try apply W.
  - change (isdummy chain_after) with (isdummy t). by rewrite Hd.
  - rewrite chain_after_next. repeat case_decide; subst; try apply (wh_next _ _ W). by intros [= <-].
  - case_decide as E; [subst i|apply (wh_live _ _ W)]. by rewrite Hnv.
  - case_decide; [by apply okkey_nan|apply (wh_nan _ _ W)].
  - case_decide as E.
    + subst i. intros _. eapply reach_step; [exact chain_after_mp|constructor].
    + intros. apply chain_after_reach. by apply (wh_main _ _ W).
  - repeat case_decide; subst; try done; rewrite ?Hnew, ?Hn'; try done. apply (wh_uniq _ _ W).
  - intros Hi Hj E. destruct (decide (n = j)) as [<-|].
    + subst i. rewrite decide_False by done. done.
    + destruct (decide (n = i)) as [<-|]; [by apply mainposition_ne_n in E|].
      by apply (wh_own _ _ W i j).
  - case_decide as E; [by intros _|apply (wh_arr _ _ W)].
  - change (lastfree chain_after) with (Z.of_nat n). lia.
  - change (lastfree chain_after) with (Z.of_nat n). intros _ ? ?. case_decide; [done|].
    apply Hfree. lia.
Qed.

(** the colliding node is in its own main position *)
Lemma insert_after :
  mainposition t (gkey t mp) = mp -> inserted t key chain_after (SNode n).
Proof.
  intros Hown. destruct (wh_nil _ _ W n Hnk) as (_ & Hnv & _).
  apply (inserted_intro chain_after n n); try done.
  - by apply chain_after_wf.
  - apply chain_after_length.
  - rewrite chain_after_key. by rewrite decide_True.
  - intros i Hi. exists i. rewrite chain_after_key, chain_after_val. case_decide; [congruence|done].
  - intros i. rewrite chain_after_val, chain_after_key. intros Hi. exists i. case_decide; [congruence|done].
  - intros i Hi. rewrite chain_after_key. rewrite decide_False; done.
Qed.

(** the node before [mp] in the chain of the colliding node *)
Lemma find_previous_some :
  mainposition t (gkey t mp) <> mp ->
  exists prev, find_previous t0 (mainposition t0 (gkey t0 mp)) mp = Some prev /\
    gnext t prev = Some mp.
Proof.
  intros Hne. pose proof (wh_main _ _ W mp (wh_live _ _ W mp Hmp)) as Hr.
  destruct (reach_pred _ _ _ Hr Hne) as (p & Hrp & Ep).
  destruct (wh_rank _ _ W) as [rank Hrank].
  exists p. split; [|done]. apply (chain_find_unique _ rank); [apply Hrank|apply (wh_next _ _ W)|..].
  - exact (mainposition_bound ts_hash t _ W).
  - exact Hrp.
  - by apply bool_decide_eq_true_2.
  - intros m' _ Hm%bool_decide_eq_true. by apply (wh_inj _ _ W m' p mp).
Qed.

Definition moved (prev : nat) : Table :=
  let t1 := upd_node t0 prev (set_next (Some n)) in
  let t2 := upd_node t1 n (fun _ => gnode t1 mp) in
  let t3 := upd_node t2 mp (fun nd => set_val VNil (set_next None nd)) in
  upd_node t3 mp (set_key key).

Lemma prev_facts prev : gnext t prev = Some mp ->
  prev <> n /\ prev <> mp /\ (prev < length (node t))%nat.
Proof.
  intros E. destruct (wh_nil _ _ W n Hnk) as (Hx & _ & _).
  destruct (wh_rank _ _ W) as [rank Hrank]. split; [|split].
  - intros ->. congruence.
  - intros ->. apply Hrank in E. lia.
  - destruct (decide (prev < length (node t))%nat) as [|L]; [done|].
    unfold gnext in E. rewrite gnode_ge in E by lia. done.
Qed.

Lemma moved_gnode prev i : gnext t prev = Some mp ->
  gnode (moved prev) i =
    if decide (mp = i) then mkNode VNil key None
    else if decide (n = i) then gnode t mp
    else if decide (prev = i) then set_next (Some n) (gnode t i) else gnode t i.
Proof.
  intros E. destruct (prev_facts prev E) as (H1 & H2 & H3).
  pose proof mp_bound as Hb. pose proof mp_ne_n as Hne. unfold moved.
  rewrite !gnode_upd by (rewrite ?upd_node_length; done).
  repeat case_decide; subst; done.
Qed.

(** *** The colliding node moves to the free node *)

Section Moved.

Context (prev : nat) (Hfor : mainposition t (gkey t mp) <> mp) (Eprev : gnext t prev = Some mp).

#[local] Abbreviation t' := (moved prev).

Lemma moved_key i :
  gkey t' i = if decide (mp = i) then key else if decide (n = i) then gkey t mp else gkey t i.
Proof. unfold gkey. rewrite moved_gnode by done. by repeat case_decide. Qed.

Lemma moved_val i :
  gval t' i = if decide (mp = i) then VNil else if decide (n = i) then gval t mp else gval t i.
Proof. unfold gval. rewrite moved_gnode by done. by repeat case_decide. Qed.

Lemma moved_next i :
  gnext t' i = if decide (mp = i) then None else if decide (n = i) then gnext t mp
               else if decide (prev = i) then Some n else gnext t i.
Proof. unfold gnext. rewrite moved_gnode by done. by repeat case_decide. Qed.

Lemma moved_length : length (node t') = length (node t).
Proof. unfold moved. by rewrite !upd_node_length. Qed.

(** where an entry is after the move *)
Definition moved_to (i : nat) : nat := if decide (mp = i) then n else i.

Lemma moved_reach a b : reach (node t) a b -> reach (node t') (moved_to a) (moved_to b).
Proof.
  pose proof mp_ne_n as Hne. destruct (wh_nil _ _ W n Hnk) as (Hnx & _ & _).
  apply reach_map. intros i j E. change (gnext t i = Some j) in E.
  eapply reach_step; [|constructor]. change (gnext t' (moved_to i) = Some (moved_to j)).
  rewrite moved_next. unfold moved_to. repeat case_decide; subst; try congruence.
  - by destruct (prev_facts mp E) as (_ & ? & _).
  - by destruct (wh_inj _ _ W prev i mp Eprev E).
Qed.

Lemma moved_rank : exists rank, forall i j, gnext t' i = Some j -> (rank j < rank i)%nat.
Proof.
  destruct (prev_facts prev Eprev) as (Hp1 & Hp2 & _). pose proof mp_ne_n as Hne. pose proof no_pred_n as Hnp.
  destruct (wh_rank _ _ W) as [rank Hr]. exists (fun x => if decide (n = x) then rank mp else rank x).
  intros i x. rewrite moved_next. repeat case_decide; subst; try done; intros E;
    try (by apply Hnp in E); try (apply Hr in E; lia); try (inversion E; subst; done).
  apply Hr. done.
Qed.

Lemma moved_inj i j k : gnext t' i = Some k -> gnext t' j = Some k -> i = j.
Proof.
  destruct (prev_facts prev Eprev) as (Hp1 & Hp2 & _). pose proof mp_ne_n as Hne. pose proof no_pred_n as Hnp.
  pose proof (wh_inj _ _ W) as Hi. rewrite !moved_next.
  repeat case_decide; subst; try done; intros E1 E2;
    try (by apply Hnp in E1); try (by apply Hnp in E2);
    try (inversion E1; subst; by apply Hnp in E2);
    try (inversion E2; subst; by apply Hnp in E1);
    try (by eapply Hi); try (by destruct (Hi _ _ _ E1 E2)).
Qed.

Lemma moved_nil i :
  gkey t' i = VNil -> gnext t' i = None /\ gval t' i = VNil /\ forall j, gnext t' j <> Some i.
Proof.
  pose proof (wh_live _ _ W mp Hmp) as Hpmp. pose proof key_not_nil as Hkn. rewrite moved_key, moved_val.
  repeat case_decide; try done; [intros E; by rewrite E in Hpmp|]. intros Hki.
  destruct (wh_nil _ _ W i Hki) as (H1 & H2 & H3). rewrite moved_next. rewrite !decide_False by congruence.
  split; [done|]. split; [done|]. intros j. rewrite moved_next. repeat case_decide; congruence || apply H3.
Qed.

Lemma moved_main i : proper (gkey t' i) = true -> reach (node t') (mainposition t' (gkey t' i)) i.
Proof.
  pose proof (wh_live _ _ W mp Hmp) as Hpmp. pose proof mp_ne_n as Hne. change (mainposition t') with (mainposition t). rewrite moved_key.
  repeat case_decide; subst; intros Hp.
  - constructor.
  - pose proof (moved_reach _ _ (wh_main _ _ W mp Hp)) as Hr. unfold moved_to in Hr.
    rewrite (decide_True (P := mp = mp)) in Hr by done.
    rewrite decide_False in Hr by congruence. done.
  - pose proof (moved_reach _ _ (wh_main _ _ W i Hp)) as Hr. unfold moved_to in Hr.
    rewrite (decide_False (P := mp = i)) in Hr by done.
    rewrite decide_False in Hr; [done|]. intros Ei. apply Hfor. by apply (wh_own _ _ W mp i).
Qed.

Lemma moved_own i j :
  proper (gkey t' i) = true -> proper (gkey t' j) = true ->
  mainposition t' (gkey t' j) = i -> mainposition t' (gkey t' i) = i.
Proof.
  pose proof (wh_live _ _ W mp Hmp) as Hpmp. pose proof mp_ne_n as Hne. change (mainposition t') with (mainposition t). rewrite !moved_key. intros Hi Hj E.
  destruct (decide (mp = i)) as [<-|Ni]; [done|].
  destruct (decide (mp = j)) as [<-|Nj]; [congruence|].
  destruct (decide (n = i)) as [<-|Ni'].
  - destruct (decide (n = j)) as [<-|Nj']; [done|]. by apply mainposition_ne_n in E.
  - destruct (decide (n = j)) as [<-|Nj'].
    + by apply (wh_own _ _ W i mp).
    + by apply (wh_own _ _ W i j).
Qed.

Lemma moved_wf : whash t'.
Proof.
  pose proof key_not_nil as Hkn. pose proof Hnew' as Hn'. pose proof (wh_live _ _ W mp Hmp) as Hpmp.
  split; try apply W; try apply moved_rank; try apply moved_inj; try apply moved_nil; try apply moved_main;
    try apply moved_own; intros *; rewrite ?moved_key, ?moved_val, ?moved_length; try apply W.
  - change (isdummy t') with (isdummy t). by rewrite Hd.
  - rewrite moved_next. repeat case_decide; subst; try done; try apply (wh_next _ _ W). by intros [= <-].
  - repeat case_decide; subst; try done. apply (wh_live _ _ W).
  - repeat case_decide; subst; [by apply okkey_nan|apply (wh_nan _ _ W)..].
  - repeat case_decide; subst; try done; rewrite ?Hnew, ?Hn'; try done; intros Hp E.
    + by destruct (wh_uniq _ _ W mp j Hp E).
    + by destruct (wh_uniq _ _ W i mp Hp E).
    + by apply (wh_uniq _ _ W i j Hp E).
  - repeat case_decide; subst; [by intros _|apply (wh_arr _ _ W)..].
  - change (lastfree t') with (Z.of_nat n). lia.
  - change (lastfree t') with (Z.of_nat n). intros _ ? ?. repeat case_decide; [done| |].
    + intros E. by rewrite E in Hpmp.
    + apply Hfree. lia.
Qed.

(** the colliding node is out of its main position and makes room *)
Lemma insert_moved : inserted t key t' (SNode mp).
Proof.
  pose proof mp_ne_n as Hne. pose proof (wh_live _ _ W mp Hmp) as Hpmp.
  destruct (wh_nil _ _ W n Hnk) as (_ & Hnv & _).
  apply (inserted_intro t' mp n); try done.
  - exact moved_wf.
  - apply moved_length.
  - rewrite moved_key. by rewrite decide_True.
  - intros i Hi. exists (moved_to i). rewrite moved_key, moved_val. unfold moved_to.
    repeat case_decide; split; congruence.
  - intros i. rewrite moved_val, moved_key. repeat case_decide; try congruence.
    + intros _. exists mp. done.
    + intros _. exists i. done.
  - intros i Hi. rewrite moved_key. repeat case_decide; subst; try congruence.
    intros E. by rewrite E in Hpmp.
Qed.

End Moved.

End Cases.

End Insert.
