(* ===== verification/TableSet.v ===== *)
(** * Setting a key when there is room

    [newkey], [gafqH_set] and [gafqH_setnum] (gtable.c) on a table whose hash
    part has a free node, and writing through the slot they return. *)

From S2P Require Import Prelude Number Object Table TableInv TableInsert.

Section Set_.

Variable ts_hash : pointer -> Z.
#[local] Abbreviation mainposition := (mainposition ts_hash).
#[local] Abbreviation gafqH_get := (gafqH_get ts_hash).
#[local] Abbreviation whash := (whash ts_hash).
#[local] Abbreviation content := (content ts_hash).
#[local] Abbreviation inserted := (inserted ts_hash).
#[local] Abbreviation newkey := (newkey ts_hash).
#[local] Abbreviation gafqH_set_ := (gafqH_set_ ts_hash).

Lemma whash_flags t x : whash t -> whash (with_flags t x).
Proof. intros []. by constructor. Qed.

(** The hash part can take one more key. *)
Definition room (t : Table) : Prop := isdummy t = false /\ (0 < nilcount t)%nat.

Lemma newkey_room fuel t key :
  whash t -> okkey key = true -> room t -> gafqH_get t key = None ->
  exists t' s, newkey fuel t key = Ok (t', s) /\ inserted t key t' s.
Proof.
  intros W Hk [Hd Hr] Hget.
  pose proof (gafqH_getP _ _ _ W Hk) as V. rewrite Hget in V. inversion V as [| |Hna Hnew]; subst.
  destruct (ttisnil (gval t (mainposition t key))) eqn:Ev.
  - exists (upd_node t (mainposition t key) (set_key key)), (SNode (mainposition t key)).
    split; [|by apply insert_main; [..|by apply ttisnil_spec]].
    destruct fuel; simpl; by rewrite Ev, Hd.
  - apply ttisnil_false in Ev as Hmp.
    destruct (getfreepos_some _ t W Hd Hr) as (n & Eg & Hn & Hnk & Hfree).
    destruct (decide (mainposition t (gkey t (mainposition t key)) = mainposition t key)) as [Eo|Eo].
    + exists (chain_after ts_hash t key n), (SNode n).
      split; [|by apply insert_after].
      destruct fuel; simpl; rewrite Ev, Eg; simpl;
        change (gkey (with_lastfree t (Z.of_nat n))) with (gkey t);
        rewrite !(mainposition_lsize _ (with_lastfree t (Z.of_nat n)) t) by done;
        by rewrite Eo, Nat.eqb_refl.
    + destruct (find_previous_some ts_hash t key W n Hmp Eo) as (prev & Ep & Hprev).
      exists (moved ts_hash t key n prev), (SNode (mainposition t key)).
      split; [|by apply insert_moved].
      destruct fuel; simpl; rewrite Ev, Eg; simpl;
        change (gkey (with_lastfree t (Z.of_nat n))) with (gkey t);
        rewrite !(mainposition_lsize _ (with_lastfree t (Z.of_nat n)) t) by done;
        (destruct (Nat.eqb_spec (mainposition t (gkey t (mainposition t key)))
                                (mainposition t key)) as [E|_]; [by destruct (Eo E)|]);
        simpl; unfold move_colliding;
        change (gkey (with_lastfree t (Z.of_nat n))) with (gkey t) in Ep;
        rewrite !(mainposition_lsize _ (with_lastfree t (Z.of_nat n)) t) in Ep by done;
        by rewrite Ep.
Qed.

Lemma inserted_present t key s :
  whash t -> gafqH_get t key = Some s -> inserted t key (with_flags t 0) s.
Proof.
  intros W E. split; try done; [by apply whash_flags|].
  change (nilcount (with_flags t 0)) with (nilcount t). lia.
Qed.

Lemma inserted_flags t key t' s : inserted (with_flags t 0) key t' s -> inserted t key t' s.
Proof. intros []. by constructor. Qed.

(** [gafqH_set] succeeds when the key has an array slot or the hash part has room. *)
Lemma gafqH_set_room fuel t key :
  whash t -> okkey key = true -> (~ in_array t key -> room t) ->
  exists t' s, gafqH_set_ (newkey fuel) t key = Ok (t', s) /\ inserted t key t' s.
Proof.
  intros W Hk Hr. unfold Table.gafqH_set_.
  destruct (gafqH_get t key) as [s|] eqn:E.
  - exists (with_flags t 0), s. split; [done|]. by apply inserted_present.
  - pose proof (gafqH_getP _ _ _ W Hk) as V. rewrite E in V. inversion V as [| |Hna _]; subst.
    destruct (newkey_room fuel (with_flags t 0) key) as (t' & s & En & Hi);
      [by apply whash_flags|done|by apply Hr|done|].
    exists t', s. split; [|by apply inserted_flags].
    pose proof (okkey_nan _ Hk) as Hn. destruct key; try done; simpl in Hn |- *; by rewrite ?Hn.
Qed.

Lemma okkey_cast i : okkey (VNumber (cast_num i)) = true.
Proof.
  unfold okkey. simpl. unfold gafqi_numisnan. by rewrite numeq_cast.
Qed.

Lemma gafqH_get_cast t i : int_range i -> gafqH_get t (VNumber (cast_num i)) = gafqH_getnum t i.
Proof. intros H. simpl. rewrite number2int_cast by done. by rewrite numeq_cast. Qed.

Lemma gafqH_setnum_room fuel t i :
  whash t -> int_range i -> (~ in_array t (VNumber (cast_num i)) -> room t) ->
  exists t' s, gafqH_setnum_ (newkey fuel) t i = Ok (t', s) /\
    inserted t (VNumber (cast_num i)) t' s.
Proof.
  intros W Hi Hr. unfold gafqH_setnum_. rewrite <- gafqH_get_cast by done.
  pose proof (gafqH_getP _ _ _ W (okkey_cast i)) as V.
  destruct (gafqH_get t _) as [s|] eqn:E.
  - exists t, s. split; [done|]. split; try done; lia.
  - inversion V; subst. apply newkey_room; try done; [apply okkey_cast|by apply Hr].
Qed.

(** ** Writing through a slot *)

(** the slots of the array part exist *)
Definition array_ok (t : Table) : Prop := sizearray t <= Z.of_nat (length (array t)).

Lemma gnode_set_val t i v j :
  gnode (upd_node t i (set_val v)) j =
  if decide (i = j /\ (i < length (node t))%nat) then set_val v (gnode t j) else gnode t j.
Proof.
  destruct (decide (i < length (node t))%nat) as [L|L].
  - rewrite gnode_upd by done. repeat case_decide; try done; tauto.
  - rewrite decide_False by tauto. unfold gnode, upd_node. simpl.
    rewrite !nth_lookup, list_lookup_alter. case_decide as E; [subst j|done].
    by rewrite lookup_ge_None_2 by lia.
Qed.

Lemma set_val_whash t i v :
  whash t -> (v <> VNil -> proper (gkey t i) = true) -> gkey t i <> VNil ->
  whash (upd_node t i (set_val v)).
Proof.
  intros W Hv Hk. set (t' := upd_node t i (set_val v)).
  assert (forall j, gkey t' j = gkey t j) as gk
    by (intros j; unfold gkey, t'; rewrite gnode_set_val; by case_decide).
  assert (forall j, gnext t' j = gnext t j) as gx
    by (intros j; unfold gnext, t'; rewrite gnode_set_val; by case_decide).
  assert (forall j, gval t' j <> VNil -> gval t j <> VNil \/ (i = j /\ v <> VNil)) as gv.
  { intros j. unfold gval, t'. rewrite gnode_set_val. case_decide; [|tauto]. simpl. tauto. }
  assert (length (node t') = length (node t)) as gl by apply upd_node_length.
  assert (forall k, mainposition t' k = mainposition t k) as gm by done.
  split; try apply W; intros *; rewrite ?gk, ?gx, ?gl, ?gm; try apply W.
  - intros Hd. destruct (wh_dummy _ _ W Hd) as [E _]. exfalso. apply Hk.
    unfold gkey, gnode. rewrite E. by destruct i as [|[|]].
  - destruct (wh_rank _ _ W) as [rank Hr]. exists rank. intros j n. rewrite gx. apply Hr.
  - intros Hkj. destruct (wh_nil _ _ W i0 Hkj) as (H1 & H2 & H3). split; [done|]. split.
    + unfold gval, t'. rewrite gnode_set_val. case_decide as D; [|done]. destruct D as [<- _]. done.
    + intros j. rewrite gx. apply H3.
  - intros [H|[<- H]]%gv; [by apply (wh_live _ _ W)|by apply Hv].
  - intros Hp. eapply (reach_map _ _ id); [|by apply (wh_main _ _ W)].
    intros a b E. eapply reach_step; [|constructor]. etransitivity; [apply gx|exact E].
Qed.

(** Tables with the same keys in the same nodes answer every lookup with the same slot. *)
Lemma gafqH_get_same_keys t t' k :
  whash t -> whash t' -> sizearray t' = sizearray t -> (forall i, gkey t' i = gkey t i) ->
  okkey k = true -> gafqH_get t' k = gafqH_get t k.
Proof.
  intros W W' Es Ek Hk. pose proof (gafqH_getP _ _ _ W' Hk) as V.
  destruct (gafqH_getP _ _ _ W Hk) as [D|i D H|D H].
  - inversion V as [|j D'|D']; [done|exfalso; apply D'; unfold in_array in *; by rewrite Es..].
  - apply gafqH_get_node; [done| |]; rewrite Ek; [|done].
    rewrite (proper_rawequal _ _ H). by apply okkey_proper.
  - inversion V as [D'|j D' H'|]; [|rewrite Ek, H in H'; done|done].
    exfalso; apply D. unfold in_array in *. by rewrite <- Es.
Qed.

Lemma slot_key t key s :
  whash t -> okkey key = true -> gafqH_get t key = Some s ->
  match s with
  | SArray i => in_array t key /\ i = Z.to_nat (arrayindex key - 1)
  | SNode i => ~ in_array t key /\ gafqO_rawequalObj (gkey t i) key = true
  end.
Proof.
  intros W Hk E. pose proof (gafqH_getP _ _ _ W Hk) as V. rewrite E in V. by inversion V.
Qed.

Lemma key_lt_length t i : proper (gkey t i) = true -> (i < length (node t))%nat.
Proof.
  intros H. destruct (decide (i < length (node t))%nat) as [|L]; [done|].
  unfold gkey in H. by rewrite gnode_ge in H by lia.
Qed.

Record written (t : Table) (key v : TValue) (t' : Table) : Prop := {
  wr_wf : whash t';
  wr_get k : okkey k = true -> gafqH_get t' k = gafqH_get t k;
  wr_content k : okkey k = true ->
    content t' k = if gafqO_rawequalObj key k then v else content t k;
  wr_array : array_ok t';
  wr_length : length (array t') = length (array t);
  wr_size : sizearray t' = sizearray t;
  wr_dummy : isdummy t' = isdummy t;
  wr_nil : nilcount t' = nilcount t
}.

Lemma nilcount_keys t t' :
  length (node t') = length (node t) -> (forall i, gkey t' i = gkey t i) ->
  nilcount t' = nilcount t.
Proof.
  intros El Ek. unfold nilcount. rewrite El. f_equal. apply list_filter_iff. intros i. by rewrite Ek.
Qed.

(** Writing through the slot of [key] changes the value of [key] and of no other key. *)
Lemma set_slot_written t key s v :
  whash t -> okkey key = true -> array_ok t -> gafqH_get t key = Some s ->
  written t key v (set_slot t s v).
Proof.
  intros W Hk Ha E. pose proof (slot_key _ _ _ W Hk E) as Hs. destruct s as [i|i]; simpl.
  - destruct Hs as [D Ei].
    assert (whash (with_array t (<[i:=v]> (array t)) (sizearray t))) as W'
      by (destruct W; by constructor).
    split; try done.
    + intros k Hk'. unfold TableInv.content.
      rewrite (gafqH_get_same_keys t) by done.
      destruct (gafqH_getP _ _ _ W Hk') as [D'|j D' H|D' H]; simpl.
      * destruct (gafqO_rawequalObj key k) eqn:R.
        -- rewrite <- (arrayindex_rawequal _ _ R), <- Ei. rewrite nth_lookup.
           rewrite list_lookup_insert_eq; [done|]. unfold in_array, array_ok in *. lia.
        -- rewrite !nth_lookup, list_lookup_insert_ne; [done|].
           intros Ej. unfold in_array in *.
           assert (arrayindex key = arrayindex k) as Eidx by lia.
           assert (gafqO_rawequalObj key k = true); [|congruence].
           eapply rawequal_trans; [|apply (arrayindex_inv k); lia].
           rewrite rawequal_sym, <- Eidx. apply arrayindex_inv. lia.
      * destruct (gafqO_rawequalObj key k) eqn:R; [|done].
        destruct D'. unfold in_array in *. by rewrite <- (arrayindex_rawequal _ _ R).
      * destruct (gafqO_rawequalObj key k) eqn:R; [|done].
        destruct D'. unfold in_array in *. by rewrite <- (arrayindex_rawequal _ _ R).
    + unfold array_ok in *. simpl. by rewrite length_insert.
    + simpl. by rewrite length_insert.
  - destruct Hs as [D R].
    assert (proper (gkey t i) = true) as Hp
      by (rewrite (proper_rawequal _ _ R); by apply okkey_proper).
    assert (whash (upd_node t i (set_val v))) as W'
      by (apply set_val_whash; [done|done|intros En; by rewrite En in Hp]).
    assert (forall j, gkey (upd_node t i (set_val v)) j = gkey t j) as gk
      by (intros j; unfold gkey; rewrite gnode_set_val; by case_decide).
    split; try done; [by intros; apply gafqH_get_same_keys| |].
    + intros k Hk'. unfold TableInv.content.
      rewrite (gafqH_get_same_keys t) by done.
      destruct (gafqH_getP _ _ _ W Hk') as [D'|j D' H|D' H]; simpl.
      * destruct (gafqO_rawequalObj key k) eqn:R'; [|done].
        destruct D. unfold in_array in *. by rewrite (arrayindex_rawequal _ _ R').
      * unfold gval. rewrite gnode_set_val. pose proof (key_lt_length _ _ Hp).
        destruct (gafqO_rawequalObj key k) eqn:R'.
        -- assert (i = j) as <-; [|by rewrite decide_True].
           apply (wh_uniq _ _ W); [done|].
           eapply rawequal_trans; [exact R|]. eapply rawequal_trans; [exact R'|].
           by rewrite rawequal_sym.
        -- rewrite decide_False; [done|]. intros [-> _].
           rewrite rawequal_sym in R. pose proof (rawequal_trans _ _ _ R H). congruence.
      * destruct (gafqO_rawequalObj key k) eqn:R'; [|done].
        pose proof (rawequal_trans _ _ _ R R'). by rewrite H in *.
    + apply nilcount_keys; [apply upd_node_length|done].
Qed.

End Set_.
