(* ===== verification/TableSizes.v ===== *)
(** * Choosing the sizes of a rehashed table

    [countint], [numusearray], [numusehash] and [computesizes] (gtable.c): the
    vector [nums] counts the integer keys of the table by the logarithm of the
    key, and [computesizes] picks the array size from it.  Then [resize] and [rehash]. *)

From S2P Require Import Prelude Number Object Table TableInv TableInsert TableSet.

(** an integer key that may live in an array part *)
Definition intkey (k : Z) : Prop := 1 <= k <= MAXASIZE.

Lemma MAXASIZE_val : MAXASIZE = 67108864.
Proof. reflexivity. Qed.

Lemma ceillog2_le k j : intkey k -> 0 <= j -> (ceillog2 k <= j <-> k <= 2 ^ j).
Proof.
  unfold intkey. rewrite MAXASIZE_val. intros Hk Hj. rewrite ceillog2_spec by (unfold INT_MAX; lia).
  destruct (Z.eq_dec k 1) as [->|].
  - change (Z.log2_up 1) with 0. split; [|done]. intros _. pose proof (Z.pow_pos_nonneg 2 j). lia.
  - symmetry. apply Z.log2_up_le_pow2; lia.
Qed.

Lemma ceillog2_nonneg k : intkey k -> 0 <= ceillog2 k.
Proof.
  unfold intkey. rewrite MAXASIZE_val. intros Hk.
  rewrite ceillog2_spec by (unfold INT_MAX; lia). apply Z.log2_up_nonneg.
Qed.

Lemma ceillog2_max k : intkey k -> ceillog2 k <= 26.
Proof. intros Hk. apply ceillog2_le; [done|lia|]. apply Hk. Qed.

(** the keys counted at index [i] *)
Definition slice (i : Z) (ks : list Z) : list Z := filter (fun k => ceillog2 k = i) ks.

(** the keys up to [2^j] *)
Definition upto (j : Z) (ks : list Z) : list Z := filter (fun k => k <= 2 ^ j) ks.

(** [nums] counts the keys [ks] *)
Record counts (nums : list Z) (ks : list Z) : Prop := {
  cn_length : length nums = 27%nat;
  cn_keys : Forall intkey ks;
  cn_nums i : 0 <= i <= 26 -> vget 0 nums i = zlen (slice i ks)
}.

Lemma counts_zero : counts (replicate (Z.to_nat (MAXBITS + 1)) 0) [].
Proof.
  split; [done|constructor|]. intros i Hi. unfold vget.
  destruct (Z.ltb_spec i 0); [lia|]. rewrite nth_lookup, lookup_replicate_2; [done|].
  unfold MAXBITS. lia.
Qed.

(** adding to the counter [i] the number of new keys of logarithm [i] *)
Lemma counts_add nums ks l i :
  counts nums ks -> 0 <= i <= 26 -> Forall (fun k => intkey k /\ ceillog2 k = i) l ->
  counts (vset nums i (vget 0 nums i + zlen l)) (l ++ ks).
Proof.
  intros [Hl Hk Hn] Hi HF. split.
  - by rewrite length_vset.
  - apply Forall_app. split; [|done]. by eapply Forall_impl; [exact HF|]; intros ? [].
  - intros j Hj. rewrite vget_vset by (unfold zlen; lia). unfold slice. rewrite filter_app.
    unfold zlen. rewrite length_app, Nat2Z.inj_add. case_decide as E.
    + subst j. rewrite Hn by done. unfold zlen, slice.
      rewrite (filter_all _ l); [lia|].
      eapply Forall_impl; [exact HF|]. by intros ? [].
    + rewrite Hn by done. unfold zlen, slice.
      rewrite (filter_none _ l); [simpl; lia|].
      eapply Forall_impl; [exact HF|]. intros ? [_ ?]. congruence.
Qed.

(** ** [countint] *)

Definition intkeys_of (k : TValue) : list Z :=
  let i := arrayindex k in if decide (intkey i) then [i] else [].

Lemma countint_counts key nums ks :
  counts nums ks ->
  let '(c, nums') := countint key nums in
  c = zlen (intkeys_of key) /\ counts nums' (intkeys_of key ++ ks).
Proof.
  intros C. unfold countint, intkeys_of, intkey.
  destruct (decide _) as [D|D].
  - rewrite (proj2 (Z.ltb_lt _ _)), (proj2 (Z.leb_le _ _)) by lia. simpl.
    split; [done|]. apply (counts_add nums ks [arrayindex key]); [done| |].
    + split; [by apply ceillog2_nonneg|by apply ceillog2_max].
    + by constructor.
  - destruct (Z.ltb_spec 0 (arrayindex key)), (Z.leb_spec (arrayindex key) MAXASIZE); simpl; try lia;
      done.
Qed.

(** ** [numusearray] *)

(** the keys of the non-nil slots of an array fragment whose first slot has index [i] *)
Fixpoint array_keys (i : Z) (l : list TValue) : list Z :=
  match l with
  | [] => []
  | v :: l' => if ttisnil v then array_keys (i + 1) l' else (i + 1) :: array_keys (i + 1) l'
  end.

Lemma array_keys_app i l1 l2 :
  array_keys i (l1 ++ l2) = array_keys i l1 ++ array_keys (i + zlen l1) l2.
Proof.
  unfold zlen. revert i. induction l1 as [|v l1 IH]; intros i; simpl.
  - f_equal. lia.
  - rewrite IH. replace (i + Z.of_nat (S (length l1))) with (i + 1 + Z.of_nat (length l1)) by lia.
    by destruct (ttisnil v).
Qed.

Lemma array_keys_range i l k : k ∈ array_keys i l -> i < k <= i + zlen l.
Proof.
  unfold zlen. revert i. induction l as [|v l IH]; intros i; simpl; [by intros ?%not_elem_of_nil|].
  destruct (ttisnil v).
  - intros ?%IH. lia.
  - intros [->|?%IH]%elem_of_cons; lia.
Qed.

Lemma array_keys_length i l :
  length (array_keys i l) = length (filter (fun v => ttisnil v = false) l).
Proof.
  revert i. induction l as [|v l IH]; intros i; simpl; [done|].
  destruct (ttisnil v) eqn:E.
  - rewrite filter_cons_False by congruence. apply IH.
  - rewrite filter_cons_True by done. simpl. by rewrite IH.
Qed.

Lemma array_keys_NoDup i l : NoDup (array_keys i l).
Proof.
  revert i. induction l as [|v l IH]; intros i; simpl; [constructor|].
  destruct (ttisnil v); [apply IH|]. constructor; [|apply IH].
  intros ?%array_keys_range. lia.
Qed.

Lemma counts_perm nums ks ks' : ks ≡ₚ ks' -> counts nums ks -> counts nums ks'.
Proof.
  intros E [H1 H2 H3]. split; [done|by rewrite <- E|].
  intros i Hi. rewrite H3 by done. unfold zlen, slice. by rewrite E.
Qed.

(** the slots visited before slice [lg] *)
Definition before (lg : Z) : Z := if lg =? 0 then 0 else 2 ^ (lg - 1).

Lemma before_slice lg k : 0 <= lg <= 26 -> before lg < k <= 2 ^ lg -> intkey k /\ ceillog2 k = lg.
Proof.
  intros Hlg Hk. assert (0 <= before lg) as Hb.
  { unfold before. destruct (lg =? 0); [lia|]. apply Z.pow_nonneg. lia. }
  assert (intkey k) as Hi.
  { unfold intkey. rewrite MAXASIZE_val. pose proof (Z.pow_le_mono_r 2 lg 26). lia. }
  split; [done|]. apply Z.le_antisymm; [apply ceillog2_le; [done|lia|lia]|].
  destruct (Z.eq_dec lg 0) as [->|Hne]; [by apply ceillog2_nonneg|].
  unfold before in Hk. destruct (Z.eqb_spec lg 0); [done|].
  assert (~ ceillog2 k <= lg - 1); [|lia]. rewrite ceillog2_le by (done || lia). lia.
Qed.

Lemma numusearray_loop_spec fuel t lg ause nums ks :
  zlen (array t) = sizearray t -> sizearray t <= MAXASIZE ->
  0 <= lg -> lg + Z.of_nat fuel = 27 ->
  let p := Z.min (before lg) (sizearray t) in
  counts nums (array_keys 0 (take (Z.to_nat p) (array t)) ++ ks) ->
  ause = zlen (array_keys 0 (take (Z.to_nat p) (array t))) ->
  let '(ause', nums') := numusearray_loop fuel t lg (2 ^ lg) (p + 1) ause nums in
  ause' = zlen (array_keys 0 (array t)) /\ counts nums' (array_keys 0 (array t) ++ ks).
Proof.
  intros Ha Hmax. revert lg ause nums. induction fuel as [|fuel IH]; intros lg ause nums Hlg Hf p C Ea.
  - assert (lg = 27) as -> by lia. simpl. subst p. change (before 27) with 67108864 in *.
    rewrite MAXASIZE_val in Hmax. rewrite take_ge in C, Ea by (unfold zlen in Ha; lia). done.
  - assert (0 <= before lg < 2 ^ lg) as Hb.
    { unfold before. destruct (Z.eqb_spec lg 0) as [->|]; [simpl; lia|].
      pose proof (Z.pow_pos_nonneg 2 (lg - 1)). replace lg with (lg - 1 + 1) at 3 by lia.
      rewrite Z.pow_add_r by lia. lia. }
    simpl. set (N := sizearray t) in *.
    set (lim := if N <? 2 ^ lg then N else 2 ^ lg).
    assert (lim = Z.min (2 ^ lg) N) as Elim by (subst lim; destruct (Z.ltb_spec N (2 ^ lg)); lia).
    destruct ((N <? 2 ^ lg) && (lim <? p + 1)) eqn:Ebrk.
    + apply andb_prop in Ebrk as [E1%Z.ltb_lt E2%Z.ltb_lt].
      assert (p = N) as Ep by lia. rewrite Ep, take_ge in C, Ea by (unfold zlen in Ha; lia). done.
    + assert (0 <= p <= N) as Hp by (subst p; unfold zlen in Ha; lia).
      assert (p <= lim) as Hpl by lia.
      assert (before (lg + 1) = 2 ^ lg) as Eb.
      { unfold before. destruct (Z.eqb_spec (lg + 1) 0); [lia|]. f_equal. lia. }
      set (sl := take (Z.to_nat (lim - (p + 1) + 1)) (drop (Z.to_nat (p + 1 - 1)) (array t))).
      assert (take (Z.to_nat lim) (array t) = take (Z.to_nat p) (array t) ++ sl) as Etake.
      { subst sl. replace (p + 1 - 1) with p by lia.
        replace (Z.to_nat (lim - (p + 1) + 1)) with (Z.to_nat lim - Z.to_nat p)%nat by lia.
        rewrite <- (take_drop (Z.to_nat p) (take (Z.to_nat lim) (array t))) at 1.
        rewrite take_take, Nat.min_l by lia. f_equal. rewrite take_drop_commute.
        by replace (Z.to_nat p + (Z.to_nat lim - Z.to_nat p))%nat with (Z.to_nat lim) by lia. }
      assert (zlen (take (Z.to_nat p) (array t)) = p) as Elen
        by (unfold zlen in *; rewrite length_take; lia).
      assert (zlen sl = lim - p) as Esl.
      { apply (f_equal zlen) in Etake. unfold zlen in *. rewrite length_app, length_take in Etake. lia. }
      specialize (IH (lg + 1) (ause + zlen (array_keys p sl))
                     (vset nums lg (vget 0 nums lg + zlen (array_keys p sl)))).
      replace (Z.min (before (lg + 1)) N) with lim in IH by lia.
      replace (2 ^ lg * 2) with (2 ^ (lg + 1)) by (rewrite Z.pow_add_r by lia; lia).
      replace (Z.max (p + 1) (lim + 1)) with (lim + 1) by lia.
      replace (count_slice (array t) (p + 1) lim) with (zlen (array_keys p sl))
        by (unfold count_slice, zlen; by rewrite array_keys_length).
      apply IH; [lia|lia| |].
      * rewrite Etake, array_keys_app, Elen, Z.add_0_l.
        eapply counts_perm; [|apply (counts_add _ _ (array_keys p sl) lg C); [lia|]].
        -- rewrite <- app_assoc. apply Permutation_app_swap_app.
        -- apply Forall_forall. intros k Hk%array_keys_range. apply before_slice; lia.
      * rewrite Etake, array_keys_app, Elen, Ea, Z.add_0_l. unfold zlen. rewrite length_app. lia.
Qed.

Lemma numusearray_spec t nums ks :
  zlen (array t) = sizearray t -> sizearray t <= MAXASIZE -> counts nums ks ->
  let '(ause, nums') := numusearray t nums in
  ause = zlen (array_keys 0 (array t)) /\ counts nums' (array_keys 0 (array t) ++ ks).
Proof.
  intros Ha Hm C. unfold numusearray.
  pose proof (numusearray_loop_spec 27 t 0 0 nums ks Ha Hm) as H.
  change (before 0) with 0 in H.
  replace (Z.min 0 (sizearray t)) with 0 in H by (unfold zlen in Ha; lia).
  apply H; done || lia.
Qed.

(** ** [numusehash] *)

Definition live (nd : Node) : Prop := i_val nd <> VNil.

#[export] Instance live_dec nd : Decision (live nd).
Proof. unfold live. apply _. Defined.

(** the integer keys of the entries of a node vector *)
Definition node_keys (l : list Node) : list Z :=
  concat ((fun nd => intkeys_of (i_key nd)) <$> filter live l).

Lemma node_keys_cons nd l :
  node_keys (nd :: l) = (if decide (live nd) then intkeys_of (i_key nd) else []) ++ node_keys l.
Proof.
  unfold node_keys. destruct (decide (live nd)).
  - by rewrite filter_cons_True.
  - by rewrite filter_cons_False.
Qed.

Lemma numusehash_loop_spec l nums ks :
  counts nums ks ->
  let '(totaluse, ause, nums') := numusehash_loop l nums in
  totaluse = zlen (filter live l) /\ ause = zlen (node_keys l) /\ counts nums' (node_keys l ++ ks).
Proof.
  intros C. induction l as [|nd l IH]; simpl; [done|]. rewrite node_keys_cons.
  destruct (numusehash_loop l nums) as [[totaluse ause] nums1]. destruct IH as (E1 & E2 & C1).
  destruct (ttisnil (i_val nd)) eqn:Ev; simpl.
  - apply ttisnil_spec in Ev. rewrite filter_cons_False, decide_False by (unfold live; tauto).
    done.
  - apply ttisnil_false in Ev. rewrite filter_cons_True, decide_True by done.
    pose proof (countint_counts (i_key nd) nums1 _ C1) as H.
    destruct (countint (i_key nd) nums1) as [c nums2]. destruct H as [Ec C2].
    split; [unfold zlen in *; simpl; lia|]. rewrite <- app_assoc. split; [|done].
    unfold zlen in *. rewrite length_app. lia.
Qed.

(** ** [computesizes] *)

Lemma upto_step i ks :
  Forall intkey ks -> 0 <= i ->
  zlen (upto i ks) = (if i =? 0 then 0 else zlen (upto (i - 1) ks)) + zlen (slice i ks).
Proof.
  intros F Hi. unfold upto, slice, zlen. induction F as [|k ks Hk F IH]; [by destruct (i =? 0)|].
  pose proof (ceillog2_nonneg k Hk). pose proof (ceillog2_le k i Hk Hi).
  destruct (Z.eqb_spec i 0) as [->|Hne].
  - destruct (decide (k <= 2 ^ 0)).
    + rewrite filter_cons_True, (filter_cons_True (fun k => ceillog2 k = 0)) by lia. simpl. lia.
    + rewrite filter_cons_False, (filter_cons_False (fun k => ceillog2 k = 0)) by lia. lia.
  - pose proof (ceillog2_le k (i - 1) Hk ltac:(lia)).
    destruct (decide (k <= 2 ^ i)), (decide (k <= 2 ^ (i - 1))), (decide (ceillog2 k = i)); try lia;
      repeat (first [rewrite (filter_cons_True (fun k => k <= 2 ^ i)) by lia
                    |rewrite (filter_cons_False (fun k => k <= 2 ^ i)) by lia]);
      repeat (first [rewrite (filter_cons_True (fun k => k <= 2 ^ (i - 1))) by lia
                    |rewrite (filter_cons_False (fun k => k <= 2 ^ (i - 1))) by lia]);
      repeat (first [rewrite (filter_cons_True (fun k => ceillog2 k = i)) by lia
                    |rewrite (filter_cons_False (fun k => ceillog2 k = i)) by lia]);
      simpl; lia.
Qed.

Lemma upto_all ks : Forall intkey ks -> upto 26 ks = ks.
Proof.
  intros F. apply filter_all. eapply Forall_impl; [exact F|]. intros k [_ H].
  rewrite MAXASIZE_val in H. change (2 ^ 26) with 67108864. done.
Qed.

Lemma upto_le j ks : zlen (upto j ks) <= zlen ks.
Proof. unfold zlen, upto. pose proof (length_filter (fun k => k <= 2 ^ j) ks). lia. Qed.

(** at most [2^j] distinct keys lie below [2^j] *)
Lemma upto_bound j ks : Forall intkey ks -> NoDup ks -> 0 <= j -> zlen (upto j ks) <= 2 ^ j.
Proof.
  intros F Hnd Hj. unfold zlen.
  assert (0 < 2 ^ j) by (apply Z.pow_pos_nonneg; lia).
  transitivity (Z.of_nat (length (seqZ 1 (2 ^ j)))); [|rewrite length_seqZ; lia].
  apply Nat2Z.inj_le, submseteq_length, NoDup_submseteq; [by apply NoDup_filter|].
  intros k [H1 H2]%list_elem_of_filter. apply elem_of_seqZ.
  rewrite Forall_forall in F. apply F in H2. unfold intkey in H2. lia.
Qed.

(** The candidate sizes: a power of two with more than half of its slots in use. *)
Definition candidate (ks : list Z) (j : Z) : Prop := 2 ^ j / 2 < zlen (upto j ks).

Definition chosen (ks : list Z) (na n : Z) : Prop :=
  (na = 0 /\ n = 0) \/
  (exists j, 0 <= j <= 26 /\ n = 2 ^ j /\ na = zlen (upto j ks) /\ candidate ks j).

Lemma computesizes_loop_spec fuel nums ks i na n :
  counts nums ks -> 0 <= i -> i <= 26 -> 27 <= i + Z.of_nat fuel ->
  chosen ks na n ->
  (NoDup ks -> forall j, 0 <= j < i -> candidate ks j -> 2 ^ j <= n) ->
  let a := if i =? 0 then 0 else zlen (upto (i - 1) ks) in
  let '(na', n') := computesizes_loop fuel nums (zlen ks) i (2 ^ i) a na n in
  chosen ks na' n' /\ (NoDup ks -> forall j, 0 <= j -> candidate ks j -> 2 ^ j <= n').
Proof.
  intros C. revert i na n. induction fuel as [|fuel IH]; intros i na n Hi Hi26 Hf Hc Hopt a; [lia|].
  assert (0 < 2 ^ i) as Hpi by (apply Z.pow_pos_nonneg; lia).
  assert (forall b, 0 <= b -> forall j, i <= j -> zlen ks <= 2 ^ b / 2 -> b <= j -> ~ candidate ks j)
    as Hbig.
  { intros b Hb j Hj Hle Hbj. unfold candidate. pose proof (upto_le j ks).
    pose proof (Z.div_le_mono (2 ^ b) (2 ^ j) 2 ltac:(lia) ltac:(apply Z.pow_le_mono_r; lia)). lia. }
  simpl. destruct (Z.ltb_spec (2 ^ i / 2) (zlen ks)) as [L|L].
  2:{ split; [done|]. intros Hnd j Hj Hcj. destruct (Z_lt_le_dec j i); [by apply Hopt|].
      by destruct (Hbig i Hi j ltac:(lia) L ltac:(lia)). }
  rewrite (cn_nums _ _ C) by lia.
  pose proof (upto_step i ks (cn_keys _ _ C) Hi) as Hstep. fold a in Hstep.
  (* the state after the test on nums[i] *)
  set (st := if 0 <? zlen (slice i ks) then _ else _).
  assert (exists na1 n1, st = (zlen (upto i ks), na1, n1) /\ chosen ks na1 n1 /\
            (NoDup ks -> forall j, 0 <= j <= i -> candidate ks j -> 2 ^ j <= n1))
    as (na1 & n1 & -> & Hc1 & Hopt1).
  { assert (0 <= zlen (slice i ks)) by (unfold zlen; lia). subst st.
    destruct (Z.ltb_spec 0 (zlen (slice i ks))) as [P|P].
    - rewrite <- Hstep. destruct (Z.ltb_spec (2 ^ i / 2) (zlen (upto i ks))) as [Q|Q].
      + exists (zlen (upto i ks)), (2 ^ i). split; [done|]. split; [right; by exists i|].
        intros _ j Hj _. apply Z.pow_le_mono_r; lia.
      + exists na, n. split; [done|]. split; [done|]. intros Hnd j Hj Hcj.
        destruct (Z.eq_dec j i) as [->|]; [unfold candidate in Hcj; lia|]. apply Hopt; [done|lia|done].
    - assert (zlen (slice i ks) = 0) as Z0 by lia. rewrite Z0, Z.add_0_r in Hstep.
      exists na, n. rewrite Hstep. split; [done|]. split; [done|]. intros Hnd j Hj Hcj.
      destruct (Z.eq_dec j i) as [->|]; [|apply Hopt; [done|lia|done]]. exfalso.
      unfold candidate in Hcj. rewrite Hstep in Hcj. subst a.
      destruct (Z.eqb_spec i 0) as [->|]; [change (2 ^ 0 / 2) with 0 in Hcj; lia|].
      pose proof (upto_bound (i - 1) ks (cn_keys _ _ C) Hnd ltac:(lia)).
      replace (2 ^ i) with (2 ^ (i - 1) * 2) in Hcj
        by (rewrite <- (Z.pow_1_r 2) at 2; rewrite <- Z.pow_add_r by lia; f_equal; lia).
      rewrite Z.div_mul in Hcj by lia. lia. }
  destruct (Z.eqb_spec (zlen (upto i ks)) (zlen ks)) as [Eall|Eall].
  - split; [done|]. intros Hnd j Hj Hcj. destruct (Z_le_gt_dec j i); [by apply Hopt1|].
    exfalso. pose proof (upto_bound i ks (cn_keys _ _ C) Hnd Hi) as Hb.
    apply (Hbig (i + 1) ltac:(lia) j ltac:(lia)); [|lia|done].
    rewrite Z.pow_add_r, Z.div_mul by lia. lia.
  - assert (i <> 26) by (intros ->; rewrite upto_all in Eall by apply C; done).
    specialize (IH (i + 1) na1 n1). replace (i + 1 - 1) with i in IH by lia.
    destruct (Z.eqb_spec (i + 1) 0); [lia|].
    replace (2 ^ i * 2) with (2 ^ (i + 1)) by (rewrite Z.pow_add_r by lia; lia).
    apply IH; try done; try lia. intros Hnd j Hj. apply Hopt1; [done|lia].
Qed.

(** [computesizes] on the counters of the keys [ks] *)
Lemma computesizes_chosen nums ks :
  counts nums ks ->
  let '(na, n) := computesizes nums (zlen ks) in
  chosen ks na n /\ (NoDup ks -> forall j, 0 <= j -> candidate ks j -> 2 ^ j <= n).
Proof.
  intros C. apply (computesizes_loop_spec 33 nums ks 0 0 0 C); try lia. by left.
Qed.

(** C35: [computesizes], given counters of the distinct integer keys [ks], returns the number
    of keys that go to the array part and the size of that part: the size is 0 or a power of
    two [n <= 2^26] with more than [n/2] of its slots in use, it is the largest such power of
    two, and the first result is the number of keys in [1..n]. *)
Theorem computesizes_optimal nums ks :
  counts nums ks -> NoDup ks ->
  let '(na, n) := computesizes nums (zlen ks) in
  (n = 0 \/ (exists j, 0 <= j <= 26 /\ n = 2 ^ j /\ n / 2 < na)) /\
  na = zlen (filter (fun k => k <= n) ks) /\
  (forall j, 0 <= j -> 2 ^ j / 2 < zlen (filter (fun k => k <= 2 ^ j) ks) -> 2 ^ j <= n).
Proof.
  intros C Hnd. pose proof (computesizes_chosen nums ks C) as H.
  destruct (computesizes nums (zlen ks)) as [na n]. destruct H as [Hc Hopt].
  split; [|split; [|by apply Hopt]].
  - destruct Hc as [[_ ->]|(j & Hj & -> & -> & Hcj)]; [by left|right; by exists j].
  - destruct Hc as [[-> ->]|(j & Hj & -> & -> & Hcj)]; [|done].
    rewrite filter_none; [done|]. eapply Forall_impl; [apply (cn_keys _ _ C)|].
    intros k [Hk _]. lia.
Qed.

(** the counters of the keys 1, 2, 3 *)
Definition nums_123 : list Z :=
  snd (countint (VNumber (cast_num 3)) (snd (countint (VNumber (cast_num 1))
        (snd (countint (VNumber (cast_num 2)) (replicate 27 0)))))).

Lemma nums_123_counts : counts nums_123 [3; 1; 2].
Proof.
  apply (counts_perm _ [3; 1; 2]); [done|].
  pose proof (countint_counts (VNumber (cast_num 2)) _ _ counts_zero) as [_ C1].
  pose proof (countint_counts (VNumber (cast_num 1)) _ _ C1) as [_ C2].
  pose proof (countint_counts (VNumber (cast_num 3)) _ _ C2) as [_ C3].
  exact C3.
Qed.

Lemma computesizes_optimal_witness :
  computesizes nums_123 (zlen [3; 1; 2]) = (3, 4) /\
  (forall j, 0 <= j -> 2 ^ j / 2 < zlen (filter (fun k => k <= 2 ^ j) [3; 1; 2]) -> 2 ^ j <= 4).
Proof.
  assert (computesizes nums_123 (zlen [3; 1; 2]) = (3, 4)) as E by (vm_compute; reflexivity).
  split; [exact E|].
  assert (NoDup [3; 1; 2]) as Hnd by (apply (bool_decide_unpack _); vm_compute; exact I).
  pose proof (computesizes_optimal nums_123 [3; 1; 2] nums_123_counts Hnd) as H.
  rewrite E in H. exact (proj2 (proj2 H)).
Defined.

(** * Rehashing

    [setnodevector], [setarrayvector], [resize] and [rehash] (gtable.c): a
    resize keeps the value of every key when the new hash part can hold the
    entries that do not fit the new array part, and [rehash] computes sizes
    for which it can, with a node left for the key being inserted.  So
    [newkey] needs at most one rehash, and [gafqH_set] succeeds on every key
    the API accepts. *)

(** ** Writing a list of entries

    Both loops of [resize] write a list of key/value pairs into the table. *)

(** the value of [k] after writing the entries [l] over a table where it is [v] *)
Definition overlay (l : list (TValue * TValue)) (k v : TValue) : TValue :=
  foldl (fun v kv => if gafqO_rawequalObj kv.1 k then kv.2 else v) v l.

Lemma overlay_app l1 l2 k v : overlay (l1 ++ l2) k v = overlay l2 k (overlay l1 k v).
Proof. apply foldl_app. Qed.

Lemma overlay_miss l k v :
  Forall (fun kv => gafqO_rawequalObj kv.1 k = false) l -> overlay l k v = v.
Proof. intros H. revert v. induction H as [|kv l E _ IH]; intros v; simpl; [done|]. by rewrite E. Qed.

Lemma overlay_same l k v :
  Forall (fun kv => gafqO_rawequalObj kv.1 k = true -> kv.2 = v) l -> overlay l k v = v.
Proof.
  induction 1 as [|kv l E _ IH]; simpl; [done|]. destruct (gafqO_rawequalObj _ _); [|done].
  by rewrite E.
Qed.

Lemma overlay_hit l k v w :
  (exists kv, kv ∈ l /\ gafqO_rawequalObj kv.1 k = true) ->
  Forall (fun kv => gafqO_rawequalObj kv.1 k = true -> kv.2 = w) l -> overlay l k v = w.
Proof.
  intros (kv & Hin & E) HF. apply list_elem_of_split in Hin as (l1 & l2 & ->).
  apply Forall_app in HF as [_ [H1 H2]%Forall_cons].
  rewrite overlay_app. simpl. rewrite E, H1 by done. by apply overlay_same.
Qed.

(** the entries of an array fragment and of a node vector *)
Fixpoint array_entries (i : Z) (l : list TValue) : list (TValue * TValue) :=
  match l with
  | [] => []
  | v :: l' => if ttisnil v then array_entries (i + 1) l'
               else (VNumber (cast_num (i + 1)), v) :: array_entries (i + 1) l'
  end.

Definition node_entries (l : list Node) : list (TValue * TValue) :=
  (fun nd => (i_key nd, i_val nd)) <$> filter live l.

Lemma array_entries_inv i l kv :
  kv ∈ array_entries i l -> exists n v, l !! n = Some v /\ v <> VNil /\
    kv = (VNumber (cast_num (i + Z.of_nat n + 1)), v).
Proof.
  revert i. induction l as [|v l IH]; intros i; simpl; [by intros ?%not_elem_of_nil|].
  destruct (ttisnil v) eqn:E.
  - intros (n & w & Hl & Hw & ->)%IH. exists (S n), w. split; [done|]. split; [done|].
    do 3 f_equal. lia.
  - intros [->|(n & w & Hl & Hw & ->)%IH]%elem_of_cons.
    + exists 0%nat, v. split; [done|]. split; [by apply ttisnil_false|]. do 3 f_equal. lia.
    + exists (S n), w. split; [done|]. split; [done|]. do 3 f_equal. lia.
Qed.

Lemma array_entries_elem i l n v :
  l !! n = Some v -> v <> VNil -> (VNumber (cast_num (i + Z.of_nat n + 1)), v) ∈ array_entries i l.
Proof.
  revert i n. induction l as [|w l IH]; intros i n; [done|]. destruct n as [|n]; simpl.
  - intros [= ->] Hv. rewrite (proj2 (ttisnil_false v) Hv). rewrite Z.add_0_r. constructor.
  - intros Hl Hv. specialize (IH (i + 1) n Hl Hv).
    replace (i + 1 + Z.of_nat n + 1) with (i + Z.of_nat (S n) + 1) in IH by lia.
    destruct (ttisnil w); [done|by constructor].
Qed.

Lemma node_entries_elem l kv :
  kv ∈ node_entries l <-> exists n nd, l !! n = Some nd /\ live nd /\ kv = (i_key nd, i_val nd).
Proof.
  unfold node_entries. rewrite list_elem_of_fmap. split.
  - intros (nd & -> & [Hl [n Hn]%list_elem_of_lookup]%list_elem_of_filter). by exists n, nd.
  - intros (n & nd & Hn & Hl & ->). exists nd. split; [done|].
    apply list_elem_of_filter. split; [done|]. by eapply list_elem_of_lookup_2.
Qed.

Section Rehash.

Variable ts_hash : pointer -> Z.
#[local] Abbreviation mainposition := (mainposition ts_hash).
#[local] Abbreviation gafqH_get := (gafqH_get ts_hash).
#[local] Abbreviation whash := (whash ts_hash).
#[local] Abbreviation wf := (wf ts_hash).
#[local] Abbreviation content := (content ts_hash).
#[local] Abbreviation inserted := (inserted ts_hash).
#[local] Abbreviation newkey := (newkey ts_hash).
#[local] Abbreviation gafqH_set_ := (gafqH_set_ ts_hash).

(** the number of keys the hash part can still take *)
Definition capacity (t : Table) : nat := if isdummy t then 0%nat else nilcount t.

Lemma capacity_room t : (0 < capacity t)%nat -> room t.
Proof. unfold capacity, room. destruct (isdummy t); [lia|done]. Qed.

#[local] Instance in_array_decision t k : Decision (in_array t k).
Proof. unfold in_array. apply _. Defined.

(** the number of entries of a list that go to the hash part of [t] *)
Definition hashed (t : Table) (l : list (TValue * TValue)) : nat :=
  length (filter (fun kv => ~ in_array t kv.1) l).

(** What writing the entries [l] guarantees. *)
Record put (t : Table) (l : list (TValue * TValue)) (t' : Table) : Prop := {
  put_wf : whash t';
  put_array : array_ok t';
  put_length : length (array t') = length (array t);
  put_size : sizearray t' = sizearray t;
  put_content k : okkey k = true -> content t' k = overlay l k (content t k);
  put_capacity : (capacity t <= capacity t' + hashed t l)%nat
}.

Lemma put_nil t : whash t -> array_ok t -> put t [] t.
Proof. intros. split; try done. unfold hashed. simpl. lia. Qed.

Lemma hashed_app t l1 l2 : hashed t (l1 ++ l2) = (hashed t l1 + hashed t l2)%nat.
Proof. unfold hashed. by rewrite filter_app, length_app. Qed.

Lemma hashed_size t t' l : sizearray t' = sizearray t -> hashed t' l = hashed t l.
Proof.
  intros E. unfold hashed. f_equal. apply list_filter_iff. intros kv. unfold in_array. by rewrite E.
Qed.

Lemma put_app t l1 t1 l2 t2 : put t l1 t1 -> put t1 l2 t2 -> put t (l1 ++ l2) t2.
Proof.
  intros H1 H2. split; [apply H2|apply H2|..].
  - by rewrite (put_length _ _ _ H2), (put_length _ _ _ H1).
  - by rewrite (put_size _ _ _ H2), (put_size _ _ _ H1).
  - intros k Hk. by rewrite (put_content _ _ _ H2), (put_content _ _ _ H1), overlay_app.
  - rewrite hashed_app, <- (hashed_size t t1 l2) by exact (put_size _ _ _ H1).
    pose proof (put_capacity _ _ _ H1). pose proof (put_capacity _ _ _ H2). lia.
Qed.

(** writing through the slot of an inserted key *)
Lemma inserted_put t key v t1 s :
  okkey key = true -> array_ok t -> inserted t key t1 s ->
  (in_array t key -> capacity t1 = capacity t) ->
  put t [(key, v)] (set_slot t1 s v).
Proof.
  intros Hk Ha I Hcap.
  assert (array_ok t1) as Ha1
    by (unfold array_ok in *; by rewrite (ins_array _ _ _ _ _ I), (ins_size _ _ _ _ _ I)).
  pose proof (set_slot_written _ t1 key s v (ins_wf _ _ _ _ _ I) Hk Ha1 (ins_get _ _ _ _ _ I)) as Wr.
  split; [apply Wr|apply Wr|..].
  - by rewrite (wr_length _ _ _ _ _ Wr), (ins_array _ _ _ _ _ I).
  - by rewrite (wr_size _ _ _ _ _ Wr), (ins_size _ _ _ _ _ I).
  - intros k Hk'. rewrite (wr_content _ _ _ _ _ Wr) by done. simpl.
    by rewrite (ins_content _ _ _ _ _ I).
  - assert (capacity (set_slot t1 s v) = capacity t1) as ->.
    { unfold capacity. by rewrite (wr_dummy _ _ _ _ _ Wr), (wr_nil _ _ _ _ _ Wr). }
    unfold hashed. destruct (decide (in_array t key)) as [D|D].
    + rewrite Hcap by done. lia.
    + rewrite filter_cons_True by done. simpl.
      unfold capacity. rewrite (ins_dummy _ _ _ _ _ I).
      pose proof (ins_nil _ _ _ _ _ I). destruct (isdummy t); lia.
Qed.

Lemma gafqH_get_in_array t key :
  whash t -> okkey key = true -> in_array t key ->
  gafqH_get t key = Some (SArray (Z.to_nat (arrayindex key - 1))).
Proof. intros W Hk D. destruct (gafqH_getP _ _ _ W Hk); done. Qed.

Lemma set_put fuel t key v :
  whash t -> array_ok t -> okkey key = true -> (hashed t [(key, v)] <= capacity t)%nat ->
  exists t1 s, gafqH_set_ (newkey fuel) t key = Ok (t1, s) /\ put t [(key, v)] (set_slot t1 s v).
Proof.
  intros W Ha Hk Hc. destruct (decide (in_array t key)) as [D|D].
  - exists (with_flags t 0), (SArray (Z.to_nat (arrayindex key - 1))).
    pose proof (gafqH_get_in_array t key W Hk D) as E.
    split; [unfold Table.gafqH_set_; by rewrite E|].
    apply inserted_put; try done. by apply inserted_present.
  - destruct (gafqH_set_room ts_hash fuel t key W Hk) as (t1 & s & E & I).
    { intros _. apply capacity_room. unfold hashed in Hc. rewrite filter_cons_True in Hc by done.
      simpl in Hc. lia. }
    exists t1, s. split; [done|]. by apply inserted_put.
Qed.

Lemma setnum_put fuel t i v :
  whash t -> array_ok t -> int_range i ->
  (hashed t [(VNumber (cast_num i), v)] <= capacity t)%nat ->
  exists t1 s, gafqH_setnum_ (newkey fuel) t i = Ok (t1, s) /\
    put t [(VNumber (cast_num i), v)] (set_slot t1 s v).
Proof.
  intros W Ha Hi Hc. set (key := VNumber (cast_num i)) in *.
  pose proof (okkey_cast i) as Hk. fold key in Hk.
  destruct (decide (in_array t key)) as [D|D].
  - exists t, (SArray (Z.to_nat (arrayindex key - 1))).
    pose proof (gafqH_get_in_array t key W Hk D) as E.
    split; [unfold gafqH_setnum_; rewrite <- (gafqH_get_cast ts_hash) by done; fold key; by rewrite E|].
    apply inserted_put; try done. split; try done. lia.
  - destruct (gafqH_setnum_room ts_hash fuel t i W Hi) as (t1 & s & E & I).
    { intros _. apply capacity_room. unfold hashed in Hc. rewrite filter_cons_True in Hc by done.
      simpl in Hc. lia. }
    exists t1, s. split; [done|]. by apply inserted_put.
Qed.

Lemma hashed_step t l1 t1 l2 :
  put t l1 t1 -> (hashed t (l1 ++ l2) <= capacity t)%nat ->
  (hashed t l1 <= capacity t)%nat /\ (hashed t1 l2 <= capacity t1)%nat.
Proof.
  intros H. rewrite hashed_app, (hashed_size t t1 l2) by exact (put_size _ _ _ H).
  pose proof (put_capacity _ _ _ H). lia.
Qed.

(** ** The two loops of [resize] *)

Lemma reinsert_array_put fuel t i l :
  whash t -> array_ok t -> 0 <= i -> i + zlen l <= MAXASIZE ->
  (hashed t (array_entries i l) <= capacity t)%nat ->
  exists t', reinsert_array (newkey fuel) t i l = Ok t' /\ put t (array_entries i l) t'.
Proof.
  unfold zlen. revert t i. induction l as [|v l IH]; intros t i W Ha Hi Hl Hc; simpl in *.
  - exists t. split; [done|]. by apply put_nil.
  - destruct (ttisnil v); simpl; [apply IH; done || lia|].
    change (?x :: ?y) with ([x] ++ y) in Hc |- *.
    destruct (setnum_put fuel t (i + 1) v) as (t1 & s & E & P); [done|done| | |].
    + rewrite MAXASIZE_val in *. unfold int_range, INT_MIN, INT_MAX. lia.
    + rewrite hashed_app in Hc. lia.
    + rewrite E. simpl. destruct (hashed_step _ _ _ _ P Hc) as [_ Hc1].
      destruct (IH (set_slot t1 s v) (i + 1)) as (t' & E' & P'); [apply P|apply P|lia|lia|done|].
      exists t'. split; [done|]. exact (put_app _ _ _ _ _ P P').
Qed.

Lemma reinsert_nodes_put fuel t l :
  whash t -> array_ok t -> Forall (fun nd => live nd -> okkey (i_key nd) = true) l ->
  (hashed t (node_entries l) <= capacity t)%nat ->
  exists t', reinsert_nodes ts_hash (newkey fuel) t l = Ok t' /\ put t (node_entries l) t'.
Proof.
  intros W Ha HF. revert t W Ha. induction HF as [|nd l Hnd _ IH]; intros t W Ha Hc; simpl.
  - exists t. split; [done|]. by apply put_nil.
  - unfold node_entries in *. destruct (ttisnil (i_val nd)) eqn:Ev; simpl.
    + rewrite filter_cons_False in Hc |- * by (intros Hl; apply Hl; by apply ttisnil_spec).
      by apply IH.
    + apply ttisnil_false in Ev. rewrite filter_cons_True in Hc |- * by done.
      rewrite fmap_cons in *. change (?x :: ?y) with ([x] ++ y) in Hc |- *.
      destruct (set_put fuel t (i_key nd) (i_val nd)) as (t1 & s & E & P);
        [done|done|by apply Hnd| |].
      * rewrite hashed_app in Hc. lia.
      * rewrite E. simpl. destruct (hashed_step _ _ _ _ P Hc) as [_ Hc1].
        destruct (IH (set_slot t1 s (i_val nd))) as (t' & E' & P'); [apply P|apply P|done|].
        exists t'. split; [done|]. exact (put_app _ _ _ _ _ P P').
Qed.

(** ** Fresh hash parts *)

Lemma whash_empty t :
  0 <= lsizenode t <= MAXBITS -> Z.of_nat (length (node t)) = sizenode t ->
  0 <= sizearray t <= MAXASIZE -> (forall i, gnode t i = dummynode_) ->
  (isdummy t = true -> node t = [dummynode_] /\ lastfree t <= 0) ->
  lastfree t <= Z.of_nat (length (node t)) ->
  (isdummy t = false -> lastfree t = Z.of_nat (length (node t))) -> whash t.
Proof.
  intros H1 H2 H3 Hg H5 H6 H7.
  assert (forall i, gkey t i = VNil) as gk by (intros i; unfold gkey; by rewrite Hg).
  assert (forall i, gval t i = VNil) as gv by (intros i; unfold gval; by rewrite Hg).
  assert (forall i, gnext t i = None) as gx by (intros i; unfold gnext; by rewrite Hg).
  split; try done; intros *; rewrite ?gk, ?gv, ?gx; try done.
  - exists id. intros i n. by rewrite gx.
  - intros _. split; [done|]. split; [done|]. intros j. by rewrite gx.
  - intros Hd ?. rewrite H7 by done. lia.
Qed.

Record fresh (t : Table) (size : Z) (t' : Table) : Prop := {
  fr_wf : whash t';
  fr_array : array t' = array t;
  fr_size : sizearray t' = sizearray t;
  fr_nil i : gkey t' i = VNil;
  fr_capacity : (Z.to_nat size <= capacity t')%nat
}.

Lemma nilcount_all t : (forall i, gkey t i = VNil) -> nilcount t = length (node t).
Proof.
  intros H. unfold nilcount. rewrite filter_all; [apply length_seq|].
  apply Forall_forall. intros i _. apply H.
Qed.

Lemma nth_dummy n i : nth i (replicate n dummynode_) dummynode_ = dummynode_.
Proof. revert i. induction n as [|n IH]; intros [|i]; simpl; done || apply IH. Qed.

Lemma ceillog2_pow size : 1 <= size <= MAXASIZE -> 0 <= ceillog2 size <= 26 /\ size <= 2 ^ ceillog2 size.
Proof.
  intros H. split; [split; [by apply ceillog2_nonneg|by apply ceillog2_max]|].
  apply ceillog2_le; [done|by apply ceillog2_nonneg|lia].
Qed.

Lemma setnodevector_fresh t size :
  0 <= sizearray t <= MAXASIZE -> 0 <= size <= MAXASIZE ->
  exists t', setnodevector t size = Ok t' /\ fresh t size t'.
Proof.
  intros Ha Hs. unfold setnodevector. destruct (Z.eqb_spec size 0) as [->|Hne].
  - eexists. split; [done|]. split; try done.
    + apply whash_empty; try done. by intros [|[|i]].
    + intros [|[|i]]; done.
  - destruct (ceillog2_pow size ltac:(lia)) as [Hl Hp]. set (lsize := ceillog2 size) in *.
    destruct (Z.ltb_spec MAXBITS lsize); [unfold MAXBITS in *; lia|].
    eexists. split; [done|]. rewrite (twoto_pow lsize) by lia.
    set (t' := with_hash _ _ _ _ _).
    assert (forall i, gnode t' i = dummynode_) as Hg by (intros i; apply nth_dummy).
    assert (forall i, gkey t' i = VNil) as Hk by (intros i; unfold gkey; by rewrite Hg).
    assert (Z.of_nat (length (node t')) = 2 ^ lsize) as El.
    { change (node t') with (replicate (Z.to_nat (2 ^ lsize)) dummynode_).
      rewrite length_replicate, Z2Nat.id; [done|]. apply Z.pow_nonneg. lia. }
    split; try done.
    + apply whash_empty; try done.
      * rewrite El. unfold sizenode. by rewrite twoto_pow by (simpl; lia).
      * rewrite El. simpl. lia.
    + unfold capacity. change (isdummy t') with false. simpl.
      rewrite nilcount_all by done. lia.
Qed.

Lemma fresh_content t k :
  whash t -> (forall i, gkey t i = VNil) -> okkey k = true ->
  content t k = if decide (in_array t k) then nth (Z.to_nat (arrayindex k - 1)) (array t) VNil
                else VNil.
Proof.
  intros W H Hk. unfold TableInv.content. destruct (gafqH_getP _ _ _ W Hk) as [D|i D E|D E]; simpl.
  - by rewrite decide_True.
  - rewrite H in E. apply proper_rawequal in E. rewrite (okkey_proper _ Hk) in E. done.
  - by rewrite decide_False.
Qed.

(** ** [resize] *)

(** the entries of [t] that [resize] writes again when the new array part has size [na] *)
Definition spill (t : Table) (na : Z) : list (TValue * TValue) :=
  array_entries na (drop (Z.to_nat na) (array t)) ++ node_entries (reverse (node t)).

(** a spilled entry is an entry of the table *)
Lemma spill_content t na k kv :
  wf t -> 0 <= na -> okkey k = true -> kv ∈ spill t na -> gafqO_rawequalObj kv.1 k = true ->
  content t k = kv.2 /\ kv.2 <> VNil.
Proof.
  intros [W Ha] Hna Hk. unfold spill. intros [H|H]%elem_of_app E.
  - apply array_entries_inv in H as (n & v & Hl & Hv & ->). simpl in *. split; [|done].
    rewrite lookup_drop in Hl. pose proof (lookup_lt_Some _ _ _ Hl) as Hlt.
    pose proof (wh_asize _ _ W) as Hs. rewrite MAXASIZE_val in Hs.
    assert (arrayindex k = na + Z.of_nat n + 1) as Ei.
    { rewrite <- (arrayindex_rawequal _ _ E). apply arrayindex_cast.
      unfold int_range, INT_MIN, INT_MAX. lia. }
    unfold TableInv.content. rewrite gafqH_get_in_array by (done || (unfold in_array; lia)).
    simpl. rewrite nth_lookup. replace (Z.to_nat (arrayindex k - 1)) with (Z.to_nat na + n)%nat by lia.
    by rewrite Hl.
  - apply node_entries_elem in H as (n & nd & Hn & Hl & ->). simpl in *. split; [|done].
    assert (nd ∈ node t) as [i Hi]%list_elem_of_lookup
      by (apply (list_elem_of_lookup_2 _ _ _) in Hn; by apply elem_of_reverse).
    assert (gnode t i = nd) as Eg by (unfold gnode; by rewrite nth_lookup, Hi).
    unfold TableInv.content. rewrite (gafqH_get_node ts_hash t k i); simpl; unfold gval, gkey;
      rewrite ?Eg; try done.
    rewrite (proper_rawequal _ _ E). by apply okkey_proper.
Qed.

(** an entry that is not kept in the array part is spilled *)
Lemma content_spill t na k :
  wf t -> 0 <= na -> okkey k = true -> content t k <> VNil ->
  ~ (in_array t k /\ arrayindex k <= na) ->
  exists kv, kv ∈ spill t na /\ gafqO_rawequalObj kv.1 k = true.
Proof.
  intros [W Ha] Hna Hk. unfold TableInv.content, spill.
  destruct (gafqH_getP _ _ _ W Hk) as [D|i D E|D E]; simpl; [| |done].
  - intros Hv Hn. unfold in_array in *. set (j := arrayindex k) in *.
    destruct (lookup_lt_is_Some_2 (array t) (Z.to_nat (j - 1))) as [v Hl]; [lia|].
    rewrite nth_lookup, Hl in Hv. simpl in Hv.
    assert (drop (Z.to_nat na) (array t) !! Z.to_nat (j - 1 - na) = Some v) as Hd.
    { rewrite lookup_drop. by replace (Z.to_nat na + Z.to_nat (j - 1 - na))%nat
        with (Z.to_nat (j - 1)) by lia. }
    apply (array_entries_elem na) in Hd; [|done].
    eexists. split; [apply elem_of_app; left; exact Hd|]. simpl.
    replace (na + Z.of_nat (Z.to_nat (j - 1 - na)) + 1) with j by lia. apply arrayindex_inv. lia.
  - intros Hv _. assert (i < length (node t))%nat as Hi.
    { apply key_lt_length. rewrite (proper_rawequal _ _ E). by apply okkey_proper. }
    exists (gkey t i, gval t i). split; [|done]. apply elem_of_app. right.
    destruct (lookup_lt_is_Some_2 _ _ Hi) as [nd Hnd].
    assert (gnode t i = nd) as Eg by (unfold gnode; by rewrite nth_lookup, Hnd).
    assert (nd ∈ reverse (node t)) as [n Hn]%list_elem_of_lookup
      by (apply elem_of_reverse; by eapply list_elem_of_lookup_2).
    apply node_entries_elem. exists n, nd. unfold gkey, gval in *. rewrite Eg in *. done.
Qed.

(** the table before the first entry is written again *)
Record base (t : Table) (na nh : Z) (t' : Table) : Prop := {
  b_wf : whash t';
  b_size : sizearray t' = na;
  b_nil i : gkey t' i = VNil;
  b_array i : (i < Z.to_nat na)%nat -> nth i (array t') VNil = nth i (array t) VNil;
  b_ok : array_ok t';
  b_capacity : (Z.to_nat nh <= capacity t')%nat
}.

Lemma base_content t na nh t' k :
  wf t -> base t na nh t' -> okkey k = true ->
  content t' k = if decide (in_array t k /\ arrayindex k <= na) then content t k else VNil.
Proof.
  intros [W Ha] B Hk. rewrite fresh_content by (done || apply B).
  destruct (decide (in_array t' k)) as [D|D]; unfold in_array in D; rewrite (b_size _ _ _ _ B) in D.
  - rewrite (b_array _ _ _ _ B) by lia. case_decide as D'.
    + unfold TableInv.content. by rewrite gafqH_get_in_array by (done || apply D').
    + apply nth_overflow. unfold in_array in D'. lia.
  - rewrite decide_False; [done|]. unfold in_array. lia.
Qed.

Lemma overlay_spill t na nh t' k :
  wf t -> 0 <= na -> base t na nh t' -> okkey k = true ->
  overlay (spill t na) k (content t' k) = content t k.
Proof.
  intros W Hna B Hk. rewrite (base_content t na nh) by done.
  assert (Forall (fun kv => gafqO_rawequalObj kv.1 k = true -> kv.2 = content t k) (spill t na)) as HF.
  { apply Forall_forall. intros kv Hin E. by destruct (spill_content t na k kv W Hna Hk Hin E). }
  case_decide as D; [by apply overlay_same|].
  destruct (decide (content t k = VNil)) as [E|E].
  - rewrite E in *. by apply overlay_same.
  - apply overlay_hit; [|done]. by apply content_spill.
Qed.

Lemma whash_with_array t a n : whash t -> 0 <= n <= sizearray t -> whash (with_array t a n).
Proof.
  intros W Hn. pose proof (wh_asize _ _ W). pose proof (wh_arr _ _ W) as Harr.
  destruct W; constructor; try done; simpl; [lia|]. intros i Hp. specialize (Harr i Hp).
  change (gkey (with_array t a n) i) with (gkey t i). lia.
Qed.

(** [t] with the slots of its array vector beyond the array part dropped *)
Definition truncate (t : Table) : Table :=
  with_array t (take (Z.to_nat (sizearray t)) (array t)) (sizearray t).

Lemma truncate_wf t : whash t -> array_ok t -> wf (truncate t).
Proof.
  intros W Ha. pose proof (wh_asize _ _ W). unfold array_ok in Ha.
  split; [apply whash_with_array; done || lia|]. simpl. rewrite length_take. lia.
Qed.

Lemma truncate_content t k : whash t -> okkey k = true -> content (truncate t) k = content t k.
Proof.
  intros W Hk. pose proof (wh_asize _ _ W).
  assert (whash (truncate t)) as W' by (apply whash_with_array; done || lia).
  unfold TableInv.content. rewrite (gafqH_get_same_keys ts_hash t) by done.
  destruct (gafqH_getP _ _ _ W Hk) as [D| |]; [|done..]. unfold in_array in D. simpl.
  rewrite !nth_lookup, lookup_take_lt by lia. done.
Qed.

Lemma setarrayvector_grow t na :
  sizearray t = zlen (array t) -> sizearray t < na ->
  zlen (array (setarrayvector t na)) = na /\
  forall i, nth i (array (setarrayvector t na)) VNil = nth i (array t) VNil.
Proof.
  unfold zlen. intros Ha Hlt. simpl. split.
  - rewrite length_app, length_take, length_replicate. lia.
  - intros i. rewrite take_ge by lia. destruct (decide (i < length (array t))%nat).
    + by rewrite app_nth1.
    + rewrite app_nth2, (nth_overflow (array t)) by lia.
      rewrite nth_lookup. destruct (replicate _ _ !! _) eqn:E; [|done].
      by apply lookup_replicate_1 in E as [-> _].
Qed.

(** [resize] up to the first loop *)
Lemma resize_base t na nh :
  wf t -> 0 <= na <= MAXASIZE -> 0 <= nh <= MAXASIZE ->
  let t1 := if sizearray t <? na then setarrayvector t na else t in
  exists t2, setnodevector t1 nh = Ok t2 /\
    (if na <? sizearray t then array t2 = array t /\ base t na nh (with_array t2 (array t2) na)
     else base t na nh t2 /\ zlen (array t2) = na).
Proof.
  intros [W Ha] Hna Hnh t1. pose proof (wh_asize _ _ W) as Hs.
  assert (sizearray t1 = Z.max na (sizearray t)) as E1
    by (subst t1; destruct (Z.ltb_spec (sizearray t) na); simpl; lia).
  destruct (setnodevector_fresh t1 nh) as (t2 & E2 & F); [lia|done|].
  exists t2. split; [done|]. pose proof (fr_size _ _ _ F) as Es. pose proof (fr_array _ _ _ F) as Ea.
  destruct (Z.ltb_spec na (sizearray t)) as [L|L].
  - assert (t1 = t) as Et by (subst t1; destruct (Z.ltb_spec (sizearray t) na); [lia|done]).
    rewrite Et in *. split; [done|]. split; try done.
    + apply whash_with_array; [apply F|lia].
    + apply F.
    + intros i Hi. simpl. by rewrite Ea.
    + unfold array_ok. simpl. rewrite Ea. lia.
    + apply F.
  - assert (zlen (array t1) = na /\ forall i, nth i (array t1) VNil = nth i (array t) VNil) as [Hl Hnth].
    { subst t1. destruct (Z.ltb_spec (sizearray t) na).
      - apply setarrayvector_grow; [unfold zlen|]; lia.
      - split; [unfold zlen; lia|done]. }
    split; [|by rewrite Ea].
    split; [apply F|lia|apply F| |unfold array_ok, zlen in *; rewrite Ea; lia|apply F].
    intros i _. by rewrite Ea.
Qed.

(** What a resize to an array part of size [na] guarantees. *)
Record resized (t : Table) (na nh : Z) (t' : Table) : Prop := {
  rs_wf : wf t';
  rs_size : sizearray t' = na;
  rs_content k : okkey k = true -> content t' k = content t k;
  rs_capacity : (Z.to_nat nh <= capacity t' + hashed t' (spill t na))%nat
}.

Lemma live_okkey t nd : whash t -> nd ∈ node t -> live nd -> okkey (i_key nd) = true.
Proof.
  intros W [i Hi]%list_elem_of_lookup Hl.
  assert (gnode t i = nd) as Eg by (unfold gnode; by rewrite nth_lookup, Hi).
  pose proof (wh_live _ _ W i) as H1. pose proof (wh_nan _ _ W i) as H2.
  unfold gval, gkey in *. rewrite Eg in *. unfold okkey. by rewrite H1, H2.
Qed.

Lemma reinsert_spill fuel t na nh t3 :
  wf t -> 0 <= na -> base t na nh t3 ->
  (hashed t3 (spill t na) <= Z.to_nat nh)%nat ->
  exists t4 t5,
    reinsert_array (newkey fuel) t3 na (drop (Z.to_nat na) (array t)) = Ok t4 /\
    put t3 (array_entries na (drop (Z.to_nat na) (array t))) t4 /\
    reinsert_nodes ts_hash (newkey fuel) (truncate t4) (reverse (node t)) = Ok t5 /\
    resized t na nh t5.
Proof.
  intros W Hna B Hc. destruct W as [W Ha]. pose proof (wh_asize _ _ W) as Hs.
  pose proof (b_capacity _ _ _ _ B) as Hcap.
  unfold spill in Hc. rewrite hashed_app in Hc.
  destruct (reinsert_array_put fuel t3 na (drop (Z.to_nat na) (array t))) as (t4 & E4 & P4);
    [apply B|apply B|done| |lia|].
  { unfold zlen. rewrite length_drop.
    pose proof (wh_asize _ _ (b_wf _ _ _ _ B)) as Hb. rewrite (b_size _ _ _ _ B) in Hb. lia. }
  pose proof (truncate_wf t4 (put_wf _ _ _ P4) (put_array _ _ _ P4)) as [Wt At].
  pose proof (put_capacity _ _ _ P4) as Hc4.
  assert (hashed (truncate t4) (node_entries (reverse (node t))) =
          hashed t3 (node_entries (reverse (node t)))) as Eh
    by (apply hashed_size; exact (put_size _ _ _ P4)).
  destruct (reinsert_nodes_put fuel (truncate t4) (reverse (node t))) as (t5 & E5 & P5).
  - done.
  - unfold array_ok. rewrite At. done.
  - apply Forall_forall. intros nd Hnd Hl. rewrite elem_of_reverse in Hnd.
    exact (live_okkey t nd W Hnd Hl).
  - rewrite Eh. change (capacity (truncate t4)) with (capacity t4). lia.
  - exists t4, t5. split; [done|]. split; [done|]. split; [done|].
    pose proof (put_size _ _ _ P5) as Es5. pose proof (put_size _ _ _ P4) as Es4.
    pose proof (b_size _ _ _ _ B) as Eb. simpl in Es5.
    split; [split; [apply P5|]|congruence| |].
    + rewrite (put_length _ _ _ P5), At. simpl. congruence.
    + intros k Hk. rewrite (put_content _ _ _ P5) by done.
      rewrite truncate_content by (done || exact (put_wf _ _ _ P4)).
      rewrite (put_content _ _ _ P4), <- overlay_app by done.
      by apply (overlay_spill t na nh).
    + pose proof (put_capacity _ _ _ P5) as Hc5. rewrite Eh in Hc5.
      change (capacity (truncate t4)) with (capacity t4) in Hc5.
      rewrite (hashed_size t3 t5) by congruence. unfold spill. rewrite hashed_app. lia.
Qed.

Lemma truncate_id t : zlen (array t) = sizearray t -> truncate t = t.
Proof.
  unfold zlen. intros E. destruct t. unfold truncate, with_array. simpl in *. f_equal.
  apply take_ge. lia.
Qed.

(** [resize] succeeds and keeps every entry when the entries that do not fit the new array
    part fit the new hash part. *)
Lemma resize_resized fuel t na nh :
  wf t -> 0 <= na <= MAXASIZE -> 0 <= nh <= MAXASIZE ->
  (hashed (with_array t (array t) na) (spill t na) <= Z.to_nat nh)%nat ->
  exists t', resize_ ts_hash (newkey fuel) t na nh = Ok t' /\ resized t na nh t'.
Proof.
  intros W Hna Hnh Hc. destruct (resize_base t na nh W Hna Hnh) as (t2 & E2 & H2).
  unfold resize_. rewrite E2. simpl.
  destruct (Z.ltb_spec na (sizearray t)) as [L|L].
  - destruct H2 as [Ea B]. rewrite Ea in *.
    destruct (reinsert_spill fuel t na nh _ W ltac:(lia) B) as (t4 & t5 & E4 & P4 & E5 & R).
    { by rewrite (hashed_size (with_array t (array t) na)). }
    rewrite E4. simpl. exists t5. split; [|done]. rewrite <- E5. f_equal. unfold truncate.
    by rewrite (put_size _ _ _ P4).
  - destruct H2 as [B Hl]. pose proof (b_size _ _ _ _ B) as Eb. pose proof (wf_array _ _ W) as Hwa.
    destruct (reinsert_spill fuel t na nh _ W ltac:(lia) B) as (t4 & t5 & E4 & P4 & E5 & R).
    { by rewrite (hashed_size (with_array t (array t) na)). }
    rewrite drop_ge in E4 by lia. injection E4 as <-.
    rewrite truncate_id in E5 by congruence. by exists t5.
Qed.

(** ** [rehash] *)

(** the number of entries of a table *)
Definition entry_count (t : Table) : Z :=
  zlen (array_keys 0 (array t)) + zlen (filter live (node t)).

(** [key] goes to an array part of size [n] *)
Definition fits (n : Z) (key : TValue) : Prop := 1 <= arrayindex key <= n.

#[local] Instance fits_dec n key : Decision (fits n key).
Proof. unfold fits. apply _. Defined.

Definition unfit (n : Z) (key : TValue) : Z := if decide (fits n key) then 0 else 1.

Lemma intkeys_fit n k :
  n <= MAXASIZE -> zlen (filter (fun i => i <= n) (intkeys_of k)) = 1 - unfit n k.
Proof.
  intros Hn. unfold intkeys_of, unfit, zlen. destruct (decide (intkey _)) as [D|D];
    destruct (decide (fits n k)) as [F|F]; unfold fits, intkey in *; try lia; try done.
  - by rewrite filter_cons_True by lia.
  - by rewrite filter_cons_False by lia.
Qed.

Lemma hashed_fits t l :
  hashed t l = length (filter (fun kv => ~ fits (sizearray t) kv.1) l).
Proof. reflexivity. Qed.

Lemma nodes_fit t l :
  sizearray t <= MAXASIZE ->
  Z.of_nat (hashed t (node_entries l)) =
  zlen (filter live l) - zlen (filter (fun i => i <= sizearray t) (node_keys l)).
Proof.
  intros Hn. rewrite hashed_fits. induction l as [|nd l IH]; [done|].
  rewrite node_keys_cons. unfold node_entries in *. destruct (decide (live nd)).
  - rewrite filter_cons_True, filter_app, fmap_cons by done. unfold zlen in *.
    rewrite length_app. pose proof (intkeys_fit (sizearray t) (i_key nd) Hn) as H.
    unfold unfit, zlen in H. destruct (decide (fits (sizearray t) (i_key nd))) as [F|F].
    + rewrite filter_cons_False by (simpl; tauto). simpl. lia.
    + rewrite filter_cons_True by done. simpl. lia.
  - by rewrite filter_cons_False.
Qed.

Lemma array_entries_length i l : length (array_entries i l) = length (array_keys i l).
Proof. revert i. induction l as [|v l IH]; intros i; simpl; [done|]. destruct (ttisnil v); simpl; auto. Qed.

Lemma array_fit n l :
  0 <= n ->
  zlen (filter (fun i => i <= n) (array_keys 0 l)) + zlen (array_entries n (drop (Z.to_nat n) l)) =
  zlen (array_keys 0 l).
Proof.
  intros Hn. unfold zlen at 2. rewrite array_entries_length.
  rewrite <- (take_drop (Z.to_nat n) l) at 1 3. rewrite !array_keys_app, filter_app.
  unfold zlen. rewrite !length_app.
  rewrite filter_all.
  2:{ apply Forall_forall. intros k Hk%array_keys_range. unfold zlen in Hk.
      rewrite length_take in Hk. lia. }
  rewrite filter_none.
  2:{ apply Forall_forall. intros k Hk%array_keys_range. unfold zlen in Hk.
      rewrite length_take, length_drop in Hk. lia. }
  simpl. destruct (decide (Z.to_nat n <= length l)%nat).
  - rewrite length_take, Nat.min_l by done. rewrite Z.add_0_l, Z2Nat.id by done. lia.
  - rewrite drop_ge by lia. simpl. lia.
Qed.

Lemma node_entries_reverse t l : hashed t (node_entries (reverse l)) = hashed t (node_entries l).
Proof.
  unfold hashed, node_entries. apply Permutation_length. by rewrite reverse_Permutation.
Qed.

(** the entries that do not fit an array part of size [n] *)
Lemma spill_count t n :
  wf t -> 0 <= n <= MAXASIZE ->
  Z.of_nat (hashed (with_array t (array t) n) (spill t n)) <=
  entry_count t - zlen (filter (fun i => i <= n) (node_keys (node t) ++ array_keys 0 (array t))).
Proof.
  intros [W Ha] Hn. unfold spill, entry_count. rewrite hashed_app, node_entries_reverse.
  rewrite Nat2Z.inj_add, nodes_fit by (simpl; lia). simpl.
  pose proof (array_fit n (array t) ltac:(lia)) as Hfit.
  rewrite filter_app. unfold zlen in *. rewrite length_app.
  assert (hashed (with_array t (array t) n) (array_entries n (drop (Z.to_nat n) (array t))) <=
          length (array_entries n (drop (Z.to_nat n) (array t))))%nat by apply length_filter.
  lia.
Qed.

Lemma setnodevector_overflow t size :
  MAXASIZE < size <= INT_MAX -> setnodevector t size = Err (RunError "table overflow").
Proof.
  rewrite MAXASIZE_val. intros Hs. unfold setnodevector.
  destruct (Z.eqb_spec size 0); [lia|]. rewrite ceillog2_spec by lia.
  destruct (Z.ltb_spec MAXBITS (Z.log2_up size)) as [|L]; [done|].
  apply Z.log2_up_le_pow2 in L; [|lia]. unfold MAXBITS in L. change (2 ^ 26) with 67108864 in L. lia.
Qed.

Lemma entry_count_bound t : wf t -> 0 <= entry_count t <= 2 * MAXASIZE.
Proof.
  intros [W Ha]. pose proof (wh_asize _ _ W). pose proof (wh_nodes _ _ W) as Hn.
  unfold sizenode in Hn. rewrite twoto_pow in Hn by apply (wh_lsize _ _ W).
  assert (2 ^ lsizenode t <= MAXASIZE).
  { change MAXASIZE with (2 ^ 26). apply Z.pow_le_mono_r; [lia|apply (wh_lsize _ _ W)]. }
  unfold entry_count, zlen. rewrite array_keys_length.
  pose proof (length_filter (fun v => ttisnil v = false) (array t)).
  pose proof (length_filter live (node t)). lia.
Qed.

(** the sizes [rehash] passes to [resize] *)
Lemma rehash_sizes fuel t ek :
  wf t -> exists n nh, 0 <= n <= MAXASIZE /\
    rehash_ ts_hash (newkey fuel) t ek = resize_ ts_hash (newkey fuel) t n nh /\
    Z.of_nat (hashed (with_array t (array t) n) (spill t n)) + unfit n ek <= nh /\
    nh <= entry_count t + 1.
Proof.
  intros W. pose proof W as [Wh Ha]. pose proof (wh_asize _ _ Wh) as Hs. unfold rehash_.
  pose proof (numusearray_spec t _ [] Ha ltac:(lia) counts_zero) as H1.
  destruct (numusearray t _) as [ause nums1]. destruct H1 as [-> C1].
  unfold numusehash. pose proof (numusehash_loop_spec (node t) _ _ C1) as H2.
  destruct (numusehash_loop (node t) nums1) as [[use hause] nums2]. destruct H2 as (-> & -> & C2).
  pose proof (countint_counts ek _ _ C2) as H3.
  destruct (countint ek nums2) as [c nums3]. destruct H3 as [-> C3].
  rewrite app_nil_r in C3.
  set (ks := intkeys_of ek ++ node_keys (node t) ++ array_keys 0 (array t)) in *.
  replace (zlen (array_keys 0 (array t)) + zlen (node_keys (node t)) + zlen (intkeys_of ek))
    with (zlen ks) by (subst ks; unfold zlen; rewrite !length_app; lia).
  pose proof (computesizes_chosen nums3 ks C3) as H4.
  destruct (computesizes nums3 (zlen ks)) as [na n]. destruct H4 as [Hc _].
  assert (0 <= n <= MAXASIZE /\ na = zlen (filter (fun k => k <= n) ks)) as [Hn Hna].
  { destruct Hc as [[-> ->]|(j & Hj & -> & -> & _)].
    - split; [rewrite MAXASIZE_val; lia|]. rewrite filter_none; [done|].
      eapply Forall_impl; [apply (cn_keys _ _ C3)|]. intros k [Hk _]. lia.
    - split; [|done]. change MAXASIZE with (2 ^ 26).
      split; [apply Z.pow_nonneg; lia|apply Z.pow_le_mono_r; lia]. }
  exists n, (zlen (array_keys 0 (array t)) + zlen (filter live (node t)) + 1 - na).
  split; [done|]. split; [done|].
  pose proof (spill_count t n W Hn) as Hsp. unfold entry_count in *.
  assert (na = (1 - unfit n ek) +
    zlen (filter (fun i => i <= n) (node_keys (node t) ++ array_keys 0 (array t)))) as ->.
  { rewrite <- (intkeys_fit n ek) by lia. rewrite Hna. subst ks. rewrite (filter_app _ (intkeys_of ek)).
    unfold zlen. rewrite length_app. lia. }
  split; [lia|]. unfold unfit, zlen. case_decide; lia.
Qed.

(** [rehash] keeps every entry and makes room for the extra key; the only error is a table
    that would need more than [2^26] nodes. *)
Lemma rehash_room fuel t ek :
  wf t ->
  (exists t', rehash_ ts_hash (newkey fuel) t ek = Ok t' /\ wf t' /\
     (forall k, okkey k = true -> content t' k = content t k) /\
     (~ in_array t' ek -> room t')) \/
  (rehash_ ts_hash (newkey fuel) t ek = Err (RunError "table overflow") /\ MAXASIZE <= entry_count t).
Proof.
  intros W. destruct (rehash_sizes fuel t ek W) as (n & nh & Hn & -> & Hc & Hnh).
  assert (0 <= unfit n ek) by (unfold unfit; case_decide; lia).
  pose proof (entry_count_bound t W). rewrite MAXASIZE_val in *.
  destruct (Z_le_gt_dec nh MAXASIZE) as [L|L]; rewrite MAXASIZE_val in L.
  - left. destruct (resize_resized fuel t n nh) as (t' & E & R);
      [done|rewrite MAXASIZE_val; lia|rewrite MAXASIZE_val; lia|lia|].
    exists t'. split; [done|]. split; [apply R|]. split; [apply R|].
    intros Hna. apply capacity_room. pose proof (rs_capacity _ _ _ _ R) as Hcap.
    rewrite (hashed_size (with_array t (array t) n) t') in Hcap by exact (rs_size _ _ _ _ R).
    unfold unfit in Hc. rewrite decide_False in Hc; [lia|].
    unfold fits, in_array in *. by rewrite <- (rs_size _ _ _ _ R).
  - right. split; [|lia]. unfold resize_. rewrite setnodevector_overflow; [done|].
    rewrite MAXASIZE_val. unfold INT_MAX. lia.
Qed.

(** ** [newkey] and [gafqH_set] *)

Lemma whash_lastfree t x :
  whash t -> x <= lastfree t -> (forall i, isdummy t = false -> (i < length (node t))%nat ->
    x <= Z.of_nat i -> gkey t i <> VNil) -> whash (with_lastfree t x).
Proof.
  intros W Hx Hf. pose proof (wh_lf _ _ W). pose proof (wh_dummy _ _ W) as Hd.
  destruct W; constructor; try done; simpl; [|lia].
  intros D. destruct (Hd D). split; [done|lia].
Qed.

Lemma getfreepos_none t :
  whash t -> capacity t = 0%nat ->
  exists x, getfreepos t = (with_lastfree t x, None) /\ whash (with_lastfree t x).
Proof.
  intros W Hc. unfold getfreepos. exists (Z.min (lastfree t) 0 - 1).
  destruct (isdummy t) eqn:Hd.
  - destruct (wh_dummy _ _ W Hd) as [E L]. replace (Z.to_nat (lastfree t)) with 0%nat by lia.
    simpl. split; [done|]. apply whash_lastfree; [done|lia|]. congruence.
  - unfold capacity in Hc. rewrite Hd in Hc.
    assert (forall i, (i < length (node t))%nat -> gkey t i <> VNil) as Hk.
    { intros i Hi E. unfold nilcount in Hc. apply nil_length_inv in Hc.
      assert (i ∈ filter (fun i => gkey t i = VNil) (seq 0 (length (node t)))) as H.
      { apply list_elem_of_filter. split; [done|]. apply elem_of_seq. lia. }
      rewrite Hc in H. by apply not_elem_of_nil in H. }
    destruct (getfreepos_loop _ _) as [n|] eqn:E.
    + apply getfreepos_loop_inv in E as (H1 & H2 & _). pose proof (wh_lf _ _ W).
      by destruct (Hk n ltac:(lia)).
    + split; [done|]. apply whash_lastfree; [done|lia|]. intros i _ Hi _. by apply Hk.
Qed.

(** What a successful set of [key] guarantees. *)
Record set_spec (t : Table) (key : TValue) (t' : Table) (s : Slot) : Prop := {
  ss_wf : wf t';
  ss_get : gafqH_get t' key = Some s;
  ss_content k : okkey k = true -> content t' k = content t k
}.

Lemma inserted_set_spec t key t' s : wf t -> inserted t key t' s -> set_spec t key t' s.
Proof.
  intros [W Ha] I. split; [split|..]; try apply I.
  by rewrite (ins_array _ _ _ _ _ I), (ins_size _ _ _ _ _ I).
Qed.

Lemma newkey_total fuel t key :
  wf t -> okkey key = true -> gafqH_get t key = None ->
  (exists t' s, newkey (S fuel) t key = Ok (t', s) /\ set_spec t key t' s) \/
  (newkey (S fuel) t key = Err (RunError "table overflow") /\ MAXASIZE <= entry_count t).
Proof.
  intros W Hk Hget. destruct (decide (capacity t = 0%nat)) as [Hc|Hc].
  2:{ left. destruct (newkey_room ts_hash (S fuel) t key) as (t' & s & E & I); try done;
        [apply W|apply capacity_room; lia|].
      exists t', s. split; [done|]. by apply inserted_set_spec. }
  destruct (ttisnil (gval t (mainposition t key))) eqn:Ev, (isdummy t) eqn:Hd.
  2:{ left. exists (upd_node t (mainposition t key) (set_key key)), (SNode (mainposition t key)).
      simpl. rewrite Ev, Hd. split; [done|]. apply inserted_set_spec; [done|].
      pose proof (gafqH_getP _ _ _ (wf_hash _ _ W) Hk) as V. rewrite Hget in V. inversion V; subst.
      apply insert_main; try done; [apply W|by apply ttisnil_spec]. }
  all: destruct (getfreepos_none t (wf_hash _ _ W) Hc) as (x & Eg & Wx);
    assert (wf (with_lastfree t x)) as W' by (split; [done|apply W]);
    cbn [Table.newkey]; rewrite Ev, ?Hd, Eg; cbn [negb orb];
    destruct (rehash_room fuel (with_lastfree t x) key W') as [(t' & E & Wt & Ct & Hr)|[E L]];
    rewrite E; [|by right]; left;
    destruct (gafqH_set_room ts_hash fuel t' key (wf_hash _ _ Wt) Hk Hr) as (t2 & s & E2 & I);
    exists t2, s; (split; [exact E2|]);
    pose proof (inserted_set_spec _ _ _ _ Wt I) as S2; split; try apply S2;
    intros k Hok; rewrite (ss_content _ _ _ _ S2), Ct by done; done.
Qed.

End Rehash.
