(* ===== verification/TableSpec.v ===== *)
(** * Tables as finite maps

    The contract of gtable.c: a well-formed table is a finite map from the keys
    the API accepts (up to raw equality) to values.  [gafqH_new] creates the
    empty map, [gafqH_get] looks up, [gafqH_set] followed by a write through
    the returned slot updates exactly one key, and a resize changes nothing. *)

From Stdlib Require Import SpecFloat.
From S2P Require Import Prelude Number Object Table TableInv TableInsert TableSet TableSizes.

(** [setobj2t(L, gafqH_set(L, t, key), v)], the way every caller stores into a table *)
Definition table_store (ts_hash : pointer -> Z) (t : Table) (key v : TValue) : res Table :=
  '(t', s) ← gafqH_set ts_hash t key;
  Ok (set_slot t' s v).

Section Spec.

Variable ts_hash : pointer -> Z.
#[local] Abbreviation gafqH_get := (gafqH_get ts_hash).
#[local] Abbreviation gafqH_set := (gafqH_set ts_hash).
#[local] Abbreviation gafqH_setnum := (gafqH_setnum ts_hash).
#[local] Abbreviation gafqH_setstr := (gafqH_setstr ts_hash).
#[local] Abbreviation wf := (wf ts_hash).
#[local] Abbreviation content := (content ts_hash).
#[local] Abbreviation set_spec := (set_spec ts_hash).

Lemma wf_flags t x : wf t -> wf (with_flags t x).
Proof. intros [W Ha]. split; [by apply whash_flags|done]. Qed.

Lemma present_set_spec t key s : wf t -> gafqH_get t key = Some s -> set_spec t key t s.
Proof. by split. Qed.

Lemma set_spec_flags t x key t' s : set_spec (with_flags t x) key t' s -> set_spec t key t' s.
Proof. intros [H1 H2 H3]. split; done. Qed.

Lemma gafqH_set_total t key :
  wf t -> okkey key = true ->
  (exists t' s, gafqH_set t key = Ok (t', s) /\ set_spec t key t' s) \/
  (gafqH_set t key = Err (RunError "table overflow") /\ MAXASIZE <= entry_count t).
Proof.
  intros W Hk. unfold Table.gafqH_set, gafqH_set_. pose proof (okkey_proper _ Hk) as Hp.
  pose proof (okkey_nan _ Hk) as Hn.
  destruct (gafqH_get t key) as [s|] eqn:E.
  - left. exists (with_flags t 0), s. split; [done|].
    apply (set_spec_flags t 0), present_set_spec; [by apply wf_flags|done].
  - assert (ttisnil key = false) as -> by (by destruct key). rewrite Hn.
    destruct (newkey_total ts_hash 0 (with_flags t 0) key) as [(t' & s & E' & Hs)|[E' L]];
      [by apply wf_flags|done|done| |by right].
    left. exists t', s. split; [done|]. by apply set_spec_flags in Hs.
Qed.

(** writing through the slot that a set returned *)
Lemma set_spec_store t key t' s v :
  okkey key = true -> set_spec t key t' s ->
  wf (set_slot t' s v) /\
  forall k, okkey k = true ->
    content (set_slot t' s v) k = if gafqO_rawequalObj key k then v else content t k.
Proof.
  intros Hk [[W Ha] Hg Hc].
  assert (array_ok t') as Hok by (unfold array_ok; lia).
  pose proof (set_slot_written ts_hash t' key s v W Hk Hok Hg) as Wr.
  split; [split; [apply Wr|]|].
  - by rewrite (wr_length _ _ _ _ _ Wr), (wr_size _ _ _ _ _ Wr).
  - intros k Hk'. rewrite (wr_content _ _ _ _ _ Wr), Hc by done. done.
Qed.

(** C1: storing [v] at a key the API accepts (neither nil nor NaN) into a well-formed table
    always terminates without running out of rehashes.  It either gives a well-formed table
    in which that key (and every raw-equal key) has the value [v] and every other key keeps
    its value, or raises "table overflow", which needs at least [2^26] entries. *)
Theorem table_store_refines t key v :
  wf t -> okkey key = true ->
  (exists t', table_store ts_hash t key v = Ok t' /\ wf t' /\
     forall k, okkey k = true ->
       content t' k = if gafqO_rawequalObj key k then v else content t k) \/
  (table_store ts_hash t key v = Err (RunError "table overflow") /\ 2 ^ 26 <= entry_count t).
Proof.
  intros W Hk. unfold table_store.
  destruct (gafqH_set_total t key W Hk) as [(t' & s & -> & Hs)|[-> L]]; [left|by right].
  eexists. split; [done|]. by apply set_spec_store.
Qed.

(** the specialised setters agree with [gafqH_set]: on a well-formed table
    [gafqH_setnum] with an int key and [gafqH_setstr] return the slot of that key in a
    well-formed table with the same contents, or raise "table overflow". *)
Theorem specialised_setters t i p :
  wf t -> int_range i ->
  ((exists t' s, gafqH_setnum t i = Ok (t', s) /\ set_spec t (VNumber (cast_num i)) t' s) \/
   (gafqH_setnum t i = Err (RunError "table overflow") /\ 2 ^ 26 <= entry_count t)) /\
  ((exists t' s, gafqH_setstr t p = Ok (t', s) /\ set_spec t (VString p) t' s) \/
   (gafqH_setstr t p = Err (RunError "table overflow") /\ 2 ^ 26 <= entry_count t)).
Proof.
  intros W Hi. split.
  - unfold Table.gafqH_setnum, gafqH_setnum_. rewrite <- (gafqH_get_cast ts_hash) by done.
    destruct (gafqH_get t (VNumber (cast_num i))) as [s|] eqn:E.
    + left. exists t, s. split; [done|]. by apply present_set_spec.
    + by apply newkey_total; [|apply okkey_cast|].
  - unfold Table.gafqH_setstr, gafqH_setstr_. change (gafqH_getstr ts_hash t p) with (gafqH_get t (VString p)).
    destruct (gafqH_get t (VString p)) as [s|] eqn:E.
    + left. exists t, s. split; [done|]. by apply present_set_spec.
    + by apply newkey_total.
Qed.

Lemma chain_find_never fuel ns p n : (forall nd, p nd = false) -> chain_find fuel ns p n = None.
Proof.
  intros H. revert n. induction fuel as [|fuel IH]; intros n; simpl; [done|].
  rewrite H. destruct (next _); [apply IH|done].
Qed.

Lemma get_nan t key : is_nan key = true -> gafqH_get t key = None.
Proof.
  intros Hn. assert (forall k, gafqO_rawequalObj k key = false) as Hne.
  { intros k. apply not_true_is_false. intros [_ H]%rawequal_nan. congruence. }
  destruct key; try done. simpl in *.
  assert (gafqi_numeq (cast_num (gafq_number2int n)) n = false) as ->.
  { apply not_true_is_false. intros H. specialize (Hne (VNumber (cast_num (gafq_number2int n)))).
    unfold gafqO_rawequalObj in Hne. simpl in Hne. congruence. }
  unfold get_default, find_node. rewrite chain_find_never; [done|]. intros nd. apply Hne.
Qed.

(** the two keys the API rejects: indexing a table with nil or NaN for writing raises the
    corresponding error whatever the table, and reading them finds nothing. *)
Theorem bad_keys t v key :
  (table_store ts_hash t VNil v = Err (RunError "table index is nil") /\ content t VNil = VNil) /\
  (is_nan key = true ->
   table_store ts_hash t key v = Err (RunError "table index is NaN") /\ content t key = VNil).
Proof.
  split; [done|]. intros Hn. unfold table_store, Table.gafqH_set, gafqH_set_, TableInv.content.
  rewrite get_nan, Hn by done. by destruct key.
Qed.

(** ** Creation and resizing *)

(** [gafqH_new] creates a well-formed table with an array part of the requested size in
    which every key is absent. *)
Theorem gafqH_new_empty narray nhash :
  0 <= narray <= MAXASIZE -> 0 <= nhash <= MAXASIZE ->
  exists t, gafqH_new narray nhash = Ok t /\ wf t /\ sizearray t = narray /\
    forall k, content t k = VNil.
Proof.
  intros Ha Hn. unfold gafqH_new. set (t0 := mkTable _ _ _ _ _ _ _ _).
  destruct (setnodevector_fresh ts_hash (setarrayvector t0 narray) nhash) as (t & E & F); [done|done|].
  exists t. split; [done|]. pose proof (fr_array _ _ _ _ F) as Ea. pose proof (fr_size _ _ _ _ F) as Es.
  simpl in Ea, Es. rewrite take_nil, Nat.sub_0_r in Ea. split; [split; [apply F|]|split; [done|]].
  - rewrite Ea, Es. simpl. rewrite length_replicate. lia.
  - intros k. unfold TableInv.content. destruct (gafqH_get t k) as [[i|i]|] eqn:Eg; simpl; [| |done].
    + rewrite Ea, nth_lookup. destruct (([] ++ _) !! i) eqn:L; [|done].
      by apply lookup_replicate_1 in L as [-> _].
    + destruct (decide (gval t i = VNil)) as [|Hv]; [done|].
      apply (wh_live _ _ (fr_wf _ _ _ _ F)) in Hv. by rewrite (fr_nil _ _ _ _ F) in Hv.
Qed.

(** growing the array part with [gafqH_resizearray] (as OP_SETLIST does) succeeds, keeps
    the table well-formed and keeps the value of every key, the keys that move from the hash
    part to the array part included. *)
Theorem resizearray_content t nasize :
  wf t -> sizearray t <= nasize <= MAXASIZE ->
  exists t', gafqH_resizearray ts_hash t nasize = Ok t' /\ wf t' /\ sizearray t' = nasize /\
    forall k, okkey k = true -> content t' k = content t k.
Proof.
  intros W Ha. pose proof W as [Wh Hl]. pose proof (wh_asize _ _ Wh).
  unfold gafqH_resizearray, resize.
  set (nsize := if isdummy t then 0 else sizenode t).
  assert (0 <= nsize <= MAXASIZE /\ zlen (filter live (node t)) <= nsize) as [Hs Hlive].
  { subst nsize. destruct (isdummy t) eqn:Hd.
    - destruct (wh_dummy _ _ Wh Hd) as [-> _]. rewrite MAXASIZE_val. split; [lia|].
      rewrite filter_none; [done|]. apply Forall_singleton. unfold live. tauto.
    - destruct (wh_lsize _ _ Wh). rewrite <- (wh_nodes _ _ Wh). unfold zlen.
      pose proof (length_filter live (node t)). split; [|lia].
      rewrite (wh_nodes _ _ Wh). unfold sizenode. rewrite twoto_pow by done.
      split; [apply Z.pow_nonneg; lia|]. change MAXASIZE with (2 ^ 26).
      apply Z.pow_le_mono_r; [lia|done]. }
  destruct (resize_resized ts_hash rehash_fuel t nasize nsize) as (t' & E & R); try done; [lia| |].
  - pose proof (spill_count ts_hash t nasize W ltac:(lia)) as Hc. unfold entry_count in Hc.
    rewrite filter_app in Hc. rewrite (filter_all _ (array_keys 0 (array t))) in Hc.
    + unfold zlen in *. rewrite length_app in Hc. lia.
    + apply Forall_forall. intros k Hk%array_keys_range. unfold zlen in Hk. lia.
  - exists t'. split; [done|]. split; [apply R|]. split; [apply R|apply R].
Qed.

End Spec.

(** ** A concrete table *)

(** string hashes for examples: the address itself *)
Definition ex_hash (p : pointer) : Z := p.

(** the result of [gafqH_new(L, 0, 0)] *)
Definition table0 : Table := mkTable 255 0 None [] 0 [dummynode_] true 0.

Lemma table0_new : gafqH_new 0 0 = Ok table0.
Proof. reflexivity. Qed.

Lemma table0_wf ts_hash : wf ts_hash table0.
Proof.
  split; [|done]. apply whash_empty; try done; rewrite ?MAXASIZE_val; simpl; try done.
  by intros [|[|i]].
Qed.

Lemma table_store_refines_witness :
  exists t', table_store ex_hash table0 (VString 7) (VBoolean 1) = Ok t' /\ wf ex_hash t' /\
    content ex_hash t' (VString 7) = VBoolean 1 /\ content ex_hash t' (VString 8) = VNil.
Proof.
  destruct (table_store_refines ex_hash table0 (VString 7) (VBoolean 1) (table0_wf _) eq_refl)
    as [(t' & E & W & C)|[E _]]; [|exfalso; vm_compute in E; discriminate E].
  exists t'. split; [exact E|]. split; [exact W|].
  split; [exact (C (VString 7) eq_refl)|exact (C (VString 8) eq_refl)].
Defined.

Lemma specialised_setters_witness :
  exists t' s, gafqH_setnum ex_hash table0 1 = Ok (t', s) /\
    set_spec ex_hash table0 (VNumber (cast_num 1)) t' s.
Proof.
  destruct (specialised_setters ex_hash table0 1 7 (table0_wf _) ltac:(split; intros [=]))
    as [[H|[E _]] _]; [exact H|exfalso; vm_compute in E; discriminate E].
Defined.

Lemma bad_keys_witness :
  table_store ex_hash table0 (VNumber S754_nan) VNil = Err (RunError "table index is NaN").
Proof. exact (proj1 (proj2 (bad_keys ex_hash table0 VNil (VNumber S754_nan)) eq_refl)). Defined.

Lemma gafqH_new_empty_witness :
  exists t, gafqH_new 3 5 = Ok t /\ wf ex_hash t /\ sizearray t = 3 /\
    forall k, content ex_hash t k = VNil.
Proof. apply (gafqH_new_empty ex_hash 3 5); rewrite MAXASIZE_val; lia. Defined.

Lemma resizearray_content_witness :
  exists t', gafqH_resizearray ex_hash table0 4 = Ok t' /\ wf ex_hash t' /\ sizearray t' = 4 /\
    forall k, okkey k = true -> content ex_hash t' k = content ex_hash table0 k.
Proof.
  apply (resizearray_content ex_hash table0 4 (table0_wf _)). rewrite MAXASIZE_val. simpl. lia.
Defined.
