(* ===== verification/TableNext.v ===== *)
(** * Traversal and length

    [gafqH_next] visits every entry of a table exactly once, array part first;
    [gafqH_getn] returns a boundary of the table.  Both hold without fuel
    running out: a traversal takes one step per entry, and the searches for a
    boundary halve or double an interval of machine integers. *)

From S2P Require Import Prelude Number Object Table TableInv TableInsert TableSet TableSizes TableSpec.

(** a loop over [next]: [for k,v in next,t] *)
Fixpoint traverse (ts_hash : pointer -> Z) (fuel : nat) (t : Table) (key : TValue)
  : res (list (TValue * TValue)) :=
  match fuel with
  | O => Err Fuel
  | S fuel' =>
      r ← gafqH_next ts_hash t key;
      match r with
      | None => Ok []
      | Some kv => l ← traverse ts_hash fuel' t kv.1; Ok (kv :: l)
      end
  end.

(** the entries of a table, in the order of the traversal *)
Definition entries (t : Table) : list (TValue * TValue) :=
  array_entries 0 (array t) ++ node_entries (node t).

(** the dead keys of [t] are not the addresses of live ones *)
Definition no_stale_key (t : Table) : Prop :=
  forall i j p, gkey t i = VDeadKey p -> proper (gkey t j) = true ->
    iscollectable (gkey t j) = true -> gcvalue (gkey t j) <> p.

Section Next.

Variable ts_hash : pointer -> Z.
#[local] Abbreviation wf := (wf ts_hash).
#[local] Abbreviation content := (content ts_hash).

(** the entries from traversal index [p] on *)
Definition entries_from (t : Table) (p : Z) : list (TValue * TValue) :=
  array_entries p (drop (Z.to_nat p) (array t)) ++
  node_entries (drop (Z.to_nat (Z.max p (sizearray t) - sizearray t)) (node t)).

Lemma next_array_head l i : next_array l i = head (array_entries i l).
Proof.
  revert i. induction l as [|v l IH]; intros i; simpl; [done|]. by destruct (ttisnil v); simpl.
Qed.

Lemma node_entries_cons nd l :
  node_entries (nd :: l) =
  if decide (live nd) then (i_key nd, i_val nd) :: node_entries l else node_entries l.
Proof.
  unfold node_entries. destruct (decide (live nd)).
  - by rewrite filter_cons_True.
  - by rewrite filter_cons_False.
Qed.

Lemma next_node_head l : next_node l = head (node_entries l).
Proof.
  induction l as [|nd l IH]; [done|]. rewrite node_entries_cons. simpl.
  destruct (ttisnil (i_val nd)) eqn:E; simpl.
  - apply ttisnil_spec in E. rewrite decide_False; [done|]. unfold live. tauto.
  - apply ttisnil_false in E. by rewrite decide_True.
Qed.

Lemma gafqH_next_from t key i :
  findindex ts_hash t key = Ok i -> gafqH_next ts_hash t key = Ok (head (entries_from t (i + 1))).
Proof.
  intros E. unfold gafqH_next. rewrite E. simpl. rewrite next_array_head, next_node_head.
  unfold entries_from. by destruct (array_entries _ _).
Qed.

(** peeling off the first entry *)
Lemma array_entries_head i l kv r :
  array_entries i l = kv :: r -> exists n, (n < length l)%nat /\
    kv.1 = VNumber (cast_num (i + Z.of_nat n + 1)) /\
    r = array_entries (i + Z.of_nat n + 1) (drop (S n) l).
Proof.
  revert i. induction l as [|v l IH]; intros i; simpl; [done|]. destruct (ttisnil v).
  - intros (n & Hn & -> & ->)%IH. exists (S n). split; [lia|].
    replace (i + Z.of_nat (S n)) with (i + 1 + Z.of_nat n) by lia. done.
  - intros [= <- <-]. exists 0%nat. split; [lia|]. simpl. rewrite Z.add_0_r. by rewrite drop_0.
Qed.

Lemma node_entries_head l kv r :
  node_entries l = kv :: r -> exists n nd, l !! n = Some nd /\ live nd /\ kv = (i_key nd, i_val nd) /\
    r = node_entries (drop (S n) l).
Proof.
  induction l as [|nd l IH]; [done|]. rewrite node_entries_cons. case_decide as D.
  - intros [= <- <-]. exists 0%nat, nd. by rewrite skipn_cons, drop_0.
  - intros (n & nd' & Hn & H)%IH. by exists (S n), nd'.
Qed.

Lemma findindex_array t i :
  wf t -> 0 <= i < sizearray t -> findindex ts_hash t (VNumber (cast_num (i + 1))) = Ok i.
Proof.
  intros [W _] Hi. pose proof (wh_asize _ _ W) as Hs. rewrite MAXASIZE_val in Hs.
  unfold findindex. cbn [ttisnil ttype].
  rewrite arrayindex_cast by (unfold int_range, INT_MIN, INT_MAX; lia).
  change (ttisnil (VNumber (cast_num (i + 1)))) with false.
  rewrite (proj2 (Z.ltb_lt _ _)), (proj2 (Z.leb_le _ _)) by lia. simpl. f_equal. lia.
Qed.

Lemma findindex_node t i :
  wf t -> no_stale_key t -> gval t i <> VNil ->
  findindex ts_hash t (gkey t i) = Ok (Z.of_nat i + sizearray t).
Proof.
  intros [W _] Hst Hv. pose proof (wh_live _ _ W i Hv) as Hp. unfold findindex.
  assert (ttisnil (gkey t i) = false) as -> by (by destruct (gkey t i)).
  pose proof (wh_arr _ _ W i Hp) as Ha.
  destruct ((0 <? arrayindex (gkey t i)) && (arrayindex (gkey t i) <=? sizearray t)) eqn:E.
  { apply andb_prop in E as [?%Z.ltb_lt ?%Z.leb_le]. lia. }
  destruct (wh_rank _ _ W) as [rank Hrank]. unfold find_node.
  rewrite (chain_find_unique (node t) rank Hrank (wh_next _ _ W) _ _ i); [done|..].
  - by apply mainposition_bound.
  - by apply (wh_main _ _ W).
  - unfold key_is_or_dead. change (i_key (nth i (node t) dummynode_)) with (gkey t i).
    rewrite rawequal_refl; [done|]. apply (wh_nan _ _ W).
  - intros m _. unfold key_is_or_dead. change (i_key (nth m (node t) dummynode_)) with (gkey t m).
    intros [H|H]%orb_prop.
    + symmetry. apply (wh_uniq _ _ W); [done|]. by rewrite rawequal_sym.
    + destruct (gkey t m) eqn:Em; try done. apply andb_prop in H as [H1 H2%Z.eqb_eq].
      by destruct (Hst m i _ Em Hp H1).
Qed.

Lemma entries_from_step t p kv r :
  wf t -> no_stale_key t -> 0 <= p -> entries_from t p = kv :: r ->
  exists q, findindex ts_hash t kv.1 = Ok q /\ 0 <= q /\ r = entries_from t (q + 1).
Proof.
  intros W Hst Hp. pose proof (wf_array _ _ W) as Hl. unfold entries_from.
  destruct (array_entries p (drop (Z.to_nat p) (array t))) as [|kv' r'] eqn:Ea; simpl.
  - intros (n & nd & Hn & Hlive & -> & ->)%node_entries_head.
    set (b := Z.to_nat (Z.max p (sizearray t) - sizearray t)) in *.
    rewrite lookup_drop in Hn.
    assert (gnode t (b + n) = nd) as Eg by (unfold gnode; by rewrite nth_lookup, Hn).
    exists (Z.of_nat (b + n) + sizearray t). simpl. rewrite <- Eg.
    split; [apply findindex_node; try done; unfold gval; by rewrite Eg|].
    pose proof (wh_asize _ _ (wf_hash _ _ W)). split; [lia|].
    rewrite (drop_ge (array t)) by lia. simpl. f_equal. rewrite drop_drop. f_equal. lia.
  - intros [= -> <-]. apply array_entries_head in Ea as (n & Hn & Ek & ->).
    rewrite length_drop in Hn. exists (p + Z.of_nat n). rewrite Ek.
    split; [apply findindex_array; [done|lia]|]. split; [lia|]. f_equal.
    + rewrite drop_drop. do 2 f_equal. lia.
    + do 2 f_equal. lia.
Qed.

Lemma traverse_from fuel t key i :
  wf t -> no_stale_key t -> findindex ts_hash t key = Ok i -> 0 <= i + 1 ->
  (length (entries_from t (i + 1)) < fuel)%nat ->
  traverse ts_hash fuel t key = Ok (entries_from t (i + 1)).
Proof.
  intros W Hst. revert key i. induction fuel as [|fuel IH]; intros key i Hi Hi1 Hf; [lia|].
  simpl. rewrite (gafqH_next_from t key i Hi). simpl.
  destruct (entries_from t (i + 1)) as [|kv r] eqn:E; [done|]. simpl.
  destruct (entries_from_step t (i + 1) kv r W Hst Hi1 E) as (q & Hq & Hq0 & ->).
  rewrite (IH _ q Hq); [done|lia|]. simpl in Hf. lia.
Qed.

Lemma entries_from_0 t : wf t -> entries_from t 0 = entries t.
Proof.
  intros [W _]. pose proof (wh_asize _ _ W). unfold entries_from, entries.
  replace (Z.max 0 (sizearray t) - sizearray t) with 0 by lia. done.
Qed.

Lemma entries_spill t : wf t -> forall kv, kv ∈ entries t <-> kv ∈ spill t 0.
Proof.
  intros _ kv. unfold entries, spill. rewrite !elem_of_app. simpl. rewrite drop_0.
  unfold node_entries. by rewrite reverse_Permutation.
Qed.

(** the pairs of [entries] are the non-nil values of the table *)
Lemma entries_content t k v :
  wf t -> okkey k = true ->
  (content t k = v /\ v <> VNil <->
   exists k', (k', v) ∈ entries t /\ gafqO_rawequalObj k' k = true).
Proof.
  intros W Hk. split.
  - intros [<- Hv]. destruct (content_spill ts_hash t 0 k W ltac:(lia) Hk Hv) as ([k' v'] & Hin & E).
    { unfold in_array. lia. }
    destruct (spill_content ts_hash t 0 k _ W ltac:(lia) Hk Hin E) as [-> _].
    exists k'. split; [by apply entries_spill|done].
  - intros (k' & Hin & E). apply entries_spill in Hin; [|done].
    by destruct (spill_content ts_hash t 0 k _ W ltac:(lia) Hk Hin E) as [-> ?].
Qed.

(** ** No key is listed twice *)

Definition distinct_keys : list (TValue * TValue) -> Prop :=
  ForallOrdPairs (fun a b => gafqO_rawequalObj a.1 b.1 = false).

Lemma distinct_keys_app l1 l2 :
  distinct_keys l1 -> distinct_keys l2 ->
  (forall a b, a ∈ l1 -> b ∈ l2 -> gafqO_rawequalObj a.1 b.1 = false) -> distinct_keys (l1 ++ l2).
Proof.
  intros H1 H2. induction H1 as [|a l Ha H1 IH]; intros Hx; simpl; [done|].
  constructor; [|apply IH; intros; apply Hx; [by constructor|done]].
  apply Forall_app. split; [done|]. apply Forall_forall. intros b Hb. apply Hx; [constructor|done].
Qed.

Lemma arrayindex_distinct k k' : arrayindex k <> arrayindex k' -> gafqO_rawequalObj k k' = false.
Proof. intros H. apply not_true_is_false. by intros E%arrayindex_rawequal. Qed.

Lemma array_entries_index i l kv :
  0 <= i -> i + zlen l <= MAXASIZE -> kv ∈ array_entries i l -> i < arrayindex kv.1 <= i + zlen l.
Proof.
  unfold zlen. rewrite MAXASIZE_val. intros Hi Hl (n & v & Hn & _ & ->)%array_entries_inv.
  apply lookup_lt_Some in Hn. cbn [fst]. rewrite arrayindex_cast; [lia|].
  unfold int_range, INT_MIN, INT_MAX. lia.
Qed.

Lemma array_entries_distinct i l :
  0 <= i -> i + zlen l <= MAXASIZE -> distinct_keys (array_entries i l).
Proof.
  revert i. induction l as [|v l IH]; intros i Hi Hl; [constructor|].
  assert (i + 1 + zlen l <= MAXASIZE) as Hl' by (unfold zlen in *; simpl in Hl; lia).
  simpl. destruct (ttisnil v); [apply IH; lia|]. constructor; [|apply IH; lia].
  apply Forall_forall. intros kv Hkv. apply arrayindex_distinct.
  apply array_entries_index in Hkv; [|lia|done]. cbn [fst].
  rewrite arrayindex_cast; [lia|]. rewrite MAXASIZE_val in Hl'.
  unfold int_range, INT_MIN, INT_MAX, zlen in *. lia.
Qed.

Lemma node_entries_distinct t n : wf t -> distinct_keys (node_entries (drop n (node t))).
Proof.
  intros [W _]. remember (length (node t) - n)%nat as m eqn:Em. revert n Em.
  induction m as [|m IH]; intros n Em; [rewrite drop_ge by lia; constructor|].
  destruct (lookup_lt_is_Some_2 (node t) n) as [nd Hnd]; [lia|].
  rewrite (drop_S _ nd) by done. rewrite node_entries_cons.
  case_decide as D; [|apply IH; lia]. constructor; [|apply IH; lia].
  apply Forall_forall. intros kv (x & nd' & Hx & Hl & ->)%node_entries_elem. simpl.
  rewrite lookup_drop in Hx. apply not_true_is_false. intros E.
  assert (gnode t n = nd) as E1 by (unfold gnode; by rewrite nth_lookup, Hnd).
  assert (gnode t (S n + x) = nd') as E2 by (unfold gnode; by rewrite nth_lookup, Hx).
  assert (n = S n + x)%nat; [|lia].
  pose proof (wh_live _ _ W n) as Hp. unfold gkey, gval in Hp. rewrite E1 in Hp.
  apply (wh_uniq _ _ W); unfold gkey; rewrite ?E1, ?E2; auto.
Qed.

Lemma entries_distinct t : wf t -> distinct_keys (entries t).
Proof.
  intros W. pose proof W as [Wh Ha]. pose proof (wh_asize _ _ Wh) as Hs. apply distinct_keys_app.
  - apply array_entries_distinct; unfold zlen; lia.
  - rewrite <- (drop_0 (node t)). by apply node_entries_distinct.
  - intros a b Ha' (n & nd & Hn & Hl & ->)%node_entries_elem. apply arrayindex_distinct.
    apply array_entries_index in Ha'; [|lia|unfold zlen; lia].
    assert (gnode t n = nd) as E by (unfold gnode; by rewrite nth_lookup, Hn).
    pose proof (wh_live _ _ Wh n) as Hp. pose proof (wh_arr _ _ Wh n) as Hr.
    unfold gkey, gval in *. rewrite E in *. specialize (Hr (Hp Hl)). simpl.
    unfold zlen in Ha'. lia.
Qed.

(** C27: iterating [gafqH_next] from nil on a well-formed table without stale dead keys ends
    after one step per entry and lists exactly the pairs [(k, v)] with [v] the non-nil value
    of [k], no key twice. *)
Theorem next_enumerates t :
  wf t -> no_stale_key t ->
  exists l, traverse ts_hash (S (length l)) t VNil = Ok l /\ distinct_keys l /\
    (forall k v, okkey k = true ->
      (content t k = v /\ v <> VNil <-> exists k', (k', v) ∈ l /\ gafqO_rawequalObj k' k = true)).
Proof.
  intros W Hst. exists (entries t). split; [|split; [by apply entries_distinct|]].
  - rewrite <- (entries_from_0 t W). apply (traverse_from _ t VNil (-1)); try done.
    change (-1 + 1) with 0. lia.
  - intros k v Hk. by apply entries_content.
Qed.

(** ** Length *)

(** the value of the integer key [n] *)
Definition content_int (t : Table) (n : Z) : TValue := content t (VNumber (cast_num n)).

Lemma getnum_nil_content t k :
  int_range k -> getnum_nil t k = ttisnil (content_int t k).
Proof.
  intros H. unfold getnum_nil, content_int, TableInv.content.
  by rewrite s32_id, gafqH_get_cast by done.
Qed.

Lemma bsearch_spec fuel nil i j :
  i < j -> j - i <= 2 ^ (Z.of_nat fuel) -> nil j = true -> 0 <= i ->
  (i = 0 \/ nil i = false) ->
  exists n, bsearch (S fuel) nil i j = Ok n /\ i <= n < j /\ (n = 0 \/ nil n = false) /\
    nil (n + 1) = true.
Proof.
  revert i j. induction fuel as [|fuel IH]; intros i j Hij Hf Hj Hi0 Hi.
  - simpl. change (2 ^ Z.of_nat 0) with 1 in Hf. destruct (Z.ltb_spec 1 (j - i)); [lia|].
    exists i. replace (i + 1) with j by lia. repeat split; done || lia.
  - remember (S fuel) as f. simpl. subst f. destruct (Z.ltb_spec 1 (j - i)) as [L|L].
    + set (m := (i + j) / 2).
      assert (i < m < j /\ j - m <= 2 ^ Z.of_nat fuel /\ m - i <= 2 ^ Z.of_nat fuel) as (Hm & H1 & H2).
      { rewrite Nat2Z.inj_succ, Z.pow_succ_r in Hf by lia. subst m.
        pose proof (Z.div_mod (i + j) 2 ltac:(lia)). pose proof (Z.mod_pos_bound (i + j) 2 ltac:(lia)).
        lia. }
      destruct (nil m) eqn:Em.
      * destruct (IH i m) as (n & -> & Hn & H); try done; try lia. exists n. split; [done|]. split; [lia|done].
      * destruct (IH m j) as (n & -> & Hn & H); try done; try lia; [by right|].
        exists n. split; [done|]. split; [lia|done].
    + exists i. replace (i + 1) with j by lia. repeat split; done || lia.
Qed.

Lemma bsearch_uint nil i j :
  0 <= i < j -> j - i <= UINT_MOD -> nil j = true -> (i = 0 \/ nil i = false) ->
  exists n, bsearch 33 nil i j = Ok n /\ i <= n < j /\ (n = 0 \/ nil n = false) /\
    nil (n + 1) = true.
Proof.
  intros Hij Hu Hj Hi. apply (bsearch_spec 32 nil i j); [lia| |exact Hj|lia|exact Hi].
  change (2 ^ Z.of_nat 32) with UINT_MOD. exact Hu.
Qed.

Lemma linear_search_spec fuel nil i :
  (exists m, i <= m < i + Z.of_nat fuel /\ nil m = true) ->
  exists n, linear_search fuel nil i = Ok (n - 1) /\ i <= n < i + Z.of_nat fuel /\ nil n = true /\
    (forall m, i <= m < n -> nil m = false).
Proof.
  revert i. induction fuel as [|fuel IH]; intros i (m & Hm & Em); [lia|]. simpl.
  destruct (nil i) eqn:E; simpl.
  - exists i. repeat split; done || lia.
  - destruct (IH (i + 1)) as (n & -> & Hn & En & Hf).
    + exists m. split; [|done]. destruct (decide (m = i)); [congruence|lia].
    + exists n. split; [done|]. split; [lia|]. split; [done|]. intros m' Hm'.
      destruct (decide (m' = i)) as [->|]; [done|]. apply Hf. lia.
Qed.

Lemma entries_length t : (length (entries t) <= length (array t) + length (node t))%nat.
Proof.
  unfold entries, node_entries. rewrite length_app, array_entries_length, array_keys_length, length_fmap.
  pose proof (length_filter (fun v => ttisnil v = false) (array t)).
  pose proof (length_filter live (node t)). lia.
Qed.

(** a table has no more positive integer keys than slots *)
Lemma some_int_nil t :
  wf t -> exists m, 1 <= m < 1 + Z.of_nat (S (S (length (array t) + length (node t)))) /\
    content_int t m = VNil.
Proof.
  intros W. set (F := S (length (array t) + length (node t))).
  destruct (decide (Forall (fun m => content_int t m <> VNil) (seqZ 1 (Z.of_nat F)))) as [HF|HF].
  2:{ apply not_Forall_Exists in HF; [|apply _]. apply Exists_exists in HF as (m & Hm & Hn).
      apply elem_of_seqZ in Hm. exists m. split; [lia|]. by apply dec_stable in Hn. }
  exfalso. assert (F <= length (entries t))%nat; [|pose proof (entries_length t); lia].
  rewrite <- (length_fmap (fun kv => arrayindex kv.1)).
  transitivity (length (seqZ 1 (Z.of_nat F))); [rewrite length_seqZ; lia|].
  apply submseteq_length, NoDup_submseteq; [apply NoDup_seqZ|]. intros m Hm.
  rewrite Forall_forall in HF. pose proof (HF m Hm) as Hv. apply elem_of_seqZ in Hm.
  destruct (proj1 (entries_content t _ _ W (okkey_cast m)) (conj eq_refl Hv)) as (k' & Hin & E).
  apply list_elem_of_fmap. exists (k', content_int t m). split; [|done]. cbn [fst].
  rewrite (arrayindex_rawequal _ _ E), arrayindex_cast; [done|].
  pose proof (wh_asize _ _ (wf_hash _ _ W)). pose proof (wh_nodes _ _ (wf_hash _ _ W)) as Hn.
  pose proof (wf_array _ _ W). unfold sizenode in Hn. pose proof (wh_lsize _ _ (wf_hash _ _ W)).
  rewrite twoto_pow in Hn by lia. rewrite MAXASIZE_val in *. unfold MAXBITS in *.
  pose proof (Z.pow_le_mono_r 2 (lsizenode t) 26).
  unfold int_range, INT_MIN, INT_MAX. change (2 ^ 26) with 67108864 in *. lia.
Qed.

(** [n] is a boundary: it is 0 or present, and its successor is absent *)
Definition boundary (t : Table) (n : Z) : Prop :=
  0 <= n /\ (n = 0 \/ content_int t n <> VNil) /\ content_int t (n + 1) = VNil.

Lemma linear_boundary t :
  wf t -> exists n, linear_search (S (S (length (array t) + length (node t)))) (getnum_nil t) 1 = Ok n /\
    boundary t n.
Proof.
  intros W. assert (Z.of_nat (length (array t) + length (node t)) <= 2 * MAXASIZE) as Hlen.
  { pose proof (wh_asize _ _ (wf_hash _ _ W)). pose proof (wh_nodes _ _ (wf_hash _ _ W)) as Hn.
    pose proof (wf_array _ _ W). unfold sizenode in Hn. pose proof (wh_lsize _ _ (wf_hash _ _ W)).
    rewrite twoto_pow in Hn by lia. change MAXASIZE with (2 ^ 26) in *. unfold MAXBITS in *.
    pose proof (Z.pow_le_mono_r 2 (lsizenode t) 26). lia. }
  rewrite MAXASIZE_val in Hlen.
  destruct (some_int_nil t W) as (m & Hm & Em).
  assert (forall x, 0 <= x <= m + 1 -> int_range x) as Hr
    by (intros x Hx; unfold int_range, INT_MIN, INT_MAX; lia).
  destruct (linear_search_spec (S (S (length (array t) + length (node t)))) (getnum_nil t) 1)
    as (n & -> & Hn & En & Hf).
  { exists m. split; [done|]. rewrite getnum_nil_content by (apply Hr; lia). by rewrite Em. }
  exists (n - 1). split; [done|].
  assert (int_range n) as Hrn by (unfold int_range, INT_MIN, INT_MAX; lia).
  unfold boundary. replace (n - 1 + 1) with n by lia. split; [lia|]. split.
  - destruct (decide (n = 1)) as [->|]; [by left|]. right.
    apply ttisnil_false. rewrite <- getnum_nil_content; [apply Hf; lia|].
    unfold int_range, INT_MIN, INT_MAX in *. lia.
  - apply ttisnil_spec. by rewrite <- getnum_nil_content.
Qed.

Lemma bsearch_boundary t i j :
  0 <= i < j -> j <= MAX_INT -> getnum_nil t j = true -> (i = 0 \/ getnum_nil t i = false) ->
  exists n, bsearch 33 (getnum_nil t) i j = Ok n /\ boundary t n.
Proof.
  unfold MAX_INT, INT_MAX. intros Hij Hj Ej Hi.
  destruct (bsearch_uint (getnum_nil t) i j) as (n & -> & Hn & H1 & H2);
    [done|unfold UINT_MOD; lia|done|done|].
  exists n. split; [done|]. split; [lia|].
  rewrite getnum_nil_content in H1, H2 by (unfold int_range, INT_MIN, INT_MAX; lia).
  split; [|by apply ttisnil_spec]. destruct H1 as [->|H1]; [by left|right; by apply ttisnil_false].
Qed.

Lemma unbound_boundary fuel t i j :
  wf t -> 0 <= i < j -> j <= MAX_INT -> 2 ^ 32 <= j * 2 ^ Z.of_nat fuel ->
  (i = 0 \/ getnum_nil t i = false) ->
  exists n, unbound_loop fuel t i j = Ok n /\ boundary t n.
Proof.
  intros W. revert i j. unfold MAX_INT, INT_MAX.
  induction fuel as [|fuel IH]; intros i j Hij Hj Hf Hi.
  { change (2 ^ Z.of_nat 0) with 1 in Hf. lia. }
  cbn [unbound_loop]. destruct (getnum_nil t j) eqn:E; cbn [negb]; [by apply bsearch_boundary|].
  rewrite u32_id by (unfold UINT_MOD; lia).
  destruct (Z.ltb_spec MAX_INT (j * 2)) as [L|L]; [by apply linear_boundary|].
  unfold MAX_INT, INT_MAX in L. apply IH; [lia|lia| |by right].
  rewrite Nat2Z.inj_succ, Z.pow_succ_r in Hf by lia. lia.
Qed.

Lemma content_int_array t m :
  wf t -> 1 <= m <= sizearray t -> content_int t m = vget VNil (array t) (m - 1).
Proof.
  intros [W Ha] Hm. pose proof (wh_asize _ _ W) as Hs. rewrite MAXASIZE_val in Hs.
  assert (arrayindex (VNumber (cast_num m)) = m) as Ei
    by (apply arrayindex_cast; unfold int_range, INT_MIN, INT_MAX; lia).
  unfold content_int, TableInv.content.
  rewrite gafqH_get_in_array by (done || apply okkey_cast || (unfold in_array; lia)).
  unfold deref, slot_val. rewrite Ei. unfold vget. destruct (Z.ltb_spec (m - 1) 0); [lia|done].
Qed.

Lemma content_int_dummy t m :
  wf t -> isdummy t = true -> int_range m -> ~ 1 <= m <= sizearray t -> content_int t m = VNil.
Proof.
  intros [W _] Hd Hm Hna. destruct (wh_dummy _ _ W Hd) as [En _].
  unfold content_int, TableInv.content. pose proof (gafqH_getP _ _ _ W (okkey_cast m)) as V.
  destruct V as [D|i D E|D E]; [|simpl|done].
  - unfold in_array in D. rewrite arrayindex_cast in D by done. done.
  - unfold gval, gnode. rewrite En. by destruct i as [|[|i]].
Qed.

(** the search that starts after a full array part *)
Lemma getn_full t :
  wf t -> (sizearray t = 0 \/ getnum_nil t (sizearray t) = false) ->
  exists n, (if isdummy t then Ok (sizearray t) else unbound_search t (sizearray t)) = Ok n /\
    boundary t n.
Proof.
  intros W Hfull. pose proof (wh_asize _ _ (wf_hash _ _ W)) as Hs. rewrite MAXASIZE_val in Hs.
  destruct (isdummy t) eqn:Hd.
  - exists (sizearray t). split; [done|]. split; [lia|]. split.
    + destruct Hfull as [?|H]; [by left|right]. apply ttisnil_false.
      rewrite <- getnum_nil_content; [done|]. unfold int_range, INT_MIN, INT_MAX. lia.
    + apply content_int_dummy; [done|done|unfold int_range, INT_MIN, INT_MAX; lia|lia].
  - unfold unbound_search. rewrite u32_id by (unfold UINT_MOD; lia).
    apply unbound_boundary; [done|lia|unfold MAX_INT, INT_MAX; lia| |done].
    change (2 ^ Z.of_nat 33) with 8589934592. change (2 ^ 32) with 4294967296. lia.
Qed.

(** C32: the length operator terminates and returns a boundary of the table: 0 or a present
    integer key whose successor is absent. *)
Theorem getn_boundary t : wf t -> exists n, gafqH_getn t = Ok n /\ boundary t n.
Proof.
  intros W. pose proof (wh_asize _ _ (wf_hash _ _ W)) as Hs. rewrite MAXASIZE_val in Hs.
  unfold gafqH_getn. destruct (Z.ltb_spec 0 (sizearray t)) as [L|L]; cbn [andb].
  2:{ apply getn_full; [done|]. left. lia. }
  assert (forall m, 1 <= m <= sizearray t -> array_nil t m = ttisnil (content_int t m)) as Hc.
  { intros m Hm. by rewrite content_int_array. }
  destruct (array_nil t (sizearray t)) eqn:E.
  - destruct (bsearch_uint (array_nil t) 0 (sizearray t)) as (n & -> & Hn & H1 & H2);
      [lia|unfold UINT_MOD; lia|done|by left|].
    exists n. split; [done|]. split; [lia|]. rewrite Hc in H2 by lia.
    split; [|by apply ttisnil_spec]. destruct (decide (n = 0)) as [->|]; [by left|right].
    destruct H1 as [?|H1]; [done|]. rewrite Hc in H1 by lia. by apply ttisnil_false.
  - apply getn_full; [done|]. right. rewrite getnum_nil_content, <- Hc by
      (lia || (unfold int_range, INT_MIN, INT_MAX; lia)). done.
Qed.

End Next.

(** a table with the integer keys 1 and 3 *)
Definition table13 : res Table :=
  t ← table_store ex_hash table0 (VNumber (cast_num 1)) (VBoolean 1);
  table_store ex_hash t (VNumber (cast_num 3)) (VBoolean 0).

Lemma table0_no_stale_key : no_stale_key table0.
Proof. intros [|[|i]] j p; discriminate. Qed.

Lemma next_enumerates_witness :
  exists l, traverse ex_hash (S (length l)) table0 VNil = Ok l /\ distinct_keys l.
Proof.
  destruct (next_enumerates ex_hash table0 (table0_wf _) table0_no_stale_key) as (l & H1 & H2 & _).
  exists l. split; [exact H1|exact H2].
Defined.

Lemma getn_boundary_witness : exists n, gafqH_getn table0 = Ok n /\ boundary ex_hash table0 n.
Proof. apply (getn_boundary ex_hash table0 (table0_wf _)). Defined.

(** the traversal and the length of a table with entries *)
Lemma table13_run :
  (t ← table13; traverse ex_hash 3 t VNil) =
    Ok [(VNumber (cast_num 1), VBoolean 1); (VNumber (cast_num 3), VBoolean 0)] /\
  (t ← table13; gafqH_getn t) = Ok 1.
Proof. split; vm_compute; reflexivity. Qed.
