(* ===== verification/StringTable.v ===== *)
(** * Interned strings: gstring.c

    The string table of the global state: an array of chains, each chain the
    list of the strings whose hash falls in its bucket (the [next] links of the
    string objects).  [gafqS_newlstr] interns: it returns the string object that
    already has the wanted contents, or chains a new one.  The address of a new
    object, chosen by the allocator, is an argument. *)

From S2P Require Import Prelude Number Object Table TableInv.

Record TString := mkTString {
  ts_addr : pointer;
  ts_hash : Z;          (* tsv.hash, unsigned int *)
  ts_marked : Z;        (* tsv.marked, lu_byte *)
  ts_reserved : Z;      (* tsv.reserved, lu_byte *)
  ts_str : bytes        (* the tsv.len bytes after the header *)
}.

Record stringtable := mkStrt {
  hash : list (list TString);
  nuse : Z;             (* lu_int32 *)
  size : Z              (* int *)
}.

(** the part of [global_State] that strings use *)
Record global_State := mkG {
  strt : stringtable;
  currentwhite : Z;
  gcstate : Z
}.

Definition GCSsweepstring : Z := 2.

Definition WHITEBITS : Z := 3.
Definition otherwhite (g : global_State) : Z := Z.lxor (currentwhite g) WHITEBITS.
Definition isdead (g : global_State) (ts : TString) : bool :=
  negb (Z.land (Z.land (ts_marked ts) (otherwhite g)) WHITEBITS =? 0).
Definition changewhite (ts : TString) : TString :=
  mkTString (ts_addr ts) (ts_hash ts) (Z.lxor (ts_marked ts) WHITEBITS) (ts_reserved ts) (ts_str ts).
Definition gafqC_white (g : global_State) : Z := u8 (Z.land (currentwhite g) WHITEBITS).

Definition with_strt (g : global_State) (tb : stringtable) : global_State :=
  mkG tb (currentwhite g) (gcstate g).

(** [p->next = h[i]; h[i] = p] *)
Definition chain (h : list (list TString)) (i : Z) (ts : TString) : list (list TString) :=
  alter (cons ts) (Z.to_nat i) h.

(** ** Hashing *)

(** [for (l1 = l; l1 >= step; l1 -= step) h = h ^ ((h<<5) + (h>>2) + str[l1-1])] *)
Fixpoint hash_loop (fuel : nat) (str : bytes) (step l1 h : Z) : Z :=
  match fuel with
  | O => h
  | S fuel' =>
      if step <=? l1 then
        hash_loop fuel' str step (l1 - step)
          (Z.lxor h (u32 (u32 (Z.shiftl h 5) + Z.shiftr h 2 + vget 0 str (l1 - 1))))
      else h
  end.

Definition string_hash (str : bytes) : Z :=
  let l := Z.of_nat (length str) in
  let step := Z.shiftr l 5 + 1 in
  hash_loop (S (length str)) str step l (u32 l).

(** ** The table *)

Definition gafqS_resize (g : global_State) (newsize : Z) : global_State :=
  if gcstate g =? GCSsweepstring then g
  else
    let tb := strt g in
    let newhash := replicate (Z.to_nat newsize) [] in
    let newhash :=
      foldl (fun nh bucket =>
               foldl (fun nh p => chain nh (lmod (ts_hash p) newsize) p) nh bucket)
            newhash (hash tb) in
    with_strt g (mkStrt newhash (nuse tb) newsize).

Definition sizeof_TString : Z := 24.

Definition newlstr (g : global_State) (addr : pointer) (str : bytes) (h : Z)
  : res (global_State * TString) :=
  let l := Z.of_nat (length str) in
  if MAX_SIZET - sizeof_TString <? l + 1 then
    Err (RunError "memory allocation error: block too big")
  else
    let ts := mkTString addr h (gafqC_white g) 0 str in
    let tb := strt g in
    let h := lmod h (size tb) in
    let tb := mkStrt (chain (hash tb) h ts) (u32 (nuse tb + 1)) (size tb) in
    let g := with_strt g tb in
    let g := if (u32 (size tb) <? nuse tb) && (size tb <=? MAX_INT / 2)
             then gafqS_resize g (size tb * 2) else g in
    Ok (g, ts).

(** [ts->tsv.len == l && memcmp(str, getstr(ts), l) == 0] *)
Definition same_string (str : bytes) (ts : TString) : bool := bool_decide (ts_str ts = str).

(** the first matching string of a chain and its position *)
Fixpoint find_string (str : bytes) (l : list TString) : option (nat * TString) :=
  match l with
  | [] => None
  | ts :: l' => if same_string str ts then Some (0%nat, ts)
                else prod_map S id <$> find_string str l'
  end.

Definition gafqS_newlstr (g : global_State) (addr : pointer) (str : bytes)
  : res (global_State * TString) :=
  let h := string_hash str in
  let tb := strt g in
  let i := Z.to_nat (lmod h (size tb)) in
  match find_string str (nth i (hash tb) []) with
  | Some (n, ts) =>
      if isdead g ts then
        let ts := changewhite ts in
        let tb := mkStrt (alter (<[n := ts]>) i (hash tb)) (nuse tb) (size tb) in
        Ok (with_strt g tb, ts)
      else Ok (g, ts)
  | None => newlstr g addr str h
  end.

(** ** The invariant *)

Definition strings (tb : stringtable) : list TString := concat (hash tb).

Record strt_ok (tb : stringtable) : Prop := {
  st_size : exists n, 0 <= n <= 30 /\ size tb = 2 ^ n;
  st_length : Z.of_nat (length (hash tb)) = size tb;
  st_bucket i ts : ts ∈ nth i (hash tb) [] ->
    ts_hash ts = string_hash (ts_str ts) /\ Z.to_nat (lmod (ts_hash ts) (size tb)) = i;
  st_unique : NoDup (ts_str <$> strings tb);
  st_addr : NoDup (ts_addr <$> strings tb);
  st_nuse : nuse tb = u32 (Z.of_nat (length (strings tb)))
}.

(** the string object at [p] is interned and has the contents [s] *)
Definition interned (tb : stringtable) (p : pointer) (s : bytes) : Prop :=
  exists ts, ts ∈ strings tb /\ ts_addr ts = p /\ ts_str ts = s.

Lemma lmod_range h n : 0 <= n -> (Z.to_nat (lmod h (2 ^ n)) < Z.to_nat (2 ^ n))%nat.
Proof.
  intros Hn. unfold lmod. replace (2 ^ n - 1) with (Z.ones n) by (rewrite Z.ones_equiv; lia).
  rewrite Z.land_ones by done. pose proof (Z.mod_pos_bound h (2 ^ n)).
  assert (0 < 2 ^ n) by (apply Z.pow_pos_nonneg; lia). lia.
Qed.

Lemma concat_alter {A} (h : list (list A)) i x :
  (i < length h)%nat -> concat (alter (cons x) i h) ≡ₚ x :: concat h.
Proof.
  revert i. induction h as [|b h IH]; intros [|i] Hi; simpl in *; [lia|lia|done|].
  etransitivity; [apply Permutation_app_head, (IH i); lia|]. by rewrite Permutation_middle.
Qed.

Lemma nth_chain h i ts j :
  (Z.to_nat i < length h)%nat ->
  nth j (chain h i ts) [] = if decide (Z.to_nat i = j) then ts :: nth j h [] else nth j h [].
Proof.
  intros Hi. unfold chain. rewrite !nth_lookup, list_lookup_alter.
  case_decide as E; [subst j|done]. by destruct (lookup_lt_is_Some_2 h _ Hi) as [b ->].
Qed.

Lemma elem_of_strings tb ts : ts ∈ strings tb <-> exists i, ts ∈ nth i (hash tb) [].
Proof.
  unfold strings. rewrite list_elem_of_In, in_concat. split.
  - intros (b & Hb & Hts). apply list_elem_of_In, list_elem_of_lookup in Hb as [i Hi].
    exists i. rewrite nth_lookup, Hi. by apply list_elem_of_In.
  - intros [i Hi]. rewrite nth_lookup in Hi. destruct (hash tb !! i) as [b|] eqn:E; simpl in Hi.
    + exists b. split; [by apply list_elem_of_In; eapply list_elem_of_lookup_2|by apply list_elem_of_In].
    + by apply not_elem_of_nil in Hi.
Qed.

(** ** Resizing *)

Definition rechain (newsize : Z) (nh : list (list TString)) (l : list TString) : list (list TString) :=
  foldl (fun nh p => chain nh (lmod (ts_hash p) newsize) p) nh l.

Lemma rechain_concat newsize nh h :
  foldl (rechain newsize) nh h = rechain newsize nh (concat h).
Proof.
  revert nh. induction h as [|b h IH]; intros nh; simpl; [done|].
  rewrite IH. unfold rechain. by rewrite foldl_app.
Qed.

Lemma rechain_spec n nh l :
  0 <= n -> length nh = Z.to_nat (2 ^ n) ->
  length (rechain (2 ^ n) nh l) = Z.to_nat (2 ^ n) /\
  concat (rechain (2 ^ n) nh l) ≡ₚ l ++ concat nh /\
  forall i ts, ts ∈ nth i (rechain (2 ^ n) nh l) [] ->
    ts ∈ nth i nh [] \/ (ts ∈ l /\ Z.to_nat (lmod (ts_hash ts) (2 ^ n)) = i).
Proof.
  intros Hn. revert nh. induction l as [|p l IH]; intros nh Hl; simpl; [by split; [|split; auto]|].
  pose proof (lmod_range (ts_hash p) n Hn) as Hr. rewrite <- Hl in Hr.
  destruct (IH (chain nh (lmod (ts_hash p) (2 ^ n)) p)) as (H1 & H2 & H3).
  { unfold chain. by rewrite length_alter. }
  split; [done|]. split.
  - rewrite H2. unfold chain. rewrite concat_alter by done. by rewrite Permutation_middle.
  - intros i ts Hts. destruct (H3 i ts Hts) as [H|[H E]].
    + rewrite nth_chain in H by done. case_decide as E; [|by left].
      apply elem_of_cons in H as [->|H]; [right|by left]. split; [constructor|done].
    + right. split; [by constructor|done].
Qed.

Lemma concat_empty n : concat (replicate n ([] : list TString)) = [].
Proof. by induction n. Qed.

Lemma resize_ok g n :
  strt_ok (strt g) -> 0 <= n <= 30 ->
  strt_ok (strt (gafqS_resize g (2 ^ n))) /\
  strings (strt (gafqS_resize g (2 ^ n))) ≡ₚ strings (strt g).
Proof.
  intros Hok Hn. unfold gafqS_resize. destruct (gcstate g =? GCSsweepstring); [done|]. simpl.
  change (fun nh bucket => foldl _ nh bucket) with (rechain (2 ^ n)).
  rewrite rechain_concat. fold (strings (strt g)).
  destruct (rechain_spec n (replicate (Z.to_nat (2 ^ n)) []) (strings (strt g))) as (H1 & H2 & H3);
    [lia|apply length_replicate|].
  rewrite concat_empty, app_nil_r in H2.
  set (tb' := mkStrt _ _ _). assert (strings tb' ≡ₚ strings (strt g)) as Hp by exact H2.
  split; [|done]. split.
  - by exists n.
  - simpl. rewrite H1. assert (0 < 2 ^ n) by (apply Z.pow_pos_nonneg; lia). lia.
  - intros i ts Hts. destruct (H3 i ts Hts) as [H|[H E]].
    + rewrite nth_lookup in H. destruct (replicate _ _ !! i) eqn:E; simpl in H;
        [apply lookup_replicate_1 in E as [-> _]|]; by apply not_elem_of_nil in H.
    + split; [|done]. apply elem_of_strings in H as [j Hj]. by apply (st_bucket _ Hok) in Hj as [? _].
  - rewrite Hp. apply Hok.
  - rewrite Hp. apply Hok.
  - simpl. rewrite (st_nuse _ Hok). by rewrite Hp.
Qed.

(** ** Interning *)

Lemma find_string_some str l n ts :
  find_string str l = Some (n, ts) -> l !! n = Some ts /\ ts_str ts = str.
Proof.
  revert n. induction l as [|t l IH]; intros n; simpl; [done|]. unfold same_string.
  case_bool_decide as E.
  - by intros [= <- <-].
  - destruct (find_string str l) as [[m t']|]; simpl; [|done]. intros [= <- <-]. by apply IH.
Qed.

Lemma find_string_none str l ts : find_string str l = None -> ts ∈ l -> ts_str ts <> str.
Proof.
  induction l as [|t l IH]; simpl; [by intros _ ?%not_elem_of_nil|]. unfold same_string.
  case_bool_decide as E; [done|]. destruct (find_string str l) as [[m t']|]; simpl; [done|].
  intros _ [->|H]%elem_of_cons; [done|by apply IH].
Qed.

(** a string with the contents [str] lives in the bucket that is searched *)
Lemma bucket_of tb str ts :
  strt_ok tb -> ts ∈ strings tb -> ts_str ts = str ->
  ts ∈ nth (Z.to_nat (lmod (string_hash str) (size tb))) (hash tb) [].
Proof.
  intros Hok [i Hi]%elem_of_strings <-. destruct (st_bucket _ Hok _ _ Hi) as [<- E].
  by rewrite E.
Qed.

(** replacing a string by one that differs in its mark only *)
Lemma alter_bucket (h : list (list TString)) i n ts ts' :
  nth i h [] !! n = Some ts ->
  exists l1 l2, concat h = l1 ++ ts :: l2 /\ concat (alter (<[n := ts']>) i h) = l1 ++ ts' :: l2.
Proof.
  revert i. induction h as [|b h IH]; intros [|i]; simpl; try by rewrite lookup_nil.
  - intros E. exists (take n b), (drop (S n) b ++ concat h).
    pose proof (lookup_lt_Some _ _ _ E). split.
    + rewrite <- (take_drop_middle b n ts E) at 1. by rewrite <- app_assoc.
    + rewrite insert_take_drop by done. by rewrite <- app_assoc.
  - intros E. destruct (IH i E) as (l1 & l2 & E1 & E2). exists (b ++ l1), l2.
    rewrite E1, <- !app_assoc. split; [done|]. f_equal. exact E2.
Qed.

Lemma changewhite_ok tb i n ts :
  strt_ok tb -> nth i (hash tb) [] !! n = Some ts ->
  let tb' := mkStrt (alter (<[n := changewhite ts]>) i (hash tb)) (nuse tb) (size tb) in
  strt_ok tb' /\ ts_str <$> strings tb' = ts_str <$> strings tb /\
  ts_addr <$> strings tb' = ts_addr <$> strings tb /\ changewhite ts ∈ strings tb'.
Proof.
  intros Hok E tb'. destruct (alter_bucket (hash tb) i n ts (changewhite ts) E) as (l1 & l2 & E1 & E2).
  assert (ts_str <$> strings tb' = ts_str <$> strings tb) as Hs.
  { unfold strings. simpl. rewrite E1, E2, !fmap_app. done. }
  assert (ts_addr <$> strings tb' = ts_addr <$> strings tb) as Ha.
  { unfold strings. simpl. rewrite E1, E2, !fmap_app. done. }
  split; [|split; [done|split; [done|]]].
  - split; simpl; try apply Hok.
    + rewrite length_alter. apply Hok.
    + intros j t. rewrite nth_lookup, list_lookup_alter. case_decide as Ej; [subst j|].
      * intros H. destruct (st_bucket _ Hok i ts) as [H1 H2]; [by eapply list_elem_of_lookup_2|].
        rewrite nth_lookup in E. destruct (hash tb !! i) as [b|] eqn:Eb; simpl in *;
          [|by rewrite lookup_nil in E].
        apply list_elem_of_lookup in H as [m Hm]. destruct (decide (n = m)) as [<-|].
        -- rewrite list_lookup_insert_eq in Hm by (by eapply lookup_lt_Some). by injection Hm as <-.
        -- rewrite list_lookup_insert_ne in Hm by done. apply (st_bucket _ Hok i).
           rewrite nth_lookup, Eb. by eapply list_elem_of_lookup_2.
      * rewrite <- nth_lookup. apply (st_bucket _ Hok).
    + rewrite Hs. apply Hok.
    + rewrite Ha. apply Hok.
    + rewrite (st_nuse _ Hok), <- (length_fmap ts_str), <- Hs, length_fmap. done.
  - unfold strings. simpl. rewrite E2. apply elem_of_app. right. constructor.
Qed.

Lemma interned_fmap tb tb' :
  ts_str <$> strings tb' = ts_str <$> strings tb -> ts_addr <$> strings tb' = ts_addr <$> strings tb ->
  forall p s, interned tb p s -> interned tb' p s.
Proof.
  intros Hs Ha p s (ts & [i Hi]%list_elem_of_lookup & <- & <-).
  assert ((ts_str <$> strings tb') !! i = Some (ts_str ts)) as H1
    by (rewrite Hs, list_lookup_fmap, Hi; done).
  assert ((ts_addr <$> strings tb') !! i = Some (ts_addr ts)) as H2
    by (rewrite Ha, list_lookup_fmap, Hi; done).
  rewrite list_lookup_fmap in H1. rewrite list_lookup_fmap in H2.
  destruct (strings tb' !! i) as [t|] eqn:E; [|done].
  exists t. split; [by eapply list_elem_of_lookup_2|].
  simpl in *. injection H1 as ->. injection H2 as ->. done.
Qed.

Lemma chain_ok tb ts :
  strt_ok tb -> ts_hash ts = string_hash (ts_str ts) ->
  ts_str ts ∉ (ts_str <$> strings tb) -> ts_addr ts ∉ (ts_addr <$> strings tb) ->
  let tb' := mkStrt (chain (hash tb) (lmod (ts_hash ts) (size tb)) ts) (u32 (nuse tb + 1)) (size tb) in
  strt_ok tb' /\ strings tb' ≡ₚ ts :: strings tb.
Proof.
  intros Hok Hh Hs Ha tb'. destruct (st_size _ Hok) as (n & Hn & En).
  pose proof (lmod_range (ts_hash ts) n ltac:(lia)) as Hr. rewrite <- En in Hr.
  pose proof (st_length _ Hok) as Hl.
  assert (Z.to_nat (lmod (ts_hash ts) (size tb)) < length (hash tb))%nat as Hi by lia.
  assert (strings tb' ≡ₚ ts :: strings tb) as Hp by (by apply concat_alter).
  split; [|done]. split; simpl; try apply Hok.
  - unfold chain. by rewrite length_alter.
  - intros i t. rewrite nth_chain by done. case_decide as E; [|apply (st_bucket _ Hok)].
    intros [->|H]%elem_of_cons; [done|by apply (st_bucket _ Hok)].
  - rewrite Hp. simpl. constructor; [done|apply Hok].
  - rewrite Hp. simpl. constructor; [done|apply Hok].
  - rewrite Hp, (st_nuse _ Hok). simpl length. unfold u32. rewrite Zplus_mod_idemp_l. f_equal. lia.
Qed.

(** What interning [str] guarantees. *)
Record intern_spec (g : global_State) (str : bytes) (g' : global_State) (ts : TString) : Prop := {
  in_ok : strt_ok (strt g');
  in_str : ts_str ts = str;
  in_member : ts ∈ strings (strt g');
  in_keep p s : interned (strt g) p s -> interned (strt g') p s
}.

Lemma newlstr_spec g addr str :
  strt_ok (strt g) -> Z.of_nat (length str) + 1 <= MAX_SIZET - sizeof_TString ->
  str ∉ (ts_str <$> strings (strt g)) -> addr ∉ (ts_addr <$> strings (strt g)) ->
  exists g', newlstr g addr str (string_hash str) =
    Ok (g', mkTString addr (string_hash str) (gafqC_white g) 0 str) /\
    intern_spec g str g' (mkTString addr (string_hash str) (gafqC_white g) 0 str).
Proof.
  intros Hok Hlen Hs Ha. unfold newlstr. destruct (Z.ltb_spec (MAX_SIZET - sizeof_TString)
    (Z.of_nat (length str) + 1)); [lia|].
  set (ts := mkTString _ _ _ _ _). eexists. split; [done|].
  destruct (chain_ok (strt g) ts Hok eq_refl Hs Ha) as [Hok1 Hp1].
  set (tb1 := mkStrt _ _ _) in *. change (ts_hash ts) with (string_hash str) in *.
  assert (forall g1, strt_ok (strt g1) -> strings (strt g1) ≡ₚ ts :: strings (strt g) ->
                intern_spec g str g1 ts) as Hfin.
  { intros g1 H1 Hp. split; try done.
    - rewrite Hp. constructor.
    - intros p s (t & Ht & Hx). exists t. split; [|done]. rewrite Hp. by constructor. }
  destruct ((u32 (size tb1) <? nuse tb1) && (size tb1 <=? MAX_INT / 2)) eqn:E;
    [|by apply Hfin].
  apply andb_prop in E as [_ E%Z.leb_le]. destruct (st_size _ Hok1) as (n & Hn & En).
  assert (n <= 29) as Hn29.
  { destruct (Z_le_gt_dec n 29) as [|G]; [done|]. rewrite En in E.
    pose proof (Z.pow_le_mono_r 2 30 n ltac:(lia) ltac:(lia)).
    change (2 ^ 30) with 1073741824 in *. unfold MAX_INT, INT_MAX in E.
    change ((2147483647 - 2) / 2) with 1073741822 in E. lia. }
  rewrite En. replace (2 ^ n * 2) with (2 ^ (n + 1)) by (rewrite Z.pow_add_r by lia; lia).
  destruct (resize_ok (with_strt g tb1) (n + 1) Hok1 ltac:(lia)) as [H1 H2].
  apply Hfin; [done|]. by rewrite H2.
Qed.

(** C25: interning a string always succeeds (up to the size limit) and returns a string
    object with the given contents; if an object with these contents was interned already,
    it is that object (the same address, revived when it was dead), every string interned
    before stays interned at its address, and the string table stays well-formed, also when
    it is resized. *)
Theorem newlstr_interns g addr str :
  strt_ok (strt g) -> addr ∉ (ts_addr <$> strings (strt g)) ->
  Z.of_nat (length str) + 1 <= MAX_SIZET - sizeof_TString ->
  exists g' ts, gafqS_newlstr g addr str = Ok (g', ts) /\ intern_spec g str g' ts /\
    (forall p, interned (strt g) p str -> ts_addr ts = p).
Proof.
  intros Hok Ha Hlen. unfold gafqS_newlstr.
  set (i := Z.to_nat (lmod (string_hash str) (size (strt g)))).
  destruct (find_string str (nth i (hash (strt g)) [])) as [[n ts]|] eqn:E.
  - apply find_string_some in E as [En Es].
    assert (ts ∈ strings (strt g)) as Hin
      by (apply elem_of_strings; exists i; by eapply list_elem_of_lookup_2).
    assert (forall p, interned (strt g) p str -> ts_addr ts = p) as Hu.
    { intros p (t & Ht & <- & Hts). f_equal.
      apply list_elem_of_lookup in Hin as [a Hin]. apply list_elem_of_lookup in Ht as [b Ht].
      assert (a = b) as ->; [|congruence]. eapply (NoDup_lookup _ _ _ str (st_unique _ Hok));
        rewrite list_lookup_fmap; [rewrite Hin|rewrite Ht]; simpl; congruence. }
    destruct (isdead g ts).
    + destruct (changewhite_ok (strt g) i n ts Hok En) as (H1 & H2 & H3 & H4).
      eexists _, (changewhite ts). split; [done|]. split; [|done]. split; try done.
      by apply interned_fmap.
    + exists g, ts. split; [done|]. split; [|done]. by split.
  - assert (str ∉ (ts_str <$> strings (strt g))) as Hs.
    { intros (t & Et & Ht)%list_elem_of_fmap. symmetry in Et.
      pose proof (bucket_of _ _ _ Hok Ht Et). by destruct (find_string_none _ _ _ E H). }
    destruct (newlstr_spec g addr str Hok Hlen Hs Ha) as (g' & Eg & Hi).
    eexists g', _. split; [exact Eg|]. split; [done|]. intros p (t & Ht & _ & Hts).
    destruct Hs. apply list_elem_of_fmap. by exists t.
Qed.

(** on a well-formed string table, two interned string objects have the same address
    exactly when they have the same contents, so comparing strings by pointer (as
    [gafqO_rawequalObj] and [gafqH_getstr] do) compares their contents. *)
Theorem interned_pointer_equality tb p q s r :
  strt_ok tb -> interned tb p s -> interned tb q r -> (p = q <-> s = r).
Proof.
  intros Hok (t1 & [i Hi]%list_elem_of_lookup & <- & <-) (t2 & [j Hj]%list_elem_of_lookup & <- & <-).
  split; intros E.
  - assert (i = j) as ->; [|congruence].
    eapply (NoDup_lookup _ _ _ (ts_addr t1) (st_addr _ Hok)); rewrite list_lookup_fmap;
      [rewrite Hi|rewrite Hj]; simpl; congruence.
  - assert (i = j) as ->; [|congruence].
    eapply (NoDup_lookup _ _ _ (ts_str t1) (st_unique _ Hok)); rewrite list_lookup_fmap;
      [rewrite Hi|rewrite Hj]; simpl; congruence.
Qed.

(** ** A concrete string table *)

(** the table of a new state: [gafqS_resize(L, MINSTRTABSIZE)] on an empty one *)
Definition g0 : global_State := mkG (mkStrt (replicate 32 []) 0 32) 33 0.

Lemma g0_ok : strt_ok (strt g0).
Proof.
  split; try done.
  - by exists 5.
  - intros i ts H. rewrite nth_lookup in H. destruct (hash (strt g0) !! i) eqn:E; simpl in H;
      [apply (lookup_replicate_1 32) in E as [-> _]|]; by apply not_elem_of_nil in H.
  - constructor.
  - constructor.
Qed.

Lemma newlstr_interns_witness :
  exists g' ts, gafqS_newlstr g0 1000 (str "end") = Ok (g', ts) /\ intern_spec g0 (str "end") g' ts.
Proof.
  destruct (newlstr_interns g0 1000 (str "end") g0_ok) as (g' & ts & H1 & H2 & _).
  - vm_compute. intros H. inversion H.
  - vm_compute. intros [=].
  - exists g', ts. split; [exact H1|exact H2].
Defined.

Lemma interned_pointer_equality_witness :
  exists tb, strt_ok tb /\ interned tb 1000 (str "end") /\ (1000 = 1000 <-> str "end" = str "end").
Proof.
  destruct (chain_ok (strt g0) (mkTString 1000 (string_hash (str "end")) 1 0 (str "end")) g0_ok)
    as [Hok Hp]; [reflexivity|vm_compute; intros H; inversion H..|].
  set (tb := mkStrt _ _ _) in *.
  assert (interned tb 1000 (str "end")) as Hi.
  { eexists. split; [rewrite Hp; left|]. split; reflexivity. }
  exists tb. split; [exact Hok|]. split; [exact Hi|].
  exact (interned_pointer_equality tb 1000 1000 (str "end") (str "end") Hok Hi Hi).
Defined.

(** interning the same contents twice gives the same object *)
Lemma intern_twice_run :
  (x ← gafqS_newlstr g0 1000 (str "end");
   y ← gafqS_newlstr x.1 2000 (str "end");
   Ok (ts_addr x.2, ts_addr y.2)) = Ok (1000, 1000).
Proof. vm_compute. reflexivity. Qed.
