(* ===== verification/Zio.v ===== *)
(** * Buffered streams: gzio.c, gzio.h

    A stream reads blocks from a reader callback.  The reader is whatever the
    host gives; its behaviour is the list of blocks its successive calls
    return, an empty block (or the end of the list) being a [NULL] block or one
    of size 0.  [z->p] is a position in the current block, [z->n] a [size_t]. *)

From S2P Require Import Prelude.

Record ZIO := mkZIO {
  z_n : Z;                 (* bytes still unread, size_t *)
  z_buff : bytes;          (* the current block *)
  z_p : Z;                 (* current position in the block *)
  z_data : list bytes      (* the blocks of the next calls of the reader *)
}.

Definition EOZ : Z := -1.

Definition char2int (c : Z) : Z := u8 c.

Definition gafqZ_init (data : list bytes) : ZIO := mkZIO 0 [] 0 data.

Definition gafqZ_fill (z : ZIO) : Z * ZIO :=
  match z_data z with
  | [] => (EOZ, z)
  | buff :: data =>
      let size := Z.of_nat (length buff) in
      if size =? 0 then (EOZ, mkZIO (z_n z) (z_buff z) (z_p z) data)
      else (char2int (vget 0 buff 0), mkZIO (size - 1) buff 1 data)
  end.

(** [((z)->n--) > 0 ? char2int( *(z)->p++) : gafqZ_fill(z)] *)
Definition zgetc (z : ZIO) : Z * ZIO :=
  let z' := mkZIO (size_t (z_n z - 1)) (z_buff z) (z_p z) (z_data z) in
  if 0 <? z_n z then
    (char2int (vget 0 (z_buff z) (z_p z)), mkZIO (z_n z') (z_buff z) (z_p z + 1) (z_data z))
  else gafqZ_fill z'.

Definition gafqZ_lookahead (z : ZIO) : Z * ZIO :=
  if z_n z =? 0 then
    let '(c, z) := gafqZ_fill z in
    if c =? EOZ then (EOZ, z)
    else
      let z := mkZIO (size_t (z_n z + 1)) (z_buff z) (z_p z - 1) (z_data z) in
      (char2int (vget 0 (z_buff z) (z_p z)), z)
  else (char2int (vget 0 (z_buff z) (z_p z)), z).

(** [memcpy(b, z->p, m)], the bytes that the block has *)
Definition block_at (buff : bytes) (p m : Z) : bytes :=
  take (Z.to_nat (Z.min m (Z.of_nat (length buff)))) (drop (Z.to_nat p) buff).

(** returns the bytes copied to [b], the number of missing bytes and the stream; every
    iteration but the last uses up a block *)
Fixpoint read_loop (fuel : nat) (z : ZIO) (b : bytes) (n : Z) : res (bytes * Z * ZIO) :=
  match fuel with
  | O => Err Fuel
  | S fuel' =>
      if n =? 0 then Ok (b, 0, z)
      else
        let '(c, z) := gafqZ_lookahead z in
        if c =? EOZ then Ok (b, n, z)
        else
          let m := if n <=? z_n z then n else z_n z in
          let b := b ++ block_at (z_buff z) (z_p z) m in
          let z := mkZIO (z_n z - m) (z_buff z) (z_p z + m) (z_data z) in
          read_loop fuel' z b (n - m)
  end.

Definition gafqZ_read (z : ZIO) (n : Z) : res (bytes * Z * ZIO) :=
  read_loop (S (S (S (length (z_data z))))) z [] n.

(** ** The stream as a list of bytes *)

(** the blocks up to the first empty one *)
Fixpoint stream (data : list bytes) : bytes :=
  match data with
  | [] => []
  | b :: data' => match b with [] => [] | _ => b ++ stream data' end
  end.

(** the bytes still to be read *)
Definition pending (z : ZIO) : bytes :=
  block_at (z_buff z) (z_p z) (z_n z) ++ stream (z_data z).

Record zok (z : ZIO) : Prop := {
  z_pos : 0 <= z_p z;
  z_left : 0 <= z_n z /\ z_p z + z_n z = Z.of_nat (length (z_buff z));
  z_size : Forall (fun b => Z.of_nat (length b) < SIZE_MOD) (z_buff z :: z_data z);
  z_bytes : Forall is_byte (z_buff z) /\ Forall (Forall is_byte) (z_data z)
}.

Lemma char2int_id c : is_byte c -> char2int c = c.
Proof. apply u8_id. Qed.

Lemma block_at_take buff p m : block_at buff p m = take (Z.to_nat m) (drop (Z.to_nat p) buff).
Proof.
  unfold block_at. destruct (Z.le_ge_cases m (Z.of_nat (length buff))).
  - by rewrite Z.min_l.
  - rewrite Z.min_r by done. rewrite !take_ge; [done|rewrite length_drop; lia..].
Qed.

Lemma block_at_cons buff p n :
  0 <= p -> 0 < n -> p + n <= Z.of_nat (length buff) ->
  block_at buff p n = vget 0 buff p :: block_at buff (p + 1) (n - 1).
Proof.
  intros Hp Hn Hl. rewrite !block_at_take. unfold vget. destruct (Z.ltb_spec p 0); [lia|].
  destruct (lookup_lt_is_Some_2 buff (Z.to_nat p)) as [c Hc]; [lia|].
  rewrite (drop_S _ c) by done. rewrite nth_lookup, Hc. simpl.
  replace (Z.to_nat n) with (S (Z.to_nat (n - 1))) by lia.
  by replace (Z.to_nat (p + 1)) with (S (Z.to_nat p)) by lia.
Qed.

Lemma vget_byte buff p : Forall is_byte buff -> is_byte (vget 0 buff p).
Proof.
  intros H. unfold vget, is_byte. destruct (p <? 0); [lia|].
  destruct (nth_in_or_default (Z.to_nat p) buff 0) as [Hi| ->]; [|lia].
  rewrite Forall_forall in H. by apply H, list_elem_of_In.
Qed.

Lemma zok_init data :
  Forall (fun b => Z.of_nat (length b) < SIZE_MOD) data -> Forall (Forall is_byte) data ->
  zok (gafqZ_init data) /\ pending (gafqZ_init data) = stream data.
Proof.
  intros H1 H2. split; [|done]. split; simpl; try done.
  by constructor.
Qed.

(** a refill of an exhausted stream *)
Lemma fill_spec z :
  zok z -> z_n z = 0 ->
  match pending z with
  | [] => (gafqZ_fill z).1 = EOZ /\ zok (gafqZ_fill z).2
  | c :: r => (gafqZ_fill z).1 = c /\ is_byte c /\ zok (gafqZ_fill z).2 /\ pending (gafqZ_fill z).2 = r /\
              z_p (gafqZ_fill z).2 = 1 /\ (0 < length (z_buff (gafqZ_fill z).2))%nat /\
              vget 0 (z_buff (gafqZ_fill z).2) 0 = c /\ z_data z = z_buff (gafqZ_fill z).2 :: z_data (gafqZ_fill z).2
  end.
Proof.
  intros [Hp Hl Hs Hb] Hn. unfold pending, gafqZ_fill. rewrite Hn.
  rewrite block_at_take. simpl. destruct (z_data z) as [|buff data] eqn:Ed; simpl.
  - split; [done|]. split; rewrite ?Ed; auto.
  - inversion Hs as [|? ? Hs1 Hs2]; subst. inversion Hs2 as [|? ? Hs3 Hs4]; subst.
    destruct Hb as [Hb1 Hb2]. inversion Hb2 as [|? ? Hb3 Hb4]; subst.
    destruct buff as [|c buff]; simpl.
    + split; [done|]. split; simpl; auto. lia.
    + inversion Hb3; subst. rewrite char2int_id by done. rewrite block_at_take. simpl.
      rewrite drop_0. replace (Z.to_nat (Z.of_nat (S (length buff)) - 1)) with (length buff) by lia.
      rewrite take_ge by lia. split; [done|]. split; [done|]. split; [|split; [done|]].
      * split; simpl; [lia|lia|by constructor|by split].
      * split; [done|]. split; [lia|done].
Qed.

Lemma zgetc_spec z :
  zok z ->
  match pending z with
  | [] => (zgetc z).1 = EOZ
  | c :: r => (zgetc z).1 = c /\ is_byte c /\ zok (zgetc z).2 /\ pending (zgetc z).2 = r
  end.
Proof.
  intros Hz. pose proof Hz as [Hp [Hn Hl] Hs Hb]. unfold zgetc.
  destruct (Z.ltb_spec 0 (z_n z)) as [L|L].
  - unfold pending. rewrite block_at_cons by lia. simpl.
    inversion Hs as [|? ? Hs1 _]; subst.
    assert (is_byte (vget 0 (z_buff z) (z_p z))) as Hbyte by (apply vget_byte, Hb).
    rewrite char2int_id by done. unfold size_t. rewrite Z.mod_small by lia.
    split; [done|]. split; [done|]. split; [|done]. split; simpl; try done; lia.
  - assert (z_n z = 0) as En by lia.
    pose proof (fill_spec z Hz En) as H. revert H.
    unfold pending, gafqZ_fill. simpl. rewrite En, !block_at_take. destruct (z_data z) as [|buff data] eqn:Ed; simpl; [done|].
    destruct buff; simpl; [done|]. intros (H1 & H2 & H3 & H4 & _). done.
Qed.

(** [zgetc] delivers the bytes of the reader's blocks in order, as unsigned values, and
    the end-of-stream mark when and only when none is left. *)
Theorem zgetc_stream z :
  zok z ->
  match pending z with
  | [] => (zgetc z).1 = EOZ
  | c :: r => (zgetc z).1 = c /\ zok (zgetc z).2 /\ pending (zgetc z).2 = r
  end.
Proof. intros Hz. pose proof (zgetc_spec z Hz) as H. destruct (pending z); [done|]. naive_solver. Qed.

Lemma lookahead_spec z :
  zok z ->
  match pending z with
  | [] => (gafqZ_lookahead z).1 = EOZ
  | c :: r => (gafqZ_lookahead z).1 = c /\ is_byte c /\ zok (gafqZ_lookahead z).2 /\
              pending (gafqZ_lookahead z).2 = c :: r /\ 0 < z_n (gafqZ_lookahead z).2 /\
              (z_n z = 0 /\ (exists b, z_data z = b :: z_data (gafqZ_lookahead z).2) \/
               gafqZ_lookahead z = (c, z))
  end.
Proof.
  intros Hz. pose proof Hz as [Hp [Hn Hl] Hs Hb]. unfold gafqZ_lookahead.
  destruct (Z.eqb_spec (z_n z) 0) as [E|E].
  - pose proof (fill_spec z Hz E) as H. destruct (gafqZ_fill z) as [c' z'] eqn:Ef. simpl in H.
    destruct (pending z) as [|c r] eqn:Ep; [by destruct H as [-> _]|].
    destruct H as (-> & Hc & Hz' & Hr & Hp1 & Hlen & Hv & Hd).
    destruct (Z.eqb_spec c EOZ) as [->|Hne]; [unfold is_byte, EOZ in Hc; lia|].
    pose proof Hz' as [Hp' [Hn' Hl'] Hs' Hb']. pose proof (Forall_inv Hs') as Hs1'. simpl in Hs1'.
    assert (size_t (z_n z' + 1) = z_n z' + 1) as En by (unfold size_t; apply Z.mod_small; lia).
    simpl. rewrite En, Hp1. change (1 - 1) with 0. rewrite Hv, char2int_id by done.
    split; [done|]. split; [done|]. split; [|split; [|split; [lia|left; eauto]]].
    + split; simpl; try done; lia.
    + unfold pending in *. simpl. rewrite block_at_cons by lia. rewrite Hv. simpl.
      rewrite Hp1 in Hr. change (0 + 1) with 1. replace (z_n z' + 1 - 1) with (z_n z') by lia.
      by rewrite Hr.
  - unfold pending in *. rewrite block_at_cons by lia. simpl.
    assert (is_byte (vget 0 (z_buff z) (z_p z))) as Hbyte by (apply vget_byte, Hb).
    rewrite char2int_id by done. split; [done|]. split; [done|]. split; [done|].
    rewrite block_at_cons by lia. split; [done|]. split; [lia|by right].
Qed.

(** the number of iterations [gafqZ_read] can still make *)
Definition read_steps (z : ZIO) (n : Z) : nat :=
  if n =? 0 then 0%nat else (length (z_data z) + (if (z_n z =? 0)%Z then 0 else 1) + 1)%nat.

Lemma block_split buff p n m :
  0 <= p -> 0 <= m <= n ->
  block_at buff p n = block_at buff p m ++ block_at buff (p + m) (n - m).
Proof.
  intros Hp Hm. rewrite !block_at_take.
  rewrite <- (take_drop (Z.to_nat m) (take (Z.to_nat n) _)), take_take, Nat.min_l by lia.
  f_equal. rewrite skipn_firstn_comm, drop_drop.
  replace (Z.to_nat n - Z.to_nat m)%nat with (Z.to_nat (n - m)) by lia.
  by replace (Z.to_nat p + Z.to_nat m)%nat with (Z.to_nat (p + m)) by lia.
Qed.

Lemma read_loop_spec fuel z b n :
  zok z -> 0 <= n -> (read_steps z n < fuel)%nat ->
  exists z', read_loop fuel z b n =
    Ok (b ++ take (Z.to_nat n) (pending z), n - Z.min n (Z.of_nat (length (pending z))), z') /\
    (n <= Z.of_nat (length (pending z)) -> zok z' /\ pending z' = drop (Z.to_nat n) (pending z)).
Proof.
  revert z b n. induction fuel as [|fuel IH]; intros z b n Hz Hn Hf; [lia|]. cbn [read_loop].
  unfold read_steps in Hf. destruct (Z.eqb_spec n 0) as [->|Hn0].
  { exists z. rewrite app_nil_r, drop_0. rewrite Z.min_l by lia. done. }
  pose proof (lookahead_spec z Hz) as H. destruct (gafqZ_lookahead z) as [c' z1] eqn:El.
  cbn [fst snd] in H. destruct (pending z) as [|c r] eqn:Ep.
  { rewrite H. simpl. exists z1. rewrite take_nil, app_nil_r.
    split; [do 3 f_equal; lia|]. simpl. lia. }
  destruct H as (-> & Hc & Hz1 & Hp1 & Hpos & Hcase).
  destruct (Z.eqb_spec c EOZ) as [->|_]; [unfold is_byte, EOZ in Hc; lia|].
  set (m := if n <=? z_n z1 then n else z_n z1).
  assert (0 < m <= z_n z1 /\ m <= n /\ (m = n \/ m = z_n z1)) as (Hm1 & Hm2 & Hm3)
    by (subst m; destruct (Z.leb_spec n (z_n z1)); lia).
  set (z2 := mkZIO _ _ _ _). pose proof Hz1 as [Hzp [Hzn Hzl] Hzs Hzb].
  assert (zok z2) as Hz2 by (split; simpl; try done; lia).
  set (blk := block_at (z_buff z1) (z_p z1) m).
  assert (c :: r = blk ++ pending z2) as Esplit.
  { rewrite <- Hp1. unfold pending, blk, z2. simpl. rewrite app_assoc. f_equal.
    apply block_split; lia. }
  assert (length blk = Z.to_nat m) as Hlb
    by (unfold blk; rewrite block_at_take, length_take, length_drop; lia).
  destruct (IH z2 (b ++ blk) (n - m) Hz2 ltac:(lia)) as (z' & E & H').
  { unfold read_steps. simpl. destruct (Z.eqb_spec (n - m) 0); [lia|].
    replace (z_n z1 - m) with 0 by lia. simpl.
    destruct Hcase as [[E0 [x Ex]]|Ez]; [rewrite E0, Ex in Hf; simpl in Hf; lia|].
    injection Ez as ->. destruct (Z.eqb_spec (z_n z) 0); lia. }
  exists z'. rewrite E, Esplit, length_app. split.
  - do 3 f_equal; [|lia]. rewrite <- app_assoc. f_equal.
    rewrite take_app_ge by lia. do 2 f_equal. lia.
  - intros Hle. rewrite drop_app_ge by lia. rewrite Hlb.
    replace (Z.to_nat n - Z.to_nat m)%nat with (Z.to_nat (n - m)) by lia. apply H'. lia.
Qed.

(** [gafqZ_read(z, b, n)] terminates, copies the next [min n available] bytes of the
    stream across block boundaries, returns the number of missing bytes, and when none is
    missing leaves the stream just after the bytes read. *)
Theorem read_stream z n :
  zok z -> 0 <= n ->
  exists z', gafqZ_read z n =
    Ok (take (Z.to_nat n) (pending z), n - Z.min n (Z.of_nat (length (pending z))), z') /\
    (n <= Z.of_nat (length (pending z)) -> zok z' /\ pending z' = drop (Z.to_nat n) (pending z)).
Proof.
  intros Hz Hn. apply (read_loop_spec _ z [] n Hz Hn).
  unfold read_steps. destruct (n =? 0), (z_n z =? 0); lia.
Qed.

(** ** A concrete stream *)

Definition zio_abc : ZIO := gafqZ_init [str "ab"; str "c"].

Lemma zio_abc_ok : zok zio_abc.
Proof.
  apply zok_init; repeat constructor; vm_compute; intros [=].
Qed.

Lemma zgetc_stream_witness : (zgetc zio_abc).1 = chr "a" /\ pending (zgetc zio_abc).2 = str "bc".
Proof.
  pose proof (zgetc_stream zio_abc zio_abc_ok) as (H1 & _ & H3). split; [exact H1|exact H3].
Defined.

Lemma read_stream_witness :
  exists z', gafqZ_read zio_abc 3 = Ok (str "abc", 0, z') /\ pending z' = [].
Proof.
  destruct (read_stream zio_abc 3 zio_abc_ok) as (z' & E & H); [lia|].
  exists z'. split; [exact E|]. apply H. vm_compute. intros [=].
Defined.
