(* ===== verification/Proto.v ===== *)
(** * Function prototypes: [Proto] of gobject.h

    The vectors of a prototype are lists, their [size...] fields the lengths.
    A [TString *] is represented by the contents of the string ([None] for
    [NULL]): strings are interned, so equal pointers are equal contents
    (StringTable.v). *)

From S2P Require Import Prelude Number Object Opcodes.

(** the values a constant can have *)
Inductive Constant :=
  | KNil
  | KBoolean (b : Z)
  | KNumber (n : gafq_Number)
  | KString (s : option bytes).

Definition ktype (k : Constant) : Z :=
  match k with
  | KNil => GAFQ_TNIL
  | KBoolean _ => GAFQ_TBOOLEAN
  | KNumber _ => GAFQ_TNUMBER
  | KString _ => GAFQ_TSTRING
  end.

Record LocVar := mkLocVar {
  varname : option bytes;
  startpc : Z;
  endpc : Z
}.

Inductive Proto := mkProto {
  k : list Constant;
  code : list Z;
  p : list Proto;
  lineinfo : list Z;
  locvars : list LocVar;
  upvalues : list (option bytes);
  source : option bytes;
  linedefined : Z;
  lastlinedefined : Z;
  nups : Z;
  numparams : Z;
  is_vararg : Z;
  maxstacksize : Z
}.

Definition sizek (f : Proto) : Z := Z.of_nat (length (k f)).
Definition sizecode (f : Proto) : Z := Z.of_nat (length (code f)).
Definition sizep (f : Proto) : Z := Z.of_nat (length (p f)).
Definition sizelineinfo (f : Proto) : Z := Z.of_nat (length (lineinfo f)).
Definition sizelocvars (f : Proto) : Z := Z.of_nat (length (locvars f)).
Definition sizeupvalues (f : Proto) : Z := Z.of_nat (length (upvalues f)).

Definition VARARG_HASARG : Z := 1.
Definition VARARG_ISVARARG : Z := 2.
Definition VARARG_NEEDSARG : Z := 4.

(** a bit mask is set *)
Definition testbits (x m : Z) : bool := negb (Z.land x m =? 0).

(** induction over nested prototypes *)
Lemma Proto_nested_ind (P : Proto -> Prop) :
  (forall f, Forall P (p f) -> P f) -> forall f, P f.
Proof.
  intros H. fix IH 1. intros f. apply H. destruct f as [? ? ps]. simpl.
  induction ps as [|g ps IHps]; constructor; [apply IH|apply IHps].
Qed.
