(* ===== verification/CheckCode.v ===== *)
(** * The bytecode verifier: gdebug.c

    [symbexec] scans the code of a function; called by [gafqG_checkcode] with
    [reg == NO_REG] it checks every instruction, called with a register it
    finds the last instruction that changed it.  A failed [check] makes it
    return 0, here [Reject]; a read outside a vector of the prototype, which
    C leaves undefined, is [OutOfBounds]. *)

From S2P Require Import Prelude Number Object Opcodes Proto.

Inductive verdict (A : Type) := Pass (a : A) | Reject | OutOfBounds.
Arguments Pass {A} a.
Arguments Reject {A}.
Arguments OutOfBounds {A}.

#[export] Instance verdict_bind : MBind verdict := fun A B f m =>
  match m with Pass a => f a | Reject => Reject | OutOfBounds => OutOfBounds end.

Definition check (b : bool) : verdict unit := if b then Pass tt else Reject.

(** reading a vector of the prototype *)
Definition vread {A} (l : list A) (i : Z) : verdict A :=
  if i <? 0 then OutOfBounds
  else match l !! Z.to_nat i with Some x => Pass x | None => OutOfBounds end.


Definition is_op (i : Z) (o : OpCode) : bool := GET_OPCODE i =? op_num o.

Definition checkreg (pt : Proto) (reg : Z) : verdict unit := check (reg <? maxstacksize pt).

Definition precheck (pt : Proto) : verdict unit :=
  _ ← check (maxstacksize pt <=? MAXSTACK);
  _ ← check (numparams pt + Z.land (is_vararg pt) VARARG_HASARG <=? maxstacksize pt);
  _ ← check (negb (testbits (is_vararg pt) VARARG_NEEDSARG) || testbits (is_vararg pt) VARARG_HASARG);
  _ ← check (sizeupvalues pt <=? nups pt);
  _ ← check ((sizelineinfo pt =? sizecode pt) || (sizelineinfo pt =? 0));
  _ ← check (0 <? sizecode pt);
  i ← vread (code pt) (sizecode pt - 1);
  check (is_op i OP_RETURN).

Definition gafqG_checkopenop (i : Z) : verdict unit :=
  if is_op i OP_CALL || is_op i OP_TAILCALL || is_op i OP_RETURN || is_op i OP_SETLIST
  then check (GETARG_B i =? 0)
  else Reject.

Definition checkopenop (pt : Proto) (pc : Z) : verdict unit :=
  i ← vread (code pt) (pc + 1);
  gafqG_checkopenop i.

Definition checkArgMode (pt : Proto) (r : Z) (mode : OpArgMask) : verdict unit :=
  match mode with
  | OpArgN => check (r =? 0)
  | OpArgU => Pass tt
  | OpArgR => checkreg pt r
  | OpArgK => check (if ISK r then INDEXK r <? sizek pt else r <? maxstacksize pt)
  end.

Definition is_open_setlist (d : Z) : bool := is_op d OP_SETLIST && (GETARG_C d =? 0).

(** [for (j = 0; j < dest; j++) if (!open_setlist(code[dest-1-j])) break;]: the value of [j];
    [n] is [dest - j] *)
Fixpoint count_setlists (pt : Proto) (n : nat) (j : Z) : verdict Z :=
  match n with
  | O => Pass j
  | S n' =>
      d ← vread (code pt) (Z.of_nat n');
      if negb (is_open_setlist d) then Pass j else count_setlists pt n' (j + 1)
  end.

(** the operands [b] and [c] of an instruction, checked by its format *)
Definition operands (pt : Proto) (pc i op : Z) : verdict (Z * Z) :=
  match getOpMode op with
  | iABC =>
      let b := GETARG_B i in
      let c := GETARG_C i in
      _ ← checkArgMode pt b (getBMode op);
      _ ← checkArgMode pt c (getCMode op);
      Pass (b, c)
  | iABx =>
      let b := GETARG_Bx i in
      _ ← (if bool_decide (getBMode op = OpArgK) then check (b <? sizek pt) else Pass tt);
      Pass (b, 0)
  | iAsBx =>
      let b := GETARG_sBx i in
      _ ← (if bool_decide (getBMode op = OpArgR) then
             let dest := pc + 1 + b in
             _ ← check ((0 <=? dest) && (dest <? sizecode pt));
             if 0 <? dest then
               j ← count_setlists pt (Z.to_nat dest) 0;
               check (Z.land j 1 =? 0)
             else Pass tt
           else Pass tt);
      Pass (b, 0)
  end.

(** [for (j = 1; j <= nup; j++) { op1 = ...; check(op1 == OP_GETUPVAL || op1 == OP_MOVE); }] *)
Fixpoint check_pseudo (pt : Proto) (pc : Z) (nup : nat) (j : Z) : verdict unit :=
  match nup with
  | O => Pass tt
  | S nup' =>
      i ← vread (code pt) (pc + j);
      _ ← check (is_op i OP_GETUPVAL || is_op i OP_MOVE);
      check_pseudo pt pc nup' (j + 1)
  end.

(** [switch (op)]: the new values of [pc] and [last] *)
Definition exec_op (pt : Proto) (lastpc reg : Z) (o : OpCode) (pc last a b c : Z) : verdict (Z * Z) :=
  let jump :=
    let dest := pc + 1 + b in
    if negb (reg =? NO_REG) && (pc <? dest) && (dest <=? lastpc) then Pass (pc + b, last)
    else Pass (pc, last) in
  match o with
  | OP_LOADBOOL =>
      if c =? 1 then
        _ ← check (pc + 2 <? sizecode pt);
        i ← vread (code pt) (pc + 1);
        _ ← check (negb (is_op i OP_SETLIST) || negb (GETARG_C i =? 0));
        Pass (pc, last)
      else Pass (pc, last)
  | OP_LOADNIL => Pass (pc, if (a <=? reg) && (reg <=? b) then pc else last)
  | OP_GETUPVAL | OP_SETUPVAL => _ ← check (b <? nups pt); Pass (pc, last)
  | OP_GETGLOBAL | OP_SETGLOBAL =>
      kb ← vread (k pt) b;
      _ ← check (ktype kb =? GAFQ_TSTRING);
      Pass (pc, last)
  | OP_SELF => _ ← checkreg pt (a + 1); Pass (pc, if reg =? a + 1 then pc else last)
  | OP_CONCAT => _ ← check (b <? c); Pass (pc, last)
  | OP_TFORLOOP =>
      _ ← check (1 <=? c);
      _ ← checkreg pt (a + 2 + c);
      Pass (pc, if a + 2 <=? reg then pc else last)
  | OP_FORLOOP | OP_FORPREP => _ ← checkreg pt (a + 3); jump
  | OP_JMP => jump
  | OP_CALL | OP_TAILCALL =>
      _ ← (if negb (b =? 0) then checkreg pt (a + b - 1) else Pass tt);
      let c := c - 1 in
      _ ← (if c =? GAFQ_MULTRET then checkopenop pt pc
           else if negb (c =? 0) then checkreg pt (a + c - 1) else Pass tt);
      Pass (pc, if a <=? reg then pc else last)
  | OP_RETURN =>
      let b := b - 1 in
      _ ← (if 0 <? b then checkreg pt (a + b - 1) else Pass tt);
      Pass (pc, last)
  | OP_SETLIST =>
      _ ← (if 0 <? b then checkreg pt (a + b) else Pass tt);
      if c =? 0 then
        let pc := pc + 1 in
        _ ← check (pc <? sizecode pt - 1);
        Pass (pc, last)
      else Pass (pc, last)
  | OP_CLOSURE =>
      _ ← check (b <? sizep pt);
      f ← vread (p pt) b;
      let nup := nups f in
      _ ← check (pc + nup <? sizecode pt);
      _ ← check_pseudo pt pc (Z.to_nat nup) 1;
      Pass (if negb (reg =? NO_REG) then pc + nup else pc, last)
  | OP_VARARG =>
      _ ← check (testbits (is_vararg pt) VARARG_ISVARARG && negb (testbits (is_vararg pt) VARARG_NEEDSARG));
      let b := b - 1 in
      _ ← (if b =? GAFQ_MULTRET then checkopenop pt pc else Pass tt);
      _ ← checkreg pt (a + b - 1);
      Pass (pc, last)
  | _ => Pass (pc, last)
  end.

(** the body of the loop of [symbexec] *)
Definition symb_step (pt : Proto) (lastpc reg pc last : Z) : verdict (Z * Z) :=
  i ← vread (code pt) pc;
  let op := GET_OPCODE i in
  let a := GETARG_A i in
  _ ← check (op <? NUM_OPCODES);
  _ ← checkreg pt a;
  '(b, c) ← operands pt pc i op;
  let last := if testAMode op then if a =? reg then pc else last else last in
  _ ← (if testTMode op then
         _ ← check (pc + 2 <? sizecode pt);
         i1 ← vread (code pt) (pc + 1);
         check (is_op i1 OP_JMP)
       else Pass tt);
  match op_of op with
  | Some o => exec_op pt lastpc reg o pc last a b c
  | None => Pass (pc, last)
  end.

(** [for (pc = 0; pc < lastpc; pc++)]; [pc] grows in every iteration *)
Fixpoint symb_loop (fuel : nat) (pt : Proto) (lastpc reg pc last : Z) : verdict Z :=
  match fuel with
  | O => Reject
  | S fuel' =>
      if pc <? lastpc then
        '(pc, last) ← symb_step pt lastpc reg pc last;
        symb_loop fuel' pt lastpc reg (pc + 1) last
      else vread (code pt) last
  end.

Definition symbexec (pt : Proto) (lastpc reg : Z) : verdict Z :=
  let last := sizecode pt - 1 in
  _ ← precheck pt;
  symb_loop (S (length (code pt))) pt lastpc reg 0 last.

Definition gafqG_checkcode (pt : Proto) : verdict bool :=
  match symbexec pt (sizecode pt) NO_REG with
  | Pass i => Pass (negb (i =? 0))
  | Reject => Pass false
  | OutOfBounds => OutOfBounds
  end.
