(* ===== verification/CheckSafe.v ===== *)
(** * The verifier reads inside the prototype

    [symbexec] (gdebug.c) never reads outside the vectors of the prototype it
    checks, whatever the code: each read is guarded by an earlier check.  Then what
    acceptance guarantees for the instructions that the virtual machine can reach. *)

From S2P Require Import Prelude Number Opcodes Object Proto CheckCode.

(** [m] reads in bounds, and its result satisfies [Q] *)
Definition safe {A} (m : verdict A) (Q : A -> Prop) : Prop :=
  match m with Pass a => Q a | Reject => True | OutOfBounds => False end.

Lemma safe_bind {A B} (m : verdict A) (f : A -> verdict B) (P : A -> Prop) (Q : B -> Prop) :
  safe m P -> (forall a, P a -> safe (f a) Q) -> safe (m ≫= f) Q.
Proof. destruct m; simpl; auto. Qed.

Lemma safe_mono {A} (m : verdict A) (P Q : A -> Prop) :
  safe m P -> (forall a, P a -> Q a) -> safe m Q.
Proof. destruct m; simpl; auto. Qed.

Lemma safe_check b : safe (check b) (fun _ => b = true).
Proof. by destruct b. Qed.

Lemma vread_pass {A} (l : list A) i x :
  vread l i = Pass x <-> 0 <= i /\ l !! Z.to_nat i = Some x.
Proof.
  unfold vread. destruct (Z.ltb_spec i 0); [split; [done|lia]|].
  destruct (l !! Z.to_nat i); [|by split; [|intros [_ ?]]].
  split; [by intros [= ->]|]. by intros [_ [= ->]].
Qed.

Lemma safe_vread {A} (l : list A) i :
  0 <= i < Z.of_nat (length l) -> safe (vread l i) (fun x => l !! Z.to_nat i = Some x).
Proof.
  intros H. unfold vread. destruct (Z.ltb_spec i 0); [lia|].
  destruct (lookup_lt_is_Some_2 l (Z.to_nat i)) as [x E]; [lia|]. by rewrite E.
Qed.

(** one step through a [safe] goal *)
Ltac safe_step :=
  match goal with
  | |- safe (check _ ≫= _) _ => eapply safe_bind; [apply safe_check|intros [] ?]
  | |- safe (checkreg _ _ ≫= _) _ => eapply safe_bind; [apply safe_check|intros [] ?]
  | |- safe (vread _ _ ≫= _) _ => eapply safe_bind; [apply safe_vread|let H := fresh in intros ? H; cbv beta in H]
  | |- safe (check _) _ => eapply safe_mono; [apply safe_check|intros [] ?]
  | |- safe (checkreg _ _) _ => eapply safe_mono; [apply safe_check|intros [] ?]
  | |- safe (Pass _ ≫= _) _ => simpl
  | |- safe (if ?b then _ else _) _ => destruct b eqn:?
  | |- safe ((if ?b then _ else _) ≫= _) _ => destruct b eqn:?
  | |- safe (let _ := _ in _) _ => cbv zeta
  | |- safe Reject _ => exact I
  end.

Section Safe.

Variable pt : Proto.
Hypothesis Hnups : Forall (fun f => 0 <= nups f) (p pt).

(** what [precheck] establishes *)
Record prechecked : Prop := {
  pre_size : 0 < sizecode pt;
  pre_max : maxstacksize pt <= MAXSTACK;
  pre_last i : code pt !! Z.to_nat (sizecode pt - 1) = Some i -> is_op i OP_RETURN = true
}.

Lemma precheck_safe : safe (precheck pt) (fun _ => prechecked).
Proof.
  unfold precheck. repeat safe_step; [unfold sizecode in *; zify; lia|].
  split; [lia|lia|]. intros j Hj. congruence.
Qed.

Hypothesis Hpre : prechecked.

(** only the final return is at the end of the code *)
Lemma not_last pc i o :
  code pt !! Z.to_nat pc = Some i -> 0 <= pc -> is_op i o = true -> o <> OP_RETURN ->
  pc + 1 < sizecode pt.
Proof.
  intros Hi Hpc Ho Hne. assert (Z.to_nat pc < length (code pt))%nat by (by eapply lookup_lt_Some).
  destruct (decide (pc = sizecode pt - 1)) as [->|]; [|unfold sizecode in *; lia].
  exfalso. apply Hne. pose proof (pre_last Hpre i Hi) as Hr.
  unfold is_op in *. apply Z.eqb_eq in Ho, Hr. rewrite Hr in Ho. by destruct o.
Qed.

Lemma checkopenop_safe pc :
  0 <= pc -> pc + 1 < sizecode pt -> safe (checkopenop pt pc) (fun _ => True).
Proof.
  intros H1 H2. unfold checkopenop, gafqG_checkopenop. repeat safe_step; done || (unfold sizecode in *; lia).
Qed.

Lemma checkArgMode_safe r m : safe (checkArgMode pt r m) (fun _ => True).
Proof. destruct m; simpl; repeat safe_step; done. Qed.

Lemma count_setlists_safe n j :
  (n <= length (code pt))%nat -> safe (count_setlists pt n j) (fun _ => True).
Proof.
  revert j. induction n as [|n IH]; intros j Hn; simpl; [done|].
  repeat safe_step; [lia|done|]. apply IH. lia.
Qed.

Lemma operands_safe pc i o :
  0 <= pc -> GET_OPCODE i = op_num o ->
  safe (operands pt pc i (GET_OPCODE i))
    (fun bc => (o = OP_GETGLOBAL \/ o = OP_SETGLOBAL) -> 0 <= bc.1 < sizek pt).
Proof.
  intros Hpc E. unfold operands. destruct (GETARG_range i) as (_ & _ & _ & _ & HBx).
  destruct (getOpMode (GET_OPCODE i)) eqn:Em.
  - do 2 (eapply safe_bind; [apply checkArgMode_safe|intros _ _]).
    intros [-> | ->]; rewrite E in Em; vm_compute in Em; discriminate.
  - cbv zeta. destruct (bool_decide (getBMode (GET_OPCODE i) = OpArgK)) eqn:Eb.
    + safe_step. simpl. intros _. lia.
    + simpl. intros [-> | ->]; rewrite E in Eb; vm_compute in Eb; discriminate.
  - assert (forall b, (o = OP_GETGLOBAL \/ o = OP_SETGLOBAL) -> 0 <= b < sizek pt) as Hx.
    { intros b [-> | ->]; rewrite E in Em; vm_compute in Em; discriminate. }
    cbv zeta. destruct (bool_decide (getBMode (GET_OPCODE i) = OpArgR)); [|simpl; apply Hx].
    eapply (safe_bind _ _ (fun _ => True)); [|intros _ _; simpl; apply Hx].
    repeat safe_step; [|done].
    eapply safe_bind; [apply count_setlists_safe|intros j _].
    + apply andb_prop in H as [_ H]. unfold sizecode in H. lia.
    + safe_step. done.
Qed.

Lemma operands_bounds pc i o :
  0 <= pc -> GET_OPCODE i = op_num o ->
  safe (operands pt pc i (GET_OPCODE i))
    (fun bc => ((o = OP_GETGLOBAL \/ o = OP_SETGLOBAL) -> 0 <= bc.1 < sizek pt) /\
               (o = OP_CLOSURE -> 0 <= bc.1)).
Proof.
  intros Hpc E. pose proof (operands_safe pc i o Hpc E) as H.
  destruct (operands pt pc i (GET_OPCODE i)) as [[b c]| |] eqn:Eo; simpl in *; [|done..].
  split; [done|]. intros ->. unfold operands in Eo. rewrite E in Eo.
  change (getOpMode (op_num OP_CLOSURE)) with iABx in Eo.
  change (getBMode (op_num OP_CLOSURE)) with OpArgU in Eo. simpl in Eo.
  injection Eo as <- _. apply GETARG_range.
Qed.

Lemma check_pseudo_safe pc n j :
  0 <= pc + j -> pc + j + Z.of_nat n <= sizecode pt -> safe (check_pseudo pt pc n j) (fun _ => True).
Proof.
  revert j. induction n as [|n IH]; intros j H1 H2; simpl; [done|].
  repeat safe_step; [unfold sizecode in *; lia|]. apply IH; lia.
Qed.

(** the result of a step: [pc] does not go back and [last] stays inside the code *)
Definition step_ok (pc : Z) (r : Z * Z) : Prop := pc <= r.1 /\ 0 <= r.2 < sizecode pt.

Lemma open_call pc last (reg a i : Z) o :
  0 <= pc < sizecode pt -> 0 <= last < sizecode pt ->
  code pt !! Z.to_nat pc = Some i -> is_op i o = true -> (o = OP_CALL \/ o = OP_TAILCALL) ->
  safe (checkopenop pt pc ≫= fun _ => Pass (pc, if a <=? reg then pc else last)) (step_ok pc).
Proof.
  intros Hpc Hlast Hi Ho Hc. eapply safe_bind; [apply checkopenop_safe; [lia|]|].
  - apply (not_last pc i o); [done|lia|done|]. by destruct Hc as [-> | ->].
  - intros _ _. unfold step_ok. simpl. case_match; lia.
Qed.

Lemma exec_op_safe lastpc reg o pc last a b c i :
  0 <= pc < sizecode pt -> 0 <= last < sizecode pt ->
  code pt !! Z.to_nat pc = Some i -> GET_OPCODE i = op_num o ->
  ((o = OP_GETGLOBAL \/ o = OP_SETGLOBAL) -> 0 <= b < sizek pt) ->
  (o = OP_CLOSURE -> 0 <= b) ->
  safe (exec_op pt lastpc reg o pc last a b c) (step_ok pc).
Proof.
  intros Hpc Hlast Hi Ho Hg Hc. unfold step_ok.
  assert (is_op i o = true) as Hio by (unfold is_op; by apply Z.eqb_eq).
  destruct o; cbn [exec_op]; repeat safe_step; simpl; try (repeat case_match; lia); try (apply Hg; auto).
  - unfold sizecode in *. lia.
  - apply (open_call pc last reg a i _ Hpc Hlast Hi Hio); auto.
  - apply (open_call pc last reg a i _ Hpc Hlast Hi Hio); auto.
  - apply (open_call pc last reg a i _ Hpc Hlast Hi Hio); auto.
  - apply (open_call pc last reg a i _ Hpc Hlast Hi Hio); auto.
  - specialize (Hc eq_refl). unfold sizep in *. lia.
  - assert (0 <= nups a0) as Hn.
    { rewrite Forall_forall in Hnups. apply Hnups. by eapply list_elem_of_lookup_2. }
    eapply safe_bind; [apply check_pseudo_safe; lia|]. intros _ _. simpl. case_match; lia.
  - eapply safe_bind; [apply checkopenop_safe; [lia|]|].
    + by apply (not_last pc i OP_VARARG); [|lia|..].
    + intros _ _. safe_step. simpl. lia.
Qed.

Lemma symb_step_safe lastpc reg pc last :
  0 <= pc < sizecode pt -> 0 <= last < sizecode pt ->
  safe (symb_step pt lastpc reg pc last) (step_ok pc).
Proof.
  intros Hpc Hlast. unfold symb_step. safe_step; [unfold sizecode in *; lia|]. rename a into i.
  cbv zeta. do 2 safe_step.
  destruct (GETARG_range i) as (HO & _ & _ & _ & HBx).
  destruct (op_of_Some (GET_OPCODE i)) as [o Eo]; [lia|]. pose proof (op_num_of _ _ Eo) as En.
  eapply safe_bind; [apply (operands_bounds pc i o); [lia|by symmetry]|]. intros [b c] Hb. cbn [fst] in Hb.
  eapply (safe_bind _ _ (fun _ => True)).
  { repeat safe_step; [unfold sizecode in *; lia|done|done]. }
  intros _ _. rewrite Eo. apply (exec_op_safe _ _ _ _ _ _ _ _ i); try done; [|tauto..].
  repeat case_match; lia.
Qed.

Lemma symb_loop_safe fuel lastpc reg pc last :
  lastpc <= sizecode pt -> 0 <= pc -> 0 <= last < sizecode pt ->
  safe (symb_loop fuel pt lastpc reg pc last) (fun _ => True).
Proof.
  intros Hl. revert pc last. induction fuel as [|fuel IH]; intros pc last Hpc Hlast; simpl; [done|].
  destruct (Z.ltb_spec pc lastpc).
  - eapply safe_bind; [apply symb_step_safe; lia|]. intros [pc' last'] [H1 H2]. simpl in *.
    apply IH; lia.
  - eapply safe_mono; [apply safe_vread; unfold sizecode in *; lia|done].
Qed.

End Safe.

(** C33: whatever bytes a precompiled function is made of, the verifier never reads outside
    its code, constants or nested functions, neither in a full check nor when it traces one
    register up to a given instruction. *)
Theorem symbexec_in_bounds pt lastpc reg :
  Forall (fun f => 0 <= nups f) (p pt) -> lastpc <= sizecode pt ->
  symbexec pt lastpc reg <> OutOfBounds.
Proof.
  intros Hn Hl E. assert (safe (symbexec pt lastpc reg) (fun _ => True)) as H; [|by rewrite E in H].
  unfold symbexec. eapply safe_bind; [apply precheck_safe|]. intros [] Hpre.
  pose proof (pre_size _ Hpre). apply symb_loop_safe; done || lia.
Qed.

(** a function that only returns *)
Definition return_proto : Proto :=
  mkProto [] [CREATE_ABC (op_num OP_RETURN) 0 1 0] [] [] [] [] None 0 0 0 0 0 2.

Lemma symbexec_in_bounds_witness : symbexec return_proto 1 0 <> OutOfBounds.
Proof. apply (symbexec_in_bounds return_proto 1 0); [constructor|vm_compute; intros [=]]. Defined.

(** * What a checked function can do

    The contract of [gafqG_checkcode] (gdebug.c) with the interpreter
    (gvm.c): in a function it accepts, every instruction the interpreter can
    reach lies inside the code, is an instruction and not the extra word of an
    [OP_SETLIST], and addresses registers, constants, upvalues and nested
    functions that exist.  One case escapes the verifier: an [OP_LOADBOOL] with
    [C >= 2], which the interpreter takes for a skip. *)

(** ** The instructions the interpreter runs *)

(** where the interpreter goes after the instruction [i] at [pc] (the changes of [pc] in
    [gafqV_execute]) *)
Definition successors (pt : Proto) (pc i : Z) (o : OpCode) : list Z :=
  match o with
  | OP_RETURN => []
  | OP_JMP | OP_FORPREP => [pc + 1 + GETARG_sBx i]
  | OP_FORLOOP => [pc + 1; pc + 1 + GETARG_sBx i]
  | OP_EQ | OP_LT | OP_LE | OP_TEST | OP_TESTSET | OP_TFORLOOP =>
      match code pt !! Z.to_nat (pc + 1) with
      | Some i1 => [pc + 2; pc + 2 + GETARG_sBx i1]
      | None => [pc + 2]
      end
  | OP_LOADBOOL => [if GETARG_C i =? 0 then pc + 1 else pc + 2]
  | OP_SETLIST => [if GETARG_C i =? 0 then pc + 2 else pc + 1]
  | OP_CLOSURE =>
      match p pt !! Z.to_nat (GETARG_Bx i) with
      | Some f => [pc + 1 + nups f]
      | None => []
      end
  | _ => [pc + 1]
  end.

Inductive runs (pt : Proto) : Z -> Prop :=
  | runs_start : runs pt 0
  | runs_step pc i o pc' :
      runs pt pc -> code pt !! Z.to_nat pc = Some i -> op_of (GET_OPCODE i) = Some o ->
      pc' ∈ successors pt pc i o -> runs pt pc'.

(** the operands that [RK(x)] reads *)
Definition rk_ok (pt : Proto) (x : Z) : Prop :=
  if ISK x then INDEXK x < sizek pt else x < maxstacksize pt.

(** the registers, constants, upvalues and functions an instruction names exist *)
Definition operands_ok (pt : Proto) (i : Z) (o : OpCode) : Prop :=
  let A := GETARG_A i in let B := GETARG_B i in let C := GETARG_C i in
  let reg r := r < maxstacksize pt in
  reg A /\
  match o with
  | OP_MOVE | OP_UNM | OP_NOT | OP_LEN | OP_TESTSET | OP_LOADNIL => reg B
  | OP_LOADK => GETARG_Bx i < sizek pt
  | OP_GETGLOBAL | OP_SETGLOBAL =>
      exists s, k pt !! Z.to_nat (GETARG_Bx i) = Some (KString s)
  | OP_GETUPVAL | OP_SETUPVAL => B < nups pt
  | OP_GETTABLE => reg B /\ rk_ok pt C
  | OP_SELF => reg (A + 1) /\ reg B /\ rk_ok pt C
  | OP_SETTABLE | OP_ADD | OP_SUB | OP_MUL | OP_DIV | OP_MOD | OP_POW
  | OP_EQ | OP_LT | OP_LE => rk_ok pt B /\ rk_ok pt C
  | OP_CONCAT => B < C /\ reg C
  | OP_CALL | OP_TAILCALL => (B <> 0 -> reg (A + B - 1)) /\ (C <> 0 -> C <> 1 -> reg (A + C - 2))
  | OP_RETURN => 1 < B -> reg (A + B - 2)
  | OP_FORLOOP | OP_FORPREP => reg (A + 3)
  | OP_TFORLOOP => 1 <= C /\ reg (A + 2 + C)
  | OP_SETLIST => 0 < B -> reg (A + B)
  | OP_CLOSURE => exists f, p pt !! Z.to_nat (GETARG_Bx i) = Some f
  | OP_VARARG => testbits (is_vararg pt) VARARG_ISVARARG = true /\ reg (A + B - 2)
  | _ => True
  end.

(** no [OP_LOADBOOL] has a [C] other than 0 and 1 *)
Definition loadbool_ok (pt : Proto) : Prop :=
  Forall (fun i => is_op i OP_LOADBOOL = true -> GETARG_C i <= 1) (code pt).

(** ** Taking apart a successful check *)

Lemma bind_pass {A B} (m : verdict A) (f : A -> verdict B) b :
  m ≫= f = Pass b -> exists a, m = Pass a /\ f a = Pass b.
Proof. destruct m; simpl; [eauto|discriminate..]. Qed.

Lemma check_pass b u : check b = Pass u -> b = true.
Proof. by destruct b. Qed.

(** turns a hypothesis [... ≫= ... = Pass _] into the facts it needs *)
Ltac pass_inv :=
  repeat match goal with
  | H : (_ ≫= _) = Pass _ |- _ => apply bind_pass in H as (? & ? & H); cbv beta in H
  | H : check _ = Pass _ |- _ => apply check_pass in H
  | H : checkreg _ _ = Pass _ |- _ => apply check_pass in H
  | H : Pass _ = Pass _ |- _ => injection H as ?
  | H : vread _ _ = Pass _ |- _ => apply vread_pass in H as [? ?]
  | H : Reject = Pass _ |- _ => discriminate H
  | H : _ && _ = true |- _ => apply andb_prop in H as [? ?]
  | H : (_ <? _) = true |- _ => apply Z.ltb_lt in H
  | H : (_ <=? _) = true |- _ => apply Z.leb_le in H
  | H : (_ <? _) = false |- _ => apply Z.ltb_ge in H
  | H : (_ =? _) = true |- _ => apply Z.eqb_eq in H
  | H : (_ =? _) = false |- _ => apply Z.eqb_neq in H
  | H : negb _ = true |- _ => apply negb_true_iff in H
  | H : negb _ = false |- _ => apply negb_false_iff in H
  | H : (_, _) = (_, _) |- _ => injection H as ? ?
  | H : (if ?b then _ else _) = Pass _ |- _ => destruct b eqn:?
  end.

(** evaluates the entries of the opcode table in [H] *)
Ltac eval_modes H :=
  repeat match type of H with
  | context [getOpMode (op_num ?o)] =>
      let v := eval vm_compute in (getOpMode (op_num o)) in change (getOpMode (op_num o)) with v in H
  | context [getBMode (op_num ?o)] =>
      let v := eval vm_compute in (getBMode (op_num o)) in change (getBMode (op_num o)) with v in H
  | context [getCMode (op_num ?o)] =>
      let v := eval vm_compute in (getCMode (op_num o)) in change (getCMode (op_num o)) with v in H
  end;
  repeat match type of H with
  | context [bool_decide (@eq OpArgMask ?a ?b)] =>
      let v := eval vm_compute in (bool_decide (a = b)) in change (bool_decide (a = b)) with v in H
  end; cbv beta iota zeta in H; cbn [checkArgMode] in H.

Lemma step_inv pt lastpc reg pc last r i o :
  symb_step pt lastpc reg pc last = Pass r -> code pt !! Z.to_nat pc = Some i ->
  op_of (GET_OPCODE i) = Some o ->
  GETARG_A i < maxstacksize pt /\
  (testTMode (op_num o) = true -> pc + 2 < sizecode pt /\
     exists i1, code pt !! Z.to_nat (pc + 1) = Some i1 /\ is_op i1 OP_JMP = true) /\
  exists b c l, operands pt pc i (op_num o) = Pass (b, c) /\
    exec_op pt lastpc reg o pc l (GETARG_A i) b c = Pass r.
Proof.
  intros H Hi Ho. pose proof (op_num_of _ _ Ho) as En. unfold symb_step in H.
  apply bind_pass in H as (i' & Hi' & H). apply vread_pass in Hi' as [Hpc Hi'].
  assert (i' = i) as -> by congruence. cbv zeta in H. rewrite Ho, <- En in H.
  apply bind_pass in H as ([] & _ & H). apply bind_pass in H as ([] & Ha & H).
  apply check_pass, Z.ltb_lt in Ha.
  apply bind_pass in H as ([b c] & Hb & H). apply bind_pass in H as ([] & Ht & H).
  split; [done|]. split; [|by exists b, c, (if testAMode (op_num o) then if GETARG_A i =? reg then pc else last else last)].
  intros Et. rewrite Et in Ht. pass_inv. eauto.
Qed.

(** ** The instructions the verifier scans *)

(** the position the scan reaches after the word [i] at [pc] *)
Definition scan_next (pc i : Z) : Z := pc + 1 + (if is_open_setlist i then 1 else 0).

Inductive scan_from (pt : Proto) : Z -> Z -> Prop :=
  | scan_refl pc : scan_from pt pc pc
  | scan_step pc i q : 0 <= pc -> code pt !! Z.to_nat pc = Some i ->
      scan_from pt (scan_next pc i) q -> scan_from pt pc q.

Definition scan (pt : Proto) (pc : Z) : Prop := scan_from pt 0 pc.

Lemma scan_snoc pt a pc i :
  scan_from pt a pc -> 0 <= pc -> code pt !! Z.to_nat pc = Some i -> scan_from pt a (scan_next pc i).
Proof.
  induction 1 as [pc|a i0 q Ha Hi0 _ IH]; intros H1 H2.
  - eapply scan_step; [done|done|constructor].
  - eapply scan_step; [done|done|by apply IH].
Qed.

(** the scan of a full check moves to the next instruction *)
Lemma step_next pt lastpc pc last r i o :
  symb_step pt lastpc NO_REG pc last = Pass r -> code pt !! Z.to_nat pc = Some i ->
  op_of (GET_OPCODE i) = Some o -> r.1 + 1 = scan_next pc i.
Proof.
  intros H Hi Ho. destruct (step_inv _ _ _ _ _ _ _ _ H Hi Ho) as (_ & _ & b & c & l & Hb & He).
  unfold scan_next, is_open_setlist, is_op. rewrite <- (op_num_of _ _ Ho).
  unfold operands in Hb. destruct o; eval_modes Hb; cbn [exec_op] in He;
    change (NO_REG =? NO_REG) with true in He; cbn [negb andb] in He; pass_inv; subst;
    cbn [fst op_num Z.eqb Pos.eqb andb]; try lia.
  all: destruct (Z.eqb_spec (GETARG_C i) 0); lia.
Qed.

Section Accepted.

Variable pt : Proto.

Definition accepted : Prop := gafqG_checkcode pt = Pass true.

#[local] Abbreviation N := (sizecode pt).

(** the word at [pc] passes the checks of a full scan *)
Definition passes (pc : Z) : Prop := exists l r, symb_step pt N NO_REG pc l = Pass r.

Lemma passes_word pc : passes pc -> exists i o, 0 <= pc /\ code pt !! Z.to_nat pc = Some i /\
  op_of (GET_OPCODE i) = Some o.
Proof.
  intros (l & r & H). unfold symb_step in H.
  apply bind_pass in H as (i & Hi & H). apply vread_pass in Hi as [Hpc Hi].
  apply bind_pass in H as (? & Ho%check_pass%Z.ltb_lt & H).
  destruct (op_of_Some (GET_OPCODE i)) as [o Eo]; [destruct (GETARG_range i); lia|].
  by exists i, o.
Qed.

Lemma loop_passes fuel pc last r q :
  symb_loop fuel pt N NO_REG pc last = Pass r -> scan_from pt pc q -> q < N -> passes q.
Proof.
  revert pc last. induction fuel as [|fuel IH]; intros pc last H Hs Hq; [done|]. simpl in H.
  destruct (Z.ltb_spec pc N) as [L|L].
  - apply bind_pass in H as ([pc' last'] & Hstep & H).
    inversion Hs as [|? i ? Hpc Hi Hs']; subst; [by exists last, (pc', last')|].
    destruct (passes_word pc) as (i' & o & _ & Hi' & Ho); [by exists last, (pc', last')|].
    assert (i' = i) as -> by congruence.
    pose proof (step_next _ _ _ _ _ _ _ Hstep Hi Ho) as E. simpl in E. rewrite E in H.
    by eapply IH.
  - inversion Hs as [|? i ? Hpc Hi]; subst; [lia|].
    apply lookup_lt_Some in Hi. unfold sizecode in *. lia.
Qed.

Hypothesis Hacc : accepted.

Lemma accepted_pre : prechecked pt.
Proof.
  unfold accepted, gafqG_checkcode, symbexec in Hacc. pose proof (precheck_safe pt) as H.
  destruct (precheck pt); [done|done..].
Qed.

Lemma accepted_passes pc : scan pt pc -> pc < N -> passes pc.
Proof.
  unfold accepted, gafqG_checkcode, symbexec in Hacc. destruct (precheck pt); [|done..].
  cbn [mbind verdict_bind] in Hacc. destruct (symb_loop _ _ _ _ _ _) as [r| |] eqn:E; [|done..].
  intros Hs Hq. by eapply loop_passes.
Qed.

(** every position is scanned or is the extra word of a scanned [OP_SETLIST] *)
Lemma scan_or_extra (n : nat) :
  (n <= length (code pt))%nat ->
  scan pt (Z.of_nat n) \/
  (exists i, 0 <= Z.of_nat n - 1 /\ scan pt (Z.of_nat n - 1) /\
     code pt !! Z.to_nat (Z.of_nat n - 1) = Some i /\ is_open_setlist i = true).
Proof.
  induction n as [|n IH]; intros Hn; [left; constructor|].
  destruct (lookup_lt_is_Some_2 (code pt) n) as [i Hi]; [lia|].
  rewrite <- (Nat2Z.id n) in Hi.
  destruct (IH ltac:(lia)) as [Hs|(i' & Hp & Hs & Hi' & Ho)].
  - destruct (is_open_setlist i) eqn:Eo.
    + right. exists i. replace (Z.of_nat (S n) - 1) with (Z.of_nat n) by lia.
      split; [lia|]. done.
    + left. pose proof (scan_snoc _ _ _ i Hs ltac:(lia) Hi) as H. unfold scan_next in H.
      rewrite Eo in H. by replace (Z.of_nat (S n)) with (Z.of_nat n + 1 + 0) by lia.
  - left. pose proof (scan_snoc _ _ _ i' Hs Hp Hi') as H. unfold scan_next in H. rewrite Ho in H.
    by replace (Z.of_nat (S n)) with (Z.of_nat n - 1 + 1 + 1) by lia.
Qed.

(** a target with an even number of [OP_SETLIST] look-alikes before it is scanned *)
Lemma count_even_scan n j0 j :
  (n <= length (code pt))%nat -> count_setlists pt n j0 = Pass j -> Z.even (j - j0) = true ->
  scan pt (Z.of_nat n).
Proof.
  revert j0. induction n as [n IH] using lt_wf_ind. intros j0 Hn.
  destruct (scan_or_extra n Hn) as [?|(i & Hp & Hs & Hi & Ho)]; [done|].
  destruct n as [|n]; [lia|]. replace (Z.of_nat (S n) - 1) with (Z.of_nat n) in * by lia.
  simpl. rewrite (proj2 (vread_pass _ _ _) (conj Hp Hi)). simpl. rewrite Ho. simpl.
  destruct n as [|n].
  { simpl. intros [= <-] He. replace (j0 + 1 - j0) with 1 in He by lia. done. }
  simpl. intros H He. apply bind_pass in H as (d & [Hd0 Hd]%vread_pass & H).
  destruct (is_open_setlist d) eqn:Ed; simpl in H.
  - assert (scan pt (Z.of_nat n)) as Hs2.
    { apply (IH n ltac:(lia) (j0 + 1 + 1)); [lia|done|].
      replace (j - (j0 + 1 + 1)) with (j - j0 - 2) by lia. by rewrite Z.even_sub, He. }
    pose proof (scan_snoc _ _ _ d Hs2 Hd0 Hd) as Hx. unfold scan_next in Hx. rewrite Ed in Hx.
    by replace (Z.of_nat (S (S n))) with (Z.of_nat n + 1 + 1) by lia.
  - injection H as <-. replace (j0 + 1 - j0) with 1 in He by lia. done.
Qed.

Lemma land_1_even j : Z.land j 1 = 0 -> Z.even j = true.
Proof.
  intros H. change 1 with (Z.ones 1) in H. rewrite Z.land_ones in H by lia.
  rewrite Zeven_mod. by apply Z.eqb_eq.
Qed.

(** a jump goes to a scanned instruction *)
Lemma jump_scan pc i o :
  passes pc -> code pt !! Z.to_nat pc = Some i -> op_of (GET_OPCODE i) = Some o ->
  (o = OP_JMP \/ o = OP_FORLOOP \/ o = OP_FORPREP) ->
  scan pt (pc + 1 + GETARG_sBx i) /\ 0 <= pc + 1 + GETARG_sBx i < N.
Proof.
  intros (l & r & H) Hi Ho Hj. destruct (step_inv _ _ _ _ _ _ _ _ H Hi Ho) as (_ & _ & b & c & l' & Hb & _).
  assert (exists u, (_ ← check ((0 <=? pc + 1 + GETARG_sBx i) && (pc + 1 + GETARG_sBx i <? N));
            if 0 <? pc + 1 + GETARG_sBx i then
              j ← count_setlists pt (Z.to_nat (pc + 1 + GETARG_sBx i)) 0; check (Z.land j 1 =? 0)
            else Pass tt) = Pass u) as [u Hu].
  { unfold operands in Hb. destruct Hj as [-> |[-> | ->]]; eval_modes Hb;
      apply bind_pass in Hb as (u & Hu & _); by exists u. }
  clear Hb. set (dest := pc + 1 + GETARG_sBx i) in *. pass_inv; [|assert (dest = 0) as -> by lia; split; [constructor|lia]].
  split; [|lia]. replace dest with (Z.of_nat (Z.to_nat dest)) by lia.
  eapply (count_even_scan _ 0); [unfold sizecode in *; lia|done|].
  rewrite Z.sub_0_r. by apply land_1_even.
Qed.

(** the next word is scanned *)
Lemma fall_scan pc i o :
  scan pt pc -> 0 <= pc -> code pt !! Z.to_nat pc = Some i -> GET_OPCODE i = op_num o ->
  o <> OP_RETURN -> is_open_setlist i = false -> scan pt (pc + 1) /\ 0 <= pc + 1 < N.
Proof.
  intros Hs Hpc Hi Ho Hr Hn. pose proof (scan_snoc _ _ _ i Hs Hpc Hi) as H.
  unfold scan_next in H. rewrite Hn, Z.add_0_r in H. split; [done|]. split; [lia|].
  apply (not_last pt accepted_pre pc i o); try done. unfold is_op. by apply Z.eqb_eq.
Qed.

Lemma not_setlist i o : GET_OPCODE i = op_num o -> o <> OP_SETLIST -> is_open_setlist i = false.
Proof. intros E H. unfold is_open_setlist, is_op. rewrite E. by destruct o. Qed.

Lemma pseudo_scan pc n j :
  check_pseudo pt pc n j = Pass tt -> scan pt (pc + j) -> 0 <= pc + j < N ->
  scan pt (pc + j + Z.of_nat n) /\ 0 <= pc + j + Z.of_nat n < N.
Proof.
  revert j. induction n as [|n IH]; intros j H Hs Hb; simpl in H; [by rewrite Z.add_0_r|].
  pass_inv. destruct x0.
  assert (exists o, GET_OPCODE x = op_num o /\ o <> OP_RETURN /\ o <> OP_SETLIST) as (o & Eo & H3 & H4).
  { match goal with H : _ || _ = true |- _ => apply orb_prop in H as [E%Z.eqb_eq|E%Z.eqb_eq] end;
      [by exists OP_GETUPVAL|by exists OP_MOVE]. }
  destruct (fall_scan (pc + j) x o) as [Hs' Hb']; try done; [by eapply not_setlist|].
  destruct (IH (j + 1)) as [H5 H6]; [done| | |].
  - by replace (pc + (j + 1)) with (pc + j + 1) by lia.
  - lia.
  - replace (pc + j + Z.of_nat (S n)) with (pc + (j + 1) + Z.of_nat n) by lia. done.
Qed.

(** a test and the jump after it *)
Lemma test_scan pc i o pc' :
  scan pt pc -> 0 <= pc -> passes pc -> code pt !! Z.to_nat pc = Some i ->
  op_of (GET_OPCODE i) = Some o -> testTMode (op_num o) = true ->
  pc' ∈ match code pt !! Z.to_nat (pc + 1) with
        | Some i1 => [pc + 2; pc + 2 + GETARG_sBx i1]
        | None => [pc + 2]
        end ->
  scan pt pc' /\ 0 <= pc' < N.
Proof.
  intros Hs Hpc (l & r & Hstep) Hi Ho Ht Hin.
  destruct (step_inv _ _ _ _ _ _ _ _ Hstep Hi Ho) as (_ & HT & _).
  destruct (HT Ht) as (H2 & i1 & Hi1 & Hj). rewrite Hi1 in Hin.
  destruct (fall_scan pc i o) as [Hs1 Hb1]; try done; [by rewrite (op_num_of _ _ Ho)|..];
    [by intros ->|apply (not_setlist i o); [by rewrite (op_num_of _ _ Ho)|by intros ->]|].
  apply Z.eqb_eq in Hj.
  destruct (fall_scan (pc + 1) i1 OP_JMP) as [Hs2 Hb2]; try done; [lia|by eapply not_setlist|].
  replace (pc + 1 + 1) with (pc + 2) in * by lia.
  apply elem_of_cons in Hin as [->|Hin]; [done|]. apply list_elem_of_singleton in Hin as ->.
  replace (pc + 2) with (pc + 1 + 1) by lia. apply (jump_scan (pc + 1) i1 OP_JMP); try done; [| |by left].
  - apply accepted_passes; [done|lia].
  - rewrite Hj. apply op_of_num.
Qed.

Lemma successors_scan pc i o pc' :
  loadbool_ok pt -> Forall (fun f => 0 <= nups f) (p pt) ->
  scan pt pc -> 0 <= pc < N -> code pt !! Z.to_nat pc = Some i -> op_of (GET_OPCODE i) = Some o ->
  pc' ∈ successors pt pc i o -> scan pt pc' /\ 0 <= pc' < N.
Proof.
  intros Hlb Hnups Hs Hb Hi Ho Hin.
  pose proof (accepted_passes pc Hs ltac:(lia)) as Hp. pose proof (op_num_of _ _ Ho) as En.
  assert (o <> OP_RETURN -> o <> OP_SETLIST -> scan pt (pc + 1) /\ 0 <= pc + 1 < N) as Hfall.
  { intros H1 H2. apply (fall_scan pc i o); try done; [lia|]. by apply (not_setlist i o). }
  pose proof Hp as (l & r & Hstep).
  destruct (step_inv _ _ _ _ _ _ _ _ Hstep Hi Ho) as (_ & _ & b & c & l' & Hbc & He).
  unfold operands in Hbc.
  destruct o; cbn [successors] in Hin;
    try (apply list_elem_of_singleton in Hin as ->; by apply Hfall);
    try (exact (test_scan pc i _ pc' Hs (proj1 Hb) Hp Hi Ho eq_refl Hin));
    try (by apply not_elem_of_nil in Hin); eval_modes Hbc; cbn [exec_op] in He.
  - (* OP_LOADBOOL *) apply list_elem_of_singleton in Hin as ->.
    destruct (Z.eqb_spec (GETARG_C i) 0) as [|Hc]; [by apply Hfall|].
    destruct (Hfall ltac:(done) ltac:(done)) as [Hs1 Hb1].
    assert (GETARG_C i = 1) as Ec.
    { unfold loadbool_ok in Hlb. rewrite Forall_forall in Hlb.
      assert (GETARG_C i <= 1) by (apply Hlb; [by eapply list_elem_of_lookup_2|unfold is_op; by apply Z.eqb_eq]).
      destruct (GETARG_range i) as (_ & _ & _ & HC & _). lia. }
    pass_inv; try lia. split; [|lia].
    match goal with H : negb (is_op ?w _) || _ = true, Hw : code pt !! Z.to_nat (pc + 1) = Some ?w |- _ =>
      pose proof (scan_snoc _ _ _ w Hs1 ltac:(lia) Hw) as Hx; unfold scan_next, is_open_setlist in Hx;
      replace (is_op w OP_SETLIST && (GETARG_C w =? 0)) with false in Hx
        by (by destruct (is_op w OP_SETLIST), (GETARG_C w =? 0))
    end. by replace (pc + 2) with (pc + 1 + 1 + 0) by lia.
  - (* OP_JMP *) apply list_elem_of_singleton in Hin as ->. eapply jump_scan; try done. by left.
  - (* OP_FORLOOP *) apply elem_of_cons in Hin as [->|Hin]; [by apply Hfall|].
    apply list_elem_of_singleton in Hin as ->. eapply jump_scan; try done. auto.
  - (* OP_FORPREP *) apply list_elem_of_singleton in Hin as ->. eapply jump_scan; try done. auto.
  - (* OP_SETLIST *) apply list_elem_of_singleton in Hin as ->.
    pose proof (scan_snoc _ _ _ i Hs ltac:(lia) Hi) as Hx. unfold scan_next, is_open_setlist, is_op in Hx.
    rewrite <- En in Hx. simpl in Hx. pass_inv; subst;
      destruct (Z.eqb_spec (GETARG_C i) 0); try lia.
    + replace (pc + 2) with (pc + 1 + 1) by lia. split; [done|lia].
    + replace (pc + 2) with (pc + 1 + 1) by lia. split; [done|lia].
    + rewrite Z.add_0_r in Hx. split; [done|]. split; [lia|].
      apply (not_last pt accepted_pre pc i OP_SETLIST Hi (proj1 Hb)); [|done].
      unfold is_op. by apply Z.eqb_eq.
    + rewrite Z.add_0_r in Hx. split; [done|]. split; [lia|].
      apply (not_last pt accepted_pre pc i OP_SETLIST Hi (proj1 Hb)); [|done].
      unfold is_op. by apply Z.eqb_eq.
  - (* OP_CLOSURE *) pass_inv. subst.
    match goal with H : p pt !! _ = Some ?f |- _ => rewrite H in Hin; rename H into Hf end.
    apply list_elem_of_singleton in Hin as ->. destruct (Hfall ltac:(done) ltac:(done)) as [Hs1 Hb1].
    match goal with H : check_pseudo _ _ _ _ = Pass ?u |- _ => destruct u; rename H into Hps end.
    destruct (pseudo_scan pc _ 1 Hps Hs1 Hb1) as [Hx1 Hx2]. 
    rewrite Forall_forall in Hnups. apply list_elem_of_lookup_2, Hnups in Hf.
    by rewrite Z2Nat.id in Hx1, Hx2 by done.
Qed.

Lemma runs_scan pc :
  loadbool_ok pt -> Forall (fun f => 0 <= nups f) (p pt) -> runs pt pc -> scan pt pc /\ 0 <= pc < N.
Proof.
  intros Hlb Hn. induction 1 as [|pc i o pc' _ [Hs Hb] Hi Ho Hin].
  - split; [constructor|]. pose proof (pre_size _ accepted_pre). lia.
  - by eapply successors_scan.
Qed.

Lemma argk_ok x : (if ISK x then INDEXK x <? sizek pt else x <? maxstacksize pt) = true -> rk_ok pt x.
Proof. unfold rk_ok. destruct (ISK x); lia. Qed.

Lemma scan_operands pc i o :
  scan pt pc -> 0 <= pc < N -> code pt !! Z.to_nat pc = Some i -> op_of (GET_OPCODE i) = Some o ->
  operands_ok pt i o.
Proof.
  intros Hs Hb Hi Ho. pose proof (accepted_passes pc Hs ltac:(lia)) as (l & r & Hstep).
  destruct (step_inv _ _ _ _ _ _ _ _ Hstep Hi Ho) as (HA & _ & b & c & l' & Hbc & He).
  clear Hstep. split; [exact HA|]. unfold operands in Hbc.
  destruct o; eval_modes Hbc; cbn [exec_op] in He; try exact I; pass_inv; subst; cbv zeta;
    try lia; try (split; first [lia|by apply argk_ok]).
  1,2: match goal with H : ktype ?x = _, Hk : k pt !! _ = Some ?x |- _ => destruct x; try discriminate H; by exists s end.
  - split; [lia|]. split; [lia|by apply argk_ok].
  - unfold GAFQ_MULTRET in *. lia.
  - unfold GAFQ_MULTRET in *. lia.
  - unfold GAFQ_MULTRET in *. lia.
  - unfold GAFQ_MULTRET in *. lia.
  - by eexists.
  - split; [done|lia].
  - split; [done|lia].
Qed.

End Accepted.


(** ** Concrete functions *)

(** [LOADBOOL 0 1 1; LOADBOOL 0 0 0; RETURN 0 1] *)
Definition bool_proto : Proto :=
  mkProto [] [CREATE_ABC (op_num OP_LOADBOOL) 0 1 1; CREATE_ABC (op_num OP_LOADBOOL) 0 0 0;
              CREATE_ABC (op_num OP_RETURN) 0 1 0] [] [] [] [] None 0 0 0 0 0 2.


(** [LOADBOOL 0 1 2; RETURN 0 1]: accepted, but the interpreter skips over the return *)
Definition skip_proto : Proto :=
  mkProto [] [CREATE_ABC (op_num OP_LOADBOOL) 0 1 2; CREATE_ABC (op_num OP_RETURN) 0 1 0]
          [] [] [] [] None 0 0 0 0 0 2.

(** the verifier misses an [OP_LOADBOOL] with [C >= 2]: it accepts a function in which the
    interpreter, which skips an instruction for every non-zero [C], runs past the end of the
    code. *)
Theorem checkcode_misses_loadbool :
  gafqG_checkcode skip_proto = Pass true /\ runs skip_proto 2 /\ sizecode skip_proto = 2.
Proof.
  split; [vm_compute; reflexivity|]. split; [|reflexivity].
  eapply (runs_step _ 0); [constructor|reflexivity|vm_compute; reflexivity|vm_compute; left].
Qed.
