(* ===== verification/Dump.v ===== *)
(** * Precompiled chunks: gdump.c, gundump.c

    The binary format of functions, written block by block through a writer
    callback and read from a buffered stream.  Integers are stored as the
    machine has them: 4-byte [int] and [Instruction], 8-byte [size_t] and
    [gafq_Number], little endian (the header records these sizes). *)

From S2P Require Import Prelude Number Object Opcodes Proto CheckCode Zio.

(** ** Memory representation *)

(** the [n] bytes of the number [x], least significant first *)
Fixpoint le_bytes (n : nat) (x : Z) : bytes :=
  match n with
  | O => []
  | S n' => x mod 256 :: le_bytes n' (x / 256)
  end.

Fixpoint le_value (b : bytes) : Z :=
  match b with
  | [] => 0
  | c :: b' => c + 256 * le_value b'
  end.

Definition sizeof_int : nat := 4.
Definition sizeof_size_t : nat := 8.
Definition sizeof_Instruction : nat := 4.
Definition sizeof_Number : nat := 8.

(** ** The header *)

Definition GAFQ_SIGNATURE : bytes := 27 :: str "Gafq".
Definition GAFQC_VERSION : Z := 81.
Definition GAFQC_FORMAT : Z := 0.
Definition GAFQC_HEADERSIZE : Z := 12.

(** the bytes [gafqU_header] stores from [h] on *)
Definition gafqU_header : bytes :=
  GAFQ_SIGNATURE ++
  [ u8 GAFQC_VERSION; u8 GAFQC_FORMAT; vget 0 (le_bytes sizeof_int 1) 0;
    Z.of_nat sizeof_int; Z.of_nat sizeof_size_t; Z.of_nat sizeof_Instruction;
    Z.of_nat sizeof_Number; 0 ].

(** the [GAFQC_HEADERSIZE] bytes of the buffer that [DumpHeader] and [LoadHeader] fill with it *)
Definition header_buffer : bytes := take (Z.to_nat GAFQC_HEADERSIZE) gafqU_header.

(** ** Dumping *)

Section Dump.

(** the writer callback: it gets a block and returns its new state and a status *)
Context {W : Type} (writer : W -> bytes -> W * Z).

Record DumpState := mkD { d_data : W; d_strip : bool; d_status : Z }.

Definition DumpBlock (b : bytes) (D : DumpState) : DumpState :=
  if d_status D =? 0 then
    let '(data, status) := writer (d_data D) b in mkD data (d_strip D) status
  else D.

Definition DumpChar (y : Z) (D : DumpState) : DumpState := DumpBlock [u8 y] D.
Definition DumpInt (x : Z) (D : DumpState) : DumpState := DumpBlock (le_bytes sizeof_int x) D.
Definition DumpSize (x : Z) (D : DumpState) : DumpState := DumpBlock (le_bytes sizeof_size_t x) D.
Definition DumpNumber (x : gafq_Number) (D : DumpState) : DumpState :=
  DumpBlock (le_bytes sizeof_Number (num_bits x)) D.

(** [DumpVector] of a vector of 4-byte integers *)
Definition DumpVector (b : list Z) (D : DumpState) : DumpState :=
  DumpBlock (concat (le_bytes sizeof_int <$> b)) (DumpInt (Z.of_nat (length b)) D).

Definition DumpString (s : option bytes) (D : DumpState) : DumpState :=
  match s with
  | None => DumpSize 0 D
  | Some s => DumpBlock (s ++ [0]) (DumpSize (Z.of_nat (length s) + 1) D)
  end.

Definition DumpCode (f : Proto) (D : DumpState) : DumpState := DumpVector (code f) D.

Definition DumpConstant (o : Constant) (D : DumpState) : DumpState :=
  let D := DumpChar (ktype o) D in
  match o with
  | KNil => D
  | KBoolean b => DumpChar b D
  | KNumber n => DumpNumber n D
  | KString s => DumpString s D
  end.

Definition DumpLocVar (v : LocVar) (D : DumpState) : DumpState :=
  DumpInt (endpc v) (DumpInt (startpc v) (DumpString (varname v) D)).

(** [for (i = 0; i < n; i++) dump(v[i], D)] *)
Definition dump_each {A} (dump : A -> DumpState -> DumpState) : list A -> DumpState -> DumpState :=
  fix go (l : list A) (D : DumpState) : DumpState :=
    match l with
    | [] => D
    | x :: l' => go l' (dump x D)
    end.

Definition DumpConstants (dump_function : Proto -> option bytes -> DumpState -> DumpState)
    (f : Proto) (D : DumpState) : DumpState :=
  let D := DumpInt (sizek f) D in
  let D := dump_each DumpConstant (k f) D in
  let D := DumpInt (sizep f) D in
  dump_each (fun g => dump_function g (source f)) (p f) D.

(** a vector of debug information, empty when stripping *)
Definition debug_part {A} (strip : bool) (l : list A) : list A := if strip then [] else l.

Definition DumpDebug (f : Proto) (D : DumpState) : DumpState :=
  let D := DumpVector (debug_part (d_strip D) (lineinfo f)) D in
  let lv := debug_part (d_strip D) (locvars f) in
  let D := DumpInt (Z.of_nat (length lv)) D in
  let D := dump_each DumpLocVar lv D in
  let uv := debug_part (d_strip D) (upvalues f) in
  let D := DumpInt (Z.of_nat (length uv)) D in
  dump_each DumpString uv D.

Fixpoint DumpFunction (f : Proto) (p : option bytes) (D : DumpState) : DumpState :=
  let D := DumpString (if bool_decide (source f = p) || d_strip D then None else source f) D in
  let D := DumpInt (linedefined f) D in
  let D := DumpInt (lastlinedefined f) D in
  let D := DumpChar (nups f) D in
  let D := DumpChar (numparams f) D in
  let D := DumpChar (is_vararg f) D in
  let D := DumpChar (maxstacksize f) D in
  let D := DumpCode f D in
  let D := DumpConstants DumpFunction f D in
  DumpDebug f D.

Definition DumpHeader (D : DumpState) : DumpState := DumpBlock header_buffer D.

(** the writer's final state and the status *)
Definition gafqU_dump (f : Proto) (data : W) (strip : bool) : W * Z :=
  let D := mkD data strip 0 in
  let D := DumpHeader D in
  let D := DumpFunction f None D in
  (d_data D, d_status D).

End Dump.

(** ** Loading

    A loading function takes the stream and returns a value and the stream; a
    malformed chunk raises a syntax error (the chunk name in front of the
    message is left out). *)

Definition load (A : Type) : Type := ZIO -> res (A * ZIO).

#[export] Instance load_ret : MRet load := fun A a z => Ok (a, z).
#[export] Instance load_bind : MBind load := fun A B f m z =>
  match m z with Ok (a, z') => f a z' | Err e => Err e end.

Definition load_error {A} (why : string) : load A :=
  fun z => Err (SyntaxError (String.append why " in precompiled chunk") (length (z_data z))).

(** [IF (c, s)] *)
Definition IF (c : bool) (why : string) : load unit := if c then load_error why else mret tt.

Definition LoadBlock (size : Z) : load bytes := fun z =>
  match gafqZ_read z size with
  | Ok (b, r, z') => if negb (r =? 0) then load_error "unexpected end" z' else Ok (b, z')
  | Err e => Err e
  end.

Definition LoadChar : load Z := b ← LoadBlock 1; mret (s8 (le_value b)).
Definition LoadByte : load Z := c ← LoadChar; mret (u8 c).

Definition LoadInt : load Z :=
  b ← LoadBlock (Z.of_nat sizeof_int);
  let x := s32 (le_value b) in
  _ ← IF (x <? 0) "bad integer";
  mret x.

Definition LoadSize : load Z := b ← LoadBlock (Z.of_nat sizeof_size_t); mret (le_value b).

Definition LoadNumber : load gafq_Number :=
  b ← LoadBlock (Z.of_nat sizeof_Number); mret (num_of_bits (le_value b)).

Definition LoadString : load (option bytes) :=
  size ← LoadSize;
  if size =? 0 then mret None
  else b ← LoadBlock size; mret (Some (take (Z.to_nat (size - 1)) b)).

(** the 4-byte words of a block *)
Fixpoint words (n : nat) (b : bytes) : list Z :=
  match n with
  | O => []
  | S n' => le_value (take 4 b) :: words n' (drop 4 b)
  end.

(** [LoadVector(S, b, n, 4)] *)
Definition LoadVector (n : Z) : load (list Z) :=
  b ← LoadBlock (n * 4); mret (words (Z.to_nat n) b).

Definition LoadCode : load (list Z) := n ← LoadInt; LoadVector n.

(** [for (i = 0; i < n; i++) v[i] = m(S)] *)
Fixpoint load_each {A} (n : nat) (m : load A) : load (list A) :=
  match n with
  | O => mret []
  | S n' => x ← m; l ← load_each n' m; mret (x :: l)
  end.

Definition LoadConstant : load Constant :=
  t ← LoadChar;
  if t =? GAFQ_TNIL then mret KNil
  else if t =? GAFQ_TBOOLEAN then c ← LoadChar; mret (KBoolean (if c =? 0 then 0 else 1))
  else if t =? GAFQ_TNUMBER then n ← LoadNumber; mret (KNumber n)
  else if t =? GAFQ_TSTRING then
    s ← LoadString; mret (KString s)
  else load_error "bad constant".

Definition LoadConstants (load_function : option bytes -> load Proto) (source : option bytes)
  : load (list Constant * list Proto) :=
  n ← LoadInt;
  k ← load_each (Z.to_nat n) LoadConstant;
  n ← LoadInt;
  p ← load_each (Z.to_nat n) (load_function source);
  mret (k, p).

Definition LoadLocVar : load LocVar :=
  name ← LoadString;
  startpc ← LoadInt;
  endpc ← LoadInt;
  mret (mkLocVar name startpc endpc).

Definition LoadDebug : load (list Z * list LocVar * list (option bytes)) :=
  n ← LoadInt;
  lineinfo ← LoadVector n;
  n ← LoadInt;
  locvars ← load_each (Z.to_nat n) LoadLocVar;
  n ← LoadInt;
  upvalues ← load_each (Z.to_nat n) LoadString;
  mret (s32 <$> lineinfo, locvars, upvalues).

Definition GAFQI_MAXCCALLS : nat := 200.

(** [levels] is [GAFQI_MAXCCALLS - L->nCcalls] *)
Fixpoint LoadFunction (levels : nat) (p : option bytes) : load Proto :=
  match levels with
  | O => load_error "code too deep"
  | S levels' =>
      s ← LoadString;
      let source := match s with None => p | Some _ => s end in
      linedefined ← LoadInt;
      lastlinedefined ← LoadInt;
      nups ← LoadByte;
      numparams ← LoadByte;
      is_vararg ← LoadByte;
      maxstacksize ← LoadByte;
      code ← LoadCode;
      kp ← LoadConstants (LoadFunction levels') source;
      d ← LoadDebug;
      let '(lineinfo, locvars, upvalues) := d in
      let f := mkProto kp.1 code kp.2 lineinfo locvars upvalues source linedefined
                 lastlinedefined nups numparams is_vararg maxstacksize in
      match gafqG_checkcode f with
      | Pass b => _ ← IF (negb b) "bad code"; mret f
      | Reject => load_error "bad code"
      | OutOfBounds => fun _ => Err Undefined
      end
  end.

Definition LoadHeader : load unit :=
  s ← LoadBlock GAFQC_HEADERSIZE;
  IF (negb (bool_decide (header_buffer = s))) "bad header".

Definition gafqU_undump (levels : nat) : load Proto :=
  _ ← LoadHeader;
  LoadFunction levels (Some (str "=?")).
