(* ===== verification/DumpProofs.v ===== *)
(** * Dumping and loading back

    Loading what [gafqU_dump] wrote gives the same function, up to the source
    names and the debug information that the format leaves out, whatever the
    blocks the reader delivers. *)

From S2P Require Import Prelude Number Object Opcodes Proto CheckCode Zio Dump.

(** ** Bytes of machine integers *)

Lemma le_bytes_length n x : length (le_bytes n x) = n.
Proof. revert x. induction n as [|n IH]; intros x; simpl; [done|by rewrite IH]. Qed.

Lemma le_value_bytes n x : le_value (le_bytes n x) = x mod 256 ^ Z.of_nat n.
Proof.
  revert x. induction n as [|n IH]; intros x; [by rewrite Z.mod_1_r|].
  cbn [le_bytes le_value]. rewrite IH, Nat2Z.inj_succ, Z.pow_succ_r by lia.
  assert (0 < 256 ^ Z.of_nat n) by (apply Z.pow_pos_nonneg; lia).
  rewrite Z.rem_mul_r by lia. done.
Qed.

Lemma le_bytes_byte n x : Forall is_byte (le_bytes n x).
Proof.
  revert x. induction n as [|n IH]; intros x; simpl; constructor; [|apply IH].
  unfold is_byte. apply Z.mod_pos_bound. lia.
Qed.

Lemma le_value_u32 x : le_value (le_bytes sizeof_int x) = u32 x.
Proof. apply le_value_bytes. Qed.

Lemma s32_u32 x : s32 (u32 x) = s32 x.
Proof. unfold s32, u32. by rewrite Zplus_mod_idemp_l. Qed.

#[local] Arguments le_bytes n x : simpl never.

(** ** What a loading function reads *)

(** [m] reads exactly the bytes [e] and returns [a] *)
Definition loads {A} (m : load A) (a : A) (e : bytes) : Prop :=
  forall z rest, zok z -> pending z = e ++ rest ->
    exists z', m z = Ok (a, z') /\ zok z' /\ pending z' = rest.

Lemma loads_ret {A} (a : A) : loads (mret a) a [].
Proof. intros z rest Hz E. by exists z. Qed.

Lemma loads_bind {A B} (m : load A) (f : A -> load B) a b e1 e2 :
  loads m a e1 -> loads (f a) b e2 -> loads (m ≫= f) b (e1 ++ e2).
Proof.
  intros H1 H2 z rest Hz E. rewrite <- app_assoc in E.
  destruct (H1 z (e2 ++ rest) Hz E) as (z1 & E1 & Hz1 & Hp1).
  destruct (H2 z1 rest Hz1 Hp1) as (z2 & E2 & Hz2 & Hp2).
  exists z2. split; [|done]. unfold mbind, load_bind. by rewrite E1.
Qed.

(** a binding whose first part reads everything *)
Lemma loads_bind_ret {A B} (m : load A) (f : A -> B) a e :
  loads m a e -> loads (x ← m; mret (f x)) (f a) e.
Proof.
  intros H. rewrite <- (app_nil_r e). eapply loads_bind; [done|apply loads_ret].
Qed.

Lemma loads_block e : loads (LoadBlock (Z.of_nat (length e))) e e.
Proof.
  intros z rest Hz E. unfold LoadBlock.
  destruct (read_loop_spec (S (S (S (length (z_data z))))) z [] (Z.of_nat (length e)) Hz)
    as (z' & Er & H); [lia|unfold read_steps; destruct (_ =? 0), (z_n z =? 0); lia|].
  unfold gafqZ_read. rewrite Er, E, length_app, Nat2Z.id, take_app_length.
  rewrite Z.min_l, Z.sub_diag by lia. simpl. exists z'. split; [done|].
  destruct H as [H1 H2]; [rewrite E, length_app; lia|]. split; [done|].
  by rewrite H2, E, Nat2Z.id, drop_app_length.
Qed.

Lemma loads_block_le n x : loads (LoadBlock (Z.of_nat n)) (le_bytes n x) (le_bytes n x).
Proof. pose proof (loads_block (le_bytes n x)) as H. by rewrite le_bytes_length in H. Qed.

Lemma loads_char y : loads LoadChar (s8 y) [u8 y].
Proof.
  replace (s8 y) with (s8 (le_value [u8 y])).
  - apply (loads_bind_ret _ (fun b => s8 (le_value b))), loads_block.
  - simpl. unfold s8, u8. rewrite Z.mul_0_r, Z.add_0_r. by rewrite Zplus_mod_idemp_l.
Qed.

Lemma loads_byte y : 0 <= y < 256 -> loads LoadByte y [u8 y].
Proof.
  intros Hy. assert (u8 (s8 y) = y) as E.
  { unfold u8, s8. rewrite Zminus_mod_idemp_l. replace (y + 128 - 128) with y by lia.
    by apply Z.mod_small. }
  rewrite <- E at 1. apply (loads_bind_ret _ u8), loads_char.
Qed.

Lemma loads_int x : 0 <= x <= INT_MAX -> loads LoadInt x (le_bytes sizeof_int x).
Proof.
  intros Hx. unfold LoadInt. rewrite <- (app_nil_r (le_bytes _ _)).
  eapply loads_bind; [apply loads_block_le|]. rewrite le_value_u32, s32_u32, s32_id.
  - destruct (Z.ltb_spec x 0); [lia|]. simpl.
    rewrite <- (app_nil_l []). eapply loads_bind; [apply loads_ret|apply loads_ret].
  - unfold int_range, INT_MIN. lia.
Qed.

Lemma loads_size x : 0 <= x < SIZE_MOD -> loads LoadSize x (le_bytes sizeof_size_t x).
Proof.
  intros Hx. replace x with (le_value (le_bytes sizeof_size_t x)) at 1.
  - apply (loads_bind_ret _ le_value), loads_block_le.
  - rewrite le_value_bytes. apply Z.mod_small. done.
Qed.

Lemma loads_number n : num_valid n = true -> loads LoadNumber n (le_bytes sizeof_Number (num_bits n)).
Proof.
  intros Hn. replace n with (num_of_bits (le_value (le_bytes sizeof_Number (num_bits n)))) at 1.
  - apply (loads_bind_ret _ (fun b => num_of_bits (le_value b))), loads_block_le.
  - rewrite le_value_bytes, Z.mod_small by apply num_bits_range, Hn. by apply num_of_bits_bits.
Qed.

(** ** The encoding of strings and vectors *)

Definition enc_string (s : option bytes) : bytes :=
  match s with
  | None => le_bytes sizeof_size_t 0
  | Some s => le_bytes sizeof_size_t (Z.of_nat (length s) + 1) ++ s ++ [0]
  end.

Definition string_ok (s : option bytes) : Prop :=
  match s with None => True | Some s => Z.of_nat (length s) + 1 < SIZE_MOD end.

Lemma loads_string s : string_ok s -> loads LoadString s (enc_string s).
Proof.
  intros Hs. unfold LoadString. destruct s as [s|]; cbn [enc_string string_ok] in *.
  - eapply loads_bind; [apply loads_size; lia|].
    destruct (Z.eqb_spec (Z.of_nat (length s) + 1) 0); [lia|].
    replace (Z.of_nat (length s) + 1) with (Z.of_nat (length (s ++ [0]))) by (rewrite length_app; simpl; lia).
    replace (Some s) with (Some (take (Z.to_nat (Z.of_nat (length (s ++ [0])) - 1)) (s ++ [0]))).
    + apply (loads_bind_ret _ (fun b => Some (take _ b))), loads_block.
    + f_equal. rewrite length_app. simpl. rewrite take_app_le by lia. apply take_ge. lia.
  - rewrite <- (app_nil_r (le_bytes _ _)). eapply loads_bind; [apply loads_size; done|]. apply loads_ret.
Qed.

Definition enc_vector (b : list Z) : bytes := concat (le_bytes sizeof_int <$> b).

Lemma enc_vector_cons x b : enc_vector (x :: b) = le_bytes sizeof_int x ++ enc_vector b.
Proof. reflexivity. Qed.

Lemma enc_vector_length b : length (enc_vector b) = (4 * length b)%nat.
Proof.
  induction b as [|x b IH]; [done|]. rewrite enc_vector_cons, length_app, IH, le_bytes_length.
  unfold sizeof_int. cbn [length]. lia.
Qed.

Lemma words_enc b : words (length b) (enc_vector b) = u32 <$> b.
Proof.
  induction b as [|x b IH]; [done|]. rewrite enc_vector_cons. cbn [length words fmap list_fmap].
  rewrite take_app_le, take_ge, drop_app_ge by (rewrite le_bytes_length; done).
  rewrite le_bytes_length, Nat.sub_diag, drop_0, le_value_u32. f_equal. exact IH.
Qed.

Lemma loads_vector b : loads (LoadVector (Z.of_nat (length b))) (u32 <$> b) (enc_vector b).
Proof.
  unfold LoadVector. rewrite Nat2Z.id, <- words_enc.
  apply (loads_bind_ret _ (words (length b))).
  replace (Z.of_nat (length b) * 4) with (Z.of_nat (length (enc_vector b)))
    by (rewrite enc_vector_length; lia). apply loads_block.
Qed.

Lemma loads_each {A B} (m : load A) (l : list B) (v : B -> A) (enc : B -> bytes) :
  Forall (fun x => loads m (v x) (enc x)) l ->
  loads (load_each (length l) m) (v <$> l) (concat (enc <$> l)).
Proof.
  induction 1 as [|x l Hx _ IH]; simpl; [apply loads_ret|].
  eapply loads_bind; [exact Hx|]. apply (loads_bind_ret _ (cons (v x))), IH.
Qed.

(** ** The encoding of functions *)

Definition enc_int (x : Z) : bytes := le_bytes sizeof_int x.

Definition enc_constant (c : Constant) : bytes :=
  [u8 (ktype c)] ++
  match c with
  | KNil => []
  | KBoolean b => [u8 b]
  | KNumber n => le_bytes sizeof_Number (num_bits n)
  | KString s => enc_string s
  end.

Definition enc_locvar (v : LocVar) : bytes :=
  enc_string (varname v) ++ enc_int (startpc v) ++ enc_int (endpc v).

(** a vector with its length in front *)
Definition enc_list {A} (enc : A -> bytes) (l : list A) : bytes :=
  enc_int (Z.of_nat (length l)) ++ concat (enc <$> l).

Definition enc_debug (strip : bool) (f : Proto) : bytes :=
  enc_int (Z.of_nat (length (debug_part strip (lineinfo f)))) ++
  enc_vector (debug_part strip (lineinfo f)) ++
  enc_list enc_locvar (debug_part strip (locvars f)) ++
  enc_list enc_string (debug_part strip (upvalues f)).

Fixpoint enc_function (strip : bool) (f : Proto) (q : option bytes) : bytes :=
  enc_string (if bool_decide (source f = q) || strip then None else source f) ++
  enc_int (linedefined f) ++ enc_int (lastlinedefined f) ++
  [u8 (nups f)] ++ [u8 (numparams f)] ++ [u8 (is_vararg f)] ++ [u8 (maxstacksize f)] ++
  (enc_int (sizecode f) ++ enc_vector (code f)) ++
  (enc_list enc_constant (k f) ++
   enc_int (sizep f) ++ concat ((fun g => enc_function strip g (source f)) <$> p f)) ++
  enc_debug strip f.

(** the function that loading gives back, for a function dumped below a function with source
    [pd] and loaded below one with source [pl] *)
Fixpoint image (strip : bool) (pd pl : option bytes) (f : Proto) : Proto :=
  let src := match (if bool_decide (source f = pd) || strip then None else source f) with
             | None => pl
             | Some s => Some s
             end in
  mkProto (k f) (code f) (image strip (source f) src <$> p f)
    (debug_part strip (lineinfo f)) (debug_part strip (locvars f)) (debug_part strip (upvalues f))
    src (linedefined f) (lastlinedefined f) (nups f) (numparams f) (is_vararg f) (maxstacksize f).

(** ** The writer that collects the blocks *)

Definition append_writer (data b : bytes) : bytes * Z := (data ++ b, 0).

Section Appending.

Variable strip : bool.

Definition dumps (d : @DumpState bytes -> @DumpState bytes) (e : bytes) : Prop :=
  forall data, d (mkD data strip 0) = mkD (data ++ e) strip 0.

Lemma dumps_block b : dumps (DumpBlock append_writer b) b.
Proof. by intros data. Qed.

Lemma dumps_comp d1 d2 e1 e2 : dumps d1 e1 -> dumps d2 e2 -> dumps (fun D => d2 (d1 D)) (e1 ++ e2).
Proof. intros H1 H2 data. cbv beta. by rewrite H1, H2, app_assoc. Qed.

Lemma dumps_vector b :
  dumps (DumpVector append_writer b) (enc_int (Z.of_nat (length b)) ++ enc_vector b).
Proof. apply (dumps_comp (DumpInt _ _) (DumpBlock _ _)); apply dumps_block. Qed.

Lemma dumps_string s : dumps (DumpString append_writer s) (enc_string s).
Proof.
  destruct s as [s|]; [|apply dumps_block].
  apply (dumps_comp (DumpSize _ _) (DumpBlock _ _)); apply dumps_block.
Qed.

Lemma dumps_constant c : dumps (DumpConstant append_writer c) (enc_constant c).
Proof.
  unfold DumpConstant, enc_constant. destruct c as [|b|n|s]; cbv zeta.
  - apply dumps_block.
  - apply (dumps_comp (DumpChar _ _) (DumpChar _ _)); apply dumps_block.
  - apply (dumps_comp (DumpChar _ _) (DumpNumber _ _)); apply dumps_block.
  - apply (dumps_comp (DumpChar _ _) (DumpString _ _)); [apply dumps_block|apply dumps_string].
Qed.

Lemma dumps_locvar v : dumps (DumpLocVar append_writer v) (enc_locvar v).
Proof.
  unfold DumpLocVar, enc_locvar. rewrite app_assoc.
  apply (dumps_comp (fun D => DumpInt _ _ (DumpString _ _ D)) (DumpInt _ _)); [|apply dumps_block].
  apply (dumps_comp (DumpString _ _) (DumpInt _ _)); [apply dumps_string|apply dumps_block].
Qed.

Lemma dumps_each {A} (d : A -> DumpState -> DumpState) (enc : A -> bytes) l :
  Forall (fun x => dumps (d x) (enc x)) l -> dumps (dump_each d l) (concat (enc <$> l)).
Proof.
  induction 1 as [|x l Hx _ IH]; intros data; simpl; [by rewrite app_nil_r|].
  by rewrite Hx, IH, app_assoc.
Qed.

Lemma dumps_list {A} (d : A -> DumpState -> DumpState) (enc : A -> bytes) l :
  (forall x, dumps (d x) (enc x)) ->
  dumps (fun D => dump_each d l (DumpInt append_writer (Z.of_nat (length l)) D)) (enc_list enc l).
Proof.
  intros H. apply (dumps_comp (DumpInt _ _) (dump_each d l)); [apply dumps_block|].
  apply dumps_each. by apply Forall_true.
Qed.

Lemma dumps_debug f : dumps (DumpDebug append_writer f) (enc_debug strip f).
Proof.
  intros data. unfold DumpDebug. cbn [d_strip].
  rewrite (dumps_vector _ data). cbn [d_strip].
  rewrite (dumps_list _ enc_locvar _ dumps_locvar). cbn [d_strip].
  rewrite (dumps_list _ enc_string _ dumps_string). unfold enc_debug. by rewrite !app_assoc.
Qed.

Lemma dumps_function f q : dumps (fun D => DumpFunction append_writer f q D) (enc_function strip f q).
Proof.
  revert q. induction f as [f IH] using Proto_nested_ind. intros q data.
  destruct f as [ks cs ps li lv uv src ld lld nu np iv ms].
  cbn [DumpFunction enc_function source linedefined lastlinedefined nups numparams is_vararg
       maxstacksize d_strip Proto.p Proto.k Proto.code] in *.
  rewrite (dumps_string _ data). unfold DumpInt, DumpChar. rewrite !(dumps_block _ _).
  unfold DumpCode. rewrite (dumps_vector _ _). unfold DumpConstants.
  cbn [Proto.k Proto.p Proto.code source].
  unfold sizek, sizep. cbn [Proto.k Proto.p Proto.code].
  rewrite (dumps_list _ enc_constant _ dumps_constant). unfold DumpInt. rewrite (dumps_block _ _).
  rewrite (dumps_each _ (fun g => enc_function strip g src)); [|eapply Forall_impl; [exact IH|]; intros g H; apply H].
  rewrite dumps_debug. unfold sizecode, sizep. cbn [Proto.code Proto.p].
  f_equal. by rewrite <- !app_assoc.
Qed.

End Appending.

(** ** Functions that can be dumped *)

Definition int_ok (x : Z) : Prop := 0 <= x <= INT_MAX.
Definition count_ok {A} (l : list A) : Prop := int_ok (Z.of_nat (length l)).

Definition constant_ok (c : Constant) : Prop :=
  match c with
  | KNil => True
  | KBoolean b => b = 0 \/ b = 1
  | KNumber n => num_valid n = true
  | KString s => string_ok s
  end.

Definition locvar_ok (v : LocVar) : Prop :=
  string_ok (varname v) /\ int_ok (startpc v) /\ int_ok (endpc v).

(** the fields of a prototype hold values of their C types *)
Record fields_ok (f : Proto) : Prop := {
  fo_source : string_ok (source f);
  fo_lines : int_ok (linedefined f) /\ int_ok (lastlinedefined f);
  fo_bytes : is_byte (nups f) /\ is_byte (numparams f) /\ is_byte (is_vararg f) /\ is_byte (maxstacksize f);
  fo_code : count_ok (code f) /\ Forall is_instruction (code f);
  fo_k : count_ok (k f) /\ Forall constant_ok (k f);
  fo_p : count_ok (p f);
  fo_lineinfo : count_ok (lineinfo f) /\ Forall int_range (lineinfo f);
  fo_locvars : count_ok (locvars f) /\ Forall locvar_ok (locvars f);
  fo_upvalues : count_ok (upvalues f) /\ Forall string_ok (upvalues f)
}.

(** [f] and the functions nested in it are well-typed, accepted by the verifier, and nested
    at most [levels] deep *)
Inductive dumpable : nat -> Proto -> Prop :=
  | dumpable_intro levels f :
      fields_ok f -> gafqG_checkcode f = Pass true -> Forall (dumpable levels) (p f) ->
      dumpable (S levels) f.

(** ** The verifier does not look at what dumping leaves out *)

Section SameCheck.

Variables f g : Proto.
Hypothesis (Hcode : code g = code f) (Hk : k g = k f) (Hmax : maxstacksize g = maxstacksize f).
Hypothesis (Hnups : nups g = nups f) (Hpar : numparams g = numparams f) (Hva : is_vararg g = is_vararg f).
Hypothesis Hp : nups <$> p g = nups <$> p f.
Hypothesis (Hup : sizeupvalues g <= sizeupvalues f).
Hypothesis (Hli : sizelineinfo g = sizelineinfo f \/ sizelineinfo g = 0).

Lemma same_size : sizecode g = sizecode f /\ sizek g = sizek f /\ sizep g = sizep f.
Proof.
  unfold sizecode, sizek, sizep. rewrite Hcode, Hk. split; [done|]. split; [done|].
  by rewrite <- (length_fmap nups (p g)), Hp, length_fmap.
Qed.

Lemma same_count n j : count_setlists g n j = count_setlists f n j.
Proof.
  revert j. induction n as [|n IH]; intros j; simpl; [done|]. rewrite Hcode.
  destruct (vread _ _); simpl; [|done..]. destruct (is_open_setlist a); simpl; [apply IH|done].
Qed.

Lemma same_pseudo pc n j : check_pseudo g pc n j = check_pseudo f pc n j.
Proof.
  revert j. induction n as [|n IH]; intros j; simpl; [done|]. rewrite Hcode.
  destruct (vread _ _); simpl; [|done..]. destruct (check _); simpl; [apply IH|done..].
Qed.

Lemma same_operands pc i op : operands g pc i op = operands f pc i op.
Proof.
  destruct same_size as (E1 & E2 & E3). unfold operands, checkArgMode, checkreg.
  rewrite E1, E2, Hmax, same_count. done.
Qed.

Lemma same_nested b :
  match vread (p g) b, vread (p f) b with
  | Pass x, Pass y => nups x = nups y
  | OutOfBounds, OutOfBounds => True
  | _, _ => False
  end.
Proof.
  unfold vread. destruct (b <? 0); [done|].
  assert ((nups <$> p g) !! Z.to_nat b = (nups <$> p f) !! Z.to_nat b) as E by (by rewrite Hp).
  rewrite !list_lookup_fmap in E.
  destruct (p g !! Z.to_nat b) as [x|], (p f !! Z.to_nat b) as [y|]; simpl in *; try done. by injection E.
Qed.

Lemma same_exec lastpc reg o pc last a b c :
  exec_op g lastpc reg o pc last a b c = exec_op f lastpc reg o pc last a b c.
Proof.
  destruct same_size as (E1 & E2 & E3).
  destruct o; cbn [exec_op]; unfold checkreg, checkopenop; rewrite ?E1, ?E3, ?Hcode, ?Hk, ?Hmax, ?Hnups, ?Hva;
    try done.
  destruct (check (b <? sizep f)); simpl; [|done..]. pose proof (same_nested b) as H.
  destruct (vread (p g) b) as [x| |], (vread (p f) b) as [y| |]; simpl in *; try done.
  by rewrite H, same_pseudo.
Qed.

Lemma same_step lastpc reg pc last : symb_step g lastpc reg pc last = symb_step f lastpc reg pc last.
Proof.
  destruct same_size as (E1 & E2 & E3). unfold symb_step, checkreg. rewrite Hcode, E1, Hmax.
  destruct (vread (code f) pc); simpl; [|done..].
  do 2 (match goal with |- (?m ≫= _) = _ => destruct m; simpl; [|done..] end). rewrite same_operands.
  destruct (operands _ _ _ _) as [[b c]| |]; simpl; [|done..].
  match goal with |- (?m ≫= _) = _ => destruct m; simpl; [|done..] end.
  destruct (op_of _); [apply same_exec|done].
Qed.

Lemma same_loop fuel lastpc reg pc last :
  symb_loop fuel g lastpc reg pc last = symb_loop fuel f lastpc reg pc last.
Proof.
  revert pc last. induction fuel as [|fuel IH]; intros pc last; simpl; [done|].
  rewrite Hcode, same_step. destruct (pc <? lastpc); [|done].
  destruct (symb_step _ _ _ _ _) as [[pc' last']| |]; simpl; [apply IH|done..].
Qed.

Lemma same_precheck : precheck f = Pass tt -> precheck g = Pass tt.
Proof.
  destruct same_size as (E1 & E2 & E3). unfold precheck.
  rewrite E1, Hmax, Hpar, Hva, Hnups, Hcode. intros H.
  destruct (maxstacksize f <=? MAXSTACK); [|done].
  destruct (numparams f + Z.land (is_vararg f) VARARG_HASARG <=? maxstacksize f); [|done].
  destruct (negb (testbits (is_vararg f) VARARG_NEEDSARG) || testbits (is_vararg f) VARARG_HASARG); [|done].
  destruct (Z.leb_spec (sizeupvalues f) (nups f)); [|done].
  destruct (Z.leb_spec (sizeupvalues g) (nups f)); [|lia].
  destruct ((sizelineinfo f =? sizecode f) || (sizelineinfo f =? 0)) eqn:El; [|done].
  replace ((sizelineinfo g =? sizecode f) || (sizelineinfo g =? 0)) with true; [exact H|].
  destruct Hli as [->| ->]; [done|]. by rewrite orb_true_r.
Qed.

Lemma same_checkcode : gafqG_checkcode f = Pass true -> gafqG_checkcode g = Pass true.
Proof.
  unfold gafqG_checkcode, symbexec. destruct same_size as (E1 & _ & _). rewrite E1, Hcode, same_loop.
  destruct (precheck f) as [[]| |] eqn:Ep; simpl; [|done..]. by rewrite same_precheck.
Qed.

End SameCheck.

Lemma checkcode_image strip pd pl f :
  gafqG_checkcode f = Pass true -> gafqG_checkcode (image strip pd pl f) = Pass true.
Proof.
  apply same_checkcode; destruct f; try done; simpl.
  - rewrite <- list_fmap_compose. apply list_fmap_ext. intros i x _. by destruct x.
  - unfold sizeupvalues, debug_part. simpl. destruct strip; simpl; lia.
  - unfold sizelineinfo, debug_part. simpl. destruct strip; auto.
Qed.

(** ** Loading a function *)

Lemma loads_constant c : constant_ok c -> loads LoadConstant c (enc_constant c).
Proof.
  intros Hc. unfold LoadConstant, enc_constant.
  eapply loads_bind; [apply loads_char|]. destruct c as [|b|n|s]; cbn [ktype constant_ok] in *.
  - apply loads_ret.
  - replace (KBoolean b) with (KBoolean (if s8 b =? 0 then 0 else 1)) by (by destruct Hc as [->| ->]).
    apply (loads_bind_ret _ (fun c => KBoolean (if c =? 0 then 0 else 1))), loads_char.
  - apply (loads_bind_ret _ KNumber). by apply loads_number.
  - apply (loads_bind_ret _ KString). by apply loads_string.
Qed.

Lemma loads_locvar v : locvar_ok v -> loads LoadLocVar v (enc_locvar v).
Proof.
  intros (H1 & H2 & H3). unfold LoadLocVar, enc_locvar.
  destruct v as [name s e]; cbn [varname startpc endpc] in *.
  eapply loads_bind; [by apply loads_string|]. eapply loads_bind; [by apply loads_int|].
  apply (loads_bind_ret _ (mkLocVar name s)). by apply loads_int.
Qed.

Lemma loads_list {A B} (m : load A) (l : list A) (enc : A -> bytes) (f : list A -> load B) b e :
  count_ok l -> Forall (fun x => loads m x (enc x)) l -> loads (f l) b e ->
  loads (n ← LoadInt; x ← load_each (Z.to_nat n) m; f x) b (enc_list enc l ++ e).
Proof.
  intros Hn Hl Hf. unfold enc_list. rewrite <- app_assoc.
  eapply loads_bind; [by apply loads_int|]. rewrite Nat2Z.id.
  eapply loads_bind; [|exact Hf]. rewrite <- (list_fmap_id l) at 2. by apply loads_each.
Qed.

Lemma Forall_u32 l : Forall is_instruction l -> u32 <$> l = l.
Proof. induction 1 as [|x l Hx _ IH]; csimpl; [done|]. rewrite IH. f_equal. by apply u32_id. Qed.

Lemma Forall_s32 l : Forall int_range l -> s32 <$> (u32 <$> l) = l.
Proof.
  induction 1 as [|x l Hx _ IH]; csimpl; [done|]. rewrite IH. f_equal. rewrite s32_u32. by apply s32_id.
Qed.

Lemma debug_part_ok {A} (P : A -> Prop) strip (l : list A) :
  count_ok l /\ Forall P l -> count_ok (debug_part strip l) /\ Forall P (debug_part strip l).
Proof. intros [H1 H2]. destruct strip; [|done]. split; [done|constructor]. Qed.

Lemma loads_debug strip f :
  fields_ok f ->
  loads LoadDebug (debug_part strip (lineinfo f), debug_part strip (locvars f),
                   debug_part strip (upvalues f)) (enc_debug strip f).
Proof.
  intros F. destruct (debug_part_ok _ strip _ (fo_lineinfo _ F)) as [H1 H2].
  destruct (debug_part_ok _ strip _ (fo_locvars _ F)) as [H3 H4].
  destruct (debug_part_ok _ strip _ (fo_upvalues _ F)) as [H5 H6].
  unfold LoadDebug, enc_debug. eapply loads_bind; [by apply loads_int|].
  eapply loads_bind; [apply loads_vector|].
  apply (loads_list _ _ enc_locvar); [done|eapply Forall_impl; [exact H4|]; apply loads_locvar|].
  rewrite <- (app_nil_r (enc_list _ _)).
  apply (loads_list _ _ enc_string); [done|eapply Forall_impl; [exact H6|]; apply loads_string|].
  rewrite Forall_s32 by done. apply loads_ret.
Qed.

Lemma loads_function strip levels f pd pl :
  dumpable levels f -> loads (LoadFunction levels pl) (image strip pd pl f) (enc_function strip f pd).
Proof.
  revert levels pd pl. induction f as [f IH] using Proto_nested_ind. intros levels pd pl Hd.
  inversion Hd as [lv f' F Hchk Hsub]; subst. pose proof (checkcode_image strip pd pl f Hchk) as Himg.
  destruct (fo_lines _ F) as [HL1 HL2]. destruct (fo_bytes _ F) as (HB1 & HB2 & HB3 & HB4).
  destruct (fo_code _ F) as [HC1 HC2]. destruct (fo_k _ F) as [HK1 HK2].
  pose proof (loads_debug strip f F) as Hdbg. pose proof (fo_source _ F) as Hsrc.
  pose proof (fo_p _ F) as HP.
  destruct f as [ks cs ps li lvs uv src ld lld nu np iv ms]. cbn [Proto.p] in *.
  cbn [LoadFunction enc_function image source linedefined lastlinedefined nups numparams is_vararg
       maxstacksize Proto.k Proto.p Proto.code lineinfo locvars upvalues] in *.
  set (w := if bool_decide (src = pd) || strip then None else src) in *.
  eapply loads_bind; [apply (loads_string w); by subst w; destruct (_ || _)|].
  set (src' := match w with Some s => Some s | None => pl end) in *.
  replace (match w with Some _ => w | None => pl end) with src' by (by destruct w).
  eapply loads_bind; [by apply loads_int|]. eapply loads_bind; [by apply loads_int|].
  do 4 (eapply loads_bind; [by apply loads_byte|]).
  eapply (loads_bind _ _ cs).
  { eapply loads_bind; [by apply loads_int|]. unfold sizecode. cbn [Proto.code].
    pose proof (loads_vector cs) as Hv. by rewrite Forall_u32 in Hv. }
  eapply (loads_bind _ _ (ks, image strip src src' <$> ps)).
  { unfold LoadConstants. apply (loads_list _ _ enc_constant); [done|by eapply Forall_impl; [exact HK2|]; apply loads_constant|].
    eapply loads_bind; [by apply loads_int|]. unfold sizep. cbn [Proto.p]. rewrite Nat2Z.id.
    apply (loads_bind_ret _ (fun x => (ks, x))). apply loads_each.
    rewrite Forall_forall in IH, Hsub |- *. intros g Hg. apply IH; [done|]. by apply Hsub. }
  rewrite <- (app_nil_r (enc_debug _ _)). eapply loads_bind; [exact Hdbg|].
  cbn [fst snd]. rewrite Himg. simpl.
  rewrite <- (app_nil_l []). eapply loads_bind; [apply loads_ret|apply loads_ret].
Qed.

Lemma loads_header : loads LoadHeader tt header_buffer.
Proof.
  assert (header_buffer = header_buffer ++ []) as E by (by rewrite app_nil_r).
  unfold loads. rewrite E. apply (loads_bind (LoadBlock GAFQC_HEADERSIZE) _ header_buffer tt);
    [apply (loads_block header_buffer)|]. rewrite bool_decide_true by done.
  apply loads_ret.
Qed.

Lemma dump_appended f strip :
  gafqU_dump append_writer f [] strip = (header_buffer ++ enc_function strip f None, 0).
Proof.
  unfold gafqU_dump, DumpHeader. rewrite (dumps_block strip header_buffer []).
  by rewrite (dumps_function strip f None).
Qed.

Lemma undump_enc strip levels f :
  dumpable levels f ->
  loads (gafqU_undump levels) (image strip None (Some (str "=?")) f)
    (header_buffer ++ enc_function strip f None).
Proof.
  intros Hd. unfold gafqU_undump. eapply loads_bind; [apply loads_header|]. by apply loads_function.
Qed.

(** every function of [f] has a source name *)
Inductive sourced : Proto -> Prop :=
  | sourced_intro f s : source f = Some s -> Forall sourced (p f) -> sourced f.

Lemma image_id pd pl f :
  sourced f -> (source f = pd -> pl = source f) -> image false pd pl f = f.
Proof.
  revert pd pl. induction f as [f IH] using Proto_nested_ind. intros pd pl Hs Hpl.
  inversion Hs as [f' s Es Hsub]; subst. destruct f as [ks cs ps li lvs uv src ld lld nu np iv ms].
  cbn [source Proto.p image debug_part] in *.
  assert ((match (if bool_decide (src = pd) || false then None else src) with
           | None => pl | Some s => Some s end) = src) as ->.
  { case_bool_decide as E; simpl; [by apply Hpl|by rewrite Es]. }
  f_equal; try done. clear -IH Hsub. induction ps as [|g ps IHps]; csimpl; [done|].
  inversion IH; inversion Hsub; subst. f_equal; auto.
Qed.

(** C5: dumping a function and loading the bytes back gives the same function: for a
    well-typed function accepted by the verifier, nested at most as deep as C calls allow,
    with source names, [gafqU_dump] reports success and [gafqU_undump] returns exactly that
    function from any division of the bytes into blocks, leaving the stream after them. *)
Theorem undump_dump levels f z rest :
  dumpable levels f -> sourced f -> zok z ->
  pending z = (gafqU_dump append_writer f [] false).1 ++ rest ->
  (gafqU_dump append_writer f [] false).2 = 0 /\
  exists z', gafqU_undump levels z = Ok (f, z') /\ zok z' /\ pending z' = rest.
Proof.
  rewrite dump_appended. intros Hd Hs Hz Hp. split; [done|].
  destruct (undump_enc false levels f Hd z rest Hz Hp) as (z' & E & H). exists z'.
  rewrite image_id in E; [done|done|]. inversion Hs as [f' s Es _]; subst. by rewrite Es.
Qed.

(** a stripped dump loads back to the same code, constants and nested functions, without
    line information, local names and upvalue names, and with the source "=?". *)
Theorem undump_stripped levels f z rest :
  dumpable levels f -> zok z ->
  pending z = (gafqU_dump append_writer f [] true).1 ++ rest ->
  exists g z', gafqU_undump levels z = Ok (g, z') /\ zok z' /\ pending z' = rest /\
    code g = code f /\ k g = k f /\ nups g = nups f /\ maxstacksize g = maxstacksize f /\
    length (p g) = length (p f) /\
    lineinfo g = [] /\ locvars g = [] /\ upvalues g = [] /\ source g = Some (str "=?").
Proof.
  rewrite dump_appended. intros Hd Hz Hp.
  destruct (undump_enc true levels f Hd z rest Hz Hp) as (z' & E & Hz' & Hr).
  exists (image true None (Some (str "=?")) f), z'. split; [done|]. split; [done|]. split; [done|].
  destruct f. cbn. rewrite orb_true_r, length_fmap. done.
Qed.

(** ** The writer's status *)

Section Writer.

Context {W : Type} (writer : W -> bytes -> W * Z).

Lemma block_stops b (D : @DumpState W) : d_status D <> 0 -> DumpBlock writer b D = D.
Proof. intros H. unfold DumpBlock. destruct (Z.eqb_spec (d_status D) 0); done. Qed.

Lemma string_stops s (D : @DumpState W) : d_status D <> 0 -> DumpString writer s D = D.
Proof. intros H. destruct s; simpl; unfold DumpSize; by rewrite ?(block_stops _ D H). Qed.

Lemma each_stops {A} (d : A -> @DumpState W -> @DumpState W) l (D : @DumpState W) :
  Forall (fun x => d x D = D) l -> dump_each d l D = D.
Proof. induction 1 as [|x l Hx _ IH]; simpl; [done|]. by rewrite Hx. Qed.

Lemma constant_stops c (D : @DumpState W) : d_status D <> 0 -> DumpConstant writer c D = D.
Proof.
  intros H. unfold DumpConstant, DumpChar, DumpNumber. rewrite (block_stops _ D H).
  destruct c; [done|by apply block_stops|by apply block_stops|by apply string_stops].
Qed.

Lemma debug_stops f (D : @DumpState W) : d_status D <> 0 -> DumpDebug writer f D = D.
Proof.
  intros H. unfold DumpDebug, DumpVector, DumpInt. rewrite !(block_stops _ D H).
  rewrite (each_stops (DumpLocVar writer)).
  - rewrite (block_stops _ D H). apply each_stops, Forall_true. intros s. by apply string_stops.
  - apply Forall_true. intros v. unfold DumpLocVar, DumpInt.
    rewrite (string_stops _ D H). by rewrite !(block_stops _ D H).
Qed.

Lemma function_stops f q (D : @DumpState W) : d_status D <> 0 -> DumpFunction writer f q D = D.
Proof.
  intros H. revert q. induction f as [f IH] using Proto_nested_ind. intros q.
  destruct f as [ks cs ps li lvs uv src ld lld nu np iv ms]. cbn [DumpFunction Proto.p] in *.
  unfold DumpInt, DumpChar, DumpCode, DumpVector, DumpInt.
  rewrite (string_stops _ D H). rewrite !(block_stops _ D H).
  unfold DumpConstants, DumpInt. cbn [Proto.p Proto.k source].
  rewrite (block_stops _ D H).
  rewrite (each_stops (DumpConstant writer)) by (apply Forall_true; intros c; by apply constant_stops).
  rewrite (block_stops _ D H). rewrite each_stops by (eapply Forall_impl; [exact IH|]; auto).
  by apply debug_stops.
Qed.

(** once the writer has returned an error, [gafqU_dump] does not call it again and
    returns that status: a writer that fails on the header is called exactly once. *)
Theorem dump_reports_error f data strip :
  (writer data header_buffer).2 <> 0 -> gafqU_dump writer f data strip = writer data header_buffer.
Proof.
  intros H. unfold gafqU_dump, DumpHeader, DumpBlock. cbn [d_status d_data d_strip]. simpl.
  destruct (writer data header_buffer) as [data' status] eqn:E. simpl in H.
  by rewrite function_stops.
Qed.

End Writer.

(** ** What loading guarantees *)

(** [f] and the functions nested in it are accepted by the verifier *)
Inductive verified : Proto -> Prop :=
  | verified_intro f : gafqG_checkcode f = Pass true -> Forall verified (p f) -> verified f.

Lemma load_bind_ok {A B} (m : load A) (f : A -> load B) z b z' :
  (m ≫= f) z = Ok (b, z') -> exists a z1, m z = Ok (a, z1) /\ f a z1 = Ok (b, z').
Proof. unfold mbind, load_bind. destruct (m z) as [[a z1]|]; [eauto|done]. Qed.

Lemma load_each_all {A} (P : A -> Prop) n (m : load A) z l z' :
  (forall z x z', m z = Ok (x, z') -> P x) -> load_each n m z = Ok (l, z') -> Forall P l.
Proof.
  intros H. revert z l z'. induction n as [|n IH]; intros z l z'; simpl.
  - intros [= <- _]. constructor.
  - intros (x & z1 & Hx & E)%load_bind_ok. apply load_bind_ok in E as (l' & z2 & Hl & E).
    injection E as <- _. constructor; [by eapply H|by eapply IH].
Qed.

Lemma LoadFunction_verified levels q z f z' : LoadFunction levels q z = Ok (f, z') -> verified f.
Proof.
  revert q z f z'. induction levels as [|levels IH]; intros q z f z'; [done|]. cbn [LoadFunction].
  do 8 (intros (? & ? & _ & H)%load_bind_ok; revert H; cbv zeta).
  intros ([ks ps] & z1 & Hkp & H)%load_bind_ok. apply load_bind_ok in H as ([[li lv] uv] & z2 & _ & H).
  cbn [fst snd] in H. destruct (gafqG_checkcode _) as [b| |] eqn:Ec; try done.
  apply load_bind_ok in H as (u & z3 & Hb & H). injection H as <- _.
  destruct b; [|done]. constructor; [done|]. cbn [Proto.p].
  unfold LoadConstants in Hkp. repeat (apply load_bind_ok in Hkp as (? & ? & ? & Hkp)).
  injection Hkp as _ <- _. eapply load_each_all; [|eassumption]. intros. by eapply IH.
Qed.

(** C40: whatever the input, every function that [gafqU_undump] returns, nested functions
    included, was accepted by the bytecode verifier. *)
Theorem undump_verified levels z f z' : gafqU_undump levels z = Ok (f, z') -> verified f.
Proof.
  unfold gafqU_undump. intros (? & ? & _ & H)%load_bind_ok. by eapply LoadFunction_verified.
Qed.

(** ** Concrete functions *)

(** [return "hi"]: a constant, two instructions and line information *)
Definition hello_proto : Proto :=
  mkProto [KString (Some (str "hi"))]
    [CREATE_ABx (op_num OP_LOADK) 0 0; CREATE_ABC (op_num OP_RETURN) 0 2 0] [] [1; 1] [] []
    (Some (str "@hello")) 0 0 0 0 2 2.

Lemma hello_dumpable levels : dumpable (S levels) hello_proto.
Proof.
  constructor; [|vm_compute; reflexivity|constructor].
  split; unfold int_ok, count_ok, INT_MAX; repeat split; repeat constructor; vm_compute; intros [=].
Qed.

Lemma hello_sourced : sourced hello_proto.
Proof. econstructor; [reflexivity|constructor]. Qed.

(** its dump as a stream of two blocks *)
Definition hello_stream (strip : bool) : ZIO :=
  let b := (gafqU_dump append_writer hello_proto [] strip).1 in
  gafqZ_init [take 20 b; drop 20 b].

Lemma hello_stream_ok strip : zok (hello_stream strip).
Proof. apply zok_init; destruct strip; repeat constructor; vm_compute; intros [=]. Qed.

Lemma undump_dump_witness :
  exists z', gafqU_undump GAFQI_MAXCCALLS (hello_stream false) = Ok (hello_proto, z') /\ pending z' = [].
Proof.
  destruct (undump_dump GAFQI_MAXCCALLS hello_proto (hello_stream false) [] (hello_dumpable 199)
              hello_sourced (hello_stream_ok _)) as (_ & z' & E & _ & Hp); [vm_compute; reflexivity|].
  exists z'. split; [exact E|exact Hp].
Defined.

Lemma undump_stripped_witness :
  exists g z', gafqU_undump GAFQI_MAXCCALLS (hello_stream true) = Ok (g, z') /\ lineinfo g = [].
Proof.
  destruct (undump_stripped GAFQI_MAXCCALLS hello_proto (hello_stream true) [] (hello_dumpable 199)
              (hello_stream_ok _)) as (g & z' & E & _ & _ & _ & _ & _ & _ & _ & Hl & _);
    [vm_compute; reflexivity|].
  exists g, z'. split; [exact E|exact Hl].
Defined.

Lemma dump_reports_error_witness :
  gafqU_dump (fun (n : nat) (b : bytes) => (S n, 7)) hello_proto 0%nat false = (1%nat, 7).
Proof. apply (dump_reports_error (fun (n : nat) (b : bytes) => (S n, 7)) hello_proto 0%nat false). intros [=]. Defined.

Lemma undump_verified_witness : verified hello_proto.
Proof.
  eapply (undump_verified GAFQI_MAXCCALLS (hello_stream false)). vm_compute. reflexivity.
Defined.

(** ** Two flaws of the format *)

(** the header does not fit the buffer it is built in: [gafqU_header] stores 13 bytes
    (the signature has five characters), [GAFQC_HEADERSIZE] is 12. *)
Theorem header_overflows_buffer :
  Z.of_nat (length gafqU_header) = GAFQC_HEADERSIZE + 1 /\
  gafqU_header = header_buffer ++ [0].
Proof. split; vm_compute; reflexivity. Qed.

(** [GETGLOBAL 0 0; RETURN 0 1] with a constant that is a [NULL] string *)
Definition null_proto : Proto :=
  mkProto [KString None] [CREATE_ABx (op_num OP_GETGLOBAL) 0 0; CREATE_ABC (op_num OP_RETURN) 0 1 0]
    [] [] [] [] (Some (str "=?")) 0 0 0 0 0 2.

Definition null_stream : ZIO := gafqZ_init [(gafqU_dump append_writer null_proto [] false).1].

(** a chunk can contain a string constant of size 0, which loads as a [NULL] string: the
    function is accepted by the verifier although [OP_GETGLOBAL] names that constant. *)
Theorem undump_accepts_null_string :
  exists z', gafqU_undump GAFQI_MAXCCALLS null_stream = Ok (null_proto, z').
Proof. eexists. vm_compute. reflexivity. Qed.
