(* ===== verification/TableClass.v ===== *)
(** * What a table promises to its clients

    The interface between tables (gtable.c) and the parts of the program that
    store into them: [gafqH_set] returns a slot for a key, the client reads and
    writes the slot.  The laws are the finite-map contract of TableSpec.v; the
    code generator (Code.v) is verified against them. *)

From S2P Require Import Prelude Number Object Table TableInv TableInsert TableSet TableSizes TableSpec.

Class TableOps (T S : Type) := {
  th_set : T -> TValue -> res (T * S);      (* gafqH_set *)
  th_read : T -> S -> TValue;               (* the value of a slot *)
  th_write : T -> S -> TValue -> T;         (* setobj2t and the like *)
  th_lookup : T -> TValue -> TValue;        (* *gafqH_get *)
  th_ok : T -> Prop                         (* the representation invariant *)
}.

Class TableLaws (T S : Type) `{TableOps T S} := {
  th_set_law t key : th_ok t -> okkey key = true ->
    (exists t' s, th_set t key = Ok (t', s) /\ th_ok t' /\
       th_read t' s = th_lookup t key /\
       (forall k, okkey k = true -> th_lookup t' k = th_lookup t k) /\
       (forall v, th_ok (th_write t' s v) /\
          forall k, okkey k = true ->
            th_lookup (th_write t' s v) k = if gafqO_rawequalObj key k then v else th_lookup t k)) \/
    th_set t key = Err (RunError "table overflow");
  th_lookup_eq t k k' : th_ok t -> okkey k = true -> gafqO_rawequalObj k k' = true ->
    th_lookup t k = th_lookup t k'
}.

Section Instance_.

Variable ts_hash : pointer -> Z.

#[export] Instance table_ops : TableOps Table Slot := {
  th_set := gafqH_set ts_hash;
  th_read := slot_val;
  th_write := set_slot;
  th_lookup := content ts_hash;
  th_ok := wf ts_hash
}.

#[export] Instance table_laws : TableLaws Table Slot.
Proof.
  split; simpl.
  - intros t key W Hk. destruct (gafqH_set_total ts_hash t key W Hk) as [(t' & s & E & Hs)|[E _]];
      [left|by right].
    exists t', s. split; [done|]. split; [apply Hs|]. split; [|split; [apply Hs|]].
    + rewrite <- (ss_content _ _ _ _ _ Hs key Hk). unfold content. by rewrite (ss_get _ _ _ _ _ Hs).
    + intros v. by apply set_spec_store.
  - intros t k0 k' [W _] Hk E. unfold content. by rewrite (gafqH_get_rawequal ts_hash t k0 k').
Qed.

End Instance_.
