(* ===== verification/Code.v ===== *)
(** * The code generator: gcode.c

    The functions of gcode.c run in a state-and-error monad over the part of
    [FuncState] (gparser.h) they use.  [f->code] and [f->lineinfo] are the words
    written so far; [f->k] the constants; [fs->h] the table that finds a
    constant again, behind the interface of TableClass.v.  An [expdesc] is
    passed and returned by value where C modifies it through a pointer; its
    union is two sets of fields, of which the kind tells the valid one. *)

From S2P Require Import Prelude Number Object Opcodes Table TableInv TableClass.

Inductive expkind :=
  | VVOID | VNIL | VTRUE | VFALSE | VK | VKNUM | VLOCAL | VUPVAL | VGLOBAL | VINDEXED
  | VJMP | VRELOCABLE | VNONRELOC | VCALL | VVARARG.

#[export] Instance expkind_eq_dec : EqDecision expkind.
Proof. solve_decision. Defined.

Record expdesc := mkExp {
  e_k : expkind;
  info : Z;
  aux : Z;
  nval : gafq_Number;
  e_t : Z;
  e_f : Z
}.

Inductive BinOpr :=
  | OPR_ADD | OPR_SUB | OPR_MUL | OPR_DIV | OPR_MOD | OPR_POW | OPR_CONCAT
  | OPR_NE | OPR_EQ | OPR_LT | OPR_LE | OPR_GT | OPR_GE | OPR_AND | OPR_OR | OPR_NOBINOPR.

Inductive UnOpr := OPR_MINUS | OPR_NOT | OPR_LEN | OPR_NOUNOPR.

Definition NO_JUMP : Z := -1.

Definition set_k (e : expdesc) (x : expkind) : expdesc := mkExp x (info e) (aux e) (nval e) (e_t e) (e_f e).
Definition set_info (e : expdesc) (x : Z) : expdesc := mkExp (e_k e) x (aux e) (nval e) (e_t e) (e_f e).
Definition set_aux (e : expdesc) (x : Z) : expdesc := mkExp (e_k e) (info e) x (nval e) (e_t e) (e_f e).
Definition set_nval (e : expdesc) (x : gafq_Number) : expdesc := mkExp (e_k e) (info e) (aux e) x (e_t e) (e_f e).
Definition set_t (e : expdesc) (x : Z) : expdesc := mkExp (e_k e) (info e) (aux e) (nval e) x (e_f e).
Definition set_f (e : expdesc) (x : Z) : expdesc := mkExp (e_k e) (info e) (aux e) (nval e) (e_t e) x.

Definition is_k (e : expdesc) (x : expkind) : bool := bool_decide (e_k e = x).
Definition hasjumps (e : expdesc) : bool := negb (e_t e =? e_f e).
Definition isnumeral (e : expdesc) : bool :=
  is_k e VKNUM && (e_t e =? NO_JUMP) && (e_f e =? NO_JUMP).

Section Generator.

Context {T SL : Type} `{TableOps T SL}.

Record FuncState := mkFS {
  f_code : list Z;
  f_lineinfo : list Z;
  f_k : list TValue;
  f_maxstacksize : Z;
  fs_h : T;
  h_addr : pointer;        (* the address of fs->h *)
  lastline : Z;            (* fs->ls->lastline *)
  pc : Z;
  lasttarget : Z;
  jpc : Z;
  fs_freereg : Z;
  nactvar : Z
}.

Definition with_code (fs : FuncState) (c l : list Z) (p : Z) : FuncState :=
  mkFS c l (f_k fs) (f_maxstacksize fs) (fs_h fs) (h_addr fs) (lastline fs) p (lasttarget fs) (jpc fs)
       (fs_freereg fs) (nactvar fs).
Definition with_k (fs : FuncState) (x : list TValue) (t : T) : FuncState :=
  mkFS (f_code fs) (f_lineinfo fs) x (f_maxstacksize fs) t (h_addr fs) (lastline fs) (pc fs)
       (lasttarget fs) (jpc fs) (fs_freereg fs) (nactvar fs).
Definition with_jumps (fs : FuncState) (target j : Z) : FuncState :=
  mkFS (f_code fs) (f_lineinfo fs) (f_k fs) (f_maxstacksize fs) (fs_h fs) (h_addr fs) (lastline fs) (pc fs)
       target j (fs_freereg fs) (nactvar fs).
Definition with_regs (fs : FuncState) (m r : Z) : FuncState :=
  mkFS (f_code fs) (f_lineinfo fs) (f_k fs) m (fs_h fs) (h_addr fs) (lastline fs) (pc fs)
       (lasttarget fs) (jpc fs) r (nactvar fs).

(** the code generator changes the function state and can raise an error *)
Definition cg (A : Type) : Type := stres FuncState A.

(** [fs->nk] *)
Definition nk (fs : FuncState) : Z := Z.of_nat (length (f_k fs)).

(** reading and changing [fs->f->code[i]] *)
Definition code_at (i : Z) : cg Z := gets (fun fs => vget 0 (f_code fs) i).
Definition change_code (i : Z) (f : Z -> Z) : cg unit :=
  modify (fun fs => with_code fs (vset (f_code fs) i (f (vget 0 (f_code fs) i))) (f_lineinfo fs) (pc fs)).

(** ** Jump lists *)

Definition fixjump (p dest : Z) : cg unit :=
  let offset := dest - (p + 1) in
  if MAXARG_sBx <? Z.abs offset then raise (SyntaxError "control structure too long" 0)
  else change_code p (fun i => SETARG_sBx i offset).

Definition gafqK_getlabel : cg Z :=
  _ ← modify (fun fs => with_jumps fs (pc fs) (jpc fs));
  gets pc.

Definition getjump (p : Z) : cg Z :=
  i ← code_at p;
  let offset := GETARG_sBx i in
  if offset =? NO_JUMP then mret NO_JUMP else mret (p + 1 + offset).

(** the index of the instruction that controls the jump at [p] *)
Definition getjumpcontrol (p : Z) : cg Z :=
  i ← code_at (p - 1);
  mret (if (1 <=? p) && testTMode (GET_OPCODE i) then p - 1 else p).

(** a loop over a jump list visits a jump once, so the length of the code is enough fuel *)
Definition list_fuel : cg nat := gets (fun fs => S (length (f_code fs))).

Fixpoint need_value_loop (fuel : nat) (list : Z) : cg bool :=
  match fuel with
  | O => raise Fuel
  | S fuel' =>
      if list =? NO_JUMP then mret false
      else
        c ← getjumpcontrol list;
        i ← code_at c;
        if negb (GET_OPCODE i =? op_num OP_TESTSET) then mret true
        else next ← getjump list; need_value_loop fuel' next
  end.

Definition need_value (list : Z) : cg bool := fuel ← list_fuel; need_value_loop fuel list.

Definition patchtestreg (node reg : Z) : cg bool :=
  c ← getjumpcontrol node;
  i ← code_at c;
  if negb (GET_OPCODE i =? op_num OP_TESTSET) then mret false
  else
    _ ← (if negb (reg =? NO_REG) && negb (reg =? GETARG_B i) then change_code c (fun i => SETARG_A i reg)
         else change_code c (fun i => CREATE_ABC (op_num OP_TEST) (GETARG_B i) 0 (GETARG_C i)));
    mret true.

Fixpoint removevalues_loop (fuel : nat) (list : Z) : cg unit :=
  match fuel with
  | O => raise Fuel
  | S fuel' =>
      if list =? NO_JUMP then mret tt
      else
        _ ← patchtestreg list NO_REG;
        next ← getjump list;
        removevalues_loop fuel' next
  end.

Definition removevalues (list : Z) : cg unit := fuel ← list_fuel; removevalues_loop fuel list.

Fixpoint patchlist_loop (fuel : nat) (list vtarget reg dtarget : Z) : cg unit :=
  match fuel with
  | O => raise Fuel
  | S fuel' =>
      if list =? NO_JUMP then mret tt
      else
        next ← getjump list;
        b ← patchtestreg list reg;
        _ ← (if (b : bool) then fixjump list vtarget else fixjump list dtarget);
        patchlist_loop fuel' next vtarget reg dtarget
  end.

Definition patchlistaux (list vtarget reg dtarget : Z) : cg unit :=
  fuel ← list_fuel; patchlist_loop fuel list vtarget reg dtarget.

Definition dischargejpc : cg unit :=
  fs ← gets id;
  _ ← patchlistaux (jpc fs) (pc fs) NO_REG (pc fs);
  modify (fun fs => with_jumps fs (lasttarget fs) NO_JUMP).

(** the last element of a jump list *)
Fixpoint last_jump (fuel : nat) (list : Z) : cg Z :=
  match fuel with
  | O => raise Fuel
  | S fuel' =>
      next ← getjump list;
      if negb (next =? NO_JUMP) then last_jump fuel' next else mret list
  end.

(** [gafqK_concat(fs, &l1, l2)]: the new value of [l1] *)
Definition gafqK_concat (l1 l2 : Z) : cg Z :=
  if l2 =? NO_JUMP then mret l1
  else if l1 =? NO_JUMP then mret l2
  else
    fuel ← list_fuel;
    list ← last_jump fuel l1;
    _ ← fixjump list l2;
    mret l1.

Definition gafqK_patchtohere (list : Z) : cg unit :=
  _ ← gafqK_getlabel;
  j ← gets jpc;
  j' ← gafqK_concat j list;
  modify (fun fs => with_jumps fs (lasttarget fs) j').

Definition gafqK_patchlist (list target : Z) : cg unit :=
  p ← gets pc;
  if target =? p then gafqK_patchtohere list
  else patchlistaux list target NO_REG target.

(** ** Emitting instructions *)

Definition gafqK_code (i line : Z) : cg Z :=
  _ ← dischargejpc;
  p ← gets pc;
  if MAX_INT <=? p then raise (RunError "code size overflow")
  else
    _ ← modify (fun fs => with_code fs (take (Z.to_nat p) (f_code fs) ++ [i])
                                       (take (Z.to_nat p) (f_lineinfo fs) ++ [line]) (p + 1));
    mret p.

Definition gafqK_codeABC (o : OpCode) (a b c : Z) : cg Z :=
  l ← gets lastline; gafqK_code (CREATE_ABC (op_num o) a b c) l.

Definition gafqK_codeABx (o : OpCode) (a bc : Z) : cg Z :=
  l ← gets lastline; gafqK_code (CREATE_ABx (op_num o) a bc) l.

Definition gafqK_codeAsBx (o : OpCode) (a sbx : Z) : cg Z := gafqK_codeABx o a (u32 (sbx + MAXARG_sBx)).

Definition gafqK_fixline (line : Z) : cg unit :=
  modify (fun fs => with_code fs (f_code fs) (vset (f_lineinfo fs) (pc fs - 1) line) (pc fs)).

Definition gafqK_jump : cg Z :=
  jpc0 ← gets jpc;
  _ ← modify (fun fs => with_jumps fs (lasttarget fs) NO_JUMP);
  j ← gafqK_codeAsBx OP_JMP 0 NO_JUMP;
  gafqK_concat j jpc0.

Definition gafqK_ret (first nret : Z) : cg unit :=
  _ ← gafqK_codeABC OP_RETURN first (nret + 1) 0; mret tt.

Definition condjump (op : OpCode) (A B C : Z) : cg Z :=
  _ ← gafqK_codeABC op A B C;
  gafqK_jump.

Definition gafqK_nil (from n : Z) : cg unit :=
  fs ← gets id;
  let emit := _ ← gafqK_codeABC OP_LOADNIL from (from + n - 1) 0; mret tt in
  if lasttarget fs <? pc fs then
    if pc fs =? 0 then
      if nactvar fs <=? from then mret tt else emit
    else
      previous ← code_at (pc fs - 1);
      if GET_OPCODE previous =? op_num OP_LOADNIL then
        let pfrom := GETARG_A previous in
        let pto := GETARG_B previous in
        if (pfrom <=? from) && (from <=? pto + 1) then
          if pto <? from + n - 1 then change_code (pc fs - 1) (fun i => SETARG_B i (from + n - 1))
          else mret tt
        else emit
      else emit
  else emit.

(** ** Registers *)

Definition gafqK_checkstack (n : Z) : cg unit :=
  fs ← gets id;
  let newstack := fs_freereg fs + n in
  if f_maxstacksize fs <? newstack then
    if MAXSTACK <=? newstack then raise (SyntaxError "function or expression too complex" 0)
    else modify (fun fs => with_regs fs (u8 newstack) (fs_freereg fs))
  else mret tt.

Definition gafqK_reserveregs (n : Z) : cg unit :=
  _ ← gafqK_checkstack n;
  modify (fun fs => with_regs fs (f_maxstacksize fs) (fs_freereg fs + n)).

Definition freereg (reg : Z) : cg unit :=
  modify (fun fs => if negb (ISK reg) && (nactvar fs <=? reg)
                    then with_regs fs (f_maxstacksize fs) (fs_freereg fs - 1) else fs).

Definition freeexp (e : expdesc) : cg unit :=
  if is_k e VNONRELOC then freereg (info e) else mret tt.

(** ** Constants *)

Definition addk (k v : TValue) : cg Z := fun fs =>
  match th_set (fs_h fs) k with
  | Err e => Err e
  | Ok (h, idx) =>
      match th_read h idx with
      | VNumber n => Ok (gafq_number2int n, with_k fs (f_k fs) h)
      | _ =>
          let h := th_write h idx (VNumber (cast_num (nk fs))) in
          if MAXARG_Bx <=? nk fs then Err (RunError "constant table overflow")
          else Ok (nk fs, with_k fs (f_k fs ++ [v]) h)
      end
  end.

Definition gafqK_stringK (s : pointer) : cg Z := addk (VString s) (VString s).
Definition gafqK_numberK (r : gafq_Number) : cg Z := addk (VNumber r) (VNumber r).
Definition boolK (b : Z) : cg Z := addk (VBoolean b) (VBoolean b).
Definition nilK : cg Z := p ← gets h_addr; addk (VTable p) VNil.

(** ** Expressions *)

Definition gafqK_setreturns (e : expdesc) (nresults : Z) : cg unit :=
  if is_k e VCALL then change_code (info e) (fun i => SETARG_C i (nresults + 1))
  else if is_k e VVARARG then
    _ ← change_code (info e) (fun i => SETARG_B i (nresults + 1));
    r ← gets fs_freereg;
    _ ← change_code (info e) (fun i => SETARG_A i r);
    gafqK_reserveregs 1
  else mret tt.

Definition gafqK_setoneret (e : expdesc) : cg expdesc :=
  if is_k e VCALL then
    i ← code_at (info e);
    mret (set_info (set_k e VNONRELOC) (GETARG_A i))
  else if is_k e VVARARG then
    _ ← change_code (info e) (fun i => SETARG_B i 2);
    mret (set_k e VRELOCABLE)
  else mret e.

Definition gafqK_dischargevars (e : expdesc) : cg expdesc :=
  match e_k e with
  | VLOCAL => mret (set_k e VNONRELOC)
  | VUPVAL =>
      p ← gafqK_codeABC OP_GETUPVAL 0 (info e) 0;
      mret (set_k (set_info e p) VRELOCABLE)
  | VGLOBAL =>
      p ← gafqK_codeABx OP_GETGLOBAL 0 (info e);
      mret (set_k (set_info e p) VRELOCABLE)
  | VINDEXED =>
      _ ← freereg (aux e);
      _ ← freereg (info e);
      p ← gafqK_codeABC OP_GETTABLE 0 (info e) (aux e);
      mret (set_k (set_info e p) VRELOCABLE)
  | VVARARG | VCALL => gafqK_setoneret e
  | _ => mret e
  end.

Definition code_label (A b jump : Z) : cg Z :=
  _ ← gafqK_getlabel;
  gafqK_codeABC OP_LOADBOOL A b jump.

Definition discharge2reg (e : expdesc) (reg : Z) : cg expdesc :=
  e ← gafqK_dischargevars e;
  let done := mret (set_k (set_info e reg) VNONRELOC) in
  match e_k e with
  | VNIL => _ ← gafqK_nil reg 1; done
  | VFALSE | VTRUE => _ ← gafqK_codeABC OP_LOADBOOL reg (if is_k e VTRUE then 1 else 0) 0; done
  | VK => _ ← gafqK_codeABx OP_LOADK reg (info e); done
  | VKNUM => n ← gafqK_numberK (nval e); _ ← gafqK_codeABx OP_LOADK reg n; done
  | VRELOCABLE => _ ← change_code (info e) (fun i => SETARG_A i reg); done
  | VNONRELOC =>
      _ ← (if negb (reg =? info e) then _ ← gafqK_codeABC OP_MOVE reg (info e) 0; mret tt else mret tt);
      done
  | _ => mret e
  end.

Definition discharge2anyreg (e : expdesc) : cg expdesc :=
  if negb (is_k e VNONRELOC) then
    _ ← gafqK_reserveregs 1;
    r ← gets fs_freereg;
    discharge2reg e (r - 1)
  else mret e.

Definition exp2reg (e : expdesc) (reg : Z) : cg expdesc :=
  e ← discharge2reg e reg;
  e ← (if is_k e VJMP then t ← gafqK_concat (e_t e) (info e); mret (set_t e t) else mret e);
  _ ← (if hasjumps e then
         nt ← need_value (e_t e);
         nf ← (if (nt : bool) then mret true else need_value (e_f e));
         '(p_f, p_t) ←
           (if (nf : bool) then
              fj ← (if is_k e VJMP then mret NO_JUMP else gafqK_jump);
              p_f ← code_label reg 0 1;
              p_t ← code_label reg 1 0;
              _ ← gafqK_patchtohere fj;
              mret (p_f, p_t)
            else mret (NO_JUMP, NO_JUMP));
         final ← gafqK_getlabel;
         _ ← patchlistaux (e_f e) final reg p_f;
         patchlistaux (e_t e) final reg p_t
       else mret tt);
  mret (set_k (set_info (set_t (set_f e NO_JUMP) NO_JUMP) reg) VNONRELOC).

Definition gafqK_exp2nextreg (e : expdesc) : cg expdesc :=
  e ← gafqK_dischargevars e;
  _ ← freeexp e;
  _ ← gafqK_reserveregs 1;
  r ← gets fs_freereg;
  exp2reg e (r - 1).

(** returns the register and the descriptor *)
Definition gafqK_exp2anyreg (e : expdesc) : cg (Z * expdesc) :=
  e ← gafqK_dischargevars e;
  let default := e ← gafqK_exp2nextreg e; mret (info e, e) in
  if is_k e VNONRELOC then
    if negb (hasjumps e) then mret (info e, e)
    else
      n ← gets nactvar;
      if n <=? info e then
        let reg := info e in
        e ← exp2reg e reg;
        mret (info e, e)
      else default
  else default.

Definition gafqK_exp2val (e : expdesc) : cg expdesc :=
  if hasjumps e then '(_, e) ← gafqK_exp2anyreg e; mret e
  else gafqK_dischargevars e.

Definition gafqK_exp2RK (e : expdesc) : cg (Z * expdesc) :=
  e ← gafqK_exp2val e;
  match e_k e with
  | VKNUM | VTRUE | VFALSE | VNIL =>
      n ← gets nk;
      if n <=? MAXINDEXRK then
        i ← (if is_k e VNIL then nilK
             else if is_k e VKNUM then gafqK_numberK (nval e)
             else boolK (if is_k e VTRUE then 1 else 0));
        mret (RKASK i, set_k (set_info e i) VK)
      else gafqK_exp2anyreg e
  | VK => if info e <=? MAXINDEXRK then mret (RKASK (info e), e) else gafqK_exp2anyreg e
  | _ => gafqK_exp2anyreg e
  end.

Definition gafqK_storevar (var ex : expdesc) : cg expdesc :=
  match e_k var with
  | VLOCAL =>
      _ ← freeexp ex;
      exp2reg ex (info var)
  | VUPVAL =>
      '(e, ex) ← gafqK_exp2anyreg ex;
      _ ← gafqK_codeABC OP_SETUPVAL e (info var) 0;
      _ ← freeexp ex;
      mret ex
  | VGLOBAL =>
      '(e, ex) ← gafqK_exp2anyreg ex;
      _ ← gafqK_codeABx OP_SETGLOBAL e (info var);
      _ ← freeexp ex;
      mret ex
  | VINDEXED =>
      '(e, ex) ← gafqK_exp2RK ex;
      _ ← gafqK_codeABC OP_SETTABLE (info var) (aux var) e;
      _ ← freeexp ex;
      mret ex
  | _ => _ ← freeexp ex; mret ex
  end.

Definition gafqK_self (e key : expdesc) : cg (expdesc * expdesc) :=
  '(_, e) ← gafqK_exp2anyreg e;
  _ ← freeexp e;
  func ← gets fs_freereg;
  _ ← gafqK_reserveregs 2;
  '(rk, key) ← gafqK_exp2RK key;
  _ ← gafqK_codeABC OP_SELF func (info e) rk;
  _ ← freeexp key;
  mret (set_k (set_info e func) VNONRELOC, key).

Definition invertjump (e : expdesc) : cg unit :=
  c ← getjumpcontrol (info e);
  change_code c (fun i => SETARG_A i (if GETARG_A i =? 0 then 1 else 0)).

(** returns the jump and the descriptor *)
Definition jumponcond (e : expdesc) (cond : Z) : cg (Z * expdesc) :=
  let rest :=
    e ← discharge2anyreg e;
    _ ← freeexp e;
    j ← condjump OP_TESTSET NO_REG (info e) cond;
    mret (j, e) in
  if is_k e VRELOCABLE then
    ie ← code_at (info e);
    if GET_OPCODE ie =? op_num OP_NOT then
      _ ← modify (fun fs => with_code fs (f_code fs) (f_lineinfo fs) (pc fs - 1));
      j ← condjump OP_TEST (GETARG_B ie) 0 (if cond =? 0 then 1 else 0);
      mret (j, e)
    else rest
  else rest.

Definition gafqK_goiftrue (e : expdesc) : cg expdesc :=
  e ← gafqK_dischargevars e;
  '(p, e) ←
    match e_k e with
    | VK | VKNUM | VTRUE => mret (NO_JUMP, e)
    | VJMP => _ ← invertjump e; mret (info e, e)
    | _ => jumponcond e 0
    end;
  f ← gafqK_concat (e_f e) p;
  let e := set_f e f in
  _ ← gafqK_patchtohere (e_t e);
  mret (set_t e NO_JUMP).

Definition gafqK_goiffalse (e : expdesc) : cg expdesc :=
  e ← gafqK_dischargevars e;
  '(p, e) ←
    match e_k e with
    | VNIL | VFALSE => mret (NO_JUMP, e)
    | VJMP => mret (info e, e)
    | _ => jumponcond e 1
    end;
  t ← gafqK_concat (e_t e) p;
  let e := set_t e t in
  _ ← gafqK_patchtohere (e_f e);
  mret (set_f e NO_JUMP).

Definition codenot (e : expdesc) : cg expdesc :=
  e ← gafqK_dischargevars e;
  e ←
    match e_k e with
    | VNIL | VFALSE => mret (set_k e VTRUE)
    | VK | VKNUM | VTRUE => mret (set_k e VFALSE)
    | VJMP => _ ← invertjump e; mret e
    | VRELOCABLE | VNONRELOC =>
        e ← discharge2anyreg e;
        _ ← freeexp e;
        p ← gafqK_codeABC OP_NOT 0 (info e) 0;
        mret (set_k (set_info e p) VRELOCABLE)
    | _ => mret e
    end;
  let e := set_t (set_f e (e_t e)) (e_f e) in
  _ ← removevalues (e_f e);
  _ ← removevalues (e_t e);
  mret e.

Definition gafqK_indexed (t k : expdesc) : cg (expdesc * expdesc) :=
  '(rk, k) ← gafqK_exp2RK k;
  mret (set_k (set_aux t rk) VINDEXED, k).

Context (gafqi_numpow : gafq_Number -> gafq_Number -> gafq_Number).

(** the folded descriptor, [None] for the result 0 *)
Definition constfolding (op : OpCode) (e1 e2 : expdesc) : option expdesc :=
  if negb (isnumeral e1) || negb (isnumeral e2) then None
  else
    let v1 := nval e1 in
    let v2 := nval e2 in
    let fold r := if gafqi_numisnan r then None else Some (set_nval e1 r) in
    match op with
    | OP_ADD => fold (gafqi_numadd v1 v2)
    | OP_SUB => fold (gafqi_numsub v1 v2)
    | OP_MUL => fold (gafqi_nummul v1 v2)
    | OP_DIV => if gafqi_numeq v2 (cast_num 0) then None else fold (gafqi_numdiv v1 v2)
    | OP_MOD => if gafqi_numeq v2 (cast_num 0) then None else fold (gafqi_nummod v1 v2)
    | OP_POW => fold (gafqi_numpow v1 v2)
    | OP_UNM => fold (gafqi_numunm v1)
    | OP_LEN => None
    | _ => fold (cast_num 0)
    end.

Definition codearith (op : OpCode) (e1 e2 : expdesc) : cg (expdesc * expdesc) :=
  match constfolding op e1 e2 with
  | Some e1 => mret (e1, e2)
  | None =>
      '(o2, e2) ← (if negb (bool_decide (op = OP_UNM)) && negb (bool_decide (op = OP_LEN))
                   then gafqK_exp2RK e2 else mret (0, e2));
      '(o1, e1) ← gafqK_exp2RK e1;
      _ ← (if o2 <? o1 then _ ← freeexp e1; freeexp e2 else _ ← freeexp e2; freeexp e1);
      p ← gafqK_codeABC op 0 o1 o2;
      mret (set_k (set_info e1 p) VRELOCABLE, e2)
  end.

Definition codecomp (op : OpCode) (cond : Z) (e1 e2 : expdesc) : cg (expdesc * expdesc) :=
  '(o1, e1) ← gafqK_exp2RK e1;
  '(o2, e2) ← gafqK_exp2RK e2;
  _ ← freeexp e2;
  _ ← freeexp e1;
  let '(o1, o2, cond) :=
    if (cond =? 0) && negb (bool_decide (op = OP_EQ)) then (o2, o1, 1) else (o1, o2, cond) in
  p ← condjump op cond o1 o2;
  mret (set_k (set_info e1 p) VJMP, e2).

Definition gafqK_prefix (op : UnOpr) (e : expdesc) : cg expdesc :=
  let e2 := mkExp VKNUM 0 0 (cast_num 0) NO_JUMP NO_JUMP in
  match op with
  | OPR_MINUS =>
      e ← (if negb (isnumeral e) then '(_, e) ← gafqK_exp2anyreg e; mret e else mret e);
      '(e, _) ← codearith OP_UNM e e2;
      mret e
  | OPR_NOT => codenot e
  | OPR_LEN =>
      '(_, e) ← gafqK_exp2anyreg e;
      '(e, _) ← codearith OP_LEN e e2;
      mret e
  | OPR_NOUNOPR => mret e
  end.

Definition gafqK_infix (op : BinOpr) (v : expdesc) : cg expdesc :=
  match op with
  | OPR_AND => gafqK_goiftrue v
  | OPR_OR => gafqK_goiffalse v
  | OPR_CONCAT => gafqK_exp2nextreg v
  | OPR_ADD | OPR_SUB | OPR_MUL | OPR_DIV | OPR_MOD | OPR_POW =>
      if negb (isnumeral v) then '(_, v) ← gafqK_exp2RK v; mret v else mret v
  | _ => '(_, v) ← gafqK_exp2RK v; mret v
  end.

(** the new values of [*e1] and [*e2] *)
Definition gafqK_posfix (op : BinOpr) (e1 e2 : expdesc) : cg (expdesc * expdesc) :=
  match op with
  | OPR_AND =>
      e2 ← gafqK_dischargevars e2;
      f ← gafqK_concat (e_f e2) (e_f e1);
      let e2 := set_f e2 f in
      mret (e2, e2)
  | OPR_OR =>
      e2 ← gafqK_dischargevars e2;
      t ← gafqK_concat (e_t e2) (e_t e1);
      let e2 := set_t e2 t in
      mret (e2, e2)
  | OPR_CONCAT =>
      e2 ← gafqK_exp2val e2;
      i2 ← code_at (info e2);
      if is_k e2 VRELOCABLE && (GET_OPCODE i2 =? op_num OP_CONCAT) then
        _ ← freeexp e1;
        _ ← change_code (info e2) (fun i => SETARG_B i (info e1));
        mret (set_info (set_k e1 VRELOCABLE) (info e2), e2)
      else
        e2 ← gafqK_exp2nextreg e2;
        codearith OP_CONCAT e1 e2
  | OPR_ADD => codearith OP_ADD e1 e2
  | OPR_SUB => codearith OP_SUB e1 e2
  | OPR_MUL => codearith OP_MUL e1 e2
  | OPR_DIV => codearith OP_DIV e1 e2
  | OPR_MOD => codearith OP_MOD e1 e2
  | OPR_POW => codearith OP_POW e1 e2
  | OPR_EQ => codecomp OP_EQ 1 e1 e2
  | OPR_NE => codecomp OP_EQ 0 e1 e2
  | OPR_LT => codecomp OP_LT 1 e1 e2
  | OPR_LE => codecomp OP_LE 1 e1 e2
  | OPR_GT => codecomp OP_LT 0 e1 e2
  | OPR_GE => codecomp OP_LE 0 e1 e2
  | OPR_NOBINOPR => mret (e1, e2)
  end.

(** C's division truncates *)
Definition gafqK_setlist (base nelems tostore : Z) : cg unit :=
  let c := Z.quot (nelems - 1) LFIELDS_PER_FLUSH + 1 in
  let b := if tostore =? GAFQ_MULTRET then 0 else tostore in
  _ ← (if c <=? MAXARG_C then gafqK_codeABC OP_SETLIST base b c
       else
         _ ← gafqK_codeABC OP_SETLIST base b 0;
         l ← gets lastline;
         gafqK_code (u32 c) l);
  modify (fun fs => with_regs fs (f_maxstacksize fs) (base + 1)).

End Generator.
