(* ===== verification/CodeJumps.v ===== *)
(** * Jump lists of the code generator

    Unresolved jumps of gcode.c are linked through their own [sBx] fields.  The
    lemmas describe [getjump], [gafqK_concat] and [patchlistaux] as operations
    on the list of the jumps' positions; the theorems say that emitting an
    instruction resolves the jumps that were waiting for it. *)

From stdpp Require Import sets.
From S2P Require Import Prelude Number Object Opcodes Table TableInv TableClass Code.

(** ** The fields of patched words *)

Lemma GETARG_sBx_range i : - MAXARG_sBx <= GETARG_sBx i <= MAXARG_sBx + 1.
Proof. unfold GETARG_sBx. destruct (GETARG_range i) as (_ & _ & _ & _ & H). fields. lia. Qed.

Lemma sBx_get_set i o : Z.abs o <= MAXARG_sBx -> GETARG_sBx (SETARG_sBx i o) = o.
Proof.
  intros H. unfold GETARG_sBx, SETARG_sBx. fields.
  rewrite u32_id by (unfold UINT_MOD; lia). unfold GETARG_Bx, SETARG_Bx. fields.
  rewrite get_set_same by lia. lia.
Qed.

Lemma opcode_set_sBx i o : GET_OPCODE (SETARG_sBx i o) = GET_OPCODE i.
Proof. unfold SETARG_sBx, SETARG_Bx, GET_OPCODE. fields. by rewrite get_set_other by lia. Qed.

(** a word in a jump list: an instruction with a signed jump offset *)
Definition is_jump (i : Z) : Prop := getOpMode (GET_OPCODE i) = iAsBx.

Definition is_testset (i : Z) : bool := GET_OPCODE i =? op_num OP_TESTSET.

Lemma testset_not_jump i : is_testset i = true -> ~ is_jump i.
Proof. unfold is_testset, is_jump. intros ->%Z.eqb_eq. discriminate. Qed.

Lemma jump_not_test i : is_jump i -> testTMode (GET_OPCODE i) = false.
Proof.
  unfold is_jump. destruct (op_of (GET_OPCODE i)) as [o|] eqn:E.
  - apply op_num_of in E. rewrite <- E. destruct o; vm_compute; congruence.
  - destruct (GETARG_range i) as (Ho & _).
    assert (NUM_OPCODES <= GET_OPCODE i) as Hn.
    { destruct (Z_lt_le_dec (GET_OPCODE i) NUM_OPCODES); [|done].
      destruct (op_of_Some (GET_OPCODE i)) as [x Hx]; [lia|]. congruence. }
    unfold getOpMode, testTMode, opmodes_at, vget.
    destruct (Z.ltb_spec (GET_OPCODE i) 0); [lia|].
    rewrite nth_overflow; [discriminate|]. change NUM_OPCODES with 38 in Hn. simpl. lia.
Qed.

(** ** Lists of jumps in a code vector *)

Section Lists.

Variable c : list Z.

Definition jump_next (p : Z) : Z :=
  let o := GETARG_sBx (vget 0 c p) in if o =? NO_JUMP then NO_JUMP else p + 1 + o.

(** where the jump at [p] goes *)
Definition jump_dest (p : Z) : Z := p + 1 + GETARG_sBx (vget 0 c p).

Inductive jlist : Z -> list Z -> Prop :=
  | jl_nil : jlist NO_JUMP []
  | jl_cons p js : 0 <= p < zlen c -> is_jump (vget 0 c p) -> jlist (jump_next p) js ->
      jlist p (p :: js).

Lemma jlist_fun l js js' : jlist l js -> jlist l js' -> js = js'.
Proof.
  intros H. revert js'. induction H as [|p js Hp _ _ IH]; intros js' H'; inversion H'; subst;
    try done; try (unfold NO_JUMP in *; lia).
  f_equal. by apply IH.
Qed.

Lemma jlist_suffix l js p : jlist l js -> p ∈ js -> exists js1 js2, js = js1 ++ js2 /\ jlist p js2.
Proof.
  induction 1 as [|q js Hq Hj H IH]; [by intros ?%not_elem_of_nil|].
  intros [->|Hp]%elem_of_cons.
  - exists [], (q :: js). split; [done|]. by constructor.
  - destruct (IH Hp) as (js1 & js2 & -> & H2). by exists (q :: js1), js2.
Qed.

Lemma jlist_NoDup l js : jlist l js -> NoDup js.
Proof.
  induction 1 as [|q js Hq Hj H IH]; constructor; [|done]. intros Hin.
  destruct (jlist_suffix _ _ _ H Hin) as (js1 & js2 & -> & H2).
  assert (q :: js1 ++ js2 = js2) as E by (eapply jlist_fun; [|exact H2]; by constructor).
  apply (f_equal length) in E. simpl in E. rewrite length_app in E. lia.
Qed.

Lemma jlist_elem l js p : jlist l js -> p ∈ js -> 0 <= p < zlen c /\ is_jump (vget 0 c p).
Proof.
  induction 1 as [|q js Hq Hj H IH]; [by intros ?%not_elem_of_nil|].
  intros [->|Hp]%elem_of_cons; [done|by apply IH].
Qed.

Lemma jlist_length l js : jlist l js -> (length js <= length c)%nat.
Proof.
  intros H. transitivity (length (seqZ 0 (zlen c))); [|rewrite length_seqZ; unfold zlen; lia].
  apply submseteq_length, NoDup_submseteq; [by eapply jlist_NoDup|].
  intros p Hp. apply elem_of_seqZ. destruct (jlist_elem _ _ _ H Hp). lia.
Qed.

Lemma jlist_head l js : jlist l js -> l <> NO_JUMP -> exists js', js = l :: js' /\ jlist (jump_next l) js'.
Proof. inversion 1; [done|]. eauto. Qed.

Lemma jlist_nil l : jlist l [] -> l = NO_JUMP.
Proof. by inversion 1. Qed.

End Lists.

Lemma jlist_ext c c' l js :
  zlen c <= zlen c' -> (forall p, p ∈ js -> vget 0 c' p = vget 0 c p) -> jlist c l js -> jlist c' l js.
Proof.
  intros Hl Hw H. induction H as [|p js Hp Hj H IH]; [constructor|].
  assert (vget 0 c' p = vget 0 c p) as E by (apply Hw; constructor).
  constructor; [lia|by rewrite E|].
  unfold jump_next. rewrite E. apply IH. intros q Hq. apply Hw. by constructor.
Qed.

(** appending a list: the last jump of the first is linked to the head of the second *)
Lemma jlist_app c l js p l2 js2 :
  jlist c l (js ++ [p]) -> jlist c l2 js2 -> l2 <> NO_JUMP -> (forall q, q ∈ js2 -> q ∉ js ++ [p]) ->
  Z.abs (l2 - (p + 1)) <= MAXARG_sBx ->
  jlist (vset c p (SETARG_sBx (vget 0 c p) (l2 - (p + 1)))) l (js ++ [p] ++ js2).
Proof.
  intros H H2 Hl2 Hd Hoff. set (c' := vset _ _ _).
  assert (0 <= p < zlen c) as Hp by (eapply jlist_elem; [exact H|set_solver]).
  assert (zlen c' = zlen c) as El by (unfold zlen, c'; by rewrite length_vset).
  assert (jlist c' l2 js2) as H2'.
  { apply (jlist_ext c); [by rewrite El| |done]. intros q Hq. unfold c'. rewrite vget_vset by done.
    rewrite decide_False; [done|]. intros <-. apply (Hd p Hq). set_solver. }
  assert (l2 <> p) as Hne.
  { destruct (jlist_head _ _ _ H2 Hl2) as (js' & -> & _). intros ->. apply (Hd p); set_solver. }
  assert (p ∉ js) as Hpj.
  { apply jlist_NoDup, NoDup_app in H as (_ & Hpj & _). intros Hin. apply (Hpj p Hin). set_solver. }
  clear H2 Hd. revert l H Hpj. induction js as [|q js IH]; intros l H Hpj.
  - inversion H as [|? ? _ Hj _]; subst. simpl. constructor; [by rewrite El| |].
    + unfold c'. rewrite vget_vset by done. rewrite decide_True by done. unfold is_jump in *.
      by rewrite opcode_set_sBx.
    + assert (jump_next c' p = l2) as ->; [|done]. unfold jump_next, c'. rewrite vget_vset by done.
      rewrite decide_True, sBx_get_set by done. unfold NO_JUMP. zbool.
  - inversion H as [|? ? Hq Hj Hr]; subst. apply not_elem_of_cons in Hpj as [Hpq Hpj].
    assert (vget 0 c' q = vget 0 c q) as E.
    { unfold c'. rewrite vget_vset by done. by rewrite decide_False by done. }
    simpl. constructor; [by rewrite El|by rewrite E|]. unfold jump_next. rewrite E. by apply IH.
Qed.

(** ** The operations on jump lists *)

Section Operations.

Context {T SL : Type} `{TableOps T SL}.
Implicit Type fs : FuncState (T:=T).

(** the state with another code vector of the same length *)
Definition recode fs (c : list Z) : FuncState := with_code fs c (f_lineinfo fs) (pc fs).

Lemma recode_id fs : recode fs (f_code fs) = fs.
Proof. by destruct fs. Qed.

(** the word that controls the jump at [p] is a [TESTSET] *)
Definition testset_before (c : list Z) (p : Z) : bool := (1 <=? p) && is_testset (vget 0 c (p - 1)).

(** what [patchtestreg] makes of a [TESTSET] *)
Definition patched_test (reg i : Z) : Z :=
  if negb (reg =? NO_REG) && negb (reg =? GETARG_B i) then SETARG_A i reg
  else CREATE_ABC (op_num OP_TEST) (GETARG_B i) 0 (GETARG_C i).

Lemma testset_tmode i : is_testset i = true -> testTMode (GET_OPCODE i) = true.
Proof. unfold is_testset. intros ->%Z.eqb_eq. reflexivity. Qed.

Lemma patchtestreg_eq fs p reg :
  is_jump (vget 0 (f_code fs) p) ->
  patchtestreg p reg fs =
    Ok (testset_before (f_code fs) p,
        if testset_before (f_code fs) p
        then recode fs (vset (f_code fs) (p - 1) (patched_test reg (vget 0 (f_code fs) (p - 1)))) else fs).
Proof.
  intros Hj. unfold patchtestreg, getjumpcontrol, code_at, gets, mbind, stres_bind, mret, stres_ret, testset_before.
  assert (is_testset (vget 0 (f_code fs) p) = false) as Hn.
  { apply not_true_is_false. intros ?%testset_not_jump. done. }
  unfold is_testset in *. destruct (Z.leb_spec 1 p); cbn [andb]; [|by rewrite Hn].
  destruct (testTMode _) eqn:E.
  - clear Hn. destruct (_ =? op_num OP_TESTSET) eqn:E2; [|done]. cbn [negb]. unfold patched_test.
    by destruct (negb (reg =? NO_REG) && _).
  - rewrite Hn. clear Hn. cbn [negb]. destruct (_ =? op_num OP_TESTSET) eqn:E2; [|done].
    apply testset_tmode in E2. congruence.
Qed.

Lemma fixjump_eq fs p dest :
  Z.abs (dest - (p + 1)) <= MAXARG_sBx ->
  fixjump p dest fs =
    Ok (tt, recode fs (vset (f_code fs) p (SETARG_sBx (vget 0 (f_code fs) p) (dest - (p + 1))))).
Proof. intros Hd. unfold fixjump. destruct (Z.ltb_spec MAXARG_sBx (Z.abs (dest - (p + 1)))); [lia|done]. Qed.

Lemma getjump_eq fs p : getjump p fs = Ok (jump_next (f_code fs) p, fs).
Proof.
  unfold getjump, code_at, gets, mbind, stres_bind, mret, stres_ret, jump_next. by destruct (_ =? NO_JUMP).
Qed.

(** one round of [patchlistaux] on the code *)
Definition patch1 (vtarget reg dtarget : Z) (c : list Z) (p : Z) : list Z :=
  let c1 := if testset_before c p then vset c (p - 1) (patched_test reg (vget 0 c (p - 1))) else c in
  vset c1 p (SETARG_sBx (vget 0 c p) ((if testset_before c p then vtarget else dtarget) - (p + 1))).

(** what [patchlistaux] does to the code when it runs over the jumps [js] *)
Definition patched (vtarget reg dtarget : Z) (js : list Z) (c c' : list Z) : Prop :=
  zlen c' = zlen c /\
  forall q, vget 0 c' q =
    if decide (q ∈ js) then
      SETARG_sBx (vget 0 c q) ((if testset_before c q then vtarget else dtarget) - (q + 1))
    else if decide (q + 1 ∈ js /\ testset_before c (q + 1) = true) then patched_test reg (vget 0 c q)
    else vget 0 c q.

Lemma testset_before_range c p : testset_before c p = true -> 0 <= p - 1.
Proof. unfold testset_before. intros [? _]%andb_true_iff. lia. Qed.

Lemma patch1_patched vt reg dt c p :
  0 <= p < zlen c -> is_jump (vget 0 c p) -> patched vt reg dt [p] c (patch1 vt reg dt c p).
Proof.
  intros Hp Hj. unfold patched, patch1. split.
  { unfold zlen. rewrite length_vset. destruct (testset_before c p); by rewrite ?length_vset. }
  intros q. set (c1 := if testset_before c p then _ else c).
  assert (zlen c1 = zlen c) as El.
  { unfold c1, zlen. destruct (testset_before c p); by rewrite ?length_vset. }
  rewrite vget_vset by lia. destruct (decide (p = q)) as [<-|Hne].
  - by rewrite decide_True by set_solver.
  - rewrite decide_False by set_solver. unfold c1. destruct (testset_before c p) eqn:Et.
    + pose proof (testset_before_range _ _ Et). rewrite vget_vset by lia. case_decide as E1.
      * subst q. replace (p - 1 + 1) with p by lia. by rewrite decide_True by set_solver.
      * rewrite decide_False; [done|]. intros [?%list_elem_of_singleton _]. lia.
    + rewrite decide_False; [done|]. intros [->%list_elem_of_singleton ?]. congruence.
Qed.

Lemma testset_before_jump c p : is_jump (vget 0 c p) -> testset_before c (p + 1) = false.
Proof.
  intros Hj. unfold testset_before. replace (p + 1 - 1) with p by lia.
  destruct (is_testset _) eqn:E; [by apply testset_not_jump in E|]. by rewrite andb_false_r.
Qed.

(** a patched word is a jump as before, and controls the same jumps *)
Lemma patched_jump vt reg dt p c c1 q :
  is_jump (vget 0 c p) -> patched vt reg dt [p] c c1 -> is_jump (vget 0 c q) -> q <> p ->
  vget 0 c1 q = vget 0 c q.
Proof.
  intros Hp [_ Hw] Hq Hne. rewrite Hw, decide_False by set_solver. apply decide_False.
  rewrite testset_before_jump by done. naive_solver.
Qed.

Lemma patched_control vt reg dt p c c1 q :
  is_jump (vget 0 c p) -> patched vt reg dt [p] c c1 -> q <> p ->
  testset_before c1 q = testset_before c q.
Proof.
  intros Hp [_ Hw] Hne. destruct (decide (q = p + 1)) as [->|Hq].
  - rewrite !testset_before_jump; [done|done|]. rewrite Hw, decide_True by set_solver. unfold is_jump.
    by rewrite opcode_set_sBx.
  - unfold testset_before. rewrite Hw, decide_False, decide_False; [done| |].
    + intros [?%list_elem_of_singleton _]. lia.
    + intros ?%list_elem_of_singleton. lia.
Qed.

Lemma patched_cons vt reg dt p js c c1 c' :
  p ∉ js -> (forall q, q ∈ p :: js -> is_jump (vget 0 c q)) ->
  patched vt reg dt [p] c c1 -> patched vt reg dt js c1 c' -> patched vt reg dt (p :: js) c c'.
Proof.
  intros Hn Hj P1 P2. assert (is_jump (vget 0 c p)) as Hp by (apply Hj; set_solver).
  split; [destruct P1, P2; congruence|]. intros q. rewrite (proj2 P2 q).
  destruct (decide (q ∈ js)) as [Hq|Hq].
  { rewrite (decide_True (P:=q ∈ p :: js)) by set_solver. assert (q <> p) by (by intros ->).
    rewrite (patched_jump _ _ _ _ _ _ q Hp P1), (patched_control _ _ _ _ _ _ q Hp P1); [done|done| |done].
    apply Hj. set_solver. }
  destruct (decide (q = p)) as [->|Hqp].
  { rewrite (decide_True (P:=p ∈ p :: js)) by set_solver.
    rewrite (patched_control _ _ _ _ _ _ _ Hp P1), testset_before_jump by (done || lia).
    rewrite decide_False by naive_solver. rewrite (proj2 P1 p). by rewrite decide_True by set_solver. }
  rewrite (decide_False (P:=q ∈ p :: js)) by set_solver.
  pose proof (proj2 P1 q) as E. rewrite (decide_False (P:=q ∈ [p])) in E by set_solver.
  destruct (decide (q + 1 = p)) as [Hq1|Hq1].
  - rewrite Hq1 in *. rewrite decide_False by tauto. rewrite E.
    destruct (testset_before c p) eqn:Et.
    + rewrite !decide_True by set_solver. done.
    + rewrite !decide_False by naive_solver. done.
  - rewrite (decide_False (P:=q + 1 ∈ [p] /\ _)) in E by set_solver.
    rewrite (patched_control _ _ _ _ _ _ _ Hp P1), E by done.
    apply decide_ext. set_solver.
Qed.

Lemma patched_nil vt reg dt c : patched vt reg dt [] c c.
Proof. split; [done|]. intros q. rewrite !decide_False by set_solver. done. Qed.

(** [patchlistaux] patches every jump of the list, within its fuel *)
Lemma patchlist_loop_spec vt reg dt js fuel l fs :
  jlist (f_code fs) l js -> (length js < fuel)%nat ->
  (forall j, j ∈ js -> Z.abs (vt - (j + 1)) <= MAXARG_sBx /\ Z.abs (dt - (j + 1)) <= MAXARG_sBx) ->
  exists c', patchlist_loop fuel l vt reg dt fs = Ok (tt, recode fs c') /\
             patched vt reg dt js (f_code fs) c'.
Proof.
  revert js l fs. induction fuel as [|fuel IH]; intros js l fs Hl Hf Hr; [lia|].
  destruct js as [|p js].
  { apply jlist_nil in Hl as ->. exists (f_code fs). rewrite recode_id. by split; [|apply patched_nil]. }
  inversion Hl as [|? ? Hp Hj Hl']; subst. set (c := f_code fs) in *.
  pose proof (patch1_patched vt reg dt c p Hp Hj) as P1.
  pose proof (jlist_NoDup _ _ _ Hl) as [Hn _]%NoDup_cons.
  destruct (Hr p) as [Hrv Hrd]; [set_solver|].
  destruct (IH js (jump_next c p) (recode fs (patch1 vt reg dt c p))) as (c' & E & P2).
  - apply (jlist_ext c); [simpl; rewrite (proj1 P1); lia| |done]. intros q Hq. eapply patched_jump; [exact Hj|exact P1| |].
    + by eapply jlist_elem.
    + by intros ->.
  - simpl in Hf. lia.
  - intros j Hq. apply Hr. set_solver.
  - exists c'. split.
    + cbn [patchlist_loop]. unfold NO_JUMP at 1. destruct (Z.eqb_spec p (-1)); [lia|].
      unfold mbind, stres_bind at 1 2 3. rewrite getjump_eq, patchtestreg_eq by done. fold c.
      transitivity (patchlist_loop fuel (jump_next c p) vt reg dt (recode fs (patch1 vt reg dt c p))); [|done].
      unfold patch1. destruct (testset_before c p) eqn:Et.
      * rewrite fixjump_eq by done. do 4 f_equal. cbn [recode with_code f_code].
        rewrite vget_vset_ne by lia. done.
      * rewrite fixjump_eq by done. done.
    + eapply patched_cons; [exact Hn| |exact P1|exact P2]. intros q Hq. by apply (jlist_elem _ _ _ q Hl).
Qed.

Lemma list_fuel_eq fs : list_fuel fs = Ok (S (length (f_code fs)), fs).
Proof. done. Qed.

(** the positions of a list are near a target in the same code *)
Lemma jlist_near c l js t j :
  zlen c <= MAXARG_sBx -> 0 <= t <= zlen c -> jlist c l js -> j ∈ js ->
  Z.abs (t - (j + 1)) <= MAXARG_sBx.
Proof. intros Hc Ht Hl Hj. destruct (jlist_elem _ _ _ _ Hl Hj) as [? _]. lia. Qed.

Lemma patchlistaux_spec vt reg dt js l fs :
  jlist (f_code fs) l js ->
  (forall j, j ∈ js -> Z.abs (vt - (j + 1)) <= MAXARG_sBx /\ Z.abs (dt - (j + 1)) <= MAXARG_sBx) ->
  exists c', patchlistaux l vt reg dt fs = Ok (tt, recode fs c') /\ patched vt reg dt js (f_code fs) c'.
Proof.
  intros Hl Hr. unfold patchlistaux, mbind, stres_bind. rewrite list_fuel_eq.
  apply patchlist_loop_spec; [done| |done]. pose proof (jlist_length _ _ _ Hl). lia.
Qed.

Lemma last_jump_eq fs js p fuel l :
  jlist (f_code fs) l (js ++ [p]) -> (length js < fuel)%nat -> last_jump fuel l fs = Ok (p, fs).
Proof.
  revert l fuel. induction js as [|q js IH]; intros l fuel Hl Hf; (destruct fuel as [|fuel]; [lia|]);
    inversion Hl as [|? ? Hp Hj Hl']; subst; cbn [last_jump]; unfold mbind, stres_bind; rewrite getjump_eq.
  - apply jlist_nil in Hl' as ->. done.
  - destruct (Z.eqb_spec (jump_next (f_code fs) q) NO_JUMP) as [E|_].
    + rewrite E in Hl'. inversion Hl'; [by destruct js|]. unfold NO_JUMP in *. lia.
    + apply IH; [done|]. simpl in Hf. lia.
Qed.

(** [gafqK_concat] appends the second list to the first; only jumps of the first change *)
Lemma gafqK_concat_spec fs l1 js1 l2 js2 :
  jlist (f_code fs) l1 js1 -> jlist (f_code fs) l2 js2 -> (forall j, j ∈ js1 -> j ∉ js2) ->
  zlen (f_code fs) <= MAXARG_sBx ->
  exists l c', gafqK_concat l1 l2 fs = Ok (l, recode fs c') /\ jlist c' l (js1 ++ js2) /\
    zlen c' = zlen (f_code fs) /\
    (forall q, GET_OPCODE (vget 0 c' q) = GET_OPCODE (vget 0 (f_code fs) q)) /\
    (forall q, q ∉ js1 -> vget 0 c' q = vget 0 (f_code fs) q).
Proof.
  intros H1 H2 Hd Hc. unfold gafqK_concat.
  destruct (Z.eqb_spec l2 NO_JUMP) as [->|Hn2].
  { exists l1, (f_code fs). rewrite recode_id.
    assert (js2 = []) as -> by (eapply jlist_fun; [exact H2|constructor]). by rewrite app_nil_r. }
  destruct (Z.eqb_spec l1 NO_JUMP) as [->|Hn1].
  { exists l2, (f_code fs). rewrite recode_id.
    assert (js1 = []) as -> by (eapply jlist_fun; [exact H1|constructor]). done. }
  destruct (jlist_head _ _ _ H2 Hn2) as (js2' & E2 & _).
  destruct js1 as [|p js1 _] using rev_ind; [by apply jlist_nil in H1|].
  assert (0 <= l2 < zlen (f_code fs)) as Hl2 by (eapply jlist_elem; [exact H2|subst; set_solver]).
  assert (Z.abs (l2 - (p + 1)) <= MAXARG_sBx) as Hr.
  { eapply jlist_near; [done| |exact H1|set_solver]. lia. }
  pose proof (jlist_length _ _ _ H1) as Hlen. rewrite length_app in Hlen. simpl in Hlen.
  unfold mbind, stres_bind. rewrite list_fuel_eq. rewrite (last_jump_eq _ js1 p) by (done || lia).
  rewrite fixjump_eq by done. eexists l1, _. split; [done|]. rewrite <- app_assoc.
  split; [apply jlist_app; [done..| |done]; intros q Hq Hq1; by apply (Hd q Hq1)|].
  assert (0 <= p < zlen (f_code fs)) as Hp by (eapply jlist_elem; [exact H1|set_solver]).
  split; [unfold zlen; by rewrite length_vset|]. split; intros q; rewrite vget_vset by done.
  - case_decide as E; [|done]. subst q. apply opcode_set_sBx.
  - intros Hq. apply decide_False. intros ->. set_solver.
Qed.

(** ** Emitting an instruction *)

(** the code of [fs'] is the code of [fs] with the jumps [js] sent to [target];
    the [TESTSET]s that control them are tests now *)
Definition jumps_land (js : list Z) (target : Z) (c c' : list Z) : Prop :=
  (forall j, j ∈ js -> GET_OPCODE (vget 0 c' j) = GET_OPCODE (vget 0 c j) /\ jump_dest c' j = target) /\
  (forall q, q ∉ js -> 0 <= q < target ->
     vget 0 c' q = vget 0 c q \/
     (q + 1 ∈ js /\ is_testset (vget 0 c q) = true /\
      vget 0 c' q = CREATE_ABC (op_num OP_TEST) (GETARG_B (vget 0 c q)) 0 (GETARG_C (vget 0 c q)))).

Lemma patched_lands js t c c' l :
  jlist c l js -> (forall j, j ∈ js -> Z.abs (t - (j + 1)) <= MAXARG_sBx) ->
  patched t NO_REG t js c c' -> jumps_land js t c c'.
Proof.
  intros Hl Hr [_ Hw]. split.
  - intros j Hj. rewrite Hw, decide_True by done. split; [apply opcode_set_sBx|].
    unfold jump_dest. rewrite Hw, decide_True by done.
    replace (if testset_before c j then t else t) with t by (by destruct (testset_before c j)).
    rewrite sBx_get_set by (by apply Hr). lia.
  - intros q Hq _. rewrite Hw, decide_False by done. case_decide as E; [right|by left].
    destruct E as [E1 E2]. split; [done|]. split; [|done].
    unfold testset_before in E2. apply andb_true_iff in E2 as [_ E2].
    by replace (q + 1 - 1) with q in E2 by lia.
Qed.

Lemma vget_take (c : list Z) n q : 0 <= q < n -> n <= zlen c -> vget 0 (take (Z.to_nat n) c) q = vget 0 c q.
Proof.
  unfold zlen. intros Hq Hn. unfold vget. destruct (Z.ltb_spec q 0); [lia|].
  rewrite !nth_lookup. by rewrite lookup_take_lt by lia.
Qed.

Lemma gafqK_code_spec fs i line js :
  0 <= pc fs <= zlen (f_code fs) -> zlen (f_code fs) <= MAXARG_sBx ->
  jlist (f_code fs) (jpc fs) js -> (forall j, j ∈ js -> j < pc fs) ->
  exists c', gafqK_code i line fs =
      Ok (pc fs, with_jumps (with_code fs (c' ++ [i]) (take (Z.to_nat (pc fs)) (f_lineinfo fs) ++ [line]) (pc fs + 1))
                            (lasttarget fs) NO_JUMP) /\
    zlen c' = pc fs /\ jumps_land js (pc fs) (f_code fs) c'.
Proof.
  intros Hpc Hc Hl Hj.
  assert (forall j, j ∈ js -> Z.abs (pc fs - (j + 1)) <= MAXARG_sBx) as Hr.
  { intros j Hin. by eapply jlist_near; [done| |exact Hl|]. }
  destruct (patchlistaux_spec (pc fs) NO_REG (pc fs) js (jpc fs) fs Hl) as (c1 & E & P); [naive_solver|].
  pose proof (patched_lands _ _ _ _ _ Hl Hr P) as [L1 L2]. destruct P as [Hz _].
  exists (take (Z.to_nat (pc fs)) c1). split; [|split].
  - unfold gafqK_code, dischargejpc, mbind, stres_bind, gets at 1 2, id. rewrite E. simpl.
    destruct (Z.leb_spec MAX_INT (pc fs)); [|done]. unfold MAX_INT, INT_MAX in *.
    change MAXARG_sBx with 131071 in Hc. lia.
  - unfold zlen in *. rewrite length_take. lia.
  - split.
    + intros j Hin. destruct (jlist_elem _ _ _ _ Hl Hin) as [? _]. specialize (Hj j Hin).
      unfold jump_dest. rewrite !vget_take by lia. by apply L1.
    + intros q Hq Hr'. rewrite vget_take by lia. by apply L2.
Qed.

(** a code state: [pc] words written, the pending jumps [js] *)
Record code_ok (js : list Z) fs : Prop := {
  ok_pc : pc fs = zlen (f_code fs);
  ok_small : zlen (f_code fs) <= MAXARG_sBx;
  ok_jpc : jlist (f_code fs) (jpc fs) js
}.

Lemma patchtohere_spec fs js l js2 :
  code_ok js fs -> jlist (f_code fs) l js2 -> (forall j, j ∈ js -> j ∉ js2) ->
  exists l' c', gafqK_patchtohere l fs = Ok (tt, with_jumps (recode fs c') (pc fs) l') /\
    code_ok (js ++ js2) (with_jumps (recode fs c') (pc fs) l') /\
    (forall q, GET_OPCODE (vget 0 c' q) = GET_OPCODE (vget 0 (f_code fs) q)) /\
    (forall q, q ∉ js -> vget 0 c' q = vget 0 (f_code fs) q).
Proof.
  intros [Hpc Hs Hl] H2 Hd.
  destruct (gafqK_concat_spec (with_jumps fs (pc fs) (jpc fs)) (jpc fs) js l js2)
    as (l' & c' & E & Hl' & Hz & Ho & Hw); [done..|].
  exists l', c'. split; [|split; [|done]].
  - unfold gafqK_patchtohere, gafqK_getlabel, mbind, stres_bind, modify, gets at 1 2. simpl. rewrite E. done.
  - simpl in Hz. split; simpl; [congruence|lia|done].
Qed.

(** C24: after [gafqK_patchtohere(fs, list)] the next instruction emitted is the
    target of every jump of [list] and of every jump that was already pending;
    the other words stay, except that a [TESTSET] in front of such a jump
    becomes a [TEST] *)
Theorem patchtohere_lands fs js l js2 i line :
  code_ok js fs -> jlist (f_code fs) l js2 -> (forall j, j ∈ js -> j ∉ js2) ->
  exists fs', (_ ← gafqK_patchtohere l; gafqK_code i line) fs = Ok (pc fs, fs') /\
    pc fs' = pc fs + 1 /\ jpc fs' = NO_JUMP /\ zlen (f_code fs') = pc fs' /\
    vget 0 (f_code fs') (pc fs) = i /\ jumps_land (js ++ js2) (pc fs) (f_code fs) (f_code fs').
Proof.
  intros Hok H2 Hd.
  destruct (patchtohere_spec fs js l js2 Hok H2 Hd) as (l' & c1 & E & Hok1 & Ho & Hw).
  pose proof (ok_pc _ _ Hok1) as Hpc1.
  destruct (gafqK_code_spec (with_jumps (recode fs c1) (pc fs) l') i line (js ++ js2))
    as (c' & E' & Hz & L1 & L2); [rewrite Hpc1; unfold zlen; lia|apply Hok1|apply Hok1| |].
  { intros j Hj. destruct (jlist_elem _ _ _ _ (ok_jpc _ _ Hok1) Hj) as [? _]. rewrite (ok_pc _ _ Hok1). lia. }
  eexists. split; [unfold mbind, stres_bind; rewrite E; exact E'|]. simpl in *.
  assert (forall q, 0 <= q < pc fs -> vget 0 (c' ++ [i]) q = vget 0 c' q) as Hq.
  { intros q Hq. unfold zlen in Hz. unfold vget. destruct (Z.ltb_spec q 0); [lia|].
    by rewrite app_nth1 by lia. }
  split; [done|]. split; [done|]. split; [unfold zlen in *; rewrite length_app; simpl; lia|]. split.
  { unfold zlen in Hz. unfold vget. destruct (Z.ltb_spec (pc fs) 0); [lia|].
    rewrite app_nth2 by lia. replace (Z.to_nat (pc fs) - length c')%nat with 0%nat by lia. done. }
  split.
  - intros j Hj. assert (0 <= j < pc fs).
    { destruct (jlist_elem _ _ _ _ (ok_jpc _ _ Hok1) Hj) as [? _]. pose proof (ok_pc _ _ Hok1). simpl in *. lia. }
    unfold jump_dest. rewrite Hq by done. destruct (L1 j Hj) as [-> L]. by rewrite Ho.
  - intros q Hn Hr. rewrite Hq by done. rewrite <- (Hw q) by set_solver. by apply L2.
Qed.

Definition jmp_word : Z := CREATE_ABx (op_num OP_JMP) 0 (u32 (NO_JUMP + MAXARG_sBx)).

Lemma jmp_word_jump : is_jump jmp_word /\ GETARG_sBx jmp_word = NO_JUMP.
Proof. by vm_compute. Qed.

Lemma vget_snoc_old (c : list Z) i q : 0 <= q < zlen c -> vget 0 (c ++ [i]) q = vget 0 c q.
Proof. unfold zlen, vget. intros Hq. destruct (Z.ltb_spec q 0); [lia|]. by rewrite app_nth1 by lia. Qed.

Lemma vget_snoc_new (c : list Z) i : vget 0 (c ++ [i]) (zlen c) = i.
Proof.
  unfold zlen, vget. destruct (Z.ltb_spec (Z.of_nat (length c)) 0); [lia|].
  rewrite app_nth2 by lia. by replace (Z.to_nat _ - length c)%nat with 0%nat by lia.
Qed.

Lemma zlen_snoc (c : list Z) i : zlen (c ++ [i]) = zlen c + 1.
Proof. unfold zlen. rewrite length_app. simpl. lia. Qed.

(** emitting with no jump pending *)
Lemma gafqK_code_plain fs i line :
  code_ok [] fs -> pc fs < MAXARG_sBx ->
  exists fs', gafqK_code i line fs = Ok (pc fs, fs') /\ code_ok [] fs' /\
    pc fs' = pc fs + 1 /\ vget 0 (f_code fs') (pc fs) = i /\
    (forall q, 0 <= q < pc fs -> vget 0 (f_code fs') q = vget 0 (f_code fs) q) /\
    fs' = with_code fs (f_code fs') (f_lineinfo fs') (pc fs + 1).
Proof.
  intros [Hpc Hs Hl] Hlt. pose proof (jlist_nil _ _ Hl) as Hj.
  destruct (gafqK_code_spec fs i line []) as (c' & E & Hz & L1 & L2);
    [unfold zlen in *; lia|done|done|by intros ? ?%not_elem_of_nil|].
  eexists. split; [exact E|]. simpl. split.
  { split; simpl; [rewrite zlen_snoc; lia|rewrite zlen_snoc; lia|constructor]. }
  split; [done|]. split; [rewrite <- Hz; apply vget_snoc_new|]. split.
  - intros q Hq. rewrite vget_snoc_old by lia.
    destruct (L2 q) as [->|[Hn _]]; [by apply not_elem_of_nil|done|done|]. by apply not_elem_of_nil in Hn.
  - destruct fs; simpl in *. by rewrite Hj.
Qed.

(** [gafqK_jump] emits one jump and returns the list of it and the jumps that
    were waiting for this position: none of them is lost and none is resolved *)
Theorem jump_keeps_pending fs js :
  code_ok js fs -> pc fs < MAXARG_sBx ->
  exists j fs', gafqK_jump fs = Ok (j, fs') /\ jlist (f_code fs') j (pc fs :: js) /\
    code_ok [] fs' /\ pc fs' = pc fs + 1 /\
    GET_OPCODE (vget 0 (f_code fs') (pc fs)) = op_num OP_JMP /\
    (forall q, 0 <= q < pc fs -> vget 0 (f_code fs') q = vget 0 (f_code fs) q).
Proof.
  intros [Hpc Hs Hl] Hlt. set (fs1 := with_jumps fs (lasttarget fs) NO_JUMP).
  destruct (gafqK_code_plain fs1 jmp_word (lastline fs)) as (fs2 & E & [Hpc2 Hs2 Hl2] & Hp2 & Hj & Hw & E2);
    [split; [done|done|constructor]|done|]. simpl in Hp2, Hj, Hw.
  assert (forall j, j ∈ js -> 0 <= j < pc fs) as Hjs.
  { intros j Hin. rewrite Hpc. by eapply jlist_elem. }
  destruct (gafqK_concat_spec fs2 (pc fs) [pc fs] (jpc fs) js) as (l & c3 & E3 & Hl3 & Hz3 & Ho3 & Hw3).
  - constructor; [unfold zlen in *; lia|rewrite Hj; apply jmp_word_jump|]. unfold jump_next. rewrite Hj.
    rewrite (proj2 jmp_word_jump). constructor.
  - apply (jlist_ext (f_code fs)); [lia| |done]. intros q Hq. apply Hw. by apply Hjs.
  - intros j ->%list_elem_of_singleton Hin. specialize (Hjs _ Hin). lia.
  - lia.
  - exists l, (recode fs2 c3). split.
    { transitivity ((j ← gafqK_code jmp_word (lastline fs); gafqK_concat j (jpc fs)) fs1); [done|].
      unfold mbind, stres_bind. rewrite E. exact E3. }
    split; [exact Hl3|].
    split; [split; simpl in *; [lia|lia|rewrite E2; constructor]|]. split; [done|].
    split; [simpl; rewrite Ho3, Hj; reflexivity|].
    intros q Hq. simpl. rewrite Hw3; [by apply Hw|]. rewrite list_elem_of_singleton. lia.
Qed.

(** [gafqK_patchlist] to a position already passed sends every jump of the
    list there *)
Theorem patchlist_lands fs js l target :
  zlen (f_code fs) <= MAXARG_sBx -> jlist (f_code fs) l js ->
  0 <= target <= zlen (f_code fs) -> target <> pc fs ->
  exists fs', gafqK_patchlist l target fs = Ok (tt, fs') /\
    (forall j, j ∈ js -> GET_OPCODE (vget 0 (f_code fs') j) = GET_OPCODE (vget 0 (f_code fs) j) /\
                         jump_dest (f_code fs') j = target) /\
    zlen (f_code fs') = zlen (f_code fs) /\ jpc fs' = jpc fs /\ pc fs' = pc fs.
Proof.
  intros Hs Hl Ht Hne.
  assert (forall j, j ∈ js -> Z.abs (target - (j + 1)) <= MAXARG_sBx) as Hr.
  { intros j Hj. by eapply jlist_near. }
  destruct (patchlistaux_spec target NO_REG target js l fs Hl) as (c' & E & P); [naive_solver|].
  exists (recode fs c'). split; [|split].
  - unfold gafqK_patchlist, mbind, stres_bind, gets at 1. destruct (Z.eqb_spec target (pc fs)); [done|exact E].
  - apply (patched_lands _ _ _ _ _ Hl Hr P).
  - split; [apply P|done].
Qed.

Lemma control_testset fs p :
  is_jump (vget 0 (f_code fs) p) ->
  (c ← getjumpcontrol p; i ← code_at c; mret (GET_OPCODE i =? op_num OP_TESTSET)) fs =
    Ok (testset_before (f_code fs) p, fs).
Proof.
  intros Hj. pose proof (patchtestreg_eq fs p NO_REG Hj) as E. revert E.
  unfold patchtestreg, getjumpcontrol, code_at, mbind, stres_bind, gets, mret, stres_ret, is_testset.
  destruct (_ =? op_num OP_TESTSET).
  - by destruct (testset_before _ _).
  - intros [=E _]. by rewrite <- E.
Qed.

(** [need_value] tells whether some jump of the list is not controlled by a
    [TESTSET], and so whether the value has to be loaded explicitly *)
Theorem need_value_iff fs l js :
  jlist (f_code fs) l js ->
  need_value l fs = Ok (existsb (fun j => negb (testset_before (f_code fs) j)) js, fs).
Proof.
  intros Hl. unfold need_value, mbind, stres_bind. rewrite list_fuel_eq.
  pose proof (jlist_length _ _ _ Hl) as Hf. revert Hf. generalize (length (f_code fs)) as n.
  intros n. revert l js Hl. induction n as [|n IH]; intros l js Hl Hf.
  { destruct js as [|p js]; [by apply jlist_nil in Hl as ->|]. simpl in Hf. lia. }
  destruct js as [|p js]; [by apply jlist_nil in Hl as ->|]. simpl in Hf.
  inversion Hl as [|? ? Hp Hj Hl']; subst. cbn [need_value_loop existsb].
  unfold NO_JUMP at 1. destruct (Z.eqb_spec p (-1)); [lia|].
  pose proof (control_testset fs p Hj) as E. revert E.
  unfold getjumpcontrol, code_at, mbind, stres_bind, gets, mret, stres_ret.
  destruct (_ =? op_num OP_TESTSET); intros [=<-]; cbn [negb orb]; [|done].
  rewrite getjump_eq. apply IH; [done|lia].
Qed.

End Operations.

(** ** A code with a pending and a free jump *)

Definition ex_code : list Z := [CREATE_ABC (op_num OP_TESTSET) NO_REG 1 0; jmp_word; jmp_word].

Definition ex_state : FuncState (T:=unit) :=
  mkFS ex_code [1; 1; 1] [] 2 tt 1 1 3 0 1 2 0.

Lemma ex_jumps p : (p = 1 \/ p = 2) -> jlist ex_code p [p].
Proof.
  intros Hp. constructor; [unfold zlen; simpl; lia|by destruct Hp as [-> | ->]; vm_compute|].
  replace (jump_next ex_code p) with NO_JUMP by (by destruct Hp as [-> | ->]; vm_compute). constructor.
Qed.

Lemma ex_state_ok : code_ok [1] ex_state.
Proof. split; [done|by vm_compute|]. apply ex_jumps. by left. Qed.

(** the operations under consideration do not use the table *)
#[local] Instance unit_table : TableOps unit unit :=
  {| th_set _ _ := Err (RunError "table overflow"); th_read _ _ := VNil; th_write t _ _ := t;
     th_lookup _ _ := VNil; th_ok _ := True |}.

Lemma patchtohere_lands_witness :
  exists fs', (_ ← gafqK_patchtohere 2; gafqK_code 0 1) ex_state = Ok (3, fs') /\
    jump_dest (f_code fs') 1 = 3 /\ jump_dest (f_code fs') 2 = 3.
Proof.
  destruct (patchtohere_lands ex_state [1] 2 [2] 0 1) as (fs' & E & _ & _ & _ & _ & L & _).
  - exact ex_state_ok.
  - apply ex_jumps. by right.
  - intros j ->%list_elem_of_singleton ?%list_elem_of_singleton. lia.
  - exists fs'. split; [exact E|]. split; apply L; simpl; rewrite !elem_of_cons; tauto.
Defined.

Lemma jump_keeps_pending_witness :
  exists j fs', gafqK_jump ex_state = Ok (j, fs') /\ jlist (f_code fs') j [3; 1].
Proof.
  destruct (jump_keeps_pending ex_state [1] ex_state_ok) as (j & fs' & E & L & _); [by vm_compute|].
  by exists j, fs'.
Defined.

Lemma patchlist_lands_witness :
  exists fs', gafqK_patchlist 2 0 ex_state = Ok (tt, fs') /\ jump_dest (f_code fs') 2 = 0.
Proof.
  destruct (patchlist_lands ex_state [2] 2 0) as (fs' & E & L & _).
  - by vm_compute.
  - apply ex_jumps. by right.
  - unfold zlen. simpl. lia.
  - done.
  - exists fs'. split; [exact E|]. apply L, list_elem_of_singleton; done.
Defined.

Lemma need_value_iff_witness :
  need_value 1 ex_state = Ok (false, ex_state) /\ need_value 2 ex_state = Ok (true, ex_state).
Proof.
  split; [exact (need_value_iff ex_state 1 [1] (ex_jumps 1 (or_introl eq_refl)))|].
  exact (need_value_iff ex_state 2 [2] (ex_jumps 2 (or_intror eq_refl))).
Defined.
