(* ===== verification/CodeConst.v ===== *)
(** * Constants and registers of the code generator

    [addk] of gcode.c finds a constant again through the table [fs->h], which
    maps it to its index in [f->k].  The lemmas keep the two in step and are
    proved against the interface of tables (TableClass.v); the theorems give the
    contract of [gafqK_stringK], [gafqK_numberK], [boolK] and [nilK].  The second
    part bounds the registers, and describes constant folding, the merging of
    [LOADNIL]s and [gafqK_setlist]. *)

From Stdlib Require Import SpecFloat.
From stdpp Require Import sets.
From S2P Require Import Prelude Number Object Opcodes Table TableInv TableSpec TableClass Code CodeJumps.

(** ** The constant table *)

(** the values that constants have *)
Definition is_const (v : TValue) : bool :=
  match v with
  | VNil | VBoolean _ | VString _ => true
  | VNumber n => negb (gafqi_numisnan n)
  | _ => false
  end.

Section Constants.

Context {T SL : Type} `{TableLaws T SL}.
Implicit Type fs : FuncState (T:=T).

(** the key of a constant in [fs->h]: [nil] cannot be one and is entered under the table itself *)
Definition key_of fs (v : TValue) : TValue :=
  match v with VNil => VTable (h_addr fs) | _ => v end.

Lemma key_ok fs v : is_const v = true -> okkey (key_of fs v) = true.
Proof. by destruct v as [| | |[]| | | | | | |]. Qed.

Lemma const_not_nan v : is_const v = true -> is_nan v = false.
Proof. destruct v; try done. apply negb_true_iff. Qed.

Lemma key_of_eq fs v w :
  is_const v = true -> is_const w = true ->
  gafqO_rawequalObj (key_of fs v) (key_of fs w) = gafqO_rawequalObj v w.
Proof. destruct v, w; try done. intros _ _. apply Z.eqb_refl. Qed.

(** [fs->h] and [f->k] agree: the table maps exactly the constants to their indices *)
Record consts_ok fs : Prop := {
  co_h : th_ok (fs_h fs);
  co_nk : nk fs <= MAXARG_Bx;
  co_const : Forall (fun v => is_const v = true) (f_k fs);
  co_index i v : f_k fs !! i = Some v ->
    th_lookup (fs_h fs) (key_of fs v) = VNumber (cast_num (Z.of_nat i));
  co_key key : okkey key = true ->
    th_lookup (fs_h fs) key = VNil \/
    exists i v, f_k fs !! i = Some v /\ gafqO_rawequalObj key (key_of fs v) = true
}.

(** a constant operation for [v] returns the index of a constant raw-equal to
    [v]; it appends [v] exactly when there is none, and changes nothing else *)
Definition const_index fs (v : TValue) (m : cg Z) : Prop :=
  (exists i fs' v', m fs = Ok (i, fs') /\ consts_ok fs' /\
     0 <= i /\ f_k fs' !! Z.to_nat i = Some v' /\ gafqO_rawequalObj v v' = true /\
     (f_k fs' = f_k fs \/
      (f_k fs' = f_k fs ++ [v] /\ Forall (fun w => gafqO_rawequalObj v w = false) (f_k fs))) /\
     fs' = with_k fs (f_k fs') (fs_h fs')) \/
  m fs = Err (RunError "table overflow") \/
  (m fs = Err (RunError "constant table overflow") /\ nk fs = MAXARG_Bx).

Lemma index_int_range fs i : nk fs <= MAXARG_Bx -> (i <= length (f_k fs))%nat -> int_range (Z.of_nat i).
Proof.
  change MAXARG_Bx with 262143. unfold nk, int_range, INT_MIN, INT_MAX. lia.
Qed.

Lemma absent_const fs v :
  consts_ok fs -> is_const v = true -> th_lookup (fs_h fs) (key_of fs v) = VNil ->
  Forall (fun w => gafqO_rawequalObj v w = false) (f_k fs).
Proof.
  intros [Hh _ Hc Hi _] Hv E. apply Forall_lookup. intros i w Hw. apply not_true_is_false. intros Heq.
  pose proof (proj1 (Forall_lookup _ _) Hc _ _ Hw) as Hcw. rewrite <- (key_of_eq fs) in Heq by done.
  rewrite (th_lookup_eq _ _ _ Hh (key_ok fs v Hv) Heq), (Hi _ _ Hw) in E. done.
Qed.

(** entering a new constant keeps the correspondence *)
Lemma consts_ok_add fs v h' :
  consts_ok fs -> is_const v = true -> nk fs < MAXARG_Bx -> th_ok h' ->
  Forall (fun w => gafqO_rawequalObj v w = false) (f_k fs) ->
  (forall k, okkey k = true -> th_lookup h' k =
     if gafqO_rawequalObj (key_of fs v) k then VNumber (cast_num (nk fs)) else th_lookup (fs_h fs) k) ->
  consts_ok (with_k fs (f_k fs ++ [v]) h').
Proof.
  intros [Hh Hn Hc Hi Hk] Hv Hlt Hh' Hab Hl. split; simpl; [done| | | |].
  - unfold nk in *. simpl. rewrite length_app. simpl. lia.
  - apply Forall_app. by repeat constructor.
  - intros i w Hw. change (key_of (with_k fs (f_k fs ++ [v]) h') w) with (key_of fs w).
    apply lookup_app_Some in Hw as [Hw|[Hlen Hw]].
    + pose proof (proj1 (Forall_lookup _ _) Hc _ _ Hw) as Hcw. simpl in Hcw.
      pose proof (proj1 (Forall_lookup _ _) Hab _ _ Hw) as Hne. simpl in Hne.
      rewrite Hl by (by apply key_ok). rewrite key_of_eq, Hne by done. by apply Hi.
    + apply list_lookup_singleton_Some in Hw as [Hz <-]. rewrite Hl by (by apply key_ok).
      rewrite key_of_eq, rawequal_refl by (done || by apply const_not_nan). unfold nk. do 2 f_equal. lia.
  - intros key Ho. change (key_of (with_k fs (f_k fs ++ [v]) h')) with (key_of fs). rewrite Hl by done.
    destruct (gafqO_rawequalObj (key_of fs v) key) eqn:E.
    + right. exists (length (f_k fs)), v. rewrite rawequal_sym. split; [|done].
      by rewrite lookup_app_r, Nat.sub_diag by lia.
    + destruct (Hk key Ho) as [?|(i & w & Hw & Hr)]; [by left|right]. exists i, w. split; [|done].
      rewrite lookup_app_l; [done|]. by eapply lookup_lt_Some.
Qed.

(** a table that maps the keys as before *)
Lemma consts_ok_same fs h' :
  consts_ok fs -> th_ok h' -> (forall k, okkey k = true -> th_lookup h' k = th_lookup (fs_h fs) k) ->
  consts_ok (with_k fs (f_k fs) h').
Proof.
  intros [Hh Hn Hc Hi Hk] Hh' Hl. split; simpl; [done|done|done| |].
  - intros i v Hv. rewrite Hl; [by apply (Hi i v)|]. apply (key_ok fs).
    exact (proj1 (Forall_lookup _ _) Hc _ _ Hv).
  - intros key Ho. rewrite Hl by done. by apply Hk.
Qed.

Lemma addk_spec fs v :
  consts_ok fs -> is_const v = true -> const_index fs v (addk (key_of fs v) v).
Proof.
  intros Hok Hv. pose proof (key_ok fs v Hv) as Hkey.
  destruct (th_set_law _ _ (co_h _ Hok) Hkey) as [(h' & s & E & Hh' & Hr & Hl & Hw)|E];
    [|right; left; unfold addk; by rewrite E].
  destruct (co_key _ Hok _ Hkey) as [Hnil|(i & w & Hi & Heq)].
  - pose proof (absent_const _ _ Hok Hv Hnil) as Hab. unfold const_index, addk. rewrite E, Hr, Hnil.
    pose proof (co_nk _ Hok) as Hn. destruct (Z.leb_spec MAXARG_Bx (nk fs)); [right; right; split; [done|lia]|].
    destruct (Hw (VNumber (cast_num (nk fs)))) as [Hh2 Hl2].
    left. eexists (nk fs), _, v. split; [reflexivity|]. split; [by apply consts_ok_add|]. simpl.
    split; [unfold nk; lia|]. split.
    { unfold nk. by rewrite Nat2Z.id, lookup_app_r, Nat.sub_diag by lia. }
    split; [by apply rawequal_refl, const_not_nan|]. split; [right|]; done.
  - pose proof (proj1 (Forall_lookup _ _) (co_const _ Hok) _ _ Hi) as Hcw. simpl in Hcw.
    assert (th_lookup (fs_h fs) (key_of fs v) = VNumber (cast_num (Z.of_nat i))) as Hidx.
    { rewrite (th_lookup_eq _ _ _ (co_h _ Hok) Hkey Heq). by apply (co_index _ Hok). }
    left. exists (Z.of_nat i), (with_k fs (f_k fs) h'), w. split.
    { unfold addk. rewrite E, Hr, Hidx. rewrite number2int_cast; [done|].
      eapply index_int_range; [apply Hok|]. apply lookup_lt_Some in Hi. lia. }
    split; [by apply consts_ok_same|]. split; [lia|]. simpl. rewrite Nat2Z.id.
    split; [done|]. split; [by rewrite <- (key_of_eq fs)|]. split; [by left|done].
Qed.

(** C31: every constant operation ([gafqK_stringK], [gafqK_numberK], [boolK],
    [nilK]) returns the index of a constant raw-equal to the one asked for,
    adds a constant only when it is new, and keeps the table and the array in
    step; otherwise it reports an overflow *)
Theorem constants_indexed fs :
  consts_ok fs ->
  (forall s, const_index fs (VString s) (gafqK_stringK s)) /\
  (forall r, gafqi_numisnan r = false -> const_index fs (VNumber r) (gafqK_numberK r)) /\
  (forall b, const_index fs (VBoolean b) (boolK b)) /\
  const_index fs VNil nilK.
Proof.
  intros Hok. split; [|split; [|split]].
  - intros t. by apply (addk_spec fs (VString t)).
  - intros r Hr. apply (addk_spec fs (VNumber r)); [done|]. simpl. by rewrite Hr.
  - intros b. by apply (addk_spec fs (VBoolean b)).
  - exact (addk_spec fs VNil Hok eq_refl).
Qed.

End Constants.

(** *** The tables of gtable.c *)

Definition code0 : FuncState := mkFS [] [] [] 2 table0 1 1 0 (-1) NO_JUMP 0 0.

Lemma code0_consts : consts_ok (SL:=Slot) (H:=table_ops ex_hash) code0.
Proof.
  split; [apply table0_wf|by vm_compute|constructor|done|].
  intros key _. left. simpl. unfold content. by destruct (gafqH_get _ _ key) as [[[|i]|[|[|i]]]|].
Qed.

Lemma constants_indexed_witness :
  exists i fs' v', gafqK_numberK (H:=table_ops ex_hash) (cast_num 7) code0 = Ok (i, fs') /\
    f_k fs' !! Z.to_nat i = Some v' /\ gafqO_rawequalObj (VNumber (cast_num 7)) v' = true.
Proof.
  destruct (constants_indexed (H0:=table_laws ex_hash) code0 code0_consts) as (_ & Hn & _).
  destruct (Hn (cast_num 7) eq_refl) as [(i & fs' & v' & E & _ & _ & Hv & Hr & _)|[E|[E _]]].
  - exact (ex_intro _ i (ex_intro _ fs' (ex_intro _ v' (conj E (conj Hv Hr))))).
  - vm_compute in E. discriminate E.
  - vm_compute in E. discriminate E.
Defined.

(** the constants 0 and -0 share one index: whichever comes first is the
    value of both *)
Theorem negative_zero_merged :
  exists fs', (i ← gafqK_numberK (H:=table_ops ex_hash) (S754_zero false);
               j ← gafqK_numberK (H:=table_ops ex_hash) (S754_zero true); mret (i, j)) code0 = Ok ((0, 0), fs') /\
    f_k fs' = [VNumber (S754_zero false)].
Proof. eexists. split; [vm_compute; reflexivity|reflexivity]. Qed.

(** ** Registers *)

Section Registers.

Context {T SL : Type} `{TableOps T SL}.
Implicit Type fs : FuncState (T:=T).

(** the registers in use fit in the frame, the frame in the limit *)
Definition regs_ok fs : Prop :=
  0 <= nactvar fs <= fs_freereg fs /\ fs_freereg fs <= f_maxstacksize fs < MAXSTACK.

(** C36: [gafqK_reserveregs] allocates [n] registers and grows the frame to hold
    them, without wrapping the byte [maxstacksize]; it fails exactly when the
    registers would reach the limit *)
Theorem reserveregs_bounds fs n :
  regs_ok fs -> 0 <= n ->
  (fs_freereg fs + n < MAXSTACK /\
   gafqK_reserveregs n fs =
     Ok (tt, with_regs fs (Z.max (f_maxstacksize fs) (fs_freereg fs + n)) (fs_freereg fs + n)) /\
   regs_ok (with_regs fs (Z.max (f_maxstacksize fs) (fs_freereg fs + n)) (fs_freereg fs + n))) \/
  (MAXSTACK <= fs_freereg fs + n /\
   gafqK_reserveregs n fs = Err (SyntaxError "function or expression too complex" 0)).
Proof.
  unfold regs_ok, gafqK_reserveregs, gafqK_checkstack, mbind, stres_bind, gets, id, MAXSTACK.
  intros [Ha Hm] Hn. destruct (Z.ltb_spec (f_maxstacksize fs) (fs_freereg fs + n)).
  - destruct (Z.leb_spec 250 (fs_freereg fs + n)); [by right|left].
    rewrite Z.max_r, u8_id by lia. simpl. split; [done|]. split; [done|]. lia.
  - left. rewrite Z.max_l by lia. simpl. split; [lia|]. split; [done|]. lia.
Qed.

(** ** Constant folding *)

(** the operation an arithmetic instruction performs on numbers *)
Definition arith_op (pow : gafq_Number -> gafq_Number -> gafq_Number) (op : OpCode) (a b : gafq_Number) :
    option gafq_Number :=
  match op with
  | OP_ADD => Some (gafqi_numadd a b)
  | OP_SUB => Some (gafqi_numsub a b)
  | OP_MUL => Some (gafqi_nummul a b)
  | OP_DIV => Some (gafqi_numdiv a b)
  | OP_MOD => Some (gafqi_nummod a b)
  | OP_POW => Some (pow a b)
  | OP_UNM => Some (gafqi_numunm a)
  | _ => None
  end.

(** folding replaces an arithmetic operation on two literals by the number
    the instruction would compute; it never divides by zero and never makes a
    NaN constant, which [fs->h] could not hold *)
Theorem constfolding_sound pow op e1 e2 e :
  arith_op pow op (nval e1) (nval e2) <> None ->
  constfolding pow op e1 e2 = Some e ->
  isnumeral e1 = true /\ isnumeral e2 = true /\ isnumeral e = true /\
  arith_op pow op (nval e1) (nval e2) = Some (nval e) /\
  gafqi_numisnan (nval e) = false /\
  (op = OP_DIV \/ op = OP_MOD -> gafqi_numeq (nval e2) (cast_num 0) = false).
Proof.
  intros Hop. unfold constfolding. destruct (isnumeral e1) eqn:N1; [|done].
  destruct (isnumeral e2) eqn:N2; [|done]. cbn [negb orb].
  assert (forall r, (if gafqi_numisnan r then None else Some (set_nval e1 r)) = Some e ->
            isnumeral e = true /\ r = nval e /\ gafqi_numisnan (nval e) = false) as Hf.
  { intros r. destruct (gafqi_numisnan r) eqn:Er; [done|]. by intros [=<-]. }
  destruct op; cbn [arith_op] in *; try (exfalso; exact (Hop eq_refl)); clear Hop;
    try (destruct (gafqi_numeq (nval e2) (cast_num 0)) eqn:Hz; [discriminate|]);
    intros E; destruct (Hf _ E) as (Hn & Hr & Hnan);
    refine (conj eq_refl (conj eq_refl (conj Hn (conj (f_equal Some Hr) (conj Hnan _)))));
    intros [Ho|Ho]; first [discriminate Ho|reflexivity].
Qed.

(** ** [LOADNIL] *)

(** the register [r] is set to nil by the instruction [i] *)
Definition clears (i r : Z) : Prop :=
  GET_OPCODE i = op_num OP_LOADNIL /\ GETARG_A i <= r <= GETARG_B i.

Lemma loadnil_clears from n r :
  0 <= from -> 0 < n -> from + n <= MAXSTACK ->
  clears (CREATE_ABC (op_num OP_LOADNIL) from (from + n - 1) 0) r <-> from <= r < from + n.
Proof.
  unfold MAXSTACK. intros Hf Hn Hm. unfold clears.
  destruct (CREATE_ABC_get (op_num OP_LOADNIL) from (from + n - 1) 0) as (_ & -> & -> & -> & _);
    [by vm_compute| | | |intuition lia].
  all: change MAXARG_A with 255; change MAXARG_B with 511; change MAXARG_C with 511; lia.
Qed.

Lemma set_B_clears i b r :
  0 <= b <= MAXARG_B -> clears (SETARG_B i b) r <-> GET_OPCODE i = op_num OP_LOADNIL /\ GETARG_A i <= r <= b.
Proof.
  intros Hb. unfold clears, SETARG_B, GET_OPCODE, GETARG_A, GETARG_B. revert Hb. fields. intros Hb.
  rewrite !get_set_other, get_set_same by lia. done.
Qed.

(** the three ways to clear [from .. from+n-1]: nothing to do in a starting
    function, the last instruction widened, a new instruction *)
Definition nil_done fs (from n : Z) fs' : Prop :=
  (pc fs = 0 /\ nactvar fs <= from /\ fs' = fs) \/
  (pc fs' = pc fs /\ lasttarget fs < pc fs /\
   (forall q, q <> pc fs - 1 -> vget 0 (f_code fs') q = vget 0 (f_code fs) q) /\
   forall r, clears (vget 0 (f_code fs') (pc fs - 1)) r <->
             clears (vget 0 (f_code fs) (pc fs - 1)) r \/ from <= r < from + n) \/
  (pc fs' = pc fs + 1 /\
   (forall q, 0 <= q < pc fs -> vget 0 (f_code fs') q = vget 0 (f_code fs) q) /\
   forall r, clears (vget 0 (f_code fs') (pc fs)) r <-> from <= r < from + n).

Lemma nil_emit fs from n :
  code_ok [] fs -> pc fs < MAXARG_sBx -> 0 <= from -> 0 < n -> from + n <= MAXSTACK ->
  exists fs', (_ ← gafqK_codeABC OP_LOADNIL from (from + n - 1) 0; mret tt) fs = Ok (tt, fs') /\
    code_ok [] fs' /\ nil_done fs from n fs'.
Proof.
  intros Hok Hlt Hf Hn Hm.
  destruct (gafqK_code_plain fs (CREATE_ABC (op_num OP_LOADNIL) from (from + n - 1) 0) (lastline fs) Hok Hlt)
    as (fs1 & E & Hok1 & Hp1 & Hi & Hw & _).
  exists fs1. split; [unfold gafqK_codeABC, mbind, stres_bind, gets; by rewrite E|].
  split; [exact Hok1|]. right. right. split; [exact Hp1|]. split; [exact Hw|].
  intros r. rewrite Hi. by apply loadnil_clears.
Qed.

(** widening the previous [LOADNIL] *)
Lemma nil_widen fs from n :
  code_ok [] fs -> 0 < pc fs -> lasttarget fs < pc fs -> from + n <= MAXSTACK -> 0 <= from -> 0 < n ->
  let prev := vget 0 (f_code fs) (pc fs - 1) in
  GET_OPCODE prev = op_num OP_LOADNIL -> GETARG_A prev <= from <= GETARG_B prev + 1 ->
  GETARG_B prev < from + n - 1 ->
  let fs' := recode fs (vset (f_code fs) (pc fs - 1) (SETARG_B prev (from + n - 1))) in
  code_ok [] fs' /\ nil_done fs from n fs'.
Proof.
  intros [Hpc Hs Hl] H0 Ht Hm Hf Hn prev Ho Ha Hb fs'. split.
  { split; simpl; unfold zlen in *; rewrite ?length_vset; [exact Hpc|exact Hs|].
    apply jlist_nil in Hl as ->. constructor. }
  right. left. split; [reflexivity|]. split; [exact Ht|]. subst fs'. cbn [recode with_code f_code]. split.
  { intros q Hq. apply vget_vset_ne. lia. }
  intros r. rewrite vget_vset by (unfold zlen in *; lia). rewrite decide_True by reflexivity.
  unfold MAXSTACK in Hm. rewrite set_B_clears by (change MAXARG_B with 511; lia).
  fold prev. unfold clears. split; [intros [_ H1]|intros [[_ H1]|H1]; (split; [exact Ho|lia])].
  destruct (Z_lt_le_dec (GETARG_B prev) r); [right; lia|left; split; [exact Ho|lia]].
Qed.

(** [gafqK_nil(from, n)] either leaves the last instruction as it is, or
    widens it, or appends a [LOADNIL]; in each case the registers cleared by
    the code's last instruction are the ones it cleared before and
    [from .. from+n-1].  Nothing is emitted only in a starting function, for
    registers above the parameters *)
Theorem nil_merges fs from n :
  code_ok [] fs -> pc fs < MAXARG_sBx -> 0 <= from -> 0 < n -> from + n <= MAXSTACK ->
  exists fs', gafqK_nil from n fs = Ok (tt, fs') /\ code_ok [] fs' /\ nil_done fs from n fs'.
Proof.
  intros Hok Hlt Hf Hn Hm. pose proof (nil_emit fs from n Hok Hlt Hf Hn Hm) as Hemit.
  assert (0 <= pc fs) as H0 by (rewrite (ok_pc _ _ Hok); unfold zlen; lia).
  unfold gafqK_nil. unfold mbind at 1, stres_bind at 1, gets at 1, id.
  destruct (Z.ltb_spec (lasttarget fs) (pc fs)) as [Ht|]; [|exact Hemit].
  destruct (Z.eqb_spec (pc fs) 0) as [Hz|Hz].
  { destruct (Z.leb_spec (nactvar fs) from); [|exact Hemit].
    exists fs. split; [reflexivity|]. split; [exact Hok|]. left. auto. }
  unfold mbind at 1, stres_bind at 1, code_at, gets at 1.
  destruct (Z.eqb_spec (GET_OPCODE (vget 0 (f_code fs) (pc fs - 1))) (op_num OP_LOADNIL)) as [Ho|]; [|exact Hemit].
  destruct (Z.leb_spec (GETARG_A (vget 0 (f_code fs) (pc fs - 1))) from); [|exact Hemit].
  destruct (Z.leb_spec from (GETARG_B (vget 0 (f_code fs) (pc fs - 1)) + 1)); [|exact Hemit]. cbn [andb].
  destruct (Z.ltb_spec (GETARG_B (vget 0 (f_code fs) (pc fs - 1))) (from + n - 1)) as [Hb|Hb].
  - eexists. split; [reflexivity|]. apply nil_widen; auto; lia.
  - exists fs. split; [reflexivity|]. split; [exact Hok|]. right. left. split; [reflexivity|].
    split; [exact Ht|]. split; [reflexivity|]. intros r. unfold clears. split; [auto|].
    intros [Hc|Hr]; [exact Hc|]. split; [exact Ho|lia].
Qed.

(** ** [SETLIST] *)

(** the block number the virtual machine takes from the instruction at [p]
    ([if (c == 0) c = cast_int( *pc++ )] in gvm.c), and the next position *)
Definition vm_setlist_block (c : list Z) (p : Z) : Z * Z :=
  let n := GETARG_C (vget 0 c p) in
  if n =? 0 then (s32 (vget 0 c (p + 1)), p + 2) else (n, p + 1).

Lemma setlist_block_number k r : 0 <= k -> 1 <= r <= LFIELDS_PER_FLUSH ->
  Z.quot (k * LFIELDS_PER_FLUSH + r - 1) LFIELDS_PER_FLUSH + 1 = k + 1.
Proof.
  unfold LFIELDS_PER_FLUSH. intros Hk Hr. rewrite Z.quot_div_nonneg by lia. f_equal.
  symmetry. apply Z.div_unique with (r - 1); lia.
Qed.

Lemma setlist_fields base b c :
  0 <= base <= MAXARG_A -> 0 <= b <= MAXARG_B -> 0 <= c <= MAXARG_C ->
  let i := CREATE_ABC (op_num OP_SETLIST) base b c in
  GET_OPCODE i = op_num OP_SETLIST /\ GETARG_A i = base /\ GETARG_B i = b /\ GETARG_C i = c.
Proof.
  intros Ha Hb Hc. apply CREATE_ABC_get; [|exact Ha|exact Hb|exact Hc]. split; vm_compute; congruence.
Qed.

(** for the last [r] of [50*k + r] list elements [gafqK_setlist] emits a
    [SETLIST] from which the virtual machine reads block [k+1], in the
    instruction or in the word that follows it, and steps over exactly the words
    emitted; only the register of the table stays in use *)
Theorem setlist_block fs base k r tostore :
  code_ok [] fs -> pc fs + 1 < MAXARG_sBx -> 0 <= base <= MAXARG_A ->
  0 <= k -> 1 <= r <= LFIELDS_PER_FLUSH -> k * LFIELDS_PER_FLUSH + r <= INT_MAX ->
  tostore = r \/ tostore = GAFQ_MULTRET ->
  exists fs', gafqK_setlist base (k * LFIELDS_PER_FLUSH + r) tostore fs = Ok (tt, fs') /\
    let i := vget 0 (f_code fs') (pc fs) in
    GET_OPCODE i = op_num OP_SETLIST /\ GETARG_A i = base /\
    GETARG_B i = (if tostore =? GAFQ_MULTRET then 0 else r) /\
    vm_setlist_block (f_code fs') (pc fs) = (k + 1, pc fs') /\ fs_freereg fs' = base + 1.
Proof.
  intros Hok Hlt Hbase Hk Hr Hmax Hst. unfold gafqK_setlist. rewrite setlist_block_number by assumption.
  set (b := if tostore =? GAFQ_MULTRET then 0 else tostore).
  assert (b = if tostore =? GAFQ_MULTRET then 0 else r) as Eb.
  { unfold b. destruct (Z.eqb_spec tostore GAFQ_MULTRET); [reflexivity|]. destruct Hst; [assumption|contradiction]. }
  unfold LFIELDS_PER_FLUSH, INT_MAX in *.
  assert (0 <= b <= MAXARG_B) as Hb.
  { rewrite Eb. change MAXARG_B with 511. destruct (tostore =? GAFQ_MULTRET); lia. }
  rewrite <- Eb. destruct (Z.leb_spec (k + 1) MAXARG_C) as [Hc|Hc].
  - destruct (gafqK_code_plain fs (CREATE_ABC (op_num OP_SETLIST) base b (k + 1)) (lastline fs) Hok)
      as (fs1 & E & _ & Hp & Hi & _); [lia|].
    eexists. split; [unfold gafqK_codeABC, mbind, stres_bind, gets; rewrite E; reflexivity|].
    cbn [with_regs f_code pc fs_freereg]. unfold vm_setlist_block. rewrite Hi.
    destruct (setlist_fields base b (k + 1) Hbase Hb) as (-> & -> & -> & ->); [lia|].
    destruct (Z.eqb_spec (k + 1) 0); [lia|]. rewrite Hp. auto.
  - destruct (gafqK_code_plain fs (CREATE_ABC (op_num OP_SETLIST) base b 0) (lastline fs) Hok)
      as (fs1 & E & Hok1 & Hp & Hi & _ & E1); [lia|].
    destruct (gafqK_code_plain fs1 (u32 (k + 1)) (lastline fs1) Hok1) as (fs2 & E2 & _ & Hp2 & Hi2 & Hw2 & _); [lia|].
    eexists. split.
    { unfold gafqK_codeABC, mbind, stres_bind, gets. rewrite E. cbv beta iota. rewrite E2. reflexivity. }
    cbn [with_regs f_code pc fs_freereg]. unfold vm_setlist_block.
    assert (0 <= pc fs) by (rewrite (ok_pc _ _ Hok); unfold zlen; lia).
    rewrite Hw2, Hi by lia. change MAXARG_C with 511 in *.
    destruct (setlist_fields base b 0 Hbase Hb) as (-> & -> & -> & ->); [change MAXARG_C with 511; lia|].
    cbn [Z.eqb]. rewrite <- Hp, Hi2, Hp2, Hp. rewrite u32_id by (unfold UINT_MOD; lia).
    rewrite s32_id by (unfold int_range, INT_MIN, INT_MAX; lia).
    replace (pc fs + 2) with (pc fs + 1 + 1) by lia. auto.
Qed.

End Registers.

(** ** Examples *)

Lemma code0_ok : code_ok [] code0.
Proof. split; [reflexivity|vm_compute; congruence|constructor]. Qed.

(** after [LOADNIL 0 1] *)
Definition code1 : FuncState :=
  mkFS [CREATE_ABC (op_num OP_LOADNIL) 0 1 0] [1] [] 2 table0 1 1 1 (-1) NO_JUMP 2 0.

Lemma code1_ok : code_ok [] code1.
Proof. split; [reflexivity|vm_compute; congruence|constructor]. Qed.

Lemma reserveregs_bounds_witness :
  gafqK_reserveregs 5 code0 = Ok (tt, with_regs code0 5 5) /\
  gafqK_reserveregs 250 code0 = Err (SyntaxError "function or expression too complex" 0).
Proof.
  assert (regs_ok code0) as H by (unfold regs_ok, MAXSTACK; simpl; lia). split.
  - destruct (reserveregs_bounds code0 5 H) as [(_ & E & _)|[E _]]; [lia|exact E|].
    unfold MAXSTACK in E. simpl in E. lia.
  - destruct (reserveregs_bounds code0 250 H) as [(E & _)|[_ E]]; [lia| |exact E].
    unfold MAXSTACK in E. simpl in E. lia.
Defined.

(** the literals 6 and 7 *)
Definition knum (z : Z) : expdesc := mkExp VKNUM 0 0 (cast_num z) NO_JUMP NO_JUMP.

(** a stand-in for [pow], which the example does not call *)
Definition ex_pow (a _ : gafq_Number) : gafq_Number := a.

Lemma constfolding_sound_witness :
  constfolding ex_pow OP_MUL (knum 6) (knum 7) = Some (knum 42) /\ gafqi_numisnan (cast_num 42) = false.
Proof.
  assert (constfolding ex_pow OP_MUL (knum 6) (knum 7) = Some (knum 42)) as E by (vm_compute; reflexivity).
  split; [exact E|].
  destruct (constfolding_sound ex_pow OP_MUL (knum 6) (knum 7) (knum 42)) as (_ & _ & _ & _ & Hn & _).
  - discriminate.
  - exact E.
  - exact Hn.
Defined.

Lemma nil_merges_witness :
  exists fs', gafqK_nil 1 3 code1 = Ok (tt, fs') /\ pc fs' = 1 /\
    f_code fs' = [CREATE_ABC (op_num OP_LOADNIL) 0 3 0].
Proof.
  destruct (nil_merges code1 1 3 code1_ok) as (fs' & E & _); [vm_compute; reflexivity|lia|lia|unfold MAXSTACK; lia|].
  exists fs'. split; [exact E|]. vm_compute in E. injection E as <-. split; vm_compute; reflexivity.
Defined.

Lemma setlist_block_witness :
  exists fs', gafqK_setlist 3 (600 * LFIELDS_PER_FLUSH + 7) 7 code0 = Ok (tt, fs') /\
    vm_setlist_block (f_code fs') 0 = (601, 2).
Proof.
  destruct (setlist_block code0 3 600 7 7 code0_ok) as (fs' & E & _ & _ & _ & Hv & _);
    [vm_compute; reflexivity|change MAXARG_A with 255; lia|lia|unfold LFIELDS_PER_FLUSH; lia
    |unfold LFIELDS_PER_FLUSH, INT_MAX; lia|left; reflexivity|].
  exists fs'. split; [exact E|]. change (pc code0) with 0 in Hv. rewrite Hv.
  vm_compute in E. injection E as <-. reflexivity.
Defined.
