(* ===== verification/Lexer.v ===== *)
(** * The lexical analyser: glex.c

    The analyser reads characters from a buffered stream (Zio.v), one ahead of
    the token.  Its functions run in the state-and-error monad over [LexState].
    A string is its contents; the numeric value of a literal is computed by
    [strtod] and [strtoul] of the C library, which are parameters.  Reading past
    the end mark would decrement [z->n] below zero and make the stream return
    bytes outside its block: [next] raises [Undefined] there. *)

From S2P Require Import Prelude Number Object Zio.

Definition FIRST_RESERVED : Z := 257.

(** [enum RESERVED] *)
Definition TK_AND : Z := FIRST_RESERVED.
Definition TK_WHILE : Z := FIRST_RESERVED + 20.
Definition TK_CONCAT : Z := FIRST_RESERVED + 21.
Definition TK_DOTS : Z := FIRST_RESERVED + 22.
Definition TK_EQ : Z := FIRST_RESERVED + 23.
Definition TK_GE : Z := FIRST_RESERVED + 24.
Definition TK_LE : Z := FIRST_RESERVED + 25.
Definition TK_NE : Z := FIRST_RESERVED + 26.
Definition TK_NUMBER : Z := FIRST_RESERVED + 27.
Definition TK_NAME : Z := FIRST_RESERVED + 28.
Definition TK_STRING : Z := FIRST_RESERVED + 29.
Definition TK_EOS : Z := FIRST_RESERVED + 30.

Definition NUM_RESERVED : Z := TK_WHILE - FIRST_RESERVED + 1.

Definition gafqX_tokens : list bytes :=
  map str ["and"; "break"; "do"; "else"; "elseif"; "end"; "false"; "for"; "function"; "if"; "in"; "local";
           "nil"; "not"; "or"; "repeat"; "return"; "then"; "true"; "until"; "while"; ".."; "..."; "=="; ">=";
           "<="; "~="; "<number>"; "<name>"; "<string>"; "<eof>"]%string.

(** [ts->tsv.reserved]: [gafqX_init] marks the reserved words, every other string has 0 *)
Fixpoint reserved_from (i : Z) (words : list bytes) (s : bytes) : Z :=
  match words with
  | [] => 0
  | w :: words => if bool_decide (w = s) then i + 1 else reserved_from (i + 1) words s
  end.

Definition reserved (s : bytes) : Z := reserved_from 0 (take (Z.to_nat NUM_RESERVED) gafqX_tokens) s.

Inductive SemInfo := SNone | SNumber (r : gafq_Number) | SString (ts : bytes).

Record Token := mkToken { token : Z; seminfo : SemInfo }.

Record LexState := mkLS {
  current : Z;
  linenumber : Z;
  lastline : Z;
  ls_t : Token;
  ls_lookahead : Token;
  ls_z : ZIO;
  ls_buff : bytes;       (* buff->buffer, the first buff->n characters *)
  buffsize : Z;
  decpoint : Z
}.

Definition with_input (ls : LexState) (c : Z) (z : ZIO) : LexState :=
  mkLS c (linenumber ls) (lastline ls) (ls_t ls) (ls_lookahead ls) z (ls_buff ls) (buffsize ls) (decpoint ls).
Definition with_buff (ls : LexState) (b : bytes) (n : Z) : LexState :=
  mkLS (current ls) (linenumber ls) (lastline ls) (ls_t ls) (ls_lookahead ls) (ls_z ls) b n (decpoint ls).
Definition with_line (ls : LexState) (n : Z) : LexState :=
  mkLS (current ls) n (lastline ls) (ls_t ls) (ls_lookahead ls) (ls_z ls) (ls_buff ls) (buffsize ls) (decpoint ls).
Definition with_point (ls : LexState) (c : Z) : LexState :=
  mkLS (current ls) (linenumber ls) (lastline ls) (ls_t ls) (ls_lookahead ls) (ls_z ls) (ls_buff ls) (buffsize ls) c.
Definition with_tokens (ls : LexState) (last : Z) (t la : Token) : LexState :=
  mkLS (current ls) (linenumber ls) last t la (ls_z ls) (ls_buff ls) (buffsize ls) (decpoint ls).

Definition lex (A : Type) : Type := stres LexState A.

Definition GAFQ_MINBUFFER : Z := 32.

(** ** Error messages *)

(** the text of an error message *)
Fixpoint text (b : bytes) : string :=
  match b with
  | [] => EmptyString
  | c :: b => String (ascii_of_N (Z.to_N c)) (text b)
  end.

(** [GAFQ_QS] *)
Definition quoted (b : bytes) : bytes := str "'" ++ b ++ str "'".

Definition gafqX_token2str (token : Z) : bytes :=
  if token <? FIRST_RESERVED then
    if iscntrl token then str "char(" ++ int_str token ++ str ")" else [token]
  else vget [] gafqX_tokens (token - FIRST_RESERVED).

(** [":%d: %s"]: the message after the name of the chunk, which [f_parser] puts in front *)
Definition at_line (ls : LexState) (msg : string) : bytes :=
  str ":" ++ int_str (linenumber ls) ++ str ": " ++ str msg.

(** the blocks that the reader was not asked for *)
Definition unread (ls : LexState) : nat := length (z_data (ls_z ls)).

(** [gafqX_lexerror(ls, msg, 0)] *)
Definition lexerror0 {A} (msg : string) : lex A := fun ls => Err (SyntaxError (text (at_line ls msg)) (unread ls)).

Definition save (c : Z) : lex unit :=
  ls ← gets id;
  if buffsize ls <? zlen (ls_buff ls) + 1 then
    if MAX_SIZET / 2 <=? buffsize ls then lexerror0 "lexical element too long"
    else modify (fun ls => with_buff ls (ls_buff ls ++ [u8 c]) (buffsize ls * 2))
  else modify (fun ls => with_buff ls (ls_buff ls ++ [u8 c]) (buffsize ls)).

Definition txtToken (token : Z) : lex bytes :=
  if (token =? TK_NAME) || (token =? TK_STRING) || (token =? TK_NUMBER) then
    _ ← save 0; gets (fun ls => cstr (ls_buff ls))
  else mret (gafqX_token2str token).

Definition gafqX_lexerror {A} (msg : string) (token : Z) : lex A :=
  if token =? 0 then lexerror0 msg
  else
    ls ← gets id;
    txt ← txtToken token;
    raise (SyntaxError (text (at_line ls msg ++ str " near " ++ quoted txt)) (unread ls)).

Definition gafqX_syntaxerror {A} (msg : string) : lex A := t ← gets ls_t; gafqX_lexerror msg (token t).

Definition next : lex unit := fun ls =>
  if current ls =? EOZ then Err Undefined
  else let '(c, z) := zgetc (ls_z ls) in Ok (tt, with_input ls c z).

Definition is_newline (c : Z) : bool := (c =? 10) || (c =? 13).
Definition currIsNewline (ls : LexState) : bool := is_newline (current ls).

Definition save_and_next : lex unit :=
  c ← gets current; _ ← save c; next.

Definition gafqZ_resetbuffer : lex unit := modify (fun ls => with_buff ls [] (buffsize ls)).

Definition inclinenumber : lex unit :=
  old ← gets current;
  _ ← next;
  ls ← gets id;
  _ ← (if currIsNewline ls && negb (current ls =? old) then next else mret tt);
  _ ← modify (fun ls => with_line ls (linenumber ls + 1));
  n ← gets linenumber;
  if MAX_INT <=? n then gafqX_syntaxerror "chunk has too many lines" else mret tt.

(** [ls] holds the fields [gafqX_setinput] does not set *)
Definition gafqX_setinput (z : ZIO) (ls : LexState) : LexState :=
  let '(c, z) := zgetc z in
  mkLS c 1 1 (ls_t ls) (mkToken TK_EOS (seminfo (ls_lookahead ls))) z (ls_buff ls) GAFQ_MINBUFFER (chr ".").

(** [strchr(set, c) != NULL]: the search includes the terminating zero *)
Definition strchr (set : bytes) (c : Z) : bool := bool_decide (u8 c ∈ set ++ [0]).

Definition check_next (set : string) : lex bool :=
  c ← gets current;
  if negb (strchr (str set) c) then mret false
  else _ ← save_and_next; mret true.

Definition buffreplace (from to : Z) : lex unit :=
  modify (fun ls => with_buff ls (map (fun c => if c =? from then to else c) (ls_buff ls)) (buffsize ls)).

(** enough for a loop that reads a character in every round *)
Definition lex_fuel : lex nat := gets (fun ls => S (S (length (pending (ls_z ls))))).

(** [while (p(ls->current)) save_and_next(ls)] *)
Fixpoint save_while (fuel : nat) (p : Z -> bool) : lex unit :=
  match fuel with
  | O => raise Fuel
  | S fuel' =>
      c ← gets current;
      if p c then _ ← save_and_next; save_while fuel' p else mret tt
  end.

(** [while (p(ls->current)) next(ls)] *)
Fixpoint skip_while (fuel : nat) (p : Z -> bool) : lex unit :=
  match fuel with
  | O => raise Fuel
  | S fuel' =>
      c ← gets current;
      if p c then _ ← next; skip_while fuel' p else mret tt
  end.

Section Lexer.

(** [strtod(s, &endptr)] and [strtoul(s, &endptr, 16)]: the number and the length of the part converted *)
Variables (strtod strtoul16 : bytes -> gafq_Number * Z).
(** [localeconv()->decimal_point[0]] *)
Variable locale_point : Z.

Fixpoint skip_spaces (s : bytes) : bytes :=
  match s with
  | c :: s' => if isspace c then skip_spaces s' else s
  | [] => []
  end.

Definition gafqO_str2d (s : bytes) : option gafq_Number :=
  let '(result, n) := strtod s in
  if n =? 0 then None
  else
    let '(result, n) :=
      if (vget 0 s n =? chr "x") || (vget 0 s n =? chr "X") then strtoul16 s else (result, n) in
    match skip_spaces (drop (Z.to_nat n) s) with
    | [] => Some result
    | _ => None
    end.

(** the contents of the buffer before its terminating zero *)
Definition buffer_string (ls : LexState) : bytes := take (length (ls_buff ls) - 1) (ls_buff ls).

Definition trydecpoint : lex gafq_Number :=
  old ← gets decpoint;
  _ ← modify (fun ls => with_point ls locale_point);
  _ ← buffreplace old locale_point;
  b ← gets buffer_string;
  match gafqO_str2d b with
  | Some r => mret r
  | None => _ ← buffreplace locale_point (chr "."); gafqX_lexerror "malformed number" TK_NUMBER
  end.

Definition numeral_char (c : Z) : bool := isdigit c || (c =? chr ".").
Definition name_char (c : Z) : bool := isalnum c || (c =? chr "_").

Definition read_numeral : lex gafq_Number :=
  _ ← save_and_next;
  fuel ← lex_fuel;
  _ ← save_while fuel numeral_char;
  e ← check_next "Ee";
  _ ← (if (e : bool) then check_next "+-" else mret true);
  fuel ← lex_fuel;
  _ ← save_while fuel name_char;
  _ ← save 0;
  p ← gets decpoint;
  _ ← buffreplace (chr ".") p;
  b ← gets buffer_string;
  match gafqO_str2d b with
  | Some r => mret r
  | None => trydecpoint
  end.

(** the number of "=" saved; negative when no second bracket follows *)
Definition skip_sep : lex Z :=
  s ← gets current;
  _ ← save_and_next;
  n ← gets (fun ls => zlen (ls_buff ls));
  fuel ← lex_fuel;
  _ ← save_while fuel (fun c => c =? chr "=");
  ls ← gets id;
  let count := zlen (ls_buff ls) - n in
  mret (if current ls =? s then count else - count - 1).

(** the [for (;;)] loop; [issem] is [seminfo != NULL] *)
Fixpoint long_string_loop (fuel : nat) (issem : bool) (sep : Z) : lex unit :=
  match fuel with
  | O => raise Fuel
  | S fuel' =>
      c ← gets current;
      if c =? EOZ then
        gafqX_lexerror (if issem then "unfinished long string" else "unfinished long comment") TK_EOS
      else if c =? chr "[" then
        n ← skip_sep;
        _ ← (if n =? sep then
               _ ← save_and_next;
               if sep =? 0 then gafqX_lexerror "nesting of [[...]] is deprecated" (chr "[") else mret tt
             else mret tt);
        long_string_loop fuel' issem sep
      else if c =? chr "]" then
        n ← skip_sep;
        if n =? sep then save_and_next else long_string_loop fuel' issem sep
      else if is_newline c then
        _ ← save 10;
        _ ← inclinenumber;
        _ ← (if negb issem then gafqZ_resetbuffer else mret tt);
        long_string_loop fuel' issem sep
      else
        _ ← (if issem then save_and_next else next);
        long_string_loop fuel' issem sep
  end.

(** the bytes of [buff] without [k] characters at each end *)
Definition inner (k : Z) (b : bytes) : bytes := take (Z.to_nat (zlen b - 2 * k)) (drop (Z.to_nat k) b).

Definition read_long_string (issem : bool) (sep : Z) : lex bytes :=
  _ ← save_and_next;
  ls ← gets id;
  _ ← (if currIsNewline ls then inclinenumber else mret tt);
  fuel ← lex_fuel;
  _ ← long_string_loop fuel issem sep;
  gets (fun ls => inner (2 + sep) (ls_buff ls)).

(** the [do ... while] loop that reads [\xxx]; [i] digits are still allowed *)
Fixpoint read_decimal (i : nat) (c : Z) : lex Z :=
  d ← gets current;
  let c := 10 * c + (d - chr "0") in
  _ ← next;
  d ← gets current;
  match i with
  | O => mret c
  | S i => if isdigit d then read_decimal i c else mret c
  end.

(** the character an escape letter stands for *)
Definition simple_escape (c : Z) : option Z :=
  if c =? chr "a" then Some 7
  else if c =? chr "b" then Some 8
  else if c =? chr "f" then Some 12
  else if c =? chr "n" then Some 10
  else if c =? chr "r" then Some 13
  else if c =? chr "t" then Some 9
  else if c =? chr "v" then Some 11
  else None.

(** the [case '\\'] of [read_string]; the backslash is skipped *)
Definition read_escape : lex unit :=
  _ ← next;
  c ← gets current;
  match simple_escape c with
  | Some c => _ ← save c; next
  | None =>
      if is_newline c then _ ← save 10; inclinenumber
      else if c =? EOZ then mret tt
      else if negb (isdigit c) then save_and_next
      else
        c ← read_decimal 2 0;
        if 255 <? c then gafqX_lexerror "escape sequence too large" TK_STRING else save c
  end.

Fixpoint read_string_loop (fuel : nat) (del : Z) : lex unit :=
  match fuel with
  | O => raise Fuel
  | S fuel' =>
      c ← gets current;
      if c =? del then mret tt
      else if c =? EOZ then gafqX_lexerror "unfinished string" TK_EOS
      else if is_newline c then gafqX_lexerror "unfinished string" TK_STRING
      else
        _ ← (if c =? 92 then read_escape else save_and_next);
        read_string_loop fuel' del
  end.

Definition read_string (del : Z) : lex bytes :=
  _ ← save_and_next;
  fuel ← lex_fuel;
  _ ← read_string_loop fuel del;
  _ ← save_and_next;
  gets (fun ls => inner 1 (ls_buff ls)).

(** [next(ls); if (ls->current != '=') return c; else { next(ls); return tk; }] *)
Definition or_equal (c tk : Z) : lex Z :=
  _ ← next;
  d ← gets current;
  if negb (d =? chr "=") then mret c else _ ← next; mret tk.

(** a comment, after its two dashes *)
Definition read_comment : lex unit :=
  c ← gets current;
  long ← (if c =? chr "[" then
            sep ← skip_sep;
            _ ← gafqZ_resetbuffer;
            if 0 <=? sep then
              _ ← read_long_string false sep;
              _ ← gafqZ_resetbuffer;
              mret true
            else mret false
          else mret false);
  if (long : bool) then mret tt
  else fuel ← lex_fuel; skip_while fuel (fun c => negb (is_newline c) && negb (c =? EOZ)).

(** an identifier or a reserved word; the first character is current *)
Definition read_name (si : SemInfo) : lex (Z * SemInfo) :=
  _ ← save_and_next;
  fuel ← lex_fuel;
  _ ← save_while fuel name_char;
  ts ← gets ls_buff;
  mret (if 0 <? reserved ts then (reserved ts - 1 + FIRST_RESERVED, si) else (TK_NAME, SString ts)).

(** the [for (;;)] loop of [glex]; [si] is the value of [*seminfo] *)
Fixpoint glex_loop (fuel : nat) (si : SemInfo) : lex (Z * SemInfo) :=
  match fuel with
  | O => raise Fuel
  | S fuel' =>
      c ← gets current;
      if is_newline c then _ ← inclinenumber; glex_loop fuel' si
      else if c =? chr "-" then
        _ ← next;
        d ← gets current;
        if negb (d =? chr "-") then mret (chr "-", si)
        else _ ← next; _ ← read_comment; glex_loop fuel' si
      else if c =? chr "[" then
        sep ← skip_sep;
        if 0 <=? sep then ts ← read_long_string true sep; mret (TK_STRING, SString ts)
        else if sep =? -1 then mret (chr "[", si)
        else gafqX_lexerror "invalid long string delimiter" TK_STRING
      else if c =? chr "=" then tk ← or_equal (chr "=") TK_EQ; mret (tk, si)
      else if c =? chr "<" then tk ← or_equal (chr "<") TK_LE; mret (tk, si)
      else if c =? chr ">" then tk ← or_equal (chr ">") TK_GE; mret (tk, si)
      else if c =? chr "~" then tk ← or_equal (chr "~") TK_NE; mret (tk, si)
      else if (c =? 34) || (c =? 39) then ts ← read_string c; mret (TK_STRING, SString ts)
      else if c =? chr "." then
        _ ← save_and_next;
        two ← check_next ".";
        if (two : bool) then
          three ← check_next ".";
          mret (if (three : bool) then TK_DOTS else TK_CONCAT, si)
        else
          d ← gets current;
          if negb (isdigit d) then mret (chr ".", si)
          else r ← read_numeral; mret (TK_NUMBER, SNumber r)
      else if c =? EOZ then mret (TK_EOS, si)
      else if isspace c then _ ← next; glex_loop fuel' si
      else if isdigit c then r ← read_numeral; mret (TK_NUMBER, SNumber r)
      else if isalpha c || (c =? chr "_") then read_name si
      else _ ← next; mret (c, si)
  end.

Definition glex (si : SemInfo) : lex (Z * SemInfo) :=
  _ ← gafqZ_resetbuffer;
  fuel ← lex_fuel;
  glex_loop fuel si.

Definition gafqX_next : lex unit :=
  _ ← modify (fun ls => with_tokens ls (linenumber ls) (ls_t ls) (ls_lookahead ls));
  la ← gets ls_lookahead;
  if negb (token la =? TK_EOS) then
    modify (fun ls => with_tokens ls (lastline ls) la (mkToken TK_EOS (seminfo la)))
  else
    t ← gets ls_t;
    '(tk, si) ← glex (seminfo t);
    modify (fun ls => with_tokens ls (lastline ls) (mkToken tk si) (ls_lookahead ls)).

Definition gafqX_lookahead : lex unit :=
  la ← gets ls_lookahead;
  '(tk, si) ← glex (seminfo la);
  modify (fun ls => with_tokens ls (lastline ls) (ls_t ls) (mkToken tk si)).

End Lexer.
