(* ===== verification/StrLib.v ===== *)
(** * The string library: gstrlib.c

    A string is the list of its bytes; in memory a zero byte follows it, which
    [cread] reads and beyond which it fails with [Undefined], so that a theorem
    that excludes errors also excludes reads outside a string.  Pointers into
    the subject and the pattern are offsets.  A function takes the arguments that
    the [gafqL_check...] calls fetch and returns the values that it pushes. *)

From S2P Require Import Prelude Number.

(** [b[i]] *)
Definition cread (b : bytes) (i : Z) : res Z :=
  if (0 <=? i) && (i <? zlen b) then Ok (vget 0 b i)
  else if i =? zlen b then Ok 0
  else Err Undefined.

(** the [n] bytes of [b] from offset [i] *)
Definition csub (b : bytes) (i n : Z) : bytes := take (Z.to_nat n) (drop (Z.to_nat i) b).

Inductive rvalue := RNil | RInt (z : Z) | RStr (b : bytes).

#[export] Instance rvalue_eq_dec : EqDecision rvalue.
Proof. solve_decision. Defined.

(** the conversion [(unsigned char)] *)
Definition uchar (c : Z) : Z := u8 c.

(** [used] is the number of stack slots in use, [L->top - L->base] *)
Definition GAFQI_MAXCSTACK : Z := 8000.

Definition gafq_checkstack (used size : Z) : bool :=
  negb ((GAFQI_MAXCSTACK <? size) || (GAFQI_MAXCSTACK <? used + size)).

Definition gafqL_checkstack (used space : Z) (mes : string) : res unit :=
  if negb (gafq_checkstack used space) then Err (RunError ("stack overflow (" ++ mes ++ ")")%string)
  else Ok tt.

(** ** Basic functions *)

Definition str_len (s : bytes) : rvalue := RInt (zlen s).

Definition posrelat (pos len : Z) : Z :=
  let pos := if pos <? 0 then pos + len + 1 else pos in
  if 0 <=? pos then pos else 0.

Definition str_sub (s : bytes) (i j : Z) : bytes :=
  let l := zlen s in
  let start := posrelat i l in
  let end_ := posrelat j l in
  let start := if start <? 1 then 1 else start in
  let end_ := if l <? end_ then l else end_ in
  if start <=? end_ then csub s (start - 1) (end_ - start + 1) else [].

(** [while (l--) gafqL_addchar(&b, s[l])] *)
Fixpoint str_reverse_loop (l : nat) (s b : bytes) : bytes :=
  match l with
  | O => b
  | S l => str_reverse_loop l s (b ++ [vget 0 s (Z.of_nat l)])
  end.

Definition str_reverse (s : bytes) : bytes := str_reverse_loop (length s) s [].

Definition str_lower (s : bytes) : bytes := map tolower s.
Definition str_upper (s : bytes) : bytes := map toupper s.

Fixpoint str_rep_loop (n : nat) (s b : bytes) : bytes :=
  match n with O => b | S n => str_rep_loop n s (b ++ s) end.

Definition str_rep (s : bytes) (n : Z) : bytes := str_rep_loop (Z.to_nat n) s [].

(** [posi] is [1] and [pose] is [posi] by default *)
Definition str_byte (used : Z) (s : bytes) (posi : Z) (pose : option Z) : res (list Z) :=
  let l := zlen s in
  let posi := posrelat posi l in
  let pose := posrelat (default posi pose) l in
  let posi := if posi <=? 0 then 1 else posi in
  let pose := if l <? pose then l else pose in
  if pose <? posi then Ok []
  else
    let n := s32 (pose - posi + 1) in
    if posi + n <=? pose then Err (RunError "string slice too long")
    else
      _ ← gafqL_checkstack used n "string slice too long";
      Ok (csub s (posi - 1) n).

Fixpoint str_char_loop (args : list Z) (b : bytes) : res bytes :=
  match args with
  | [] => Ok b
  | c :: args =>
      if negb (uchar c =? c) then Err (RunError "invalid value")
      else str_char_loop args (b ++ [uchar c])
  end.

Definition str_char (args : list Z) : res bytes := str_char_loop args [].

(** ** Pattern matching *)

Definition CAP_UNFINISHED : Z := -1.
Definition CAP_POSITION : Z := -2.
Definition GAFQ_MAXCAPTURES : Z := 32.
Definition L_ESC : Z := chr "%".

(** [capture[]] and the live part of it; [src_init] is offset 0 of the subject, [src_end] its length *)
Record MatchState := mkMS {
  level : Z;
  capture : list (Z * Z)      (* init, len *)
}.

Definition cap_init (ms : MatchState) (l : Z) : Z := (vget (0, 0) (capture ms) l).1.
Definition cap_len (ms : MatchState) (l : Z) : Z := (vget (0, 0) (capture ms) l).2.
Definition set_len (ms : MatchState) (l len : Z) : MatchState :=
  mkMS (level ms) (vset (capture ms) l (cap_init ms l, len)).

(** capture indices of patterns and replacements are digits *)
Definition check_capture (ms : MatchState) (l : Z) : res Z :=
  let l := l - chr "1" in
  if (l <? 0) || (level ms <=? l) || (cap_len ms l =? CAP_UNFINISHED)
  then Err (RunError "invalid capture index") else Ok l.

Fixpoint capture_to_close_loop (ms : MatchState) (level : nat) : res Z :=
  match level with
  | O => Err (RunError "invalid pattern capture")
  | S l => if cap_len ms (Z.of_nat l) =? CAP_UNFINISHED then Ok (Z.of_nat l) else capture_to_close_loop ms l
  end.

Definition capture_to_close (ms : MatchState) : res Z := capture_to_close_loop ms (Z.to_nat (level ms)).

Definition match_class (c cl : Z) : bool :=
  let cls (res : bool) := if islower cl then res else negb res in
  let l := tolower cl in
  if l =? chr "a" then cls (isalpha c)
  else if l =? chr "c" then cls (iscntrl c)
  else if l =? chr "d" then cls (isdigit c)
  else if l =? chr "l" then cls (islower c)
  else if l =? chr "p" then cls (ispunct c)
  else if l =? chr "s" then cls (isspace c)
  else if l =? chr "u" then cls (isupper c)
  else if l =? chr "w" then cls (isalnum c)
  else if l =? chr "x" then cls (isxdigit c)
  else if l =? chr "z" then cls (c =? 0)
  else cl =? c.

Section Matching.

(** the subject and the pattern *)
Variables src pat : bytes.

Definition src_end : Z := zlen src.

(** the [do ... while] loop of [classend] *)
Fixpoint classend_loop (fuel : nat) (p : Z) : res Z :=
  match fuel with
  | O => Err Fuel
  | S fuel' =>
      c ← cread pat p;
      if c =? 0 then Err (RunError "malformed pattern (missing ']')")
      else
        let p := p + 1 in
        p ← (if c =? L_ESC then d ← cread pat p; Ok (if negb (d =? 0) then p + 1 else p) else Ok p);
        d ← cread pat p;
        if negb (d =? chr "]") then classend_loop fuel' p else Ok (p + 1)
  end.

Definition pattern_fuel : nat := S (length pat).

Definition classend (p : Z) : res Z :=
  c ← cread pat p;
  let p := p + 1 in
  if c =? L_ESC then
    d ← cread pat p;
    if d =? 0 then Err (RunError "malformed pattern (ends with '%')") else Ok (p + 1)
  else if c =? chr "[" then
    d ← cread pat p;
    classend_loop pattern_fuel (if d =? chr "^" then p + 1 else p)
  else Ok p.

(** the [while ( ++p < ec)] loop of [matchbracketclass] *)
Fixpoint bracket_loop (fuel : nat) (c p ec : Z) (sig : bool) : res bool :=
  match fuel with
  | O => Err Fuel
  | S fuel' =>
      let p := p + 1 in
      if p <? ec then
        x ← cread pat p;
        if x =? L_ESC then
          let p := p + 1 in
          y ← cread pat p;
          if match_class c y then Ok sig else bracket_loop fuel' c p ec sig
        else
          y ← cread pat (p + 1);
          if (y =? chr "-") && (p + 2 <? ec) then
            let p := p + 2 in
            z ← cread pat p;
            if (x <=? c) && (c <=? z) then Ok sig else bracket_loop fuel' c p ec sig
          else if x =? c then Ok sig
          else bracket_loop fuel' c p ec sig
      else Ok (negb sig)
  end.

Definition matchbracketclass (c p ec : Z) : res bool :=
  d ← cread pat (p + 1);
  if d =? chr "^" then bracket_loop pattern_fuel c (p + 1) ec false
  else bracket_loop pattern_fuel c p ec true.

Definition singlematch (c p ep : Z) : res bool :=
  x ← cread pat p;
  if x =? chr "." then Ok true
  else if x =? L_ESC then y ← cread pat (p + 1); Ok (match_class c y)
  else if x =? chr "[" then matchbracketclass c p (ep - 1)
  else Ok (x =? c).

(** the loop of [matchbalance]; the new [s], [None] for NULL *)
Fixpoint balance_loop (fuel : nat) (s b e cont : Z) : res (option Z) :=
  match fuel with
  | O => Err Fuel
  | S fuel' =>
      let s := s + 1 in
      if s <? src_end then
        x ← cread src s;
        if x =? e then
          let cont := cont - 1 in
          if cont =? 0 then Ok (Some (s + 1)) else balance_loop fuel' s b e cont
        else if x =? b then balance_loop fuel' s b e (cont + 1)
        else balance_loop fuel' s b e cont
      else Ok None
  end.

Definition subject_fuel : nat := S (length src).

Definition matchbalance (s p : Z) : res (option Z) :=
  b ← cread pat p;
  if b =? 0 then Err (RunError "unbalanced pattern")
  else
    e ← cread pat (p + 1);
    if e =? 0 then Err (RunError "unbalanced pattern")
    else
      x ← cread src s;
      if negb (x =? b) then Ok None else balance_loop subject_fuel s b e 1.

(** [s < ms->src_end && singlematch(uchar( *s), p, ep)] *)
Definition single_at (s p ep : Z) : res bool :=
  if s <? src_end then c ← cread src s; singlematch c p ep else Ok false.

(** the first loop of [max_expand]: the number of repetitions *)
Fixpoint expand_count (fuel : nat) (s p ep i : Z) : res Z :=
  match fuel with
  | O => Err Fuel
  | S fuel' =>
      m ← single_at (s + i) p ep;
      if (m : bool) then expand_count fuel' s p ep (i + 1) else Ok i
  end.

(** [match] and its helpers: they change the match state *)
Definition mm (A : Type) : Type := stres MatchState A.

Section Helpers.

Variable match_ : Z -> Z -> mm (option Z).

(** the second loop: from [i] repetitions down to none *)
Fixpoint max_expand_loop (i : nat) (s ep : Z) : mm (option Z) :=
  res ← match_ (s + Z.of_nat i) (ep + 1);
  match res with
  | Some r => mret (Some r)
  | None => match i with O => mret None | S i' => max_expand_loop i' s ep end
  end.

Definition max_expand (s p ep : Z) : mm (option Z) :=
  i ← lift (expand_count subject_fuel s p ep 0);
  max_expand_loop (Z.to_nat i) s ep.

Fixpoint min_expand_loop (fuel : nat) (s p ep : Z) : mm (option Z) :=
  match fuel with
  | O => raise Fuel
  | S fuel' =>
      res ← match_ s (ep + 1);
      match res with
      | Some r => mret (Some r)
      | None =>
          m ← lift (single_at s p ep);
          if (m : bool) then min_expand_loop fuel' (s + 1) p ep else mret None
      end
  end.

Definition min_expand (s p ep : Z) : mm (option Z) := min_expand_loop subject_fuel s p ep.

Definition start_capture (s p what : Z) : mm (option Z) :=
  level ← gets level;
  if GAFQ_MAXCAPTURES <=? level then raise (RunError "too many captures")
  else
    _ ← modify (fun ms => mkMS (level + 1) (vset (capture ms) level (s, what)));
    res ← match_ s p;
    match res with
    | None => _ ← modify (fun ms => mkMS (StrLib.level ms - 1) (capture ms)); mret None
    | Some r => mret (Some r)
    end.

Definition end_capture (s p : Z) : mm (option Z) :=
  ms ← gets id;
  l ← lift (capture_to_close ms);
  _ ← modify (fun ms => set_len ms l (s - cap_init ms l));
  res ← match_ s p;
  match res with
  | None => _ ← modify (fun ms => set_len ms l CAP_UNFINISHED); mret None
  | Some r => mret (Some r)
  end.

(** a pattern item with an optional suffix (the label [dflt]) *)
Definition match_default (s p : Z) : mm (option Z) :=
  ep ← lift (classend p);
  m ← lift (single_at s p ep);
  x ← lift (cread pat ep);
  if x =? chr "?" then
    res ← (if (m : bool) then match_ (s + 1) (ep + 1) else mret None);
    match res with
    | Some r => mret (Some r)
    | None => match_ s (ep + 1)
    end
  else if x =? chr "*" then max_expand s p ep
  else if x =? chr "+" then (if (m : bool) then max_expand (s + 1) p ep else mret None)
  else if x =? chr "-" then min_expand s p ep
  else if negb m then mret None
  else match_ (s + 1) ep.

End Helpers.

Definition match_capture (ms : MatchState) (s l : Z) : res (option Z) :=
  l ← check_capture ms l;
  let len := size_t (cap_len ms l) in
  if (len <=? src_end - s) && bool_decide (csub src (cap_init ms l) len = csub src s len)
  then Ok (Some (s + len)) else Ok None.

(** every call of [match] and every [goto init] moves [p] forward: the length
    of the pattern is enough fuel *)
Fixpoint match_ (fuel : nat) (s p : Z) : mm (option Z) :=
  match fuel with
  | O => raise Fuel
  | S fuel' =>
      let dflt := match_default (match_ fuel') s p in
      c ← lift (cread pat p);
      if c =? chr "(" then
        d ← lift (cread pat (p + 1));
        if d =? chr ")" then start_capture (match_ fuel') s (p + 2) CAP_POSITION
        else start_capture (match_ fuel') s (p + 1) CAP_UNFINISHED
      else if c =? chr ")" then end_capture (match_ fuel') s (p + 1)
      else if c =? L_ESC then
        d ← lift (cread pat (p + 1));
        if d =? chr "b" then
          r ← lift (matchbalance s (p + 2));
          match r with None => mret None | Some s => match_ fuel' s (p + 4) end
        else if d =? chr "f" then
          let p := p + 2 in
          x ← lift (cread pat p);
          if negb (x =? chr "[") then raise (RunError "missing '[' after '%f' in pattern")
          else
            ep ← lift (classend p);
            previous ← lift (if s =? 0 then Ok 0 else cread src (s - 1));
            m1 ← lift (matchbracketclass previous p (ep - 1));
            if (m1 : bool) then mret None
            else
              c ← lift (cread src s);
              m2 ← lift (matchbracketclass c p (ep - 1));
              if negb m2 then mret None else match_ fuel' s ep
        else if isdigit d then
          ms ← gets id;
          r ← lift (match_capture ms s d);
          match r with None => mret None | Some s => match_ fuel' s (p + 2) end
        else dflt
      else if c =? 0 then mret (Some s)
      else if c =? chr "$" then
        d ← lift (cread pat (p + 1));
        if d =? 0 then mret (if s =? src_end then Some s else None) else dflt
      else dflt
  end.

Definition do_match (s p : Z) : mm (option Z) := match_ pattern_fuel s p.

End Matching.

(** ** Plain search *)

(** [memchr(b + i, c, n)], as an offset *)
Fixpoint memchr (b : bytes) (i c : Z) (n : nat) : option Z :=
  match n with
  | O => None
  | S n => if vget 0 b i =? c then Some i else memchr b (i + 1) c n
  end.

(** the [while] loop of [gmemfind]; [l2] is already decremented *)
Fixpoint gmemfind_loop (fuel : nat) (b : bytes) (s1 l1 : Z) (s2 : bytes) (l2 : Z) : res (option Z) :=
  match fuel with
  | O => Err Fuel
  | S fuel' =>
      if 0 <? l1 then
        match memchr b s1 (vget 0 s2 0) (Z.to_nat l1) with
        | None => Ok None
        | Some init =>
            let init := init + 1 in
            if bool_decide (csub b init l2 = csub s2 1 l2) then Ok (Some (init - 1))
            else gmemfind_loop fuel' b init (l1 - (init - s1)) s2 l2
        end
      else Ok None
  end.

(** [s1] is an offset of [b], [l1] the number of bytes from there *)
Definition gmemfind (b : bytes) (s1 l1 : Z) (s2 : bytes) : res (option Z) :=
  let l2 := zlen s2 in
  if l2 =? 0 then Ok (Some s1)
  else if l1 <? l2 then Ok None
  else gmemfind_loop (S (length b)) b s1 (l1 - (l2 - 1)) s2 (l2 - 1).

(** ** Captures *)

Section Captures.

Variables (src : bytes) (ms : MatchState).

(** [s] is [None] for NULL *)
Definition push_onecapture (i s e : Z) : res rvalue :=
  if level ms <=? i then
    if i =? 0 then Ok (RStr (csub src s (e - s)))
    else Err (RunError "invalid capture index")
  else
    let l := cap_len ms i in
    if l =? CAP_UNFINISHED then Err (RunError "unfinished capture")
    else if l =? CAP_POSITION then Ok (RInt (cap_init ms i + 1))
    else Ok (RStr (csub src (cap_init ms i) l)).

Fixpoint push_captures_loop (n : nat) (i s e : Z) : res (list rvalue) :=
  match n with
  | O => Ok []
  | S n =>
      v ← push_onecapture i s e;
      vs ← push_captures_loop n (i + 1) s e;
      Ok (v :: vs)
  end.

Definition push_captures (used : Z) (s : option Z) (e : Z) : res (list rvalue) :=
  let nlevels := if (level ms =? 0) && bool_decide (is_Some s) then 1 else level ms in
  _ ← gafqL_checkstack used nlevels "too many captures";
  push_captures_loop (Z.to_nat nlevels) 0 (default 0 s) e.

End Captures.

(** ** [string.find] and [string.match] *)

Definition SPECIALS : bytes := str "^$*+?.([%-".

(** [strpbrk(p, SPECIALS) == NULL]: the bytes before the first zero have no special character *)
Fixpoint nospecials (p : bytes) : bool :=
  match p with
  | [] => true
  | c :: p => if c =? 0 then true else negb (bool_decide (c ∈ SPECIALS)) && nospecials p
  end.

(** a match state before the first capture; [capture[]] is not initialised *)
Definition no_captures : MatchState := mkMS 0 (replicate (Z.to_nat GAFQ_MAXCAPTURES) (0, 0)).

(** [ms.level = 0] *)
Definition reset_level (ms : MatchState) : MatchState := mkMS 0 (capture ms).

(** the [do ... while] loop of [str_find_aux]: where the match starts and ends *)
Fixpoint find_loop (fuel : nat) (src pat : bytes) (ms : MatchState) (s1 p : Z) (anchor : bool) :
    res (option (Z * Z * MatchState)) :=
  match fuel with
  | O => Err Fuel
  | S fuel' =>
      '(r, ms) ← do_match src pat s1 p (reset_level ms);
      match r with
      | Some e => Ok (Some (s1, e, ms))
      | None =>
          if (s1 <? src_end src) && negb anchor then find_loop fuel' src pat ms (s1 + 1) p anchor
          else Ok None
      end
  end.

(** [init] is [1] and [plain] is false by default *)
Definition str_find_aux (used : Z) (find : bool) (s p : bytes) (init : Z) (plain : bool) : res (list rvalue) :=
  let l1 := zlen s in
  let init := posrelat init l1 - 1 in
  let init := if init <? 0 then 0 else if l1 <? init then l1 else init in
  if find && (plain || nospecials p) then
    s2 ← gmemfind s init (l1 - init) p;
    match s2 with
    | Some s2 => Ok [RInt (s2 + 1); RInt (s2 + zlen p)]
    | None => Ok [RNil]
    end
  else
    c ← cread p 0;
    let anchor := c =? chr "^" in
    r ← find_loop (S (S (length s))) s p no_captures init (if anchor then 1 else 0) anchor;
    match r with
    | Some (s1, e, ms) =>
        if find then
          caps ← push_captures s ms (used + 2) None 0;
          Ok (RInt (s1 + 1) :: RInt e :: caps)
        else push_captures s ms used (Some s1) e
    | None => Ok [RNil]
    end.

Definition str_find := fun used => str_find_aux used true.
Definition str_match := fun used => str_find_aux used false.

(** ** [string.gmatch] *)

(** the [for] loop of [gmatch_aux] *)
Fixpoint gmatch_loop (fuel : nat) (s p : bytes) (ms : MatchState) (src : Z) :
    res (option (Z * Z * MatchState)) :=
  match fuel with
  | O => Err Fuel
  | S fuel' =>
      if src <=? src_end s then
        '(r, ms) ← do_match s p src 0 (reset_level ms);
        match r with
        | Some e => Ok (Some (src, e, ms))
        | None => gmatch_loop fuel' s p ms (src + 1)
        end
      else Ok None
  end.

(** one call of the iterator: the captures and the new value of the upvalue
    that holds the position, [None] at the end *)
Definition gmatch_aux (used : Z) (s p : bytes) (start : Z) : res (option (list rvalue * Z)) :=
  r ← gmatch_loop (S (S (length s))) s p no_captures start;
  match r with
  | Some (src, e, ms) =>
      let newstart := if e =? src then e + 1 else e in
      caps ← push_captures s ms used (Some src) e;
      Ok (Some (caps, newstart))
  | None => Ok None
  end.

(** ** [string.gsub] *)

(** [gafqL_addvalue] of a capture *)
Definition rvalue_str (v : rvalue) : bytes :=
  match v with RStr b => b | RInt z => int_str z | RNil => [] end.

(** a value that a replacement function or table yields *)
Inductive replvalue :=
  | RVFalse                    (* nil or false *)
  | RVString (b : bytes)       (* a string, or a number as a string *)
  | RVOther (typename : string).

Inductive replacement :=
  | ReplString (news : bytes)
  | ReplFunction (call : list rvalue -> res replvalue)
  | ReplTable (gettable : rvalue -> res replvalue).

Section Gsub.

Variables (src pat : bytes).

(** the loop of [add_s] over [news[i..l-1]] *)
Fixpoint add_s_loop (fuel : nat) (ms : MatchState) (news : bytes) (i s e : Z) (b : bytes) : res bytes :=
  match fuel with
  | O => Err Fuel
  | S fuel' =>
      if i <? zlen news then
        c ← cread news i;
        if negb (c =? L_ESC) then add_s_loop fuel' ms news (i + 1) s e (b ++ [c])
        else
          let i := i + 1 in
          c ← cread news i;
          if negb (isdigit c) then add_s_loop fuel' ms news (i + 1) s e (b ++ [c])
          else if c =? chr "0" then add_s_loop fuel' ms news (i + 1) s e (b ++ csub src s (e - s))
          else
            v ← push_onecapture src ms (c - chr "1") s e;
            add_s_loop fuel' ms news (i + 1) s e (b ++ rvalue_str v)
      else Ok b
  end.

Definition add_s (ms : MatchState) (news : bytes) (s e : Z) (b : bytes) : res bytes :=
  add_s_loop (S (length news)) ms news 0 s e b.

Definition add_value (used : Z) (repl : replacement) (ms : MatchState) (s e : Z) (b : bytes) : res bytes :=
  let add v :=
    match v with
    | RVFalse => Ok (b ++ csub src s (e - s))
    | RVString t => Ok (b ++ t)
    | RVOther tn => Err (RunError ("invalid replacement value (a " ++ tn ++ ")")%string)
    end in
  match repl with
  | ReplString news => add_s ms news s e b
  | ReplFunction call => caps ← push_captures src ms used (Some s) e; v ← call caps; add v
  | ReplTable gettable => k ← push_onecapture src ms 0 s e; v ← gettable k; add v
  end.

(** the [while] loop of [str_gsub]: the buffer, the position reached, the number of substitutions *)
Fixpoint gsub_loop (fuel : nat) (used : Z) (repl : replacement) (max_s : Z) (anchor : bool) (p : Z)
    (ms : MatchState) (s n : Z) (b : bytes) : res (bytes * Z * Z) :=
  match fuel with
  | O => Err Fuel
  | S fuel' =>
      if n <? max_s then
        '(r, ms) ← do_match src pat s p (reset_level ms);
        '(n, b) ← match r with
                  | Some e => b ← add_value used repl ms s e b; Ok (n + 1, b)
                  | None => Ok (n, b)
                  end;
        match r with
        | Some e =>
            if s <? e then
              if anchor then Ok (b, e, n) else gsub_loop fuel' used repl max_s anchor p ms e n b
            else if s <? src_end src then
              c ← cread src s;
              if anchor then Ok (b ++ [c], s + 1, n)
              else gsub_loop fuel' used repl max_s anchor p ms (s + 1) n (b ++ [c])
            else Ok (b, s, n)
        | None =>
            if s <? src_end src then
              c ← cread src s;
              if anchor then Ok (b ++ [c], s + 1, n)
              else gsub_loop fuel' used repl max_s anchor p ms (s + 1) n (b ++ [c])
            else Ok (b, s, n)
        end
      else Ok (b, s, n)
  end.

(** [max_s] is [srcl+1] by default, converted to [int] *)
Definition str_gsub (used : Z) (repl : replacement) (max_s : option Z) : res (bytes * Z) :=
  let max_s := default (s32 (zlen src + 1)) max_s in
  c ← cread pat 0;
  let anchor := c =? chr "^" in
  '(b, s, n) ← gsub_loop (S (S (length src))) used repl max_s anchor (if anchor then 1 else 0) no_captures 0 0 [];
  Ok (b ++ csub src s (src_end src - s), n).

End Gsub.

(** ** [string.format] *)

Definition FLAGS : bytes := str "-+ #0".
Definition GAFQ_INTFRMLEN : bytes := str "l".
(** [sizeof] counts the terminating zeros *)
Definition MAX_FORMAT : Z := (zlen FLAGS + 1) + (zlen GAFQ_INTFRMLEN + 1) + 10.

Fixpoint addquoted_loop (s b : bytes) : bytes :=
  match s with
  | [] => b
  | c :: s =>
      addquoted_loop s
        (if (c =? 34) || (c =? 92) || (c =? 10) then b ++ [92; c]
         else if c =? 13 then b ++ [92; chr "r"]
         else if c =? 0 then b ++ [92; chr "0"; chr "0"; chr "0"]
         else b ++ [c])
  end.

Definition addquoted (s b : bytes) : bytes := addquoted_loop s (b ++ [34]) ++ [34].

(** [while ( *p != '\0' && strchr(FLAGS, *p) != NULL) p++] *)
Fixpoint skip_flags (fuel : nat) (f : bytes) (p : Z) : res Z :=
  match fuel with
  | O => Err Fuel
  | S fuel' =>
      c ← cread f p;
      if negb (c =? 0) && bool_decide (c ∈ FLAGS) then skip_flags fuel' f (p + 1) else Ok p
  end.

(** [if (isdigit(uchar( *p))) p++] *)
Definition skip_digit (f : bytes) (p : Z) : res Z :=
  c ← cread f p; Ok (if isdigit c then p + 1 else p).

(** the new position and the contents of [form] before its terminating zero;
    [strncpy] copies [p - strfrmt + 1] bytes *)
Definition scanformat (f : bytes) (strfrmt : Z) : res (Z * bytes) :=
  p ← skip_flags (S (length f)) f strfrmt;
  if zlen FLAGS + 1 <=? p - strfrmt then Err (RunError "invalid format (repeated flags)")
  else
    p ← skip_digit f p;
    p ← skip_digit f p;
    c ← cread f p;
    p ← (if c =? chr "." then p ← skip_digit f (p + 1); skip_digit f p else Ok p);
    c ← cread f p;
    if isdigit c then Err (RunError "invalid format (width or precision too long)")
    else Ok (p, chr "%" :: csub (f ++ [0]) strfrmt (p - strfrmt + 1)).

(** [form] ends with its conversion character *)
Definition addintlen (form : bytes) : bytes :=
  let l := zlen form in
  take (Z.to_nat (l - 1)) form ++ GAFQ_INTFRMLEN ++ [vget 0 form (l - 1)].

(** an argument of [string.format]: what [gafqL_checknumber] and [gafqL_checkgstring] give for it *)
Record farg := mkArg { a_number : res gafq_Number; a_string : res bytes }.

(** an argument of [sprintf] *)
Inductive parg := PInt (z : Z) | PLong (z : Z) | PULong (z : Z) | PDouble (n : gafq_Number) | PString (b : bytes).

(** the conversion of a double to an integer type with the given range *)
Definition num_cast (lo hi : Z) (n : gafq_Number) : res Z :=
  match num_trunc n with
  | Some z => if (lo <=? z) && (z <=? hi) then Ok z else Err Undefined
  | None => Err Undefined
  end.

Section Format.

(** [sprintf(buff, form, arg)]: the bytes stored before the terminating zero *)
Variable sprintf : bytes -> parg -> bytes.

(** the [switch] on the conversion character: the text of the item *)
Definition format_item (c : Z) (form : bytes) (arg : farg) : res bytes :=
  if c =? chr "c" then
    n ← a_number arg; z ← num_cast INT_MIN INT_MAX n; Ok (cstr (sprintf form (PInt z)))
  else if (c =? chr "d") || (c =? chr "i") then
    n ← a_number arg; z ← num_cast (- 2 ^ 63) (2 ^ 63 - 1) n; Ok (cstr (sprintf (addintlen form) (PLong z)))
  else if (c =? chr "o") || (c =? chr "u") || (c =? chr "x") || (c =? chr "X") then
    n ← a_number arg; z ← num_cast 0 (2 ^ 64 - 1) n; Ok (cstr (sprintf (addintlen form) (PULong z)))
  else if (c =? chr "e") || (c =? chr "E") || (c =? chr "f") || (c =? chr "g") || (c =? chr "G") then
    n ← a_number arg; Ok (cstr (sprintf form (PDouble n)))
  else if c =? chr "q" then s ← a_string arg; Ok (addquoted s [])
  else if c =? chr "s" then
    s ← a_string arg;
    if negb (bool_decide (chr "." ∈ cstr form)) && (100 <=? zlen s) then Ok s
    else Ok (cstr (sprintf form (PString (cstr s))))
  else Err (RunError "invalid option to 'format'").

Fixpoint format_loop (fuel : nat) (f : bytes) (p : Z) (args : list farg) (b : bytes) : res bytes :=
  match fuel with
  | O => Err Fuel
  | S fuel' =>
      if p <? zlen f then
        c ← cread f p;
        if negb (c =? L_ESC) then format_loop fuel' f (p + 1) args (b ++ [c])
        else
          let p := p + 1 in
          c ← cread f p;
          if c =? L_ESC then format_loop fuel' f (p + 1) args (b ++ [c])
          else
            match args with
            | [] => Err (RunError "bad argument (no value)")
            | arg :: args =>
                '(p, form) ← scanformat f p;
                c ← cread f p;
                t ← format_item c form arg;
                format_loop fuel' f (p + 1) args (b ++ t)
            end
      else Ok b
  end.

Definition str_format (f : bytes) (args : list farg) : res bytes :=
  format_loop (S (length f)) f 0 args [].

End Format.
