(* ===== verification/StrMatch.v ===== *)
(** * Correctness of the pattern matcher of gstrlib.c

    [pm] says declaratively in which ways a pattern matches at a position,
    without an order and without undoing captures.  The backtracking [match]
    terminates, reads inside the subject and the pattern only, returns a way to
    match when there is one and fails, with the captures as before, when there
    is none. *)

From stdpp Require Import sets.
From S2P Require Import Prelude Number StrLib.

Lemma cread_ok b i : 0 <= i <= zlen b -> exists c, cread b i = Ok c.
Proof. intros Hi. unfold cread. zbool; simpl; eauto. Qed.

Lemma cread_in b i : 0 <= i < zlen b -> cread b i = Ok (vget 0 b i).
Proof.
  intros Hi. unfold cread. destruct (Z.leb_spec 0 i); [|lia]. by destruct (Z.ltb_spec i (zlen b)); [|lia].
Qed.

Lemma cread_vget b i c : cread b i = Ok c -> c = vget 0 b i.
Proof.
  unfold cread. destruct (Z.leb_spec 0 i), (Z.ltb_spec i (zlen b)); simpl; try congruence;
    (destruct (Z.eqb_spec i (zlen b)); [intros [=<-]|done]); unfold zlen, vget in *.
  - destruct (Z.ltb_spec i 0); [done|]. rewrite nth_overflow; [done|lia].
  - destruct (Z.ltb_spec i 0); [done|lia].
  - destruct (Z.ltb_spec i 0); [done|lia].
Qed.

(** a byte that is not zero is before the end *)
Lemma cread_nonzero b i c : cread b i = Ok c -> c <> 0 -> 0 <= i < zlen b.
Proof.
  unfold cread. destruct (Z.leb_spec 0 i), (Z.ltb_spec i (zlen b)); simpl; try lia;
    destruct (i =? zlen b); intros [=]; congruence.
Qed.

(** the errors of a pattern are reported, not undefined behaviour or lack of fuel *)
Definition reported (e : error) : Prop := exists msg, e = RunError msg.

Lemma reported_intro msg : reported (RunError msg).
Proof. by exists msg. Qed.

#[export] Hint Resolve reported_intro : core.

Section Pattern.

Variable pat : bytes.

Lemma classend_loop_spec fuel p :
  0 <= p <= zlen pat -> zlen pat - p < Z.of_nat fuel ->
  match classend_loop pat fuel p with
  | Ok ep => p + 1 < ep <= zlen pat
  | Err e => reported e
  end.
Proof.
  revert p. induction fuel as [|fuel IH]; intros p Hp Hf; [lia|]. cbn [classend_loop].
  destruct (cread_ok pat p Hp) as [c Ec]. rewrite Ec. cbn [mbind res_bind].
  destruct (Z.eqb_spec c 0) as [|Hc]; [auto|].
  pose proof (cread_nonzero _ _ _ Ec Hc) as Hp'.
  assert (exists q, p + 1 <= q <= zlen pat /\
            (if c =? L_ESC then d ← cread pat (p + 1); Ok (if negb (d =? 0) then p + 1 + 1 else p + 1)
             else Ok (p + 1)) = Ok q) as (q & Hq & ->).
  { destruct (c =? L_ESC); [|exists (p + 1); split; [lia|done]].
    destruct (cread_ok pat (p + 1)) as [d Ed]; [lia|]. rewrite Ed. cbn [mbind res_bind].
    destruct (Z.eqb_spec d 0) as [|Hd]; [exists (p + 1); split; [lia|done]|].
    pose proof (cread_nonzero _ _ _ Ed Hd). exists (p + 1 + 1). split; [lia|done]. }
  cbn [mbind res_bind]. destruct (cread_ok pat q) as [d Ed]; [lia|]. rewrite Ed. cbn [mbind res_bind].
  destruct (Z.eqb_spec d (chr "]")) as [->|Hd]; cbn [negb].
  - assert (0 <= q < zlen pat) by (by eapply cread_nonzero). lia.
  - specialize (IH q). destruct (classend_loop pat fuel q); [|apply IH; lia]. lia.
Qed.

Lemma classend_spec p c :
  cread pat p = Ok c -> c <> 0 ->
  match classend pat p with
  | Ok ep => p < ep <= zlen pat
  | Err e => reported e
  end.
Proof.
  intros Ec Hc. pose proof (cread_nonzero _ _ _ Ec Hc) as Hp. unfold classend. rewrite Ec. cbn [mbind res_bind].
  destruct (cread_ok pat (p + 1)) as [d Ed]; [lia|].
  destruct (c =? L_ESC); [|destruct (c =? chr "["); [|lia]]; rewrite Ed; cbn [mbind res_bind].
  - destruct (Z.eqb_spec d 0) as [|Hd]; [auto|]. pose proof (cread_nonzero _ _ _ Ed Hd). lia.
  - assert (p + 1 <= (if d =? chr "^" then p + 1 + 1 else p + 1) <= zlen pat) as Hq.
    { destruct (Z.eqb_spec d (chr "^")) as [->|]; [|lia].
      assert (0 <= p + 1 < zlen pat) by (by eapply cread_nonzero). lia. }
    set (q := if d =? chr "^" then _ else _) in *.
    assert (zlen pat - q < Z.of_nat (pattern_fuel pat)) as Hf by (unfold pattern_fuel, zlen in *; lia).
    pose proof (classend_loop_spec (pattern_fuel pat) q ltac:(lia) Hf) as H.
    destruct (classend_loop _ _ _); [lia|exact H].
Qed.

Lemma bracket_loop_ok fuel c p ec sig :
  0 <= p + 1 -> ec <= zlen pat -> ec - p < Z.of_nat fuel ->  0 < Z.of_nat fuel ->
  exists b, bracket_loop pat fuel c p ec sig = Ok b.
Proof.
  revert p. induction fuel as [|fuel IH]; intros p Hp He Hf Hf0; [lia|]. cbn [bracket_loop].
  destruct (Z.ltb_spec (p + 1) ec); [|eauto].
  assert (forall q, p + 1 <= q -> exists b, bracket_loop pat fuel c q ec sig = Ok b) as Hrec.
  { intros q Hq. apply IH; lia. }
  destruct (cread_ok pat (p + 1)) as [x ->]; [lia|]. cbn [mbind res_bind].
  destruct (cread_ok pat (p + 1 + 1)) as [y Ey]; [lia|].
  destruct (x =? L_ESC); rewrite Ey; cbn [mbind res_bind].
  - destruct (match_class c y); [eauto|]. apply Hrec. lia.
  - destruct (y =? chr "-"); cbn [andb]; [|destruct (x =? c); [eauto|apply Hrec; lia]].
    destruct (Z.ltb_spec (p + 1 + 2) ec); [|destruct (x =? c); [eauto|apply Hrec; lia]].
    destruct (cread_ok pat (p + 1 + 2)) as [z ->]; [lia|]. cbn [mbind res_bind].
    destruct ((x <=? c) && (c <=? z)); [eauto|]. apply Hrec. lia.
Qed.

Lemma matchbracketclass_ok c p ec :
  0 <= p < zlen pat -> ec <= zlen pat -> exists b, matchbracketclass pat c p ec = Ok b.
Proof.
  intros Hp He. unfold matchbracketclass. destruct (cread_ok pat (p + 1)) as [d ->]; [lia|].
  cbn [mbind res_bind]. unfold pattern_fuel.
  destruct (d =? chr "^"); apply bracket_loop_ok; unfold zlen in *; lia.
Qed.

Lemma singlematch_ok c p ep :
  0 <= p < zlen pat -> ep <= zlen pat -> exists b, singlematch pat c p ep = Ok b.
Proof.
  intros Hp He. unfold singlematch. destruct (cread_ok pat p) as [x ->]; [lia|]. cbn [mbind res_bind].
  destruct (x =? chr "."); [eauto|]. destruct (x =? L_ESC).
  - destruct (cread_ok pat (p + 1)) as [y ->]; [lia|]. simpl. eauto.
  - destruct (x =? chr "["); [apply matchbracketclass_ok; lia|eauto].
Qed.

End Pattern.

(** ** The items of a pattern *)

Inductive suffix := One | Opt | Star | Plus | Minus.

Inductive pitem :=
  | PEnd                              (* end of the pattern *)
  | PPos | POpen | PClose             (* "()", "(", ")" *)
  | PBal                              (* "%bxy" *)
  | PFrontier (ep : Z)                (* "%f[set]" *)
  | PBack (d : Z)                     (* "%1" *)
  | PDollar                           (* "$" at the end *)
  | PSingle (ep : Z) (sf : suffix).   (* a class with a suffix *)

Definition suffix_of (x : Z) : suffix :=
  if x =? chr "?" then Opt else if x =? chr "*" then Star else if x =? chr "+" then Plus
  else if x =? chr "-" then Minus else One.

Section Matcher.

Variables src pat : bytes.

#[local] Abbreviation src_end := (src_end src).

Definition decode_class (p : Z) : res pitem :=
  ep ← classend pat p; x ← cread pat ep; Ok (PSingle ep (suffix_of x)).

(** the item at [p] *)
Definition decode (p : Z) : res pitem :=
  let dflt := decode_class p in
  c ← cread pat p;
  if c =? chr "(" then d ← cread pat (p + 1); Ok (if d =? chr ")" then PPos else POpen)
  else if c =? chr ")" then Ok PClose
  else if c =? L_ESC then
    d ← cread pat (p + 1);
    if d =? chr "b" then Ok PBal
    else if d =? chr "f" then
      x ← cread pat (p + 2);
      if negb (x =? chr "[") then Err (RunError "missing '[' after '%f' in pattern")
      else ep ← classend pat (p + 2); Ok (PFrontier ep)
    else if isdigit d then Ok (PBack d)
    else dflt
  else if c =? 0 then Ok PEnd
  else if c =? chr "$" then d ← cread pat (p + 1); if d =? 0 then Ok PDollar else dflt
  else dflt.

(** ** The ways to match *)

(** the captures so far: start and length *)
Abbreviation caps := (list (Z * Z)).

(** [l] is the last capture still open *)
Definition last_open (c : caps) (l : nat) (i : Z) : Prop :=
  c !! l = Some (i, CAP_UNFINISHED) /\
  forall l' x, (l < l')%nat -> c !! l' = Some x -> x.2 <> CAP_UNFINISHED.

(** the text of capture number [d] occurs again at [s] *)
Definition backref (c : caps) (d s s' : Z) : Prop :=
  exists i len, 0 <= d - chr "1" /\ c !! Z.to_nat (d - chr "1") = Some (i, len) /\ 0 <= len /\
    s' = s + len /\ s' <= src_end /\ csub src i len = csub src s len.

Definition before (s : Z) : Z := if s =? 0 then 0 else vget 0 src (s - 1).

(** [n] characters of the class at [p] from [s] on *)
Definition run (s p ep : Z) (n : nat) : Prop :=
  forall k, (k < n)%nat -> single_at src pat (s + Z.of_nat k) p ep = Ok true.

(** how often a class with a suffix may be repeated *)
Definition allowed (sf : suffix) (n : nat) : Prop :=
  match sf with
  | One => n = 1%nat
  | Opt => (n <= 1)%nat
  | Star | Minus => True
  | Plus => (1 <= n)%nat
  end.

(** where the pattern goes on after a class that ends at [ep] *)
Definition after (sf : suffix) (ep : Z) : Z := match sf with One => ep | _ => ep + 1 end.

Inductive pm : caps -> Z -> Z -> Z -> caps -> Prop :=
  | pm_end c s p : decode p = Ok PEnd -> pm c s p s c
  | pm_pos c s p e c' : decode p = Ok PPos -> zlen c < GAFQ_MAXCAPTURES ->
      pm (c ++ [(s, CAP_POSITION)]) s (p + 2) e c' -> pm c s p e c'
  | pm_open c s p e c' : decode p = Ok POpen -> zlen c < GAFQ_MAXCAPTURES ->
      pm (c ++ [(s, CAP_UNFINISHED)]) s (p + 1) e c' -> pm c s p e c'
  | pm_close c s p l i e c' : decode p = Ok PClose -> last_open c l i ->
      pm (<[l := (i, s - i)]> c) s (p + 1) e c' -> pm c s p e c'
  | pm_balance c s p s' e c' : decode p = Ok PBal -> matchbalance src pat s (p + 2) = Ok (Some s') ->
      pm c s' (p + 4) e c' -> pm c s p e c'
  | pm_frontier c s p ep e c' : decode p = Ok (PFrontier ep) ->
      matchbracketclass pat (before s) (p + 2) (ep - 1) = Ok false ->
      matchbracketclass pat (vget 0 src s) (p + 2) (ep - 1) = Ok true ->
      pm c s ep e c' -> pm c s p e c'
  | pm_back c s p d s' e c' : decode p = Ok (PBack d) -> backref c d s s' ->
      pm c s' (p + 2) e c' -> pm c s p e c'
  | pm_dollar c p : decode p = Ok PDollar -> pm c src_end p src_end c
  | pm_single c s p ep sf n e c' : decode p = Ok (PSingle ep sf) -> allowed sf n -> run s p ep n ->
      pm c (s + Z.of_nat n) (after sf ep) e c' -> pm c s p e c'.

(** ** The captures of a match state *)

Definition live (ms : MatchState) : caps := take (Z.to_nat (level ms)) (capture ms).

Definition ms_ok (ms : MatchState) : Prop :=
  0 <= level ms <= GAFQ_MAXCAPTURES /\ zlen (capture ms) = GAFQ_MAXCAPTURES.

(** captures lie before the position [s] *)
Definition caps_ok (s : Z) (c : caps) : Prop :=
  Forall (fun x => 0 <= x.1 <= s /\
                   (x.2 = CAP_UNFINISHED \/ x.2 = CAP_POSITION \/ (0 <= x.2 /\ x.1 + x.2 <= s))) c.

Lemma caps_ok_mono s s' c : s <= s' -> caps_ok s c -> caps_ok s' c.
Proof. intros Hs Hc. eapply Forall_impl; [exact Hc|]. intros x Hx. cbv beta in *. lia. Qed.

Lemma length_live ms : ms_ok ms -> zlen (live ms) = level ms.
Proof. unfold ms_ok, zlen, live. intros [? ?]. rewrite length_take. lia. Qed.

Lemma lookup_live ms l x :
  ms_ok ms -> live ms !! l = Some x ->
  Z.of_nat l < level ms /\ vget (0, 0) (capture ms) (Z.of_nat l) = x.
Proof.
  intros [Hl Hc] H. unfold live in H. apply lookup_take_Some in H as [H Hlt]. split; [lia|].
  unfold vget. destruct (Z.ltb_spec (Z.of_nat l) 0); [lia|]. rewrite Nat2Z.id, nth_lookup, H. done.
Qed.

Lemma live_lookup ms l :
  ms_ok ms -> Z.of_nat l < level ms -> live ms !! l = Some (cap_init ms (Z.of_nat l), cap_len ms (Z.of_nat l)).
Proof.
  intros Hok Hl. pose proof (length_live ms Hok) as Hz. unfold zlen in Hz.
  destruct (lookup_lt_is_Some_2 (live ms) l) as [x Hx]; [lia|]. rewrite Hx. f_equal.
  apply lookup_live in Hx as [_ <-]; [|done]. unfold cap_init, cap_len. by destruct (vget _ _ _).
Qed.

Lemma live_set_len ms l n :
  ms_ok ms -> Z.of_nat l < level ms ->
  ms_ok (set_len ms (Z.of_nat l) n) /\
  live (set_len ms (Z.of_nat l) n) = <[l := (cap_init ms (Z.of_nat l), n)]> (live ms).
Proof.
  intros [Hl Hc] Hlt. split.
  - split; [done|]. simpl. unfold zlen in *. by rewrite length_vset.
  - unfold live, set_len, vset. simpl. destruct (Z.ltb_spec (Z.of_nat l) 0); [lia|].
    rewrite Nat2Z.id. apply take_insert_lt. lia.
Qed.

Lemma live_push ms x :
  ms_ok ms -> level ms < GAFQ_MAXCAPTURES ->
  ms_ok (mkMS (level ms + 1) (vset (capture ms) (level ms) x)) /\
  live (mkMS (level ms + 1) (vset (capture ms) (level ms) x)) = live ms ++ [x].
Proof.
  intros [Hl Hc] Hlt. unfold zlen in Hc. split.
  - split; simpl; [lia|]. unfold zlen. by rewrite length_vset.
  - unfold live, vset. simpl. destruct (Z.ltb_spec (level ms) 0); [lia|].
    replace (Z.to_nat (level ms + 1)) with (S (Z.to_nat (level ms))) by lia.
    rewrite (take_S_r _ _ x) by (apply list_lookup_insert_eq; lia).
    by rewrite take_insert_ge by lia.
Qed.

Lemma live_pop ms c x :
  ms_ok ms -> live ms = c ++ [x] ->
  ms_ok (mkMS (level ms - 1) (capture ms)) /\ live (mkMS (level ms - 1) (capture ms)) = c.
Proof.
  intros Hok E. pose proof (length_live ms Hok) as Hz. rewrite E in Hz. unfold zlen in Hz.
  rewrite length_app in Hz. simpl in Hz. destruct Hok as [Hl Hc]. split.
  - split; simpl; [lia|done].
  - unfold live in *. simpl. replace (Z.to_nat (level ms - 1)) with (length c) by lia.
    transitivity (take (length c) (take (Z.to_nat (level ms)) (capture ms))).
    + rewrite take_take. f_equal. lia.
    + rewrite E. apply take_app_length.
Qed.

(** [capture_to_close] finds the last open capture *)
Lemma capture_to_close_spec ms :
  ms_ok ms ->
  match capture_to_close ms with
  | Ok l => exists n, l = Z.of_nat n /\ Z.of_nat n < level ms /\ last_open (live ms) n (cap_init ms l)
  | Err e => reported e /\ forall l i, ~ last_open (live ms) l i
  end.
Proof.
  intros Hok. unfold capture_to_close. pose proof (proj1 (proj1 Hok)) as H0.
  assert (forall n, Z.of_nat n <= level ms ->
    (forall l' x, (n <= l')%nat -> live ms !! l' = Some x -> x.2 <> CAP_UNFINISHED) ->
    match capture_to_close_loop ms n with
    | Ok l => exists n, l = Z.of_nat n /\ Z.of_nat n < level ms /\ last_open (live ms) n (cap_init ms l)
    | Err e => reported e /\ forall l i, ~ last_open (live ms) l i
    end) as Hgen.
  { induction n as [|n IH]; intros Hn Ha; simpl.
    - split; [auto|]. intros l i [Hl _]. by apply (Ha l _ (Nat.le_0_l l) Hl).
    - destruct (Z.eqb_spec (cap_len ms (Z.of_nat n)) CAP_UNFINISHED) as [E|E].
      + exists n. split; [done|]. split; [lia|]. split; [|intros l' x Hl; apply Ha; lia].
        rewrite live_lookup, E by (done || lia). done.
      + apply IH; [lia|]. intros l' x Hl Hx. destruct (decide (l' = n)) as [->|]; [|apply (Ha l'); [lia|done]].
        rewrite live_lookup in Hx by (done || lia). by injection Hx as <-. }
  apply Hgen; [lia|]. intros l' x Hl Hx%lookup_lt_Some. pose proof (length_live ms Hok) as Hz.
  unfold zlen in Hz. lia.
Qed.

Lemma last_open_fun c l i l' i' : last_open c l i -> last_open c l' i' -> l = l' /\ i = i'.
Proof.
  intros [H1 H2] [H1' H2']. destruct (Nat.lt_total l l') as [Hl|[<-|Hl]].
  - by destruct (H2 _ _ Hl H1').
  - split; [done|congruence].
  - by destruct (H2' _ _ Hl H1).
Qed.

(** ** The parts of [match] *)

Lemma balance_loop_spec fuel s b e cont :
  0 <= s <= src_end -> src_end - s < Z.of_nat fuel ->
  match balance_loop src fuel s b e cont with
  | Ok (Some s') => s < s' <= src_end
  | Ok None => True
  | Err _ => False
  end.
Proof.
  revert s cont. unfold StrLib.src_end. induction fuel as [|fuel IH]; intros s cont Hs Hf; [lia|].
  cbn [balance_loop]. unfold StrLib.src_end. destruct (Z.ltb_spec (s + 1) (zlen src)); [|done].
  destruct (cread_ok src (s + 1)) as [x ->]; [lia|]. cbn [mbind res_bind].
  assert (forall ct, match balance_loop src fuel (s + 1) b e ct with
                     | Ok (Some s') => s < s' <= zlen src | Ok None => True | Err _ => False end) as Hrec.
  { intros ct. specialize (IH (s + 1) ct ltac:(lia) ltac:(lia)).
    destruct (balance_loop _ _ _ _ _ _) as [[?|]|]; [lia|done..]. }
  destruct (x =? e); [|destruct (x =? b); apply Hrec].
  destruct (cont - 1 =? 0); [lia|apply Hrec].
Qed.

Lemma matchbalance_spec s p :
  0 <= s <= src_end -> 0 <= p <= zlen pat ->
  match matchbalance src pat s p with
  | Ok (Some s') => s < s' <= src_end /\ p + 2 <= zlen pat
  | Ok None => True
  | Err e => reported e
  end.
Proof.
  intros Hs Hp. unfold matchbalance. destruct (cread_ok pat p Hp) as [b Eb]. rewrite Eb. cbn [mbind res_bind].
  destruct (Z.eqb_spec b 0) as [|Hb]; [auto|]. pose proof (cread_nonzero _ _ _ Eb Hb).
  destruct (cread_ok pat (p + 1)) as [e Ee]; [lia|]. rewrite Ee. cbn [mbind res_bind].
  destruct (Z.eqb_spec e 0) as [|He]; [auto|]. pose proof (cread_nonzero _ _ _ Ee He).
  destruct (cread_ok src s) as [x ->]; [unfold StrLib.src_end in *; lia|]. cbn [mbind res_bind].
  destruct (negb (x =? b)); [done|].
  assert (src_end - s < Z.of_nat (subject_fuel src)) as Hf
    by (unfold subject_fuel, StrLib.src_end, zlen in *; lia).
  pose proof (balance_loop_spec (subject_fuel src) s b e 1 Hs Hf) as Hl.
  destruct (balance_loop _ _ _ _ _ _) as [[s'|]|]; [lia|done..].
Qed.

Lemma single_at_ok s p ep :
  0 <= s -> 0 <= p < zlen pat -> ep <= zlen pat -> exists b, single_at src pat s p ep = Ok b.
Proof.
  intros Hs Hp He. unfold single_at. destruct (Z.ltb_spec s src_end); [|eauto].
  destruct (cread_ok src s) as [c ->]; [unfold StrLib.src_end in *; lia|]. by apply singlematch_ok.
Qed.

Lemma single_at_true s p ep : single_at src pat s p ep = Ok true -> s < src_end.
Proof. unfold single_at. by destruct (Z.ltb_spec s src_end). Qed.

(** [expand_count] finds the longest run *)
Lemma expand_count_spec fuel s p ep n :
  0 <= s -> s + Z.of_nat n <= src_end -> 0 <= p < zlen pat -> ep <= zlen pat -> run s p ep n ->
  src_end - (s + Z.of_nat n) < Z.of_nat fuel ->
  exists m, expand_count src pat fuel s p ep (Z.of_nat n) = Ok (Z.of_nat m) /\
    s + Z.of_nat m <= src_end /\ run s p ep m /\ single_at src pat (s + Z.of_nat m) p ep = Ok false.
Proof.
  revert n. induction fuel as [|fuel IH]; intros n Hs Hn Hp He Hr Hf; [lia|]. cbn [expand_count].
  destruct (single_at_ok (s + Z.of_nat n) p ep) as [b Eb]; [lia|done|done|]. rewrite Eb. cbn [mbind res_bind].
  destruct b; [|by exists n].
  pose proof (single_at_true _ _ _ Eb). replace (Z.of_nat n + 1) with (Z.of_nat (S n)) by lia.
  apply IH; [done|lia|done|done| |lia]. intros k Hk. destruct (decide (k = n)) as [->|]; [done|]. apply Hr. lia.
Qed.

(** a run of a class does not go beyond a position where the class fails *)
Lemma run_le s p ep n m : run s p ep n -> single_at src pat (s + Z.of_nat m) p ep = Ok false -> (n <= m)%nat.
Proof.
  intros Hr Hf. destruct (Nat.le_gt_cases n m) as [|Hlt]; [done|]. rewrite (Hr m Hlt) in Hf. discriminate.
Qed.

Lemma run_end s p ep n : 0 <= s <= src_end -> run s p ep n -> s + Z.of_nat n <= src_end.
Proof.
  intros Hs Hr. destruct n as [|n]; [lia|]. pose proof (single_at_true _ _ _ (Hr n ltac:(lia))). lia.
Qed.

(** ** Outcomes

    [R e c'] says that a match ending at [e] with the captures [c'] is possible. *)

Definition outcome (c : caps) (s : Z) (R : Z -> caps -> Prop) (r : res (option Z * MatchState)) : Prop :=
  match r with
  | Ok (Some e, ms') => s <= e <= src_end /\ ms_ok ms' /\ caps_ok e (live ms') /\ R e (live ms')
  | Ok (None, ms') => ms_ok ms' /\ live ms' = c /\ forall e c', ~ R e c'
  | Err e => reported e
  end.

Lemma outcome_impl c s s' (R R' : Z -> caps -> Prop) r :
  s' <= s -> (forall e c', R e c' <-> R' e c') -> outcome c s R r -> outcome c s' R' r.
Proof.
  intros Hs HR. unfold outcome. destruct r as [[[e|] ms']|e]; [| |done].
  - intros (? & ? & ? & ?%HR). split; [lia|done].
  - intros (? & ? & Hn). split; [done|]. split; [done|]. intros e c' ?%HR. by apply (Hn e c').
Qed.

Lemma outcome_none c s (R : Z -> caps -> Prop) ms :
  ms_ok ms -> live ms = c -> (forall e c', ~ R e c') -> outcome c s R (Ok (None, ms)).
Proof. by split. Qed.

(** a matcher for the patterns from [lo] on *)
Definition m_ok (m : Z -> Z -> mm (option Z)) (lo : Z) : Prop :=
  forall s p ms, lo <= p <= zlen pat -> 0 <= s <= src_end -> ms_ok ms -> caps_ok s (live ms) ->
    outcome (live ms) s (pm (live ms) s p) (m s p ms).

Section Parts.

Context (m : Z -> Z -> mm (option Z)) (lo : Z) (Hm : m_ok m lo).

Lemma start_capture_spec s p what ms :
  lo <= p <= zlen pat -> 0 <= s <= src_end -> ms_ok ms -> caps_ok s (live ms) ->
  what = CAP_UNFINISHED \/ what = CAP_POSITION ->
  outcome (live ms) s
    (fun e c' => zlen (live ms) < GAFQ_MAXCAPTURES /\ pm (live ms ++ [(s, what)]) s p e c')
    (start_capture m s p what ms).
Proof.
  intros Hp Hs Hok Hc Hw. unfold start_capture. unfold mbind, stres_bind, gets at 1, modify at 1.
  pose proof (length_live ms Hok) as Hz.
  destruct (Z.leb_spec GAFQ_MAXCAPTURES (level ms)) as [|Hlt]; [simpl; auto|].
  destruct (live_push ms (s, what) Hok Hlt) as [Hok1 Hl1].
  set (ms1 := mkMS (level ms + 1) _) in *.
  assert (caps_ok s (live ms1)) as Hc1.
  { rewrite Hl1. apply Forall_app. split; [done|]. constructor; [|done]. simpl. lia. }
  pose proof (Hm s p ms1 Hp Hs Hok1 Hc1) as H. rewrite Hl1 in H.
  destruct (m s p ms1) as [[[e|] ms2]|err]; [| |done]; simpl in *.
  - destruct H as (? & ? & ? & ?). do 3 (split; [done|]). split; [lia|done].
  - destruct H as (Hok2 & Hl2 & Hn). destruct (live_pop ms2 _ _ Hok2 Hl2) as [Hok3 Hl3].
    split; [done|]. split; [done|]. intros e c' [_ Hp']. by apply (Hn e c').
Qed.

Lemma caps_ok_close s c l i :
  caps_ok s c -> c !! l = Some (i, CAP_UNFINISHED) -> caps_ok s (<[l := (i, s - i)]> c).
Proof.
  intros Hc Hl. apply Forall_insert; [done|]. pose proof (proj1 (Forall_lookup _ _) Hc _ _ Hl) as H.
  simpl in *. lia.
Qed.

Lemma end_capture_spec s p ms :
  lo <= p <= zlen pat -> 0 <= s <= src_end -> ms_ok ms -> caps_ok s (live ms) ->
  outcome (live ms) s
    (fun e c' => exists l i, last_open (live ms) l i /\ pm (<[l := (i, s - i)]> (live ms)) s p e c')
    (end_capture m s p ms).
Proof.
  intros Hp Hs Hok Hc. unfold end_capture. unfold mbind, stres_bind, gets at 1, id, lift.
  pose proof (capture_to_close_spec ms Hok) as Hl. destruct (capture_to_close ms) as [l|e]; [|by apply Hl].
  destruct Hl as (n & -> & Hn & Ho). unfold modify at 1.
  set (len := s - cap_init ms (Z.of_nat n)). destruct (live_set_len ms n len Hok Hn) as [Hok1 Hl1].
  set (ms1 := set_len ms (Z.of_nat n) len) in *.
  assert (caps_ok s (live ms1)) as Hc1 by (rewrite Hl1; apply caps_ok_close; [done|apply Ho]).
  pose proof (Hm s p ms1 Hp Hs Hok1 Hc1) as H. rewrite Hl1 in H. subst len.
  destruct (m s p ms1) as [[[e|] ms2]|err]; [| |done]; cbn [outcome mret stres_ret] in *.
  - destruct H as (? & ? & ? & ?). do 3 (split; [done|]). by exists n, (cap_init ms (Z.of_nat n)).
  - destruct H as (Hok2 & Hl2 & Hno).
    assert (level ms2 = level ms) as El.
    { rewrite <- (length_live ms2 Hok2), <- (length_live ms Hok), Hl2. unfold zlen. by rewrite length_insert. }
    assert (cap_init ms2 (Z.of_nat n) = cap_init ms (Z.of_nat n)) as Ei.
    { pose proof (live_lookup ms2 n Hok2 ltac:(lia)) as E2. rewrite Hl2, list_lookup_insert_eq in E2.
      - congruence.
      - pose proof (length_live ms Hok). unfold zlen in *. lia. }
    destruct (live_set_len ms2 n CAP_UNFINISHED Hok2 ltac:(lia)) as [Hok3 Hl3].
    split; [done|]. split.
    + rewrite Hl3, Hl2, Ei, list_insert_insert_eq. apply list_insert_id. apply Ho.
    + intros e c' (l & i & Ho' & Hp'). destruct (last_open_fun _ _ _ _ _ Ho Ho') as [<- <-]. by apply (Hno e c').
Qed.

Lemma max_expand_loop_spec i s ep ms :
  lo <= ep + 1 <= zlen pat -> 0 <= s -> s + Z.of_nat i <= src_end -> ms_ok ms -> caps_ok s (live ms) ->
  outcome (live ms) s
    (fun e c' => exists n, (n <= i)%nat /\ pm (live ms) (s + Z.of_nat n) (ep + 1) e c')
    (max_expand_loop m i s ep ms).
Proof.
  intros Hp Hs. revert ms. induction i as [|i IH]; intros ms Hi Hok Hc; cbn [max_expand_loop];
    unfold mbind, stres_bind;
    (match goal with |- context [m ?x (ep + 1) ms] =>
       assert (outcome (live ms) x (pm (live ms) x (ep + 1)) (m x (ep + 1) ms)) as H
         by (apply Hm; [done|lia|done|eapply caps_ok_mono; [|exact Hc]; lia]);
       destruct (m x (ep + 1) ms) as [[[e|] ms1]|err]; [| |done] end).
  - destruct H as (? & ? & ? & ?). split; [lia|]. do 2 (split; [done|]). by exists 0%nat.
  - destruct H as (Hok1 & Hl1 & Hn). apply outcome_none; [done|done|].
    intros e c' (n & Hle & H'). replace n with 0%nat in H' by lia. by apply (Hn e c').
  - destruct H as (? & ? & ? & ?). split; [lia|]. do 2 (split; [done|]). by exists (S i).
  - destruct H as (Hok1 & Hl1 & Hn). rewrite <- Hl1 in *.
    eapply outcome_impl; [reflexivity| |apply IH; [lia|done|done]]. simpl. intros e c'. split.
    + intros (n & Hle & H'). exists n. split; [lia|done].
    + intros (n & Hle & H'). exists n. split; [|done]. destruct (decide (n = S i)) as [->|]; [|lia].
      by destruct (Hn e c').
Qed.

Lemma max_expand_spec s p ep ms :
  0 <= p < zlen pat -> lo <= ep + 1 <= zlen pat -> 0 <= s <= src_end -> ms_ok ms -> caps_ok s (live ms) ->
  outcome (live ms) s
    (fun e c' => exists n, run s p ep n /\ pm (live ms) (s + Z.of_nat n) (ep + 1) e c')
    (max_expand src pat m s p ep ms).
Proof.
  intros Hp He Hs Hok Hc. unfold max_expand, mbind, stres_bind, lift.
  destruct (expand_count_spec (subject_fuel src) s p ep 0) as (i & E & Hi & Hr & Hf);
    [lia|lia|done|lia|intros k Hk; lia|unfold subject_fuel, StrLib.src_end, zlen in *; lia|].
  change (Z.of_nat 0) with 0 in E. rewrite E. rewrite Nat2Z.id.
  eapply outcome_impl; [reflexivity| |apply max_expand_loop_spec; [done|lia|lia|done|done]].
  simpl. intros e c'. split; intros (n & Hn & H').
  - exists n. split; [|done]. intros k Hk. apply Hr. lia.
  - exists n. split; [|done]. by eapply run_le.
Qed.

Lemma min_expand_loop_spec fuel s p ep ms :
  0 <= p < zlen pat -> lo <= ep + 1 <= zlen pat -> 0 <= s <= src_end -> src_end - s < Z.of_nat fuel ->
  ms_ok ms -> caps_ok s (live ms) ->
  outcome (live ms) s
    (fun e c' => exists n, run s p ep n /\ pm (live ms) (s + Z.of_nat n) (ep + 1) e c')
    (min_expand_loop src pat m fuel s p ep ms).
Proof.
  intros Hp He. revert s ms. induction fuel as [|fuel IH]; intros s ms Hs Hf Hok Hc; [lia|].
  cbn [min_expand_loop]. unfold mbind, stres_bind.
  pose proof (Hm s (ep + 1) ms He Hs Hok Hc) as H. destruct (m s (ep + 1) ms) as [[[e|] ms1]|err]; [| |done].
  - destruct H as (? & ? & ? & ?). do 3 (split; [done|]). exists 0%nat. split; [intros k Hk; lia|].
    by rewrite Z.add_0_r.
  - destruct H as (Hok1 & Hl1 & Hn). unfold lift.
    destruct (single_at_ok s p ep) as [b Eb]; [lia|done|lia|]. rewrite Eb. destruct b.
    + pose proof (single_at_true _ _ _ Eb) as Hlt. rewrite <- Hl1 in *.
      eapply outcome_impl; [| |apply (IH (s + 1) ms1); [lia|lia|done|eapply caps_ok_mono; [|exact Hc]; lia]]; [lia|].
      simpl. intros e c'. split; intros (n & Hr & H').
      * exists (S n). split.
        -- intros [|k] Hk; [by rewrite Z.add_0_r|].
           replace (s + Z.of_nat (S k)) with (s + 1 + Z.of_nat k) by lia. apply Hr. lia.
        -- by replace (s + Z.of_nat (S n)) with (s + 1 + Z.of_nat n) by lia.
      * destruct n as [|n]; [rewrite Z.add_0_r in H'; by destruct (Hn e c')|].
        exists n. split; [|by replace (s + 1 + Z.of_nat n) with (s + Z.of_nat (S n)) by lia].
        intros k Hk. replace (s + 1 + Z.of_nat k) with (s + Z.of_nat (S k)) by lia. apply Hr. lia.
    + apply outcome_none; [done|done|]. intros e c' (n & Hr & H').
      assert (n = 0)%nat as -> by (assert (n <= 0)%nat; [eapply run_le; [exact Hr|by rewrite Z.add_0_r]|lia]).
      rewrite Z.add_0_r in H'. by apply (Hn e c').
Qed.

(** the ways to match, by the item at [p] *)
Lemma pm_single_iff c s p ep sf :
  decode p = Ok (PSingle ep sf) ->
  forall e c', (exists n, allowed sf n /\ run s p ep n /\ pm c (s + Z.of_nat n) (after sf ep) e c') <->
               pm c s p e c'.
Proof.
  intros E e c'. split; [intros (n & ? & ? & ?); by eapply pm_single|].
  inversion 1; try congruence. assert (ep0 = ep /\ sf0 = sf) as [-> ->] by (split; congruence). eauto.
Qed.

Lemma run_one s p ep : run s p ep 1 <-> single_at src pat s p ep = Ok true.
Proof.
  split; [intros H; specialize (H 0%nat ltac:(lia)); by rewrite Z.add_0_r in H|].
  intros H k Hk. replace k with 0%nat by lia. by rewrite Z.add_0_r.
Qed.

Lemma run_zero s p ep : run s p ep 0.
Proof. intros k Hk. lia. Qed.

Lemma run_shift s p ep n :
  single_at src pat s p ep = Ok true -> run (s + 1) p ep n <-> run s p ep (S n).
Proof.
  intros H1. split; intros H k Hk.
  - destruct k as [|k]; [by rewrite Z.add_0_r|].
    replace (s + Z.of_nat (S k)) with (s + 1 + Z.of_nat k) by lia. apply H. lia.
  - replace (s + 1 + Z.of_nat k) with (s + Z.of_nat (S k)) by lia. apply H. lia.
Qed.

(** no repetition is possible where the class does not match *)
Lemma run_false s p ep n : single_at src pat s p ep = Ok false -> run s p ep n -> n = 0%nat.
Proof.
  intros Hf Hr. destruct n as [|n]; [done|]. specialize (Hr 0%nat ltac:(lia)).
  rewrite Z.add_0_r in Hr. congruence.
Qed.

Lemma optional_spec s p ep ms b :
  lo <= ep + 1 <= zlen pat -> 0 <= s <= src_end -> ms_ok ms -> caps_ok s (live ms) ->
  single_at src pat s p ep = Ok b ->
  outcome (live ms) s
    (fun e c' => exists n, (n <= 1)%nat /\ run s p ep n /\ pm (live ms) (s + Z.of_nat n) (ep + 1) e c')
    ((res ← (if b then m (s + 1) (ep + 1) else mret None);
      match res with Some r => mret (Some r) | None => m s (ep + 1) end) ms).
Proof.
  intros He Hs Hok Hc Eb.
  assert (forall ms1, ms_ok ms1 -> live ms1 = live ms ->
            (b = true -> forall e c', ~ pm (live ms) (s + 1) (ep + 1) e c') ->
            outcome (live ms) s
              (fun e c' => exists n, (n <= 1)%nat /\ run s p ep n /\ pm (live ms) (s + Z.of_nat n) (ep + 1) e c')
              (m s (ep + 1) ms1)) as Hskip.
  { intros ms1 Hok1 Hl1 Hno. rewrite <- Hl1 in *.
    eapply outcome_impl; [reflexivity| |apply Hm; done]. intros e c'. split.
    - intros H. exists 0%nat. rewrite Z.add_0_r. split; [lia|]. by split; [apply run_zero|].
    - intros (n & Hn & Hr & H). destruct n as [|[|n]]; [by rewrite Z.add_0_r in H| |lia].
      destruct b; [|by apply (run_false _ _ _ _ Eb) in Hr]. by destruct (Hno eq_refl e c'). }
  unfold mbind, stres_bind. destruct b; [|by apply Hskip].
  pose proof (single_at_true _ _ _ Eb) as Hlt.
  pose proof (Hm (s + 1) (ep + 1) ms He ltac:(lia) Hok ltac:(eapply caps_ok_mono; [|exact Hc]; lia)) as H.
  destruct (m (s + 1) (ep + 1) ms) as [[[e|] ms1]|err]; [| |done].
  - destruct H as (? & ? & ? & ?). split; [lia|]. do 2 (split; [done|]). exists 1%nat.
    split; [lia|]. by split; [apply run_one|].
  - destruct H as (Hok1 & Hl1 & Hn). by apply Hskip.
Qed.

Lemma match_default_spec s p ms c ep x :
  0 <= p -> lo <= p + 1 -> 0 <= s <= src_end -> ms_ok ms -> caps_ok s (live ms) ->
  cread pat p = Ok c -> c <> 0 -> classend pat p = Ok ep -> cread pat ep = Ok x ->
  decode p = Ok (PSingle ep (suffix_of x)) ->
  outcome (live ms) s (pm (live ms) s p) (match_default src pat m s p ms).
Proof.
  intros Hp Hlo Hs Hok Hc Ec Hc0 Eep Ex Ed.
  pose proof (cread_nonzero _ _ _ Ec Hc0) as Hp'. pose proof (classend_spec _ _ _ Ec Hc0) as Hep. rewrite Eep in Hep.
  destruct (single_at_ok s p ep) as [b Eb]; [lia|lia|lia|].
  unfold match_default. unfold mbind, stres_bind at 1 2 3, lift. rewrite Eep, Eb, Ex. fold (@stres_bind MatchState).
  pose proof (pm_single_iff (live ms) s p ep (suffix_of x) Ed) as Hiff.
  assert (x <> 0 -> lo <= ep + 1 <= zlen pat) as Hnext.
  { intros Hx. pose proof (cread_nonzero _ _ _ Ex Hx). lia. }
  unfold suffix_of in Hiff.
  destruct (Z.eqb_spec x (chr "?")) as [->|_].
  { eapply outcome_impl; [reflexivity|exact Hiff|]. simpl. apply optional_spec; try done. by apply Hnext. }
  destruct (Z.eqb_spec x (chr "*")) as [->|_].
  { eapply outcome_impl; [reflexivity|exact Hiff|]. simpl.
    eapply outcome_impl; [reflexivity| |apply max_expand_spec; [lia|by apply Hnext|done..]].
    intros e c'. naive_solver. }
  destruct (Z.eqb_spec x (chr "+")) as [->|_].
  { eapply outcome_impl; [reflexivity|exact Hiff|]. simpl. destruct b.
    - pose proof (single_at_true _ _ _ Eb).
      eapply outcome_impl; [| |apply max_expand_spec; [lia|by apply Hnext|lia|done|]]; [lia| |].
      + intros e c'. split; intros (n & H').
        * exists (S n). split; [lia|]. rewrite <- run_shift by done.
          by replace (s + Z.of_nat (S n)) with (s + 1 + Z.of_nat n) by lia.
        * destruct n as [|n]; [lia|]. destruct H' as (_ & Hr & H'). exists n. rewrite run_shift by done.
          by replace (s + 1 + Z.of_nat n) with (s + Z.of_nat (S n)) by lia.
      + eapply caps_ok_mono; [|exact Hc]. lia.
    - apply outcome_none; [done|done|]. intros e c' (n & Hn & Hr & _). apply (run_false _ _ _ _ Eb) in Hr. lia. }
  destruct (Z.eqb_spec x (chr "-")) as [->|_].
  { eapply outcome_impl; [reflexivity|exact Hiff|]. simpl.
    eapply outcome_impl; [reflexivity| |apply min_expand_loop_spec; [lia|by apply Hnext|done| |done..]].
    - intros e c'. naive_solver.
    - unfold subject_fuel, StrLib.src_end, zlen in *. lia. }
  eapply outcome_impl; [reflexivity|exact Hiff|]. destruct b; cbn [negb after allowed].
  - pose proof (single_at_true _ _ _ Eb).
    eapply outcome_impl; [| |apply (Hm (s + 1) ep ms); [lia|lia|done|]]; [lia| |].
    + intros e c'. split; [|by intros (n & -> & _ & H')]. intros H'. exists 1%nat.
      split; [done|]. by split; [apply run_one|].
    + eapply caps_ok_mono; [|exact Hc]. lia.
  - apply outcome_none; [done|done|]. intros e c' (n & -> & Hr & _). by apply (run_false _ _ _ _ Eb) in Hr.
Qed.

(** [max_expand] takes the longest run that lets the rest match, [min_expand] the shortest *)
Lemma max_expand_loop_greedy i s ep ms e ms' :
  lo <= ep + 1 <= zlen pat -> 0 <= s -> s + Z.of_nat i <= src_end -> ms_ok ms -> caps_ok s (live ms) ->
  max_expand_loop m i s ep ms = Ok (Some e, ms') ->
  exists n, (n <= i)%nat /\ pm (live ms) (s + Z.of_nat n) (ep + 1) e (live ms') /\
    forall n' e' c', (n < n' <= i)%nat -> ~ pm (live ms) (s + Z.of_nat n') (ep + 1) e' c'.
Proof.
  intros Hp Hs. revert ms. induction i as [|i IH]; intros ms Hi Hok Hc; cbn [max_expand_loop];
    unfold mbind, stres_bind;
    (match goal with |- context [m ?x (ep + 1) ms] =>
       assert (outcome (live ms) x (pm (live ms) x (ep + 1)) (m x (ep + 1) ms)) as H
         by (apply Hm; [done|lia|done|eapply caps_ok_mono; [|exact Hc]; lia]);
       destruct (m x (ep + 1) ms) as [[[e1|] ms1]|err]; [| |done] end).
  - intros [=<- <-]. exists 0%nat. split; [lia|]. split; [apply H|]. lia.
  - done.
  - intros [=<- <-]. exists (S i). split; [lia|]. split; [apply H|]. lia.
  - destruct H as (Hok1 & Hl1 & Hn). intros E. rewrite <- Hl1 in *.
    destruct (IH ms1 ltac:(lia) Hok1 Hc E) as (n & Hle & Hpm & Hmax).
    exists n. split; [lia|]. split; [done|]. intros n' e' c' Hn'.
    destruct (decide (n' = S i)) as [->|]; [apply Hn|]. apply Hmax. lia.
Qed.

Lemma max_expand_greedy s p ep ms e ms' :
  0 <= p < zlen pat -> lo <= ep + 1 <= zlen pat -> 0 <= s <= src_end -> ms_ok ms -> caps_ok s (live ms) ->
  max_expand src pat m s p ep ms = Ok (Some e, ms') ->
  exists n, run s p ep n /\ pm (live ms) (s + Z.of_nat n) (ep + 1) e (live ms') /\
    forall n' e' c', (n < n')%nat -> run s p ep n' -> ~ pm (live ms) (s + Z.of_nat n') (ep + 1) e' c'.
Proof.
  intros Hp He Hs Hok Hc. unfold max_expand, mbind, stres_bind, lift.
  destruct (expand_count_spec (subject_fuel src) s p ep 0) as (i & E & Hi & Hr & Hf);
    [lia|lia|done|lia|intros k Hk; lia|unfold subject_fuel, StrLib.src_end, zlen in *; lia|].
  change (Z.of_nat 0) with 0 in E. rewrite E. rewrite Nat2Z.id. intros Ee.
  destruct (max_expand_loop_greedy i s ep ms e ms' He ltac:(lia) Hi Hok Hc Ee) as (n & Hle & Hpm & Hmax).
  exists n. split; [intros k Hk; apply Hr; lia|]. split; [done|].
  intros n' e' c' Hlt Hr'. apply Hmax. split; [done|]. by eapply run_le.
Qed.

Lemma min_expand_loop_lazy fuel s p ep ms e ms' :
  0 <= p < zlen pat -> lo <= ep + 1 <= zlen pat -> 0 <= s <= src_end -> ms_ok ms -> caps_ok s (live ms) ->
  min_expand_loop src pat m fuel s p ep ms = Ok (Some e, ms') ->
  exists n, run s p ep n /\ pm (live ms) (s + Z.of_nat n) (ep + 1) e (live ms') /\
    forall n' e' c', (n' < n)%nat -> ~ pm (live ms) (s + Z.of_nat n') (ep + 1) e' c'.
Proof.
  intros Hp He. revert s ms. induction fuel as [|fuel IH]; intros s ms Hs Hok Hc; [done|].
  cbn [min_expand_loop]. unfold mbind, stres_bind.
  pose proof (Hm s (ep + 1) ms He Hs Hok Hc) as H. destruct (m s (ep + 1) ms) as [[[e1|] ms1]|err]; [| |done].
  - intros [=<- <-]. exists 0%nat. split; [apply run_zero|]. rewrite Z.add_0_r. split; [apply H|]. lia.
  - destruct H as (Hok1 & Hl1 & Hn). unfold lift.
    destruct (single_at_ok s p ep) as [b Eb]; [lia|done|lia|]. rewrite Eb. destruct b; [|done].
    pose proof (single_at_true _ _ _ Eb) as Hlt. intros E. rewrite <- Hl1 in *.
    destruct (IH (s + 1) ms1 ltac:(lia) Hok1 ltac:(eapply caps_ok_mono; [|exact Hc]; lia) E) as (n & Hr & Hpm & Hmin).
    assert (forall k, s + 1 + Z.of_nat k = s + Z.of_nat (S k)) as Hsh by lia.
    exists (S n). split; [by apply run_shift|]. split; [by rewrite <- Hsh|].
    intros [|n'] e' c' Hn'; [rewrite Z.add_0_r; apply Hn|]. rewrite <- Hsh. apply Hmin. lia.
Qed.

End Parts.

(** ** Back references *)

(** the length of the subject is a [ptrdiff_t] *)
Hypothesis src_size : zlen src < 2 ^ 63.

Lemma size_t_id z : 0 <= z < 2 ^ 63 -> size_t z = z.
Proof. intros Hz. unfold size_t, SIZE_MOD. apply Z.mod_small. lia. Qed.

Lemma match_capture_spec ms s d :
  ms_ok ms -> caps_ok s (live ms) -> 0 <= s <= src_end ->
  match match_capture src ms s d with
  | Ok (Some s') => backref (live ms) d s s' /\ s <= s'
  | Ok None => forall s', ~ backref (live ms) d s s'
  | Err e => reported e
  end.
Proof.
  intros Hok Hc Hs. unfold match_capture, check_capture.
  destruct (Z.ltb_spec (d - chr "1") 0) as [|H0]; [simpl; auto|].
  destruct (Z.leb_spec (level ms) (d - chr "1")) as [|Hlt]; [simpl; auto|]. cbn [orb].
  destruct (Z.eqb_spec (cap_len ms (d - chr "1")) CAP_UNFINISHED) as [|Hu]; [simpl; auto|].
  cbn [mbind res_bind]. set (l := d - chr "1") in *.
  pose proof (live_lookup ms (Z.to_nat l) Hok ltac:(lia)) as Hl. rewrite Z2Nat.id in Hl by lia.
  pose proof (proj1 (Forall_lookup _ _) Hc _ _ Hl) as Hx. simpl in Hx.
  assert (forall s', backref (live ms) d s s' -> 0 <= cap_len ms l /\ s' = s + cap_len ms l /\ s' <= src_end /\
            csub src (cap_init ms l) (cap_len ms l) = csub src s (cap_len ms l)) as Hinv.
  { intros s' (i & len & _ & Hl' & ? & ? & ? & ?). fold l in Hl'. rewrite Hl in Hl'.
    injection Hl' as <- <-. auto. }
  unfold StrLib.src_end in *. destruct Hx as [Hi [Hx|[Hx|Hx]]]; [done| |].
  - rewrite Hx. change (size_t CAP_POSITION) with (2 ^ 64 - 2).
    destruct (Z.leb_spec (2 ^ 64 - 2) (zlen src - s)); [lia|]. cbn [andb].
    intros s' Hb. apply Hinv in Hb as [? _]. rewrite Hx in *. unfold CAP_POSITION in *. lia.
  - rewrite size_t_id by lia. destruct (Z.leb_spec (cap_len ms l) (zlen src - s)); cbn [andb].
    + case_bool_decide as Eb.
      * split; [|lia]. exists (cap_init ms l), (cap_len ms l). fold l. unfold StrLib.src_end. repeat split; try done; lia.
      * intros s' Hb. apply Hinv in Hb as (_ & _ & _ & ?). done.
    + intros s' Hb. apply Hinv in Hb as (_ & -> & ? & _). lia.
Qed.

Lemma backref_fun c d s s1 s2 : backref c d s s1 -> backref c d s s2 -> s1 = s2.
Proof. intros (i & l & _ & E & _ & -> & _) (i' & l' & _ & E' & _ & -> & _). congruence. Qed.

(** ** The matcher *)

(** inversion of [pm] at a known item *)
Ltac pm_cases E :=
  let H := fresh in
  split; [|intros H; inversion H; try congruence];
  try match goal with
      | E1 : decode _ = Ok (_ ?a), E2 : decode _ = Ok (_ ?b) |- _ =>
          is_var a; assert (a = b) as -> by congruence
      end.

Section Steps.

Context (m : Z -> Z -> mm (option Z)) (s p : Z) (ms : MatchState).
Hypotheses (Hm : m_ok m (p + 1)) (Hs : 0 <= s <= src_end) (Hok : ms_ok ms) (Hc : caps_ok s (live ms)).

Lemma balance_step :
  decode p = Ok PBal -> 0 <= p + 1 < zlen pat ->
  outcome (live ms) s (pm (live ms) s p)
    ((r ← lift (matchbalance src pat s (p + 2)); match r with None => mret None | Some s => m s (p + 4) end) ms).
Proof.
  intros Ed Hp2. pose proof (matchbalance_spec s (p + 2) Hs ltac:(lia)) as Hb.
  unfold mbind, stres_bind, lift. destruct (matchbalance src pat s (p + 2)) as [[s'|]|err] eqn:Eb; [| |done].
  - eapply outcome_impl; [| |apply (Hm s' (p + 4) ms); [lia|lia|done|eapply caps_ok_mono; [|exact Hc]; lia]]; [lia|].
    intros e c'. pm_cases Ed. intros ?. by eapply pm_balance.
  - apply outcome_none; [done|done|]. intros e c' H. inversion H; congruence.
Qed.

Lemma frontier_step x ep :
  decode p = Ok (PFrontier ep) -> cread pat (p + 2) = Ok x -> x <> 0 -> p + 2 < ep <= zlen pat ->
  outcome (live ms) s (pm (live ms) s p)
    ((previous ← lift (if s =? 0 then Ok 0 else cread src (s - 1));
      m1 ← lift (matchbracketclass pat previous (p + 2) (ep - 1));
      if (m1 : bool) then mret None
      else
        c ← lift (cread src s);
        m2 ← lift (matchbracketclass pat c (p + 2) (ep - 1));
        if negb m2 then mret None else m s ep) ms).
Proof.
  intros Ed Ex Hx0 Hep. pose proof (cread_nonzero _ _ _ Ex Hx0) as Hp3. unfold mbind, stres_bind, lift.
  assert ((if s =? 0 then Ok 0 else cread src (s - 1)) = Ok (before s)) as ->.
  { unfold before. destruct (Z.eqb_spec s 0); [done|]. apply cread_in. unfold StrLib.src_end in *. lia. }
  destruct (matchbracketclass_ok pat (before s) (p + 2) (ep - 1)) as [b1 Eb1]; [lia|lia|]. rewrite Eb1.
  destruct (cread_ok src s) as [y Ey]; [unfold StrLib.src_end in *; lia|].
  pose proof (cread_vget _ _ _ Ey) as Hy.
  destruct (matchbracketclass_ok pat y (p + 2) (ep - 1)) as [b2 Eb2]; [lia|lia|].
  destruct b1; [apply outcome_none; [done|done|]; intros e c' H; inversion H; congruence|].
  rewrite Ey, Eb2. destruct b2; cbn [negb];
    [|apply outcome_none; [done|done|]; intros e c' H; inversion H; congruence].
  eapply outcome_impl; [reflexivity| |apply (Hm s ep ms); [lia|done..]].
  intros e c'. rewrite Hy in Eb2. pm_cases Ed. intros ?. by eapply pm_frontier.
Qed.

Lemma backref_step d :
  decode p = Ok (PBack d) -> 0 <= p + 1 < zlen pat ->
  outcome (live ms) s (pm (live ms) s p)
    ((ms ← gets id; r ← lift (match_capture src ms s d);
      match r with None => mret None | Some s => m s (p + 2) end) ms).
Proof.
  intros Ed Hp2. unfold mbind, stres_bind, lift, gets, id. pose proof (match_capture_spec ms s d Hok Hc Hs) as Hb.
  destruct (match_capture src ms s d) as [[s'|]|err]; [| |done].
  - destruct Hb as [Hb Hle]. assert (s' <= src_end) by (destruct Hb as (? & ? & _ & _ & _ & _ & ? & _); done).
    eapply outcome_impl; [| |apply (Hm s' (p + 2) ms); [lia|lia|done|eapply caps_ok_mono; [|exact Hc]; lia]]; [lia|].
    intros e c'. pm_cases Ed; [intros ?; by eapply pm_back|].
    assert (s' = s'0) as ->; [|done]. by eapply backref_fun.
  - apply outcome_none; [done|done|]. intros e c' H. inversion H; try congruence.
    assert (d = d0) as <- by congruence. by eapply Hb.
Qed.

End Steps.

Lemma match_step fuel s p ms :
  m_ok (match_ src pat fuel) (p + 1) -> 0 <= p <= zlen pat -> 0 <= s <= src_end ->
  ms_ok ms -> caps_ok s (live ms) ->
  outcome (live ms) s (pm (live ms) s p) (match_ src pat (S fuel) s p ms).
Proof.
  intros Hm Hp Hs Hok Hc. cbn [match_]. set (M := match_ src pat fuel) in *.
  destruct (cread_ok pat p Hp) as [c Ec].
  assert (forall x, c <> 0 -> decode_class p = x ->
            decode p = x ->
            outcome (live ms) s (pm (live ms) s p) (match_default src pat M s p ms)) as Hdflt.
  { intros x Hc0 Ex Ed. pose proof (classend_spec _ _ _ Ec Hc0) as Hep.
    unfold decode_class in Ex. destruct (classend pat p) as [ep|err] eqn:Eep.
    - destruct (cread_ok pat ep) as [y Ey]; [lia|]. cbn [mbind res_bind] in Ex. rewrite Ey in Ex.
      cbn [mbind res_bind] in Ex. subst x. eapply match_default_spec; [exact Hm|..|exact Ed]; try done; lia.
    - unfold match_default, mbind, stres_bind, lift. by rewrite Eep. }
  pose proof (eq_refl (decode p)) as Ed. unfold decode at 2 in Ed. rewrite Ec in Ed. cbn [mbind res_bind] in Ed.
  unfold mbind, stres_bind, lift at 1. rewrite Ec.
  assert (c <> 0 -> p + 1 <= zlen pat) as Hp1.
  { intros Hc0. pose proof (cread_nonzero _ _ _ Ec Hc0). lia. }
  destruct (Z.eqb_spec c (chr "(")) as [->|_].
  { destruct (cread_ok pat (p + 1)) as [d Ed1]; [specialize (Hp1 ltac:(done)); lia|].
    unfold lift. rewrite Ed1. rewrite Ed1 in Ed. cbn [mbind res_bind] in Ed.
    destruct (Z.eqb_spec d (chr ")")) as [Hd|_].
    - assert (0 <= p + 1 < zlen pat) by (eapply cread_nonzero; [exact Ed1|by rewrite Hd]).
      eapply outcome_impl; [reflexivity| |eapply start_capture_spec; [exact Hm|lia|done..|by right]].
      intros e c'. pm_cases Ed; [intros [? ?]; by eapply pm_pos|done].
    - eapply outcome_impl; [reflexivity| |eapply start_capture_spec; [exact Hm| |done..|by left]].
      + intros e c'. pm_cases Ed; [intros [? ?]; by eapply pm_open|done].
      + specialize (Hp1 ltac:(done)). lia. }
  destruct (Z.eqb_spec c (chr ")")) as [->|_].
  { eapply outcome_impl; [reflexivity| |eapply end_capture_spec; [exact Hm| |done..]].
    - intros e c'. pm_cases Ed; [intros (l & i & ? & ?); by eapply pm_close|eauto].
    - specialize (Hp1 ltac:(done)). lia. }
  destruct (Z.eqb_spec c L_ESC) as [Hesc|_].
  { assert (c <> 0) as Hc0 by (by rewrite Hesc).
    destruct (cread_ok pat (p + 1)) as [d Ed1]; [specialize (Hp1 Hc0); lia|].
    unfold lift. rewrite Ed1. rewrite Ed1 in Ed. cbn [mbind res_bind] in Ed.
    destruct (Z.eqb_spec d (chr "b")) as [Hd|_].
    { apply balance_step; try done. eapply cread_nonzero; [exact Ed1|by rewrite Hd]. }
    destruct (Z.eqb_spec d (chr "f")) as [Hd|_].
    { assert (0 <= p + 1 < zlen pat) as Hp2 by (eapply cread_nonzero; [exact Ed1|by rewrite Hd]).
      destruct (cread_ok pat (p + 2)) as [x Ex]; [lia|]. rewrite Ex. rewrite Ex in Ed. cbn [mbind res_bind] in Ed.
      destruct (Z.eqb_spec x (chr "[")) as [Hx|]; cbn [negb] in *; [|unfold raise; simpl; auto].
      assert (x <> 0) as Hx0 by (by rewrite Hx). pose proof (classend_spec _ _ _ Ex Hx0) as Hep.
      destruct (classend pat (p + 2)) as [ep|err] eqn:Eep; [|done].
      exact (frontier_step M s p ms Hm Hs Hok Hc x ep Ed Ex Hx0 Hep). }
    destruct (isdigit d) eqn:Hdig; [|by eapply Hdflt].
    apply backref_step; try done. eapply cread_nonzero; [exact Ed1|]. intros ->. discriminate. }
  destruct (Z.eqb_spec c 0) as [Hc0|Hc0].
  { split; [lia|]. split; [done|]. split; [done|]. by apply pm_end. }
  destruct (Z.eqb_spec c (chr "$")) as [Hdol|_]; [|by eapply Hdflt].
  destruct (cread_ok pat (p + 1)) as [d Ed1]; [specialize (Hp1 Hc0); lia|].
  unfold lift. rewrite Ed1. rewrite Ed1 in Ed. cbn [mbind res_bind] in Ed.
  destruct (d =? 0); [|by eapply Hdflt]. destruct (Z.eqb_spec s src_end) as [->|Hne].
  - split; [lia|]. split; [done|]. split; [done|]. by apply pm_dollar.
  - apply outcome_none; [done|done|]. intros e c' H. inversion H; congruence.
Qed.

Lemma match_spec fuel s p ms :
  0 <= p <= zlen pat -> zlen pat - p < Z.of_nat fuel -> 0 <= s <= src_end -> ms_ok ms -> caps_ok s (live ms) ->
  outcome (live ms) s (pm (live ms) s p) (match_ src pat fuel s p ms).
Proof.
  revert s p ms. induction fuel as [|fuel IH]; intros s p ms Hp Hf Hs Hok Hc; [lia|].
  apply match_step; try done. intros s' p' ms' Hp' Hs' Hok' Hc'. apply IH; (done || lia).
Qed.

(** C3: the matcher terminates on every pattern and subject and never reads
    outside them; it finds a match exactly when the pattern matches at the
    position in some way, the match and its captures are one of these ways, and
    after a failure the captures are the ones before; a malformed pattern is
    reported as an error *)
Theorem match_correct s p ms :
  0 <= p <= zlen pat -> 0 <= s <= src_end -> ms_ok ms -> caps_ok s (live ms) ->
  match do_match src pat s p ms with
  | Ok (Some e, ms') => s <= e <= src_end /\ ms_ok ms' /\ caps_ok e (live ms') /\ pm (live ms) s p e (live ms')
  | Ok (None, ms') => ms_ok ms' /\ live ms' = live ms /\ forall e c', ~ pm (live ms) s p e c'
  | Err e => exists msg, e = RunError msg
  end.
Proof.
  intros Hp Hs Hok Hc. apply match_spec; try done. unfold pattern_fuel, zlen in *. lia.
Qed.

(** the item decoded as a class is one for the matcher *)
Lemma decode_single p ep sf :
  decode p = Ok (PSingle ep sf) ->
  exists c x, cread pat p = Ok c /\ c <> 0 /\ classend pat p = Ok ep /\ cread pat ep = Ok x /\ suffix_of x = sf /\
    forall fuel s ms, match_ src pat (S fuel) s p ms = match_default src pat (match_ src pat fuel) s p ms.
Proof.
  unfold decode. destruct (cread pat p) as [c|] eqn:Ec; [|done]. cbn [mbind res_bind].
  assert (decode_class p = Ok (PSingle ep sf) -> c <> 0 ->
          (forall fuel s ms, match_ src pat (S fuel) s p ms = match_default src pat (match_ src pat fuel) s p ms) ->
          exists c0 x, (Ok c : res Z) = Ok c0 /\ c0 <> 0 /\ classend pat p = Ok ep /\ cread pat ep = Ok x /\ suffix_of x = sf /\
            forall fuel s ms, match_ src pat (S fuel) s p ms = match_default src pat (match_ src pat fuel) s p ms) as Hd.
  { unfold decode_class. destruct (classend pat p) as [ep'|]; [|done]. cbn [mbind res_bind].
    destruct (cread pat ep') as [x|] eqn:Ex; [|done]. cbn [mbind res_bind]. intros [=<- <-]. eauto 12. }
  destruct (c =? chr "(") eqn:E1; [destruct (cread pat (p + 1)) as [d|]; [|done]; simpl; by destruct (d =? _)|].
  destruct (c =? chr ")") eqn:E2; [done|].
  destruct (c =? L_ESC) eqn:E3.
  - destruct (cread pat (p + 1)) as [d|] eqn:Ep1; [|done]. cbn [mbind res_bind].
    destruct (d =? chr "b") eqn:E4; [done|]. destruct (d =? chr "f") eqn:E5.
    { destruct (cread pat (p + 2)) as [x|]; [|done]. cbn [mbind res_bind]. destruct (negb _); [done|].
      by destruct (classend pat (p + 2)). }
    destruct (isdigit d) eqn:E6; [done|]. intros H. apply Hd; [done|by apply Z.eqb_eq in E3 as ->|].
    intros fuel s ms. cbn [match_]. unfold mbind, stres_bind, lift. by rewrite Ec, E1, E2, E3, Ep1, E4, E5, E6.
  - destruct (c =? 0) eqn:E4; [done|]. apply Z.eqb_neq in E4 as Hc0. destruct (c =? chr "$") eqn:E5.
    + destruct (cread pat (p + 1)) as [d|] eqn:Ep1; [|done]. cbn [mbind res_bind].
      destruct (d =? 0) eqn:E6; [done|]. intros H. apply Hd; [done|done|].
      intros fuel s ms. cbn [match_]. unfold mbind, stres_bind, lift. by rewrite Ec, E1, E2, E3, E4, E5, Ep1, E6.
    + intros H. apply Hd; [done|done|].
      intros fuel s ms. cbn [match_]. unfold mbind, stres_bind, lift. by rewrite Ec, E1, E2, E3, E4, E5.
Qed.

(** an item with "*" takes the longest run of its class for which the rest of
    the pattern matches, an item with "-" the shortest *)
Theorem repetition_greedy s p ms ep sf e ms' :
  0 <= p <= zlen pat -> 0 <= s <= src_end -> ms_ok ms -> caps_ok s (live ms) ->
  decode p = Ok (PSingle ep sf) -> sf = Star \/ sf = Minus ->
  do_match src pat s p ms = Ok (Some e, ms') ->
  exists n, run s p ep n /\ pm (live ms) (s + Z.of_nat n) (ep + 1) e (live ms') /\
    forall n' e' c', (sf = Star /\ (n < n')%nat) \/ (sf = Minus /\ (n' < n)%nat) -> run s p ep n' ->
      ~ pm (live ms) (s + Z.of_nat n') (ep + 1) e' c'.
Proof.
  intros Hp Hs Hok Hc Ed Hsf E.
  destruct (decode_single p ep sf Ed) as (c & x & Ec & Hc0 & Eep & Ex & Hx & Heq).
  pose proof (cread_nonzero _ _ _ Ec Hc0) as Hp'. pose proof (classend_spec _ _ _ Ec Hc0) as Hep. rewrite Eep in Hep.
  assert (m_ok (match_ src pat (length pat)) (p + 1)) as Hm.
  { intros s' p' ms1 Hp1 Hs1 Hok1 Hc1. apply match_spec; try done; unfold zlen in *; lia. }
  unfold do_match, pattern_fuel in E. rewrite Heq in E. unfold match_default, mbind, stres_bind, lift in E.
  destruct (single_at_ok s p ep) as [b Eb]; [lia|lia|lia|]. rewrite Eep, Eb, Ex in E.
  unfold suffix_of in Hx. destruct (x =? chr "?"); [by subst; destruct Hsf|].
  destruct (Z.eqb_spec x (chr "*")) as [Hs1|_].
  { subst sf. assert (0 <= ep < zlen pat) by (eapply cread_nonzero; [exact Ex|by rewrite Hs1]).
    destruct (max_expand_greedy _ _ Hm s p ep ms e ms') as (n & Hr & Hpm & Hmax); [done|lia|done..|].
    exists n. split; [done|]. split; [done|]. intros n' e' c' [[_ Hn]|[? _]]; [by apply Hmax|done]. }
  destruct (x =? chr "+"); [by subst; destruct Hsf|].
  destruct (Z.eqb_spec x (chr "-")) as [Hs1|_]; [|by subst; destruct Hsf].
  subst sf. assert (0 <= ep < zlen pat) by (eapply cread_nonzero; [exact Ex|by rewrite Hs1]).
  destruct (min_expand_loop_lazy _ _ Hm (subject_fuel src) s p ep ms e ms') as (n & Hr & Hpm & Hmin); [done|lia|done..|].
  exists n. split; [done|]. split; [done|]. intros n' e' c' [[? _]|[_ Hn]] _; [done|by apply Hmin].
Qed.

End Matcher.

(** ** Examples: "l+" and "l*" and "l-" in "hello" *)

Lemma match_correct_witness :
  exists c', pm (str "hello") (str "(l+)o$") [] 2 0 5 c' /\
    do_match (str "hello") (str "(l+)o$") 2 0 no_captures =
      Ok (Some 5, mkMS 1 ((2, 2) :: replicate 31 (0, 0))).
Proof.
  assert (do_match (str "hello") (str "(l+)o$") 2 0 no_captures =
            Ok (Some 5, mkMS 1 ((2, 2) :: replicate 31 (0, 0)))) as E by (vm_compute; reflexivity).
  pose proof (match_correct (str "hello") (str "(l+)o$") eq_refl 2 0 no_captures) as H. rewrite E in H.
  destruct H as (_ & _ & _ & H); [vm_compute; split; congruence|vm_compute; split; congruence
    |split; vm_compute; [split; congruence|reflexivity]|constructor|].
  exists [(2, 2)]. split; [exact H|exact E].
Defined.

Lemma repetition_greedy_witness :
  exists n, run (str "hello") (str "l*l") 2 0 1 n /\ pm (str "hello") (str "l*l") [] (2 + Z.of_nat n) 2 4 [].
Proof.
  destruct (repetition_greedy (str "hello") (str "l*l") eq_refl 2 0 no_captures 1 Star 4 no_captures)
    as (n & Hr & Hp & _).
  - vm_compute; split; congruence.
  - vm_compute; split; congruence.
  - split; vm_compute; [split; congruence|reflexivity].
  - constructor.
  - vm_compute; reflexivity.
  - left; reflexivity.
  - vm_compute; reflexivity.
  - exists n. split; [exact Hr|exact Hp].
Defined.
