(* ===== verification/StrFind.v ===== *)
(** * Searching and replacing: [string.find], [string.match], [string.gmatch], [string.gsub]

    The plain search finds the first occurrence; the searches with a pattern
    find the leftmost match; [gmatch] moves forward; [gsub] replaces disjoint
    matches and keeps the rest of the subject.  At the end, the functions without patterns
    and the format specifications. *)

From stdpp Require Import sets.
From S2P Require Import Prelude Number StrLib StrMatch.

(** ** Plain search *)

Lemma memchr_spec b c n i :
  match memchr b i c n with
  | Some k => i <= k < i + Z.of_nat n /\ vget 0 b k = c /\ forall j, i <= j < k -> vget 0 b j <> c
  | None => forall j, i <= j < i + Z.of_nat n -> vget 0 b j <> c
  end.
Proof.
  revert i. induction n as [|n IH]; intros i; cbn [memchr]; [intros j; lia|].
  destruct (Z.eqb_spec (vget 0 b i) c) as [E|E]; [split; [lia|]; split; [done|]; intros j; lia|].
  specialize (IH (i + 1)). destruct (memchr b (i + 1) c n) as [k|].
  - destruct IH as (Hk & Hv & Hb). split; [lia|]. split; [done|]. intros j Hj.
    destruct (decide (j = i)) as [->|]; [done|]. apply Hb. lia.
  - intros j Hj. destruct (decide (j = i)) as [->|]; [done|]. apply IH. lia.
Qed.

Lemma drop_cons_vget (b : bytes) k : 0 <= k < zlen b -> drop (Z.to_nat k) b = vget 0 b k :: drop (Z.to_nat (k + 1)) b.
Proof.
  intros Hk. unfold zlen in Hk. destruct (lookup_lt_is_Some_2 b (Z.to_nat k)) as [x Hx]; [lia|].
  rewrite (drop_S _ x) by done. replace (Z.to_nat (k + 1)) with (S (Z.to_nat k)) by lia. f_equal.
  unfold vget. destruct (Z.ltb_spec k 0); [lia|]. by rewrite nth_lookup, Hx.
Qed.

(** [t] stands in [b] at [k] *)
Definition occurs (b : bytes) (k : Z) (t : bytes) : Prop := csub b k (zlen t) = t.

Lemma occurs_cons b k x t :
  0 <= k < zlen b -> occurs b k (x :: t) <-> vget 0 b k = x /\ csub b (k + 1) (zlen t) = t.
Proof.
  intros Hk. unfold occurs, csub. rewrite drop_cons_vget by done.
  replace (Z.to_nat (zlen (x :: t))) with (S (Z.to_nat (zlen t))) by (unfold zlen; simpl; lia).
  cbn [take]. split; [intros [=-> E]; by split|intros [-> E]; by rewrite E].
Qed.

Lemma gmemfind_loop_spec fuel b s1 l1 x t :
  0 <= s1 -> s1 + l1 + zlen t <= zlen b -> l1 < Z.of_nat fuel -> 0 < Z.of_nat fuel ->
  match gmemfind_loop fuel b s1 l1 (x :: t) (zlen t) with
  | Ok (Some k) => s1 <= k < s1 + l1 /\ occurs b k (x :: t) /\ forall j, s1 <= j < k -> ~ occurs b j (x :: t)
  | Ok None => forall j, s1 <= j < s1 + l1 -> ~ occurs b j (x :: t)
  | Err _ => False
  end.
Proof.
  revert s1 l1. induction fuel as [|fuel IH]; intros s1 l1 H1 Hl Hf Hf0; [lia|]. cbn [gmemfind_loop].
  assert (0 <= zlen t) as Ht by (unfold zlen; lia).
  destruct (Z.ltb_spec 0 l1) as [H0|]; [|intros j; lia].
  change (vget 0 (x :: t) 0) with x. change (csub (x :: t) 1 (zlen t)) with (take (Z.to_nat (zlen t)) t).
  pose proof (memchr_spec b x (Z.to_nat l1) s1) as Hc. destruct (memchr b s1 x (Z.to_nat l1)) as [k|].
  - destruct Hc as (Hk & Hv & Hb).
    assert (forall j, s1 <= j < k -> ~ occurs b j (x :: t)) as Hno.
    { intros j Hj [E _]%occurs_cons; [|lia]. by apply (Hb j). }
    assert (take (Z.to_nat (zlen t)) t = t) as Et by (apply take_ge; unfold zlen; lia). rewrite Et.
    case_bool_decide as Eb.
    + replace (k + 1 - 1) with k by lia. split; [lia|]. split; [|done]. apply occurs_cons; [lia|done].
    + specialize (IH (k + 1) (l1 - (k + 1 - s1)) ltac:(lia) ltac:(lia) ltac:(lia)).
      assert (~ occurs b k (x :: t)) as Hk' by (rewrite occurs_cons by lia; tauto).
      destruct fuel as [|fuel']; [lia|]. specialize (IH ltac:(lia)).
      destruct (gmemfind_loop _ _ _ _ _ _) as [[r|]|]; [| |done].
      * destruct IH as (Hr & Ho & Hr'). split; [lia|]. split; [done|]. intros j Hj.
        destruct (Z_lt_le_dec j k); [apply Hno; lia|]. destruct (decide (j = k)) as [->|]; [done|]. apply Hr'. lia.
      * intros j Hj. destruct (Z_lt_le_dec j k); [apply Hno; lia|].
        destruct (decide (j = k)) as [->|]; [done|]. apply IH. lia.
  - intros j Hj [E _]%occurs_cons; [|lia]. apply (Hc j); [lia|done].
Qed.

(** the plain search returns the first position from [s1] on where the string
    occurs, and NULL only when it occurs nowhere there *)
Theorem gmemfind_first b s1 t :
  0 <= s1 <= zlen b ->
  match gmemfind b s1 (zlen b - s1) t with
  | Ok (Some k) => s1 <= k <= zlen b - zlen t /\ occurs b k t /\ forall j, s1 <= j < k -> ~ occurs b j t
  | Ok None => forall j, s1 <= j -> ~ occurs b j t
  | Err _ => False
  end.
Proof.
  intros Hs. unfold gmemfind. destruct t as [|x t].
  { simpl. split; [unfold zlen in *; simpl; lia|]. split; [done|]. intros j; lia. }
  assert (zlen (x :: t) = zlen t + 1) as Hz by (unfold zlen; simpl; lia). rewrite Hz.
  destruct (Z.eqb_spec (zlen t + 1) 0) as [|_]; [unfold zlen in *; lia|].
  assert (forall j, 0 <= j -> occurs b j (x :: t) -> j + zlen t + 1 <= zlen b) as Hfit.
  { intros j Hj E. unfold occurs, csub in E. apply (f_equal length) in E. rewrite length_take, length_drop in E.
    unfold zlen in *. simpl in *. lia. }
  destruct (Z.ltb_spec (zlen b - s1) (zlen t + 1)).
  { intros j Hj E. apply Hfit in E; [|lia]. lia. }
  replace (zlen t + 1 - 1) with (zlen t) by lia.
  pose proof (gmemfind_loop_spec (S (length b)) b s1 (zlen b - s1 - zlen t) x t) as H'.
  specialize (H' ltac:(lia) ltac:(lia) ltac:(unfold zlen in *; lia) ltac:(lia)).
  destruct (gmemfind_loop _ _ _ _ _ _) as [[k|]|]; [| |done].
  - destruct H' as (? & ? & ?). split; [lia|done].
  - intros j Hj E. specialize (Hfit j ltac:(lia) E). apply (H' j); [lia|done].
Qed.

(** ** Captured values *)

Section Search.

Variables src pat : bytes.
Hypothesis src_size : zlen src < 2 ^ 63.

#[local] Abbreviation src_end := (src_end src).

Definition finished (c : list (Z * Z)) : Prop := Forall (fun x => x.2 <> CAP_UNFINISHED) c.

(** the value of a capture: its text or its position *)
Definition cap_value (x : Z * Z) : rvalue :=
  if x.2 =? CAP_POSITION then RInt (x.1 + 1) else RStr (csub src x.1 x.2).

Lemma push_onecapture_live ms i s e :
  ms_ok ms -> Z.of_nat i < level ms ->
  exists x, live ms !! i = Some x /\
    push_onecapture src ms (Z.of_nat i) s e =
      if x.2 =? CAP_UNFINISHED then Err (RunError "unfinished capture") else Ok (cap_value x).
Proof.
  intros Hok Hi. eexists. split; [by apply live_lookup|]. unfold push_onecapture, cap_value. simpl.
  destruct (Z.leb_spec (level ms) (Z.of_nat i)); [lia|].
  destruct (_ =? CAP_UNFINISHED); [done|]. by destruct (_ =? CAP_POSITION).
Qed.

Lemma push_captures_loop_live ms s e n i :
  ms_ok ms -> Z.of_nat (i + n) = level ms ->
  match push_captures_loop src ms n (Z.of_nat i) s e with
  | Ok vs => vs = map cap_value (drop i (live ms)) /\ finished (drop i (live ms))
  | Err err => reported err
  end.
Proof.
  intros Hok. revert i. induction n as [|n IH]; intros i Hi; cbn [push_captures_loop].
  - rewrite drop_ge; [split; [done|constructor]|]. pose proof (length_live ms Hok). unfold zlen in *. lia.
  - destruct (push_onecapture_live ms i s e Hok) as (x & Hx & ->); [lia|].
    destruct (Z.eqb_spec x.2 CAP_UNFINISHED); [simpl; auto|]. cbn [mbind res_bind].
    replace (Z.of_nat i + 1) with (Z.of_nat (S i)) by lia. specialize (IH (S i) ltac:(lia)).
    destruct (push_captures_loop _ _ _ _ _ _) as [vs|]; [|done]. cbn [mbind res_bind].
    destruct IH as [-> Hf]. rewrite (drop_S _ x i) by done. split; [done|]. constructor; done.
Qed.

(** the values pushed for a match from [s] to [e]: its captures, or the whole match *)
Definition values (s : option Z) (e : Z) (c : list (Z * Z)) : list rvalue :=
  match c, s with
  | [], Some s => [RStr (csub src s (e - s))]
  | _, _ => map cap_value c
  end.

Lemma push_captures_live ms used s e :
  ms_ok ms ->
  match push_captures src ms used s e with
  | Ok vs => vs = values s e (live ms) /\ finished (live ms)
  | Err err => reported err
  end.
Proof.
  intros Hok. pose proof (length_live ms Hok) as Hz. unfold push_captures, gafqL_checkstack.
  set (n := if _ && _ then 1 else level ms).
  destruct (negb (gafq_checkstack used n)); [simpl; auto|]. cbn [mbind res_bind]. subst n.
  destruct (Z.eqb_spec (level ms) 0) as [E|E]; cbn [andb].
  - assert (live ms = []) as -> by (destruct (live ms); [done|unfold zlen in Hz; simpl in Hz; lia]).
    destruct s as [s|].
    + rewrite bool_decide_eq_true_2 by (by eexists). change (Z.to_nat 1) with 1%nat.
      cbn [push_captures_loop]. unfold push_onecapture. rewrite E. cbn.
      split; [done|constructor].
    + rewrite bool_decide_eq_false_2 by (by intros [? ?]). rewrite E. cbn. split; [done|constructor].
  - pose proof (push_captures_loop_live ms (default 0 s) e (Z.to_nat (level ms)) 0 Hok ltac:(destruct Hok; lia)) as H.
    change (Z.of_nat 0) with 0 in H. destruct (push_captures_loop _ _ _ _ _ _); [|done].
    rewrite drop_0 in H. destruct (live ms); [unfold zlen in Hz; simpl in Hz; lia|done].
Qed.

(** ** The leftmost match *)

Lemma reset_ok ms : zlen (capture ms) = GAFQ_MAXCAPTURES -> ms_ok (reset_level ms) /\ live (reset_level ms) = [].
Proof. intros Hc. split; [|done]. split; simpl; [unfold GAFQ_MAXCAPTURES; lia|done]. Qed.

(** trying to match at [s] with no captures *)
Lemma match_fresh ms s p :
  zlen (capture ms) = GAFQ_MAXCAPTURES -> 0 <= p <= zlen pat -> 0 <= s <= src_end ->
  outcome src [] s (pm src pat [] s p) (do_match src pat s p (reset_level ms)).
Proof.
  intros Hc Hp Hs. destruct (reset_ok ms Hc) as [Hok Hl].
  pose proof (match_spec src pat src_size (pattern_fuel pat) s p (reset_level ms) Hp) as H.
  rewrite Hl in H. apply H; [unfold pattern_fuel, zlen in *; lia|done|done|constructor].
Qed.

(** [k] is the first position from [s1] on where the pattern matches *)
Definition leftmost (s1 p k e : Z) (c : list (Z * Z)) : Prop :=
  s1 <= k <= e /\ e <= src_end /\ pm src pat [] k p e c /\
  forall j e' c', s1 <= j < k -> ~ pm src pat [] j p e' c'.

Lemma find_loop_spec fuel ms s1 p anchor :
  zlen (capture ms) = GAFQ_MAXCAPTURES -> 0 <= p <= zlen pat -> 0 <= s1 <= src_end ->
  src_end - s1 < Z.of_nat fuel ->
  match find_loop fuel src pat ms s1 p anchor with
  | Ok (Some (k, e, ms')) =>
      leftmost s1 p k e (live ms') /\ ms_ok ms' /\ (anchor = true -> k = s1)
  | Ok None => forall j e' c', s1 <= j <= (if anchor then s1 else src_end) -> ~ pm src pat [] j p e' c'
  | Err err => reported err
  end.
Proof.
  intros Hc Hp. revert ms s1 Hc. induction fuel as [|fuel IH]; intros ms s1 Hc Hs Hf; [lia|]. cbn [find_loop].
  pose proof (match_fresh ms s1 p Hc Hp Hs) as H. destruct (do_match _ _ _ _ _) as [[[e|] ms1]|err]; [| |done];
    cbn [mbind res_bind].
  - destruct H as (? & ? & _ & ?). split; [|done]. split; [lia|]. split; [lia|]. split; [done|]. lia.
  - destruct H as ([_ Hc1] & _ & Hn).
    destruct (Z.ltb_spec s1 src_end); cbn [andb].
    + destruct anchor; cbn [negb].
      * intros j e' c' Hj. by replace j with s1 by lia.
      * specialize (IH ms1 (s1 + 1) Hc1 ltac:(lia) ltac:(lia)).
        destruct (find_loop _ _ _ _ _ _ _) as [[[[k e] ms']|]|]; [| |done].
        -- destruct IH as ((? & ? & ? & Hl) & ? & _). split; [|done]. split; [lia|]. split; [done|]. split; [done|].
           intros j e' c' Hj. destruct (decide (j = s1)) as [->|]; [apply Hn|]. apply Hl. lia.
        -- intros j e' c' Hj. destruct (decide (j = s1)) as [->|]; [apply Hn|]. apply IH. lia.
    + intros j e' c' Hj. replace j with s1 by (destruct anchor; lia). apply Hn.
Qed.

(** the position where the search starts *)
Definition search_init (init : Z) : Z := Z.max 0 (Z.min (zlen src) (posrelat init (zlen src) - 1)).

Lemma search_init_range init : 0 <= search_init init <= zlen src.
Proof. unfold search_init, zlen. lia. Qed.


(** ** [gmatch] *)

Lemma gmatch_loop_spec fuel ms s1 :
  zlen (capture ms) = GAFQ_MAXCAPTURES -> 0 <= s1 -> src_end - s1 + 1 < Z.of_nat fuel -> 0 < Z.of_nat fuel ->
  match gmatch_loop fuel src pat ms s1 with
  | Ok (Some (k, e, ms')) => leftmost s1 0 k e (live ms') /\ ms_ok ms'
  | Ok None => forall j e' c', s1 <= j <= src_end -> ~ pm src pat [] j 0 e' c'
  | Err err => reported err
  end.
Proof.
  revert ms s1. induction fuel as [|fuel IH]; intros ms s1 Hc Hs Hf Hf0; [lia|]. cbn [gmatch_loop].
  destruct (Z.leb_spec s1 src_end); [|intros j; lia].
  pose proof (match_fresh ms s1 0 Hc ltac:(unfold zlen; lia) ltac:(lia)) as H0.
  destruct (do_match _ _ _ _ _) as [[[e|] ms1]|err]; [| |done]; cbn [mbind res_bind].
  - destruct H0 as (? & ? & _ & ?). split; [|done]. split; [lia|]. split; [lia|]. split; [done|]. lia.
  - destruct H0 as ([_ Hc1] & _ & Hn). specialize (IH ms1 (s1 + 1) Hc1 ltac:(lia) ltac:(lia) ltac:(lia)).
    destruct (gmatch_loop _ _ _ _ _) as [[[[k e] ms']|]|]; [| |done].
    + destruct IH as ((? & ? & ? & Hl) & ?). split; [|done]. split; [lia|]. split; [done|]. split; [done|].
      intros j e' c' Hj. destruct (decide (j = s1)) as [->|]; [apply Hn|]. apply Hl. lia.
    + intros j e' c' Hj. destruct (decide (j = s1)) as [->|]; [apply Hn|]. apply IH. lia.
Qed.

(** a call of the iterator of [gmatch] returns the values of the leftmost
    match from its position on and moves the position forward, also after an
    empty match, so that the iteration ends; it returns nothing only when there
    is no further match *)
Theorem gmatch_progress used start :
  0 <= start <= zlen src + 1 ->
  match gmatch_aux used src pat start with
  | Ok (Some (vs, next)) => start < next <= zlen src + 1 /\
      exists k e c, leftmost start 0 k e c /\ finished c /\ vs = values (Some k) e c /\ e <= next
  | Ok None => forall j e c, start <= j <= zlen src -> ~ pm src pat [] j 0 e c
  | Err err => reported err
  end.
Proof.
  intros Hs. unfold gmatch_aux.
  pose proof (gmatch_loop_spec (S (S (length src))) no_captures start eq_refl ltac:(lia)
                ltac:(unfold StrLib.src_end, zlen; lia) ltac:(lia)) as H.
  destruct (gmatch_loop _ _ _ _ _) as [[[[k e] ms']|]|]; [| |done]; cbn [mbind res_bind]; [|exact H].
  destruct H as (Hl & Hok). pose proof (push_captures_live ms' used (Some k) e Hok) as Hv.
  destruct (push_captures _ _ _ _ _) as [vs|]; [|done]. destruct Hv as [-> Hf]. cbn [mbind res_bind].
  destruct Hl as (Hk & He & Hm & Hn). unfold StrLib.src_end in He.
  split; [destruct (Z.eqb_spec e k); lia|]. exists k, e, (live ms'). split; [done|]. split; [done|].
  split; [done|]. destruct (e =? k); lia.
Qed.

(** ** [gsub] *)

(** a replacement that puts the matched text back *)
Definition identity_repl (repl : replacement) : Prop :=
  repl = ReplString (str "%0") \/
  (exists f, repl = ReplFunction f /\ forall vs, f vs = Ok RVFalse) \/
  (exists f, repl = ReplTable f /\ forall v, f v = Ok RVFalse).

Lemma add_value_identity used repl ms s e b :
  identity_repl repl -> ms_ok ms ->
  match add_value src used repl ms s e b with
  | Ok b' => b' = b ++ csub src s (e - s)
  | Err err => reported err
  end.
Proof.
  intros [->|[(f & -> & Hf)|(f & -> & Hf)]] Hok; cbn [add_value].
  - done.
  - pose proof (push_captures_live ms used (Some s) e Hok) as H. destruct (push_captures _ _ _ _ _); [|done].
    cbn [mbind res_bind]. by rewrite Hf.
  - unfold push_onecapture. destruct (level ms <=? 0); [simpl; by rewrite Hf|].
    destruct (_ =? CAP_UNFINISHED); [simpl; auto|]. destruct (_ =? CAP_POSITION); simpl; by rewrite Hf.
Qed.

Lemma take_csub s e : 0 <= s <= e -> take (Z.to_nat s) src ++ csub src s (e - s) = take (Z.to_nat e) src.
Proof.
  intros Hs. unfold csub. replace (Z.to_nat e) with (Z.to_nat s + Z.to_nat (e - s))%nat by lia.
  apply take_take_drop.
Qed.

Lemma take_char s : 0 <= s < zlen src -> take (Z.to_nat s) src ++ [vget 0 src s] = take (Z.to_nat (s + 1)) src.
Proof.
  intros Hs. rewrite <- (take_csub s (s + 1)) by lia. f_equal. unfold csub. rewrite drop_cons_vget by done.
  by replace (Z.to_nat (s + 1 - s)) with 1%nat by lia.
Qed.

Lemma gsub_loop_identity fuel used repl max_s anchor p ms s n :
  identity_repl repl -> 0 <= p <= zlen pat -> zlen (capture ms) = GAFQ_MAXCAPTURES -> 0 <= s <= src_end ->
  src_end - s < Z.of_nat fuel ->
  match gsub_loop src pat fuel used repl max_s anchor p ms s n (take (Z.to_nat s) src) with
  | Ok (b, s', n') => b = take (Z.to_nat s') src /\ s <= s' <= src_end /\
                      n <= n' <= Z.max n max_s /\ n' - n <= src_end - s + 1
  | Err err => reported err
  end.
Proof.
  intros Hid Hp. revert ms s n. induction fuel as [|fuel IH]; intros ms s n Hc Hs Hf; [lia|]. cbn [gsub_loop].
  destruct (Z.ltb_spec n max_s); [|split; [done|lia]].
  pose proof (match_fresh ms s p Hc Hp Hs) as Hm.
  (* a position without a match, or with an empty one, is copied *)
  assert (forall ms1 n1, zlen (capture ms1) = GAFQ_MAXCAPTURES -> n <= n1 <= Z.min (n + 1) max_s ->
    match (if s <? src_end then
             c ← cread src s;
             if anchor then Ok (take (Z.to_nat s) src ++ [c], s + 1, n1)
             else gsub_loop src pat fuel used repl max_s anchor p ms1 (s + 1) n1 (take (Z.to_nat s) src ++ [c])
           else Ok (take (Z.to_nat s) src, s, n1)) with
    | Ok (b, s', n') => b = take (Z.to_nat s') src /\ s <= s' <= src_end /\
                        n <= n' <= Z.max n max_s /\ n' - n <= src_end - s + 1
    | Err err => reported err
    end) as Hcopy.
  { intros ms1 n1 Hc1 Hn1. destruct (Z.ltb_spec s src_end) as [Hlt|]; [|split; [done|lia]].
    rewrite cread_in by (unfold StrLib.src_end in *; lia). cbn [mbind res_bind].
    rewrite take_char by (unfold StrLib.src_end in *; lia). destruct anchor; [split; [done|lia]|].
    specialize (IH ms1 (s + 1) n1 Hc1 ltac:(lia) ltac:(lia)).
    destruct (gsub_loop _ _ _ _ _ _ _ _ _ _ _ _) as [[[b s'] n']|]; [|done].
    destruct IH as (? & ? & ? & ?). split; [done|]. lia. }
  destruct (do_match _ _ _ _ _) as [[[e|] ms1]|err]; [| |done]; cbn [mbind res_bind].
  - destruct Hm as (He & Hok1 & _). pose proof (add_value_identity used repl ms1 s e (take (Z.to_nat s) src) Hid Hok1) as Hv.
    destruct (add_value _ _ _ _ _ _ _) as [b|]; [|done]. cbn [mbind res_bind]. subst b.
    destruct (Z.ltb_spec s e) as [Hse|Hse].
    + rewrite take_csub by lia. destruct anchor; [split; [done|lia]|].
      specialize (IH ms1 e (n + 1) (proj2 Hok1) ltac:(lia) ltac:(lia)).
      destruct (gsub_loop _ _ _ _ _ _ _ _ _ _ _ _) as [[[b s'] n']|]; [|done].
      destruct IH as (? & ? & ? & ?). split; [done|]. lia.
    + assert (csub src s (e - s) = []) as -> by (unfold csub; by replace (Z.to_nat (e - s)) with 0%nat by lia).
      rewrite app_nil_r. apply Hcopy; [apply Hok1|lia].
  - destruct Hm as (Hok1 & _). apply Hcopy; [apply Hok1|lia].
Qed.

(** C29: replacing every match by itself (by "%0", or by a function or table that
    gives no value) gives back the subject, for every pattern: no byte is lost,
    repeated or moved, and the loop ends; at most [max_s] matches are replaced *)
Theorem gsub_identity used repl max_s :
  identity_repl repl ->
  match str_gsub src pat used repl max_s with
  | Ok (b, n) => b = src /\ 0 <= n <= zlen src + 1 /\ (forall m, max_s = Some m -> n <= Z.max 0 m)
  | Err err => reported err
  end.
Proof.
  intros Hid. unfold str_gsub.
  destruct (cread_ok pat 0) as [c0 Ec]; [unfold zlen; lia|]. rewrite Ec. cbn [mbind res_bind].
  set (mx := default _ max_s). set (anchor := c0 =? chr "^"). set (p := if anchor then 1 else 0).
  assert (0 <= p <= zlen pat) as Hp.
  { unfold p. destruct anchor eqn:Ea; [|unfold zlen; lia]. subst anchor. apply Z.eqb_eq in Ea.
    assert (0 <= 0 < zlen pat); [|lia]. eapply cread_nonzero; [exact Ec|]. by rewrite Ea. }
  pose proof (gsub_loop_identity (S (S (length src))) used repl mx anchor p no_captures 0 0 Hid Hp eq_refl
                ltac:(unfold StrLib.src_end, zlen; lia) ltac:(unfold StrLib.src_end, zlen; lia)) as H.
  change (take (Z.to_nat 0) src) with (@nil Z) in H.
  destruct (gsub_loop _ _ _ _ _ _ _ _ _ _ _ _) as [[[b s'] n']|]; [|done]. cbn [mbind res_bind].
  destruct H as (-> & Hs & Hn & Hn2). rewrite take_csub by lia. unfold StrLib.src_end, zlen in *.
  split; [by rewrite Nat2Z.id, firstn_all|]. split; [lia|]. intros m ->. subst mx. simpl in Hn. lia.
Qed.

End Search.

(** ** Examples *)

Lemma gmemfind_first_witness :
  occurs (str "banana") 3 (str "ana") /\ gmemfind (str "banana") 2 4 (str "ana") = Ok (Some 3).
Proof.
  pose proof (gmemfind_first (str "banana") 2 (str "ana")) as H.
  assert (gmemfind (str "banana") 2 4 (str "ana") = Ok (Some 3)) as E by (vm_compute; reflexivity).
  change (zlen (str "banana") - 2) with 4 in H. rewrite E in H.
  destruct H as (_ & H & _); [vm_compute; split; congruence|]. split; [exact H|exact E].
Defined.


Lemma gmatch_progress_witness :
  exists next, gmatch_aux 0 (str "aXbX") (str "X*") 1 = Ok (Some ([RStr (str "X")], next)) /\ 1 < next.
Proof.
  pose proof (gmatch_progress (str "aXbX") (str "X*") eq_refl 0 1) as H.
  assert (gmatch_aux 0 (str "aXbX") (str "X*") 1 = Ok (Some ([RStr (str "X")], 2))) as E by (vm_compute; reflexivity).
  rewrite E in H. destruct H as [H _]; [vm_compute; split; congruence|]. exists 2. split; [exact E|apply H].
Defined.

Lemma gsub_identity_witness :
  exists n, str_gsub (str "hello world") (str "o*") 0 (ReplString (str "%0")) None = Ok (str "hello world", n) /\
    0 <= n <= 12.
Proof.
  pose proof (gsub_identity (str "hello world") (str "o*") eq_refl 0 (ReplString (str "%0")) None (or_introl eq_refl)) as H.
  assert (exists n, str_gsub (str "hello world") (str "o*") 0 (ReplString (str "%0")) None = Ok (str "hello world", n))
    as [n E] by (eexists; vm_compute; reflexivity).
  rewrite E in H. destruct H as (_ & H & _). exists n. split; [exact E|exact H].
Defined.

(** ** The simple functions *)

(** a string is the concatenation of [sub(s,1,k)] and [sub(s,k+1,-1)], for
    every [k], also outside the string *)
Theorem sub_split s k : 0 <= k -> str_sub s 1 k ++ str_sub s (k + 1) (-1) = s.
Proof.
  intros Hk. unfold str_sub, posrelat. assert (0 <= zlen s) as Hl by (unfold zlen; lia).
  destruct (Z.ltb_spec 1 0), (Z.ltb_spec k 0), (Z.ltb_spec (k + 1) 0), (Z.ltb_spec (-1) 0); try lia.
  destruct (Z.leb_spec 0 1), (Z.leb_spec 0 k), (Z.leb_spec 0 (k + 1)), (Z.leb_spec 0 (-1 + zlen s + 1)); try lia.
  destruct (Z.ltb_spec 1 1), (Z.ltb_spec (k + 1) 1), (Z.ltb_spec (zlen s) (-1 + zlen s + 1)); try lia.
  destruct (Z.ltb_spec (zlen s) k) as [Hb|Hb].
  - destruct (Z.leb_spec (k + 1) (-1 + zlen s + 1)); [lia|]. rewrite app_nil_r.
    destruct (Z.leb_spec 1 (zlen s)) as [|Hs0].
    + unfold csub. simpl. rewrite drop_0. apply take_ge. unfold zlen. lia.
    + destruct s; [done|unfold zlen in Hs0; simpl in Hs0; lia].
  - assert ((if 1 <=? k then csub s (1 - 1) (k - 1 + 1) else []) = take (Z.to_nat k) s) as ->.
    { unfold csub. change (Z.to_nat (1 - 1)) with 0%nat. rewrite drop_0.
      destruct (Z.leb_spec 1 k); [f_equal; lia|]. by replace (Z.to_nat k) with 0%nat by lia. }
    assert ((if k + 1 <=? -1 + zlen s + 1 then csub s (k + 1 - 1) (-1 + zlen s + 1 - (k + 1) + 1) else [])
            = drop (Z.to_nat k) s) as ->.
    { unfold csub. replace (k + 1 - 1) with k by lia. destruct (Z.leb_spec (k + 1) (-1 + zlen s + 1)).
      - apply take_ge. rewrite length_drop. unfold zlen. lia.
      - rewrite drop_ge; [done|]. unfold zlen in *. lia. }
    apply take_drop.
Qed.

Lemma str_char_loop_app l b : Forall is_byte l -> str_char_loop l b = Ok (b ++ l).
Proof.
  intros Hl. revert b. induction Hl as [|c l Hc _ IH]; intros b; cbn [str_char_loop]; [by rewrite app_nil_r|].
  unfold uchar. rewrite u8_id by done. rewrite Z.eqb_refl. cbn [negb]. by rewrite IH, <- app_assoc.
Qed.

(** [byte] of all characters gives back the codes that [char] was given *)
Theorem byte_char used l :
  Forall is_byte l -> 0 <= used -> used + zlen l <= GAFQI_MAXCSTACK ->
  exists s, str_char l = Ok s /\ str_byte used s 1 (Some (-1)) = Ok l.
Proof.
  unfold GAFQI_MAXCSTACK. intros Hl Hu Hz. exists l. split; [by apply (str_char_loop_app l [])|].
  unfold str_byte, posrelat. simpl. assert (0 <= zlen l) as H0 by (unfold zlen; lia).
  replace (-1 + zlen l + 1) with (zlen l) by lia.
  destruct (Z.leb_spec 0 (zlen l)); [|lia]. destruct (Z.ltb_spec (zlen l) (zlen l)); [lia|].
  destruct (Z.ltb_spec (zlen l) 1).
  { destruct l; [done|]. unfold zlen in *. simpl in *. lia. }
  rewrite s32_id by (unfold int_range, INT_MIN, INT_MAX; lia). replace (zlen l - 1 + 1) with (zlen l) by lia.
  destruct (Z.leb_spec (1 + zlen l) (zlen l)); [lia|].
  unfold gafqL_checkstack, gafq_checkstack, GAFQI_MAXCSTACK.
  destruct (Z.ltb_spec 8000 (zlen l)); [lia|]. destruct (Z.ltb_spec 8000 (used + zlen l)); [lia|]. cbn.
  f_equal. unfold csub. simpl. rewrite drop_0. apply take_ge. unfold zlen. lia.
Qed.

Lemma str_reverse_loop_spec n s b :
  (n <= length s)%nat -> str_reverse_loop n s b = b ++ reverse (take n s).
Proof.
  revert b. induction n as [|n IH]; intros b Hn; cbn [str_reverse_loop]; [by rewrite app_nil_r|].
  rewrite IH by lia. destruct (lookup_lt_is_Some_2 s n) as [x Hx]; [lia|].
  rewrite (take_S_r _ _ x) by done. rewrite reverse_snoc, <- app_assoc. simpl. do 2 f_equal.
  unfold vget. destruct (Z.ltb_spec (Z.of_nat n) 0); [lia|]. by rewrite Nat2Z.id, nth_lookup, Hx.
Qed.

(** [reverse] reverses: it is its own inverse *)
Theorem str_reverse_involutive s : str_reverse (str_reverse s) = s.
Proof.
  unfold str_reverse. rewrite !str_reverse_loop_spec by lia. simpl. rewrite !firstn_all.
  apply reverse_involutive.
Qed.

(** ** Format specifications *)

Lemma skip_flags_spec fuel f p :
  0 <= p <= zlen f -> zlen f - p < Z.of_nat fuel ->
  exists q, skip_flags fuel f p = Ok q /\ p <= q <= zlen f.
Proof.
  revert p. induction fuel as [|fuel IH]; intros p Hp Hf; [lia|]. cbn [skip_flags].
  destruct (cread_ok f p Hp) as [c Ec]. rewrite Ec. cbn [mbind res_bind].
  destruct (Z.eqb_spec c 0) as [|Hc]; cbn [negb andb]; [exists p; split; [done|lia]|].
  pose proof (cread_nonzero _ _ _ Ec Hc). case_bool_decide; [|exists p; split; [done|lia]].
  destruct (IH (p + 1)) as (q & -> & ?); [lia|lia|]. exists q. split; [done|lia].
Qed.

Lemma skip_digit_spec f p :
  0 <= p <= zlen f -> exists q, skip_digit f p = Ok q /\ p <= q <= Z.min (p + 1) (zlen f).
Proof.
  intros Hp. unfold skip_digit. destruct (cread_ok f p Hp) as [c Ec]. rewrite Ec. cbn [mbind res_bind].
  eexists. split; [done|]. destruct (isdigit c) eqn:Hd; [|lia].
  assert (c <> 0) as Hc by (intros ->; discriminate). pose proof (cread_nonzero _ _ _ Ec Hc). lia.
Qed.

Lemma length_addintlen form : zlen (addintlen form) <= zlen form + 2.
Proof. unfold addintlen, zlen. rewrite !length_app, length_take. simpl. lia. Qed.

(** [scanformat] reads inside the format only, and whatever the format is, the
    specification it copies, extended by the length modifier and the terminating
    zero, fits in the buffer [form] *)
Theorem format_fits f p :
  0 <= p <= zlen f ->
  match scanformat f p with
  | Ok (q, form) => p <= q <= zlen f /\ zlen form + 1 <= MAX_FORMAT /\ zlen (addintlen form) + 1 <= MAX_FORMAT
  | Err e => reported e
  end.
Proof.
  intros Hp. unfold scanformat. change (zlen FLAGS + 1) with 6. change MAX_FORMAT with 18.
  destruct (skip_flags_spec (S (length f)) f p Hp ltac:(unfold zlen; lia)) as (p1 & -> & Hp1). cbn [mbind res_bind].
  destruct (Z.leb_spec 6 (p1 - p)); [auto|].
  destruct (skip_digit_spec f p1 ltac:(lia)) as (p2 & -> & Hp2). cbn [mbind res_bind].
  destruct (skip_digit_spec f p2 ltac:(lia)) as (p3 & -> & Hp3). cbn [mbind res_bind].
  destruct (cread_ok f p3 ltac:(lia)) as [c Ec]. rewrite Ec. cbn [mbind res_bind].
  assert (exists p4, (if c =? chr "." then p ← skip_digit f (p3 + 1); skip_digit f p else Ok p3) = Ok p4 /\
            p3 <= p4 <= Z.min (p3 + 3) (zlen f)) as (p4 & -> & Hp4).
  { destruct (Z.eqb_spec c (chr ".")) as [Hdot|]; [|exists p3; split; [done|lia]].
    assert (0 <= p3 < zlen f) by (eapply cread_nonzero; [exact Ec|by rewrite Hdot]).
    destruct (skip_digit_spec f (p3 + 1) ltac:(lia)) as (q1 & -> & Hq1). cbn [mbind res_bind].
    destruct (skip_digit_spec f q1 ltac:(lia)) as (q2 & -> & Hq2). exists q2. split; [done|lia]. }
  cbn [mbind res_bind]. destruct (cread_ok f p4 ltac:(lia)) as [d ->]. cbn [mbind res_bind].
  destruct (isdigit d); [auto|].
  set (form := chr "%" :: _).
  assert (zlen form <= 12) as Hform.
  { unfold form, zlen, csub. simpl. rewrite length_take. lia. }
  pose proof (length_addintlen form). split; [lia|]. split; lia.
Qed.

Lemma sub_split_witness : str_sub (str "hello") 1 2 ++ str_sub (str "hello") 3 (-1) = str "hello".
Proof. apply (sub_split (str "hello") 2). lia. Defined.

Lemma byte_char_witness :
  exists s, str_char [72; 0; 255] = Ok s /\ str_byte 3 s 1 (Some (-1)) = Ok [72; 0; 255].
Proof.
  apply (byte_char 3 [72; 0; 255]).
  - repeat constructor; unfold is_byte; lia.
  - lia.
  - vm_compute. congruence.
Defined.

Lemma format_fits_witness :
  scanformat (str "+-05.3d") 0 = Ok (6, str "%+-05.3d") /\ zlen (addintlen (str "%+-05.3d")) + 1 <= MAX_FORMAT.
Proof.
  pose proof (format_fits (str "+-05.3d") 0) as H.
  assert (scanformat (str "+-05.3d") 0 = Ok (6, str "%+-05.3d")) as E by (vm_compute; reflexivity).
  rewrite E in H. destruct H as (_ & _ & H); [vm_compute; split; congruence|]. split; [exact E|exact H].
Defined.
