(* ===== verification/LexProofs.v ===== *)
(** * Correctness of the lexical analyser

    The input still to be analysed is the current character and the pending
    bytes of the stream.  The analyser terminates, never reads past the end mark
    and reports every other failure as a syntax error; a string printed by
    [string.format("%q")] is read back; looking ahead does not change the tokens. *)

From stdpp Require Import sets.
From S2P Require Import Prelude Number Object Zio Lexer StrLib.

(** ** The remaining input *)

Definition rest (ls : LexState) : bytes := if current ls =? EOZ then [] else current ls :: pending (ls_z ls).

Definition lex_ok (ls : LexState) : Prop :=
  current ls = EOZ \/ (is_byte (current ls) /\ zok (ls_z ls)).

Lemma byte_not_eoz c : is_byte c -> c <> EOZ.
Proof. unfold is_byte, EOZ. lia. Qed.

Lemma rest_cons ls : current ls <> EOZ -> rest ls = current ls :: pending (ls_z ls).
Proof. intros H. unfold rest. by destruct (Z.eqb_spec (current ls) EOZ). Qed.

Lemma rest_eoz ls : current ls = EOZ -> rest ls = [].
Proof. intros H. unfold rest. by rewrite H. Qed.

(** the current character is the first of the remaining input *)
Lemma rest_current ls c r : rest ls = c :: r -> current ls = c /\ current ls <> EOZ.
Proof. unfold rest. destruct (Z.eqb_spec (current ls) EOZ); [done|]. by intros [=<- _]. Qed.

Lemma rest_nil ls : rest ls = [] -> current ls = EOZ.
Proof. unfold rest. by destruct (Z.eqb_spec (current ls) EOZ). Qed.

Lemma next_ok ls :
  lex_ok ls -> current ls <> EOZ ->
  exists ls', next ls = Ok (tt, ls') /\ lex_ok ls' /\ rest ls = current ls :: rest ls' /\
    ls' = with_input ls (current ls') (ls_z ls').
Proof.
  intros [|[Hb Hz]] Hc; [done|]. unfold next. destruct (Z.eqb_spec (current ls) EOZ); [done|].
  pose proof (zgetc_spec _ Hz) as H. rewrite rest_cons by done.
  destruct (zgetc (ls_z ls)) as [c z]. simpl in H. exists (with_input ls c z). split; [done|].
  destruct (pending (ls_z ls)) as [|d r] eqn:Ep.
  - subst c. split; [by left|]. split; [|done]. by rewrite rest_eoz.
  - destruct H as (-> & Hd & Hz' & Er). split; [right; by split|]. split; [|done].
    rewrite (rest_cons (with_input ls d z)) by (by apply byte_not_eoz). simpl. by rewrite Er.
Qed.

(** ** Termination and absence of undefined behaviour *)

(** [m] ends with a result related by [Q], or with a syntax error *)
Definition lexes {A} (m : lex A) (ls : LexState) (Q : A -> LexState -> Prop) : Prop :=
  match m ls with
  | Ok (a, ls') => lex_ok ls' /\ Q a ls'
  | Err (SyntaxError _ _) => True
  | Err _ => False
  end.

Lemma lexes_bind {A B} (m : lex A) (f : A -> lex B) ls Q R :
  lexes m ls Q -> (forall a ls', lex_ok ls' -> Q a ls' -> lexes (f a) ls' R) -> lexes (m ≫= f) ls R.
Proof.
  unfold lexes, mbind, stres_bind. intros Hm Hf. destruct (m ls) as [[a ls']|]; [|done].
  destruct Hm as [Hok Hq]. by apply Hf.
Qed.

Lemma lexes_ret {A} (a : A) ls (Q : A -> LexState -> Prop) : lex_ok ls -> Q a ls -> lexes (mret a) ls Q.
Proof. by split. Qed.

Lemma lexes_gets {A} (f : LexState -> A) ls (Q : A -> LexState -> Prop) :
  lex_ok ls -> Q (f ls) ls -> lexes (gets f) ls Q.
Proof. by split. Qed.

Lemma lexerror_raises {A} msg tk ls : exists m u, @gafqX_lexerror A msg tk ls = Err (SyntaxError m u).
Proof.
  unfold gafqX_lexerror. destruct (tk =? 0); [by eexists _, _|].
  unfold mbind, stres_bind, gets. cbv beta iota zeta. unfold txtToken, mbind, stres_bind.
  destruct (_ || _); [|by eexists _, _]. unfold save, mbind, stres_bind, gets. cbv beta iota zeta.
  destruct (buffsize _ <? _); [|by eexists _, _]. destruct (MAX_SIZET / 2 <=? _); by eexists _, _.
Qed.

Lemma lexes_error {A} msg tk ls (Q : A -> LexState -> Prop) : lexes (gafqX_lexerror msg tk) ls Q.
Proof. unfold lexes. destruct (@lexerror_raises A msg tk ls) as (m & u & ->). done. Qed.

Lemma lexes_syntaxerror {A} msg ls (Q : A -> LexState -> Prop) : lexes (gafqX_syntaxerror msg) ls Q.
Proof. exact (lexes_error msg (token (ls_t ls)) ls Q). Qed.

Lemma lexes_error0 {A} msg ls (Q : A -> LexState -> Prop) : lexes (lexerror0 msg) ls Q.
Proof. done. Qed.

#[export] Hint Resolve lexes_error lexes_syntaxerror : core.

(** an error that is raised here *)
Ltac lexerr := first [done | apply lexes_error | apply lexes_syntaxerror].

Lemma lexes_impl {A} (m : lex A) ls (Q R : A -> LexState -> Prop) :
  lexes m ls Q -> (forall a ls', Q a ls' -> R a ls') -> lexes m ls R.
Proof. unfold lexes. intros Hm HQ. destruct (m ls) as [[a ls']|]; [|done]. naive_solver. Qed.

(** the number of characters left *)
Definition todo (ls : LexState) : nat := length (rest ls).

Lemma lexes_next ls : lex_ok ls -> current ls <> EOZ -> 
  lexes next ls (fun _ ls' => (todo ls' < todo ls)%nat /\ ls_buff ls' = ls_buff ls).
Proof.
  intros Hok Hc. destruct (next_ok ls Hok Hc) as (ls' & E & Hok' & Er & Ew). unfold lexes, todo.
  rewrite E, Er. split; [done|]. simpl. split; [lia|]. by rewrite Ew.
Qed.

(** saving a character does not touch the input *)
Lemma lexes_save c ls :
  lex_ok ls -> 
  lexes (save c) ls (fun _ ls' => current ls' = current ls /\ todo ls' = todo ls /\
                                  zlen (ls_buff ls') = zlen (ls_buff ls) + 1).
Proof.
  intros Hok. unfold lexes, save, mbind, stres_bind, gets, id.
  assert (zlen (ls_buff ls ++ [u8 c]) = zlen (ls_buff ls) + 1) by (unfold zlen; rewrite length_app; simpl; lia).
  destruct (_ <? _); [destruct (_ <=? _)|]; done.
Qed.

Lemma lexes_save_and_next ls :
  lex_ok ls -> current ls <> EOZ -> 
  lexes save_and_next ls (fun _ ls' => (todo ls' < todo ls)%nat /\ zlen (ls_buff ls') = zlen (ls_buff ls) + 1).
Proof.
  intros Hok Hc. unfold save_and_next. eapply lexes_bind; [by apply lexes_gets with (Q := fun c ls' => ls' = ls)|].
  intros c ls1 Hok1 ->. eapply lexes_bind; [by apply lexes_save|]. intros _ ls2 Hok2 (Hc2 & Hl2 & Hb2).
  eapply lexes_impl; [apply lexes_next; [done|congruence]|]. simpl. intros _ ls3 [? ->]. lia.
Qed.

Lemma lex_fuel_left ls : (todo ls < length (pending (ls_z ls)) + 2)%nat.
Proof. unfold todo, rest. destruct (_ =? _); simpl; lia. Qed.

(** a loop that reads while [p] holds, which is not the case at the end *)
Lemma lexes_save_while fuel p ls :
  lex_ok ls -> p EOZ = false -> (todo ls < fuel)%nat ->
  lexes (save_while fuel p) ls (fun _ ls' => (todo ls' <= todo ls)%nat /\ zlen (ls_buff ls) <= zlen (ls_buff ls')).
Proof.
  intros Hok Hp. revert ls Hok. induction fuel as [|fuel IH]; intros ls Hok Hf; [lia|]. cbn [save_while].
  eapply lexes_bind; [by apply lexes_gets with (Q := fun c ls' => c = current ls /\ ls' = ls)|].
  intros c ls1 _ [-> ->]. destruct (p (current ls)) eqn:Ec; [|by apply lexes_ret].
  eapply lexes_bind; [apply lexes_save_and_next; [done|congruence]|]. simpl. intros _ ls2 Hok2 Hl.
  eapply lexes_impl; [apply IH; [done|lia]|]. simpl. intros _ ls3 [? ?]. lia.
Qed.

Lemma lexes_skip_while fuel p ls :
  lex_ok ls -> p EOZ = false -> (todo ls < fuel)%nat ->
  lexes (skip_while fuel p) ls (fun _ ls' => (todo ls' <= todo ls)%nat).
Proof.
  intros Hok Hp. revert ls Hok. induction fuel as [|fuel IH]; intros ls Hok Hf; [lia|]. cbn [skip_while].
  eapply lexes_bind; [by apply lexes_gets with (Q := fun c ls' => c = current ls /\ ls' = ls)|].
  intros c ls1 _ [-> ->]. destruct (p (current ls)) eqn:Ec; [|by apply lexes_ret].
  eapply lexes_bind; [apply lexes_next; [done|congruence]|]. simpl. intros _ ls2 Hok2 Hl.
  eapply lexes_impl; [apply IH; [done|lia]|]. simpl. intros _ ls3 ?. lia.
Qed.

Lemma lexes_get {A B} (f : LexState -> A) (k : A -> lex B) ls R : lexes (k (f ls)) ls R -> lexes (gets f ≫= k) ls R.
Proof. done. Qed.

Lemma lexes_modify {B} (f : LexState -> LexState) (k : unit -> lex B) ls R :
  lexes (k tt) (f ls) R -> lexes (modify f ≫= k) ls R.
Proof. done. Qed.

(** [m] reads no more than is there, or at least one character *)
Definition reads {A} (m : lex A) (ls : LexState) : Prop := lexes m ls (fun _ ls' => (todo ls' <= todo ls)%nat).
Definition reads1 {A} (m : lex A) (ls : LexState) : Prop := lexes m ls (fun _ ls' => (todo ls' < todo ls)%nat).

Lemma reads1_reads {A} (m : lex A) ls : reads1 m ls -> reads m ls.
Proof. intros H. eapply lexes_impl; [exact H|]. cbv beta in *. intros. lia. Qed.

(** [m] reads a token: some characters, unless it is at the end *)
Definition reads_token {B} (m : lex (Z * B)) (ls : LexState) : Prop :=
  lexes m ls (fun r ls' => (todo ls' <= todo ls)%nat /\ (r.1 <> TK_EOS -> (todo ls' < todo ls)%nat)).

Lemma reads1_token {B} (m : lex (Z * B)) ls : reads1 m ls -> reads_token m ls.
Proof. intros H. eapply lexes_impl; [exact H|]. cbv beta in *. intros. lia. Qed.

Lemma token_after {A B} (m : lex A) (f : A -> lex (Z * B)) ls :
  reads1 m ls -> (forall a ls', lex_ok ls' -> (todo ls' < todo ls)%nat -> reads_token (f a) ls') -> reads_token (m ≫= f) ls.
Proof.
  intros Hm Hf. eapply lexes_bind; [exact Hm|]. intros a ls' Hok Hl.
  eapply lexes_impl; [by apply Hf|]. cbv beta in *. intros. lia.
Qed.

Lemma reads1_bind {A B} (m : lex A) (f : A -> lex B) ls :
  reads1 m ls -> (forall a ls', lex_ok ls' -> (todo ls' < todo ls)%nat -> reads (f a) ls') -> reads1 (m ≫= f) ls.
Proof.
  intros Hm Hf. eapply lexes_bind; [exact Hm|]. intros a ls' Hok Hl.
  eapply lexes_impl; [by apply Hf|]. cbv beta in *. intros. lia.
Qed.

Lemma reads_bind {A B} (m : lex A) (f : A -> lex B) ls :
  reads m ls -> (forall a ls', lex_ok ls' -> (todo ls' <= todo ls)%nat -> reads (f a) ls') -> reads (m ≫= f) ls.
Proof.
  intros Hm Hf. eapply lexes_bind; [exact Hm|]. intros a ls' Hok Hl.
  eapply lexes_impl; [by apply Hf|]. cbv beta in *. intros. lia.
Qed.

Lemma reads_ret {A} (a : A) ls : lex_ok ls -> reads (mret a) ls.
Proof. intros H. by split. Qed.

Lemma reads_save c ls : lex_ok ls -> reads (save c) ls.
Proof. intros H. eapply lexes_impl; [by apply lexes_save|]. cbv beta in *. intros. lia. Qed.

Lemma reads1_next ls : lex_ok ls -> current ls <> EOZ -> reads1 next ls.
Proof. intros Hok Hc. eapply lexes_impl; [by apply lexes_next|]. simpl. tauto. Qed.

Lemma reads1_save_and_next ls : lex_ok ls -> current ls <> EOZ -> reads1 save_and_next ls.
Proof. intros Hok Hc. eapply lexes_impl; [by apply lexes_save_and_next|]. simpl. tauto. Qed.

Lemma reads_save_while p ls :
  lex_ok ls -> p EOZ = false -> reads (fuel ← lex_fuel; save_while fuel p) ls.
Proof.
  intros Hok Hp. apply lexes_get. eapply lexes_impl; [apply lexes_save_while; [done|done|]|].
  - pose proof (lex_fuel_left ls). simpl. lia.
  - cbv beta in *. intros. lia.
Qed.

Lemma reads1_inclinenumber ls : lex_ok ls -> current ls <> EOZ -> reads1 inclinenumber ls.
Proof.
  intros Hok Hc. unfold inclinenumber. apply lexes_get. eapply reads1_bind; [by apply reads1_next|].
  intros _ ls1 Hok1 _. apply lexes_get. unfold id. eapply reads_bind.
  - destruct (currIsNewline ls1) eqn:En; [|by apply reads_ret]. destruct (negb _); [|by apply reads_ret].
    apply reads1_reads, reads1_next; [done|]. intros E. unfold currIsNewline in En. by rewrite E in En.
  - intros _ ls2 Hok2 _. apply lexes_modify, lexes_get. destruct (_ <=? _); [done|]. by split.
Qed.

Lemma strchr_eoz set : strchr (str set) EOZ = true -> 255 ∈ str set.
Proof. unfold strchr. rewrite bool_decide_eq_true. change (u8 EOZ) with 255. set_solver. Qed.

Lemma reads_check_next set ls : lex_ok ls -> 255 ∉ str set -> reads (check_next set) ls.
Proof.
  intros Hok Hs. unfold check_next. apply lexes_get. destruct (strchr (str set) (current ls)) eqn:E; [|by apply reads_ret].
  cbn [negb]. eapply reads_bind; [|intros; by apply reads_ret]. apply reads1_reads, reads1_save_and_next; [done|].
  intros Ec. rewrite Ec in E. by apply strchr_eoz in E.
Qed.

Lemma lexes_skip_sep ls :
  lex_ok ls -> current ls <> EOZ ->
  lexes skip_sep ls (fun n ls' => (todo ls' < todo ls)%nat /\ (0 <= n -> current ls' = current ls)).
Proof.
  intros Hok Hc. unfold skip_sep. apply lexes_get.
  eapply lexes_bind; [by apply lexes_save_and_next|]. simpl. intros _ ls1 Hok1 [H1 _]. apply lexes_get, lexes_get.
  eapply lexes_bind; [apply lexes_save_while; [done|done|pose proof (lex_fuel_left ls1); simpl; lia]|].
  simpl. intros _ ls2 Hok2 [H2 Hb]. apply lexes_get. unfold id. split; [done|]. split; [lia|].
  destruct (Z.eqb_spec (current ls2) (current ls)); [done|]. lia.
Qed.

Lemma reads1_skip_sep ls : lex_ok ls -> current ls <> EOZ -> reads1 skip_sep ls.
Proof. intros Hok Hc. eapply lexes_impl; [by apply lexes_skip_sep|]. simpl. tauto. Qed.

Lemma reads_buff ls b n : lex_ok ls -> lex_ok (with_buff ls b n) /\ todo (with_buff ls b n) = todo ls.
Proof. done. Qed.

Lemma reads1_long_string_loop fuel issem sep ls :
  lex_ok ls -> 0 <= sep -> (todo ls < fuel)%nat -> reads (long_string_loop fuel issem sep) ls.
Proof.
  intros Hok Hsep. revert ls Hok. induction fuel as [|fuel IH]; intros ls Hok Hf; [lia|]. cbn [long_string_loop].
  apply lexes_get. destruct (Z.eqb_spec (current ls) EOZ) as [|Hc]; [done|].
  assert (forall ls', lex_ok ls' -> (todo ls' < todo ls)%nat -> reads (long_string_loop fuel issem sep) ls') as Hrec.
  { intros ls' Hok' Hl. apply IH; [done|lia]. }
  destruct (Z.eqb_spec (current ls) (chr "[")) as [Eb|_].
  { eapply reads1_reads, lexes_bind; [by apply lexes_skip_sep|]. simpl. intros n ls1 Hok1 [Hl1 Hc1].
    assert (reads (if n =? sep then
                     _ ← save_and_next;
                     if sep =? 0 then gafqX_lexerror "nesting of [[...]] is deprecated" (chr "[") else mret tt
                   else mret tt) ls1) as H1.
    { destruct (Z.eqb_spec n sep) as [->|]; [|by apply reads_ret].
      eapply reads1_reads, reads1_bind; [apply reads1_save_and_next; [done|rewrite Hc1; done]|].
      intros _ ls2 Hok2 _. destruct (sep =? 0); [done|by apply reads_ret]. }
    eapply lexes_bind; [exact H1|]. cbv beta. intros _ ls2 Hok2 Hl2.
    eapply lexes_impl; [apply Hrec; [done|lia]|]. cbv beta. lia. }
  destruct (Z.eqb_spec (current ls) (chr "]")) as [Eb|_].
  { eapply reads1_reads, lexes_bind; [by apply lexes_skip_sep|]. simpl. intros n ls1 Hok1 [Hl1 Hc1].
    destruct (Z.eqb_spec n sep) as [->|].
    - eapply lexes_impl; [apply reads1_save_and_next; [done|rewrite Hc1; done]|]. cbv beta. lia.
    - eapply lexes_impl; [by apply Hrec|]. cbv beta. lia. }
  destruct (is_newline (current ls)).
  { eapply lexes_bind; [by apply lexes_save|]. simpl. intros _ ls1 Hok1 (Hc1 & Hl1 & _).
    eapply lexes_bind; [apply reads1_inclinenumber; [done|congruence]|]. cbv beta. intros _ ls2 Hok2 Hl2.
    eapply lexes_bind with (Q := fun _ ls' => todo ls' = todo ls2); [by destruct (negb issem)|].
    intros _ ls3 Hok3 Hl3. eapply lexes_impl; [apply Hrec; [done|lia]|]. cbv beta. lia. }
  assert (reads1 (if issem then save_and_next else next) ls) as H1.
  { destruct issem; [by apply reads1_save_and_next|by apply reads1_next]. }
  eapply reads1_reads, reads1_bind; [exact H1|]. intros _ ls1 Hok1 Hl1. by apply Hrec.
Qed.

Lemma reads1_read_long_string issem sep ls :
  lex_ok ls -> 0 <= sep -> current ls <> EOZ -> reads1 (read_long_string issem sep) ls.
Proof.
  intros Hok Hsep Hc. unfold read_long_string. eapply reads1_bind; [by apply reads1_save_and_next|].
  intros _ ls1 Hok1 _. apply lexes_get. unfold id. eapply reads_bind.
  - destruct (currIsNewline ls1) eqn:En; [|by apply reads_ret].
    apply reads1_reads, reads1_inclinenumber; [done|]. intros E. unfold currIsNewline in En. by rewrite E in En.
  - intros _ ls2 Hok2 _. apply lexes_get. eapply reads_bind.
    + apply reads1_long_string_loop; [done|done|]. pose proof (lex_fuel_left ls2). simpl. lia.
    + intros _ ls3 Hok3 _. by split.
Qed.

Lemma isdigit_eoz c : isdigit c = true -> c <> EOZ.
Proof. by intros H ->. Qed.

Lemma reads1_read_decimal i c ls : lex_ok ls -> current ls <> EOZ -> reads1 (read_decimal i c) ls.
Proof.
  revert c ls. induction i as [|i IH]; intros c ls Hok Hc; cbn [read_decimal];
    apply lexes_get; (eapply reads1_bind; [by apply reads1_next|]); intros _ ls1 Hok1 _; apply lexes_get.
  - by apply reads_ret.
  - destruct (isdigit (current ls1)) eqn:E; [|by apply reads_ret]. apply reads1_reads, IH; [done|by apply isdigit_eoz].
Qed.

Lemma reads1_read_escape ls : lex_ok ls -> current ls <> EOZ -> reads1 read_escape ls.
Proof.
  intros Hok Hc. unfold read_escape. eapply reads1_bind; [by apply reads1_next|]. intros _ ls1 Hok1 _. apply lexes_get.
  destruct (simple_escape (current ls1)) as [c|] eqn:Ee.
  - eapply lexes_bind; [by apply lexes_save|]. simpl. intros _ ls2 Hok2 (Hc2 & Hl2 & _).
    eapply lexes_impl; [apply reads1_next; [done|]|].
    + rewrite Hc2. intros E. by rewrite E in Ee.
    + cbv beta. lia.
  - destruct (is_newline (current ls1)) eqn:En.
    + eapply lexes_bind; [by apply lexes_save|]. simpl. intros _ ls2 Hok2 (Hc2 & Hl2 & _).
      eapply lexes_impl; [apply reads1_inclinenumber; [done|]|].
      * rewrite Hc2. intros E. by rewrite E in En.
      * cbv beta. lia.
    + destruct (Z.eqb_spec (current ls1) EOZ) as [|Hc1]; [by apply reads_ret|].
      destruct (isdigit (current ls1)) eqn:Ed; cbn [negb].
      * eapply reads1_reads, reads1_bind; [by apply reads1_read_decimal|]. intros c ls2 Hok2 _.
        destruct (255 <? c); [lexerr|by apply reads_save].
      * by apply reads1_reads, reads1_save_and_next.
Qed.

Lemma reads_read_string_loop fuel del ls :
  lex_ok ls -> (todo ls < fuel)%nat ->
  lexes (read_string_loop fuel del) ls (fun _ ls' => (todo ls' <= todo ls)%nat /\ current ls' = del).
Proof.
  revert ls. induction fuel as [|fuel IH]; intros ls Hok Hf; [lia|]. cbn [read_string_loop].
  apply lexes_get. destruct (Z.eqb_spec (current ls) del) as [E|_]; [by split|].
  destruct (Z.eqb_spec (current ls) EOZ) as [|Hc]; [done|]. destruct (is_newline (current ls)); [done|].
  assert (reads1 (if current ls =? 92 then read_escape else save_and_next) ls) as H1.
  { destruct (current ls =? 92); [by apply reads1_read_escape|by apply reads1_save_and_next]. }
  eapply lexes_bind; [exact H1|]. cbv beta. intros _ ls1 Hok1 Hl1.
  eapply lexes_impl; [apply IH; [done|lia]|]. cbv beta. intros _ ls2 [? ?]. split; [lia|done].
Qed.

Lemma reads1_read_string del ls : lex_ok ls -> current ls <> EOZ -> del <> EOZ -> reads1 (read_string del) ls.
Proof.
  intros Hok Hc Hd. unfold read_string. eapply reads1_bind; [by apply reads1_save_and_next|].
  intros _ ls1 Hok1 _. apply lexes_get.
  eapply lexes_bind; [apply reads_read_string_loop; [done|pose proof (lex_fuel_left ls1); simpl; lia]|].
  cbv beta. intros _ ls2 Hok2 [Hl2 Hc2].
  eapply lexes_bind; [apply reads1_save_and_next; [done|congruence]|]. cbv beta. intros _ ls3 Hok3 Hl3.
  split; [done|lia].
Qed.

Section Total.

Context (strtod strtoul16 : bytes -> gafq_Number * Z) (locale_point : Z).

Lemma reads_trydecpoint ls : lex_ok ls -> reads (trydecpoint strtod strtoul16 locale_point) ls.
Proof.
  intros Hok. unfold trydecpoint. apply lexes_get, lexes_modify. unfold buffreplace. apply lexes_modify, lexes_get.
  destruct (gafqO_str2d strtod strtoul16 _); [by split|]. by apply lexes_modify.
Qed.

Lemma reads1_read_numeral ls :
  lex_ok ls -> current ls <> EOZ -> reads1 (read_numeral strtod strtoul16 locale_point) ls.
Proof.
  intros Hok Hc. unfold read_numeral. eapply reads1_bind; [by apply reads1_save_and_next|]. intros _ ls1 Hok1 _.
  apply lexes_get. eapply reads_bind; [by apply (reads_save_while numeral_char ls1)|]. intros _ ls2 Hok2 _.
  eapply reads_bind; [apply reads_check_next; [done|vm_compute; set_solver]|]. intros e ls3 Hok3 _.
  eapply reads_bind.
  { destruct e; [apply reads_check_next; [done|vm_compute; set_solver]|by apply reads_ret]. }
  intros _ ls4 Hok4 _. apply lexes_get.
  eapply reads_bind; [by apply (reads_save_while name_char ls4)|]. intros _ ls5 Hok5 _.
  eapply reads_bind; [by apply reads_save|]. intros _ ls6 Hok6 _. apply lexes_get. unfold buffreplace at 1.
  apply lexes_modify, lexes_get. destruct (gafqO_str2d _ _ _); [by split|].
  by apply (reads_trydecpoint (with_buff ls6 _ _)).
Qed.

Lemma reads_read_comment ls : lex_ok ls -> reads read_comment ls.
Proof.
  intros Hok. unfold read_comment. apply lexes_get.
  eapply reads_bind.
  - destruct (Z.eqb_spec (current ls) (chr "[")) as [E|]; [|by apply reads_ret].
    eapply reads1_reads, lexes_bind; [apply lexes_skip_sep; [done|by rewrite E]|]. cbv beta. intros n ls1 Hok1 [Hl1 Hc1].
    apply lexes_modify. destruct (Z.leb_spec 0 n); [|by split].
    eapply lexes_bind; [apply reads1_read_long_string; [done|done|]|].
    + simpl. rewrite Hc1 by done. by rewrite E.
    + cbv beta. intros _ ls2 Hok2 Hl2. apply lexes_modify. split; [done|]. change (todo (with_buff ls2 _ _)) with (todo ls2).
      change (todo (with_buff ls1 _ _)) with (todo ls1) in Hl2. lia.
  - intros [] ls1 Hok1 _; [by apply reads_ret|]. apply lexes_get.
    apply lexes_skip_while; [done|done|]. pose proof (lex_fuel_left ls1). simpl. lia.
Qed.

Lemma reads1_or_equal c tk ls : lex_ok ls -> current ls <> EOZ -> reads1 (or_equal c tk) ls.
Proof.
  intros Hok Hc. unfold or_equal. eapply reads1_bind; [by apply reads1_next|]. intros _ ls1 Hok1 _. apply lexes_get.
  destruct (Z.eqb_spec (current ls1) (chr "=")) as [E|]; cbn [negb]; [|by apply reads_ret].
  eapply reads_bind; [apply reads1_reads, reads1_next; [done|by rewrite E]|]. intros; by apply reads_ret.
Qed.

Lemma reads1_read_name si ls : lex_ok ls -> current ls <> EOZ -> reads1 (read_name si) ls.
Proof.
  intros Hok Hc. unfold read_name. eapply reads1_bind; [by apply reads1_save_and_next|]. intros _ ls1 Hok1 _.
  apply lexes_get. eapply reads_bind; [by apply (reads_save_while name_char ls1)|].
  intros _ ls2 Hok2 _. by split.
Qed.

Lemma reads_glex_loop fuel si ls :
  lex_ok ls -> (todo ls < fuel)%nat -> reads_token (glex_loop strtod strtoul16 locale_point fuel si) ls.
Proof.
  revert ls. induction fuel as [|fuel IH]; intros ls Hok Hf; [lia|]. cbn [glex_loop]. apply lexes_get.
  assert (forall ls', lex_ok ls' -> (todo ls' < todo ls)%nat ->
            reads_token (glex_loop strtod strtoul16 locale_point fuel si) ls') as Hrec.
  { intros ls' Hok' Hl. apply IH; [done|lia]. }
  destruct (is_newline (current ls)) eqn:En.
  { eapply token_after; [apply reads1_inclinenumber; [done|]|].
    - intros E. by rewrite E in En.
    - intros _ ls1 Hok1 Hl1. by apply Hrec. }
  destruct (Z.eqb_spec (current ls) EOZ) as [Heoz|Hc].
  { rewrite Heoz. split; [done|]. split; [lia|done]. }
  destruct (current ls =? chr "-").
  { eapply lexes_bind; [by apply reads1_next|]. cbv beta. intros _ ls1 Hok1 Hl1. apply lexes_get.
    destruct (Z.eqb_spec (current ls1) (chr "-")) as [E1|]; cbn [negb]; [|by split; [|split; [lia|]]].
    eapply lexes_bind; [apply reads1_next; [done|by rewrite E1]|]. cbv beta. intros _ ls2 Hok2 Hl2.
    eapply lexes_bind; [by apply reads_read_comment|]. cbv beta. intros _ ls3 Hok3 Hl3.
    eapply lexes_impl; [apply Hrec; [done|lia]|]. cbv beta. intros. lia. }
  destruct (current ls =? chr "[").
  { eapply reads1_token, lexes_bind; [by apply lexes_skip_sep|]. cbv beta. intros n ls1 Hok1 [Hl1 Hc1].
    destruct (Z.leb_spec 0 n) as [Hn|]; [|destruct (n =? -1); [by split|done]].
    eapply lexes_bind; [apply reads1_read_long_string; [done|done|by rewrite Hc1]|]. cbv beta. intros ts ls2 Hok2 Hl2.
    split; [done|lia]. }
  do 4 (destruct (_ =? _);
        [eapply reads1_token, reads1_bind; [by apply reads1_or_equal|]; intros; by apply reads_ret|]).
  destruct (_ || _).
  { eapply reads1_token, reads1_bind; [by apply reads1_read_string|]. intros; by apply reads_ret. }
  destruct (current ls =? chr ".").
  { eapply reads1_token, reads1_bind; [by apply reads1_save_and_next|]. intros _ ls1 Hok1 Hl1.
    eapply reads_bind; [apply reads_check_next; [done|vm_compute; set_solver]|]. intros [] ls2 Hok2 _.
    - eapply reads_bind; [apply reads_check_next; [done|vm_compute; set_solver]|]. intros; by apply reads_ret.
    - apply lexes_get. destruct (isdigit (current ls2)) eqn:Ed; cbn [negb]; [|by apply reads_ret].
      eapply reads_bind; [apply reads1_reads, reads1_read_numeral; [done|by apply isdigit_eoz]|].
      intros; by apply reads_ret. }
  destruct (Z.eqb_spec (current ls) EOZ); [done|].
  destruct (isspace (current ls)).
  { eapply token_after; [by apply reads1_next|]. intros _ ls1 Hok1 Hl1. by apply Hrec. }
  destruct (isdigit (current ls)).
  { eapply reads1_token, reads1_bind; [by apply reads1_read_numeral|]. intros; by apply reads_ret. }
  destruct (_ || _); [by apply reads1_token, reads1_read_name|].
  eapply reads1_token, reads1_bind; [by apply reads1_next|]. intros; by apply reads_ret.
Qed.

(** the analyser reads characters for a token, unless it is at the end *)
Lemma glex_token si ls : lex_ok ls -> reads_token (glex strtod strtoul16 locale_point si) ls.
Proof.
  intros Hok. unfold glex, gafqZ_resetbuffer. apply lexes_modify, lexes_get.
  apply (reads_glex_loop _ si (with_buff ls [] (buffsize ls)) Hok).
  pose proof (lex_fuel_left (with_buff ls [] (buffsize ls))). simpl in *. lia.
Qed.

(** C28: the analyser terminates on every input: it returns a token or reports a
    syntax error, and never asks the stream for a character after the end mark;
    the input that is left does not grow *)
Theorem glex_total si ls :
  lex_ok ls ->
  match glex strtod strtoul16 locale_point si ls with
  | Ok (_, ls') => lex_ok ls' /\ (length (rest ls') <= length (rest ls))%nat
  | Err e => exists msg unread, e = SyntaxError msg unread
  end.
Proof.
  intros Hok. pose proof (glex_token si ls Hok) as H. unfold reads_token, lexes in H.
  destruct (glex _ _ _ si ls) as [[a ls']|[]]; try done; [tauto|eauto].
Qed.

End Total.

(** ** The tokens of the state

    Reading characters leaves the current token and the look-ahead alone. *)

Definition token_frame {A} (m : lex A) : Prop :=
  forall ls a ls', m ls = Ok (a, ls') -> ls_t ls' = ls_t ls /\ ls_lookahead ls' = ls_lookahead ls.

Create HintDb frame.

Lemma frame_bind {A B} (m : lex A) (f : A -> lex B) : token_frame m -> (forall a, token_frame (f a)) -> token_frame (m ≫= f).
Proof.
  intros Hm Hf ls b ls'. unfold mbind, stres_bind. destruct (m ls) as [[a ls1]|] eqn:E; [|done]. intros E2.
  destruct (Hm _ _ _ E) as [E1 El1]. destruct (Hf _ _ _ _ E2) as [-> ->]. by split.
Qed.

Lemma frame_ret {A} (a : A) : token_frame (mret a).
Proof. by intros ls b ls' [= <- <-]. Qed.

Lemma frame_gets {A} (f : LexState -> A) : token_frame (gets f).
Proof. by intros ls b ls' [= <- <-]. Qed.

Lemma frame_error {A} e : token_frame (raise e : lex A).
Proof. done. Qed.

Lemma frame_next : token_frame next.
Proof. intros ls a ls'. unfold next. destruct (_ =? _); [done|]. destruct (zgetc _). by intros [= <- <-]. Qed.

(** splits a computation into the steps that the hints know *)
Ltac frame :=
  repeat (intros;
    match goal with
    | |- token_frame (_ ≫= _) => apply frame_bind
    | |- token_frame (modify _) => by intros ? ? ? [= <- <-]
    | |- token_frame (if ?b then _ else _) => destruct b
    | |- token_frame (match ?x with _ => _ end) => destruct x
    | |- token_frame _ => solve [auto with frame]
    end).

#[export] Hint Resolve frame_ret frame_gets frame_error frame_next : frame.
Lemma frame_lexerror {A} msg tk : token_frame (gafqX_lexerror msg tk : lex A).
Proof. intros ls a ls'. by destruct (@lexerror_raises A msg tk ls) as (m & u & ->). Qed.

Lemma frame_syntaxerror {A} msg : token_frame (gafqX_syntaxerror msg : lex A).
Proof. intros ls a ls'. exact (frame_lexerror msg (token (ls_t ls)) ls a ls'). Qed.

#[export] Hint Resolve frame_lexerror frame_syntaxerror : frame.
#[export] Hint Extern 1 (token_frame (lexerror0 _)) => done : frame.
#[export] Hint Extern 1 (token_frame lex_fuel) => apply frame_gets : frame.

Lemma frame_save c : token_frame (save c).
Proof. unfold save. frame. Qed.
#[export] Hint Resolve frame_save : frame.

Lemma frame_save_and_next : token_frame save_and_next.
Proof. unfold save_and_next. frame. Qed.
#[export] Hint Resolve frame_save_and_next : frame.

Lemma frame_inclinenumber : token_frame inclinenumber.
Proof. unfold inclinenumber. frame. Qed.
#[export] Hint Resolve frame_inclinenumber : frame.

Lemma frame_check_next set : token_frame (check_next set).
Proof. unfold check_next. frame. Qed.
#[export] Hint Resolve frame_check_next : frame.

Lemma frame_save_while fuel p : token_frame (save_while fuel p).
Proof. induction fuel; cbn [save_while]; frame. Qed.
#[export] Hint Resolve frame_save_while : frame.

Lemma frame_skip_while fuel p : token_frame (skip_while fuel p).
Proof. induction fuel; cbn [skip_while]; frame. Qed.
#[export] Hint Resolve frame_skip_while : frame.

Lemma frame_skip_sep : token_frame skip_sep.
Proof. unfold skip_sep. frame. Qed.
#[export] Hint Resolve frame_skip_sep : frame.

Lemma frame_resetbuffer : token_frame gafqZ_resetbuffer.
Proof. unfold gafqZ_resetbuffer. frame. Qed.
#[export] Hint Resolve frame_resetbuffer : frame.

Lemma frame_read_long_string issem sep : token_frame (read_long_string issem sep).
Proof.
  unfold read_long_string. frame. clear. revert issem sep. induction a2 as [|fuel IH]; intros; cbn [long_string_loop]; frame.
Qed.
#[export] Hint Resolve frame_read_long_string : frame.

Lemma frame_read_decimal i c : token_frame (read_decimal i c).
Proof. revert c. induction i; intros c; cbn [read_decimal]; frame. Qed.
#[export] Hint Resolve frame_read_decimal : frame.

Lemma frame_read_escape : token_frame read_escape.
Proof. unfold read_escape. frame. Qed.
#[export] Hint Resolve frame_read_escape : frame.

Lemma frame_read_string_loop fuel del : token_frame (read_string_loop fuel del).
Proof. induction fuel; cbn [read_string_loop]; frame. Qed.
#[export] Hint Resolve frame_read_string_loop : frame.

Lemma frame_read_string del : token_frame (read_string del).
Proof. unfold read_string. frame. Qed.
#[export] Hint Resolve frame_read_string : frame.

Section Frame.

Context (strtod strtoul16 : bytes -> gafq_Number * Z) (locale_point : Z).

Lemma frame_read_numeral : token_frame (read_numeral strtod strtoul16 locale_point).
Proof. unfold read_numeral, trydecpoint, buffreplace. frame. Qed.

Lemma frame_glex si : token_frame (glex strtod strtoul16 locale_point si).
Proof.
  pose proof frame_read_numeral. unfold glex. apply frame_bind; [auto with frame|]. intros _.
  apply frame_bind; [auto with frame|]. intros fuel. revert si. induction fuel as [|fuel IH]; intros si; cbn [glex_loop].
  { auto with frame. }
  unfold or_equal, read_comment, read_name. frame.
Qed.

(** what is left to read: characters and the tokens that were read *)
Definition left_over (ls : LexState) : nat :=
  (todo ls + (if (token (ls_lookahead ls) =? TK_EOS)%Z then 0 else 1) + (if (token (ls_t ls) =? TK_EOS)%Z then 0 else 1))%nat.

Lemma lexes_glex si ls : lex_ok ls ->
  lexes (glex strtod strtoul16 locale_point si) ls (fun r ls' => ls_t ls' = ls_t ls /\ ls_lookahead ls' = ls_lookahead ls /\
    (todo ls' <= todo ls)%nat /\ (r.1 <> TK_EOS -> (todo ls' < todo ls)%nat)).
Proof.
  intros Hok. pose proof (glex_token strtod strtoul16 locale_point si ls Hok) as H. unfold reads_token, lexes in *.
  destruct (glex _ _ _ si ls) as [[r ls']|] eqn:E; [|done]. destruct (frame_glex si _ _ _ E). tauto.
Qed.

(** taking a token leaves less, looking ahead not more *)
Lemma next_reads ls : lex_ok ls ->
  lexes (gafqX_next strtod strtoul16 locale_point) ls (fun _ ls' =>
    (left_over ls' <= left_over ls)%nat /\ (token (ls_t ls) <> TK_EOS -> (left_over ls' < left_over ls)%nat)).
Proof.
  intros Hok. unfold gafqX_next. apply lexes_modify, lexes_get. cbn [with_tokens ls_lookahead ls_t].
  destruct (Z.eqb_spec (token (ls_lookahead ls)) TK_EOS) as [El|El]; cbn [negb].
  - apply lexes_get. cbn [ls_t]. eapply lexes_bind; [by apply lexes_glex|]. cbv beta. intros [tk si] ls1 Hok1 (Et & El1 & Hl & Hs).
    split; [exact Hok1|]. cbn [ls_t ls_lookahead fst] in *. unfold left_over. cbn [with_tokens ls_t ls_lookahead token]. cbn [with_tokens ls_lookahead] in El1. rewrite El1, El.
    change (todo (with_tokens ls1 _ _ _)) with (todo ls1). rewrite Z.eqb_refl.
    change (todo (with_tokens ls _ _ _)) with (todo ls) in *.
    destruct (Z.eqb_spec tk TK_EOS), (Z.eqb_spec (token (ls_t ls)) TK_EOS); try (specialize (Hs ltac:(assumption))); lia.
  - split; [exact Hok|]. unfold left_over. cbn [with_tokens ls_t ls_lookahead token]. rewrite Z.eqb_refl.
    change (todo (with_tokens _ _ _ _)) with (todo ls).
    destruct (Z.eqb_spec (token (ls_lookahead ls)) TK_EOS); [done|]. destruct (Z.eqb_spec (token (ls_t ls)) TK_EOS); lia.
Qed.

Lemma lookahead_reads ls : lex_ok ls ->
  lexes (gafqX_lookahead strtod strtoul16 locale_point) ls (fun _ ls' =>
    (left_over ls' <= left_over ls)%nat /\ ls_t ls' = ls_t ls).
Proof.
  intros Hok. unfold gafqX_lookahead. apply lexes_get. eapply lexes_bind; [by apply lexes_glex|].
  cbv beta. intros [tk si] ls1 Hok1 (Et & El1 & Hl & Hs). split; [exact Hok1|]. cbn [fst] in *. split; [|exact Et].
  unfold left_over. cbn [with_tokens ls_t ls_lookahead token]. rewrite Et. change (todo (with_tokens _ _ _ _)) with (todo ls1).
  destruct (Z.eqb_spec tk TK_EOS), (Z.eqb_spec (token (ls_lookahead ls)) TK_EOS); try (specialize (Hs ltac:(assumption))); lia.
Qed.

End Frame.

(** ** Reading a quoted string back *)

(** the analyser has [r] to read, [b] in its buffer and is in line [n] *)
Record at_ (r b : bytes) (n : Z) (ls : LexState) : Prop := {
  at_ok : lex_ok ls;
  at_rest : rest ls = r;
  at_buff : ls_buff ls = b;
  at_size : zlen b <= buffsize ls < 2 ^ 62 /\ 0 < buffsize ls;
  at_line : linenumber ls = n
}.

(** [m] goes from [at_ r b n] to [at_ r' b' n'] with the result [a] *)
Definition goes {A} (m : lex A) (r b : bytes) (n : Z) (a : A) (r' b' : bytes) (n' : Z) : Prop :=
  forall ls, at_ r b n ls -> exists ls', m ls = Ok (a, ls') /\ at_ r' b' n' ls'.

Lemma goes_bind {A B} (m : lex A) (f : A -> lex B) r b n a r1 b1 n1 v r2 b2 n2 :
  goes m r b n a r1 b1 n1 -> goes (f a) r1 b1 n1 v r2 b2 n2 -> goes (m ≫= f) r b n v r2 b2 n2.
Proof.
  intros Hm Hf ls H. destruct (Hm ls H) as (ls1 & E1 & H1). destruct (Hf ls1 H1) as (ls2 & E2 & H2).
  exists ls2. split; [|done]. unfold mbind, stres_bind. by rewrite E1.
Qed.

Lemma goes_ret {A} (a : A) r b n : goes (mret a) r b n a r b n.
Proof. intros ls H. by exists ls. Qed.

Lemma goes_next c r b n : goes next (c :: r) b n tt r b n.
Proof.
  intros ls [Hok Hr Hb Hs Hn]. destruct (rest_current _ _ _ Hr) as [Hc Hne].
  destruct (next_ok ls Hok Hne) as (ls' & E & Hok' & Er & Ew). exists ls'. split; [done|].
  rewrite Hr in Er. injection Er as _ Er. split; [done|by rewrite Er|by rewrite Ew|by rewrite Ew|by rewrite Ew].
Qed.

(** reading the current character *)
Lemma goes_current {A} (f : Z -> lex A) c r b n v r' b' n' :
  goes (f c) (c :: r) b n v r' b' n' -> goes (gets current ≫= f) (c :: r) b n v r' b' n'.
Proof.
  intros H ls Hat. destruct (rest_current _ _ _ (at_rest _ _ _ _ Hat)) as [Hc _].
  unfold mbind, stres_bind, gets. rewrite Hc. by apply H.
Qed.

Lemma goes_save c r b n : is_byte c -> zlen b < 2 ^ 61 -> goes (save c) r b n tt r (b ++ [c]) n.
Proof.
  intros Hc Hz ls [Hok Hr Hb [Hs Hp] Hn]. unfold save, mbind, stres_bind, gets, id. rewrite u8_id, Hb by done.
  assert (zlen (b ++ [c]) = zlen b + 1) as Ez by (unfold zlen; rewrite length_app; simpl; lia).
  destruct (Z.ltb_spec (buffsize ls) (zlen b + 1)).
  - destruct (Z.leb_spec (MAX_SIZET / 2) (buffsize ls)) as [Hm|_].
    { change (MAX_SIZET / 2) with 9223372036854775806 in Hm. change (2 ^ 62) with 4611686018427387904 in *. lia. }
    eexists. split; [done|]. split; try done; simpl; [by rewrite Hb|]. rewrite Ez.
    change (2 ^ 61) with 2305843009213693952 in *. change (2 ^ 62) with 4611686018427387904 in *. lia.
  - eexists. split; [done|]. split; try done; simpl; [by rewrite Hb|]. rewrite Ez. lia.
Qed.

Lemma goes_save_and_next c r b n :
  is_byte c -> zlen b < 2 ^ 61 -> goes save_and_next (c :: r) b n tt r (b ++ [c]) n.
Proof.
  intros Hc Hz. unfold save_and_next. apply goes_current.
  eapply goes_bind; [by apply goes_save|]. apply goes_next.
Qed.

(** a newline not followed by the other newline character *)
Lemma goes_inclinenumber c d r b n :
  is_newline d = false -> n + 1 < MAX_INT -> goes inclinenumber (c :: d :: r) b n tt (d :: r) b (n + 1).
Proof.
  intros Hd Hn. unfold inclinenumber. apply goes_current.
  eapply goes_bind; [apply goes_next|]. intros ls Hat.
  destruct (rest_current _ _ _ (at_rest _ _ _ _ Hat)) as [Hc _].
  unfold mbind, stres_bind, gets, id, modify, mret, stres_ret, currIsNewline. rewrite Hc, Hd. cbn [andb].
  destruct Hat as [Hok Hr Hb Hs Hl]. simpl. rewrite Hl. destruct (Z.leb_spec MAX_INT (n + 1)); [lia|].
  eexists. split; [done|]. by split.
Qed.

(** what [addquoted] writes for a character *)
Definition quote (c : Z) : bytes :=
  if (c =? 34) || (c =? 92) || (c =? 10) then [92; c]
  else if c =? 13 then [92; chr "r"]
  else if c =? 0 then [92; chr "0"; chr "0"; chr "0"]
  else [c].

Definition escaped (s : bytes) : bytes := concat (map quote s).

Lemma addquoted_quoted s b : addquoted s b = b ++ [34] ++ escaped s ++ [34].
Proof.
  unfold addquoted. assert (forall b, addquoted_loop s b = b ++ escaped s) as H.
  { induction s as [|c s IH]; intros b'; simpl; [by rewrite app_nil_r|]. rewrite IH. unfold escaped, quote. simpl.
    rewrite app_assoc. f_equal.
    destruct (_ || _); [done|]. destruct (c =? 13); [done|]. by destruct (c =? 0). }
  rewrite H. by rewrite <- !app_assoc.
Qed.

(** a quoted string goes on with a character that is no newline *)
Lemma quoted_head s tail :
  Forall is_byte s -> exists d r, escaped s ++ 34 :: tail = d :: r /\ is_newline d = false.
Proof.
  intros Hs. destruct s as [|c s]; [by eexists _, _|]. unfold escaped. simpl. unfold quote.
  destruct ((c =? 34) || (c =? 92) || (c =? 10)) eqn:E1; [by eexists _, _|].
  destruct (Z.eqb_spec c 13) as [|E2]; [by eexists _, _|]. destruct (Z.eqb_spec c 0); [by eexists _, _|].
  eexists _, _. split; [done|]. apply orb_false_iff in E1 as [_ E1]. unfold is_newline. rewrite E1. simpl.
  by apply Z.eqb_neq.
Qed.

(** number of newlines *)
Fixpoint newlines (s : bytes) : Z :=
  match s with [] => 0 | c :: s => (if decide (c = 10) then 1 else 0) + newlines s end.

Lemma newlines_cons c s : newlines (c :: s) = (if decide (c = 10) then 1 else 0) + newlines s.
Proof. done. Qed.

Lemma newlines_nonneg s : 0 <= newlines s.
Proof. induction s as [|c s IH]; [done|]. rewrite newlines_cons. case_decide; lia. Qed.

(** an escape sequence written by [addquoted] *)
Lemma goes_read_escape c s tail b n :
  Forall is_byte s -> is_byte c -> quote c <> [c] -> zlen b < 2 ^ 61 -> n + newlines [c] < MAX_INT ->
  goes read_escape (quote c ++ escaped s ++ 34 :: tail) b n tt (escaped s ++ 34 :: tail) (b ++ [c]) (n + newlines [c]).
Proof.
  intros Hs Hc Hq Hz Hn. destruct (quoted_head s tail Hs) as (d & r & Er & Hd). unfold quote in *.
  rewrite newlines_cons in *. change (newlines []) with 0 in *.
  destruct (Z.eqb_spec c 10) as [->|Hc10].
  { simpl. rewrite decide_True in * by done. unfold read_escape. eapply goes_bind; [apply goes_next|]. apply goes_current.
    simpl. eapply goes_bind; [by apply goes_save|]. rewrite Er. apply goes_inclinenumber; [done|lia]. }
  rewrite decide_False in * by done. rewrite !Z.add_0_r in *. rewrite orb_false_r in *.
  destruct (Z.eqb_spec c 34) as [->|_].
  { simpl. unfold read_escape. eapply goes_bind; [apply goes_next|]. apply goes_current. by apply goes_save_and_next. }
  destruct (Z.eqb_spec c 92) as [->|_].
  { simpl. unfold read_escape. eapply goes_bind; [apply goes_next|]. apply goes_current. by apply goes_save_and_next. }
  cbn [orb] in *. destruct (Z.eqb_spec c 13) as [->|_].
  { simpl. unfold read_escape. eapply goes_bind; [apply goes_next|]. apply goes_current. cbn.
    eapply goes_bind; [by apply goes_save|]. apply goes_next. }
  destruct (Z.eqb_spec c 0) as [->|_]; [|done].
  simpl. unfold read_escape. eapply goes_bind; [apply goes_next|]. apply goes_current. cbn.
  eapply goes_bind.
  - do 2 (apply goes_current; eapply goes_bind; [apply goes_next|]; apply goes_current; cbn).
    apply goes_current. eapply goes_bind; [apply goes_next|]. rewrite Er. apply goes_current. apply goes_ret.
  - cbn. rewrite <- Er. by apply goes_save.
Qed.

Lemma goes_read_string_loop s fuel tail b n :
  Forall is_byte s -> (length s < fuel)%nat -> zlen b + zlen s < 2 ^ 61 -> n + newlines s < MAX_INT ->
  goes (read_string_loop fuel 34) (escaped s ++ 34 :: tail) b n tt (34 :: tail) (b ++ s) (n + newlines s).
Proof.
  intros Hs. revert fuel b n. induction Hs as [|c s Hc Hs IH]; intros fuel b n Hf Hz Hn;
    (destruct fuel as [|fuel]; [simpl in Hf; lia|]); cbn [read_string_loop].
  { change (newlines []) with 0 in *. rewrite Z.add_0_r, app_nil_r. simpl. apply goes_current. apply goes_ret. }
  assert (zlen (c :: s) = 1 + zlen s /\ 0 <= zlen s) as [Ez Hz0] by (unfold zlen; simpl; lia).
  assert (0 <= newlines s) as Hn0 by apply newlines_nonneg.
  assert (newlines (c :: s) = newlines [c] + newlines s) as En
    by (rewrite !newlines_cons; change (newlines []) with 0; lia).
  assert (0 <= newlines [c]) as Hn1 by apply newlines_nonneg.
  replace (b ++ c :: s) with ((b ++ [c]) ++ s) by (by rewrite <- app_assoc).
  replace (n + newlines (c :: s)) with (n + newlines [c] + newlines s) by lia.
  assert (zlen (b ++ [c]) = zlen b + 1) as Ez2 by (unfold zlen; rewrite length_app; simpl; lia).
  specialize (IH fuel (b ++ [c]) (n + newlines [c]) ltac:(simpl in Hf; lia) ltac:(lia) ltac:(lia)).
  unfold escaped. cbn [map concat]. fold (escaped s). rewrite <- app_assoc.
  destruct (decide (quote c = [c])) as [Eq|Eq].
  - rewrite Eq. cbn [app]. apply goes_current.
    assert (c <> 34 /\ c <> 92 /\ c <> 10 /\ c <> 13) as (H1 & H2 & H3 & H4).
    { unfold quote in Eq. destruct (Z.eqb_spec c 34), (Z.eqb_spec c 92), (Z.eqb_spec c 10), (Z.eqb_spec c 13); done. }
    destruct (Z.eqb_spec c 34); [done|]. destruct (Z.eqb_spec c EOZ); [by apply byte_not_eoz in Hc|].
    assert (is_newline c = false) as -> by (unfold is_newline; by rewrite (proj2 (Z.eqb_neq c 10)), (proj2 (Z.eqb_neq c 13))).
    destruct (Z.eqb_spec c 92); [done|].
    assert (newlines [c] = 0) as E0 by (rewrite newlines_cons, decide_False by done; done).
    rewrite E0, Z.add_0_r in *. eapply goes_bind; [apply goes_save_and_next; [done|lia]|]. exact IH.
  - assert (exists q, quote c = 92 :: q) as [q E1].
    { revert Eq. unfold quote. destruct (_ || _); [by eexists|]. destruct (c =? 13); [by eexists|].
      destruct (c =? 0); [by eexists|done]. }
    rewrite E1. cbn [app]. apply goes_current. cbn [Z.eqb Pos.eqb orb is_newline EOZ].
    change (92 :: q ++ escaped s ++ 34 :: tail) with ((92 :: q) ++ escaped s ++ 34 :: tail). rewrite <- E1.
    eapply goes_bind; [|exact IH]. apply goes_read_escape; try done; lia.
Qed.

Lemma inner_one s : inner 1 ([34] ++ s ++ [34]) = s.
Proof.
  unfold inner, zlen. rewrite !length_app. simpl. rewrite drop_0.
  replace (Z.to_nat _) with (length s) by lia. apply take_app_length.
Qed.

(** C7: a string written by the format "%q" is read back by the analyser as the
    same string, for every contents: quotes, backslashes, zeros, returns and
    newlines included; the text after it is left to read and the lines are counted *)
Theorem quoted_roundtrip strtod strtoul16 locale_point si ls s tail :
  lex_ok ls -> rest ls = addquoted s [] ++ tail -> Forall is_byte s -> zlen s < 2 ^ 60 ->
  0 < buffsize ls < 2 ^ 62 -> linenumber ls + newlines s < MAX_INT ->
  exists ls', glex strtod strtoul16 locale_point si ls = Ok ((TK_STRING, SString s), ls') /\
    lex_ok ls' /\ rest ls' = tail /\ linenumber ls' = linenumber ls + newlines s.
Proof.
  intros Hok Hr Hs Hz Hb Hn. rewrite addquoted_quoted in Hr. simpl in Hr. rewrite <- app_assoc in Hr. simpl in Hr.
  set (n := linenumber ls) in *.
  assert (at_ (34 :: escaped s ++ 34 :: tail) [] n (with_buff ls [] (buffsize ls))) as Hat.
  { split; try done. simpl. split; [|lia]. unfold zlen. simpl. lia. }
  change (2 ^ 60) with 1152921504606846976 in Hz.
  assert (zlen ([34] : bytes) = 1 /\ 0 <= zlen s) as [Hz1 Hz0] by (unfold zlen; simpl; lia).
  assert (goes (read_string 34) (34 :: escaped s ++ 34 :: tail) [] n s tail ([34] ++ s ++ [34]) (n + newlines s)) as H.
  { unfold read_string. eapply goes_bind; [by apply goes_save_and_next|].
    intros ls1 Hat1. unfold mbind at 1, stres_bind at 1, lex_fuel, gets at 1.
    assert (length s < S (S (length (pending (ls_z ls1)))))%nat as Hf.
    { pose proof (lex_fuel_left ls1) as Hl. unfold todo in Hl. rewrite (at_rest _ _ _ _ Hat1) in Hl.
      assert (length s <= length (escaped s))%nat; [|rewrite length_app in Hl; simpl in *; lia].
      clear. induction s as [|c s IH]; [done|]. unfold escaped. simpl. rewrite length_app. fold (escaped s).
      assert (1 <= length (quote c))%nat; [|lia]. unfold quote.
      destruct (_ || _); [simpl; lia|]. destruct (c =? 13); [simpl; lia|]. destruct (c =? 0); simpl; lia. }
    assert (goes (_ ← read_string_loop (S (S (length (pending (ls_z ls1))))) 34;
                  _ ← save_and_next; gets (fun ls => inner 1 (ls_buff ls)))
              (escaped s ++ 34 :: tail) [34] n s tail ([34] ++ s ++ [34]) (n + newlines s)) as H; [|by apply H].
    change (2 ^ 61) with 2305843009213693952.
    eapply goes_bind; [apply goes_read_string_loop; [done|done| |done]|].
    { change (2 ^ 61) with 2305843009213693952. lia. }
    eapply goes_bind.
    { apply goes_save_and_next; [done|]. change (2 ^ 61) with 2305843009213693952. unfold zlen in *.
      rewrite length_app. simpl. lia. }
    intros ls2 Hat2. exists ls2. split; [|by rewrite <- app_assoc in Hat2].
    unfold gets. rewrite (at_buff _ _ _ _ Hat2), <- app_assoc. by rewrite inner_one. }
  destruct (H _ Hat) as (ls' & E & Hat'). exists ls'. split; [|split; [apply Hat'|split; apply Hat']].
  unfold glex, gafqZ_resetbuffer. unfold mbind at 1, stres_bind at 1, modify. unfold mbind at 1, stres_bind at 1, lex_fuel, gets at 1.
  cbn [glex_loop]. destruct (rest_current _ _ _ (at_rest _ _ _ _ Hat)) as [Hc _].
  revert E Hc. generalize (with_buff ls [] (buffsize ls)) as ls0. intros ls0 E Hc.
  transitivity ((ts ← read_string 34; mret (TK_STRING, SString ts)) ls0).
  - unfold mbind, stres_bind, gets at 1. rewrite Hc. reflexivity.
  - unfold mbind, stres_bind. by rewrite E.
Qed.

(** ** Names *)

Lemma reserved_from_spec words s i :
  (exists k, words !! k = Some s /\ reserved_from i words s = i + Z.of_nat k + 1) \/
  ((s ∉ words) /\ reserved_from i words s = 0).
Proof.
  revert i. induction words as [|w words IH]; intros i; cbn [reserved_from].
  - right. split; [apply not_elem_of_nil|done].
  - case_bool_decide as E; [subst w; left; exists 0%nat; split; [done|lia]|].
    destruct (IH (i + 1)) as [(k & Hk & ->)|[Hn ->]].
    + left. exists (S k). split; [done|lia].
    + right. split; [|done]. rewrite not_elem_of_cons. by split.
Qed.

Lemma goes_save_while p w r fuel b n :
  Forall is_byte w -> Forall (fun c => p c = true) w ->
  (forall c r', r = c :: r' -> p c = false) -> p EOZ = false ->
  (length w < fuel)%nat -> zlen b + zlen w < 2 ^ 61 ->
  goes (save_while fuel p) (w ++ r) b n tt r (b ++ w) n.
Proof.
  intros Hw Hp Hr He. revert fuel b. induction w as [|c w IH]; intros fuel b Hf Hz;
    (destruct fuel as [|fuel]; [simpl in Hf; lia|]); cbn [save_while].
  - rewrite app_nil_r. simpl. destruct r as [|c r].
    + intros ls Hat. exists ls. split; [|done]. unfold mbind, stres_bind, gets.
      by rewrite (rest_nil _ (at_rest _ _ _ _ Hat)), He.
    + apply goes_current. rewrite (Hr c r) by done. apply goes_ret.
  - apply Forall_cons in Hw as [Hc Hw]. apply Forall_cons in Hp as [Hpc Hp]. cbn [app]. apply goes_current. rewrite Hpc.
    assert (zlen (c :: w) = 1 + zlen w /\ 0 <= zlen w) as [Ez Hz0] by (unfold zlen; simpl; lia).
    eapply goes_bind; [apply goes_save_and_next; [done|lia]|].
    replace (b ++ c :: w) with ((b ++ [c]) ++ w) by (by rewrite <- app_assoc).
    apply IH; [done|done|simpl in Hf; lia|]. unfold zlen in *. rewrite length_app. simpl. lia.
Qed.

Lemma alpha_byte c : isalpha c || (c =? chr "_") = true -> is_byte c /\ name_char c = true.
Proof.
  intros H. split.
  - revert H. unfold isalpha, isupper, islower, in_range, is_byte. change (chr "A") with 65. change (chr "Z") with 90.
    change (chr "a") with 97. change (chr "z") with 122. change (chr "_") with 95. zbool; simpl; intros; try done; lia.
  - unfold name_char, isalnum. apply orb_true_iff in H as [->| ->]; [done|]. by rewrite orb_true_r.
Qed.

(** a letter or underscore is none of the characters [glex] tests before *)
Lemma alpha_tests c :
  isalpha c || (c =? chr "_") = true ->
  is_newline c = false /\ (c =? chr "-") = false /\ (c =? chr "[") = false /\ (c =? chr "=") = false /\
  (c =? chr "<") = false /\ (c =? chr ">") = false /\ (c =? chr "~") = false /\ ((c =? 34) || (c =? 39)) = false /\
  (c =? chr ".") = false /\ (c =? EOZ) = false /\ isspace c = false /\ isdigit c = false.
Proof.
  intros H. assert (65 <= c <= 90 \/ 97 <= c <= 122 \/ c = 95) as Hr.
  { revert H. unfold isalpha, isupper, islower, in_range. change (chr "A") with 65. change (chr "Z") with 90.
    change (chr "a") with 97. change (chr "z") with 122. change (chr "_") with 95. zbool; simpl; intros; try done; lia. }
  clear H. unfold is_newline, isspace, isdigit, in_range, EOZ. rewrite !orb_false_iff, !andb_false_iff.
  change (chr "-") with 45. change (chr "[") with 91. change (chr "=") with 61. change (chr "<") with 60.
  change (chr ">") with 62. change (chr "~") with 126. change (chr ".") with 46. change (chr "0") with 48.
  change (chr "9") with 57. rewrite !Z.eqb_neq, !Z.leb_gt. lia.
Qed.

(** the longest sequence of letters, digits and underscores that starts with no
    digit is one token: the reserved word's when it is a reserved word, a name
    with this text otherwise *)
Theorem name_token strtod strtoul16 locale_point si ls c w tail :
  lex_ok ls -> rest ls = c :: w ++ tail -> isalpha c || (c =? chr "_") = true ->
  Forall is_byte w -> Forall (fun d => name_char d = true) w ->
  (forall d r, tail = d :: r -> name_char d = false) ->
  zlen w < 2 ^ 60 -> 0 < buffsize ls < 2 ^ 62 ->
  exists tk si' ls', glex strtod strtoul16 locale_point si ls = Ok ((tk, si'), ls') /\ lex_ok ls' /\ rest ls' = tail /\
    ((exists k, (k < 21)%nat /\ gafqX_tokens !! k = Some (c :: w) /\ tk = FIRST_RESERVED + Z.of_nat k /\ si' = si) \/
     (((c :: w) ∉ take 21 gafqX_tokens) /\ tk = TK_NAME /\ si' = SString (c :: w))).
Proof.
  intros Hok Hr Ha Hw Hp Ht Hz Hb. destruct (alpha_byte c Ha) as [Hc _]. change (2 ^ 60) with 1152921504606846976 in Hz.
  set (n := linenumber ls).
  assert (at_ (c :: w ++ tail) [] n (with_buff ls [] (buffsize ls))) as Hat.
  { split; try done. simpl. split; [|lia]. unfold zlen. simpl. lia. }
  set (v := if 0 <? reserved (c :: w) then (reserved (c :: w) - 1 + FIRST_RESERVED, si) else (TK_NAME, SString (c :: w))).
  assert (goes (read_name si) (c :: w ++ tail) [] n v tail (c :: w) n) as H.
  { unfold read_name. eapply goes_bind; [by apply goes_save_and_next|].
    intros ls1 Hat1. unfold mbind at 1, stres_bind at 1, lex_fuel, gets at 1.
    assert (goes (_ ← save_while (S (S (length (pending (ls_z ls1))))) name_char;
                  ts ← gets ls_buff;
                  mret (if 0 <? reserved ts then (reserved ts - 1 + FIRST_RESERVED, si) else (TK_NAME, SString ts)))
              (w ++ tail) [c] n v tail (c :: w) n) as H; [|by apply H].
    eapply goes_bind; [apply goes_save_while; try done|].
    - pose proof (lex_fuel_left ls1) as Hl. unfold todo in Hl. rewrite (at_rest _ _ _ _ Hat1), length_app in Hl. lia.
    - change (2 ^ 61) with 2305843009213693952. unfold zlen in *. simpl. lia.
    - intros ls2 Hat2. exists ls2. split; [|done]. unfold mbind, stres_bind, gets.
      by rewrite (at_buff _ _ _ _ Hat2). }
  destruct (H _ Hat) as (ls' & E & Hat'). exists v.1, v.2, ls'.
  split; [|split; [apply Hat'|split; [apply Hat'|]]].
  - rewrite <- surjective_pairing. rewrite <- E.
    destruct (rest_current _ _ _ (at_rest _ _ _ _ Hat)) as [Hcur _].
    unfold glex, gafqZ_resetbuffer. unfold mbind at 1, stres_bind at 1, modify.
    unfold mbind at 1, stres_bind at 1, lex_fuel, gets at 1.
    revert Hcur. generalize (with_buff ls [] (buffsize ls)) as ls0. intros ls0 Hcur. cbn [glex_loop].
    unfold mbind at 1, stres_bind at 1, gets at 1. rewrite Hcur.
    destruct (alpha_tests c Ha) as (-> & -> & -> & -> & -> & -> & -> & -> & -> & -> & -> & ->). by rewrite Ha.
  - unfold v, reserved. change (Z.to_nat NUM_RESERVED) with 21%nat.
    destruct (reserved_from_spec (take 21 gafqX_tokens) (c :: w) 0) as [(k & Hk & ->)|[Hn ->]].
    + left. exists k. apply lookup_take_Some in Hk as [Hk Hlt]. destruct (Z.ltb_spec 0 (0 + Z.of_nat k + 1)); [|lia].
      simpl. split; [done|]. split; [done|]. split; [lia|done].
    + right. by split.
Qed.

(** ** Look-ahead *)

(** looking ahead keeps the current token, and the next call of [gafqX_next]
    delivers exactly the token seen, without reading further, and empties the
    look-ahead *)
Theorem lookahead_next strtod strtoul16 locale_point ls ls1 :
  gafqX_lookahead strtod strtoul16 locale_point ls = Ok (tt, ls1) -> token (ls_lookahead ls1) <> TK_EOS ->
  exists ls2 tk si ls0, glex strtod strtoul16 locale_point (seminfo (ls_lookahead ls)) ls = Ok ((tk, si), ls0) /\
    ls_t ls1 = ls_t ls0 /\
    gafqX_next strtod strtoul16 locale_point ls1 = Ok (tt, ls2) /\
    ls_t ls2 = mkToken tk si /\ token (ls_lookahead ls2) = TK_EOS /\
    rest ls2 = rest ls0 /\ linenumber ls2 = linenumber ls0.
Proof.
  unfold gafqX_lookahead, mbind, stres_bind, gets at 1. intros E Hne.
  destruct (glex _ _ _ _ ls) as [[[tk si] ls0]|]; [|done]. injection E as <-. simpl in Hne.
  eexists _, tk, si, ls0. split; [done|]. split; [done|]. unfold gafqX_next, mbind, stres_bind, modify at 1, gets at 1.
  simpl. destruct (Z.eqb_spec tk TK_EOS); [done|]. by split.
Qed.

(** ** Examples *)

(** an analyser at the start of a text that comes in one block *)
Definition ex_lex (s : bytes) : LexState :=
  gafqX_setinput (gafqZ_init [s]) (mkLS 0 0 0 (mkToken 0 SNone) (mkToken 0 SNone) (gafqZ_init []) [] 0 0).

(** [check_next] takes a zero byte for one of the characters of its set: a dot
    followed by two zero bytes is read as "..." *)
Theorem zero_read_as_dot strtod strtoul16 locale_point :
  exists ls', glex strtod strtoul16 locale_point SNone (ex_lex [46; 0; 0]) = Ok ((TK_DOTS, SNone), ls').
Proof. eexists. vm_compute. reflexivity. Qed.

Definition ex_strtod (s : bytes) : gafq_Number * Z := (cast_num 0, 0).

Lemma ex_lex_ok s : s <> [] -> Forall is_byte s -> zlen s < SIZE_MOD -> lex_ok (ex_lex s) /\ rest (ex_lex s) = s.
Proof.
  intros Hne Hs Hz. destruct (zok_init [s]) as [Hok Hp]; [by repeat constructor|by repeat constructor|].
  pose proof (zgetc_spec _ Hok) as H. rewrite Hp in H. unfold ex_lex, gafqX_setinput.
  rewrite (surjective_pairing (zgetc _)). unfold bytes in *.
  destruct s as [|d s]; [done|]. cbn [stream] in H. cbn [app] in H. rewrite app_nil_r in H. destruct H as (E & Hd & Hz' & Hr).
  split; [right; cbn [current ls_z]; rewrite E; exact (conj Hd Hz')|].
  rewrite rest_cons by (cbn [current]; rewrite E; by apply byte_not_eoz). cbn [current ls_z]. by rewrite E, Hr.
Qed.

Lemma glex_total_witness :
  exists msg unread, glex ex_strtod ex_strtod (chr ".") SNone (ex_lex (str "[==x")) = Err (SyntaxError msg unread).
Proof.
  destruct (ex_lex_ok (str "[==x")) as [Hok _]; [discriminate|repeat constructor; vm_compute; congruence|reflexivity|].
  pose proof (glex_total ex_strtod ex_strtod (chr ".") SNone _ Hok) as H.
  assert (exists e, glex ex_strtod ex_strtod (chr ".") SNone (ex_lex (str "[==x")) = Err e) as [e E]
    by (eexists; vm_compute; reflexivity).
  rewrite E in H. destruct H as (msg & unread & ->). exists msg, unread. exact E.
Defined.

Lemma quoted_roundtrip_witness :
  exists ls', glex ex_strtod ex_strtod (chr ".") SNone (ex_lex (addquoted [97; 10; 0; 34; 13] [] ++ [59])) =
    Ok ((TK_STRING, SString [97; 10; 0; 34; 13]), ls') /\ rest ls' = [59].
Proof.
  destruct (ex_lex_ok (addquoted [97; 10; 0; 34; 13] [] ++ [59])) as [Hok Hr];
    [discriminate|repeat constructor; vm_compute; congruence|reflexivity|].
  destruct (quoted_roundtrip ex_strtod ex_strtod (chr ".") SNone _ [97; 10; 0; 34; 13] [59] Hok Hr)
    as (ls' & E & _ & Hr' & _).
  - repeat constructor; vm_compute; congruence.
  - reflexivity.
  - vm_compute. split; congruence.
  - vm_compute. reflexivity.
  - exists ls'. split; [exact E|exact Hr'].
Defined.

Lemma name_token_witness :
  exists tk si' ls', glex ex_strtod ex_strtod (chr ".") SNone (ex_lex (str "while x")) = Ok ((tk, si'), ls') /\
    rest ls' = str " x" /\ tk = TK_WHILE.
Proof.
  destruct (ex_lex_ok (str "while x")) as [Hok Hr]; [discriminate|repeat constructor; vm_compute; congruence|reflexivity|].
  destruct (name_token ex_strtod ex_strtod (chr ".") SNone _ (chr "w") (str "hile") (str " x") Hok Hr)
    as (tk & si' & ls' & E & _ & Hr' & H).
  - reflexivity.
  - repeat constructor; vm_compute; congruence.
  - repeat constructor.
  - intros d r [=<- _]. reflexivity.
  - reflexivity.
  - vm_compute. split; congruence.
  - exists tk, si', ls'. split; [exact E|]. split; [exact Hr'|].
    vm_compute in E. injection E as <- _ _. reflexivity.
Defined.

Lemma lookahead_next_witness :
  exists ls1 ls2, gafqX_lookahead ex_strtod ex_strtod (chr ".") (ex_lex (str "x=1")) = Ok (tt, ls1) /\
    gafqX_next ex_strtod ex_strtod (chr ".") ls1 = Ok (tt, ls2) /\ token (ls_t ls2) = TK_NAME.
Proof.
  assert (exists ls1, gafqX_lookahead ex_strtod ex_strtod (chr ".") (ex_lex (str "x=1")) = Ok (tt, ls1) /\
            token (ls_lookahead ls1) = TK_NAME) as (ls1 & E & Ht) by (eexists; vm_compute; split; reflexivity).
  destruct (lookahead_next ex_strtod ex_strtod (chr ".") (ex_lex (str "x=1")) ls1 E)
    as (ls2 & tk & si & ls0 & Eg & _ & En & Et & _); [rewrite Ht; discriminate|].
  exists ls1, ls2. split; [exact E|]. split; [exact En|]. rewrite Et. vm_compute in Eg. injection Eg as <- _ _. reflexivity.
Defined.
