(* ===== verification/Parser.v ===== *)
(** * The parser: gparser.c

    A recursive-descent parser that drives the lexical analyser (Lexer.v) and the code
    generator (Code.v) in one pass.  Its state is the lexical state, the functions being
    compiled ([ls->fs] first, then its [prev]) and the number of syntax levels
    ([L->nCcalls]).  A name is the contents of a string; [ts_addr] is the address of the
    interned string with given contents and [ts_contents] its inverse, [ts_hash] its
    hash.  [h_address] is the address of [fs->h], which is only a key of that table.

    [chunk] and [subexpr] call each other; both begin with [enterlevel], which fails at
    [GAFQI_MAXCCALLS] levels, so that this number bounds the depth of the recursion.  The
    loops of the grammar read a token in every round and are bounded by the input. *)

From S2P Require Import Prelude Number Object Opcodes Table TableInv TableClass Code Zio Proto CheckCode Lexer.

(** the other members of [enum RESERVED] *)
Definition TK_BREAK : Z := FIRST_RESERVED + 1.
Definition TK_DO : Z := FIRST_RESERVED + 2.
Definition TK_ELSE : Z := FIRST_RESERVED + 3.
Definition TK_ELSEIF : Z := FIRST_RESERVED + 4.
Definition TK_END : Z := FIRST_RESERVED + 5.
Definition TK_FALSE : Z := FIRST_RESERVED + 6.
Definition TK_FOR : Z := FIRST_RESERVED + 7.
Definition TK_FUNCTION : Z := FIRST_RESERVED + 8.
Definition TK_IF : Z := FIRST_RESERVED + 9.
Definition TK_IN : Z := FIRST_RESERVED + 10.
Definition TK_LOCAL : Z := FIRST_RESERVED + 11.
Definition TK_NIL : Z := FIRST_RESERVED + 12.
Definition TK_NOT : Z := FIRST_RESERVED + 13.
Definition TK_OR : Z := FIRST_RESERVED + 14.
Definition TK_REPEAT : Z := FIRST_RESERVED + 15.
Definition TK_RETURN : Z := FIRST_RESERVED + 16.
Definition TK_THEN : Z := FIRST_RESERVED + 17.
Definition TK_TRUE : Z := FIRST_RESERVED + 18.
Definition TK_UNTIL : Z := FIRST_RESERVED + 19.

Definition GAFQI_MAXCCALLS : Z := 200.
Definition GAFQI_MAXVARS : Z := 200.
Definition GAFQI_MAXUPVALUES : Z := 60.
Definition SHRT_MAX : Z := 32767.

Record BlockCnt := mkBlock {
  breaklist : Z;
  bl_nactvar : Z;
  bl_upval : bool;
  isbreakable : bool
}.

Record upvaldesc := mkUpval { u_k : expkind; u_info : Z }.

Notation gen_state := (@FuncState Table).

(** [FuncState] with the fields of its [Proto] that the code generator does not use *)
Record FuncState := mkFunc {
  gen : gen_state;
  f_p : list Proto;   (* f->p[0 .. np) *)
  f_locvars : list LocVar;   (* f->locvars[0 .. nlocvars) *)
  f_upvalues : list bytes;   (* f->upvalues[0 .. f->nups) *)
  fs_upvalues : list upvaldesc;
  actvar : list Z;
  bl : list BlockCnt;   (* the chain of current blocks *)
  f_linedefined : Z;
  f_lastlinedefined : Z;
  f_numparams : Z;
  f_is_vararg : Z
}.

Definition set_gen (fs : FuncState) (x : gen_state) : FuncState :=
  mkFunc x (f_p fs) (f_locvars fs) (f_upvalues fs) (fs_upvalues fs) (actvar fs) (bl fs) (f_linedefined fs) (f_lastlinedefined fs) (f_numparams fs) (f_is_vararg fs).
Definition set_p (fs : FuncState) (x : list Proto) : FuncState :=
  mkFunc (gen fs) x (f_locvars fs) (f_upvalues fs) (fs_upvalues fs) (actvar fs) (bl fs) (f_linedefined fs) (f_lastlinedefined fs) (f_numparams fs) (f_is_vararg fs).
Definition set_locvars (fs : FuncState) (x : list LocVar) : FuncState :=
  mkFunc (gen fs) (f_p fs) x (f_upvalues fs) (fs_upvalues fs) (actvar fs) (bl fs) (f_linedefined fs) (f_lastlinedefined fs) (f_numparams fs) (f_is_vararg fs).
Definition set_upvalues (fs : FuncState) (x : list bytes) (y : list upvaldesc) : FuncState :=
  mkFunc (gen fs) (f_p fs) (f_locvars fs) x y (actvar fs) (bl fs) (f_linedefined fs) (f_lastlinedefined fs) (f_numparams fs) (f_is_vararg fs).
Definition set_actvar (fs : FuncState) (x : list Z) : FuncState :=
  mkFunc (gen fs) (f_p fs) (f_locvars fs) (f_upvalues fs) (fs_upvalues fs) x (bl fs) (f_linedefined fs) (f_lastlinedefined fs) (f_numparams fs) (f_is_vararg fs).
Definition set_bl (fs : FuncState) (x : list BlockCnt) : FuncState :=
  mkFunc (gen fs) (f_p fs) (f_locvars fs) (f_upvalues fs) (fs_upvalues fs) (actvar fs) x (f_linedefined fs) (f_lastlinedefined fs) (f_numparams fs) (f_is_vararg fs).
Definition set_lines (fs : FuncState) (x y : Z) : FuncState :=
  mkFunc (gen fs) (f_p fs) (f_locvars fs) (f_upvalues fs) (fs_upvalues fs) (actvar fs) (bl fs) x y (f_numparams fs) (f_is_vararg fs).
Definition set_numparams (fs : FuncState) (x : Z) : FuncState :=
  mkFunc (gen fs) (f_p fs) (f_locvars fs) (f_upvalues fs) (fs_upvalues fs) (actvar fs) (bl fs) (f_linedefined fs) (f_lastlinedefined fs) x (f_is_vararg fs).
Definition set_is_vararg (fs : FuncState) (x : Z) : FuncState :=
  mkFunc (gen fs) (f_p fs) (f_locvars fs) (f_upvalues fs) (fs_upvalues fs) (actvar fs) (bl fs) (f_linedefined fs) (f_lastlinedefined fs) (f_numparams fs) x.

(** [fs->nactvar], a [lu_byte] *)
Definition fs_nactvar (fs : FuncState) : Z := Code.nactvar (gen fs).

Definition gen_with_nactvar (g : gen_state) (x : Z) : gen_state :=
  mkFS (f_code g) (f_lineinfo g) (f_k g) (f_maxstacksize g) (fs_h g) (h_addr g) (Code.lastline g) (Code.pc g)
       (lasttarget g) (jpc g) (fs_freereg g) x.
Definition gen_with_lastline (g : gen_state) (x : Z) : gen_state :=
  mkFS (f_code g) (f_lineinfo g) (f_k g) (f_maxstacksize g) (fs_h g) (h_addr g) x (Code.pc g)
       (lasttarget g) (jpc g) (fs_freereg g) (Code.nactvar g).
Definition gen_with_h (g : gen_state) (x : Table) : gen_state :=
  mkFS (f_code g) (f_lineinfo g) (f_k g) (f_maxstacksize g) x (h_addr g) (Code.lastline g) (Code.pc g)
       (lasttarget g) (jpc g) (fs_freereg g) (Code.nactvar g).

Record PState := mkPS {
  p_ls : LexState;
  p_fs : list FuncState;
  p_nCcalls : Z
}.

Definition ps (A : Type) : Type := stres PState A.

(** ** Access to the state *)

(** [ls->fs]; there is one while a function is being compiled *)
Definition cur_fs : ps FuncState := fun s =>
  match p_fs s with fs :: _ => Ok (fs, s) | [] => Err Undefined end.

Definition on_fs (f : FuncState -> FuncState) : ps unit := fun s =>
  match p_fs s with
  | fs :: prev => Ok (tt, mkPS (p_ls s) (f fs :: prev) (p_nCcalls s))
  | [] => Err Undefined
  end.

Definition lexer {A} (m : lex A) : ps A := fun s =>
  match m (p_ls s) with
  | Ok (a, ls) => Ok (a, mkPS ls (p_fs s) (p_nCcalls s))
  | Err e => Err e
  end.

Definition gafqX_syntaxerror {A} (msg : string) : ps A := lexer (Lexer.gafqX_syntaxerror msg).

(** a part of the parser that works on the functions alone; [errorlimit] reports its error at
    the current line *)
Definition lift_limit {A} (m : res A) : ps A :=
  match m with
  | Err (SyntaxError msg _) => lexer (lexerror0 msg)
  | m => lift m
  end.

Definition get_gen {A} (f : gen_state -> A) : ps A := fs ← cur_fs; mret (f (gen fs)).

Definition set_freereg (r : gen_state -> Z) : ps unit :=
  on_fs (fun fs => set_gen fs (with_regs (gen fs) (f_maxstacksize (gen fs)) (r (gen fs)))).

Definition cur_token : ps Z := gets (fun s => token (ls_t (p_ls s))).
Definition cur_line : ps Z := gets (fun s => linenumber (p_ls s)).

(** ** Variables *)

Definition init_exp (k : expkind) (i : Z) : expdesc := mkExp k i 0 (cast_num 0) NO_JUMP NO_JUMP.

Definition hasmultret (e : expdesc) : bool := is_k e VCALL || is_k e VVARARG.

Definition errorlimit_msg (fs : FuncState) (limit : Z) (what : string) : error :=
  SyntaxError (text (
    (if f_linedefined fs =? 0 then str "main function has more than "
     else str "function at line " ++ int_str (f_linedefined fs) ++ str " has more than ")
    ++ int_str limit ++ str " " ++ str what)) 0.

(** [gafqY_checklimit(fs, v, l, m)] *)
Definition checklimit (fs : FuncState) (v l : Z) (what : string) : res unit :=
  if l <? v then Err (errorlimit_msg fs l what) else Ok tt.

Definition no_locvar : LocVar := mkLocVar None 0 0.
Definition getlocvar (fs : FuncState) (i : Z) : LocVar := vget no_locvar (f_locvars fs) (vget 0 (actvar fs) i).

Definition change_locvar (f : LocVar -> LocVar) (i : Z) (fs : FuncState) : FuncState :=
  let j := vget 0 (actvar fs) i in
  set_locvars fs (vset (f_locvars fs) j (f (vget no_locvar (f_locvars fs) j))).

Definition set_startpc (pc : Z) (v : LocVar) : LocVar := mkLocVar (varname v) pc (endpc v).
Definition set_endpc (pc : Z) (v : LocVar) : LocVar := mkLocVar (varname v) (startpc v) pc.

Definition registerlocalvar (fs : FuncState) (varname : bytes) : res (FuncState * Z) :=
  let n := zlen (f_locvars fs) in
  if SHRT_MAX <=? n then Err (RunError "too many local variables")
  else Ok (set_locvars fs (f_locvars fs ++ [mkLocVar (Some varname) 0 0]), n).

Definition new_localvar (name : bytes) (n : Z) : ps unit :=
  fs ← cur_fs;
  lift_limit (checklimit fs (fs_nactvar fs + n + 1) GAFQI_MAXVARS "local variables");;
  r ← lift_limit (registerlocalvar fs name);
  on_fs (fun _ => set_actvar r.1 (vset (actvar fs) (fs_nactvar fs + n) r.2)).

(** [for (; nvars; nvars--) getlocvar(fs, fs->nactvar - nvars).startpc = fs->pc;] *)
Fixpoint start_vars (nvars : nat) (fs : FuncState) : FuncState :=
  match nvars with
  | O => fs
  | S n => start_vars n (change_locvar (set_startpc (Code.pc (gen fs))) (fs_nactvar fs - Z.of_nat nvars) fs)
  end.

Definition adjustlocalvars (nvars : Z) : ps unit :=
  on_fs (fun fs => start_vars (Z.to_nat nvars) (set_gen fs (gen_with_nactvar (gen fs) (u8 (fs_nactvar fs + nvars))))).

(** [while (fs->nactvar > tolevel) getlocvar(fs, --fs->nactvar).endpc = fs->pc;] with [n] rounds *)
Fixpoint end_vars (n : nat) (fs : FuncState) : FuncState :=
  match n with
  | O => fs
  | S n' =>
      let fs := set_gen fs (gen_with_nactvar (gen fs) (fs_nactvar fs - 1)) in
      end_vars n' (change_locvar (set_endpc (Code.pc (gen fs))) (fs_nactvar fs) fs)
  end.

Definition removevars (tolevel : Z) (fs : FuncState) : FuncState := end_vars (Z.to_nat (fs_nactvar fs - tolevel)) fs.

(** the first upvalue with the given description *)
Fixpoint find_upvalue (l : list upvaldesc) (i : Z) (v : expdesc) : option Z :=
  match l with
  | [] => None
  | u :: l => if bool_decide (u_k u = e_k v) && (u_info u =? info v) then Some i else find_upvalue l (i + 1) v
  end.

Definition indexupvalue (fs : FuncState) (name : bytes) (v : expdesc) : res (FuncState * Z) :=
  match find_upvalue (fs_upvalues fs) 0 v with
  | Some i => Ok (fs, i)
  | None =>
      let n := zlen (f_upvalues fs) in
      checklimit fs (n + 1) GAFQI_MAXUPVALUES "upvalues";;
      Ok (set_upvalues fs (f_upvalues fs ++ [name]) (fs_upvalues fs ++ [mkUpval (e_k v) (u8 (info v))]), n)
  end.

(** [for (i=fs->nactvar-1; i >= 0; i--) if (n == getlocvar(fs, i).varname) return i;] *)
Fixpoint searchvar_loop (i : nat) (fs : FuncState) (n : bytes) : Z :=
  match i with
  | O => -1
  | S i' => if bool_decide (varname (getlocvar fs (Z.of_nat i')) = Some n) then Z.of_nat i' else searchvar_loop i' fs n
  end.

Definition searchvar (fs : FuncState) (n : bytes) : Z := searchvar_loop (Z.to_nat (fs_nactvar fs)) fs n.

(** [while (bl && bl->nactvar > level) bl = bl->previous; if (bl) bl->upval = 1;] *)
Fixpoint mark_block (l : list BlockCnt) (level : Z) : list BlockCnt :=
  match l with
  | [] => []
  | b :: l =>
      if level <? bl_nactvar b then b :: mark_block l level
      else mkBlock (breaklist b) (bl_nactvar b) true (isbreakable b) :: l
  end.

Definition markupval (fs : FuncState) (level : Z) : FuncState := set_bl fs (mark_block (bl fs) level).

Fixpoint singlevaraux (fss : list FuncState) (n : bytes) (base : bool) : res (list FuncState * expdesc) :=
  match fss with
  | [] => Ok ([], init_exp VGLOBAL NO_REG)
  | fs :: prev =>
      let v := searchvar fs n in
      if 0 <=? v then Ok ((if base then fs else markupval fs v) :: prev, init_exp VLOCAL v)
      else
        '(prev, var) ← singlevaraux prev n false;
        if is_k var VGLOBAL then Ok (fs :: prev, var)
        else
          '(fs, i) ← indexupvalue fs n var;
          Ok (fs :: prev, set_k (set_info var i) VUPVAL)
  end.

(** ** Blocks *)

Definition enterblock (breakable : bool) : ps unit :=
  on_fs (fun fs => set_bl fs (mkBlock NO_JUMP (fs_nactvar fs) false breakable :: bl fs)).

Definition enterlevel : ps unit :=
  modify (fun s => mkPS (p_ls s) (p_fs s) (p_nCcalls s + 1));;
  n ← gets p_nCcalls;
  if GAFQI_MAXCCALLS <? n then lexer (lexerror0 "chunk has too many syntax levels") else mret tt.

Definition leavelevel : ps unit := modify (fun s => mkPS (p_ls s) (p_fs s) (p_nCcalls s - 1)).

Definition block_follow (token : Z) : bool :=
  (token =? TK_ELSE) || (token =? TK_ELSEIF) || (token =? TK_END) || (token =? TK_UNTIL) || (token =? TK_EOS).

(** ** Operators *)

Definition getunopr (op : Z) : UnOpr :=
  if op =? TK_NOT then OPR_NOT
  else if op =? chr "-" then OPR_MINUS
  else if op =? chr "#" then OPR_LEN
  else OPR_NOUNOPR.

Definition getbinopr (op : Z) : BinOpr :=
  if op =? chr "+" then OPR_ADD
  else if op =? chr "-" then OPR_SUB
  else if op =? chr "*" then OPR_MUL
  else if op =? chr "/" then OPR_DIV
  else if op =? chr "%" then OPR_MOD
  else if op =? chr "^" then OPR_POW
  else if op =? TK_CONCAT then OPR_CONCAT
  else if op =? TK_NE then OPR_NE
  else if op =? TK_EQ then OPR_EQ
  else if op =? chr "<" then OPR_LT
  else if op =? TK_LE then OPR_LE
  else if op =? chr ">" then OPR_GT
  else if op =? TK_GE then OPR_GE
  else if op =? TK_AND then OPR_AND
  else if op =? TK_OR then OPR_OR
  else OPR_NOBINOPR.

(** the left and right priorities *)
Definition priority (op : BinOpr) : Z * Z :=
  match op with
  | OPR_ADD | OPR_SUB => (6, 6)
  | OPR_MUL | OPR_DIV | OPR_MOD => (7, 7)
  | OPR_POW => (10, 9)
  | OPR_CONCAT => (5, 4)
  | OPR_NE | OPR_EQ | OPR_LT | OPR_LE | OPR_GT | OPR_GE => (3, 3)
  | OPR_AND => (2, 2)
  | OPR_OR => (1, 1)
  | OPR_NOBINOPR => (0, 0)
  end.

Definition UNARY_PRIORITY : Z := 8.

(** what the parser uses of its surroundings: [strtod] and [strtoul] with the decimal point of
    the locale; the addresses, contents and hashes of the interned strings; [pow]; the
    address of [fs->h] and the name of the chunk *)
Record ParserEnv := mkEnv {
  env_strtod : bytes -> gafq_Number * Z;
  env_strtoul16 : bytes -> gafq_Number * Z;
  env_point : Z;
  env_addr : bytes -> pointer;
  env_contents : pointer -> bytes;
  env_hash : pointer -> Z;
  env_pow : gafq_Number -> gafq_Number -> gafq_Number;
  env_h : pointer;
  env_source : bytes
}.

Section Parser.

Variable E : ParserEnv.
(** rounds and levels that the loops and the recursion get beyond those that are needed:
    the result does not depend on them (ParserProofs.v) *)
Variable spare : nat.

#[local] Notation strtod := (env_strtod E).
#[local] Notation strtoul16 := (env_strtoul16 E).
#[local] Notation locale_point := (env_point E).
#[local] Notation ts_addr := (env_addr E).
#[local] Notation ts_contents := (env_contents E).
#[local] Notation ts_hash := (env_hash E).
#[local] Notation gafqi_numpow := (env_pow E).
#[local] Notation h_address := (env_h E).
#[local] Notation source_name := (env_source E).

#[local] Instance constants_ops : TableOps Table Slot := table_ops ts_hash.

Definition codegen (A : Type) : Type := stres gen_state A.

(** a function of the code generator; it reads [ls->lastline] *)
Definition emit {A} (m : codegen A) : ps A := fun s =>
  match p_fs s with
  | [] => Err Undefined
  | fs :: prev =>
      match m (gen_with_lastline (gen fs) (Lexer.lastline (p_ls s))) with
      | Ok (a, g) => Ok (a, mkPS (p_ls s) (set_gen fs g :: prev) (p_nCcalls s))
      | Err (SyntaxError msg _) => gafqX_syntaxerror msg s
      | Err e => Err e
      end
  end.

(** ** Tokens *)

(** [gafqX_newstring]: the string is anchored in the table of constants *)
Definition newstring (s : bytes) : ps unit :=
  g ← get_gen id;
  '(t, sl) ← lift (gafqH_setstr ts_hash (fs_h g) (ts_addr s));
  let t := if ttisnil (slot_val t sl) then set_slot t sl (VBoolean 1) else t in
  on_fs (fun fs => set_gen fs (gen_with_h (gen fs) t)).

(** the string that the analyser creates for a token that it reads *)
Definition token_string (t : Token) : option bytes :=
  if (token t =? TK_NAME) || (token t =? TK_STRING)
  then match seminfo t with SString ts => Some ts | _ => None end
  else if (FIRST_RESERVED <=? token t) && (token t <=? TK_WHILE)
  then Some (vget [] gafqX_tokens (token t - FIRST_RESERVED))
  else None.

Definition anchor (t : Token) : ps unit :=
  match token_string t with Some s => newstring s | None => mret tt end.

(** a token that was looked ahead is not read again *)
Definition p_next : ps unit :=
  la ← gets (fun s => token (ls_lookahead (p_ls s)));
  lexer (gafqX_next strtod strtoul16 locale_point);;
  if la =? TK_EOS then t ← gets (fun s => ls_t (p_ls s)); anchor t else mret tt.

Definition p_lookahead : ps unit :=
  lexer (gafqX_lookahead strtod strtoul16 locale_point);;
  t ← gets (fun s => ls_lookahead (p_ls s));
  anchor t.

Definition anchor_token : ps unit :=
  t ← gets (fun s => ls_t (p_ls s));
  if (token t =? TK_NAME) || (token t =? TK_STRING)
  then match seminfo t with SString ts => newstring ts | _ => mret tt end
  else mret tt.

Definition error_expected {A} (token : Z) : ps A :=
  gafqX_syntaxerror (text (quoted (gafqX_token2str token) ++ str " expected")).

Definition testnext (c : Z) : ps bool :=
  t ← cur_token; if t =? c then p_next;; mret true else mret false.

Definition check (c : Z) : ps unit := t ← cur_token; if negb (t =? c) then error_expected c else mret tt.

Definition checknext (c : Z) : ps unit := check c;; p_next.

Definition check_condition (c : bool) (msg : string) : ps unit := if c then mret tt else gafqX_syntaxerror msg.

Definition check_match (what who where_ : Z) : ps unit :=
  found ← testnext what;
  if (found : bool) then mret tt
  else
    line ← cur_line;
    if where_ =? line then error_expected what
    else gafqX_syntaxerror (text (quoted (gafqX_token2str what) ++ str " expected (to close " ++ quoted (gafqX_token2str who)
                                    ++ str " at line " ++ int_str where_ ++ str ")")).

(** the string of the current token *)
Definition cur_string : ps bytes :=
  t ← gets (fun s => ls_t (p_ls s));
  match seminfo t with SString ts => mret ts | _ => raise Undefined end.

Definition str_checkname : ps bytes :=
  check TK_NAME;;
  ts ← cur_string;
  p_next;;
  mret ts.

Definition codestring (s : bytes) : ps expdesc := k ← emit (gafqK_stringK (ts_addr s)); mret (init_exp VK k).

Definition checkname : ps expdesc := s ← str_checkname; codestring s.

(** a local variable with the name of a literal *)
Definition new_localvarliteral (v : string) (n : Z) : ps unit := newstring (str v);; new_localvar (str v) n.

(** enough rounds for a loop that reads a token in each of them *)
Definition loop_fuel : ps nat := gets (fun s => (length (pending (ls_z (p_ls s))) + 4 + spare)%nat).

(** ** Variables and assignments *)

Definition singlevar : ps expdesc :=
  varname ← str_checkname;
  fss ← gets p_fs;
  '(fss, var) ← lift_limit (singlevaraux fss varname true);
  modify (fun s => mkPS (p_ls s) fss (p_nCcalls s));;
  if is_k var VGLOBAL then k ← emit (gafqK_stringK (ts_addr varname)); mret (set_info var k) else mret var.

Definition adjust_assign (nvars nexps : Z) (e : expdesc) : ps unit :=
  let extra := nvars - nexps in
  if hasmultret e then
    let extra := Z.max (extra + 1) 0 in
    emit (gafqK_setreturns e extra);;
    if 1 <? extra then emit (gafqK_reserveregs (extra - 1)) else mret tt
  else
    (if is_k e VVOID then mret tt else emit (gafqK_exp2nextreg e);; mret tt);;
    if 0 <? extra then
      reg ← get_gen fs_freereg;
      emit (gafqK_reserveregs extra);;
      emit (gafqK_nil reg extra)
    else mret tt.

Definition leaveblock : ps unit :=
  fs ← cur_fs;
  match bl fs with
  | [] => raise Undefined
  | b :: previous =>
      on_fs (fun fs => removevars (bl_nactvar b) (set_bl fs previous));;
      (if bl_upval b then emit (gafqK_codeABC OP_CLOSE (bl_nactvar b) 0 0);; mret tt else mret tt);;
      set_freereg Code.nactvar;;
      emit (gafqK_patchtohere (breaklist b))
  end.

(** ** Functions *)

Definition open_func : ps unit :=
  modify (fun s =>
    let g := mkFS [] [] [] 2 (mkTable 255 0 None [] 0 [dummynode_] true 0) h_address 0 0 (-1) NO_JUMP 0 0 in
    mkPS (p_ls s) (mkFunc g [] [] [] [] (replicate (Z.to_nat GAFQI_MAXVARS) 0) [] 0 0 0 0 :: p_fs s) (p_nCcalls s)).

Definition constant_of (v : TValue) : Constant :=
  match v with
  | VBoolean b => KBoolean b
  | VNumber n => KNumber n
  | VString p => KString (Some (ts_contents p))
  | _ => KNil
  end.

(** the vectors of the finished prototype have their exact sizes *)
Definition proto_of (fs : FuncState) : Proto :=
  let g := gen fs in
  mkProto (constant_of <$> f_k g) (take (Z.to_nat (Code.pc g)) (f_code g)) (f_p fs) (take (Z.to_nat (Code.pc g)) (f_lineinfo g))
          (f_locvars fs) (Some <$> f_upvalues fs) (Some source_name) (f_linedefined fs) (f_lastlinedefined fs)
          (zlen (f_upvalues fs)) (f_numparams fs) (f_is_vararg fs) (f_maxstacksize g).

(** the finished function; the enclosing one is current again *)
Definition close_func : ps FuncState :=
  on_fs (removevars 0);;
  emit (gafqK_ret 0 0);;
  fs ← cur_fs;
  modify (fun s => mkPS (p_ls s) (tail (p_fs s)) (p_nCcalls s));;
  anchor_token;;
  mret fs.

(** [for (i=0; i<func->f->nups; i++) ...]: an instruction per upvalue *)
Fixpoint code_upvalues (l : list upvaldesc) : ps unit :=
  match l with
  | [] => mret tt
  | u :: l =>
      emit (gafqK_codeABC (if bool_decide (u_k u = VLOCAL) then OP_MOVE else OP_GETUPVAL) 0 (u_info u) 0);;
      code_upvalues l
  end.

Definition pushclosure (func : FuncState) : ps expdesc :=
  fs ← cur_fs;
  let np := zlen (f_p fs) in
  (if MAXARG_Bx <=? np then raise (RunError "constant table overflow") else mret tt);;
  on_fs (fun fs => set_p fs (f_p fs ++ [proto_of func]));;
  p ← emit (gafqK_codeABx OP_CLOSURE 0 np);
  code_upvalues (fs_upvalues func);;
  mret (init_exp VRELOCABLE p).

(** [do { ... } while (!f->is_vararg && testnext(ls, ','))]: the number of parameters *)
Fixpoint parlist_loop (fuel : nat) (nparams : Z) : ps Z :=
  match fuel with
  | O => raise Fuel
  | S fuel' =>
      t ← cur_token;
      nparams ← (if t =? TK_NAME then n ← str_checkname; new_localvar n nparams;; mret (nparams + 1)
                 else if t =? TK_DOTS then
                   p_next;;
                   new_localvarliteral "arg" nparams;;
                   on_fs (fun fs => set_is_vararg fs (Z.lor (Z.lor VARARG_HASARG VARARG_NEEDSARG) VARARG_ISVARARG));;
                   mret (nparams + 1)
                 else gafqX_syntaxerror "<name> or '...' expected");
      fs ← cur_fs;
      if negb (f_is_vararg fs =? 0) then mret nparams
      else more ← testnext (chr ","); if (more : bool) then parlist_loop fuel' nparams else mret nparams
  end.

Definition parlist : ps unit :=
  on_fs (fun fs => set_is_vararg fs 0);;
  t ← cur_token;
  fuel ← loop_fuel;
  nparams ← (if negb (t =? chr ")") then parlist_loop fuel 0 else mret 0);
  adjustlocalvars nparams;;
  on_fs (fun fs => set_numparams fs (u8 (fs_nactvar fs - Z.land (f_is_vararg fs) VARARG_HASARG)));;
  n ← get_gen Code.nactvar;
  emit (gafqK_reserveregs n).

(** ** Grammar rules

    The rules below [subexpr] and [chunk] take these two as arguments. *)

Section Rules.

Variable subexpr_ : Z -> ps (expdesc * BinOpr).
Variable chunk_ : ps unit.

Definition expr : ps expdesc := r ← subexpr_ 0; mret r.1.

(** field -> ['.' | ':'] NAME *)
Definition field (v : expdesc) : ps expdesc :=
  r ← emit (gafqK_exp2anyreg v);
  p_next;;
  key ← checkname;
  r ← emit (gafqK_indexed r.2 key);
  mret r.1.

(** index -> '[' expr ']' *)
Definition yindex : ps expdesc :=
  p_next;;
  v ← expr;
  v ← emit (gafqK_exp2val v);
  checknext (chr "]");;
  mret v.

Record ConsControl := mkCC {
  cc_v : expdesc;   (* last list item read *)
  cc_t : Z;   (* the register of the table *)
  cc_nh : Z;
  cc_na : Z;
  cc_tostore : Z
}.

(** recfield -> (NAME | `['exp1`]') = exp1 *)
Definition recfield (cc : ConsControl) : ps ConsControl :=
  reg ← get_gen fs_freereg;
  t ← cur_token;
  key ← (if t =? TK_NAME then
           fs ← cur_fs;
           lift_limit (checklimit fs (cc_nh cc) MAX_INT "items in a constructor");;
           checkname
         else yindex);
  checknext (chr "=");;
  rkkey ← emit (gafqK_exp2RK key);
  val ← expr;
  rkval ← emit (gafqK_exp2RK val);
  emit (gafqK_codeABC OP_SETTABLE (cc_t cc) rkkey.1 rkval.1);;
  set_freereg (fun _ => reg);;
  mret (mkCC (cc_v cc) (cc_t cc) (cc_nh cc + 1) (cc_na cc) (cc_tostore cc)).

Definition closelistfield (cc : ConsControl) : ps ConsControl :=
  if is_k (cc_v cc) VVOID then mret cc
  else
    v ← emit (gafqK_exp2nextreg (cc_v cc));
    let v := set_k v VVOID in
    if cc_tostore cc =? LFIELDS_PER_FLUSH then
      emit (gafqK_setlist (cc_t cc) (cc_na cc) (cc_tostore cc));;
      mret (mkCC v (cc_t cc) (cc_nh cc) (cc_na cc) 0)
    else mret (mkCC v (cc_t cc) (cc_nh cc) (cc_na cc) (cc_tostore cc)).

(** the number of array elements that are known *)
Definition lastlistfield (cc : ConsControl) : ps Z :=
  if cc_tostore cc =? 0 then mret (cc_na cc)
  else if hasmultret (cc_v cc) then
    emit (gafqK_setreturns (cc_v cc) GAFQ_MULTRET);;
    emit (gafqK_setlist (cc_t cc) (cc_na cc) GAFQ_MULTRET);;
    mret (cc_na cc - 1)
  else
    (if is_k (cc_v cc) VVOID then mret tt else emit (gafqK_exp2nextreg (cc_v cc));; mret tt);;
    emit (gafqK_setlist (cc_t cc) (cc_na cc) (cc_tostore cc));;
    mret (cc_na cc).

Definition listfield (cc : ConsControl) : ps ConsControl :=
  v ← expr;
  fs ← cur_fs;
  lift_limit (checklimit fs (cc_na cc) MAX_INT "items in a constructor");;
  mret (mkCC v (cc_t cc) (cc_nh cc) (cc_na cc + 1) (cc_tostore cc + 1)).

(** [testnext(ls, ',') || testnext(ls, ';')] *)
Definition separator : ps bool :=
  c ← testnext (chr ","); if (c : bool) then mret true else testnext (chr ";").

Fixpoint constructor_loop (fuel : nat) (cc : ConsControl) : ps ConsControl :=
  match fuel with
  | O => raise Fuel
  | S fuel' =>
      t ← cur_token;
      if t =? chr "}" then mret cc
      else
        cc ← closelistfield cc;
        cc ← (if t =? TK_NAME then
                p_lookahead;;
                la ← gets (fun s => token (ls_lookahead (p_ls s)));
                if negb (la =? chr "=") then listfield cc else recfield cc
              else if t =? chr "[" then recfield cc
              else listfield cc);
        more ← separator;
        if (more : bool) then constructor_loop fuel' cc else mret cc
  end.

Definition constructor : ps expdesc :=
  line ← cur_line;
  pc ← emit (gafqK_codeABC OP_NEWTABLE 0 0 0);
  t ← emit (gafqK_exp2nextreg (init_exp VRELOCABLE pc));
  checknext (chr "{");;
  fuel ← loop_fuel;
  cc ← constructor_loop fuel (mkCC (init_exp VVOID 0) (info t) 0 0 0);
  check_match (chr "}") (chr "{") line;;
  na ← lastlistfield cc;
  emit (change_code pc (fun i => SETARG_B i (gafqO_int2fb na)));;
  emit (change_code pc (fun i => SETARG_C i (gafqO_int2fb (cc_nh cc))));;
  mret t.

(** body ->  `(' parlist `)' chunk END *)
Definition body (needself : bool) (line : Z) : ps expdesc :=
  open_func;;
  on_fs (fun fs => set_lines fs line (f_lastlinedefined fs));;
  checknext (chr "(");;
  (if needself then new_localvarliteral "self" 0;; adjustlocalvars 1 else mret tt);;
  parlist;;
  checknext (chr ")");;
  chunk_;;
  last ← cur_line;
  on_fs (fun fs => set_lines fs (f_linedefined fs) last);;
  check_match TK_END TK_FUNCTION line;;
  func ← close_func;
  pushclosure func.

Fixpoint explist_loop (fuel : nat) (v : expdesc) (n : Z) : ps (expdesc * Z) :=
  match fuel with
  | O => raise Fuel
  | S fuel' =>
      more ← testnext (chr ",");
      if (more : bool) then
        emit (gafqK_exp2nextreg v);;
        v ← expr;
        explist_loop fuel' v (n + 1)
      else mret (v, n)
  end.

(** explist1 -> expr { `,' expr } *)
Definition explist1 : ps (expdesc * Z) :=
  v ← expr;
  fuel ← loop_fuel;
  explist_loop fuel v 1.

(** the arguments of a call; [f] is the function, in a register *)
Definition funcargs (f : expdesc) : ps expdesc :=
  line ← cur_line;
  t ← cur_token;
  args ← (if t =? chr "(" then
            last ← gets (fun s => Lexer.lastline (p_ls s));
            (if negb (line =? last) then gafqX_syntaxerror "ambiguous syntax (function call x new statement)" else mret tt);;
            p_next;;
            t ← cur_token;
            args ← (if t =? chr ")" then mret (init_exp VVOID 0)
                    else
                      r ← explist1;
                      emit (gafqK_setreturns r.1 GAFQ_MULTRET);;
                      mret r.1);
            check_match (chr ")") (chr "(") line;;
            mret args
          else if t =? chr "{" then constructor
          else if t =? TK_STRING then
            s ← cur_string;
            args ← codestring s;
            p_next;;
            mret args
          else gafqX_syntaxerror "function arguments expected");
  let base := info f in
  nparams ← (if hasmultret args then mret GAFQ_MULTRET
             else
               (if is_k args VVOID then mret tt else emit (gafqK_exp2nextreg args);; mret tt);;
               r ← get_gen fs_freereg;
               mret (r - (base + 1)));
  p ← emit (gafqK_codeABC OP_CALL base (nparams + 1) 2);
  emit (gafqK_fixline line);;
  set_freereg (fun _ => base + 1);;
  mret (init_exp VCALL p).

(** prefixexp -> NAME | '(' expr ')' *)
Definition prefixexp : ps expdesc :=
  t ← cur_token;
  if t =? chr "(" then
    line ← cur_line;
    p_next;;
    v ← expr;
    check_match (chr ")") (chr "(") line;;
    emit (gafqK_dischargevars v)
  else if t =? TK_NAME then singlevar
  else gafqX_syntaxerror "unexpected symbol".

Fixpoint primaryexp_loop (fuel : nat) (v : expdesc) : ps expdesc :=
  match fuel with
  | O => raise Fuel
  | S fuel' =>
      t ← cur_token;
      if t =? chr "." then v ← field v; primaryexp_loop fuel' v
      else if t =? chr "[" then
        r ← emit (gafqK_exp2anyreg v);
        key ← yindex;
        r ← emit (gafqK_indexed r.2 key);
        primaryexp_loop fuel' r.1
      else if t =? chr ":" then
        p_next;;
        key ← checkname;
        r ← emit (gafqK_self v key);
        v ← funcargs r.1;
        primaryexp_loop fuel' v
      else if (t =? chr "(") || (t =? TK_STRING) || (t =? chr "{") then
        v ← emit (gafqK_exp2nextreg v);
        v ← funcargs v;
        primaryexp_loop fuel' v
      else mret v
  end.

(** primaryexp -> prefixexp { `.' NAME | `[' exp `]' | `:' NAME funcargs | funcargs } *)
Definition primaryexp : ps expdesc :=
  v ← prefixexp;
  fuel ← loop_fuel;
  primaryexp_loop fuel v.

(** simpleexp -> NUMBER | STRING | NIL | true | false | ... | constructor | FUNCTION body | primaryexp *)
Definition simpleexp : ps expdesc :=
  t ← gets (fun s => ls_t (p_ls s));
  if token t =? TK_NUMBER then
    v ← (match seminfo t with SNumber r => mret (set_nval (init_exp VKNUM 0) r) | _ => raise Undefined end);
    p_next;; mret v
  else if token t =? TK_STRING then s ← cur_string; v ← codestring s; p_next;; mret v
  else if token t =? TK_NIL then p_next;; mret (init_exp VNIL 0)
  else if token t =? TK_TRUE then p_next;; mret (init_exp VTRUE 0)
  else if token t =? TK_FALSE then p_next;; mret (init_exp VFALSE 0)
  else if token t =? TK_DOTS then
    fs ← cur_fs;
    check_condition (negb (f_is_vararg fs =? 0)) "cannot use '...' outside a vararg function";;
    on_fs (fun fs => set_is_vararg fs (Z.land (f_is_vararg fs) (u8 (Z.lnot VARARG_NEEDSARG))));;
    p ← emit (gafqK_codeABC OP_VARARG 0 1 0);
    p_next;;
    mret (init_exp VVARARG p)
  else if token t =? chr "{" then constructor
  else if token t =? TK_FUNCTION then p_next;; line ← cur_line; body false line
  else primaryexp.

(** ** Statements *)

Definition block : ps unit := enterblock false;; chunk_;; leaveblock.

(** an earlier variable of the assignment that uses the local variable [v] gets a copy *)
Definition conflict_one (extra : Z) (v lh : expdesc) : expdesc * bool :=
  if is_k lh VINDEXED then
    let c1 := info lh =? info v in
    let lh1 := if c1 then set_info lh extra else lh in
    let c2 := aux lh =? info v in
    (if c2 then set_aux lh1 extra else lh1, c1 || c2)
  else (lh, false).

Definition check_conflict (lh : list expdesc) (v : expdesc) : ps (list expdesc) :=
  extra ← get_gen fs_freereg;
  let r := conflict_one extra v <$> lh in
  (if existsb snd r then
     emit (gafqK_codeABC OP_MOVE extra (info v) 0);;
     emit (gafqK_reserveregs 1)
   else mret tt);;
  mret (fst <$> r).

Definition is_variable (e : expdesc) : bool :=
  match e_k e with VLOCAL | VUPVAL | VGLOBAL | VINDEXED => true | _ => false end.

(** [v] is the last variable read, [lh] the ones before it, the nearest first; the result
    is [lh] with the changes of [check_conflict] *)
Fixpoint assignment (fuel : nat) (v : expdesc) (lh : list expdesc) (nvars : Z) : ps (list expdesc) :=
  match fuel with
  | O => raise Fuel
  | S fuel' =>
      check_condition (is_variable v) "syntax error";;
      more ← testnext (chr ",");
      if (more : bool) then
        nv ← primaryexp;
        chain ← (if is_k nv VLOCAL then check_conflict (v :: lh) nv else mret (v :: lh));
        fs ← cur_fs;
        levels ← gets p_nCcalls;
        lift_limit (checklimit fs nvars (GAFQI_MAXCCALLS - levels) "variables in assignment");;
        chain ← assignment fuel' nv chain (nvars + 1);
        match chain with
        | [] => raise Undefined
        | v :: lh =>
            r ← get_gen fs_freereg;
            emit (gafqK_storevar v (init_exp VNONRELOC (r - 1)));;
            mret lh
        end
      else
        checknext (chr "=");;
        r ← explist1;
        let '(e, nexps) := r in
        if negb (nexps =? nvars) then
          adjust_assign nvars nexps e;;
          (if nvars <? nexps then set_freereg (fun g => fs_freereg g - (nexps - nvars)) else mret tt);;
          r ← get_gen fs_freereg;
          emit (gafqK_storevar v (init_exp VNONRELOC (r - 1)));;
          mret lh
        else
          e ← emit (gafqK_setoneret e);
          emit (gafqK_storevar v e);;
          mret lh
  end.

(** the list of jumps to take when the condition is false *)
Definition cond : ps Z :=
  v ← expr;
  let v := if is_k v VNIL then set_k v VFALSE else v in
  v ← emit (gafqK_goiftrue v);
  mret (e_f v).

(** the blocks up to the first breakable one: whether a variable of them is an upvalue, and the rest *)
Fixpoint find_loop_block (l : list BlockCnt) (upval : bool) : option (bool * list BlockCnt * BlockCnt * list BlockCnt) :=
  match l with
  | [] => None
  | b :: l' =>
      if isbreakable b then Some (upval, [], b, l')
      else match find_loop_block l' (upval || bl_upval b) with
           | Some (u, inner, b', rest) => Some (u, b :: inner, b', rest)
           | None => None
           end
  end.

Definition breakstat : ps unit :=
  fs ← cur_fs;
  match find_loop_block (bl fs) false with
  | None => gafqX_syntaxerror "no loop to break"
  | Some (upval, inner, b, rest) =>
      (if (upval : bool) then emit (gafqK_codeABC OP_CLOSE (bl_nactvar b) 0 0);; mret tt else mret tt);;
      j ← emit gafqK_jump;
      l ← emit (gafqK_concat (breaklist b) j);
      on_fs (fun fs => set_bl fs (inner ++ mkBlock l (bl_nactvar b) (bl_upval b) (isbreakable b) :: rest))
  end.

Definition whilestat (line : Z) : ps unit :=
  p_next;;
  whileinit ← emit gafqK_getlabel;
  condexit ← cond;
  enterblock true;;
  checknext TK_DO;;
  block;;
  j ← emit gafqK_jump;
  emit (gafqK_patchlist j whileinit);;
  check_match TK_END TK_WHILE line;;
  leaveblock;;
  emit (gafqK_patchtohere condexit).

Definition repeatstat (line : Z) : ps unit :=
  repeat_init ← emit gafqK_getlabel;
  enterblock true;;
  enterblock false;;
  p_next;;
  chunk_;;
  check_match TK_UNTIL TK_REPEAT line;;
  condexit ← cond;
  fs ← cur_fs;
  match bl fs with
  | [] => raise Undefined
  | bl2 :: _ =>
      (if negb (bl_upval bl2) then
         leaveblock;;
         emit (gafqK_patchlist condexit repeat_init)
       else
         breakstat;;
         emit (gafqK_patchtohere condexit);;
         leaveblock;;
         j ← emit gafqK_jump;
         emit (gafqK_patchlist j repeat_init));;
      leaveblock
  end.

Definition exp1 : ps unit := e ← expr; emit (gafqK_exp2nextreg e);; mret tt.

Definition forbody (base line nvars : Z) (isnum : bool) : ps unit :=
  adjustlocalvars 3;;
  checknext TK_DO;;
  prep ← emit (if isnum then gafqK_codeAsBx OP_FORPREP base NO_JUMP else gafqK_jump);
  enterblock false;;
  adjustlocalvars nvars;;
  emit (gafqK_reserveregs nvars);;
  block;;
  leaveblock;;
  emit (gafqK_patchtohere prep);;
  endfor ← emit (if isnum then gafqK_codeAsBx OP_FORLOOP base NO_JUMP else gafqK_codeABC OP_TFORLOOP base 0 nvars);
  emit (gafqK_fixline line);;
  back ← (if isnum then mret endfor else emit gafqK_jump);
  emit (gafqK_patchlist back (prep + 1)).

Definition fornum (varname : bytes) (line : Z) : ps unit :=
  base ← get_gen fs_freereg;
  new_localvarliteral "(for index)" 0;;
  new_localvarliteral "(for limit)" 1;;
  new_localvarliteral "(for step)" 2;;
  new_localvar varname 3;;
  checknext (chr "=");;
  exp1;;
  checknext (chr ",");;
  exp1;;
  step ← testnext (chr ",");
  (if (step : bool) then exp1
   else
     r ← get_gen fs_freereg;
     k ← emit (gafqK_numberK (cast_num 1));
     emit (gafqK_codeABx OP_LOADK r k);;
     emit (gafqK_reserveregs 1));;
  forbody base line 1 true.

(** [while (testnext(ls, ',')) new_localvar(ls, str_checkname(ls), nvars++);] *)
Fixpoint namelist (fuel : nat) (nvars : Z) : ps Z :=
  match fuel with
  | O => raise Fuel
  | S fuel' =>
      more ← testnext (chr ",");
      if (more : bool) then n ← str_checkname; new_localvar n nvars;; namelist fuel' (nvars + 1) else mret nvars
  end.

Definition forlist (indexname : bytes) : ps unit :=
  base ← get_gen fs_freereg;
  new_localvarliteral "(for generator)" 0;;
  new_localvarliteral "(for state)" 1;;
  new_localvarliteral "(for control)" 2;;
  new_localvar indexname 3;;
  fuel ← loop_fuel;
  nvars ← namelist fuel 4;
  checknext TK_IN;;
  line ← cur_line;
  r ← explist1;
  adjust_assign 3 r.2 r.1;;
  emit (gafqK_checkstack 3);;
  forbody base line (nvars - 3) false.

Definition forstat (line : Z) : ps unit :=
  enterblock true;;
  p_next;;
  varname ← str_checkname;
  t ← cur_token;
  (if t =? chr "=" then fornum varname line
   else if (t =? chr ",") || (t =? TK_IN) then forlist varname
   else gafqX_syntaxerror "'=' or 'in' expected");;
  check_match TK_END TK_FOR line;;
  leaveblock.

Definition test_then_block : ps Z :=
  p_next;;
  condexit ← cond;
  checknext TK_THEN;;
  block;;
  mret condexit.

(** [gafqK_concat(fs, &escapelist, gafqK_jump(fs))] *)
Definition escape (escapelist : Z) : ps Z := j ← emit gafqK_jump; emit (gafqK_concat escapelist j).

(** the ELSEIF parts: the lists of the last condition and of the jumps to the end *)
Fixpoint elseif_loop (fuel : nat) (flist escapelist : Z) : ps (Z * Z) :=
  match fuel with
  | O => raise Fuel
  | S fuel' =>
      t ← cur_token;
      if t =? TK_ELSEIF then
        escapelist ← escape escapelist;
        emit (gafqK_patchtohere flist);;
        flist ← test_then_block;
        elseif_loop fuel' flist escapelist
      else mret (flist, escapelist)
  end.

Definition ifstat (line : Z) : ps unit :=
  flist ← test_then_block;
  fuel ← loop_fuel;
  r ← elseif_loop fuel flist NO_JUMP;
  let '(flist, escapelist) := r in
  t ← cur_token;
  escapelist ← (if t =? TK_ELSE then
                  escapelist ← escape escapelist;
                  emit (gafqK_patchtohere flist);;
                  p_next;;
                  block;;
                  mret escapelist
                else emit (gafqK_concat escapelist flist));
  emit (gafqK_patchtohere escapelist);;
  check_match TK_END TK_IF line.

Definition localfunc : ps unit :=
  name ← str_checkname;
  new_localvar name 0;;
  r ← get_gen fs_freereg;
  emit (gafqK_reserveregs 1);;
  adjustlocalvars 1;;
  line ← cur_line;
  b ← body false line;
  emit (gafqK_storevar (init_exp VLOCAL r) b);;
  on_fs (fun fs => change_locvar (set_startpc (Code.pc (gen fs))) (fs_nactvar fs - 1) fs).

Definition localstat : ps unit :=
  name ← str_checkname;
  new_localvar name 0;;
  fuel ← loop_fuel;
  nvars ← namelist fuel 1;
  init ← testnext (chr "=");
  r ← (if (init : bool) then explist1 else mret (init_exp VVOID 0, 0));
  adjust_assign nvars r.2 r.1;;
  adjustlocalvars nvars.

Fixpoint funcname_loop (fuel : nat) (v : expdesc) : ps expdesc :=
  match fuel with
  | O => raise Fuel
  | S fuel' =>
      t ← cur_token;
      if t =? chr "." then v ← field v; funcname_loop fuel' v else mret v
  end.

(** funcname -> NAME {field} [`:' NAME] *)
Definition funcname : ps (expdesc * bool) :=
  v ← singlevar;
  fuel ← loop_fuel;
  v ← funcname_loop fuel v;
  t ← cur_token;
  if t =? chr ":" then v ← field v; mret (v, true) else mret (v, false).

Definition funcstat (line : Z) : ps unit :=
  p_next;;
  r ← funcname;
  b ← body r.2 line;
  emit (gafqK_storevar r.1 b);;
  emit (gafqK_fixline line).

Definition exprstat : ps unit :=
  v ← primaryexp;
  if is_k v VCALL then emit (change_code (info v) (fun i => SETARG_C i 1))
  else fuel ← loop_fuel; assignment fuel v [] 1;; mret tt.

Definition retstat : ps unit :=
  p_next;;
  t ← cur_token;
  r ← (if block_follow t || (t =? chr ";") then mret (0, 0)
       else
         r ← explist1;
         let '(e, nret) := r in
         if hasmultret e then
           emit (gafqK_setreturns e GAFQ_MULTRET);;
           (if is_k e VCALL && (nret =? 1)
            then emit (change_code (info e) (fun i => SET_OPCODE i (op_num OP_TAILCALL))) else mret tt);;
           first ← get_gen Code.nactvar;
           mret (first, GAFQ_MULTRET)
         else if nret =? 1 then r ← emit (gafqK_exp2anyreg e); mret (r.1, nret)
         else
           emit (gafqK_exp2nextreg e);;
           first ← get_gen Code.nactvar;
           mret (first, nret));
  emit (gafqK_ret r.1 r.2).

(** whether the statement must be the last one *)
Definition statement : ps bool :=
  line ← cur_line;
  t ← cur_token;
  if t =? TK_IF then ifstat line;; mret false
  else if t =? TK_WHILE then whilestat line;; mret false
  else if t =? TK_DO then p_next;; block;; check_match TK_END TK_DO line;; mret false
  else if t =? TK_FOR then forstat line;; mret false
  else if t =? TK_REPEAT then repeatstat line;; mret false
  else if t =? TK_FUNCTION then funcstat line;; mret false
  else if t =? TK_LOCAL then
    p_next;;
    f ← testnext TK_FUNCTION;
    (if (f : bool) then localfunc else localstat);;
    mret false
  else if t =? TK_RETURN then retstat;; mret true
  else if t =? TK_BREAK then p_next;; breakstat;; mret true
  else exprstat;; mret false.

(** [while (!islast && !block_follow(ls->t.token)) ...] *)
Fixpoint chunk_loop (fuel : nat) : ps unit :=
  match fuel with
  | O => raise Fuel
  | S fuel' =>
      t ← cur_token;
      if block_follow t then mret tt
      else
        islast ← statement;
        testnext (chr ";");;
        set_freereg Code.nactvar;;
        if (islast : bool) then mret tt else chunk_loop fuel'
  end.

(** [while (op != OPR_NOBINOPR && priority[op].left > limit) ...] *)
Fixpoint binop_loop (fuel : nat) (v : expdesc) (op : BinOpr) (limit : Z) : ps (expdesc * BinOpr) :=
  match fuel with
  | O => raise Fuel
  | S fuel' =>
      if limit <? (priority op).1 then
        p_next;;
        v ← emit (gafqK_infix op v);
        r ← subexpr_ (priority op).2;
        let '(v2, nextop) := r in
        r ← emit (gafqK_posfix gafqi_numpow op v v2);
        binop_loop fuel' r.1 nextop limit
      else mret (v, op)
  end.

End Rules.

(** subexpr -> (simpleexp | unop subexpr) { binop subexpr } *)
Fixpoint subexpr (depth : nat) (limit : Z) : ps (expdesc * BinOpr) :=
  match depth with
  | O => raise Fuel
  | S depth' =>
      enterlevel;;
      t ← cur_token;
      v ← (match getunopr t with
           | OPR_NOUNOPR => simpleexp (subexpr depth') (chunk depth')
           | uop =>
               p_next;;
               r ← subexpr depth' UNARY_PRIORITY;
               emit (gafqK_prefix gafqi_numpow uop r.1)
           end);
      t ← cur_token;
      fuel ← loop_fuel;
      r ← binop_loop (subexpr depth') fuel v (getbinopr t) limit;
      leavelevel;;
      mret r
  end
with chunk (depth : nat) : ps unit :=
  match depth with
  | O => raise Fuel
  | S depth' =>
      enterlevel;;
      fuel ← loop_fuel;
      chunk_loop (subexpr depth') (chunk depth') fuel;;
      leavelevel
  end.

(** [ls] and [buff] hold the fields that [gafqX_setinput] does not set *)
Definition gafqY_parser (z : ZIO) (ls : LexState) (nCcalls : Z) : res Proto :=
  let m :=
    open_func;;
    on_fs (fun fs => set_is_vararg fs VARARG_ISVARARG);;
    p_next;;
    chunk (S (Z.to_nat GAFQI_MAXCCALLS) + spare);;
    check TK_EOS;;
    close_func in
  match m (mkPS (gafqX_setinput z ls) [] nCcalls) with
  | Ok (fs, _) => Ok (proto_of fs)
  | Err e => Err e
  end.

End Parser.
