(* ===== verification/ParserProofs.v ===== *)
(** * The parser: names and levels

    A name resolves to the variable of the innermost scope that declares it, through the
    upvalues of the functions in between; and the depth of the recursive descent is
    bounded by the levels that [enterlevel] counts. *)

From S2P Require Import Prelude Number Object Opcodes Table TableInv TableClass Code Zio Proto CheckCode Lexer LexProofs Parser.

(** ** Names *)

(** the active variables of a function that have the name [n] *)
Definition declares (fs : FuncState) (n : bytes) (i : Z) : Prop :=
  0 <= i < fs_nactvar fs /\ varname (getlocvar fs i) = Some n.

(** the innermost declaration of a name: how many functions out, and its register *)
Fixpoint innermost (fss : list FuncState) (n : bytes) (d : nat) (i : Z) : Prop :=
  match fss, d with
  | fs :: _, O => declares fs n i /\ forall j, declares fs n j -> j <= i
  | fs :: prev, S d => (forall j, ~ declares fs n j) /\ innermost prev n d i
  | [], _ => False
  end.

(** the variable that an upvalue of the first function stands for: an upvalue is a
    register of the enclosing function or one of its upvalues *)
Fixpoint upvalue_of (fss : list FuncState) (u : Z) : option (nat * Z) :=
  match fss with
  | [] => None
  | fs :: prev =>
      match fs_upvalues fs !! Z.to_nat u with
      | Some d =>
          match u_k d with
          | VLOCAL => Some (1%nat, u_info d)
          | VUPVAL => (fun r => (S r.1, r.2)) <$> upvalue_of prev (u_info d)
          | _ => None
          end
      | None => None
      end
  end.

(** the variable that a descriptor stands for *)
Definition variable_of (fss : list FuncState) (e : expdesc) : option (nat * Z) :=
  match e_k e with
  | VLOCAL => Some (0%nat, info e)
  | VUPVAL => upvalue_of fss (info e)
  | _ => None
  end.

Definition scope_ok (fs : FuncState) : Prop :=
  fs_nactvar fs <= GAFQI_MAXVARS /\ length (f_upvalues fs) = length (fs_upvalues fs) /\ zlen (fs_upvalues fs) <= GAFQI_MAXUPVALUES.

(** the same functions, with upvalues added and blocks marked *)
Definition extends (fs fs' : FuncState) : Prop :=
  gen fs' = gen fs /\ f_locvars fs' = f_locvars fs /\ actvar fs' = actvar fs /\ fs_upvalues fs `prefix_of` fs_upvalues fs'.

Lemma extends_refl fs : extends fs fs.
Proof. done. Qed.

Lemma searchvar_loop_spec k fs n : Z.of_nat k <= fs_nactvar fs ->
  let v := searchvar_loop k fs n in
  (v = -1 /\ forall j, j < Z.of_nat k -> ~ declares fs n j) \/
  (v < Z.of_nat k /\ declares fs n v /\ forall j, j < Z.of_nat k -> declares fs n j -> j <= v).
Proof.
  induction k as [|k IH]; intros Hk; simpl.
  { left. split; [done|]. intros j Hj [Hr _]. lia. }
  destruct (bool_decide_reflect (varname (getlocvar fs (Z.of_nat k)) = Some n)) as [E|E].
  - right. split; [lia|]. split; [split; [lia|done]|]. intros. lia.
  - specialize (IH ltac:(lia)). simpl in IH.
    assert (forall j, declares fs n j -> j < Z.of_nat (S k) -> j < Z.of_nat k) as Hlt.
    { intros j [Hr Hj] Hlt. destruct (decide (j = Z.of_nat k)) as [->|]; [done|lia]. }
    destruct IH as [[Ev H]|(Hv & Hd & H)]; [left|right].
    + split; [done|]. intros j Hj D. by apply (H j); [apply Hlt|].
    + split; [lia|]. split; [done|]. intros j Hj D. apply H; [by apply Hlt|done].
Qed.

Lemma searchvar_spec fs n :
  (searchvar fs n = -1 /\ forall j, ~ declares fs n j) \/
  (declares fs n (searchvar fs n) /\ forall j, declares fs n j -> j <= searchvar fs n).
Proof.
  unfold searchvar. destruct (Z.le_gt_cases 0 (fs_nactvar fs)) as [H|H].
  - pose proof (searchvar_loop_spec (Z.to_nat (fs_nactvar fs)) fs n ltac:(lia)) as S. cbv zeta in S. rewrite Z2Nat.id in S by done.
    destruct S as [[E S]|(Hv & D & S)]; [left|right].
    + split; [done|]. intros j D. apply (S j); [apply D|done].
    + split; [done|]. intros j D'. apply S; [apply D'|done].
  - left. replace (Z.to_nat (fs_nactvar fs)) with 0%nat by lia. split; [done|]. intros j [Hj _]. lia.
Qed.

Lemma find_upvalue_spec l i v r : find_upvalue l i v = Some r ->
  i <= r < i + zlen l /\ exists u, l !! Z.to_nat (r - i) = Some u /\ u_k u = e_k v /\ u_info u = info v.
Proof.
  revert i. induction l as [|u l IH]; intros i; simpl; [done|].
  destruct (bool_decide_reflect (u_k u = e_k v)) as [Ek|]; simpl; [destruct (Z.eqb_spec (u_info u) (info v)) as [Ei|]|].
  { intros [= <-]. split; [unfold zlen; simpl; lia|]. exists u. by rewrite Z.sub_diag. }
  all: intros H%IH; destruct H as [Hr (w & Hw & H)]; split; [unfold zlen in *; simpl; lia|]; exists w; split; [|done];
    replace (Z.to_nat (r - i)) with (S (Z.to_nat (r - (i + 1)))) by lia; done.
Qed.

(** a descriptor of a variable that the enclosing functions have becomes an upvalue *)
Lemma indexupvalue_spec fs n v : scope_ok fs -> 0 <= info v < 256 -> e_k v = VLOCAL \/ e_k v = VUPVAL ->
  match indexupvalue fs n v with
  | Ok (fs', i) => extends fs fs' /\ scope_ok fs' /\ 0 <= i < GAFQI_MAXUPVALUES /\ bl fs' = bl fs /\
      exists u, fs_upvalues fs' !! Z.to_nat i = Some u /\ u_k u = e_k v /\ u_info u = info v
  | Err e => e = errorlimit_msg fs GAFQI_MAXUPVALUES "upvalues" /\ zlen (fs_upvalues fs) = GAFQI_MAXUPVALUES
  end.
Proof.
  intros (Hn & Hl & Hu) Hi Hk. unfold indexupvalue. destruct (find_upvalue (fs_upvalues fs) 0 v) as [i|] eqn:E.
  - apply find_upvalue_spec in E as [Hr (u & Eu & H)]. rewrite Z.sub_0_r in Eu. split; [apply extends_refl|]. split; [by repeat split|].
    split; [lia|]. split; [done|]. by exists u.
  - unfold checklimit. assert (zlen (f_upvalues fs) = zlen (fs_upvalues fs)) as El by (unfold zlen; lia).
    destruct (Z.ltb_spec GAFQI_MAXUPVALUES (zlen (f_upvalues fs) + 1)); simpl; [split; [done|lia]|].
    split; [|split; [|split; [unfold zlen in *; lia|split; [done|]]]].
    + repeat split. simpl. by eexists.
    + split; [done|]. simpl. unfold zlen in *. rewrite !length_app. simpl. lia.
    + exists (mkUpval (e_k v) (u8 (info v))). split; [|split; [done|]].
      * simpl. rewrite lookup_app_r by (unfold zlen in *; lia). unfold zlen in *. by replace (_ - _)%nat with 0%nat by lia.
      * simpl. unfold u8. by rewrite Z.mod_small.
Qed.

Lemma upvalue_of_extends fss fss' : Forall2 extends fss fss' -> forall u r, upvalue_of fss u = Some r -> upvalue_of fss' u = Some r.
Proof.
  induction 1 as [|fs fs' l l' (_ & _ & _ & Hp) _ IH]; intros u r; simpl; [done|].
  destruct (fs_upvalues fs !! Z.to_nat u) as [d|] eqn:E; [|done]. rewrite (prefix_lookup_Some _ _ _ _ E Hp).
  destruct (u_k d); try done. destruct (upvalue_of l (u_info d)) as [r'|] eqn:E'; [|done]. by rewrite (IH _ _ E').
Qed.

(** the block in which the variable [level] was declared *)
Fixpoint block_of (l : list BlockCnt) (level : Z) : option BlockCnt :=
  match l with
  | [] => None
  | b :: l => if level <? bl_nactvar b then block_of l level else Some b
  end.

(** it emits a [CLOSE] at its end *)
Definition closes (fs : FuncState) (level : Z) : Prop :=
  match block_of (bl fs) level with Some b => bl_upval b = true | None => True end.

Lemma markupval_closes fs level : closes (markupval fs level) level.
Proof.
  unfold closes, markupval. simpl. induction (bl fs) as [|b l IH]; simpl; [done|].
  destruct (level <? bl_nactvar b) eqn:E; simpl; by rewrite E.
Qed.

Lemma singlevaraux_spec fss n : forall base, Forall scope_ok fss ->
  match singlevaraux fss n base with
  | Ok (fss', var) => Forall2 extends fss fss' /\ Forall scope_ok fss' /\
      ((e_k var = VGLOBAL /\ fss' = fss /\ forall d i, ~ innermost fss n d i) \/
       exists d i, innermost fss n d i /\ variable_of fss' var = Some (d, i) /\ 0 <= info var < 256 /\
         (e_k var = VLOCAL \/ e_k var = VUPVAL) /\
         (d <> O \/ base = false -> exists fs, fss' !! d = Some fs /\ closes fs i))
  | Err e => exists fs, fs ∈ fss /\ zlen (fs_upvalues fs) = GAFQI_MAXUPVALUES /\ e = errorlimit_msg fs GAFQI_MAXUPVALUES "upvalues"
  end.
Proof.
  induction fss as [|fs prev IH]; intros base Hok; simpl.
  { split; [constructor|]. split; [constructor|]. left. split; [done|]. split; [done|]. intros [] i Hf; exact Hf. }
  apply Forall_cons in Hok as [Hfs Hprev]. pose proof Hfs as (Hn & _ & _).
  assert (Forall2 extends prev prev) as Hrefl by (apply Forall_Forall2_diag, Forall_true; apply extends_refl).
  destruct (searchvar_spec fs n) as [[Ev Hnone]|[D Hmax]].
  2:{ destruct (Z.leb_spec 0 (searchvar fs n)); [|destruct D; lia]. set (v := searchvar fs n) in *.
      split; [constructor; [destruct base; done|done]|]. split; [constructor; [by destruct base|done]|].
      right. exists O, v. split; [done|]. split; [done|]. split; [simpl; destruct D as [Hr _]; unfold GAFQI_MAXVARS in Hn; lia|]. split; [by left|].
      intros [?| ->]; [done|]. eexists. split; [done|]. apply markupval_closes. }
  rewrite Ev. simpl. specialize (IH false Hprev). destruct (singlevaraux prev n false) as [[prev' var]|e]; simpl.
  2:{ destruct IH as (f & Hf & H). exists f. split; [by constructor|done]. }
  destruct IH as (Hex & Hok' & IH). destruct IH as [(Ek & -> & Hno)|(d & i & Hin & Hv & Hi & Hk & Hc)].
  - unfold is_k. rewrite Ek. simpl. split; [by constructor|]. split; [by constructor|]. left. split; [done|]. split; [done|].
    intros [|d] i; simpl; [intros [D _]; by eapply Hnone|intros [_ D]; by eapply Hno].
  - assert (is_k var VGLOBAL = false) as -> by (unfold is_k; by destruct Hk as [-> | ->]).
    pose proof (indexupvalue_spec fs n var Hfs Hi Hk) as Hu. destruct (indexupvalue fs n var) as [[fs' u]|e]; simpl.
    2:{ destruct Hu as [-> Hu]. exists fs. split; [by constructor|done]. }
    destruct Hu as (He & Hfs' & Hu & Hb & w & Ew & Ek & Ei). split; [by constructor|]. split; [by constructor|].
    right. exists (S d), i. split; [done|]. unfold variable_of. simpl. rewrite Ew. split; [|split; [unfold GAFQI_MAXUPVALUES in Hu; lia|split; [by right|]]].
    + unfold variable_of in Hv. rewrite Ek, Ei. destruct Hk as [Ek'|Ek']; rewrite Ek' in *; [by injection Hv as <- <-|]. by rewrite Hv.
    + intros _. destruct Hc as (f & Ef & Hc); [by destruct d; [right|left]|]. by exists f.
Qed.

(** C12: the resolution of a name in nested functions: unless a function would get more than
    [GAFQI_MAXUPVALUES] upvalues, which is reported, the descriptor stands for the variable
    that the innermost scope with this name declares: a register, or an upvalue that leads
    to it through the functions in between; the block of a variable that an inner function
    uses will close it, and every upvalue known before still stands for its variable.  A
    name that no function declares is global, and nothing changes. *)
Theorem name_resolution fss n :
  Forall scope_ok fss ->
  match singlevaraux fss n true with
  | Ok (fss', var) =>
      Forall scope_ok fss' /\ (forall u r, upvalue_of fss u = Some r -> upvalue_of fss' u = Some r) /\
      if is_k var VGLOBAL then fss' = fss /\ forall d i, ~ innermost fss n d i
      else exists d i, innermost fss n d i /\ variable_of fss' var = Some (d, i) /\
             (d <> O -> exists fs, fss' !! d = Some fs /\ closes fs i)
  | Err e => exists fs, fs ∈ fss /\ zlen (fs_upvalues fs) = GAFQI_MAXUPVALUES /\ e = errorlimit_msg fs GAFQI_MAXUPVALUES "upvalues"
  end.
Proof.
  intros Hok. pose proof (singlevaraux_spec fss n true Hok) as H. destruct (singlevaraux fss n true) as [[fss' var]|e]; [|done].
  destruct H as (Hex & Hok' & H). split; [done|]. split; [by apply upvalue_of_extends|].
  destruct H as [(Ek & -> & Hno)|(d & i & Hin & Hv & _ & Hk & Hc)].
  - unfold is_k. by rewrite Ek.
  - unfold is_k. rewrite bool_decide_eq_false_2 by (destruct Hk as [-> | ->]; done). exists d, i. split; [done|]. split; [done|]. auto.
Qed.

(** a function with the variables [x], [y], [x] in two blocks, and two functions inside it *)
Definition sample_function (h : pointer) (names : list string) (blocks : list BlockCnt) : FuncState :=
  let g := mkFS [] [] [] 2 (mkTable 255 0 None [] 0 [dummynode_] true 0) h 0 0 (-1) NO_JUMP 0 (zlen names) in
  mkFunc g [] ((fun n => mkLocVar (Some (str n)) 0 0) <$> names) [] [] (Z.of_nat <$> seq 0 (length names)) blocks 0 0 0 0.

Definition nested : list FuncState :=
  [sample_function 8 [] []; sample_function 16 ["z"%string] [];
   sample_function 24 ["x"; "y"; "x"]%string [mkBlock NO_JUMP 1 false true; mkBlock NO_JUMP 0 false false]].

Lemma name_resolution_witness : Forall scope_ok nested /\
  exists fss' var, singlevaraux nested (str "x") true = Ok (fss', var) /\ variable_of fss' var = Some (2%nat, 2) /\
    exists d i, innermost nested (str "x") d i /\ variable_of fss' var = Some (d, i) /\ (d <> O -> exists fs, fss' !! d = Some fs /\ closes fs i).
Proof.
  assert (Forall scope_ok nested) as H by (repeat constructor; vm_compute; congruence).
  split; [exact H|]. pose proof (name_resolution nested (str "x") H) as R. vm_compute in R |- *. naive_solver.
Defined.

(** ** The bounds of the model

    The loops of the model get as many rounds as there is input, and the recursion as many
    levels as [enterlevel] allows.  Two runs with different bounds are compared step by
    step: [same N N' ls m1 m2 R] says that from an analyser state [ls] and the level [N] the
    two computations do the same, and end in the level [N'] with a result related by [R]. *)

Definition same {A} (N N' : Z) (ls : LexState) (m1 m2 : ps A) (R : A -> LexState -> Prop) : Prop :=
  forall s, p_ls s = ls -> p_nCcalls s = N ->
    m1 s = m2 s /\
    match m1 s with
    | Ok (a, s') => p_nCcalls s' = N' /\ lex_ok (p_ls s') /\ R a (p_ls s')
    | Err _ => True
    end.

(** they leave less than [b] to read *)
Notation upto N ls m1 m2 b := (same N N ls m1 m2 (fun _ ls' => (left_over ls' < b)%nat)).

(** a computation that leaves the analyser and the level alone *)
Definition quiet {A} (m : ps A) : Prop :=
  forall s a s', m s = Ok (a, s') -> p_ls s' = p_ls s /\ p_nCcalls s' = p_nCcalls s.

Create HintDb quiet.
Create HintDb upto.

Section Same.

Context {A B : Type}.

Lemma same_bind N N1 N2 ls (m1 m2 : ps A) (k1 k2 : A -> ps B) Q R :
  same N N1 ls m1 m2 Q -> (forall a ls', lex_ok ls' -> Q a ls' -> same N1 N2 ls' (k1 a) (k2 a) R) ->
  same N N2 ls (m1 ≫= k1) (m2 ≫= k2) R.
Proof.
  intros Hm Hk s Es En. unfold mbind, stres_bind. destruct (Hm s Es En) as [<- H]. destruct (m1 s) as [[a s']|]; [|done].
  destruct H as (En' & Hok & HQ). by apply (Hk a (p_ls s')).
Qed.

Lemma same_mono N N' ls (m1 m2 : ps A) (Q R : A -> LexState -> Prop) :
  same N N' ls m1 m2 Q -> (forall a ls', Q a ls' -> R a ls') -> same N N' ls m1 m2 R.
Proof. intros Hm HR s Es En. destruct (Hm s Es En) as [E H]. split; [done|]. destruct (m1 s) as [[]|]; [|done]. naive_solver. Qed.

Lemma same_quiet N N' ls (m : ps A) (k1 k2 : A -> ps B) R :
  quiet m -> (forall a, same N N' ls (k1 a) (k2 a) R) -> same N N' ls (m ≫= k1) (m ≫= k2) R.
Proof.
  intros Hm Hk s Es En. unfold mbind, stres_bind. destruct (m s) as [[a s']|] eqn:E; [|done].
  destruct (Hm _ _ _ E) as [E1 E2]. apply (Hk a); congruence.
Qed.

Lemma same_gets N N' ls (f : LexState -> A) (k1 k2 : A -> ps B) R :
  same N N' ls (k1 (f ls)) (k2 (f ls)) R -> same N N' ls (gets (fun s => f (p_ls s)) ≫= k1) (gets (fun s => f (p_ls s)) ≫= k2) R.
Proof. intros H s Es En. unfold mbind, stres_bind, gets. rewrite Es. by apply H. Qed.

Lemma same_ret N ls (a : A) (R : A -> LexState -> Prop) : lex_ok ls -> R a ls -> same N N ls (mret a) (mret a) R.
Proof. intros Hok HR s <- En. by split. Qed.

Lemma same_raise N N' ls e (R : A -> LexState -> Prop) : same N N' ls (raise e) (raise e) R.
Proof. done. Qed.

Lemma quiet_same N ls (m : ps A) (R : A -> LexState -> Prop) :
  lex_ok ls -> quiet m -> (forall a, R a ls) -> same N N ls m m R.
Proof.
  intros Hok Hm HR s <- En. split; [done|]. destruct (m s) as [[a s']|] eqn:E; [|done].
  destruct (Hm _ _ _ E) as [E1 E2]. split; [congruence|]. rewrite E1. by split.
Qed.

(** *** Computations that only change the function *)

Lemma quiet_bind (m : ps A) (f : A -> ps B) : quiet m -> (forall a, quiet (f a)) -> quiet (m ≫= f).
Proof.
  intros Hm Hf s b s'. unfold mbind, stres_bind. destruct (m s) as [[a s1]|] eqn:E; [|done]. intros E2.
  destruct (Hm _ _ _ E) as [E1 En1]. destruct (Hf _ _ _ _ E2) as [-> ->]. by split.
Qed.

Lemma quiet_ret (a : A) : quiet (mret a).
Proof. by intros s b s' [= <- <-]. Qed.

Lemma quiet_gets (f : PState -> A) : quiet (gets f).
Proof. by intros s b s' [= <- <-]. Qed.

Lemma quiet_raise e : quiet (raise e : ps A).
Proof. done. Qed.

Lemma quiet_lift (r : res A) : quiet (lift r).
Proof. intros s b s'. unfold lift. destruct r; [|done]. by intros [= <- <-]. Qed.

Lemma syntaxerror_raises msg s : exists m u, gafqX_syntaxerror msg s = (Err (SyntaxError m u) : outcome error (A * PState)).
Proof.
  unfold gafqX_syntaxerror, lexer, Lexer.gafqX_syntaxerror, mbind, stres_bind, gets.
  destruct (@lexerror_raises A msg (token (ls_t (p_ls s))) (p_ls s)) as (m & u & ->). by eexists _, _.
Qed.

Lemma quiet_syntaxerror msg : quiet (gafqX_syntaxerror msg : ps A).
Proof. intros s b s'. by destruct (syntaxerror_raises msg s) as (m & u & ->). Qed.

Lemma same_syntaxerror N N' ls msg (R : A -> LexState -> Prop) :
  same N N' ls (gafqX_syntaxerror msg) (gafqX_syntaxerror msg) R.
Proof. intros s _ _. split; [done|]. by destruct (syntaxerror_raises msg s) as (m & u & ->). Qed.

Lemma quiet_lift_limit (r : res A) : quiet (lift_limit r).
Proof. intros s b s'. unfold lift_limit, lift. destruct r as [|[]]; try done. by intros [= <- <-]. Qed.

Lemma quiet_emit (m : codegen A) : quiet (emit m).
Proof.
  intros s b s'. unfold emit. destruct (p_fs s); [done|]. destruct (m _) as [[]|[]]; try done.
  - by intros [= <- <-].
  - apply quiet_syntaxerror.
Qed.

End Same.

Lemma quiet_on_fs f : quiet (on_fs f).
Proof. intros s b s'. unfold on_fs. destruct (p_fs s); [done|]. by intros [= <- <-]. Qed.

Lemma quiet_cur_fs : quiet cur_fs.
Proof. intros s b s'. unfold cur_fs. destruct (p_fs s); [done|]. by intros [= <- <-]. Qed.

#[export] Hint Resolve quiet_ret quiet_gets quiet_raise quiet_lift quiet_lift_limit quiet_syntaxerror quiet_emit quiet_on_fs quiet_cur_fs : quiet.

Ltac quiet :=
  repeat (intros;
    match goal with
    | |- quiet (_ ≫= _) => apply quiet_bind
    | |- quiet (modify _) => by intros ? ? ? [= <- <-]
    | |- quiet (if ?b then _ else _) => destruct b
    | |- quiet (match ?x with _ => _ end) => destruct x
    | |- quiet _ => solve [auto with quiet]
    end).

#[export] Hint Extern 1 (quiet (error_expected _)) => apply quiet_syntaxerror : quiet.
#[export] Hint Extern 1 (quiet cur_token) => apply quiet_gets : quiet.
#[export] Hint Extern 1 (quiet cur_line) => apply quiet_gets : quiet.

Lemma quiet_get_gen {A} (f : gen_state -> A) : quiet (get_gen f).
Proof. unfold get_gen. quiet. Qed.

Lemma quiet_set_freereg r : quiet (set_freereg r).
Proof. unfold set_freereg. quiet. Qed.

Lemma quiet_new_localvar name n : quiet (new_localvar name n).
Proof. unfold new_localvar. quiet. Qed.

Lemma quiet_adjustlocalvars n : quiet (adjustlocalvars n).
Proof. unfold adjustlocalvars. quiet. Qed.

Lemma quiet_enterblock b : quiet (enterblock b).
Proof. unfold enterblock. quiet. Qed.

Lemma quiet_check c : quiet (check c).
Proof. unfold check. quiet. Qed.

Lemma quiet_check_condition c msg : quiet (check_condition c msg).
Proof. unfold check_condition. quiet. Qed.

Lemma quiet_cur_string : quiet cur_string.
Proof. unfold cur_string. quiet. Qed.

Lemma quiet_leaveblock : quiet leaveblock.
Proof. unfold leaveblock. pose proof quiet_set_freereg. quiet. Qed.

Lemma quiet_code_upvalues l : quiet (code_upvalues l).
Proof. induction l; cbn [code_upvalues]; quiet. Qed.

#[export] Hint Resolve quiet_get_gen quiet_set_freereg quiet_new_localvar quiet_adjustlocalvars quiet_enterblock quiet_check
  quiet_check_condition quiet_cur_string quiet_leaveblock quiet_code_upvalues : quiet.

Section Bounds.

Context (E : ParserEnv) (sp1 sp2 : nat).

Lemma quiet_adjust_assign nvars nexps e : quiet (adjust_assign E nvars nexps e).
Proof. unfold adjust_assign. quiet. Qed.

Lemma quiet_lastlistfield cc : quiet (lastlistfield E cc).
Proof. unfold lastlistfield. quiet. Qed.

Lemma quiet_closelistfield cc : quiet (closelistfield E cc).
Proof. unfold closelistfield. quiet. Qed.

Lemma quiet_check_conflict lh v : quiet (check_conflict lh v).
Proof. unfold check_conflict. quiet. Qed.

Lemma quiet_breakstat : quiet breakstat.
Proof. unfold breakstat. quiet. Qed.

Lemma quiet_escape l : quiet (escape l).
Proof. unfold escape. quiet. Qed.

#[local] Hint Resolve quiet_adjust_assign quiet_lastlistfield quiet_closelistfield quiet_check_conflict quiet_breakstat quiet_escape : quiet.

Lemma quiet_newstring s : quiet (newstring E s).
Proof. unfold newstring. quiet. Qed.
#[local] Hint Resolve quiet_newstring : quiet.

Lemma quiet_anchor t : quiet (anchor E t).
Proof. unfold anchor. quiet. Qed.

Lemma quiet_anchor_token : quiet (anchor_token E).
Proof. unfold anchor_token. quiet. Qed.

Lemma quiet_codestring s : quiet (codestring E s).
Proof. unfold codestring. quiet. Qed.

Lemma quiet_new_localvarliteral v n : quiet (new_localvarliteral E v n).
Proof. unfold new_localvarliteral. quiet. Qed.

Lemma quiet_open_func : quiet (open_func E).
Proof. unfold open_func. quiet. Qed.

#[local] Hint Resolve quiet_anchor quiet_anchor_token quiet_codestring quiet_new_localvarliteral quiet_open_func : quiet.

Lemma quiet_close_func : quiet (close_func E).
Proof. unfold close_func. quiet. Qed.

Lemma quiet_pushclosure func : quiet (pushclosure E func).
Proof. unfold pushclosure. quiet. Qed.

#[local] Hint Resolve quiet_close_func quiet_pushclosure : quiet.

(** *** Tokens *)

Lemma upto_lexer {A} N ls (m : lex A) b : lexes m ls (fun _ ls' => (left_over ls' < b)%nat) -> upto N ls (lexer m) (lexer m) b.
Proof.
  intros H s <- En. split; [done|]. unfold lexer, lexes in *. destruct (m (p_ls s)) as [[a ls']|]; [|done]. by destruct H.
Qed.

Lemma next_keeps N ls : lex_ok ls -> upto N ls (p_next E) (p_next E) (S (left_over ls)).
Proof.
  intros Hok. unfold p_next. apply same_gets with (f := fun ls => token (ls_lookahead ls)). eapply same_bind.
  { apply upto_lexer. eapply lexes_impl; [by apply next_reads|]. cbv beta. intros _ ls' [H _]. exact (proj2 (Nat.lt_succ_r _ _) H). }
  cbv beta. intros _ ls1 Hok1 H1. apply quiet_same; [done|quiet|done].
Qed.

Lemma next_eats N ls : lex_ok ls -> token (ls_t ls) <> TK_EOS -> upto N ls (p_next E) (p_next E) (left_over ls).
Proof.
  intros Hok Ht. unfold p_next. apply same_gets with (f := fun ls => token (ls_lookahead ls)). eapply same_bind.
  { apply upto_lexer. eapply lexes_impl; [by apply next_reads|]. cbv beta. intros _ ls' [_ H]. exact (H Ht). }
  cbv beta. intros _ ls1 Hok1 H1. apply quiet_same; [done|quiet|done].
Qed.

Lemma lookahead_keeps N ls : lex_ok ls -> upto N ls (p_lookahead E) (p_lookahead E) (S (left_over ls)).
Proof.
  intros Hok. unfold p_lookahead. eapply same_bind.
  { apply upto_lexer. eapply lexes_impl; [by apply lookahead_reads|]. cbv beta. intros _ ls' [H _]. exact (proj2 (Nat.lt_succ_r _ _) H). }
  cbv beta. intros _ ls1 Hok1 H1. apply quiet_same; [done|quiet|done].
Qed.

Lemma same_token {B} N N' ls (k1 k2 : Z -> ps B) R :
  same N N' ls (k1 (token (ls_t ls))) (k2 (token (ls_t ls))) R -> same N N' ls (cur_token ≫= k1) (cur_token ≫= k2) R.
Proof. apply same_gets with (f := fun ls => token (ls_t ls)). Qed.

(** a test that succeeds reads a token *)
Lemma same_testnext {B} N N' ls c (k1 k2 : bool -> ps B) R :
  lex_ok ls -> c <> TK_EOS ->
  (forall ls', lex_ok ls' -> (left_over ls' < left_over ls)%nat -> same N N' ls' (k1 true) (k2 true) R) ->
  same N N' ls (k1 false) (k2 false) R ->
  same N N' ls (testnext E c ≫= k1) (testnext E c ≫= k2) R.
Proof.
  intros Hok Hc Ht Hf. eapply same_bind with (Q := fun b ls' => if (b : bool) then (left_over ls' < left_over ls)%nat else ls' = ls).
  - unfold testnext. apply same_token. destruct (Z.eqb_spec (token (ls_t ls)) c); [|by apply same_ret].
    eapply same_bind; [apply next_eats; congruence|]. cbv beta. intros _ ls' Hok' H. by apply same_ret.
  - intros [] ls' Hok' H; [by apply Ht|by subst].
Qed.

Lemma testnext_keeps N ls c : lex_ok ls -> upto N ls (testnext E c) (testnext E c) (S (left_over ls)).
Proof.
  intros Hok. unfold testnext. apply same_token. destruct (_ =? c); [|apply same_ret; [done|lia]].
  eapply same_bind; [by apply next_keeps|]. cbv beta. intros _ ls' Hok' H. by apply same_ret.
Qed.

Lemma same_fuel {B} N N' ls (k1 k2 : nat -> ps B) R :
  (forall f1 f2, (left_over ls < f1)%nat -> (left_over ls < f2)%nat -> same N N' ls (k1 f1) (k2 f2) R) ->
  same N N' ls (loop_fuel sp1 ≫= k1) (loop_fuel sp2 ≫= k2) R.
Proof.
  intros H s Es En. unfold mbind, stres_bind, loop_fuel, gets. rewrite Es. pose proof (lex_fuel_left ls).
  apply H; try done; unfold left_over; repeat destruct (_ =? _); lia.
Qed.

#[local] Hint Extern 1 (lex_ok _) => assumption : upto.
#[local] Hint Extern 1 (token (ls_t ?ls) <> TK_EOS) =>
  solve [assumption | let Eq := fresh in intros Eq; match goal with H : _ = true |- _ => rewrite Eq in H; discriminate H end] : upto.
#[local] Hint Resolve next_eats | 1 : upto.
#[local] Hint Resolve next_keeps | 5 : upto.
#[local] Hint Resolve lookahead_keeps testnext_keeps : upto.

(** a step of the two computations *)
Ltac step :=
  match goal with
  | |- same _ _ _ (mret _) (mret _) _ => apply same_ret; [assumption|cbv beta; lia]
  | |- same _ _ _ (raise _) (raise _) _ => apply same_raise
  | |- same _ _ _ (gafqX_syntaxerror _) _ _ => apply same_syntaxerror
  | |- same _ _ _ (cur_token ≫= _) _ _ => apply same_token
  | |- same _ _ _ (testnext _ _ ≫= _) _ _ => apply same_testnext; [assumption|discriminate|intros ? ? ?|]
  | |- same _ _ _ (loop_fuel _ ≫= _) _ _ => apply same_fuel; intros ? ? ? ?
  | |- same _ _ _ (if ?b then _ else _) _ _ => destruct b eqn:?
  | |- same _ _ _ (match ?x with _ => _ end) _ _ => destruct x
  | |- same _ _ _ (?m ≫= _) (?m ≫= _) _ => apply same_quiet; [solve [quiet]|intros]
  | |- same _ _ _ (_ ≫= _) (_ ≫= _) _ => eapply same_bind; [solve [eauto with upto]|cbv beta; intros ? ? ? ?]
  | |- same _ _ _ _ _ _ => eapply same_mono; [solve [eauto with upto]|cbv beta; intros; lia]
  | |- same _ _ _ ?m ?m _ => apply quiet_same; [assumption|solve [quiet]|cbv beta; intros; lia]
  end.

Ltac steps := repeat step.

(** a conditional computation before the rest *)
Ltac branch b := eapply same_bind with (Q := fun _ ls' => (left_over ls' < b)%nat); [|cbv beta; intros ? ? ? ?].

Section Step.

Context (N : Z).

Lemma checknext_keeps ls c : lex_ok ls -> upto N ls (checknext E c) (checknext E c) (S (left_over ls)).
Proof. intros Hok. unfold checknext. steps. Qed.

Lemma check_match_keeps ls a b c : lex_ok ls -> upto N ls (check_match E a b c) (check_match E a b c) (S (left_over ls)).
Proof.
  intros Hok. unfold check_match. eapply same_bind; [by apply testnext_keeps|]. cbv beta. intros [] ls' Hok' H; steps.
Qed.

Lemma str_checkname_eats ls :
  lex_ok ls -> token (ls_t ls) <> TK_EOS -> upto N ls (str_checkname E) (str_checkname E) (left_over ls).
Proof. intros Hok Ht. unfold str_checkname. steps. Qed.

Lemma str_checkname_keeps ls : lex_ok ls -> upto N ls (str_checkname E) (str_checkname E) (S (left_over ls)).
Proof. intros Hok. unfold str_checkname. steps. Qed.

#[local] Hint Resolve str_checkname_eats | 1 : upto.
#[local] Hint Resolve str_checkname_keeps | 5 : upto.
#[local] Hint Resolve checknext_keeps check_match_keeps : upto.

Lemma checkname_keeps ls : lex_ok ls -> upto N ls (checkname E) (checkname E) (S (left_over ls)).
Proof. intros Hok. unfold checkname. steps. Qed.
#[local] Hint Resolve checkname_keeps : upto.

Lemma singlevar_eats ls : lex_ok ls -> token (ls_t ls) <> TK_EOS -> upto N ls (singlevar E) (singlevar E) (left_over ls).
Proof. intros Hok Ht. unfold singlevar. steps. Qed.

Lemma singlevar_keeps ls : lex_ok ls -> upto N ls (singlevar E) (singlevar E) (S (left_over ls)).
Proof. intros Hok. unfold singlevar. steps. Qed.
#[local] Hint Resolve singlevar_eats | 1 : upto.
#[local] Hint Resolve singlevar_keeps | 5 : upto.

Lemma field_eats ls v : lex_ok ls -> token (ls_t ls) <> TK_EOS -> upto N ls (field E v) (field E v) (left_over ls).
Proof. intros Hok Ht. unfold field. steps. Qed.
#[local] Hint Resolve field_eats : upto.

Lemma parlist_loop_keeps f1 : forall f2 ls n, lex_ok ls -> (left_over ls < f1)%nat -> (left_over ls < f2)%nat ->
  upto N ls (parlist_loop E f1 n) (parlist_loop E f2 n) (S (left_over ls)).
Proof.
  induction f1 as [|f1 IH]; intros [|f2] ls n Hok H1 H2; try lia. cbn [parlist_loop]. step.
  branch (S (left_over ls)); [steps|]. step. step; [steps|]. step; [|steps].
  eapply same_mono; [apply IH; [done|lia|lia]|cbv beta; lia].
Qed.

Lemma parlist_keeps ls : lex_ok ls -> upto N ls (parlist E sp1) (parlist E sp2) (S (left_over ls)).
Proof.
  intros Hok. unfold parlist. step. step. step. branch (S (left_over ls)); [|steps]. step; [|steps]. by apply parlist_loop_keeps.
Qed.

Lemma namelist_keeps f1 : forall f2 ls n, lex_ok ls -> (left_over ls < f1)%nat -> (left_over ls < f2)%nat ->
  upto N ls (namelist E f1 n) (namelist E f2 n) (S (left_over ls)).
Proof.
  induction f1 as [|f1 IH]; intros [|f2] ls n Hok H1 H2; try lia. cbn [namelist]. step; [|steps]. step. step.
  eapply same_mono; [apply IH; [done|lia|lia]|cbv beta; lia].
Qed.

Lemma funcname_loop_keeps f1 : forall f2 ls v, lex_ok ls -> (left_over ls < f1)%nat -> (left_over ls < f2)%nat ->
  upto N ls (funcname_loop E f1 v) (funcname_loop E f2 v) (S (left_over ls)).
Proof.
  induction f1 as [|f1 IH]; intros [|f2] ls v Hok H1 H2; try lia. cbn [funcname_loop]. step. step; [|steps]. step.
  eapply same_mono; [apply IH; [done|lia|lia]|cbv beta; lia].
Qed.
#[local] Hint Resolve parlist_keeps namelist_keeps funcname_loop_keeps : upto.

Lemma funcname_keeps ls : lex_ok ls -> upto N ls (funcname E sp1) (funcname E sp2) (S (left_over ls)).
Proof. intros Hok. unfold funcname. steps. Qed.
#[local] Hint Resolve funcname_keeps : upto.

(** *** Grammar rules *)

Context (sub1 sub2 : Z -> ps (expdesc * BinOpr)) (ch1 ch2 : ps unit).
Hypothesis subexpr_same : forall limit ls, 0 <= limit -> lex_ok ls ->
  same N N ls (sub1 limit) (sub2 limit) (fun r ls' => (left_over ls' < S (left_over ls))%nat /\ r.2 = getbinopr (token (ls_t ls'))).
Hypothesis chunk_same : forall ls, lex_ok ls -> upto N ls ch1 ch2 (S (left_over ls)).

#[local] Hint Resolve chunk_same : upto.

Lemma expr_keeps ls : lex_ok ls -> upto N ls (expr sub1) (expr sub2) (S (left_over ls)).
Proof.
  intros Hok. unfold expr. eapply same_bind; [by apply subexpr_same|]. cbv beta. intros r ls' Hok' [H _]. steps.
Qed.
#[local] Hint Resolve expr_keeps : upto.

Lemma yindex_eats ls : lex_ok ls -> token (ls_t ls) <> TK_EOS -> upto N ls (yindex E sub1) (yindex E sub2) (left_over ls).
Proof. intros Hok Ht. unfold yindex. steps. Qed.

Lemma yindex_keeps ls : lex_ok ls -> upto N ls (yindex E sub1) (yindex E sub2) (S (left_over ls)).
Proof. intros Hok. unfold yindex. steps. Qed.
#[local] Hint Resolve yindex_eats | 1 : upto.
#[local] Hint Resolve yindex_keeps | 5 : upto.

Lemma recfield_keeps ls cc : lex_ok ls -> upto N ls (recfield E sub1 cc) (recfield E sub2 cc) (S (left_over ls)).
Proof. intros Hok. unfold recfield. step. step. branch (S (left_over ls)); steps. Qed.

Lemma listfield_keeps ls cc : lex_ok ls -> upto N ls (listfield sub1 cc) (listfield sub2 cc) (S (left_over ls)).
Proof. intros Hok. unfold listfield. steps. Qed.
#[local] Hint Resolve recfield_keeps listfield_keeps : upto.

(** [same_testnext] for the two separators *)
Lemma same_separator {B} ls (k1 k2 : bool -> ps B) R :
  lex_ok ls -> (forall ls', lex_ok ls' -> (left_over ls' < left_over ls)%nat -> same N N ls' (k1 true) (k2 true) R) ->
  same N N ls (k1 false) (k2 false) R -> same N N ls (separator E ≫= k1) (separator E ≫= k2) R.
Proof.
  intros Hok Ht Hf. eapply same_bind with (Q := fun b ls' => if (b : bool) then (left_over ls' < left_over ls)%nat else ls' = ls).
  - unfold separator. step; [by apply same_ret|]. unfold testnext. step. step; [|by apply same_ret]. step. by apply same_ret.
  - intros [] ls' Hok' H; [by apply Ht|by subst].
Qed.

Lemma constructor_loop_keeps f1 : forall f2 ls cc, lex_ok ls -> (left_over ls < f1)%nat -> (left_over ls < f2)%nat ->
  upto N ls (constructor_loop E sub1 f1 cc) (constructor_loop E sub2 f2 cc) (S (left_over ls)).
Proof.
  induction f1 as [|f1 IH]; intros [|f2] ls cc Hok H1 H2; try lia. cbn [constructor_loop]. step. step; [steps|]. step.
  branch (S (left_over ls)); [steps|]. apply same_separator; [done| |steps].
  intros ls2 Hok2 Hl. eapply same_mono; [apply IH; [done|lia|lia]|cbv beta; lia].
Qed.
#[local] Hint Resolve constructor_loop_keeps : upto.

Lemma constructor_keeps ls : lex_ok ls -> upto N ls (constructor E sp1 sub1) (constructor E sp2 sub2) (S (left_over ls)).
Proof. intros Hok. unfold constructor. steps. Qed.

Lemma constructor_eats ls : lex_ok ls -> token (ls_t ls) <> TK_EOS ->
  upto N ls (constructor E sp1 sub1) (constructor E sp2 sub2) (left_over ls).
Proof. intros Hok Ht. unfold constructor. step. step. step. branch (left_over ls); [unfold checknext; steps|]. steps. Qed.
#[local] Hint Resolve constructor_eats | 1 : upto.
#[local] Hint Resolve constructor_keeps | 5 : upto.

Lemma body_keeps ls needself line : lex_ok ls ->
  upto N ls (body E sp1 ch1 needself line) (body E sp2 ch2 needself line) (S (left_over ls)).
Proof. intros Hok. unfold body. steps. Qed.
#[local] Hint Resolve body_keeps : upto.

Lemma explist_loop_keeps f1 : forall f2 ls v n, lex_ok ls -> (left_over ls < f1)%nat -> (left_over ls < f2)%nat ->
  upto N ls (explist_loop E sub1 f1 v n) (explist_loop E sub2 f2 v n) (S (left_over ls)).
Proof.
  induction f1 as [|f1 IH]; intros [|f2] ls v n Hok H1 H2; try lia. cbn [explist_loop]. step; [|steps]. step. step.
  eapply same_mono; [apply IH; [done|lia|lia]|cbv beta; lia].
Qed.
#[local] Hint Resolve explist_loop_keeps : upto.

Lemma explist1_keeps ls : lex_ok ls -> upto N ls (explist1 E sp1 sub1) (explist1 E sp2 sub2) (S (left_over ls)).
Proof. intros Hok. unfold explist1. steps. Qed.
#[local] Hint Resolve explist1_keeps : upto.

Lemma funcargs_eats ls f : lex_ok ls -> token (ls_t ls) <> TK_EOS ->
  upto N ls (funcargs E sp1 sub1 f) (funcargs E sp2 sub2 f) (left_over ls).
Proof.
  intros Hok Ht. unfold funcargs. step. step. branch (left_over ls); [|steps].
  step; [|steps]. step. step. step. step. branch (S (left_over ls')); steps.
Qed.
#[local] Hint Resolve funcargs_eats : upto.

Lemma funcargs_keeps ls f : lex_ok ls -> upto N ls (funcargs E sp1 sub1 f) (funcargs E sp2 sub2 f) (S (left_over ls)).
Proof.
  intros Hok. unfold funcargs. step. step. branch (S (left_over ls)); [|steps].
  step; [|steps]. step. step. step. step. branch (S (left_over ls)); steps.
Qed.
#[local] Hint Resolve funcargs_keeps | 5 : upto.

(** an expression that may start with a name or a parenthesis *)
Lemma prefixexp_eats ls : lex_ok ls -> upto N ls (prefixexp E sub1) (prefixexp E sub2) (left_over ls).
Proof. intros Hok. unfold prefixexp. steps. Qed.
#[local] Hint Resolve prefixexp_eats : upto.

Lemma primaryexp_loop_keeps f1 : forall f2 ls v, lex_ok ls -> (left_over ls < f1)%nat -> (left_over ls < f2)%nat ->
  upto N ls (primaryexp_loop E sp1 sub1 f1 v) (primaryexp_loop E sp2 sub2 f2 v) (S (left_over ls)).
Proof.
  induction f1 as [|f1 IH]; intros [|f2] ls v Hok H1 H2; try lia. cbn [primaryexp_loop]. step.
  assert (forall ls' v, lex_ok ls' -> (left_over ls' < left_over ls)%nat ->
    upto N ls' (primaryexp_loop E sp1 sub1 f1 v) (primaryexp_loop E sp2 sub2 f2 v) (S (left_over ls))) as Hrec.
  { intros ls' w Hok' Hl. eapply same_mono; [apply IH; [done|lia|lia]|cbv beta; lia]. }
  repeat (step; [repeat first [apply Hrec; [done|lia] | step]|]). steps.
Qed.
#[local] Hint Resolve primaryexp_loop_keeps : upto.

Lemma primaryexp_eats ls : lex_ok ls -> upto N ls (primaryexp E sp1 sub1) (primaryexp E sp2 sub2) (left_over ls).
Proof. intros Hok. unfold primaryexp. steps. Qed.
#[local] Hint Resolve primaryexp_eats : upto.

Lemma simpleexp_keeps ls : lex_ok ls -> upto N ls (simpleexp E sp1 sub1 ch1) (simpleexp E sp2 sub2 ch2) (S (left_over ls)).
Proof. intros Hok. unfold simpleexp. apply same_gets with (f := ls_t). steps. Qed.

(** *** Statements *)

Lemma block_keeps ls : lex_ok ls -> upto N ls (block ch1) (block ch2) (S (left_over ls)).
Proof. intros Hok. unfold block. steps. Qed.
#[local] Hint Resolve block_keeps : upto.

Lemma assignment_keeps f1 : forall f2 ls v lh n, lex_ok ls -> (left_over ls < f1)%nat -> (left_over ls < f2)%nat ->
  upto N ls (assignment E sp1 sub1 f1 v lh n) (assignment E sp2 sub2 f2 v lh n) (S (left_over ls)).
Proof.
  induction f1 as [|f1 IH]; intros [|f2] ls v lh n Hok H1 H2; try lia. cbn [assignment]. step. step; [|steps].
  do 5 step. branch (left_over ls); [eapply same_mono; [apply IH; [done|lia|lia]|cbv beta; lia]|]. steps.
Qed.
#[local] Hint Resolve assignment_keeps : upto.

Lemma cond_keeps ls : lex_ok ls -> upto N ls (cond E sub1) (cond E sub2) (S (left_over ls)).
Proof. intros Hok. unfold cond. steps. Qed.
#[local] Hint Resolve cond_keeps : upto.

Lemma whilestat_eats ls line : lex_ok ls -> token (ls_t ls) <> TK_EOS ->
  upto N ls (whilestat E sub1 ch1 line) (whilestat E sub2 ch2 line) (left_over ls).
Proof. intros Hok Ht. unfold whilestat. steps. Qed.

Lemma repeatstat_eats ls line : lex_ok ls -> token (ls_t ls) <> TK_EOS ->
  upto N ls (repeatstat E sub1 ch1 line) (repeatstat E sub2 ch2 line) (left_over ls).
Proof. intros Hok Ht. unfold repeatstat. steps. Qed.

Lemma exp1_keeps ls : lex_ok ls -> upto N ls (exp1 E sub1) (exp1 E sub2) (S (left_over ls)).
Proof. intros Hok. unfold exp1. steps. Qed.

Lemma forbody_keeps ls base line nvars isnum : lex_ok ls ->
  upto N ls (forbody E ch1 base line nvars isnum) (forbody E ch2 base line nvars isnum) (S (left_over ls)).
Proof. intros Hok. unfold forbody. steps. Qed.
#[local] Hint Resolve whilestat_eats repeatstat_eats exp1_keeps forbody_keeps : upto.

Lemma fornum_keeps ls v line : lex_ok ls -> upto N ls (fornum E sub1 ch1 v line) (fornum E sub2 ch2 v line) (S (left_over ls)).
Proof. intros Hok. unfold fornum. steps. Qed.

Lemma forlist_keeps ls v : lex_ok ls -> upto N ls (forlist E sp1 sub1 ch1 v) (forlist E sp2 sub2 ch2 v) (S (left_over ls)).
Proof. intros Hok. unfold forlist. steps. Qed.
#[local] Hint Resolve fornum_keeps forlist_keeps : upto.

Lemma forstat_eats ls line : lex_ok ls -> token (ls_t ls) <> TK_EOS ->
  upto N ls (forstat E sp1 sub1 ch1 line) (forstat E sp2 sub2 ch2 line) (left_over ls).
Proof. intros Hok Ht. unfold forstat. step. step. step. step. branch (left_over ls); steps. Qed.

Lemma test_then_block_eats ls : lex_ok ls -> token (ls_t ls) <> TK_EOS ->
  upto N ls (test_then_block E sub1 ch1) (test_then_block E sub2 ch2) (left_over ls).
Proof. intros Hok Ht. unfold test_then_block. steps. Qed.
#[local] Hint Resolve forstat_eats test_then_block_eats : upto.

Lemma elseif_loop_keeps f1 : forall f2 ls a b, lex_ok ls -> (left_over ls < f1)%nat -> (left_over ls < f2)%nat ->
  upto N ls (elseif_loop E sub1 ch1 f1 a b) (elseif_loop E sub2 ch2 f2 a b) (S (left_over ls)).
Proof.
  induction f1 as [|f1 IH]; intros [|f2] ls a b Hok H1 H2; try lia. cbn [elseif_loop]. step. step; [|steps]. do 3 step.
  eapply same_mono; [apply IH; [done|lia|lia]|cbv beta; lia].
Qed.
#[local] Hint Resolve elseif_loop_keeps : upto.

Lemma ifstat_eats ls line : lex_ok ls -> token (ls_t ls) <> TK_EOS ->
  upto N ls (ifstat E sp1 sub1 ch1 line) (ifstat E sp2 sub2 ch2 line) (left_over ls).
Proof. intros Hok Ht. unfold ifstat. do 5 step. branch (left_over ls); steps. Qed.

Lemma localfunc_keeps ls : lex_ok ls -> upto N ls (localfunc E sp1 ch1) (localfunc E sp2 ch2) (S (left_over ls)).
Proof. intros Hok. unfold localfunc. steps. Qed.

Lemma localstat_keeps ls : lex_ok ls -> upto N ls (localstat E sp1 sub1) (localstat E sp2 sub2) (S (left_over ls)).
Proof. intros Hok. unfold localstat. do 4 step. step; steps. Qed.

Lemma funcstat_eats ls line : lex_ok ls -> token (ls_t ls) <> TK_EOS ->
  upto N ls (funcstat E sp1 ch1 line) (funcstat E sp2 ch2 line) (left_over ls).
Proof. intros Hok Ht. unfold funcstat. steps. Qed.

Lemma exprstat_eats ls : lex_ok ls -> upto N ls (exprstat E sp1 sub1) (exprstat E sp2 sub2) (left_over ls).
Proof. intros Hok. unfold exprstat. steps. Qed.

Lemma retstat_eats ls : lex_ok ls -> token (ls_t ls) <> TK_EOS ->
  upto N ls (retstat E sp1 sub1) (retstat E sp2 sub2) (left_over ls).
Proof. intros Hok Ht. unfold retstat. step. step. branch (left_over ls); steps. Qed.
#[local] Hint Resolve ifstat_eats localfunc_keeps localstat_keeps funcstat_eats exprstat_eats retstat_eats : upto.

Lemma statement_eats ls : lex_ok ls -> token (ls_t ls) <> TK_EOS ->
  upto N ls (statement E sp1 sub1 ch1) (statement E sp2 sub2 ch2) (left_over ls).
Proof.
  intros Hok Ht. unfold statement. do 2 step. do 6 (step; [steps|]). step; [|steps].
  do 2 step; branch (left_over ls); steps.
Qed.
#[local] Hint Resolve statement_eats : upto.

Lemma chunk_loop_keeps f1 : forall f2 ls, lex_ok ls -> (left_over ls < f1)%nat -> (left_over ls < f2)%nat ->
  upto N ls (chunk_loop E sp1 sub1 ch1 f1) (chunk_loop E sp2 sub2 ch2 f2) (S (left_over ls)).
Proof.
  induction f1 as [|f1 IH]; intros [|f2] ls Hok H1 H2; try lia. cbn [chunk_loop]. step. step; [steps|].
  assert (token (ls_t ls) <> TK_EOS) as Ht by (intros Eq; rewrite Eq in *; discriminate).
  step. eapply same_bind; [by apply testnext_keeps|]. cbv beta. intros _ ls2 Hok2 H3. step. step; [steps|].
  eapply same_mono; [apply IH; [done|lia|lia]|cbv beta; lia].
Qed.

(** a binary operator is the current token; [subexpr] returns it *)
Lemma binop_loop_same f1 : forall f2 ls v limit, 0 <= limit -> lex_ok ls -> (left_over ls < f1)%nat -> (left_over ls < f2)%nat ->
  same N N ls (binop_loop E sub1 f1 v (getbinopr (token (ls_t ls))) limit) (binop_loop E sub2 f2 v (getbinopr (token (ls_t ls))) limit)
    (fun r ls' => (left_over ls' < S (left_over ls))%nat /\ r.2 = getbinopr (token (ls_t ls'))).
Proof.
  induction f1 as [|f1 IH]; intros [|f2] ls v limit Hm Hok H1 H2; try lia. cbn [binop_loop].
  destruct (Z.ltb_spec limit (priority (getbinopr (token (ls_t ls)))).1) as [Hp|]; [|apply same_ret; [done|split; [lia|done]]].
  assert (token (ls_t ls) <> TK_EOS) as Ht by (intros Eq; rewrite Eq in Hp; change (limit < 0) in Hp; lia).
  step. step. eapply same_bind; [apply subexpr_same; [by destruct (getbinopr (token (ls_t ls)))|done]|].
  cbv beta. intros [v2 op] ls2 Hok2 [Hl Eop]. simpl in Eop. subst op. step.
  eapply same_mono; [apply IH; [done|done|lia|lia]|]. cbv beta. intros r ls3 [? ?]. split; [lia|done].
Qed.

End Step.

Lemma same_enterlevel {B} N N' ls (k1 k2 : unit -> ps B) R :
  (N + 1 <= GAFQI_MAXCCALLS -> same (N + 1) N' ls (k1 tt) (k2 tt) R) -> same N N' ls (enterlevel ≫= k1) (enterlevel ≫= k2) R.
Proof.
  intros H s Es En. unfold mbind, stres_bind, enterlevel, modify, gets, mbind, stres_bind. simpl.
  destruct (Z.ltb_spec GAFQI_MAXCCALLS (p_nCcalls s + 1)); [done|]. apply H; simpl; [lia|done|lia].
Qed.

Lemma same_leavelevel N ls R : lex_ok ls -> R tt ls -> same (N + 1) N ls leavelevel leavelevel R.
Proof. intros Hok HR s <- En. split; [done|]. simpl. split; [lia|done]. Qed.

#[local] Instance parser_ops : TableOps Table Slot := constants_ops E.

Lemma subexpr_S sp d limit : subexpr E sp (S d) limit =
  (enterlevel;;
   t ← cur_token;
   v ← (match getunopr t with
        | OPR_NOUNOPR => simpleexp E sp (subexpr E sp d) (chunk E sp d)
        | uop => p_next E;; r ← subexpr E sp d UNARY_PRIORITY; emit (gafqK_prefix (env_pow E) uop r.1)
        end);
   t ← cur_token;
   fuel ← loop_fuel sp;
   r ← binop_loop E (subexpr E sp d) fuel v (getbinopr t) limit;
   leavelevel;;
   mret r).
Proof. done. Qed.

Lemma chunk_S sp d : chunk E sp (S d) =
  (enterlevel;; fuel ← loop_fuel sp; chunk_loop E sp (subexpr E sp d) (chunk E sp d) fuel;; leavelevel).
Proof. done. Qed.

(** with enough levels for those that [enterlevel] admits, more of them change nothing *)
Lemma levels_same d1 : forall d2 N, GAFQI_MAXCCALLS - N < Z.of_nat d1 -> GAFQI_MAXCCALLS - N < Z.of_nat d2 -> (0 < d1)%nat -> (0 < d2)%nat ->
  (forall limit ls, 0 <= limit -> lex_ok ls ->
     same N N ls (subexpr E sp1 d1 limit) (subexpr E sp2 d2 limit)
       (fun r ls' => (left_over ls' < S (left_over ls))%nat /\ r.2 = getbinopr (token (ls_t ls')))) /\
  (forall ls, lex_ok ls -> upto N ls (chunk E sp1 d1) (chunk E sp2 d2) (S (left_over ls))).
Proof.
  induction d1 as [|d1 IH]; intros [|d2] N H1 H2 P1 P2; try lia. split.
  - intros limit ls Hm Hok. rewrite !subexpr_S. apply same_enterlevel. intros HN.
    destruct (IH d2 (N + 1)) as [Hsub Hch]; try lia. step. branch (S (left_over ls)).
    + pose proof (simpleexp_keeps (N + 1) _ _ _ _ Hsub Hch ls Hok).
      destruct (getunopr (token (ls_t ls))); try eassumption.
      all: step; eapply same_bind; [apply Hsub; [unfold UNARY_PRIORITY; lia|done]|]; cbv beta; intros r ls2 Hok2 [Hl _]; step.
    + step. step. eapply same_bind; [by apply (binop_loop_same (N + 1) _ _ Hsub)|].
      cbv beta. intros r ls2 Hok2 [Hl Er]. eapply same_bind; [apply same_leavelevel with (R := fun _ l => l = ls2); done|].
      intros _ ? _ ->. apply same_ret; [done|]. split; [lia|done].
  - intros ls Hok. rewrite !chunk_S. apply same_enterlevel. intros HN. destruct (IH d2 (N + 1)) as [Hsub Hch]; try lia. step.
    eapply same_bind; [by apply (chunk_loop_keeps (N + 1) _ _ _ _ Hsub Hch)|]. cbv beta. intros _ ls2 Hok2 Hl.
    by apply same_leavelevel.
Qed.

End Bounds.

(** a new stream is in order for the analyser *)
Lemma setinput_ok z ls : zok z -> lex_ok (gafqX_setinput z ls).
Proof.
  intros Hz. pose proof (zgetc_spec z Hz) as H. unfold gafqX_setinput. destruct (zgetc z) as [c z']. simpl in H.
  destruct (pending z); [by left; subst|]. right. destruct H as (-> & Hd & Hz' & _). by split.
Qed.


(** strings at addresses that encode them, and a reader of one block *)
Fixpoint encode (b : bytes) : pointer := match b with [] => 1 | c :: b => c + 256 * encode b end.
Fixpoint decode (n : nat) (p : pointer) : bytes :=
  match n with O => [] | S n => if p =? 1 then [] else p mod 256 :: decode n (p / 256) end.

Definition sample_env : ParserEnv :=
  mkEnv ex_strtod ex_strtod (chr ".") encode (decode 20) id (fun a _ => a) 8 (str "sample").

Definition sample_input : ZIO := gafqZ_init [str "local x = y; return function () return x end"].

