(* ===== verification/Heap.v ===== *)
(** * The object memory: gstate.h, gobject.h, ggc.h

    The collectable objects of the program and the global state that the
    collector works on.  An object is its header field [marked] and its body; the
    tag [tt] is the constructor of the body.  A pointer that is not in [heap] is
    not allocated: reading through it is undefined behaviour.

    A chain of objects through their [next] fields is the list of their
    addresses: [rootgc], the buckets of the string table, the open upvalues of a
    thread and the circular list [tmudata] (its last element is the one the C
    variable points to).  The lists [gray], [grayagain] and [weak], chained through
    [gclist], are represented in the same way.  An object has one [next] and one
    [gclist] field: that the lists have no element twice, and none in common, is
    part of the invariant that the operations are shown to keep (GcInv.v).

    [StkId] is an index into the stack of a thread; a saved program counter is an
    index into the code of a function, and a C function is its address.  The fields
    of the debug hooks are left out. *)

From stdpp Require Import gmap.
From S2P Require Import Prelude Number Object Table.

(** ** Objects *)

(** [TString], without the header *)
Record StringObj := mkStringObj { tsv_hash : Z; tsv_reserved : Z; tsv_str : bytes }.

(** [u_block] is the first word of the block, where the libraries keep a handle *)
Record Udata := mkUdata { u_metatable : option pointer; u_env : pointer; u_len : Z; u_block : Z }.

(** [Proto] as an object; the vectors are lists *)
Record ProtoObj := mkProtoObj {
  p_k : list TValue;
  p_code : list Z;
  p_p : list (option pointer);
  p_lineinfo : list Z;
  p_locvars : list (option pointer * Z * Z);
  p_upvalues : list (option pointer);
  p_source : option pointer;
  p_linedefined : Z;
  p_lastlinedefined : Z;
  p_nups : Z;   (* lu_byte *)
  p_numparams : Z;
  p_is_vararg : Z;
  p_maxstacksize : Z
}.

(** [UpVal]: while open, [v] is a slot of a stack and the union holds the links
    of the list [uvhead]; once closed, [v] points to the value in the union *)
Inductive UpVal :=
  | UOpen (th : pointer) (level : Z) (prev nxt : pointer)
  | UClosed (value : TValue).

Record CallInfo := mkCI {
  ci_base : Z;
  ci_func : Z;
  ci_top : Z;
  ci_savedpc : Z;   (* index into the code of the function *)
  ci_nresults : Z;
  ci_tailcalls : Z
}.

Definition set_ci_base (ci : CallInfo) (x : Z) : CallInfo :=
  mkCI x (ci_func ci) (ci_top ci) (ci_savedpc ci) (ci_nresults ci) (ci_tailcalls ci).
Definition set_ci_func (ci : CallInfo) (x : Z) : CallInfo :=
  mkCI (ci_base ci) x (ci_top ci) (ci_savedpc ci) (ci_nresults ci) (ci_tailcalls ci).
Definition set_ci_top (ci : CallInfo) (x : Z) : CallInfo :=
  mkCI (ci_base ci) (ci_func ci) x (ci_savedpc ci) (ci_nresults ci) (ci_tailcalls ci).
Definition set_ci_savedpc (ci : CallInfo) (x : Z) : CallInfo :=
  mkCI (ci_base ci) (ci_func ci) (ci_top ci) x (ci_nresults ci) (ci_tailcalls ci).
Definition set_ci_nresults (ci : CallInfo) (x : Z) : CallInfo :=
  mkCI (ci_base ci) (ci_func ci) (ci_top ci) (ci_savedpc ci) x (ci_tailcalls ci).
Definition set_ci_tailcalls (ci : CallInfo) (x : Z) : CallInfo :=
  mkCI (ci_base ci) (ci_func ci) (ci_top ci) (ci_savedpc ci) (ci_nresults ci) x.

Record Thread := mkThread {
  status : Z;
  stack : list TValue;   (* stacksize slots *)
  top : Z;   (* index of the first free slot *)
  base : Z;
  savedpc : Z;   (* index into the code of the running function *)
  cis : list CallInfo;   (* base_ci .. ci *)
  size_ci : Z;
  nCcalls : Z;
  baseCcalls : Z;
  allowhook : Z;
  l_gt : TValue;   (* table of globals *)
  openupval : list pointer;   (* the next links of the open upvalues of this stack *)
  errfunc : Z   (* stack index of the error handler, 0 for none *)
}.

Definition set_status (th : Thread) (x : Z) : Thread :=
  mkThread x (stack th) (top th) (base th) (savedpc th) (cis th) (size_ci th) (nCcalls th) (baseCcalls th) (allowhook th) (l_gt th) (openupval th) (errfunc th).
Definition set_stack (th : Thread) (x : list TValue) : Thread :=
  mkThread (status th) x (top th) (base th) (savedpc th) (cis th) (size_ci th) (nCcalls th) (baseCcalls th) (allowhook th) (l_gt th) (openupval th) (errfunc th).
Definition set_top (th : Thread) (x : Z) : Thread :=
  mkThread (status th) (stack th) x (base th) (savedpc th) (cis th) (size_ci th) (nCcalls th) (baseCcalls th) (allowhook th) (l_gt th) (openupval th) (errfunc th).
Definition set_base (th : Thread) (x : Z) : Thread :=
  mkThread (status th) (stack th) (top th) x (savedpc th) (cis th) (size_ci th) (nCcalls th) (baseCcalls th) (allowhook th) (l_gt th) (openupval th) (errfunc th).
Definition set_savedpc (th : Thread) (x : Z) : Thread :=
  mkThread (status th) (stack th) (top th) (base th) x (cis th) (size_ci th) (nCcalls th) (baseCcalls th) (allowhook th) (l_gt th) (openupval th) (errfunc th).
Definition set_cis (th : Thread) (x : list CallInfo) : Thread :=
  mkThread (status th) (stack th) (top th) (base th) (savedpc th) x (size_ci th) (nCcalls th) (baseCcalls th) (allowhook th) (l_gt th) (openupval th) (errfunc th).
Definition set_size_ci (th : Thread) (x : Z) : Thread :=
  mkThread (status th) (stack th) (top th) (base th) (savedpc th) (cis th) x (nCcalls th) (baseCcalls th) (allowhook th) (l_gt th) (openupval th) (errfunc th).
Definition set_nCcalls (th : Thread) (x : Z) : Thread :=
  mkThread (status th) (stack th) (top th) (base th) (savedpc th) (cis th) (size_ci th) x (baseCcalls th) (allowhook th) (l_gt th) (openupval th) (errfunc th).
Definition set_baseCcalls (th : Thread) (x : Z) : Thread :=
  mkThread (status th) (stack th) (top th) (base th) (savedpc th) (cis th) (size_ci th) (nCcalls th) x (allowhook th) (l_gt th) (openupval th) (errfunc th).
Definition set_allowhook (th : Thread) (x : Z) : Thread :=
  mkThread (status th) (stack th) (top th) (base th) (savedpc th) (cis th) (size_ci th) (nCcalls th) (baseCcalls th) x (l_gt th) (openupval th) (errfunc th).
Definition set_l_gt (th : Thread) (x : TValue) : Thread :=
  mkThread (status th) (stack th) (top th) (base th) (savedpc th) (cis th) (size_ci th) (nCcalls th) (baseCcalls th) (allowhook th) x (openupval th) (errfunc th).
Definition set_openupval (th : Thread) (x : list pointer) : Thread :=
  mkThread (status th) (stack th) (top th) (base th) (savedpc th) (cis th) (size_ci th) (nCcalls th) (baseCcalls th) (allowhook th) (l_gt th) x (errfunc th).
Definition set_errfunc (th : Thread) (x : Z) : Thread :=
  mkThread (status th) (stack th) (top th) (base th) (savedpc th) (cis th) (size_ci th) (nCcalls th) (baseCcalls th) (allowhook th) (l_gt th) (openupval th) x.

Definition stacksize (th : Thread) : Z := zlen (stack th).

Inductive Body :=
  | BString (ts : StringObj)
  | BUdata (u : Udata)
  | BCClosure (env : pointer) (f : Z) (upvalue : list TValue)
  | BLClosure (env : pointer) (p : pointer) (upvals : list (option pointer))
  | BTable (h : Table)
  | BProto (p : ProtoObj)
  | BUpVal (uv : UpVal)
  | BThread (th : Thread).

Definition GAFQ_TUPVAL : Z := 10.

Definition body_tt (b : Body) : Z :=
  match b with
  | BString _ => GAFQ_TSTRING
  | BUdata _ => GAFQ_TUSERDATA
  | BCClosure _ _ _ | BLClosure _ _ _ => GAFQ_TFUNCTION
  | BTable _ => GAFQ_TTABLE
  | BProto _ => GAFQ_TPROTO
  | BUpVal _ => GAFQ_TUPVAL
  | BThread _ => GAFQ_TTHREAD
  end.

Record GCObject := mkObj { marked : Z; body : Body }.

Definition set_marked (m : Z) (o : GCObject) : GCObject := mkObj m (body o).
Definition set_body (b : Body) (o : GCObject) : GCObject := mkObj (marked o) b.

(** ** The global state *)

Record GState := mkGState {
  heap : gmap pointer GCObject;   (* the allocated objects *)
  strt : list (list pointer);   (* strt.hash: a chain of next links per bucket *)
  nuse : Z;   (* strt.nuse, lu_int32 *)
  currentwhite : Z;   (* lu_byte *)
  gcstate : Z;   (* lu_byte *)
  sweepstrgc : Z;
  rootgc : list pointer;   (* the next links from rootgc *)
  sweepgc : option pointer;   (* the object whose next field it points to, None for &rootgc *)
  gray : list pointer;   (* the gclist links from gray *)
  grayagain : list pointer;
  weak : list pointer;
  tmudata : list pointer;   (* the circular list, its last element being *tmudata *)
  buffsize : Z;   (* gafqZ_sizebuffer(&g->buff) *)
  GCthreshold : Z;   (* lu_mem *)
  totalbytes : Z;
  estimate : Z;
  gcdept : Z;
  gcpause : Z;   (* int *)
  gcstepmul : Z;
  l_registry : TValue;
  mainthread : pointer;
  uvprev : pointer;   (* uvhead.u.l.prev *)
  uvnext : pointer;   (* uvhead.u.l.next *)
  mt : list (option pointer);   (* metatables of the basic types *)
  tmname : list pointer;
  world : Z   (* what is outside of the program: files, clock, random numbers *)
}.

Definition set_heap (g : GState) (x : gmap pointer GCObject) : GState :=
  mkGState x (strt g) (nuse g) (currentwhite g) (gcstate g) (sweepstrgc g) (rootgc g) (sweepgc g) (gray g) (grayagain g) (weak g) (tmudata g) (buffsize g) (GCthreshold g) (totalbytes g) (estimate g) (gcdept g) (gcpause g) (gcstepmul g) (l_registry g) (mainthread g) (uvprev g) (uvnext g) (mt g) (tmname g) (world g).
Definition set_strt (g : GState) (x : list (list pointer)) : GState :=
  mkGState (heap g) x (nuse g) (currentwhite g) (gcstate g) (sweepstrgc g) (rootgc g) (sweepgc g) (gray g) (grayagain g) (weak g) (tmudata g) (buffsize g) (GCthreshold g) (totalbytes g) (estimate g) (gcdept g) (gcpause g) (gcstepmul g) (l_registry g) (mainthread g) (uvprev g) (uvnext g) (mt g) (tmname g) (world g).
Definition set_nuse (g : GState) (x : Z) : GState :=
  mkGState (heap g) (strt g) x (currentwhite g) (gcstate g) (sweepstrgc g) (rootgc g) (sweepgc g) (gray g) (grayagain g) (weak g) (tmudata g) (buffsize g) (GCthreshold g) (totalbytes g) (estimate g) (gcdept g) (gcpause g) (gcstepmul g) (l_registry g) (mainthread g) (uvprev g) (uvnext g) (mt g) (tmname g) (world g).
Definition set_currentwhite (g : GState) (x : Z) : GState :=
  mkGState (heap g) (strt g) (nuse g) x (gcstate g) (sweepstrgc g) (rootgc g) (sweepgc g) (gray g) (grayagain g) (weak g) (tmudata g) (buffsize g) (GCthreshold g) (totalbytes g) (estimate g) (gcdept g) (gcpause g) (gcstepmul g) (l_registry g) (mainthread g) (uvprev g) (uvnext g) (mt g) (tmname g) (world g).
Definition set_gcstate (g : GState) (x : Z) : GState :=
  mkGState (heap g) (strt g) (nuse g) (currentwhite g) x (sweepstrgc g) (rootgc g) (sweepgc g) (gray g) (grayagain g) (weak g) (tmudata g) (buffsize g) (GCthreshold g) (totalbytes g) (estimate g) (gcdept g) (gcpause g) (gcstepmul g) (l_registry g) (mainthread g) (uvprev g) (uvnext g) (mt g) (tmname g) (world g).
Definition set_sweepstrgc (g : GState) (x : Z) : GState :=
  mkGState (heap g) (strt g) (nuse g) (currentwhite g) (gcstate g) x (rootgc g) (sweepgc g) (gray g) (grayagain g) (weak g) (tmudata g) (buffsize g) (GCthreshold g) (totalbytes g) (estimate g) (gcdept g) (gcpause g) (gcstepmul g) (l_registry g) (mainthread g) (uvprev g) (uvnext g) (mt g) (tmname g) (world g).
Definition set_rootgc (g : GState) (x : list pointer) : GState :=
  mkGState (heap g) (strt g) (nuse g) (currentwhite g) (gcstate g) (sweepstrgc g) x (sweepgc g) (gray g) (grayagain g) (weak g) (tmudata g) (buffsize g) (GCthreshold g) (totalbytes g) (estimate g) (gcdept g) (gcpause g) (gcstepmul g) (l_registry g) (mainthread g) (uvprev g) (uvnext g) (mt g) (tmname g) (world g).
Definition set_sweepgc (g : GState) (x : option pointer) : GState :=
  mkGState (heap g) (strt g) (nuse g) (currentwhite g) (gcstate g) (sweepstrgc g) (rootgc g) x (gray g) (grayagain g) (weak g) (tmudata g) (buffsize g) (GCthreshold g) (totalbytes g) (estimate g) (gcdept g) (gcpause g) (gcstepmul g) (l_registry g) (mainthread g) (uvprev g) (uvnext g) (mt g) (tmname g) (world g).
Definition set_gray (g : GState) (x : list pointer) : GState :=
  mkGState (heap g) (strt g) (nuse g) (currentwhite g) (gcstate g) (sweepstrgc g) (rootgc g) (sweepgc g) x (grayagain g) (weak g) (tmudata g) (buffsize g) (GCthreshold g) (totalbytes g) (estimate g) (gcdept g) (gcpause g) (gcstepmul g) (l_registry g) (mainthread g) (uvprev g) (uvnext g) (mt g) (tmname g) (world g).
Definition set_grayagain (g : GState) (x : list pointer) : GState :=
  mkGState (heap g) (strt g) (nuse g) (currentwhite g) (gcstate g) (sweepstrgc g) (rootgc g) (sweepgc g) (gray g) x (weak g) (tmudata g) (buffsize g) (GCthreshold g) (totalbytes g) (estimate g) (gcdept g) (gcpause g) (gcstepmul g) (l_registry g) (mainthread g) (uvprev g) (uvnext g) (mt g) (tmname g) (world g).
Definition set_weak (g : GState) (x : list pointer) : GState :=
  mkGState (heap g) (strt g) (nuse g) (currentwhite g) (gcstate g) (sweepstrgc g) (rootgc g) (sweepgc g) (gray g) (grayagain g) x (tmudata g) (buffsize g) (GCthreshold g) (totalbytes g) (estimate g) (gcdept g) (gcpause g) (gcstepmul g) (l_registry g) (mainthread g) (uvprev g) (uvnext g) (mt g) (tmname g) (world g).
Definition set_tmudata (g : GState) (x : list pointer) : GState :=
  mkGState (heap g) (strt g) (nuse g) (currentwhite g) (gcstate g) (sweepstrgc g) (rootgc g) (sweepgc g) (gray g) (grayagain g) (weak g) x (buffsize g) (GCthreshold g) (totalbytes g) (estimate g) (gcdept g) (gcpause g) (gcstepmul g) (l_registry g) (mainthread g) (uvprev g) (uvnext g) (mt g) (tmname g) (world g).
Definition set_buffsize (g : GState) (x : Z) : GState :=
  mkGState (heap g) (strt g) (nuse g) (currentwhite g) (gcstate g) (sweepstrgc g) (rootgc g) (sweepgc g) (gray g) (grayagain g) (weak g) (tmudata g) x (GCthreshold g) (totalbytes g) (estimate g) (gcdept g) (gcpause g) (gcstepmul g) (l_registry g) (mainthread g) (uvprev g) (uvnext g) (mt g) (tmname g) (world g).
Definition set_GCthreshold (g : GState) (x : Z) : GState :=
  mkGState (heap g) (strt g) (nuse g) (currentwhite g) (gcstate g) (sweepstrgc g) (rootgc g) (sweepgc g) (gray g) (grayagain g) (weak g) (tmudata g) (buffsize g) x (totalbytes g) (estimate g) (gcdept g) (gcpause g) (gcstepmul g) (l_registry g) (mainthread g) (uvprev g) (uvnext g) (mt g) (tmname g) (world g).
Definition set_totalbytes (g : GState) (x : Z) : GState :=
  mkGState (heap g) (strt g) (nuse g) (currentwhite g) (gcstate g) (sweepstrgc g) (rootgc g) (sweepgc g) (gray g) (grayagain g) (weak g) (tmudata g) (buffsize g) (GCthreshold g) x (estimate g) (gcdept g) (gcpause g) (gcstepmul g) (l_registry g) (mainthread g) (uvprev g) (uvnext g) (mt g) (tmname g) (world g).
Definition set_estimate (g : GState) (x : Z) : GState :=
  mkGState (heap g) (strt g) (nuse g) (currentwhite g) (gcstate g) (sweepstrgc g) (rootgc g) (sweepgc g) (gray g) (grayagain g) (weak g) (tmudata g) (buffsize g) (GCthreshold g) (totalbytes g) x (gcdept g) (gcpause g) (gcstepmul g) (l_registry g) (mainthread g) (uvprev g) (uvnext g) (mt g) (tmname g) (world g).
Definition set_gcdept (g : GState) (x : Z) : GState :=
  mkGState (heap g) (strt g) (nuse g) (currentwhite g) (gcstate g) (sweepstrgc g) (rootgc g) (sweepgc g) (gray g) (grayagain g) (weak g) (tmudata g) (buffsize g) (GCthreshold g) (totalbytes g) (estimate g) x (gcpause g) (gcstepmul g) (l_registry g) (mainthread g) (uvprev g) (uvnext g) (mt g) (tmname g) (world g).
Definition set_uvprev (g : GState) (x : pointer) : GState :=
  mkGState (heap g) (strt g) (nuse g) (currentwhite g) (gcstate g) (sweepstrgc g) (rootgc g) (sweepgc g) (gray g) (grayagain g) (weak g) (tmudata g) (buffsize g) (GCthreshold g) (totalbytes g) (estimate g) (gcdept g) (gcpause g) (gcstepmul g) (l_registry g) (mainthread g) x (uvnext g) (mt g) (tmname g) (world g).
Definition set_uvnext (g : GState) (x : pointer) : GState :=
  mkGState (heap g) (strt g) (nuse g) (currentwhite g) (gcstate g) (sweepstrgc g) (rootgc g) (sweepgc g) (gray g) (grayagain g) (weak g) (tmudata g) (buffsize g) (GCthreshold g) (totalbytes g) (estimate g) (gcdept g) (gcpause g) (gcstepmul g) (l_registry g) (mainthread g) (uvprev g) x (mt g) (tmname g) (world g).
Definition set_mt (g : GState) (x : list (option pointer)) : GState :=
  mkGState (heap g) (strt g) (nuse g) (currentwhite g) (gcstate g) (sweepstrgc g) (rootgc g) (sweepgc g) (gray g) (grayagain g) (weak g) (tmudata g) (buffsize g) (GCthreshold g) (totalbytes g) (estimate g) (gcdept g) (gcpause g) (gcstepmul g) (l_registry g) (mainthread g) (uvprev g) (uvnext g) x (tmname g) (world g).
Definition set_gcpause (g : GState) (x : Z) : GState :=
  mkGState (heap g) (strt g) (nuse g) (currentwhite g) (gcstate g) (sweepstrgc g) (rootgc g) (sweepgc g) (gray g) (grayagain g) (weak g) (tmudata g) (buffsize g) (GCthreshold g) (totalbytes g) (estimate g) (gcdept g) x (gcstepmul g) (l_registry g) (mainthread g) (uvprev g) (uvnext g) (mt g) (tmname g) (world g).
Definition set_gcstepmul (g : GState) (x : Z) : GState :=
  mkGState (heap g) (strt g) (nuse g) (currentwhite g) (gcstate g) (sweepstrgc g) (rootgc g) (sweepgc g) (gray g) (grayagain g) (weak g) (tmudata g) (buffsize g) (GCthreshold g) (totalbytes g) (estimate g) (gcdept g) (gcpause g) x (l_registry g) (mainthread g) (uvprev g) (uvnext g) (mt g) (tmname g) (world g).
Definition set_l_registry (g : GState) (x : TValue) : GState :=
  mkGState (heap g) (strt g) (nuse g) (currentwhite g) (gcstate g) (sweepstrgc g) (rootgc g) (sweepgc g) (gray g) (grayagain g) (weak g) (tmudata g) (buffsize g) (GCthreshold g) (totalbytes g) (estimate g) (gcdept g) (gcpause g) (gcstepmul g) x (mainthread g) (uvprev g) (uvnext g) (mt g) (tmname g) (world g).
Definition set_tmname (g : GState) (x : list pointer) : GState :=
  mkGState (heap g) (strt g) (nuse g) (currentwhite g) (gcstate g) (sweepstrgc g) (rootgc g) (sweepgc g) (gray g) (grayagain g) (weak g) (tmudata g) (buffsize g) (GCthreshold g) (totalbytes g) (estimate g) (gcdept g) (gcpause g) (gcstepmul g) (l_registry g) (mainthread g) (uvprev g) (uvnext g) (mt g) x (world g).
Definition set_world (g : GState) (x : Z) : GState :=
  mkGState (heap g) (strt g) (nuse g) (currentwhite g) (gcstate g) (sweepstrgc g) (rootgc g) (sweepgc g) (gray g) (grayagain g) (weak g) (tmudata g) (buffsize g) (GCthreshold g) (totalbytes g) (estimate g) (gcdept g) (gcpause g) (gcstepmul g) (l_registry g) (mainthread g) (uvprev g) (uvnext g) (mt g) (tmname g) x.

(** the address of [g->uvhead], which is not an object of the heap *)
Definition UVHEAD : pointer := 0.

(** ** Colours: the bit tricks of ggc.h *)

Definition GCSpause : Z := 0.
Definition GCSpropagate : Z := 1.
Definition GCSsweepstring : Z := 2.
Definition GCSsweep : Z := 3.
Definition GCSfinalize : Z := 4.

Definition WHITE0BIT : Z := 0.
Definition WHITE1BIT : Z := 1.
Definition BLACKBIT : Z := 2.
Definition FINALIZEDBIT : Z := 3.
Definition KEYWEAKBIT : Z := 3.
Definition VALUEWEAKBIT : Z := 4.
Definition FIXEDBIT : Z := 5.
Definition SFIXEDBIT : Z := 6.

Definition bitmask (b : Z) : Z := Z.shiftl 1 b.
Definition bit2mask (b1 b2 : Z) : Z := Z.lor (bitmask b1) (bitmask b2).
Definition resetbits (x m : Z) : Z := Z.land x (u8 (Z.lnot m)).
Definition setbits (x m : Z) : Z := Z.lor x m.
Definition testbits (x m : Z) : bool := negb (Z.land x m =? 0).
Definition l_setbit (x b : Z) : Z := setbits x (bitmask b).
Definition resetbit (x b : Z) : Z := resetbits x (bitmask b).
Definition testbit (x b : Z) : bool := testbits x (bitmask b).
Definition reset2bits (x b1 b2 : Z) : Z := resetbits x (bit2mask b1 b2).
Definition test2bits (x b1 b2 : Z) : bool := testbits x (bit2mask b1 b2).

Definition WHITEBITS : Z := bit2mask WHITE0BIT WHITE1BIT.

(** the macros on objects, as functions of the byte [marked] *)
Definition iswhite (m : Z) : bool := test2bits m WHITE0BIT WHITE1BIT.
Definition isblack (m : Z) : bool := testbit m BLACKBIT.
Definition isgray (m : Z) : bool := negb (isblack m) && negb (iswhite m).

Definition otherwhite (g : GState) : Z := Z.lxor (currentwhite g) WHITEBITS.
Definition isdead (g : GState) (m : Z) : bool :=
  negb (Z.land (Z.land m (otherwhite g)) WHITEBITS =? 0).

Definition changewhite (m : Z) : Z := Z.lxor m WHITEBITS.
Definition gray2black (m : Z) : Z := l_setbit m BLACKBIT.
Definition gafqC_white (g : GState) : Z := u8 (Z.land (currentwhite g) WHITEBITS).

(** of ggc.c *)
Definition maskmarks : Z := u8 (Z.lnot (Z.lor (bitmask BLACKBIT) WHITEBITS)).
Definition makewhite (g : GState) (m : Z) : Z := u8 (Z.lor (Z.land m maskmarks) (gafqC_white g)).
Definition white2gray (m : Z) : Z := reset2bits m WHITE0BIT WHITE1BIT.
Definition black2gray (m : Z) : Z := resetbit m BLACKBIT.
Definition isfinalized (m : Z) : bool := testbit m FINALIZEDBIT.
Definition markfinalized (m : Z) : Z := l_setbit m FINALIZEDBIT.
Definition KEYWEAK : Z := bitmask KEYWEAKBIT.
Definition VALUEWEAK : Z := bitmask VALUEWEAKBIT.

(** ** Access *)

(** Why a computation on the memory does not return: it has no defined behaviour
    (or its fuel is used up), it calls [gafqG_runerror] with a message in the
    running thread, or [gafqD_throw] leaves it by [longjmp] to the handler of the
    thread [L].  The last two keep the state in which this happens. *)
Inductive failure :=
  | Stuck (e : error)
  | Raised (msg : string) (g : GState)
  | Thrown (L : pointer) (errcode : Z) (g : GState).

Definition gc (A : Type) : Type := stateres failure GState A.

Definition stuck {A} (e : error) : gc A := fun _ => Err (Stuck e).
Definition raised {A} (msg : string) : gc A := fun g => Err (Raised msg g).

(** an operation on a single object, as gtable.c has them, in the memory *)
Definition object_op {A} (m : res A) : gc A :=
  match m with
  | Ok a => mret a
  | Err (RunError msg) => raised msg
  | Err e => stuck e
  end.

Definition on_heap (f : gmap pointer GCObject -> gmap pointer GCObject) (g : GState) : GState :=
  set_heap g (f (heap g)).

(** a call of the operating system, which changes nothing in the memory of the program *)
Definition sys {A} (f : Z -> A * Z) : gc A := fun g => let '(a, w) := f (world g) in Ok (a, set_world g w).

(** [*p], undefined unless [p] is allocated *)
Definition getobj (p : pointer) : gc GCObject := fun g =>
  match heap g !! p with Some o => Ok (o, g) | None => Err (Stuck Undefined) end.

Definition getmarked (p : pointer) : gc Z := o ← getobj p; mret (marked o).

(** [p->gch.marked = f(p->gch.marked)] *)
Definition mark_with (p : pointer) (f : Z -> Z) : gc unit :=
  o ← getobj p; modify (on_heap (insert p (set_marked (f (marked o)) o))).

Definition putbody (p : pointer) (b : Body) : gc unit :=
  o ← getobj p; modify (on_heap (insert p (set_body b o))).

(** [gco2h], [gco2th], ...: the object at [p] with its expected type *)
Definition gco2h (p : pointer) : gc Table :=
  o ← getobj p; match body o with BTable h => mret h | _ => stuck Undefined end.
Definition gco2th (p : pointer) : gc Thread :=
  o ← getobj p; match body o with BThread th => mret th | _ => stuck Undefined end.
Definition gco2uv (p : pointer) : gc UpVal :=
  o ← getobj p; match body o with BUpVal uv => mret uv | _ => stuck Undefined end.
Definition gco2u (p : pointer) : gc Udata :=
  o ← getobj p; match body o with BUdata u => mret u | _ => stuck Undefined end.
Definition gco2ts (p : pointer) : gc StringObj :=
  o ← getobj p; match body o with BString ts => mret ts | _ => stuck Undefined end.
Definition gco2p (p : pointer) : gc ProtoObj :=
  o ← getobj p; match body o with BProto f => mret f | _ => stuck Undefined end.

(** the [tsv.hash] of the string at an address, for the functions of gtable.c *)
Definition ts_hash_of (g : GState) (p : pointer) : Z :=
  match heap g !! p with
  | Some (mkObj _ (BString ts)) => tsv_hash ts
  | _ => 0
  end.

(** [*uv->v] *)
Definition uv_value (uv : UpVal) : gc TValue :=
  match uv with
  | UClosed v => mret v
  | UOpen th level _ _ => t ← gco2th th; mret (vget VNil (stack t) level)
  end.

(** a loop over the elements of a list *)
Fixpoint for_each {A} (l : list A) (f : A -> gc unit) : gc unit :=
  match l with
  | [] => mret tt
  | x :: l' => f x;; for_each l' f
  end.

(** ** Sizes (LP64) *)

Definition sizeof_TValue : Z := 16.
Definition sizeof_Node : Z := 40.
Definition sizeof_Table : Z := 64.
Definition sizeof_UpVal : Z := 40.
Definition sizeof_CClosure : Z := 56.
Definition sizeof_LClosure : Z := 48.
Definition sizeof_Proto : Z := 120.
Definition sizeof_LocVar : Z := 16.
Definition sizeof_Udata : Z := 40.
Definition sizeof_TString : Z := 24.
Definition sizeof_gafq_State : Z := 184.
Definition sizeof_CallInfo : Z := 40.
Definition sizeof_pointer : Z := 8.
Definition sizeof_int : Z := 4.
Definition sizeof_Instruction : Z := 4.

Definition sizestring (ts : StringObj) : Z := sizeof_TString + (zlen (tsv_str ts) + 1).
Definition sizeudata (u : Udata) : Z := sizeof_Udata + u_len u.
Definition sizeCclosure (n : Z) : Z := sizeof_CClosure + sizeof_TValue * (n - 1).
Definition sizeLclosure (n : Z) : Z := sizeof_LClosure + sizeof_pointer * (n - 1).

(** [gafqM_realloc_(L, NULL, 0, size)] for an object: its address is chosen by the
    allocator, which never returns the address of an allocated block *)
Definition alloc (p : pointer) (size : Z) (o : GCObject) : gc unit := fun g =>
  match heap g !! p with
  | Some _ => Err (Stuck Undefined)
  | None =>
      if p =? UVHEAD then Err (Stuck Undefined)
      else Ok (tt, set_totalbytes (on_heap (insert p o) g) (size_t (totalbytes g + size)))
  end.

(** [gafqM_realloc_(L, p, size, 0)] *)
Definition freemem (p : pointer) (size : Z) : gc unit := fun g =>
  match heap g !! p with
  | Some _ => Ok (tt, set_totalbytes (on_heap (delete p) g) (size_t (totalbytes g - size)))
  | None => Err (Stuck Undefined)
  end.

(** a block of a live object is released or changes its size *)
Definition resize_block (osize nsize : Z) : gc unit :=
  modify (fun g => set_totalbytes g (size_t (totalbytes g - osize + nsize))).

(** ** Growing vectors (gmem.c) *)

Definition MINSIZEARRAY : Z := 4.

Definition gafqM_toobig {A} : gc A := raised "memory allocation error: block too big".

(** [gafqM_reallocv] (gmem.h) *)
Definition gafqM_reallocv (osize nsize size_elems : Z) : gc unit :=
  if size_t (nsize + 1) <=? MAX_SIZET / size_elems
  then resize_block (osize * size_elems) (nsize * size_elems) else gafqM_toobig.

(** the new size of a vector that has no free place *)
Definition gafqM_growaux (size size_elems limit : Z) (errormsg : string) : gc Z :=
  newsize ← (if limit / 2 <=? size then
               if limit <=? size then raised errormsg else mret limit
             else mret (if size * 2 <? MINSIZEARRAY then MINSIZEARRAY else size * 2));
  gafqM_reallocv size newsize size_elems;;
  mret newsize.
