(* ===== verification/Tm.v ===== *)
(** * Tag methods: gtm.c, gtm.h

    The events, their names, and the lookup of a metamethod with its cache: a
    bit of [flags] of a metatable says that a fast event is absent from it. *)

From stdpp Require Import gmap.
From S2P Require Import Prelude Number Object Table Heap.

Inductive TMS :=
  | TM_INDEX | TM_NEWINDEX | TM_GC | TM_MODE | TM_EQ
  | TM_ADD | TM_SUB | TM_MUL | TM_DIV | TM_MOD | TM_POW | TM_UNM | TM_LEN | TM_LT | TM_LE
  | TM_CONCAT | TM_CALL.

#[export] Instance TMS_eq_dec : EqDecision TMS.
Proof. solve_decision. Defined.

(** the value of the enumeration constant *)
Definition tms_index (e : TMS) : Z :=
  match e with
  | TM_INDEX => 0 | TM_NEWINDEX => 1 | TM_GC => 2 | TM_MODE => 3 | TM_EQ => 4
  | TM_ADD => 5 | TM_SUB => 6 | TM_MUL => 7 | TM_DIV => 8 | TM_MOD => 9 | TM_POW => 10
  | TM_UNM => 11 | TM_LEN => 12 | TM_LT => 13 | TM_LE => 14 | TM_CONCAT => 15 | TM_CALL => 16
  end.

Definition TM_N : Z := 17.

Definition gafqT_typenames : list string :=
  [ "nil"; "boolean"; "userdata"; "number"; "string"; "table"; "function"; "userdata"; "thread";
    "proto"; "upval" ]%string.

Definition gafqT_eventname : list string :=
  [ "__index"; "__newindex"; "__gc"; "__mode"; "__eq"; "__add"; "__sub"; "__mul"; "__div";
    "__mod"; "__pow"; "__unm"; "__len"; "__lt"; "__le"; "__concat"; "__call" ]%string.

Definition tmname_of (g : GState) (e : TMS) : pointer := vget 0 (tmname g) (tms_index e).

(** the metamethod, [None] for [NULL] *)
Definition gafqT_gettm (events : pointer) (event : TMS) (ename : pointer) : gc (option TValue) :=
  t ← gco2h events;
  ts_hash ← gets ts_hash_of;
  let tm := deref t (gafqH_getstr ts_hash t ename) in
  if ttisnil tm then
    putbody events (BTable (with_flags t (Z.lor (flags t) (u8 (Z.shiftl 1 (tms_index event))))));;
    mret None
  else mret (Some tm).

Definition gfasttm (et : option pointer) (e : TMS) : gc (option TValue) :=
  match et with
  | None => mret None
  | Some et =>
      t ← gco2h et;
      if negb (Z.land (flags t) (Z.shiftl 1 (tms_index e)) =? 0) then mret None
      else g ← gets id; gafqT_gettm et e (tmname_of g e)
  end.

Definition gafqT_gettmbyobj (o : TValue) (event : TMS) : gc TValue :=
  m ← (match o with
       | VTable p => t ← gco2h p; mret (metatable t)
       | VUserdata p => u ← gco2u p; mret (u_metatable u)
       | _ => gets (fun g => vget None (mt g) (ttype o))
       end);
  match m with
  | None => mret VNil
  | Some m =>
      t ← gco2h m;
      g ← gets id;
      mret (deref t (gafqH_getstr (ts_hash_of g) t (tmname_of g event)))
  end.
