(* ===== verification/Gc.v ===== *)
(** * The collector, mark phase and barriers: ggc.c

    Marking, the traversal of every kind of object, the write barriers and the
    functions that link new objects.  The sweep phase and the driver of the
    collector are in GcSweep.v. *)

From stdpp Require Import gmap.
From S2P Require Import Prelude Number Object Table Heap Tm.

(** ** Marking *)

(** [reallymarkobject] calls itself through an upvalue to its value, and through
    a userdata to its tables, which it only queues: three levels *)
Fixpoint reallymarkobject_ (depth : nat) (o : pointer) : gc unit :=
  match depth with
  | O => stuck Fuel
  | S depth' =>
      let markobject t := (m ← getmarked t; if iswhite m then reallymarkobject_ depth' t else mret tt) in
      let markvalue v := (if iscollectable v then markobject (gcvalue v) else mret tt) in
      mark_with o white2gray;;
      ob ← getobj o;
      match body ob with
      | BString _ => mret tt
      | BUdata u =>
          mark_with o gray2black;;
          match u_metatable u with Some m => markobject m | None => mret tt end;;
          markobject (u_env u)
      | BUpVal uv =>
          v ← uv_value uv;
          markvalue v;;
          match uv with UClosed _ => mark_with o gray2black | UOpen _ _ _ _ => mret tt end
      | BCClosure _ _ _ | BLClosure _ _ _ | BTable _ | BThread _ | BProto _ =>
          modify (fun g => set_gray g (o :: gray g))
      end
  end.

Definition mark_depth : nat := 3.
Definition reallymarkobject : pointer -> gc unit := reallymarkobject_ mark_depth.

Definition markobject (t : pointer) : gc unit :=
  m ← getmarked t; if iswhite m then reallymarkobject t else mret tt.

Definition markvalue (o : TValue) : gc unit :=
  if iscollectable o then markobject (gcvalue o) else mret tt.

Definition markopt (t : option pointer) : gc unit :=
  match t with Some p => markobject p | None => mret tt end.

(** [stringmark(s)] *)
Definition stringmark (s : pointer) : gc unit := mark_with s white2gray.

Definition stringmark_opt (s : option pointer) : gc unit :=
  match s with Some p => stringmark p | None => mret tt end.

(** the circular list from its first element to the last *)
Definition marktmu : gc unit :=
  us ← gets tmudata;
  for_each us (fun u => g ← gets id; mark_with u (makewhite g);; reallymarkobject u).

(** the elements up to [x], and those after it *)
Fixpoint split_after (x : pointer) (l : list pointer) : list pointer * list pointer :=
  match l with
  | [] => ([], [])
  | y :: l' => if x =? y then ([y], l') else let '(a, b) := split_after x l' in (y :: a, b)
  end.

(** the loop of [gafqC_separateudata]: what is left of the list, and [deadmem] *)
Fixpoint separate_loop (all : bool) (us : list pointer) : gc (list pointer * Z) :=
  match us with
  | [] => mret ([], 0)
  | curr :: us' =>
      m ← getmarked curr;
      u ← gco2u curr;
      if negb (iswhite m || all) || isfinalized m then
        '(l, deadmem) ← separate_loop all us'; mret (curr :: l, deadmem)
      else
        tm ← gfasttm (u_metatable u) TM_GC;
        match tm with
        | None =>
            mark_with curr markfinalized;;
            '(l, deadmem) ← separate_loop all us'; mret (curr :: l, deadmem)
        | Some _ =>
            mark_with curr markfinalized;;
            modify (fun g => set_tmudata g (tmudata g ++ [curr]));;
            '(l, deadmem) ← separate_loop all us'; mret (l, size_t (sizeudata u + deadmem))
        end
  end.

Definition gafqC_separateudata (all : bool) : gc Z :=
  g ← gets id;
  let '(pre, us) := split_after (mainthread g) (rootgc g) in
  '(l, deadmem) ← separate_loop all us;
  modify (fun g => set_rootgc g (pre ++ l));;
  mret deadmem.

(** ** Traversal *)

(** dead key; remove it *)
Definition removeentry (n : Node) : Node :=
  if iscollectable (i_key n) then set_key (VDeadKey (gcvalue (i_key n))) n else n.

(** [strchr(s, c) != NULL], [c] not 0 *)
Fixpoint has_char (s : bytes) (c : Z) : bool :=
  match s with
  | [] => false
  | x :: s' => if x =? 0 then false else (x =? c) || has_char s' c
  end.

(** the nodes below [i], from the last to the first *)
Fixpoint traverse_nodes (h : pointer) (weakkey weakvalue : bool) (i : nat) : gc unit :=
  match i with
  | O => mret tt
  | S i' =>
      t ← gco2h h;
      let n := gnode t i' in
      (if ttisnil (i_val n) then putbody h (BTable (upd_node t i' removeentry))
       else
         (if negb weakkey then markvalue (i_key n) else mret tt);;
         (if negb weakvalue then markvalue (i_val n) else mret tt));;
      traverse_nodes h weakkey weakvalue i'
  end.

(** the bits of the weak mode, and the list of weak tables *)
Definition note_weak (h : pointer) (weakkey weakvalue : bool) : gc unit :=
  mark_with h (fun m => u8 (Z.lor (resetbits m (Z.lor KEYWEAK VALUEWEAK))
                                  (Z.lor (Z.shiftl (Z.b2z weakkey) KEYWEAKBIT)
                                         (Z.shiftl (Z.b2z weakvalue) VALUEWEAKBIT))));;
  modify (fun g => set_weak g (h :: weak g)).

(** [(weakkey, weakvalue)] of the metatable's [__mode] *)
Definition weak_mode (mode : option TValue) : gc (bool * bool) :=
  match mode with
  | Some (VString s) => ts ← gco2ts s; mret (has_char (tsv_str ts) (chr "k"), has_char (tsv_str ts) (chr "v"))
  | _ => mret (false, false)
  end.

(** the two loops over the array part and the nodes *)
Definition traverse_parts (h : pointer) (weakkey weakvalue : bool) (sizenode : nat) : gc unit :=
  (if negb weakvalue then t ← gco2h h; for_each (reverse (array t)) markvalue else mret tt);;
  traverse_nodes h weakkey weakvalue sizenode.

Definition traversetable (h : pointer) : gc bool :=
  t ← gco2h h;
  markopt (metatable t);;
  mode ← gfasttm (metatable t) TM_MODE;
  '(weakkey, weakvalue) ← weak_mode mode;
  (if weakkey || weakvalue then note_weak h weakkey weakvalue else mret tt);;
  if weakkey && weakvalue then mret true
  else traverse_parts h weakkey weakvalue (length (node t));; mret (weakkey || weakvalue).

Definition traverseproto (f : pointer) : gc unit :=
  p ← gco2p f;
  stringmark_opt (p_source p);;
  for_each (p_k p) markvalue;;
  for_each (p_upvalues p) stringmark_opt;;
  for_each (p_p p) markopt;;
  for_each (p_locvars p) (fun v => stringmark_opt v.1.1).

(** [markobject(g, cl->l.upvals[i])]: a null pointer here is undefined *)
Definition markupval (uv : option pointer) : gc unit :=
  match uv with Some p => markobject p | None => stuck Undefined end.

Definition traverseclosure (cl : pointer) : gc unit :=
  o ← getobj cl;
  match body o with
  | BCClosure env _ upvalue => markobject env;; for_each upvalue markvalue
  | BLClosure env p upvals => markobject env;; markobject p;; for_each upvals markupval
  | _ => stuck Undefined
  end.

(** *** Stacks *)

Definition EXTRA_STACK : Z := 5.
Definition BASIC_CI_SIZE : Z := 8.
Definition GAFQ_MINSTACK : Z := 20.
Definition BASIC_STACK_SIZE : Z := 2 * GAFQ_MINSTACK.
Definition GAFQI_MAXCALLS : Z := 20000.

(** [gafqD_reallocstack] (gdo.c): slots are indices, so [correctstack] has nothing
    to correct; the new slots of a larger stack are indeterminate, here nil *)
Definition gafqD_reallocstack (l : pointer) (newsize : Z) : gc unit :=
  th ← gco2th l;
  let realsize := newsize + 1 + EXTRA_STACK in
  resize_block (stacksize th * sizeof_TValue) (realsize * sizeof_TValue);;
  putbody l (BThread (set_stack th (take (Z.to_nat realsize) (stack th) ++
                        replicate (Z.to_nat realsize - length (stack th)) VNil))).

(** [gafqD_reallocCI] (gdo.c) *)
Definition gafqD_reallocCI (l : pointer) (newsize : Z) : gc unit :=
  th ← gco2th l;
  resize_block (size_ci th * sizeof_CallInfo) (newsize * sizeof_CallInfo);;
  putbody l (BThread (set_size_ci th newsize)).

Definition checkstacksizes (l : pointer) (max : Z) : gc unit :=
  th ← gco2th l;
  let ci_used := zlen (cis th) - 1 in
  let s_used := max in
  if GAFQI_MAXCALLS <? size_ci th then mret tt
  else
    (if (4 * ci_used <? size_ci th) && (2 * BASIC_CI_SIZE <? size_ci th)
     then gafqD_reallocCI l (size_ci th / 2) else mret tt);;
    (if (4 * s_used <? stacksize th) && (2 * (BASIC_STACK_SIZE + EXTRA_STACK) <? stacksize th)
     then gafqD_reallocstack l (stacksize th / 2) else mret tt).

(** [for (; o <= lim; o++) setnilvalue(o)] from [o = from] on *)
Definition clear_slots (st : list TValue) (from lim : Z) : list TValue :=
  take (Z.to_nat from) st ++ replicate (Z.to_nat (lim - from + 1)) VNil ++ drop (Z.to_nat (lim + 1)) st.

Definition traversestack (l : pointer) : gc unit :=
  th ← gco2th l;
  markvalue (l_gt th);;
  let lim := foldl (fun lim ci => if lim <? ci_top ci then ci_top ci else lim) (top th) (cis th) in
  for_each (take (Z.to_nat (top th)) (stack th)) markvalue;;
  th ← gco2th l;
  (if stacksize th <=? lim then stuck Undefined
   else putbody l (BThread (set_stack th (clear_slots (stack th) (top th) lim))));;
  checkstacksizes l lim.

(** ** Propagation *)

Definition propagatemark : gc Z :=
  l ← gets gray;
  match l with
  | [] => stuck Undefined
  | o :: rest =>
      mark_with o gray2black;;
      ob ← getobj o;
      match body ob with
      | BTable _ =>
          modify (fun g => set_gray g rest);;
          w ← traversetable o;
          (if (w : bool) then mark_with o black2gray else mret tt);;
          h ← gco2h o;
          mret (sizeof_Table + sizeof_TValue * sizearray h + sizeof_Node * sizenode h)
      | BCClosure _ _ upvalue =>
          modify (fun g => set_gray g rest);;
          traverseclosure o;;
          mret (sizeCclosure (zlen upvalue))
      | BLClosure _ _ upvals =>
          modify (fun g => set_gray g rest);;
          traverseclosure o;;
          mret (sizeLclosure (zlen upvals))
      | BThread _ =>
          modify (fun g => set_gray g rest);;
          modify (fun g => set_grayagain g (o :: grayagain g));;
          mark_with o black2gray;;
          traversestack o;;
          th ← gco2th o;
          mret (sizeof_gafq_State + sizeof_TValue * stacksize th + sizeof_CallInfo * size_ci th)
      | BProto p =>
          modify (fun g => set_gray g rest);;
          traverseproto o;;
          mret (sizeof_Proto + sizeof_Instruction * zlen (p_code p) + sizeof_pointer * zlen (p_p p) +
                sizeof_TValue * zlen (p_k p) + sizeof_int * zlen (p_lineinfo p) +
                sizeof_LocVar * zlen (p_locvars p) + sizeof_pointer * zlen (p_upvalues p))
      | _ => stuck Undefined
      end
  end.

(** every round takes an object off the white and the queued ones, so the number
    of objects bounds the rounds *)
Fixpoint propagate_loop (fuel : nat) (m : Z) : gc Z :=
  match fuel with
  | O => stuck Fuel
  | S fuel' =>
      l ← gets gray;
      match l with
      | [] => mret m
      | _ :: _ => c ← propagatemark; propagate_loop fuel' (size_t (m + c))
      end
  end.

Definition propagateall : gc Z :=
  g ← gets id; propagate_loop (S (size (heap g))) 0.

(** ** Barriers *)

(** move the collector forward: mark [v], or repaint [o] *)
Definition gafqC_barrierf (o v : pointer) : gc unit :=
  g ← gets id;
  if gcstate g =? GCSpropagate then reallymarkobject v
  else mark_with o (makewhite g).

(** move the collector backward: traverse the table again *)
Definition gafqC_barrierback (t : pointer) : gc unit :=
  mark_with t black2gray;;
  modify (fun g => set_grayagain g (t :: grayagain g)).

(** [valiswhite(v)] *)
Definition valiswhite (v : TValue) : gc bool :=
  if iscollectable v then m ← getmarked (gcvalue v); mret (iswhite m) else mret false.

Definition gafqC_barrier (p : pointer) (v : TValue) : gc unit :=
  w ← valiswhite v;
  m ← getmarked p;
  if w && isblack m then gafqC_barrierf p (gcvalue v) else mret tt.

Definition gafqC_barriert (t : pointer) (v : TValue) : gc unit :=
  w ← valiswhite v;
  m ← getmarked t;
  if w && isblack m then gafqC_barrierback t else mret tt.

Definition gafqC_objbarrier (p o : pointer) : gc unit :=
  w ← getmarked o;
  m ← getmarked p;
  if iswhite w && isblack m then gafqC_barrierf p o else mret tt.

Definition gafqC_objbarriert (t o : pointer) : gc unit :=
  w ← getmarked o;
  m ← getmarked t;
  if iswhite w && isblack m then gafqC_barrierback t else mret tt.

(** ** Linking *)

(** [o = gafqM_new(...); gafqC_link(L, o, tt)] with the body the caller fills in *)
Definition gafqC_link (o : pointer) (size : Z) (b : Body) : gc unit :=
  g ← gets id;
  alloc o size (mkObj (gafqC_white g) b);;
  modify (fun g => set_rootgc g (o :: rootgc g)).

Definition gafqC_linkupval (uv : pointer) : gc unit :=
  modify (fun g => set_rootgc g (uv :: rootgc g));;
  m ← getmarked uv;
  if isgray m then
    g ← gets id;
    if gcstate g =? GCSpropagate then
      mark_with uv gray2black;;
      u ← gco2uv uv;
      v ← uv_value u;
      gafqC_barrier uv v
    else mark_with uv (makewhite g)
  else mret tt.
