(* ===== verification/Func.v ===== *)
(** * Closures and upvalues: gfunc.c

    An open upvalue is in two lists: the list of its thread, sorted by the stack
    level, and the doubly linked list of all the open upvalues, whose links are
    written out here ([UVHEAD] is the head).  The address of a new object is an
    argument. *)

From stdpp Require Import gmap.
From S2P Require Import Prelude Number Object Proto Table Heap Tm Gc.

(** ** Closures *)

(** the function and the upvalues of a new C closure are filled in by the caller *)
Definition gafqF_newCclosure (c : pointer) (nelems : Z) (e : pointer) : gc unit :=
  gafqC_link c (sizeCclosure nelems) (BCClosure e 0 (replicate (Z.to_nat (u8 nelems)) VNil)).

(** the prototype [p] is stored by the caller *)
Definition gafqF_newLclosure (c : pointer) (nelems : Z) (e p : pointer) : gc unit :=
  gafqC_link c (sizeLclosure nelems) (BLClosure e p (replicate (Z.to_nat (u8 nelems)) None)).

Definition gafqF_newupval (uv : pointer) : gc unit :=
  gafqC_link uv sizeof_UpVal (BUpVal (UClosed VNil)).

(** ** The doubly linked list *)

(** [uv->u.l.prev = x] *)
Definition set_lprev (uv x : pointer) : gc unit :=
  if uv =? UVHEAD then modify (fun g => set_uvprev g x)
  else u ← gco2uv uv;
       match u with
       | UOpen th lv _ nxt => putbody uv (BUpVal (UOpen th lv x nxt))
       | UClosed _ => stuck Undefined
       end.

(** [uv->u.l.next = x] *)
Definition set_lnext (uv x : pointer) : gc unit :=
  if uv =? UVHEAD then modify (fun g => set_uvnext g x)
  else u ← gco2uv uv;
       match u with
       | UOpen th lv prv _ => putbody uv (BUpVal (UOpen th lv prv x))
       | UClosed _ => stuck Undefined
       end.

Definition unlinkupval (uv : pointer) : gc unit :=
  u ← gco2uv uv;
  match u with
  | UOpen _ _ prv nxt => set_lprev nxt prv;; set_lnext prv nxt
  | UClosed _ => stuck Undefined
  end.

(** ** Finding an upvalue *)

(** the walk along [L->openupval]: the upvalue of this level, or the two parts of
    the list around the place of a new one *)
Fixpoint find_open (level : Z) (pre l : list pointer) : gc (pointer + list pointer * list pointer) :=
  match l with
  | [] => mret (inr (pre, []))
  | p :: l' =>
      u ← gco2uv p;
      match u with
      | UOpen _ lv _ _ =>
          if level <=? lv then
            if lv =? level then mret (inl p) else find_open level (pre ++ [p]) l'
          else mret (inr (pre, l))
      | UClosed _ => stuck Undefined
      end
  end.

(** the not-found branch: a new upvalue between [pre] and [post] *)
Definition new_open (L : pointer) (level : Z) (uv : pointer) (pre post : list pointer) : gc unit :=
  g ← gets id;
  alloc uv sizeof_UpVal (mkObj (gafqC_white g) (BUpVal (UOpen L level UVHEAD (uvnext g))));;
  th ← gco2th L;
  putbody L (BThread (set_openupval th (pre ++ uv :: post)));;
  set_lprev (uvnext g) uv;;
  set_lnext UVHEAD uv.

(** [uv] is the address of the upvalue in case one is created *)
Definition gafqF_findupval (L : pointer) (level : Z) (uv : pointer) : gc pointer :=
  th ← gco2th L;
  r ← find_open level [] (openupval th);
  match r with
  | inl p =>
      g ← gets id;
      m ← getmarked p;
      (if isdead g m then mark_with p changewhite else mret tt);;
      mret p
  | inr (pre, post) => new_open L level uv pre post;; mret uv
  end.

(** ** Closing *)

Definition gafqF_freeupval (uv : pointer) : gc unit :=
  u ← gco2uv uv;
  (match u with UOpen _ _ _ _ => unlinkupval uv | UClosed _ => mret tt end);;
  freemem uv sizeof_UpVal.

(** the upvalue keeps the value of its slot and moves to [rootgc] *)
Definition close_upval (uv : pointer) : gc unit :=
  unlinkupval uv;;
  u ← gco2uv uv;
  v ← uv_value u;
  putbody uv (BUpVal (UClosed v));;
  gafqC_linkupval uv.

(** the loop; [l] is [L->openupval] *)
Fixpoint close_loop (L : pointer) (level : Z) (l : list pointer) : gc unit :=
  match l with
  | [] => mret tt
  | uv :: l' =>
      u ← gco2uv uv;
      match u with
      | UClosed _ => stuck Undefined
      | UOpen _ lv _ _ =>
          if level <=? lv then
            th ← gco2th L;
            putbody L (BThread (set_openupval th l'));;
            g ← gets id;
            m ← getmarked uv;
            (if isdead g m then gafqF_freeupval uv else close_upval uv);;
            close_loop L level l'
          else mret tt
      end
  end.

Definition gafqF_close (L : pointer) (level : Z) : gc unit :=
  th ← gco2th L; close_loop L level (openupval th).

(** ** Prototypes *)

Definition gafqF_newproto (f : pointer) : gc unit :=
  gafqC_link f sizeof_Proto (BProto (mkProtoObj [] [] [] [] [] [] None 0 0 0 0 0 0)).

Definition gafqF_freeproto (f : pointer) : gc unit :=
  p ← gco2p f;
  resize_block (zlen (p_code p) * sizeof_Instruction) 0;;
  resize_block (zlen (p_p p) * sizeof_pointer) 0;;
  resize_block (zlen (p_k p) * sizeof_TValue) 0;;
  resize_block (zlen (p_lineinfo p) * sizeof_int) 0;;
  resize_block (zlen (p_locvars p) * sizeof_LocVar) 0;;
  resize_block (zlen (p_upvalues p) * sizeof_pointer) 0;;
  freemem f sizeof_Proto.

Definition gafqF_freeclosure (c : pointer) : gc unit :=
  o ← getobj c;
  match body o with
  | BCClosure _ _ upvalue => freemem c (sizeCclosure (zlen upvalue))
  | BLClosure _ _ upvals => freemem c (sizeLclosure (zlen upvals))
  | _ => stuck Undefined
  end.

(** the loop of [gafqF_getlocalname] over the local variables *)
Fixpoint localname_loop (l : list LocVar) (local_number pc : Z) : option (option bytes) :=
  match l with
  | [] => None
  | v :: l' =>
      if startpc v <=? pc then
        if pc <? endpc v then
          let local_number := local_number - 1 in
          if local_number =? 0 then Some (varname v) else localname_loop l' local_number pc
        else localname_loop l' local_number pc
      else None
  end.

(** the name of the [local_number]-th local variable that is active at [pc] *)
Definition gafqF_getlocalname (f : Proto) (local_number pc : Z) : option (option bytes) :=
  localname_loop (locvars f) local_number pc.
