(* ===== verification/GcSweep.v ===== *)
(** * The collector, atomic step, sweep phase and driver: ggc.c

    [GCObject **p] is a chain and the element whose [next] field [p] is the
    address of ([None] for the head of the chain).  The call of a finalizer,
    [gafqD_call], is a parameter. *)

From stdpp Require Import gmap.
From S2P Require Import Prelude Number Object Table Heap Tm Gc Func.

(** ** Weak tables *)

Definition iscleared (o : TValue) (iskey : bool) : gc bool :=
  if negb (iscollectable o) then mret false
  else if ttisstring o then stringmark (gcvalue o);; mret false
  else
    m ← getmarked (gcvalue o);
    mret (iswhite m || ((ttype o =? GAFQ_TUSERDATA) && (negb iskey && isfinalized m))).

(** the array slots below [i], from the last to the first *)
Fixpoint clear_array (h : pointer) (i : nat) : gc unit :=
  match i with
  | O => mret tt
  | S i' =>
      t ← gco2h h;
      c ← iscleared (nth i' (array t) VNil) false;
      (if (c : bool) then putbody h (BTable (set_slot t (SArray i') VNil)) else mret tt);;
      clear_array h i'
  end.

Definition clear_node (n : Node) : gc bool :=
  if negb (ttisnil (i_val n)) then
    c ← iscleared (i_key n) true;
    if (c : bool) then mret true else iscleared (i_val n) false
  else mret false.

(** the nodes below [i], from the last to the first *)
Fixpoint clear_nodes (h : pointer) (i : nat) : gc unit :=
  match i with
  | O => mret tt
  | S i' =>
      t ← gco2h h;
      c ← clear_node (gnode t i');
      (if (c : bool) then
         putbody h (BTable (upd_node t i' (fun n => removeentry (set_val VNil n))))
       else mret tt);;
      clear_nodes h i'
  end.

(** along the list of weak tables *)
Fixpoint cleartable (l : list pointer) : gc unit :=
  match l with
  | [] => mret tt
  | h :: l' =>
      t ← gco2h h;
      m ← getmarked h;
      (if testbit m VALUEWEAKBIT then clear_array h (length (array t)) else mret tt);;
      clear_nodes h (length (node t));;
      cleartable l'
  end.

(** ** Freeing *)

(** [gafqH_free] (gtable.c) *)
Definition gafqH_free (h : pointer) : gc unit :=
  t ← gco2h h;
  (if isdummy t then mret tt else resize_block (sizenode t * sizeof_Node) 0);;
  resize_block (sizearray t * sizeof_TValue) 0;;
  freemem h sizeof_Table.

(** [gafqE_freethread] and [freestack] (gstate.c) *)
Definition gafqE_freethread (L1 : pointer) : gc unit :=
  gafqF_close L1 0;;
  th ← gco2th L1;
  resize_block (size_ci th * sizeof_CallInfo) 0;;
  resize_block (stacksize th * sizeof_TValue) 0;;
  freemem L1 sizeof_gafq_State.

Definition freeobj (o : pointer) : gc unit :=
  ob ← getobj o;
  match body ob with
  | BProto _ => gafqF_freeproto o
  | BCClosure _ _ _ | BLClosure _ _ _ => gafqF_freeclosure o
  | BUpVal _ => gafqF_freeupval o
  | BTable _ => gafqH_free o
  | BThread _ => gafqE_freethread o
  | BString ts => modify (fun g => set_nuse g (u32 (nuse g - 1)));; freemem o (sizestring ts)
  | BUdata u => freemem o (sizeudata u)
  end.

(** ** Sweeping *)

Inductive chain := CRoot | CString (i : Z) | COpen (th : pointer).

Definition get_chain (c : chain) : gc (list pointer) :=
  match c with
  | CRoot => gets rootgc
  | CString i =>
      g ← gets id;
      if (0 <=? i) && (i <? zlen (strt g)) then mret (vget [] (strt g) i) else stuck Undefined
  | COpen th => t ← gco2th th; mret (openupval t)
  end.

Definition put_chain (c : chain) (l : list pointer) : gc unit :=
  match c with
  | CRoot => modify (fun g => set_rootgc g l)
  | CString i => modify (fun g => set_strt g (vset (strt g) i l))
  | COpen th => t ← gco2th th; putbody th (BThread (set_openupval t l))
  end.

(** the elements before [*p], and those from [*p] on *)
Definition split_at (after : option pointer) (l : list pointer) : list pointer * list pointer :=
  match after with None => ([], l) | Some q => split_after q l end.

(** the loop of [sweeplist]; [sub] sweeps the open upvalues of a thread *)
Fixpoint sweep_loop (sub : pointer -> gc unit) (fuel : nat) (c : chain) (after : option pointer)
    (count deadmask : Z) : gc (option pointer) :=
  match fuel with
  | O => stuck Fuel
  | S fuel' =>
      l ← get_chain c;
      match split_at after l with
      | (_, []) => mret after
      | (pre, curr :: rest) =>
          if count <=? 0 then mret after
          else
            o ← getobj curr;
            (match body o with BThread _ => sub curr | _ => mret tt end);;
            m ← getmarked curr;
            g ← gets id;
            if testbits (Z.lxor m WHITEBITS) deadmask then
              mark_with curr (makewhite g);;
              sweep_loop sub fuel' c (Some curr) (count - 1) deadmask
            else
              put_chain c (pre ++ rest);;
              freeobj curr;;
              sweep_loop sub fuel' c after (count - 1) deadmask
      end
  end.

Definition MAX_LUMEM : Z := SIZE_MOD - 3.

(** an object is visited once, so the number of objects bounds the rounds *)
Definition sweep_open (th : pointer) : gc unit :=
  g ← gets id;
  sweep_loop (fun _ => stuck Undefined) (S (size (heap g))) (COpen th) None MAX_LUMEM (otherwhite g);;
  mret tt.

Definition sweeplist (c : chain) (after : option pointer) (count : Z) : gc (option pointer) :=
  g ← gets id; sweep_loop sweep_open (S (size (heap g))) c after count (otherwhite g).

Definition sweepwholelist (c : chain) : gc unit := sweeplist c None MAX_LUMEM;; mret tt.

Definition MINSTRTABSIZE : Z := 32.
Definition GAFQ_MINBUFFER : Z := 32.

(** [gafqS_resize] (gstring.c) on the chains of the string table *)
Definition rehash_strings (g : GState) (newsize : Z) : list (list pointer) :=
  foldl (fun nh bucket =>
           foldl (fun nh p => alter (cons p) (Z.to_nat (lmod (ts_hash_of g p) newsize)) nh) nh bucket)
        (replicate (Z.to_nat newsize) []) (strt g).

Definition gafqS_resize (newsize : Z) : gc unit :=
  g ← gets id;
  if gcstate g =? GCSsweepstring then mret tt
  else
    resize_block 0 (newsize * sizeof_pointer);;
    resize_block (zlen (strt g) * sizeof_pointer) 0;;
    modify (fun g => set_strt g (rehash_strings g newsize)).

Definition checkSizes : gc unit :=
  g ← gets id;
  let size := zlen (strt g) in
  (if (nuse g <? u32 (size / 4)) && (MINSTRTABSIZE * 2 <? size)
   then gafqS_resize (size / 2) else mret tt);;
  g ← gets id;
  if GAFQ_MINBUFFER * 2 <? buffsize g then
    resize_block (buffsize g) (buffsize g / 2);;
    modify (fun g => set_buffsize g (buffsize g / 2))
  else mret tt.

(** ** Roots and the atomic step *)

Definition markmt : gc unit :=
  l ← gets mt; for_each l markopt.

Definition markroot : gc unit :=
  modify (fun g => set_weak (set_grayagain (set_gray g []) []) []);;
  m ← gets mainthread;
  markobject m;;
  th ← gco2th m;
  markvalue (l_gt th);;
  r ← gets l_registry;
  markvalue r;;
  markmt;;
  modify (fun g => set_gcstate g GCSpropagate).

(** from [uv] along the list to its head; the list has no object twice *)
Fixpoint remark_loop (fuel : nat) (uv : pointer) : gc unit :=
  match fuel with
  | O => stuck Fuel
  | S fuel' =>
      if uv =? UVHEAD then mret tt
      else
        u ← gco2uv uv;
        m ← getmarked uv;
        (if isgray m then v ← uv_value u; markvalue v else mret tt);;
        match u with
        | UOpen _ _ _ nxt => remark_loop fuel' nxt
        | UClosed _ => stuck Undefined
        end
  end.

Definition remarkupvals : gc unit :=
  g ← gets id; remark_loop (S (size (heap g))) (uvnext g).

Definition atomic (L : pointer) : gc unit :=
  remarkupvals;;
  propagateall;;
  modify (fun g => set_weak (set_gray g (weak g)) []);;
  markobject L;;
  markmt;;
  propagateall;;
  modify (fun g => set_grayagain (set_gray g (grayagain g)) []);;
  propagateall;;
  udsize ← gafqC_separateudata false;
  marktmu;;
  m ← propagateall;
  let udsize := size_t (udsize + m) in
  w ← gets weak;
  cleartable w;;
  modify (fun g => set_currentwhite g (u8 (otherwhite g)));;
  modify (fun g => set_sweepgc (set_sweepstrgc g 0) None);;
  modify (fun g => set_gcstate g GCSsweepstring);;
  modify (fun g => set_estimate g (size_t (totalbytes g - udsize))).

(** ** The driver *)

Definition GCSTEPSIZE : Z := 1024.
Definition GCSWEEPMAX : Z := 40.
Definition GCSWEEPCOST : Z := 10.
Definition GCFINALIZECOST : Z := 100.

Section Driver.

(** [gafqD_call(L, L->top - 2, 0)]: calls the function at the top of the stack of
    [L] with one argument and drops its results *)
Variable gafqD_call : pointer -> gc unit.

(** [setobj2s(L, L->top, tm); setuvalue(L, L->top+1, udata); L->top += 2;] *)
Definition push_finalizer (L : pointer) (tm : TValue) (udata : pointer) : gc unit :=
  th ← gco2th L;
  if stacksize th <? top th + 2 then stuck Undefined
  else putbody L (BThread (set_top (set_stack th
                    (vset (vset (stack th) (top th) tm) (top th + 1) (VUserdata udata))) (top th + 2))).

Definition put_allowhook (L : pointer) (x : Z) : gc unit :=
  th ← gco2th L; putbody L (BThread (set_allowhook th x)).

Definition GCTM (L : pointer) : gc unit :=
  us ← gets tmudata;
  match us with
  | [] => stuck Undefined
  | o :: us' =>
      udata ← gco2u o;
      modify (fun g => set_tmudata g us');;
      modify (fun g => let '(pre, post) := split_after (mainthread g) (rootgc g) in
                       set_rootgc g (pre ++ o :: post));;
      g ← gets id;
      mark_with o (makewhite g);;
      tm ← gfasttm (u_metatable udata) TM_GC;
      match tm with
      | None => mret tt
      | Some tm =>
          th ← gco2th L;
          let oldah := allowhook th in
          oldt ← gets GCthreshold;
          put_allowhook L 0;;
          modify (fun g => set_GCthreshold g (size_t (2 * totalbytes g)));;
          push_finalizer L tm o;;
          gafqD_call L;;
          put_allowhook L oldah;;
          modify (fun g => set_GCthreshold g oldt)
      end
  end.

(** the finalizers can add to the list, so the number of rounds is an argument *)
Fixpoint gafqC_callGCTM (fuel : nat) (L : pointer) : gc unit :=
  match fuel with
  | O => stuck Fuel
  | S fuel' =>
      us ← gets tmudata;
      match us with
      | [] => mret tt
      | _ :: _ => GCTM L;; gafqC_callGCTM fuel' L
      end
  end.

Definition gafqC_freeall : gc unit :=
  modify (fun g => set_currentwhite g (Z.lor WHITEBITS (bitmask SFIXEDBIT)));;
  sweepwholelist CRoot;;
  n ← gets (fun g => length (strt g));
  for_each (seqZ 0 (Z.of_nat n)) (fun i => sweepwholelist (CString i)).

(** [g->estimate -= old - g->totalbytes] *)
Definition lower_estimate (old : Z) : gc unit :=
  modify (fun g => set_estimate g (size_t (estimate g - size_t (old - totalbytes g)))).

Definition singlestep (L : pointer) : gc Z :=
  g ← gets id;
  if gcstate g =? GCSpause then markroot;; mret 0
  else if gcstate g =? GCSpropagate then
    match gray g with
    | _ :: _ => propagatemark
    | [] => atomic L;; mret 0
    end
  else if gcstate g =? GCSsweepstring then
    let old := totalbytes g in
    modify (fun g => set_sweepstrgc g (sweepstrgc g + 1));;
    sweepwholelist (CString (sweepstrgc g));;
    modify (fun g => if zlen (strt g) <=? sweepstrgc g then set_gcstate g GCSsweep else g);;
    lower_estimate old;;
    mret GCSWEEPCOST
  else if gcstate g =? GCSsweep then
    let old := totalbytes g in
    p ← sweeplist CRoot (sweepgc g) GCSWEEPMAX;
    modify (fun g => set_sweepgc g p);;
    l ← gets rootgc;
    match (split_at p l).2 with
    | [] => checkSizes;; modify (fun g => set_gcstate g GCSfinalize)
    | _ :: _ => mret tt
    end;;
    lower_estimate old;;
    mret (GCSWEEPMAX * GCSWEEPCOST)
  else if gcstate g =? GCSfinalize then
    match tmudata g with
    | _ :: _ =>
        GCTM L;;
        modify (fun g => if GCFINALIZECOST <? estimate g
                         then set_estimate g (estimate g - GCFINALIZECOST) else g);;
        mret GCFINALIZECOST
    | [] =>
        modify (fun g => set_gcdept (set_gcstate g GCSpause) 0);;
        mret 0
    end
  else mret 0.

Definition setthreshold (g : GState) : GState :=
  set_GCthreshold g (size_t ((estimate g / 100) * gcpause g)).

(** [do { lim -= singlestep(L); if (g->gcstate == GCSpause) break; } while (lim > 0)] *)
Fixpoint step_loop (fuel : nat) (L : pointer) (lim : Z) : gc unit :=
  match fuel with
  | O => stuck Fuel
  | S fuel' =>
      c ← singlestep L;
      let lim := lim - c in
      s ← gets gcstate;
      if s =? GCSpause then mret tt
      else if 0 <? lim then step_loop fuel' L lim else mret tt
  end.

Definition gafqC_step (fuel : nat) (L : pointer) : gc unit :=
  g ← gets id;
  let lim := u32 ((GCSTEPSIZE / 100) * gcstepmul g) in
  let lim := if lim =? 0 then (MAX_LUMEM - 1) / 2 else lim in
  modify (fun g => set_gcdept g (size_t (gcdept g + (totalbytes g - GCthreshold g))));;
  step_loop fuel L lim;;
  modify (fun g =>
    if negb (gcstate g =? GCSpause) then
      if gcdept g <? GCSTEPSIZE then set_GCthreshold g (size_t (totalbytes g + GCSTEPSIZE))
      else set_GCthreshold (set_gcdept g (gcdept g - GCSTEPSIZE)) (totalbytes g)
    else setthreshold g).

(** [while (g->gcstate != s) singlestep(L)] *)
Fixpoint until_state (fuel : nat) (s : Z) (L : pointer) : gc unit :=
  match fuel with
  | O => stuck Fuel
  | S fuel' =>
      st ← gets gcstate;
      if st =? s then mret tt else singlestep L;; until_state fuel' s L
  end.

Definition gafqC_fullgc (fuel : nat) (L : pointer) : gc unit :=
  modify (fun g =>
    if gcstate g <=? GCSpropagate then
      set_gcstate (set_weak (set_grayagain (set_gray (set_sweepgc (set_sweepstrgc g 0) None) []) []) [])
                  GCSsweepstring
    else g);;
  until_state fuel GCSfinalize L;;
  markroot;;
  until_state fuel GCSpause L;;
  modify setthreshold.

(** [gafqC_checkGC(L)] (ggc.h) *)
Definition gafqC_checkGC (fuel : nat) (L : pointer) : gc unit :=
  g ← gets id;
  if GCthreshold g <=? totalbytes g then gafqC_step fuel L else mret tt.

End Driver.
