(* ===== verification/HeapString.v ===== *)
(** * Strings and userdata as objects: gstring.c

    [gafqS_newlstr] on the object memory, where a string of the table may be dead
    (its collection is only waiting for the sweep) and is then taken back.  The
    string table alone, with its contents, is StringTable.v.  The address of a new
    object is an argument. *)

From stdpp Require Import gmap.
From S2P Require Import Prelude Number StringTable Object Table Heap Tm Gc Func GcSweep.

(** [gafqS_fix] *)
Definition gafqS_fix (s : pointer) : gc unit := mark_with s (fun m => l_setbit m FIXEDBIT).

Definition newlstr (ts : pointer) (str : bytes) (h : Z) : gc pointer :=
  let l := zlen str in
  if MAX_SIZET - sizeof_TString <? l + 1 then raised "memory allocation error: block too big"
  else
    g ← gets id;
    alloc ts (l + 1 + sizeof_TString) (mkObj (gafqC_white g) (BString (mkStringObj h 0 str)));;
    modify (fun g => set_strt g (alter (cons ts) (Z.to_nat (lmod h (zlen (strt g)))) (strt g)));;
    modify (fun g => set_nuse g (u32 (nuse g + 1)));;
    g ← gets id;
    (if (u32 (zlen (strt g)) <? nuse g) && (zlen (strt g) <=? MAX_INT / 2)
     then gafqS_resize (zlen (strt g) * 2) else mret tt);;
    mret ts.

(** the walk along a chain of the table *)
Fixpoint find_string (str : bytes) (l : list pointer) : gc (option pointer) :=
  match l with
  | [] => mret None
  | o :: l' =>
      ts ← gco2ts o;
      if bool_decide (tsv_str ts = str) then mret (Some o) else find_string str l'
  end.

Definition gafqS_newlstr (ts : pointer) (str : bytes) : gc pointer :=
  let h := string_hash str in
  g ← gets id;
  r ← find_string str (vget [] (strt g) (lmod h (zlen (strt g))));
  match r with
  | Some o =>
      m ← getmarked o;
      (if isdead g m then mark_with o changewhite else mret tt);;
      mret o
  | None => newlstr ts str h
  end.

Definition gafqS_newudata (u : pointer) (s : Z) (e : pointer) : gc unit :=
  if MAX_SIZET - sizeof_Udata <? s then raised "memory allocation error: block too big"
  else
    g ← gets id;
    alloc u (s + sizeof_Udata) (mkObj (gafqC_white g) (BUdata (mkUdata None e s 0)));;
    modify (fun g => let '(pre, post) := split_after (mainthread g) (rootgc g) in
                     set_rootgc g (pre ++ u :: post)).
