(* ===== verification/State.v ===== *)
(** * States: gstate.c

    [gafq_newstate] and what it calls, threads, and the end of a state.  The
    allocator is the parameter [fresh]: the address of the next block. *)

From stdpp Require Import gmap.
From S2P Require Import Prelude Number Object Table Lexer Heap Tm Gc Func GcSweep HeapString.

(** the fields that [preinit_state] sets; the others are not initialized *)
Definition preinit_state : Thread := mkThread 0 [] 0 0 0 [] 0 0 0 1 VNil [] 0.

Definition NUM_TAGS : Z := 9.
Definition GAFQI_GCPAUSE : Z := 200.
Definition GAFQI_GCMUL : Z := 200.
Definition sizeof_LG : Z := 616.
Definition MEMERRMSG : bytes := str "not enough memory"%string.

(** a new stack: slot 0 is the `function' entry of the first [ci] *)
Definition init_stack (th : Thread) : Thread :=
  let st := replicate (Z.to_nat (BASIC_STACK_SIZE + EXTRA_STACK)) VNil in
  mkThread (status th) st 1 1 (savedpc th) [mkCI 1 0 (1 + GAFQ_MINSTACK) 0 0 0] BASIC_CI_SIZE (nCcalls th)
           (baseCcalls th) (allowhook th) (l_gt th) (openupval th) (errfunc th).

Definition stack_init (L1 : pointer) : gc unit :=
  resize_block 0 (BASIC_CI_SIZE * sizeof_CallInfo);;
  resize_block 0 ((BASIC_STACK_SIZE + EXTRA_STACK) * sizeof_TValue);;
  th ← gco2th L1;
  putbody L1 (BThread (init_stack th)).

Definition freestack (L1 : pointer) : gc unit :=
  th ← gco2th L1;
  resize_block (size_ci th * sizeof_CallInfo) 0;;
  resize_block (stacksize th * sizeof_TValue) 0.

Section Allocator.

Variable fresh : GState -> pointer.

(** [gafqH_new(L, narray, nhash)] *)
Definition gafqH_new (narray nhash : Z) : gc pointer :=
  p ← gets fresh;
  match Table.gafqH_new narray nhash with
  | Err e =>
      (* setnodevector fails: the table keeps its array and the dummy node *)
      let t := setarrayvector (mkTable (u8 (Z.lnot 0)) 0 None [] 0 [dummynode_] true 0) narray in
      gafqC_link p sizeof_Table (BTable t);;
      resize_block 0 (sizearray t * sizeof_TValue);;
      object_op (Err e)
  | Ok t =>
      gafqC_link p sizeof_Table (BTable t);;
      resize_block 0 (sizearray t * sizeof_TValue);;
      (if isdummy t then mret tt else resize_block 0 (sizenode t * sizeof_Node));;
      mret p
  end.

Definition gafqS_new (s : bytes) : gc pointer :=
  p ← gets fresh; gafqS_newlstr p s.

(** [gafqT_init] (gtm.c) *)
Definition gafqT_init : gc unit :=
  for_each gafqT_eventname (fun s =>
    ts ← gafqS_new (str s);
    modify (fun g => set_tmname g (tmname g ++ [ts]));;
    gafqS_fix ts).

(** [ts->tsv.reserved = x] *)
Definition set_reserved (s : pointer) (x : Z) : gc unit :=
  ts ← gco2ts s; putbody s (BString (mkStringObj (tsv_hash ts) x (tsv_str ts))).

(** [gafqX_init] (glex.c) *)
Definition gafqX_init : gc unit :=
  for_each (zip (seqZ 0 NUM_RESERVED) gafqX_tokens) (fun iw =>
    ts ← gafqS_new (iw.2);
    gafqS_fix ts;;
    set_reserved ts (u8 (iw.1 + 1))).

Definition f_gafqopen (L : pointer) : gc unit :=
  stack_init L;;
  gt ← gafqH_new 0 2;
  th ← gco2th L;
  putbody L (BThread (set_l_gt th (VTable gt)));;
  r ← gafqH_new 0 2;
  modify (fun g => set_l_registry g (VTable r));;
  gafqS_resize MINSTRTABSIZE;;
  gafqT_init;;
  gafqX_init;;
  ts ← gafqS_new MEMERRMSG;
  gafqS_fix ts;;
  modify (fun g => set_GCthreshold g (size_t (4 * totalbytes g))).

(** the state in which [f_gafqopen] starts; [L] is the address of the block *)
Definition initial_state (L : pointer) : GState :=
  let white := bit2mask WHITE0BIT FIXEDBIT in
  let marked := Z.lor (u8 (Z.land white WHITEBITS)) (bit2mask FIXEDBIT SFIXEDBIT) in
  mkGState {[ L := mkObj marked (BThread preinit_state) ]} [] 0 white GCSpause 0 [L] None [] [] [] [] 0 0
           sizeof_LG 0 0 GAFQI_GCPAUSE GAFQI_GCMUL VNil L UVHEAD UVHEAD (replicate (Z.to_nat NUM_TAGS) None) [] 0.

(** without allocation failures [f_gafqopen] raises no error *)
Definition gafq_newstate (L : pointer) : outcome failure GState :=
  match f_gafqopen L (initial_state L) with
  | Ok (_, g) => Ok g
  | Err e => Err e
  end.

Definition gafqE_newthread (L : pointer) : gc pointer :=
  L1 ← gets fresh;
  gafqC_link L1 sizeof_gafq_State (BThread preinit_state);;
  stack_init L1;;
  th ← gco2th L;
  th1 ← gco2th L1;
  putbody L1 (BThread (set_l_gt th1 (l_gt th)));;
  mret L1.

End Allocator.

Definition close_state (L : pointer) : gc unit :=
  gafqF_close L 0;;
  gafqC_freeall;;
  g ← gets id;
  resize_block (zlen (strt g) * sizeof_pointer) 0;;
  resize_block (buffsize g) 0;;
  modify (fun g => set_buffsize g 0);;
  freestack L.

(** ** Closing a state *)

Section Closing.

(** [gafqD_rawrunprotected(L, callalggcTM, NULL)]: the finalizers run in protected
    mode, with the status of the call as the result *)
Variable run_finalizers : pointer -> gc Z.

(** [L->ci = L->base_ci; L->base = L->top = L->ci->base; L->nCcalls = L->baseCcalls = 0] *)
Definition reset_thread (th : Thread) : gc Thread :=
  match cis th with
  | [] => stuck Undefined
  | ci :: _ => mret (set_baseCcalls (set_nCcalls (set_base (set_top (set_cis th [ci]) (ci_base ci)) (ci_base ci)) 0) 0)
  end.

(** [do { ... } while (gafqD_rawrunprotected(...) != 0)] *)
Fixpoint finalize_loop (fuel : nat) (L : pointer) : gc unit :=
  match fuel with
  | O => stuck Fuel
  | S fuel' =>
      th ← gco2th L;
      th' ← reset_thread th;
      putbody L (BThread th');;
      st ← run_finalizers L;
      if st =? 0 then mret tt else finalize_loop fuel' L
  end.

Definition gafq_close (fuel : nat) : gc unit :=
  L ← gets mainthread;
  gafqF_close L 0;;
  gafqC_separateudata true;;
  th ← gco2th L;
  putbody L (BThread (set_errfunc th 0));;
  finalize_loop fuel L;;
  close_state L.

End Closing.
