(* ===== verification/Mach.v ===== *)
(** * The machine under the interpreter: stacks, errors and their messages

    What gvm.c, gdo.c and gapi.c share: access to the slots of a stack (gdo.h), the
    strings and tables of the object memory as these files use them, and the errors
    of gdebug.c with the names of the values they are about.

    [Host] is what the program is run on: the allocator and the functions of the C
    library whose results depend on the platform.  [Calls] is the interface between
    the operations of a thread and the functions that they call: gdo.c implements it
    (Do.v), everything else is written and verified against it.

    A [StkId] is an index, so that [savestack] and [restorestack] have nothing to do
    and a reallocation of the stack moves nothing.  The debug hooks are left out:
    [hookmask] is 0. *)

From stdpp Require Import gmap.
From S2P Require Import Prelude Number Opcodes Object Proto CheckCode Table Lexer Heap Tm Gc Func GcSweep HeapString State.

Class Host := {
  fresh : GState -> pointer;   (* the address of the next block of the allocator *)
  strtod : bytes -> gafq_Number * Z;   (* the number and the length of the part converted *)
  strtoul16 : bytes -> gafq_Number * Z;   (* strtoul(s, &endptr, 16), as a number *)
  number2str : gafq_Number -> bytes;   (* sprintf(s, "%.14g", n) *)
  pointer2str : pointer -> bytes;   (* sprintf(s, "%p", p) *)
  strcoll : bytes -> bytes -> Z;
  num_pow : gafq_Number -> gafq_Number -> gafq_Number;   (* pow *)
  rounds : nat   (* rounds granted to the loops that the source does not bound *)
}.

Class Calls := {
  gafqD_call : pointer -> Z -> Z -> gc unit;   (* L, func, nResults *)
  c_function : Z -> pointer -> gc Z   (* the C function at an address, applied to L *)
}.

Definition GAFQ_YIELD : Z := 1.
Definition GAFQ_ERRRUN : Z := 2.
Definition GAFQ_ERRSYNTAX : Z := 3.
Definition GAFQ_ERRMEM : Z := 4.
Definition GAFQ_ERRERR : Z := 5.

Definition GAFQ_IDSIZE : Z := 60.

Definition ttisboolean (o : TValue) : bool := ttype o =? GAFQ_TBOOLEAN.
Definition ttistable (o : TValue) : bool := ttype o =? GAFQ_TTABLE.
Definition ttisfunction (o : TValue) : bool := ttype o =? GAFQ_TFUNCTION.
Definition ttisuserdata (o : TValue) : bool := ttype o =? GAFQ_TUSERDATA.

(** ** Stacks *)

Definition putth (L : pointer) (f : Thread -> Thread) : gc unit :=
  th ← gco2th L; putbody L (BThread (f th)).

Definition in_stack (th : Thread) (i : Z) : bool := (0 <=? i) && (i <? stacksize th).

(** a slot read and written; outside the block this is undefined *)
Definition slot (L : pointer) (i : Z) : gc TValue :=
  th ← gco2th L;
  if in_stack th i then mret (vget VNil (stack th) i) else stuck Undefined.

Definition setslot (L : pointer) (i : Z) (v : TValue) : gc unit :=
  th ← gco2th L;
  if in_stack th i then putbody L (BThread (set_stack th (vset (stack th) i v))) else stuck Undefined.

Definition gettop (L : pointer) : gc Z := th ← gco2th L; mret (top th).
Definition settop (L : pointer) (x : Z) : gc unit := putth L (fun th => set_top th x).
Definition getbase (L : pointer) : gc Z := th ← gco2th L; mret (base th).

Definition stack_last (th : Thread) : Z := stacksize th - EXTRA_STACK - 1.

Definition gafqD_growstack (L : pointer) (n : Z) : gc unit :=
  th ← gco2th L;
  if n <=? stacksize th then gafqD_reallocstack L (2 * stacksize th)
  else gafqD_reallocstack L (stacksize th + n).

Definition gafqD_checkstack (L : pointer) (n : Z) : gc unit :=
  th ← gco2th L;
  if stack_last th - top th <=? n then gafqD_growstack L n else mret tt.

Definition incr_top (L : pointer) : gc unit :=
  gafqD_checkstack L 1;; putth L (fun th => set_top th (top th + 1)).

(** [setobj2s(L, L->top, v); incr_top(L);] *)
Definition push (L : pointer) (v : TValue) : gc unit :=
  t ← gettop L; setslot L t v;; incr_top L.

(** [L->ci] and its neighbours; an index counts from [L->base_ci] *)
Definition ci_index (th : Thread) : Z := zlen (cis th) - 1.

Definition get_ci (L : pointer) (i : Z) : gc CallInfo :=
  th ← gco2th L;
  if i <? 0 then stuck Undefined
  else match cis th !! Z.to_nat i with Some ci => mret ci | None => stuck Undefined end.

Definition put_ci (L : pointer) (i : Z) (ci : CallInfo) : gc unit :=
  putth L (fun th => set_cis th (vset (cis th) i ci)).

Definition cur_ci (L : pointer) : gc CallInfo := th ← gco2th L; get_ci L (ci_index th).

(** ** Functions *)

(** [clvalue(o)] where [o] is the slot of a call; what is not a closure is undefined *)
Definition getclosure (L : pointer) (func : Z) : gc Body :=
  v ← slot L func;
  match v with
  | VFunction cl => o ← getobj cl; mret (body o)
  | _ => stuck Undefined
  end.

(** [f_isGafq(ci)] *)
Definition f_isGafq (L : pointer) (ci : CallInfo) : gc bool :=
  b ← getclosure L (ci_func ci); mret (match b with BLClosure _ _ _ => true | _ => false end).

Definition isGafq (L : pointer) (ci : CallInfo) : gc bool :=
  v ← slot L (ci_func ci);
  if ttisfunction v then f_isGafq L ci else mret false.

(** [ci_func(ci)->l.p] *)
Definition ci_proto (L : pointer) (ci : CallInfo) : gc pointer :=
  b ← getclosure L (ci_func ci);
  match b with BLClosure _ p _ => mret p | _ => stuck Undefined end.

(** ** Strings *)

Definition svalue (v : TValue) : gc bytes :=
  match v with VString p => ts ← gco2ts p; mret (tsv_str ts) | _ => stuck Undefined end.

Section Machine.

Context `{Host}.

(** [gafqS_newlstr(L, s, l)], whose error is not raised yet *)
Definition newstring (s : bytes) : gc pointer := ts ← gets fresh; gafqS_newlstr ts s.

(** [gafqO_str2d] (gobject.c) *)
Definition str2d (s : bytes) : option gafq_Number := gafqO_str2d strtod strtoul16 (cstr s).

(** [gafqV_tonumber] (gvm.c); [n] receives the number, so the result is a value *)
Definition gafqV_tonumber (obj : TValue) : gc (option gafq_Number) :=
  match obj with
  | VNumber n => mret (Some n)
  | VString p => ts ← gco2ts p; mret (str2d (tsv_str ts))
  | _ => mret None
  end.

(** [gafqV_tostring] (gvm.c) *)
Definition gafqV_tostring (L : pointer) (obj : Z) : gc bool :=
  v ← slot L obj;
  match v with
  | VNumber n => ts ← newstring (cstr (number2str n)); setslot L obj (VString ts);; mret true
  | _ => mret false
  end.

(** [tostring(L,o)] (gvm.h) *)
Definition tostring (L : pointer) (o : Z) : gc bool :=
  v ← slot L o;
  if ttisstring v then mret true else gafqV_tostring L o.

(** *** Concatenation

    [gafqV_concat] (gvm.c); what it does with operands that are not strings or
    numbers, and the error of a result that is too long, are arguments: the messages
    of errors are themselves made with it. *)

(** [for (n = 1; n < total && tostring(L, top-n-1); n++) ...]: [n] and the total length *)
Fixpoint collect_length (fuel : nat) (overflow : gc unit) (L : pointer) (total top n tl : Z) : gc (Z * Z) :=
  match fuel with
  | O => stuck Fuel
  | S fuel' =>
      if n <? total then
        ok ← tostring L (top - n - 1);
        if (ok : bool) then
          v ← slot L (top - n - 1);
          s ← svalue v;
          let l := zlen s in
          (if MAX_SIZET - tl <=? l then overflow else mret tt);;
          collect_length fuel' overflow L total top (n + 1) (size_t (tl + l))
        else mret (n, tl)
      else mret (n, tl)
  end.

(** the strings of the slots [top-i] .. [top-1], one after the other *)
Fixpoint gather (L : pointer) (top : Z) (i : nat) : gc bytes :=
  match i with
  | O => mret []
  | S i' =>
      v ← slot L (top - Z.of_nat i);
      s ← svalue v;
      rest ← gather L top i';
      mret (s ++ rest)
  end.

(** [gafqZ_openspace(L, &G(L)->buff, n)] (gzio.c) *)
Definition gafqZ_openspace (n : Z) : gc unit :=
  g ← gets id;
  if buffsize g <? n then
    let n := if n <? GcSweep.GAFQ_MINBUFFER then GcSweep.GAFQ_MINBUFFER else n in
    resize_block (buffsize g) n;;
    modify (fun g => set_buffsize g n)
  else mret tt.

(** one round of the loop: the number of elements that it handled *)
Definition concat_round (binTM : Z -> Z -> gc unit) (overflow : gc unit) (L : pointer) (total last : Z) : gc Z :=
  b ← getbase L;
  let top := b + last + 1 in
  v2 ← slot L (top - 2);
  ok ← (if ttisstring v2 || ttisnumber v2 then tostring L (top - 1) else mret false);
  if negb ok then binTM (top - 2) (top - 1);; mret 2
  else
    v1 ← slot L (top - 1);
    s1 ← svalue v1;
    if zlen s1 =? 0 then tostring L (top - 2);; mret 2
    else
      r ← collect_length (S (Z.to_nat total)) overflow L total top 1 (zlen s1);
      let '(n, tl) := r in
      gafqZ_openspace tl;;
      s ← gather L top (Z.to_nat n);
      ts ← newstring s;
      setslot L (top - n) (VString ts);;
      mret n.

(** every round handles two elements at least *)
Fixpoint concat_loop (fuel : nat) (binTM : Z -> Z -> gc unit) (overflow : gc unit) (L : pointer) (total last : Z) : gc unit :=
  match fuel with
  | O => stuck Fuel
  | S fuel' =>
      n ← concat_round binTM overflow L total last;
      let total := total - (n - 1) in
      let last := last - (n - 1) in
      if 1 <? total then concat_loop fuel' binTM overflow L total last else mret tt
  end.

(** ** Formatted messages: gobject.c *)

(** an argument of a [%] directive *)
Inductive varg := AStr (s : bytes) | AChar (c : Z) | AInt (i : Z) | ANum (n : gafq_Number) | APtr (p : pointer).

Definition pushstr (L : pointer) (s : bytes) : gc unit :=
  ts ← newstring (cstr s); push L (VString ts).

(** the part of [fmt] before the first ['%'] and the part after it *)
Fixpoint split_percent (fmt : bytes) : bytes * option bytes :=
  match fmt with
  | [] => ([], None)
  | c :: fmt' =>
      if c =? chr "%" then ([], Some fmt')
      else let '(a, b) := split_percent fmt' in (c :: a, b)
  end.

(** the switch on the character after ['%'], with the rest of the arguments; an
    argument that does not fit its directive is undefined *)
Definition push_varg (L : pointer) (c : Z) (args : list varg) : gc (list varg) :=
  if c =? chr "s" then match args with AStr s :: args => pushstr L s;; mret args | _ => stuck Undefined end
  else if c =? chr "c" then match args with AChar x :: args => pushstr L [u8 x];; mret args | _ => stuck Undefined end
  else if c =? chr "d" then match args with AInt i :: args => push L (VNumber (cast_num i));; mret args | _ => stuck Undefined end
  else if c =? chr "f" then match args with ANum n :: args => push L (VNumber n);; mret args | _ => stuck Undefined end
  else if c =? chr "p" then match args with APtr p :: args => pushstr L (pointer2str p);; mret args | _ => stuck Undefined end
  else if c =? chr "%" then pushstr L [chr "%"];; mret args
  else pushstr L [chr "%"; c];; mret args.

(** the loop, with the number [n] of the pieces that it pushed *)
Fixpoint pushvf_loop (fuel : nat) (L : pointer) (fmt : bytes) (args : list varg) (n : Z) : gc (bytes * Z) :=
  match fuel with
  | O => stuck Fuel
  | S fuel' =>
      match split_percent fmt with
      | (_, None) => mret (fmt, n)
      | (_, Some []) => stuck Undefined
      | (pre, Some (c :: fmt')) =>
          ts ← newstring pre;
          push L (VString ts);;
          args ← push_varg L c args;
          pushvf_loop fuel' L fmt' args (n + 2)
      end
  end.

(** all the pieces are strings or numbers *)
Definition gafqO_pushvfstring (L : pointer) (fmt : bytes) (args : list varg) : gc bytes :=
  pushstr L [];;
  r ← pushvf_loop (S (length fmt)) L fmt args 1;
  let '(fmt, n) := r in
  pushstr L fmt;;
  th ← gco2th L;
  concat_loop (S (Z.to_nat (n + 1))) (fun _ _ => stuck Undefined) (raised "string length overflow")
              L (n + 1) (top th - base th - 1);;
  putth L (fun th => set_top th (top th - n));;
  t ← gettop L;
  v ← slot L (t - 1);
  svalue v.

(** ** Errors: gdebug.c, gdo.c *)

(** [longjmp] to the handler of the thread; a thread without a handler ends the
    program, which [Thrown] at the end of a computation stands for *)
Definition gafqD_throw {A} (L : pointer) (errcode : Z) : gc A := fun g => Err (Thrown L errcode g).

(** [currentpc] stores the program counter of the running function in its [CallInfo] *)
Definition currentpc (L : pointer) (i : Z) : gc Z :=
  ci ← get_ci L i;
  gafq ← isGafq L ci;
  if negb gafq then mret (-1)
  else
    th ← gco2th L;
    (if i =? ci_index th then put_ci L i (set_ci_savedpc ci (savedpc th)) else mret tt);;
    ci ← get_ci L i;
    mret (ci_savedpc ci - 1).

(** [getline(f,pc)] (gdebug.h) *)
Definition getline (f : ProtoObj) (pc : Z) : gc Z :=
  match p_lineinfo f with
  | [] => mret 0
  | l => if (0 <=? pc) && (pc <? zlen l) then mret (vget 0 l pc) else stuck Undefined
  end.

Definition currentline (L : pointer) (i : Z) : gc Z :=
  pc ← currentpc L i;
  if pc <? 0 then mret (-1)
  else ci ← get_ci L i; p ← ci_proto L ci; f ← gco2p p; getline f pc.

(** *** Prototypes as [symbexec] reads them *)

Definition string_at (g : GState) (p : option pointer) : option bytes :=
  match p with
  | Some p => match heap g !! p with Some (mkObj _ (BString ts)) => Some (tsv_str ts) | _ => None end
  | None => None
  end.

Definition constant_at (g : GState) (v : TValue) : Constant :=
  match v with
  | VBoolean b => KBoolean b
  | VNumber n => KNumber n
  | VString p => KString (string_at g (Some p))
  | _ => KNil
  end.

Definition proto_view (g : GState) (nested : list Proto) (f : ProtoObj) : Proto :=
  mkProto (constant_at g <$> p_k f) (p_code f) nested (p_lineinfo f)
          ((fun v => mkLocVar (string_at g v.1.1) v.1.2 v.2) <$> p_locvars f)
          (string_at g <$> p_upvalues f) (string_at g (p_source f))
          (p_linedefined f) (p_lastlinedefined f) (p_nups f) (p_numparams f) (p_is_vararg f) (p_maxstacksize f).

(** of the nested functions only the number of upvalues is used *)
Definition view_proto (g : GState) (f : ProtoObj) : Proto :=
  let nested q :=
    match q with
    | Some q => match heap g !! q with Some (mkObj _ (BProto f')) => proto_view g [] f' | _ => proto_view g [] f end
    | None => proto_view g [] f
    end in
  proto_view g (nested <$> p_p f) f.

Definition kname (p : Proto) (c : Z) : bytes :=
  if ISK c then match vget KNil (k p) (INDEXK c) with KString (Some s) => cstr s | _ => str "?" end
  else str "?".

(** the kind and the name of the value in a register; a move goes to a smaller
    register, so the number of registers bounds the recursion *)
Fixpoint getobjname_ (fuel : nat) (L : pointer) (i stackpos : Z) : gc (option (bytes * bytes)) :=
  match fuel with
  | O => stuck Fuel
  | S fuel' =>
      ci ← get_ci L i;
      gafq ← isGafq L ci;
      if negb gafq then mret None
      else
        fp ← ci_proto L ci;
        f ← gco2p fp;
        pc ← currentpc L i;
        g ← gets id;
        let p := view_proto g f in
        match gafqF_getlocalname p (stackpos + 1) pc with
        | Some (Some name) => mret (Some (str "local", cstr name))
        | Some None => stuck Undefined
        | None =>
            match symbexec p pc stackpos with
            | OutOfBounds => stuck Undefined
            | Reject => mret None   (* the instruction 0: a move from 0 to 0 *)
            | Pass ins =>
                if is_op ins OP_GETGLOBAL then
                  match vget KNil (k p) (GETARG_Bx ins) with
                  | KString (Some s) => mret (Some (str "global", cstr s))
                  | _ => stuck Undefined
                  end
                else if is_op ins OP_MOVE then
                  if GETARG_B ins <? GETARG_A ins then getobjname_ fuel' L i (GETARG_B ins) else mret None
                else if is_op ins OP_GETTABLE then mret (Some (str "field", kname p (GETARG_C ins)))
                else if is_op ins OP_GETUPVAL then
                  match upvalues p with
                  | [] => mret (Some (str "upvalue", str "?"))
                  | us => match vget None us (GETARG_B ins) with
                          | Some s => mret (Some (str "upvalue", cstr s))
                          | None => stuck Undefined
                          end
                  end
                else if is_op ins OP_SELF then mret (Some (str "method", kname p (GETARG_C ins)))
                else mret None
            end
        end
  end.

Definition getobjname : pointer -> Z -> Z -> gc (option (bytes * bytes)) := getobjname_ 256.

Definition getfuncname (L : pointer) (i : Z) : gc (option (bytes * bytes)) :=
  ci ← get_ci L i;
  gafq ← isGafq L ci;
  if gafq && (0 <? ci_tailcalls ci) then mret None
  else
    caller ← get_ci L (i - 1);
    gafq ← isGafq L caller;
    if negb gafq then mret None
    else
      p ← ci_proto L caller;
      f ← gco2p p;
      pc ← currentpc L (i - 1);
      let ins := vget 0 (p_code f) pc in
      if is_op ins OP_CALL || is_op ins OP_TAILCALL || is_op ins OP_TFORLOOP
      then getobjname L (i - 1) (GETARG_A ins) else mret None.

(** *** Raising an error *)

Section Raise.

Context `{Calls}.

Definition addinfo (L : pointer) (msg : bytes) : gc unit :=
  ci ← cur_ci L;
  gafq ← isGafq L ci;
  if (gafq : bool) then
    th ← gco2th L;
    line ← currentline L (ci_index th);
    p ← ci_proto L ci;
    f ← gco2p p;
    g ← gets id;
    match string_at g (p_source f) with
    | None => stuck Undefined
    | Some source =>
        gafqO_pushvfstring L (str "%s:%d: %s")
          [AStr (gafqO_chunkid (cstr source) GAFQ_IDSIZE); AInt line; AStr msg];;
        mret tt
    end
  else mret tt.

Definition gafqG_errormsg {A} (L : pointer) : gc A :=
  th ← gco2th L;
  (if errfunc th =? 0 then mret tt
   else
     handler ← slot L (errfunc th);
     (if ttisfunction handler then mret tt else gafqD_throw L GAFQ_ERRERR);;
     t ← gettop L;
     msg ← slot L (t - 1);
     setslot L t msg;;
     setslot L (t - 1) handler;;
     incr_top L;;
     t ← gettop L;
     gafqD_call L (t - 2) 1);;
  gafqD_throw L GAFQ_ERRRUN.

Definition gafqG_runerror {A} (L : pointer) (fmt : string) (args : list varg) : gc A :=
  msg ← gafqO_pushvfstring L (str fmt) args;
  addinfo L msg;;
  gafqG_errormsg L.

(** an operation of the object memory in the thread [L] *)
Definition run_in {A} (L : pointer) (m : gc A) : gc A := fun g =>
  match m g with
  | Err (Raised msg g') => gafqG_runerror L msg [] g'
  | r => r
  end.

(** the place of a value: a slot of the stack, or somewhere else *)
Inductive Loc := AtStack (i : Z) | Elsewhere (v : TValue).

Definition loc_value (L : pointer) (l : Loc) : gc TValue :=
  match l with AtStack i => slot L i | Elsewhere v => mret v end.

Definition typename (v : TValue) : bytes := str (vget "" gafqT_typenames (ttype v)).

Definition isinstack (ci : CallInfo) (o : Loc) : bool :=
  match o with AtStack i => (ci_base ci <=? i) && (i <? ci_top ci) | Elsewhere _ => false end.

Definition gafqG_typeerror {A} (L : pointer) (o : Loc) (op : string) : gc A :=
  v ← loc_value L o;
  ci ← cur_ci L;
  th ← gco2th L;
  kind ← (match o with
          | AtStack i => if isinstack ci o then getobjname L (ci_index th) (i - base th) else mret None
          | Elsewhere _ => mret None
          end);
  match kind with
  | Some (kind, name) =>
      gafqG_runerror L "attempt to %s %s '%s' (a %s value)" [AStr (str op); AStr kind; AStr name; AStr (typename v)]
  | None => gafqG_runerror L "attempt to %s a %s value" [AStr (str op); AStr (typename v)]
  end.

Definition gafqG_concaterror {A} (L : pointer) (p1 p2 : Z) : gc A :=
  v1 ← slot L p1;
  gafqG_typeerror L (AtStack (if ttisstring v1 || ttisnumber v1 then p2 else p1)) "concatenate".

Definition gafqG_aritherror {A} (L : pointer) (p1 p2 : Loc) : gc A :=
  v1 ← loc_value L p1;
  n ← gafqV_tonumber v1;
  gafqG_typeerror L (match n with None => p1 | Some _ => p2 end) "perform arithmetic on".

Definition gafqG_ordererror {A} (L : pointer) (v1 v2 : TValue) : gc A :=
  let t1 := typename v1 in
  let t2 := typename v2 in
  if vget 0 t1 2 =? vget 0 t2 2 then gafqG_runerror L "attempt to compare two %s values" [AStr t1]
  else gafqG_runerror L "attempt to compare %s with %s" [AStr t1; AStr t2].

End Raise.

End Machine.
