(* ===== verification/VmOps.v ===== *)
(** * The operations of the virtual machine: gvm.c

    Conversions, tables with their tag methods, comparison, concatenation and
    arithmetic, as the interpreter and the C API use them. *)

From stdpp Require Import gmap.
From S2P Require Import Prelude Number Object Table Heap Tm Gc Func GcSweep HeapString State Mach.

Definition MAXTAGLOOP : Z := 100.

(** the bytes of the two vectors of a table *)
Definition table_bytes (t : Table) : Z :=
  sizearray t * sizeof_TValue + (if isdummy t then 0 else sizenode t * sizeof_Node).

(** a table changed by a function of gtable.c, with the blocks that this function
    allocates and frees *)
Definition update_table (h : pointer) (t t' : Table) : gc unit :=
  putbody h (BTable t');; resize_block (table_bytes t) (table_bytes t').

(** [gafqH_get(h, key)], read through the pointer that it returns *)
Definition h_get (h : pointer) (key : TValue) : gc TValue :=
  t ← gco2h h; g ← gets id; mret (deref t (gafqH_get (ts_hash_of g) t key)).

Definition h_getnum (h : pointer) (key : Z) : gc TValue :=
  t ← gco2h h; mret (deref t (gafqH_getnum t key)).

Definition h_getstr (h : pointer) (key : pointer) : gc TValue :=
  t ← gco2h h; g ← gets id; mret (deref t (gafqH_getstr (ts_hash_of g) t key)).

(** the slot of the key, created if there is none; an error leaves the table as it
    was, but for the cache [flags] *)
Definition h_slot (f : (pointer -> Z) -> Table -> res (Table * Slot)) (h : pointer) : gc Slot :=
  t ← gco2h h;
  g ← gets id;
  match f (ts_hash_of g) t with
  | Ok (t', s) => update_table h t t';; mret s
  | Err e => putbody h (BTable (with_flags t 0));; object_op (Err e)
  end.

Definition h_set (h : pointer) (key : TValue) : gc Slot := h_slot (fun ts_hash t => gafqH_set ts_hash t key) h.
Definition h_setnum (h : pointer) (key : Z) : gc Slot := h_slot (fun ts_hash t => gafqH_setnum ts_hash t key) h.
Definition h_setstr (h : pointer) (key : pointer) : gc Slot := h_slot (fun ts_hash t => gafqH_setstr ts_hash t key) h.

(** [*slot] and [setobj2t(L, slot, v)] *)
Definition slot_get (h : pointer) (s : Slot) : gc TValue := t ← gco2h h; mret (slot_val t s).
Definition slot_put (h : pointer) (s : Slot) (v : TValue) : gc unit :=
  t ← gco2h h; putbody h (BTable (set_slot t s v)).

Section Ops.

Context `{Host} `{Calls}.

Definition gafqS_newstr (L : pointer) (s : bytes) : gc pointer := run_in L (newstring s).

(** the finalizers that the collector runs are called in the running thread *)
Definition call_finalizer (L : pointer) : gc unit := t ← gettop L; gafqD_call L (t - 2) 0.
Definition checkGC (L : pointer) : gc unit := gafqC_checkGC call_finalizer rounds L.

(** ** Tag methods *)

Definition callTMres (L : pointer) (result : Z) (f p1 p2 : TValue) : gc unit :=
  t ← gettop L;
  setslot L t f;;
  setslot L (t + 1) p1;;
  setslot L (t + 2) p2;;
  gafqD_checkstack L 3;;
  putth L (fun th => set_top th (top th + 3));;
  t ← gettop L;
  gafqD_call L (t - 3) 1;;
  putth L (fun th => set_top th (top th - 1));;
  t ← gettop L;
  v ← slot L t;
  setslot L result v.

Definition callTM (L : pointer) (f p1 p2 p3 : TValue) : gc unit :=
  t ← gettop L;
  setslot L t f;;
  setslot L (t + 1) p1;;
  setslot L (t + 2) p2;;
  setslot L (t + 3) p3;;
  gafqD_checkstack L 4;;
  putth L (fun th => set_top th (top th + 4));;
  t ← gettop L;
  gafqD_call L (t - 4) 0.

(** ** Tables *)

(** the result of one round of the loops below: done, or a round with another value *)
Inductive round := Done | Again (t : Loc).

(** [if (ttisfunction(tm)) { call; return; } t = tm;] *)
Definition use_tm (tm : TValue) (call : gc unit) : gc round :=
  if ttisfunction tm then call;; mret Done else mret (Again (Elsewhere tm)).

Definition gettable_round (L : pointer) (t : Loc) (key : TValue) (val : Z) : gc round :=
  tv ← loc_value L t;
  match tv with
  | VTable h =>
      res ← h_get h key;
      if negb (ttisnil res) then setslot L val res;; mret Done
      else
        ht ← gco2h h;
        tm ← gfasttm (metatable ht) TM_INDEX;
        match tm with
        | None => setslot L val res;; mret Done
        | Some tm => use_tm tm (callTMres L val tm tv key)
        end
  | _ =>
      tm ← gafqT_gettmbyobj tv TM_INDEX;
      (if ttisnil tm then gafqG_typeerror L t "index" else mret tt);;
      use_tm tm (callTMres L val tm tv key)
  end.

Fixpoint gettable_loop (n : nat) (L : pointer) (t : Loc) (key : TValue) (val : Z) : gc unit :=
  match n with
  | O => gafqG_runerror L "loop in gettable" []
  | S n' =>
      r ← gettable_round L t key val;
      match r with Done => mret tt | Again t => gettable_loop n' L t key val end
  end.

Definition gafqV_gettable : pointer -> Loc -> TValue -> Z -> gc unit := gettable_loop (Z.to_nat MAXTAGLOOP).

(** [setobj2t(L, oldval, val); h->flags = 0; gafqC_barriert(L, h, val);] *)
Definition store (L : pointer) (h : pointer) (s : Slot) (v : TValue) : gc unit :=
  slot_put h s v;;
  ht ← gco2h h;
  putbody h (BTable (with_flags ht 0));;
  gafqC_barriert h v.

Definition settable_round (L : pointer) (t : Loc) (key val : TValue) : gc round :=
  tv ← loc_value L t;
  match tv with
  | VTable h =>
      s ← run_in L (h_set h key);
      oldval ← slot_get h s;
      if negb (ttisnil oldval) then store L h s val;; mret Done
      else
        ht ← gco2h h;
        tm ← gfasttm (metatable ht) TM_NEWINDEX;
        match tm with
        | None => store L h s val;; mret Done
        | Some tm => use_tm tm (callTM L tm tv key val)
        end
  | _ =>
      tm ← gafqT_gettmbyobj tv TM_NEWINDEX;
      (if ttisnil tm then gafqG_typeerror L t "index" else mret tt);;
      use_tm tm (callTM L tm tv key val)
  end.

Fixpoint settable_loop (n : nat) (L : pointer) (t : Loc) (key val : TValue) : gc unit :=
  match n with
  | O => gafqG_runerror L "loop in settable" []
  | S n' =>
      r ← settable_round L t key val;
      match r with Done => mret tt | Again t => settable_loop n' L t key val end
  end.

Definition gafqV_settable : pointer -> Loc -> TValue -> TValue -> gc unit := settable_loop (Z.to_nat MAXTAGLOOP).

(** ** Binary operators and comparison *)

Definition call_binTM (L : pointer) (p1 p2 : TValue) (result : Z) (event : TMS) : gc bool :=
  tm ← gafqT_gettmbyobj p1 event;
  tm ← (if ttisnil tm then gafqT_gettmbyobj p2 event else mret tm);
  if ttisnil tm then mret false
  else callTMres L result tm p1 p2;; mret true.

Definition get_compTM (mt1 mt2 : option pointer) (event : TMS) : gc (option TValue) :=
  tm1 ← gfasttm mt1 event;
  match tm1 with
  | None => mret None
  | Some tm1 =>
      if bool_decide (mt1 = mt2) then mret (Some tm1)
      else
        tm2 ← gfasttm mt2 event;
        match tm2 with
        | None => mret None
        | Some tm2 => mret (if gafqO_rawequalObj tm1 tm2 then Some tm1 else None)
        end
  end.

(** [None] for -1 *)
Definition call_orderTM (L : pointer) (p1 p2 : TValue) (event : TMS) : gc (option bool) :=
  tm1 ← gafqT_gettmbyobj p1 event;
  if ttisnil tm1 then mret None
  else
    tm2 ← gafqT_gettmbyobj p2 event;
    if negb (gafqO_rawequalObj tm1 tm2) then mret None
    else
      t ← gettop L;
      callTMres L t tm1 p1 p2;;
      t ← gettop L;
      v ← slot L t;
      mret (Some (negb (l_isfalse v))).

(** strings with zeros inside are compared piece by piece; a round consumes the
    piece before a zero, so the length bounds the rounds *)
Fixpoint l_strcmp_ (fuel : nat) (l r : bytes) : option Z :=
  match fuel with
  | O => None
  | S fuel' =>
      let temp := strcoll (cstr l) (cstr r) in
      if negb (temp =? 0) then Some temp
      else
        let len := zlen (cstr l) in
        if len =? zlen r then Some (if len =? zlen l then 0 else 1)
        else if len =? zlen l then Some (-1)
        else l_strcmp_ fuel' (drop (Z.to_nat (len + 1)) l) (drop (Z.to_nat (len + 1)) r)
  end.

Definition l_strcmp (ls rs : pointer) : gc Z :=
  l ← gco2ts ls;
  r ← gco2ts rs;
  match l_strcmp_ (S (length (tsv_str l))) (tsv_str l) (tsv_str r) with
  | Some z => mret z
  | None => stuck Fuel
  end.

Definition gafqV_lessthan (L : pointer) (l r : TValue) : gc bool :=
  if negb (ttype l =? ttype r) then gafqG_ordererror L l r
  else
    match l, r with
    | VNumber a, VNumber b => mret (gafqi_numlt a b)
    | VString a, VString b => c ← l_strcmp a b; mret (c <? 0)
    | _, _ =>
        res ← call_orderTM L l r TM_LT;
        match res with Some res => mret res | None => gafqG_ordererror L l r end
    end.

Definition lessequal (L : pointer) (l r : TValue) : gc bool :=
  if negb (ttype l =? ttype r) then gafqG_ordererror L l r
  else
    match l, r with
    | VNumber a, VNumber b => mret (gafqi_numle a b)
    | VString a, VString b => c ← l_strcmp a b; mret (c <=? 0)
    | _, _ =>
        res ← call_orderTM L l r TM_LE;
        match res with
        | Some res => mret res
        | None =>
            res ← call_orderTM L r l TM_LT;
            match res with Some res => mret (negb res) | None => gafqG_ordererror L l r end
        end
    end.

(** [if (tm == NULL) return 0; callTMres(L, L->top, tm, t1, t2); return !l_isfalse(L->top);] *)
Definition equal_by_tm (L : pointer) (tm : option TValue) (t1 t2 : TValue) : gc bool :=
  match tm with
  | None => mret false
  | Some tm =>
      t ← gettop L;
      callTMres L t tm t1 t2;;
      t ← gettop L;
      v ← slot L t;
      mret (negb (l_isfalse v))
  end.

(** the values have the same type *)
Definition gafqV_equalval (L : pointer) (t1 t2 : TValue) : gc bool :=
  match t1, t2 with
  | VNil, _ => mret true
  | VNumber a, VNumber b => mret (gafqi_numeq a b)
  | VBoolean a, VBoolean b => mret (a =? b)
  | VLightUserdata a, VLightUserdata b => mret (a =? b)
  | VUserdata a, VUserdata b =>
      if a =? b then mret true
      else
        u1 ← gco2u a; u2 ← gco2u b;
        tm ← get_compTM (u_metatable u1) (u_metatable u2) TM_EQ;
        equal_by_tm L tm t1 t2
  | VTable a, VTable b =>
      if a =? b then mret true
      else
        h1 ← gco2h a; h2 ← gco2h b;
        tm ← get_compTM (metatable h1) (metatable h2) TM_EQ;
        equal_by_tm L tm t1 t2
  | _, _ => mret (gcvalue t1 =? gcvalue t2)
  end.

(** [equalobj(L,o1,o2)] (gvm.h) *)
Definition equalobj (L : pointer) (o1 o2 : TValue) : gc bool :=
  if ttype o1 =? ttype o2 then gafqV_equalval L o1 o2 else mret false.

(** ** Concatenation and arithmetic *)

Definition concat_tm (L : pointer) (p1 p2 : Z) : gc unit :=
  v1 ← slot L p1;
  v2 ← slot L p2;
  ok ← call_binTM L v1 v2 p1 TM_CONCAT;
  if (ok : bool) then mret tt else gafqG_concaterror L p1 p2.

Definition gafqV_concat (L : pointer) (total last : Z) : gc unit :=
  run_in L (concat_loop (S (Z.to_nat total)) (concat_tm L) (gafqG_runerror L "string length overflow" []) L total last).

(** the operator of an arithmetic event *)
Definition arith_op (op : TMS) (nb nc : gafq_Number) : option gafq_Number :=
  match op with
  | TM_ADD => Some (gafqi_numadd nb nc)
  | TM_SUB => Some (gafqi_numsub nb nc)
  | TM_MUL => Some (gafqi_nummul nb nc)
  | TM_DIV => Some (gafqi_numdiv nb nc)
  | TM_MOD => Some (gafqi_nummod nb nc)
  | TM_POW => Some (num_pow nb nc)
  | TM_UNM => Some (gafqi_numunm nb)
  | _ => None
  end.

Definition Arith (L : pointer) (ra : Z) (rb rc : Loc) (op : TMS) : gc unit :=
  vb ← loc_value L rb;
  vc ← loc_value L rc;
  b ← gafqV_tonumber vb;
  c ← (match b with Some _ => gafqV_tonumber vc | None => mret None end);
  match b, c with
  | Some nb, Some nc =>
      match arith_op op nb nc with
      | Some n => setslot L ra (VNumber n)
      | None => mret tt
      end
  | _, _ =>
      ok ← call_binTM L vb vc ra op;
      if (ok : bool) then mret tt else gafqG_aritherror L rb rc
  end.

End Ops.
