(* ===== verification/Do.v ===== *)
(** * Entering and leaving functions: gdo.c

    The frames of a thread.  A frame is the last element of [cis]; the frames below
    it keep the program counter of their caller's call.  Errors are caught where
    [gafqD_rawrunprotected] is running for the thread that raised them. *)

From stdpp Require Import gmap.
From S2P Require Import Prelude Number Opcodes Object Proto Table Heap Tm Gc Func GcSweep HeapString State Mach VmOps.

Definition GAFQI_MAXCCALLS : Z := 200.

(** [unsigned short] *)
Definition u16 (x : Z) : Z := x mod 65536.

(** results of [gafqD_precall] *)
Inductive pcr := PCRGAFQ | PCRC | PCRYIELD.

(** [for (st = from; st < to; st++) setnilvalue(st);] *)
Definition fill_nil (L : pointer) (from to : Z) : gc unit :=
  th ← gco2th L;
  if to <=? from then mret tt
  else if (from <? 0) || (stacksize th <? to) then stuck Undefined
  else putbody L (BThread (set_stack th (clear_slots (stack th) from (to - 1)))).

(** [for (i = 0; i < n; i++) setobjs2s(L, to+i, from+i);] *)
Fixpoint move_slots (n : nat) (L : pointer) (to from : Z) : gc unit :=
  match n with
  | O => mret tt
  | S n' => v ← slot L from; setslot L to v;; move_slots n' L (to + 1) (from + 1)
  end.

(** [for (p = to; p > func; p--) setobjs2s(L, p, p-1);] with [n] rounds left *)
Fixpoint open_hole (n : nat) (L : pointer) (p : Z) : gc unit :=
  match n with
  | O => mret tt
  | S n' => v ← slot L (p - 1); setslot L p v;; open_hole n' L (p - 1)
  end.

(** ** Protected execution *)

Definition gafqD_rawrunprotected (L : pointer) (f : gc unit) : gc Z := fun g =>
  match f g with
  | Ok (_, g') => Ok (0, g')
  | Err (Thrown L' errcode g') => if L' =? L then Ok (errcode, g') else Err (Thrown L' errcode g')
  | Err e => Err e
  end.

Definition restore_stack_limit (L : pointer) : gc unit :=
  th ← gco2th L;
  if (GAFQI_MAXCALLS <? size_ci th) && (ci_index th + 1 <? GAFQI_MAXCALLS)
  then gafqD_reallocCI L GAFQI_MAXCALLS else mret tt.

Section Frames.

Context `{Host} `{Calls}.

Definition gafqD_seterrorobj (L : pointer) (errcode oldtop : Z) : gc unit :=
  (if errcode =? GAFQ_ERRMEM then ts ← gafqS_newstr L MEMERRMSG; setslot L oldtop (VString ts)
   else if errcode =? GAFQ_ERRERR then
     ts ← gafqS_newstr L (str "error in error handling"); setslot L oldtop (VString ts)
   else if (errcode =? GAFQ_ERRSYNTAX) || (errcode =? GAFQ_ERRRUN) then
     t ← gettop L; v ← slot L (t - 1); setslot L oldtop v
   else mret tt);;
  settop L (oldtop + 1).

(** before the program ends with an error that is not caught *)
Definition resetstack (L : pointer) (status : Z) : gc unit :=
  putth L (fun th => set_cis th (take 1 (cis th)));;
  ci ← get_ci L 0;
  putth L (fun th => set_base th (ci_base ci));;
  gafqF_close L (ci_base ci);;
  gafqD_seterrorobj L status (ci_base ci);;
  putth L (fun th => set_allowhook (set_nCcalls th (baseCcalls th)) 1);;
  restore_stack_limit L;;
  putth L (fun th => set_errfunc th 0).

(** ** Frames *)

(** the fields of a new frame are set by the caller *)
Definition new_ci (L : pointer) : gc unit := putth L (fun th => set_cis th (cis th ++ [mkCI 0 0 0 0 0 0])).

Definition growCI (L : pointer) : gc unit :=
  th ← gco2th L;
  (if GAFQI_MAXCALLS <? size_ci th then gafqD_throw L GAFQ_ERRERR
   else
     gafqD_reallocCI L (2 * size_ci th);;
     th ← gco2th L;
     if GAFQI_MAXCALLS <? size_ci th then gafqG_runerror L "stack overflow" [] else mret tt);;
  new_ci L.

Definition inc_ci (L : pointer) : gc unit :=
  th ← gco2th L;
  if ci_index th =? size_ci th - 1 then growCI L else new_ci L.

(** [setobj2n(L, gafqH_setnum(L, htab, i+1), L->top - nvar + i)] for the extra arguments *)
Fixpoint fill_arg (n : nat) (L h : pointer) (i from : Z) : gc unit :=
  match n with
  | O => mret tt
  | S n' =>
      s ← run_in L (h_setnum h (i + 1));
      v ← slot L (from + i);
      slot_put h s v;;
      fill_arg n' L h (i + 1) from
  end.

(** the table [arg] of an old-style vararg function *)
Definition arg_table (L : pointer) (p : ProtoObj) (actual : Z) : gc (option pointer) :=
  if testbits (p_is_vararg p) VARARG_NEEDSARG then
    let nvar := actual - p_numparams p in
    checkGC L;;
    gafqD_checkstack L (p_maxstacksize p);;
    htab ← run_in L (State.gafqH_new fresh nvar 1);
    t ← gettop L;
    fill_arg (Z.to_nat nvar) L htab 0 (t - nvar);;
    ts ← gafqS_newstr L (str "n");
    s ← run_in L (h_setstr htab ts);
    slot_put htab s (VNumber (cast_num nvar));;
    mret (Some htab)
  else mret None.

(** [for (i=0; i<nfixargs; i++) { setobjs2s(L, L->top++, fixed+i); setnilvalue(fixed+i); }] *)
Fixpoint move_fixed (n : nat) (L : pointer) (fixed : Z) : gc unit :=
  match n with
  | O => mret tt
  | S n' =>
      v ← slot L fixed;
      t ← gettop L;
      setslot L t v;;
      settop L (t + 1);;
      setslot L fixed VNil;;
      move_fixed n' L (fixed + 1)
  end.

(** [for (; actual < nfixargs; ++actual) setnilvalue(L->top++);] *)
Fixpoint pad_args (n : nat) (L : pointer) : gc unit :=
  match n with
  | O => mret tt
  | S n' => t ← gettop L; setslot L t VNil;; settop L (t + 1);; pad_args n' L
  end.

Definition adjust_varargs (L : pointer) (p : ProtoObj) (actual : Z) : gc Z :=
  let nfixargs := p_numparams p in
  pad_args (Z.to_nat (nfixargs - actual)) L;;
  let actual := Z.max actual nfixargs in
  htab ← arg_table L p actual;
  base ← gettop L;
  move_fixed (Z.to_nat nfixargs) L (base - actual);;
  (match htab with
   | Some h => t ← gettop L; setslot L t (VTable h);; settop L (t + 1)
   | None => mret tt
   end);;
  mret base.

Definition tryfuncTM (L : pointer) (func : Z) : gc unit :=
  v ← slot L func;
  tm ← gafqT_gettmbyobj v TM_CALL;
  (if ttisfunction tm then mret tt else gafqG_typeerror L (AtStack func) "call");;
  t ← gettop L;
  open_hole (Z.to_nat (t - func)) L t;;
  incr_top L;;
  setslot L func tm.

(** ** Leaving a function *)

(** [for (i = wanted; i != 0 && firstResult < L->top; i--) setobjs2s(L, res++, firstResult++);] *)
Fixpoint move_results (n : nat) (L : pointer) (res firstResult i : Z) : gc (Z * Z) :=
  match n with
  | O => mret (res, i)
  | S n' =>
      if i =? 0 then mret (res, i)
      else v ← slot L firstResult; setslot L res v;; move_results n' L (res + 1) (firstResult + 1) (i - 1)
  end.

(** whether a fixed number of results was wanted *)
Definition gafqD_poscall (L : pointer) (firstResult : Z) : gc bool :=
  th ← gco2th L;
  let i := ci_index th in
  ci ← get_ci L i;
  prev ← get_ci L (i - 1);
  putth L (fun th => set_savedpc (set_base (set_cis th (take (Z.to_nat i) (cis th))) (ci_base prev)) (ci_savedpc prev));;
  let wanted := ci_nresults ci in
  r ← move_results (Z.to_nat (top th - firstResult)) L (ci_func ci) firstResult wanted;
  let '(res, i) := r in
  let i := Z.max i 0 in
  fill_nil L res (res + i);;
  settop L (res + i);;
  mret (negb (wanted =? GAFQ_MULTRET)).

(** ** Entering a function *)

(** [ci = inc_ci(L)] and its fields *)
Definition enter (L : pointer) (func base top nresults : Z) : gc unit :=
  inc_ci L;;
  th ← gco2th L;
  put_ci L (ci_index th) (mkCI base func top 0 nresults 0);;
  putth L (fun th => set_base th base).

(** a function of the language: its frame is ready, [gafqV_execute] runs it *)
Definition precall_gafq (L : pointer) (func nresults : Z) (p : ProtoObj) : gc pcr :=
  gafqD_checkstack L (p_maxstacksize p);;
  t ← gettop L;
  base ← (if p_is_vararg p =? 0 then
            let base := func + 1 in
            (if base + p_numparams p <? t then settop L (base + p_numparams p) else mret tt);;
            mret base
          else adjust_varargs L p (t - func - 1));
  enter L func base (base + p_maxstacksize p) nresults;;
  putth L (fun th => set_savedpc th 0);;
  t ← gettop L;
  fill_nil L t (base + p_maxstacksize p);;
  settop L (base + p_maxstacksize p);;
  mret PCRGAFQ.

(** a C function is run at once *)
Definition precall_c (L : pointer) (func nresults f : Z) : gc pcr :=
  gafqD_checkstack L GAFQ_MINSTACK;;
  t ← gettop L;
  enter L func (func + 1) (t + GAFQ_MINSTACK) nresults;;
  n ← c_function f L;
  if n <? 0 then mret PCRYIELD
  else
    t ← gettop L;
    gafqD_poscall L (t - n);;
    mret PCRC.

Definition gafqD_precall (L : pointer) (func nresults : Z) : gc pcr :=
  v ← slot L func;
  (if ttisfunction v then mret tt else tryfuncTM L func);;
  b ← getclosure L func;
  th ← gco2th L;
  ci ← cur_ci L;
  put_ci L (ci_index th) (set_ci_savedpc ci (savedpc th));;
  match b with
  | BLClosure _ p _ => f ← gco2p p; precall_gafq L func nresults f
  | BCClosure _ f _ => precall_c L func nresults f
  | _ => stuck Undefined
  end.

(** ** Protected calls *)

Definition gafqD_pcall (L : pointer) (func : gc unit) (old_top ef : Z) : gc Z :=
  th ← gco2th L;
  let oldnCcalls := nCcalls th in
  let old_ci := ci_index th in
  let old_allowhooks := allowhook th in
  let old_errfunc := errfunc th in
  putth L (fun th => set_errfunc th ef);;
  status ← gafqD_rawrunprotected L func;
  (if status =? 0 then mret tt
   else
     gafqF_close L old_top;;
     gafqD_seterrorobj L status old_top;;
     ci ← get_ci L old_ci;
     putth L (fun th =>
       set_allowhook (set_savedpc (set_base (set_cis (set_nCcalls th oldnCcalls)
         (take (Z.to_nat (old_ci + 1)) (cis th))) (ci_base ci)) (ci_savedpc ci)) old_allowhooks);;
     restore_stack_limit L);;
  putth L (fun th => set_errfunc th old_errfunc);;
  mret status.

Definition gafq_yield (L : pointer) (nresults : Z) : gc Z :=
  th ← gco2th L;
  if baseCcalls th <? nCcalls th
  then gafqG_runerror L "attempt to yield across metamethod/C-call boundary" []
  else
    putth L (fun th => set_status (set_base th (top th - nresults)) GAFQ_YIELD);;
    mret (-1).

Definition resume_error (L : pointer) (msg : string) : gc Z :=
  ci ← cur_ci L;
  settop L (ci_base ci);;
  ts ← gafqS_newstr L (str msg);
  push L (VString ts);;
  mret GAFQ_ERRRUN.

End Frames.
