(* ===== verification/Execute.v ===== *)
(** * The interpreter: [gafqV_execute] of gvm.c

    The local variables of the loop are the running closure [cl] ([k] is read from
    its prototype), [base] and [pc]; [nexeccalls] counts the functions that this
    activation of the interpreter runs.  One definition per instruction, named after
    its case; its result says how the loop goes on. *)

From stdpp Require Import gmap.
From S2P Require Import Prelude Number Opcodes Object Proto CheckCode Table Heap Tm Gc Func GcSweep HeapString State Mach VmOps Do.

(** [continue], [goto reentry], [return] *)
Inductive next_step :=
  | Next (base pc : Z)
  | Reentry (nexeccalls : Z)
  | Return.

(** ** The running function *)

Definition closure_at (cl : pointer) : gc (pointer * pointer * list (option pointer)) :=
  o ← getobj cl;
  match body o with BLClosure env p upvals => mret (env, p, upvals) | _ => stuck Undefined end.

Definition proto_of (cl : pointer) : gc ProtoObj := c ← closure_at cl; gco2p c.1.2.
Definition env_of (cl : pointer) : gc pointer := c ← closure_at cl; mret c.1.1.

Definition konst (cl : pointer) (i : Z) : gc TValue :=
  f ← proto_of cl;
  if (0 <=? i) && (i <? zlen (p_k f)) then mret (vget VNil (p_k f) i) else stuck Undefined.

Definition fetch (cl : pointer) (pc : Z) : gc Z :=
  f ← proto_of cl;
  if (0 <=? pc) && (pc <? zlen (p_code f)) then mret (vget 0 (p_code f) pc) else stuck Undefined.

(** [cl->upvals[b]] *)
Definition upval_of (cl : pointer) (b : Z) : gc pointer :=
  c ← closure_at cl;
  if (0 <=? b) && (b <? zlen c.2)
  then match vget None c.2 b with Some uv => mret uv | None => stuck Undefined end
  else stuck Undefined.

(** [setobj(L, uv->v, v)] *)
Definition set_upval (uv : pointer) (v : TValue) : gc unit :=
  u ← gco2uv uv;
  match u with
  | UOpen th level _ _ => setslot th level v
  | UClosed _ => putbody uv (BUpVal (UClosed v))
  end.

Definition nvalue_at (L : pointer) (i : Z) : gc gafq_Number :=
  v ← slot L i; match v with VNumber n => mret n | _ => stuck Undefined end.

Section Execute.

Context `{Host} `{Calls}.

(** [Protect(x)], with the new [base] *)
Definition protect {A} (L : pointer) (pc : Z) (x : gc A) : gc (A * Z) :=
  putth L (fun th => set_savedpc th pc);;
  a ← x;
  b ← getbase L;
  mret (a, b).

Section Instructions.

Context (L cl : pointer) (base pc i : Z).

Definition RA : Z := base + GETARG_A i.
Definition RB : Z := base + GETARG_B i.

(** [RKB(i)] and [RKC(i)]: a constant or a register *)
Definition RK (x : Z) : gc Loc :=
  if ISK x then v ← konst cl (INDEXK x); mret (Elsewhere v) else mret (AtStack (base + x)).
Definition RKB : gc Loc := RK (GETARG_B i).
Definition RKC : gc Loc := RK (GETARG_C i).
Definition KBx : gc TValue := konst cl (GETARG_Bx i).

(** [dojump(L, pc, GETARG_sBx( *pc)); pc++] or only [pc++] *)
Definition cond_jump (base : Z) (c : bool) : gc next_step :=
  if c then j ← fetch cl pc; mret (Next base (pc + GETARG_sBx j + 1)) else mret (Next base (pc + 1)).

Definition op_MOVE : gc next_step := v ← slot L RB; setslot L RA v;; mret (Next base pc).

Definition op_LOADK : gc next_step := v ← KBx; setslot L RA v;; mret (Next base pc).

Definition op_LOADBOOL : gc next_step :=
  setslot L RA (VBoolean (GETARG_B i));;
  mret (Next base (if GETARG_C i =? 0 then pc else pc + 1)).

Definition op_LOADNIL : gc next_step :=
  setslot L RB VNil;; fill_nil L RA RB;; mret (Next base pc).

Definition op_GETUPVAL : gc next_step :=
  uv ← upval_of cl (GETARG_B i);
  u ← gco2uv uv;
  v ← uv_value u;
  setslot L RA v;;
  mret (Next base pc).

Definition op_GETGLOBAL : gc next_step :=
  key ← KBx;
  env ← env_of cl;
  r ← protect L pc (gafqV_gettable L (Elsewhere (VTable env)) key RA);
  mret (Next r.2 pc).

Definition op_GETTABLE : gc next_step :=
  rc ← RKC;
  key ← loc_value L rc;
  r ← protect L pc (gafqV_gettable L (AtStack RB) key RA);
  mret (Next r.2 pc).

Definition op_SETGLOBAL : gc next_step :=
  key ← KBx;
  env ← env_of cl;
  val ← slot L RA;
  r ← protect L pc (gafqV_settable L (Elsewhere (VTable env)) key val);
  mret (Next r.2 pc).

Definition op_SETUPVAL : gc next_step :=
  uv ← upval_of cl (GETARG_B i);
  v ← slot L RA;
  set_upval uv v;;
  gafqC_barrier uv v;;
  mret (Next base pc).

Definition op_SETTABLE : gc next_step :=
  rb ← RKB;
  rc ← RKC;
  key ← loc_value L rb;
  val ← loc_value L rc;
  r ← protect L pc (gafqV_settable L (AtStack RA) key val);
  mret (Next r.2 pc).

Definition op_NEWTABLE : gc next_step :=
  h ← run_in L (State.gafqH_new fresh (gafqO_fb2int (GETARG_B i)) (gafqO_fb2int (GETARG_C i)));
  setslot L RA (VTable h);;
  r ← protect L pc (checkGC L);
  mret (Next r.2 pc).

Definition op_SELF : gc next_step :=
  v ← slot L RB;
  setslot L (RA + 1) v;;
  rc ← RKC;
  key ← loc_value L rc;
  r ← protect L pc (gafqV_gettable L (AtStack RB) key RA);
  mret (Next r.2 pc).

(** the macro [arith_op] *)
Definition op_arith (tm : TMS) : gc next_step :=
  rb ← RKB;
  rc ← RKC;
  vb ← loc_value L rb;
  vc ← loc_value L rc;
  match vb, vc, (match vb, vc with VNumber nb, VNumber nc => arith_op tm nb nc | _, _ => None end) with
  | VNumber _, VNumber _, Some n => setslot L RA (VNumber n);; mret (Next base pc)
  | _, _, _ => r ← protect L pc (Arith L RA rb rc tm); mret (Next r.2 pc)
  end.

Definition op_UNM : gc next_step :=
  v ← slot L RB;
  match v with
  | VNumber n => setslot L RA (VNumber (gafqi_numunm n));; mret (Next base pc)
  | _ => r ← protect L pc (Arith L RA (AtStack RB) (AtStack RB) TM_UNM); mret (Next r.2 pc)
  end.

Definition op_NOT : gc next_step :=
  v ← slot L RB;
  setslot L RA (VBoolean (Z.b2z (l_isfalse v)));;
  mret (Next base pc).

Definition op_LEN : gc next_step :=
  v ← slot L RB;
  match v with
  | VTable h =>
      t ← gco2h h;
      n ← object_op (gafqH_getn t);
      setslot L RA (VNumber (cast_num n));;
      mret (Next base pc)
  | VString p =>
      ts ← gco2ts p;
      setslot L RA (VNumber (cast_num (zlen (tsv_str ts))));;
      mret (Next base pc)
  | _ =>
      r ← protect L pc (ok ← call_binTM L v VNil RA TM_LEN;
                        if (ok : bool) then mret tt else gafqG_typeerror L (AtStack RB) "get length of");
      mret (Next r.2 pc)
  end.

Definition op_CONCAT : gc next_step :=
  let b := GETARG_B i in
  let c := GETARG_C i in
  r ← protect L pc (gafqV_concat L (c - b + 1) c;; checkGC L);
  v ← slot L (r.2 + b);
  setslot L (r.2 + GETARG_A i) v;;
  mret (Next r.2 pc).

Definition op_JMP : gc next_step := mret (Next base (pc + GETARG_sBx i)).

(** the instructions that compare and skip *)
Definition op_compare (cmp : TValue -> TValue -> gc bool) : gc next_step :=
  rb ← RKB;
  rc ← RKC;
  vb ← loc_value L rb;
  vc ← loc_value L rc;
  r ← protect L pc (cmp vb vc);
  cond_jump r.2 (Z.b2z r.1 =? GETARG_A i).

Definition op_TEST : gc next_step :=
  v ← slot L RA;
  cond_jump base (negb (Z.b2z (l_isfalse v) =? GETARG_C i)).

Definition op_TESTSET : gc next_step :=
  v ← slot L RB;
  let c := negb (Z.b2z (l_isfalse v) =? GETARG_C i) in
  (if c then setslot L RA v else mret tt);;
  cond_jump base c.

(** [if (b != 0) L->top = ra+b; L->savedpc = pc;] *)
Definition set_args : gc unit :=
  (if GETARG_B i =? 0 then mret tt else settop L (RA + GETARG_B i));;
  putth L (fun th => set_savedpc th pc).

Definition op_CALL (nexeccalls : Z) : gc next_step :=
  set_args;;
  let nresults := GETARG_C i - 1 in
  r ← gafqD_precall L RA nresults;
  match r with
  | PCRGAFQ => mret (Reentry (nexeccalls + 1))
  | PCRC =>
      ci ← cur_ci L;
      (if 0 <=? nresults then settop L (ci_top ci) else mret tt);;
      b ← getbase L;
      mret (Next b pc)
  | PCRYIELD => mret Return
  end.

(** the new frame takes the place of the one below it *)
Definition replace_frame : gc unit :=
  th ← gco2th L;
  let n := ci_index th in
  newci ← get_ci L n;
  ci ← get_ci L (n - 1);
  let func := ci_func ci in
  let pfunc := ci_func newci in
  (match openupval th with [] => mret tt | _ :: _ => gafqF_close L (ci_base ci) end);;
  let base := func + (ci_base newci - pfunc) in
  putth L (fun th => set_base th base);;
  t ← gettop L;
  let aux := Z.max 0 (t - pfunc) in
  move_slots (Z.to_nat aux) L func pfunc;;
  th ← gco2th L;
  put_ci L (n - 1) (mkCI base func (func + aux) (savedpc th) (ci_nresults ci) (ci_tailcalls ci + 1));;
  putth L (fun th => set_cis (set_top th (func + aux)) (take (Z.to_nat n) (cis th))).

Definition op_TAILCALL (nexeccalls : Z) : gc next_step :=
  set_args;;
  r ← gafqD_precall L RA GAFQ_MULTRET;
  match r with
  | PCRGAFQ => replace_frame;; mret (Reentry nexeccalls)
  | PCRC => b ← getbase L; mret (Next b pc)
  | PCRYIELD => mret Return
  end.

Definition op_RETURN (nexeccalls : Z) : gc next_step :=
  let b := GETARG_B i in
  (if b =? 0 then mret tt else settop L (RA + b - 1));;
  th ← gco2th L;
  (match openupval th with [] => mret tt | _ :: _ => gafqF_close L base end);;
  putth L (fun th => set_savedpc th pc);;
  fixed ← gafqD_poscall L RA;
  if nexeccalls - 1 =? 0 then mret Return
  else
    ci ← cur_ci L;
    (if (fixed : bool) then settop L (ci_top ci) else mret tt);;
    mret (Reentry (nexeccalls - 1)).

Definition op_FORLOOP : gc next_step :=
  step ← nvalue_at L (RA + 2);
  init ← nvalue_at L RA;
  let idx := gafqi_numadd init step in
  limit ← nvalue_at L (RA + 1);
  if (if gafqi_numlt (cast_num 0) step then gafqi_numle idx limit else gafqi_numle limit idx) then
    setslot L RA (VNumber idx);;
    setslot L (RA + 3) (VNumber idx);;
    mret (Next base (pc + GETARG_sBx i))
  else mret (Next base pc).

(** [tonumber(o, ra)] (gvm.h): a string is replaced by its number *)
Definition for_number (o : Z) (msg : string) : gc gafq_Number :=
  v ← slot L o;
  n ← gafqV_tonumber v;
  match n with
  | Some n => setslot L o (VNumber n);; mret n
  | None => gafqG_runerror L msg []
  end.

Definition op_FORPREP : gc next_step :=
  putth L (fun th => set_savedpc th pc);;
  init ← for_number RA "'for' initial value must be a number";
  for_number (RA + 1) "'for' limit must be a number";;
  step ← for_number (RA + 2) "'for' step must be a number";
  setslot L RA (VNumber (gafqi_numsub init step));;
  mret (Next base (pc + GETARG_sBx i)).

Definition op_TFORLOOP : gc next_step :=
  let cb := RA + 3 in
  v ← slot L (RA + 2); setslot L (cb + 2) v;;
  v ← slot L (RA + 1); setslot L (cb + 1) v;;
  v ← slot L RA; setslot L cb v;;
  settop L (cb + 3);;
  r ← protect L pc (gafqD_call L cb (GETARG_C i));
  ci ← cur_ci L;
  settop L (ci_top ci);;
  let cb := r.2 + GETARG_A i + 3 in
  v ← slot L cb;
  (if ttisnil v then mret tt else setslot L (cb - 1) v);;
  cond_jump r.2 (negb (ttisnil v)).

(** [for (; n > 0; n--) { setobj2t(L, gafqH_setnum(L, h, last--), ra+n); gafqC_barriert(L, h, ra+n); }] *)
Fixpoint set_list (n : nat) (h : pointer) (ra last : Z) : gc unit :=
  match n with
  | O => mret tt
  | S n' =>
      s ← run_in L (h_setnum h last);
      v ← slot L (ra + Z.of_nat n);
      slot_put h s v;;
      gafqC_barriert h v;;
      set_list n' h ra (last - 1)
  end.

Definition resize_array (h : pointer) (last : Z) : gc unit :=
  t ← gco2h h;
  if sizearray t <? last then
    g ← gets id;
    t' ← run_in L (object_op (gafqH_resizearray (ts_hash_of g) t last));
    update_table h t t'
  else mret tt.

Definition op_SETLIST : gc next_step :=
  t ← gettop L;
  let n := if GETARG_B i =? 0 then t - RA - 1 else GETARG_B i in
  ci ← cur_ci L;
  (if GETARG_B i =? 0 then settop L (ci_top ci) else mret tt);;
  r ← (if GETARG_C i =? 0 then c ← fetch cl pc; mret (s32 c, pc + 1) else mret (GETARG_C i, pc));
  let '(c, pc) := r in
  v ← slot L RA;
  match v with
  | VTable h =>
      let last := s32 ((c - 1) * LFIELDS_PER_FLUSH + n) in
      resize_array h last;;
      set_list (Z.to_nat n) h RA last;;
      mret (Next base pc)
  | _ => mret (Next base pc)
  end.

Definition op_CLOSE : gc next_step := gafqF_close L RA;; mret (Next base pc).

(** [ncl->l.upvals[j] = uv] *)
Definition put_upval (ncl : pointer) (j : Z) (uv : pointer) : gc unit :=
  c ← closure_at ncl;
  putbody ncl (BLClosure c.1.1 c.1.2 (vset c.2 j (Some uv))).

(** the pseudo-instructions after [OP_CLOSURE], from the one at [pc] *)
Fixpoint capture (n : nat) (ncl : pointer) (j pc : Z) : gc unit :=
  match n with
  | O => mret tt
  | S n' =>
      ins ← fetch cl pc;
      uv ← (if is_op ins OP_GETUPVAL then upval_of cl (GETARG_B ins)
            else uv ← gets fresh; gafqF_findupval L (base + GETARG_B ins) uv);
      put_upval ncl j uv;;
      capture n' ncl (j + 1) (pc + 1)
  end.

Definition op_CLOSURE : gc next_step :=
  f ← proto_of cl;
  match vget None (p_p f) (GETARG_Bx i) with
  | None => stuck Undefined
  | Some p =>
      pf ← gco2p p;
      let nup := p_nups pf in
      ncl ← gets fresh;
      env ← env_of cl;
      gafqF_newLclosure ncl nup env p;;
      capture (Z.to_nat nup) ncl 0 pc;;
      setslot L RA (VFunction ncl);;
      r ← protect L (pc + nup) (checkGC L);
      mret (Next r.2 (pc + nup))
  end.

Definition op_VARARG : gc next_step :=
  f ← proto_of cl;
  ci ← cur_ci L;
  let n := ci_base ci - ci_func ci - p_numparams f - 1 in
  let b := GETARG_B i - 1 in
  r ← (if b =? GAFQ_MULTRET then
         r ← protect L pc (gafqD_checkstack L n);
         settop L (r.2 + GETARG_A i + n);;
         mret (n, r.2)
       else mret (b, base));
  let '(b, base) := r in
  let ra := base + GETARG_A i in
  move_slots (Z.to_nat (Z.min b n)) L ra (ci_base ci - n);;
  fill_nil L (ra + Z.max 0 (Z.min b n)) (ra + b);;
  mret (Next base pc).

(** the switch; an unknown operation does nothing *)
Definition exec_op (nexeccalls : Z) : gc next_step :=
  match op_of (GET_OPCODE i) with
  | Some OP_MOVE => op_MOVE
  | Some OP_LOADK => op_LOADK
  | Some OP_LOADBOOL => op_LOADBOOL
  | Some OP_LOADNIL => op_LOADNIL
  | Some OP_GETUPVAL => op_GETUPVAL
  | Some OP_GETGLOBAL => op_GETGLOBAL
  | Some OP_GETTABLE => op_GETTABLE
  | Some OP_SETGLOBAL => op_SETGLOBAL
  | Some OP_SETUPVAL => op_SETUPVAL
  | Some OP_SETTABLE => op_SETTABLE
  | Some OP_NEWTABLE => op_NEWTABLE
  | Some OP_SELF => op_SELF
  | Some OP_ADD => op_arith TM_ADD
  | Some OP_SUB => op_arith TM_SUB
  | Some OP_MUL => op_arith TM_MUL
  | Some OP_DIV => op_arith TM_DIV
  | Some OP_MOD => op_arith TM_MOD
  | Some OP_POW => op_arith TM_POW
  | Some OP_UNM => op_UNM
  | Some OP_NOT => op_NOT
  | Some OP_LEN => op_LEN
  | Some OP_CONCAT => op_CONCAT
  | Some OP_JMP => op_JMP
  | Some OP_EQ => op_compare (equalobj L)
  | Some OP_LT => op_compare (gafqV_lessthan L)
  | Some OP_LE => op_compare (lessequal L)
  | Some OP_TEST => op_TEST
  | Some OP_TESTSET => op_TESTSET
  | Some OP_CALL => op_CALL nexeccalls
  | Some OP_TAILCALL => op_TAILCALL nexeccalls
  | Some OP_RETURN => op_RETURN nexeccalls
  | Some OP_FORLOOP => op_FORLOOP
  | Some OP_FORPREP => op_FORPREP
  | Some OP_TFORLOOP => op_TFORLOOP
  | Some OP_SETLIST => op_SETLIST
  | Some OP_CLOSE => op_CLOSE
  | Some OP_CLOSURE => op_CLOSURE
  | Some OP_VARARG => op_VARARG
  | None => mret (Next base pc)
  end.

End Instructions.

(** the variables at the label [reentry] *)
Definition reentry (L : pointer) : gc (pointer * Z * Z) :=
  th ← gco2th L;
  ci ← cur_ci L;
  v ← slot L (ci_func ci);
  match v with VFunction cl => mret (cl, base th, savedpc th) | _ => stuck Undefined end.

(** the main loop *)
Fixpoint exec_loop (fuel : nat) (L : pointer) (nexeccalls : Z) (cl : pointer) (base pc : Z) : gc unit :=
  match fuel with
  | O => stuck Fuel
  | S fuel' =>
      i ← fetch cl pc;
      s ← exec_op L cl base (pc + 1) i nexeccalls;
      match s with
      | Next base pc => exec_loop fuel' L nexeccalls cl base pc
      | Reentry n => r ← reentry L; let '(cl, base, pc) := r in exec_loop fuel' L n cl base pc
      | Return => mret tt
      end
  end.

Definition gafqV_execute (L : pointer) (nexeccalls : Z) : gc unit :=
  r ← reentry L;
  let '(cl, base, pc) := r in
  exec_loop rounds L nexeccalls cl base pc.

End Execute.
