(* ===== verification/Call.v ===== *)
(** * Calls and coroutines: gdo.c

    [gafqD_call] closes the circle between the interpreter and the functions that it
    calls.  The depth of nested calls is the fuel: a level of [calls] implements the
    interface [Calls] with the level below it. *)

From stdpp Require Import gmap.
From S2P Require Import Prelude Number Opcodes Object Proto Table Heap Tm Gc Func GcSweep HeapString State Mach VmOps Do Execute.

Section Call.

Context `{Host} `{Calls}.

(** [gafqD_call(L, func, nResults)] over the calls made inside *)
Definition call_function (L : pointer) (func nResults : Z) : gc unit :=
  putth L (fun th => set_nCcalls th (u16 (nCcalls th + 1)));;
  th ← gco2th L;
  (if GAFQI_MAXCCALLS <=? nCcalls th then
     if nCcalls th =? GAFQI_MAXCCALLS then gafqG_runerror L "C stack overflow" []
     else if GAFQI_MAXCCALLS + Z.shiftr GAFQI_MAXCCALLS 3 <=? nCcalls th then gafqD_throw L GAFQ_ERRERR
     else mret tt
   else mret tt);;
  r ← gafqD_precall L func nResults;
  (match r with PCRGAFQ => gafqV_execute L 1 | _ => mret tt end);;
  putth L (fun th => set_nCcalls th (u16 (nCcalls th - 1)));;
  checkGC L.

(** ** Coroutines *)

Definition resume (L : pointer) (firstArg : Z) : gc unit :=
  th ← gco2th L;
  ci ← cur_ci L;
  go ← (if status th =? 0 then
          r ← gafqD_precall L (firstArg - 1) GAFQ_MULTRET;
          mret (match r with PCRGAFQ => true | _ => false end)
        else
          putth L (fun th => set_status th 0);;
          gafq ← f_isGafq L ci;
          (if negb gafq then
             fixed ← gafqD_poscall L firstArg;
             ci ← cur_ci L;
             if (fixed : bool) then settop L (ci_top ci) else mret tt
           else putth L (fun th => set_base th (ci_base ci)));;
          mret true);
  if (go : bool) then th ← gco2th L; gafqV_execute L (ci_index th) else mret tt.

Definition gafq_resume (L : pointer) (nargs : Z) : gc Z :=
  th ← gco2th L;
  if negb (status th =? GAFQ_YIELD) && (negb (status th =? 0) || negb (ci_index th =? 0))
  then resume_error L "cannot resume non-suspended coroutine"
  else if GAFQI_MAXCCALLS <=? nCcalls th then resume_error L "C stack overflow"
  else
    putth L (fun th => set_baseCcalls (set_nCcalls th (u16 (nCcalls th + 1))) (u16 (nCcalls th + 1)));;
    t ← gettop L;
    st ← gafqD_rawrunprotected L (resume L (t - nargs));
    st ← (if st =? 0 then th ← gco2th L; mret (status th)
          else
            putth L (fun th => set_status th (u8 st));;
            t ← gettop L;
            gafqD_seterrorobj L st t;;
            th ← gco2th L;
            ci ← cur_ci L;
            put_ci L (ci_index th) (set_ci_top ci (top th));;
            mret st);
    putth L (fun th => set_nCcalls th (u16 (nCcalls th - 1)));;
    mret st.

End Call.

(** the calls of the program nested at most [n] deep, where [c_functions] is what the
    C functions of the program do, given the calls that they make *)
Fixpoint calls `{Host} (c_functions : Calls -> Z -> pointer -> gc Z) (n : nat) : Calls :=
  match n with
  | O => {| gafqD_call := fun _ _ _ => stuck Fuel; c_function := fun _ _ => stuck Fuel |}
  | S n' =>
      let C := calls c_functions n' in
      {| gafqD_call := call_function (H0 := C); c_function := c_functions C |}
  end.
