(* ===== verification/Api.v ===== *)
(** * The C API: gapi.c

    The functions with which C code works on the stack of a thread.  An index is
    translated to a place ([index2adr]): a slot of the stack, the registry, the
    globals, the environment or an upvalue of the running C function, or no value.
    The checks of the API ([api_check]) are compiled out: a use that they forbid is
    undefined where it leaves a block, and not specified otherwise.

    [gafq_load] and [gafq_dump] call the parser and the dump format, which are not
    connected to the object memory. *)

From stdpp Require Import gmap.
From Stdlib Require Import SpecFloat.
From S2P Require Import Prelude Number Opcodes Object Table Heap Tm Gc Func GcSweep HeapString State Mach VmOps Do Execute.

Definition GAFQ_REGISTRYINDEX : Z := -10000.
Definition GAFQ_ENVIRONINDEX : Z := -10001.
Definition GAFQ_GLOBALSINDEX : Z := -10002.
Definition gafq_upvalueindex (i : Z) : Z := GAFQ_GLOBALSINDEX - i.
Definition GAFQ_TNONE : Z := -1.
Definition GAFQI_MAXCSTACK : Z := 8000.

(** [gafq_Integer] is [ptrdiff_t]: conversions to and from numbers *)
Definition cast_integer (n : Z) : gafq_Number :=
  if Z.abs n <? 2 ^ 53 then cast_num n else binary_normalize prec emax n 0 false.

Definition gafq_number2integer (a : gafq_Number) : Z :=
  match num_trunc a with
  | Some v => if (- 2 ^ 63 <=? v) && (v <? 2 ^ 63) then v else - 2 ^ 63
  | None => - 2 ^ 63
  end.

(** ** Indices *)

Inductive Addr :=
  | ANone   (* gafqO_nilobject *)
  | ASlot (i : Z)
  | ARegistry
  | AEnviron (env : pointer)   (* &L->env, a copy *)
  | AGlobals
  | AUpvalue (cl : pointer) (i : Z).

Definition env_of_body (b : Body) : gc pointer :=
  match b with
  | BCClosure env _ _ | BLClosure env _ _ => mret env
  | _ => stuck Undefined
  end.

(** [curr_func(L)] *)
Definition curr_func (L : pointer) : gc pointer :=
  ci ← cur_ci L;
  v ← slot L (ci_func ci);
  match v with VFunction cl => mret cl | _ => stuck Undefined end.

Definition index2adr (L : pointer) (idx : Z) : gc Addr :=
  th ← gco2th L;
  if 0 <? idx then
    let o := base th + (idx - 1) in
    mret (if top th <=? o then ANone else ASlot o)
  else if GAFQ_REGISTRYINDEX <? idx then mret (ASlot (top th + idx))
  else if idx =? GAFQ_REGISTRYINDEX then mret ARegistry
  else if idx =? GAFQ_ENVIRONINDEX then
    func ← curr_func L;
    o ← getobj func;
    env ← env_of_body (body o);
    mret (AEnviron env)
  else if idx =? GAFQ_GLOBALSINDEX then mret AGlobals
  else
    func ← curr_func L;
    o ← getobj func;
    let idx := GAFQ_GLOBALSINDEX - idx in
    match body o with
    | BCClosure _ _ upvalue => mret (if idx <=? zlen upvalue then AUpvalue func (idx - 1) else ANone)
    | BLClosure _ _ upvals => if idx <=? zlen upvals then stuck Undefined else mret ANone
    | _ => stuck Undefined
    end.

Definition addr_get (L : pointer) (a : Addr) : gc TValue :=
  match a with
  | ANone => mret VNil
  | ASlot i => slot L i
  | ARegistry => gets l_registry
  | AEnviron env => mret (VTable env)
  | AGlobals => th ← gco2th L; mret (l_gt th)
  | AUpvalue cl i =>
      o ← getobj cl;
      match body o with
      | BCClosure _ _ upvalue => mret (vget VNil upvalue i)
      | _ => stuck Undefined
      end
  end.

Definition addr_set (L : pointer) (a : Addr) (v : TValue) : gc unit :=
  match a with
  | ANone => stuck Undefined   (* gafqO_nilobject is constant *)
  | ASlot i => setslot L i v
  | ARegistry => modify (fun g => set_l_registry g v)
  | AEnviron _ => mret tt
  | AGlobals => putth L (fun th => set_l_gt th v)
  | AUpvalue cl i =>
      o ← getobj cl;
      match body o with
      | BCClosure env f upvalue => putbody cl (BCClosure env f (vset upvalue i v))
      | _ => stuck Undefined
      end
  end.

(** the value at an index *)
Definition value_at (L : pointer) (idx : Z) : gc TValue := a ← index2adr L idx; addr_get L a.

(** as an operand of the interpreter *)
Definition addr_loc (L : pointer) (a : Addr) : gc Loc :=
  match a with ASlot i => mret (AtStack i) | _ => v ← addr_get L a; mret (Elsewhere v) end.

Definition table_at (L : pointer) (idx : Z) : gc pointer :=
  v ← value_at L idx; match v with VTable h => mret h | _ => stuck Undefined end.

Definition getcurrenv (L : pointer) : gc pointer :=
  th ← gco2th L;
  if ci_index th =? 0 then match l_gt th with VTable h => mret h | _ => stuck Undefined end
  else func ← curr_func L; o ← getobj func; env_of_body (body o).

(** [api_incr_top(L)] *)
Definition api_incr_top (L : pointer) : gc unit := putth L (fun th => set_top th (top th + 1)).

Definition gafqA_pushobject (L : pointer) (v : TValue) : gc unit :=
  t ← gettop L; setslot L t v;; api_incr_top L.

(** [L->top -= n] *)
Definition pop (L : pointer) (n : Z) : gc unit := putth L (fun th => set_top th (top th - n)).

(** [L->top - n], read *)
Definition top_value (L : pointer) (n : Z) : gc TValue := t ← gettop L; slot L (t - n).

Section Api.

Context `{Host} `{Calls}.

(** ** States and stacks *)

Definition gafq_checkstack (L : pointer) (size : Z) : gc bool :=
  th ← gco2th L;
  if (GAFQI_MAXCSTACK <? size) || (GAFQI_MAXCSTACK <? top th - base th + size) then mret false
  else
    (if 0 <? size then
       gafqD_checkstack L size;;
       th ← gco2th L;
       ci ← cur_ci L;
       if ci_top ci <? top th + size then put_ci L (ci_index th) (set_ci_top ci (top th + size)) else mret tt
     else mret tt);;
    mret true.

Fixpoint xmove_loop (n : nat) (from to : pointer) (i : Z) : gc unit :=
  match n with
  | O => mret tt
  | S n' =>
      t ← gettop from;
      v ← slot from (t + i);
      gafqA_pushobject to v;;
      xmove_loop n' from to (i + 1)
  end.

Definition gafq_xmove (from to : pointer) (n : Z) : gc unit :=
  if from =? to then mret tt
  else pop from n;; xmove_loop (Z.to_nat n) from to 0.

Definition gafq_setlevel (from to : pointer) : gc unit :=
  th ← gco2th from; putth to (fun th' => set_nCcalls th' (nCcalls th)).

Definition gafq_newthread (L : pointer) : gc pointer :=
  checkGC L;;
  L1 ← gafqE_newthread fresh L;
  gafqA_pushobject L (VThread L1);;
  mret L1.

Definition gafq_gettop (L : pointer) : gc Z := th ← gco2th L; mret (s32 (top th - base th)).

Definition gafq_settop (L : pointer) (idx : Z) : gc unit :=
  th ← gco2th L;
  if 0 <=? idx then
    fill_nil L (top th) (base th + idx);;
    settop L (base th + idx)
  else settop L (top th + (idx + 1)).

(** [gafq_pop(L,n)] (gafq.h) *)
Definition gafq_pop (L : pointer) (n : Z) : gc unit := gafq_settop L (- n - 1).

(** the operations that move slots need a slot as their place *)
Definition gafq_remove (L : pointer) (idx : Z) : gc unit :=
  a ← index2adr L idx;
  match a with
  | ASlot p =>
      t ← gettop L;
      move_slots (Z.to_nat (t - p - 1)) L p (p + 1);;
      settop L (t - 1)
  | _ => stuck Undefined
  end.

Definition gafq_insert (L : pointer) (idx : Z) : gc unit :=
  a ← index2adr L idx;
  match a with
  | ASlot p =>
      t ← gettop L;
      open_hole (Z.to_nat (t - p)) L t;;
      v ← slot L t;
      setslot L p v
  | _ => stuck Undefined
  end.

Definition gafq_replace (L : pointer) (idx : Z) : gc unit :=
  th ← gco2th L;
  (if (idx =? GAFQ_ENVIRONINDEX) && (ci_index th =? 0) then gafqG_runerror L "no calling environment" []
   else mret tt);;
  o ← index2adr L idx;
  v ← top_value L 1;
  (if idx =? GAFQ_ENVIRONINDEX then
     func ← curr_func L;
     ob ← getobj func;
     match v, body ob with
     | VTable h, BCClosure _ f upvalue => putbody func (BCClosure h f upvalue);; gafqC_barrier func v
     | VTable h, BLClosure _ p upvals => putbody func (BLClosure h p upvals);; gafqC_barrier func v
     | _, _ => stuck Undefined
     end
   else
     addr_set L o v;;
     if idx <? GAFQ_GLOBALSINDEX then func ← curr_func L; gafqC_barrier func v else mret tt);;
  pop L 1.

Definition gafq_pushvalue (L : pointer) (idx : Z) : gc unit := v ← value_at L idx; gafqA_pushobject L v.

(** ** Access: from the stack to C *)

Definition gafq_type (L : pointer) (idx : Z) : gc Z :=
  a ← index2adr L idx;
  match a with ANone => mret GAFQ_TNONE | _ => v ← addr_get L a; mret (ttype v) end.

Definition gafq_typename (t : Z) : bytes :=
  if t =? GAFQ_TNONE then str "no value" else str (vget "" gafqT_typenames t).

Definition iscfunction (v : TValue) : gc bool :=
  match v with
  | VFunction cl => o ← getobj cl; mret (match body o with BCClosure _ _ _ => true | _ => false end)
  | _ => mret false
  end.

Definition gafq_iscfunction (L : pointer) (idx : Z) : gc bool := v ← value_at L idx; iscfunction v.

Definition gafq_isnumber (L : pointer) (idx : Z) : gc bool :=
  v ← value_at L idx; n ← gafqV_tonumber v; mret (match n with Some _ => true | None => false end).

Definition gafq_isstring (L : pointer) (idx : Z) : gc bool :=
  t ← gafq_type L idx; mret ((t =? GAFQ_TSTRING) || (t =? GAFQ_TNUMBER)).

Definition gafq_isuserdata (L : pointer) (idx : Z) : gc bool :=
  v ← value_at L idx; mret (ttisuserdata v || (ttype v =? GAFQ_TLIGHTUSERDATA)).

(** comparison of two places, where a place without a value is equal to nothing *)
Definition compare_at (cmp : TValue -> TValue -> gc bool) (L : pointer) (index1 index2 : Z) : gc bool :=
  o1 ← index2adr L index1;
  o2 ← index2adr L index2;
  match o1, o2 with
  | ANone, _ | _, ANone => mret false
  | _, _ => v1 ← addr_get L o1; v2 ← addr_get L o2; cmp v1 v2
  end.

Definition gafq_rawequal : pointer -> Z -> Z -> gc bool := compare_at (fun v1 v2 => mret (gafqO_rawequalObj v1 v2)).
Definition gafq_equal (L : pointer) : Z -> Z -> gc bool := compare_at (equalobj L) L.
Definition gafq_lessthan (L : pointer) : Z -> Z -> gc bool := compare_at (gafqV_lessthan L) L.

Definition gafq_tonumber (L : pointer) (idx : Z) : gc gafq_Number :=
  v ← value_at L idx;
  n ← gafqV_tonumber v;
  mret (match n with Some n => n | None => cast_num 0 end).

Definition gafq_tointeger (L : pointer) (idx : Z) : gc Z :=
  v ← value_at L idx;
  n ← gafqV_tonumber v;
  mret (match n with Some n => gafq_number2integer n | None => 0 end).

Definition gafq_toboolean (L : pointer) (idx : Z) : gc bool := v ← value_at L idx; mret (negb (l_isfalse v)).

(** [gafqV_tostring(L, o)] at any place *)
Definition addr_tostring (L : pointer) (a : Addr) : gc bool :=
  v ← addr_get L a;
  match v with
  | VNumber n => ts ← gafqS_newstr L (cstr (number2str n)); addr_set L a (VString ts);; mret true
  | _ => mret false
  end.

(** the bytes with their length; [None] for [NULL] *)
Definition gafq_togstring (L : pointer) (idx : Z) : gc (option bytes) :=
  a ← index2adr L idx;
  v ← addr_get L a;
  if ttisstring v then s ← svalue v; mret (Some s)
  else
    ok ← addr_tostring L a;
    if negb ok then mret None
    else
      checkGC L;;
      v ← value_at L idx;
      s ← svalue v;
      mret (Some s).

Definition gafq_objlen (L : pointer) (idx : Z) : gc Z :=
  a ← index2adr L idx;
  v ← addr_get L a;
  match v with
  | VString p => ts ← gco2ts p; mret (zlen (tsv_str ts))
  | VUserdata p => u ← gco2u p; mret (u_len u)
  | VTable h => t ← gco2h h; n ← object_op (gafqH_getn t); mret (size_t n)
  | VNumber _ => addr_tostring L a;; v ← addr_get L a; s ← svalue v; mret (zlen s)
  | _ => mret 0
  end.

Definition gafq_tocfunction (L : pointer) (idx : Z) : gc (option Z) :=
  v ← value_at L idx;
  match v with
  | VFunction cl => o ← getobj cl; mret (match body o with BCClosure _ f _ => Some f | _ => None end)
  | _ => mret None
  end.

(** the block of a userdata begins after its header *)
Definition gafq_touserdata (L : pointer) (idx : Z) : gc (option pointer) :=
  v ← value_at L idx;
  mret (match v with VUserdata u => Some (u + sizeof_Udata) | VLightUserdata p => Some p | _ => None end).

(** the first word of the block of a userdata *)
Definition read_block (b : pointer) : gc Z := u ← gco2u (b - sizeof_Udata); mret (u_block u).
Definition write_block (b : pointer) (x : Z) : gc unit :=
  u ← gco2u (b - sizeof_Udata); putbody (b - sizeof_Udata) (BUdata (mkUdata (u_metatable u) (u_env u) (u_len u) x)).

Definition gafq_tothread (L : pointer) (idx : Z) : gc (option pointer) :=
  v ← value_at L idx; mret (match v with VThread th => Some th | _ => None end).

Definition gafq_topointer (L : pointer) (idx : Z) : gc (option pointer) :=
  v ← value_at L idx;
  match v with
  | VTable p | VFunction p | VThread p => mret (Some p)
  | VUserdata _ | VLightUserdata _ => gafq_touserdata L idx
  | _ => mret None
  end.

(** ** Push: from C to the stack *)

Definition gafq_pushnil (L : pointer) : gc unit := gafqA_pushobject L VNil.
Definition gafq_pushnumber (L : pointer) (n : gafq_Number) : gc unit := gafqA_pushobject L (VNumber n).
Definition gafq_pushinteger (L : pointer) (n : Z) : gc unit := gafqA_pushobject L (VNumber (cast_integer n)).
Definition gafq_pushboolean (L : pointer) (b : Z) : gc unit :=
  gafqA_pushobject L (VBoolean (Z.b2z (negb (b =? 0)))).
Definition gafq_pushlightuserdata (L p : pointer) : gc unit := gafqA_pushobject L (VLightUserdata p).

Definition gafq_pushgstring (L : pointer) (s : bytes) : gc unit :=
  checkGC L;;
  ts ← gafqS_newstr L s;
  gafqA_pushobject L (VString ts).

Definition gafq_pushstring (L : pointer) (s : option bytes) : gc unit :=
  match s with None => gafq_pushnil L | Some s => gafq_pushgstring L (cstr s) end.

Definition gafq_pushfstring (L : pointer) (fmt : string) (args : list varg) : gc bytes :=
  checkGC L;; run_in L (gafqO_pushvfstring L (str fmt) args).

Definition gafq_pushcclosure (L : pointer) (fn n : Z) : gc unit :=
  checkGC L;;
  env ← getcurrenv L;
  cl ← gets fresh;
  gafqF_newCclosure cl n env;;
  pop L n;;
  th ← gco2th L;
  (if (top th <? 0) || (stacksize th <? top th + n) then stuck Undefined
   else putbody cl (BCClosure env fn (take (Z.to_nat n) (drop (Z.to_nat (top th)) (stack th)))));;
  gafqA_pushobject L (VFunction cl).

Definition gafq_pushthread (L : pointer) : gc bool :=
  gafqA_pushobject L (VThread L);; g ← gets id; mret (mainthread g =? L).

(** ** Get: from the values to the stack *)

Definition gafq_gettable (L : pointer) (idx : Z) : gc unit :=
  a ← index2adr L idx;
  t ← addr_loc L a;
  key ← top_value L 1;
  n ← gettop L;
  gafqV_gettable L t key (n - 1).

Definition gafq_getfield (L : pointer) (idx : Z) (k : bytes) : gc unit :=
  a ← index2adr L idx;
  ts ← gafqS_newstr L (cstr k);
  t ← addr_loc L a;
  n ← gettop L;
  gafqV_gettable L t (VString ts) n;;
  api_incr_top L.

Definition gafq_rawget (L : pointer) (idx : Z) : gc unit :=
  h ← table_at L idx;
  key ← top_value L 1;
  v ← h_get h key;
  t ← gettop L;
  setslot L (t - 1) v.

Definition gafq_rawgeti (L : pointer) (idx n : Z) : gc unit :=
  h ← table_at L idx;
  v ← h_getnum h n;
  gafqA_pushobject L v.

Definition gafq_createtable (L : pointer) (narray nrec : Z) : gc unit :=
  checkGC L;;
  h ← run_in L (State.gafqH_new fresh narray nrec);
  gafqA_pushobject L (VTable h).

Definition gafq_getmetatable (L : pointer) (objindex : Z) : gc bool :=
  obj ← value_at L objindex;
  m ← (match obj with
       | VTable h => t ← gco2h h; mret (metatable t)
       | VUserdata p => u ← gco2u p; mret (u_metatable u)
       | _ => gets (fun g => vget None (mt g) (ttype obj))
       end);
  match m with
  | None => mret false
  | Some m => gafqA_pushobject L (VTable m);; mret true
  end.

Definition gafq_getfenv (L : pointer) (idx : Z) : gc unit :=
  o ← value_at L idx;
  v ← (match o with
       | VFunction cl => ob ← getobj cl; env ← env_of_body (body ob); mret (VTable env)
       | VUserdata p => u ← gco2u p; mret (VTable (u_env u))
       | VThread p => th ← gco2th p; mret (l_gt th)
       | _ => mret VNil
       end);
  gafqA_pushobject L v.

(** ** Set: from the stack to the values *)

Definition gafq_settable (L : pointer) (idx : Z) : gc unit :=
  a ← index2adr L idx;
  t ← addr_loc L a;
  key ← top_value L 2;
  val ← top_value L 1;
  gafqV_settable L t key val;;
  pop L 2.

Definition gafq_setfield (L : pointer) (idx : Z) (k : bytes) : gc unit :=
  a ← index2adr L idx;
  ts ← gafqS_newstr L (cstr k);
  t ← addr_loc L a;
  val ← top_value L 1;
  gafqV_settable L t (VString ts) val;;
  pop L 1.

Definition gafq_rawset (L : pointer) (idx : Z) : gc unit :=
  h ← table_at L idx;
  key ← top_value L 2;
  s ← run_in L (h_set h key);
  val ← top_value L 1;
  slot_put h s val;;
  gafqC_barriert h val;;
  pop L 2.

Definition gafq_rawseti (L : pointer) (idx n : Z) : gc unit :=
  h ← table_at L idx;
  s ← run_in L (h_setnum h n);
  val ← top_value L 1;
  slot_put h s val;;
  gafqC_barriert h val;;
  pop L 1.

Definition gafq_setmetatable (L : pointer) (objindex : Z) : gc unit :=
  obj ← value_at L objindex;
  v ← top_value L 1;
  m ← (match v with VNil => mret None | VTable h => mret (Some h) | _ => stuck Undefined end);
  (match obj with
   | VTable h =>
       t ← gco2h h;
       putbody h (BTable (mkTable (flags t) (lsizenode t) m (array t) (sizearray t) (node t) (isdummy t) (lastfree t)));;
       match m with Some m => gafqC_objbarriert h m | None => mret tt end
   | VUserdata p =>
       u ← gco2u p;
       putbody p (BUdata (mkUdata m (u_env u) (u_len u) (u_block u)));;
       match m with Some m => gafqC_objbarrier p m | None => mret tt end
   | _ => modify (fun g => set_mt g (vset (mt g) (ttype obj) m))
   end);;
  pop L 1.

Definition gafq_setfenv (L : pointer) (idx : Z) : gc bool :=
  o ← value_at L idx;
  v ← top_value L 1;
  match v with
  | VTable h =>
      r ← (match o with
           | VFunction cl =>
               ob ← getobj cl;
               match body ob with
               | BCClosure _ f upvalue => putbody cl (BCClosure h f upvalue);; mret true
               | BLClosure _ p upvals => putbody cl (BLClosure h p upvals);; mret true
               | _ => stuck Undefined
               end
           | VUserdata p => u ← gco2u p; putbody p (BUdata (mkUdata (u_metatable u) h (u_len u) (u_block u)));; mret true
           | VThread p => putth p (fun th => set_l_gt th (VTable h));; mret true
           | _ => mret false
           end);
      (if (r : bool) then gafqC_objbarrier (gcvalue o) h else mret tt);;
      pop L 1;;
      mret r
  | _ => stuck Undefined
  end.

(** ** Calls *)

(** [adjustresults(L,nres)] *)
Definition adjustresults (L : pointer) (nres : Z) : gc unit :=
  th ← gco2th L;
  ci ← cur_ci L;
  if (nres =? GAFQ_MULTRET) && (ci_top ci <=? top th)
  then put_ci L (ci_index th) (set_ci_top ci (top th)) else mret tt.

Definition gafq_call (L : pointer) (nargs nresults : Z) : gc unit :=
  t ← gettop L;
  gafqD_call L (t - (nargs + 1)) nresults;;
  adjustresults L nresults.

Definition gafq_pcall (L : pointer) (nargs nresults errfunc : Z) : gc Z :=
  func ← (if errfunc =? 0 then mret 0
          else a ← index2adr L errfunc; match a with ASlot i => mret i | _ => stuck Undefined end);
  t ← gettop L;
  let cfunc := t - (nargs + 1) in
  status ← gafqD_pcall L (gafqD_call L cfunc nresults) cfunc func;
  adjustresults L nresults;;
  mret status.

Definition f_Ccall (L : pointer) (func : Z) (ud : pointer) : gc unit :=
  env ← getcurrenv L;
  cl ← gets fresh;
  gafqF_newCclosure cl 0 env;;
  putbody cl (BCClosure env func []);;
  gafqA_pushobject L (VFunction cl);;
  gafqA_pushobject L (VLightUserdata ud);;
  t ← gettop L;
  gafqD_call L (t - 2) 0.

Definition gafq_cpcall (L : pointer) (func : Z) (ud : pointer) : gc Z :=
  t ← gettop L; gafqD_pcall L (f_Ccall L func ud) t 0.

Definition gafq_status (L : pointer) : gc Z := th ← gco2th L; mret (status th).

(** ** The collector *)

Fixpoint gc_steps (n : nat) (L : pointer) : gc Z :=
  match n with
  | O => stuck Fuel
  | S n' =>
      g ← gets id;
      if GCthreshold g <=? totalbytes g then
        gafqC_step call_finalizer rounds L;;
        s ← gets gcstate;
        if s =? GCSpause then mret 1 else gc_steps n' L
      else mret 0
  end.

Definition gafq_gc (L : pointer) (what data : Z) : gc Z :=
  g ← gets id;
  if what =? 0 then modify (fun g => set_GCthreshold g MAX_LUMEM);; mret 0
  else if what =? 1 then modify (fun g => set_GCthreshold g (totalbytes g));; mret 0
  else if what =? 2 then gafqC_fullgc call_finalizer rounds L;; mret 0
  else if what =? 3 then mret (s32 (Z.shiftr (totalbytes g) 10))
  else if what =? 4 then mret (Z.land (totalbytes g) 1023)
  else if what =? 5 then
    let a := size_t (Z.shiftl (size_t data) 10) in
    modify (fun g => set_GCthreshold g (if a <=? totalbytes g then totalbytes g - a else 0));;
    gc_steps rounds L
  else if what =? 6 then modify (fun g => set_gcpause g data);; mret (gcpause g)
  else if what =? 7 then modify (fun g => set_gcstepmul g data);; mret (gcstepmul g)
  else mret (-1).

(** ** Miscellaneous *)

Definition gafq_error {A} (L : pointer) : gc A := gafqG_errormsg L.

Definition gafq_next (L : pointer) (idx : Z) : gc bool :=
  h ← table_at L idx;
  key ← top_value L 1;
  t ← gco2h h;
  g ← gets id;
  r ← run_in L (object_op (gafqH_next (ts_hash_of g) t key));
  match r with
  | Some (k, v) =>
      n ← gettop L;
      setslot L (n - 1) k;;
      setslot L n v;;
      api_incr_top L;;
      mret true
  | None => pop L 1;; mret false
  end.

Definition gafq_concat (L : pointer) (n : Z) : gc unit :=
  if 2 <=? n then
    checkGC L;;
    th ← gco2th L;
    gafqV_concat L n (top th - base th - 1);;
    pop L (n - 1)
  else if n =? 0 then ts ← gafqS_newstr L []; gafqA_pushobject L (VString ts)
  else mret tt.

Definition gafq_newuserdata (L : pointer) (size : Z) : gc pointer :=
  checkGC L;;
  env ← getcurrenv L;
  u ← gets fresh;
  run_in L (gafqS_newudata u size env);;
  gafqA_pushobject L (VUserdata u);;
  mret (u + sizeof_Udata).

(** the name and the place of an upvalue: of a C function, or an [UpVal] *)
Definition aux_upvalue (fi : TValue) (n : Z) : gc (option (bytes * (pointer * Z + pointer))) :=
  match fi with
  | VFunction cl =>
      o ← getobj cl;
      match body o with
      | BCClosure _ _ upvalue =>
          mret (if (1 <=? n) && (n <=? zlen upvalue) then Some ([], inl (cl, n - 1)) else None)
      | BLClosure _ p upvals =>
          f ← gco2p p;
          if (1 <=? n) && (n <=? zlen (p_upvalues f)) then
            uv ← upval_of cl (n - 1);
            g ← gets id;
            match string_at g (vget None (p_upvalues f) (n - 1)) with
            | Some name => mret (Some (cstr name, inr uv))
            | None => stuck Undefined
            end
          else mret None
      | _ => stuck Undefined
      end
  | _ => mret None
  end.

Definition gafq_getupvalue (L : pointer) (funcindex n : Z) : gc (option bytes) :=
  fi ← value_at L funcindex;
  r ← aux_upvalue fi n;
  match r with
  | None => mret None
  | Some (name, place) =>
      v ← (match place with
           | inl (cl, i) => addr_get L (AUpvalue cl i)
           | inr uv => u ← gco2uv uv; uv_value u
           end);
      gafqA_pushobject L v;;
      mret (Some name)
  end.

Definition gafq_setupvalue (L : pointer) (funcindex n : Z) : gc (option bytes) :=
  fi ← value_at L funcindex;
  r ← aux_upvalue fi n;
  match r with
  | None => mret None
  | Some (name, place) =>
      pop L 1;;
      v ← top_value L 0;
      (match place with
       | inl (cl, i) => addr_set L (AUpvalue cl i) v
       | inr uv => set_upval uv v
       end);;
      gafqC_barrier (gcvalue fi) v;;
      mret (Some name)
  end.

End Api.
