(* ===== verification/Debug.v ===== *)
(** * The debug interface: gdebug.c

    What a program can ask about the functions that are running: levels, names, lines,
    local variables.  The hooks are left out, as in Mach.v. *)

From stdpp Require Import gmap.
From S2P Require Import Prelude Number Opcodes Object Proto Table Heap Tm Gc Func GcSweep HeapString State Mach VmOps Do Api.

(** [gafq_Debug] (gafq.h); [i_ci] is the index of the active function *)
Record gafq_Debug := mkDebug {
  ar_name : option bytes;
  ar_namewhat : bytes;
  ar_what : bytes;
  ar_source : bytes;
  ar_currentline : Z;
  ar_nups : Z;
  ar_linedefined : Z;
  ar_lastlinedefined : Z;
  ar_short_src : bytes;
  ar_i_ci : Z
}.

(** the fields that a function sets *)
Definition set_name (ar : gafq_Debug) (name : option bytes) (namewhat : bytes) : gafq_Debug :=
  mkDebug name namewhat (ar_what ar) (ar_source ar) (ar_currentline ar) (ar_nups ar) (ar_linedefined ar)
          (ar_lastlinedefined ar) (ar_short_src ar) (ar_i_ci ar).
Definition set_source (ar : gafq_Debug) (source what : bytes) (line lastline : Z) : gafq_Debug :=
  mkDebug (ar_name ar) (ar_namewhat ar) what source (ar_currentline ar) (ar_nups ar) line lastline
          (gafqO_chunkid source GAFQ_IDSIZE) (ar_i_ci ar).
Definition set_currentline (ar : gafq_Debug) (x : Z) : gafq_Debug :=
  mkDebug (ar_name ar) (ar_namewhat ar) (ar_what ar) (ar_source ar) x (ar_nups ar) (ar_linedefined ar)
          (ar_lastlinedefined ar) (ar_short_src ar) (ar_i_ci ar).
Definition set_nups (ar : gafq_Debug) (x : Z) : gafq_Debug :=
  mkDebug (ar_name ar) (ar_namewhat ar) (ar_what ar) (ar_source ar) (ar_currentline ar) x (ar_linedefined ar)
          (ar_lastlinedefined ar) (ar_short_src ar) (ar_i_ci ar).

(** a record with the index of a function; its other fields are not set *)
Definition debug_at (i_ci : Z) : gafq_Debug := mkDebug None [] [] [] 0 0 0 0 [] i_ci.

Section Debug.

Context `{Host} `{Calls}.

Fixpoint getstack_loop (n : nat) (L : pointer) (i level : Z) : gc (Z * Z) :=
  match n with
  | O => mret (i, level)
  | S n' =>
      if (0 <? level) && (0 <? i) then
        ci ← get_ci L i;
        gafq ← f_isGafq L ci;
        let level := level - 1 in
        getstack_loop n' L (i - 1) (if (gafq : bool) then level - ci_tailcalls ci else level)
      else mret (i, level)
  end.

(** [i_ci] is 0 for a lost tail call; [None] is no such level *)
Definition gafq_getstack (L : pointer) (level : Z) : gc (option gafq_Debug) :=
  th ← gco2th L;
  r ← getstack_loop (length (cis th)) L (ci_index th) level;
  let '(i, level) := r in
  mret (if (level =? 0) && (0 <? i) then Some (debug_at i) else if level <? 0 then Some (debug_at 0) else None).

(** ** Local variables *)

Definition findlocal (L : pointer) (i n : Z) : gc (option bytes) :=
  ci ← get_ci L i;
  gafq ← isGafq L ci;
  name ← (if (gafq : bool) then
            p ← ci_proto L ci;
            f ← gco2p p;
            pc ← currentpc L i;
            g ← gets id;
            match gafqF_getlocalname (view_proto g f) n pc with
            | Some (Some name) => mret (Some (cstr name))
            | Some None => stuck Undefined
            | None => mret None
            end
          else mret None);
  match name with
  | Some name => mret (Some name)
  | None =>
      th ← gco2th L;
      limit ← (if i =? ci_index th then mret (top th) else ci' ← get_ci L (i + 1); mret (ci_func ci'));
      mret (if (n <=? limit - ci_base ci) && (0 <? n) then Some (str "(*temporary)") else None)
  end.

Definition gafq_getlocal (L : pointer) (ar : gafq_Debug) (n : Z) : gc (option bytes) :=
  name ← findlocal L (ar_i_ci ar) n;
  (match name with
   | Some _ =>
       ci ← get_ci L (ar_i_ci ar);
       v ← slot L (ci_base ci + (n - 1));
       gafqA_pushobject L v
   | None => mret tt
   end);;
  mret name.

Definition gafq_setlocal (L : pointer) (ar : gafq_Debug) (n : Z) : gc (option bytes) :=
  name ← findlocal L (ar_i_ci ar) n;
  (match name with
   | Some _ =>
       ci ← get_ci L (ar_i_ci ar);
       v ← top_value L 1;
       setslot L (ci_base ci + (n - 1)) v
   | None => mret tt
   end);;
  pop L 1;;
  mret name.

(** ** Functions *)

Definition funcinfo (ar : gafq_Debug) (cl : pointer) : gc gafq_Debug :=
  o ← getobj cl;
  match body o with
  | BCClosure _ _ _ => mret (set_source ar (str "=[C]") (str "C") (-1) (-1))
  | BLClosure _ p _ =>
      f ← gco2p p;
      g ← gets id;
      match string_at g (p_source f) with
      | Some s =>
          mret (set_source ar (cstr s) (if p_linedefined f =? 0 then str "main" else str "Gafq")
                           (p_linedefined f) (p_lastlinedefined f))
      | None => stuck Undefined
      end
  | _ => stuck Undefined
  end.

Definition info_tailcall (ar : gafq_Debug) : gafq_Debug :=
  set_nups (set_currentline (set_source (set_name ar (Some []) []) (str "=(tail call)") (str "tail") (-1) (-1)) (-1)) 0.

(** [for (i=0; i<f->l.p->sizelineinfo; i++) setbvalue(gafqH_setnum(L, t, lineinfo[i]), 1);] *)
Fixpoint set_lines (L t : pointer) (lineinfo : list Z) : gc unit :=
  match lineinfo with
  | [] => mret tt
  | line :: lineinfo =>
      s ← run_in L (h_setnum t line);
      slot_put t s (VBoolean 1);;
      set_lines L t lineinfo
  end.

Definition collectvalidlines (L : pointer) (f : option pointer) : gc unit :=
  v ← (match f with
       | None => mret VNil
       | Some cl =>
           o ← getobj cl;
           match body o with
           | BLClosure _ p _ =>
               t ← run_in L (State.gafqH_new fresh 0 0);
               f ← gco2p p;
               set_lines L t (p_lineinfo f);;
               mret (VTable t)
           | _ => mret VNil
           end
       end);
  push L v.

(** [f->c.nupvalues] *)
Definition nupvalues (cl : pointer) : gc Z :=
  o ← getobj cl;
  match body o with
  | BCClosure _ _ upvalue => mret (zlen upvalue)
  | BLClosure _ _ upvals => mret (zlen upvals)
  | _ => stuck Undefined
  end.

(** an option of [what]; the result says if it is valid *)
Definition getinfo_option (L : pointer) (c : Z) (ar : gafq_Debug) (f : pointer) (ci : option Z) : gc (gafq_Debug * bool) :=
  if c =? chr "S" then ar ← funcinfo ar f; mret (ar, true)
  else if c =? chr "l" then
    line ← (match ci with Some i => currentline L i | None => mret (-1) end);
    mret (set_currentline ar line, true)
  else if c =? chr "u" then n ← nupvalues f; mret (set_nups ar n, true)
  else if c =? chr "n" then
    r ← (match ci with Some i => getfuncname L i | None => mret None end);
    mret (match r with Some (kind, name) => set_name ar (Some name) kind | None => set_name ar None [] end, true)
  else mret (ar, (c =? chr "L") || (c =? chr "f")).

Fixpoint getinfo_loop (L : pointer) (what : bytes) (ar : gafq_Debug) (f : pointer) (ci : option Z) (status : bool) : gc (gafq_Debug * bool) :=
  match what with
  | [] => mret (ar, status)
  | c :: what =>
      r ← getinfo_option L c ar f ci;
      getinfo_loop L what r.1 f ci (status && r.2)
  end.

Definition auxgetinfo (L : pointer) (what : bytes) (ar : gafq_Debug) (f : option pointer) (ci : option Z) : gc (gafq_Debug * bool) :=
  match f with
  | None => mret (info_tailcall ar, true)
  | Some f => getinfo_loop L what ar f ci true
  end.

(** [strchr(what, c)] for a character of an option *)
Definition has_option (what : bytes) (c : ascii) : bool := bool_decide (chr c ∈ what).

(** [what] has no zero *)
Definition gafq_getinfo (L : pointer) (what : bytes) (ar : gafq_Debug) : gc (gafq_Debug * bool) :=
  r ← (match what with
       | c :: what' =>
           if c =? chr ">" then
             v ← top_value L 1;
             match v with
             | VFunction cl => pop L 1;; mret (what', Some cl, None)
             | _ => stuck Undefined
             end
           else mret (what, None, Some tt)
       | [] => mret (what, None, Some tt)
       end);
  let '(what, f, level) := r in
  r ← (match level with
       | Some _ =>
           if negb (ar_i_ci ar =? 0) then
             ci ← get_ci L (ar_i_ci ar);
             v ← slot L (ci_func ci);
             match v with VFunction cl => mret (Some cl, Some (ar_i_ci ar)) | _ => stuck Undefined end
           else mret (None, None)
       | None => mret (f, None)
       end);
  let '(f, ci) := r in
  r ← auxgetinfo L what ar f ci;
  (if has_option what "f" then push L (match f with Some cl => VFunction cl | None => VNil end) else mret tt);;
  (if has_option what "L" then collectvalidlines L f else mret tt);;
  mret r.

End Debug.
