(* ===== verification/AuxLib.v ===== *)
(** * The auxiliary library: gauxlib.c, and the debug interface it uses

    Checks of the arguments of C functions, their error messages, string buffers,
    metatables and references.  A [gafqL_Buffer] is a C structure of its own: its
    characters that are not on the stack yet and the number [lvl] of strings on it.
    [gafqL_loadfile] and the functions that load strings are in Load.v. *)

From stdpp Require Import gmap.
From S2P Require Import Prelude Number Opcodes Object Table Heap Tm Gc Func GcSweep HeapString State Mach VmOps Do Api Debug.

Section Aux.

Context `{Host} `{Calls}.

(** ** Errors *)

Definition gafqL_where (L : pointer) (level : Z) : gc unit :=
  ar ← gafq_getstack L level;
  ar ← (match ar with Some ar => r ← gafq_getinfo L (str "Sl") ar; mret (Some r.1) | None => mret None end);
  match ar with
  | Some ar =>
      if 0 <? ar_currentline ar then gafq_pushfstring L "%s:%d: " [AStr (ar_short_src ar); AInt (ar_currentline ar)];; mret tt
      else gafq_pushgstring L []
  | None => gafq_pushgstring L []
  end.

Definition gafqL_error {A} (L : pointer) (fmt : string) (args : list varg) : gc A :=
  gafqL_where L 1;;
  gafq_pushfstring L fmt args;;
  gafq_concat L 2;;
  gafq_error L.

Definition gafqL_argerror {A} (L : pointer) (narg : Z) (extramsg : bytes) : gc A :=
  ar ← gafq_getstack L 0;
  match ar with
  | None => gafqL_error L "bad argument #%d (%s)" [AInt narg; AStr extramsg]
  | Some ar =>
      r ← gafq_getinfo L (str "n") ar;
      let ar := r.1 in
      let method := bool_decide (ar_namewhat ar = str "method") in
      let narg := if method then narg - 1 else narg in
      let name := match ar_name ar with Some s => s | None => str "?" end in
      if method && (narg =? 0)
      then gafqL_error L "calling '%s' on bad self (%s)" [AStr name; AStr extramsg]
      else gafqL_error L "bad argument #%d to '%s' (%s)" [AInt narg; AStr name; AStr extramsg]
  end.

(** [gafqL_typename(L,i)] (gauxlib.h) *)
Definition gafqL_typename (L : pointer) (i : Z) : gc bytes := t ← gafq_type L i; mret (gafq_typename t).

Definition gafqL_typerror {A} (L : pointer) (narg : Z) (tname : bytes) : gc A :=
  got ← gafqL_typename L narg;
  msg ← gafq_pushfstring L "%s expected, got %s" [AStr tname; AStr got];
  gafqL_argerror L narg msg.

Definition tag_error {A} (L : pointer) (narg tag : Z) : gc A := gafqL_typerror L narg (gafq_typename tag).

(** ** Arguments *)

Definition gafq_isnil (L : pointer) (n : Z) : gc bool := t ← gafq_type L n; mret (t =? GAFQ_TNIL).
Definition gafq_istable (L : pointer) (n : Z) : gc bool := t ← gafq_type L n; mret (t =? GAFQ_TTABLE).
Definition gafq_isnoneornil (L : pointer) (n : Z) : gc bool := t ← gafq_type L n; mret (t <=? 0).

Definition gafqL_checkstack (L : pointer) (space : Z) (mes : string) : gc unit :=
  ok ← gafq_checkstack L space;
  if (ok : bool) then mret tt else gafqL_error L "stack overflow (%s)" [AStr (str mes)].

Definition gafqL_checktype (L : pointer) (narg t : Z) : gc unit :=
  t' ← gafq_type L narg; if t' =? t then mret tt else tag_error L narg t.

Definition gafqL_checkany (L : pointer) (narg : Z) : gc unit :=
  t ← gafq_type L narg; if t =? GAFQ_TNONE then gafqL_argerror L narg (str "value expected") else mret tt.

Definition gafqL_checkgstring (L : pointer) (narg : Z) : gc bytes :=
  s ← gafq_togstring L narg;
  match s with Some s => mret s | None => tag_error L narg GAFQ_TSTRING end.

(** [gafqL_checkstring(L,n)] (gauxlib.h) *)
Definition gafqL_checkstring (L : pointer) (n : Z) : gc bytes := s ← gafqL_checkgstring L n; mret (cstr s).

(** [gafqL_opt(L,f,n,d)] (gauxlib.h) *)
Definition gafqL_opt {A} (L : pointer) (f : pointer -> Z -> gc A) (n : Z) (d : A) : gc A :=
  none ← gafq_isnoneornil L n; if (none : bool) then mret d else f L n.

Definition gafqL_optgstring (L : pointer) (narg : Z) (def : bytes) : gc bytes :=
  gafqL_opt L gafqL_checkgstring narg (cstr def).

(** [gafqL_optstring(L,n,NULL)] (gauxlib.h) *)
Definition gafqL_optstring (L : pointer) (n : Z) : gc (option bytes) :=
  gafqL_opt L (fun L n => s ← gafqL_checkstring L n; mret (Some s)) n None.

Definition gafqL_checknumber (L : pointer) (narg : Z) : gc gafq_Number :=
  d ← gafq_tonumber L narg;
  ok ← gafq_isnumber L narg;
  if gafqi_numeq d (cast_num 0) && negb ok then tag_error L narg GAFQ_TNUMBER else mret d.

Definition gafqL_optnumber (L : pointer) (narg : Z) (def : gafq_Number) : gc gafq_Number :=
  gafqL_opt L gafqL_checknumber narg def.

Definition gafqL_checkinteger (L : pointer) (narg : Z) : gc Z :=
  d ← gafq_tointeger L narg;
  ok ← gafq_isnumber L narg;
  if (d =? 0) && negb ok then tag_error L narg GAFQ_TNUMBER else mret d.

Definition gafqL_optinteger (L : pointer) (narg def : Z) : gc Z := gafqL_opt L gafqL_checkinteger narg def.

Definition gafqL_checkint (L : pointer) (n : Z) : gc Z := d ← gafqL_checkinteger L n; mret (s32 d).
Definition gafqL_optint (L : pointer) (n d : Z) : gc Z := d ← gafqL_optinteger L n d; mret (s32 d).

(** [gafqL_argcheck] (gauxlib.h) *)
Definition gafqL_argcheck (L : pointer) (cond : bool) (numarg : Z) (extramsg : string) : gc unit :=
  if cond then mret tt else gafqL_argerror L numarg (str extramsg).

(** the position of the argument in a list of options *)
Fixpoint option_index (lst : list string) (name : bytes) (i : Z) : option Z :=
  match lst with
  | [] => None
  | s :: lst' => if bool_decide (str s = cstr name) then Some i else option_index lst' name (i + 1)
  end.

Definition gafqL_checkoption (L : pointer) (narg : Z) (def : option string) (lst : list string) : gc Z :=
  name ← (match def with Some d => gafqL_optgstring L narg (str d) | None => gafqL_checkgstring L narg end);
  match option_index lst name 0 with
  | Some i => mret i
  | None => msg ← gafq_pushfstring L "invalid option '%s'" [AStr name]; gafqL_argerror L narg msg
  end.

(** [gafqL_getn(L,i)] (gauxlib.h, without [GAFQ_COMPAT_GETN]) *)
Definition gafqL_getn (L : pointer) (i : Z) : gc Z := n ← gafq_objlen L i; mret (s32 n).

(** ** Metatables and libraries *)

Definition abs_index (L : pointer) (i : Z) : gc Z :=
  if (0 <? i) || (i <=? GAFQ_REGISTRYINDEX) then mret i else n ← gafq_gettop L; mret (n + i + 1).

Definition gafqL_newmetatable (L : pointer) (tname : bytes) : gc bool :=
  gafq_getfield L GAFQ_REGISTRYINDEX tname;;
  nil ← gafq_isnil L (-1);
  if negb nil then mret false
  else
    gafq_pop L 1;;
    gafq_createtable L 0 0;;
    gafq_pushvalue L (-1);;
    gafq_setfield L GAFQ_REGISTRYINDEX tname;;
    mret true.

Definition gafqL_checkudata (L : pointer) (ud : Z) (tname : bytes) : gc pointer :=
  p ← gafq_touserdata L ud;
  match p with
  | None => gafqL_typerror L ud tname
  | Some p =>
      hasmt ← gafq_getmetatable L ud;
      if negb hasmt then gafqL_typerror L ud tname
      else
        gafq_getfield L GAFQ_REGISTRYINDEX tname;;
        same ← gafq_rawequal L (-1) (-2);
        if (same : bool) then gafq_pop L 2;; mret p else gafqL_typerror L ud tname
  end.

Definition gafqL_getmetafield (L : pointer) (obj : Z) (event : bytes) : gc bool :=
  hasmt ← gafq_getmetatable L obj;
  if negb hasmt then mret false
  else
    gafq_pushstring L (Some event);;
    gafq_rawget L (-2);;
    nil ← gafq_isnil L (-1);
    if (nil : bool) then gafq_pop L 2;; mret false
    else gafq_remove L (-2);; mret true.

Definition gafqL_callmeta (L : pointer) (obj : Z) (event : bytes) : gc bool :=
  obj ← abs_index L obj;
  found ← gafqL_getmetafield L obj event;
  if negb found then mret false
  else gafq_pushvalue L obj;; gafq_call L 1 1;; mret true.

(** the part of a dotted name before the first dot, and the part after it *)
Fixpoint split_dot (fname : bytes) : bytes * option bytes :=
  match fname with
  | [] => ([], None)
  | c :: f =>
      if c =? chr "." then ([], Some f)
      else let '(a, b) := split_dot f in (c :: a, b)
  end.

(** [None] for [NULL]: the table is on the top of the stack *)
Fixpoint findtable_loop (n : nat) (L : pointer) (fname : bytes) (szhint : Z) : gc (option bytes) :=
  match n with
  | O => stuck Fuel
  | S n' =>
      let '(part, rest) := split_dot fname in
      gafq_pushgstring L part;;
      gafq_rawget L (-2);;
      nil ← gafq_isnil L (-1);
      table ← gafq_istable L (-1);
      if negb nil && negb table then gafq_pop L 2;; mret (Some fname)
      else
        (if (nil : bool) then
           gafq_pop L 1;;
           gafq_createtable L 0 (match rest with Some _ => 1 | None => szhint end);;
           gafq_pushgstring L part;;
           gafq_pushvalue L (-2);;
           gafq_settable L (-4)
         else mret tt);;
        gafq_remove L (-2);;
        match rest with
        | Some rest => findtable_loop n' L rest szhint
        | None => mret None
        end
  end.

Definition gafqL_findtable (L : pointer) (idx : Z) (fname : bytes) (szhint : Z) : gc (option bytes) :=
  gafq_pushvalue L idx;; findtable_loop (S (length fname)) L fname szhint.

(** a [gafqL_Reg]: a name and a C function *)
Fixpoint set_funcs (L : pointer) (l : list (bytes * Z)) (nup : Z) : gc unit :=
  match l with
  | [] => mret tt
  | (name, func) :: l' =>
      for_each (seqZ 0 nup) (fun _ => gafq_pushvalue L (- nup));;
      gafq_pushcclosure L func nup;;
      gafq_setfield L (- (nup + 2)) name;;
      set_funcs L l' nup
  end.

Definition gafqI_openlib (L : pointer) (libname : option bytes) (l : list (bytes * Z)) (nup : Z) : gc unit :=
  (match libname with
   | None => mret tt
   | Some libname =>
       gafqL_findtable L GAFQ_REGISTRYINDEX (str "_LOADED") 1;;
       gafq_getfield L (-1) libname;;
       table ← gafq_istable L (-1);
       (if (table : bool) then mret tt
        else
          gafq_pop L 1;;
          conflict ← gafqL_findtable L GAFQ_GLOBALSINDEX libname (zlen l);
          (match conflict with
           | Some _ => gafqL_error L "name conflict for module '%s'" [AStr libname]
           | None => mret tt
           end);;
          gafq_pushvalue L (-1);;
          gafq_setfield L (-3) libname);;
       gafq_remove L (-2);;
       gafq_insert L (- (nup + 1))
   end);;
  set_funcs L l nup;;
  gafq_pop L nup.

Definition gafqL_register (L : pointer) (libname : option bytes) (l : list (bytes * Z)) : gc unit :=
  gafqI_openlib L libname l 0.

(** ** String buffers *)

Definition GAFQL_BUFFERSIZE : Z := 8192.   (* BUFSIZ *)
Definition LIMIT : Z := GAFQ_MINSTACK / 2.

Record Buffer := mkBuffer { b_chars : bytes; b_lvl : Z }.

Definition emptybuffer (L : pointer) (B : Buffer) : gc (Buffer * bool) :=
  if zlen (b_chars B) =? 0 then mret (B, false)
  else gafq_pushgstring L (b_chars B);; mret (mkBuffer [] (b_lvl B + 1), true).

(** the number of strings at the top to be joined *)
Fixpoint toget_loop (n : nat) (L : pointer) (lvl toget toplen : Z) : gc Z :=
  match n with
  | O => mret toget
  | S n' =>
      l ← gafq_objlen L (- (toget + 1));
      if (LIMIT <=? lvl - toget + 1) || (l <? toplen) then
        let toget := toget + 1 in
        if toget <? lvl then toget_loop n' L lvl toget (toplen + l) else mret toget
      else mret toget
  end.

Definition adjuststack (L : pointer) (B : Buffer) : gc Buffer :=
  if 1 <? b_lvl B then
    toplen ← gafq_objlen L (-1);
    toget ← toget_loop (Z.to_nat (b_lvl B)) L (b_lvl B) 1 toplen;
    gafq_concat L toget;;
    mret (mkBuffer (b_chars B) (b_lvl B - toget + 1))
  else mret B.

Definition gafqL_prepbuffer (L : pointer) (B : Buffer) : gc Buffer :=
  r ← emptybuffer L B;
  let '(B, pushed) := r in
  if (pushed : bool) then adjuststack L B else mret B.

Definition gafqL_addchar (L : pointer) (B : Buffer) (c : Z) : gc Buffer :=
  B ← (if zlen (b_chars B) <? GAFQL_BUFFERSIZE then mret B else gafqL_prepbuffer L B);
  mret (mkBuffer (b_chars B ++ [c]) (b_lvl B)).

Fixpoint gafqL_addgstring (L : pointer) (B : Buffer) (s : bytes) : gc Buffer :=
  match s with
  | [] => mret B
  | c :: s' => B ← gafqL_addchar L B c; gafqL_addgstring L B s'
  end.

Definition gafqL_addstring (L : pointer) (B : Buffer) (s : bytes) : gc Buffer := gafqL_addgstring L B (cstr s).

Definition gafqL_pushresult (L : pointer) (B : Buffer) : gc unit :=
  r ← emptybuffer L B; gafq_concat L (b_lvl r.1).

Definition gafqL_addvalue (L : pointer) (B : Buffer) : gc Buffer :=
  s ← gafq_togstring L (-1);
  match s with
  | None => stuck Undefined   (* the caller has checked the value *)
  | Some s =>
      if zlen s <=? GAFQL_BUFFERSIZE - zlen (b_chars B) then
        gafq_pop L 1;; mret (mkBuffer (b_chars B ++ s) (b_lvl B))
      else
        r ← emptybuffer L B;
        let '(B, pushed) := r in
        (if (pushed : bool) then gafq_insert L (-2) else mret tt);;
        adjuststack L (mkBuffer (b_chars B) (b_lvl B + 1))
  end.

Definition gafqL_buffinit : Buffer := mkBuffer [] 0.

(** the first occurrence of [p] in [s]: what is before it and what is after it *)
Fixpoint strstr (s p : bytes) : option (bytes * bytes) :=
  if bool_decide (take (length p) s = p) then Some ([], drop (length p) s)
  else
    match s with
    | [] => None
    | c :: s' => match strstr s' p with Some (a, b) => Some (c :: a, b) | None => None end
    end.

Fixpoint gsub_loop (n : nat) (L : pointer) (B : Buffer) (s p r : bytes) : gc (Buffer * bytes) :=
  match n with
  | O => stuck Fuel
  | S n' =>
      match strstr s p with
      | Some (a, b) =>
          B ← gafqL_addgstring L B a;
          B ← gafqL_addstring L B r;
          gsub_loop n' L B b p r
      | None => mret (B, s)
      end
  end.

(** a pattern that is not empty takes a character off in every round *)
Definition gafqL_gsub (L : pointer) (s p r : bytes) : gc (option bytes) :=
  res ← gsub_loop (S (length s)) L gafqL_buffinit (cstr s) (cstr p) r;
  let '(B, s) := res in
  B ← gafqL_addstring L B s;
  gafqL_pushresult L B;;
  gafq_togstring L (-1).

(** ** References *)

Definition FREELIST_REF : Z := 0.
Definition GAFQ_REFNIL : Z := -1.

Definition gafqL_ref (L : pointer) (t : Z) : gc Z :=
  t ← abs_index L t;
  nil ← gafq_isnil L (-1);
  if (nil : bool) then gafq_pop L 1;; mret GAFQ_REFNIL
  else
    gafq_rawgeti L t FREELIST_REF;;
    ref ← gafq_tointeger L (-1);
    let ref := s32 ref in
    gafq_pop L 1;;
    ref ← (if negb (ref =? 0) then
             gafq_rawgeti L t ref;;
             gafq_rawseti L t FREELIST_REF;;
             mret ref
           else n ← gafq_objlen L t; mret (s32 (s32 n + 1)));
    gafq_rawseti L t ref;;
    mret ref.

Definition gafqL_unref (L : pointer) (t ref : Z) : gc unit :=
  if 0 <=? ref then
    t ← abs_index L t;
    gafq_rawgeti L t FREELIST_REF;;
    gafq_rawseti L t ref;;
    gafq_pushinteger L ref;;
    gafq_rawseti L t FREELIST_REF
  else mret tt.

End Aux.
