(* ===== verification/TabLib.v ===== *)
(** * The table library: gtablib.c

    The C functions of the library, each applied to the thread that calls it; the
    result is the number of values that it returns. *)

From stdpp Require Import gmap.
From S2P Require Import Prelude Number Object Table Heap Tm Gc Func GcSweep HeapString State Mach VmOps Do Api AuxLib.

Section TabLib.

Context `{Host} `{Calls}.

Definition aux_getn (L : pointer) (n : Z) : gc Z := gafqL_checktype L n GAFQ_TTABLE;; gafqL_getn L n.

Fixpoint foreachi_loop (k : nat) (L : pointer) (i : Z) : gc Z :=
  match k with
  | O => mret 0
  | S k' =>
      gafq_pushvalue L 2;;
      gafq_pushinteger L i;;
      gafq_rawgeti L 1 i;;
      gafq_call L 2 1;;
      nil ← gafq_isnil L (-1);
      if negb nil then mret 1 else gafq_pop L 1;; foreachi_loop k' L (i + 1)
  end.

Definition foreachi (L : pointer) : gc Z :=
  n ← aux_getn L 1;
  gafqL_checktype L 2 GAFQ_TFUNCTION;;
  foreachi_loop (Z.to_nat n) L 1.

(** [while (gafq_next(L, 1))]; the functions that are called can add fields, so the
    number of rounds is not bounded *)
Fixpoint foreach_loop (k : nat) (L : pointer) : gc Z :=
  match k with
  | O => stuck Fuel
  | S k' =>
      more ← gafq_next L 1;
      if negb more then mret 0
      else
        gafq_pushvalue L 2;;
        gafq_pushvalue L (-3);;
        gafq_pushvalue L (-3);;
        gafq_call L 2 1;;
        nil ← gafq_isnil L (-1);
        if negb nil then mret 1 else gafq_pop L 2;; foreach_loop k' L
  end.

Definition foreach (L : pointer) : gc Z :=
  gafqL_checktype L 1 GAFQ_TTABLE;;
  gafqL_checktype L 2 GAFQ_TFUNCTION;;
  gafq_pushnil L;;
  foreach_loop rounds L.

Fixpoint maxn_loop (k : nat) (L : pointer) (max : gafq_Number) : gc gafq_Number :=
  match k with
  | O => stuck Fuel
  | S k' =>
      more ← gafq_next L 1;
      if negb more then mret max
      else
        gafq_pop L 1;;
        t ← gafq_type L (-1);
        max ← (if t =? GAFQ_TNUMBER then
                 v ← gafq_tonumber L (-1);
                 mret (if gafqi_numlt max v then v else max)
               else mret max);
        maxn_loop k' L max
  end.

Definition maxn (L : pointer) : gc Z :=
  gafqL_checktype L 1 GAFQ_TTABLE;;
  gafq_pushnil L;;
  max ← maxn_loop rounds L (cast_num 0);
  gafq_pushnumber L max;;
  mret 1.

Definition getn (L : pointer) : gc Z := n ← aux_getn L 1; gafq_pushinteger L n;; mret 1.

Definition setn (L : pointer) : gc Z :=
  gafqL_checktype L 1 GAFQ_TTABLE;;
  gafqL_error (A := unit) L "'setn' is obsolete" [];;
  gafq_pushvalue L 1;;
  mret 1.

(** [for (i = e; i > pos; i--) t[i] = t[i-1]] *)
Fixpoint move_up (k : nat) (L : pointer) (i : Z) : gc unit :=
  match k with
  | O => mret tt
  | S k' => gafq_rawgeti L 1 (i - 1);; gafq_rawseti L 1 i;; move_up k' L (i - 1)
  end.

Definition tinsert (L : pointer) : gc Z :=
  n ← aux_getn L 1;
  let e := s32 (n + 1) in
  nargs ← gafq_gettop L;
  pos ← (if nargs =? 2 then mret e
         else if nargs =? 3 then
           pos ← gafqL_checkint L 2;
           let e := if e <? pos then pos else e in
           move_up (Z.to_nat (e - pos)) L e;;
           mret pos
         else gafqL_error L "wrong number of arguments to 'insert'" []);
  gafq_rawseti L 1 pos;;
  mret 0.

(** [for ( ;pos<e; pos++) t[pos] = t[pos+1]] *)
Fixpoint move_down (k : nat) (L : pointer) (pos : Z) : gc unit :=
  match k with
  | O => mret tt
  | S k' => gafq_rawgeti L 1 (pos + 1);; gafq_rawseti L 1 pos;; move_down k' L (pos + 1)
  end.

Definition tremove (L : pointer) : gc Z :=
  e ← aux_getn L 1;
  pos ← gafqL_optint L 2 e;
  if negb ((1 <=? pos) && (pos <=? e)) then mret 0
  else
    gafq_rawgeti L 1 pos;;
    move_down (Z.to_nat (e - pos)) L pos;;
    gafq_pushnil L;;
    gafq_rawseti L 1 e;;
    mret 1.

Definition addfield (L : pointer) (b : Buffer) (i : Z) : gc Buffer :=
  gafq_rawgeti L 1 i;;
  ok ← gafq_isstring L (-1);
  (if (ok : bool) then mret tt
   else
     t ← gafqL_typename L (-1);
     gafqL_error L "invalid value (%s) at index %d in table for 'concat'" [AStr t; AInt i]);;
  gafqL_addvalue L b.

(** [for (; i < last; i++) { addfield(L, &b, i); gafqL_addgstring(&b, sep, lsep); }] *)
Fixpoint tconcat_loop (k : nat) (L : pointer) (b : Buffer) (sep : bytes) (i : Z) : gc Buffer :=
  match k with
  | O => mret b
  | S k' =>
      b ← addfield L b i;
      b ← gafqL_addgstring L b sep;
      tconcat_loop k' L b sep (i + 1)
  end.

Definition tconcat (L : pointer) : gc Z :=
  sep ← gafqL_optgstring L 2 [];
  gafqL_checktype L 1 GAFQ_TTABLE;;
  i ← gafqL_optint L 3 1;
  none ← gafq_isnoneornil L 4;
  last ← (if (none : bool) then gafqL_getn L 1 else gafqL_checkint L 4);
  b ← tconcat_loop (Z.to_nat (last - i)) L gafqL_buffinit sep i;
  b ← (if i <=? last then addfield L b last else mret b);
  gafqL_pushresult L b;;
  mret 1.

(** ** Quicksort *)

Definition set2 (L : pointer) (i j : Z) : gc unit := gafq_rawseti L 1 i;; gafq_rawseti L 1 j.

Definition sort_comp (L : pointer) (a b : Z) : gc bool :=
  nil ← gafq_isnil L 2;
  if negb nil then
    gafq_pushvalue L 2;;
    gafq_pushvalue L (a - 1);;
    gafq_pushvalue L (b - 2);;
    gafq_call L 2 1;;
    res ← gafq_toboolean L (-1);
    gafq_pop L 1;;
    mret res
  else gafq_lessthan L a b.

(** [while (gafq_rawgeti(L, 1, ++i), sort_comp(L, -1, -2)) ...]: the value of [i] at the end *)
Fixpoint scan_up (k : nat) (L : pointer) (u i : Z) : gc Z :=
  match k with
  | O => stuck Fuel
  | S k' =>
      let i := i + 1 in
      gafq_rawgeti L 1 i;;
      lt ← sort_comp L (-1) (-2);
      if (lt : bool) then
        (if u <? i then gafqL_error L "invalid order function for sorting" [] else mret tt);;
        gafq_pop L 1;;
        scan_up k' L u i
      else mret i
  end.

(** [while (gafq_rawgeti(L, 1, --j), sort_comp(L, -3, -1)) ...] *)
Fixpoint scan_down (k : nat) (L : pointer) (l j : Z) : gc Z :=
  match k with
  | O => stuck Fuel
  | S k' =>
      let j := j - 1 in
      gafq_rawgeti L 1 j;;
      lt ← sort_comp L (-3) (-1);
      if (lt : bool) then
        (if j <? l then gafqL_error L "invalid order function for sorting" [] else mret tt);;
        gafq_pop L 1;;
        scan_down k' L l j
      else mret j
  end.

(** the [for (;;)] loop: the value of [i] at its end.  The scans move [i] up and [j]
    down: a scan has [u - l + 2] rounds at most before it reports an error, and so
    has the loop *)
Fixpoint partition_loop (k : nat) (L : pointer) (l u i j : Z) : gc Z :=
  match k with
  | O => stuck Fuel
  | S k' =>
      i ← scan_up (Z.to_nat (u - l + 3)) L u i;
      j ← scan_down (Z.to_nat (u - l + 3)) L l j;
      if j <? i then gafq_pop L 3;; mret i
      else set2 L i j;; partition_loop k' L l u i j
  end.

(** [a[l]], [a[(l+u)/2]] and [a[u]] are put in order; whether elements are left *)
Definition sort_ends (L : pointer) (l u : Z) : gc bool :=
  gafq_rawgeti L 1 l;;
  gafq_rawgeti L 1 u;;
  lt ← sort_comp L (-1) (-2);
  (if (lt : bool) then set2 L l u else gafq_pop L 2);;
  if u - l =? 1 then mret false
  else
    let i := (l + u) / 2 in
    gafq_rawgeti L 1 i;;
    gafq_rawgeti L 1 l;;
    lt ← sort_comp L (-2) (-1);
    (if (lt : bool) then set2 L i l
     else
       gafq_pop L 1;;
       gafq_rawgeti L 1 u;;
       lt ← sort_comp L (-1) (-2);
       if (lt : bool) then set2 L i u else gafq_pop L 2);;
    mret (negb (u - l =? 2)).

(** the pivot goes to [u-1], the elements between are partitioned, and the pivot goes
    between the two parts: its place *)
Definition partition (L : pointer) (l u : Z) : gc Z :=
  let i := (l + u) / 2 in
  gafq_rawgeti L 1 i;;
  gafq_pushvalue L (-1);;
  gafq_rawgeti L 1 (u - 1);;
  set2 L i (u - 1);;
  i ← partition_loop (Z.to_nat (u - l + 3)) L l u l (u - 1);
  gafq_rawgeti L 1 (u - 1);;
  gafq_rawgeti L 1 i;;
  set2 L (u - 1) i;;
  mret i.

(** a round of the loop and the recursive call work on smaller intervals *)
Fixpoint auxsort (k : nat) (L : pointer) (l u : Z) : gc unit :=
  match k with
  | O => stuck Fuel
  | S k' =>
      if l <? u then
        more ← sort_ends L l u;
        if negb more then mret tt
        else
          i ← partition L l u;
          if i - l <? u - i then auxsort k' L l (i - 1);; auxsort k' L (i + 1) u
          else auxsort k' L (i + 1) u;; auxsort k' L l (i - 1)
      else mret tt
  end.

Definition sort (L : pointer) : gc Z :=
  n ← aux_getn L 1;
  gafqL_checkstack L 40 "";;
  none ← gafq_isnoneornil L 2;
  (if (none : bool) then mret tt else gafqL_checktype L 2 GAFQ_TFUNCTION);;
  gafq_settop L 2;;
  auxsort (S (Z.to_nat n)) L 1 n;;
  mret 0.

End TabLib.
