(* ===== verification/BaseLib.v ===== *)
(** * The base library and the coroutine library: gbaselib.c

    The C functions, each applied to the thread that calls it; the result is the
    number of values that it returns.  A C function is known by its address, here
    its position in [c_names].  [print], [load], [loadstring], [loadfile] and [dofile]
    are in Load.v. *)

From stdpp Require Import gmap.
From S2P Require Import Prelude Number Opcodes Object Table Heap Tm Gc Func GcSweep HeapString State Mach VmOps Do Execute Call Api Debug AuxLib TabLib.

(** ** [strtoul] of <stdlib.h> *)

(** the value of a digit in the bases up to 36 *)
Definition digit_value (c : Z) : option Z :=
  if isdigit c then Some (c - chr "0")
  else if isalpha c then Some (tolower c - chr "a" + 10)
  else None.

Fixpoint read_digits (base : Z) (s : bytes) (acc n : Z) : Z * Z :=
  match s with
  | [] => (acc, n)
  | c :: s' =>
      match digit_value c with
      | Some d => if d <? base then read_digits base s' (acc * base + d) (n + 1) else (acc, n)
      | None => (acc, n)
      end
  end.

Fixpoint count_spaces (s : bytes) : Z :=
  match s with c :: s' => if isspace c then 1 + count_spaces s' else 0 | [] => 0 end.

Definition ULONG_MAX : Z := 2 ^ 64 - 1.

(** the value and the number of characters converted, 0 if there is no digit *)
Definition strtoul (s : bytes) (base : Z) : Z * Z :=
  let sp := count_spaces s in
  let s1 := drop (Z.to_nat sp) s in
  let neg := vget 0 s1 0 =? chr "-" in
  let sg := if neg || (vget 0 s1 0 =? chr "+") then 1 else 0 in
  let s2 := drop (Z.to_nat sg) s1 in
  let hex := (base =? 16) && (vget 0 s2 0 =? chr "0") && (tolower (vget 0 s2 1) =? chr "x") &&
             match digit_value (vget 0 s2 2) with Some d => d <? 16 | None => false end in
  let pre := if hex then 2 else 0 in
  let '(v, n) := read_digits base (drop (Z.to_nat pre) s2) 0 0 in
  if n =? 0 then (0, 0)
  else (if ULONG_MAX <? v then ULONG_MAX else if neg then (- v) mod 2 ^ 64 else v, sp + sg + pre + n).

(** the C functions of the library, at the addresses 1, 2, ... *)
Definition c_names : list string :=
  [ "assert"; "collectgarbage"; "dofile"; "error"; "gcinfo"; "getfenv"; "getmetatable"; "loadfile";
    "load"; "loadstring"; "next"; "pcall"; "print"; "rawequal"; "rawget"; "rawset"; "select";
    "setfenv"; "setmetatable"; "tonumber"; "tostring"; "type"; "unpack"; "xpcall";
    "create"; "resume"; "running"; "status"; "wrap"; "yield";
    "ipairs"; "ipairsaux"; "pairs"; "newproxy"; "auxwrap";
    "concat"; "foreach"; "foreachi"; "getn"; "maxn"; "insert"; "remove"; "setn"; "sort" ]%string.

Definition address_in (l : list string) (name : string) : Z :=
  match list_find (fun s => s = name) l with Some (i, _) => Z.of_nat i + 1 | None => 0 end.
Definition address : string -> Z := address_in c_names.

Definition CO_RUN : Z := 0.
Definition CO_SUS : Z := 1.
Definition CO_NOR : Z := 2.
Definition CO_DEAD : Z := 3.
Definition statnames : list string := [ "running"; "suspended"; "normal"; "dead" ]%string.

Section BaseLib.

Context `{Host} `{Calls}.

Definition gafqB_tonumber (L : pointer) : gc Z :=
  base ← gafqL_optint L 2 10;
  n ← (if base =? 10 then
         gafqL_checkany L 1;;
         ok ← gafq_isnumber L 1;
         if (ok : bool) then n ← gafq_tonumber L 1; mret (Some n) else mret None
       else
         s1 ← gafqL_checkgstring L 1;
         gafqL_argcheck L ((2 <=? base) && (base <=? 36)) 2 "base out of range";;
         let '(n, used) := strtoul (cstr s1) base in
         mret (if used =? 0 then None
               else match Lexer.skip_spaces (drop (Z.to_nat used) (cstr s1)) with
                    | [] => Some (cast_integer n)
                    | _ => None
                    end));
  (match n with Some n => gafq_pushnumber L n | None => gafq_pushnil L end);;
  mret 1.

Definition gafqB_error (L : pointer) : gc Z :=
  level ← gafqL_optint L 2 1;
  gafq_settop L 1;;
  isstr ← gafq_isstring L 1;
  (if isstr && (0 <? level) then
     gafqL_where L level;;
     gafq_pushvalue L 1;;
     gafq_concat L 2
   else mret tt);;
  gafq_error L.

Definition gafqB_getmetatable (L : pointer) : gc Z :=
  gafqL_checkany L 1;;
  hasmt ← gafq_getmetatable L 1;
  (if negb hasmt then gafq_pushnil L
   else gafqL_getmetafield L 1 (str "__metatable");; mret tt);;
  mret 1.

Definition gafqB_setmetatable (L : pointer) : gc Z :=
  t ← gafq_type L 2;
  gafqL_checktype L 1 GAFQ_TTABLE;;
  gafqL_argcheck L ((t =? GAFQ_TNIL) || (t =? GAFQ_TTABLE)) 2 "nil or table expected";;
  protected ← gafqL_getmetafield L 1 (str "__metatable");
  (if (protected : bool) then gafqL_error L "cannot change a protected metatable" [] else mret tt);;
  gafq_settop L 2;;
  gafq_setmetatable L 1;;
  mret 1.

Definition gafq_isfunction (L : pointer) (n : Z) : gc bool := t ← gafq_type L n; mret (t =? GAFQ_TFUNCTION).

Definition getfunc (L : pointer) (opt : bool) : gc unit :=
  f ← gafq_isfunction L 1;
  if (f : bool) then gafq_pushvalue L 1
  else
    level ← (if opt then gafqL_optint L 1 1 else gafqL_checkint L 1);
    gafqL_argcheck L (0 <=? level) 1 "level must be non-negative";;
    ar ← gafq_getstack L level;
    ar ← (match ar with Some ar => mret ar | None => gafqL_argerror L 1 (str "invalid level") end);
    gafq_getinfo L (str "f") ar;;
    nil ← gafq_isnil L (-1);
    if (nil : bool) then gafqL_error L "no function environment for tail call at level %d" [AInt level] else mret tt.

Definition gafqB_getfenv (L : pointer) : gc Z :=
  getfunc L true;;
  c ← gafq_iscfunction L (-1);
  (if (c : bool) then gafq_pushvalue L GAFQ_GLOBALSINDEX else gafq_getfenv L (-1));;
  mret 1.

Definition gafqB_setfenv (L : pointer) : gc Z :=
  gafqL_checktype L 2 GAFQ_TTABLE;;
  getfunc L false;;
  gafq_pushvalue L 2;;
  isnum ← gafq_isnumber L 1;
  n ← gafq_tonumber L 1;
  if isnum && gafqi_numeq n (cast_num 0) then
    gafq_pushthread L;;
    gafq_insert L (-2);;
    gafq_setfenv L (-2);;
    mret 0
  else
    c ← gafq_iscfunction L (-2);
    ok ← (if (c : bool) then mret false else gafq_setfenv L (-2));
    (if (ok : bool) then mret tt
     else gafqL_error L "'setfenv' cannot change environment of given object" []);;
    mret 1.

Definition gafqB_rawequal (L : pointer) : gc Z :=
  gafqL_checkany L 1;;
  gafqL_checkany L 2;;
  b ← gafq_rawequal L 1 2;
  gafq_pushboolean L (Z.b2z b);;
  mret 1.

Definition gafqB_rawget (L : pointer) : gc Z :=
  gafqL_checktype L 1 GAFQ_TTABLE;;
  gafqL_checkany L 2;;
  gafq_settop L 2;;
  gafq_rawget L 1;;
  mret 1.

Definition gafqB_rawset (L : pointer) : gc Z :=
  gafqL_checktype L 1 GAFQ_TTABLE;;
  gafqL_checkany L 2;;
  gafqL_checkany L 3;;
  gafq_settop L 3;;
  gafq_rawset L 1;;
  mret 1.

Definition gafqB_gcinfo (L : pointer) : gc Z := n ← gafq_gc L 3 0; gafq_pushinteger L n;; mret 1.

Definition gafqB_collectgarbage (L : pointer) : gc Z :=
  o ← gafqL_checkoption L 1 (Some "collect"%string)
        ["stop"; "restart"; "collect"; "count"; "step"; "setpause"; "setstepmul"]%string;
  let what := vget 0 [0; 1; 2; 3; 5; 6; 7] o in
  ex ← gafqL_optint L 2 0;
  res ← gafq_gc L what ex;
  (if what =? 3 then
     b ← gafq_gc L 4 0;
     gafq_pushnumber L (gafqi_numadd (cast_num res) (gafqi_numdiv (cast_num b) (cast_num 1024)))
   else if what =? 5 then gafq_pushboolean L res
   else gafq_pushnumber L (cast_num res));;
  mret 1.

Definition gafqB_type (L : pointer) : gc Z :=
  gafqL_checkany L 1;;
  t ← gafqL_typename L 1;
  gafq_pushstring L (Some t);;
  mret 1.

Definition gafqB_next (L : pointer) : gc Z :=
  gafqL_checktype L 1 GAFQ_TTABLE;;
  gafq_settop L 2;;
  more ← gafq_next L 1;
  if (more : bool) then mret 2 else gafq_pushnil L;; mret 1.

Definition gafqB_pairs (L : pointer) : gc Z :=
  gafqL_checktype L 1 GAFQ_TTABLE;;
  gafq_pushvalue L (gafq_upvalueindex 1);;
  gafq_pushvalue L 1;;
  gafq_pushnil L;;
  mret 3.

Definition ipairsaux (L : pointer) : gc Z :=
  i ← gafqL_checkint L 2;
  gafqL_checktype L 1 GAFQ_TTABLE;;
  let i := s32 (i + 1) in
  gafq_pushinteger L i;;
  gafq_rawgeti L 1 i;;
  nil ← gafq_isnil L (-1);
  mret (if (nil : bool) then 0 else 2).

Definition gafqB_ipairs (L : pointer) : gc Z :=
  gafqL_checktype L 1 GAFQ_TTABLE;;
  gafq_pushvalue L (gafq_upvalueindex 1);;
  gafq_pushvalue L 1;;
  gafq_pushinteger L 0;;
  mret 3.

Definition gafqB_assert (L : pointer) : gc Z :=
  gafqL_checkany L 1;;
  b ← gafq_toboolean L 1;
  if (b : bool) then gafq_gettop L
  else msg ← gafqL_optgstring L 2 (str "assertion failed!"); gafqL_error L "%s" [AStr msg].

(** [while (i++ < e) gafq_rawgeti(L, 1, i);] *)
Fixpoint unpack_loop (k : nat) (L : pointer) (i : Z) : gc unit :=
  match k with
  | O => mret tt
  | S k' => gafq_rawgeti L 1 (i + 1);; unpack_loop k' L (i + 1)
  end.

Definition gafqB_unpack (L : pointer) : gc Z :=
  gafqL_checktype L 1 GAFQ_TTABLE;;
  i ← gafqL_optint L 2 1;
  none ← gafq_isnoneornil L 3;
  e ← (if (none : bool) then gafqL_getn L 1 else gafqL_checkint L 3);
  if e <? i then mret 0
  else
    let n := s32 (e - i + 1) in
    ok ← (if n <=? 0 then mret false else gafq_checkstack L n);
    if negb ok then gafqL_error L "too many results to unpack" []
    else
      gafq_rawgeti L 1 i;;
      unpack_loop (Z.to_nat (e - i)) L i;;
      mret n.

Definition gafqB_select (L : pointer) : gc Z :=
  n ← gafq_gettop L;
  t ← gafq_type L 1;
  hash ← (if t =? GAFQ_TSTRING then
            s ← gafq_togstring L 1;
            mret (match s with Some s => vget 0 s 0 =? chr "#" | None => false end)
          else mret false);
  if (hash : bool) then gafq_pushinteger L (n - 1);; mret 1
  else
    i ← gafqL_checkint L 1;
    let i := if i <? 0 then n + i else if n <? i then n else i in
    gafqL_argcheck L (1 <=? i) 1 "index out of range";;
    mret (n - i).

Definition gafqB_pcall (L : pointer) : gc Z :=
  gafqL_checkany L 1;;
  n ← gafq_gettop L;
  status ← gafq_pcall L (n - 1) GAFQ_MULTRET 0;
  gafq_pushboolean L (Z.b2z (status =? 0));;
  gafq_insert L 1;;
  gafq_gettop L.

Definition gafqB_xpcall (L : pointer) : gc Z :=
  gafqL_checkany L 2;;
  gafq_settop L 2;;
  gafq_insert L 1;;
  status ← gafq_pcall L 0 GAFQ_MULTRET 1;
  gafq_pushboolean L (Z.b2z (status =? 0));;
  gafq_replace L 1;;
  gafq_gettop L.

Definition gafqB_tostring (L : pointer) : gc Z :=
  gafqL_checkany L 1;;
  meta ← gafqL_callmeta L 1 (str "__tostring");
  if (meta : bool) then mret 1
  else
    t ← gafq_type L 1;
    (if t =? GAFQ_TNUMBER then s ← gafq_togstring L 1; gafq_pushstring L s
     else if t =? GAFQ_TSTRING then gafq_pushvalue L 1
     else if t =? GAFQ_TBOOLEAN then
       b ← gafq_toboolean L 1; gafq_pushstring L (Some (if (b : bool) then str "true" else str "false"))
     else if t =? GAFQ_TNIL then gafq_pushgstring L (str "nil")
     else
       p ← gafq_topointer L 1;
       name ← gafqL_typename L 1;
       gafq_pushfstring L "%s: %p" [AStr name; APtr (match p with Some p => p | None => 0 end)];;
       mret tt);;
    mret 1.

Definition gafqB_newproxy (L : pointer) : gc Z :=
  gafq_settop L 1;;
  gafq_newuserdata L 0;;
  b ← gafq_toboolean L 1;
  if negb b then mret 1
  else
    t ← gafq_type L 1;
    (if t =? GAFQ_TBOOLEAN then
       gafq_createtable L 0 0;;
       gafq_pushvalue L (-1);;
       gafq_pushboolean L 1;;
       gafq_rawset L (gafq_upvalueindex 1)
     else
       hasmt ← gafq_getmetatable L 1;
       validproxy ← (if (hasmt : bool) then
                       gafq_rawget L (gafq_upvalueindex 1);;
                       v ← gafq_toboolean L (-1);
                       gafq_pop L 1;;
                       mret v
                     else mret false);
       gafqL_argcheck L validproxy 1 "boolean or proxy expected";;
       gafq_getmetatable L 1;;
       mret tt);;
    gafq_setmetatable L 2;;
    mret 1.

(** ** Coroutines *)

Definition costatus (L co : pointer) : gc Z :=
  if L =? co then mret CO_RUN
  else
    st ← gafq_status co;
    if st =? GAFQ_YIELD then mret CO_SUS
    else if st =? 0 then
      ar ← gafq_getstack co 0;
      n ← gafq_gettop co;
      mret (match ar with Some _ => CO_NOR | None => if n =? 0 then CO_DEAD else CO_SUS end)
    else mret CO_DEAD.

(** [co = gafq_tothread(L, i); gafqL_argcheck(L, co, 1, "coroutine expected")] *)
Definition check_thread (L : pointer) : gc pointer :=
  co ← gafq_tothread L 1;
  match co with Some co => mret co | None => gafqL_argerror L 1 (str "coroutine expected") end.

Definition gafqB_costatus (L : pointer) : gc Z :=
  co ← check_thread L;
  s ← costatus L co;
  gafq_pushstring L (Some (str (vget "" statnames s)));;
  mret 1.

Definition auxresume (L co : pointer) (narg : Z) : gc Z :=
  st ← costatus L co;
  ok ← gafq_checkstack co narg;
  (if (ok : bool) then mret tt else gafqL_error L "too many arguments to resume" []);;
  if negb (st =? CO_SUS) then
    gafq_pushfstring L "cannot resume %s coroutine" [AStr (str (vget "" statnames st))];;
    mret (-1)
  else
    gafq_xmove L co narg;;
    gafq_setlevel L co;;
    st ← gafq_resume co narg;
    if (st =? 0) || (st =? GAFQ_YIELD) then
      nres ← gafq_gettop co;
      ok ← gafq_checkstack L (nres + 1);
      (if (ok : bool) then mret tt else gafqL_error L "too many results to resume" []);;
      gafq_xmove co L nres;;
      mret nres
    else gafq_xmove co L 1;; mret (-1).

Definition gafqB_coresume (L : pointer) : gc Z :=
  co ← check_thread L;
  n ← gafq_gettop L;
  r ← auxresume L co (n - 1);
  if r <? 0 then gafq_pushboolean L 0;; gafq_insert L (-2);; mret 2
  else gafq_pushboolean L 1;; gafq_insert L (- (r + 1));; mret (r + 1).

Definition gafqB_auxwrap (L : pointer) : gc Z :=
  co ← gafq_tothread L (gafq_upvalueindex 1);
  match co with
  | None => stuck Undefined
  | Some co =>
      n ← gafq_gettop L;
      r ← auxresume L co n;
      if r <? 0 then
        isstr ← gafq_isstring L (-1);
        (if (isstr : bool) then
           gafqL_where L 1;;
           gafq_insert L (-2);;
           gafq_concat L 2
         else mret tt);;
        gafq_error L
      else mret r
  end.

Definition gafqB_cocreate (L : pointer) : gc Z :=
  NL ← gafq_newthread L;
  f ← gafq_isfunction L 1;
  c ← gafq_iscfunction L 1;
  gafqL_argcheck L (f && negb c) 1 "Gafq function expected";;
  gafq_pushvalue L 1;;
  gafq_xmove L NL 1;;
  mret 1.

Definition gafqB_cowrap (L : pointer) : gc Z :=
  gafqB_cocreate L;; gafq_pushcclosure L (address "auxwrap") 1;; mret 1.

Definition gafqB_yield (L : pointer) : gc Z := n ← gafq_gettop L; gafq_yield L n.

Definition gafqB_corunning (L : pointer) : gc Z :=
  main ← gafq_pushthread L;
  (if (main : bool) then gafq_pushnil L else mret tt);;
  mret 1.

(** ** Opening the libraries *)

Definition functions (names : list string) : list (bytes * Z) := (fun s => (str s, address s)) <$> names.

Definition auxopen (L : pointer) (name f u : string) : gc unit :=
  gafq_pushcclosure L (address u) 0;;
  gafq_pushcclosure L (address f) 1;;
  gafq_setfield L (-2) (str name).

Definition base_open (L : pointer) : gc unit :=
  gafq_pushvalue L GAFQ_GLOBALSINDEX;;
  gafq_setfield L GAFQ_GLOBALSINDEX (str "_G");;
  gafqL_register L (Some (str "_G")) (functions (take 24 c_names));;
  gafq_pushgstring L (str "Gafq 5.1");;
  gafq_setfield L GAFQ_GLOBALSINDEX (str "_VERSION");;
  auxopen L "ipairs" "ipairs" "ipairsaux";;
  auxopen L "pairs" "pairs" "next";;
  gafq_createtable L 0 1;;
  gafq_pushvalue L (-1);;
  gafq_setmetatable L (-2);;
  gafq_pushgstring L (str "kv");;
  gafq_setfield L (-2) (str "__mode");;
  gafq_pushcclosure L (address "newproxy") 1;;
  gafq_setfield L GAFQ_GLOBALSINDEX (str "newproxy").

Definition gafqopen_base (L : pointer) : gc Z :=
  base_open L;;
  gafqL_register L (Some (str "coroutine")) (functions (take 6 (drop 24 c_names)));;
  mret 2.

(** [gafqopen_table] (gtablib.c) *)
Definition gafqopen_table (L : pointer) : gc Z :=
  gafqL_register L (Some (str "table")) (functions (drop 35 c_names));; mret 1.

End BaseLib.

(** what the C functions do, by their address *)
Definition c_functions `{Host} (C : Calls) (f : Z) : pointer -> gc Z :=
  let named (s : string) (k : pointer -> gc Z) (rest : pointer -> gc Z) : pointer -> gc Z :=
    if f =? address s then k else rest in
  named "assert" gafqB_assert (named "collectgarbage" gafqB_collectgarbage (named "error" gafqB_error
  (named "gcinfo" gafqB_gcinfo (named "getfenv" gafqB_getfenv (named "getmetatable" gafqB_getmetatable
  (named "next" gafqB_next (named "pcall" gafqB_pcall (named "rawequal" gafqB_rawequal
  (named "rawget" gafqB_rawget (named "rawset" gafqB_rawset (named "select" gafqB_select
  (named "setfenv" gafqB_setfenv (named "setmetatable" gafqB_setmetatable (named "tonumber" gafqB_tonumber
  (named "tostring" gafqB_tostring (named "type" gafqB_type (named "unpack" gafqB_unpack
  (named "xpcall" gafqB_xpcall (named "create" gafqB_cocreate (named "resume" gafqB_coresume
  (named "running" gafqB_corunning (named "status" gafqB_costatus (named "wrap" gafqB_cowrap
  (named "yield" gafqB_yield (named "ipairs" gafqB_ipairs (named "ipairsaux" ipairsaux
  (named "pairs" gafqB_pairs (named "newproxy" gafqB_newproxy (named "auxwrap" gafqB_auxwrap
  (named "concat" tconcat (named "foreach" foreach (named "foreachi" foreachi (named "getn" getn
  (named "maxn" maxn (named "insert" tinsert (named "remove" tremove (named "setn" setn
  (named "sort" sort (fun _ => stuck Undefined))))))))))))))))))))))))))))))))))))))).
