(* ===== verification/MathLib.v ===== *)
(** * The mathematical library: gmathlib.c

    The functions of <math.h> that are determined by IEEE 754 are those of Number.v; the
    others are parameters, as is the generator behind [rand]. *)

From Stdlib Require Import SpecFloat.
From stdpp Require Import gmap.
From S2P Require Import Prelude Number Object Table Heap Tm Gc Func GcSweep HeapString State Mach VmOps Do Api AuxLib.

Class Libm := {
  c_sin : gafq_Number -> gafq_Number;
  c_sinh : gafq_Number -> gafq_Number;
  c_cos : gafq_Number -> gafq_Number;
  c_cosh : gafq_Number -> gafq_Number;
  c_tan : gafq_Number -> gafq_Number;
  c_tanh : gafq_Number -> gafq_Number;
  c_asin : gafq_Number -> gafq_Number;
  c_acos : gafq_Number -> gafq_Number;
  c_atan : gafq_Number -> gafq_Number;
  c_atan2 : gafq_Number -> gafq_Number -> gafq_Number;
  c_fmod : gafq_Number -> gafq_Number -> gafq_Number;
  c_modf : gafq_Number -> gafq_Number * gafq_Number;   (* the fraction and the integral part *)
  c_log : gafq_Number -> gafq_Number;
  c_log10 : gafq_Number -> gafq_Number;
  c_exp : gafq_Number -> gafq_Number;
  c_frexp : gafq_Number -> gafq_Number * Z;
  c_ldexp : gafq_Number -> Z -> gafq_Number;
  c_rand : Z -> Z * Z;   (* rand(), with the generator it leaves *)
  c_srand : Z -> Z -> Z;
  RAND_MAX : Z
}.

(** [fabs], [ceil] and [sqrt] *)
Definition num_abs (a : gafq_Number) : gafq_Number := SFabs a.
Definition num_ceil (a : gafq_Number) : gafq_Number := gafqi_numunm (num_floor (gafqi_numunm a)).
Definition num_sqrt (a : gafq_Number) : gafq_Number := SFsqrt prec emax a.

(** 3.14159265358979323846 as a [double] *)
Definition PI : gafq_Number := S754_finite false 7074237752028440 (-51).
Definition RADIANS_PER_DEGREE : gafq_Number := gafqi_numdiv PI (cast_num 180).
Definition HUGE_VAL : gafq_Number := S754_infinity false.

Section MathLib.

Context `{Host} `{Calls} `{Libm}.

(** [gafq_pushnumber(L, f(gafqL_checknumber(L, 1))); return 1;] *)
Definition math_1 (f : gafq_Number -> gafq_Number) (L : pointer) : gc Z :=
  x ← gafqL_checknumber L 1;
  gafq_pushnumber L (f x);;
  mret 1.

(** with two arguments; the first one is checked first *)
Definition math_2 (f : gafq_Number -> gafq_Number -> gafq_Number) (L : pointer) : gc Z :=
  x ← gafqL_checknumber L 1;
  y ← gafqL_checknumber L 2;
  gafq_pushnumber L (f x y);;
  mret 1.

Definition math_abs : pointer -> gc Z := math_1 num_abs.
Definition math_sin : pointer -> gc Z := math_1 c_sin.
Definition math_sinh : pointer -> gc Z := math_1 c_sinh.
Definition math_cos : pointer -> gc Z := math_1 c_cos.
Definition math_cosh : pointer -> gc Z := math_1 c_cosh.
Definition math_tan : pointer -> gc Z := math_1 c_tan.
Definition math_tanh : pointer -> gc Z := math_1 c_tanh.
Definition math_asin : pointer -> gc Z := math_1 c_asin.
Definition math_acos : pointer -> gc Z := math_1 c_acos.
Definition math_atan : pointer -> gc Z := math_1 c_atan.
Definition math_atan2 : pointer -> gc Z := math_2 c_atan2.
Definition math_ceil : pointer -> gc Z := math_1 num_ceil.
Definition math_floor : pointer -> gc Z := math_1 num_floor.
Definition math_fmod : pointer -> gc Z := math_2 c_fmod.
Definition math_sqrt : pointer -> gc Z := math_1 num_sqrt.
Definition math_pow : pointer -> gc Z := math_2 num_pow.
Definition math_log : pointer -> gc Z := math_1 c_log.
Definition math_log10 : pointer -> gc Z := math_1 c_log10.
Definition math_exp : pointer -> gc Z := math_1 c_exp.
Definition math_deg : pointer -> gc Z := math_1 (fun x => gafqi_numdiv x RADIANS_PER_DEGREE).
Definition math_rad : pointer -> gc Z := math_1 (fun x => gafqi_nummul x RADIANS_PER_DEGREE).

Definition math_modf (L : pointer) : gc Z :=
  x ← gafqL_checknumber L 1;
  let '(fp, ip) := c_modf x in
  gafq_pushnumber L ip;;
  gafq_pushnumber L fp;;
  mret 2.

Definition math_frexp (L : pointer) : gc Z :=
  x ← gafqL_checknumber L 1;
  let '(m, e) := c_frexp x in
  gafq_pushnumber L m;;
  gafq_pushinteger L e;;
  mret 2.

Definition math_ldexp (L : pointer) : gc Z :=
  x ← gafqL_checknumber L 1;
  e ← gafqL_checkint L 2;
  gafq_pushnumber L (c_ldexp x e);;
  mret 1.

(** [for (i=2; i<=n; i++) ...]: [better d m] is [d < dmin] or [d > dmax] *)
Fixpoint extreme_loop (k : nat) (better : gafq_Number -> gafq_Number -> bool) (L : pointer) (i : Z) (m : gafq_Number) : gc gafq_Number :=
  match k with
  | O => mret m
  | S k' => d ← gafqL_checknumber L i; extreme_loop k' better L (i + 1) (if better d m then d else m)
  end.

Definition math_extreme (better : gafq_Number -> gafq_Number -> bool) (L : pointer) : gc Z :=
  n ← gafq_gettop L;
  m ← gafqL_checknumber L 1;
  m ← extreme_loop (Z.to_nat (n - 1)) better L 2 m;
  gafq_pushnumber L m;;
  mret 1.

Definition math_min : pointer -> gc Z := math_extreme (fun d dmin => gafqi_numlt d dmin).
Definition math_max : pointer -> gc Z := math_extreme (fun d dmax => gafqi_numlt dmax d).

Definition math_random (L : pointer) : gc Z :=
  k ← sys c_rand;
  let r := gafqi_numdiv (cast_num (Z.rem k RAND_MAX)) (cast_num RAND_MAX) in
  n ← gafq_gettop L;
  if n =? 0 then gafq_pushnumber L r;; mret 1
  else if n =? 1 then
    u ← gafqL_checkint L 1;
    gafqL_argcheck L (1 <=? u) 1 "interval is empty";;
    gafq_pushnumber L (gafqi_numadd (num_floor (gafqi_nummul r (cast_num u))) (cast_num 1));;
    mret 1
  else if n =? 2 then
    l ← gafqL_checkint L 1;
    u ← gafqL_checkint L 2;
    gafqL_argcheck L (l <=? u) 2 "interval is empty";;
    (* u-l+1 is computed as an int *)
    if INT_MAX <? u - l + 1 then stuck Undefined
    else
      gafq_pushnumber L (gafqi_numadd (num_floor (gafqi_nummul r (cast_num (u - l + 1)))) (cast_num l));;
      mret 1
  else gafqL_error L "wrong number of arguments" [].

Definition math_randomseed (L : pointer) : gc Z :=
  seed ← gafqL_checkint L 1;
  sys (fun w => (tt, c_srand seed w));;
  mret 0.

Definition mathlib : list string :=
  [ "abs"; "acos"; "asin"; "atan2"; "atan"; "ceil"; "cosh"; "cos"; "deg"; "exp"; "floor"; "fmod"; "frexp"; "ldexp";
    "log10"; "log"; "max"; "min"; "modf"; "pow"; "rad"; "random"; "randomseed"; "sinh"; "sin"; "sqrt"; "tanh"; "tan" ]%string.

(** [code] gives the address of the C function of a name *)
Definition gafqopen_math (code : string -> Z) (L : pointer) : gc Z :=
  gafqL_register L (Some (str "math")) ((fun s => (str s, code s)) <$> mathlib);;
  gafq_pushnumber L PI;;
  gafq_setfield L (-2) (str "pi");;
  gafq_pushnumber L HUGE_VAL;;
  gafq_setfield L (-2) (str "huge");;
  gafq_getfield L (-1) (str "fmod");;
  gafq_setfield L (-2) (str "mod");;
  mret 1.

End MathLib.
