(* ===== verification/Load.v ===== *)
(** * Loading functions: gdo.c, gapi.c, gauxlib.c, gbaselib.c

    [gafq_load] and the functions over it.  The parser and the undumper work on a stream of
    blocks and give a prototype (Parser.v, Dump.v); [install] puts it in the memory.  The
    reader is asked for a block when the parser needs one and not before: [parse_blocks]
    tells whether the blocks so far decide the result, and a block that is not asked for is
    not read.

    The memory of the parser itself (its buffer and the tables of constants, which are
    garbage when it ends) and the steps of the collector inside [gafqX_newstring] are left
    out. *)

From stdpp Require Import gmap.
From S2P Require Import Prelude Number Opcodes Zio Lexer Parser Dump Object Proto Table StringTable Heap Tm Gc Func GcSweep HeapString State Mach VmOps Do Execute Call Api Debug AuxLib.

(** The input and output of the C library: a call reads and changes the world.  A stream is
    a handle, 0 is [NULL]. *)
Class Stdio := {
  c_decimal_point : Z;   (* localeconv()->decimal_point[0] *)
  c_stdin : Z;
  c_stdout : Z;
  c_stderr : Z;
  c_errno : Z -> Z * Z;
  c_strerror : Z -> bytes;
  c_fopen : bytes -> bytes -> Z -> Z * Z;
  c_freopen : bytes -> bytes -> Z -> Z -> Z * Z;
  c_fclose : Z -> Z -> Z * Z;
  c_getc : Z -> Z -> Z * Z;   (* -1 is EOF *)
  c_ungetc : Z -> Z -> Z -> unit * Z;
  c_fread : Z -> Z -> Z -> bytes * Z;   (* the bytes read, at most so many *)
  c_fgets : Z -> Z -> Z -> option bytes * Z;   (* the contents of the buffer before the zero that fgets adds *)
  c_fwrite : bytes -> Z -> Z -> Z * Z;   (* the number of bytes written *)
  c_fputs : bytes -> Z -> Z -> Z * Z;
  c_feof : Z -> Z -> bool * Z;
  c_ferror : Z -> Z -> bool * Z;
  c_clearerr : Z -> Z -> unit * Z;
  c_fscanf_number : Z -> Z -> option gafq_Number * Z;   (* fscanf(f, "%lf", &d) == 1 *)
  c_fprintf_number : gafq_Number -> Z -> Z -> Z * Z;   (* fprintf(f, "%.14g", d) *)
  c_fseek : Z -> Z -> Z -> Z -> Z * Z;   (* f, offset, whence *)
  c_ftell : Z -> Z -> Z * Z;
  c_setvbuf : Z -> Z -> Z -> Z -> Z * Z;   (* f, mode, size *)
  c_fflush : Z -> Z -> Z * Z;
  c_tmpfile : Z -> Z * Z;
  c_popen : bytes -> bytes -> Z -> Z * Z;
  c_pclose : Z -> Z -> Z * Z;
  c_getenv : bytes -> Z -> option bytes * Z
}.

Definition EOF : Z := -1.
Definition GAFQ_ERRFILE : Z := GAFQ_ERRERR + 1.
Definition MAXSRC : Z := 80.

(** ** The parser *)

(** The parser names a string by an address, which no result depends on: here it is a number
    that encodes the contents. *)
Fixpoint string_address (s : bytes) : pointer := match s with [] => 1 | c :: s => c + 256 * string_address s end.
Fixpoint address_string (n : nat) (p : pointer) : bytes :=
  match n with O => [] | S n => if p <=? 1 then [] else p mod 256 :: address_string n (p / 256) end.

Definition address_contents (p : pointer) : bytes := address_string (Z.to_nat (Z.log2 p)) p.

(** [S.name] of [gafqU_undump] *)
Definition undump_name (name : bytes) : bytes :=
  match name with
  | c :: rest =>
      if (c =? chr "@") || (c =? chr "=") then rest
      else if c =? vget 0 GAFQ_SIGNATURE 0 then str "binary string"
      else name
  | [] => name
  end.

Section Load.

Context `{Host} `{Calls} `{Stdio}.

Definition parser_env (name : bytes) : ParserEnv :=
  mkEnv strtod strtoul16 c_decimal_point string_address address_contents
        (fun p => string_hash (address_contents p)) num_pow 0 name.

(** the fields of [LexState] and of the buffer that are not set yet *)
Definition new_lexstate : LexState :=
  mkLS 0 0 0 (mkToken 0 SNone) (mkToken 0 SNone) (gafqZ_init []) [] 0 0.

(** [((c == GAFQ_SIGNATURE[0]) ? gafqU_undump : gafqY_parser)(L, p->z, &p->buff, p->name)] on
    the blocks [data], after which comes the end; and whether the result is the same with more
    blocks, because nothing behind [data] was asked for *)
Definition parse_blocks (name : bytes) (ncalls : Z) (data : list bytes) : res Proto * bool :=
  let '(c, z) := gafqZ_lookahead (gafqZ_init (data ++ [[]])) in
  let asked (unread : nat) : bool := bool_decide (unread = O) in
  if c =? vget 0 GAFQ_SIGNATURE 0 then
    match gafqU_undump (Z.to_nat (Do.GAFQI_MAXCCALLS - ncalls)) z with
    | Ok (f, z) => (Ok f, negb (asked (length (z_data z))))
    | Err (SyntaxError why unread) =>
        (Err (SyntaxError (String.append (text (undump_name name)) (String.append ": " why)) unread), negb (asked unread))
    | Err e => (Err e, false)
    end
  else
    match gafqY_parser (parser_env name) 0 z new_lexstate ncalls with
    | Err (SyntaxError msg unread) =>
        (Err (SyntaxError (String.append (text (gafqO_chunkid name MAXSRC)) msg) unread), negb (asked unread))
    | r => (r, false)
    end.

(** a prototype in the memory *)

Definition install_string (s : option bytes) : gc (option pointer) :=
  match s with
  | None => mret None
  | Some s => ts ← Mach.newstring s; mret (Some ts)
  end.

(** a constant [NULL] of a chunk is not a value *)
Definition install_constant (c : Constant) : gc TValue :=
  match c with
  | KNil => mret VNil
  | KBoolean b => mret (VBoolean b)
  | KNumber n => mret (VNumber n)
  | KString (Some s) => ts ← Mach.newstring s; mret (VString ts)
  | KString None => stuck Undefined
  end.

Definition install_locvar (v : LocVar) : gc (option pointer * Z * Z) :=
  name ← install_string (varname v); mret (name, startpc v, endpc v).

Definition each {A B} (m : A -> gc B) : list A -> gc (list B) :=
  fix go (l : list A) : gc (list B) :=
    match l with
    | [] => mret []
    | x :: l => y ← m x; r ← go l; mret (y :: r)
    end.

(** the objects that a prototype refers to; [nested] installs a function inside it *)
Definition install_parts (nested : Proto -> gc pointer) (f : Proto) : gc ProtoObj :=
  source ← install_string (source f);
  k ← each install_constant (k f);
  p ← each (fun f => q ← nested f; mret (Some q)) (p f);
  locvars ← each install_locvar (locvars f);
  upvalues ← each install_string (upvalues f);
  mret (mkProtoObj k (code f) p (lineinfo f) locvars upvalues source (linedefined f) (lastlinedefined f)
                   (nups f) (numparams f) (is_vararg f) (maxstacksize f)).

(** [gafqF_newproto] and the vectors, which [close_func] cuts to their final sizes *)
Fixpoint install (f : Proto) : gc pointer :=
  tf ← gets fresh;
  gafqF_newproto tf;;
  o ← install_parts install f;
  putbody tf (BProto o);;
  resize_block 0 (zlen (p_code o) * Heap.sizeof_Instruction);;
  resize_block 0 (zlen (p_p o) * sizeof_pointer);;
  resize_block 0 (zlen (p_k o) * sizeof_TValue);;
  resize_block 0 (zlen (p_lineinfo o) * Heap.sizeof_int);;
  resize_block 0 (zlen (p_locvars o) * sizeof_LocVar);;
  resize_block 0 (zlen (p_upvalues o) * sizeof_pointer);;
  mret tf.

(** the result of the parser in the thread [L] *)
Definition parsed (L : pointer) (r : res Proto) : gc pointer :=
  match r with
  | Ok f => install f
  | Err (SyntaxError msg _) => ts ← Mach.newstring (str msg); push L (VString ts);; gafqD_throw L GAFQ_ERRSYNTAX
  | Err (RunError msg) => gafqG_runerror L msg []
  | Err MemError => gafqD_throw L GAFQ_ERRMEM
  | Err e => stuck e
  end.

(** A [gafq_Reader] gives a block and the new contents of [*ud]; an empty block is [NULL] or one
    of size 0.  The blocks are asked for one by one, until the result is decided. *)
Fixpoint parse_loop {U} (n : nat) (L : pointer) (reader : U -> gc (bytes * U)) (ud : U) (name : bytes) (ncalls : Z)
    (data : list bytes) : gc pointer :=
  match n with
  | O => stuck Fuel
  | S n' =>
      let '(r, decided) := parse_blocks name ncalls data in
      if (decided : bool) then parsed L r
      else
        b ← reader ud;
        if bool_decide (b.1 = []) then parsed L r
        else parse_loop n' L reader b.2 name ncalls (data ++ [b.1])
  end.

(** [for (i = 0; i < tf->nups; i++) cl->l.upvals[i] = gafqF_newupval(L);] *)
Definition new_upvals (n : Z) : gc (list (option pointer)) :=
  each (fun _ => uv ← gets fresh; gafqF_newupval uv;; mret (Some uv)) (seqZ 0 n).

Definition f_parser {U} (L : pointer) (reader : U -> gc (bytes * U)) (ud : U) (name : bytes) : gc unit :=
  b ← reader ud;
  checkGC L;;
  th ← gco2th L;
  tf ← (if bool_decide (b.1 = []) then parsed L (parse_blocks name (nCcalls th) []).1
        else parse_loop rounds L reader b.2 name (nCcalls th) [b.1]);
  f ← gco2p tf;
  th ← gco2th L;
  match l_gt th with
  | VTable e =>
      cl ← gets fresh;
      gafqF_newLclosure cl (p_nups f) e tf;;
      upvals ← new_upvals (p_nups f);
      putbody cl (BLClosure e tf upvals);;
      push L (VFunction cl)
  | _ => stuck Undefined
  end.

Definition gafqD_protectedparser {U} (L : pointer) (reader : U -> gc (bytes * U)) (ud : U) (name : bytes) : gc Z :=
  th ← gco2th L; gafqD_pcall L (f_parser L reader ud name) (top th) (errfunc th).

Definition gafq_load {U} (L : pointer) (reader : U -> gc (bytes * U)) (data : U) (chunkname : option bytes) : gc Z :=
  gafqD_protectedparser L reader data (match chunkname with Some s => cstr s | None => str "?" end).

(** ** Dumping *)

(** a prototype of the memory with the prototypes inside it *)
Fixpoint proto_tree (n : nat) (g : GState) (q : pointer) : option Proto :=
  match n with
  | O => None
  | S n' =>
      match heap g !! q with
      | Some (mkObj _ (BProto f)) =>
          nested ← mapM (fun q => match q with Some q => proto_tree n' g q | None => None end) (p_p f);
          Some (proto_view g nested f)
      | _ => None
      end
  end.

(** the writer gets the blocks one by one *)
Definition gafq_dump {W} (L : pointer) (writer : W -> bytes -> W * Z) (data : W) : gc (W * Z) :=
  v ← top_value L 1;
  match v with
  | VFunction cl =>
      o ← getobj cl;
      match body o with
      | BLClosure _ p _ =>
          g ← gets id;
          match proto_tree rounds g p with
          | Some f => mret (gafqU_dump writer f data false)
          | None => stuck Fuel
          end
      | _ => mret (data, 1)
      end
  | _ => mret (data, 1)
  end.

(** [str_dump] (gstrlib.c); its writer adds each block to the buffer *)
Definition str_dump (L : pointer) : gc Z :=
  gafqL_checktype L 1 GAFQ_TFUNCTION;;
  gafq_settop L 1;;
  r ← gafq_dump L (fun blocks b => (blocks ++ [b], 0)) [];
  let '(blocks, status) := r in
  B ← gafqL_addgstring L gafqL_buffinit (concat blocks);
  (if negb (status =? 0) then gafqL_error L "unable to dump given function" [] else mret tt);;
  gafqL_pushresult L B;;
  mret 1.

(** ** Files and strings *)

Record LoadF := mkLoadF { extraline : bool; lf_f : Z }.

Definition getF (lf : LoadF) : gc (bytes * LoadF) :=
  if extraline lf then mret ([10], mkLoadF false (lf_f lf))
  else
    eof ← sys (c_feof (lf_f lf));
    if (eof : bool) then mret ([], lf)
    else b ← sys (c_fread GAFQL_BUFFERSIZE (lf_f lf)); mret (b, lf).

Definition errfile (L : pointer) (what : string) (fnameindex : Z) : gc Z :=
  e ← sys c_errno;
  s ← gafq_togstring L fnameindex;
  match s with
  | None => stuck Undefined
  | Some s =>
      gafq_pushfstring L "cannot %s %s: %s" [AStr (str what); AStr (drop 1 (cstr s)); AStr (c_strerror e)];;
      gafq_remove L fnameindex;;
      mret GAFQ_ERRFILE
  end.

(** [while ((c = getc(f)) != EOF && c != stop) ;] *)
Fixpoint skip_to (n : nat) (f stop : Z) : gc Z :=
  match n with
  | O => stuck Fuel
  | S n' => c ← sys (c_getc f); if (c =? EOF) || (c =? stop) then mret c else skip_to n' f stop
  end.

(** the stream at its first character after a first line that starts with [#]; [None] if it
    cannot be opened again *)
Definition skip_comment (filename : option bytes) (f : Z) : gc (option (Z * LoadF)) :=
  c ← sys (c_getc f);
  r ← (if c =? chr "#" then
         c ← skip_to rounds f 10;
         c ← (if c =? 10 then sys (c_getc f) else mret c);
         mret (c, mkLoadF true f)
       else mret (c, mkLoadF false f));
  let '(c, lf) := r in
  match filename with
  | Some filename =>
      if c =? vget 0 GAFQ_SIGNATURE 0 then
        f ← sys (c_freopen filename (str "rb") f);
        if f =? 0 then mret None
        else c ← skip_to rounds f (vget 0 GAFQ_SIGNATURE 0); mret (Some (c, mkLoadF false f))
      else mret (Some (c, lf))
  | None => mret (Some (c, lf))
  end.

Definition gafqL_loadfile (L : pointer) (filename : option bytes) : gc Z :=
  n ← gafq_gettop L;
  let fnameindex := n + 1 in
  f ← (match filename with
       | None => gafq_pushgstring L (str "=stdin");; mret c_stdin
       | Some filename =>
           gafq_pushfstring L "@%s" [AStr filename];;
           sys (c_fopen filename (str "r"))
       end);
  if f =? 0 then errfile L "open" fnameindex
  else
    r ← skip_comment filename f;
    match r with
    | None => errfile L "reopen" fnameindex
    | Some (c, lf) =>
        sys (c_ungetc c (lf_f lf));;
        name ← gafq_togstring L (-1);
        status ← gafq_load L getF lf name;
        readstatus ← sys (c_ferror (lf_f lf));
        (match filename with Some _ => sys (c_fclose (lf_f lf));; mret tt | None => mret tt end);;
        if (readstatus : bool) then gafq_settop L fnameindex;; errfile L "read" fnameindex
        else gafq_remove L fnameindex;; mret status
    end.

(** [LoadS]: the bytes that are left *)
Definition getS (ls : bytes) : gc (bytes * bytes) := mret (ls, []).

Definition gafqL_loadbuffer (L : pointer) (buff name : bytes) : gc Z := gafq_load L getS buff (Some name).

Definition gafqL_loadstring (L : pointer) (s : bytes) : gc Z := gafqL_loadbuffer L (cstr s) s.

(** ** The functions of the base library *)

Definition load_aux (L : pointer) (status : Z) : gc Z :=
  if status =? 0 then mret 1
  else gafq_pushnil L;; gafq_insert L (-2);; mret 2.

Definition gafqB_loadstring (L : pointer) : gc Z :=
  s ← gafqL_checkgstring L 1;
  chunkname ← gafqL_optgstring L 2 s;
  status ← gafqL_loadbuffer L s chunkname;
  load_aux L status.

Definition gafqB_loadfile (L : pointer) : gc Z :=
  fname ← gafqL_optstring L 1;
  status ← gafqL_loadfile L fname;
  load_aux L status.

Definition generic_reader (L : pointer) (ud : unit) : gc (bytes * unit) :=
  gafqL_checkstack L 2 "too many nested functions";;
  gafq_pushvalue L 1;;
  gafq_call L 0 1;;
  nil ← gafq_isnil L (-1);
  string ← gafq_isstring L (-1);
  if (nil : bool) then mret ([], tt)
  else if (string : bool) then
    gafq_replace L 3;;
    s ← gafq_togstring L 3;
    match s with Some s => mret (s, tt) | None => mret ([], tt) end
  else gafqL_error L "reader function must return a string" [].

Definition gafqB_load (L : pointer) : gc Z :=
  cname ← gafqL_optgstring L 2 (str "=(load)");
  gafqL_checktype L 1 GAFQ_TFUNCTION;;
  gafq_settop L 3;;
  status ← gafq_load L (generic_reader L) tt (Some cname);
  load_aux L status.

Definition gafqB_dofile (L : pointer) : gc Z :=
  fname ← gafqL_optstring L 1;
  n ← gafq_gettop L;
  status ← gafqL_loadfile L fname;
  (if negb (status =? 0) then gafq_error L else mret tt);;
  gafq_call L 0 GAFQ_MULTRET;;
  n' ← gafq_gettop L;
  mret (n' - n).

(** the arguments from the [i]-th on *)
Fixpoint print_args (k : nat) (L : pointer) (i : Z) : gc unit :=
  match k with
  | O => mret tt
  | S k' =>
      gafq_pushvalue L (-1);;
      gafq_pushvalue L i;;
      gafq_call L 1 1;;
      s ← gafq_togstring L (-1);
      match s with
      | None => gafqL_error L "'tostring' must return a string to 'print'" []
      | Some s =>
          (if 1 <? i then sys (c_fputs [9] c_stdout);; mret tt else mret tt);;
          sys (c_fputs (cstr s) c_stdout);;
          gafq_pop L 1;;
          print_args k' L (i + 1)
      end
  end.

Definition gafqB_print (L : pointer) : gc Z :=
  n ← gafq_gettop L;
  gafq_getfield L GAFQ_GLOBALSINDEX (str "tostring");;
  print_args (Z.to_nat n) L 1;;
  sys (c_fputs [10] c_stdout);;
  mret 0.

End Load.
