(* ===== verification/DbLib.v ===== *)
(** * The debug library: gdblib.c

    The functions of the library but for the hooks ([debug.gethook] and [debug.sethook]). *)

From stdpp Require Import gmap.
From S2P Require Import Prelude Number Object Table Heap Tm Gc Func GcSweep HeapString State Mach VmOps Do Execute Call Api Debug AuxLib TabLib BaseLib Load.

(** ** Masks of hooks *)

Definition GAFQ_MASKCALL : Z := Z.shiftl 1 0.
Definition GAFQ_MASKRET : Z := Z.shiftl 1 1.
Definition GAFQ_MASKLINE : Z := Z.shiftl 1 2.
Definition GAFQ_MASKCOUNT : Z := Z.shiftl 1 3.

Definition makemask (smask : bytes) (count : Z) : Z :=
  let mask := 0 in
  let mask := if has_option smask "c" then Z.lor mask GAFQ_MASKCALL else mask in
  let mask := if has_option smask "r" then Z.lor mask GAFQ_MASKRET else mask in
  let mask := if has_option smask "l" then Z.lor mask GAFQ_MASKLINE else mask in
  if 0 <? count then Z.lor mask GAFQ_MASKCOUNT else mask.

Definition unmakemask (mask : Z) : bytes :=
  (if negb (Z.land mask GAFQ_MASKCALL =? 0) then [chr "c"] else [])
  ++ (if negb (Z.land mask GAFQ_MASKRET =? 0) then [chr "r"] else [])
  ++ (if negb (Z.land mask GAFQ_MASKLINE =? 0) then [chr "l"] else []).

Definition LEVELS1 : Z := 12.
Definition LEVELS2 : Z := 10.

Section DbLib.

Context `{Host} `{Calls}.

Definition db_getregistry (L : pointer) : gc Z := gafq_pushvalue L GAFQ_REGISTRYINDEX;; mret 1.

Definition db_getmetatable (L : pointer) : gc Z :=
  gafqL_checkany L 1;;
  has ← gafq_getmetatable L 1;
  (if negb has then gafq_pushnil L else mret tt);;
  mret 1.

Definition db_setmetatable (L : pointer) : gc Z :=
  t ← gafq_type L 2;
  gafqL_argcheck L ((t =? GAFQ_TNIL) || (t =? GAFQ_TTABLE)) 2 "nil or table expected";;
  gafq_settop L 2;;
  gafq_setmetatable L 1;;
  gafq_pushboolean L 1;;
  mret 1.

Definition db_getfenv (L : pointer) : gc Z := gafqL_checkany L 1;; gafq_getfenv L 1;; mret 1.

Definition db_setfenv (L : pointer) : gc Z :=
  gafqL_checktype L 2 GAFQ_TTABLE;;
  gafq_settop L 2;;
  ok ← gafq_setfenv L 1;
  (if negb ok then gafqL_error L "'setfenv' cannot change environment of given object" [] else mret tt);;
  mret 1.

Definition settabss (L : pointer) (i : string) (v : option bytes) : gc unit :=
  gafq_pushstring L v;; gafq_setfield L (-2) (str i).

Definition settabsi (L : pointer) (i : string) (v : Z) : gc unit :=
  gafq_pushinteger L v;; gafq_setfield L (-2) (str i).

(** the thread that is asked about, and how many arguments name it *)
Definition getthread (L : pointer) : gc (pointer * Z) :=
  t ← gafq_tothread L 1;
  mret (match t with Some L1 => (L1, 1) | None => (L, 0) end).

Definition treatstackoption (L L1 : pointer) (fname : string) : gc unit :=
  (if L =? L1 then gafq_pushvalue L (-2);; gafq_remove L (-3) else gafq_xmove L1 L 1);;
  gafq_setfield L (-2) (str fname).

(** the fields that the options ask for *)
Definition set_fields (L L1 : pointer) (options : bytes) (ar : gafq_Debug) : gc unit :=
  (if has_option options "S" then
     settabss L "source" (Some (ar_source ar));;
     settabss L "short_src" (Some (ar_short_src ar));;
     settabsi L "linedefined" (ar_linedefined ar);;
     settabsi L "lastlinedefined" (ar_lastlinedefined ar);;
     settabss L "what" (Some (ar_what ar))
   else mret tt);;
  (if has_option options "l" then settabsi L "currentline" (ar_currentline ar) else mret tt);;
  (if has_option options "u" then settabsi L "nups" (ar_nups ar) else mret tt);;
  (if has_option options "n" then
     settabss L "name" (ar_name ar);;
     settabss L "namewhat" (Some (ar_namewhat ar))
   else mret tt);;
  (if has_option options "L" then treatstackoption L L1 "activelines" else mret tt);;
  (if has_option options "f" then treatstackoption L L1 "func" else mret tt).

Definition db_getinfo (L : pointer) : gc Z :=
  r ← getthread L;
  let '(L1, arg) := r in
  options ← gafqL_optgstring L (arg + 2) (str "flnSu");
  let options := cstr options in
  num ← gafq_isnumber L (arg + 1);
  fn ← gafq_isfunction L (arg + 1);
  r ← (if (num : bool) then
         n ← gafq_tointeger L (arg + 1);
         ar ← gafq_getstack L1 (s32 n);
         mret (match ar with Some ar => Some (options, ar) | None => None end)
       else if (fn : bool) then
         options ← gafq_pushfstring L ">%s" [AStr options];
         gafq_pushvalue L (arg + 1);;
         gafq_xmove L L1 1;;
         mret (Some (options, debug_at 0))
       else gafqL_argerror L (arg + 1) (str "function or level expected"));
  match r with
  | None => gafq_pushnil L;; mret 1
  | Some (options, ar) =>
      r ← gafq_getinfo L1 options ar;
      let '(ar, ok) := r in
      if negb ok then gafqL_argerror L (arg + 2) (str "invalid option")
      else
        gafq_createtable L 0 2;;
        set_fields L L1 options ar;;
        mret 1
  end.

Definition level_at (L L1 : pointer) (arg : Z) : gc gafq_Debug :=
  level ← gafqL_checkint L (arg + 1);
  ar ← gafq_getstack L1 level;
  match ar with Some ar => mret ar | None => gafqL_argerror L (arg + 1) (str "level out of range") end.

Definition db_getlocal (L : pointer) : gc Z :=
  r ← getthread L;
  let '(L1, arg) := r in
  ar ← level_at L L1 arg;
  n ← gafqL_checkint L (arg + 2);
  name ← gafq_getlocal L1 ar n;
  match name with
  | Some name =>
      gafq_xmove L1 L 1;;
      gafq_pushstring L (Some name);;
      gafq_pushvalue L (-2);;
      mret 2
  | None => gafq_pushnil L;; mret 1
  end.

Definition db_setlocal (L : pointer) : gc Z :=
  r ← getthread L;
  let '(L1, arg) := r in
  ar ← level_at L L1 arg;
  gafqL_checkany L (arg + 3);;
  gafq_settop L (arg + 3);;
  gafq_xmove L L1 1;;
  n ← gafqL_checkint L (arg + 2);
  name ← gafq_setlocal L1 ar n;
  gafq_pushstring L name;;
  mret 1.

Definition auxupvalue (L : pointer) (get : Z) : gc Z :=
  n ← gafqL_checkint L 2;
  gafqL_checktype L 1 GAFQ_TFUNCTION;;
  c ← gafq_iscfunction L 1;
  if (c : bool) then mret 0
  else
    name ← (if get =? 0 then gafq_setupvalue L 1 n else gafq_getupvalue L 1 n);
    match name with
    | None => mret 0
    | Some name =>
        gafq_pushstring L (Some name);;
        gafq_insert L (- (get + 1));;
        mret (get + 1)
    end.

Definition db_getupvalue (L : pointer) : gc Z := auxupvalue L 1.

Definition db_setupvalue (L : pointer) : gc Z := gafqL_checkany L 3;; auxupvalue L 0.

(** ** The traceback *)

(** [while (gafq_getstack(L1, level+LEVELS2, &ar)) level++;] *)
Fixpoint last_levels (k : nat) (L1 : pointer) (level : Z) : gc Z :=
  match k with
  | O => stuck Fuel
  | S k' =>
      ar ← gafq_getstack L1 (level + LEVELS2);
      match ar with Some _ => last_levels k' L1 (level + 1) | None => mret level end
  end.

(** a line of the traceback *)
Definition traceback_line (L L1 : pointer) (ar : gafq_Debug) : gc unit :=
  gafq_pushgstring L [10; 9];;
  r ← gafq_getinfo L1 (str "Snl") ar;
  let ar := r.1 in
  gafq_pushfstring L "%s:" [AStr (ar_short_src ar)];;
  (if 0 <? ar_currentline ar then gafq_pushfstring L "%d:" [AInt (ar_currentline ar)];; mret tt else mret tt);;
  match ar_namewhat ar, ar_name ar with
  | _ :: _, Some name => gafq_pushfstring L " in function '%s'" [AStr name];; mret tt
  | _ :: _, None => stuck Undefined
  | [], _ =>
      let c := vget 0 (ar_what ar) 0 in
      if c =? chr "m" then gafq_pushfstring L " in main chunk" [];; mret tt
      else if (c =? chr "C") || (c =? chr "t") then gafq_pushgstring L (str " ?")
      else gafq_pushfstring L " in function <%s:%d>" [AStr (ar_short_src ar); AInt (ar_linedefined ar)];; mret tt
  end.

Fixpoint traceback_loop (k : nat) (L L1 : pointer) (arg level : Z) (firstpart : bool) : gc unit :=
  match k with
  | O => stuck Fuel
  | S k' =>
      ar ← gafq_getstack L1 level;
      match ar with
      | None => mret tt
      | Some ar =>
          let level := level + 1 in
          if (LEVELS1 <? level) && firstpart then
            more ← gafq_getstack L1 (level + LEVELS2);
            level ← (match more with
                     | None => mret (level - 1)
                     | Some _ => gafq_pushgstring L [10; 9; 46; 46; 46];; last_levels rounds L1 level
                     end);
            traceback_loop k' L L1 arg level false
          else
            traceback_line L L1 ar;;
            n ← gafq_gettop L;
            gafq_concat L (n - arg);;
            traceback_loop k' L L1 arg level firstpart
      end
  end.

Definition db_errorfb (L : pointer) : gc Z :=
  r ← getthread L;
  let '(L1, arg) := r in
  num ← gafq_isnumber L (arg + 2);
  level ← (if (num : bool) then n ← gafq_tointeger L (arg + 2); gafq_pop L 1;; mret (s32 n)
           else mret (if L =? L1 then 1 else 0));
  n ← gafq_gettop L;
  isstr ← gafq_isstring L (arg + 1);
  if negb (n =? arg) && negb isstr then mret 1
  else
    gafq_pushgstring L (if n =? arg then [] else [10]);;
    gafq_pushgstring L (str "stack traceback:");;
    traceback_loop rounds L L1 arg level true;;
    n ← gafq_gettop L;
    gafq_concat L (n - arg);;
    mret 1.

(** one command is a round *)
Fixpoint db_debug_loop `{Stdio} (n : nat) (L : pointer) : gc Z :=
  match n with
  | O => stuck Fuel
  | S n' =>
      sys (c_fputs (str "gafq_debug> ") c_stderr);;
      buffer ← sys (c_fgets 250 c_stdin);
      match buffer with
      | None => mret 0
      | Some buffer =>
          let buffer := cstr buffer in
          if bool_decide (buffer = str "cont" ++ [10]) then mret 0
          else
            status ← gafqL_loadbuffer L buffer (str "=(debug command)");
            status ← (if negb (status =? 0) then mret status else gafq_pcall L 0 0 0);
            (if negb (status =? 0) then
               msg ← gafq_togstring L (-1);
               match msg with
               | None => stuck Undefined
               | Some msg => sys (c_fputs (cstr msg) c_stderr);; sys (c_fputs [10] c_stderr);; mret tt
               end
             else mret tt);;
            gafq_settop L 0;;
            db_debug_loop n' L
      end
  end.

Definition db_debug `{Stdio} (L : pointer) : gc Z := db_debug_loop rounds L.

Definition dblib : list string :=
  [ "debug"; "getfenv"; "gethook"; "getinfo"; "getlocal"; "getregistry"; "getmetatable"; "getupvalue"; "setfenv";
    "sethook"; "setlocal"; "setmetatable"; "setupvalue"; "traceback" ]%string.

(** [code] gives the address of the C function of a name *)
Definition gafqopen_debug (code : string -> Z) (L : pointer) : gc Z :=
  gafqL_register L (Some (str "debug")) ((fun s => (str s, code s)) <$> dblib);; mret 1.

End DbLib.
