(* ===== verification/LoadLib.v ===== *)
(** * Modules and dynamic libraries: loadlib.c, ginit.c

    The version for systems with [dlopen].  The handle of a library is kept in the block of
    a userdata of the registry.  C functions are known by their addresses: [code] gives the
    address of a function of this file, [dlsym] those of a dynamic library. *)

From stdpp Require Import gmap.
From S2P Require Import Prelude Number Object Table Heap Tm Gc Func GcSweep HeapString State Mach VmOps Do Execute Call Api Debug AuxLib TabLib BaseLib Load.

(** <dlfcn.h>, and the address of the static variable [sentinel_] *)
Class Dlfcn := {
  c_dlopen : bytes -> Z -> Z * Z;   (* dlopen(path, RTLD_NOW); 0 is NULL *)
  c_dlsym : Z -> bytes -> Z -> Z * Z;
  c_dlclose : Z -> Z -> unit * Z;
  c_dlerror : Z -> option bytes * Z;
  sentinel : pointer
}.

Definition GAFQ_POF : string := "gafqopen_".
Definition GAFQ_OFSEP : string := "_".
Definition LIBPREFIX : string := "LOADLIB: ".
Definition LIB_FAIL : string := "open".
Definition ERRLIB : Z := 1.
Definition ERRFUNC : Z := 2.
Definition AUXMARK : bytes := [1].

(** gafqconf.h *)
Definition GAFQ_DIRSEP : string := "/".
Definition GAFQ_PATHSEP : string := ";".
Definition GAFQ_PATH_MARK : string := "?".
Definition GAFQ_EXECDIR : string := "!".
Definition GAFQ_IGMARK : string := "-".
Definition GAFQ_PATH : string := "GAFQ_PATH".
Definition GAFQ_CPATH : string := "GAFQ_CPATH".
Definition GAFQ_ROOT : string := "/usr/local/".
Definition GAFQ_LDIR : string := String.append GAFQ_ROOT "share/gafq/5.1/".
Definition GAFQ_CDIR : string := String.append GAFQ_ROOT "lib/gafq/5.1/".
Definition GAFQ_PATH_DEFAULT : bytes :=
  str "./?.gafq;" ++ str GAFQ_LDIR ++ str "?.gafq;" ++ str GAFQ_LDIR ++ str "?/init.gafq;" ++
  str GAFQ_CDIR ++ str "?.gafq;" ++ str GAFQ_CDIR ++ str "?/init.gafq".
Definition GAFQ_CPATH_DEFAULT : bytes :=
  str "./?.so;" ++ str GAFQ_CDIR ++ str "?.so;" ++ str GAFQ_CDIR ++ str "loadall.so".

(** the path after the separators at its beginning *)
Fixpoint skip_separators (path : bytes) : bytes :=
  match path with
  | c :: path' => if c =? chr ";" then skip_separators path' else path
  | [] => []
  end.

(** [strchr(s, c)]: what is before the first [c] and what begins with it *)
Fixpoint split_at (c : Z) (s : bytes) : bytes * bytes :=
  match s with
  | [] => ([], [])
  | d :: s' => if d =? c then ([], s) else let '(a, b) := split_at c s' in (d :: a, b)
  end.

(** ["\n\t"] and a text *)
Definition on_line (s : string) : string := String "010" (String "009" s).

(** a string for [%s] *)
Definition or_null (s : option bytes) : bytes := match s with Some s => cstr s | None => str "(null)" end.

(** the next template of a path and the rest of the path *)
Definition next_template (path : bytes) : option (bytes * bytes) :=
  match skip_separators path with
  | [] => None
  | path => Some (split_at (chr ";") path)
  end.

(** the number of bytes up to the last dot, which is counted *)
Fixpoint after_last_dot (s : bytes) (i last : Z) : Z :=
  match s with
  | [] => last
  | c :: s' => after_last_dot s' (i + 1) (if c =? chr "." then i + 1 else last)
  end.

Section LoadLib.

Context `{Host} `{Calls} `{Stdio} `{Dlfcn}.

(** ** Dynamic libraries *)

Definition ll_unloadlib (lib : Z) : gc unit := sys (c_dlclose lib).

Definition ll_load (L : pointer) (path : bytes) : gc Z :=
  lib ← sys (c_dlopen path);
  (if lib =? 0 then e ← sys c_dlerror; gafq_pushstring L e else mret tt);;
  mret lib.

Definition ll_sym (L : pointer) (lib : Z) (sym : bytes) : gc Z :=
  f ← sys (c_dlsym lib sym);
  (if f =? 0 then e ← sys c_dlerror; gafq_pushstring L e else mret tt);;
  mret f.

(** [None] is [NULL] *)
Definition ll_register (L : pointer) (path : bytes) : gc (option pointer) :=
  gafq_pushfstring L "%s%s" [AStr (str LIBPREFIX); AStr path];;
  gafq_gettable L GAFQ_REGISTRYINDEX;;
  nil ← gafq_isnil L (-1);
  if negb nil then gafq_touserdata L (-1)
  else
    gafq_pop L 1;;
    plib ← gafq_newuserdata L sizeof_pointer;
    write_block plib 0;;
    gafq_getfield L GAFQ_REGISTRYINDEX (str "_LOADLIB");;
    gafq_setmetatable L (-2);;
    gafq_pushfstring L "%s%s" [AStr (str LIBPREFIX); AStr path];;
    gafq_pushvalue L (-2);;
    gafq_settable L GAFQ_REGISTRYINDEX;;
    mret (Some plib).

Definition gctm (L : pointer) : gc Z :=
  lib ← gafqL_checkudata L 1 (str "_LOADLIB");
  h ← read_block lib;
  (if negb (h =? 0) then ll_unloadlib h else mret tt);;
  write_block lib 0;;
  mret 0.

Definition ll_loadfunc (L : pointer) (path sym : bytes) : gc Z :=
  reg ← ll_register L path;
  match reg with
  | None => stuck Undefined
  | Some reg =>
      h ← read_block reg;
      (if h =? 0 then lib ← ll_load L path; write_block reg lib else mret tt);;
      h ← read_block reg;
      if h =? 0 then mret ERRLIB
      else
        f ← ll_sym L h sym;
        if f =? 0 then mret ERRFUNC
        else gafq_pushcclosure L f 0;; mret 0
  end.

Definition ll_loadlib (L : pointer) : gc Z :=
  path ← gafqL_checkstring L 1;
  init ← gafqL_checkstring L 2;
  stat ← ll_loadfunc L path init;
  if stat =? 0 then mret 1
  else
    gafq_pushnil L;;
    gafq_insert L (-2);;
    gafq_pushstring L (Some (str (if stat =? ERRLIB then LIB_FAIL else "init")));;
    mret 3.

(** ** [require] *)

Definition readable (filename : bytes) : gc bool :=
  f ← sys (c_fopen filename (str "r"));
  if f =? 0 then mret false else sys (c_fclose f);; mret true.

(** the rest of the path; the template is on the stack *)
Definition pushnexttemplate (L : pointer) (path : bytes) : gc (option bytes) :=
  match next_template path with
  | None => mret None
  | Some (template, rest) => gafq_pushgstring L template;; mret (Some rest)
  end.

(** a string that a function leaves on the top of the stack *)
Definition gsub_string (L : pointer) (s p r : bytes) : gc bytes :=
  s ← gafqL_gsub L s p r;
  match s with Some s => mret (cstr s) | None => stuck Undefined end.

Fixpoint findfile_loop (n : nat) (L : pointer) (name path : bytes) : gc (option bytes) :=
  match n with
  | O => stuck Fuel
  | S n' =>
      rest ← pushnexttemplate L path;
      match rest with
      | None => mret None
      | Some rest =>
          template ← gafq_togstring L (-1);
          match template with
          | None => stuck Undefined
          | Some template =>
              filename ← gsub_string L (cstr template) (str GAFQ_PATH_MARK) name;
              gafq_remove L (-2);;
              ok ← readable filename;
              if (ok : bool) then mret (Some filename)
              else
                gafq_pushfstring L (on_line "no file '%s'") [AStr filename];;
                gafq_remove L (-2);;
                gafq_concat L 2;;
                findfile_loop n' L name rest
          end
      end
  end.

(** every template takes a character of the path *)
Definition findfile (L : pointer) (name : bytes) (pname : string) : gc (option bytes) :=
  name ← gsub_string L name (str ".") (str GAFQ_DIRSEP);
  gafq_getfield L GAFQ_ENVIRONINDEX (str pname);;
  path ← gafq_togstring L (-1);
  match path with
  | None => gafqL_error L "'package.%s' must be a string" [AStr (str pname)]
  | Some path =>
      gafq_pushgstring L [];;
      findfile_loop (S (length (cstr path))) L name (cstr path)
  end.

Definition loaderror {A} (L : pointer) (filename : bytes) : gc A :=
  name ← gafq_togstring L 1;
  msg ← gafq_togstring L (-1);
  gafqL_error L (String.append "error loading module '%s' from file '%s':" (on_line "%s"))
    [AStr (or_null name); AStr filename; AStr (or_null msg)].

Definition loader_Gafq (L : pointer) : gc Z :=
  name ← gafqL_checkstring L 1;
  filename ← findfile L name "path";
  match filename with
  | None => mret 1
  | Some filename =>
      status ← gafqL_loadfile L (Some filename);
      (if negb (status =? 0) then loaderror L filename else mret tt);;
      mret 1
  end.

Definition mkfuncname (L : pointer) (modname : bytes) : gc bytes :=
  let modname := match split_at (chr "-") modname with (_, _ :: rest) => rest | (_, []) => modname end in
  funcname ← gsub_string L modname (str ".") (str GAFQ_OFSEP);
  funcname ← gafq_pushfstring L (String.append GAFQ_POF "%s") [AStr funcname];
  gafq_remove L (-2);;
  mret funcname.

Definition loader_C (L : pointer) : gc Z :=
  name ← gafqL_checkstring L 1;
  filename ← findfile L name "cpath";
  match filename with
  | None => mret 1
  | Some filename =>
      funcname ← mkfuncname L name;
      stat ← ll_loadfunc L filename funcname;
      (if negb (stat =? 0) then loaderror L filename else mret tt);;
      mret 1
  end.

Definition loader_Croot (L : pointer) : gc Z :=
  name ← gafqL_checkstring L 1;
  match split_at (chr ".") name with
  | (_, []) => mret 0
  | (root, _) =>
      gafq_pushgstring L root;;
      s ← gafq_togstring L (-1);
      filename ← (match s with Some s => findfile L (cstr s) "cpath" | None => stuck Undefined end);
      match filename with
      | None => mret 1
      | Some filename =>
          funcname ← mkfuncname L name;
          stat ← ll_loadfunc L filename funcname;
          (if negb (stat =? 0) then
             (if negb (stat =? ERRFUNC) then loaderror L filename else mret tt);;
             gafq_pushfstring L (on_line "no module '%s' in file '%s'") [AStr name; AStr filename];;
             mret tt
           else mret tt);;
          mret 1
      end
  end.

Definition loader_preload (L : pointer) : gc Z :=
  name ← gafqL_checkstring L 1;
  gafq_getfield L GAFQ_ENVIRONINDEX (str "preload");;
  table ← gafq_istable L (-1);
  (if negb table then gafqL_error L "'package.preload' must be a table" [] else mret tt);;
  gafq_getfield L (-1) name;;
  nil ← gafq_isnil L (-1);
  (if (nil : bool) then gafq_pushfstring L (on_line "no field package.preload['%s']") [AStr name];; mret tt else mret tt);;
  mret 1.

(** the loaders are asked in order, until one gives a function *)
Fixpoint loader_loop (n : nat) (L : pointer) (name : bytes) (i : Z) : gc unit :=
  match n with
  | O => stuck Fuel
  | S n' =>
      gafq_rawgeti L (-2) i;;
      nil ← gafq_isnil L (-1);
      (if (nil : bool) then
         msg ← gafq_togstring L (-2);
         gafqL_error L "module '%s' not found:%s" [AStr name; AStr (or_null msg)]
       else mret tt);;
      gafq_pushstring L (Some name);;
      gafq_call L 1 1;;
      func ← gafq_isfunction L (-1);
      string ← gafq_isstring L (-1);
      if (func : bool) then mret tt
      else
        (if (string : bool) then gafq_concat L 2 else gafq_pop L 1);;
        loader_loop n' L name (i + 1)
  end.

(** the value at the top is the light userdata [sentinel] *)
Definition is_sentinel (L : pointer) : gc bool :=
  p ← gafq_touserdata L (-1); mret (bool_decide (p = Some sentinel)).

Definition ll_require (L : pointer) : gc Z :=
  name ← gafqL_checkstring L 1;
  gafq_settop L 1;;
  gafq_getfield L GAFQ_REGISTRYINDEX (str "_LOADED");;
  gafq_getfield L 2 name;;
  there ← gafq_toboolean L (-1);
  if (there : bool) then
    loop ← is_sentinel L;
    (if (loop : bool) then gafqL_error L "loop or previous error loading module '%s'" [AStr name] else mret tt);;
    mret 1
  else
    gafq_getfield L GAFQ_ENVIRONINDEX (str "loaders");;
    table ← gafq_istable L (-1);
    (if negb table then gafqL_error L "'package.loaders' must be a table" [] else mret tt);;
    gafq_pushgstring L [];;
    loader_loop rounds L name 1;;
    gafq_pushlightuserdata L sentinel;;
    gafq_setfield L 2 name;;
    gafq_pushstring L (Some name);;
    gafq_call L 1 1;;
    nil ← gafq_isnil L (-1);
    (if negb nil then gafq_setfield L 2 name else mret tt);;
    gafq_getfield L 2 name;;
    unset ← is_sentinel L;
    (if (unset : bool) then
       gafq_pushboolean L 1;;
       gafq_pushvalue L (-1);;
       gafq_setfield L 2 name
     else mret tt);;
    mret 1.

(** ** [module] *)

Definition setfenv (L : pointer) : gc unit :=
  ar ← gafq_getstack L 1;
  called ← (match ar with
            | None => mret false
            | Some ar =>
                r ← gafq_getinfo L (str "f") ar;
                if negb r.2 then mret false
                else c ← gafq_iscfunction L (-1); mret (negb c)
            end);
  (if negb called then gafqL_error L "'module' not called from a Gafq function" [] else mret tt);;
  gafq_pushvalue L (-2);;
  gafq_setfenv L (-2);;
  gafq_pop L 1.

Definition dooptions (L : pointer) (n : Z) : gc unit :=
  for_each (seqZ 2 (n - 1)) (fun i =>
    gafq_pushvalue L i;;
    gafq_pushvalue L (-2);;
    gafq_call L 1 0).

Definition modinit (L : pointer) (modname : bytes) : gc unit :=
  gafq_pushvalue L (-1);;
  gafq_setfield L (-2) (str "_M");;
  gafq_pushstring L (Some modname);;
  gafq_setfield L (-2) (str "_NAME");;
  gafq_pushgstring L (take (Z.to_nat (after_last_dot modname 0 0)) modname);;
  gafq_setfield L (-2) (str "_PACKAGE").

Definition ll_module (L : pointer) : gc Z :=
  modname ← gafqL_checkstring L 1;
  n ← gafq_gettop L;
  let loaded := n + 1 in
  gafq_getfield L GAFQ_REGISTRYINDEX (str "_LOADED");;
  gafq_getfield L loaded modname;;
  table ← gafq_istable L (-1);
  (if negb table then
     gafq_pop L 1;;
     conflict ← gafqL_findtable L GAFQ_GLOBALSINDEX modname 1;
     (match conflict with
      | Some _ => gafqL_error L "name conflict for module '%s'" [AStr modname]
      | None => mret tt
      end);;
     gafq_pushvalue L (-1);;
     gafq_setfield L loaded modname
   else mret tt);;
  gafq_getfield L (-1) (str "_NAME");;
  nil ← gafq_isnil L (-1);
  gafq_pop L 1;;
  (if negb nil then mret tt else modinit L modname);;
  gafq_pushvalue L (-1);;
  setfenv L;;
  dooptions L (loaded - 1);;
  mret 0.

Definition ll_seeall (L : pointer) : gc Z :=
  gafqL_checktype L 1 GAFQ_TTABLE;;
  hasmt ← gafq_getmetatable L 1;
  (if negb hasmt then
     gafq_createtable L 0 1;;
     gafq_pushvalue L (-1);;
     gafq_setmetatable L 1
   else mret tt);;
  gafq_pushvalue L GAFQ_GLOBALSINDEX;;
  gafq_setfield L (-2) (str "__index");;
  mret 0.

(** ** Opening the libraries *)

Definition setpath (L : pointer) (fieldname envname : string) (def : bytes) : gc unit :=
  path ← sys (c_getenv (str envname));
  (match path with
   | None => gafq_pushstring L (Some def)
   | Some path =>
       path ← gsub_string L path (str ";;") (str ";" ++ AUXMARK ++ str ";");
       gsub_string L path AUXMARK def;;
       gafq_remove L (-2)
   end);;
  gafq_setfield L (-2) (str fieldname).

Definition pk_funcs : list string := [ "loadlib"; "seeall" ]%string.
Definition ll_funcs : list string := [ "module"; "require" ]%string.
Definition loaders : list string := [ "loader_preload"; "loader_Gafq"; "loader_C"; "loader_Croot" ]%string.

(** [code] gives the address of the C function of a name *)
Definition gafqopen_package (code : string -> Z) (L : pointer) : gc Z :=
  let functions (l : list string) := (fun s => (str s, code s)) <$> l in
  gafqL_newmetatable L (str "_LOADLIB");;
  gafq_pushcclosure L (code "gctm"%string) 0;;
  gafq_setfield L (-2) (str "__gc");;
  gafqL_register L (Some (str "package")) (functions pk_funcs);;
  gafq_pushvalue L (-1);;
  gafq_replace L GAFQ_ENVIRONINDEX;;
  gafq_createtable L (zlen loaders) 0;;
  for_each (imap pair loaders) (fun il =>
    gafq_pushcclosure L (code il.2) 0;;
    gafq_rawseti L (-2) (Z.of_nat il.1 + 1));;
  gafq_setfield L (-2) (str "loaders");;
  setpath L "path" GAFQ_PATH GAFQ_PATH_DEFAULT;;
  setpath L "cpath" GAFQ_CPATH GAFQ_CPATH_DEFAULT;;
  gafq_pushgstring L (str GAFQ_DIRSEP ++ [10] ++ str GAFQ_PATHSEP ++ [10] ++ str GAFQ_PATH_MARK ++ [10] ++
                      str GAFQ_EXECDIR ++ [10] ++ str GAFQ_IGMARK);;
  gafq_setfield L (-2) (str "config");;
  gafqL_findtable L GAFQ_REGISTRYINDEX (str "_LOADED") 2;;
  gafq_setfield L (-2) (str "loaded");;
  gafq_createtable L 0 0;;
  gafq_setfield L (-2) (str "preload");;
  gafq_pushvalue L GAFQ_GLOBALSINDEX;;
  gafqL_register L None (functions ll_funcs);;
  gafq_pop L 1;;
  mret 1.

(** ginit.c: the names of the libraries and of their functions *)
Definition gafqlibs : list (string * string) :=
  [ ("", "gafqopen_base"); ("package", "gafqopen_package"); ("table", "gafqopen_table"); ("io", "gafqopen_io");
    ("os", "gafqopen_os"); ("string", "gafqopen_string"); ("math", "gafqopen_math"); ("debug", "gafqopen_debug") ]%string.

Definition gafqL_openlibs (code : string -> Z) (L : pointer) : gc unit :=
  for_each gafqlibs (fun lib =>
    gafq_pushcclosure L (code lib.2) 0;;
    gafq_pushstring L (Some (str lib.1));;
    gafq_call L 1 0).

End LoadLib.
