(* ===== verification/IoLib.v ===== *)
(** * The input and output library: giolib.c

    A file is a userdata whose block holds the stream; 0 is a closed file.  The functions
    work on the streams of [Stdio] (Load.v).  [code] gives the address of a C function of
    this file. *)

From stdpp Require Import gmap.
From S2P Require Import Prelude Number Object Table Heap Tm Gc Func GcSweep HeapString State Mach VmOps Do Execute Call Api Debug AuxLib TabLib BaseLib Load.

Definition GAFQ_FILEHANDLE : bytes := str "FILE*".
Definition IO_INPUT : Z := 1.
Definition IO_OUTPUT : Z := 2.
Definition fnames : list string := [ "input"; "output" ]%string.

(** [SEEK_SET], [SEEK_CUR], [SEEK_END]; [_IONBF], [_IOFBF], [_IOLBF] *)
Definition seek_modes : list Z := [0; 1; 2].
Definition vbuf_modes : list Z := [2; 0; 1].

Section IoLib.

Context `{Host} `{Calls} `{Stdio}.

Definition pushresult (L : pointer) (i : bool) (filename : option bytes) : gc Z :=
  en ← sys c_errno;
  if i then gafq_pushboolean L 1;; mret 1
  else
    gafq_pushnil L;;
    (match filename with
     | Some filename => gafq_pushfstring L "%s: %s" [AStr filename; AStr (c_strerror en)]
     | None => gafq_pushfstring L "%s" [AStr (c_strerror en)]
     end);;
    gafq_pushinteger L en;;
    mret 3.

Definition fileerror {A} (L : pointer) (arg : Z) (filename : bytes) : gc A :=
  en ← sys c_errno;
  msg ← gafq_pushfstring L "%s: %s" [AStr filename; AStr (c_strerror en)];
  gafqL_argerror L arg (cstr msg).

Definition tofilep (L : pointer) : gc pointer := gafqL_checkudata L 1 GAFQ_FILEHANDLE.

Definition io_type (L : pointer) : gc Z :=
  gafqL_checkany L 1;;
  ud ← gafq_touserdata L 1;
  gafq_getfield L GAFQ_REGISTRYINDEX GAFQ_FILEHANDLE;;
  isfile ← (match ud with
            | None => mret None
            | Some ud =>
                hasmt ← gafq_getmetatable L 1;
                if negb hasmt then mret None
                else same ← gafq_rawequal L (-2) (-1); mret (if (same : bool) then Some ud else None)
            end);
  (match isfile with
   | None => gafq_pushnil L
   | Some ud =>
       f ← read_block ud;
       if f =? 0 then gafq_pushgstring L (str "closed file") else gafq_pushgstring L (str "file")
   end);;
  mret 1.

Definition tofile (L : pointer) : gc Z :=
  p ← tofilep L;
  f ← read_block p;
  (if f =? 0 then gafqL_error L "attempt to use a closed file" [] else mret tt);;
  mret f.

Definition newfile (L : pointer) : gc pointer :=
  pf ← gafq_newuserdata L sizeof_pointer;
  write_block pf 0;;
  gafq_getfield L GAFQ_REGISTRYINDEX GAFQ_FILEHANDLE;;
  gafq_setmetatable L (-2);;
  mret pf.

(** ** Closing *)

Definition io_noclose (L : pointer) : gc Z :=
  gafq_pushnil L;; gafq_pushgstring L (str "cannot close standard file");; mret 2.

Definition io_pclose (L : pointer) : gc Z :=
  p ← tofilep L;
  f ← read_block p;
  r ← sys (c_pclose f);
  write_block p 0;;
  pushresult L (negb (r =? -1)) None.

Definition io_fclose (L : pointer) : gc Z :=
  p ← tofilep L;
  f ← read_block p;
  r ← sys (c_fclose f);
  write_block p 0;;
  pushresult L (r =? 0) None.

Definition aux_close (L : pointer) : gc Z :=
  gafq_getfenv L 1;;
  gafq_getfield L (-1) (str "__close");;
  f ← gafq_tocfunction L (-1);
  match f with Some f => c_function f L | None => stuck Undefined end.

Definition io_close (L : pointer) : gc Z :=
  t ← gafq_type L 1;
  (if t =? GAFQ_TNONE then gafq_rawgeti L GAFQ_ENVIRONINDEX IO_OUTPUT else mret tt);;
  tofile L;;
  aux_close L.

Definition io_gc (L : pointer) : gc Z :=
  p ← tofilep L;
  f ← read_block p;
  (if negb (f =? 0) then aux_close L;; mret tt else mret tt);;
  mret 0.

Definition io_tostring (L : pointer) : gc Z :=
  p ← tofilep L;
  f ← read_block p;
  (if f =? 0 then gafq_pushgstring L (str "file (closed)")
   else gafq_pushfstring L "file (%p)" [APtr f];; mret tt);;
  mret 1.

(** ** Opening *)

(** the file that was opened, or the error *)
Definition opened (L : pointer) (pf : pointer) (f : Z) (filename : option bytes) : gc Z :=
  write_block pf f;;
  if f =? 0 then pushresult L false filename else mret 1.

Definition io_open (L : pointer) : gc Z :=
  filename ← gafqL_checkstring L 1;
  mode ← gafqL_optgstring L 2 (str "r");
  pf ← newfile L;
  f ← sys (c_fopen filename (cstr mode));
  opened L pf f (Some filename).

Definition io_popen (L : pointer) : gc Z :=
  filename ← gafqL_checkstring L 1;
  mode ← gafqL_optgstring L 2 (str "r");
  pf ← newfile L;
  sys (c_fflush 0);;
  f ← sys (c_popen filename (cstr mode));
  opened L pf f (Some filename).

Definition io_tmpfile (L : pointer) : gc Z :=
  pf ← newfile L;
  f ← sys c_tmpfile;
  opened L pf f None.

(** [None] for a value that is not a userdata: the program reads at [NULL] *)
Definition stream_at (L : pointer) (idx : Z) : gc Z :=
  ud ← gafq_touserdata L idx;
  match ud with Some ud => read_block ud | None => stuck Undefined end.

Definition getiofile (L : pointer) (findex : Z) : gc Z :=
  gafq_rawgeti L GAFQ_ENVIRONINDEX findex;;
  f ← stream_at L (-1);
  (if f =? 0 then gafqL_error L "standard %s file is closed" [AStr (str (vget "" fnames (findex - 1)))] else mret tt);;
  mret f.

Definition g_iofile (L : pointer) (f : Z) (mode : string) : gc Z :=
  none ← gafq_isnoneornil L 1;
  (if negb none then
     filename ← gafq_togstring L 1;
     (match filename with
      | Some filename =>
          pf ← newfile L;
          h ← sys (c_fopen (cstr filename) (str mode));
          write_block pf h;;
          if h =? 0 then fileerror L 1 (cstr filename) else mret tt
      | None => tofile L;; gafq_pushvalue L 1
      end);;
     gafq_rawseti L GAFQ_ENVIRONINDEX f
   else mret tt);;
  gafq_rawgeti L GAFQ_ENVIRONINDEX f;;
  mret 1.

Definition io_input (L : pointer) : gc Z := g_iofile L IO_INPUT "r".
Definition io_output (L : pointer) : gc Z := g_iofile L IO_OUTPUT "w".

Definition aux_lines (code : string -> Z) (L : pointer) (idx toclose : Z) : gc unit :=
  gafq_pushvalue L idx;;
  gafq_pushboolean L toclose;;
  gafq_pushcclosure L (code "io_readline"%string) 2.

Definition f_lines (code : string -> Z) (L : pointer) : gc Z :=
  tofile L;; aux_lines code L 1 0;; mret 1.

Definition io_lines (code : string -> Z) (L : pointer) : gc Z :=
  none ← gafq_isnoneornil L 1;
  if (none : bool) then gafq_rawgeti L GAFQ_ENVIRONINDEX IO_INPUT;; f_lines code L
  else
    filename ← gafqL_checkstring L 1;
    pf ← newfile L;
    f ← sys (c_fopen filename (str "r"));
    write_block pf f;;
    (if f =? 0 then fileerror L 1 filename else mret tt);;
    n ← gafq_gettop L;
    aux_lines code L n 1;;
    mret 1.

(** ** Reading *)

Definition read_number (L : pointer) (f : Z) : gc bool :=
  d ← sys (c_fscanf_number f);
  match d with
  | Some d => gafq_pushnumber L d;; mret true
  | None => gafq_pushnil L;; mret false
  end.

Definition test_eof (L : pointer) (f : Z) : gc bool :=
  c ← sys (c_getc f);
  sys (c_ungetc c f);;
  gafq_pushgstring L [];;
  mret (negb (c =? EOF)).

(** [gafqL_addsize(B, n)] where the [n] bytes have been put in the buffer *)
Definition gafqL_addsize (B : Buffer) (s : bytes) : Buffer := mkBuffer (b_chars B ++ s) (b_lvl B).

Fixpoint read_line_loop (n : nat) (L : pointer) (f : Z) (B : Buffer) : gc bool :=
  match n with
  | O => stuck Fuel
  | S n' =>
      B ← gafqL_prepbuffer L B;
      s ← sys (c_fgets GAFQL_BUFFERSIZE f);
      match s with
      | None =>
          gafqL_pushresult L B;;
          len ← gafq_objlen L (-1);
          mret (0 <? len)
      | Some s =>
          let p := cstr s in
          let l := zlen p in
          if (l =? 0) || negb (vget 0 p (l - 1) =? 10) then read_line_loop n' L f (gafqL_addsize B p)
          else
            gafqL_pushresult L (gafqL_addsize B (take (Z.to_nat (l - 1)) p));;
            mret true
      end
  end.

Definition read_line (L : pointer) (f : Z) : gc bool := read_line_loop rounds L f gafqL_buffinit.

Fixpoint read_chars_loop (k : nat) (L : pointer) (f : Z) (B : Buffer) (rlen n : Z) : gc (Buffer * Z) :=
  match k with
  | O => stuck Fuel
  | S k' =>
      B ← gafqL_prepbuffer L B;
      let rlen := if n <? rlen then n else rlen in
      s ← sys (c_fread rlen f);
      let B := gafqL_addsize B s in
      let n := n - zlen s in
      if (0 <? n) && (zlen s =? rlen) then read_chars_loop k' L f B rlen n else mret (B, n)
  end.

(** [n] is a [size_t] *)
Definition read_chars (L : pointer) (f n : Z) : gc bool :=
  r ← read_chars_loop rounds L f gafqL_buffinit GAFQL_BUFFERSIZE n;
  let '(B, n) := r in
  gafqL_pushresult L B;;
  len ← gafq_objlen L (-1);
  mret ((n =? 0) || (0 <? len)).

(** an argument of [read] *)
Definition read_format (L : pointer) (f n : Z) : gc bool :=
  t ← gafq_type L n;
  if t =? GAFQ_TNUMBER then
    l ← gafq_tointeger L n;
    let l := size_t l in
    if l =? 0 then test_eof L f else read_chars L f l
  else
    p ← gafq_togstring L n;
    let p := match p with Some p => cstr p | None => [] end in
    gafqL_argcheck L (vget 0 p 0 =? chr "*") n "invalid option";;
    let c := vget 0 p 1 in
    if c =? chr "n" then read_number L f
    else if c =? chr "l" then read_line L f
    else if c =? chr "a" then read_chars L f (SIZE_MOD - 1);; mret true
    else gafqL_argerror L n (str "invalid format").

(** [for (n = first; nargs-- && success; n++)] *)
Fixpoint read_formats (nargs : nat) (L : pointer) (f n : Z) (success : bool) : gc (Z * bool) :=
  match nargs with
  | O => mret (n, success)
  | S nargs' =>
      if success then ok ← read_format L f n; read_formats nargs' L f (n + 1) ok
      else mret (n, success)
  end.

Definition g_read (L : pointer) (f first : Z) : gc Z :=
  n ← gafq_gettop L;
  let nargs := n - 1 in
  sys (c_clearerr f);;
  r ← (if nargs =? 0 then ok ← read_line L f; mret (first + 1, ok)
       else
         gafqL_checkstack L (nargs + GAFQ_MINSTACK) "too many arguments";;
         read_formats (Z.to_nat nargs) L f first true);
  let '(n, success) := r in
  err ← sys (c_ferror f);
  if (err : bool) then pushresult L false None
  else
    (if negb success then gafq_pop L 1;; gafq_pushnil L else mret tt);;
    mret (n - first).

Definition io_read (L : pointer) : gc Z := f ← getiofile L IO_INPUT; g_read L f 1.
Definition f_read (L : pointer) : gc Z := f ← tofile L; g_read L f 2.

Definition io_readline (L : pointer) : gc Z :=
  f ← stream_at L (gafq_upvalueindex 1);
  (if f =? 0 then gafqL_error L "file is already closed" [] else mret tt);;
  success ← read_line L f;
  err ← sys (c_ferror f);
  if (err : bool) then
    en ← sys c_errno;
    gafqL_error L "%s" [AStr (c_strerror en)]
  else if (success : bool) then mret 1
  else
    toclose ← gafq_toboolean L (gafq_upvalueindex 2);
    (if (toclose : bool) then
       gafq_settop L 0;;
       gafq_pushvalue L (gafq_upvalueindex 1);;
       aux_close L;;
       mret tt
     else mret tt);;
    mret 0.

(** ** Writing *)

(** the arguments from [arg] on; nothing is written after a failure, but they are checked *)
Fixpoint write_args (nargs : nat) (L : pointer) (f arg : Z) (status : bool) : gc bool :=
  match nargs with
  | O => mret status
  | S nargs' =>
      t ← gafq_type L arg;
      status ← (if t =? GAFQ_TNUMBER then
                  if status then
                    d ← gafq_tonumber L arg;
                    n ← sys (c_fprintf_number d f);
                    mret (0 <? n)
                  else mret false
                else
                  s ← gafqL_checkgstring L arg;
                  if status then n ← sys (c_fwrite s f); mret (n =? zlen s) else mret false);
      write_args nargs' L f (arg + 1) status
  end.

Definition g_write (L : pointer) (f arg : Z) : gc Z :=
  n ← gafq_gettop L;
  status ← write_args (Z.to_nat (n - 1)) L f arg true;
  pushresult L status None.

Definition io_write (L : pointer) : gc Z := f ← getiofile L IO_OUTPUT; g_write L f 1.
Definition f_write (L : pointer) : gc Z := f ← tofile L; g_write L f 2.

Definition f_seek (L : pointer) : gc Z :=
  f ← tofile L;
  op ← gafqL_checkoption L 2 (Some "cur"%string) [ "set"; "cur"; "end" ]%string;
  offset ← gafqL_optinteger L 3 0;
  op ← sys (c_fseek f offset (vget 0 seek_modes op));
  if negb (op =? 0) then pushresult L false None
  else n ← sys (c_ftell f); gafq_pushinteger L n;; mret 1.

Definition f_setvbuf (L : pointer) : gc Z :=
  f ← tofile L;
  op ← gafqL_checkoption L 2 None [ "no"; "full"; "line" ]%string;
  sz ← gafqL_optinteger L 3 GAFQL_BUFFERSIZE;
  r ← sys (c_setvbuf f (vget 0 vbuf_modes op) sz);
  pushresult L (r =? 0) None.

Definition io_flush (L : pointer) : gc Z :=
  f ← getiofile L IO_OUTPUT; r ← sys (c_fflush f); pushresult L (r =? 0) None.
Definition f_flush (L : pointer) : gc Z :=
  f ← tofile L; r ← sys (c_fflush f); pushresult L (r =? 0) None.

(** ** Opening the library *)

Definition iolib : list (string * string) :=
  [ ("close", "io_close"); ("flush", "io_flush"); ("input", "io_input"); ("lines", "io_lines"); ("open", "io_open");
    ("output", "io_output"); ("popen", "io_popen"); ("read", "io_read"); ("tmpfile", "io_tmpfile"); ("type", "io_type");
    ("write", "io_write") ]%string.

Definition flib : list (string * string) :=
  [ ("close", "io_close"); ("flush", "f_flush"); ("lines", "f_lines"); ("read", "f_read"); ("seek", "f_seek");
    ("setvbuf", "f_setvbuf"); ("write", "f_write"); ("__gc", "io_gc"); ("__tostring", "io_tostring") ]%string.

Section Open.

Context (code : string -> Z).

Definition with_code (l : list (string * string)) : list (bytes * Z) := (fun r => (str r.1, code r.2)) <$> l.

Definition createmeta (L : pointer) : gc unit :=
  gafqL_newmetatable L GAFQ_FILEHANDLE;;
  gafq_pushvalue L (-1);;
  gafq_setfield L (-2) (str "__index");;
  gafqL_register L None (with_code flib).

Definition createstdfile (L : pointer) (f k : Z) (fname : string) : gc unit :=
  pf ← newfile L;
  write_block pf f;;
  (if 0 <? k then gafq_pushvalue L (-1);; gafq_rawseti L GAFQ_ENVIRONINDEX k else mret tt);;
  gafq_pushvalue L (-2);;
  gafq_setfenv L (-2);;
  gafq_setfield L (-3) (str fname).

Definition newfenv (L : pointer) (cls : string) : gc unit :=
  gafq_createtable L 0 1;;
  gafq_pushcclosure L (code cls) 0;;
  gafq_setfield L (-2) (str "__close").

Definition gafqopen_io (L : pointer) : gc Z :=
  createmeta L;;
  newfenv L "io_fclose";;
  gafq_replace L GAFQ_ENVIRONINDEX;;
  gafqL_register L (Some (str "io")) (with_code iolib);;
  newfenv L "io_noclose";;
  createstdfile L c_stdin IO_INPUT "stdin";;
  createstdfile L c_stdout IO_OUTPUT "stdout";;
  createstdfile L c_stderr 0 "stderr";;
  gafq_pop L 1;;
  gafq_getfield L (-1) (str "popen");;
  newfenv L "io_pclose";;
  gafq_setfenv L (-2);;
  gafq_pop L 1;;
  mret 1.

End Open.

End IoLib.
