(* ===== verification/OsLib.v ===== *)
(** * The operating system library: goslib.c

    The clock, the calendar, the locale and the files of the system are parameters.
    [os.exit] ends the program and is left out. *)

From stdpp Require Import gmap.
From S2P Require Import Prelude Number Object Table Heap Tm Gc Func GcSweep HeapString State Mach VmOps Do Execute Call Api Debug AuxLib TabLib BaseLib Load.

(** [struct tm] *)
Record tm := mkTm {
  tm_sec : Z;
  tm_min : Z;
  tm_hour : Z;
  tm_mday : Z;
  tm_mon : Z;
  tm_year : Z;
  tm_wday : Z;
  tm_yday : Z;
  tm_isdst : Z
}.

Class System := {
  c_system : option bytes -> Z -> Z * Z;
  c_remove : bytes -> Z -> Z * Z;
  c_rename : bytes -> bytes -> Z -> Z * Z;
  c_mkstemp : bytes -> Z -> (bytes * Z) * Z;   (* the name and the descriptor *)
  c_close : Z -> Z -> Z * Z;
  c_clock : Z -> Z * Z;
  c_time : Z -> Z * Z;   (* time(NULL) *)
  c_gmtime : Z -> Z -> option tm * Z;
  c_localtime : Z -> Z -> option tm * Z;
  c_mktime : tm -> Z -> Z * Z;
  c_strftime : Z -> tm -> Z -> bytes * Z;   (* the conversion of a character, at most 199 bytes *)
  c_difftime : Z -> Z -> gafq_Number;
  c_setlocale : Z -> option bytes -> Z -> option bytes * Z;
  CLOCKS_PER_SEC : Z;
  LC_categories : list Z   (* LC_ALL, LC_COLLATE, LC_CTYPE, LC_MONETARY, LC_NUMERIC, LC_TIME *)
}.

Definition catnames : list string := [ "all"; "collate"; "ctype"; "monetary"; "numeric"; "time" ]%string.

(** [(time_t)d] *)
Definition time_t (d : gafq_Number) : Z := gafq_number2integer d.

Section OsLib.

Context `{Host} `{Calls} `{Stdio} `{System}.

Definition os_pushresult (L : pointer) (i : bool) (filename : bytes) : gc Z :=
  en ← sys c_errno;
  if i then gafq_pushboolean L 1;; mret 1
  else
    gafq_pushnil L;;
    gafq_pushfstring L "%s: %s" [AStr filename; AStr (c_strerror en)];;
    gafq_pushinteger L en;;
    mret 3.

Definition os_execute (L : pointer) : gc Z :=
  s ← gafqL_optstring L 1;
  r ← sys (c_system s);
  gafq_pushinteger L r;;
  mret 1.

Definition os_remove (L : pointer) : gc Z :=
  filename ← gafqL_checkstring L 1;
  r ← sys (c_remove filename);
  os_pushresult L (r =? 0) filename.

Definition os_rename (L : pointer) : gc Z :=
  fromname ← gafqL_checkstring L 1;
  toname ← gafqL_checkstring L 2;
  r ← sys (c_rename fromname toname);
  os_pushresult L (r =? 0) fromname.

(** [gafq_tmpnam] (gafqconf.h, with [GAFQ_USE_MKSTEMP]): the name, if there is no error *)
Definition gafq_tmpnam : gc (option bytes) :=
  r ← sys (c_mkstemp (str "/tmp/gafq_XXXXXX"));
  let '(b, e) := r in
  if negb (e =? -1) then sys (c_close e);; mret (Some b) else mret None.

Definition os_tmpname (L : pointer) : gc Z :=
  r ← gafq_tmpnam;
  match r with
  | None => gafqL_error L "unable to generate a unique filename" []
  | Some buff => gafq_pushstring L (Some buff);; mret 1
  end.

Definition os_getenv (L : pointer) : gc Z :=
  name ← gafqL_checkstring L 1;
  v ← sys (c_getenv name);
  gafq_pushstring L v;;
  mret 1.

Definition os_clock (L : pointer) : gc Z :=
  c ← sys c_clock;
  gafq_pushnumber L (gafqi_numdiv (cast_integer c) (cast_integer CLOCKS_PER_SEC));;
  mret 1.

(** ** Time and date *)

Definition setfield (L : pointer) (key : string) (value : Z) : gc unit :=
  gafq_pushinteger L value;; gafq_setfield L (-2) (str key).

Definition setboolfield (L : pointer) (key : string) (value : Z) : gc unit :=
  if value <? 0 then mret tt
  else gafq_pushboolean L value;; gafq_setfield L (-2) (str key).

Definition getboolfield (L : pointer) (key : string) : gc Z :=
  gafq_getfield L (-1) (str key);;
  nil ← gafq_isnil L (-1);
  res ← (if (nil : bool) then mret (-1) else b ← gafq_toboolean L (-1); mret (if (b : bool) then 1 else 0));
  gafq_pop L 1;;
  mret res.

Definition getfield (L : pointer) (key : string) (d : Z) : gc Z :=
  gafq_getfield L (-1) (str key);;
  num ← gafq_isnumber L (-1);
  res ← (if (num : bool) then n ← gafq_tointeger L (-1); mret (s32 n)
         else if d <? 0 then gafqL_error L "field '%s' missing in date table" [AStr (str key)]
         else mret d);
  gafq_pop L 1;;
  mret res.

(** the loop over the format; a [%] at the end stands for itself *)
Fixpoint date_loop (L : pointer) (B : Buffer) (s : bytes) (stm : tm) : gc Buffer :=
  match s with
  | [] => mret B
  | c :: s' =>
      match s' with
      | d :: s'' =>
          if negb (c =? chr "%") then B ← gafqL_addchar L B c; date_loop L B s' stm
          else
            r ← sys (c_strftime d stm);
            B ← gafqL_addgstring L B r;
            date_loop L B s'' stm
      | [] => gafqL_addchar L B c
      end
  end.

Definition date_table (L : pointer) (stm : tm) : gc unit :=
  gafq_createtable L 0 9;;
  setfield L "sec" (tm_sec stm);;
  setfield L "min" (tm_min stm);;
  setfield L "hour" (tm_hour stm);;
  setfield L "day" (tm_mday stm);;
  setfield L "month" (tm_mon stm + 1);;
  setfield L "year" (tm_year stm + 1900);;
  setfield L "wday" (tm_wday stm + 1);;
  setfield L "yday" (tm_yday stm + 1);;
  setboolfield L "isdst" (tm_isdst stm).

Definition os_date (L : pointer) : gc Z :=
  s ← gafqL_optgstring L 1 (str "%c");
  none ← gafq_isnoneornil L 2;
  t ← (if (none : bool) then sys c_time else d ← gafqL_checknumber L 2; mret (time_t d));
  let s := cstr s in
  let utc := vget 0 s 0 =? chr "!" in
  stm ← (if utc then sys (c_gmtime t) else sys (c_localtime t));
  let s := if utc then drop 1 s else s in
  (match stm with
   | None => gafq_pushnil L
   | Some stm =>
       if bool_decide (s = str "*t") then date_table L stm
       else B ← date_loop L gafqL_buffinit s stm; gafqL_pushresult L B
   end);;
  mret 1.

(** [tm_wday] and [tm_yday] are not set; [mktime] ignores them *)
Definition os_time (L : pointer) : gc Z :=
  none ← gafq_isnoneornil L 1;
  t ← (if (none : bool) then sys c_time
       else
         gafqL_checktype L 1 GAFQ_TTABLE;;
         gafq_settop L 1;;
         sec ← getfield L "sec" 0;
         min ← getfield L "min" 0;
         hour ← getfield L "hour" 12;
         mday ← getfield L "day" (-1);
         mon ← getfield L "month" (-1);
         year ← getfield L "year" (-1);
         isdst ← getboolfield L "isdst";
         sys (c_mktime (mkTm sec min hour mday (s32 (mon - 1)) (s32 (year - 1900)) 0 0 isdst)));
  (if t =? -1 then gafq_pushnil L else gafq_pushnumber L (cast_integer t));;
  mret 1.

(** the second argument is evaluated first or last: both orders give the same error or result,
    unless both arguments are wrong *)
Definition os_difftime (L : pointer) : gc Z :=
  t1 ← gafqL_checknumber L 1;
  t2 ← gafqL_optnumber L 2 (cast_num 0);
  gafq_pushnumber L (c_difftime (time_t t1) (time_t t2));;
  mret 1.

Definition os_setlocale (L : pointer) : gc Z :=
  l ← gafqL_optstring L 1;
  op ← gafqL_checkoption L 2 (Some "all"%string) catnames;
  r ← sys (c_setlocale (vget 0 LC_categories op) l);
  gafq_pushstring L r;;
  mret 1.

Definition syslib : list string :=
  [ "clock"; "date"; "difftime"; "execute"; "exit"; "getenv"; "remove"; "rename"; "setlocale"; "time"; "tmpname" ]%string.

(** [code] gives the address of the C function of a name *)
Definition gafqopen_os (code : string -> Z) (L : pointer) : gc Z :=
  gafqL_register L (Some (str "os")) ((fun s => (str s, code s)) <$> syslib);; mret 1.

End OsLib.
