(* ===== verification/Programs.v ===== *)
(** * The stand-alone programs: gafq.c, gafqc.c, print.c

    The interpreter and the compiler.  The variable [progname] is an argument: [None] is
    [NULL].  The handler of the interrupt signal is left out, and the two [main] functions
    around [gafq_cpcall]. *)

From stdpp Require Import gmap.
From S2P Require Import Prelude Number Opcodes Dump Object Proto Table Heap Tm Gc Func GcSweep HeapString State Mach VmOps Do Execute Call Api Debug AuxLib TabLib BaseLib Load LoadLib.

(** what the interactive mode uses of its terminal *)
Class Terminal := {
  c_readline : bytes -> Z -> option bytes * Z;   (* readline(prompt) *)
  c_add_history : bytes -> Z -> unit * Z;
  c_isatty : Z -> Z -> bool * Z
}.

Definition GAFQ_PROGNAME : bytes := str "gafq".
Definition GAFQ_PROMPT : bytes := str "> ".
Definition GAFQ_PROMPT2 : bytes := str ">> ".
Definition GAFQ_INIT : string := "GAFQ_INIT".
Definition GAFQ_RELEASE : bytes := str "Gafq 5.1.5".
Definition GAFQ_COPYRIGHT : bytes := str "Copyright (C) 1994-2012 Gafq.org, PUC-Rio".

(** ** The arguments of the interpreter *)

(** [argv[i]], [None] at the end *)
Definition arg_at (argv : list bytes) (i : Z) : option bytes :=
  if i <? 0 then None else argv !! Z.to_nat i.

Definition notail (x : bytes) : bool := zlen x <=? 2.

(** the index of the script (0 if there is none, -1 for an error) and the options *)
Record options := mkOptions { has_i : bool; has_v : bool; has_e : bool }.

Fixpoint collectargs_loop (n : nat) (argv : list bytes) (i : Z) (o : options) : Z * options :=
  match n with
  | O => (0, o)
  | S n' =>
      match arg_at argv i with
      | None => (0, o)
      | Some a =>
          if negb (vget 0 a 0 =? chr "-") then (i, o)
          else
            let c := vget 0 a 1 in
            if c =? chr "-" then
              if negb (notail a) then (-1, o)
              else (match arg_at argv (i + 1) with Some _ => i + 1 | None => 0 end, o)
            else if c =? 0 then (i, o)
            else if c =? chr "i" then
              if negb (notail a) then (-1, o)
              else collectargs_loop n' argv (i + 1) (mkOptions true true (has_e o))
            else if c =? chr "v" then
              if negb (notail a) then (-1, o)
              else collectargs_loop n' argv (i + 1) (mkOptions (has_i o) true (has_e o))
            else if (c =? chr "e") || (c =? chr "l") then
              let o := if c =? chr "e" then mkOptions (has_i o) (has_v o) true else o in
              if vget 0 a 2 =? 0 then
                match arg_at argv (i + 1) with
                | None => (-1, o)
                | Some _ => collectargs_loop n' argv (i + 2) o
                end
              else collectargs_loop n' argv (i + 1) o
            else (-1, o)
      end
  end.

Definition collectargs (argv : list bytes) : Z * options :=
  collectargs_loop (length argv) argv 1 (mkOptions false false false).

Section Gafq.

Context `{Host} `{Calls} `{Stdio} `{Dlfcn} `{Terminal}.

(** the addresses of the C functions *)
Context (code : string -> Z).

(** [fprintf(f, ...)] of a text *)
Definition put (f : Z) (s : bytes) : gc unit := sys (c_fputs s f);; mret tt.

Definition print_usage (progname : option bytes) : gc unit :=
  put c_stderr (str "usage: " ++ or_null progname ++ str " [options] [script [args]]." ++ [10] ++
    str "Available options are:" ++ [10] ++
    str "  -e stat  execute string 'stat'" ++ [10] ++
    str "  -l name  require library 'name'" ++ [10] ++
    str "  -i       enter interactive mode after executing 'script'" ++ [10] ++
    str "  -v       show version information" ++ [10] ++
    str "  --       stop handling options" ++ [10] ++
    str "  -        execute stdin and stop handling options" ++ [10]);;
  sys (c_fflush c_stderr);;
  mret tt.

Definition l_message (pname : option bytes) (msg : bytes) : gc unit :=
  (match pname with Some pname => put c_stderr (pname ++ str ": ") | None => mret tt end);;
  put c_stderr (msg ++ [10]);;
  sys (c_fflush c_stderr);;
  mret tt.

Definition report (progname : option bytes) (L : pointer) (status : Z) : gc Z :=
  (if negb (status =? 0) then
     nil ← gafq_isnil L (-1);
     if negb nil then
       msg ← gafq_togstring L (-1);
       l_message progname (match msg with Some s => cstr s | None => str "(error object is not a string)" end);;
       gafq_pop L 1
     else mret tt
   else mret tt);;
  mret status.

Definition traceback (L : pointer) : gc Z :=
  string ← gafq_isstring L 1;
  if negb string then mret 1
  else
    gafq_getfield L GAFQ_GLOBALSINDEX (str "debug");;
    table ← gafq_istable L (-1);
    if negb table then gafq_pop L 1;; mret 1
    else
      gafq_getfield L (-1) (str "traceback");;
      func ← gafq_isfunction L (-1);
      if negb func then gafq_pop L 2;; mret 1
      else
        gafq_pushvalue L 1;;
        gafq_pushinteger L 2;;
        gafq_call L 2 1;;
        mret 1.

Definition docall (L : pointer) (narg : Z) (clear : bool) : gc Z :=
  n ← gafq_gettop L;
  let base := n - narg in
  gafq_pushcclosure L (code "traceback"%string) 0;;
  gafq_insert L base;;
  status ← gafq_pcall L narg (if clear then 0 else GAFQ_MULTRET) base;
  gafq_remove L base;;
  (if negb (status =? 0) then gafq_gc L 2 0;; mret tt else mret tt);;
  mret status.

Definition print_version : gc unit := l_message None (GAFQ_RELEASE ++ str "  " ++ GAFQ_COPYRIGHT).

Definition getargs (L : pointer) (argv : list bytes) (n : Z) : gc Z :=
  let argc := zlen argv in
  let narg := argc - (n + 1) in
  gafqL_checkstack L (narg + 3) "too many arguments to script";;
  for_each (drop (Z.to_nat (n + 1)) argv) (fun a => gafq_pushstring L (Some a));;
  gafq_createtable L narg (n + 1);;
  for_each (imap pair argv) (fun ia =>
    gafq_pushstring L (Some ia.2);;
    gafq_rawseti L (-2) (Z.of_nat ia.1 - n));;
  mret narg.

(** [load || docall(L, 0, 1)]: 0 or 1 *)
Definition load_and_call (L : pointer) (load : gc Z) : gc Z :=
  status ← load;
  if negb (status =? 0) then mret 1
  else status ← docall L 0 true; mret (if status =? 0 then 0 else 1).

Definition dofile (progname : option bytes) (L : pointer) (name : option bytes) : gc Z :=
  status ← load_and_call L (gafqL_loadfile L name); report progname L status.

Definition dostring (progname : option bytes) (L : pointer) (s name : bytes) : gc Z :=
  status ← load_and_call L (gafqL_loadbuffer L (cstr s) name); report progname L status.

Definition dolibrary (progname : option bytes) (L : pointer) (name : bytes) : gc Z :=
  gafq_getfield L GAFQ_GLOBALSINDEX (str "require");;
  gafq_pushstring L (Some name);;
  status ← docall L 1 true;
  report progname L status.

(** ** The interactive mode *)

Definition get_prompt (L : pointer) (firstline : bool) : gc bytes :=
  gafq_getfield L GAFQ_GLOBALSINDEX (str (if firstline then "_PROMPT" else "_PROMPT2"));;
  p ← gafq_togstring L (-1);
  gafq_pop L 1;;
  mret (match p with Some p => cstr p | None => if firstline then GAFQ_PROMPT else GAFQ_PROMPT2 end).

(** the first ['<eof>'] of the message is at its end *)
Definition ends_at_eof (msg : bytes) : bool :=
  match strstr (cstr msg) (str "'<eof>'") with
  | Some (a, _) => zlen a =? zlen msg - zlen (str "'<eof>'")
  | None => false
  end.

Definition incomplete (L : pointer) (status : Z) : gc bool :=
  if status =? GAFQ_ERRSYNTAX then
    msg ← gafq_togstring L (-1);
    match msg with
    | None => stuck Undefined
    | Some msg => if ends_at_eof msg then gafq_pop L 1;; mret true else mret false
    end
  else mret false.

Definition pushline (L : pointer) (firstline : bool) : gc bool :=
  prmt ← get_prompt L firstline;
  b ← sys (c_readline prmt);
  match b with
  | None => mret false
  | Some b =>
      let b := cstr b in
      let l := zlen b in
      let b := if (0 <? l) && (vget 0 b (l - 1) =? 10) then take (Z.to_nat (l - 1)) b else b in
      (if firstline && (vget 0 b 0 =? chr "=") then gafq_pushfstring L "return %s" [AStr (drop 1 b)];; mret tt
       else gafq_pushstring L (Some b));;
      mret true
  end.

(** lines are added until the chunk is complete; -1 at the end of the input *)
Fixpoint loadline_loop (n : nat) (L : pointer) : gc Z :=
  match n with
  | O => stuck Fuel
  | S n' =>
      s ← gafq_togstring L 1;
      match s with
      | None => stuck Undefined
      | Some s =>
          status ← gafqL_loadbuffer L s (str "=stdin");
          more ← incomplete L status;
          if negb more then mret status
          else
            line ← pushline L false;
            if negb line then mret (-1)
            else
              gafq_pushgstring L [10];;
              gafq_insert L (-2);;
              gafq_concat L 3;;
              loadline_loop n' L
      end
  end.

(** [gafq_saveline(L, idx)] (gafqconf.h, with [GAFQ_USE_READLINE]) *)
Definition gafq_saveline (L : pointer) (idx : Z) : gc unit :=
  len ← gafq_objlen L idx;
  if 0 <? len then
    s ← gafq_togstring L idx;
    match s with Some s => sys (c_add_history (cstr s)) | None => stuck Undefined end
  else mret tt.

Definition loadline (L : pointer) : gc Z :=
  gafq_settop L 0;;
  line ← pushline L true;
  if negb line then mret (-1)
  else
    status ← loadline_loop rounds L;
    if status =? -1 then mret (-1)
    else gafq_saveline L 1;; gafq_remove L 1;; mret status.

Fixpoint dotty_loop (n : nat) (L : pointer) : gc unit :=
  match n with
  | O => stuck Fuel
  | S n' =>
      status ← loadline L;
      if status =? -1 then mret tt
      else
        status ← (if status =? 0 then docall L 0 false else mret status);
        report None L status;;
        top ← gafq_gettop L;
        (if (status =? 0) && (0 <? top) then
           gafq_getfield L GAFQ_GLOBALSINDEX (str "print");;
           gafq_insert L 1;;
           top ← gafq_gettop L;
           r ← gafq_pcall L (top - 1) 0 0;
           if negb (r =? 0) then
             msg ← gafq_togstring L (-1);
             s ← gafq_pushfstring L "error calling 'print' (%s)" [AStr (or_null msg)];
             l_message None s
           else mret tt
         else mret tt);;
        dotty_loop n' L
  end.

Definition dotty (L : pointer) : gc unit :=
  dotty_loop rounds L;;
  gafq_settop L 0;;
  put c_stdout [10];;
  sys (c_fflush c_stdout);;
  mret tt.

(** ** Running *)

Definition handle_script (progname : option bytes) (L : pointer) (argv : list bytes) (n : Z) : gc Z :=
  narg ← getargs L argv n;
  gafq_setfield L GAFQ_GLOBALSINDEX (str "arg");;
  match arg_at argv n, arg_at argv (n - 1) with
  | Some fname, Some prev =>
      let fname := if bool_decide (fname = str "-") && negb (bool_decide (prev = str "--")) then None else Some fname in
      status ← gafqL_loadfile L fname;
      gafq_insert L (- (narg + 1));;
      status ← (if status =? 0 then docall L narg false else gafq_pop L narg;; mret status);
      report progname L status
  | _, _ => stuck Undefined
  end.

(** the text after the two characters of an option, or the next argument *)
Definition option_text (argv : list bytes) (i : Z) (a : bytes) : gc (bytes * Z) :=
  if vget 0 a 2 =? 0 then
    match arg_at argv (i + 1) with Some s => mret (s, i + 1) | None => stuck Undefined end
  else mret (drop 2 a, i).

Fixpoint runargs_loop (k : nat) (progname : option bytes) (L : pointer) (argv : list bytes) (i n : Z) : gc Z :=
  match k with
  | O => mret 0
  | S k' =>
      if i <? n then
        match arg_at argv i with
        | None => runargs_loop k' progname L argv (i + 1) n
        | Some a =>
            let c := vget 0 a 1 in
            if c =? chr "e" then
              r ← option_text argv i a;
              status ← dostring progname L r.1 (str "=(command line)");
              if negb (status =? 0) then mret 1 else runargs_loop k' progname L argv (r.2 + 1) n
            else if c =? chr "l" then
              r ← option_text argv i a;
              status ← dolibrary progname L r.1;
              if negb (status =? 0) then mret 1 else runargs_loop k' progname L argv (r.2 + 1) n
            else runargs_loop k' progname L argv (i + 1) n
        end
      else mret 0
  end.

Definition runargs (progname : option bytes) (L : pointer) (argv : list bytes) (n : Z) : gc Z :=
  runargs_loop (Z.to_nat n) progname L argv 1 n.

Definition handle_gafqinit (progname : option bytes) (L : pointer) : gc Z :=
  init ← sys (c_getenv (str GAFQ_INIT));
  match init with
  | None => mret 0
  | Some init =>
      if vget 0 init 0 =? chr "@" then dofile progname L (Some (drop 1 init))
      else dostring progname L init (str "=" ++ str GAFQ_INIT)
  end.

(** the result is [s->status] *)
Definition pmain (argv : list bytes) (L : pointer) : gc Z :=
  let progname := match argv with (c :: a) :: _ => Some (c :: a) | _ => Some GAFQ_PROGNAME end in
  gafq_gc L 0 0;;
  gafqL_openlibs code L;;
  gafq_gc L 1 0;;
  status ← handle_gafqinit progname L;
  if negb (status =? 0) then mret status
  else
    let '(script, o) := collectargs argv in
    if script <? 0 then print_usage progname;; mret 1
    else
      (if has_v o then print_version else mret tt);;
      status ← runargs progname L argv (if 0 <? script then script else zlen argv);
      if negb (status =? 0) then mret status
      else
        status ← (if negb (script =? 0) then handle_script progname L argv script else mret 0);
        if negb (status =? 0) then mret status
        else
          (if has_i o then dotty L
           else if (script =? 0) && negb (has_e o) && negb (has_v o) then
             tty ← sys (c_isatty 0);
             if (tty : bool) then print_version;; dotty L
             else dofile progname L None;; mret tt
           else mret tt);;
          mret 0.

End Gafq.

(** ** The listing of the compiler: print.c *)

Definition gafqP_opnames : list string :=
  [ "MOVE"; "LOADK"; "LOADBOOL"; "LOADNIL"; "GETUPVAL"; "GETGLOBAL"; "GETTABLE"; "SETGLOBAL"; "SETUPVAL"; "SETTABLE";
    "NEWTABLE"; "SELF"; "ADD"; "SUB"; "MUL"; "DIV"; "MOD"; "POW"; "UNM"; "NOT"; "LEN"; "CONCAT"; "JMP"; "EQ"; "LT"; "LE";
    "TEST"; "TESTSET"; "CALL"; "TAILCALL"; "RETURN"; "FORLOOP"; "FORPREP"; "TFORLOOP"; "SETLIST"; "CLOSE"; "CLOSURE";
    "VARARG" ]%string.

Definition isprint (c : Z) : bool := (32 <=? c) && (c <=? 126).

(** ["%03u"] of a byte *)
Definition three_digits (c : Z) : bytes := [chr "0" + c / 100; chr "0" + c / 10 mod 10; chr "0" + c mod 10].

(** ["%-9s"] *)
Definition pad9 (s : bytes) : bytes := s ++ replicate (9 - length s) (chr " ").

(** a character of a string constant, in a string *)
Definition print_char (c : Z) : bytes :=
  if c =? 34 then [92; 34]
  else if c =? 92 then [92; 92]
  else if c =? 7 then str "\a"
  else if c =? 8 then str "\b"
  else if c =? 12 then str "\f"
  else if c =? 10 then str "\n"
  else if c =? 13 then str "\r"
  else if c =? 9 then str "\t"
  else if c =? 11 then str "\v"
  else if isprint c then [c]
  else 92 :: three_digits c.

Definition PrintString (s : bytes) : bytes := [34] ++ concat (print_char <$> s) ++ [34].

(** [S(x)]: the ending of a plural *)
Definition SS (x : Z) : bytes := if x =? 1 then [] else str "s".

Section Print.

Context `{Host} `{Calls} `{Stdio}.

#[local] Notation printf := (put c_stdout).

(** [%s] of a string, which must not be [NULL] *)
Definition print_name (s : option bytes) : gc bytes :=
  match s with Some s => mret (cstr s) | None => stuck Undefined end.

Definition PrintConstant (f : Proto) (i : Z) : gc unit :=
  match (if i <? 0 then None else k f !! Z.to_nat i) with
  | None => stuck Undefined
  | Some KNil => printf (str "nil")
  | Some (KBoolean b) => printf (str (if b =? 0 then "false" else "true"))
  | Some (KNumber n) => printf (number2str n)
  | Some (KString (Some s)) => printf (PrintString s)
  | Some (KString None) => stuck Undefined
  end.

(** a register or a constant; constants count down from -1 *)
Definition rk_str (x : Z) : bytes := int_str (if ISK x then -1 - INDEXK x else x).

(** the operands *)
Definition print_operands (i : Z) : gc unit :=
  let o := GET_OPCODE i in
  let a := int_str (GETARG_A i) in
  match getOpMode o with
  | iABC =>
      printf a;;
      (match getBMode o with OpArgN => mret tt | _ => printf (str " " ++ rk_str (GETARG_B i)) end);;
      (match getCMode o with OpArgN => mret tt | _ => printf (str " " ++ rk_str (GETARG_C i)) end)
  | iABx =>
      printf (a ++ str " " ++ int_str (match getBMode o with OpArgK => -1 - GETARG_Bx i | _ => GETARG_Bx i end))
  | iAsBx =>
      if o =? op_num OP_JMP then printf (int_str (GETARG_sBx i))
      else printf (a ++ str " " ++ int_str (GETARG_sBx i))
  end.

(** [if (ISK(x)) PrintConstant(f, INDEXK(x)); else printf("-");] *)
Definition print_rk (f : Proto) (x : Z) : gc unit := if ISK x then PrintConstant f (INDEXK x) else printf (str "-").

(** what the operands stand for; the result says if the next word is not an instruction *)
Definition print_comment (f : Proto) (nested : list (option pointer)) (pc i : Z) : gc bool :=
  let tag := [9] ++ str "; " in
  let b := GETARG_B i in
  let c := GETARG_C i in
  let bx := GETARG_Bx i in
  match op_of (GET_OPCODE i) with
  | Some OP_LOADK => printf tag;; PrintConstant f bx;; mret false
  | Some OP_GETUPVAL | Some OP_SETUPVAL =>
      name ← (if 0 <? zlen (upvalues f) then print_name (vget None (upvalues f) b) else mret (str "-"));
      printf (tag ++ name);; mret false
  | Some OP_GETGLOBAL | Some OP_SETGLOBAL =>
      name ← print_name (match vget KNil (k f) bx with KString s => s | _ => None end);
      printf (tag ++ name);; mret false
  | Some OP_GETTABLE | Some OP_SELF =>
      (if ISK c then printf tag;; PrintConstant f (INDEXK c) else mret tt);; mret false
  | Some OP_SETTABLE | Some OP_ADD | Some OP_SUB | Some OP_MUL | Some OP_DIV | Some OP_POW
  | Some OP_EQ | Some OP_LT | Some OP_LE =>
      (if ISK b || ISK c then printf tag;; print_rk f b;; printf (str " ");; print_rk f c else mret tt);; mret false
  | Some OP_JMP | Some OP_FORLOOP | Some OP_FORPREP =>
      printf (tag ++ str "to " ++ int_str (GETARG_sBx i + pc + 2));; mret false
  | Some OP_CLOSURE =>
      match vget None nested bx with
      | Some p => printf (tag ++ pointer2str p);; mret false
      | None => stuck Undefined
      end
  | Some OP_SETLIST =>
      if c =? 0 then
        if pc + 1 <? zlen (Proto.code f) then printf (tag ++ int_str (s32 (vget 0 (Proto.code f) (pc + 1))));; mret true
        else stuck Undefined
      else printf (tag ++ int_str c);; mret false
  | _ => mret false
  end.

(** the instructions from [pc] on *)
Fixpoint print_code (l : list Z) (o : ProtoObj) (f : Proto) (pc : Z) (skip : bool) : gc unit :=
  match l with
  | [] => mret tt
  | i :: l =>
      if skip then print_code l o f (pc + 1) false
      else
        line ← getline o pc;
        printf ([9] ++ int_str (pc + 1) ++ [9]);;
        printf (if 0 <? line then str "[" ++ int_str line ++ str "]" ++ [9] else str "[-]" ++ [9]);;
        (match gafqP_opnames !! Z.to_nat (GET_OPCODE i) with
         | Some name => printf (pad9 (str name) ++ [9])
         | None => stuck Undefined
         end);;
        print_operands i;;
        skip ← print_comment f (p_p o) pc i;
        printf [10];;
        print_code l o f (pc + 1) skip
  end.

Definition PrintCode (o : ProtoObj) (f : Proto) : gc unit := print_code (Proto.code f) o f 0 false.

Definition PrintHeader (self : pointer) (f : Proto) : gc unit :=
  s ← print_name (source f);
  let s := match s with
           | c :: rest =>
               if (c =? chr "@") || (c =? chr "=") then rest
               else if c =? vget 0 GAFQ_SIGNATURE 0 then str "(bstring)"
               else str "(string)"
           | [] => str "(string)"
           end in
  let count (n : Z) (what : string) : bytes := int_str n ++ str " " ++ str what ++ SS n in
  printf ([10] ++ str (if linedefined f =? 0 then "main" else "function") ++ str " <" ++ s ++ str ":" ++
          int_str (linedefined f) ++ str "," ++ int_str (lastlinedefined f) ++ str "> (" ++
          count (sizecode f) "instruction" ++ str ", " ++ int_str (sizecode f * 4) ++ str " bytes at " ++
          pointer2str self ++ str ")" ++ [10]);;
  printf (int_str (numparams f) ++ str (if is_vararg f =? 0 then "" else "+") ++ str " param" ++ SS (numparams f) ++
          str ", " ++ count (maxstacksize f) "slot" ++ str ", " ++ count (nups f) "upvalue" ++ str ", ");;
  printf (count (sizelocvars f) "local" ++ str ", " ++ count (sizek f) "constant" ++ str ", " ++
          count (sizep f) "function" ++ [10]).

Definition PrintConstants (self : pointer) (f : Proto) : gc unit :=
  printf (str "constants (" ++ int_str (sizek f) ++ str ") for " ++ pointer2str self ++ str ":" ++ [10]);;
  for_each (seqZ 0 (sizek f)) (fun i =>
    printf ([9] ++ int_str (i + 1) ++ [9]);;
    PrintConstant f i;;
    printf [10]).

Definition PrintLocals (self : pointer) (f : Proto) : gc unit :=
  printf (str "locals (" ++ int_str (sizelocvars f) ++ str ") for " ++ pointer2str self ++ str ":" ++ [10]);;
  for_each (imap pair (locvars f)) (fun iv =>
    name ← print_name (varname iv.2);
    printf ([9] ++ int_str (Z.of_nat iv.1) ++ [9] ++ name ++ [9] ++ int_str (startpc iv.2 + 1) ++ [9] ++
            int_str (endpc iv.2 + 1) ++ [10])).

Definition PrintUpvalues (self : pointer) (f : Proto) : gc unit :=
  printf (str "upvalues (" ++ int_str (sizeupvalues f) ++ str ") for " ++ pointer2str self ++ str ":" ++ [10]);;
  for_each (imap pair (upvalues f)) (fun iu =>
    name ← print_name iu.2;
    printf ([9] ++ int_str (Z.of_nat iu.1) ++ [9] ++ name ++ [10])).

(** the functions inside each other, at most [depth] levels *)
Fixpoint PrintFunction (depth : nat) (self : pointer) (full : bool) : gc unit :=
  match depth with
  | O => stuck Fuel
  | S depth' =>
      o ← gco2p self;
      g ← gets id;
      let f := view_proto g o in
      PrintHeader self f;;
      PrintCode o f;;
      (if full then PrintConstants self f;; PrintLocals self f;; PrintUpvalues self f else mret tt);;
      for_each (p_p o) (fun q => match q with Some q => PrintFunction depth' q full | None => stuck Undefined end)
  end.

End Print.

(** ** The compiler: gafqc.c *)

Definition PROGNAME : bytes := str "gafqc".
Definition OUTPUT : bytes := PROGNAME ++ str ".out".

(** the variables that the options set; [None] is [NULL] *)
Record settings := mkSettings {
  listing : Z;
  dumping : bool;
  stripping : bool;
  output : option bytes;
  version : Z
}.

(** how [doargs] ends: with an error message, or with the index of the first file *)
Inductive doargs_result := DoUsage (message : bytes) | DoFiles (i : Z) (s : settings).

(** the loop over the options *)
Fixpoint doargs_loop (n : nat) (argv : list bytes) (i : Z) (s : settings) : doargs_result :=
  match n with
  | O => DoFiles i s
  | S n' =>
      match arg_at argv i with
      | None => DoFiles i s
      | Some a =>
          let IS (x : string) := bool_decide (a = str x) in
          if negb (vget 0 a 0 =? chr "-") then DoFiles i s
          else if IS "--" then
            DoFiles (i + 1) (mkSettings (listing s) (dumping s) (stripping s) (output s)
                               (if version s =? 0 then 0 else version s + 1))
          else if IS "-" then DoFiles i s
          else if IS "-l" then
            doargs_loop n' argv (i + 1) (mkSettings (listing s + 1) (dumping s) (stripping s) (output s) (version s))
          else if IS "-o" then
            match arg_at argv (i + 1) with
            | None | Some [] => DoUsage (str "'-o' needs argument")
            | Some out =>
                doargs_loop n' argv (i + 2)
                  (mkSettings (listing s) (dumping s) (stripping s)
                              (if bool_decide (out = str "-") then None else Some out) (version s))
            end
          else if IS "-p" then
            doargs_loop n' argv (i + 1) (mkSettings (listing s) false (stripping s) (output s) (version s))
          else if IS "-s" then
            doargs_loop n' argv (i + 1) (mkSettings (listing s) (dumping s) true (output s) (version s))
          else if IS "-v" then
            doargs_loop n' argv (i + 1) (mkSettings (listing s) (dumping s) (stripping s) (output s) (version s + 1))
          else DoUsage a
      end
  end.

(** the files to be compiled: without any, the listing is of the default output *)
Definition doargs (argv : list bytes) : doargs_result * list bytes :=
  match doargs_loop (length argv) argv 1 (mkSettings 0 true false (Some OUTPUT) 0) with
  | DoFiles i s =>
      if (i =? zlen argv) && ((0 <? listing s) || negb (dumping s)) then
        (DoFiles (i - 1) (mkSettings (listing s) false (stripping s) (output s) (version s)), [OUTPUT])
      else (DoFiles i s, drop (Z.to_nat i) argv)
  | r => (r, [])
  end.

(** [toproto(L, i)] *)
Definition toproto (L : pointer) (i : Z) : gc pointer :=
  t ← gettop L;
  b ← getclosure L (t + i);
  match b with BLClosure _ p _ => mret p | _ => stuck Undefined end.

(** the code of a function that calls the [n] functions inside it *)
Definition combine_code (n : nat) : list Z :=
  concat ((fun i => [CREATE_ABx (op_num OP_CLOSURE) 0 (Z.of_nat i); CREATE_ABC (op_num OP_CALL) 0 1 1]) <$> seq 0 n)
  ++ [CREATE_ABC (op_num OP_RETURN) 0 1 0].

Definition combined (n : nat) (source : pointer) (p : list (option pointer)) : ProtoObj :=
  mkProtoObj [] (combine_code n) p [] [] [] (Some source) 0 0 0 0 0 1.

Section Gafqc.

Context `{Host} `{Calls} `{Stdio}.

Definition combine (L : pointer) (n : Z) : gc pointer :=
  if n =? 1 then toproto L (-1)
  else
    f ← gets fresh;
    gafqF_newproto f;;
    push L (VProto f);;
    source ← gafqS_newstr L (str "=(" ++ PROGNAME ++ str ")");
    p ← each (fun i => q ← toproto L (i - n - 1); mret (Some q)) (seqZ 0 n);
    putbody f (BProto (combined (Z.to_nat n) source p));;
    resize_block 0 ((2 * n + 1) * Heap.sizeof_Instruction);;
    resize_block 0 (n * sizeof_pointer);;
    mret f.

(** [Err] is the message of [fatal] or [cannot], which end the program *)
Definition load_files (L : pointer) (files : list bytes) : gc (option bytes) :=
  (fix go (files : list bytes) : gc (option bytes) :=
     match files with
     | [] => mret None
     | a :: files =>
         status ← gafqL_loadfile L (if bool_decide (a = str "-") then None else Some a);
         if negb (status =? 0) then msg ← gafq_togstring L (-1); mret (Some (or_null msg))
         else go files
     end) files.

Definition cannot (output : option bytes) (what : string) : gc (option bytes) :=
  e ← sys c_errno;
  mret (Some (str "cannot " ++ str what ++ str " " ++ or_null output ++ str ": " ++ c_strerror e)).

(** [writer]: a block is written at once; the dump stops at the first error *)
Fixpoint write_blocks (blocks : list bytes) (D : Z) : gc unit :=
  match blocks with
  | [] => mret tt
  | b :: blocks =>
      n ← sys (c_fwrite b D);
      if negb (n =? zlen b) && negb (zlen b =? 0) then mret tt else write_blocks blocks D
  end.

Definition dump_file (f : pointer) (s : settings) : gc (option bytes) :=
  D ← (match output s with None => mret c_stdout | Some name => sys (c_fopen name (str "wb")) end);
  if D =? 0 then cannot (output s) "open"
  else
    g ← gets id;
    match proto_tree rounds g f with
    | None => stuck Fuel
    | Some p =>
        write_blocks (gafqU_dump (fun blocks b => (blocks ++ [b], 0)) p [] (stripping s)).1 D;;
        err ← sys (c_ferror D);
        if (err : bool) then cannot (output s) "write"
        else r ← sys (c_fclose D); if negb (r =? 0) then cannot (output s) "close" else mret None
    end.

(** the message of the error that ends the program, if there is one *)
Definition compile_main (L : pointer) (files : list bytes) (s : settings) : gc (option bytes) :=
  ok ← gafq_checkstack L (zlen files);
  if negb ok then mret (Some (str "too many input files"))
  else
    r ← load_files L files;
    match r with
    | Some msg => mret (Some msg)
    | None =>
        f ← combine L (zlen files);
        (if 0 <? listing s then PrintFunction rounds f (1 <? listing s) else mret tt);;
        if dumping s then dump_file f s else mret None
    end.

End Gafqc.
