(* ===== verification/GcLogic.v ===== *)
(** * Reasoning about the collector: colours, references and a program logic

    [wp m Q g]: from the state [g], the computation [m] ends without an error of
    any kind, with a result and a state that satisfy [Q]. *)

From stdpp Require Import gmap.
From S2P Require Import Prelude Number Object Table Heap Tm Gc Func GcSweep.

(** ** Weakest preconditions *)

Definition wp {A} (m : gc A) (Q : A -> GState -> Prop) (g : GState) : Prop :=
  match m g with Ok (a, g') => Q a g' | Err _ => False end.

Lemma wp_bind {A B} (m : gc A) (f : A -> gc B) Q g :
  wp m (fun a => wp (f a) Q) g -> wp (m ≫= f) Q g.
Proof. unfold wp, mbind, stres_bind. by destruct (m g) as [[a g']|e]. Qed.

Lemma wp_ret {A} (a : A) (Q : A -> GState -> Prop) g : Q a g -> wp (mret a) Q g.
Proof. done. Qed.

Lemma wp_mono {A} (m : gc A) (Q Q' : A -> GState -> Prop) g :
  wp m Q g -> (forall a g', Q a g' -> Q' a g') -> wp m Q' g.
Proof. unfold wp. destruct (m g) as [[a g']|e]; auto. Qed.

Lemma wp_gets {A} (f : GState -> A) (Q : A -> GState -> Prop) g : Q (f g) g -> wp (gets f) Q g.
Proof. done. Qed.

Lemma wp_modify f (Q : unit -> GState -> Prop) g : Q tt (f g) -> wp (modify f) Q g.
Proof. done. Qed.

Lemma wp_getobj p o (Q : GCObject -> GState -> Prop) g :
  heap g !! p = Some o -> Q o g -> wp (getobj p) Q g.
Proof. unfold wp, getobj. by intros ->. Qed.

Lemma wp_seq2 {A} (m m' : gc unit) (k : gc A) Q g :
  wp (m;; m') (fun _ => wp k Q) g -> wp (m;; m';; k) Q g.
Proof.
  unfold wp, mbind, stres_bind. destruct (m g) as [[[] g']|e]; [|done].
  by destruct (m' g') as [[[] g'']|e].
Qed.

Lemma wp_ok {A} (m : gc A) Q g : wp m Q g -> exists a g', m g = Ok (a, g') /\ Q a g'.
Proof. unfold wp. destruct (m g) as [[a g']|e]; [eauto|done]. Qed.

(** one step of a computation *)
Ltac wp_step :=
  lazymatch goal with
  | |- wp (mbind _ _) _ _ => apply wp_bind
  | |- wp (mret _) _ _ => apply wp_ret
  | |- wp (gets _) _ _ => apply wp_gets
  | |- wp (modify _) _ _ => apply wp_modify
  | |- wp (let _ := _ in _) _ _ => cbv zeta; wp_step
  end; cbv beta.

Lemma wp_getmarked p o (Q : Z -> GState -> Prop) g :
  heap g !! p = Some o -> Q (marked o) g -> wp (getmarked p) Q g.
Proof. intros E H. unfold getmarked. wp_step. eapply wp_getobj; [done|]. by wp_step. Qed.

Lemma wp_mark_with p o f (Q : unit -> GState -> Prop) g :
  heap g !! p = Some o ->
  Q tt (on_heap (insert p (set_marked (f (marked o)) o)) g) -> wp (mark_with p f) Q g.
Proof. intros E H. unfold mark_with. wp_step. eapply wp_getobj; [done|]. by wp_step. Qed.

Lemma wp_putbody p o b (Q : unit -> GState -> Prop) g :
  heap g !! p = Some o ->
  Q tt (on_heap (insert p (set_body b o)) g) -> wp (putbody p b) Q g.
Proof. intros E H. unfold putbody. wp_step. eapply wp_getobj; [done|]. by wp_step. Qed.

Lemma wp_gco2h p m h (Q : Table -> GState -> Prop) g :
  heap g !! p = Some (mkObj m (BTable h)) -> Q h g -> wp (gco2h p) Q g.
Proof. intros E H. unfold gco2h. wp_step. eapply wp_getobj; [done|]. exact H. Qed.

Lemma wp_gco2th p m h (Q : Thread -> GState -> Prop) g :
  heap g !! p = Some (mkObj m (BThread h)) -> Q h g -> wp (gco2th p) Q g.
Proof. intros E H. unfold gco2th. wp_step. eapply wp_getobj; [done|]. exact H. Qed.

Lemma wp_gco2uv p m h (Q : UpVal -> GState -> Prop) g :
  heap g !! p = Some (mkObj m (BUpVal h)) -> Q h g -> wp (gco2uv p) Q g.
Proof. intros E H. unfold gco2uv. wp_step. eapply wp_getobj; [done|]. exact H. Qed.

Lemma wp_gco2u p m h (Q : Udata -> GState -> Prop) g :
  heap g !! p = Some (mkObj m (BUdata h)) -> Q h g -> wp (gco2u p) Q g.
Proof. intros E H. unfold gco2u. wp_step. eapply wp_getobj; [done|]. exact H. Qed.

Lemma wp_gco2ts p m h (Q : StringObj -> GState -> Prop) g :
  heap g !! p = Some (mkObj m (BString h)) -> Q h g -> wp (gco2ts p) Q g.
Proof. intros E H. unfold gco2ts. wp_step. eapply wp_getobj; [done|]. exact H. Qed.

Lemma wp_gco2p p m h (Q : ProtoObj -> GState -> Prop) g :
  heap g !! p = Some (mkObj m (BProto h)) -> Q h g -> wp (gco2p p) Q g.
Proof. intros E H. unfold gco2p. wp_step. eapply wp_getobj; [done|]. exact H. Qed.

(** a loop keeps an invariant that also covers the elements done so far *)
Lemma wp_for_each {A} (l : list A) (f : A -> gc unit) (I : list A -> GState -> Prop) Q g :
  I [] g ->
  (forall pre x rest g, l = pre ++ x :: rest -> I pre g -> wp (f x) (fun _ => I (pre ++ [x])) g) ->
  (forall g, I l g -> Q tt g) ->
  wp (for_each l f) Q g.
Proof.
  intros H0 Hstep Hend.
  assert (forall rest pre g, l = pre ++ rest -> I pre g -> wp (for_each rest f) Q g) as G.
  { induction rest as [|x rest IH]; intros pre g' E HI; simpl.
    - apply Hend. by rewrite E, app_nil_r.
    - wp_step. eapply wp_mono; [by eapply Hstep|]. intros [] g'' HI'. simpl.
      apply (IH (pre ++ [x])); [|done]. by rewrite <- app_assoc. }
  by apply (G l []).
Qed.

(** ** Colours

    The tests and changes of the mark byte, bit by bit. *)

Lemma land_pow2 m b : 0 <= b -> Z.land m (2 ^ b) = if Z.testbit m b then 2 ^ b else 0.
Proof.
  intros Hb. apply Z.bits_inj'. intros n Hn. rewrite Z.land_spec, Z.pow2_bits_eqb by done.
  destruct (Z.eqb_spec b n) as [<-|Hne].
  - rewrite andb_true_r. destruct (Z.testbit m b); [|by rewrite Z.bits_0].
    by rewrite Z.pow2_bits_eqb, Z.eqb_refl.
  - rewrite andb_false_r. destruct (Z.testbit m b); [|by rewrite Z.bits_0].
    rewrite Z.pow2_bits_eqb by done. symmetry. by apply Z.eqb_neq.
Qed.

Lemma testbit_eq m b : 0 <= b -> testbit m b = Z.testbit m b.
Proof.
  intros Hb. unfold testbit, testbits, bitmask. rewrite Z.shiftl_1_l, land_pow2 by done.
  destruct (Z.testbit m b); [|done].
  assert (2 ^ b <> 0) by (apply Z.pow_nonzero; lia). by rewrite (proj2 (Z.eqb_neq _ _)).
Qed.

Lemma iswhite_eq m : iswhite m = Z.testbit m 0 || Z.testbit m 1.
Proof.
  unfold iswhite, test2bits, testbits. change (bit2mask WHITE0BIT WHITE1BIT) with (Z.lor (2 ^ 0) (2 ^ 1)).
  rewrite Z.land_lor_distr_r, !land_pow2 by lia. by destruct (Z.testbit m 0), (Z.testbit m 1).
Qed.

Lemma isblack_eq m : isblack m = Z.testbit m 2.
Proof. by apply testbit_eq. Qed.

Definition white_ok (g : GState) : Prop := currentwhite g = 33 \/ currentwhite g = 34.

(** the white bit of objects that the next sweep frees *)
Definition deadbit (g : GState) : Z := if currentwhite g =? 33 then 1 else 0.

(** [sweeplist] frees an object with this mark *)
Definition dead (g : GState) (m : Z) : bool := Z.testbit m (deadbit g) && negb (Z.testbit m FIXEDBIT).

Lemma isdead_eq g m : white_ok g -> isdead g m = Z.testbit m (deadbit g).
Proof.
  unfold isdead, otherwhite, deadbit. intros [-> | ->]; cbn [Z.eqb Pos.eqb].
  - rewrite <- Z.land_assoc. change (Z.land (Z.lxor 33 WHITEBITS) WHITEBITS) with (2 ^ 1).
    rewrite land_pow2 by lia. by destruct (Z.testbit m 1).
  - rewrite <- Z.land_assoc. change (Z.land (Z.lxor 34 WHITEBITS) WHITEBITS) with (2 ^ 0).
    rewrite land_pow2 by lia. by destruct (Z.testbit m 0).
Qed.

Lemma dead_eq g m : white_ok g -> testbits (Z.lxor m WHITEBITS) (otherwhite g) = negb (dead g m).
Proof.
  unfold dead, otherwhite, deadbit, testbits. intros [-> | ->]; cbn [Z.eqb Pos.eqb].
  - change (Z.lxor 33 WHITEBITS) with (Z.lor (2 ^ 1) (2 ^ 5)).
    rewrite Z.land_lor_distr_r, !land_pow2, !Z.lxor_spec by lia. change FIXEDBIT with 5.
    by destruct (Z.testbit m 1), (Z.testbit m 5).
  - change (Z.lxor 34 WHITEBITS) with (Z.lor (2 ^ 0) (2 ^ 5)).
    rewrite Z.land_lor_distr_r, !land_pow2, !Z.lxor_spec by lia. change FIXEDBIT with 5.
    by destruct (Z.testbit m 0), (Z.testbit m 5).
Qed.

Lemma white_bits g m b : white_ok g -> 0 <= b < 8 ->
  Z.testbit (makewhite g m) b =
    if b =? 1 - deadbit g then true else if b <=? 2 then false else Z.testbit m b.
Proof.
  intros W Hb. unfold makewhite, gafqC_white, deadbit, u8.
  change 256 with (2 ^ 8). rewrite <- !Z.land_ones by lia.
  rewrite Z.land_spec, Z.lor_spec, !Z.land_spec.
  replace (Z.testbit (Z.ones 8) b) with true by (symmetry; apply Z.ones_spec_low; lia).
  assert (b = 0 \/ b = 1 \/ b = 2 \/ b = 3 \/ b = 4 \/ b = 5 \/ b = 6 \/ b = 7) as Hc by lia.
  destruct W as [-> | ->];
    destruct Hc as [->|[->|[->|[->|[->|[->|[->| ->]]]]]]]; cbn; by rewrite ?andb_true_r, ?andb_false_r, ?orb_false_r.
Qed.

(** every change of a mark, bit by bit *)
Lemma white2gray_bits m b : 0 <= b < 8 -> Z.testbit (white2gray m) b = if b <=? 1 then false else Z.testbit m b.
Proof.
  intros Hb. change (white2gray m) with (Z.land m 252). rewrite Z.land_spec.
  assert (b = 0 \/ b = 1 \/ b = 2 \/ b = 3 \/ b = 4 \/ b = 5 \/ b = 6 \/ b = 7) as Hc by lia.
  destruct Hc as [->|[->|[->|[->|[->|[->|[->| ->]]]]]]]; cbn; by rewrite ?andb_true_r, ?andb_false_r.
Qed.

Lemma gray2black_bits m b : 0 <= b -> Z.testbit (gray2black m) b = (b =? 2) || Z.testbit m b.
Proof.
  intros Hb. change (gray2black m) with (Z.lor m (2 ^ 2)). rewrite Z.lor_spec, Z.pow2_bits_eqb by lia.
  rewrite orb_comm. by rewrite Z.eqb_sym.
Qed.

Lemma black2gray_bits m b : 0 <= b < 8 -> Z.testbit (black2gray m) b = negb (b =? 2) && Z.testbit m b.
Proof.
  intros Hb. change (black2gray m) with (Z.land m 251). rewrite Z.land_spec.
  assert (b = 0 \/ b = 1 \/ b = 2 \/ b = 3 \/ b = 4 \/ b = 5 \/ b = 6 \/ b = 7) as Hc by lia.
  destruct Hc as [->|[->|[->|[->|[->|[->|[->| ->]]]]]]]; cbn; by rewrite ?andb_true_r, ?andb_false_r.
Qed.

Lemma markfinalized_bits m b : 0 <= b -> Z.testbit (markfinalized m) b = (b =? 3) || Z.testbit m b.
Proof.
  intros Hb. change (markfinalized m) with (Z.lor m (2 ^ 3)). rewrite Z.lor_spec, Z.pow2_bits_eqb by lia.
  rewrite orb_comm. by rewrite Z.eqb_sym.
Qed.

Lemma changewhite_bits m b : 0 <= b < 8 -> Z.testbit (changewhite m) b = xorb (b <=? 1) (Z.testbit m b).
Proof.
  intros Hb. change (changewhite m) with (Z.lxor m 3). rewrite Z.lxor_spec.
  assert (b = 0 \/ b = 1 \/ b = 2 \/ b = 3 \/ b = 4 \/ b = 5 \/ b = 6 \/ b = 7) as Hc by lia.
  destruct Hc as [->|[->|[->|[->|[->|[->|[->| ->]]]]]]]; cbn; by rewrite ?xorb_true_r, ?xorb_false_r, ?xorb_false_l, ?xorb_true_l.
Qed.

(** the mask of [note_weak] *)
Definition weak_bits (weakkey weakvalue : bool) (m : Z) : Z :=
  u8 (Z.lor (resetbits m (Z.lor KEYWEAK VALUEWEAK))
            (Z.lor (Z.shiftl (Z.b2z weakkey) KEYWEAKBIT) (Z.shiftl (Z.b2z weakvalue) VALUEWEAKBIT))).

Lemma weak_bits_bits kw vw m b : 0 <= b < 8 ->
  Z.testbit (weak_bits kw vw m) b = if b =? 3 then kw else if b =? 4 then vw else Z.testbit m b.
Proof.
  intros Hb. unfold weak_bits, u8. change 256 with (2 ^ 8). rewrite <- !Z.land_ones by lia.
  change (resetbits m (Z.lor KEYWEAK VALUEWEAK)) with (Z.land m 231).
  rewrite !Z.land_spec, Z.lor_spec, Z.land_spec.
  replace (Z.testbit (Z.ones 8) b) with true by (symmetry; apply Z.ones_spec_low; lia).
  assert (b = 0 \/ b = 1 \/ b = 2 \/ b = 3 \/ b = 4 \/ b = 5 \/ b = 6 \/ b = 7) as Hc by lia.
  destruct kw, vw, Hc as [->|[->|[->|[->|[->|[->|[->| ->]]]]]]]; cbn;
    by rewrite ?andb_true_r, ?andb_false_r, ?orb_false_r.
Qed.

(** the colour after each change *)
Lemma white2gray_white m : iswhite (white2gray m) = false.
Proof. by rewrite iswhite_eq, !white2gray_bits. Qed.
Lemma white2gray_black m : isblack (white2gray m) = isblack m.
Proof. by rewrite !isblack_eq, white2gray_bits. Qed.
Lemma gray2black_white m : iswhite (gray2black m) = iswhite m.
Proof. by rewrite !iswhite_eq, !gray2black_bits. Qed.
Lemma gray2black_black m : isblack (gray2black m) = true.
Proof. by rewrite isblack_eq, gray2black_bits. Qed.
Lemma black2gray_white m : iswhite (black2gray m) = iswhite m.
Proof. by rewrite !iswhite_eq, !black2gray_bits. Qed.
Lemma black2gray_black m : isblack (black2gray m) = false.
Proof. by rewrite isblack_eq, black2gray_bits. Qed.
Lemma weak_bits_white kw vw m : iswhite (weak_bits kw vw m) = iswhite m.
Proof. by rewrite !iswhite_eq, !weak_bits_bits. Qed.
Lemma weak_bits_black kw vw m : isblack (weak_bits kw vw m) = isblack m.
Proof. by rewrite !isblack_eq, weak_bits_bits. Qed.
Lemma deadbit_cases g : deadbit g = 0 \/ deadbit g = 1.
Proof. unfold deadbit. destruct (_ =? _); auto. Qed.
Lemma makewhite_white g m : white_ok g -> iswhite (makewhite g m) = true.
Proof.
  intros W. rewrite iswhite_eq, !white_bits by (done || lia). by destruct (deadbit_cases g) as [-> | ->].
Qed.
Lemma makewhite_black g m : white_ok g -> isblack (makewhite g m) = false.
Proof. intros W. rewrite isblack_eq, white_bits by (done || lia). by destruct (deadbit_cases g) as [-> | ->]. Qed.
Lemma makewhite_dead g m : white_ok g -> Z.testbit (makewhite g m) (deadbit g) = false.
Proof.
  intros W. destruct (deadbit_cases g) as [E|E]; rewrite white_bits by (done || lia); by rewrite E.
Qed.

Create HintDb colour.
#[export] Hint Rewrite white2gray_white white2gray_black gray2black_white gray2black_black
  black2gray_white black2gray_black weak_bits_white weak_bits_black : colour.
