(* ===== verification/GcInv.v ===== *)
(** * The invariant of the mark phase

    [body_refs]: the references an object holds, with the type each must have.
    [tricolour D g]: every object that is neither white nor still to be traversed
    (in the list [gray], or in [D]) refers to no white object.  [msim]: what marking
    leaves unchanged. *)

From stdpp Require Import gmap sets.
From S2P Require Import Prelude Number Object Table Heap Tm Gc Func GcSweep GcLogic.

(** ** References *)

Definition ref : Type := pointer * Z.

Definition val_refs (v : TValue) : list ref :=
  if iscollectable v then [(gcvalue v, ttype v)] else [].

Definition opt_refs (tag : Z) (p : option pointer) : list ref :=
  match p with Some p => [(p, tag)] | None => [] end.

Definition node_refs (keys vals : bool) (n : Node) : list ref :=
  if ttisnil (i_val n) then []
  else (if keys then val_refs (i_key n) else []) ++ (if vals then val_refs (i_val n) else []).

(** the references of a table, with or without its keys and its values *)
Definition table_refs (keys vals : bool) (t : Table) : list ref :=
  opt_refs GAFQ_TTABLE (metatable t) ++
  (if vals then array t ≫= val_refs else []) ++
  (node t ≫= node_refs keys vals).

Definition proto_refs (p : ProtoObj) : list ref :=
  opt_refs GAFQ_TSTRING (p_source p) ++ (p_k p ≫= val_refs) ++
  (p_upvalues p ≫= opt_refs GAFQ_TSTRING) ++ (p_p p ≫= opt_refs GAFQ_TPROTO) ++
  (p_locvars p ≫= fun v => opt_refs GAFQ_TSTRING v.1.1).

Definition thread_refs (th : Thread) : list ref :=
  val_refs (l_gt th) ++ (take (Z.to_nat (top th)) (stack th) ≫= val_refs).

(** the value in a slot of the stack of [th] *)
Definition slot_of (g : GState) (th : pointer) (level : Z) : TValue :=
  match heap g !! th with
  | Some (mkObj _ (BThread t)) => vget VNil (stack t) level
  | _ => VNil
  end.

Definition upval_refs (g : GState) (uv : UpVal) : list ref :=
  match uv with
  | UClosed v => val_refs v
  | UOpen th level _ _ => val_refs (slot_of g th level)
  end.

Definition body_refs (g : GState) (b : Body) : list ref :=
  match b with
  | BString _ => []
  | BUdata u => opt_refs GAFQ_TTABLE (u_metatable u) ++ [(u_env u, GAFQ_TTABLE)]
  | BCClosure env _ upvalue => (env, GAFQ_TTABLE) :: (upvalue ≫= val_refs)
  | BLClosure env p upvals =>
      (env, GAFQ_TTABLE) :: (p, GAFQ_TPROTO) :: (upvals ≫= opt_refs GAFQ_TUPVAL)
  | BTable t => table_refs true true t
  | BProto p => proto_refs p
  | BUpVal uv => upval_refs g uv
  | BThread th => thread_refs th
  end.

(** ... and those that a traversal marks: a table that stays gray after it is weak *)
Definition scan_refs (g : GState) (o : GCObject) : list ref :=
  match body o with
  | BTable t =>
      if isblack (marked o) then table_refs true true t
      else table_refs (negb (Z.testbit (marked o) KEYWEAKBIT)) (negb (Z.testbit (marked o) VALUEWEAKBIT)) t
  | b => body_refs g b
  end.

(** the reference leads to an allocated object of its type *)
Definition typed (g : GState) (r : ref) : Prop :=
  exists o, heap g !! r.1 = Some o /\ body_tt (body o) = r.2.

Definition allrefs (g : GState) : Prop :=
  forall p o, heap g !! p = Some o -> Forall (typed g) (body_refs g (body o)).

(** ** Shape *)

Definition stack_lim (th : Thread) : Z :=
  foldl (fun lim ci => if lim <? ci_top ci then ci_top ci else lim) (top th) (cis th).

Definition thread_ok (th : Thread) : Prop := 0 <= top th /\ stack_lim th < stacksize th.

Definition body_ok (g : GState) (b : Body) : Prop :=
  match b with
  | BLClosure _ _ upvals => Forall is_Some upvals
  | BUpVal (UOpen th level _ _) =>
      exists m t, heap g !! th = Some (mkObj m (BThread t)) /\ 0 <= level < top t
  | BThread th => thread_ok th
  | _ => True
  end.

Definition shape (g : GState) : Prop :=
  forall p o, heap g !! p = Some o -> body_ok g (body o).

(** ** What marking leaves unchanged *)

Definition node_sim (n n' : Node) : Prop :=
  i_val n' = i_val n /\ next n' = next n /\ (ttisnil (i_val n) = false -> i_key n' = i_key n).

Inductive body_sim : Body -> Body -> Prop :=
  | sim_refl b : body_sim b b
  | sim_table t t' :
      metatable t' = metatable t -> array t' = array t -> Forall2 node_sim (node t) (node t') ->
      body_sim (BTable t) (BTable t')
  | sim_thread th th' :
      top th' = top th -> cis th' = cis th -> l_gt th' = l_gt th -> openupval th' = openupval th ->
      take (Z.to_nat (top th)) (stack th') = take (Z.to_nat (top th)) (stack th) ->
      (thread_ok th -> thread_ok th') ->
      body_sim (BThread th) (BThread th').

(** a mark loses white bits, never gets one *)
Definition mark_le (m m' : Z) : Prop :=
  (iswhite m = false -> iswhite m' = false) /\
  (Z.testbit m' 0 = true -> Z.testbit m 0 = true) /\
  (Z.testbit m' 1 = true -> Z.testbit m 1 = true) /\
  Z.testbit m' FIXEDBIT = Z.testbit m FIXEDBIT.

Definition obj_sim (o o' : GCObject) : Prop :=
  mark_le (marked o) (marked o') /\ body_sim (body o) (body o').

(** the fields that marking does not touch *)
Definition frame (g : GState) :=
  (strt g, nuse g, currentwhite g, gcstate g, sweepstrgc g, rootgc g, sweepgc g, tmudata g,
   (l_registry g, mainthread g, uvprev g, uvnext g, mt g, tmname g)).

Record msim (g g' : GState) : Prop := {
  ms_frame : frame g' = frame g;
  ms_heap p : match heap g !! p, heap g' !! p with
              | Some o, Some o' => obj_sim o o'
              | None, None => True
              | _, _ => False
              end
}.

Lemma node_sim_refl n : node_sim n n.
Proof. done. Qed.

Lemma node_sim_trans n1 n2 n3 : node_sim n1 n2 -> node_sim n2 n3 -> node_sim n1 n3.
Proof.
  intros (V1 & N1 & K1) (V2 & N2 & K2). split; [congruence|]. split; [congruence|].
  intros H. rewrite K2; [by apply K1|congruence].
Qed.

Lemma body_sim_trans b1 b2 b3 : body_sim b1 b2 -> body_sim b2 b3 -> body_sim b1 b3.
Proof.
  intros [|t t' M A N|th th' T C G O S W]; intros H; [done| |]; inversion H; subst.
  - by constructor.
  - constructor; [congruence|congruence|]. eapply Forall2_trans; eauto using node_sim_trans.
  - by constructor.
  - constructor; try congruence; auto.
Qed.

Lemma mark_le_refl m : mark_le m m.
Proof. done. Qed.

Lemma mark_le_trans m1 m2 m3 : mark_le m1 m2 -> mark_le m2 m3 -> mark_le m1 m3.
Proof. intros (A1 & B1 & C1 & D1) (A2 & B2 & C2 & D2). repeat split; auto; congruence. Qed.

Lemma msim_refl g : msim g g.
Proof.
  split; [done|]. intros p. destruct (heap g !! p); [|done]. split; [apply mark_le_refl|constructor].
Qed.

Lemma msim_trans g1 g2 g3 : msim g1 g2 -> msim g2 g3 -> msim g1 g3.
Proof.
  intros [F1 H1] [F2 H2]. split; [congruence|]. intros p. specialize (H1 p). specialize (H2 p).
  destruct (heap g1 !! p), (heap g2 !! p), (heap g3 !! p); try done.
  destruct H1, H2. split; [by eapply mark_le_trans|by eapply body_sim_trans].
Qed.

Lemma msim_fwd g g' p o :
  msim g g' -> heap g !! p = Some o -> exists o', heap g' !! p = Some o' /\ obj_sim o o'.
Proof.
  intros [_ H] E. specialize (H p). rewrite E in H. destruct (heap g' !! p); [eauto|done].
Qed.

Lemma msim_bwd g g' p o' :
  msim g g' -> heap g' !! p = Some o' -> exists o, heap g !! p = Some o /\ obj_sim o o'.
Proof.
  intros [_ H] E. specialize (H p). rewrite E in H. destruct (heap g !! p); [eauto|done].
Qed.

(** the change of one object *)
Lemma msim_update g f p o o' :
  heap g !! p = Some o -> obj_sim o o' -> frame (f g) = frame g -> heap (f g) = <[p := o']> (heap g) ->
  msim g (f g).
Proof.
  intros E S F H. split; [done|]. intros q. rewrite H. destruct (decide (p = q)) as [->|Hne].
  - by rewrite lookup_insert_eq, E.
  - rewrite lookup_insert_ne by done. apply msim_refl.
Qed.

(** a change of the lists only *)
Lemma msim_lists g g' : frame g' = frame g -> heap g' = heap g -> msim g g'.
Proof. intros F H. split; [done|]. intros p. rewrite H. apply msim_refl. Qed.

Lemma body_sim_tt b b' : body_sim b b' -> body_tt b' = body_tt b.
Proof. by intros []. Qed.

Lemma typed_sim g g' r : msim g g' -> typed g r -> typed g' r.
Proof.
  intros S (o & E & T). destruct (msim_fwd _ _ _ _ S E) as (o' & E' & _ & B).
  exists o'. split; [done|]. by rewrite (body_sim_tt _ _ B).
Qed.

Lemma vget_same_take {A} (d : A) l l' n i :
  take n l' = take n l -> 0 <= i < Z.of_nat n -> vget d l' i = vget d l i.
Proof.
  intros E Hi. unfold vget. destruct (Z.ltb_spec i 0); [lia|]. rewrite !nth_lookup.
  rewrite <- (lookup_take_lt l' n), <- (lookup_take_lt l n) by lia. by rewrite E.
Qed.

Lemma slot_sim g g' th level m t :
  msim g g' -> heap g !! th = Some (mkObj m (BThread t)) -> 0 <= level < top t ->
  slot_of g' th level = slot_of g th level.
Proof.
  intros S E L. destruct (msim_fwd _ _ _ _ S E) as ([m' b'] & E' & _ & B). simpl in B.
  unfold slot_of. rewrite E, E'.
  inversion B as [|? ?|? th' T C G O K W]; subst; [done|].
  apply (vget_same_take VNil _ _ (Z.to_nat (top t))); [exact K|lia].
Qed.

Lemma node_refs_sim k v n n' : node_sim n n' -> node_refs k v n' = node_refs k v n.
Proof.
  intros (V & _ & K). unfold node_refs. rewrite V. destruct (ttisnil (i_val n)); [done|]. by rewrite K.
Qed.

Lemma table_refs_sim k v t t' :
  metatable t' = metatable t -> array t' = array t -> Forall2 node_sim (node t) (node t') ->
  table_refs k v t' = table_refs k v t.
Proof.
  intros M A N. unfold table_refs. rewrite M, A. do 2 f_equal.
  induction N as [|n n' l l' Hn _ IH]; [done|]. rewrite !bind_cons, IH. by rewrite (node_refs_sim _ _ n).
Qed.

Lemma body_refs_sim g g' b b' :
  msim g g' -> body_ok g b -> body_sim b b' -> body_refs g' b' = body_refs g b.
Proof.
  intros S W B. revert W. destruct B as [b0|t t' M A N|th th' T C G O K W']; intros W.
  - destruct b0 as [| | | | | |[th lv pr nx|v]|]; try done. simpl in *.
    destruct W as (m & t & E & L). by rewrite (slot_sim g g' th lv m t).
  - simpl. by apply table_refs_sim.
  - simpl. unfold thread_refs. by rewrite T, G, K.
Qed.

Lemma body_ok_sim g g' b b' : msim g g' -> body_ok g b -> body_sim b b' -> body_ok g' b'.
Proof.
  intros S W B. revert W. destruct B as [b0|t t' M A N|th th' T C G O K W']; intros W; [|done|].
  - destruct b0 as [| | | | | |[th lv pr nx|v]|]; try done. simpl in *.
    destruct W as (m & t & E & L). destruct (msim_fwd _ _ _ _ S E) as ([m' b'] & E' & _ & B). simpl in B.
    inversion B as [|? ?|? th' T C G O K W]; subst; [eauto|]. exists m', th'. split; [done|]. lia.
  - simpl in *. auto.
Qed.

Lemma shape_sim g g' : msim g g' -> shape g -> shape g'.
Proof.
  intros S H p o' E'. destruct (msim_bwd _ _ _ _ S E') as (o & E & _ & B).
  eapply body_ok_sim; eauto.
Qed.

Lemma allrefs_sim g g' : msim g g' -> shape g -> allrefs g -> allrefs g'.
Proof.
  intros S W H p o' E'. destruct (msim_bwd _ _ _ _ S E') as (o & E & _ & B).
  rewrite (body_refs_sim g g' (body o)) by eauto.
  eapply Forall_impl; [by eapply H|]. intros r. by apply typed_sim.
Qed.

(** ** The tri-colour invariant *)

Definition nonwhite (g : GState) (p : pointer) : Prop :=
  exists o, heap g !! p = Some o /\ iswhite (marked o) = false.

Definition scanned (g : GState) (p : pointer) (o : GCObject) : Prop :=
  Forall (fun r => nonwhite g r.1) (scan_refs g o) /\
  (isblack (marked o) = false -> body_tt (body o) = GAFQ_TTABLE -> p ∈ weak g).

(** [D]: the objects besides the gray list that have to be traversed again *)
Definition tricolour (D : pointer -> Prop) (g : GState) : Prop :=
  forall p o, heap g !! p = Some o -> iswhite (marked o) = false ->
    p ∈ gray g \/ D p \/ scanned g p o.

Definition container (b : Body) : Prop :=
  match b with BString _ | BUdata _ | BUpVal _ => False | _ => True end.

(** an open upvalue *)
Definition is_open (b : Body) : Prop :=
  match b with BUpVal (UOpen _ _ _ _) => True | _ => False end.

Definition lists (g : GState) : list pointer := gray g ++ grayagain g ++ weak g.

(** an object is in one of the lists at most, and is gray ([x] excepted, the
    object that is being traversed) *)
Record queued (x : option pointer) (g : GState) : Prop := {
  q_nodup : NoDup (lists g);
  q_member p : p ∈ lists g -> exists o, heap g !! p = Some o /\ iswhite (marked o) = false /\
                 container (body o) /\ (x <> Some p -> isblack (marked o) = false);
  q_weak p : p ∈ weak g -> exists m t, heap g !! p = Some (mkObj m (BTable t));
  q_excl p o : heap g !! p = Some o -> iswhite (marked o) = true \/ is_open (body o) ->
                 isblack (marked o) = false;
  q_thread p m t : heap g !! p = Some (mkObj m (BThread t)) -> iswhite m = false -> x <> Some p ->
                 p ∈ gray g \/ p ∈ grayagain g
}.

Record inv (D : pointer -> Prop) (x : option pointer) (g : GState) : Prop := {
  i_refs : allrefs g;
  i_shape : shape g;
  i_tri : tricolour D g;
  i_queued : queued x g
}.

(** the objects that marking has not finished with *)
Definition todo (g : GState) (p : pointer) : Prop :=
  exists o, heap g !! p = Some o /\ (iswhite (marked o) = true \/ p ∈ gray g).

Record marks (g g' : GState) : Prop := {
  mk_sim : msim g g';
  mk_todo p : todo g' p -> todo g p;
  mk_keep p o o' : heap g !! p = Some o -> heap g' !! p = Some o' -> container (body o) ->
    iswhite (marked o) = false -> marked o' = marked o;
  mk_gray : gray g ⊆ gray g';
  mk_again : grayagain g' = grayagain g;
  mk_weak : weak g' = weak g
}.

Lemma marks_refl g : marks g g.
Proof. split; try done; [apply msim_refl|]. intros p o o' E E'. by simplify_eq. Qed.

Lemma body_sim_container b b' : body_sim b b' -> container b -> container b'.
Proof. by intros []. Qed.

Lemma body_sim_open b b' : body_sim b b' -> is_open b' <-> is_open b.
Proof. by intros []. Qed.

Lemma marks_trans g1 g2 g3 : marks g1 g2 -> marks g2 g3 -> marks g1 g3.
Proof.
  intros [S1 T1 K1 G1 A1 W1] [S2 T2 K2 G2 A2 W2].
  split; [by eapply msim_trans|auto| |set_solver|congruence|congruence].
  intros p o1 o3 E1 E3 C W. destruct (msim_fwd _ _ _ _ S1 E1) as (o2 & E2 & L & B).
  rewrite (K2 p o2 o3), (K1 p o1 o2); eauto using body_sim_container. by apply L.
Qed.

Lemma nonwhite_sim g g' p : msim g g' -> nonwhite g p -> nonwhite g' p.
Proof.
  intros S (o & E & W). destruct (msim_fwd _ _ _ _ S E) as (o' & E' & (M & _) & _). exists o'. auto.
Qed.

Lemma scan_refs_sim g g' o o' :
  msim g g' -> body_ok g (body o) -> body_sim (body o) (body o') -> marked o' = marked o ->
  scan_refs g' o' = scan_refs g o.
Proof.
  intros S W B M. unfold scan_refs. rewrite M.
  inversion B as [b Eb Eb'|t t' Mt A N Eb Eb'|th th' T C G O K W' Eb Eb']; subst.
  - destruct (body o); try done; eapply body_refs_sim; eauto using body_sim.
  - rewrite !(table_refs_sim _ _ t t') by done. done.
  - simpl. unfold thread_refs. by rewrite T, G, K.
Qed.

Lemma scanned_sim g g' p o o' :
  msim g g' -> weak g ⊆ weak g' -> body_ok g (body o) -> body_sim (body o) (body o') ->
  marked o' = marked o -> scanned g p o -> scanned g' p o'.
Proof.
  intros S L W B M [H1 H2]. split.
  - rewrite (scan_refs_sim g g' o o') by done. eapply Forall_impl; [done|].
    intros r. by apply nonwhite_sim.
  - rewrite M, (body_sim_tt _ _ B). set_solver.
Qed.

(** a change of the mark that does not matter: of a white object, or one that is not a table *)
Definition recoloured (o o' : GCObject) : Prop :=
  iswhite (marked o') = true \/ iswhite (marked o) = false /\ body_tt (body o) <> GAFQ_TTABLE.

Lemma scanned_recoloured g g' p o o' :
  msim g g' -> weak g ⊆ weak g' -> body_ok g (body o) -> body_sim (body o) (body o') ->
  body_tt (body o) <> GAFQ_TTABLE -> scanned g p o -> scanned g' p o'.
Proof.
  intros S L W B M [H1 H2]. split.
  - replace (scan_refs g' o') with (scan_refs g o); [by eapply Forall_impl; [done|]; intros r; apply nonwhite_sim|].
    pose proof (body_refs_sim g g' _ _ S W B) as E. pose proof (body_sim_tt _ _ B) as T.
    unfold scan_refs. destruct (body o), (body o'); try done; by rewrite E.
  - rewrite (body_sim_tt _ _ B). done.
Qed.

(** one object changes, and objects may be added to the lists *)
Lemma tricolour_step D g g' p o o' :
  tricolour D g -> shape g -> heap g !! p = Some o -> obj_sim o o' ->
  frame g' = frame g -> heap g' = <[p := o']> (heap g) ->
  gray g ⊆ gray g' -> weak g ⊆ weak g' ->
  marked o' = marked o \/ p ∈ gray g' \/ D p \/ scanned g' p o' \/ recoloured o o' ->
  tricolour D g'.
Proof.
  intros T Sh E Si F H LG LW Hp.
  assert (msim g g') as S by (eapply (msim_update g (fun _ => g')); eauto).
  intros q oq Eq Wq. rewrite H in Eq. destruct (decide (p = q)) as [->|Hne].
  - rewrite lookup_insert_eq in Eq. injection Eq as <-.
    destruct Hp as [M|[?|[?|[?|[?|[Wo Ht]]]]]]; [|tauto|tauto|tauto|congruence|].
    + rewrite M in Wq. destruct (T q o E Wq) as [?|[?|Hs]]; [left; set_solver|tauto|].
      right; right. eapply scanned_sim; eauto. apply Si.
    + destruct (T q o E Wo) as [?|[?|Hs]]; [left; set_solver|tauto|].
      right; right. eapply scanned_recoloured; eauto. apply Si.
  - rewrite lookup_insert_ne in Eq by done.
    destruct (T q oq Eq Wq) as [?|[?|Hs]]; [left; set_solver|tauto|].
    right; right. eapply scanned_sim; eauto using body_sim.
Qed.

Lemma tricolour_drop (D D' : pointer -> Prop) g :
  tricolour D g ->
  (forall p o, D p -> heap g !! p = Some o -> iswhite (marked o) = false ->
     p ∈ gray g \/ D' p \/ scanned g p o) ->
  tricolour D' g.
Proof. intros T H p o E W. destruct (T p o E W) as [?|[?|?]]; auto. Qed.

Lemma tricolour_weaken (D D' : pointer -> Prop) g :
  tricolour D g -> (forall p, D p -> D' p) -> tricolour D' g.
Proof. intros T H. eapply tricolour_drop; eauto. Qed.

(** one object changes, the lists stay *)
Lemma queued_step x g g' p o o' :
  queued x g -> heap g !! p = Some o -> obj_sim o o' -> heap g' = <[p := o']> (heap g) ->
  lists g' = lists g -> weak g' = weak g ->
  (p ∈ lists g -> x <> Some p -> isblack (marked o') = false) ->
  (iswhite (marked o') = true \/ is_open (body o') -> isblack (marked o') = false) ->
  (container (body o) -> iswhite (marked o) = true -> iswhite (marked o') = true) ->
  gray g' = gray g -> grayagain g' = grayagain g ->
  queued x g'.
Proof.
  intros [N M Wk X Th] E [Sm Sb] H L LW Hb Hx Hc HG HA. split.
  - by rewrite L.
  - intros q Hq. rewrite L in Hq. destruct (M q Hq) as (oq & Eq & Wq & Cq & Bq). rewrite H.
    destruct (decide (p = q)) as [->|Hne].
    + rewrite lookup_insert_eq. simplify_eq. exists o'. split; [done|]. split; [by apply Sm|].
      split; [|auto]. destruct Sb; simpl in *; try done.
    + rewrite lookup_insert_ne by done. eauto 10.
  - intros q Hq. rewrite LW in Hq. destruct (Wk q Hq) as (m & t & Eq). rewrite H.
    destruct (decide (p = q)) as [->|Hne].
    + rewrite lookup_insert_eq. simplify_eq. simpl in Sb. destruct o' as [m' b']. simpl in Sb.
      inversion Sb; subst; eauto.
    + rewrite lookup_insert_ne by done. eauto.
  - intros q oq Eq. rewrite H in Eq. destruct (decide (p = q)) as [->|Hne].
    + rewrite lookup_insert_eq in Eq. by simplify_eq.
    + rewrite lookup_insert_ne in Eq by done. eauto.
  - intros q m t Eq Wq Hq. rewrite HG, HA. rewrite H in Eq. destruct (decide (p = q)) as [->|Hne].
    + rewrite lookup_insert_eq in Eq. injection Eq as ->. destruct o as [m0 b0]. simpl in *.
      assert (iswhite m0 = false) as W0.
      { destruct (iswhite m0) eqn:W0; [|done]. rewrite Hc in Wq; [done| |done]. inversion Sb; subst; done. }
      inversion Sb as [b Eb Eb'| |th th' ? ? ? ? ? ? Eb Eb']; subst; by eapply Th.
    + rewrite lookup_insert_ne in Eq by done. by eapply Th.
Qed.
