(* ===== verification/GcMark.v ===== *)
(** * Marking: [reallymarkobject], the traversals and [propagatemark]

    Marking an object keeps the tri-colour invariant and the queues, leaves every
    reference as it was, and never reads through a pointer that is not
    allocated.  [propagateall] ends with an empty gray list. *)

From stdpp Require Import gmap sets.
From S2P Require Import Prelude Number Object Table Heap Tm Gc Func GcSweep GcLogic GcInv.

(** ** Elementary changes *)

Lemma mark_le_white2gray m : mark_le m (white2gray m).
Proof.
  split; [intros; apply white2gray_white|].
  rewrite !white2gray_bits by (unfold FIXEDBIT; lia). done.
Qed.

Lemma mark_le_same m m' :
  iswhite m' = iswhite m -> Z.testbit m' 0 = Z.testbit m 0 -> Z.testbit m' 1 = Z.testbit m 1 ->
  Z.testbit m' FIXEDBIT = Z.testbit m FIXEDBIT -> mark_le m m'.
Proof. unfold mark_le. intros -> -> -> ->. done. Qed.

Lemma mark_le_gray2black m : mark_le m (gray2black m).
Proof. apply mark_le_same; [apply gray2black_white|..]; by rewrite gray2black_bits by (unfold FIXEDBIT; lia). Qed.

Lemma mark_le_black2gray m : mark_le m (black2gray m).
Proof. apply mark_le_same; [apply black2gray_white|..]; by rewrite black2gray_bits by (unfold FIXEDBIT; lia). Qed.

Lemma mark_le_weak_bits kw vw m : mark_le m (weak_bits kw vw m).
Proof. apply mark_le_same; [apply weak_bits_white|..]; by rewrite weak_bits_bits by (unfold FIXEDBIT; lia). Qed.

#[export] Hint Resolve mark_le_white2gray mark_le_gray2black mark_le_black2gray mark_le_weak_bits
  mark_le_refl : colour.

Lemma obj_sim_mark o m : mark_le (marked o) m -> obj_sim o (set_marked m o).
Proof. intros H. split; [done|]. constructor. Qed.

Lemma obj_sim_body o b : body_sim (body o) b -> obj_sim o (set_body b o).
Proof. intros H. split; [apply mark_le_refl|done]. Qed.

(** one object changes *)
Lemma inv_change D x g g' p o o' :
  inv D x g -> heap g !! p = Some o -> obj_sim o o' -> frame g' = frame g ->
  heap g' = <[p := o']> (heap g) ->
  gray g' = gray g -> grayagain g' = grayagain g -> weak g' = weak g ->
  marked o' = marked o \/ p ∈ gray g \/ D p \/ scanned g' p o' \/ recoloured o o' ->
  (p ∈ lists g -> x <> Some p -> isblack (marked o') = false) ->
  (iswhite (marked o') = true \/ is_open (body o') -> isblack (marked o') = false) ->
  (container (body o) -> iswhite (marked o) = true -> iswhite (marked o') = true) ->
  inv D x g'.
Proof.
  intros [R Sh T Q] E Si F H G GA W Ht Hb Hx Hc.
  assert (msim g g') as S by (eapply (msim_update g (fun _ => g')); eauto).
  split; [by eapply allrefs_sim|by eapply shape_sim|..].
  - eapply (tricolour_step D g g'); eauto; rewrite ?G, ?W; done.
  - eapply (queued_step x g g'); eauto. unfold lists. by rewrite G, GA, W.
Qed.

Lemma todo_change g g' p o o' q :
  heap g !! p = Some o -> obj_sim o o' -> heap g' = <[p := o']> (heap g) -> gray g' = gray g ->
  todo g' q -> todo g q.
Proof.
  intros E Si H G (oq & Eq & Hq). rewrite G in Hq. rewrite H in Eq. destruct (decide (p = q)) as [->|Hne].
  - rewrite lookup_insert_eq in Eq. simplify_eq. exists o. split; [done|].
    destruct Hq as [Hq|Hq]; [left|by right]. destruct Si as [[Hw _] _].
    destruct (iswhite (marked o)) eqn:Ew; [done|]. rewrite Hw in Hq; done.
  - rewrite lookup_insert_ne in Eq by done. exists oq. auto.
Qed.

(** ... that is not a queued one *)
Lemma inv_update D x g g' p o o' :
  inv D x g -> heap g !! p = Some o -> obj_sim o o' -> frame g' = frame g ->
  heap g' = <[p := o']> (heap g) ->
  gray g' = gray g -> grayagain g' = grayagain g -> weak g' = weak g ->
  marked o' = marked o \/ p ∈ gray g \/ D p \/ scanned g' p o' \/ recoloured o o' ->
  (p ∈ lists g -> x <> Some p -> isblack (marked o') = false) ->
  (iswhite (marked o') = true \/ is_open (body o') -> isblack (marked o') = false) ->
  (container (body o) -> iswhite (marked o) = false -> marked o' = marked o) ->
  (container (body o) -> iswhite (marked o) = true -> iswhite (marked o') = true) ->
  inv D x g' /\ marks g g'.
Proof.
  intros I E Si F H G GA W Ht Hb Hx Hk Hc. split; [by eapply inv_change|].
  split; [by eapply (msim_update g (fun _ => g'))|intros q; by apply (todo_change g g' p o o')| |by rewrite G|done|done].
  intros q oq oq' Eq Eq' C Wq. rewrite H in Eq'. destruct (decide (p = q)) as [->|Hne].
  - rewrite lookup_insert_eq in Eq'. simplify_eq. auto.
  - rewrite lookup_insert_ne in Eq' by done. by simplify_eq.
Qed.

(** ... and a white container is queued *)
Lemma inv_push D x g p o :
  inv D x g -> heap g !! p = Some o -> iswhite (marked o) = true -> container (body o) ->
  let g' := set_gray (on_heap (insert p (set_marked (white2gray (marked o)) o)) g) (p :: gray g) in
  inv D x g' /\ marks g g'.
Proof.
  intros [R Sh T Q] E W C g'.
  assert (obj_sim o (set_marked (white2gray (marked o)) o)) as Si by (apply obj_sim_mark; auto with colour).
  assert (msim g g') as S by (eapply (msim_update g (fun _ => g')); eauto).
  assert (p ∉ lists g) as Hp.
  { intros Hp. destruct (q_member _ _ Q p Hp) as (o' & E' & W' & _). congruence. }
  split.
  - split; [by eapply allrefs_sim|by eapply shape_sim|..].
    + eapply (tricolour_step D g g'); eauto; simpl; set_solver.
    + destruct Q as [N M Wk X Th]. split.
      * by apply NoDup_cons.
      * intros q Hq. simpl in Hq |- *. destruct (decide (p = q)) as [->|Hne].
        -- rewrite lookup_insert_eq. eexists. split; [done|]. simpl.
           autorewrite with colour. split; [done|]. split; [done|]. intros _. by apply (X q o E); left.
        -- rewrite lookup_insert_ne by done. apply M. unfold lists in Hq. simpl in Hq. set_solver.
      * intros q Hq. simpl in *. destruct (decide (p = q)) as [->|Hne].
        -- destruct Hp. unfold lists. set_solver.
        -- rewrite lookup_insert_ne by done. eauto.
      * intros q oq Eq. simpl in Eq. destruct (decide (p = q)) as [->|Hne].
        -- rewrite lookup_insert_eq in Eq. injection Eq as <-. simpl. intros _. rewrite white2gray_black. by apply (X q o E); left.
        -- rewrite lookup_insert_ne in Eq by done. eauto.
      * intros q m t Eq Wq Hq. simpl in Eq |- *. destruct (decide (p = q)) as [->|Hne]; [left; constructor|].
        rewrite lookup_insert_ne in Eq by done. destruct (Th q m t Eq Wq Hq) as [?|?]; [left; by constructor|by right].
  - split; [done| | |simpl; set_solver|done|done].
    + intros q (oq & Eq & Hq). simpl in *. destruct (decide (p = q)) as [->|Hne]; [exists o; auto|].
      rewrite lookup_insert_ne in Eq by done. exists oq. split; [done|].
      destruct Hq as [?|Hq]; [auto|]. right. set_solver.
    + intros q oq oq' Eq Eq' _ Wq. simpl in Eq'. destruct (decide (p = q)) as [->|Hne]; [congruence|].
      rewrite lookup_insert_ne in Eq' by done. by simplify_eq.
Qed.

Lemma inv_weaken (D D' : pointer -> Prop) x g : inv D x g -> (forall p, D p -> D' p) -> inv D' x g.
Proof. intros [R S T Q] H. split; eauto using tricolour_weaken. Qed.

Lemma inv_drop D x g p o :
  inv (fun q => D q \/ q = p) x g -> heap g !! p = Some o -> scanned g p o -> inv D x g.
Proof.
  intros [R S T Q] E H. split; [done|done| |done].
  eapply tricolour_drop; [done|]. intros q oq [Hq| ->] Eq _; [auto|]. simplify_eq. auto.
Qed.

(** ** Marking an object *)

(** how deep [reallymarkobject] goes from an object of this type *)
Definition rank (tag : Z) : nat :=
  if tag =? GAFQ_TUPVAL then 3 else if tag =? GAFQ_TUSERDATA then 2 else 1.

Definition markspec (D : pointer -> Prop) x (p : pointer) (m : gc unit) (g : GState) : Prop :=
  wp m (fun _ g' => inv D x g' /\ marks g g' /\ nonwhite g' p) g.

Definition mark_at (depth : nat) (t : pointer) : gc unit :=
  m ← getmarked t; if iswhite m then reallymarkobject_ depth t else mret tt.

Definition marks_at (depth : nat) : Prop := forall p o D x g,
  inv D x g -> heap g !! p = Some o -> iswhite (marked o) = true -> (rank (body_tt (body o)) <= depth)%nat ->
  markspec D x p (reallymarkobject_ depth p) g.

Lemma mark_at_spec depth D x g p tag :
  marks_at depth -> inv D x g -> typed g (p, tag) -> (rank tag <= depth)%nat ->
  markspec D x p (mark_at depth p) g.
Proof.
  intros IH I (o & E & T) R. simpl in *. unfold markspec, mark_at. wp_step.
  eapply wp_getmarked; [done|]. destruct (iswhite (marked o)) eqn:W.
  - eapply IH; eauto. by rewrite T.
  - wp_step. split; [done|]. split; [apply marks_refl|]. by exists o.
Qed.

Lemma rank_bounds tag : (1 <= rank tag <= 3)%nat.
Proof. unfold rank. repeat destruct (_ =? _); lia. Qed.

Lemma rank_value v : (rank (ttype v) <= 2)%nat.
Proof. destruct v; vm_compute; lia. Qed.

Definition nonwhite_val (g : GState) (v : TValue) : Prop := Forall (fun r => nonwhite g r.1) (val_refs v).

Lemma mark_value_spec depth D x g v :
  marks_at depth -> (2 <= depth)%nat -> inv D x g -> Forall (typed g) (val_refs v) ->
  wp (if iscollectable v then mark_at depth (gcvalue v) else mret tt)
     (fun _ g' => inv D x g' /\ marks g g' /\ nonwhite_val g' v) g.
Proof.
  intros IH Hd I T. unfold nonwhite_val, val_refs in *. destruct (iscollectable v).
  - inversion T; subst. eapply wp_mono; [eapply mark_at_spec; eauto; pose proof (rank_value v); lia|].
    intros [] g' (I' & M & N). auto.
  - wp_step. auto using marks_refl.
Qed.

Lemma set_marked_lookup g p o m : heap (on_heap (insert p (set_marked m o)) g) !! p = Some (set_marked m o).
Proof. apply lookup_insert_eq. Qed.

Lemma set_marked_twice g p o m m' :
  on_heap (insert p (set_marked m' (set_marked m o))) (on_heap (insert p (set_marked m o)) g) =
  on_heap (insert p (set_marked m' o)) g.
Proof. unfold on_heap. simpl. by rewrite insert_insert_eq. Qed.

Lemma uv_value_spec g uv (Q : TValue -> GState -> Prop) :
  body_ok g (BUpVal uv) ->
  Q (match uv with UClosed v => v | UOpen th lv _ _ => slot_of g th lv end) g ->
  wp (uv_value uv) Q g.
Proof.
  intros W H. destruct uv as [th lv pr nx|v]; simpl; [|by wp_step].
  destruct W as (m & t & E & _). wp_step. eapply wp_gco2th; [done|]. wp_step.
  unfold slot_of in H. by rewrite E in H.
Qed.

(** [p], just marked, is exempt until its references are marked *)
Lemma inv_exempt D x g p o m :
  inv D x g -> heap g !! p = Some o -> iswhite (marked o) = true -> mark_le (marked o) m ->
  iswhite m = false -> (is_open (body o) -> isblack m = false) -> ~ container (body o) ->
  let g' := on_heap (insert p (set_marked m o)) g in
  inv (fun q => D q \/ q = p) x g' /\ marks g g'.
Proof.
  intros I E W L Wm Ho Nc g'.
  apply (inv_update (fun q => D q \/ q = p) x g g' p o (set_marked m o)); auto using obj_sim_mark.
  - eapply inv_weaken; eauto.
  - intros Hp. destruct (q_member _ _ (i_queued _ _ _ I) p Hp) as (o' & E' & W' & _). congruence.
  - simpl. intros [?|?]; [congruence|auto].
  - congruence.
Qed.

Lemma body_sim_other b b' :
  body_sim b b' -> (match b with BTable _ | BThread _ => False | _ => True end) -> b' = b.
Proof. intros B H. by destruct B. Qed.

Lemma reallymark_udata d p o u D x g :
  marks_at d -> (1 <= d)%nat -> inv D x g -> heap g !! p = Some o -> iswhite (marked o) = true ->
  body o = BUdata u ->
  markspec D x p (reallymarkobject_ (S d) p) g.
Proof.
  intros IH Hd I E W B. pose proof (i_refs _ _ _ I p o E) as R. rewrite B in R. simpl in R.
  apply Forall_app in R as [R1 R2]. inversion R2; subst.
  unfold markspec. simpl. wp_step. eapply wp_mark_with; [done|]. wp_step.
  eapply wp_getobj; [apply set_marked_lookup|]. simpl. rewrite B. wp_step.
  eapply wp_mark_with; [apply set_marked_lookup|]. simpl. rewrite set_marked_twice.
  set (m := gray2black (white2gray (marked o))).
  assert (iswhite m = false) as Wm by (unfold m; by autorewrite with colour).
  destruct (inv_exempt D x g p o m) as [I1 M1]; auto.
  { apply (mark_le_trans _ (white2gray (marked o))); auto with colour. }
  { by rewrite B. }
  { rewrite B. tauto. }
  set (g1 := on_heap (insert p (set_marked m o)) g) in *.
  wp_step.
  apply (wp_mono _ (fun _ g2 => inv (fun q => D q \/ q = p) x g2 /\ marks g1 g2 /\
           Forall (fun r => nonwhite g2 r.1) (opt_refs GAFQ_TTABLE (u_metatable u)))).
  { destruct (u_metatable u) as [mtp|]; [|wp_step; auto using marks_refl].
    inversion R1; subst. eapply wp_mono.
    - apply (mark_at_spec d (fun q => D q \/ q = p) x g1 mtp GAFQ_TTABLE); eauto using typed_sim, mk_sim.
    - intros [] g2 (I2 & M2 & N2). split_and!; [done..|]. by repeat constructor. }
  intros [] g2 (I2 & M2 & N2). eapply wp_mono.
  { apply (mark_at_spec d (fun q => D q \/ q = p) x g2 (u_env u) GAFQ_TTABLE); eauto.
    eapply typed_sim; [by apply mk_sim|]. eapply typed_sim; [by apply mk_sim|done]. }
  intros [] g3 (I3 & M3 & N3). simpl.
  assert (marks g1 g3) as M13 by eauto using marks_trans.
  destruct (msim_fwd g1 g3 p _ (mk_sim _ _ M13) (set_marked_lookup g p o m)) as (o3 & E3 & L3 & B3).
  simpl in B3. rewrite B in B3. apply body_sim_other in B3; [|done].
  split; [|split; [eauto using marks_trans|]].
  - eapply inv_drop; eauto. split.
    + unfold scan_refs. rewrite B3. simpl. apply Forall_app. split; [|auto].
      eapply Forall_impl; [done|]. intros r. apply nonwhite_sim, mk_sim, M3.
    + rewrite B3. simpl. discriminate.
  - eapply nonwhite_sim; [apply mk_sim, M13|]. exists (set_marked m o). split; [apply set_marked_lookup|done].
Qed.

Lemma reallymark_upval d p o uv D x g :
  marks_at d -> (2 <= d)%nat -> inv D x g -> heap g !! p = Some o -> iswhite (marked o) = true ->
  body o = BUpVal uv ->
  markspec D x p (reallymarkobject_ (S d) p) g.
Proof.
  intros IH Hd I E W B. pose proof (i_refs _ _ _ I p o E) as R. pose proof (i_shape _ _ _ I p o E) as Sh.
  rewrite B in R, Sh. simpl in R.
  unfold markspec. simpl. wp_step. eapply wp_mark_with; [done|]. wp_step.
  eapply wp_getobj; [apply set_marked_lookup|]. simpl. rewrite B. wp_step.
  set (m := white2gray (marked o)).
  destruct (inv_exempt D x g p o m I E W) as [I1 M1]; [apply mark_le_white2gray|apply white2gray_white| |by rewrite B; intros []|].
  { intros _. unfold m. rewrite white2gray_black. by apply (q_excl _ _ (i_queued _ _ _ I) p o E); left. }
  set (g1 := on_heap (insert p (set_marked m o)) g) in *.
  pose proof (body_ok_sim g g1 _ _ (mk_sim _ _ M1) Sh (sim_refl _)) as Sh1.
  pose proof (body_refs_sim g g1 _ _ (mk_sim _ _ M1) Sh (sim_refl _)) as R1. simpl in R1.
  apply uv_value_spec; [done|].
  set (v := match uv with UClosed v => v | UOpen th lv _ _ => slot_of g1 th lv end).
  assert (val_refs v = upval_refs g1 uv) as Ev by (by destruct uv).
  wp_step. eapply wp_mono.
  { apply (mark_value_spec d (fun q => D q \/ q = p) x g1 v); auto. rewrite Ev, R1.
    eapply Forall_impl; [done|]. intros r. apply typed_sim, mk_sim, M1. }
  intros [] g2 (I2 & M2 & N2). cbv beta.
  destruct (msim_fwd g1 g2 p _ (mk_sim _ _ M2) (set_marked_lookup g p o m)) as (o2 & E2 & L2 & B2).
  simpl in B2. rewrite B in B2. apply body_sim_other in B2; [|done].
  pose proof (body_refs_sim g1 g2 _ _ (mk_sim _ _ M2) Sh1 (sim_refl _)) as R2. simpl in R2.
  assert (iswhite (marked o2) = false) as W2 by (apply L2; apply white2gray_white).
  unfold nonwhite_val in N2. rewrite Ev, <- R2 in N2.
  destruct uv as [th lv pr nx|v0].
  - wp_step. split; [|split; [eauto using marks_trans|by exists o2]].
    eapply inv_drop; eauto. split; [unfold scan_refs; rewrite B2; done|rewrite B2; discriminate].
  - eapply wp_mark_with; [done|].
    destruct (inv_update (fun q => D q \/ q = p) x g2 (on_heap (insert p (set_marked (gray2black (marked o2)) o2)) g2)
                p o2 (set_marked (gray2black (marked o2)) o2)) as [I3 M3];
      auto using obj_sim_mark with colour.
    + intros Hp. destruct (q_member _ _ (i_queued _ _ _ I2) p Hp) as (o' & E' & _ & C & _).
      simplify_eq. by rewrite B2 in C.
    + simpl. rewrite gray2black_white, B2. intros [?|[]]; congruence.
    + rewrite B2. intros [].
    + rewrite B2. intros [].
    + split; [|split; [eauto using marks_trans|]].
      * eapply inv_drop; [done|apply set_marked_lookup|]. split.
        -- unfold scan_refs. simpl. rewrite B2. eapply Forall_impl; [done|].
           intros r. apply nonwhite_sim, mk_sim, M3.
        -- simpl. rewrite B2. discriminate.
      * eexists. split; [apply set_marked_lookup|]. simpl. by rewrite gray2black_white.
Qed.

Lemma reallymark_string d p o ts D x g :
  inv D x g -> heap g !! p = Some o -> iswhite (marked o) = true -> body o = BString ts ->
  markspec D x p (reallymarkobject_ (S d) p) g.
Proof.
  intros I E W B. unfold markspec. simpl. wp_step. eapply wp_mark_with; [done|]. wp_step.
  eapply wp_getobj; [apply set_marked_lookup|]. simpl. rewrite B. wp_step.
  destruct (inv_update D x g (on_heap (insert p (set_marked (white2gray (marked o)) o)) g)
              p o (set_marked (white2gray (marked o)) o)) as [I1 M1];
    auto using obj_sim_mark with colour.
  - right; right; right; left. split; [unfold scan_refs; simpl; by rewrite B|simpl; rewrite B; discriminate].
  - intros Hp. destruct (q_member _ _ (i_queued _ _ _ I) p Hp) as (o' & E' & W' & _). congruence.
  - simpl. rewrite white2gray_white, B. by intros [?|[]].
  - rewrite B. intros [].
  - rewrite B. intros [].
  - split; [done|]. split; [done|]. eexists. split; [apply set_marked_lookup|apply white2gray_white].
Qed.

Lemma reallymark_container d p o D x g :
  inv D x g -> heap g !! p = Some o -> iswhite (marked o) = true -> container (body o) ->
  markspec D x p (reallymarkobject_ (S d) p) g.
Proof.
  intros I E W C. unfold markspec. simpl. wp_step. eapply wp_mark_with; [done|]. wp_step.
  eapply wp_getobj; [apply set_marked_lookup|]. simpl.
  destruct (inv_push D x g p o I E W C) as [I1 M1].
  assert (nonwhite (set_gray (on_heap (insert p (set_marked (white2gray (marked o)) o)) g) (p :: gray g)) p).
  { eexists. split; [apply set_marked_lookup|apply white2gray_white]. }
  destruct (body o); try done; wp_step; auto.
Qed.

Lemma reallymark_spec depth : marks_at depth.
Proof.
  induction depth as [|d IH]; intros p o D x g I E W R.
  { pose proof (rank_bounds (body_tt (body o))). lia. }
  destruct (body o) eqn:B;
    [eapply reallymark_string; eauto|eapply reallymark_udata; eauto; vm_compute in R; lia| | | | |
     eapply reallymark_upval; eauto; vm_compute in R; lia|];
    apply (reallymark_container d p o); auto; by rewrite B.
Qed.

(** ** The macros *)

Lemma reallymarkobject_spec D x g p o :
  inv D x g -> heap g !! p = Some o -> iswhite (marked o) = true ->
  markspec D x p (reallymarkobject p) g.
Proof.
  intros I E W. eapply reallymark_spec; eauto. apply rank_bounds.
Qed.

Lemma markobject_spec D x g p tag :
  inv D x g -> typed g (p, tag) -> markspec D x p (markobject p) g.
Proof.
  intros I T. apply (mark_at_spec mark_depth D x g p tag); auto using reallymark_spec.
  apply rank_bounds.
Qed.

Lemma markvalue_spec D x g v :
  inv D x g -> Forall (typed g) (val_refs v) ->
  wp (markvalue v) (fun _ g' => inv D x g' /\ marks g g' /\ nonwhite_val g' v) g.
Proof. intros I T. apply (mark_value_spec mark_depth); auto using reallymark_spec. unfold mark_depth. lia. Qed.

Lemma markopt_spec D x g tag t :
  inv D x g -> Forall (typed g) (opt_refs tag t) ->
  wp (markopt t) (fun _ g' => inv D x g' /\ marks g g' /\ Forall (fun r => nonwhite g' r.1) (opt_refs tag t)) g.
Proof.
  intros I T. destruct t as [p|]; simpl in *; [|wp_step; auto using marks_refl].
  inversion T; subst. eapply wp_mono; [by eapply markobject_spec|]. intros [] g' (I' & M & N).
  split_and!; [done..|]. by repeat constructor.
Qed.
