(* ===== verification/GcTraverse.v ===== *)
(** * Traversals: every kind of object, and [propagatemark] *)

From stdpp Require Import gmap sets.
From S2P Require Import Prelude Number Object Table Heap Tm Gc Func GcSweep GcLogic GcInv GcMark.

Definition nonwhites (g : GState) (l : list ref) : Prop := Forall (fun r => nonwhite g r.1) l.

Lemma nonwhites_sim g g' l : msim g g' -> nonwhites g l -> nonwhites g' l.
Proof. intros S H. eapply Forall_impl; [done|]. intros r. by apply nonwhite_sim. Qed.

Lemma typeds_sim g g' l : msim g g' -> Forall (typed g) l -> Forall (typed g') l.
Proof. intros S H. eapply Forall_impl; [done|]. intros r. by apply typed_sim. Qed.

(** a computation that marks the references [l] *)
Definition marking (D : pointer -> Prop) x (l : list ref) (m : gc unit) : Prop := forall g,
  inv D x g -> Forall (typed g) l ->
  wp m (fun _ g' => inv D x g' /\ marks g g' /\ nonwhites g' l) g.

Lemma marking_nil D x : marking D x [] (mret tt).
Proof. intros g I _. wp_step. split_and!; [done|apply marks_refl|constructor]. Qed.

Lemma marking_seq D x l l' m m' :
  marking D x l m -> marking D x l' m' -> marking D x (l ++ l') (m;; m').
Proof.
  intros H H' g I T. apply Forall_app in T as [T T']. wp_step. eapply wp_mono; [by apply H|].
  intros [] g1 (I1 & M1 & N1). cbv beta. eapply wp_mono.
  - apply H'; [done|]. eapply typeds_sim; [apply mk_sim, M1|done].
  - intros [] g2 (I2 & M2 & N2). split_and!; [done|eauto using marks_trans|].
    apply Forall_app. split; [|done]. eapply nonwhites_sim; [apply mk_sim, M2|done].
Qed.

Lemma marking_list {A} D x (refs : A -> list ref) (f : A -> gc unit) l :
  (forall a, marking D x (refs a) (f a)) -> marking D x (l ≫= refs) (for_each l f).
Proof.
  intros H. induction l as [|a l IH]; [apply marking_nil|]. rewrite bind_cons. by apply marking_seq.
Qed.

Lemma marking_value D x v : marking D x (val_refs v) (markvalue v).
Proof. intros g I T. by apply markvalue_spec. Qed.

Lemma marking_opt D x tag t : marking D x (opt_refs tag t) (markopt t).
Proof. intros g I T. by apply markopt_spec. Qed.

Lemma marking_object D x tag p : marking D x [(p, tag)] (markobject p).
Proof. apply (marking_opt D x tag (Some p)). Qed.

Lemma marking_if D x l (b : bool) m : (b = true -> marking D x l m) ->
  marking D x (if b then l else []) (if b then m else mret tt).
Proof. intros H. destruct b; [by apply H|apply marking_nil]. Qed.

(** [stringmark] on a string *)
Lemma marking_string D x s : marking D x [(s, GAFQ_TSTRING)] (stringmark s).
Proof.
  intros g I T. inversion T as [|? ? (o & E & B) _]; subst. simpl in *.
  eapply wp_mark_with; [done|].
  assert (exists ts, body o = BString ts) as [ts Bs].
  { destruct (body o); try discriminate B. eauto. }
  destruct (inv_update D x g (on_heap (insert s (set_marked (white2gray (marked o)) o)) g)
              s o (set_marked (white2gray (marked o)) o)) as [I1 M1];
    auto using obj_sim_mark with colour.
  - right; right; right; left. split; [unfold scan_refs; simpl; rewrite Bs; constructor|].
    simpl. rewrite Bs. discriminate.
  - intros Hp. destruct (q_member _ _ (i_queued _ _ _ I) s Hp) as (o' & E' & _ & C & _).
    simplify_eq. by rewrite Bs in C.
  - simpl. rewrite white2gray_white, Bs. by intros [?|[]].
  - rewrite Bs. intros [].
  - rewrite Bs. intros [].
  - split_and!; [done..|]. constructor; [|constructor]. eexists.
    split; [apply set_marked_lookup|apply white2gray_white].
Qed.

Lemma marking_string_opt D x s : marking D x (opt_refs GAFQ_TSTRING s) (stringmark_opt s).
Proof. destruct s; [apply marking_string|apply marking_nil]. Qed.

(** ** Prototypes and closures *)

Lemma traverseproto_spec D x g f m p :
  inv D x g -> heap g !! f = Some (mkObj m (BProto p)) ->
  wp (traverseproto f) (fun _ g' => inv D x g' /\ marks g g' /\ nonwhites g' (proto_refs p)) g.
Proof.
  intros I E. unfold traverseproto. wp_step. eapply wp_gco2p; [done|].
  assert (marking D x (proto_refs p)
    (stringmark_opt (p_source p);; for_each (p_k p) markvalue;; for_each (p_upvalues p) stringmark_opt;;
     for_each (p_p p) markopt;; for_each (p_locvars p) (fun v => stringmark_opt v.1.1))) as H.
  { unfold proto_refs.
    repeat apply marking_seq; try apply marking_string_opt; apply marking_list; intros;
      first [apply marking_value|apply marking_string_opt|apply marking_opt]. }
  apply H; [done|]. by apply (i_refs _ _ _ I f _ E).
Qed.

Lemma traverseclosure_spec D x g cl o :
  inv D x g -> heap g !! cl = Some o -> body_tt (body o) = GAFQ_TFUNCTION ->
  wp (traverseclosure cl) (fun _ g' => inv D x g' /\ marks g g' /\ nonwhites g' (body_refs g (body o))) g.
Proof.
  intros I E T. unfold traverseclosure. wp_step. eapply wp_getobj; [done|].
  pose proof (i_refs _ _ _ I cl o E) as R. pose proof (i_shape _ _ _ I cl o E) as Sh.
  destruct (body o) as [| |env f upvalue|env p upvals| | | |]; try discriminate T; simpl in *.
  - assert (marking D x ([(env, GAFQ_TTABLE)] ++ (upvalue ≫= val_refs))
              (markobject env;; for_each upvalue markvalue)) as H.
    { apply marking_seq; [apply marking_object|]. apply marking_list. intros. apply marking_value. }
    by apply H.
  - assert (marking D x ([(env, GAFQ_TTABLE)] ++ [(p, GAFQ_TPROTO)] ++ (upvals ≫= opt_refs GAFQ_TUPVAL))
              (markobject env;; markobject p;; for_each upvals markupval)) as H.
    { apply marking_seq; [apply marking_object|]. apply marking_seq; [apply marking_object|].
      clear R. induction Sh as [|u l [q ->] _ IH]; [apply marking_nil|]. rewrite bind_cons.
      apply marking_seq; [apply (marking_object D x GAFQ_TUPVAL)|done]. }
    by apply H.
Qed.

(** ** Stacks *)

Lemma stack_lim_top th : top th <= stack_lim th.
Proof.
  unfold stack_lim. generalize (top th). induction (cis th) as [|c l IH]; intros t; simpl; [lia|].
  specialize (IH (if t <? ci_top c then ci_top c else t)).
  destruct (Z.ltb_spec t (ci_top c)); lia.
Qed.

Lemma clear_slots_take st from lim n :
  (n <= Z.to_nat from)%nat -> (Z.to_nat from <= length st)%nat ->
  take n (clear_slots st from lim) = take n st.
Proof.
  intros H1 H2. unfold clear_slots. rewrite take_app_le by (rewrite length_take; lia).
  rewrite take_take. f_equal. lia.
Qed.

Lemma clear_slots_length st from lim :
  0 <= from <= lim + 1 -> lim < Z.of_nat (length st) -> length (clear_slots st from lim) = length st.
Proof.
  intros H1 H2. unfold clear_slots. rewrite !length_app, length_take, length_replicate, length_drop. lia.
Qed.

(** the body of an object changes, not what it refers to *)
Lemma inv_body D x g p o b :
  inv D x g -> heap g !! p = Some o -> body_sim (body o) b ->
  inv D x (on_heap (insert p (set_body b o)) g) /\ marks g (on_heap (insert p (set_body b o)) g).
Proof.
  intros I E B. apply (inv_update D x g (on_heap (insert p (set_body b o)) g) p o (set_body b o)); auto.
  - by apply obj_sim_body.
  - intros Hp Hx. simpl. destruct (q_member _ _ (i_queued _ _ _ I) p Hp) as (o' & E' & _ & _ & Hb).
    simplify_eq. auto.
  - simpl. rewrite (body_sim_open _ _ B). by apply (q_excl _ _ (i_queued _ _ _ I) p).
Qed.

Lemma inv_totalbytes D x g n : inv D x g -> inv D x (set_totalbytes g n) /\ marks g (set_totalbytes g n).
Proof.
  intros [R S T Q]. split; [|split; [by apply msim_lists|done| |done..]; intros p o o' E E'; simpl in E'; by simplify_eq].
  split; [exact R|exact S|exact T|]. destruct Q as [N M W X Th]. by split.
Qed.

Lemma reallocstack_spec D x g l m th newsize :
  inv D x g -> heap g !! l = Some (mkObj m (BThread th)) -> stack_lim th < newsize + 1 + EXTRA_STACK ->
  wp (gafqD_reallocstack l newsize) (fun _ g' => inv D x g' /\ marks g g') g.
Proof.
  intros I E L. unfold gafqD_reallocstack. wp_step. eapply wp_gco2th; [done|]. unfold resize_block.
  wp_step. wp_step.
  destruct (inv_totalbytes D x g (size_t (totalbytes g - stacksize th * sizeof_TValue +
              (newsize + 1 + EXTRA_STACK) * sizeof_TValue)) I) as [I1 M1].
  eapply wp_putbody; [done|]. eapply inv_body in I1 as [I2 M2]; [|done|].
  - split; [exact I2|]. eapply marks_trans; eauto.
  - pose proof (stack_lim_top th) as Ht. pose proof (i_shape _ _ _ I l _ E) as [H0 H1].
    unfold stacksize, zlen in H1. simpl.
    constructor; try done.
    + simpl. rewrite take_app_le by (rewrite length_take; lia). rewrite take_take. f_equal. lia.
    + intros [_ _]. split; [done|]. unfold stacksize, zlen, stack_lim in *. simpl.
      rewrite length_app, length_take, length_replicate. lia.
Qed.

Lemma reallocCI_spec D x g l m th newsize :
  inv D x g -> heap g !! l = Some (mkObj m (BThread th)) ->
  wp (gafqD_reallocCI l newsize)
     (fun _ g' => inv D x g' /\ marks g g' /\ heap g' !! l = Some (mkObj m (BThread (set_size_ci th newsize)))) g.
Proof.
  intros I E. unfold gafqD_reallocCI. wp_step. eapply wp_gco2th; [done|]. unfold resize_block.
  wp_step. wp_step.
  destruct (inv_totalbytes D x g (size_t (totalbytes g - size_ci th * sizeof_CallInfo +
              newsize * sizeof_CallInfo)) I) as [I1 M1].
  eapply wp_putbody; [done|]. eapply inv_body in I1 as [I2 M2]; [|done|].
  - split_and!; [exact I2|eapply marks_trans; eauto|]. apply lookup_insert_eq.
  - by constructor.
Qed.

Lemma checkstacksizes_spec D x g l m th :
  inv D x g -> heap g !! l = Some (mkObj m (BThread th)) ->
  wp (checkstacksizes l (stack_lim th)) (fun _ g' => inv D x g' /\ marks g g') g.
Proof.
  intros I E. unfold checkstacksizes. wp_step. eapply wp_gco2th; [done|].
  destruct (_ <? _); [wp_step; auto using marks_refl|].
  pose proof (i_shape _ _ _ I l _ E) as [H0 H1]. pose proof (stack_lim_top th) as Ht.
  wp_step. eapply (wp_mono _ (fun _ g' => inv D x g' /\ marks g g' /\ exists n,
      heap g' !! l = Some (mkObj m (BThread (set_size_ci th n))))).
  { destruct (_ && _).
    - eapply wp_mono; [eapply reallocCI_spec; eauto|]. intros [] g' (I' & M & E'). eauto.
    - wp_step. split_and!; [done|apply marks_refl|]. exists (size_ci th). by destruct th. }
  intros [] g1 (I1 & M1 & n & E1). cbv beta.
  destruct (Z.ltb_spec (4 * stack_lim th) (stacksize th)); cbn [andb]; [|wp_step; by split].
  destruct (_ <? _); [|wp_step; by split].
  eapply wp_mono; [eapply reallocstack_spec; eauto|].
  - change (stack_lim (set_size_ci th n)) with (stack_lim th). unfold EXTRA_STACK.
    pose proof (Z.div_mod (stacksize th) 2 ltac:(lia)). pose proof (Z.mod_pos_bound (stacksize th) 2). lia.
  - intros [] g2 (I2 & M2). split; [done|]. by eapply marks_trans.
Qed.

(** the thread as a traversal leaves it *)
Lemma thread_sim g g' l m th :
  msim g g' -> heap g !! l = Some (mkObj m (BThread th)) ->
  exists m' th', heap g' !! l = Some (mkObj m' (BThread th')) /\ body_sim (BThread th) (BThread th').
Proof.
  intros S E. destruct (msim_fwd _ _ _ _ S E) as ([m' b] & E' & _ & B). simpl in B.
  inversion B; subst; eauto.
Qed.

Lemma traversestack_spec D x g l m th :
  inv D x g -> heap g !! l = Some (mkObj m (BThread th)) ->
  wp (traversestack l) (fun _ g' => inv D x g' /\ marks g g' /\ nonwhites g' (thread_refs th)) g.
Proof.
  intros I E. unfold traversestack. wp_step. eapply wp_gco2th; [done|].
  pose proof (i_refs _ _ _ I l _ E) as R. simpl in R.
  assert (marking D x (thread_refs th)
            (markvalue (l_gt th);; for_each (take (Z.to_nat (top th)) (stack th)) markvalue)) as H.
  { apply marking_seq; [apply marking_value|]. apply marking_list. intros. apply marking_value. }
  change (foldl _ (top th) (cis th)) with (stack_lim th).
  apply wp_seq2. eapply wp_mono; [by apply H|]. intros [] g1 (I1 & M1 & N1). cbv beta.
  destruct (thread_sim g g1 l m th (mk_sim _ _ M1) E) as (m1 & th1 & E1' & B1).
  assert (top th1 = top th /\ cis th1 = cis th) as [Et Ec] by (inversion B1; subst; done).
  assert (stack_lim th1 = stack_lim th) as El by (unfold stack_lim; by rewrite Et, Ec).
  pose proof (i_shape _ _ _ I1 l _ E1') as [H0 H1]. pose proof (stack_lim_top th1) as Ht.
  wp_step. eapply wp_gco2th; [done|]. rewrite <- El. wp_step.
  destruct (Z.leb_spec (stacksize th1) (stack_lim th1)); [lia|].
  set (th2 := set_stack th1 (clear_slots (stack th1) (top th1) (stack_lim th1))).
  eapply wp_putbody; [done|].
  destruct (inv_body D x g1 l _ (BThread th2) I1 E1') as [I2 M2].
  { unfold stacksize, zlen in *. constructor; try done.
    - apply clear_slots_take; [lia|]. lia.
    - intros _. split; [done|]. unfold stacksize, zlen, stack_lim in *. simpl.
      rewrite clear_slots_length by lia. done. }
  change (stack_lim th1) with (stack_lim th2).
  eapply wp_mono; [eapply checkstacksizes_spec; [done|apply lookup_insert_eq]|].
  intros [] g3 (I3 & M3). split_and!; [done|eauto using marks_trans|].
  apply (nonwhites_sim g1); [apply mk_sim; eauto using marks_trans|done].
Qed.

(** ** Tables *)

(** an entry found by [gafqH_getstr] is the value of a node *)
Lemma getstr_node h t key :
  ttisnil (deref t (gafqH_getstr h t key)) = false ->
  exists n, n ∈ node t /\ i_val n = deref t (gafqH_getstr h t key).
Proof.
  unfold gafqH_getstr. destruct (find_node _ _ _) as [i|]; [|done]. simpl. intros H.
  unfold gval, gnode in *. rewrite nth_lookup in *. destruct (node t !! i) as [n|] eqn:E; [|done].
  exists n. split; [by eapply list_elem_of_lookup_2|done].
Qed.

Lemma node_val_typed g t n :
  Forall (typed g) (table_refs true true t) -> n ∈ node t -> ttisnil (i_val n) = false ->
  Forall (typed g) (val_refs (i_val n)).
Proof.
  intros H Hn V. unfold table_refs in H. rewrite !Forall_app in H. destruct H as (_ & _ & H).
  rewrite Forall_bind, Forall_forall in H. specialize (H n Hn). unfold compose, node_refs in H. rewrite V in H.
  by apply Forall_app in H as [_ H].
Qed.

Lemma gettm_spec D x g et m t e ename :
  inv D x g -> heap g !! et = Some (mkObj m (BTable t)) ->
  wp (gafqT_gettm et e ename) (fun r g' => inv D x g' /\ marks g g' /\
      match r with Some v => Forall (typed g') (val_refs v) | None => True end) g.
Proof.
  intros I E. unfold gafqT_gettm. wp_step. eapply wp_gco2h; [done|]. wp_step. wp_step.
  destruct (ttisnil _) eqn:V.
  - wp_step. eapply wp_putbody; [done|]. wp_step.
    destruct (inv_body D x g et _ (BTable (with_flags t (Z.lor (flags t) (u8 (Z.shiftl 1 (tms_index e)))))) I E)
      as [I1 M1]; [|done].
    constructor; [done..|]. simpl. apply Forall2_same_length_lookup_2; [done|].
    intros i n n' H1 H2. simplify_eq. apply node_sim_refl.
  - wp_step. split_and!; [done|apply marks_refl|].
    destruct (getstr_node _ _ _ V) as (n & Hn & Ev). rewrite <- Ev in V |- *.
    apply (node_val_typed g t n); [apply (i_refs _ _ _ I _ _ E)|done|done].
Qed.

Lemma gfasttm_spec D x g et e :
  inv D x g -> Forall (typed g) (opt_refs GAFQ_TTABLE et) ->
  wp (gfasttm et e) (fun r g' => inv D x g' /\ marks g g' /\
      match r with Some v => Forall (typed g') (val_refs v) | None => True end) g.
Proof.
  intros I T. destruct et as [p|]; simpl; [|wp_step; auto using marks_refl].
  inversion T as [|? ? ([m b] & E & B) _]; subst. simpl in *. destruct b; try discriminate B.
  wp_step. eapply wp_gco2h; [done|]. destruct (negb _); [wp_step; auto using marks_refl|].
  wp_step. wp_step. by eapply gettm_spec.
Qed.

Lemma weak_mode_spec g mode (Q : bool * bool -> GState -> Prop) :
  match mode with Some v => Forall (typed g) (val_refs v) | None => True end ->
  (forall kw vw, Q (kw, vw) g) -> wp (weak_mode mode) Q g.
Proof.
  intros T H. unfold weak_mode. destruct mode as [[]|]; try (wp_step; apply H).
  inversion T as [|? ? ([m b] & E & B) _]; subst. simpl in *. destruct b; try discriminate B.
  wp_step. eapply wp_gco2ts; [done|]. wp_step. apply H.
Qed.

Lemma note_weak_spec D g h m t kw vw :
  inv D (Some h) g -> D h -> heap g !! h = Some (mkObj m (BTable t)) -> iswhite m = false -> h ∉ lists g ->
  wp (note_weak h kw vw) (fun _ g' => inv D (Some h) g' /\ msim g g' /\
      gray g' = gray g /\ grayagain g' = grayagain g /\ weak g' = h :: weak g /\
      heap g' = <[h := mkObj (weak_bits kw vw m) (BTable t)]> (heap g)) g.
Proof.
  intros I Hd E W Hh. unfold note_weak. wp_step. eapply wp_mark_with; [done|]. wp_step.
  set (o' := set_marked _ _). change o' with (mkObj (weak_bits kw vw m) (BTable t)). clear o'.
  set (o' := mkObj (weak_bits kw vw m) (BTable t)). set (g1 := on_heap (insert h o') g).
  assert (obj_sim (mkObj m (BTable t)) o') as Si by (split; [apply mark_le_weak_bits|constructor]).
  assert (msim g g1) as S by (eapply (msim_update g (fun _ => g1)); eauto).
  assert (inv D (Some h) g1) as [R Sh T [N M Wk X Th]].
  { apply (inv_change D (Some h) g g1 h _ o' I E Si); auto; [congruence| |].
    - simpl. rewrite weak_bits_white. intros [?|[]]; congruence.
    - simpl. by rewrite weak_bits_white. }
  split_and!; [|by eapply msim_trans; [|apply msim_lists]|done..].
  split; [done|done| |].
  - intros p o Ep Wp. destruct (T p o Ep Wp) as [?|[?|[H1 H2]]]; [by left|by right; left|].
    right; right. split; [exact H1|]. simpl. set_solver.
  - split.
    + unfold lists in *. simpl in *. rewrite (assoc_L (++)), <- Permutation_middle, <- (assoc_L (++)).
      by apply NoDup_cons.
    + intros p Hp. unfold lists in Hp. simpl in Hp. destruct (decide (p = h)) as [->|].
      * simpl. rewrite lookup_insert_eq. eexists. split; [done|]. simpl. by rewrite weak_bits_white.
      * apply M. unfold lists. simpl. set_solver.
    + intros p Hp. simpl in Hp. destruct (decide (p = h)) as [->|].
      * simpl. rewrite lookup_insert_eq. by eexists _, _.
      * apply Wk. simpl. set_solver.
    + exact X.
    + exact Th.
Qed.

Lemma marking_perm D x l l' m : l ≡ₚ l' -> marking D x l m -> marking D x l' m.
Proof.
  intros P H g I T. eapply wp_mono; [apply H; [done|by rewrite P]|].
  intros [] g' (I' & M & N). split_and!; [done..|]. unfold nonwhites in *. by rewrite <- P.
Qed.

Lemma marking_array D x a : marking D x (a ≫= val_refs) (for_each (reverse a) markvalue).
Proof.
  eapply marking_perm; [|apply (marking_list D x val_refs); intros; apply marking_value].
  by rewrite reverse_Permutation.
Qed.

Lemma removeentry_sim n : ttisnil (i_val n) = true -> node_sim n (removeentry n).
Proof. intros V. unfold removeentry. destruct (iscollectable _); [|done]. repeat split. simpl. congruence. Qed.

Lemma nodes_sim_alter l i (f : Node -> Node) :
  (forall n, l !! i = Some n -> node_sim n (f n)) -> Forall2 node_sim l (alter f i l).
Proof.
  intros H. apply Forall2_same_length_lookup_2; [by rewrite length_alter|].
  intros j n n' E E'. rewrite list_lookup_alter in E'. case_decide; [|simplify_eq; apply node_sim_refl].
  subst. rewrite E in E'. injection E' as <-. by apply H.
Qed.

Lemma table_refs_nodes k v (l l' : list Node) :
  Forall2 node_sim l l' -> (l' ≫= node_refs k v) = (l ≫= node_refs k v).
Proof.
  induction 1 as [|n n' l l' Hn _ IH]; [done|]. rewrite !bind_cons, IH. by rewrite (node_refs_sim _ _ n).
Qed.

(** the table as a traversal leaves it *)
Lemma table_sim g g' h m t :
  marks g g' -> heap g !! h = Some (mkObj m (BTable t)) -> iswhite m = false ->
  exists t', heap g' !! h = Some (mkObj m (BTable t')) /\ metatable t' = metatable t /\
    array t' = array t /\ Forall2 node_sim (node t) (node t').
Proof.
  intros M E W. destruct (msim_fwd _ _ _ _ (mk_sim _ _ M) E) as ([m' b] & E' & _ & B). simpl in B.
  assert (m' = m) as -> by (apply (mk_keep _ _ M h _ _ E E'); done).
  inversion B; subst; eauto 10. exists t. split_and!; [done..|].
  apply Forall2_same_length_lookup_2; [done|]. intros i n n' H1 H2. simplify_eq. apply node_sim_refl.
Qed.

Lemma traverse_node_spec D x g h m t i kw vw :
  inv D x g -> heap g !! h = Some (mkObj m (BTable t)) ->
  wp (if ttisnil (i_val (gnode t i)) then putbody h (BTable (upd_node t i removeentry))
      else (if negb kw then markvalue (i_key (gnode t i)) else mret tt);;
           (if negb vw then markvalue (i_val (gnode t i)) else mret tt))
     (fun _ g' => inv D x g' /\ marks g g' /\ nonwhites g' (node_refs (negb kw) (negb vw) (gnode t i))) g.
Proof.
  intros I E. unfold node_refs. destruct (ttisnil (i_val (gnode t i))) eqn:V.
  - eapply wp_putbody; [done|]. destruct (inv_body D x g h _ (BTable (upd_node t i removeentry)) I E)
      as [I1 M1]; [|split_and!; [done..|constructor]].
    constructor; [done..|]. apply nodes_sim_alter. intros n En. apply removeentry_sim.
    unfold gnode in V. by rewrite nth_lookup, En in V.
  - assert (marking D x ((if negb kw then val_refs (i_key (gnode t i)) else []) ++
                         (if negb vw then val_refs (i_val (gnode t i)) else []))
      ((if negb kw then markvalue (i_key (gnode t i)) else mret tt);;
       (if negb vw then markvalue (i_val (gnode t i)) else mret tt))) as H.
    { apply marking_seq; apply marking_if; intros _; apply marking_value. }
    apply H; [done|].
    assert (gnode t i ∈ node t) as Hn.
    { unfold gnode in *. rewrite nth_lookup in *. destruct (node t !! i) eqn:En; [|done].
      by eapply list_elem_of_lookup_2. }
    pose proof (i_refs _ _ _ I h _ E) as R. simpl in R. unfold table_refs in R.
    rewrite !Forall_app in R. destruct R as (_ & _ & R). rewrite Forall_bind, Forall_forall in R.
    specialize (R _ Hn). unfold compose, node_refs in R. rewrite V in R. apply Forall_app in R as [R1 R2].
    clear H. apply Forall_app. destruct kw, vw; split; (done || constructor).
Qed.

Lemma traverse_nodes_spec D x h m kw vw i g t :
  inv D x g -> heap g !! h = Some (mkObj m (BTable t)) -> iswhite m = false -> (i <= length (node t))%nat ->
  wp (traverse_nodes h kw vw i) (fun _ g' => inv D x g' /\ marks g g' /\
      nonwhites g' (take i (node t) ≫= node_refs (negb kw) (negb vw))) g.
Proof.
  revert g t. induction i as [|i IH]; intros g t I E W Hi; simpl.
  { wp_step. split_and!; [done|apply marks_refl|constructor]. }
  wp_step. eapply wp_gco2h; [done|]. wp_step. eapply wp_mono; [by apply (traverse_node_spec D x g h m t)|].
  intros [] g1 (I1 & M1 & N1). cbv beta.
  destruct (table_sim _ _ _ _ _ M1 E W) as (t1 & E1 & _ & _ & Sn).
  eapply wp_mono; [apply (IH g1 t1); [done|done|done|]|].
  { rewrite <- (Forall2_length _ _ _ Sn). lia. }
  intros [] g2 (I2 & M2 & N2). split_and!; [done|eauto using marks_trans|].
  rewrite (table_refs_nodes _ _ (take i (node t))) in N2 by (by apply Forall2_take).
  destruct (lookup_lt_is_Some_2 (node t) i) as [n En]; [lia|].
  rewrite (take_S_r _ _ n), bind_app by done. apply Forall_app. split; [done|].
  rewrite bind_singleton. apply (nonwhites_sim g1); [apply mk_sim, M2|].
  unfold gnode in N1. by rewrite nth_lookup, En in N1.
Qed.

(** what a traversal leaves of the table [h] *)
Record traversed (D : pointer -> Prop) (g : GState) (h : pointer) (w : bool) (g' : GState) : Prop := {
  tv_inv : inv D (Some h) g';
  tv_sim : msim g g';
  tv_todo p : todo g' p -> todo g p;
  tv_again : grayagain g' = grayagain g;
  tv_weak : weak g' = if w then h :: weak g else weak g;
  tv_obj : exists m t, heap g' !! h = Some (mkObj m (BTable t)) /\ iswhite m = false /\ isblack m = true /\
    nonwhites g' (if w then table_refs (negb (Z.testbit m KEYWEAKBIT)) (negb (Z.testbit m VALUEWEAKBIT)) t
                  else table_refs true true t)
}.

Lemma traverse_parts_spec D x g h m t kw vw :
  inv D x g -> heap g !! h = Some (mkObj m (BTable t)) -> iswhite m = false ->
  wp (traverse_parts h kw vw (length (node t))) (fun _ g' => inv D x g' /\ marks g g' /\
      nonwhites g' ((if negb vw then array t ≫= val_refs else []) ++
                    (node t ≫= node_refs (negb kw) (negb vw)))) g.
Proof.
  intros I E W. unfold traverse_parts. wp_step.
  eapply (wp_mono _ (fun _ g' => inv D x g' /\ marks g g' /\
            nonwhites g' (if negb vw then array t ≫= val_refs else []))).
  { destruct (negb vw) eqn:V; [|wp_step; split_and!; [done|apply marks_refl|constructor]].
    wp_step. eapply wp_gco2h; [done|]. apply marking_array; [done|].
    pose proof (i_refs _ _ _ I h _ E) as R. simpl in R. unfold table_refs in R.
    rewrite !Forall_app in R. apply R. }
  intros [] g1 (I1 & M1 & N1). cbv beta.
  destruct (table_sim _ _ _ _ _ M1 E W) as (t1 & E1 & _ & _ & Sn).
  rewrite (Forall2_length _ _ _ Sn).
  eapply wp_mono; [by apply (traverse_nodes_spec D x h m kw vw (length (node t1)) g1 t1)|].
  intros [] g2 (I2 & M2 & N2). split_and!; [done|eauto using marks_trans|].
  rewrite firstn_all in N2. rewrite (table_refs_nodes _ _ (node t)) in N2 by done.
  apply Forall_app. split; [|done]. apply (nonwhites_sim g1); [apply mk_sim, M2|done].
Qed.

Lemma marks_not_listed g g' p :
  marks g g' -> nonwhite g p -> (exists o, heap g' !! p = Some o) -> p ∉ lists g -> p ∉ lists g'.
Proof.
  intros M (o & E & W) (o' & E') H Hp. unfold lists in *. rewrite (mk_again _ _ M), (mk_weak _ _ M) in Hp.
  apply elem_of_app in Hp as [Hp|Hp]; [|set_solver].
  destruct (mk_todo _ _ M p) as (o2 & E2 & [W2|H2]); [by exists o'; auto|congruence|set_solver].
Qed.

Lemma todo_weak g h m m' t g' p :
  heap g !! h = Some (mkObj m (BTable t)) -> iswhite m' = iswhite m ->
  heap g' = <[h := mkObj m' (BTable t)]> (heap g) -> gray g' = gray g -> todo g' p -> todo g p.
Proof.
  intros E W H G (o & Eo & Ho). rewrite H in Eo. rewrite G in Ho.
  destruct (decide (p = h)) as [->|Hne].
  - rewrite lookup_insert_eq in Eo. injection Eo as <-. simpl in Ho. eexists. split; [done|]. simpl. by rewrite <- W.
  - rewrite lookup_insert_ne in Eo by done. by exists o.
Qed.

(** a table that is not weak *)
Lemma traverse_strong D g h m t g1 :
  inv D (Some h) g1 -> marks g g1 -> heap g !! h = Some (mkObj m (BTable t)) -> iswhite m = false ->
  isblack m = true -> nonwhites g1 (opt_refs GAFQ_TTABLE (metatable t)) ->
  wp (traverse_parts h false false (length (node t));; mret false) (fun w g' => traversed D g h w g') g1.
Proof.
  intros I1 M1 E W Bm N1. destruct (table_sim _ _ _ _ _ M1 E W) as (t1 & E1 & Em & Ea & Sn).
  rewrite (Forall2_length _ _ _ Sn). wp_step.
  eapply wp_mono; [by apply (traverse_parts_spec D (Some h) g1 h m t1)|].
  intros [] g2 (I2 & M2 & N2). wp_step. assert (marks g g2) as M by eauto using marks_trans.
  destruct (table_sim _ _ _ _ _ M2 E1 W) as (t2 & E2 & Em2 & Ea2 & Sn2).
  split; [done|apply M|apply M|apply M|apply M|]. exists m, t2. split_and!; [done..|].
  rewrite (table_refs_sim _ _ t1 t2) by done. apply Forall_app. split; [|exact N2].
  rewrite Em. apply (nonwhites_sim g1); [apply mk_sim, M2|done].
Qed.

(** a weak table: its bits are set, and it is put in the list [weak] *)
Lemma traverse_weak D g h m t g1 kw vw :
  inv D (Some h) g1 -> D h -> marks g g1 -> heap g !! h = Some (mkObj m (BTable t)) -> iswhite m = false ->
  isblack m = true -> h ∉ lists g -> nonwhites g1 (opt_refs GAFQ_TTABLE (metatable t)) ->
  wp (note_weak h kw vw;;
      if kw && vw then mret true else traverse_parts h kw vw (length (node t));; mret true)
     (fun w g' => traversed D g h w g') g1.
Proof.
  intros I1 Hd M1 E W Bm Hl N1. destruct (table_sim _ _ _ _ _ M1 E W) as (t1 & E1 & Em & Ea & Sn).
  assert (h ∉ lists g1) as Hl1.
  { eapply marks_not_listed; eauto. by exists (mkObj m (BTable t)). }
  rewrite (Forall2_length _ _ _ Sn). wp_step.
  eapply wp_mono; [by apply (note_weak_spec D g1 h m t1 kw vw)|].
  intros [] g2 (I2 & S2 & G2 & A2 & W2 & H2). cbv beta.
  set (m2 := weak_bits kw vw m) in *.
  assert (heap g2 !! h = Some (mkObj m2 (BTable t1))) as E2 by (rewrite H2; apply lookup_insert_eq).
  assert (iswhite m2 = false) as Wm by (unfold m2; by rewrite weak_bits_white).
  assert (isblack m2 = true) as Bm2 by (unfold m2; by rewrite weak_bits_black).
  assert (forall p, todo g2 p -> todo g p) as T2.
  { intros p Hp. apply (mk_todo _ _ M1). apply (todo_weak g1 h m m2 t1 g2); auto. congruence. }
  assert (nonwhites g2 (opt_refs GAFQ_TTABLE (metatable t1))) as N2.
  { rewrite Em. by eapply nonwhites_sim. }
  assert (Z.testbit m2 KEYWEAKBIT = kw) as Bk by (unfold m2; by rewrite weak_bits_bits by (unfold KEYWEAKBIT; lia)).
  assert (Z.testbit m2 VALUEWEAKBIT = vw) as Bv by (unfold m2; by rewrite weak_bits_bits by (unfold VALUEWEAKBIT; lia)).
  assert (msim g g2) as S by (eapply msim_trans; [apply M1|done]).
  destruct (kw && vw) eqn:Ekv.
  - wp_step. split; [done|done|done|rewrite A2; apply M1|by rewrite W2, (mk_weak _ _ M1)|].
    exists m2, t1. split_and!; [done..|]. rewrite Bk, Bv. apply andb_true_iff in Ekv as [-> ->]. simpl.
    apply Forall_app. split; [done|]. simpl. clear. induction (node t1) as [|n l IH]; [constructor|].
    rewrite bind_cons. unfold node_refs at 1. by destruct (ttisnil _).
  - wp_step. eapply wp_mono; [by apply (traverse_parts_spec D (Some h) g2 h m2 t1)|].
    intros [] g3 (I3 & M3 & N3). wp_step.
    destruct (table_sim _ _ _ _ _ M3 E2 Wm) as (t3 & E3 & Em3 & Ea3 & Sn3).
    split; [done|eapply msim_trans; [done|apply M3]|intros p Hp; by apply T2, M3| | |].
    + rewrite (mk_again _ _ M3), A2. apply M1.
    + by rewrite (mk_weak _ _ M3), W2, (mk_weak _ _ M1).
    + exists m2, t3. split_and!; [done..|]. rewrite Bk, Bv, (table_refs_sim _ _ t1 t3) by done.
      apply Forall_app. split; [|exact N3]. apply (nonwhites_sim g2); [apply mk_sim, M3|done].
Qed.

Lemma traversetable_spec D g h m t :
  inv D (Some h) g -> D h -> heap g !! h = Some (mkObj m (BTable t)) -> iswhite m = false ->
  isblack m = true -> h ∉ lists g ->
  wp (traversetable h) (fun w g' => traversed D g h w g') g.
Proof.
  intros I Hd E W Bm Hl. unfold traversetable. wp_step. eapply wp_gco2h; [done|]. wp_step.
  pose proof (i_refs _ _ _ I h _ E) as R. simpl in R. unfold table_refs in R.
  apply Forall_app in R as [R _].
  eapply wp_mono; [by apply (markopt_spec D (Some h) g GAFQ_TTABLE)|].
  intros [] g1 (I1 & M1 & N1). cbv beta. wp_step.
  eapply wp_mono; [apply (gfasttm_spec D (Some h) g1); [done|eapply typeds_sim; [apply M1|done]]|].
  intros mode g2 (I2 & M2 & N2). cbv beta. wp_step. apply weak_mode_spec; [done|]. intros kw vw.
  assert (marks g g2) as M by eauto using marks_trans.
  assert (nonwhites g2 (opt_refs GAFQ_TTABLE (metatable t))) as N.
  { apply (nonwhites_sim g1); [apply M2|done]. }
  destruct (kw || vw) eqn:Ekv.
  - pose proof (traverse_weak D g h m t g2 kw vw I2 Hd M E W Bm Hl N) as H. exact H.
  - apply orb_false_iff in Ekv as [-> ->]. wp_step. wp_step. cbn [andb orb]. by apply (traverse_strong D g h m t).
Qed.
