(* ===== verification/GcPropagate.v ===== *)
(** * [propagatemark] and [propagateall] *)

From stdpp Require Import gmap sets.
From S2P Require Import Prelude Number Object Table Heap Tm Gc Func GcSweep GcLogic GcInv GcMark GcTraverse.

Record progress (g g' : GState) : Prop := {
  pr_sim : msim g g';
  pr_todo p : todo g' p -> todo g p;
  pr_again : grayagain g ⊆ grayagain g';
  pr_weak : weak g ⊆ weak g'
}.

Lemma progress_refl g : progress g g.
Proof. split; try done. apply msim_refl. Qed.

Lemma progress_trans g1 g2 g3 : progress g1 g2 -> progress g2 g3 -> progress g1 g3.
Proof.
  intros [S1 T1 A1 W1] [S2 T2 A2 W2]. split; [by eapply msim_trans|auto|set_solver|set_solver].
Qed.

Lemma marks_progress g g' : marks g g' -> progress g g'.
Proof. intros [S T K G A W]. split; [done|done|by rewrite A|by rewrite W]. Qed.

(** ** The object being traversed *)

Lemma queued_some x g : queued None g -> queued (Some x) g.
Proof.
  intros [N M W X Th]. split; [done| |done|done|].
  - intros p Hp. destruct (M p Hp) as (o & E & Wo & C & B). exists o. auto.
  - intros p m t E Wp _. by eapply Th.
Qed.

Lemma queued_none x g :
  queued (Some x) g ->
  (forall o, heap g !! x = Some o -> x ∈ lists g -> isblack (marked o) = false) ->
  (forall m t, heap g !! x = Some (mkObj m (BThread t)) -> x ∈ grayagain g) ->
  queued None g.
Proof.
  intros [N M W X Th] H Ht. split; [done| |done|done|].
  - intros p Hp. destruct (M p Hp) as (o & E & Wo & C & B). exists o. split_and!; [done..|]. intros _.
    destruct (decide (p = x)) as [->|]; [by apply H|]. apply B. congruence.
  - intros p m t E Wp _. destruct (decide (p = x)) as [->|Hne]; [right; by eapply Ht|]. eapply Th; [done|done|congruence].
Qed.

Lemma inv_none D x g :
  inv D (Some x) g ->
  (forall o, heap g !! x = Some o -> x ∈ lists g -> isblack (marked o) = false) ->
  (forall m t, heap g !! x = Some (mkObj m (BThread t)) -> x ∈ grayagain g) ->
  inv D None g.
Proof. intros [R S T Q] H Ht. split; eauto using queued_none. Qed.

(** taking the first object off the gray list *)
Definition take_gray (g : GState) (o : pointer) (ob : GCObject) (rest : list pointer) : GState :=
  set_gray (on_heap (insert o (set_marked (gray2black (marked ob)) ob)) g) rest.

Lemma take_gray_inv D g o rest ob :
  inv D None g -> gray g = o :: rest -> heap g !! o = Some ob -> iswhite (marked ob) = false ->
  let g' := take_gray g o ob rest in
  inv (fun q => D q \/ q = o) (Some o) g' /\ msim g g' /\ (o ∉ lists g') /\
  (forall p, todo g' p -> todo g p) /\ (todo g' o -> False).
Proof.
  intros I G E W g'. set (g1 := on_heap (insert o (set_marked (gray2black (marked ob)) ob)) g).
  assert (obj_sim ob (set_marked (gray2black (marked ob)) ob)) as Si by (apply obj_sim_mark; auto with colour).
  assert (inv D (Some o) g1) as [R1 S1 T1 [N1 M1 W1 X1 Th1]].
  { destruct (q_member _ _ (i_queued _ _ _ I) o) as (ob' & E' & _ & C & _).
    { unfold lists. rewrite G. set_solver. }
    simplify_eq. destruct I as [R S T Q].
    apply (inv_change D (Some o) g g1 o ob (set_marked (gray2black (marked ob)) ob)); try done.
    - split; auto using queued_some.
    - right; left. rewrite G. set_solver.
    - simpl. rewrite gray2black_white. intros [?|Ho]; [congruence|]. by destruct (body ob) as [| | | | | |[]|].
    - simpl. by rewrite gray2black_white. }
  assert (msim g g') as Sm by (eapply (msim_update g (fun _ => g')); eauto).
  assert (lists g1 = o :: lists g') as L by (unfold lists; simpl; by rewrite G).
  rewrite L in N1. apply NoDup_cons in N1 as [Ho N1].
  split_and!; [|done|done| |].
  - split; [exact R1|exact S1| |].
    + intros p ob' Ep Wp. destruct (T1 p ob' Ep Wp) as [Hp|[?|?]]; [|by right; left; left|by right; right].
      simpl in Hp. rewrite G in Hp. apply elem_of_cons in Hp as [->|Hp]; [by right; left; right|by left].
    + split; [done| |exact W1|exact X1|].
      * intros p Hp. apply M1. rewrite L. by constructor.
      * intros p m t Ep Wp Hp. destruct (Th1 p m t Ep Wp Hp) as [H|H]; [|by right]. simpl in H. rewrite G in H.
        apply elem_of_cons in H as [->|H]; [done|by left].
  - intros p (ob' & Ep & Hp). apply (todo_change g g1 o ob _ p E Si eq_refl eq_refl).
    exists ob'. split; [done|]. destruct Hp as [?|Hp]; [by left|right]. simpl in *. rewrite G. by constructor.
  - intros (ob' & Ep & Hp). simpl in Ep. rewrite lookup_insert_eq in Ep. injection Ep as <-. simpl in Hp.
    rewrite gray2black_white in Hp. destruct Hp as [Hp|Hp]; [congruence|]. apply Ho. unfold lists. set_solver.
Qed.

(** what a step leaves for the object it traversed *)
Definition stepped (D : pointer -> Prop) (g : GState) (o : pointer) (g' : GState) : Prop :=
  inv D None g' /\ progress g g' /\ (todo g' o -> False).

(** a closure or a prototype: black, its references marked *)
Lemma finish_black D g o rest ob g2 :
  gray g = o :: rest -> heap g !! o = Some ob -> iswhite (marked ob) = false ->
  inv D None g -> container (body ob) ->
  (match body ob with BTable _ | BThread _ => False | _ => True end) ->
  inv (fun q => D q \/ q = o) (Some o) g2 -> marks (take_gray g o ob rest) g2 ->
  nonwhites g2 (body_refs g (body ob)) ->
  stepped D g o g2.
Proof.
  intros G E W I C Cb I2 M2 N2. destruct (take_gray_inv D g o rest ob I G E W) as (I1 & S1 & L1 & T1 & Z1).
  set (g1 := take_gray g o ob rest) in *. set (ob1 := set_marked (gray2black (marked ob)) ob).
  assert (heap g1 !! o = Some ob1) as E1 by apply lookup_insert_eq.
  assert (iswhite (marked ob1) = false) as Wb by (unfold ob1; simpl; by rewrite gray2black_white).
  destruct (msim_fwd _ _ _ _ (mk_sim _ _ M2) E1) as (ob2 & E2 & Sm & B2).
  assert (marked ob2 = marked ob1) as Em by (eapply (mk_keep _ _ M2); eauto).
  simpl in B2. apply body_sim_other in B2; [|done].
  assert (o ∉ lists g2) as L2 by (eapply marks_not_listed; eauto; by exists ob1).
  split_and!.
  - apply (inv_none D o); [|intros ? _ ?; done|intros m t Et; rewrite E2 in Et; injection Et as ->; simpl in B2; by rewrite <- B2 in Cb].
    eapply inv_drop; eauto. split.
    + unfold scan_refs. rewrite B2.
      rewrite <- (body_refs_sim g g2 _ _ (msim_trans _ _ _ S1 (mk_sim _ _ M2)) (i_shape _ _ _ I o ob E) (sim_refl _)) in N2.
      destruct (body ob); done.
    + rewrite Em. simpl. by rewrite gray2black_black.
  - eapply progress_trans; [|by apply marks_progress]. by split.
  - intros H. by apply Z1, M2.
Qed.

(** a table: black, or gray again in the list [weak] *)
Lemma finish_table D g o rest ob t w g2 :
  gray g = o :: rest -> heap g !! o = Some ob -> iswhite (marked ob) = false ->
  inv D None g -> body ob = BTable t ->
  traversed (fun q => D q \/ q = o) (take_gray g o ob rest) o w g2 ->
  wp (if w then mark_with o black2gray else mret tt)
     (fun _ g3 => stepped D g o g3 /\ exists m t', heap g3 !! o = Some (mkObj m (BTable t'))) g2.
Proof.
  intros G E W I B [I2 S2 T2 A2 W2 (m2 & t2 & E2 & Wm & Bm & N2)].
  destruct (take_gray_inv D g o rest ob I G E W) as (I1 & S1 & L1 & T1 & Z1).
  set (g1 := take_gray g o ob rest) in *.
  assert (~ todo g2 o) as Z2 by auto.
  assert (o ∉ gray g2) as Hg2 by (intros H; apply Z2; eexists; split; [done|by right]).
  destruct w.
  - eapply wp_mark_with; [done|]. set (ob3 := set_marked (black2gray m2) (mkObj m2 (BTable t2))).
    set (g3 := on_heap (insert o ob3) g2).
    assert (obj_sim (mkObj m2 (BTable t2)) ob3) as Si by (apply obj_sim_mark; auto with colour).
    assert (msim g2 g3) as S3 by (eapply (msim_update g2 (fun _ => g3)); eauto).
    assert (heap g3 !! o = Some ob3) as E3 by apply lookup_insert_eq.
    assert (inv (fun q => D q \/ q = o) (Some o) g3) as I3.
    { apply (inv_change _ (Some o) g2 g3 o _ ob3 I2 E2 Si); auto; [congruence| |].
      - simpl. rewrite black2gray_white. intros [?|[]]; congruence.
      - simpl. by rewrite black2gray_white. }
    split; [|by exists (black2gray m2), t2]. split_and!.
    + apply (inv_none D o).
      * eapply inv_drop; [done|exact E3|]. split.
        -- unfold scan_refs, ob3. cbn [set_marked body marked].
           rewrite black2gray_black, !black2gray_bits by (unfold KEYWEAKBIT, VALUEWEAKBIT; lia).
           by apply (nonwhites_sim g2 g3).
        -- intros _ _. simpl. rewrite W2. by constructor.
      * intros ob' E' _. assert (ob' = ob3) as -> by (apply (inj Some); etrans; [symmetry; exact E'|exact E3]).
        apply black2gray_black.
      * intros m3 t3 E'. pose proof (eq_trans (eq_sym E') E3) as K. discriminate K.
    + split; [by eapply msim_trans; [exact S1|eapply msim_trans]| |simpl; rewrite A2; done|simpl; rewrite W2; set_solver].
      intros p Hp. apply T1, T2. eapply (todo_change g2 g3); eauto.
    + intros H. apply Z2. eapply (todo_change g2 g3); eauto.
  - wp_step. split; [|by eexists _, _]. split_and!.
    + apply (inv_none D o).
      * eapply inv_drop; [done|exact E2|]. split.
        -- unfold scan_refs. simpl. by rewrite Bm.
        -- simpl. congruence.
      * intros ob' E' Hl. destruct L1. unfold lists in *. rewrite A2, W2 in Hl. set_solver.
      * intros m3 t3 E'. rewrite E2 in E'. discriminate E'.
    + split; [by eapply msim_trans|auto|by rewrite A2|by rewrite W2].
    + done.
Qed.

(** a thread: gray, in the list [grayagain] *)
Definition again (g : GState) (o : pointer) (m : Z) (b : Body) : GState :=
  on_heap (insert o (mkObj m b)) (set_grayagain g (o :: grayagain g)).

Lemma again_inv D g o m b :
  inv D (Some o) g -> D o -> heap g !! o = Some (mkObj m b) -> iswhite m = false -> container b ->
  o ∉ lists g -> let g' := again g o (black2gray m) b in inv D None g' /\ msim g g' /\ (forall p, todo g' p -> todo g p).
Proof.
  intros I Hd E W C L g'. set (ob' := mkObj (black2gray m) b). set (g1 := on_heap (insert o ob') g).
  assert (obj_sim (mkObj m b) ob') as Si by (split; [apply mark_le_black2gray|constructor]).
  assert (inv D (Some o) g1) as [R1 S1 T1 [N1 M1 W1 X1 Th1]].
  { apply (inv_change D (Some o) g g1 o _ ob' I E Si); auto; [congruence| |].
    - simpl. rewrite black2gray_white. intros [?|Ho]; [congruence|]. by destruct b as [| | | | | |[]|].
    - simpl. by rewrite black2gray_white. }
  split_and!.
  - split; [exact R1|exact S1|exact T1|]. apply (queued_none o).
    + split; [|..|exact W1|exact X1|].
      * unfold lists in *. simpl in *. rewrite <- Permutation_middle. by apply NoDup_cons.
      * intros p Hp. destruct (decide (p = o)) as [->|].
        -- simpl. rewrite lookup_insert_eq. eexists. split; [done|]. simpl. rewrite black2gray_white.
           split_and!; [done|done|]. intros _. apply black2gray_black.
        -- apply M1. unfold lists in *. simpl in *. set_solver.
      * intros p m2 t2 Ep Wp Hp. destruct (Th1 p m2 t2 Ep Wp Hp) as [H|H]; [by left|right; by constructor].
    + intros ob2 E2 _. simpl in E2. rewrite lookup_insert_eq in E2. injection E2 as <-. apply black2gray_black.
    + intros m2 t2 _. constructor.
  - eapply (msim_update g (fun _ => g')); eauto.
  - intros p Hp. eapply (todo_change g g1); eauto.
Qed.

Lemma finish_thread D g o rest ob th g3 :
  gray g = o :: rest -> heap g !! o = Some ob -> iswhite (marked ob) = false ->
  inv D None g -> body ob = BThread th ->
  let g2 := again (take_gray g o ob rest) o (black2gray (gray2black (marked ob))) (BThread th) in
  inv (fun q => D q \/ q = o) None g3 -> marks g2 g3 -> nonwhites g3 (thread_refs th) ->
  stepped D g o g3.
Proof.
  intros G E W I B g2 I3 M3 N3. destruct (take_gray_inv D g o rest ob I G E W) as (I1 & S1 & L1 & T1 & Z1).
  set (g1 := take_gray g o ob rest) in *.
  destruct (again_inv (fun q => D q \/ q = o) g1 o (gray2black (marked ob)) (BThread th) I1)
    as (I2 & S2 & T2); [by right|rewrite <- B; apply lookup_insert_eq|by rewrite gray2black_white|done|done|].
  fold g2 in I2, S2, T2.
  assert (heap g2 !! o = Some (mkObj (black2gray (gray2black (marked ob))) (BThread th))) as E2
    by apply lookup_insert_eq.
  destruct (thread_sim g2 g3 o _ th (mk_sim _ _ M3) E2) as (m3 & th3 & E3 & B3).
  split_and!.
  - eapply inv_drop; [done|exact E3|]. split; [|discriminate]. unfold scan_refs. simpl.
    replace (thread_refs th3) with (thread_refs th); [done|].
    inversion B3; subst; [done|]. unfold thread_refs. congruence.
  - eapply progress_trans; [|by apply marks_progress]. split.
    + by eapply msim_trans.
    + auto.
    + simpl. set_solver.
    + done.
  - intros H. by apply Z1, T2, M3.
Qed.

(** ** One step *)

Lemma propagatemark_spec D g o rest :
  inv D None g -> gray g = o :: rest -> wp propagatemark (fun _ g' => stepped D g o g') g.
Proof.
  intros I G.
  destruct (q_member _ _ (i_queued _ _ _ I) o) as (ob & E & W & C & _).
  { unfold lists. rewrite G. set_solver. }
  destruct (take_gray_inv D g o rest ob I G E W) as (I1 & S1 & L1 & T1 & Z1).
  unfold propagatemark. wp_step. wp_step. rewrite G. wp_step. eapply wp_mark_with; [done|].
  wp_step. eapply wp_getobj; [apply set_marked_lookup|]. cbn [set_marked body].
  set (ob1 := mkObj (gray2black (marked ob)) (body ob)).
  assert (heap (take_gray g o ob rest) !! o = Some ob1) as E1 by apply lookup_insert_eq.
  pose proof (body_refs_sim g _ _ _ S1 (i_shape _ _ _ I o ob E) (sim_refl _)) as R1.
  assert (forall c : Z, container (body ob) -> body_tt (body ob) = GAFQ_TFUNCTION ->
    wp (modify (fun g => set_gray g rest);; traverseclosure o;; mret c : gc Z) (fun _ g' => stepped D g o g')
       (on_heap (insert o (set_marked (gray2black (marked ob)) ob)) g)) as Hcl.
  { intros c _ Hf. wp_step. wp_step. wp_step.
    eapply wp_mono; [by apply (traverseclosure_spec _ (Some o) (take_gray g o ob rest) o ob1 I1 E1)|].
    intros [] g2 (I2 & M2 & N2). wp_step. cbn [ob1 body] in N2. rewrite R1 in N2.
    eapply finish_black; eauto. by destruct (body ob). }
  destruct (body ob) as [| |env upv|env p upv|t|p| |th] eqn:B; try done; try (by apply Hcl).
  - wp_step. wp_step. wp_step.
    eapply wp_mono.
    + apply (traversetable_spec (fun q => D q \/ q = o) (take_gray g o ob rest) o (gray2black (marked ob)) t);
        [done|by right|exact E1|by rewrite gray2black_white|apply gray2black_black|done].
    + intros w g2 T2. cbv beta. wp_step. eapply wp_mono; [by eapply finish_table|].
      intros [] g3 (H3 & m3 & t3 & E3). cbv beta. wp_step. eapply wp_gco2h; [done|]. by wp_step.
  - wp_step. wp_step. wp_step.
    eapply wp_mono; [by apply (traverseproto_spec _ (Some o) (take_gray g o ob rest) o (gray2black (marked ob)) p I1 E1)|].
    intros [] g2 (I2 & M2 & N2). wp_step. eapply finish_black; eauto; rewrite B; done.
  - wp_step. wp_step. wp_step. wp_step. wp_step. eapply wp_mark_with; [exact E1|]. wp_step.
    destruct (again_inv (fun q => D q \/ q = o) (take_gray g o ob rest) o (gray2black (marked ob)) (BThread th) I1)
      as (I2 & S2 & T2); [by right|exact E1|by rewrite gray2black_white|done|done|].
    eapply wp_mono.
    + apply (traversestack_spec (fun q => D q \/ q = o) None
               (again (take_gray g o ob rest) o (black2gray (gray2black (marked ob))) (BThread th)) o
               (black2gray (gray2black (marked ob))) th I2).
      apply lookup_insert_eq.
    + intros [] g3 (I3 & M3 & N3). cbv beta. wp_step.
      destruct (thread_sim _ g3 o (black2gray (gray2black (marked ob))) th (mk_sim _ _ M3)) as (m3 & th3 & E3 & B3).
      { apply lookup_insert_eq. }
      eapply wp_gco2th; [done|]. wp_step. eapply finish_thread; eauto.
Qed.

(** ** All of them *)

Definition todob (g : GState) (p : pointer) : bool :=
  match heap g !! p with
  | Some o => iswhite (marked o) || bool_decide (p ∈ gray g)
  | None => false
  end.

Definition todo_set (g : GState) : gset pointer := filter (fun p => todob g p = true) (dom (heap g)).

Lemma elem_of_todo_set g p : p ∈ todo_set g <-> todo g p.
Proof.
  unfold todo_set, todo, todob. rewrite elem_of_filter, elem_of_dom. split.
  - intros [H [o E]]. rewrite E in H. exists o. split; [done|]. apply orb_true_iff in H as [?|H]; [by left|].
    right. by apply bool_decide_eq_true in H.
  - intros (o & E & H). split; [|by exists o]. rewrite E. apply orb_true_iff.
    destruct H; [by left|right]. by apply bool_decide_eq_true.
Qed.

(** a step leaves less to do *)
Lemma stepped_todo D g o rest g1 : inv D None g -> gray g = o :: rest -> stepped D g o g1 ->
  (size (todo_set g1) < size (todo_set g))%nat.
Proof.
  intros I G (_ & P1 & Z1). apply subset_size. split.
  - intros p. rewrite !elem_of_todo_set. apply P1.
  - intros H. apply Z1, elem_of_todo_set, H, elem_of_todo_set.
    destruct (q_member _ _ (i_queued _ _ _ I) o) as (ob & E & _).
    { unfold lists. rewrite G. set_solver. }
    exists ob. split; [done|right]. rewrite G. by constructor.
Qed.

Lemma propagate_loop_spec D fuel : forall m g,
  inv D None g -> (size (todo_set g) < fuel)%nat ->
  wp (propagate_loop fuel m) (fun _ g' => inv D None g' /\ progress g g' /\ gray g' = []) g.
Proof.
  induction fuel as [|fuel IH]; intros m g I F; [lia|]. simpl. wp_step. wp_step.
  destruct (gray g) as [|o rest] eqn:G.
  { wp_step. split_and!; [done|apply progress_refl|done]. }
  wp_step. eapply wp_mono; [by eapply propagatemark_spec|].
  intros c g1 St. cbv beta. pose proof (stepped_todo _ _ _ _ _ I G St). destruct St as (I1 & P1 & Z1).
  eapply wp_mono; [apply IH; [done|lia]|].
  intros c' g2 (I2 & P2 & G2). split_and!; [done|by eapply progress_trans|done].
Qed.

Lemma propagateall_spec D g :
  inv D None g -> wp propagateall (fun _ g' => inv D None g' /\ progress g g' /\ gray g' = []) g.
Proof.
  intros I. unfold propagateall. wp_step. wp_step. apply propagate_loop_spec; [done|].
  rewrite <- size_dom. apply Nat.lt_succ_r, subseteq_size. unfold todo_set. set_solver.
Qed.
