(* ===== verification/GcLinks.v ===== *)
(** * The lists of objects

    Every object is in exactly one of the chains through [next]; the open
    upvalues are also in the doubly linked list of [uvhead]; the pointers of the
    global state lead to objects of their types. *)

From Stdlib Require Import Sorted.
From stdpp Require Import gmap sets.
From S2P Require Import Prelude Number Object Table Heap Tm Gc Func GcSweep GcLogic GcInv.

Lemma StronglySorted_mono {A} (R R' : A -> A -> Prop) l :
  (forall x y, R x y -> R' x y) -> StronglySorted R l -> StronglySorted R' l.
Proof.
  intros H. induction 1 as [|x l _ IH Hx]; constructor; [done|]. eapply Forall_impl; eauto.
Qed.

(** the doubly linked list from [p], whose predecessor is [prv] *)
Fixpoint uvchain (g : GState) (p prv : pointer) (l : list pointer) : Prop :=
  match l with
  | [] => p = UVHEAD /\ uvprev g = prv
  | q :: l' => p = q /\ exists m th lv nx,
      heap g !! q = Some (mkObj m (BUpVal (UOpen th lv prv nx))) /\ uvchain g nx q l'
  end.

Definition uvlist (g : GState) (l : list pointer) : Prop := uvchain g (uvnext g) UVHEAD l.

(** the level of an open upvalue *)
Definition uv_level (g : GState) (p : pointer) : Z :=
  match heap g !! p with
  | Some (mkObj _ (BUpVal (UOpen _ lv _ _))) => lv
  | _ => 0
  end.

Definition is_thread (g : GState) (p : pointer) (t : Thread) : Prop :=
  exists m, heap g !! p = Some (mkObj m (BThread t)).

(** the chain an object belongs to *)
Definition in_chain (g : GState) (p : pointer) (b : Body) : Prop :=
  match b with
  | BString _ => p ∈ concat (strt g)
  | BUpVal (UOpen th _ _ _) => exists t, is_thread g th t /\ p ∈ openupval t
  | _ => p ∈ rootgc g \/ p ∈ tmudata g
  end.

Definition is_udata (g : GState) (p : pointer) : Prop :=
  exists m u, heap g !! p = Some (mkObj m (BUdata u)).

Record linked (g : GState) : Prop := {
  ln_head : heap g !! UVHEAD = None;
  ln_nodup : NoDup (rootgc g ++ concat (strt g) ++ tmudata g);
  ln_all p o : heap g !! p = Some o -> in_chain g p (body o);
  ln_root p : p ∈ rootgc g -> exists o, heap g !! p = Some o /\
                body_tt (body o) <> GAFQ_TSTRING /\ ~ is_open (body o);
  ln_strt p : p ∈ concat (strt g) -> exists m ts, heap g !! p = Some (mkObj m (BString ts));
  ln_tmu p : p ∈ tmudata g -> is_udata g p;
  ln_open th t : is_thread g th t -> NoDup (openupval t) /\
    forall p, p ∈ openupval t -> exists m lv pr nx, heap g !! p = Some (mkObj m (BUpVal (UOpen th lv pr nx)));
  ln_sorted th t : is_thread g th t -> StronglySorted (fun p q => uv_level g q < uv_level g p) (openupval t);
  ln_main : exists pre us, rootgc g = pre ++ mainthread g :: us /\ Forall (is_udata g) us;
  ln_uv : exists l, uvlist g l /\ NoDup l /\
    forall p, p ∈ l <-> exists o, heap g !! p = Some o /\ is_open (body o);
  ln_fixed p o : heap g !! p = Some o -> Z.testbit (marked o) FIXEDBIT = true ->
    p = mainthread g \/ body_tt (body o) = GAFQ_TSTRING
}.

(** the pointers of the global state and the running thread *)
Definition root_refs (g : GState) : list ref :=
  (mainthread g, GAFQ_TTHREAD) :: val_refs (l_registry g) ++ (mt g ≫= opt_refs GAFQ_TTABLE).

(** ** Changes that keep the lists *)

Lemma msim_frame_fields g g' : msim g g' ->
  strt g' = strt g /\ rootgc g' = rootgc g /\ tmudata g' = tmudata g /\ mainthread g' = mainthread g /\
  uvprev g' = uvprev g /\ uvnext g' = uvnext g /\ l_registry g' = l_registry g /\ mt g' = mt g /\
  currentwhite g' = currentwhite g /\ gcstate g' = gcstate g.
Proof. intros [F _]. unfold frame in F. injection F; intros; split_and!; done. Qed.

(** the parts of a body that the lists depend on *)
Definition links_same (b b' : Body) : Prop :=
  body_tt b' = body_tt b /\
  match b, b' with
  | BUpVal u, BUpVal u' => u' = u
  | BThread t, BThread t' => openupval t' = openupval t
  | _, _ => True
  end.

(** only strings are fixed after their creation *)
Definition fixed_ok (o o' : GCObject) : Prop :=
  Z.testbit (marked o') FIXEDBIT = Z.testbit (marked o) FIXEDBIT \/ body_tt (body o) = GAFQ_TSTRING.

Record lsim (g g' : GState) : Prop := {
  ls_frame : frame g' = frame g;
  ls_heap p : match heap g !! p, heap g' !! p with
              | Some o, Some o' =>
                  fixed_ok o o' /\ links_same (body o) (body o')
              | None, None => True
              | _, _ => False
              end
}.

Lemma body_sim_links b b' : body_sim b b' -> links_same b b'.
Proof. intros B. destruct B as [[]| |]; by split. Qed.

Lemma msim_lsim g g' : msim g g' -> lsim g g'.
Proof.
  intros [F H]. split; [done|]. intros p. specialize (H p).
  destruct (heap g !! p), (heap g' !! p); try done. destruct H as [(_ & _ & _ & E) B].
  split; [by left|by apply body_sim_links].
Qed.

Coercion msim_lsim : msim >-> lsim.

Lemma lsim_fwd g g' p o : lsim g g' -> heap g !! p = Some o -> exists o', heap g' !! p = Some o' /\
  fixed_ok o o' /\ links_same (body o) (body o').
Proof. intros [_ H] E. specialize (H p). rewrite E in H. destruct (heap g' !! p); [eauto|done]. Qed.

Lemma lsim_bwd g g' p o' : lsim g g' -> heap g' !! p = Some o' -> exists o, heap g !! p = Some o /\
  fixed_ok o o' /\ links_same (body o) (body o').
Proof. intros [_ H] E. specialize (H p). rewrite E in H. destruct (heap g !! p); [eauto|done]. Qed.

Lemma lsim_size g g' : lsim g g' -> size (heap g') = size (heap g).
Proof.
  intros S. rewrite <- !size_dom. f_equal. apply set_eq. intros p. rewrite !elem_of_dom.
  split; intros [o E]; [destruct (lsim_bwd _ _ _ _ S E) as (o' & E' & _)|destruct (lsim_fwd _ _ _ _ S E) as (o' & E' & _)]; eauto.
Qed.

Lemma links_same_open b b' : links_same b b' -> is_open b' <-> is_open b.
Proof.
  intros [T H]. destruct b as [| | | | | |[]|], b' as [| | | | | |[]|]; try discriminate T; done.
Qed.

Lemma thread_fwd g g' p t : lsim g g' -> is_thread g p t -> exists t', is_thread g' p t' /\ openupval t' = openupval t.
Proof.
  intros S [m E]. destruct (lsim_fwd _ _ _ _ S E) as ([m' b] & E' & _ & T & H). simpl in *.
  destruct b; try discriminate T. eexists; (split; [by exists m'|done]).
Qed.

Lemma thread_bwd g g' p t : lsim g g' -> is_thread g' p t -> exists t0, is_thread g p t0 /\ openupval t = openupval t0.
Proof.
  intros S [m E]. destruct (lsim_bwd _ _ _ _ S E) as ([m' b] & E' & _ & T & H). simpl in *.
  destruct b; try discriminate T. eexists; (split; [by exists m'|done]).
Qed.

Lemma upval_fwd g g' p m uv : lsim g g' -> heap g !! p = Some (mkObj m (BUpVal uv)) ->
  exists m', heap g' !! p = Some (mkObj m' (BUpVal uv)).
Proof.
  intros S E. destruct (lsim_fwd _ _ _ _ S E) as ([m' b] & E' & _ & T & H). simpl in *.
  destruct b; try discriminate T. subst. eauto.
Qed.

Lemma uv_level_sim g g' p : lsim g g' -> uv_level g' p = uv_level g p.
Proof.
  intros [_ H]. specialize (H p). unfold uv_level.
  destruct (heap g !! p) as [[m b]|], (heap g' !! p) as [[m' b']|]; try done.
  destruct H as (_ & T & B). simpl in *. destruct b, b'; try discriminate T; try done. by subst.
Qed.

Lemma uvchain_sim g g' l : lsim g g' -> forall p prv, uvchain g p prv l -> uvchain g' p prv l.
Proof.
  intros S. induction l as [|q l IH]; intros p prv; simpl.
  - intros [-> <-]. split; [done|]. pose proof (ls_frame _ _ S) as F. unfold frame in F. by injection F.
  - intros (-> & m & th & lv & nx & E & H). split; [done|].
    destruct (upval_fwd _ _ _ _ _ S E) as [m' E']. exists m', th, lv, nx. auto.
Qed.

Lemma udata_fwd g g' p : lsim g g' -> is_udata g p -> is_udata g' p.
Proof.
  intros S (m & u & E). destruct (lsim_fwd _ _ _ _ S E) as ([m' b] & E' & _ & T & H). simpl in *.
  destruct b; try discriminate T. by eexists _, _.
Qed.

Lemma linked_sim g g' : lsim g g' -> linked g -> linked g'.
Proof.
  intros S [Hh N A R St Tm Op So Ma Uv Fx].
  pose proof (ls_frame _ _ S) as F. unfold frame in F. injection F as Es _ _ _ _ Er _ Et _ Em _ En _ _.
  split; rewrite ?Es, ?Er, ?Et, ?Em; try done.
  - pose proof (ls_heap _ _ S UVHEAD) as H. rewrite Hh in H. by destruct (heap g' !! UVHEAD).
  - intros p o' E'. destruct (lsim_bwd _ _ _ _ S E') as (o & E & _ & T & B). specialize (A p o E).
    unfold in_chain in *. rewrite Es, Er, Et.
    destruct (body o) as [| | | | | |[th lv pr nx|]|], (body o') as [| | | | | |[th' lv' pr' nx'|]|];
      try discriminate T; try discriminate B; try done. injection B as -> -> -> ->.
    destruct A as (t & Tt & Hp). destruct (thread_fwd _ _ _ _ S Tt) as (t' & T' & Eo).
    exists t'. by rewrite Eo.
  - intros p Hp. destruct (R p Hp) as (o & E & H1 & H2).
    destruct (lsim_fwd _ _ _ _ S E) as (o' & E' & _ & B). exists o'.
    rewrite (links_same_open _ _ B). destruct B as [-> _]. done.
  - intros p Hp. destruct (St p Hp) as (m & ts & E).
    destruct (lsim_fwd _ _ _ _ S E) as ([m' b] & E' & _ & T & _). destruct b; try discriminate T. eauto.
  - intros p Hp. by eapply udata_fwd; eauto.
  - intros th t' T'. destruct (thread_bwd _ _ _ _ S T') as (t & T & Eo). rewrite Eo.
    destruct (Op th t T) as [H1 H2]. split; [done|]. intros p Hp. destruct (H2 p Hp) as (m & lv & pr & nx & E).
    destruct (upval_fwd _ _ _ _ _ S E) as [m' E']. by exists m', lv, pr, nx.
  - intros th t' T'. destruct (thread_bwd _ _ _ _ S T') as (t & T & Eo). rewrite Eo.
    eapply StronglySorted_mono; [|by eapply So]. intros x y. by rewrite !(uv_level_sim g g').
  - destruct Ma as (pre & us & E & H). exists pre, us. split; [done|].
    eapply Forall_impl; [done|]. intros u. by apply udata_fwd.
  - destruct Uv as (l & H & Nl & Hl). exists l. split; [unfold uvlist; rewrite En; by apply (uvchain_sim g)|].
    split; [done|]. intros p. rewrite Hl. split.
    + intros (o & E & Ho). destruct (lsim_fwd _ _ _ _ S E) as (o' & E' & _ & B). exists o'.
      by rewrite (links_same_open _ _ B).
    + intros (o' & E' & Ho). destruct (lsim_bwd _ _ _ _ S E') as (o & E & _ & B). exists o.
      by rewrite (links_same_open _ _ B) in Ho.
  - intros p o' E' Hf. destruct (lsim_bwd _ _ _ _ S E') as (o & E & Ef & T & _).
    rewrite T. destruct Ef as [Ef|Ef]; [apply (Fx p o E); congruence|by right].
Qed.

Lemma root_refs_sim g g' : msim g g' -> root_refs g' = root_refs g.
Proof.
  intros S. destruct (msim_frame_fields _ _ S) as (_ & _ & _ & Em & _ & _ & Er & Et & _).
  unfold root_refs. by rewrite Em, Er, Et.
Qed.

Lemma uvchain_ext g g' l : heap g' = heap g -> uvprev g' = uvprev g ->
  forall p prv, uvchain g p prv l -> uvchain g' p prv l.
Proof.
  intros H U. induction l as [|q l IH]; intros p prv; simpl; rewrite ?U; [done|].
  intros (-> & m & th & lv & nx & E & Hc). split; [done|]. exists m, th, lv, nx. rewrite H. auto.
Qed.

(** ** Splitting a chain *)

Lemma split_after_spec x pre post : x ∉ pre -> split_after x (pre ++ x :: post) = (pre ++ [x], post).
Proof.
  induction pre as [|y pre IH]; intros H; simpl.
  - by rewrite Z.eqb_refl.
  - rewrite not_elem_of_cons in H. destruct (Z.eqb_spec x y); [tauto|]. rewrite IH; tauto.
Qed.

Lemma in_chain_fields g g' p b :
  heap g' = heap g -> strt g' = strt g ->
  (forall q, q ∈ rootgc g \/ q ∈ tmudata g -> q ∈ rootgc g' \/ q ∈ tmudata g') ->
  in_chain g p b -> in_chain g' p b.
Proof.
  intros H S R A. unfold in_chain, is_thread in *. rewrite H, S. destruct b as [| | | | | |[]|]; auto.
Qed.

(** some of the userdata after the main thread move to the end of [tmudata] *)
Lemma linked_separate g pre us l new :
  linked g -> rootgc g = pre ++ mainthread g :: us -> Forall (is_udata g) us -> l ++ new ≡ₚ us ->
  linked (set_rootgc (set_tmudata g (tmudata g ++ new)) (pre ++ mainthread g :: l)).
Proof.
  intros [Hh N A R St Tm Op So Ma Uv Fx] Er U P.
  assert (rootgc g ++ concat (strt g) ++ tmudata g ≡ₚ
          (pre ++ mainthread g :: l) ++ concat (strt g) ++ tmudata g ++ new) as Pn.
  { rewrite Er, <- P. solve_Permutation. }
  split; try done.
  - simpl. by rewrite <- Pn.
  - intros p o E. eapply in_chain_fields; [..|by apply A]; [done|done|].
    intros q Hq. simpl. assert (q ∈ us -> q ∈ l \/ q ∈ new) as Hus by (rewrite <- P; set_solver).
    rewrite Er in Hq. set_solver.
  - intros p Hp. simpl in Hp. apply R. rewrite Er. assert (p ∈ l -> p ∈ us) by (rewrite <- P; set_solver). set_solver.
  - intros p Hp. simpl in Hp. apply elem_of_app in Hp as [Hp|Hp]; [by apply Tm|].
    rewrite Forall_forall in U. apply U. rewrite <- P. set_solver.
  - exists pre, l. split; [done|]. rewrite Forall_forall in U |- *. intros x Hx. apply U. rewrite <- P. set_solver.
  - destruct Uv as (l0 & H & N0 & H0). exists l0. split; [|done]. by eapply uvchain_ext; [..|exact H].
Qed.

Lemma linked_ext g g' :
  heap g' = heap g -> strt g' = strt g -> rootgc g' = rootgc g -> tmudata g' = tmudata g ->
  mainthread g' = mainthread g -> uvprev g' = uvprev g -> uvnext g' = uvnext g -> linked g -> linked g'.
Proof.
  intros H S R T M P N [Hh Nd A Rt St Tm Op So Ma Uv Fx].
  split; unfold in_chain, is_thread, is_udata, uv_level, uvlist in *; rewrite ?H, ?S, ?R, ?T, ?M, ?N; try done.
  destruct Uv as (l & Hl & H0). exists l. split; [|done]. by eapply uvchain_ext; [..|exact Hl].
Qed.

(** threads are in the chain [rootgc] *)
Lemma thread_in_root g p t : linked g -> is_thread g p t -> p ∈ rootgc g.
Proof.
  intros L [m E]. destruct (ln_all _ L p _ E) as [?|Hp]; [done|].
  destruct (ln_tmu _ L p Hp) as (m' & u & E'). congruence.
Qed.
