(* ===== verification/GcAtomic.v ===== *)
(** * The atomic step, up to the weak tables

    From an incremental state, whose pending objects are [grayagain], [weak],
    [tmudata] and the open upvalues, [atomic] reaches one where nothing is
    pending: every object that is not white refers to no white object, but for
    the weak parts of weak tables. *)

From stdpp Require Import gmap sets.
From S2P Require Import Prelude Number Object Table Heap Tm Gc Func GcSweep GcLogic GcInv GcMark GcTraverse GcPropagate GcLinks.

(** ** States that differ in other fields *)

Lemma inv_ext D x g g' :
  heap g' = heap g -> gray g' = gray g -> grayagain g' = grayagain g -> weak g' = weak g ->
  inv D x g -> inv D x g'.
Proof.
  intros H G A W [R S T [N M Wk X Th]].
  assert (forall b, body_refs g' b = body_refs g b) as Hb.
  { intros [| | | | | |[]|]; try done. simpl. unfold slot_of. by rewrite H. }
  assert (forall o, scan_refs g' o = scan_refs g o) as Hs.
  { intros o. unfold scan_refs. destruct (body o); done || apply Hb. }
  split.
  - intros p o E. rewrite H in E. rewrite Hb. eapply Forall_impl; [by eapply R|].
    intros r. unfold typed. by rewrite H.
  - intros p o E. rewrite H in E. specialize (S p o E).
    destruct (body o) as [| | | | | |[]|]; try done. simpl in *. by rewrite H.
  - intros p o E Wp. rewrite H in E. rewrite G. destruct (T p o E Wp) as [?|[?|[H1 H2]]]; [by left|by right; left|].
    right; right. unfold scanned. rewrite Hs, W. split; [|done].
    eapply Forall_impl; [done|]. intros r. unfold nonwhite. by rewrite H.
  - split.
    + unfold lists. by rewrite G, A, W.
    + intros p Hp. rewrite H. apply M. unfold lists in *. by rewrite G, A, W in Hp.
    + intros p. rewrite W, H. apply Wk.
    + intros p o. rewrite H. apply X.
    + intros p m t. rewrite H, G, A. apply Th.
Qed.

(** the same bodies *)
Definition same_bodies (g g' : GState) : Prop := forall p, body <$> heap g' !! p = body <$> heap g !! p.

Lemma same_bodies_fwd g g' p o :
  same_bodies g g' -> heap g !! p = Some o -> exists m, heap g' !! p = Some (mkObj m (body o)).
Proof.
  intros B E. specialize (B p). rewrite E in B. simpl in B.
  destruct (heap g' !! p) as [[m b]|]; [|done]. injection B as ->. by exists m.
Qed.

Lemma same_bodies_bwd g g' p o' :
  same_bodies g g' -> heap g' !! p = Some o' -> exists m, heap g !! p = Some (mkObj m (body o')).
Proof. intros B. apply same_bodies_fwd. intros q. by rewrite B. Qed.

Lemma slot_same g g' th lv : same_bodies g g' -> slot_of g' th lv = slot_of g th lv.
Proof.
  intros B. specialize (B th). unfold slot_of.
  destruct (heap g' !! th) as [[m b]|], (heap g !! th) as [[m' b']|]; try done. by injection B as ->.
Qed.

Lemma body_refs_same g g' b : same_bodies g g' -> body_refs g' b = body_refs g b.
Proof. intros B. destruct b as [| | | | | |[]|]; try done. simpl. by rewrite (slot_same g g'). Qed.

Lemma typed_same g g' r : same_bodies g g' -> typed g r -> typed g' r.
Proof. intros B (o & E & T). destruct (same_bodies_fwd _ _ _ _ B E) as [m E']. by eexists. Qed.

Lemma allrefs_same g g' : same_bodies g g' -> allrefs g -> allrefs g'.
Proof.
  intros B R p o' E'. destruct (same_bodies_bwd _ _ _ _ B E') as [m E].
  rewrite (body_refs_same g g') by done. eapply Forall_impl; [by eapply (R p _ E)|].
  intros r. by apply typed_same.
Qed.

Lemma shape_same g g' : same_bodies g g' -> shape g -> shape g'.
Proof.
  intros B S p o' E'. destruct (same_bodies_bwd _ _ _ _ B E') as [m E]. specialize (S p _ E). simpl in S.
  destruct (body o') as [| | | | | |[]|]; try done. simpl in *.
  destruct S as (m' & t & Et & L). destruct (same_bodies_fwd _ _ _ _ B Et) as [m2 E2]. eauto.
Qed.

(** ** Open upvalues *)

Lemma remark_loop_spec D l : forall fuel p prv g,
  inv (fun q => D q \/ q ∈ l) None g -> uvchain g p prv l -> heap g !! UVHEAD = None -> (length l < fuel)%nat ->
  wp (remark_loop fuel p) (fun _ g' => inv D None g' /\ marks g g') g.
Proof.
  induction l as [|q l IH]; intros [|fuel] p prv g I Hc Hh Hf; simpl in Hf; try lia; simpl.
  - destruct Hc as [-> _]. rewrite Z.eqb_refl. wp_step. split; [|apply marks_refl]. eapply inv_weaken; [done|]. set_solver.
  - destruct Hc as (-> & m & th & lv & nx & E & Hc).
    destruct (Z.eqb_spec q UVHEAD) as [->|]; [congruence|].
    wp_step. eapply wp_gco2uv; [done|]. wp_step. eapply wp_getmarked; [done|]. cbn [marked].
    pose proof (i_shape _ _ _ I q _ E) as Sh. pose proof (i_refs _ _ _ I q _ E) as R. simpl in R.
    wp_step. eapply (wp_mono _ (fun _ g' => inv (fun x => D x \/ x ∈ l) None g' /\ marks g g')).
    + destruct (isgray m) eqn:Gm.
      * wp_step. apply uv_value_spec; [done|]. eapply wp_mono; [by eapply markvalue_spec|].
        intros [] g1 (I1 & M1 & N1). split; [|done].
        destruct (upval_fwd _ _ _ _ _ (mk_sim _ _ M1) E) as [m1 E1].
        apply (inv_drop (fun x => D x \/ x ∈ l) None g1 q (mkObj m1 (BUpVal (UOpen th lv prv nx)))); [|done|].
        -- eapply inv_weaken; [done|]. intros x. cbv beta. rewrite elem_of_cons. tauto.
        -- split; [|discriminate]. unfold scan_refs. simpl.
           unfold nonwhite_val in N1.
           pose proof (body_refs_sim g g1 _ _ (mk_sim _ _ M1) Sh (sim_refl _)) as Er. simpl in Er.
           by rewrite Er.
      * wp_step. split; [|apply marks_refl].
        assert (isblack m = false) as Bm by (apply (q_excl _ _ (i_queued _ _ _ I) q _ E); by right).
        unfold isgray in Gm. rewrite Bm in Gm. simpl in Gm. apply negb_false_iff in Gm.
        destruct I as [R' S' T' Q']. split; [done|done| |done].
        eapply tricolour_drop; [done|]. intros x o [?|Hx] Ex Wx; [by right; left; left|].
        apply elem_of_cons in Hx as [->|Hx]; [|by right; left; right]. simplify_eq. simpl in Wx. congruence.
    + intros [] g1 (I1 & M1). cbv beta. eapply wp_mono.
      * apply (IH fuel nx q g1); [done|by apply (uvchain_sim g g1 l (mk_sim _ _ M1))| |lia].
        pose proof (ms_heap _ _ (mk_sim _ _ M1) UVHEAD) as H. rewrite Hh in H. by destruct (heap g1 !! UVHEAD).
      * intros [] g2 (I2 & M2). split; [done|]. by eapply marks_trans.
Qed.

Lemma remarkupvals_spec (D : pointer -> Prop) g :
  linked g -> inv (fun q => D q \/ exists o, heap g !! q = Some o /\ is_open (body o)) None g ->
  wp remarkupvals (fun _ g' => inv D None g' /\ marks g g') g.
Proof.
  intros L I. destruct (ln_uv _ L) as (l & Hl & Nl & Ho). unfold remarkupvals. wp_step. wp_step.
  eapply (remark_loop_spec D l); [|done|apply (ln_head _ L)|].
  - eapply inv_weaken; [done|]. intros q. cbv beta. rewrite Ho. tauto.
  - apply Nat.lt_succ_r. rewrite <- size_dom, <- (size_list_to_set (C := gset pointer) l) by done.
    apply subseteq_size. intros q Hq. rewrite elem_of_list_to_set in Hq. apply Ho in Hq as (o & E & _).
    apply elem_of_dom. eauto.
Qed.

(** ** Lists that are traversed again *)

Lemma requeue (D : pointer -> Prop) (X : list pointer) g g' :
  inv (fun p => D p \/ p ∈ X) None g -> gray g = [] -> heap g' = heap g -> frame g' = frame g ->
  lists g' ≡ₚ lists g -> weak g' ⊆ weak g -> X ⊆ gray g' ->
  (forall p, p ∈ weak g -> p ∈ gray g' \/ p ∈ weak g') ->
  (forall p, p ∈ grayagain g -> p ∈ gray g' \/ p ∈ grayagain g') -> inv D None g'.
Proof.
  intros I G H F L Wk' HX HW HA.
  assert (msim g g') as S by (by apply msim_lists).
  destruct I as [R Sh T [N M Wk Xq Th]].
  split; [by eapply allrefs_sim|by eapply shape_sim| |].
  - intros p o E Wp. rewrite H in E. destruct (T p o E Wp) as [Hp|[[?|Hp]|[H1 H2]]].
    + rewrite G in Hp. set_solver.
    + by right; left.
    + left. set_solver.
    + destruct (decide (p ∈ gray g')) as [|Hg]; [by left|]. right; right. split.
      * rewrite (scan_refs_sim g g' o o); [|done|by eapply Sh|constructor|done].
        by eapply nonwhites_sim.
      * intros B Tt. destruct (HW p (H2 B Tt)); done.
  - split.
    + by rewrite L.
    + intros p Hp. rewrite H. apply M. by rewrite <- L.
    + intros p Hp. rewrite H. apply Wk. set_solver.
    + intros p o. rewrite H. apply Xq.
    + intros p m t E Wp Hp. rewrite H in E. apply HA. destruct (Th p m t E Wp Hp) as [K|K]; [|done].
      rewrite G in K. by apply elem_of_nil in K.
Qed.

Lemma requeue_weak D X g :
  inv (fun p => D p \/ p ∈ X) None g -> gray g = [] -> X ⊆ weak g ->
  inv D None (set_weak (set_gray g (weak g)) []).
Proof.
  intros I G HX. eapply (requeue D X g); auto.
  - unfold lists. simpl. rewrite G, app_nil_r. simpl. by rewrite Permutation_app_comm.
  - simpl. set_solver.
Qed.

Lemma requeue_again D X g :
  inv (fun p => D p \/ p ∈ X) None g -> gray g = [] -> X ⊆ grayagain g ->
  inv D None (set_grayagain (set_gray g (grayagain g)) []).
Proof.
  intros I G HX. eapply (requeue D X g); auto. unfold lists. simpl. by rewrite G.
Qed.

(** ** Metatables of the basic types *)

Lemma markmt_spec D x g :
  inv D x g -> Forall (typed g) (mt g ≫= opt_refs GAFQ_TTABLE) ->
  wp markmt (fun _ g' => inv D x g' /\ marks g g' /\ nonwhites g' (mt g ≫= opt_refs GAFQ_TTABLE)) g.
Proof.
  intros I T. unfold markmt. wp_step. wp_step.
  apply (marking_list D x (opt_refs GAFQ_TTABLE) markopt); [|done|done]. intros a. apply marking_opt.
Qed.

(** ** Userdata to be finalized *)

Lemma mark_le_markfinalized m : mark_le m (markfinalized m).
Proof.
  apply mark_le_same; rewrite ?iswhite_eq, ?markfinalized_bits by (unfold FIXEDBIT; lia); done.
Qed.

Lemma markfinalized_spec D x g p m u :
  inv D x g -> heap g !! p = Some (mkObj m (BUdata u)) ->
  wp (mark_with p markfinalized) (fun _ g' => inv D x g' /\ marks g g') g.
Proof.
  intros I E. eapply wp_mark_with; [done|]. cbn [marked].
  assert (isblack (markfinalized m) = isblack m) as Bm by (by rewrite !isblack_eq, markfinalized_bits by lia).
  assert (iswhite (markfinalized m) = iswhite m) as Wm by (by rewrite !iswhite_eq, !markfinalized_bits by lia).
  assert (obj_sim (mkObj m (BUdata u)) (mkObj (markfinalized m) (BUdata u))) as Si.
  { split; [apply mark_le_markfinalized|constructor]. }
  set (g' := on_heap _ g).
  assert (msim g g') as S by (eapply (msim_update g (fun _ => g')); eauto).
  apply (inv_update D x g g' p _ (mkObj (markfinalized m) (BUdata u)) I E Si); try done.
  - do 4 right. unfold recoloured. simpl. rewrite Wm. destruct (iswhite m); [by left|by right].
  - simpl. rewrite Bm. intros Hp Hx. by destruct (q_member _ _ (i_queued _ _ _ I) p Hp) as (o & E' & _ & C & _); simplify_eq.
  - simpl. rewrite Bm, Wm. apply (q_excl _ _ (i_queued _ _ _ I) p _ E).
Qed.

Lemma msim_tmudata g g' t : msim g g' -> msim (set_tmudata g t) (set_tmudata g' t).
Proof.
  intros [F H]. split; [|exact H]. unfold frame in *. simpl. injection F; intros. congruence.
Qed.

Lemma msim_rootgc g g' l : msim g g' -> msim (set_rootgc g l) (set_rootgc g' l).
Proof.
  intros [F H]. split; [|exact H]. unfold frame in *. simpl. injection F; intros. congruence.
Qed.

(** what the separation of some of the userdata [us] leaves *)
Definition separated (D : pointer -> Prop) (us l : list pointer) (g g' : GState) : Prop :=
  inv D None g' /\ gray g' = gray g /\
  exists new, msim (set_tmudata g (tmudata g ++ new)) g' /\ l ++ new ≡ₚ us.

(** marking and fasttm leave the gray list alone when nothing new is marked *)
Lemma gfasttm_gray g et e (Q : option TValue -> GState -> Prop) :
  wp (gfasttm et e) Q g -> wp (gfasttm et e) (fun r g' => Q r g' /\ gray g' = gray g) g.
Proof.
  unfold gfasttm, wp. destruct et as [p|]; [|done]. unfold gafqT_gettm, putbody, gco2h, gets, modify, getobj, mbind, stres_bind.
  destruct (heap g !! p) as [[m []]|]; simpl; try done.
  destruct (negb _); [done|]. unfold mret, stres_ret, gets. destruct (heap g !! p) as [[m' []]|]; simpl; try done.
  destruct (ttisnil _); simpl; [|done]. destruct (heap g !! p); done.
Qed.

Lemma separate_keep D us l curr g g1 g' :
  marks g g1 -> gray g1 = gray g -> separated D us l g1 g' -> separated D (curr :: us) (curr :: l) g g'.
Proof.
  intros M1 G1 (I' & G' & new & S' & P'). split_and!; [done|congruence|].
  exists new. split; [|by rewrite <- P'].
  destruct (msim_frame_fields _ _ (mk_sim _ _ M1)) as (_ & _ & Et & _).
  eapply msim_trans; [apply msim_tmudata, (mk_sim _ _ M1)|]. by rewrite <- Et.
Qed.

Lemma separate_move D us l curr g g1 g' :
  marks g g1 -> gray g1 = gray g ->
  separated D us l (set_tmudata g1 (tmudata g1 ++ [curr])) g' -> separated D (curr :: us) l g g'.
Proof.
  intros M1 G1 (I' & G' & new & S' & P'). split_and!; [done|simpl in *; congruence|].
  exists (curr :: new). split; [|by rewrite <- Permutation_middle, P'].
  destruct (msim_frame_fields _ _ (mk_sim _ _ M1)) as (_ & _ & Et & _).
  eapply msim_trans; [apply msim_tmudata, (mk_sim _ _ M1)|].
  simpl in S'. rewrite <- (assoc_L (++)) in S'. simpl in S'. rewrite <- Et.
  eapply msim_trans; [|exact S']. by apply msim_lists.
Qed.

Lemma separate_loop_spec D us : forall g,
  inv D None g -> Forall (is_udata g) us ->
  wp (separate_loop false us) (fun r g' => separated D us r.1 g g') g.
Proof.
  induction us as [|curr us IH]; intros g I U; simpl.
  { wp_step. split_and!; [done..|]. exists []. rewrite app_nil_r. split; [|done]. by apply msim_lists. }
  inversion U as [|? ? (m & u & E) U']; subst. wp_step. eapply wp_getmarked; [done|].
  wp_step. eapply wp_gco2u; [done|]. cbn [marked].
  pose proof (i_refs _ _ _ I curr _ E) as R. simpl in R. apply Forall_app in R as [R _].
  destruct (_ || _).
  { wp_step. eapply wp_mono; [by apply IH|]. intros [l d] g' H. cbv beta. wp_step. simpl in *.
    eapply separate_keep; eauto using marks_refl. }
  wp_step. eapply wp_mono; [by apply gfasttm_gray, (gfasttm_spec D None)|].
  intros tm g1 ((I1 & M1 & _) & G1). cbv beta.
  destruct (udata_fwd _ _ _ (mk_sim _ _ M1) (ex_intro _ m (ex_intro _ u E))) as (m1 & u1 & E1).
  assert (wp (mark_with curr markfinalized)
            (fun _ g2 => inv D None g2 /\ marks g1 g2 /\ gray g2 = gray g1) g1) as Hm.
  { pose proof (markfinalized_spec D None g1 curr m1 u1 I1 E1) as H. unfold wp, mark_with, getobj, mbind, stres_bind in *.
    rewrite E1 in *. simpl in *. destruct H. auto. }
  assert (forall g2, marks g1 g2 -> Forall (is_udata g2) us) as U2.
  { intros g2 M2. eapply Forall_impl; [done|]. intros q Hq.
    eapply udata_fwd; [apply (msim_lsim _ _ (mk_sim _ _ M2))|]. eapply udata_fwd; [apply (msim_lsim _ _ (mk_sim _ _ M1))|done]. }
  destruct tm as [tm|]; wp_step; (eapply wp_mono; [exact Hm|]); intros [] g2 (I2 & M2 & G2); cbv beta; wp_step.
  - wp_step. wp_step. eapply wp_mono; [apply IH; [by eapply inv_ext; [..|exact I2]|exact (U2 g2 M2)]|].
    intros [l d] g' H. cbv beta. wp_step. simpl in *.
    eapply (separate_move D us l curr g g2); [by eapply marks_trans|congruence|done].
  - eapply wp_mono; [apply IH; [done|exact (U2 g2 M2)]|]. intros [l d] g' H. cbv beta. wp_step. simpl in *.
    eapply (separate_keep D us l curr g g2); [by eapply marks_trans|congruence|done].
Qed.

Lemma separateudata_spec D g :
  inv D None g -> linked g ->
  wp (gafqC_separateudata false) (fun _ g' => inv D None g' /\ linked g' /\ gray g' = gray g /\
      exists new r, msim (set_rootgc (set_tmudata g (tmudata g ++ new)) r) g') g.
Proof.
  intros I L. destruct (ln_main _ L) as (pre & us & Er & U). unfold gafqC_separateudata.
  wp_step. wp_step. simpl id. rewrite Er, split_after_spec.
  2: { pose proof (ln_nodup _ L) as N. rewrite Er in N. apply NoDup_app in N as [N _].
       apply NoDup_app in N as (_ & N & _). intros Hp. by eapply N; [done|constructor]. }
  wp_step. eapply wp_mono; [by apply (separate_loop_spec D us g)|].
  intros [l d] g1 (I1 & G1 & new & S1 & P1). cbv beta. simpl in P1. wp_step. wp_step. wp_step.
  assert (msim (set_rootgc (set_tmudata g (tmudata g ++ new)) (pre ++ mainthread g :: l))
               (set_rootgc g1 ((pre ++ [mainthread g]) ++ l))) as S2.
  { rewrite <- (assoc_L (++)). simpl. by apply (msim_rootgc _ _ (pre ++ mainthread g :: l)). }
  split_and!; [by eapply inv_ext; [..|exact I1]| |done|by exists new, (pre ++ mainthread g :: l)].
  eapply linked_sim; [exact (msim_lsim _ _ S2)|]. by apply (linked_separate g pre us).
Qed.

(** ** Preserved userdata: whitened, then marked *)

Lemma scan_refs_marks g g' p o o' :
  marks g g' -> shape g -> heap g !! p = Some o -> heap g' !! p = Some o' -> iswhite (marked o) = false ->
  scan_refs g' o' = scan_refs g o.
Proof.
  intros M Sh E E' W. destruct (msim_fwd _ _ _ _ (mk_sim _ _ M) E) as (o2 & E2 & _ & B). simplify_eq.
  destruct (decide (body_tt (body o) = GAFQ_TTABLE)) as [Ht|Ht].
  - apply scan_refs_sim; eauto using mk_sim. eapply (mk_keep _ _ M); eauto. by destruct (body o).
  - pose proof (body_refs_sim g g' _ _ (mk_sim _ _ M) (Sh p o E) B) as Er. pose proof (body_sim_tt _ _ B) as T.
    unfold scan_refs. destruct (body o), (body o'); try done; by rewrite Er.
Qed.

(** the state with [u] white again *)
Lemma inv_whiten D g u m b :
  inv D None g -> heap g !! u = Some (mkObj m b) -> white_ok g -> ~ container b ->
  let g1 := on_heap (insert u (mkObj (makewhite g m) b)) g in
  inv (fun p => nonwhite g p /\ p <> u) None g1.
Proof.
  intros [R Sh T [N M Wk X Th]] E W C g1.
  assert (same_bodies g g1) as B.
  { intros p. simpl. destruct (decide (p = u)) as [->|]; [by rewrite lookup_insert_eq, E|by rewrite lookup_insert_ne]. }
  split; [by eapply allrefs_same|by eapply shape_same| |].
  - intros p o Ep Wp. right; left. simpl in Ep. destruct (decide (p = u)) as [->|].
    + rewrite lookup_insert_eq in Ep. injection Ep as <-. simpl in Wp. by rewrite makewhite_white in Wp.
    + rewrite lookup_insert_ne in Ep by done. split; [by exists o|done].
  - assert (u ∉ lists g) as Hu by (intros Hu; destruct (M u Hu) as (o & Eo & _ & Co & _); by simplify_eq).
    split.
    + exact N.
    + intros p Hp. simpl. rewrite lookup_insert_ne by (intros ->; done). by apply M.
    + intros p Hp. simpl. rewrite lookup_insert_ne; [by apply Wk|]. intros ->. apply Hu. unfold lists. simpl in Hp. set_solver.
    + intros p o Ep. simpl in Ep. destruct (decide (p = u)) as [->|].
      * rewrite lookup_insert_eq in Ep. injection Ep as <-. intros _. simpl. by apply makewhite_black.
      * rewrite lookup_insert_ne in Ep by done. by apply (X p).
    + intros p m2 t2 Ep Wp Hp. simpl in Ep. destruct (decide (p = u)) as [->|].
      * rewrite lookup_insert_eq in Ep. injection Ep as _ ->. by destruct C.
      * rewrite lookup_insert_ne in Ep by done. by eapply Th.
Qed.

Lemma remark_udata D g u :
  inv (fun p => D p \/ p = u) None g -> is_udata g u -> white_ok g ->
  wp (g ← gets id; mark_with u (makewhite g);; reallymarkobject u) (fun _ g' => inv D None g' /\ msim g g' /\ nonwhite g' u) g.
Proof.
  intros I (m & ud & E) W. wp_step. wp_step. wp_step. eapply wp_mark_with; [done|]. cbn [set_marked marked body id].
  set (o1 := mkObj (makewhite g m) (BUdata ud)). set (g1 := on_heap (insert u o1) g).
  change (set_marked (makewhite g m) (mkObj m (BUdata ud))) with o1. fold g1.
  assert (inv (fun p => nonwhite g p /\ p <> u) None g1) as I1.
  { apply (inv_whiten _ g u m (BUdata ud) I E W). auto. }
  assert (heap g1 !! u = Some o1) as E1 by apply lookup_insert_eq.
  assert (forall p, p <> u -> heap g1 !! p = heap g !! p) as Hne by (intros p Hp; simpl; by rewrite lookup_insert_ne).
  eapply wp_mono; [apply (reallymarkobject_spec _ None g1 u o1 I1 E1); by apply makewhite_white|].
  intros [] g' (I' & M' & N'). cbv beta.
  assert (forall r, nonwhite g r -> nonwhite g' r) as Hnw.
  { intros r (o & Er & Wr). destruct (decide (r = u)) as [->|Hr]; [done|].
    eapply nonwhite_sim; [apply (mk_sim _ _ M')|]. exists o. by rewrite Hne. }
  split_and!; [| |done].
  - destruct I' as [R' Sh' T' Q']. split; [done|done| |done].
    intros p o' E' Wp. destruct (T' p o' E' Wp) as [?|[[(o & Eo & Wo) Hp]|?]]; [by left| |by right; right].
    destruct (i_tri _ _ _ I p o Eo Wo) as [Hg|[[Hd| ->]|[H1 H2]]]; [left; by apply (mk_gray _ _ M')|by right; left|done|].
    assert (heap g1 !! p = Some o) as Eo1 by (by rewrite Hne).
    right; right. split.
    + rewrite (scan_refs_marks g1 g' p o o' M' (i_shape _ _ _ I1) Eo1 E' Wo).
      replace (scan_refs g1 o) with (scan_refs g o); [eapply Forall_impl; [exact H1|]; intros r; apply Hnw|].
      assert (same_bodies g g1) as Bs.
      { intros q. simpl. destruct (decide (q = u)) as [->|]; [by rewrite lookup_insert_eq, E|by rewrite lookup_insert_ne]. }
      unfold scan_refs. destruct (body o); try done; symmetry; by apply (body_refs_same g g1).
    + intros Bo To. rewrite (mk_weak _ _ M'). destruct (msim_fwd _ _ _ _ (mk_sim _ _ M') Eo1) as (o2 & E2 & _ & B2).
      simplify_eq. pose proof (body_sim_tt _ _ B2) as Tt. apply H2; [|congruence].
      rewrite <- (mk_keep _ _ M' p o o' Eo1 E'); [done| |done]. rewrite To in Tt. by destruct (body o).
  - split; [apply (ms_frame _ _ (mk_sim _ _ M'))|]. intros p.
    pose proof (ms_heap _ _ (mk_sim _ _ M') p) as H. destruct (decide (p = u)) as [->|Hp]; [|by rewrite Hne in H].
    rewrite E1 in H. rewrite E. destruct N' as (o' & E' & W'). rewrite E' in H |- *.
    destruct H as [(_ & _ & _ & F) B]. split; [|done]. split; [done|].
    rewrite iswhite_eq in W'. apply orb_false_iff in W' as [-> ->]. split; [done|]. split; [done|].
    rewrite F. unfold o1. cbn [marked]. rewrite white_bits by (done || unfold FIXEDBIT; lia).
    unfold FIXEDBIT. destruct (deadbit_cases g) as [-> | ->]; done.
Qed.

Lemma marktmu_spec g :
  inv (fun p => p ∈ tmudata g) None g -> Forall (is_udata g) (tmudata g) -> white_ok g ->
  wp marktmu (fun _ g' => inv (fun _ => False) None g' /\ msim g g' /\ Forall (nonwhite g') (tmudata g)) g.
Proof.
  intros I U W. unfold marktmu. wp_step. wp_step.
  assert (forall us g0, inv (fun p => p ∈ us) None g0 -> msim g g0 -> Forall (is_udata g) us ->
    wp (for_each us (fun u => g ← gets id; mark_with u (makewhite g);; reallymarkobject u))
       (fun _ g' => inv (fun _ => False) None g' /\ msim g0 g' /\ Forall (nonwhite g') us) g0) as H.
  { induction us as [|u us IH]; intros g0 I0 S0 U0; simpl.
    - wp_step. split_and!; [|apply msim_refl|done]. eapply inv_weaken; [done|]. intros p Hp. by apply elem_of_nil in Hp.
    - inversion U0; subst. destruct (msim_frame_fields _ _ S0) as (_ & _ & _ & _ & _ & _ & _ & _ & Ec & _).
      apply wp_bind. eapply wp_mono.
      + apply (remark_udata (fun p => p ∈ us) g0 u); [|by eapply udata_fwd; [apply (msim_lsim _ _ S0)|]|unfold white_ok in *; by rewrite Ec].
        eapply inv_weaken; [done|]. intros p. cbv beta. rewrite elem_of_cons. tauto.
      + intros [] g1 (I1 & S1 & N1). cbv beta. eapply wp_mono; [apply IH; [done|by eapply msim_trans|done]|].
        intros [] g2 (I2 & S2 & N2). split_and!; [done|by eapply msim_trans|].
        constructor; [by eapply nonwhite_sim|done]. }
  apply H; [done|apply msim_refl|done].
Qed.

(** ** The mark phase and the atomic step *)

(** what the collector has still to traverse again before it may sweep *)
Definition pending (g : GState) (p : pointer) : Prop :=
  (p ∈ tmudata g \/ p ∈ grayagain g \/ p ∈ weak g) \/ exists o, heap g !! p = Some o /\ is_open (body o).

Record mark_phase (g : GState) : Prop := {
  mp_white : white_ok g;
  mp_linked : linked g;
  mp_inv : inv (pending g) None g;
  mp_fresh p o : heap g !! p = Some o -> Z.testbit (marked o) (deadbit g) = false;
  mp_roots : Forall (typed g) (root_refs g);
  mp_main : nonwhite g (mainthread g);
  mp_registry : nonwhites g (val_refs (l_registry g));
  mp_tmu : Forall (nonwhite g) (tmudata g);
  mp_strt : strt g <> []
}.

(** [atomic] up to the weak tables *)
Definition atomic_mark (L : pointer) : gc Z :=
  remarkupvals;;
  propagateall;;
  modify (fun g => set_weak (set_gray g (weak g)) []);;
  markobject L;;
  markmt;;
  propagateall;;
  modify (fun g => set_grayagain (set_gray g (grayagain g)) []);;
  propagateall;;
  udsize ← gafqC_separateudata false;
  marktmu;;
  m ← propagateall;
  mret (size_t (udsize + m)).

(** ... and the rest of it *)
Definition atomic_end (udsize : Z) : gc unit :=
  w ← gets weak;
  cleartable w;;
  modify (fun g => set_currentwhite g (u8 (otherwhite g)));;
  modify (fun g => set_sweepgc (set_sweepstrgc g 0) None);;
  modify (fun g => set_gcstate g GCSsweepstring);;
  modify (fun g => set_estimate g (size_t (totalbytes g - udsize))).

Lemma atomic_split L g : atomic L g = (u ← atomic_mark L; atomic_end u) g.
Proof.
  unfold atomic, atomic_mark, atomic_end, mbind, stres_bind, mret, stres_ret.
  repeat (match goal with
  | |- context [match ?e with Ok _ => _ | Err _ => _ end] => destruct e as [[? ?]|?]; [|reflexivity]
  end). reflexivity.
Qed.

Definition no_pending (p : pointer) : Prop := False.

Record atomic_marked (L : pointer) (g g' : GState) : Prop := {
  am_inv : inv no_pending None g';
  am_gray : gray g' = [];
  am_linked : linked g';
  am_sim : exists new r, msim (set_rootgc (set_tmudata g (tmudata g ++ new)) r) g';
  am_roots : nonwhites g' ((L, GAFQ_TTHREAD) :: root_refs g);
  am_tmu : Forall (nonwhite g') (tmudata g')
}.

(** from the traversal of the upvalues to the last list *)
Lemma atomic_propagate L g :
  mark_phase g -> gray g = [] -> typed g (L, GAFQ_TTHREAD) ->
  wp (remarkupvals;; propagateall;; modify (fun g => set_weak (set_gray g (weak g)) []);;
      markobject L;; markmt;; propagateall;;
      modify (fun g => set_grayagain (set_gray g (grayagain g)) []);; propagateall)
     (fun _ g' => inv (fun p => p ∈ tmudata g) None g' /\ gray g' = [] /\ msim g g' /\
                  nonwhites g' ((L, GAFQ_TTHREAD) :: root_refs g)) g.
Proof.
  intros [W Ln I Fr Rt Nm Nr _ _] G TL.
  wp_step. eapply wp_mono; [by apply (remarkupvals_spec (fun p => p ∈ tmudata g \/ p ∈ grayagain g \/ p ∈ weak g))|].
  intros [] g1 (I1 & M1). cbv beta. wp_step. eapply wp_mono; [by eapply propagateall_spec|].
  intros c2 g2 (I2 & P2 & G2). cbv beta. wp_step. wp_step. wp_step.
  assert (inv (fun p => p ∈ tmudata g \/ p ∈ grayagain g) None (set_weak (set_gray g2 (weak g2)) [])) as I3.
  { apply (requeue_weak _ (weak g)); [|done|].
    - eapply inv_weaken; [done|]. intros p. cbv beta. tauto.
    - rewrite <- (mk_weak _ _ M1). apply P2. }
  set (g3 := set_weak (set_gray g2 (weak g2)) []) in *.
  assert (msim g g3) as S3.
  { eapply msim_trans; [apply M1|]. eapply msim_trans; [apply P2|]. by apply msim_lists. }
  eapply wp_mono; [apply (markobject_spec _ None g3 L GAFQ_TTHREAD I3); by eapply typed_sim|].
  intros [] g4 (I4 & M4 & N4). cbv beta. wp_step.
  assert (msim g g4) as S4 by (eapply msim_trans; [done|apply M4]).
  destruct (msim_frame_fields _ _ S4) as (_ & _ & _ & _ & _ & _ & _ & Emt & _).
  unfold root_refs in Rt. apply Forall_cons in Rt as [Rm Rt]. apply Forall_app in Rt as [Rr Rt].
  eapply wp_mono; [apply (markmt_spec _ None g4 I4); rewrite Emt; by eapply typeds_sim|].
  intros [] g5 (I5 & M5 & N5). cbv beta. wp_step. eapply wp_mono; [by eapply propagateall_spec|].
  intros c6 g6 (I6 & P6 & G6). cbv beta. wp_step. wp_step.
  assert (inv (fun p => p ∈ tmudata g) None (set_grayagain (set_gray g6 (grayagain g6)) [])) as I7.
  { apply (requeue_again _ (grayagain g)); [done|done|].
    etrans; [|apply P6]. rewrite (mk_again _ _ M5), (mk_again _ _ M4). simpl. etrans; [|apply P2].
    by rewrite (mk_again _ _ M1). }
  set (g7 := set_grayagain (set_gray g6 (grayagain g6)) []) in *.
  eapply wp_mono; [by eapply propagateall_spec|]. intros c8 g8 (I8 & P8 & G8). cbv beta.
  assert (msim g5 g8) as S58.
  { eapply msim_trans; [apply P6|]. eapply (msim_trans _ g7); [by apply msim_lists|apply P8]. }
  assert (msim g4 g8) as S48 by (eapply msim_trans; [apply M5|done]).
  assert (msim g g8) as S8 by (by eapply msim_trans).
  split_and!; [done|done|done|].
  constructor; [by apply (nonwhite_sim g4)|]. constructor; [by apply (nonwhite_sim g)|].
  apply Forall_app. split; [by apply (nonwhites_sim g)|]. rewrite <- Emt. by apply (nonwhites_sim g5).
Qed.

Lemma atomic_mark_spec L g :
  mark_phase g -> gray g = [] -> typed g (L, GAFQ_TTHREAD) ->
  wp (atomic_mark L) (fun _ g' => atomic_marked L g g') g.
Proof.
  intros Mp G TL. pose proof (atomic_propagate L g Mp G TL) as H.
  apply (wp_mono _ _ (fun _ => wp (udsize ← gafqC_separateudata false; marktmu;; m ← propagateall; mret (size_t (udsize + m)))
             (fun _ g' => atomic_marked L g g'))) in H.
  - unfold atomic_mark, wp, mbind, stres_bind in *.
    repeat match goal with
    | |- context [match ?e with Ok _ => _ | Err _ => _ end] => destruct e as [[? ?]|?]; [|done]
    end. exact H.
  - clear H. intros c g1 (I1 & G1 & S1 & N1). cbv beta.
    destruct Mp as [W Ln I Fr Rt Nm Nr _ _]. pose proof (linked_sim _ _ S1 Ln) as L1.
    destruct (msim_frame_fields _ _ S1) as (_ & _ & Et & _ & _ & _ & _ & _ & Ec & _).
    wp_step. eapply wp_mono; [by apply (separateudata_spec (fun p => p ∈ tmudata g))|].
    intros d g2 (I2 & L2 & G2 & new & r & S2). cbv beta.
    destruct (msim_frame_fields _ _ S2) as (_ & _ & Et2 & _ & _ & _ & _ & _ & Ec2 & _). simpl in Et2, Ec2.
    wp_step. eapply wp_mono.
    { apply (marktmu_spec g2).
      - eapply inv_weaken; [done|]. intros p Hp. cbv beta. rewrite Et2, Et. set_solver.
      - apply Forall_forall. apply (ln_tmu _ L2).
      - unfold white_ok in *. by rewrite Ec2, Ec. }
    intros [] g3 (I3 & S3 & N3). cbv beta. wp_step. eapply wp_mono; [by eapply (propagateall_spec no_pending)|].
    intros c4 g4 (I4 & P4 & G4). cbv beta. wp_step.
    assert (msim g2 g4) as S24 by (eapply msim_trans; [done|apply P4]).
    destruct (msim_frame_fields _ _ S24) as (_ & _ & Et4 & _).
    split; [done|done|by eapply linked_sim; [exact (msim_lsim _ _ S24)|]| | |].
    + exists new, r. eapply msim_trans; [|exact S24]. eapply msim_trans; [|exact S2].
      rewrite <- Et. by apply msim_rootgc, msim_tmudata.
    + eapply (nonwhites_sim g2); [done|]. eapply Forall_impl; [exact N1|]. intros x Hx.
      apply (nonwhite_sim (set_rootgc (set_tmudata g1 (tmudata g1 ++ new)) r) g2); [done|exact Hx].
    + rewrite Et4. eapply Forall_impl; [exact N3|]. intros x. apply nonwhite_sim, P4.
Qed.
