(* ===== verification/GcPhase.v ===== *)
(** * Clearing weak tables, and the end of the atomic step

    After [cleartable] no object that is not white refers to a white one; turning
    the old white into the colour of the dead then leaves no dangling reference. *)

From stdpp Require Import gmap sets.
From S2P Require Import Prelude Number Object Table Heap Tm Gc Func GcSweep GcLogic GcInv GcMark GcTraverse GcPropagate GcLinks GcAtomic.

(** ** Tables lose entries, strings are marked *)

Inductive shrinks : Body -> Body -> Prop :=
  | sh_refl b : shrinks b b
  | sh_table t t' :
      length (array t') = length (array t) -> length (node t') = length (node t) ->
      (forall k v, table_refs k v t' ⊆ table_refs k v t) -> shrinks (BTable t) (BTable t').

Record csim (g g' : GState) : Prop := {
  cs_frame : frame g' = frame g;
  cs_weak : weak g' = weak g;
  cs_heap p : match heap g !! p, heap g' !! p with
              | Some o, Some o' => mark_le (marked o) (marked o') /\ shrinks (body o) (body o') /\
                                   (body_tt (body o) <> GAFQ_TSTRING -> marked o' = marked o) /\
                                   isblack (marked o') = isblack (marked o)
              | None, None => True
              | _, _ => False
              end
}.

Lemma shrinks_trans b1 b2 b3 : shrinks b1 b2 -> shrinks b2 b3 -> shrinks b1 b3.
Proof.
  intros [|t t' A N R]; intros H; [done|]. inversion H as [|? t2 A2 N2 R2]; subst; [by constructor|].
  constructor; [congruence|congruence|]. intros k v. etrans; [apply R2|apply R].
Qed.

Lemma csim_refl g : csim g g.
Proof. split; [done|done|]. intros p. destruct (heap g !! p); [|done]. split_and!; [apply mark_le_refl|constructor|done|done]. Qed.

Lemma shrinks_tt b b' : shrinks b b' -> body_tt b' = body_tt b.
Proof. by intros []. Qed.

Lemma csim_trans g1 g2 g3 : csim g1 g2 -> csim g2 g3 -> csim g1 g3.
Proof.
  intros [F1 W1 H1] [F2 W2 H2]. split; [congruence|congruence|]. intros p. specialize (H1 p). specialize (H2 p).
  destruct (heap g1 !! p), (heap g2 !! p), (heap g3 !! p); try done.
  destruct H1 as (L1 & S1 & K1 & B1), H2 as (L2 & S2 & K2 & B2).
  split_and!; [by eapply mark_le_trans|by eapply shrinks_trans| |congruence].
  intros C. rewrite K2, K1; [done|done|]. by rewrite (shrinks_tt _ _ S1).
Qed.

Lemma csim_fwd g g' p o : csim g g' -> heap g !! p = Some o -> exists o', heap g' !! p = Some o' /\
  mark_le (marked o) (marked o') /\ shrinks (body o) (body o') /\ (body_tt (body o) <> GAFQ_TSTRING -> marked o' = marked o) /\
  isblack (marked o') = isblack (marked o).
Proof. intros [_ _ H] E. specialize (H p). rewrite E in H. destruct (heap g' !! p); [eauto|done]. Qed.

Lemma csim_bwd g g' p o' : csim g g' -> heap g' !! p = Some o' -> exists o, heap g !! p = Some o /\
  mark_le (marked o) (marked o') /\ shrinks (body o) (body o') /\ (body_tt (body o) <> GAFQ_TSTRING -> marked o' = marked o) /\
  isblack (marked o') = isblack (marked o).
Proof. intros [_ _ H] E. specialize (H p). rewrite E in H. destruct (heap g !! p); [eauto|done]. Qed.

Lemma csim_update g g' p o o' :
  heap g !! p = Some o -> frame g' = frame g -> weak g' = weak g -> heap g' = <[p := o']> (heap g) ->
  mark_le (marked o) (marked o') -> shrinks (body o) (body o') ->
  (body_tt (body o) <> GAFQ_TSTRING -> marked o' = marked o) ->
  isblack (marked o') = isblack (marked o) -> csim g g'.
Proof.
  intros E F W H L S K B. split; [done|done|]. intros q. rewrite H. destruct (decide (p = q)) as [->|Hne].
  - by rewrite lookup_insert_eq, E.
  - rewrite lookup_insert_ne by done. apply csim_refl.
Qed.

Lemma csim_lsim g g' : csim g g' -> lsim g g'.
Proof.
  intros [F _ H]. split; [done|]. intros p. specialize (H p).
  destruct (heap g !! p), (heap g' !! p); try done. destruct H as ((_ & _ & _ & E) & S & _).
  split; [by left|]. destruct S as [[]|]; by split.
Qed.

Lemma typed_csim g g' r : csim g g' -> typed g r -> typed g' r.
Proof.
  intros S (o & E & T). destruct (csim_fwd _ _ _ _ S E) as (o' & E' & _ & B & _).
  exists o'. split; [done|]. by rewrite (shrinks_tt _ _ B).
Qed.

Lemma nonwhite_csim g g' p : csim g g' -> nonwhite g p -> nonwhite g' p.
Proof.
  intros S (o & E & W). destruct (csim_fwd _ _ _ _ S E) as (o' & E' & (M & _) & _). exists o'. auto.
Qed.

Lemma nonwhites_csim g g' l : csim g g' -> nonwhites g l -> nonwhites g' l.
Proof. intros S H. eapply Forall_impl; [done|]. intros r. by apply nonwhite_csim. Qed.

Lemma slot_csim g g' th lv : csim g g' -> slot_of g' th lv = slot_of g th lv.
Proof.
  intros [_ _ H]. specialize (H th). unfold slot_of.
  destruct (heap g !! th) as [[m b]|], (heap g' !! th) as [[m' b']|]; try done.
  destruct H as (_ & S & _). simpl in S. by destruct S.
Qed.

Lemma body_refs_csim g g' b b' : csim g g' -> shrinks b b' -> body_refs g' b' ⊆ body_refs g b.
Proof.
  intros S [b0|t t' A N R]; [|apply R].
  destruct b0 as [| | | | | |[]|]; try done. simpl. by rewrite (slot_csim g g').
Qed.

Lemma Forall_subset {A} (P : A -> Prop) (l l' : list A) : l' ⊆ l -> Forall P l -> Forall P l'.
Proof. intros H. rewrite !Forall_forall. auto. Qed.

Lemma allrefs_csim g g' : csim g g' -> allrefs g -> allrefs g'.
Proof.
  intros S R p o' E'. destruct (csim_bwd _ _ _ _ S E') as (o & E & _ & B & _).
  eapply Forall_subset; [by apply (body_refs_csim g g' (body o))|].
  eapply Forall_impl; [by eapply R|]. intros r. by apply typed_csim.
Qed.

Lemma shape_csim g g' : csim g g' -> shape g -> shape g'.
Proof.
  intros S Sh p o' E'. destruct (csim_bwd _ _ _ _ S E') as (o & E & _ & B & _). specialize (Sh p o E).
  destruct B as [b|]; [|done]. destruct b as [| | | | | |[th lv pr nx|v]|]; try done. simpl in *.
  destruct Sh as (m & t & Et & L). destruct (csim_fwd _ _ _ _ S Et) as ([m' b'] & E2 & _ & B2 & _). simpl in B2.
  inversion B2; subst. eauto.
Qed.

(** ** One value *)

(** the tables are untouched *)
Definition tables_same (g g' : GState) : Prop :=
  forall h m t, heap g !! h = Some (mkObj m (BTable t)) -> heap g' !! h = Some (mkObj m (BTable t)).

Lemma tables_same_refl g : tables_same g g.
Proof. intros h m t E. exact E. Qed.

Lemma iscleared_spec g o iskey :
  Forall (typed g) (val_refs o) ->
  wp (iscleared o iskey) (fun c g' => csim g g' /\ tables_same g g' /\ (c = false -> nonwhite_val g' o)) g.
Proof.
  intros T. unfold iscleared, nonwhite_val, val_refs in *. destruct (iscollectable o) eqn:Co; cbn [negb].
  2: { wp_step. split_and!; [apply csim_refl|apply tables_same_refl|constructor]. }
  inversion T as [|? ? (ob & E & B) _]; subst. simpl in E, B.
  destruct (ttisstring o) eqn:Ts.
  - wp_step. eapply wp_mark_with; [done|]. wp_step.
    assert (exists ts, body ob = BString ts) as [ts Bs].
    { unfold ttisstring in Ts. apply Z.eqb_eq in Ts. rewrite Ts in B. destruct (body ob); try discriminate B. eauto. }
    split_and!.
    + eapply (csim_update _ _ (gcvalue o) ob); [done..|apply mark_le_white2gray|constructor| |].
      { rewrite Bs. by intros []. } apply white2gray_black.
    + intros h m t Eh. simpl. rewrite lookup_insert_ne; [done|]. intros <-. rewrite E in Eh. injection Eh as ->. discriminate Bs.
    + intros _. constructor; [|constructor]. eexists. split; [apply set_marked_lookup|apply white2gray_white].
  - wp_step. eapply wp_getmarked; [done|]. wp_step. split_and!; [apply csim_refl|apply tables_same_refl|].
    intros H. apply orb_false_iff in H as [H _]. constructor; [|constructor]. by exists ob.
Qed.

(** ** The array part *)

Lemma table_refs_insert_nil t i k v :
  table_refs k v (set_slot t (SArray i) VNil) ⊆ table_refs k v t.
Proof.
  unfold table_refs. simpl. destruct v; [|done].
  assert ((<[i := VNil]> (array t) ≫= val_refs) ⊆ (array t ≫= val_refs)) as H.
  { intros r Hr. apply list_elem_of_bind in Hr as (x & Hr & Hx). apply list_elem_of_bind. exists x. split; [done|].
    apply list_elem_of_lookup in Hx as [j Hj]. rewrite list_lookup_insert in Hj.
    case_decide; [|by eapply list_elem_of_lookup_2]. injection Hj as <-. by apply elem_of_nil in Hr. }
  set_solver.
Qed.

Lemma shrink_table g h m t t' :
  heap g !! h = Some (mkObj m (BTable t)) -> shrinks (BTable t) (BTable t') ->
  csim g (on_heap (insert h (mkObj m (BTable t'))) g).
Proof. intros E S. eapply csim_update; eauto using mark_le_refl. Qed.

Lemma clear_array_spec h m i : forall g t,
  heap g !! h = Some (mkObj m (BTable t)) -> Forall (typed g) (table_refs true true t) -> (i <= length (array t))%nat ->
  wp (clear_array h i) (fun _ g' => csim g g' /\ exists t', heap g' !! h = Some (mkObj m (BTable t')) /\
      node t' = node t /\ metatable t' = metatable t /\ drop i (array t') = drop i (array t) /\
      Forall (nonwhite_val g') (take i (array t'))) g.
Proof.
  induction i as [|i IH]; intros g t E T Hi; simpl.
  { wp_step. split; [apply csim_refl|]. exists t. split_and!; done. }
  wp_step. eapply wp_gco2h; [done|].
  destruct (lookup_lt_is_Some_2 (array t) i) as [v Ev]; [lia|].
  assert (nth i (array t) VNil = v) as -> by (by rewrite nth_lookup, Ev).
  wp_step. eapply wp_mono; [apply (iscleared_spec g v false)|].
  { unfold table_refs in T. rewrite !Forall_app in T. destruct T as (_ & T & _).
    rewrite Forall_bind, Forall_forall in T. exact (T v (list_elem_of_lookup_2 _ _ _ Ev)). }
  intros c g1 (S1 & Ts1 & N1). cbv beta. pose proof (Ts1 _ _ _ E) as E1.
  set (v' := if c then VNil else v). set (t1 := if c then set_slot t (SArray i) VNil else t).
  assert (Forall (typed g1) (table_refs true true t)) as T1.
  { eapply Forall_impl; [done|]. intros r. by apply typed_csim. }
  wp_step. eapply (wp_mono _ (fun _ g2 => csim g1 g2 /\ heap g2 !! h = Some (mkObj m (BTable t1)) /\ nonwhite_val g2 v')).
  { unfold t1, v'. destruct c.
    - eapply wp_putbody; [done|]. split_and!; [|apply lookup_insert_eq|constructor].
      apply (shrink_table g1 h m t); [done|]. constructor; [simpl; by rewrite length_insert|done|]. intros. apply table_refs_insert_nil.
    - wp_step. split_and!; [apply csim_refl|done|by apply N1]. }
  intros [] g2 (S2 & E2 & N2). cbv beta.
  assert (length (array t1) = length (array t)) as Hl by (unfold t1; destruct c; simpl; by rewrite ?length_insert).
  assert (node t1 = node t /\ metatable t1 = metatable t /\ array t1 !! i = Some v' /\
          drop (S i) (array t1) = drop (S i) (array t)) as (Hn & Hm & Hv & Hd).
  { unfold t1, v'. destruct c; simpl; [|done]. split_and!; [done|done|by apply list_lookup_insert_eq; lia|].
    by rewrite drop_insert_lt by lia. }
  eapply wp_mono; [apply (IH g2 t1); [done| |lia]|].
  { eapply Forall_subset; [|eapply Forall_impl; [exact T1|intros r; by apply typed_csim]].
    unfold t1. destruct c; [apply table_refs_insert_nil|done]. }
  intros [] g3 (S3 & t3 & E3 & Hn3 & Hm3 & Hd3 & N3).
  split; [eauto using csim_trans|]. exists t3.
  assert (array t3 !! i = Some v') as Hv3.
  { rewrite <- Hv. transitivity (drop i (array t3) !! 0%nat); [by rewrite lookup_drop, Nat.add_0_r|].
    by rewrite Hd3, lookup_drop, Nat.add_0_r. }
  split_and!; [done|congruence|congruence| |].
  - rewrite <- Hd. rewrite (drop_S _ v' i Hv3), (drop_S _ v' i Hv) in Hd3. by injection Hd3.
  - rewrite (take_S_r _ _ v') by done. apply Forall_app. split; [done|]. constructor; [|constructor].
    eapply nonwhites_csim; [exact S3|done].
Qed.

(** ** The nodes *)

Definition clean_node (g : GState) (n : Node) : Prop := nonwhites g (node_refs true true n).

Definition cleared (n : Node) : Node := removeentry (set_val VNil n).

Lemma cleared_refs k v n : node_refs k v (cleared n) = [].
Proof. unfold cleared, removeentry. destruct (iscollectable _); done. Qed.

Lemma clear_node_spec g n :
  Forall (typed g) (node_refs true true n) ->
  wp (clear_node n) (fun c g' => csim g g' /\ tables_same g g' /\ (c = false -> clean_node g' n)) g.
Proof.
  intros T. unfold clear_node, clean_node, node_refs in *. destruct (ttisnil (i_val n)) eqn:V; cbn [negb].
  { wp_step. split_and!; [apply csim_refl|apply tables_same_refl|constructor]. }
  apply Forall_app in T as [T1 T2]. wp_step. eapply wp_mono; [by apply (iscleared_spec g (i_key n) true)|].
  intros c g1 (S1 & Ts1 & N1). cbv beta. destruct c; [wp_step; by split_and!|].
  eapply wp_mono; [apply (iscleared_spec g1 (i_val n) false)|].
  { eapply Forall_impl; [done|]. intros r. by apply typed_csim. }
  intros c g2 (S2 & Ts2 & N2). split_and!; [eauto using csim_trans|intros h m t E; auto|].
  intros ->. apply Forall_app. split; [eapply nonwhites_csim; [exact S2|by apply N1]|by apply N2].
Qed.

Lemma table_refs_clear t i k v : table_refs k v (upd_node t i cleared) ⊆ table_refs k v t.
Proof.
  unfold table_refs. simpl.
  assert ((alter cleared i (node t) ≫= node_refs k v) ⊆ (node t ≫= node_refs k v)) as H; [|set_solver].
  intros r Hr. apply list_elem_of_bind in Hr as (x & Hr & Hx). apply list_elem_of_bind.
  apply list_elem_of_lookup in Hx as [j Hj]. rewrite list_lookup_alter in Hj.
  case_decide; [|exists x; split; [done|by eapply list_elem_of_lookup_2]].
  destruct (node t !! i) as [n|]; [|done]. injection Hj as <-. rewrite cleared_refs in Hr. by apply elem_of_nil in Hr.
Qed.

Lemma clear_nodes_spec h m i : forall g t,
  heap g !! h = Some (mkObj m (BTable t)) -> Forall (typed g) (table_refs true true t) -> (i <= length (node t))%nat ->
  wp (clear_nodes h i) (fun _ g' => csim g g' /\ exists t', heap g' !! h = Some (mkObj m (BTable t')) /\
      array t' = array t /\ metatable t' = metatable t /\ drop i (node t') = drop i (node t) /\
      Forall (clean_node g') (take i (node t'))) g.
Proof.
  induction i as [|i IH]; intros g t E T Hi; simpl.
  { wp_step. split; [apply csim_refl|]. exists t. split_and!; done. }
  wp_step. eapply wp_gco2h; [done|].
  destruct (lookup_lt_is_Some_2 (node t) i) as [n En]; [lia|].
  assert (gnode t i = n) as -> by (unfold gnode; by rewrite nth_lookup, En).
  wp_step. eapply wp_mono; [apply (clear_node_spec g n)|].
  { unfold table_refs in T. rewrite !Forall_app in T. destruct T as (_ & _ & T).
    rewrite Forall_bind, Forall_forall in T. exact (T n (list_elem_of_lookup_2 _ _ _ En)). }
  intros c g1 (S1 & Ts1 & N1). cbv beta. pose proof (Ts1 _ _ _ E) as E1.
  set (n' := if c then cleared n else n). set (t1 := if c then upd_node t i cleared else t).
  assert (Forall (typed g1) (table_refs true true t)) as T1.
  { eapply Forall_impl; [done|]. intros r. by apply typed_csim. }
  wp_step. eapply (wp_mono _ (fun _ g2 => csim g1 g2 /\ heap g2 !! h = Some (mkObj m (BTable t1)) /\ clean_node g2 n')).
  { unfold t1, n'. destruct c.
    - eapply wp_putbody; [done|]. split_and!; [|apply lookup_insert_eq|].
      + apply (shrink_table g1 h m t); [done|]. constructor; [done|simpl; by rewrite length_alter|].
        intros. apply table_refs_clear.
      + unfold clean_node. rewrite cleared_refs. constructor.
    - wp_step. split_and!; [apply csim_refl|done|by apply N1]. }
  intros [] g2 (S2 & E2 & N2). cbv beta.
  assert (length (node t1) = length (node t)) as Hl by (unfold t1; destruct c; simpl; by rewrite ?length_alter).
  assert (array t1 = array t /\ metatable t1 = metatable t /\ node t1 !! i = Some n' /\
          drop (S i) (node t1) = drop (S i) (node t)) as (Hn & Hm & Hv & Hd).
  { unfold t1, n'. destruct c; simpl; [|done]. split_and!; [done|done|by rewrite list_lookup_alter_eq, En|].
    apply list_eq. intros j. by rewrite !lookup_drop, list_lookup_alter_ne by lia. }
  eapply wp_mono; [apply (IH g2 t1); [done| |lia]|].
  { eapply Forall_subset; [|eapply Forall_impl; [exact T1|intros r; by apply typed_csim]].
    unfold t1. destruct c; [apply table_refs_clear|done]. }
  intros [] g3 (S3 & t3 & E3 & Hn3 & Hm3 & Hd3 & N3).
  split; [eauto using csim_trans|]. exists t3.
  assert (node t3 !! i = Some n') as Hv3.
  { rewrite <- Hv. transitivity (drop i (node t3) !! 0%nat); [by rewrite lookup_drop, Nat.add_0_r|].
    by rewrite Hd3, lookup_drop, Nat.add_0_r. }
  split_and!; [done|congruence|congruence| |].
  - rewrite <- Hd. rewrite (drop_S _ n' i Hv3), (drop_S _ n' i Hv) in Hd3. by injection Hd3.
  - rewrite (take_S_r _ _ n') by done. apply Forall_app. split; [done|]. constructor; [|constructor].
    eapply nonwhites_csim; [exact S3|done].
Qed.

(** ** All weak tables *)

(** nothing that is not white refers to a white object, but for the weak references of [W] *)
Definition tidy (W : list pointer) (g : GState) : Prop := forall p o,
  heap g !! p = Some o -> iswhite (marked o) = false ->
  nonwhites g (if decide (p ∈ W) then scan_refs g o else body_refs g (body o)).

Lemma scan_refs_csim g g' o o' :
  csim g g' -> shrinks (body o) (body o') -> (body_tt (body o) <> GAFQ_TSTRING -> marked o' = marked o) ->
  scan_refs g' o' ⊆ scan_refs g o.
Proof.
  intros S B K. destruct o as [m b], o' as [m' b']. simpl in *. unfold scan_refs. cbn [body marked].
  destruct B as [b|t t' A N R].
  - destruct b; try (apply (body_refs_csim g g'); [done|constructor]). by rewrite K.
  - rewrite K by done. destruct (isblack m); apply R.
Qed.

Lemma scan_refs_parts g m t :
  nonwhites g (scan_refs g (mkObj m (BTable t))) ->
  nonwhites g (opt_refs GAFQ_TTABLE (metatable t)) /\
  (Z.testbit m VALUEWEAKBIT = false -> nonwhites g (array t ≫= val_refs)).
Proof.
  unfold scan_refs. cbn [body marked]. intros H.
  destruct (isblack m); [|destruct (Z.testbit m VALUEWEAKBIT)]; unfold table_refs, nonwhites in *; simpl in H;
    rewrite !Forall_app in H; naive_solver.
Qed.

Lemma table_refs_subset k v t : table_refs k v t ⊆ table_refs true true t.
Proof.
  unfold table_refs. intros r. rewrite !elem_of_app. intros [?|[Hr|Hr]]; [auto|..].
  - right; left. destruct v; [done|by apply elem_of_nil in Hr].
  - right; right. apply list_elem_of_bind in Hr as (n & Hr & Hn). apply list_elem_of_bind. exists n. split; [|done].
    unfold node_refs in *. destruct (ttisnil _); [done|]. apply elem_of_app in Hr. apply elem_of_app.
    destruct Hr as [Hr|Hr]; [left; destruct k|right; destruct v]; (done || by apply elem_of_nil in Hr).
Qed.

Lemma scan_refs_subset g m t : scan_refs g (mkObj m (BTable t)) ⊆ table_refs true true t.
Proof. unfold scan_refs. simpl. destruct (isblack m); [done|apply table_refs_subset]. Qed.

(** one table *)
Lemma clear_one_spec g h m t :
  heap g !! h = Some (mkObj m (BTable t)) -> allrefs g -> nonwhites g (scan_refs g (mkObj m (BTable t))) ->
  wp ((if testbit m VALUEWEAKBIT then clear_array h (length (array t)) else mret tt);; clear_nodes h (length (node t)))
     (fun _ g' => csim g g' /\ exists t', heap g' !! h = Some (mkObj m (BTable t')) /\
        nonwhites g' (table_refs true true t')) g.
Proof.
  intros E R N. pose proof (R h _ E) as T. simpl in T.
  destruct (scan_refs_parts g m t N) as [Nm Na]. rewrite testbit_eq by (unfold VALUEWEAKBIT; lia). wp_step.
  eapply (wp_mono _ (fun _ g1 => csim g g1 /\ exists t1, heap g1 !! h = Some (mkObj m (BTable t1)) /\
            node t1 = node t /\ metatable t1 = metatable t /\ nonwhites g1 (array t1 ≫= val_refs))).
  { destruct (Z.testbit m VALUEWEAKBIT) eqn:Bv.
    - eapply wp_mono; [by apply (clear_array_spec h m (length (array t)) g t)|].
      intros [] g1 (S1 & t1 & E1 & Hn & Hm & _ & H1). split; [done|]. exists t1. split_and!; [done..|].
      unfold nonwhites. rewrite Forall_bind. rewrite take_ge in H1; [done|].
      destruct (csim_fwd _ _ _ _ S1 E) as (o' & E1' & _ & B & _). rewrite E1 in E1'. injection E1' as <-. simpl in B.
      inversion B; subst; lia.
    - wp_step. split; [apply csim_refl|]. exists t. split_and!; [done..|by apply Na]. }
  intros [] g1 (S1 & t1 & E1 & Hn & Hm & Na1). cbv beta. rewrite <- Hn.
  eapply wp_mono; [apply (clear_nodes_spec h m (length (node t1)) g1 t1 E1); [|lia]|].
  { exact (allrefs_csim g g1 S1 R h _ E1). }
  intros [] g2 (S2 & t2 & E2 & Ha & Hm2 & _ & Hc). split; [eauto using csim_trans|]. exists t2. split; [done|].
  unfold table_refs, nonwhites. rewrite !Forall_app. split_and!.
  - rewrite Hm2, Hm. apply (nonwhites_csim g); eauto using csim_trans.
  - rewrite Ha. by apply (nonwhites_csim g1).
  - rewrite Forall_bind. rewrite take_ge in Hc; [done|].
    destruct (csim_fwd _ _ _ _ S2 E1) as (o' & E2' & _ & B & _). rewrite E2 in E2'. injection E2' as <-. simpl in B.
    inversion B; subst; lia.
Qed.

Lemma cleartable_spec l : forall g,
  allrefs g -> (forall p, p ∈ l -> exists m t, heap g !! p = Some (mkObj m (BTable t)) /\ iswhite m = false) ->
  tidy l g -> wp (cleartable l) (fun _ g' => csim g g' /\ tidy [] g') g.
Proof.
  induction l as [|h l IH]; intros g R Hl T; simpl.
  { wp_step. split; [apply csim_refl|done]. }
  destruct (Hl h) as (m & t & E & W); [by constructor|].
  wp_step. eapply wp_gco2h; [done|]. wp_step. eapply wp_getmarked; [done|]. cbn [marked].
  pose proof (T h _ E W) as Th. rewrite decide_True in Th by by constructor.
  apply wp_seq2. eapply wp_mono; [by apply (clear_one_spec g h m t)|].
  intros [] g1 (S1 & t1 & E1 & N1). cbv beta.
  eapply wp_mono; [apply IH; [by eapply allrefs_csim|..]|].
  - intros p Hp. destruct (Hl p) as (mp & tp & Ep & Wp); [by constructor|].
    destruct (csim_fwd _ _ _ _ S1 Ep) as ([mp' bp'] & Ep' & _ & B & K & _). simpl in *. rewrite K in * by done.
    inversion B; subst; eauto.
  - intros p o' E' W'. destruct (csim_bwd _ _ _ _ S1 E') as (o & Eo & Le & B & K & _).
    destruct (decide (p = h)) as [->|Hne].
    + rewrite E1 in E'. injection E' as <-. destruct (decide (h ∈ l)); [|exact N1].
      eapply Forall_subset; [apply scan_refs_subset|exact N1].
    + destruct (decide (body_tt (body o) = GAFQ_TSTRING)) as [Ts|Ts].
      { destruct o as [mo bo], o' as [mo' bo']. simpl in *. unfold scan_refs. simpl.
        destruct B as [b|]; [|discriminate Ts]. destruct b; try discriminate Ts.
        destruct (decide _); constructor. }
      rewrite (K Ts) in W'. specialize (T p o Eo W').
      destruct (decide (p ∈ l)) as [Hp|Hp].
      * rewrite decide_True in T by by constructor. apply (nonwhites_csim g); [done|].
        eapply Forall_subset; [by apply (scan_refs_csim g g1 o o')|done].
      * rewrite decide_False in T by set_solver. apply (nonwhites_csim g); [done|].
        eapply Forall_subset; [by apply (body_refs_csim g g1 (body o))|done].
  - intros [] g2 (S2 & T2). split; [by eapply csim_trans|done].
Qed.

(** * The phases of a collection, and their invariants

    [closed]: an object that is not dead refers to allocated objects that are not
    dead.  It holds in every phase: no object that can be reached is ever freed.
    The mark phase is described by [mark_phase] (GcAtomic.v), the others here. *)

Definition live (g : GState) (p : pointer) : Prop :=
  exists o, heap g !! p = Some o /\ dead g (marked o) = false.

Definition safe_ref (g : GState) (r : ref) : Prop := typed g r /\ live g r.1.

Definition closed (g : GState) : Prop := forall p o,
  heap g !! p = Some o -> dead g (marked o) = false -> Forall (safe_ref g) (body_refs g (body o)).

(** the roots, with the running thread *)
Definition rooted (L : pointer) (g : GState) : Prop :=
  Forall (safe_ref g) ((L, GAFQ_TTHREAD) :: root_refs g) /\ Forall (nonwhite g) (tmudata g).

(** white of the current cycle: swept, or created since the atomic step *)
Definition current (g : GState) (m : Z) : Prop := iswhite m = true /\ Z.testbit m (deadbit g) = false.

(** white and open objects are not black *)
Definition exclusive (g : GState) : Prop := forall p o,
  heap g !! p = Some o -> iswhite (marked o) = true \/ is_open (body o) -> isblack (marked o) = false.

(** the buckets, and the part of [rootgc], that the sweep has not reached *)
Definition strings_left (g : GState) : list pointer :=
  if gcstate g =? GCSsweepstring then concat (drop (Z.to_nat (sweepstrgc g)) (strt g)) else [].

Definition root_left (g : GState) : list pointer := (split_at (sweepgc g) (rootgc g)).2.

(** [p] is among the strings [S], the other objects [R], the open upvalues of the
    threads [T] or the open upvalues [O] *)
Definition left (S R T O : list pointer) (p : pointer) (b : Body) : Prop :=
  match b with
  | BString _ => p ∈ S
  | BUpVal (UOpen th _ _ _) => th ∈ T \/ p ∈ O
  | _ => p ∈ R
  end.

(** every other object has the current white *)
Definition tracked (S R T O : list pointer) (g : GState) : Prop := forall p o,
  heap g !! p = Some o -> p ∈ tmudata g \/ current g (marked o) \/ left S R T O p (body o).

(** in every phase *)
Record base (L : pointer) (g : GState) : Prop := {
  b_white : white_ok g;
  b_linked : linked g;
  b_shape : shape g;
  b_closed : closed g;
  b_rooted : rooted L g;
  b_excl : exclusive g;
  b_strt : strt g <> []
}.

(** all of it but the lists *)
Record core (L : pointer) (g : GState) : Prop := {
  c_white : white_ok g;
  c_shape : shape g;
  c_closed : closed g;
  c_rooted : rooted L g;
  c_excl : exclusive g;
  c_strt : strt g <> []
}.

Lemma base_core L g : base L g <-> core L g /\ linked g.
Proof. split; [intros []; by split; [constructor|]|by intros [[] ?]; constructor]. Qed.

Record sweep_phase (L : pointer) (g : GState) : Prop := {
  sp_base : base L g;
  sp_pos : 0 <= sweepstrgc g /\ (gcstate g = GCSsweepstring -> sweepstrgc g < zlen (strt g));
  sp_gc : forall q, sweepgc g = Some q -> q ∈ rootgc g;
  sp_tracked : tracked (strings_left g) (root_left g) (root_left g) [] g
}.

(** between two collections *)
Record idle_phase (L : pointer) (g : GState) : Prop := {
  ip_base : base L g;
  ip_white : tracked [] [] [] [] g
}.

(** ** The end of the atomic step *)

Lemma deadbit_flip g g' :
  white_ok g -> currentwhite g' = u8 (otherwhite g) -> white_ok g' /\ deadbit g' = 1 - deadbit g.
Proof. unfold white_ok, deadbit, otherwhite. intros [E|E] E'; rewrite E in *; rewrite E'; vm_compute; auto. Qed.

Lemma nonwhite_bits m b : iswhite m = false -> b = 0 \/ b = 1 -> Z.testbit m b = false.
Proof. rewrite iswhite_eq. intros [? ?]%orb_false_iff [-> | ->]; done. Qed.

Lemma nonwhite_not_dead g m : iswhite m = false -> dead g m = false.
Proof.
  intros W. unfold dead. rewrite nonwhite_bits; [done|done|]. destruct (deadbit_cases g) as [-> | ->]; auto.
Qed.

(** the mark of an object of the mark phase, seen after the change of the white *)
Lemma flipped_live g g' m :
  deadbit g' = 1 - deadbit g -> Z.testbit m (deadbit g) = false ->
  dead g' m = false -> iswhite m = false \/ Z.testbit m FIXEDBIT = true.
Proof.
  unfold dead. intros -> F D. rewrite iswhite_eq. apply andb_false_iff in D as [D|D]; [left|right].
  - destruct (deadbit_cases g) as [E|E]; rewrite E in *;
      [change (1 - 0) with 1 in D|change (1 - 1) with 0 in D]; by rewrite F, D.
  - by apply negb_false_iff in D.
Qed.

Lemma fresh_mark_le m m' b : mark_le m m' -> b = 0 \/ b = 1 -> Z.testbit m b = false -> Z.testbit m' b = false.
Proof. intros (_ & H0 & H1 & _) [-> | ->] F; apply not_true_is_false; intros H; [apply H0 in H|apply H1 in H]; congruence. Qed.

Lemma nonwhites_safe g l : Forall (typed g) l -> nonwhites g l -> Forall (safe_ref g) l.
Proof.
  unfold nonwhites. rewrite !Forall_forall. intros T N r Hr. split; [by apply T|]. destruct (N r Hr) as (o & E & W).
  exists o. split; [done|by apply nonwhite_not_dead].
Qed.

(** a state whose heap is tidy: the flip of the white leaves no dangling reference *)
Lemma flip_closed g g' :
  allrefs g -> tidy [] g -> linked g -> nonwhite g (mainthread g) ->
  (forall p o, heap g !! p = Some o -> Z.testbit (marked o) (deadbit g) = false) ->
  heap g' = heap g -> deadbit g' = 1 - deadbit g -> closed g'.
Proof.
  intros R T Ln Nm Fr H Db p o E D. rewrite H in E.
  assert (same_bodies g g') as Sb by (intros q; by rewrite H).
  rewrite (body_refs_same g g') by done.
  destruct (flipped_live g g' (marked o) Db (Fr p o E) D) as [W|Fx].
  - pose proof (T p o E W) as N. rewrite decide_False in N by apply not_elem_of_nil.
    assert (Forall (safe_ref g) (body_refs g (body o))) as Hs by (apply nonwhites_safe; [by eapply R|done]).
    apply nonwhites_safe.
    + eapply Forall_impl; [by eapply R|]. intros r. by apply typed_same.
    + eapply Forall_impl; [exact N|]. intros r. unfold nonwhite. by rewrite H.
  - destruct (ln_fixed _ Ln p o E Fx) as [->|Ts].
    + destruct Nm as (o' & E' & W'). rewrite E in E'. injection E' as <-.
      pose proof (T _ o E W') as N. rewrite decide_False in N by apply not_elem_of_nil.
      apply nonwhites_safe.
      * eapply Forall_impl; [by eapply R|]. intros r. by apply typed_same.
      * eapply Forall_impl; [exact N|]. intros r. unfold nonwhite. by rewrite H.
    + destruct (body o); try discriminate Ts. constructor.
Qed.

Lemma tricolour_tidy g : inv no_pending None g -> gray g = [] -> tidy (weak g) g.
Proof.
  intros I G p o E W. destruct (i_tri _ _ _ I p o E W) as [Hp|[[]|[H1 H2]]].
  { rewrite G in Hp. by apply elem_of_nil in Hp. }
  destruct (decide (p ∈ weak g)) as [|Hw]; [done|].
  unfold scan_refs in H1. destruct (body o) eqn:B; try done.
  destruct (isblack (marked o)) eqn:Bl; [done|]. destruct Hw. by apply H2.
Qed.

(** nothing is swept yet *)
Lemma unswept_start g :
  linked g -> gcstate g = GCSsweepstring -> sweepstrgc g = 0 -> sweepgc g = None ->
  tracked (strings_left g) (root_left g) (root_left g) [] g.
Proof.
  intros L Gs Sz Sg p o E. pose proof (ln_all _ L p o E) as A.
  unfold left, strings_left, root_left, in_chain in *. rewrite Gs, Sz, Sg. simpl.
  destruct (body o) as [| | | | | |[th lv pr nx|]|]; try tauto.
  destruct A as (t & T & _). right; right; left. by eapply thread_in_root.
Qed.

Lemma shrinks_open b b' : shrinks b b' -> is_open b' -> is_open b.
Proof. by intros []. Qed.

Lemma atomic_spec L g :
  mark_phase g -> gray g = [] -> typed g (L, GAFQ_TTHREAD) ->
  wp (atomic L) (fun _ g' => sweep_phase L g' /\ gcstate g' = GCSsweepstring /\ size (heap g') = size (heap g) /\
    (forall r, typed g r -> typed g' r)) g.
Proof.
  intros Mp G TL. unfold wp. rewrite atomic_split. fold (wp (u ← atomic_mark L; atomic_end u) (fun _ g' => sweep_phase L g' /\ gcstate g' = GCSsweepstring /\ size (heap g') = size (heap g) /\ (forall r, typed g r -> typed g' r)) g).
  wp_step. eapply wp_mono; [by apply atomic_mark_spec|]. intros ud g1 [I1 G1 L1 (new & r & S1) N1 T1]. cbv beta.
  destruct Mp as [W Ln I Fr Rt Nm Nr _ Ns]. unfold atomic_end. wp_step. wp_step. wp_step.
  pose proof (msim_frame_fields _ _ S1) as (Es1 & _ & _ & Em1 & _ & _ & Er1 & Et1 & Ec1 & _). simpl in *.
  eapply wp_mono; [apply (cleartable_spec (weak g1) g1 (i_refs _ _ _ I1)); [|by apply tricolour_tidy]|].
  { intros p Hp. destruct (q_weak _ _ (i_queued _ _ _ I1) p Hp) as (m & t & E). exists m, t. split; [done|].
    destruct (q_member _ _ (i_queued _ _ _ I1) p) as (o & E' & Wo & _); [unfold lists; set_solver|]. by simplify_eq. }
  intros [] g2 (S2 & T2). cbv beta. repeat wp_step.
  set (g3 := set_estimate _ _).
  pose proof (cs_frame _ _ S2) as F2. unfold frame in F2. injection F2 as Es2 _ Ec2 _ _ Ert2 _ Etm2 Erg2 Em2 Ep2 En2 Emt2 _.
  assert (white_ok g2) as W2 by (unfold white_ok in *; by rewrite Ec2, Ec1).
  destruct (deadbit_flip g2 g3 W2 eq_refl) as [W3 Db3].
  assert (deadbit g2 = deadbit g) as Db2 by (unfold deadbit; by rewrite Ec2, Ec1).
  pose proof (linked_sim _ _ (csim_lsim _ _ S2) L1) as L2.
  assert (linked g3) as L3 by (by eapply linked_ext; [..|exact L2]).
  assert (forall p o, heap g2 !! p = Some o -> Z.testbit (marked o) (deadbit g2) = false) as Fr2.
  { intros p o E. rewrite Db2. destruct (csim_bwd _ _ _ _ S2 E) as (o1 & E1 & Le1 & _).
    destruct (msim_bwd _ _ _ _ S1 E1) as (o0 & E0 & Le0 & _). pose proof (deadbit_cases g).
    eapply fresh_mark_le; [exact Le1|done|]. eapply fresh_mark_le; [exact Le0|done|]. by eapply Fr. }
  assert (root_refs g1 = root_refs g) as Err by (unfold root_refs; by rewrite Em1, Er1, Et1).
  assert (root_refs g3 = root_refs g) as Err3 by (unfold root_refs; simpl; by rewrite Em2, Erg2, Emt2, Em1, Er1, Et1).
  assert (nonwhites g2 ((L, GAFQ_TTHREAD) :: root_refs g)) as N2 by (by eapply nonwhites_csim).
  assert (Forall (typed g2) ((L, GAFQ_TTHREAD) :: root_refs g)) as Ty2.
  { eapply Forall_impl; [|intros x; apply typed_csim; exact S2].
    eapply Forall_impl; [|intros x Hx; eapply typed_sim; [exact S1|exact Hx]]. by constructor. }
  split; [|split; [done|split]].
  2: { change (heap g3) with (heap g2). rewrite (lsim_size g1 g2) by (by apply csim_lsim). exact (lsim_size _ _ (msim_lsim _ _ S1)). }
  2: { intros x Hx. change (typed g2 x). apply (typed_csim g1); [done|]. by apply (typed_sim _ _ x S1). }
  split.
  - split; [done|done|exact (shape_csim _ _ S2 (i_shape _ _ _ I1))| | | |].
    + apply (flip_closed g2 g3); [exact (allrefs_csim _ _ S2 (i_refs _ _ _ I1))|done|done| |done|done|done].
      rewrite Em2, Em1. inversion N2 as [|? ? _ N2']; subst. by inversion N2'.
    + split.
      * rewrite Err3. exact (nonwhites_safe g3 _ Ty2 N2).
      * simpl. rewrite Etm2. eapply Forall_impl; [exact T1|]. intros x Hx. exact (nonwhite_csim _ _ _ S2 Hx).
    + intros p o E H. simpl in E. destruct (csim_bwd _ _ _ _ S2 E) as (o1 & E1 & Le1 & B1 & _ & ->).
      apply (q_excl _ _ (i_queued _ _ _ I1) p o1 E1). destruct H as [H|H]; [left|right].
      * destruct (iswhite (marked o1)) eqn:Wo; [done|]. destruct Le1 as [Le1 _]. rewrite Le1 in H; done.
      * by apply (shrinks_open _ _ B1).
    + simpl. by rewrite Es2, Es1.
  - split; [done|]. intros _. simpl. rewrite Es2, Es1. by destruct (strt g).
  - discriminate.
  - by apply unswept_start.
Qed.
