(* ===== verification/GcLists.v ===== *)
(** * The list of open upvalues

    The doubly linked list of [g->uvhead], in segments: [unlinkupval] takes one
    upvalue out of it and [gafqF_findupval] puts one at its head. *)

From stdpp Require Import gmap sets.
From Stdlib Require Import Sorted.
From S2P Require Import Prelude Number Object Table Heap Tm Gc Func GcSweep GcLogic GcInv GcLinks.

(** ** Segments *)

(** from [p], whose predecessor is [prv], through [l] to [q], whose predecessor is [last] *)
Fixpoint uvseg (g : GState) (p prv : pointer) (l : list pointer) (q last : pointer) : Prop :=
  match l with
  | [] => p = q /\ prv = last
  | x :: l' => p = x /\ exists m th lv nx,
      heap g !! x = Some (mkObj m (BUpVal (UOpen th lv prv nx))) /\ uvseg g nx x l' q last
  end.

Lemma uvchain_seg g l : forall p prv, uvchain g p prv l <-> uvseg g p prv l UVHEAD (uvprev g).
Proof.
  induction l as [|x l IH]; intros p prv; simpl.
  - split; intros [? ?]; split; congruence.
  - split; intros (-> & m & th & lv & nx & E & H); (split; [done|]); exists m, th, lv, nx;
      (split; [done|]); by apply IH.
Qed.

Lemma uvseg_app g l1 l2 q last : forall p prv,
  uvseg g p prv (l1 ++ l2) q last <-> exists x px, uvseg g p prv l1 x px /\ uvseg g x px l2 q last.
Proof.
  induction l1 as [|x l1 IH]; intros p prv; simpl.
  - split; [by exists p, prv|]. by intros (x & px & [-> ->] & H).
  - split.
    + intros (-> & m & th & lv & nx & E & (y & py & H1 & H2)%IH). exists y, py. split; [|done].
      split; [done|]. by exists m, th, lv, nx.
    + intros (y & py & (-> & m & th & lv & nx & E & H1) & H2). split; [done|]. exists m, th, lv, nx.
      split; [done|]. apply IH. by exists y, py.
Qed.

(** what the links of the list say of an object may change, nothing else *)
Definition relinked (x y : option GCObject) : Prop :=
  y = x \/ exists m th lv pr nx pr' nx',
    x = Some (mkObj m (BUpVal (UOpen th lv pr nx))) /\ y = Some (mkObj m (BUpVal (UOpen th lv pr' nx'))).

Record relink (g g' : GState) : Prop := {
  rl_fields : g' = set_uvprev (set_uvnext (set_heap g (heap g')) (uvnext g')) (uvprev g');
  rl_heap p : relinked (heap g !! p) (heap g' !! p)
}.

Lemma relinked_refl x : relinked x x.
Proof. by left. Qed.

Lemma relinked_trans x y z : relinked x y -> relinked y z -> relinked x z.
Proof.
  intros [->|(m & th & lv & pr & nx & pr' & nx' & -> & ->)]; [done|].
  intros [->|(m1 & th1 & lv1 & pr1 & nx1 & pr1' & nx1' & E & ->)]; right; [by eauto 12|]. simplify_eq. eauto 12.
Qed.

Lemma relink_trans g1 g2 g3 : relink g1 g2 -> relink g2 g3 -> relink g1 g3.
Proof.
  intros [F1 H1] [F2 H2]. split; [by rewrite F2, F1|]. intros p. by eapply relinked_trans.
Qed.

Lemma relink_set g p m th lv pr nx pr' nx' :
  heap g !! p = Some (mkObj m (BUpVal (UOpen th lv pr nx))) ->
  relink g (on_heap (insert p (mkObj m (BUpVal (UOpen th lv pr' nx')))) g).
Proof.
  intros E. split; [by destruct g|]. intros q. simpl. destruct (decide (p = q)) as [->|Hne].
  - rewrite lookup_insert_eq. right. eauto 12.
  - rewrite lookup_insert_ne by done. by left.
Qed.

(** a segment depends on its own objects only *)
Lemma uvseg_frame g g' l q last :
  (forall x, x ∈ l -> heap g' !! x = heap g !! x) ->
  forall p prv, uvseg g p prv l q last -> uvseg g' p prv l q last.
Proof.
  induction l as [|x l IH]; intros H p prv; simpl; [done|].
  intros (-> & m & th & lv & nx & E & Hs). split; [done|]. exists m, th, lv, nx.
  rewrite H by constructor. split; [done|]. apply IH; [|done]. intros y Hy. apply H. by constructor.
Qed.

Lemma uvseg_alloc g p prv l q last x : uvseg g p prv l q last -> x ∈ l -> is_Some (heap g !! x).
Proof.
  revert p prv. induction l as [|y l IH]; intros p prv; simpl; [by intros _ ?%elem_of_nil|].
  intros (-> & m & th & lv & nx & E & Hs) [->|Hx]%elem_of_cons; eauto.
Qed.

(** ** The links *)

Lemma set_lprev_spec g p prv l last x :
  heap g !! UVHEAD = None -> NoDup l -> uvseg g p prv l UVHEAD last -> last = uvprev g ->
  wp (set_lprev p x) (fun _ g' => relink g g' /\ uvnext g' = uvnext g /\
    uvseg g' p x l UVHEAD (uvprev g') /\ forall q, q ∉ l -> heap g' !! q = heap g !! q) g.
Proof.
  intros Hh N Sg ->. unfold set_lprev. destruct l as [|y l]; simpl in Sg.
  - destruct Sg as [-> _]. rewrite Z.eqb_refl. wp_step. split_and!; try done.
    split; [by destruct g|]. intros q. apply relinked_refl.
  - destruct Sg as (-> & m & th & lv & nx & E & Hs). apply NoDup_cons in N as [Ny N].
    destruct (Z.eqb_spec y UVHEAD) as [->|_]; [congruence|].
    wp_step. eapply wp_gco2uv; [done|]. cbv beta iota. eapply wp_putbody; [done|]. simpl.
    split; [by eapply relink_set|]. split; [done|]. split.
    + split; [done|]. exists m, th, lv, nx. split; [by rewrite lookup_insert_eq|].
      eapply uvseg_frame; [|done]. intros z Hz. simpl. apply lookup_insert_ne. by intros ->.
    + intros q [Hq _]%not_elem_of_cons. simpl. by apply lookup_insert_ne.
Qed.

Lemma set_lnext_spec g l q last x :
  heap g !! UVHEAD = None -> NoDup l -> uvseg g (uvnext g) UVHEAD l q last ->
  wp (set_lnext last x) (fun _ g' => relink g g' /\ uvprev g' = uvprev g /\
    uvseg g' (uvnext g') UVHEAD l x last /\ forall q, q ∉ l -> heap g' !! q = heap g !! q) g.
Proof.
  intros Hh N Sg. unfold set_lnext. destruct l as [|y l _] using rev_ind; simpl in Sg.
  - destruct Sg as [_ <-]. rewrite Z.eqb_refl. wp_step. split_and!; try done.
    split; [by destruct g|]. intros z. apply relinked_refl.
  - apply uvseg_app in Sg as (p & px & H1 & (-> & m & th & lv & nx & E & -> & <-)).
    destruct (Z.eqb_spec y UVHEAD) as [->|_]; [congruence|].
    apply NoDup_app in N as (N & Ny & _).
    wp_step. eapply wp_gco2uv; [done|]. cbv beta iota. eapply wp_putbody; [done|]. simpl.
    split_and!; [by eapply relink_set|done| |].
    + apply uvseg_app. exists y, px. split.
      * eapply uvseg_frame; [|done]. intros z Hz. simpl. apply lookup_insert_ne. intros ->.
        apply (Ny z Hz). constructor.
      * split; [done|]. exists m, th, lv, x. split; [apply lookup_insert_eq|done].
    + intros z Hz. simpl. apply lookup_insert_ne. intros ->. apply Hz. set_solver.
Qed.

(** taking an upvalue out of the list *)
Lemma unlinkupval_spec g l1 p l2 m uv :
  heap g !! UVHEAD = None -> NoDup (l1 ++ p :: l2) -> uvlist g (l1 ++ p :: l2) ->
  heap g !! p = Some (mkObj m (BUpVal uv)) ->
  wp (unlinkupval p) (fun _ g' => relink g g' /\ uvlist g' (l1 ++ l2) /\ heap g' !! p = heap g !! p) g.
Proof.
  intros Hh N U E. apply uvchain_seg, uvseg_app in U as (x & prv & H1 & (-> & m' & th & lv & nx & E' & H2)).
  rewrite E in E'. injection E' as <- ->.
  apply NoDup_app in N as (N1 & Nd & [Np N2]%NoDup_cons).
  assert (p ∉ l1) as Np1 by (intros Hp; apply (Nd p Hp); constructor).
  unfold unlinkupval. wp_step. eapply wp_gco2uv; [done|]. cbv beta iota. wp_step.
  eapply wp_mono; [by eapply set_lprev_spec|]. intros [] g1 (R1 & En & S1 & F1). cbv beta.
  assert (forall q, q ∈ l1 -> q ∉ l2) as Dj by (intros q Hq Hq2; apply (Nd q Hq); by constructor).
  eapply wp_mono; [apply (set_lnext_spec g1 l1 p prv nx)|].
  - destruct (rl_heap _ _ R1 UVHEAD) as [->|(? & ? & ? & ? & ? & ? & ? & X & _)]; [done|congruence].
  - done.
  - rewrite En. eapply uvseg_frame; [|exact H1]. intros y Hy. apply F1. by apply Dj.
  - intros [] g2 (R2 & Ep & S2 & F2). cbv beta. split_and!.
    + by eapply relink_trans.
    + apply uvchain_seg, uvseg_app. exists nx, prv. split; [done|]. rewrite Ep.
      eapply uvseg_frame; [|exact S1]. intros y Hy. apply F2. intros Hy1. by apply (Dj y).
    + rewrite F2, F1; done.
Qed.

(** a new upvalue at the head of the list *)
Lemma linkhead_spec g l p m th lv :
  heap g !! UVHEAD = None -> NoDup l -> p ∉ l -> uvlist g l ->
  heap g !! p = Some (mkObj m (BUpVal (UOpen th lv UVHEAD (uvnext g)))) ->
  wp (set_lprev (uvnext g) p;; set_lnext UVHEAD p)
     (fun _ g' => relink g g' /\ uvlist g' (p :: l) /\ heap g' !! p = heap g !! p) g.
Proof.
  intros Hh N Np U E. apply uvchain_seg in U.
  wp_step. eapply wp_mono; [by eapply set_lprev_spec|]. intros [] g1 (R1 & En & S1 & F1). cbv beta.
  unfold set_lnext. rewrite Z.eqb_refl. wp_step. split_and!.
  - eapply relink_trans; [done|]. split; [by destruct g1|]. intros q. apply relinked_refl.
  - apply uvchain_seg. simpl. split; [done|]. exists m, th, lv, (uvnext g). split; [by rewrite F1|].
    eapply uvseg_frame; [|exact S1]. done.
  - simpl. by rewrite F1.
Qed.

(** * Changes of the lists of objects

    Closing an upvalue, freeing and creating objects keep [linked]. *)

(** ** Relinked objects *)

Lemma relinked_some_r x o' : relinked x (Some o') -> exists o, x = Some o /\ marked o = marked o' /\
  body_tt (body o) = body_tt (body o') /\ (is_open (body o) <-> is_open (body o')).
Proof. intros [<-|(m & th & lv & pr & nx & pr' & nx' & -> & [= ->])]; eauto. Qed.

Lemma relinked_some_l o y : relinked (Some o) y -> exists o', y = Some o' /\ marked o = marked o' /\
  body_tt (body o) = body_tt (body o') /\ (is_open (body o) <-> is_open (body o')).
Proof. intros [->|(m & th & lv & pr & nx & pr' & nx' & [= ->] & ->)]; eauto. Qed.

Lemma relinked_thread x m t : relinked x (Some (mkObj m (BThread t))) <-> x = Some (mkObj m (BThread t)).
Proof.
  split; [|intros ->; apply relinked_refl].
  intros [<-|(? & ? & ? & ? & ? & ? & ? & _ & [=])]; done.
Qed.

Lemma relinked_same x m b : ~ is_open b -> relinked (Some (mkObj m b)) x -> x = Some (mkObj m b).
Proof. intros H [->|(? & ? & ? & ? & ? & ? & ? & [= -> ->] & _)]; [done|]. by destruct H. Qed.

Lemma relinked_open x m th lv pr nx : relinked (Some (mkObj m (BUpVal (UOpen th lv pr nx)))) x ->
  exists pr' nx', x = Some (mkObj m (BUpVal (UOpen th lv pr' nx'))).
Proof. intros [->|(? & ? & ? & ? & ? & ? & ? & [= -> -> -> -> ->] & ->)]; eauto. Qed.

Lemma relinked_open_r x m th lv pr nx : relinked x (Some (mkObj m (BUpVal (UOpen th lv pr nx)))) ->
  exists pr' nx', x = Some (mkObj m (BUpVal (UOpen th lv pr' nx'))).
Proof. intros [<-|(? & ? & ? & ? & ? & ? & ? & -> & [= -> -> -> -> ->])]; eauto. Qed.

(** ** Closing an upvalue *)

Record closes (g g' : GState) (p th : pointer) (a b : list pointer) : Prop := {
  cl_thread : exists m t t', heap g !! th = Some (mkObj m (BThread t)) /\
    heap g' !! th = Some (mkObj m (BThread t')) /\ openupval t = a ++ p :: b /\ openupval t' = a ++ b;
  cl_upval : exists m m' v, heap g !! p = Some (mkObj m (BUpVal (UOpen th (uv_level g p) v.1 v.2))) /\
    (exists x, heap g' !! p = Some (mkObj m' (BUpVal (UClosed x)))) /\
    Z.testbit m' FIXEDBIT = Z.testbit m FIXEDBIT;
  cl_others q : q <> p -> q <> th -> relinked (heap g !! q) (heap g' !! q);
  cl_root : rootgc g' = p :: rootgc g;
  cl_strt : strt g' = strt g;
  cl_tmu : tmudata g' = tmudata g;
  cl_main : mainthread g' = mainthread g;
  cl_list : exists l1 l2, NoDup (l1 ++ p :: l2) /\
    (forall q, q ∈ l1 ++ p :: l2 <-> exists o, heap g !! q = Some o /\ is_open (body o)) /\ uvlist g' (l1 ++ l2)
}.

Section Closing.
Context (g g' : GState) (p th : pointer) (a b : list pointer).
Hypothesis C : closes g g' p th a b.
Hypothesis Ln : linked g.

Lemma closes_fwd q m bd : heap g !! q = Some (mkObj m bd) -> ~ is_open bd -> q <> th ->
  heap g' !! q = Some (mkObj m bd).
Proof.
  intros E Ho Hth. destruct (cl_upval _ _ _ _ _ _ C) as (mu & mu' & v & Eu & _).
  apply relinked_same; [done|]. rewrite <- E. apply (cl_others _ _ _ _ _ _ C); [|done].
  intros ->. rewrite E in Eu. by simplify_eq.
Qed.

Lemma closes_bwd q o' : heap g' !! q = Some o' -> exists o, heap g !! q = Some o /\
  Z.testbit (marked o') FIXEDBIT = Z.testbit (marked o) FIXEDBIT /\ body_tt (body o') = body_tt (body o) /\
  (is_open (body o') <-> is_open (body o) /\ q <> p).
Proof.
  intros E'. destruct (cl_upval _ _ _ _ _ _ C) as (mu & mu' & v & Eu & (x & Ex) & Ef).
  destruct (cl_thread _ _ _ _ _ _ C) as (mt & t & t' & Et & Et' & _).
  destruct (decide (q = p)) as [->|Hp].
  { rewrite E' in Ex. injection Ex as ->. eexists. split; [exact Eu|]. simpl. tauto. }
  destruct (decide (q = th)) as [->|Hth].
  { rewrite E' in Et'. injection Et' as ->. eexists. split; [exact Et|]. simpl. tauto. }
  pose proof (cl_others _ _ _ _ _ _ C q Hp Hth) as R. rewrite E' in R.
  destruct (relinked_some_r _ _ R) as (o & E & M & T & O). exists o. rewrite M, T, O. tauto.
Qed.

Lemma closes_keeps q o : heap g !! q = Some o -> exists o', heap g' !! q = Some o' /\
  body_tt (body o') = body_tt (body o) /\ (is_open (body o') <-> is_open (body o) /\ q <> p).
Proof.
  intros E. destruct (cl_upval _ _ _ _ _ _ C) as (mu & mu' & v & Eu & (x & Ex) & Ef).
  destruct (cl_thread _ _ _ _ _ _ C) as (mt & t & t' & Et & Et' & _).
  destruct (decide (q = p)) as [->|Hp].
  { rewrite E in Eu. injection Eu as ->. eexists. split; [exact Ex|]. simpl. tauto. }
  destruct (decide (q = th)) as [->|Hth].
  { rewrite E in Et. injection Et as ->. eexists. split; [exact Et'|]. simpl. tauto. }
  pose proof (cl_others _ _ _ _ _ _ C q Hp Hth) as R. rewrite E in R.
  destruct (relinked_some_l _ _ R) as (o' & E' & M & T & O). exists o'. rewrite T, O. tauto.
Qed.

Lemma closes_open q m th' lv pr nx : heap g' !! q = Some (mkObj m (BUpVal (UOpen th' lv pr nx))) ->
  exists m' pr' nx', heap g !! q = Some (mkObj m' (BUpVal (UOpen th' lv pr' nx'))) /\ q <> p.
Proof.
  intros E'. destruct (closes_bwd q _ E') as (o & _ & _ & _ & Ho).
  assert (q <> p) as Hp' by (by apply Ho). destruct (decide (q = th)) as [->|Hth].
  { destruct (cl_thread _ _ _ _ _ _ C) as (mt & t & t' & Et & Et' & _). congruence. }
  pose proof (cl_others _ _ _ _ _ _ C q Hp' Hth) as R. rewrite E' in R.
  apply relinked_open_r in R as (pr' & nx' & E). eauto 6.
Qed.

Lemma closes_open_fwd q m th' lv pr nx : heap g !! q = Some (mkObj m (BUpVal (UOpen th' lv pr nx))) -> q <> p ->
  exists pr' nx', heap g' !! q = Some (mkObj m (BUpVal (UOpen th' lv pr' nx'))).
Proof.
  intros E Hp. destruct (decide (q = th)) as [->|Hth].
  { destruct (cl_thread _ _ _ _ _ _ C) as (mt & t & t' & Et & Et' & _). congruence. }
  pose proof (cl_others _ _ _ _ _ _ C q Hp Hth) as R. rewrite E in R. by eapply relinked_open.
Qed.

Lemma closes_threads q t' : is_thread g' q t' ->
  exists t, is_thread g q t /\ p ∉ openupval t' /\ NoDup (openupval t') /\
    (forall x, x ∈ openupval t' <-> x ∈ openupval t /\ x <> p) /\
    (forall R, StronglySorted R (openupval t) -> StronglySorted R (openupval t')).
Proof.
  intros [m E']. destruct (cl_thread _ _ _ _ _ _ C) as (mt & t & t0 & Et & Et' & Eo & Eo').
  assert (is_thread g th t) as Tt by (by exists mt).
  destruct (ln_open _ Ln th t Tt) as [Nd Ho]. rewrite Eo in Nd.
  destruct (decide (q = th)) as [->|Hth].
  - rewrite E' in Et'. injection Et' as -> ->. exists t. split; [done|]. rewrite Eo, Eo'.
    apply NoDup_app in Nd as (N1 & N2 & [N3 N4]%NoDup_cons).
    assert (p ∉ a) as Na by (intros Hp; apply (N2 p Hp); constructor).
    assert (NoDup (a ++ b)) as Nab.
    { apply NoDup_app. split_and!; [done| |done]. intros x Hx Hb. apply (N2 x Hx). by constructor. }
    split_and!; [set_solver|done| |].
    + intros x. split; [|set_solver]. intros Hx. split; [set_solver|]. intros ->. set_solver.
    + intros R S. clear -S. induction a as [|x a' IH]; simpl in *; inversion S as [|? ? S' F]; subst; [done|].
      constructor; [auto|]. rewrite Forall_app, Forall_cons in F. apply Forall_app. tauto.
  - assert (q <> p) as Hp. { intros ->. destruct (cl_upval _ _ _ _ _ _ C) as (? & ? & ? & _ & (x & Ex) & _). congruence. }
    pose proof (cl_others _ _ _ _ _ _ C q Hp Hth) as R. rewrite E' in R. apply relinked_thread in R.
    assert (is_thread g q t') as Tq by (by exists m). destruct (ln_open _ Ln q t' Tq) as [Nq Hq].
    assert (p ∉ openupval t') as Npq.
    { intros H. destruct (Hq p H) as (m1 & lv1 & pr1 & nx1 & E1). destruct (Ho p) as (m2 & lv2 & pr2 & nx2 & E2); [rewrite Eo; set_solver|].
      congruence. }
    exists t'. split_and!; [done|done|done| |done]. intros x. split; [|tauto]. intros H. split; [done|]. by intros ->.
Qed.

Lemma closes_thread_fwd q t : is_thread g q t -> exists t', is_thread g' q t' /\
  forall x, x ∈ openupval t -> x <> p -> x ∈ openupval t'.
Proof.
  intros [m E]. destruct (cl_thread _ _ _ _ _ _ C) as (mt & t1 & t0 & Et & Et' & Eo & Eo').
  destruct (decide (q = th)) as [->|Hth].
  - simplify_eq. exists t0. split; [by exists m|]. rewrite Eo, Eo'. set_solver.
  - exists t. split; [exists m; apply closes_fwd; [done|by intros []|done]|done].
Qed.

Lemma linked_close : linked g'.
Proof.
  destruct (cl_upval _ _ _ _ _ _ C) as (mu & mu' & v & Eu & (x & Ex) & Ef).
  assert (p ∉ rootgc g ++ concat (strt g) ++ tmudata g) as Np.
  { rewrite !elem_of_app. intros [H|[H|H]].
    - destruct (ln_root _ Ln p H) as (o & E & _ & Ho). rewrite Eu in E. injection E as <-. by apply Ho.
    - destruct (ln_strt _ Ln p H) as (m & ts & E). congruence.
    - destruct (ln_tmu _ Ln p H) as (m & ts & E). congruence. }
  split; rewrite ?(cl_root _ _ _ _ _ _ C), ?(cl_strt _ _ _ _ _ _ C), ?(cl_tmu _ _ _ _ _ _ C), ?(cl_main _ _ _ _ _ _ C).
  - destruct (heap g' !! UVHEAD) eqn:E; [|done]. destruct (closes_bwd _ _ E) as (o & E' & _).
    by rewrite (ln_head _ Ln) in E'.
  - apply NoDup_cons. split; [done|apply Ln].
  - intros q o' E'. destruct (closes_bwd q o' E') as (o & E & _ & T & O).
    pose proof (ln_all _ Ln q o E) as A. unfold in_chain in *.
    rewrite (cl_root _ _ _ _ _ _ C), (cl_strt _ _ _ _ _ _ C), (cl_tmu _ _ _ _ _ _ C).
    destruct o' as [m' [| | | | | |[thr' lv' pr' nx'|]|]]; simpl in *;
      destruct o as [m [| | | | | |[thr lv pr nx|]|]]; try discriminate T; try exact A;
      try (destruct A as [A|A]; [left; by constructor|by right]); simpl in O; try tauto.
    + destruct (closes_open _ _ _ _ _ _ E') as (m1 & pr1 & nx1 & E1 & Hp). simplify_eq.
      destruct A as (t & Tt & Hq). destruct (closes_thread_fwd _ _ Tt) as (t' & T' & Ho). exists t'. auto.
    + left. destruct (decide (q = p)) as [->|Hp]; [constructor|]. exfalso. tauto.
  - intros q [->|Hq]%elem_of_cons.
    + eexists. split; [exact Ex|]. by split; [|intros []].
    + destruct (ln_root _ Ln q Hq) as (o & E & Hs & Ho). destruct (closes_keeps q o E) as (o' & E' & T & O).
      exists o'. rewrite T, O. tauto.
  - intros q Hq. destruct (ln_strt _ Ln q Hq) as (m & ts & E). exists m, ts. apply closes_fwd; [done|by intros []|].
    intros ->. destruct (cl_thread _ _ _ _ _ _ C) as (? & ? & ? & Et & _). congruence.
  - intros q Hq. destruct (ln_tmu _ Ln q Hq) as (m & u & E). exists m, u. apply closes_fwd; [done|by intros []|].
    intros ->. destruct (cl_thread _ _ _ _ _ _ C) as (? & ? & ? & Et & _). congruence.
  - intros q t' Tq. destruct (closes_threads q t' Tq) as (t & Tt & Hp & Nd & Hx & _). split; [done|].
    intros y Hy. apply Hx in Hy as [Hy Hne]. destruct (ln_open _ Ln q t Tt) as [_ H].
    destruct (H y Hy) as (m & lv & pr & nx & E). destruct (closes_open_fwd _ _ _ _ _ _ E Hne) as (pr' & nx' & E'). eauto.
  - intros q t' Tq. destruct (closes_threads q t' Tq) as (t & Tt & Hp & Nd & Hx & So).
    assert (forall y, y ∈ openupval t' -> uv_level g' y = uv_level g y) as Lv.
    { intros y Hy. apply Hx in Hy as [Hy Hne]. destruct (ln_open _ Ln q t Tt) as [_ H].
      destruct (H y Hy) as (m & lv & pr & nx & E). destruct (closes_open_fwd _ _ _ _ _ _ E Hne) as (pr' & nx' & E').
      unfold uv_level. by rewrite E, E'. }
    specialize (So _ (ln_sorted _ Ln q t Tt)). clear -So Lv. induction So as [|y l S IH F]; constructor.
    + apply IH. intros z Hz. apply Lv. by constructor.
    + rewrite Forall_forall in *. intros z Hz. rewrite !Lv by (by constructor). by apply F.
  - destruct (ln_main _ Ln) as (pre & us & E & U). exists (p :: pre), us. split; [by rewrite E|].
    eapply Forall_impl; [exact U|]. intros q (m & u & Eq). exists m, u. apply closes_fwd; [done|by intros []|].
    intros ->. destruct (cl_thread _ _ _ _ _ _ C) as (? & ? & ? & Et & _). congruence.
  - destruct (cl_list _ _ _ _ _ _ C) as (l1 & l2 & Nl & Hl & Ul). exists (l1 ++ l2).
    split; [done|]. apply NoDup_app in Nl as (N1 & N2 & [N3 N4]%NoDup_cons).
    split; [apply NoDup_app; split_and!; [done| |done]; intros y Hy ?; apply (N2 y Hy); by constructor|].
    assert (p ∉ l1) as N5 by (intros H; apply (N2 p H); constructor).
    intros y. split.
    + intros Hy. assert (y <> p) as Hne by (intros ->; set_solver).
      destruct (proj1 (Hl y)) as (o & E & Ho); [set_solver|].
      destruct (closes_keeps y o E) as (o' & E' & _ & O). exists o'. tauto.
    + intros (o' & E' & Ho). destruct (closes_bwd y o' E') as (o & E & _ & _ & O).
      assert (y ∈ l1 ++ p :: l2) as Hy by (apply Hl; exists o; tauto). set_solver.
  - intros q o' E' Hf. destruct (closes_bwd q o' E') as (o & E & Ef' & T & _). rewrite T.
    apply (ln_fixed _ Ln q o E). congruence.
Qed.

End Closing.

(** ** Freeing an object *)

(** [p] leaves the chain it is in *)
Record frees (g g' : GState) (p : pointer) : Prop := {
  fr_heap : heap g' = delete p (heap g);
  fr_root : sublist (rootgc g') (rootgc g);
  fr_root_in q : q ∈ rootgc g -> q = p \/ q ∈ rootgc g';
  fr_strt : sublist (concat (strt g')) (concat (strt g));
  fr_strt_in q : q ∈ concat (strt g) -> q = p \/ q ∈ concat (strt g');
  fr_out : p ∉ rootgc g' /\ p ∉ concat (strt g') /\ p ∉ tmudata g;
  fr_tmu : tmudata g' = tmudata g;
  fr_main : mainthread g' = mainthread g;
  fr_main_at pre us : rootgc g = pre ++ mainthread g :: us ->
    exists pre' us', rootgc g' = pre' ++ mainthread g :: us' /\ us' ⊆ us;
  fr_uv : uvprev g' = uvprev g /\ uvnext g' = uvnext g
}.

Lemma linked_free g g' p o :
  linked g -> frees g g' p -> heap g !! p = Some o -> ~ is_open (body o) ->
  (forall t, body o = BThread t -> openupval t = []) -> linked g'.
Proof.
  intros Ln F E No Nt. pose proof (fr_heap _ _ _ F) as H.
  assert (forall q x, heap g' !! q = Some x -> heap g !! q = Some x /\ q <> p) as Bw.
  { intros q x. rewrite H. intros [? ?]%lookup_delete_Some. auto. }
  assert (forall q, q <> p -> heap g' !! q = heap g !! q) as Fw by (intros q Hq; rewrite H; by apply lookup_delete_ne).
  assert (forall q t, is_thread g' q t -> is_thread g q t) as Tb by (intros q t [m Eq]; exists m; by apply Bw).
  assert (forall q, q ∈ rootgc g' -> q ∈ rootgc g) as Ri.
  { intros q Hq. eapply elem_of_sublist; [exact Hq|apply F]. }
  destruct (fr_out _ _ _ F) as (Or & Os & Ot). destruct (fr_uv _ _ _ F) as [Up Un].
  split; rewrite ?(fr_tmu _ _ _ F), ?(fr_main _ _ _ F).
  - rewrite H. apply lookup_delete_None. right. apply Ln.
  - eapply sublist_NoDup; [apply (ln_nodup _ Ln)|]. apply sublist_app; [apply F|]. apply sublist_app; [apply F|done].
  - intros q x Eq. apply Bw in Eq as [Eq Hne]. pose proof (ln_all _ Ln q x Eq) as A. unfold in_chain in *.
    rewrite (fr_tmu _ _ _ F). pose proof (fr_root_in _ _ _ F q). pose proof (fr_strt_in _ _ _ F q).
    destruct (body x) as [| | | | | |[th lv pr nx|]|]; try tauto.
    destruct A as (t & [m Et] & Hq). exists t. split; [|done]. exists m. rewrite Fw; [done|].
    intros ->. rewrite E in Et. injection Et as ->. rewrite (Nt t) in Hq by done. by apply elem_of_nil in Hq.
  - intros q Hq. rewrite Fw; [by apply (ln_root _ Ln), Ri|]. by intros ->.
  - intros q Hq. rewrite Fw; [|by intros ->]. apply (ln_strt _ Ln).
    eapply elem_of_sublist; [exact Hq|apply F].
  - intros q Hq. unfold is_udata. rewrite Fw; [by apply (ln_tmu _ Ln)|]. by intros ->.
  - intros th t T. destruct (ln_open _ Ln th t (Tb _ _ T)) as [N Ho]. split; [done|].
    intros q Hq. destruct (Ho q Hq) as (m & lv & pr & nx & Eq). exists m, lv, pr, nx. rewrite Fw; [done|].
    intros ->. rewrite E in Eq. injection Eq as ->. by apply No.
  - intros th t T. destruct (ln_open _ Ln th t (Tb _ _ T)) as [_ Ho].
    pose proof (ln_sorted _ Ln th t (Tb _ _ T)) as So.
    assert (forall q, q ∈ openupval t -> uv_level g' q = uv_level g q) as Lv.
    { intros q Hq. destruct (Ho q Hq) as (m & lv & pr & nx & Eq). unfold uv_level. rewrite Fw; [done|].
      intros ->. rewrite E in Eq. injection Eq as ->. by apply No. }
    clear -So Lv. induction So as [|y l S IH F]; constructor.
    + apply IH. intros z Hz. apply Lv. by constructor.
    + rewrite Forall_forall in *. intros z Hz. rewrite !Lv by (by constructor). by apply F.
  - destruct (ln_main _ Ln) as (pre & us & Er & U). destruct (fr_main_at _ _ _ F pre us Er) as (pre' & us' & Er' & Hs).
    exists pre', us'. split; [done|]. rewrite Forall_forall in *. intros q Hq. unfold is_udata. rewrite Fw.
    + by apply U, Hs.
    + intros ->. apply Or. rewrite Er'. set_solver.
  - destruct (ln_uv _ Ln) as (l & Ul & Nl & Hl). exists l. split_and!; [|done|].
    + unfold uvlist in *. rewrite Un. apply uvchain_seg in Ul. apply uvchain_seg. rewrite Up.
      eapply uvseg_frame; [|exact Ul]. intros q Hq. apply Fw. apply Hl in Hq as (oq & Eq & Hq).
      intros ->. rewrite E in Eq. injection Eq as ->. by apply No.
    + intros q. rewrite Hl. split; intros (oq & Eq & Hq); exists oq; (split; [|done]).
      * rewrite Fw; [done|]. intros ->. rewrite E in Eq. injection Eq as ->. by apply No.
      * by apply Bw.
  - intros q x Eq. apply Bw in Eq as [Eq _]. by apply (ln_fixed _ Ln).
Qed.

Lemma frees_root g pre p post g' :
  linked g -> rootgc g = pre ++ p :: post -> p <> mainthread g ->
  rootgc g' = pre ++ post -> heap g' = delete p (heap g) ->
  strt g' = strt g -> tmudata g' = tmudata g -> mainthread g' = mainthread g ->
  uvprev g' = uvprev g -> uvnext g' = uvnext g -> frees g g' p.
Proof.
  intros Ln Er Hm Er' Hh Es Et Em Up Un.
  pose proof (ln_nodup _ Ln) as Nd. rewrite Er in Nd.
  assert (p ∉ pre ++ post /\ p ∉ concat (strt g) /\ p ∉ tmudata g) as (N1 & N2 & N3).
  { rewrite <- Permutation_middle in Nd. simpl in Nd. apply NoDup_cons in Nd as [Nd _]. set_solver. }
  split; rewrite ?Er, ?Er', ?Es, ?Et; try done; [|set_solver|tauto|].
  - apply sublist_app; [done|]. by apply sublist_cons.
  - intros a us E. revert a E. induction pre as [|x pre IH]; intros a E; simpl in *.
    + destruct a as [|y a]; injection E as E1 E2; [congruence|]. exists a, us. by rewrite E2.
    + clear IH Nd N1 Er Er'. revert x pre E. induction a as [|y a IHa]; intros x pre E; injection E as -> E.
      * subst. exists [], (pre ++ post). split; [done|]. set_solver.
      * destruct pre as [|z pre]; simpl in *.
        { destruct a as [|y' a]; injection E as E1 E2; [congruence|]. exists (y :: a), us. by rewrite E2. }
        destruct (IHa z pre E) as (pre' & us' & E' & Hs). exists (y :: pre'), us'. by rewrite E'.
Qed.

Lemma linked_free_root g pre p post g' o :
  linked g -> rootgc g = pre ++ p :: post -> heap g !! p = Some o -> p <> mainthread g ->
  (forall t, body o = BThread t -> openupval t = []) ->
  rootgc g' = pre ++ post -> heap g' = delete p (heap g) ->
  strt g' = strt g -> tmudata g' = tmudata g -> mainthread g' = mainthread g ->
  uvprev g' = uvprev g -> uvnext g' = uvnext g -> linked g'.
Proof.
  intros Ln Er E Hm Ht Er' Hh Es Et Em Up Un.
  eapply (linked_free g g' p o); [done|by eapply frees_root|done| |done].
  destruct (ln_root _ Ln p) as (o' & E' & _ & Ho); [rewrite Er; set_solver|]. congruence.
Qed.

Lemma linked_free_string g g' p i bucket pre post :
  linked g -> strt g !! i = Some bucket -> bucket = pre ++ p :: post ->
  strt g' = <[i := pre ++ post]> (strt g) -> heap g' = delete p (heap g) ->
  rootgc g' = rootgc g -> tmudata g' = tmudata g -> mainthread g' = mainthread g ->
  uvprev g' = uvprev g -> uvnext g' = uvnext g -> linked g'.
Proof.
  intros Ln Eb Ep Es Hh Er Et Em Up Un.
  pose proof (take_drop_middle _ _ _ Eb) as Es0.
  assert (concat (strt g) = concat (take i (strt g)) ++ pre ++ p :: post ++ concat (drop (S i) (strt g))) as C0.
  { rewrite <- Es0 at 1. by rewrite concat_app, Ep, concat_cons, <- app_assoc. }
  assert (concat (strt g') = concat (take i (strt g)) ++ pre ++ post ++ concat (drop (S i) (strt g))) as C1.
  { rewrite Es, insert_take_drop by (by eapply lookup_lt_Some). by rewrite concat_app, concat_cons, <- app_assoc. }
  destruct (ln_strt _ Ln p) as (m & ts & E); [rewrite C0; set_solver|].
  pose proof (ln_nodup _ Ln) as Nd. rewrite C0 in Nd.
  assert (p ∉ rootgc g /\ p ∉ concat (strt g') /\ p ∉ tmudata g) as (N1 & N2 & N3).
  { rewrite C1. revert Nd. generalize (concat (take i (strt g))) (concat (drop (S i) (strt g))). intros x y Nd.
    assert (NoDup (p :: rootgc g ++ (x ++ pre ++ post ++ y) ++ tmudata g)) as Nd'
      by (eapply NoDup_Permutation_proper; [|exact Nd]; solve_Permutation).
    apply NoDup_cons in Nd' as [Nd' _]. set_solver. }
  eapply (linked_free g g' p); [done| |done|by intros []|by intros t [=]].
  split; rewrite ?Er, ?Et; try done.
  - auto.
  - rewrite C0, C1. apply sublist_app; [done|]. apply sublist_app; [done|]. by apply sublist_cons.
  - rewrite C0, C1. set_solver.
  - intros a us E'. by exists a, us.
Qed.
