(* ===== verification/GcSwept.v ===== *)
(** * What a sweep may change

    [swept g g']: an object that is gone was dead; the others keep their contents,
    but for the links of open upvalues, and an open upvalue may have been closed
    with the value of its slot.  Every operation of the sweep phase is shown to be
    of this kind, and this is enough to keep the invariant [base]. *)

From stdpp Require Import gmap sets.
From S2P Require Import Prelude Number Object Table Heap Tm Gc Func GcSweep GcLogic GcInv GcMark GcTraverse GcLinks GcAtomic GcPhase GcLists.

Definition sw_body (g : GState) (b b' : Body) : Prop :=
  match b, b' with
  | BThread t, BThread t' => t' = set_openupval t (openupval t')
  | BUpVal (UOpen th lv _ _), BUpVal (UOpen th' lv' _ _) => th' = th /\ lv' = lv
  | BUpVal (UOpen th lv _ _), BUpVal (UClosed v) => v = slot_of g th lv
  | _, _ => b' = b
  end.

Definition sw_mark (g : GState) (m m' : Z) : Prop := m' = m \/ dead g m = false /\ m' = makewhite g m.

Record swept (g g' : GState) : Prop := {
  sw_fields : (currentwhite g', gcstate g', sweepstrgc g', sweepgc g', tmudata g',
               (l_registry g', mainthread g', mt g', tmname g', length (strt g'))) =
              (currentwhite g, gcstate g, sweepstrgc g, sweepgc g, tmudata g,
               (l_registry g, mainthread g, mt g, tmname g, length (strt g)));
  sw_heap p : match heap g !! p, heap g' !! p with
              | Some o, Some o' => sw_mark g (marked o) (marked o') /\ sw_body g (body o) (body o')
              | Some o, None => dead g (marked o) = true
              | None, None => True
              | None, Some _ => False
              end;
  sw_tmu p : p ∈ tmudata g -> heap g' !! p = heap g !! p
}.

Lemma sw_body_refl g b : sw_body g b b.
Proof. destruct b as [| | | | | |[]|th]; simpl; auto. by destruct th. Qed.

Lemma sw_body_tt g b b' : sw_body g b b' -> body_tt b' = body_tt b.
Proof. destruct b as [| | | | | |[]|], b' as [| | | | | |[]|]; simpl; intros H; (done || by inversion H). Qed.

Lemma swept_refl g : swept g g.
Proof.
  split; [done| |done]. intros p. destruct (heap g !! p); [|done]. split; [by left|apply sw_body_refl].
Qed.

Lemma swept_white g g' : swept g g' -> currentwhite g' = currentwhite g.
Proof. intros S. pose proof (sw_fields _ _ S) as F. by injection F. Qed.

Lemma dead_same g g' m : currentwhite g' = currentwhite g -> dead g' m = dead g m.
Proof. intros E. unfold dead, deadbit. by rewrite E. Qed.

Lemma makewhite_same g g' m : currentwhite g' = currentwhite g -> makewhite g' m = makewhite g m.
Proof. intros E. unfold makewhite, gafqC_white. by rewrite E. Qed.

Lemma dead_makewhite g m : white_ok g -> dead g (makewhite g m) = false.
Proof. intros W. unfold dead. by rewrite makewhite_dead. Qed.

Lemma sw_mark_dead g m m' : white_ok g -> sw_mark g m m' -> dead g m' = dead g m.
Proof. intros W [->|[D ->]]; [done|]. by rewrite D, dead_makewhite. Qed.

Lemma makewhite_fixed g m : white_ok g -> Z.testbit (makewhite g m) FIXEDBIT = Z.testbit m FIXEDBIT.
Proof.
  intros W. rewrite white_bits by (done || (unfold FIXEDBIT; lia)). by destruct (deadbit_cases g) as [-> | ->].
Qed.

Lemma makewhite_twice g m : white_ok g -> makewhite g (makewhite g m) = makewhite g m.
Proof.
  intros W. unfold makewhite, gafqC_white, u8. rewrite <- !(Z.land_ones _ 8) by lia.
  apply Z.bits_inj'. intros n Hn. rewrite !Z.land_spec, !Z.lor_spec, !Z.land_spec, !Z.lor_spec, !Z.land_spec.
  destruct (Z.testbit m n), (Z.testbit maskmarks n), (Z.testbit (currentwhite g) n), (Z.testbit WHITEBITS n),
    (Z.testbit (Z.ones 8) n); done.
Qed.

Section Swept.
Context (g g' : GState).
Hypothesis S : swept g g'.

Lemma swept_bwd p o' : heap g' !! p = Some o' -> exists o, heap g !! p = Some o /\
  sw_mark g (marked o) (marked o') /\ sw_body g (body o) (body o').
Proof. intros E. pose proof (sw_heap _ _ S p) as H. rewrite E in H. destruct (heap g !! p); [eauto|done]. Qed.

Lemma swept_live p o : heap g !! p = Some o -> dead g (marked o) = false -> exists o', heap g' !! p = Some o' /\
  sw_mark g (marked o) (marked o') /\ sw_body g (body o) (body o').
Proof.
  intros E D. pose proof (sw_heap _ _ S p) as H. rewrite E in H. destruct (heap g' !! p); [eauto|congruence].
Qed.

Lemma swept_safe r : white_ok g -> safe_ref g r -> safe_ref g' r.
Proof.
  intros W [(o & E & T) (o1 & E1 & D)]. rewrite E in E1. injection E1 as <-.
  destruct (swept_live _ _ E D) as (o' & E' & M & B). split.
  - exists o'. split; [done|]. by rewrite (sw_body_tt _ _ _ B).
  - exists o'. split; [done|]. rewrite (dead_same g) by (by apply swept_white). by rewrite (sw_mark_dead g (marked o)).
Qed.

Lemma swept_slot th lv m t : heap g' !! th = Some (mkObj m (BThread t)) -> slot_of g' th lv = slot_of g th lv.
Proof.
  intros E'. destruct (swept_bwd _ _ E') as ([m0 b] & E & _ & B). unfold slot_of. rewrite E, E'. simpl in B.
  destruct b as [| | | | | |[]|]; try discriminate B; try done. by rewrite B.
Qed.

Lemma swept_shape : linked g' -> shape g -> shape g'.
Proof.
  intros Ln Sh p o' E'. destruct (swept_bwd _ _ E') as (o & E & _ & B). pose proof (Sh p o E) as K.
  pose proof (ln_all _ Ln p o' E') as A.
  destruct (body o) as [| | | | | |[]|], (body o') as [| | | | | |[]|]; simpl in *; try discriminate B; try done.
  - by simplify_eq.
  - destruct B as [-> ->], A as (t' & [m' Et'] & _), K as (m & t & Et & L). exists m', t'. split; [done|].
    destruct (swept_bwd _ _ Et') as (o0 & E0 & _ & B0). rewrite Et in E0. injection E0 as <-. simpl in B0. by rewrite B0.
  - rewrite B. exact K.
Qed.

Lemma swept_refs p o o' : shape g' -> heap g' !! p = Some o' -> sw_body g (body o) (body o') ->
  body_refs g' (body o') = body_refs g (body o).
Proof.
  intros Sh E' B. pose proof (Sh p o' E') as K.
  destruct (body o) as [| | | | | |[th lv pr nx|]|], (body o') as [| | | | | |[th' lv' pr' nx'|]|];
    simpl in *; try discriminate B; try (by inversion B).
  - destruct B as [-> ->], K as (m & t & Et & _). by rewrite (swept_slot _ _ _ _ Et).
Qed.

Lemma swept_closed : white_ok g -> shape g' -> closed g -> closed g'.
Proof.
  intros W Sh C p o' E' D. destruct (swept_bwd _ _ E') as (o & E & M & B).
  rewrite (swept_refs p o o') by done. rewrite (dead_same g) in D by (by apply swept_white).
  rewrite (sw_mark_dead g (marked o)) in D by done.
  eapply Forall_impl; [by eapply C|]. intros r. by apply swept_safe.
Qed.

Lemma swept_core L : linked g' -> core L g -> core L g'.
Proof.
  intros Ln [W Sh C [R T] X Ns]. pose proof (sw_fields _ _ S) as F. injection F as Ec _ _ _ Et Er Em Emt _ El.
  assert (shape g') as Sh' by (by apply swept_shape).
  split; [by unfold white_ok in *; rewrite Ec|done|by apply swept_closed| | |].
  - split.
    + replace (root_refs g') with (root_refs g) by (unfold root_refs; by rewrite Er, Em, Emt).
      eapply Forall_impl; [exact R|]. intros r. by apply swept_safe.
    + rewrite Et. rewrite Forall_forall in T |- *. intros p Hp. unfold nonwhite. rewrite (sw_tmu _ _ S p Hp). by apply T.
  - intros p o' E' H. destruct (swept_bwd _ _ E') as (o & E & M & B). destruct M as [M|[_ ->]]; [|by apply makewhite_black].
    rewrite M in *.
    apply (X p o E). destruct H as [H|H]; [by left|right].
    destruct (body o) as [| | | | | |[]|], (body o') as [| | | | | |[]|]; simpl in *; try discriminate B; done.
  - intros H. rewrite H in El. by destruct (strt g).
Qed.

Lemma swept_base L : linked g' -> base L g -> base L g'.
Proof. rewrite !base_core. intros Ln [C _]. split; [by apply swept_core|done]. Qed.

End Swept.

Lemma sw_body_trans g1 g2 b1 b2 b3 :
  (forall th lv pr nx, b2 = BUpVal (UOpen th lv pr nx) -> slot_of g2 th lv = slot_of g1 th lv) ->
  sw_body g1 b1 b2 -> sw_body g2 b2 b3 -> sw_body g1 b1 b3.
Proof.
  intros Hs H1 H2.
  destruct b1 as [| | | | | |[]|], b2 as [| | | | | |[]|]; simpl in H1; try discriminate H1; try (by inversion H1; subst; simpl in H2; destruct b3 as [| | | | | |[]|]; simpl in *; try discriminate H2; done).
  - destruct H1 as [-> ->]. destruct b3 as [| | | | | |[]|]; simpl in *; try discriminate H2; try done.
    rewrite H2. by eapply Hs.
  - destruct b3 as [| | | | | |[]|]; simpl in *; try discriminate H2. by simplify_eq.
  - destruct b3 as [| | | | | |[]|]; simpl in *; try discriminate H2. rewrite H2, H1. done.
Qed.

(** ** Several steps *)

(** the objects of a sweep, whatever the position of the sweep *)
Record kept (g g' : GState) : Prop := {
  kp_white : currentwhite g' = currentwhite g;
  kp_heap p : match heap g !! p, heap g' !! p with
              | Some o, Some o' => sw_mark g (marked o) (marked o') /\ sw_body g (body o) (body o')
              | Some o, None => dead g (marked o) = true
              | None, None => True
              | None, Some _ => False
              end
}.

Lemma swept_kept g1 g2 g g' : swept g1 g2 -> heap g1 = heap g -> currentwhite g1 = currentwhite g ->
  heap g' = heap g2 -> currentwhite g' = currentwhite g2 -> kept g g'.
Proof.
  intros S H1 C1 H2 C2. split; [rewrite C2, <- C1; by apply swept_white|]. intros p. rewrite H2, <- H1.
  pose proof (sw_heap _ _ S p) as H. destruct (heap g1 !! p) as [o|], (heap g2 !! p) as [o'|]; try done.
  - destruct H as [M B]. split.
    + unfold sw_mark in *. by rewrite <- (dead_same g1 g), <- (makewhite_same g1 g) in M.
    + unfold sw_body, slot_of in *. rewrite H1 in B. exact B.
  - by rewrite (dead_same g1 g).
Qed.

Lemma kept_swept g g' : swept g g' -> kept g g'.
Proof. intros S. by eapply swept_kept. Qed.

Lemma kept_bwd g g' p o' : kept g g' -> heap g' !! p = Some o' -> exists o, heap g !! p = Some o /\
  sw_mark g (marked o) (marked o') /\ sw_body g (body o) (body o').
Proof. intros K E. pose proof (kp_heap _ _ K p) as H. rewrite E in H. destruct (heap g !! p); [eauto|done]. Qed.

Lemma kept_slot g g' th lv m t : kept g g' -> heap g' !! th = Some (mkObj m (BThread t)) -> slot_of g' th lv = slot_of g th lv.
Proof.
  intros K E'. destruct (kept_bwd _ _ _ _ K E') as ([m0 b] & E & _ & B). unfold slot_of. rewrite E, E'. simpl in B.
  destruct b as [| | | | | |[]|]; try discriminate B; try done. by rewrite B.
Qed.

Lemma kept_trans g1 g2 g3 : white_ok g1 -> shape g2 -> kept g1 g2 -> kept g2 g3 -> kept g1 g3.
Proof.
  intros W Sh K1 K2. pose proof (kp_white _ _ K1) as Ec. split; [rewrite (kp_white _ _ K2); apply K1|].
  intros p. pose proof (kp_heap _ _ K1 p) as H1. pose proof (kp_heap _ _ K2 p) as H2.
  destruct (heap g1 !! p) as [o1|], (heap g2 !! p) as [o2|] eqn:E2, (heap g3 !! p) as [o3|]; try done.
  - destruct H1 as [M1 B1], H2 as [M2 B2]. split.
    + destruct M2 as [->|[D ->]]; [done|]. right. rewrite (dead_same g1), (sw_mark_dead g1 (marked o1)) in D by done.
      split; [done|]. rewrite (makewhite_same g1) by done. destruct M1 as [->|[_ ->]]; [done|by apply makewhite_twice].
    + eapply sw_body_trans; [|done|done]. intros th lv pr nx Eb. pose proof (Sh p o2 E2) as K. rewrite Eb in K.
      destruct K as (m & t & Et & _). by eapply kept_slot.
  - destruct H1 as [M1 B1]. by rewrite (dead_same g1), (sw_mark_dead g1 (marked o1)) in H2 by done.
Qed.

Lemma swept_trans g1 g2 g3 : white_ok g1 -> shape g2 -> swept g1 g2 -> swept g2 g3 -> swept g1 g3.
Proof.
  intros W Sh S1 S2. split.
  - rewrite (sw_fields _ _ S2). apply S1.
  - apply (kept_trans g1 g2 g3); auto using kept_swept.
  - intros p Hp. rewrite (sw_tmu _ _ S2); [by apply S1|]. pose proof (sw_fields _ _ S1) as F. injection F as _ _ _ _ -> _ _ _ _ _. done.
Qed.
