(* ===== verification/GcFree.v ===== *)
(** * Freeing objects

    [freeobj] on every kind of object.  While an object is freed it is already out
    of its chain: the invariant is stated for the state in which it is still there,
    [set_rootgc g r]. *)

From stdpp Require Import gmap sets.
From S2P Require Import Prelude Number Object Table Heap Tm Gc Func GcSweep GcLogic GcInv GcMark GcTraverse GcLinks GcAtomic GcPhase GcLists GcSwept.

(** the upvalue [p] is taken out of the open upvalues of the thread [th] *)
Definition drop_open (g : GState) (th : pointer) (m : Z) (t : Thread) (l : list pointer) : GState :=
  on_heap (insert th (mkObj m (BThread (set_openupval t l)))) g.

Record open_at (g : GState) (r : list pointer) (th : pointer) (m : Z) (t : Thread) (a : list pointer)
    (p : pointer) (b : list pointer) : Prop := {
  oa_linked : linked (set_rootgc g r);
  oa_thread : heap g !! th = Some (mkObj m (BThread t));
  oa_open : openupval t = a ++ p :: b
}.

(** ... and out of the list of all the open upvalues *)
Record unlinked (g : GState) (r : list pointer) (th : pointer) (m : Z) (t : Thread) (a : list pointer)
    (p : pointer) (b : list pointer) (g2 : GState) : Prop := {
  ul_relink : relink (drop_open g th m t (a ++ b)) g2;
  ul_same : heap g2 !! p = heap g !! p;
  ul_linked mu uv m' v G : heap g !! p = Some (mkObj mu (BUpVal uv)) ->
    heap G = <[p := mkObj m' (BUpVal (UClosed v))]> (heap g2) ->
    Z.testbit m' FIXEDBIT = Z.testbit mu FIXEDBIT -> uvprev G = uvprev g2 -> uvnext G = uvnext g2 ->
    rootgc G = p :: r -> strt G = strt g -> tmudata G = tmudata g -> mainthread G = mainthread g -> linked G
}.

(** the open upvalues of other threads only change their links *)
Definition others (th : pointer) (g g' : GState) : Prop := forall q m th' lv pr nx,
  heap g !! q = Some (mkObj m (BUpVal (UOpen th' lv pr nx))) -> th' <> th -> relinked (heap g !! q) (heap g' !! q).

Lemma others_trans th g1 g2 g3 : others th g1 g2 -> others th g2 g3 -> others th g1 g3.
Proof.
  intros H1 H2 q m th' lv pr nx E Hth. pose proof (H1 q m th' lv pr nx E Hth) as R. eapply relinked_trans; [done|].
  rewrite E in R. destruct (relinked_open _ _ _ _ _ _ R) as (pr' & nx' & E'). by eapply H2.
Qed.

(** open upvalues of [th] are gone, or closed and in front of the chain: [x] *)
Record removed (g : GState) (r : list pointer) (th : pointer) (m : Z) (t : Thread) (l : list pointer)
    (x : list pointer) (g' : GState) : Prop := {
  rm_swept : swept g g';
  rm_linked : linked (set_rootgc g' (x ++ r));
  rm_root : rootgc g' = x ++ rootgc g;
  rm_thread : heap g' !! th = Some (mkObj m (BThread (set_openupval t l)));
  rm_others : others th g g';
  rm_strt : strt g' = strt g
}.

Section OpenAt.
Context (g : GState) (r : list pointer) (th : pointer) (m : Z) (t : Thread) (a : list pointer)
  (p : pointer) (b : list pointer).
Hypothesis O : open_at g r th m t a p b.

Lemma open_at_upval : exists mu lv pr nx, heap g !! p = Some (mkObj mu (BUpVal (UOpen th lv pr nx))).
Proof.
  pose proof O as [Ln Et Eo]. destruct (ln_open _ Ln th t) as [_ H]; [by exists m|].
  apply H. rewrite Eo. set_solver.
Qed.

Lemma open_at_ne : p <> th.
Proof. intros Heq. destruct open_at_upval as (mu & lv & pr & nx & E). rewrite Heq, (oa_thread _ _ _ _ _ _ _ _ O) in E. done. Qed.

Lemma unlink_open : wp (unlinkupval p) (fun _ g2 => unlinked g r th m t a p b g2) (drop_open g th m t (a ++ b)).
Proof.
  destruct open_at_upval as (mu & lv & pr & nx & E). pose proof open_at_ne as Hne. pose proof O as [Ln Et Eo].
  destruct (ln_uv _ Ln) as (l & Ul & Nl & Hl). simpl in Hl.
  assert (p ∈ l) as Hp by (apply Hl; eexists; split; [exact E|done]).
  apply list_elem_of_split in Hp as (l1 & l2 & ->).
  assert (th ∉ l1 ++ p :: l2) as Hth by (intros H; apply Hl in H as (o & E' & Ho); rewrite Et in E'; by simplify_eq).
  eapply wp_mono; [apply (unlinkupval_spec _ l1 p l2 mu (UOpen th lv pr nx))|].
  - simpl. rewrite lookup_insert_ne; [apply Ln|]. intros ->. pose proof (ln_head _ Ln) as H. simpl in H. congruence.
  - done.
  - apply uvchain_seg. apply uvchain_seg in Ul. eapply uvseg_frame; [|exact Ul].
    intros x Hx. simpl. apply lookup_insert_ne. by intros ->.
  - simpl. by rewrite lookup_insert_ne.
  - intros [] g2 (Rl & U2 & Es). cbv beta. simpl in Es. rewrite lookup_insert_ne in Es by done. split; [done|done|].
    intros mu0 uv m' v G E0 Hh Hf Hp Hn Hr Hs Ht Hm. rewrite E in E0. injection E0 as <- <-.
    assert (forall q, q <> p -> q <> th -> relinked (heap g !! q) (heap G !! q)) as Ho.
    { intros q Hq Hq'. rewrite Hh, lookup_insert_ne by done. pose proof (rl_heap _ _ Rl q) as H. simpl in H.
      by rewrite lookup_insert_ne in H. }
    pose proof (rl_heap _ _ Rl th) as Hth'. simpl in Hth'. rewrite lookup_insert_eq in Hth'.
    apply relinked_same in Hth'; [|by intros []].
    apply (linked_close (set_rootgc g r) G p th a b); [|done].
    split; try done.
    + exists m, t, (set_openupval t (a ++ b)). split_and!; [done| |done|done]. by rewrite Hh, lookup_insert_ne.
    + exists mu, m', (pr, nx). unfold uv_level. simpl. rewrite E. split_and!; [done| |done].
      exists v. by rewrite Hh, lookup_insert_eq.
    + exists l1, l2. split_and!; [done|exact Hl|]. unfold uvlist. rewrite Hn. apply uvchain_seg.
      apply uvchain_seg in U2. rewrite Hp. eapply uvseg_frame; [|exact U2]. intros x Hx. rewrite Hh.
      apply lookup_insert_ne. intros ->. clear -Nl Hx. apply NoDup_app in Nl as (_ & N1 & [N2 _]%NoDup_cons).
      apply elem_of_app in Hx as [Hx|Hx]; [|done]. apply (N1 x Hx). constructor.
Qed.

(** the objects other than [p] after [unlink_open] *)
Lemma unlinked_others g2 q : unlinked g r th m t a p b g2 -> q <> p ->
  match heap g !! q, heap g2 !! q with
  | Some o, Some o' => marked o' = marked o /\ sw_body g (body o) (body o') /\ (~ is_open (body o) -> q <> th -> o' = o)
  | None, None => True
  | _, _ => False
  end.
Proof.
  intros [Rl _ _] Hq. pose proof (rl_heap _ _ Rl q) as H. simpl in H.
  destruct (decide (q = th)) as [->|Hth].
  - rewrite lookup_insert_eq in H. apply relinked_same in H; [|by intros []].
    rewrite H, (oa_thread _ _ _ _ _ _ _ _ O). by destruct t.
  - rewrite lookup_insert_ne in H by done. destruct H as [->|(mu & th' & lv & pr & nx & pr' & nx' & -> & ->)].
    + destruct (heap g !! q); [|done]. split_and!; [done|apply sw_body_refl|done].
    + split_and!; [done|done|]. intros Ho. by destruct Ho.
Qed.

Lemma tmudata_not_open q : q ∈ tmudata g -> q <> p /\ q <> th /\ exists mu u, heap g !! q = Some (mkObj mu (BUdata u)).
Proof.
  intros Hq. pose proof (ln_tmu _ (oa_linked _ _ _ _ _ _ _ _ O) q Hq) as (mu & u & E). simpl in E.
  destruct open_at_upval as (mp & lv & pr & nx & Ep). pose proof (oa_thread _ _ _ _ _ _ _ _ O) as Et.
  split_and!; [congruence|congruence|eauto].
Qed.

(** [p] is deleted, or keeps its mark and is closed *)
Lemma unlinked_swept g2 g' : unlinked g r th m t a p b g2 ->
  (currentwhite g', gcstate g', sweepstrgc g', sweepgc g', tmudata g', (l_registry g', mainthread g', mt g', tmname g', length (strt g'))) =
  (currentwhite g2, gcstate g2, sweepstrgc g2, sweepgc g2, tmudata g2, (l_registry g2, mainthread g2, mt g2, tmname g2, length (strt g2))) ->
  (forall q, q <> p -> heap g' !! q = heap g2 !! q) ->
  (match heap g !! p, heap g' !! p with
   | Some o, Some o' => sw_mark g (marked o) (marked o') /\ sw_body g (body o) (body o')
   | Some o, None => dead g (marked o) = true
   | _, _ => False
   end) -> swept g g'.
Proof.
  intros U F Hq Hp. split.
  - rewrite F. rewrite (rl_fields _ _ (ul_relink _ _ _ _ _ _ _ _ _ U)). done.
  - intros q. destruct (decide (q = p)) as [->|Hne].
    + destruct (heap g !! p), (heap g' !! p); done.
    + rewrite Hq by done. pose proof (unlinked_others g2 q U Hne) as H.
      destruct (heap g !! q), (heap g2 !! q); try done. destruct H as (M & B & _). split; [by left|done].
  - intros q Hm. destruct (tmudata_not_open q Hm) as (Hp1 & Hth1 & mu & u & E). rewrite Hq by done.
    pose proof (unlinked_others g2 q U Hp1) as H. rewrite E in H |- *. destruct (heap g2 !! q); [|done].
    destruct H as (_ & _ & H). simpl in H. rewrite H; [done|tauto|done].
Qed.

Lemma unlinked_fields g2 : unlinked g r th m t a p b g2 ->
  rootgc g2 = rootgc g /\ strt g2 = strt g /\ tmudata g2 = tmudata g /\ mainthread g2 = mainthread g /\
  currentwhite g2 = currentwhite g /\ gcstate g2 = gcstate g.
Proof. intros U. by rewrite (rl_fields _ _ (ul_relink _ _ _ _ _ _ _ _ _ U)). Qed.

Lemma unlinked_others_relinked g2 g' :
  unlinked g r th m t a p b g2 -> (forall q, q <> p -> heap g' !! q = heap g2 !! q) -> others th g g'.
Proof.
  intros U H q mq th' lv pr nx E Hth. destruct open_at_upval as (mu & lv' & pr' & nx' & E').
  assert (q <> p) as Hp by (intros Heq; congruence). rewrite H by done.
  pose proof (rl_heap _ _ (ul_relink _ _ _ _ _ _ _ _ _ U) q) as R. simpl in R. rewrite lookup_insert_ne in R; [done|].
  intros Heq. rewrite <- Heq, (oa_thread _ _ _ _ _ _ _ _ O) in E. congruence.
Qed.

(** the upvalue of a slot that is not used any more is freed *)
Lemma freeupval_spec mu uv :
  heap g !! p = Some (mkObj mu (BUpVal uv)) -> dead g mu = true -> p <> mainthread g ->
  wp (gafqF_freeupval p) (fun _ g' => removed g r th m t (a ++ b) [] g' /\ heap g' !! p = None)
    (drop_open g th m t (a ++ b)).
Proof.
  intros E D Hm. pose proof open_at_ne as Hne. destruct open_at_upval as (mu' & lv & pr & nx & E').
  rewrite E in E'. injection E' as <- ->.
  unfold gafqF_freeupval. wp_step. eapply wp_gco2uv; [simpl; by rewrite lookup_insert_ne|]. cbv beta iota.
  wp_step. eapply wp_mono; [apply unlink_open|]. intros [] g2 U. cbv beta.
  pose proof (ul_same _ _ _ _ _ _ _ _ _ U) as Es. rewrite E in Es.
  destruct (unlinked_fields g2 U) as (Er & Est & Et & Em & Ec & Eg).
  unfold wp, freemem. rewrite Es. split; [split|].
  - apply (unlinked_swept g2 _ U); [done| |].
    + intros q Hq. simpl. by apply lookup_delete_ne.
    + simpl. by rewrite E, lookup_delete_eq.
  - set (G := set_rootgc (on_heap (insert p (mkObj mu (BUpVal (UClosed VNil)))) g2) (p :: r)).
    assert (linked G) as LG by (by eapply (ul_linked _ _ _ _ _ _ _ _ _ U)).
    eapply (linked_free_root G [] p r); [done|done| |simpl; congruence| |done| |done..].
    + simpl. by rewrite lookup_insert_eq.
    + by intros t0 [=].
    + simpl. by rewrite delete_insert_eq.
  - done.
  - simpl. rewrite lookup_delete_ne by done. pose proof (rl_heap _ _ (ul_relink _ _ _ _ _ _ _ _ _ U) th) as H.
    simpl in H. rewrite lookup_insert_eq in H. apply relinked_same in H; [done|by intros []].
  - apply (unlinked_others_relinked g2); [done|]. intros q Hq. simpl. by apply lookup_delete_ne.
  - done.
  - simpl. apply lookup_delete_eq.
Qed.

(** the state in which [close_upval] links the closed upvalue *)
Lemma close_upval_spec mu lv pr nx Q :
  heap g !! p = Some (mkObj mu (BUpVal (UOpen th lv pr nx))) ->
  (forall g2, unlinked g r th m t a p b g2 ->
     wp (gafqC_linkupval p) Q (on_heap (insert p (mkObj mu (BUpVal (UClosed (slot_of g th lv))))) g2)) ->
  wp (close_upval p) Q (drop_open g th m t (a ++ b)).
Proof.
  intros E HQ. pose proof open_at_ne as Hne. unfold close_upval.
  wp_step. eapply wp_mono; [apply unlink_open|]. intros [] g2 U. cbv beta.
  pose proof (ul_same _ _ _ _ _ _ _ _ _ U) as Es. rewrite E in Es.
  pose proof (rl_heap _ _ (ul_relink _ _ _ _ _ _ _ _ _ U) th) as H. simpl in H.
  rewrite lookup_insert_eq in H. apply relinked_same in H; [|by intros []].
  wp_step. eapply wp_gco2uv; [done|]. cbv beta. wp_step. simpl. wp_step.
  eapply wp_gco2th; [done|]. cbv beta. wp_step. wp_step. eapply wp_putbody; [done|].
  specialize (HQ g2 U). unfold slot_of in HQ. by rewrite (oa_thread _ _ _ _ _ _ _ _ O) in HQ.
Qed.

(** in the sweep phase the closed upvalue gets the current white *)
Lemma close_upval_sweep mu lv pr nx :
  white_ok g -> gcstate g <> GCSpropagate ->
  heap g !! p = Some (mkObj mu (BUpVal (UOpen th lv pr nx))) -> dead g mu = false ->
  wp (close_upval p) (fun _ g' => removed g r th m t (a ++ b) [p] g' /\
    exists m', heap g' !! p = Some (mkObj m' (BUpVal (UClosed (slot_of g th lv)))) /\ sw_mark g mu m' /\
      (isgray mu = false \/ m' = makewhite g mu))
    (drop_open g th m t (a ++ b)).
Proof.
  intros W Gs E D. eapply close_upval_spec; [done|]. intros g2 U. pose proof open_at_ne as Hne.
  destruct (unlinked_fields g2 U) as (Er & Est & Et & Em & Ec & Eg).
  assert (white_ok g2) as W2 by (unfold white_ok in *; by rewrite Ec).
  assert (forall m' g', sw_mark g mu m' -> isgray mu = false \/ m' = makewhite g mu -> Z.testbit m' FIXEDBIT = Z.testbit mu FIXEDBIT ->
    g' = set_rootgc (on_heap (insert p (mkObj m' (BUpVal (UClosed (slot_of g th lv))))) g2) (p :: rootgc g) ->
    removed g r th m t (a ++ b) [p] g' /\
    exists m', heap g' !! p = Some (mkObj m' (BUpVal (UClosed (slot_of g th lv)))) /\ sw_mark g mu m' /\
      (isgray mu = false \/ m' = makewhite g mu)) as K.
  { intros m' g' Sm Sg Sf ->. split; [split|].
    - apply (unlinked_swept g2 _ U); [done| |].
      + intros q Hq. simpl. by apply lookup_insert_ne.
      + simpl. by rewrite E, lookup_insert_eq.
    - by eapply (ul_linked _ _ _ _ _ _ _ _ _ U).
    - done.
    - simpl. rewrite lookup_insert_ne by done. pose proof (rl_heap _ _ (ul_relink _ _ _ _ _ _ _ _ _ U) th) as H.
      simpl in H. rewrite lookup_insert_eq in H. apply relinked_same in H; [done|by intros []].
    - apply (unlinked_others_relinked g2); [done|]. intros q Hq. simpl. by apply lookup_insert_ne.
    - done.
    - exists m'. simpl. by rewrite lookup_insert_eq. }
  unfold gafqC_linkupval. wp_step. wp_step. wp_step. eapply wp_getmarked; [simpl; apply lookup_insert_eq|].
  cbv beta. cbn [marked]. destruct (isgray mu) eqn:Gr.
  - wp_step. wp_step. cbn [gcstate set_rootgc on_heap set_heap id]. rewrite Eg.
    destruct (Z.eqb_spec (gcstate g) GCSpropagate); [done|].
    eapply wp_mark_with; [simpl; apply lookup_insert_eq|]. apply (K (makewhite g2 mu)).
    + right. split; [done|by apply makewhite_same].
    + right. by apply makewhite_same.
    + by apply makewhite_fixed.
    + simpl. unfold on_heap. simpl. rewrite insert_insert_eq, Er. done.
  - wp_step. apply (K mu); [by left|by left|done|]. simpl. by rewrite Er.
Qed.

End OpenAt.

(** ** Closing all the upvalues of a dead thread *)

Lemma main_object g : linked g -> exists o, heap g !! mainthread g = Some o /\ ~ is_open (body o) /\ body_tt (body o) <> GAFQ_TSTRING.
Proof.
  intros Ln. destruct (ln_main _ Ln) as (pre & us & E & _).
  destruct (ln_root _ Ln (mainthread g)) as (o & Eo & Hs & Ho); [rewrite E; set_solver|]. eauto.
Qed.

Lemma open_isdead g p m th lv pr nx : white_ok g -> linked g ->
  heap g !! p = Some (mkObj m (BUpVal (UOpen th lv pr nx))) -> p <> mainthread g /\ isdead g m = dead g m.
Proof.
  intros W Ln E. assert (p <> mainthread g) as Hm.
  { intros ->. destruct (main_object g Ln) as (o & Eo & Ho & _). rewrite E in Eo. injection Eo as <-. by destruct Ho. }
  split; [done|]. rewrite isdead_eq by done. unfold dead. destruct (Z.testbit m FIXEDBIT) eqn:F; [|by rewrite andb_true_r].
  destruct (ln_fixed _ Ln p _ E F); done.
Qed.

Lemma removed_trans g1 g2 g3 r th m t l l' x y : white_ok g1 -> shape g1 ->
  removed g1 r th m t l x g2 -> removed g2 (x ++ r) th m (set_openupval t l) l' y g3 ->
  removed g1 r th m t l' (y ++ x) g3.
Proof.
  intros W Sh [S1 L1 R1 T1 O1 E1] [S2 L2 R2 T2 O2 E2]. split.
  - eapply swept_trans; [done| |done|done].
    refine (swept_shape g1 (set_rootgc g2 (x ++ r)) _ L1 Sh). destruct S1. by split.
  - by rewrite <- app_assoc.
  - by rewrite R2, R1, app_assoc.
  - done.
  - by eapply others_trans.
  - congruence.
Qed.

Lemma close_loop_sweep l : forall g r th m t, white_ok g -> gcstate g <> GCSpropagate -> shape g ->
  linked (set_rootgc g r) -> heap g !! th = Some (mkObj m (BThread t)) -> openupval t = l ->
  wp (close_loop th 0 l) (fun _ g' => exists x, removed g r th m t [] x g') g.
Proof.
  induction l as [|p l IH]; intros g r th m t W Gs Sh Ln Et Eo; simpl.
  { wp_step. exists []. split; [apply swept_refl|done|done|rewrite <- Eo; by destruct t| |done]. intros q. by left. }
  assert (open_at g r th m t [] p l) as O by (by split).
  destruct (open_at_upval _ _ _ _ _ _ _ _ O) as (mu & lv & pr & nx & E). pose proof (open_at_ne _ _ _ _ _ _ _ _ O) as Hne.
  destruct (open_isdead (set_rootgc g r) p mu th lv pr nx W Ln E) as [Hm Hd].
  wp_step. eapply wp_gco2uv; [done|]. cbv beta iota.
  destruct (Sh p _ E) as (m' & t' & _ & Hl). destruct (Z.leb_spec 0 lv); [|lia].
  wp_step. eapply wp_gco2th; [done|]. cbv beta. wp_step. eapply wp_putbody; [done|]. wp_step. wp_step. wp_step.
  eapply wp_getmarked; [simpl; by rewrite lookup_insert_ne|]. cbv beta. wp_step.
  change (isdead _ _) with (isdead (set_rootgc g r) mu). rewrite Hd.
  assert (forall g1 x, removed g r th m t l x g1 -> wp (close_loop th 0 l) (fun _ g' => exists x, removed g r th m t [] x g') g1) as K.
  { intros g1 x R. pose proof (rm_swept _ _ _ _ _ _ _ _ R) as S1. pose proof (sw_fields _ _ S1) as F.
    assert (currentwhite g1 = currentwhite g /\ gcstate g1 = gcstate g) as [Ec Eg] by (split; congruence).
    eapply wp_mono; [apply (IH g1 (x ++ r) th m (set_openupval t l))|].
    - unfold white_ok in *. by rewrite Ec.
    - by rewrite Eg.
    - refine (swept_shape g (set_rootgc g1 (x ++ r)) _ (rm_linked _ _ _ _ _ _ _ _ R) Sh). destruct S1. by split.
    - apply R.
    - apply R.
    - done.
    - intros [] g2 (y & R2). exists (y ++ x). by eapply removed_trans. }
  destruct (dead (set_rootgc g r) mu) eqn:D.
  - eapply wp_mono; [by eapply (freeupval_spec g r th m t [] p l O)|]. intros [] g1 [R _]. cbv beta. by apply (K g1 []).
  - eapply wp_mono; [by eapply (close_upval_sweep g r th m t [] p l O)|]. intros [] g1 [R _]. cbv beta. by apply (K g1 [p]).
Qed.

(** ** Freeing the other objects *)

Definition freed (p : pointer) (g g' : GState) : Prop :=
  exists k n, g' = set_totalbytes (set_nuse (on_heap (delete p) g) k) n.

Lemma freemem_spec p o n g (Q : unit -> GState -> Prop) : heap g !! p = Some o ->
  Q tt (set_totalbytes (on_heap (delete p) g) (size_t (totalbytes g - n))) -> wp (freemem p n) Q g.
Proof. intros E H. unfold wp, freemem. by rewrite E. Qed.

(** one block of memory of the object, or the object itself *)
Ltac free_step :=
  repeat (wp_step; try (unfold resize_block; wp_step));
  try (eapply freemem_spec; [done|]; by do 2 eexists).

Lemma freeobj_simple g p o :
  heap g !! p = Some o -> ~ is_open (body o) -> body_tt (body o) <> GAFQ_TTHREAD ->
  wp (freeobj p) (fun _ g' => freed p g g') g.
Proof.
  intros E No Nt. unfold freeobj. wp_step. eapply wp_getobj; [done|]. destruct o as [m b]. cbn [body] in *. cbv beta.
  destruct b as [ts|u|env up|env f up|t|f|[th lv pr nx|v]|th]; try done.
  - free_step.
  - free_step.
  - unfold gafqF_freeclosure. wp_step. eapply wp_getobj; [done|]. cbv beta iota. simpl. free_step.
  - unfold gafqF_freeclosure. wp_step. eapply wp_getobj; [done|]. cbv beta iota. simpl. free_step.
  - unfold gafqH_free. wp_step. eapply wp_gco2h; [done|]. destruct (isdummy t); free_step.
  - unfold gafqF_freeproto. wp_step. eapply wp_gco2p; [done|]. free_step.
  - unfold gafqF_freeupval. wp_step. eapply wp_gco2uv; [done|]. free_step.
Qed.

Lemma free_swept g g' p o : freed p g g' -> heap g !! p = Some o -> dead g (marked o) = true -> p ∉ tmudata g -> swept g g'.
Proof.
  intros (k & n & ->) E D Np. split; [done| |].
  - intros q. simpl. destruct (decide (p = q)) as [->|Hne]; [by rewrite E, lookup_delete_eq|].
    rewrite lookup_delete_ne by done. apply swept_refl.
  - intros q Hq. simpl. apply lookup_delete_ne. by intros ->.
Qed.

(** no open upvalue is freed here *)
Lemma free_others g g' p th o : freed p g g' -> heap g !! p = Some o -> ~ is_open (body o) -> others th g g'.
Proof.
  intros (k & n & ->) E No q m th' lv pr nx Eq _. left. simpl. apply lookup_delete_ne. intros ->.
  rewrite E in Eq. injection Eq as ->. by destruct No.
Qed.

Lemma root_not_tmudata g pre p post : linked g -> rootgc g = pre ++ p :: post -> p ∉ tmudata g.
Proof. intros Ln E. pose proof (ln_nodup _ Ln) as Nd. rewrite E in Nd. apply NoDup_app in Nd as (_ & Nd & _). set_solver. Qed.

Record freed_root (g : GState) (l : list pointer) (p : pointer) (g' : GState) : Prop := {
  fo_swept : swept g g';
  fo_linked : linked g';
  fo_root : exists x, rootgc g' = x ++ l;
  fo_gone : heap g' !! p = None;
  fo_others : others p g g'
}.

Lemma freed_root_intro g g' pre p post o :
  linked (set_rootgc g (pre ++ p :: post)) -> rootgc g = pre ++ post ->
  heap g !! p = Some o -> dead g (marked o) = true -> p <> mainthread g ->
  (forall t, body o = BThread t -> openupval t = []) -> freed p g g' -> freed_root g (pre ++ post) p g'.
Proof.
  intros Ln Er E D Hm Ht F.
  destruct (ln_root _ Ln p) as (o' & E' & _ & Ho); [simpl; set_solver|]. simpl in E'. rewrite E in E'. injection E' as <-.
  split.
  - eapply free_swept; [done|done|done|]. by eapply (root_not_tmudata _ _ _ _ Ln).
  - destruct F as (k & n & ->). by eapply (linked_free_root _ pre p post _ o Ln).
  - destruct F as (k & n & ->). by exists [].
  - destruct F as (k & n & ->). simpl. apply lookup_delete_eq.
  - by eapply free_others.
Qed.

Lemma freeobj_root g pre p post o :
  white_ok g -> gcstate g <> GCSpropagate -> shape g -> linked (set_rootgc g (pre ++ p :: post)) ->
  rootgc g = pre ++ post -> heap g !! p = Some o -> dead g (marked o) = true -> p <> mainthread g ->
  wp (freeobj p) (fun _ g' => freed_root g (pre ++ post) p g') g.
Proof.
  intros W Gs Sh Ln Er E D Hm.
  destruct (decide (body_tt (body o) = GAFQ_TTHREAD)) as [Tt|Tt].
  - destruct o as [m b]. simpl in *. destruct b as [| | | | | | |t]; try discriminate Tt.
    unfold freeobj. wp_step. eapply wp_getobj; [done|]. cbn [body]. cbv beta iota. unfold gafqE_freethread, gafqF_close.
    wp_step. wp_step. eapply wp_gco2th; [done|]. cbv beta.
    eapply wp_mono; [by apply (close_loop_sweep _ g (pre ++ p :: post) p m t)|]. intros [] g1 (x & [S1 L1 R1 T1 O1]). cbv beta.
    wp_step. eapply wp_gco2th; [done|]. free_step. eapply freemem_spec; [done|].
    match goal with |- freed_root _ _ _ ?s => set (g2 := s) end.
    assert (freed_root g1 ((x ++ pre) ++ post) p g2) as [S2 L2 _ G2 O2].
    { eapply (freed_root_intro g1 g2 (x ++ pre) p post); [by rewrite <- app_assoc| |exact T1| | | |].
      - by rewrite R1, Er, app_assoc.
      - rewrite (dead_same g); [done|by apply swept_white].
      - pose proof (sw_fields _ _ S1). congruence.
      - by intros t' [= <-].
      - by do 2 eexists. }
    split; [|done| |done|by eapply others_trans].
    + eapply swept_trans; [done| |done|done].
      refine (swept_shape g (set_rootgc g1 (x ++ pre ++ p :: post)) _ L1 Sh). destruct S1. by split.
    + exists x. simpl. by rewrite R1, Er.
  - destruct (ln_root _ Ln p) as (o' & E' & _ & Ho); [simpl; set_solver|]. simpl in E'. rewrite E in E'. injection E' as <-.
    eapply wp_mono; [by eapply freeobj_simple|]. intros [] g' F. eapply freed_root_intro; try done.
    intros t Eb. by rewrite Eb in Tt.
Qed.
