(* ===== verification/GcSweepLoop.v ===== *)
(** * The sweep loop

    [sweeplist] over a chain, for any of the three kinds of chain; then the open
    upvalues of a thread, the buckets of the string table and [rootgc]. *)

From stdpp Require Import gmap sets.
From S2P Require Import Prelude Number Object Table Heap Tm Gc Func GcSweep GcLogic GcInv GcMark GcTraverse GcLinks GcAtomic GcPhase GcLists GcSwept GcFree.

(** ** The loop *)

(** one round, up to the next *)
Definition sweep_round (sub : pointer -> gc unit) (c : chain) (after : option pointer) (deadmask : Z)
    (pre rest : list pointer) (curr : pointer) : gc (option pointer) :=
  o ← getobj curr;
  (match body o with BThread _ => sub curr | _ => mret tt end);;
  m ← getmarked curr;
  g ← gets id;
  if testbits (Z.lxor m WHITEBITS) deadmask then
    mark_with curr (makewhite g);; mret (Some curr)
  else
    put_chain c (pre ++ rest);; freeobj curr;; mret after.

Section Loop.
Context (sub : pointer -> gc unit) (c : chain) (deadmask : Z).

(** the invariant: the position, the elements before and after it, the state *)
Context (J : option pointer -> list pointer -> list pointer -> GState -> Prop).

Hypothesis J_chain : forall after pre post g, J after pre post g ->
  wp (get_chain c) (fun l g' => g' = g /\ split_at after l = (pre, post)) g.
Hypothesis J_size : forall after pre post g, J after pre post g -> (length pre <= size (heap g))%nat.
Hypothesis J_round : forall after pre curr rest g, J after pre (curr :: rest) g ->
  wp (sweep_round sub c after deadmask pre rest curr) (fun after' g' => exists pre' post', J after' pre' post' g' /\
    (size (heap g') + length pre < size (heap g) + length pre')%nat) g.

Lemma sweep_loop_round fuel after count pre curr rest l g Q :
  split_at after l = (pre, curr :: rest) -> 0 < count ->
  wp (get_chain c) (fun l' g' => g' = g /\ l' = l) g ->
  wp (sweep_round sub c after deadmask pre rest curr)
     (fun after' => wp (sweep_loop sub fuel c after' (count - 1) deadmask) Q) g ->
  wp (sweep_loop sub (S fuel) c after count deadmask) Q g.
Proof.
  clear J_chain J_size J_round. intros Es Hc Hg H. cbn [sweep_loop]. wp_step. eapply wp_mono; [exact Hg|]. intros l' g' [-> ->]. cbv beta. rewrite Es.
  destruct (Z.leb_spec count 0); [lia|]. unfold sweep_round, wp, mbind, stres_bind in *.
  destruct (getobj curr g) as [[o g1]|]; [|done]. revert H.
  destruct ((match body o with BThread _ => sub curr | _ => mret tt end) g1) as [[[] g2]|]; [|done].
  destruct (getmarked curr g2) as [[m g3]|]; [|done]. simpl.
  destruct (testbits _ _).
  - destruct (mark_with curr (makewhite g3) g3) as [[[] g4]|]; done.
  - destruct (put_chain c (pre ++ rest) g3) as [[[] g4]|]; [|done]. destruct (freeobj curr g4) as [[[] g5]|]; done.
Qed.

Lemma sweep_loop_spec fuel : forall after count pre post g,
  J after pre post g -> (size (heap g) < fuel + length pre)%nat ->
  wp (sweep_loop sub fuel c after count deadmask) (fun after' g' => exists pre' post', J after' pre' post' g' /\
    (Z.of_nat (size (heap g)) < count + zlen pre -> post' = []) /\
    (pre' = pre /\ g' = g /\ (post = [] \/ count <= 0) \/
     (size (heap g') + length pre < size (heap g) + length pre')%nat)) g.
Proof.
  induction fuel as [|fuel IH]; intros after count pre post g HJ Hf.
  { apply J_size in HJ. lia. }
  pose proof (J_chain _ _ _ _ HJ) as Hg. apply wp_ok in Hg as (l & g0 & El & -> & Es).
  destruct post as [|curr rest]; [|destruct (Z.leb_spec count 0) as [Hc|Hc]].
  - simpl. unfold wp, mbind, stres_bind. rewrite El, Es. simpl. exists pre, []. auto 10.
  - simpl. unfold wp, mbind, stres_bind. rewrite El, Es. destruct (Z.leb_spec count 0); [|lia].
    exists pre, (curr :: rest). split_and!; [done| |auto 10]. apply J_size in HJ. unfold zlen. lia.
  - eapply sweep_loop_round; [done|done|by unfold wp; rewrite El|].
    eapply wp_mono; [by apply J_round|]. intros after' g' (pre' & post' & HJ' & Hs). cbv beta.
    eapply wp_mono; [apply (IH after' (count - 1) pre' post' g' HJ'); lia|].
    intros a2 g2 (pre2 & post2 & J2 & H2 & H3). exists pre2, post2. split_and!; [done| |right].
    + intros H. apply H2. unfold zlen in *. lia.
    + destruct H3 as [(-> & -> & _)|H3]; lia.
Qed.

End Loop.

(** ** Positions *)

Definition at_pos (after : option pointer) (pre post l : list pointer) : Prop :=
  l = pre ++ post /\ match after with None => pre = [] | Some q => exists pre0, pre = pre0 ++ [q] end.

Lemma at_pos_split after pre post l : NoDup l -> at_pos after pre post l -> split_at after l = (pre, post).
Proof.
  intros N [-> H]. unfold split_at. destruct after as [q|]; [|by rewrite H].
  destruct H as [pre0 ->]. rewrite <- app_assoc. apply split_after_spec. intros Hq.
  rewrite <- app_assoc in N. apply NoDup_app in N as (_ & N & _). apply (N q Hq). set_solver.
Qed.

Lemma at_pos_keep after pre curr rest l : at_pos after pre (curr :: rest) l -> at_pos (Some curr) (pre ++ [curr]) rest l.
Proof. intros [-> _]. split; [by rewrite <- app_assoc|eauto]. Qed.

(** [curr] is taken out, and objects [x] may appear at the head *)
Lemma at_pos_drop after pre curr rest l x : at_pos after pre (curr :: rest) l ->
  exists pre' post', at_pos after pre' post' (x ++ pre ++ rest) /\ (length pre <= length pre')%nat /\ rest ⊆ post' /\
    (x = [] -> post' = rest).
Proof.
  intros [_ H]. destruct after as [q|].
  - destruct H as [pre0 ->]. exists (x ++ pre0 ++ [q]), rest. split_and!; [|rewrite !length_app; simpl; lia|done|done].
    split; [by rewrite <- !app_assoc|]. exists (x ++ pre0). by rewrite app_assoc.
  - subst. exists [], (x ++ rest). split_and!; [done|simpl; lia|set_solver|]. by intros ->.
Qed.

Lemma at_pos_start l : at_pos None [] l l.
Proof. done. Qed.

Lemma length_heap (l : list pointer) (g : GState) :
  NoDup l -> (forall p, p ∈ l -> is_Some (heap g !! p)) -> (length l <= size (heap g))%nat.
Proof.
  intros N H. rewrite <- size_dom, <- (size_list_to_set (C := gset pointer) l) by done.
  apply subseteq_size. intros q Hq. rewrite elem_of_list_to_set in Hq. by apply elem_of_dom, H.
Qed.

Lemma swept_dom g g' : swept g g' -> dom (heap g') ⊆ dom (heap g).
Proof.
  intros S p Hp. apply elem_of_dom in Hp as [o' E]. destruct (swept_bwd _ _ S _ _ E) as (o & E' & _).
  apply elem_of_dom. eauto.
Qed.

Lemma swept_size g g' : swept g g' -> (size (heap g') <= size (heap g))%nat.
Proof. intros S. rewrite <- !size_dom. apply subseteq_size. by apply swept_dom. Qed.

Lemma swept_smaller g g' p : swept g g' -> is_Some (heap g !! p) -> heap g' !! p = None ->
  (size (heap g') < size (heap g))%nat.
Proof.
  intros S H E. rewrite <- !size_dom. apply subset_size. split; [by apply swept_dom|].
  intros Hd. apply elem_of_dom in H. apply Hd, elem_of_dom in H as [o Ho]. congruence.
Qed.

(** ** Keeping an object *)

Lemma current_makewhite g m : white_ok g -> current g (makewhite g m).
Proof. intros W. split; [by apply makewhite_white|by apply makewhite_dead]. Qed.

Lemma current_sw_mark g g' m m' : white_ok g -> currentwhite g' = currentwhite g -> sw_mark g m m' -> current g m -> current g' m'.
Proof.
  intros W Ec M C. unfold current, deadbit. rewrite Ec. fold (deadbit g). destruct M as [->|[_ ->]]; [done|].
  by apply current_makewhite.
Qed.

Lemma tracked_swept g g' S R T O S' R' T' O' :
  white_ok g -> swept g g' -> tracked S R T O g ->
  (forall q o o', heap g !! q = Some o -> heap g' !! q = Some o' -> sw_body g (body o) (body o') ->
     left S R T O q (body o) -> current g' (marked o') \/ left S' R' T' O' q (body o')) ->
  tracked S' R' T' O' g'.
Proof.
  intros W Sw Tr H p o' E'. destruct (swept_bwd _ _ Sw _ _ E') as (o & E & M & B).
  pose proof (sw_fields _ _ Sw) as F. injection F as Ec _ _ _ Et _ _ _ _ _.
  destruct (Tr p o E) as [Hp|[Hc|Hl]].
  - left. by rewrite Et.
  - right; left. by eapply current_sw_mark.
  - right. by eapply H.
Qed.

Lemma mark_swept g p o : heap g !! p = Some o -> dead g (marked o) = false -> p ∉ tmudata g ->
  swept g (on_heap (insert p (set_marked (makewhite g (marked o)) o)) g).
Proof.
  intros E D Np. split; [done| |].
  - intros q. simpl. destruct (decide (p = q)) as [->|Hne].
    + rewrite E, lookup_insert_eq. split; [by right|apply sw_body_refl].
    + rewrite lookup_insert_ne by done. apply swept_refl.
  - intros q Hq. simpl. apply lookup_insert_ne. by intros ->.
Qed.

Lemma mark_linked g p o : white_ok g -> linked g -> heap g !! p = Some o ->
  linked (on_heap (insert p (set_marked (makewhite g (marked o)) o)) g).
Proof.
  intros W Ln E. eapply linked_sim; [|exact Ln]. split; [done|]. intros q. simpl.
  destruct (decide (p = q)) as [->|Hne].
  - rewrite E, lookup_insert_eq. split; [left; by apply makewhite_fixed|]. simpl. split; [done|]. by destruct (body o).
  - rewrite lookup_insert_ne by done. destruct (heap g !! q) as [oq|]; [|done]. split; [by left|]. split; [done|]. by destruct (body oq).
Qed.

Lemma set_rootgc_same g : set_rootgc g (rootgc g) = g.
Proof. by destruct g. Qed.

Lemma open_of_thread g th t p m lv pr nx : linked g -> is_thread g th t ->
  heap g !! p = Some (mkObj m (BUpVal (UOpen th lv pr nx))) -> p ∈ openupval t.
Proof.
  intros Ln [mt Et] E. destruct (ln_all _ Ln p _ E) as (t' & [m' Et'] & H). simpl in *. by simplify_eq.
Qed.

Lemma left_sw_body g S R T O S' R' T' O' q b b' :
  sw_body g b b' -> (is_open b -> is_open b') ->
  (forall x, x ∈ S -> x = q -> x ∈ S') -> (forall x, x ∈ R -> x = q -> x ∈ R') ->
  (forall th lv pr nx, b = BUpVal (UOpen th lv pr nx) -> th ∈ T \/ q ∈ O -> th ∈ T' \/ q ∈ O') ->
  left S R T O q b -> left S' R' T' O' q b'.
Proof.
  intros B Ho HS HR HT H. unfold left in *.
  destruct b as [| | | | | |[]|], b' as [| | | | | |[]|]; simpl in B; try discriminate B; try (by apply HR); try (by apply HS).
  - destruct B as [-> ->]. by eapply HT.
  - by destruct Ho.
Qed.

(** ** The open upvalues of a thread *)

Section SweepOpen.
Context (L : pointer) (g0 : GState) (th : pointer) (m : Z) (S R T : list pointer).

Definition J_open (after : option pointer) (pre post : list pointer) (g : GState) : Prop :=
  swept g0 g /\ base L g /\ rootgc g = rootgc g0 /\ tracked S R T post g /\
  exists t, heap g !! th = Some (mkObj m (BThread t)) /\ at_pos after pre post (openupval t).

Hypothesis W0 : white_ok g0.

Lemma J_open_mask after pre post g x : J_open after pre post g ->
  testbits (Z.lxor x WHITEBITS) (otherwhite g0) = negb (dead g x).
Proof.
  intros (Sw & B & _). pose proof (swept_white _ _ Sw) as Ec.
  replace (otherwhite g0) with (otherwhite g) by (unfold otherwhite; by rewrite Ec). apply dead_eq, B.
Qed.

Lemma J_open_upval after pre p rest g t : J_open after pre (p :: rest) g -> heap g !! th = Some (mkObj m (BThread t)) ->
  openupval t = pre ++ p :: rest -> exists mu lv pr nx, heap g !! p = Some (mkObj mu (BUpVal (UOpen th lv pr nx))) /\
    p ∉ tmudata g /\ open_at g (rootgc g) th m t pre p rest.
Proof.
  intros (Sw & B & _) Et Eo. pose proof (b_linked _ _ B) as Ln.
  assert (open_at g (rootgc g) th m t pre p rest) as Oa by (split; [by rewrite set_rootgc_same|done|done]).
  destruct (open_at_upval _ _ _ _ _ _ _ _ Oa) as (mu & lv & pr & nx & E). exists mu, lv, pr, nx. split_and!; [done| |done].
  intros Hp. destruct (ln_tmu _ Ln p Hp) as (? & ? & ?). congruence.
Qed.

Lemma J_open_keep after pre p rest g o : J_open after pre (p :: rest) g ->
  heap g !! p = Some o -> dead g (marked o) = false ->
  J_open (Some p) (pre ++ [p]) rest (on_heap (insert p (set_marked (makewhite g (marked o)) o)) g).
Proof.
  intros J E D. pose proof J as (Sw & B & Er & Tr & t & Et & Pos).
  destruct (J_open_upval after pre p rest g t J Et (proj1 Pos)) as (mu & lv & pr & nx & E' & Np & _).
  rewrite E in E'. injection E' as ->. pose proof (b_white _ _ B) as W.
  pose proof (mark_swept g p _ E D Np) as Sg. pose proof (mark_linked g p _ W (b_linked _ _ B) E) as Lg.
  set (g' := on_heap _ g) in *. assert (heap g' !! p = Some (mkObj (makewhite g mu) (BUpVal (UOpen th lv pr nx)))) as Ep
    by apply lookup_insert_eq.
  split_and!.
  - eapply swept_trans; [done|apply B|done|done].
  - by eapply swept_base.
  - done.
  - eapply tracked_swept; [done|done|done|]. intros q o o' Eq Eq' Bq Hl.
    destruct (decide (q = p)) as [->|Hne].
    + left. rewrite Ep in Eq'. injection Eq' as <-. by apply (current_makewhite g).
    + right. assert (heap g' !! q = heap g !! q) as Hq by (by apply lookup_insert_ne). rewrite Hq in Eq'. simplify_eq.
      eapply left_sw_body; [exact Bq|done|done|done| |exact Hl]. set_solver.
  - exists t. split; [|by apply at_pos_keep in Pos]. simpl. rewrite lookup_insert_ne; [done|]. intros ->. congruence.
Qed.

Lemma J_open_free after pre p rest g g' t : J_open after pre (p :: rest) g ->
  heap g !! th = Some (mkObj m (BThread t)) -> at_pos after pre (p :: rest) (openupval t) ->
  removed g (rootgc g) th m t (pre ++ rest) [] g' -> heap g' !! p = None ->
  exists pre', (length pre <= length pre')%nat /\ J_open after pre' rest g'.
Proof.
  intros J Et Pos [Sg Lg Rg Tg Og] Ep. pose proof J as (Sw & B & Er & Tr & _). simpl in *.
  pose proof (b_white _ _ B) as W. rewrite <- Rg, set_rootgc_same in Lg.
  destruct (at_pos_drop _ _ _ _ _ [] Pos) as (pre' & post' & Pos' & Hlen & _ & Hpost). rewrite Hpost in Pos' by done.
  exists pre'. split; [done|]. split_and!.
  - eapply swept_trans; [done|apply B|done|done].
  - by eapply swept_base.
  - congruence.
  - eapply tracked_swept; [done|done|done|]. intros q o o' Eq Eq' Bq Hl. right.
    assert (q <> p) as Hne by (intros ->; congruence).
    eapply left_sw_body; [exact Bq| |done|done| |exact Hl]; [|set_solver].
    intros Ho. destruct o as [mq [| | | | | |[th' lv pr nx|]|]]; try done. destruct (decide (th' = th)) as [->|Hth].
    + assert (q ∈ openupval t) as Hq by (eapply open_of_thread; [apply B|by exists m|done]).
      destruct (ln_open _ Lg th (set_openupval t (pre ++ rest))) as [_ Hop]; [by exists m|].
      rewrite (proj1 Pos) in Hq. destruct (Hop q) as (m' & lv' & pr' & nx' & E'); [simpl; set_solver|].
      rewrite Eq' in E'. by injection E' as ->.
    + pose proof (Og q mq th' lv pr nx Eq Hth) as Rl. rewrite Eq in Rl.
      destruct (relinked_open _ _ _ _ _ _ Rl) as (pr' & nx' & E'). rewrite Eq' in E'. by injection E' as ->.
  - exists (set_openupval t (pre ++ rest)). split; [done|]. exact Pos'.
Qed.

Lemma J_open_round after pre curr rest g : J_open after pre (curr :: rest) g ->
  wp (sweep_round (fun _ => stuck Undefined) (COpen th) after (otherwhite g0) pre rest curr)
     (fun after' g' => exists pre' post', J_open after' pre' post' g' /\
        (size (heap g') + length pre < size (heap g) + length pre')%nat) g.
Proof.
  intros J. pose proof J as (Sw & B & Er & Tr & t & Et & Pos).
  destruct (J_open_upval after pre curr rest g t J Et (proj1 Pos)) as (mu & lv & pr & nx & E & Np & Oa).
  unfold sweep_round. wp_step. eapply wp_getobj; [done|]. cbv beta iota. cbn [body]. wp_step. wp_step.
  wp_step. eapply wp_getmarked; [done|]. cbv beta. wp_step. wp_step. cbn [marked].
  rewrite (J_open_mask _ _ _ _ mu J). destruct (dead g mu) eqn:D; simpl.
  - wp_step. wp_step. eapply wp_gco2th; [done|]. cbv beta. eapply wp_putbody; [done|].
    assert (open_at g (rootgc g) th m t pre curr rest) as Oa' by done.
    pose proof (open_at_ne _ _ _ _ _ _ _ _ Oa) as Hne.
    destruct (open_isdead g curr mu th lv pr nx (b_white _ _ B) (b_linked _ _ B) E) as [Hm _].
    wp_step. unfold freeobj. wp_step. eapply wp_getobj; [simpl; rewrite lookup_insert_ne; [exact E|done]|].
    cbv beta iota. cbn [body]. eapply wp_mono; [by eapply (freeupval_spec g (rootgc g) th m t pre curr rest Oa)|].
    intros [] g' [Rm Ep]. cbv beta. wp_step.
    destruct (J_open_free after pre curr rest g g' t J Et Pos Rm Ep) as (pre' & Hl & J'). exists pre', rest. split; [done|].
    pose proof (swept_smaller g g' curr (rm_swept _ _ _ _ _ _ _ _ Rm)) as Hs. rewrite E in Hs. specialize (Hs ltac:(by eexists) Ep). lia.
  - wp_step. eapply wp_mark_with; [done|]. cbv beta. wp_step. exists (pre ++ [curr]), rest.
    split; [by apply (J_open_keep after pre curr rest g _ J E)|]. rewrite length_app. simpl.
    rewrite map_size_insert_Some by (by rewrite E). lia.
Qed.

End SweepOpen.

(** fewer objects than the largest count of rounds *)
Definition small (g : GState) : Prop := Z.of_nat (size (heap g)) < MAX_LUMEM.

Lemma swept_small g g' : swept g g' -> small g -> small g'.
Proof. intros S H. pose proof (swept_size _ _ S). unfold small in *. lia. Qed.

Lemma sweep_open_spec L g th m t S R T :
  base L g -> small g -> heap g !! th = Some (mkObj m (BThread t)) -> tracked S R (th :: T) [] g ->
  wp (sweep_open th) (fun _ g' => swept g g' /\ base L g' /\ rootgc g' = rootgc g /\ tracked S R T [] g' /\
    exists t', heap g' !! th = Some (mkObj m (BThread t'))) g.
Proof.
  intros B Hs Et Tr. unfold sweep_open. wp_step. wp_step. wp_step.
  assert (J_open L g th m S R T None [] (openupval t) g) as J.
  { split_and!; [apply swept_refl|done|done| |exists t; split; [done|apply at_pos_start]].
    intros p o E. destruct (Tr p o E) as [?|[?|H]]; [auto|auto|]. right; right. unfold left in *.
    destruct (body o) as [| | | | | |[th' lv pr nx|]|] eqn:Eb; try done.
    destruct (decide (th' = th)) as [->|Hne]; [right|left; set_solver].
    destruct o as [mo bo]. simpl in Eb. subst bo. eapply open_of_thread; [apply B|by exists m|done]. }
  eapply wp_mono; [apply (sweep_loop_spec _ (COpen th) (otherwhite g) (J_open L g th m S R T))
                   with (pre := []) (post := openupval t)|].
  - intros after pre post g1 (_ & B1 & _ & _ & t1 & E1 & Pos). simpl. wp_step. eapply wp_gco2th; [done|].
    cbv beta. wp_step. split; [done|]. apply at_pos_split; [|done]. by apply (ln_open _ (b_linked _ _ B1) th); exists m.
  - intros after pre post g1 (_ & B1 & _ & _ & t1 & E1 & [Eo _]).
    destruct (ln_open _ (b_linked _ _ B1) th t1) as [N H]; [by exists m|]. rewrite Eo in N, H. apply length_heap.
    + by apply NoDup_app in N as [N _].
    + intros p Hp. destruct (H p) as (? & ? & ? & ? & E); [set_solver|]. eauto.
  - intros after pre curr rest g1 J1. apply J_open_round; [apply B|done].
  - done.
  - simpl. lia.
  - intros after' g' (pre' & post' & (Sw & B' & Er & Tr' & t' & Et' & _) & H & _). cbv beta. wp_step.
    rewrite (H ltac:(unfold small in Hs; unfold zlen; simpl; lia)) in Tr'. eauto 10.
Qed.

(** ** The chain [rootgc] *)

Section SweepRoot.
Context (L : pointer) (g0 : GState) (S : list pointer).

Definition J_root (after : option pointer) (pre post : list pointer) (g : GState) : Prop :=
  swept g0 g /\ base L g /\ small g /\ gcstate g <> GCSpropagate /\ at_pos after pre post (rootgc g) /\
  tracked S post post [] g.

Hypothesis W0 : white_ok g0.

(** before the object itself is visited its open upvalues have been *)
Definition J_curr (after : option pointer) (pre : list pointer) (curr : pointer) (rest : list pointer) (g : GState) : Prop :=
  swept g0 g /\ base L g /\ small g /\ gcstate g <> GCSpropagate /\ at_pos after pre (curr :: rest) (rootgc g) /\
  tracked S (curr :: rest) rest [] g.

Lemma J_root_sub after pre curr rest g o : J_root after pre (curr :: rest) g -> heap g !! curr = Some o ->
  wp (match body o with BThread _ => sweep_open curr | _ => mret tt end)
     (fun _ g' => J_curr after pre curr rest g' /\ (size (heap g') <= size (heap g))%nat /\
        exists o', heap g' !! curr = Some o' /\ marked o' = marked o) g.
Proof.
  intros (Sw & B & Sm & Gs & Pos & Tr) E.
  assert (forall g', g' = g -> (forall t, body o <> BThread t) -> J_curr after pre curr rest g' /\
    (size (heap g') <= size (heap g))%nat /\ exists o', heap g' !! curr = Some o' /\ marked o' = marked o) as K.
  { intros g' -> Ht. split_and!; [|lia|eauto]. split_and!; try done.
    intros p x Ex. destruct (Tr p x Ex) as [?|[?|H]]; [auto|auto|]. right; right. unfold left in *.
    destruct (body x) as [| | | | | |[th' lv pr nx|]|] eqn:Eb; try done.
    destruct H as [[->|H]%elem_of_cons|H]; [|by left|by right]. exfalso.
    pose proof (b_shape _ _ B p x Ex) as K. rewrite Eb in K. destruct K as (m & t & Et & _). rewrite E in Et.
    injection Et as ->. by eapply (Ht t). }
  destruct o as [m b]. destruct b as [| | | | | | |t]; simpl; try (wp_step; by apply K).
  eapply wp_mono; [by eapply (sweep_open_spec L g curr m t S)|]. intros [] g' (Sg & B' & Er & Tr' & t' & Et').
  pose proof (sw_fields _ _ Sg) as F. injection F as _ Eg _ _ _ _ _ _ _ _.
  split_and!; [|by apply swept_size|by exists (mkObj m (BThread t'))].
  split_and!; [eapply swept_trans; [done|apply B|done|done]|done|by eapply swept_small|congruence|by rewrite Er|done].
Qed.

Lemma J_curr_keep after pre p rest g o : J_curr after pre p rest g -> heap g !! p = Some o -> dead g (marked o) = false ->
  J_root (Some p) (pre ++ [p]) rest (on_heap (insert p (set_marked (makewhite g (marked o)) o)) g).
Proof.
  intros (Sw & B & Sm & Gs & Pos & Tr) E D. pose proof (b_white _ _ B) as W.
  pose proof (root_not_tmudata _ _ _ _ (b_linked _ _ B) (proj1 Pos)) as Np.
  pose proof (mark_swept g p _ E D Np) as Sg. pose proof (mark_linked g p _ W (b_linked _ _ B) E) as Lg.
  set (g' := on_heap _ g) in *.
  split_and!; [eapply swept_trans; [done|apply B|done|done]|by eapply swept_base|by eapply swept_small|done|by eapply at_pos_keep|].
  eapply tracked_swept; [done|done|done|]. intros q x x' Eq Eq' Bq Hl. destruct (decide (q = p)) as [->|Hne].
  - left. assert (heap g' !! p = Some (set_marked (makewhite g (marked o)) o)) as Ep by apply lookup_insert_eq.
    rewrite Ep in Eq'. injection Eq' as <-. by apply (current_makewhite g).
  - right. assert (heap g' !! q = heap g !! q) as Hq by (by apply lookup_insert_ne). rewrite Hq in Eq'. simplify_eq.
    eapply left_sw_body; [exact Bq|done|done| |done|exact Hl]. set_solver.
Qed.

Lemma J_curr_free after pre p rest g g' : J_curr after pre p rest g -> is_Some (heap g !! p) ->
  freed_root g (pre ++ rest) p g' ->
  exists pre' post', J_root after pre' post' g' /\ (size (heap g') + length pre < size (heap g) + length pre')%nat.
Proof.
  intros (Sw & B & Sm & Gs & Pos & Tr) E [Sg Lg [x Rg] Gg Og]. pose proof (b_white _ _ B) as W.
  destruct (at_pos_drop _ _ _ _ _ x Pos) as (pre' & post' & Pos' & Hlen & Hsub & _).
  pose proof (sw_fields _ _ Sg) as F. injection F as _ Eg _ _ _ _ _ _ _ _.
  exists pre', post'. split; [|pose proof (swept_smaller _ _ _ Sg E Gg); lia].
  split_and!; [eapply swept_trans; [done|apply B|done|done]|by eapply swept_base|by eapply swept_small|congruence|by rewrite Rg|].
  pose proof (ln_nodup _ (b_linked _ _ B)) as N. rewrite (proj1 Pos) in N.
  assert (p ∉ rest) as Np by (apply NoDup_app in N as (N & _ & _); apply NoDup_app in N as (_ & _ & [N _]%NoDup_cons); done).
  eapply tracked_swept; [done|done|done|]. intros q o o' Eq Eq' Bq Hl. right.
  assert (q <> p) as Hne by (intros ->; congruence).
  eapply left_sw_body; [exact Bq| |done| | |exact Hl].
  2: { intros y [->|Hy]%elem_of_cons Eqy; [by destruct Hne|by apply Hsub]. }
  2: { intros th' lv pr nx _ [Hy|[]%elem_of_nil]. left. by apply Hsub. }
  intros Ho. destruct o as [mq [| | | | | |[th' lv pr nx|]|]]; try done. simpl in Hl.
  assert (th' <> p) as Hth by (intros ->; destruct Hl as [Hl|[]%elem_of_nil]; by apply Np).
  pose proof (Og q mq th' lv pr nx Eq Hth) as Rl. rewrite Eq in Rl.
  destruct (relinked_open _ _ _ _ _ _ Rl) as (pr' & nx' & E'). rewrite Eq' in E'. by injection E' as ->.
Qed.

Lemma main_live g : base L g -> live g (mainthread g).
Proof. intros B. destruct (b_rooted _ _ B) as [R _]. unfold root_refs in R. rewrite !Forall_cons in R. apply R. Qed.

Lemma J_root_round after pre curr rest g : J_root after pre (curr :: rest) g ->
  wp (sweep_round sweep_open CRoot after (otherwhite g0) pre rest curr)
     (fun after' g' => exists pre' post', J_root after' pre' post' g' /\
        (size (heap g') + length pre < size (heap g) + length pre')%nat) g.
Proof.
  intros J. pose proof J as (Sw & B & Sm & Gs & Pos & Tr).
  destruct (ln_root _ (b_linked _ _ B) curr) as (o & E & _); [rewrite (proj1 Pos); set_solver|].
  unfold sweep_round. wp_step. eapply wp_getobj; [done|]. cbv beta. wp_step.
  eapply wp_mono; [by eapply J_root_sub|]. intros [] g1 (J1 & Hs1 & o1 & E1 & M1). cbv beta.
  pose proof J1 as (Sw1 & B1 & Sm1 & Gs1 & Pos1 & Tr1). pose proof (swept_white _ _ Sw1) as Ec.
  wp_step. eapply wp_getmarked; [done|]. cbv beta. wp_step. wp_step.
  replace (otherwhite g0) with (otherwhite g1) by (unfold otherwhite; by rewrite Ec).
  rewrite dead_eq by apply B1. destruct (dead g1 (marked o1)) eqn:D; simpl.
  - wp_step. wp_step. wp_step. set (g2 := set_rootgc g1 (pre ++ rest)).
    assert (curr <> mainthread g1) as Hm by (intros ->; destruct (main_live g1 B1) as (x & Ex & Dx); congruence).
    eapply wp_mono; [apply (freeobj_root g2 pre curr rest o1); try done|].
    + apply B1.
    + exact (b_shape _ _ B1).
    + replace (set_rootgc g2 (pre ++ curr :: rest)) with g1; [apply B1|]. rewrite <- (proj1 Pos1). by destruct g1.
    + intros [] g' F. cbv beta. wp_step.
      assert (freed_root g1 (pre ++ rest) curr g') as F1 by (destruct F as [[] ? ? ? ?]; by split).
      destruct (J_curr_free after pre curr rest g1 g' J1 ltac:(by eexists) F1) as (pre' & post' & J' & Hl).
      exists pre', post'. split; [done|]. lia.
  - wp_step. eapply wp_mark_with; [done|]. cbv beta. wp_step. exists (pre ++ [curr]), rest.
    split; [by eapply J_curr_keep|]. rewrite length_app. simpl.
    rewrite map_size_insert_Some by (by rewrite E1). lia.
Qed.

End SweepRoot.

(** * Sweeping the string table and [rootgc] *)

(** ** A bucket of the string table *)

Lemma elem_of_bucket {A} (l : list (list A)) i b x : l !! i = Some b -> x ∈ b -> x ∈ concat l.
Proof.
  intros E Hx. rewrite <- (take_drop_middle _ _ _ E), concat_app, concat_cons. set_solver.
Qed.

Section SweepString.
Context (L : pointer) (g0 : GState) (i : nat) (S R : list pointer).

Definition J_string (after : option pointer) (pre post : list pointer) (g : GState) : Prop :=
  swept g0 g /\ base L g /\ rootgc g = rootgc g0 /\ tracked (post ++ S) R R [] g /\
  exists bucket, strt g = <[i := bucket]> (strt g0) /\ at_pos after pre post bucket.

Hypothesis W0 : white_ok g0.
Hypothesis Hi : (i < length (strt g0))%nat.

Lemma J_string_bucket after pre post g : J_string after pre post g -> strt g !! i = Some (pre ++ post).
Proof. intros (_ & _ & _ & _ & bucket & -> & [-> _]). by apply list_lookup_insert_eq. Qed.

Lemma J_string_at after pre p rest g : J_string after pre (p :: rest) g ->
  exists m ts, heap g !! p = Some (mkObj m (BString ts)) /\ p ∉ tmudata g.
Proof.
  intros J. pose proof (J_string_bucket _ _ _ _ J) as E. destruct J as (_ & B & _).
  assert (p ∈ concat (strt g)) as Hp by (eapply elem_of_bucket; [exact E|set_solver]).
  destruct (ln_strt _ (b_linked _ _ B) p Hp) as (m & ts & Ep). exists m, ts. split; [done|].
  intros Ht. destruct (ln_tmu _ (b_linked _ _ B) p Ht) as (? & ? & ?). congruence.
Qed.

Lemma J_string_keep after pre p rest g o : J_string after pre (p :: rest) g -> heap g !! p = Some o ->
  dead g (marked o) = false ->
  J_string (Some p) (pre ++ [p]) rest (on_heap (insert p (set_marked (makewhite g (marked o)) o)) g).
Proof.
  intros J E D. destruct (J_string_at _ _ _ _ _ J) as (m & ts & E' & Np). rewrite E in E'. injection E' as ->.
  destruct J as (Sw & B & Er & Tr & bucket & Es & Pos). pose proof (b_white _ _ B) as W.
  pose proof (mark_swept g p _ E D Np) as Sg. pose proof (mark_linked g p _ W (b_linked _ _ B) E) as Lg.
  set (g' := on_heap _ g) in *.
  split_and!; [eapply swept_trans; [done|apply B|done|done]|by eapply swept_base|done| |].
  - eapply tracked_swept; [done|done|done|]. intros q x x' Eq Eq' Bq Hl. destruct (decide (q = p)) as [->|Hne].
    + left. assert (heap g' !! p = Some (mkObj (makewhite g m) (BString ts))) as Ep by apply lookup_insert_eq.
      rewrite Ep in Eq'. injection Eq' as <-. by apply (current_makewhite g).
    + right. assert (heap g' !! q = heap g !! q) as Hq by (by apply lookup_insert_ne). rewrite Hq in Eq'. simplify_eq.
      eapply left_sw_body; [exact Bq|done| |done|done|exact Hl]. simpl.
      intros y [->|Hy]%elem_of_cons ->; [by destruct Hne|done].
  - exists bucket. split; [done|by eapply at_pos_keep].
Qed.

Lemma J_string_free after pre p rest g g' o : J_string after pre (p :: rest) g -> heap g !! p = Some o ->
  dead g (marked o) = true -> freed p (set_strt g (<[i := pre ++ rest]> (strt g))) g' ->
  exists pre', (length pre <= length pre')%nat /\ J_string after pre' rest g' /\ swept g g' /\ heap g' !! p = None.
Proof.
  intros J E D F. destruct (J_string_at _ _ _ _ _ J) as (m & ts & E' & Np). rewrite E in E'. injection E' as ->.
  pose proof (J_string_bucket _ _ _ _ J) as Eb. destruct J as (Sw & B & Er & Tr & bucket & Es & Pos).
  pose proof (b_white _ _ B) as W. pose proof (free_swept _ _ p _ F E D Np) as Sf. destruct F as (k & n & ->). set (g' := set_totalbytes _ _) in *.
  assert (swept g g') as Sg.
  { destruct Sf as [F H Ht]. split; [|exact H|exact Ht]. rewrite F. simpl. by rewrite length_insert. }
  assert (linked g') as Lg by (by apply (linked_free_string g g' p i (pre ++ p :: rest) pre rest (b_linked _ _ B))).
  destruct (at_pos_drop _ _ _ _ _ [] Pos) as (pre' & post' & Pos' & Hlen & _ & Hpost). rewrite Hpost in Pos' by done.
  exists pre'. split_and!; [done| |done|simpl; apply lookup_delete_eq].
  split_and!; [eapply swept_trans; [done|apply B|done|done]|by eapply swept_base|done| |].
  - eapply tracked_swept; [done|done|done|]. intros q x x' Eq Eq' Bq Hl. right.
    assert (q <> p) as Hne by (intros ->; simpl in Eq'; by rewrite lookup_delete_eq in Eq').
    simpl in Eq'. rewrite lookup_delete_ne, Eq in Eq' by done. injection Eq' as <-.
    eapply left_sw_body; [exact Bq|done| |done|done|exact Hl]. simpl.
    intros y [->|Hy]%elem_of_cons ->; [by destruct Hne|done].
  - exists (pre ++ rest). split; [|done]. simpl. by rewrite Es, list_insert_insert_eq.
Qed.

Lemma J_string_round after pre curr rest g : J_string after pre (curr :: rest) g ->
  wp (sweep_round sweep_open (CString (Z.of_nat i)) after (otherwhite g0) pre rest curr)
     (fun after' g' => exists pre' post', J_string after' pre' post' g' /\
        (size (heap g') + length pre < size (heap g) + length pre')%nat) g.
Proof.
  intros J. destruct (J_string_at _ _ _ _ _ J) as (m & ts & E & Np). pose proof J as (Sw & B & _).
  unfold sweep_round. wp_step. eapply wp_getobj; [done|]. cbv beta iota. cbn [body]. wp_step. wp_step.
  wp_step. eapply wp_getmarked; [done|]. cbv beta. wp_step. wp_step. cbn [marked].
  pose proof (swept_white _ _ Sw) as Ec.
  replace (otherwhite g0) with (otherwhite g) by (unfold otherwhite; by rewrite Ec).
  rewrite dead_eq by apply B. destruct (dead g m) eqn:D; cbn [negb].
  - wp_step. unfold put_chain. wp_step. wp_step.
    replace (vset (strt g) (Z.of_nat i) (pre ++ rest)) with (<[i := pre ++ rest]> (strt g))
      by (unfold vset; destruct (Z.ltb_spec (Z.of_nat i) 0); [lia|by rewrite Nat2Z.id]).
    eapply wp_mono; [by eapply freeobj_simple; [exact E|by intros []|done]|]. intros [] g' F. cbv beta. wp_step.
    destruct (J_string_free after pre curr rest g g' _ J E D F) as (pre' & Hl & J' & Sg & Eg). exists pre', rest.
    split; [done|]. pose proof (swept_smaller g g' curr Sg) as Hs. rewrite E in Hs. specialize (Hs ltac:(by eexists) Eg). lia.
  - wp_step. eapply wp_mark_with; [done|]. cbv beta. wp_step. exists (pre ++ [curr]), rest.
    split; [by apply (J_string_keep after pre curr rest g _ J E)|]. rewrite length_app. simpl.
    rewrite map_size_insert_Some by (by rewrite E). lia.
Qed.

End SweepString.

Lemma bucket_nodup g i b : linked g -> strt g !! i = Some b -> NoDup b /\ forall p, p ∈ b -> is_Some (heap g !! p).
Proof.
  intros Ln E. split.
  - pose proof (ln_nodup _ Ln) as N. apply NoDup_app in N as (_ & _ & N). apply NoDup_app in N as (N & _ & _).
    rewrite <- (take_drop_middle _ _ _ E) in N. rewrite concat_app, concat_cons in N.
    apply NoDup_app in N as (_ & _ & N). by apply NoDup_app in N as (N & _ & _).
  - intros p Hp. destruct (ln_strt _ Ln p (elem_of_bucket _ _ _ _ E Hp)) as (? & ? & ?). eauto.
Qed.

Lemma sweep_bucket_spec L g i S R b :
  base L g -> small g -> strt g !! i = Some b -> tracked (b ++ S) R R [] g ->
  wp (sweepwholelist (CString (Z.of_nat i))) (fun _ g' => swept g g' /\ base L g' /\ rootgc g' = rootgc g /\
    tracked S R R [] g' /\ exists b', strt g' = <[i := b']> (strt g)) g.
Proof.
  intros B Hs Eb Tr. unfold sweepwholelist, sweeplist. wp_step. wp_step. wp_step.
  assert (i < length (strt g))%nat as Hi by (by eapply lookup_lt_Some).
  assert (J_string L g i S R None [] b g) as J.
  { split_and!; [apply swept_refl|done|done|done|]. exists b. split; [by rewrite list_insert_id|apply at_pos_start]. }
  eapply wp_mono; [apply (sweep_loop_spec _ (CString (Z.of_nat i)) (otherwhite g) (J_string L g i S R))
                   with (pre := []) (post := b)|].
  - intros after pre post g1 J1. pose proof (J_string_bucket L g i S R Hi _ _ _ _ J1) as E1.
    destruct J1 as (_ & B1 & _ & _ & bucket & Es & Pos). simpl. wp_step. wp_step.
    pose proof (lookup_lt_Some _ _ _ E1) as Hl. unfold id, zlen.
    destruct (Z.leb_spec 0 (Z.of_nat i)); [|lia]. destruct (Z.ltb_spec (Z.of_nat i) (Z.of_nat (length (strt g1)))); [|lia].
    simpl. wp_step. split; [done|]. unfold vget. destruct (Z.ltb_spec (Z.of_nat i) 0); [lia|].
    rewrite Nat2Z.id, nth_lookup, E1. simpl. rewrite <- (proj1 Pos). apply at_pos_split; [|done].
    rewrite (proj1 Pos). apply (bucket_nodup g1 i _ (b_linked _ _ B1) E1).
  - intros after pre post g1 J1. pose proof (J_string_bucket L g i S R Hi _ _ _ _ J1) as E1.
    destruct J1 as (_ & B1 & _). destruct (bucket_nodup g1 i _ (b_linked _ _ B1) E1) as [N H]. apply length_heap.
    + by apply NoDup_app in N as [N _].
    + intros p Hp. apply H. set_solver.
  - intros after pre curr rest g1 J1. by apply J_string_round; [apply B| |].
  - done.
  - simpl. lia.
  - intros after' g' (pre' & post' & (Sw & B' & Er & Tr' & b' & Es & _) & H & _). cbv beta. wp_step.
    rewrite (H ltac:(unfold small in Hs; unfold zlen; simpl; lia)) in Tr'. eauto 10.
Qed.

(** ** A step over [rootgc] *)

Lemma at_pos_of after l : (forall q, after = Some q -> q ∈ l) ->
  exists pre, at_pos after pre (split_at after l).2 l.
Proof.
  intros H. destruct after as [q|]; [|by exists []]. unfold split_at.
  assert (forall l, q ∈ l -> exists pre0, l = (pre0 ++ [q]) ++ (split_after q l).2) as K.
  { clear. induction l as [|x l IH]; intros Hq; [by apply elem_of_nil in Hq|]. simpl.
    destruct (Z.eqb_spec q x) as [->|Hne]; [by exists []|]. destruct (split_after q l) as [a b] eqn:E.
    destruct IH as (pre0 & El); [set_solver|]. exists (x :: pre0). simpl in *. by rewrite El at 1. }
  destruct (K l (H q eq_refl)) as (pre0 & E). exists (pre0 ++ [q]). split; [done|eauto].
Qed.

Lemma sweep_root_spec L g S count :
  base L g -> small g -> gcstate g <> GCSpropagate -> (forall q, sweepgc g = Some q -> q ∈ rootgc g) ->
  tracked S (root_left g) (root_left g) [] g -> 0 < count ->
  wp (sweeplist CRoot (sweepgc g) count) (fun after g' => swept g g' /\ base L g' /\
    exists pre post, at_pos after pre post (rootgc g') /\ tracked S post post [] g' /\
      (post = [] \/ (size (heap g') + length (split_at (sweepgc g) (rootgc g)).1 < size (heap g) + length pre)%nat)) g.
Proof.
  intros B Hs Gs Hq Tr Hc. unfold sweeplist. wp_step. wp_step.
  destruct (at_pos_of (sweepgc g) (rootgc g) Hq) as (pre & Pos).
  assert (J_root L g S (sweepgc g) pre (root_left g) g) as J by (split_and!; try done; apply swept_refl).
  eapply wp_mono; [eapply (sweep_loop_spec _ CRoot (otherwhite g) (J_root L g S)) with (pre := pre)|].
  - intros after pre1 post1 g1 (_ & B1 & _ & _ & Pos1 & _). simpl. wp_step. split; [done|]. apply at_pos_split; [|done].
    pose proof (ln_nodup _ (b_linked _ _ B1)) as N. by apply NoDup_app in N as [N _].
  - intros after pre1 post1 g1 (_ & B1 & _ & _ & [Er _] & _). apply length_heap.
    + pose proof (ln_nodup _ (b_linked _ _ B1)) as N. rewrite Er in N. apply NoDup_app in N as [N _]. by apply NoDup_app in N as [N _].
    + intros p Hp. destruct (ln_root _ (b_linked _ _ B1) p) as (? & ? & _); [rewrite Er; set_solver|eauto].
  - intros after pre1 curr rest g1 J1. by apply J_root_round; [apply B|].
  - exact J.
  - simpl. lia.
  - intros after' g' (pre' & post' & (Sw & B' & Hs' & Gs' & Pos' & Tr') & _ & H). split_and!; [done|done|].
    exists pre', post'. split_and!; [done|done|].
    pose proof (ln_nodup _ (b_linked _ _ B)) as N. apply NoDup_app in N as [N _]. rewrite (at_pos_split _ _ _ _ N Pos). simpl.
    destruct H as [(-> & -> & [Hn|Hn])|H]; [left|lia|by right].
    apply (app_inv_head pre). unfold root_left in Hn. by rewrite <- (proj1 Pos'), (proj1 Pos), Hn.
Qed.
