(* ===== verification/GcStep.v ===== *)
(** * The phases of the collector as a state machine

    [phase L g]: the invariant of the phase that [gcstate g] names.  It implies
    that everything the program can reach is allocated and not about to be freed.
    Then the parts of the driver that do not call a finalizer. *)

From stdpp Require Import gmap sets.
From S2P Require Import Prelude Number Object Table Heap Tm Gc Func GcSweep GcLogic GcInv GcMark GcTraverse GcPropagate GcLinks GcAtomic GcPhase GcLists GcSwept GcFree GcSweepLoop.

Inductive phase (L : pointer) (g : GState) : Prop :=
  | ph_pause : gcstate g = GCSpause -> idle_phase L g -> phase L g
  | ph_propagate : gcstate g = GCSpropagate -> mark_phase g -> typed g (L, GAFQ_TTHREAD) -> phase L g
  | ph_sweepstring : gcstate g = GCSsweepstring -> sweep_phase L g -> phase L g
  | ph_sweep : gcstate g = GCSsweep -> sweep_phase L g -> phase L g
  | ph_finalize : gcstate g = GCSfinalize -> idle_phase L g -> phase L g.

(** ** Changes that do not matter *)

(** no mark, reference or list changes *)
Record quiet (g g' : GState) : Prop := {
  qt_sim : msim g g';
  qt_marks p o o' : heap g !! p = Some o -> heap g' !! p = Some o' -> marked o' = marked o;
  qt_gray : gray g' = gray g;
  qt_again : grayagain g' = grayagain g;
  qt_weak : weak g' = weak g
}.

Lemma quiet_heap g g' : frame g' = frame g -> heap g' = heap g -> gray g' = gray g -> grayagain g' = grayagain g ->
  weak g' = weak g -> quiet g g'.
Proof.
  intros F H G A W. split; [by apply msim_lists| |done..]. intros p o o' E E'. rewrite H in E'. by simplify_eq.
Qed.

Lemma quiet_body g p o b : heap g !! p = Some o -> body_sim (body o) b -> quiet g (on_heap (insert p (set_body b o)) g).
Proof.
  intros E B. split; [|intros q x x' Eq Eq'|done..].
  - eapply (msim_update g (fun g => on_heap (insert p (set_body b o)) g)); [done| |done|done]. by apply obj_sim_body.
  - simpl in Eq'. destruct (decide (p = q)) as [->|Hne].
    + rewrite lookup_insert_eq in Eq'. by simplify_eq.
    + rewrite lookup_insert_ne in Eq' by done. by simplify_eq.
Qed.

Lemma quiet_trans g1 g2 g3 : quiet g1 g2 -> quiet g2 g3 -> quiet g1 g3.
Proof.
  intros [S1 M1 G1 A1 W1] [S2 M2 G2 A2 W2]. split; [by eapply msim_trans| |congruence..].
  intros p o1 o3 E1 E3. destruct (msim_fwd _ _ _ _ S1 E1) as (o2 & E2 & _). rewrite (M2 p o2 o3), (M1 p o1 o2); done.
Qed.

Lemma inv_quiet D g g' : quiet g g' -> inv D None g -> inv D None g'.
Proof.
  intros [S M G A W] [R Sh T [N Q Wk X Th]].
  split; [by eapply allrefs_sim|by eapply shape_sim| |].
  - intros p o' E' Wp. destruct (msim_bwd _ _ _ _ S E') as (o & E & _ & B). rewrite (M p o o') in Wp by done.
    rewrite G. destruct (T p o E Wp) as [?|[?|Hs]]; [by left|by right; left|]. right; right.
    eapply scanned_sim; [done|by rewrite W|by eapply Sh|done|by eapply M|done].
  - split.
    + unfold lists in *. by rewrite G, A, W.
    + intros p Hp. unfold lists in *. rewrite G, A, W in Hp. destruct (Q p Hp) as (o & E & Wo & C & Bl).
      destruct (msim_fwd _ _ _ _ S E) as (o' & E' & _ & B). exists o'. rewrite (M p o o') by done.
      split_and!; [done|done|by eapply body_sim_container|done].
    + intros p Hp. rewrite W in Hp. destruct (Wk p Hp) as (m & t & E).
      destruct (msim_fwd _ _ _ _ S E) as ([m' b'] & E' & _ & B). simpl in B. inversion B; subst; eauto.
    + intros p o' E' H. destruct (msim_bwd _ _ _ _ S E') as (o & E & _ & B). rewrite (M p o o') by done.
      apply (X p o E). rewrite (M p o o') in H by done. by rewrite (body_sim_open _ _ B) in H.
    + intros p m t E' Wp Hp. destruct (msim_bwd _ _ _ _ S E') as ([m0 b0] & E & _ & B). pose proof (M p _ _ E E') as Mp.
      simpl in Mp. subst m0. rewrite G, A. simpl in B. inversion B; subst; by eapply Th.
Qed.

(** marking keeps the phase once the invariant is known *)
(** the mark phase but for its invariant *)
Record mark_frame (g : GState) : Prop := {
  mf_white : white_ok g;
  mf_linked : linked g;
  mf_fresh p o : heap g !! p = Some o -> Z.testbit (marked o) (deadbit g) = false;
  mf_roots : Forall (typed g) (root_refs g);
  mf_main : nonwhite g (mainthread g);
  mf_registry : nonwhites g (val_refs (l_registry g));
  mf_tmu : Forall (nonwhite g) (tmudata g);
  mf_strt : strt g <> []
}.

Lemma mark_phase_frame g : mark_phase g -> mark_frame g.
Proof. by intros [W Ln I Fr Rt Nm Nr Tm Ns]. Qed.

Lemma mark_frame_sim g g' : msim g g' -> inv (pending g') None g' -> mark_frame g -> mark_phase g'.
Proof.
  intros S I' [W Ln Fr Rt Nm Nr Tm Ns]. pose proof (ms_frame _ _ S) as F.
  unfold frame in F. injection F as Es _ Ec Eg _ Er _ Et Erg Em _ _ Emt _.
  split; [by unfold white_ok in *; rewrite Ec|exact (linked_sim _ _ S Ln)|done| | | | | |by rewrite Es].
  - intros p o' E'. destruct (msim_bwd _ _ _ _ S E') as (o & E & Le & B). unfold deadbit. rewrite Ec. fold (deadbit g).
    eapply fresh_mark_le; [exact Le|apply deadbit_cases|by eapply Fr].
  - rewrite (root_refs_sim g g') by done. by eapply typeds_sim.
  - rewrite Em. by eapply nonwhite_sim.
  - rewrite Erg. by eapply nonwhites_sim.
  - rewrite Et. eapply Forall_impl; [exact Tm|]. intros p. by apply nonwhite_sim.
Qed.

Lemma mark_phase_sim g g' : msim g g' -> inv (pending g') None g' -> mark_phase g -> mark_phase g'.
Proof. intros S I M. by eapply mark_frame_sim; [| |apply mark_phase_frame]. Qed.

Lemma pending_sim g g' p : msim g g' -> grayagain g ⊆ grayagain g' -> weak g ⊆ weak g' -> pending g p -> pending g' p.
Proof.
  intros S A W. destruct (msim_frame_fields _ _ S) as (_ & _ & Et & _). unfold pending. rewrite Et.
  intros [H|(o & E & Ho)]; [left; set_solver|right]. destruct (msim_fwd _ _ _ _ S E) as (o' & E' & _ & B). exists o'.
  by rewrite (body_sim_open _ _ B).
Qed.

Lemma mark_phase_quiet g g' : quiet g g' -> mark_phase g -> mark_phase g'.
Proof.
  intros Q M. pose proof (qt_sim _ _ Q) as S. eapply mark_phase_sim; [done| |done].
  eapply inv_weaken; [eapply inv_quiet; [done|apply M]|]. intros p. apply pending_sim; [done| |].
  - by rewrite (qt_again _ _ Q).
  - by rewrite (qt_weak _ _ Q).
Qed.

Lemma safe_quiet g g' r : quiet g g' -> safe_ref g r -> safe_ref g' r.
Proof.
  intros Q [T (o & E & D)]. pose proof (qt_sim _ _ Q) as S. split; [by eapply typed_sim|].
  destruct (msim_fwd _ _ _ _ S E) as (o' & E' & _ & B). exists o'. split; [done|].
  rewrite (qt_marks _ _ Q _ o o') by done. rewrite (dead_same g); [done|].
  by destruct (msim_frame_fields _ _ S) as (_ & _ & _ & _ & _ & _ & _ & _ & -> & _).
Qed.

Lemma base_quiet L g g' : quiet g g' -> base L g -> base L g'.
Proof.
  intros Q [W Ln Sh C [R T] X Ns]. pose proof (qt_sim _ _ Q) as S. pose proof (ms_frame _ _ S) as F.
  unfold frame in F. injection F as Es _ Ec Eg _ Er _ Et Erg Em _ _ Emt _.
  split; [by unfold white_ok in *; rewrite Ec|exact (linked_sim _ _ S Ln)|by eapply shape_sim| | | |by rewrite Es].
  - intros p o' E' D. destruct (msim_bwd _ _ _ _ S E') as (o & E & _ & B).
    rewrite (body_refs_sim g g' (body o)) by eauto. rewrite (qt_marks _ _ Q p o o'), (dead_same g) in D by done.
    eapply Forall_impl; [by eapply C|]. intros r. by apply safe_quiet.
  - split.
    + rewrite (root_refs_sim g g') by done. eapply Forall_impl; [exact R|]. intros r. by apply safe_quiet.
    + rewrite Et. eapply Forall_impl; [exact T|]. intros p. by apply nonwhite_sim.
  - intros p o' E' H. destruct (msim_bwd _ _ _ _ S E') as (o & E & _ & B). rewrite (qt_marks _ _ Q p o o') by done.
    apply (X p o E). rewrite (qt_marks _ _ Q p o o') in H by done. by rewrite (body_sim_open _ _ B) in H.
Qed.

Lemma left_sim S R T O p b b' : body_sim b b' -> left S R T O p b -> left S R T O p b'.
Proof. by intros []. Qed.

Lemma tracked_quiet S R T O g g' : quiet g g' -> tracked S R T O g -> tracked S R T O g'.
Proof.
  intros Q Tr p o' E'. pose proof (qt_sim _ _ Q) as Sm. destruct (msim_bwd _ _ _ _ Sm E') as (o & E & _ & B).
  destruct (msim_frame_fields _ _ Sm) as (_ & _ & Et & _ & _ & _ & _ & _ & Ec & _).
  rewrite (qt_marks _ _ Q p o o'), Et by done. unfold current, deadbit. rewrite Ec.
  destruct (Tr p o E) as [?|[?|?]]; [auto|auto|]. right; right. by eapply left_sim.
Qed.

Lemma phase_quiet L g g' : quiet g g' -> phase L g -> phase L g'.
Proof.
  intros Q P. pose proof (qt_sim _ _ Q) as S. pose proof (ms_frame _ _ S) as F.
  unfold frame in F. injection F as Es _ Ec Eg Esg Er Esw Et Erg Em _ _ Emt _.
  assert (idle_phase L g -> idle_phase L g') as Hi.
  { intros [B Tr]. split; [by eapply base_quiet|by eapply tracked_quiet]. }
  assert (sweep_phase L g -> sweep_phase L g') as Hs.
  { intros [B P1 P2 Tr]. split; [by eapply base_quiet|by rewrite Esg, Eg, Es|by rewrite Esw, Er|].
    unfold strings_left, root_left. rewrite Eg, Esg, Es, Esw, Er. by eapply tracked_quiet. }
  destruct P as [G H|G H T|G H|G H|G H].
  - apply ph_pause; [congruence|auto].
  - apply ph_propagate; [congruence|by eapply mark_phase_quiet|by eapply typed_sim].
  - apply ph_sweepstring; [congruence|auto].
  - apply ph_sweep; [congruence|auto].
  - apply ph_finalize; [congruence|auto].
Qed.

(** ** Start of a cycle *)

Lemma idle_fresh L g p o : idle_phase L g -> heap g !! p = Some o -> Z.testbit (marked o) (deadbit g) = false.
Proof.
  intros [B Tr] E. destruct (Tr p o E) as [Ht|[Hc|Hl]].
  - destruct (b_rooted _ _ B) as [_ T]. rewrite Forall_forall in T. destruct (T p Ht) as (o' & E' & W). simplify_eq.
    apply nonwhite_bits; [done|apply deadbit_cases].
  - apply Hc.
  - exfalso. unfold left in Hl. destruct (body o) as [| | | | | |[]|]; set_solver.
Qed.

Definition clear_lists (g : GState) : GState := set_weak (set_grayagain (set_gray g []) []) [].

Lemma idle_inv L g : idle_phase L g -> inv (fun p => p ∈ tmudata g) None (clear_lists g).
Proof.
  intros I. pose proof I as [B Tr].
  split.
  - intros p o E. eapply Forall_impl; [apply (b_closed _ _ B p o E)|by intros r [T _]].
    unfold dead. by rewrite (idle_fresh L g p o).
  - exact (b_shape _ _ B).
  - intros p o E W. right; left. destruct (Tr p o E) as [Ht|[Hc|Hl]]; [done|destruct Hc; congruence|].
    exfalso. unfold left in Hl. destruct (body o) as [| | | | | |[]|]; set_solver.
  - split; [constructor|by intros p []%elem_of_nil|by intros p []%elem_of_nil|exact (b_excl _ _ B)|].
    intros p m t E W _. exfalso. change (heap g !! p = Some (mkObj m (BThread t))) in E.
    destruct (Tr p _ E) as [Ht|[[Hc _]|Hl]]; [|simpl in Hc; congruence|set_solver].
    destruct (ln_tmu _ (b_linked _ _ B) p Ht) as (? & ? & ?). congruence.
Qed.

Lemma markroot_spec L g : idle_phase L g ->
  wp markroot (fun _ g' => mark_phase g' /\ gcstate g' = GCSpropagate /\ typed g' (L, GAFQ_TTHREAD) /\
    size (heap g') = size (heap g) /\ (forall r, typed g r -> typed g' r)) g.
Proof.
  intros Id. pose proof (idle_inv L g Id) as I0. pose proof Id as [B Tr]. destruct (b_rooted _ _ B) as [R Tm].
  assert (Forall (typed g) ((L, GAFQ_TTHREAD) :: root_refs g)) as Rt by (eapply Forall_impl; [exact R|by intros r []]).
  unfold root_refs in Rt. apply Forall_cons in Rt as [RL Rt]. pose proof Rt as Rt0.
  apply Forall_cons in Rt as [Rm Rt]. apply Forall_app in Rt as [Rr Rmt].
  unfold markroot. wp_step. wp_step. wp_step. wp_step. fold (clear_lists g) in *. set (g0 := clear_lists g) in *. wp_step.
  eapply wp_mono; [by eapply (markobject_spec _ None g0 (mainthread g) GAFQ_TTHREAD)|]. intros [] g1 (I1 & M1 & N1). cbv beta.
  pose proof (mk_sim _ _ M1) as S1. destruct (typed_sim g0 g1 _ S1 Rm) as ([m1 b1] & E1 & T1). simpl in *.
  destruct b1 as [| | | | | | |t1]; try discriminate T1.
  wp_step. eapply wp_gco2th; [done|]. cbv beta. wp_step.
  eapply wp_mono; [apply (markvalue_spec _ None g1 _ I1)|].
  { pose proof (i_refs _ _ _ I1 _ _ E1) as Ht. simpl in Ht. unfold thread_refs in Ht. by apply Forall_app in Ht as [Ht _]. }
  intros [] g2 (I2 & M2 & _). cbv beta. assert (msim g0 g2) as S2 by (eapply msim_trans; [done|apply M2]).
  destruct (msim_frame_fields _ _ S2) as (_ & _ & _ & _ & _ & _ & Er2 & Em2 & _).
  wp_step. wp_step. wp_step. rewrite Er2. eapply wp_mono; [apply (markvalue_spec _ None g2 _ I2)|].
  { eapply typeds_sim; [exact S2|exact Rr]. }
  intros [] g3 (I3 & M3 & N3). cbv beta. assert (msim g0 g3) as S3 by (eapply msim_trans; [done|apply M3]).
  destruct (msim_frame_fields _ _ S3) as (_ & _ & _ & _ & _ & _ & _ & Em3 & _).
  wp_step. eapply wp_mono; [apply (markmt_spec _ None g3 I3)|].
  { rewrite Em3. eapply typeds_sim; [exact S3|exact Rmt]. }
  intros [] g4 (I4 & M4 & _). cbv beta. assert (msim g0 g4) as S4 by (eapply msim_trans; [done|apply M4]).
  pose proof (ms_frame _ _ S4) as F. unfold frame in F. injection F as Es _ Ec _ _ _ _ Et Erg Em _ _ Emt _.
  wp_step. split_and!; [|done|by apply (typed_sim g0 g4)|exact (lsim_size g0 g4 S4)|intros x Hx; exact (typed_sim g0 g4 x S4 Hx)].
  assert (root_refs g4 = root_refs g) as Err by (by rewrite (root_refs_sim g0 g4)).
  split; [by unfold white_ok; simpl; rewrite Ec; apply B| | | | | | | |by simpl; rewrite Es; apply (b_strt _ _ B)].
  - refine (linked_ext g4 _ _ _ _ _ _ _ _ (linked_sim _ _ S4 _)); try done. by eapply linked_ext; [..|apply B].
  - eapply inv_ext; [..|eapply inv_weaken; [exact I4|]]; try done. intros p Hp. left; left. simpl. by rewrite Et.
  - intros p o' E'. simpl in E'. destruct (msim_bwd _ _ _ _ S4 E') as (o & E & Le & _). unfold deadbit. simpl. rewrite Ec.
    eapply fresh_mark_le; [exact Le|apply (deadbit_cases g)|by eapply (idle_fresh L)].
  - change (root_refs _) with (root_refs g4). rewrite Err. exact (typeds_sim g0 g4 _ S4 Rt0).
  - simpl. rewrite Em. apply (nonwhite_sim g1 g4); [|done].
    eapply msim_trans; [apply M2|]. eapply msim_trans; [apply M3|apply M4].
  - simpl. rewrite Erg. apply (nonwhites_sim g3 g4); [apply M4|done].
  - simpl. rewrite Et. eapply Forall_impl; [exact Tm|]. intros p Hp. exact (nonwhite_sim g0 g4 p S4 Hp).
Qed.

(** * The driver *)

(** ** Fields that the invariant does not depend on *)

Lemma base_ext L g g' :
  heap g' = heap g -> strt g' = strt g -> rootgc g' = rootgc g -> tmudata g' = tmudata g ->
  mainthread g' = mainthread g -> uvprev g' = uvprev g -> uvnext g' = uvnext g ->
  currentwhite g' = currentwhite g -> l_registry g' = l_registry g -> mt g' = mt g -> base L g -> base L g'.
Proof.
  intros H S R T M P N C Rg Mt [W Ln Sh Cl Rt X Ns]. pose proof (linked_ext g g' H S R T M P N Ln) as Ln'.
  destruct g, g'. simpl in *. subst. by split.
Qed.

(** ** The string table is rebuilt *)

Lemma lmod_bound h n : 0 < n -> (Z.to_nat (lmod h n) < Z.to_nat n)%nat.
Proof.
  intros Hn. unfold lmod. rewrite Z.land_comm.
  assert (0 <= Z.land (n - 1) h) by (apply Z.land_nonneg; lia).
  assert (0 <= Z.land (n - 1) (Z.lnot h)) as H0 by (apply Z.land_nonneg; lia).
  rewrite <- Z.sub_land_same_l in H0. lia.
Qed.

Lemma concat_alter_cons (l : list (list pointer)) i p : (i < length l)%nat -> concat (alter (cons p) i l) ≡ₚ p :: concat l.
Proof.
  revert i. induction l as [|b l IH]; intros [|i] Hi; simpl in *; [lia|lia|done|].
  specialize (IH i ltac:(lia)). unfold alter in IH. rewrite IH. by rewrite <- Permutation_middle.
Qed.

Lemma rehash_bucket g n b : 0 < n -> forall nh : list (list pointer), length nh = Z.to_nat n ->
  let nh' := foldl (fun nh p => alter (cons p) (Z.to_nat (lmod (ts_hash_of g p) n)) nh) nh b in
  length nh' = Z.to_nat n /\ concat nh' ≡ₚ b ++ concat nh.
Proof.
  intros Hn. induction b as [|p b IH]; intros nh Hl; simpl; [done|].
  destruct (IH (alter (cons p) (Z.to_nat (lmod (ts_hash_of g p) n)) nh)) as [H1 H2]; [by rewrite length_alter|].
  split; [done|]. rewrite H2, concat_alter_cons by (rewrite Hl; by apply lmod_bound). by rewrite <- Permutation_middle.
Qed.

Lemma rehash_strings_perm g n : 0 < n ->
  length (rehash_strings g n) = Z.to_nat n /\ concat (rehash_strings g n) ≡ₚ concat (strt g).
Proof.
  intros Hn. unfold rehash_strings.
  assert (forall l (nh : list (list pointer)), length nh = Z.to_nat n ->
    let nh' := foldl (fun nh b => foldl (fun nh p => alter (cons p) (Z.to_nat (lmod (ts_hash_of g p) n)) nh) nh b) nh l in
    length nh' = Z.to_nat n /\ concat nh' ≡ₚ concat l ++ concat nh) as K.
  { induction l as [|b l IH]; intros nh Hl; simpl; [done|].
    destruct (rehash_bucket g n b Hn nh Hl) as [H1 H2]. destruct (IH _ H1) as [H3 H4]. split; [done|].
    rewrite H4, H2. solve_Permutation. }
  destruct (K (strt g) (replicate (Z.to_nat n) [])) as [H1 H2]; [apply length_replicate|]. split; [done|].
  rewrite H2. clear. replace (concat (replicate (Z.to_nat n) [])) with (@nil pointer); [by rewrite app_nil_r|].
  by induction (Z.to_nat n).
Qed.

Lemma linked_strt g l : linked g -> concat l ≡ₚ concat (strt g) -> linked (set_strt g l).
Proof.
  intros [Hh N A R St Tm Op So Ma Uv Fx] P. split; try done.
  - simpl. by rewrite P.
  - intros p o E. specialize (A p o E). unfold in_chain in *. simpl. destruct (body o) as [| | | | | |[]|]; try done. by rewrite P.
  - intros p Hp. simpl in Hp. rewrite P in Hp. by apply St.
  - destruct Uv as (l0 & H & N0 & H0). exists l0. split; [|done]. by eapply uvchain_ext; [..|exact H].
Qed.

Lemma base_strt L g l : base L g -> concat l ≡ₚ concat (strt g) -> l <> [] -> base L (set_strt g l).
Proof.
  intros [W Ln Sh C R X Ns] P Hl. split; [exact W|by apply linked_strt|exact Sh|exact C|exact R|exact X|done].
Qed.

Definition resized (L : pointer) (g g' : GState) : Prop :=
  base L g' /\ heap g' = heap g /\ tmudata g' = tmudata g /\ currentwhite g' = currentwhite g /\ gcstate g' = gcstate g.

Lemma gafqS_resize_spec L g n : base L g -> gcstate g <> GCSsweepstring -> 0 < n ->
  wp (gafqS_resize n) (fun _ g' => resized L g g') g.
Proof.
  intros B Gs Hn. unfold gafqS_resize. wp_step. wp_step. unfold id.
  destruct (Z.eqb_spec (gcstate g) GCSsweepstring); [done|]. unfold resize_block.
  wp_step. wp_step. wp_step. wp_step. wp_step. set (g1 := set_totalbytes _ _).
  destruct (rehash_strings_perm g1 n Hn) as [Hl P].
  assert (base L g1) as B1 by (by eapply base_ext; [..|exact B]).
  split; [|done]. apply base_strt; [done|done|]. intros H. rewrite H in Hl. simpl in Hl. lia.
Qed.

Lemma checkSizes_spec L g : base L g -> gcstate g <> GCSsweepstring ->
  wp checkSizes (fun _ g' => resized L g g') g.
Proof.
  intros B Gs. unfold checkSizes. wp_step. wp_step. wp_step. unfold id.
  assert (forall g1, resized L g g1 -> wp (g2 ← gets id; if GAFQ_MINBUFFER * 2 <? buffsize g2 then
      resize_block (buffsize g2) (buffsize g2 / 2);; modify (fun g => set_buffsize g (buffsize g / 2)) else mret tt)
      (fun _ g' => resized L g g') g1) as K.
  { intros g1 (B1 & E1). wp_step. wp_step. unfold id. destruct (_ <? _).
    - unfold resize_block. wp_step. wp_step. wp_step. split; [by eapply base_ext; [..|exact B1]|exact E1].
    - wp_step. by split. }
  destruct (_ && _) eqn:Hc.
  - apply andb_prop in Hc as [_ Hc]. apply Z.ltb_lt in Hc. unfold MINSTRTABSIZE in Hc.
    eapply wp_mono; [apply gafqS_resize_spec; [done|done|]|intros []; apply K].
    apply Z.div_str_pos. lia.
  - wp_step. by apply K.
Qed.

(** ** The sweep steps *)

Lemma tracked_ext S R T O g g' : heap g' = heap g -> tmudata g' = tmudata g -> currentwhite g' = currentwhite g ->
  tracked S R T O g -> tracked S R T O g'.
Proof.
  intros H T' C Tr p o E. rewrite H in E. unfold current, deadbit. rewrite T', C. by apply Tr.
Qed.

Lemma tracked_mono S R T O S' R' T' O' g : S ⊆ S' -> R ⊆ R' -> T ⊆ T' -> O ⊆ O' ->
  tracked S R T O g -> tracked S' R' T' O' g.
Proof.
  intros HS HR HT HO Tr p o E. destruct (Tr p o E) as [?|[?|H]]; [auto|auto|]. right; right. unfold left in *.
  destruct (body o) as [| | | | | |[]|]; auto. destruct H; auto.
Qed.

Lemma quiet_estimate g n : quiet g (set_estimate g n).
Proof. by apply quiet_heap. Qed.

(** what a bucket leaves to the next ones *)
Lemma strings_left_step L g : sweep_phase L g -> gcstate g = GCSsweepstring ->
  exists b, strt g !! Z.to_nat (sweepstrgc g) = Some b /\
    strings_left g = b ++ concat (drop (S (Z.to_nat (sweepstrgc g))) (strt g)).
Proof.
  intros [B [P0 P1] _ _] Gs. specialize (P1 Gs). unfold zlen in P1.
  destruct (lookup_lt_is_Some_2 (strt g) (Z.to_nat (sweepstrgc g)) ltac:(lia)) as [b E]. exists b. split; [done|].
  unfold strings_left. rewrite Gs. simpl. by rewrite (drop_S _ _ _ E).
Qed.

(** ** Progress of the sweep *)

Definition smeasure (g : GState) : nat :=
  (if gcstate g =? GCSsweepstring then length (strt g) - Z.to_nat (sweepstrgc g) else 0) +
  (size (heap g) - length (split_at (sweepgc g) (rootgc g)).1).

(** a sweep step: the sweep goes on, nearer to its end, or is over *)
Definition swept_to (L : pointer) (g g' : GState) : Prop :=
  small g' /\ kept g g' /\
  (gcstate g' = GCSfinalize /\ idle_phase L g' \/
   (gcstate g' = GCSsweepstring \/ gcstate g' = GCSsweep) /\ sweep_phase L g' /\ (smeasure g' < smeasure g)%nat).

Lemma swept_to_phase L g g' : swept_to L g g' -> phase L g' /\ small g'.
Proof.
  intros (Sm & _ & [[G I]|([G|G] & S & _)]); (split; [|done]); [by apply ph_finalize|by apply ph_sweepstring|by apply ph_sweep].
Qed.

Lemma swept_to_estimate L g g' n : swept_to L g g' -> swept_to L g (set_estimate g' n).
Proof.
  intros (Sm & [K1 K2] & H). split_and!; [exact Sm|by split|].
  destruct H as [[G [B Tr]]|(G & [B P1 P2 Tr] & M)]; [left|right].
  - split; [done|]. split; [by eapply base_ext; [..|exact B]|by eapply tracked_ext; [..|exact Tr]].
  - split_and!; [done| |exact M]. split; [by eapply base_ext; [..|exact B]|exact P1|exact P2|].
    by eapply tracked_ext; [..|exact Tr].
Qed.

Definition sweep_string_step (g : GState) : gc Z :=
  modify (fun g => set_sweepstrgc g (sweepstrgc g + 1));;
  sweepwholelist (CString (sweepstrgc g));;
  modify (fun g => if zlen (strt g) <=? sweepstrgc g then set_gcstate g GCSsweep else g);;
  lower_estimate (totalbytes g);;
  mret GCSWEEPCOST.

Lemma sweep_string_spec L g : sweep_phase L g -> small g -> gcstate g = GCSsweepstring ->
  wp (sweep_string_step g) (fun _ g' => swept_to L g g') g.
Proof.
  intros Sp Sm Gs. destruct (strings_left_step L g Sp Gs) as (b & Eb & Es). pose proof Sp as [B [P0 P1] P2 Tr].
  set (i := Z.to_nat (sweepstrgc g)) in *. unfold sweep_string_step. wp_step. wp_step. wp_step.
  set (g1 := set_sweepstrgc g (sweepstrgc g + 1)).
  assert (base L g1) as B1 by (by eapply base_ext; [..|exact B]).
  replace (sweepstrgc g) with (Z.of_nat i) by (unfold i; lia).
  eapply wp_mono; [apply (sweep_bucket_spec L g1 i (concat (drop (S i) (strt g))) (root_left g) b B1 Sm Eb)|].
  { eapply tracked_ext; [..|rewrite <- Es; exact Tr]; done. }
  intros [] g2 (Sw & B2 & Er & Tr2 & b' & Es2). cbv beta.
  pose proof (sw_fields _ _ Sw) as F. injection F as _ Eg Esg Esw _ _ _ _ _ El. simpl in *.
  assert (drop (S i) (strt g2) = drop (S i) (strt g)) as Ed by (rewrite Es2; by rewrite drop_insert_lt by lia).
  wp_step. wp_step. set (g3 := if _ <=? _ then _ else _).
  assert (kept g g2) as K2 by (by eapply swept_kept; [exact Sw|..]).
  pose proof (swept_size _ _ Sw) as Hsz. change (heap g1) with (heap g) in Hsz. specialize (P1 Gs). unfold zlen in P1.
  assert (swept_to L g g3) as P3.
  { unfold g3. rewrite Esg. unfold zlen. rewrite El. destruct (Z.leb_spec (Z.of_nat (length (strt g))) (sweepstrgc g + 1)) as [Hl|Hl].
    - split_and!; [exact (swept_small _ _ Sw Sm)|by destruct K2|right].
      split_and!; [by right| |unfold smeasure; simpl; rewrite Gs, Esw, Er; simpl; lia].
      split; [by eapply base_ext; [..|exact B2]|simpl; split; [lia|done]|simpl; by rewrite Esw, Er|].
      unfold strings_left, root_left. simpl. rewrite Esw, Er. eapply tracked_ext; [..|eapply tracked_mono; [..|exact Tr2]]; try done.
      rewrite drop_ge by (unfold i; lia). done.
    - split_and!; [exact (swept_small _ _ Sw Sm)|done|right].
      split_and!; [left; congruence| |unfold smeasure; rewrite Eg, Esg, Gs, Esw, Er, El; simpl; lia].
      split; [done|split; [lia|intros _; unfold zlen; lia]|by rewrite Esw, Er|].
      unfold strings_left, root_left. rewrite Eg, Gs, Esg, Esw, Er. simpl.
      replace (Z.to_nat (sweepstrgc g + 1)) with (S i) by (unfold i; lia). by rewrite Ed. }
  unfold lower_estimate. wp_step. wp_step. wp_step. by apply swept_to_estimate.
Qed.

Definition sweep_root_step (g : GState) : gc Z :=
  p ← sweeplist CRoot (sweepgc g) GCSWEEPMAX;
  modify (fun g => set_sweepgc g p);;
  l ← gets rootgc;
  match (split_at p l).2 with
  | [] => checkSizes;; modify (fun g => set_gcstate g GCSfinalize)
  | _ :: _ => mret tt
  end;;
  lower_estimate (totalbytes g);;
  mret (GCSWEEPMAX * GCSWEEPCOST).

Lemma sweep_root_step_spec L g : sweep_phase L g -> small g -> gcstate g = GCSsweep ->
  wp (sweep_root_step g) (fun _ g' => swept_to L g g') g.
Proof.
  intros [B [P0 P1] P2 Tr] Sm Gs. unfold strings_left in Tr. rewrite Gs in Tr. simpl in Tr.
  unfold sweep_root_step. wp_step. eapply wp_mono; [apply (sweep_root_spec L g [] GCSWEEPMAX B Sm); try done; by rewrite Gs|].
  intros p g1 (Sw & B1 & pre & post & Pos & Tr1 & Hm). cbv beta. wp_step. wp_step. wp_step. wp_step. wp_step.
  pose proof (sw_fields _ _ Sw) as F. injection F as _ Eg Esg Esw _ _ _ _ _ El.
  pose proof (ln_nodup _ (b_linked _ _ B1)) as N. apply NoDup_app in N as [N _].
  set (g2 := set_sweepgc g1 p). change (rootgc g2) with (rootgc g1).
  rewrite (at_pos_split _ _ _ _ N Pos). cbn [snd].
  assert (base L g2) as B2 by (by eapply base_ext; [..|exact B1]).
  assert (kept g g1) as K1 by (by apply kept_swept).
  assert (forall g3, swept_to L g g3 ->
    wp (lower_estimate (totalbytes g);; mret (GCSWEEPMAX * GCSWEEPCOST)) (fun _ g' => swept_to L g g') g3) as K.
  { intros g3 P3. unfold lower_estimate. wp_step. wp_step. wp_step. by apply swept_to_estimate. }
  destruct post as [|q post].
  - wp_step. eapply wp_mono; [apply (checkSizes_spec L g2 B2); simpl; by rewrite Eg, Gs|].
    intros [] g3 (B3 & H3 & T3 & C3 & _). cbv beta. wp_step. apply K. split_and!.
    + unfold small. simpl. rewrite H3. exact (swept_small _ _ Sw Sm).
    + by eapply swept_kept; [exact Sw|..].
    + left. split; [done|]. split; [by eapply base_ext; [..|exact B3]|].
      by eapply tracked_ext; [..|exact Tr1].
  - wp_step. apply K. split_and!; [exact (swept_small _ _ Sw Sm)|by destruct K1|right].
    split_and!; [right; simpl; congruence| |].
    2:{ destruct Hm as [Hm|Hm]; [done|]. unfold smeasure. simpl. rewrite Eg, Gs, (at_pos_split _ _ _ _ N Pos). simpl.
        pose proof (length_heap pre g1) as Hl. rewrite (proj1 Pos) in N. apply NoDup_app in N as [N _]. specialize (Hl N).
        assert (length pre <= size (heap g1))%nat; [|lia]. apply Hl. intros x Hx.
        destruct (ln_root _ (b_linked _ _ B1) x) as (ox & Ex & _); [rewrite (proj1 Pos); set_solver|eauto]. }
    split; [done| | |].
    + simpl. rewrite Esg, Eg, Gs. by split.
    + intros x Hx. simpl in Hx. destruct Pos as [Er Hp]. simpl. rewrite Er. subst p. destruct Hp as [pre0 ->]. set_solver.
    + unfold strings_left, root_left. simpl. rewrite Eg, Gs, (at_pos_split _ _ _ _ N Pos). simpl.
      by eapply tracked_ext; [..|exact Tr1].
Qed.
