(* ===== verification/GcFinalize.v ===== *)
(** * Calling finalizers, and the whole step

    [GCTM] takes a userdata back to [rootgc] and calls its finalizer; then
    [singlestep] in every phase. *)

From stdpp Require Import gmap sets.
From S2P Require Import Prelude Number Object Table Heap Tm Gc Func GcSweep GcLogic GcInv GcMark GcTraverse GcPropagate GcLinks GcAtomic GcPhase GcLists GcSwept GcFree GcSweepLoop GcStep.

(** ** A write to an object *)

Lemma body_refs_change g p o b q bq :
  heap g !! p = Some o -> (forall lv, slot_of (on_heap (insert p (set_body b o)) g) p lv = slot_of g p lv \/
    Forall (safe_ref g) (val_refs (slot_of (on_heap (insert p (set_body b o)) g) p lv))) ->
  q <> p -> Forall (safe_ref g) (body_refs g bq) ->
  Forall (safe_ref g) (body_refs (on_heap (insert p (set_body b o)) g) bq).
Proof.
  intros E Hs Hq H. destruct bq as [| | | | | |[th lv pr nx|]|]; try done. simpl in *.
  destruct (decide (th = p)) as [->|Hth].
  - destruct (Hs lv) as [Hl|Hl]; [by rewrite Hl|done].
  - unfold slot_of in *. simpl. rewrite lookup_insert_ne by done. done.
Qed.

Lemma links_lsim g p o b : heap g !! p = Some o -> links_same (body o) b -> lsim g (on_heap (insert p (set_body b o)) g).
Proof.
  intros E Hl. split; [done|]. intros q. simpl. destruct (decide (p = q)) as [->|Hne].
  - rewrite E, lookup_insert_eq. split; [by left|done].
  - rewrite lookup_insert_ne by done. destruct (heap g !! q) as [x|]; [|done]. split; [by left|]. split; [done|]. by destruct (body x).
Qed.

(** the references that are written are safe *)
Lemma base_write L g p o b :
  base L g -> heap g !! p = Some o -> links_same (body o) b -> shape (on_heap (insert p (set_body b o)) g) ->
  (dead g (marked o) = false -> Forall (safe_ref g) (body_refs (on_heap (insert p (set_body b o)) g) b)) ->
  (forall lv, slot_of (on_heap (insert p (set_body b o)) g) p lv = slot_of g p lv \/
    Forall (safe_ref g) (val_refs (slot_of (on_heap (insert p (set_body b o)) g) p lv))) ->
  base L (on_heap (insert p (set_body b o)) g).
Proof.
  intros [W Ln Sh C [R T] X Ns] E Hl Sh' Hb Hs. set (g' := on_heap (insert p (set_body b o)) g) in *.
  assert (forall r, safe_ref g r -> safe_ref g' r) as Hr.
  { intros r [(x & Ex & Tx) (y & Ey & Dy)]. rewrite Ex in Ey. injection Ey as <-. unfold safe_ref, typed, live. simpl.
    destruct (decide (p = r.1)) as [Hp|Hp].
    - rewrite <- Hp in *. rewrite E in Ex. injection Ex as ->. rewrite lookup_insert_eq. split; (eexists; split; [done|]).
      + simpl. destruct Hl as [-> _]. done.
      + exact Dy.
    - rewrite lookup_insert_ne by done. split; eauto. }
  assert (forall q x, heap g' !! q = Some x -> exists y, heap g !! q = Some y /\ marked x = marked y /\
    (is_open (body x) <-> is_open (body y))) as Bw.
  { intros q x Eq. simpl in Eq. destruct (decide (p = q)) as [->|Hne].
    - rewrite lookup_insert_eq in Eq. injection Eq as <-. exists o. split_and!; [done|done|by apply links_same_open].
    - rewrite lookup_insert_ne in Eq by done. eauto. }
  split; [exact W|exact (linked_sim _ _ (links_lsim g p o b E Hl) Ln)|done| | | |exact Ns].
  - intros q x Eq D. eapply Forall_impl; [|exact Hr]. simpl in Eq. destruct (decide (p = q)) as [->|Hne].
    + rewrite lookup_insert_eq in Eq. injection Eq as <-. by apply Hb.
    + rewrite lookup_insert_ne in Eq by done. apply (body_refs_change g p o b q); [done|done|congruence|by apply (C q)].
  - split; [eapply Forall_impl; [exact R|exact Hr]|]. eapply Forall_impl; [exact T|]. intros q (x & Ex & Wx).
    unfold nonwhite. simpl. destruct (decide (p = q)) as [->|Hne].
    + rewrite lookup_insert_eq. simplify_eq. eauto.
    + rewrite lookup_insert_ne by done. eauto.
  - intros q x Eq H. destruct (Bw q x Eq) as (y & Ey & M & Ho). rewrite M in *. apply (X q y Ey). by rewrite Ho in H.
Qed.

Lemma left_links S R T O p b b' : links_same b b' -> left S R T O p b -> left S R T O p b'.
Proof. intros [Ht Hl]. destruct b as [| | | | | |[]|], b' as [| | | | | |[]|]; simpl in *; try discriminate Ht; try discriminate Hl; try done. by simplify_eq. Qed.

Lemma tracked_write S R T O g p o b : heap g !! p = Some o -> links_same (body o) b -> tracked S R T O g ->
  tracked S R T O (on_heap (insert p (set_body b o)) g).
Proof.
  intros E Hl Tr q x Eq. simpl in Eq. destruct (decide (p = q)) as [->|Hne].
  - rewrite lookup_insert_eq in Eq. injection Eq as <-. destruct (Tr q o E) as [?|[?|?]]; [auto|auto|].
    right; right. simpl. by eapply left_links.
  - rewrite lookup_insert_ne in Eq by done. by apply Tr.
Qed.

(** ** Pushing values on the stack of a thread *)

Lemma stack_lim_bound l n : forall a,
  foldl (fun lim ci => if lim <? ci_top ci then ci_top ci else lim) a l < n <-> a < n /\ Forall (fun ci => ci_top ci < n) l.
Proof.
  induction l as [|ci l IH]; intros a; simpl; [rewrite Forall_nil; tauto|].
  rewrite IH, Forall_cons. destruct (Z.ltb_spec a (ci_top ci)); lia || intuition lia.
Qed.

Definition push2 (t : Thread) (v w : TValue) : Thread :=
  set_top (set_stack t (vset (vset (stack t) (top t) v) (top t + 1) w)) (top t + 2).

Lemma take_push2 (l : list TValue) n v w : (n + 1 < length l)%nat ->
  take (n + 2) (<[S n := w]> (<[n := v]> l)) = take n l ++ [v; w].
Proof.
  revert n. induction l as [|x l IH]; intros n Hn; simpl in *; [lia|]. destruct n as [|n]; simpl.
  - destruct l as [|y l]; simpl in *; [lia|]. by rewrite take_0.
  - f_equal. apply IH. lia.
Qed.

Lemma push2_stack t v w : 0 <= top t -> top t + 2 < stacksize t ->
  stack (push2 t v w) = <[S (Z.to_nat (top t)) := w]> (<[Z.to_nat (top t) := v]> (stack t)).
Proof.
  intros H0 H1. unfold push2, vset. simpl. destruct (Z.ltb_spec (top t) 0); [lia|]. destruct (Z.ltb_spec (top t + 1) 0); [lia|].
  by replace (Z.to_nat (top t + 1)) with (S (Z.to_nat (top t))) by lia.
Qed.

Lemma push2_refs t v w : 0 <= top t -> top t + 2 < stacksize t ->
  thread_refs (push2 t v w) = thread_refs t ++ val_refs v ++ val_refs w.
Proof.
  intros H0 H1. unfold thread_refs. rewrite push2_stack by done. simpl.
  replace (Z.to_nat (top t + 2)) with (Z.to_nat (top t) + 2)%nat by lia. unfold stacksize, zlen in H1.
  rewrite take_push2 by lia. rewrite bind_app. simpl. by rewrite app_nil_r, <- app_assoc.
Qed.

Lemma push2_slot t v w lv : 0 <= top t -> top t + 2 < stacksize t ->
  let x := vget VNil (stack (push2 t v w)) lv in x = vget VNil (stack t) lv \/ x = v \/ x = w.
Proof.
  intros H0 H1. rewrite push2_stack by done. unfold vget. destruct (Z.ltb_spec lv 0); [by left|]. rewrite !nth_lookup.
  unfold stacksize, zlen in H1.
  destruct (decide (Z.to_nat lv = S (Z.to_nat (top t)))) as [->|H2].
  - rewrite list_lookup_insert_eq by (rewrite length_insert; lia). auto.
  - rewrite list_lookup_insert_ne by done. destruct (decide (Z.to_nat lv = Z.to_nat (top t))) as [->|H3].
    + rewrite list_lookup_insert_eq by lia. auto.
    + rewrite list_lookup_insert_ne by done. auto.
Qed.

Lemma push2_ok t v w : thread_ok t -> top t + 2 < stacksize t -> thread_ok (push2 t v w).
Proof.
  intros [H0 H1] H2. split; [simpl; lia|]. unfold stack_lim in *. apply stack_lim_bound in H1 as [_ H1].
  assert (stacksize (push2 t v w) = stacksize t) as Hs.
  { unfold stacksize, zlen. by rewrite push2_stack, !length_insert. }
  rewrite Hs. simpl. by apply stack_lim_bound.
Qed.

Lemma push2_idle L g th m t v w :
  idle_phase L g -> heap g !! th = Some (mkObj m (BThread t)) -> top t + 2 < stacksize t ->
  Forall (safe_ref g) (val_refs v) -> Forall (safe_ref g) (val_refs w) ->
  idle_phase L (on_heap (insert th (set_body (BThread (push2 t v w)) (mkObj m (BThread t)))) g).
Proof.
  intros [B Tr] E H2 Hv Hw. destruct (b_shape _ _ B th _ E) as [H0 H1]. set (g' := on_heap _ g).
  assert (heap g' !! th = Some (mkObj m (BThread (push2 t v w)))) as E' by apply lookup_insert_eq.
  split; [|by eapply tracked_write]. apply base_write; [done|done|done| | |].
  - intros q x Eq. destruct (decide (th = q)) as [<-|Hne].
    + fold g' in Eq. rewrite E' in Eq. injection Eq as <-. by apply push2_ok.
    + simpl in Eq. rewrite lookup_insert_ne in Eq by done. pose proof (b_shape _ _ B q x Eq) as K.
      destruct (body x) as [| | | | | |[th' lv pr nx|]|]; try done. simpl. destruct K as (m' & t' & Et & Hl).
      destruct (decide (th = th')) as [<-|Hth].
      * rewrite lookup_insert_eq. rewrite E in Et. injection Et as <- <-. exists m, (push2 t v w). split; [done|]. simpl. lia.
      * rewrite lookup_insert_ne by done. eauto.
  - intros D. simpl. rewrite push2_refs by done. pose proof (b_closed _ _ B th _ E D) as Hc. simpl in Hc.
    by rewrite !Forall_app.
  - intros lv. unfold slot_of. fold g'. rewrite E', E.
    destruct (push2_slot t v w lv H0 H2) as [->|[->| ->]]; auto.
Qed.

(** ** The metamethod of the userdata *)

Lemma getstr_safe g t key : Forall (safe_ref g) (table_refs true true t) ->
  ttisnil (deref t (gafqH_getstr (ts_hash_of g) t key)) = false ->
  Forall (safe_ref g) (val_refs (deref t (gafqH_getstr (ts_hash_of g) t key))).
Proof.
  intros H V. destruct (getstr_node _ _ _ V) as (n & Hn & Ev). rewrite <- Ev in *.
  unfold table_refs in H. rewrite !Forall_app in H. destruct H as (_ & _ & H).
  rewrite Forall_bind, Forall_forall in H. specialize (H n Hn). unfold compose, node_refs in H. rewrite V in H.
  by apply Forall_app in H as [_ H].
Qed.

Definition threads_same (g g' : GState) : Prop :=
  forall q m t, heap g !! q = Some (mkObj m (BThread t)) -> heap g' !! q = Some (mkObj m (BThread t)).

Lemma gfasttm_safe g et e : closed g -> Forall (safe_ref g) (opt_refs GAFQ_TTABLE et) ->
  wp (gfasttm et e) (fun r g' => quiet g g' /\ threads_same g g' /\
      match r with Some v => Forall (safe_ref g) (val_refs v) | None => True end) g.
Proof.
  intros C T. assert (quiet g g) as Q by (by apply quiet_heap). assert (threads_same g g) as Ts by (intros q mq tq Eq; exact Eq).
  destruct et as [p|]; simpl; [|by wp_step]. apply Forall_inv in T as [([m b] & E & B) (o & E' & D)]. simpl in *.
  rewrite E in E'. injection E' as <-. destruct b as [| | | |t| | |]; try discriminate B.
  wp_step. eapply wp_gco2h; [done|]. destruct (negb _); [by wp_step|].
  wp_step. wp_step. unfold gafqT_gettm. wp_step. eapply wp_gco2h; [done|]. wp_step. wp_step.
  destruct (ttisnil _) eqn:V.
  - wp_step. eapply wp_putbody; [done|]. wp_step. split_and!; [|intros q mq tq Eq; simpl; rewrite lookup_insert_ne; [done|congruence]|done].
    apply quiet_body; [done|].
    constructor; [done..|]. simpl. apply Forall2_same_length_lookup_2; [done|].
    intros i n n' H1 H2. simplify_eq. apply node_sim_refl.
  - wp_step. split_and!; [done|done|]. apply getstr_safe; [exact (C p _ E D)|done].
Qed.

(** ** The userdata goes back to [rootgc] *)

Lemma split_main g : linked g -> exists pre us, rootgc g = pre ++ mainthread g :: us /\
  split_after (mainthread g) (rootgc g) = (pre ++ [mainthread g], us) /\ Forall (is_udata g) us.
Proof.
  intros Ln. destruct (ln_main _ Ln) as (pre & us & E & U). exists pre, us. split_and!; [done| |done].
  rewrite E. apply split_after_spec. pose proof (ln_nodup _ Ln) as N. rewrite E in N.
  apply NoDup_app in N as [N _]. apply NoDup_app in N as (_ & N & _). intros H. apply (N _ H). constructor.
Qed.

Lemma linked_gctm g pre us o tm :
  linked g -> rootgc g = pre ++ mainthread g :: us -> Forall (is_udata g) us -> tmudata g = o :: tm ->
  linked (set_rootgc (set_tmudata g tm) (pre ++ mainthread g :: o :: us)).
Proof.
  intros [Hh N A R St Tm Op So Ma Uv Fx] Er U Et.
  assert (is_udata g o) as Uo by (apply Tm; rewrite Et; constructor).
  split; try done.
  - simpl. rewrite Er, Et in N. eapply NoDup_Permutation_proper; [|exact N]. solve_Permutation.
  - intros p x E. eapply in_chain_fields; [..|by apply A]; [done|done|]. intros q. simpl. rewrite Er, Et. set_solver.
  - intros p Hp. simpl in Hp. destruct (decide (p = o)) as [->|Hne].
    + destruct Uo as (m & u & Eo). eexists. split; [exact Eo|]. by split; [|intros []].
    + apply R. rewrite Er. set_solver.
  - intros p Hp. simpl in Hp. apply Tm. rewrite Et. set_solver.
  - exists pre, (o :: us). split; [done|]. by constructor.
  - destruct Uv as (l0 & H & N0 & H0). exists l0. split; [|done]. by eapply uvchain_ext; [..|exact H].
Qed.

Definition gctm_link (g : GState) (tm : list pointer) : GState :=
  let '(pre, post) := split_after (mainthread g) (rootgc g) in
  set_rootgc (set_tmudata g tm) (pre ++ hd 0 (tmudata g) :: post).

Lemma gctm_link_idle L g o tm m u : idle_phase L g -> tmudata g = o :: tm -> heap g !! o = Some (mkObj m (BUdata u)) ->
  let g1 := on_heap (insert o (mkObj (makewhite g m) (BUdata u))) (gctm_link g tm) in
  idle_phase L g1 /\ heap g1 = <[o := mkObj (makewhite g m) (BUdata u)]> (heap g) /\ gcstate g1 = gcstate g.
Proof.
  intros [B Tr] Et E. pose proof (b_linked _ _ B) as Ln. destruct (split_main g Ln) as (pre & us & Er & Es & U).
  unfold gctm_link. rewrite Es, Et. simpl hd. rewrite <- app_assoc. simpl app. cbv zeta.
  pose proof (linked_gctm g pre us o tm Ln Er U Et) as L0. set (g0 := set_rootgc _ _) in *.
  split_and!; [|done|done].
  destruct (b_rooted _ _ B) as [R T]. rewrite Et, Forall_cons in T. destruct T as [(o' & E' & W') T].
  rewrite E in E'. injection E' as <-. simpl in W'.
  assert (base L g0) as B0.
  { destruct B as [W _ Sh C _ X Ns]. split; [exact W|done|exact Sh|exact C|split; [exact R|exact T]|exact X|exact Ns]. }
  assert (o ∉ tm) as No.
  { pose proof (ln_nodup _ Ln) as N. rewrite Et in N. apply NoDup_app in N as (_ & _ & N).
    apply NoDup_app in N as (_ & _ & N). by apply NoDup_cons in N as [N _]. }
  pose proof (mark_swept g0 o _ E (nonwhite_not_dead g0 m W') No) as Sw.
  pose proof (mark_linked g0 o _ (b_white _ _ B0) L0 E) as L1.
  change (set_marked _ _) with (mkObj (makewhite g m) (BUdata u)) in Sw, L1. set (g1 := on_heap _ g0) in *.
  split; [by eapply swept_base|].
  apply (tracked_swept g0 g1 [] [o] [] []); [apply B0|done| |].
  - intros p x Ex. change (heap g !! p = Some x) in Ex. destruct (Tr p x Ex) as [Ht|[Hc|Hl]]; [|by right; left|].
    + rewrite Et in Ht. apply elem_of_cons in Ht as [->|Ht]; [|by left]. rewrite E in Ex. injection Ex as <-.
      right; right. simpl. set_solver.
    + exfalso. unfold left in Hl. destruct (body x) as [| | | | | |[]|]; set_solver.
  - intros q x x' Eq Eq' Bq Hl. left.
    assert (q = o) as -> by (unfold left in Hl; destruct (body x) as [| | | | | |[]|]; set_solver).
    assert (heap g1 !! o = Some (mkObj (makewhite g m) (BUdata u))) as Eo by apply lookup_insert_eq.
    rewrite Eo in Eq'. injection Eq' as <-. apply (current_makewhite g). apply B.
Qed.

(** ** The call *)

Definition room (L : pointer) (g : GState) : Prop :=
  exists m t, heap g !! L = Some (mkObj m (BThread t)) /\ top t + 2 < stacksize t.

Lemma phase_thread L g : phase L g -> typed g (L, GAFQ_TTHREAD).
Proof.
  assert (base L g -> typed g (L, GAFQ_TTHREAD)) as K.
  { intros B. destruct (b_rooted _ _ B) as [R _]. by apply Forall_inv in R as [R _]. }
  intros [G [B _]|G M T|G [B _ _ _]|G [B _ _ _]|G [B _]]; auto.
Qed.

Lemma put_allowhook_spec L g x : typed g (L, GAFQ_TTHREAD) ->
  wp (put_allowhook L x) (fun _ g' => quiet g g' /\ size (heap g') = size (heap g) /\
    exists m t, heap g !! L = Some (mkObj m (BThread t)) /\ heap g' !! L = Some (mkObj m (BThread (set_allowhook t x)))) g.
Proof.
  intros ([m b] & E & T). simpl in *. destruct b as [| | | | | | |t]; try discriminate T.
  unfold put_allowhook. wp_step. eapply wp_gco2th; [done|]. eapply wp_putbody; [done|]. split_and!.
  - apply quiet_body; [done|]. by constructor.
  - simpl. apply map_size_insert_Some. eauto.
  - exists m, t. split; [done|apply lookup_insert_eq].
Qed.

Lemma quiet_small g g' : quiet g g' -> small g -> small g'.
Proof. intros Q. unfold small. by rewrite (lsim_size g g' (msim_lsim _ _ (qt_sim _ _ Q))). Qed.

Lemma idle_quiet L g g' : quiet g g' -> idle_phase L g -> idle_phase L g'.
Proof. intros Q [B Tr]. split; [by eapply base_quiet|by eapply tracked_quiet]. Qed.

Section Driver.
Context (gafqD_call : pointer -> gc unit) (L : pointer).

(** whatever the finalizer does, it leaves the collector in a valid phase *)
Hypothesis call_phase : forall g, phase L g -> small g -> wp (gafqD_call L) (fun _ g' => phase L g' /\ small g') g.

(** [GCTM] from the test of the metamethod on *)
Definition run_finalizer (o : pointer) (tm : option TValue) : gc unit :=
  match tm with
  | None => mret tt
  | Some tm =>
      th ← gco2th L;
      let oldah := allowhook th in
      oldt ← gets GCthreshold;
      put_allowhook L 0;;
      modify (fun g => set_GCthreshold g (size_t (2 * totalbytes g)));;
      push_finalizer L tm o;;
      gafqD_call L;;
      put_allowhook L oldah;;
      modify (fun g => set_GCthreshold g oldt)
  end.

Lemma run_finalizer_spec g o r : gcstate g = GCSfinalize -> idle_phase L g -> small g -> room L g ->
  safe_ref g (o, GAFQ_TUSERDATA) -> match r with Some v => Forall (safe_ref g) (val_refs v) | None => True end ->
  wp (run_finalizer o r) (fun _ g' => phase L g' /\ small g') g.
Proof.
  intros Gs Id Sm (m & t & E & Hroom) Ho Hr. unfold run_finalizer.
  destruct r as [tm|]; [|wp_step; split; [by apply ph_finalize|done]].
  wp_step. eapply wp_gco2th; [done|]. cbv beta zeta. wp_step. wp_step. wp_step.
  eapply wp_mono; [apply put_allowhook_spec; by exists (mkObj m (BThread t))|].
  intros [] g1 (Q1 & _ & m' & t' & E' & E1). cbv beta. rewrite E in E'. injection E' as <- <-.
  wp_step. wp_step. set (g2 := set_GCthreshold g1 _).
  assert (quiet g g2) as Q2 by (eapply quiet_trans; [exact Q1|by apply quiet_heap]).
  pose proof (idle_quiet _ _ _ Q2 Id) as Id2. change (heap g1) with (heap g2) in E1.
  wp_step. unfold push_finalizer. wp_step. eapply wp_gco2th; [exact E1|]. cbv beta.
  change (stacksize (set_allowhook t 0)) with (stacksize t). change (top (set_allowhook t 0)) with (top t).
  destruct (Z.ltb_spec (stacksize t) (top t + 2)); [lia|]. eapply wp_putbody; [exact E1|].
  pose proof (push2_idle L g2 L m (set_allowhook t 0) tm (VUserdata o) Id2 E1 Hroom) as Id3.
  match type of Id3 with _ -> _ -> idle_phase L ?s => set (g3 := s) in Id3 end. cbv beta.
  match goal with |- wp _ _ ?s => change s with g3 end.
  assert (phase L g3 /\ small g3) as [P3 Sm3].
  { split.
    - apply ph_finalize.
      + change (gcstate g3) with (gcstate g1). destruct (msim_frame_fields _ _ (qt_sim _ _ Q1)) as (_ & _ & _ & _ & _ & _ & _ & _ & _ & ->). done.
      + apply Id3; [eapply Forall_impl; [exact Hr|intros x; by apply safe_quiet]|].
        simpl. constructor; [by apply (safe_quiet g g2)|constructor].
    - unfold small, g3. simpl. rewrite map_size_insert_Some by (by exists (mkObj m (BThread (set_allowhook t 0)))).
      exact (quiet_small _ _ Q2 Sm). }
  wp_step. eapply wp_mono; [by apply call_phase|]. intros [] g4 [P4 Sm4]. cbv beta. wp_step.
  eapply wp_mono; [apply put_allowhook_spec; by apply phase_thread|]. intros [] g5 (Q5 & _). cbv beta. wp_step.
  split; [|exact (quiet_small _ _ Q5 Sm4)]. eapply phase_quiet; [|exact P4].
  eapply quiet_trans; [exact Q5|by apply quiet_heap].
Qed.

Lemma GCTM_spec g : gcstate g = GCSfinalize -> idle_phase L g -> small g -> room L g -> tmudata g <> [] ->
  wp (GCTM gafqD_call L) (fun _ g' => phase L g' /\ small g') g.
Proof.
  intros Gs Id Sm (mL & tL & EL & HL) Ht. destruct (tmudata g) as [|o tm] eqn:Et; [done|].
  destruct (ln_tmu _ (b_linked _ _ (ip_base _ _ Id)) o) as (m & u & E); [rewrite Et; constructor|].
  unfold GCTM. wp_step. wp_step. rewrite Et. wp_step. eapply wp_gco2u; [done|]. cbv beta.
  wp_step. wp_step. wp_step. wp_step. cbn [mainthread set_tmudata].
  destruct (gctm_link_idle L g o tm m u Id Et E) as (Id1 & H1 & G1).
  match goal with |- wp _ _ ?s => assert (s = gctm_link g tm) as -> end.
  { unfold gctm_link. rewrite Et. simpl. by destruct (split_after _ _). }
  wp_step. wp_step. wp_step. eapply wp_mark_with.
  { unfold gctm_link. destruct (split_after _ _). exact E. }
  replace (set_marked (makewhite (id (gctm_link g tm)) (marked (mkObj m (BUdata u)))) (mkObj m (BUdata u)))
    with (mkObj (makewhite g m) (BUdata u)).
  2:{ unfold set_marked, gctm_link, id. simpl. f_equal. by destruct (split_after _ _). }
  set (g1 := on_heap _ _) in *.
  assert (o <> L) as HoL by (intros ->; congruence).
  assert (heap g1 !! o = Some (mkObj (makewhite g m) (BUdata u))) as Eo by (rewrite H1; apply lookup_insert_eq).
  assert (heap g1 !! L = Some (mkObj mL (BThread tL))) as EL1 by (rewrite H1; by rewrite lookup_insert_ne).
  assert (live g1 o) as Lo.
  { exists (mkObj (makewhite g m) (BUdata u)). split; [done|]. unfold dead. rewrite (idle_fresh L g1 o _ Id1 Eo). done. }
  assert (small g1) as Sm1 by (unfold small; rewrite H1, map_size_insert_Some; [done|eauto]).
  pose proof (b_closed _ _ (ip_base _ _ Id1)) as C1. wp_step. eapply wp_mono.
  { apply gfasttm_safe; [done|]. destruct Lo as (x & Ex & Dx). rewrite Eo in Ex. injection Ex as <-.
    pose proof (C1 o _ Eo Dx) as Hc. simpl in Hc. by apply Forall_app in Hc as [Hc _]. }
  intros r g2 (Q2 & Ts & Hr). cbv beta.
  assert (safe_ref g1 (o, GAFQ_TUSERDATA)) as So by (split; [by eexists|done]).
  apply (run_finalizer_spec g2 o r).
  - destruct (msim_frame_fields _ _ (qt_sim _ _ Q2)) as (_ & _ & _ & _ & _ & _ & _ & _ & _ & ->). congruence.
  - by eapply idle_quiet.
  - by eapply quiet_small.
  - exists mL, tL. split; [by apply Ts|done].
  - by apply (safe_quiet g1 g2).
  - destruct r as [v|]; [|done]. eapply Forall_impl; [exact Hr|]. intros x. by apply safe_quiet.
Qed.

(** ** The step *)

Lemma kept_typed g g' r : kept g g' -> safe_ref g r -> typed g' r.
Proof.
  intros K [(o & E & T) (o1 & E1 & D)]. rewrite E in E1. injection E1 as <-. pose proof (kp_heap _ _ K r.1) as H. rewrite E in H.
  destruct (heap g' !! r.1) as [o'|] eqn:E'; [|congruence]. destruct H as [_ B]. exists o'. split; [done|].
  by rewrite (sw_body_tt _ _ _ B).
Qed.

(** a step of the mark phase with a gray object left *)
Lemma propagate_step_spec g : phase L g -> small g -> gcstate g = GCSpropagate -> gray g <> [] ->
  wp propagatemark (fun _ g' => phase L g' /\ small g' /\ gcstate g' = GCSpropagate /\
    (size (todo_set g') < size (todo_set g))%nat /\ (forall r, typed g r -> typed g' r)) g.
Proof.
  intros P Sm G Gr. destruct P as [G1 _|_ M T|G1 _|G1 _|G1 _]; try (rewrite G in G1; discriminate G1).
  destruct (gray g) as [|o rest] eqn:Eg; [done|].
  eapply wp_mono; [eapply (propagatemark_spec (pending g)); [apply M|done]|]. intros c g' St.
  pose proof (stepped_todo _ _ _ _ _ (mp_inv _ M) Eg St) as Td. destruct St as (I' & Pr & _). pose proof (pr_sim _ _ Pr) as Sim.
  assert (gcstate g' = GCSpropagate) as G'
    by (by destruct (msim_frame_fields _ _ Sim) as (_ & _ & _ & _ & _ & _ & _ & _ & _ & ->)).
  split_and!; [|unfold small in *; by rewrite (lsim_size g g' Sim)|done|done|intros r; by apply typed_sim].
  apply ph_propagate; [done| |by eapply typed_sim]. eapply mark_phase_sim; [done| |done].
  eapply inv_weaken; [exact I'|]. intros p. apply pending_sim; [done|apply Pr|apply Pr].
Qed.

(** the end of the mark phase *)
Lemma atomic_step_spec g : phase L g -> small g -> gcstate g = GCSpropagate -> gray g = [] ->
  wp (atomic L) (fun _ g' => phase L g' /\ small g' /\ gcstate g' = GCSsweepstring /\ (forall r, typed g r -> typed g' r)) g.
Proof.
  intros P Sm G Gr. destruct P as [G1 _|_ M T|G1 _|G1 _|G1 _]; try (rewrite G in G1; discriminate G1).
  eapply wp_mono; [by apply atomic_spec|]. intros [] g' (S' & G' & Hs & Ty).
  split_and!; [by apply ph_sweepstring|unfold small in *; by rewrite Hs|done|done].
Qed.

Lemma singlestep_spec g : phase L g -> small g -> (gcstate g = GCSfinalize -> room L g) ->
  wp (singlestep gafqD_call L) (fun _ g' => phase L g' /\ small g' /\
    (gcstate g <> GCSfinalize -> forall r, safe_ref g r -> typed g' r)) g.
Proof.
  intros P Sm Rm. unfold singlestep. wp_step. wp_step. unfold id. destruct P as [G I|G M T|G S|G S|G I].
  - rewrite G. simpl. wp_step. eapply wp_mono; [by apply (markroot_spec L)|]. intros [] g' (M' & G' & T' & Hs & Ty). cbv beta. wp_step.
    split_and!; [by apply ph_propagate|unfold small in *; by rewrite Hs|]. intros _ r [Hr _]. by apply Ty.
  - rewrite G. cbn -[atomic propagatemark]. pose proof (ph_propagate L g G M T) as P. destruct (gray g) as [|o rest] eqn:Gr.
    + wp_step. eapply wp_mono; [by apply atomic_step_spec|]. intros [] g' (P' & Sm' & _ & Ty). cbv beta. wp_step.
      split_and!; [done|done|]. intros _ r [Hr _]. by apply Ty.
    + eapply wp_mono; [by apply propagate_step_spec; [..|rewrite Gr]|]. intros c g' (P' & Sm' & _ & _ & Ty).
      split_and!; [done|done|]. intros _ r [Hr _]. by apply Ty.
  - rewrite G. cbn [Z.eqb Pos.eqb GCSpause GCSpropagate GCSsweepstring]. eapply wp_mono; [by apply (sweep_string_spec L)|].
    intros c g' H. destruct (swept_to_phase L g g' H) as [P' Sm']. destruct H as (_ & K & _). split_and!; [done|done|].
    intros _ r. by apply kept_typed.
  - rewrite G. cbn [Z.eqb Pos.eqb GCSpause GCSpropagate GCSsweepstring GCSsweep]. eapply wp_mono; [by apply (sweep_root_step_spec L)|].
    intros c g' H. destruct (swept_to_phase L g g' H) as [P' Sm']. destruct H as (_ & K & _). split_and!; [done|done|].
    intros _ r. by apply kept_typed.
  - rewrite G. simpl. specialize (Rm G). destruct (tmudata g) as [|o tm] eqn:Et.
    + wp_step. wp_step. wp_step. split_and!; [|exact Sm|done]. apply ph_pause; [done|].
      destruct I as [B Tr]. split; [by eapply base_ext; [..|exact B]|by eapply tracked_ext; [..|exact Tr]].
    + wp_step. eapply wp_mono; [by apply GCTM_spec; [..|rewrite Et]|]. intros [] g' [P' S']. cbv beta. wp_step. wp_step. wp_step.
      destruct (_ <? _); [|done]. split_and!; [|exact S'|done]. eapply phase_quiet; [apply quiet_estimate|done].
Qed.

End Driver.
