(* ===== verification/GcAlloc.v ===== *)
(** * New objects

    A new object has the current white and is put in one of the chains: the
    collector may be in any phase.  Then interned strings, in every phase. *)

From Stdlib Require Import Sorted.
From stdpp Require Import gmap sets.
From S2P Require Import Prelude Number Object Table StringTable Heap Tm Gc Func GcSweep HeapString GcLogic GcInv GcMark GcTraverse GcPropagate GcLinks GcAtomic GcPhase GcLists GcSwept GcFree GcSweepLoop GcStep GcFinalize.

(** ** The mark phase is one where nothing is dead *)

Record marking_state (g : GState) : Prop := {
  ms_tri : tricolour (pending g) g;
  ms_queued : queued None g;
  ms_fresh p o : heap g !! p = Some o -> Z.testbit (marked o) (deadbit g) = false;
  ms_main : nonwhite g (mainthread g);
  ms_registry : nonwhites g (val_refs (l_registry g))
}.

Lemma mark_base L g : mark_phase g -> typed g (L, GAFQ_TTHREAD) -> base L g.
Proof.
  intros [W Ln I Fr Rt Nm Nr Tm Ns] T.
  assert (forall r, typed g r -> safe_ref g r) as K.
  { intros r (o & E & To). split; [by exists o|]. exists o. split; [done|]. unfold dead. by rewrite (Fr _ _ E). }
  split; [done|done|apply I| | |exact (q_excl _ _ (i_queued _ _ _ I))|done].
  - intros p o E _. eapply Forall_impl; [apply (i_refs _ _ _ I p o E)|exact K].
  - split; [|done]. constructor; [by apply K|]. eapply Forall_impl; [exact Rt|exact K].
Qed.

Lemma base_mark L g : base L g -> marking_state g -> mark_phase g.
Proof.
  intros [W Ln Sh C [R T] X Ns] [Tr Q Fr Nm Nr]. split; try done.
  - split; [|done|done|done]. intros p o E. eapply Forall_impl; [apply (C p o E)|by intros r []].
    unfold dead. by rewrite (Fr _ _ E).
  - apply Forall_cons in R as [_ R]. eapply Forall_impl; [exact R|by intros r []].
Qed.

Lemma mark_state g : mark_phase g -> marking_state g.
Proof. intros [W Ln I Fr Rt Nm Nr Tm Ns]. by split; try apply I. Qed.

(** the phases, with what they have in common apart *)
Inductive phase_part (g : GState) : Prop :=
  | pp_idle : gcstate g = GCSpause \/ gcstate g = GCSfinalize -> tracked [] [] [] [] g -> phase_part g
  | pp_mark : gcstate g = GCSpropagate -> marking_state g -> phase_part g
  | pp_sweep : gcstate g = GCSsweepstring \/ gcstate g = GCSsweep ->
      0 <= sweepstrgc g /\ (gcstate g = GCSsweepstring -> sweepstrgc g < zlen (strt g)) ->
      (forall q, sweepgc g = Some q -> q ∈ rootgc g) ->
      tracked (strings_left g) (root_left g) (root_left g) [] g -> phase_part g.

Lemma phase_split L g : phase L g <-> base L g /\ phase_part g.
Proof.
  split.
  - intros [G [B Tr]|G M T|G [B P1 P2 Tr]|G [B P1 P2 Tr]|G [B Tr]]; (split; [try done; by apply mark_base|]).
    + apply pp_idle; auto.
    + apply pp_mark; [done|by apply mark_state].
    + apply pp_sweep; auto.
    + apply pp_sweep; auto.
    + apply pp_idle; auto.
  - intros [B [[G|G] Tr|G M|[G|G] P1 P2 Tr]].
    + by apply ph_pause.
    + by apply ph_finalize.
    + apply ph_propagate; [done|by eapply base_mark|]. destruct (b_rooted _ _ B) as [R _]. by apply Forall_inv in R as [R _].
    + by apply ph_sweepstring.
    + by apply ph_sweep.
Qed.

(** ** Adding an object *)

Definition added (p : pointer) (o : GCObject) (g g' : GState) : Prop :=
  heap g !! p = None /\ heap g' = <[p := o]> (heap g).

Lemma added_old p o g g' q x : added p o g g' -> heap g !! q = Some x -> heap g' !! q = Some x.
Proof. intros [N H] E. rewrite H. rewrite lookup_insert_ne; [done|congruence]. Qed.

Lemma added_cases p o g g' q x : added p o g g' -> heap g' !! q = Some x -> q = p /\ x = o \/ q <> p /\ heap g !! q = Some x.
Proof.
  intros [N H]. rewrite H. destruct (decide (p = q)) as [->|Hne].
  - rewrite lookup_insert_eq. intros [= <-]. auto.
  - rewrite lookup_insert_ne by done. auto.
Qed.

Lemma added_slot p o g g' th lv m t : added p o g g' -> heap g !! th = Some (mkObj m (BThread t)) ->
  slot_of g' th lv = slot_of g th lv.
Proof. intros A E. unfold slot_of. by rewrite E, (added_old _ _ _ _ _ _ A E). Qed.

Lemma added_refs p o g g' b : added p o g g' -> body_ok g b -> body_refs g' b = body_refs g b.
Proof.
  intros A K. destruct b as [| | | | | |[th lv pr nx|]|]; try done. simpl in *. destruct K as (m & t & E & _).
  by rewrite (added_slot _ _ _ _ _ _ _ _ A E).
Qed.

Lemma added_ok p o g g' b : added p o g g' -> body_ok g b -> body_ok g' b.
Proof.
  intros A K. destruct b as [| | | | | |[th lv pr nx|]|]; try done. simpl in *. destruct K as (m & t & E & H).
  exists m, t. split; [by eapply added_old|done].
Qed.

Lemma added_typed p o g g' r : added p o g g' -> typed g r -> typed g' r.
Proof. intros A (x & E & T). exists x. split; [by eapply added_old|done]. Qed.

Lemma added_nonwhite p o g g' q : added p o g g' -> nonwhite g q -> nonwhite g' q.
Proof. intros A (x & E & W). exists x. split; [by eapply added_old|done]. Qed.

Lemma added_safe p o g g' r : added p o g g' -> currentwhite g' = currentwhite g -> safe_ref g r -> safe_ref g' r.
Proof.
  intros A C [T (x & E & D)]. split; [by eapply added_typed|]. exists x. split; [by eapply added_old|].
  by rewrite (dead_same g).
Qed.

(** the mark of a new object *)
Lemma white_marks g : white_ok g -> iswhite (gafqC_white g) = true /\ isblack (gafqC_white g) = false /\
  Z.testbit (gafqC_white g) (deadbit g) = false /\ Z.testbit (gafqC_white g) FIXEDBIT = false.
Proof. unfold white_ok, gafqC_white, deadbit. intros [-> | ->]; by vm_compute. Qed.

Record adds (g g' : GState) (p : pointer) (b : Body) : Prop := {
  ad_heap : added p (mkObj (gafqC_white g) b) g g';
  ad_ok : body_ok g b;
  ad_refs : Forall (safe_ref g) (body_refs g b);
  ad_fields : (currentwhite g', gcstate g', l_registry g', mainthread g', mt g', tmudata g') =
              (currentwhite g, gcstate g, l_registry g, mainthread g, mt g, tmudata g);
  ad_strt : strt g' <> []
}.

Section Adds.
Context (L : pointer) (g g' : GState) (p : pointer) (b : Body).
Hypothesis A : adds g g' p b.

Lemma adds_core : core L g -> core L g'.
Proof.
  intros [W Sh C [R T] X Ns]. destruct A as [Ad Ok Rf F Ns']. injection F as Ec _ Er Em Emt Et.
  destruct (white_marks g W) as (Mw & Mb & Md & Mf).
  assert (shape g') as Sh'.
  { intros q x E. destruct (added_cases _ _ _ _ _ _ Ad E) as [[-> ->]|[_ E']]; eapply added_ok; eauto. }
  split; [by unfold white_ok in *; rewrite Ec|done| | | |done].
  - intros q x E D. destruct (added_cases _ _ _ _ _ _ Ad E) as [[-> ->]|[_ E']].
    + simpl. rewrite (added_refs _ _ _ _ _ Ad Ok). eapply Forall_impl; [exact Rf|]. intros r. by apply (added_safe p _ g g' r Ad).
    + rewrite (added_refs _ _ _ _ _ Ad) by (by eapply Sh). rewrite (dead_same g) in D by done.
      eapply Forall_impl; [by eapply C|]. intros r. by apply (added_safe p _ g g' r Ad).
  - split.
    + unfold root_refs. rewrite Er, Em, Emt. eapply Forall_impl; [exact R|]. intros r. by apply (added_safe p _ g g' r Ad).
    + rewrite Et. eapply Forall_impl; [exact T|]. intros q. by eapply added_nonwhite.
  - intros q x E H. destruct (added_cases _ _ _ _ _ _ Ad E) as [[-> ->]|[_ E']]; [done|by eapply X].
Qed.

Lemma adds_base : linked g' -> base L g -> base L g'.
Proof. rewrite !base_core. intros Ln [C _]. split; [by apply adds_core|done]. Qed.

Lemma adds_tracked S R T O : white_ok g -> tracked S R T O g -> tracked S R T O g'.
Proof.
  intros W Tr q x E. destruct A as [Ad _ _ F _]. injection F as Ec _ _ _ _ Et. rewrite Et. unfold current, deadbit. rewrite Ec.
  destruct (added_cases _ _ _ _ _ _ Ad E) as [[-> ->]|[_ E']]; [|by apply Tr]. right; left.
  destruct (white_marks g W) as (Mw & _ & Md & _). by split.
Qed.

Lemma adds_mark : white_ok g -> shape g -> gray g' = gray g -> grayagain g' = grayagain g -> weak g' = weak g ->
  marking_state g -> marking_state g'.
Proof.
  intros W Sh HG HA HW [Tr [N M Wk X Th] Fr Nm Nr]. destruct A as [Ad Ok Rf F _]. injection F as Ec _ Er Em _ Et.
  destruct (white_marks g W) as (Mw & Mb & Md & _).
  assert (forall q o, heap g !! q = Some o -> scan_refs g' o = scan_refs g o) as Hs.
  { intros q o E. unfold scan_refs. pose proof (added_refs _ _ _ _ (body o) Ad (Sh q o E)) as K. destruct (body o); done. }
  split.
  - intros q x E Wq. destruct (added_cases _ _ _ _ _ _ Ad E) as [[-> ->]|[_ E']]; [simpl in Wq; congruence|].
    rewrite HG. destruct (Tr q x E' Wq) as [?|[Hp|[H1 H2]]]; [by left|right; left|right; right].
    + destruct Hp as [Hp|(o & Eo & Ho)]; [left; by rewrite Et, HA, HW|right; exists o; split; [by eapply added_old|done]].
    + split; [|by rewrite HW]. rewrite (Hs q) by done. eapply Forall_impl; [exact H1|]. intros r. by eapply added_nonwhite.
  - split.
    + unfold lists in *. by rewrite HG, HA, HW.
    + intros q Hq. unfold lists in *. rewrite HG, HA, HW in Hq. destruct (M q Hq) as (o & E & H). exists o. split; [by eapply added_old|done].
    + intros q Hq. rewrite HW in Hq. destruct (Wk q Hq) as (m & t & E). exists m, t. by eapply added_old.
    + intros q x E H. destruct (added_cases _ _ _ _ _ _ Ad E) as [[-> ->]|[_ E']]; [done|by eapply X].
    + intros q m t E Wq Hq. rewrite HG, HA. destruct (added_cases _ _ _ _ _ _ Ad E) as [[-> [= -> _]]|[_ E']]; [congruence|by eapply Th].
  - intros q x E. unfold deadbit. rewrite Ec. destruct (added_cases _ _ _ _ _ _ Ad E) as [[-> ->]|[_ E']]; [exact Md|by eapply Fr].
  - rewrite Em. by eapply added_nonwhite.
  - rewrite Er. eapply Forall_impl; [exact Nr|]. intros r. by eapply added_nonwhite.
Qed.

End Adds.

(** ** The chains *)

Definition is_string (b : Body) : Prop := match b with BString _ => True | _ => False end.

Lemma linked_add g g' p m b :
  linked g -> added p (mkObj m b) g g' -> p <> UVHEAD -> ~ is_open b ->
  (forall t, b = BThread t -> openupval t = []) -> Z.testbit m FIXEDBIT = false ->
  rootgc g' ++ concat (strt g') ++ tmudata g' ≡ₚ p :: rootgc g ++ concat (strt g) ++ tmudata g ->
  (forall q, q ∈ rootgc g' <-> q ∈ rootgc g \/ q = p /\ ~ is_string b) ->
  (forall q, q ∈ concat (strt g') <-> q ∈ concat (strt g) \/ q = p /\ is_string b) ->
  tmudata g' = tmudata g -> mainthread g' = mainthread g -> uvprev g' = uvprev g -> uvnext g' = uvnext g ->
  (exists pre us, rootgc g' = pre ++ mainthread g :: us /\ Forall (is_udata g') us) -> linked g'.
Proof.
  intros Ln A Hp No Nt Nf P Hr Hs Et Em Up Un Ma.
  assert (p ∉ rootgc g ++ concat (strt g) ++ tmudata g) as Np.
  { destruct A as [N _]. rewrite !elem_of_app. intros [H|[H|H]].
    - destruct (ln_root _ Ln p H) as (o & E & _). congruence.
    - destruct (ln_strt _ Ln p H) as (? & ? & E). congruence.
    - destruct (ln_tmu _ Ln p H) as (? & ? & E). congruence. }
  assert (forall q t, is_thread g' q t -> is_thread g q t \/ q = p /\ openupval t = []) as Tb.
  { intros q t [mq E]. destruct (added_cases _ _ _ _ _ _ A E) as [[-> [= _ Eb]]|[_ E']]; [right; auto|left; by exists mq]. }
  split; rewrite ?Et, ?Em, ?Un.
  - destruct A as [N H]. rewrite H, lookup_insert_ne by done. apply Ln.
  - rewrite Et in P. rewrite P. apply NoDup_cons. split; [done|apply Ln].
  - intros q x E. unfold in_chain. rewrite Et. destruct (added_cases _ _ _ _ _ _ A E) as [[-> ->]|[Hne E']].
    + simpl. destruct b as [| | | | | |[]|]; simpl in *; try (left; apply Hr; tauto); try (apply Hs; tauto). tauto.
    + pose proof (ln_all _ Ln q x E') as K. unfold in_chain in K.
      destruct (body x) as [| | | | | |[]|]; try (rewrite Hr; tauto); try (apply Hs; tauto).
      destruct K as (t & [mt Tt] & Hq). exists t. split; [|done]. exists mt. by eapply added_old.
  - intros q [Hq|[-> Hb]]%Hr.
    + destruct (ln_root _ Ln q Hq) as (o & E & H). exists o. split; [by eapply added_old|done].
    + exists (mkObj m b). split; [destruct A as [_ ->]; apply lookup_insert_eq|]. split; [|done]. by destruct b.
  - intros q [Hq|[-> Hb]]%Hs.
    + destruct (ln_strt _ Ln q Hq) as (mq & ts & E). exists mq, ts. by eapply added_old.
    + destruct b; try done. eexists _, _. destruct A as [_ ->]. apply lookup_insert_eq.
  - intros q Hq. destruct (ln_tmu _ Ln q Hq) as (mq & u & E). exists mq, u. by eapply added_old.
  - intros th t [T|[-> Eo]]%Tb; [|rewrite Eo; split; [constructor|by intros q []%elem_of_nil]].
    destruct (ln_open _ Ln th t T) as [N H]. split; [done|]. intros q Hq. destruct (H q Hq) as (mq & lv & pr & nx & E).
    exists mq, lv, pr, nx. by eapply added_old.
  - intros th t [T|[-> Eo]]%Tb; [|rewrite Eo; constructor]. destruct (ln_open _ Ln th t T) as [_ H].
    pose proof (ln_sorted _ Ln th t T) as So.
    assert (forall q, q ∈ openupval t -> uv_level g' q = uv_level g q) as Lv.
    { intros q Hq. destruct (H q Hq) as (mq & lv & pr & nx & E). unfold uv_level. by rewrite E, (added_old _ _ _ _ _ _ A E). }
    clear -So Lv. induction So as [|y l S IH F]; constructor.
    + apply IH. intros z Hz. apply Lv. by constructor.
    + rewrite Forall_forall in *. intros z Hz. rewrite !Lv by (by constructor). by apply F.
  - done.
  - destruct (ln_uv _ Ln) as (l & Ul & Nl & Hl). exists l. split_and!; [|done|].
    + unfold uvlist in *. rewrite Un. apply uvchain_seg in Ul. apply uvchain_seg. rewrite Up. eapply uvseg_frame; [|exact Ul].
      intros q Hq. apply Hl in Hq as (o & E & _). by rewrite E, (added_old _ _ _ _ _ _ A E).
    + intros q. rewrite Hl. split; intros (o & E & Ho).
      * exists o. split; [by eapply added_old|done].
      * destruct (added_cases _ _ _ _ _ _ A E) as [[-> ->]|[_ E']]; [by destruct No|eauto].
  - intros q x E Hf. destruct (added_cases _ _ _ _ _ _ A E) as [[-> ->]|[_ E']]; [cbn [marked] in Hf; congruence|by apply (ln_fixed _ Ln)].
Qed.

(** at the head of [rootgc] *)
Lemma linked_push g g' p m b :
  linked g -> added p (mkObj m b) g g' -> p <> UVHEAD -> ~ is_open b -> ~ is_string b ->
  (forall t, b = BThread t -> openupval t = []) -> Z.testbit m FIXEDBIT = false ->
  rootgc g' = p :: rootgc g -> strt g' = strt g -> tmudata g' = tmudata g -> mainthread g' = mainthread g ->
  uvprev g' = uvprev g -> uvnext g' = uvnext g -> linked g'.
Proof.
  intros Ln A Hp No Ns Nt Nf Er Es Et Em Up Un.
  apply (linked_add g g' p m b); try done.
  - by rewrite Er, Es, Et.
  - intros q. rewrite Er, elem_of_cons. tauto.
  - intros q. rewrite Es. tauto.
  - destruct (ln_main _ Ln) as (pre & us & E & U). exists (p :: pre), us. split; [by rewrite Er, E|].
    eapply Forall_impl; [exact U|]. intros q (mq & u & Eq). exists mq, u. by eapply added_old.
Qed.

Lemma wp_alloc p size o (Q : unit -> GState -> Prop) g : heap g !! p = None -> p <> UVHEAD ->
  Q tt (set_totalbytes (on_heap (insert p o) g) (size_t (totalbytes g + size))) -> wp (alloc p size o) Q g.
Proof. intros N Hp H. unfold wp, alloc. rewrite N. by destruct (Z.eqb_spec p UVHEAD). Qed.

(** [gafqC_link] in every phase *)
Lemma link_phase L g p size b :
  phase L g -> heap g !! p = None -> p <> UVHEAD -> ~ is_open b -> ~ is_string b ->
  (forall t, b = BThread t -> openupval t = []) -> body_ok g b -> Forall (safe_ref g) (body_refs g b) ->
  wp (gafqC_link p size b) (fun _ g' => phase L g' /\ added p (mkObj (gafqC_white g) b) g g' /\ gcstate g' = gcstate g) g.
Proof.
  intros [B P]%phase_split Np Hp No Ns Nt Ok Rf. unfold gafqC_link. wp_step. wp_step. wp_step. apply wp_alloc; [done|done|].
  wp_step. unfold id. set (g' := set_rootgc _ _).
  pose proof (b_white _ _ B) as W. destruct (white_marks g W) as (_ & _ & _ & Mf).
  assert (added p (mkObj (gafqC_white g) b) g g') as Ad by done.
  assert (linked g') as Ln' by (by eapply (linked_push g g' p _ b); [apply B|..]).
  assert (adds g g' p b) as A by (split; try done; exact (b_strt _ _ B)).
  split_and!; [|done|done]. apply phase_split. split; [by eapply adds_base|].
  destruct P as [G Tr|G M|G P1 P2 Tr].
  - apply pp_idle; [done|]. by apply (adds_tracked g g' p b A).
  - apply pp_mark; [done|]. by apply (adds_mark g g' p b A W (b_shape _ _ B)).
  - apply pp_sweep; [done|exact P1| |].
    + intros q Hq. simpl. constructor 2. by apply P2.
    + eapply (tracked_mono (strings_left g) (root_left g) (root_left g) []); [done| | |done|by apply (adds_tracked g g' p b A)].
      * unfold root_left. simpl. destruct (sweepgc g) as [q|] eqn:Eq; simpl; [|set_solver].
        destruct (Z.eqb_spec q p) as [->|]; [|by destruct (split_after q (rootgc g))].
        destruct (ln_root _ (b_linked _ _ B) p (P2 p eq_refl)) as (o & E & _). congruence.
      * unfold root_left. simpl. destruct (sweepgc g) as [q|] eqn:Eq; simpl; [|set_solver].
        destruct (Z.eqb_spec q p) as [->|]; [|by destruct (split_after q (rootgc g))].
        destruct (ln_root _ (b_linked _ _ B) p (P2 p eq_refl)) as (o & E & _). congruence.
Qed.

(** * Strings *)

Definition string_at (g : GState) (p : pointer) (s : bytes) : Prop :=
  exists m h r, heap g !! p = Some (mkObj m (BString (mkStringObj h r s))).

Definition strings_kept (g g' : GState) : Prop := forall p s, string_at g p s -> string_at g' p s.

Lemma strings_kept_trans g1 g2 g3 : strings_kept g1 g2 -> strings_kept g2 g3 -> strings_kept g1 g3.
Proof. intros H1 H2 p s H. by apply H2, H1. Qed.

(** the string at [p] keeps its contents *)
Lemma strings_kept_insert g g' p m h r s m' h' r' : heap g !! p = Some (mkObj m (BString (mkStringObj h r s))) ->
  heap g' = <[p := mkObj m' (BString (mkStringObj h' r' s))]> (heap g) -> strings_kept g g'.
Proof.
  intros E H q x (mq & hq & rq & Eq). unfold string_at. rewrite H. destruct (decide (p = q)) as [->|Hne].
  - rewrite E in Eq. injection Eq as <- <- <- <-. exists m', h', r'. apply lookup_insert_eq.
  - exists mq, hq, rq. by rewrite lookup_insert_ne.
Qed.

(** ** The walk along a chain *)

Lemma find_string_spec g s l :
  (forall p, p ∈ l -> exists m ts, heap g !! p = Some (mkObj m (BString ts))) ->
  wp (find_string s l) (fun r g' => g' = g /\ match r with
      | Some o => o ∈ l /\ string_at g o s
      | None => forall p, p ∈ l -> ~ string_at g p s
      end) g.
Proof.
  induction l as [|p l IH]; intros H; simpl.
  - wp_step. split; [done|]. by intros p []%elem_of_nil.
  - destruct (H p) as (m & ts & E); [constructor|]. wp_step. eapply wp_gco2ts; [done|]. cbv beta.
    case_bool_decide as Hs.
    + wp_step. split; [done|]. split; [constructor|]. destruct ts as [h r s']. simpl in Hs. subst. by exists m, h, r.
    + eapply wp_mono; [apply IH; intros q Hq; apply H; by constructor|]. intros r g' [-> Hr]. split; [done|].
      destruct r as [o|]; [destruct Hr; split; [by constructor|done]|].
      intros q [->|Hq]%elem_of_cons; [|by apply Hr]. intros (m' & h & r & E'). rewrite E in E'. injection E' as -> ->. by apply Hs.
Qed.

(** ** Taking back a dead string *)

Lemma changewhite_dead g m : Z.testbit m (deadbit g) = true -> Z.testbit (changewhite m) (deadbit g) = false.
Proof.
  intros H. destruct (deadbit_cases g) as [E|E]; rewrite E in *; rewrite changewhite_bits by lia; by rewrite H.
Qed.

Lemma phase_fresh L g p o : phase L g -> heap g !! p = Some o -> Z.testbit (marked o) (deadbit g) = true ->
  gcstate g = GCSsweepstring \/ gcstate g = GCSsweep.
Proof.
  intros P E D. destruct P as [G I|G M T|G _|G _|G I]; auto; exfalso.
  - by rewrite (idle_fresh L g p o I E) in D.
  - by rewrite (mp_fresh _ M p o E) in D.
  - by rewrite (idle_fresh L g p o I E) in D.
Qed.

Lemma revive_base L g p m bd : base L g -> heap g !! p = Some (mkObj m bd) -> Forall (safe_ref g) (body_refs g bd) ->
  Z.testbit m (deadbit g) = true -> base L (on_heap (insert p (mkObj (changewhite m) bd)) g).
Proof.
  intros [W Ln Sh C [R T] X Ns] E Rf D. set (g' := on_heap _ g).
  assert (same_bodies g g') as Sb.
  { intros q. simpl. destruct (decide (p = q)) as [->|]; [by rewrite lookup_insert_eq, E|by rewrite lookup_insert_ne]. }
  assert (forall r, safe_ref g r -> safe_ref g' r) as Hr.
  { intros r [Ty (o & Eo & Do)]. split; [by eapply typed_same|]. unfold live. simpl. destruct (decide (p = r.1)) as [->|].
    - rewrite lookup_insert_eq. eexists. split; [done|]. unfold dead. simpl marked. unfold deadbit. simpl.
      fold (deadbit g). by rewrite changewhite_dead.
    - rewrite lookup_insert_ne by done. exists o. by split. }
  assert (iswhite m = true) as Wm.
  { rewrite iswhite_eq. destruct (deadbit_cases g) as [Eb|Eb]; rewrite Eb in D; rewrite D; [done|by rewrite orb_true_r]. }
  assert (isblack m = false) as Bm by (apply (X p _ E); by left).
  split; [exact W| |by eapply shape_same| | | |exact Ns].
  - eapply linked_sim; [|exact Ln]. split; [done|]. intros q.
    change (heap g') with (<[p := mkObj (changewhite m) bd]> (heap g)). destruct (decide (p = q)) as [->|Hne].
    + rewrite E, lookup_insert_eq. split; [left; cbn [marked]; by rewrite changewhite_bits by (unfold FIXEDBIT; lia)|]. split; [done|]. by destruct bd.
    + rewrite lookup_insert_ne by done. destruct (heap g !! q) as [x|]; [|done]. split; [by left|]. split; [done|]. by destruct (body x).
  - intros q x Eq Dq. rewrite (body_refs_same g g') by done. simpl in Eq. destruct (decide (p = q)) as [->|Hne].
    + rewrite lookup_insert_eq in Eq. injection Eq as <-. eapply Forall_impl; [exact Rf|exact Hr].
    + rewrite lookup_insert_ne in Eq by done. eapply Forall_impl; [by eapply (C q)|exact Hr].
  - split; [eapply Forall_impl; [exact R|exact Hr]|]. rewrite Forall_forall in T |- *. intros q Hq. unfold nonwhite. simpl.
    rewrite lookup_insert_ne; [by apply T|]. intros ->. destruct (T q Hq) as (o & Eo & Wo). rewrite E in Eo. injection Eo as <-. cbn [marked] in Wo. congruence.
  - intros q x Eq H. simpl in Eq. destruct (decide (p = q)) as [->|Hne].
    + rewrite lookup_insert_eq in Eq. injection Eq as <-. cbn [marked]. rewrite isblack_eq in *. by rewrite changewhite_bits, Bm by lia.
    + rewrite lookup_insert_ne in Eq by done. by eapply X.
Qed.

Lemma revive_tracked S R T O g p m bd : linked g -> heap g !! p = Some (mkObj m bd) ->
  Z.testbit m (deadbit g) = true -> tracked S R T O g ->
  tracked S R T O (on_heap (insert p (mkObj (changewhite m) bd)) g).
Proof.
  intros Ln E D Tr q x Eq. simpl in Eq. destruct (decide (p = q)) as [->|Hne].
  - rewrite lookup_insert_eq in Eq. injection Eq as <-. destruct (Tr q _ E) as [H|[[_ H]|H]].
    + by left.
    + cbn [marked] in H. congruence.
    + right; right. exact H.
  - rewrite lookup_insert_ne in Eq by done. exact (Tr q x Eq).
Qed.

Lemma revive_phase L g p m bd : phase L g -> heap g !! p = Some (mkObj m bd) -> Forall (safe_ref g) (body_refs g bd) ->
  isdead g m = true -> let g' := on_heap (insert p (mkObj (changewhite m) bd)) g in phase L g' /\ live g' p.
Proof.
  intros P E Rf D g'. pose proof P as [B Pp]%phase_split. rewrite isdead_eq in D by apply B.
  split.
  - apply phase_split. split; [by apply revive_base|]. pose proof (phase_fresh L g p _ P E D) as G.
    destruct Pp as [G' _|G' _|_ P1 P2 Tr].
    + exfalso. destruct G as [G|G], G' as [G'|G']; rewrite G in G'; discriminate G'.
    + exfalso. destruct G as [G|G]; rewrite G in G'; discriminate G'.
    + apply pp_sweep; [exact G|exact P1|exact P2|]. apply revive_tracked; [apply B|done|done|exact Tr].
  - eexists. split; [apply lookup_insert_eq|]. unfold dead. cbn [marked].
    change (deadbit g') with (deadbit g). by rewrite changewhite_dead.
Qed.

(** ** A new string *)

Lemma marking_state_ext g g' : heap g' = heap g -> gray g' = gray g -> grayagain g' = grayagain g -> weak g' = weak g ->
  tmudata g' = tmudata g -> currentwhite g' = currentwhite g -> l_registry g' = l_registry g -> mainthread g' = mainthread g ->
  marking_state g -> marking_state g'.
Proof.
  intros H1 H2 H3 H4 H5 H6 H7 H8 [Tr [N M Wk X Th] Fr Nm Nr]. destruct g, g'. simpl in *. subst. by split.
Qed.

Lemma resize_phase L g n : phase L g -> 0 < n -> wp (GcSweep.gafqS_resize n) (fun _ g' => phase L g' /\ heap g' = heap g /\ Heap.currentwhite g' = Heap.currentwhite g /\
    tmname g' = tmname g) g.
Proof.
  intros P Hn. pose proof P as [B Pp]%phase_split. unfold GcSweep.gafqS_resize. wp_step. wp_step. unfold id.
  destruct (Z.eqb_spec (Heap.gcstate g) Heap.GCSsweepstring) as [G|G]; [by wp_step|]. unfold resize_block.
  wp_step. wp_step. wp_step. wp_step. wp_step. set (g1 := set_totalbytes _ _).
  destruct (rehash_strings_perm g1 n Hn) as [Hl Pm].
  assert (base L g1) as B1 by (by eapply base_ext; [..|exact B]).
  split; [|done]. apply phase_split. split.
  - apply base_strt; [done|done|]. intros H. rewrite H in Hl. simpl in Hl. lia.
  - destruct Pp as [G' Tr|G' M|G' P1 P2 Tr].
    + apply pp_idle; [exact G'|]. by eapply tracked_ext; [..|exact Tr].
    + apply pp_mark; [exact G'|]. by eapply marking_state_ext; [..|exact M].
    + destruct G' as [G'|G']; [done|]. apply pp_sweep; [by right|simpl; split; [apply P1|congruence]|exact P2|].
      unfold strings_left, root_left in *. simpl. rewrite G' in *. simpl in *. by eapply tracked_ext; [..|exact Tr].
Qed.

Lemma drop_alter_subseteq (l : list (list pointer)) i k p : concat (drop k l) ⊆ concat (drop k (alter (cons p) i l)).
Proof.
  revert i k. induction l as [|x l IH]; intros i k; [done|]. unfold alter in *. destruct i as [|i], k as [|k]; simpl.
  - set_solver.
  - done.
  - pose proof (IH i 0%nat) as H. rewrite !drop_0 in H. set_solver.
  - apply IH.
Qed.

Lemma newlstr_phase L g ts s h :
  phase L g -> heap g !! ts = None -> ts <> UVHEAD -> zlen s + 1 <= MAX_SIZET - sizeof_TString ->
  wp (HeapString.newlstr ts s h) (fun r g' => phase L g' /\ r = ts /\ safe_ref g' (r, GAFQ_TSTRING) /\ string_at g' r s /\
    strings_kept g g' /\ tmname g' = tmname g) g.
Proof.
  intros [B Pp]%phase_split Np Hp Hs. unfold HeapString.newlstr.
  change StringTable.sizeof_TString with sizeof_TString. destruct (Z.ltb_spec (MAX_SIZET - sizeof_TString) (zlen s + 1)); [lia|].
  wp_step. wp_step. wp_step. apply wp_alloc; [done|done|]. unfold id. wp_step. wp_step. wp_step. wp_step.
  set (g1 := set_nuse _ _). set (b := BString (mkStringObj h 0 s)).
  pose proof (b_white _ _ B) as W. destruct (white_marks g W) as (Mw & Mb & Md & Mf).
  assert (added ts (mkObj (gafqC_white g) b) g g1) as Ad by done.
  set (i := Z.to_nat (lmod h (zlen (Heap.strt g)))).
  assert (Heap.strt g1 = alter (cons ts) i (Heap.strt g)) as Es by done.
  assert (i < length (Heap.strt g))%nat as Hi.
  { pose proof (b_strt _ _ B) as Hn. assert (0 < zlen (Heap.strt g)) as H0 by (destruct (Heap.strt g); [done|unfold zlen; simpl; lia]).
    pose proof (lmod_bound h _ H0) as H1. unfold i. unfold zlen in H1 at 2. lia. }
  pose proof (concat_alter_cons (Heap.strt g) i ts Hi) as Pm.
  assert (linked g1) as Ln1.
  { apply (linked_add g g1 ts (gafqC_white g) b); try done.
    - apply B.
    - by intros [].
    - rewrite Es, Pm. change (rootgc g1) with (rootgc g). change (tmudata g1) with (tmudata g). simpl. by rewrite <- Permutation_middle.
    - intros q. change (rootgc g1) with (rootgc g). simpl. tauto.
    - intros q. rewrite Es, Pm. simpl. rewrite elem_of_cons. tauto.
    - destruct (ln_main _ (b_linked _ _ B)) as (pre & us & E & U). exists pre, us. split; [done|].
      eapply Forall_impl; [exact U|]. intros q (mq & u & Eq). exists mq, u. by eapply added_old. }
  assert (adds g g1 ts b) as A.
  { split; try done. rewrite Es. intros H'. apply (f_equal length) in H'. rewrite length_alter in H'. simpl in H'. lia. }
  assert (phase L g1) as P1.
  { apply phase_split. split; [by eapply adds_base|]. destruct Pp as [G Tr|G M|G P1 P2 Tr].
    - apply pp_idle; [done|]. by apply (adds_tracked g g1 ts b A).
    - apply pp_mark; [done|]. by apply (adds_mark g g1 ts b A W (b_shape _ _ B)).
    - apply pp_sweep; [done| |exact P2|].
      + split; [apply P1|]. intros G'. unfold zlen. rewrite Es, length_alter. by apply P1.
      + eapply (tracked_mono (strings_left g) (root_left g) (root_left g) []); [|done..|by apply (adds_tracked g g1 ts b A)].
        unfold strings_left. change (Heap.gcstate g1) with (Heap.gcstate g). change (Heap.sweepstrgc g1) with (Heap.sweepstrgc g).
        destruct (_ =? _); [|done]. rewrite Es. apply drop_alter_subseteq. }
  assert (safe_ref g1 (ts, GAFQ_TSTRING) /\ string_at g1 ts s) as [Hsafe Hstr].
  { assert (heap g1 !! ts = Some (mkObj (gafqC_white g) b)) as E1 by apply lookup_insert_eq. split.
    - split; (eexists; split; [exact E1|]); [done|]. unfold dead. cbn [marked]. change (deadbit g1) with (deadbit g). by rewrite Md.
    - unfold b in E1. by exists (gafqC_white g), h, 0. }
  assert (strings_kept g g1) as Hkept.
  { intros q x (mq & hq & rq & Eq). exists mq, hq, rq. by eapply added_old. }
  wp_step. wp_step. wp_step. unfold id. destruct (_ && _).
  - eapply wp_mono; [apply (resize_phase L g1); [done|]|].
    { unfold zlen. rewrite Es, length_alter. lia. }
    intros [] g2 (P2 & H2 & C2 & T2). cbv beta. wp_step. split_and!; [done|done| | |intros q x Hq; unfold string_at; rewrite H2; by apply Hkept|done].
    + destruct Hsafe as [Ht (x & Ex & Dx)]. unfold safe_ref, typed, live. rewrite H2. split; [done|].
      exists x. split; [done|]. by rewrite (dead_same g1).
    + unfold string_at in *. by rewrite H2.
  - wp_step. wp_step. done.
Qed.

Lemma bucket_strings g k : linked g -> forall p, p ∈ vget [] (Heap.strt g) k ->
  exists m ts, heap g !! p = Some (mkObj m (BString ts)).
Proof.
  intros Ln p Hp. unfold vget in Hp. destruct (k <? 0); [by apply elem_of_nil in Hp|]. rewrite nth_lookup in Hp.
  destruct (Heap.strt g !! Z.to_nat k) as [b|] eqn:E; [|by apply elem_of_nil in Hp]. apply (ln_strt _ Ln).
  by eapply elem_of_bucket.
Qed.

Lemma internstr_phase L g ts s :
  phase L g -> heap g !! ts = None -> ts <> UVHEAD -> zlen s + 1 <= MAX_SIZET - sizeof_TString ->
  wp (HeapString.gafqS_newlstr ts s) (fun r g' => phase L g' /\ safe_ref g' (r, GAFQ_TSTRING) /\ string_at g' r s /\
    strings_kept g g' /\ tmname g' = tmname g) g.
Proof.
  intros P Np Hp Hs. pose proof P as [B _]%phase_split. unfold HeapString.gafqS_newlstr. wp_step. wp_step. wp_step. unfold id.
  eapply wp_mono; [apply find_string_spec; apply bucket_strings, B|]. intros r g' [-> Hr]. cbv beta.
  destruct r as [o|].
  - destruct Hr as [Ho Hstr]. destruct Hstr as (m & h & rs & E). wp_step. eapply wp_getmarked; [done|]. cbv beta. cbn [marked]. wp_step.
    destruct (isdead g m) eqn:D.
    + eapply wp_mark_with; [done|]. cbv beta. wp_step. cbn [marked]. unfold set_marked. cbn [body].
      destruct (revive_phase L g o m _ P E ltac:(constructor) D) as [P' L']. split_and!; [exact P'| | |by eapply strings_kept_insert|done].
      * split; [|exact L']. eexists. split; [apply lookup_insert_eq|done].
      * exists (changewhite m), h, rs. apply lookup_insert_eq.
    + wp_step. wp_step. split_and!; [done| |by exists m, h, rs|by intros q x|done]. split; [by eexists|]. eexists. split; [exact E|].
      rewrite isdead_eq in D by apply B. unfold dead. cbn [marked]. by rewrite D.
  - eapply wp_mono; [by apply newlstr_phase|]. intros r g' (H1 & -> & H2 & H3 & H4 & H5). auto.
Qed.

(** ** Fixed strings *)

(** a string changes, not its colour *)
Section StringChange.
Context (L : pointer) (g : GState) (p : pointer) (m m' : Z) (ts ts' : StringObj).
Hypothesis E : heap g !! p = Some (mkObj m (BString ts)).
Hypothesis Bits : forall b, b = 0 \/ b = 1 \/ b = 2 -> Z.testbit m' b = Z.testbit m b.
Hypothesis Fixed : Z.testbit m FIXEDBIT = true -> Z.testbit m' FIXEDBIT = true.

Definition changed : GState := on_heap (insert p (mkObj m' (BString ts'))) g.

Lemma changed_white : iswhite m' = iswhite m.
Proof. rewrite !iswhite_eq, !Bits; auto. Qed.

Lemma changed_black : isblack m' = isblack m.
Proof. rewrite !isblack_eq, Bits; auto. Qed.

Lemma changed_dead : Z.testbit m' (deadbit g) = Z.testbit m (deadbit g).
Proof. apply Bits. destruct (deadbit_cases g); auto. Qed.

Lemma changed_at q : q <> p -> heap changed !! q = heap g !! q.
Proof. intros Hq. by apply lookup_insert_ne. Qed.

Lemma changed_cases q x : heap changed !! q = Some x -> q = p /\ x = mkObj m' (BString ts') \/ q <> p /\ heap g !! q = Some x.
Proof.
  destruct (decide (q = p)) as [->|Hne]; [|rewrite changed_at by done; auto].
  intros Ex. left. split; [done|]. unfold changed in Ex. simpl in Ex. rewrite lookup_insert_eq in Ex. congruence.
Qed.

Lemma changed_old q x : heap g !! q = Some x -> exists x', heap changed !! q = Some x' /\ body_tt (body x') = body_tt (body x) /\
  iswhite (marked x') = iswhite (marked x) /\ isblack (marked x') = isblack (marked x) /\ (dead g (marked x) = false -> dead g (marked x') = false).
Proof.
  intros Ex. destruct (decide (q = p)) as [->|Hne].
  - rewrite E in Ex. injection Ex as <-. eexists. split; [apply lookup_insert_eq|]. cbn [body marked body_tt].
    split_and!; [done|apply changed_white|apply changed_black|]. unfold dead. rewrite changed_dead.
    intros [->|H]%andb_false_iff; [done|]. apply negb_false_iff in H. by rewrite Fixed, andb_false_r.
  - exists x. rewrite changed_at by done. done.
Qed.

Lemma changed_thread q mq t : heap changed !! q = Some (mkObj mq (BThread t)) <-> heap g !! q = Some (mkObj mq (BThread t)).
Proof.
  destruct (decide (q = p)) as [->|Hne]; [|by rewrite changed_at].
  rewrite E. unfold changed. simpl. rewrite lookup_insert_eq. split; intros [=].
Qed.

Lemma changed_slot th lv : slot_of changed th lv = slot_of g th lv.
Proof.
  unfold slot_of. destruct (decide (th = p)) as [->|Hne]; [|by rewrite changed_at].
  unfold changed. simpl. by rewrite lookup_insert_eq, E.
Qed.

Lemma changed_refs b : body_refs changed b = body_refs g b.
Proof. destruct b as [| | | | | |[]|]; try done. simpl. by rewrite changed_slot. Qed.

Lemma changed_safe r : safe_ref g r -> safe_ref changed r.
Proof.
  intros [(x & Ex & T) (y & Ey & D)]. rewrite Ex in Ey. injection Ey as <-.
  destruct (changed_old _ _ Ex) as (x' & Ex' & T' & _ & _ & D'). split; exists x'; (split; [done|]); [congruence|by apply D'].
Qed.

Lemma changed_nonwhite q : nonwhite g q -> nonwhite changed q.
Proof. intros (x & Ex & W). destruct (changed_old _ _ Ex) as (x' & Ex' & _ & W' & _). exists x'. split; [done|congruence]. Qed.

Lemma changed_linked : linked g -> linked changed.
Proof.
  apply linked_sim. split; [done|]. intros q. destruct (decide (q = p)) as [->|Hne].
  - rewrite E. unfold changed. cbn [heap on_heap set_heap]. rewrite lookup_insert_eq. split; [by right|done].
  - rewrite changed_at by done. destruct (heap g !! q) as [x|]; [|done]. split; [by left|]. split; [done|]. by destruct (body x).
Qed.

Lemma changed_base : base L g -> base L changed.
Proof.
  intros [W Ln Sh C [R T] X Ns].
  assert (shape changed) as Sh'.
  { intros q x Ex. destruct (changed_cases _ _ Ex) as [[-> ->]|[_ Eq]]; [done|]. pose proof (Sh q x Eq) as K.
    destruct (body x) as [| | | | | |[]|]; try done. simpl in *. destruct K as (mq & t & Et & H). exists mq, t. by rewrite changed_thread. }
  split; [exact W|by apply changed_linked|done| | | |exact Ns].
  - intros q x Ex D. destruct (changed_cases _ _ Ex) as [[-> ->]|[_ Eq]]; [constructor|]. rewrite changed_refs.
    eapply Forall_impl; [by eapply C|exact changed_safe].
  - split; [eapply Forall_impl; [exact R|exact changed_safe]|eapply Forall_impl; [exact T|exact changed_nonwhite]].
  - intros q x Ex H. destruct (changed_cases _ _ Ex) as [[-> ->]|[_ Eq]]; [|by eapply X].
    cbn [marked body] in *. rewrite changed_black. apply (X p _ E). left. cbn [marked]. rewrite <- changed_white. by destruct H as [H|[]].
Qed.

Lemma changed_tracked S R T O : tracked S R T O g -> tracked S R T O changed.
Proof.
  intros Tr q x Ex. destruct (changed_cases _ _ Ex) as [[-> ->]|[_ Eq]]; [|exact (Tr q x Eq)].
  destruct (Tr p _ E) as [H|[[H1 H2]|H]]; [by left| |by right; right]. right; left. cbn [marked] in *. split.
  - by rewrite changed_white.
  - change (deadbit changed) with (deadbit g). by rewrite changed_dead.
Qed.

Lemma changed_marking : marking_state g -> marking_state changed.
Proof.
  intros [Tr [N M Wk X Th] Fr Nm Nr]. split; [| | |by apply changed_nonwhite|eapply Forall_impl; [exact Nr|intros r; apply changed_nonwhite]].
  - intros q x Ex Wq. destruct (changed_cases _ _ Ex) as [[-> ->]|[_ Eq]]; [right; right; split; [constructor|done]|].
    destruct (Tr q x Eq Wq) as [H|[H|[H1 H2]]]; [by left|right; left|right; right].
    + destruct H as [H|(o & Eo & Ho)]; [by left|right]. exists o. split; [|done]. rewrite changed_at; [done|].
      intros ->. rewrite E in Eo. injection Eo as <-. by destruct Ho.
    + split; [|done]. replace (scan_refs changed x) with (scan_refs g x).
      * eapply Forall_impl; [exact H1|]. intros r. apply changed_nonwhite.
      * unfold scan_refs. pose proof (changed_refs (body x)) as K. by destruct (body x).
  - split; [exact N| | | |].
    + intros q Hq. destruct (M q Hq) as (o & Eo & Wo & Co & Bo). exists o. split; [|done]. rewrite changed_at; [done|].
      intros ->. rewrite E in Eo. by injection Eo as <-.
    + intros q Hq. destruct (Wk q Hq) as (mq & t & Eq). exists mq, t. rewrite changed_at; [done|]. intros ->. congruence.
    + intros q x Ex H. destruct (changed_cases _ _ Ex) as [[-> ->]|[_ Eq]]; [|by eapply X].
      cbn [marked body] in *. rewrite changed_black. apply (X p _ E). left. cbn [marked]. rewrite <- changed_white. by destruct H as [H|[]].
    + intros q mq t Ex. rewrite changed_thread in Ex. by eapply Th.
  - intros q x Ex. change (deadbit changed) with (deadbit g). destruct (changed_cases _ _ Ex) as [[-> ->]|[_ Eq]]; [|by eapply Fr].
    cbn [marked]. rewrite changed_dead. exact (Fr p _ E).
Qed.

Lemma changed_phase : phase L g -> phase L changed.
Proof.
  intros [B Pp]%phase_split. apply phase_split. split; [by apply changed_base|]. destruct Pp as [G Tr|G M|G P1 P2 Tr].
  - apply pp_idle; [exact G|by apply changed_tracked].
  - apply pp_mark; [exact G|by apply changed_marking].
  - apply pp_sweep; [exact G|exact P1|exact P2|by apply changed_tracked].
Qed.

End StringChange.

Lemma fix_bits m : (forall b, b = 0 \/ b = 1 \/ b = 2 -> Z.testbit (l_setbit m FIXEDBIT) b = Z.testbit m b) /\
  Z.testbit (l_setbit m FIXEDBIT) FIXEDBIT = true.
Proof.
  change (l_setbit m FIXEDBIT) with (Z.lor m (2 ^ 5)). split.
  - intros b Hb. rewrite Z.lor_spec, Z.pow2_bits_eqb by lia. destruct (Z.eqb_spec 5 b); [lia|by rewrite orb_false_r].
  - rewrite Z.lor_spec, Z.pow2_bits_eqb by lia. by rewrite orb_true_r.
Qed.

Lemma gafqS_fix_phase L g p s : phase L g -> string_at g p s ->
  wp (gafqS_fix p) (fun _ g' => phase L g' /\ string_at g' p s /\ strings_kept g g' /\ tmname g' = tmname g) g.
Proof.
  intros P (m & h & r & E). eapply wp_mark_with; [done|]. cbn [marked]. unfold set_marked. cbn [body].
  destruct (fix_bits m) as [H1 H2]. split_and!; [| |by eapply strings_kept_insert|done].
  - by apply (changed_phase L g p m (l_setbit m FIXEDBIT) (mkStringObj h r s) (mkStringObj h r s)).
  - eexists _, h, r. apply lookup_insert_eq.
Qed.
