(* ===== verification/StateProofs.v ===== *)
(** * A new state

    [gafq_newstate] ends without an error in a state where the collector is
    paused and its invariant holds. *)

From stdpp Require Import gmap sets.
From S2P Require Import Prelude Number Object Table Lexer Heap Tm Gc Func GcSweep HeapString State GcLogic GcInv GcMark GcTraverse GcPropagate GcLinks GcAtomic GcPhase GcLists GcSwept GcFree GcSweepLoop GcStep GcFinalize GcAlloc.

(** the state before the strings are created *)
Record started (L gt r : pointer) (mL : Z) (th : Thread) (t : Table) (g : GState) : Prop := {
  sd_heap : heap g = <[r := mkObj 1 (BTable t)]> (<[L := mkObj mL (BThread th)]> (<[gt := mkObj 1 (BTable t)]> ∅));
  sd_ne : L <> UVHEAD /\ gt <> UVHEAD /\ r <> UVHEAD /\ L <> gt /\ r <> L /\ r <> gt;
  sd_mark : current g mL /\ isblack mL = false;
  sd_thread : l_gt th = VTable gt /\ openupval th = [] /\ thread_ok th /\ (stack th ≫= val_refs) = [];
  sd_table : table_refs true true t = [];
  sd_strt : strt g <> [] /\ concat (strt g) = [];
  sd_chains : rootgc g = [r; gt; L] /\ tmudata g = [];
  sd_uv : uvprev g = UVHEAD /\ uvnext g = UVHEAD;
  sd_state : gcstate g = GCSpause /\ currentwhite g = 33;
  sd_roots : mainthread g = L /\ l_registry g = VTable r /\ (mt g ≫= opt_refs GAFQ_TTABLE) = []
}.

Section Started.
Context (L gt r : pointer) (mL : Z) (th : Thread) (t : Table) (g : GState).
Hypothesis S : started L gt r mL th t g.

Lemma started_cases p o : heap g !! p = Some o ->
  p = L /\ o = mkObj mL (BThread th) \/ (p = gt \/ p = r) /\ o = mkObj 1 (BTable t).
Proof.
  destruct S as [Hh (N1 & N2 & N3 & N4 & N5 & N6) _ _ _ _ _ _ _ _]. rewrite Hh.
  intros [[<- <-]|[_ [[<- <-]|[_ [[<- <-]|[_ E]]%lookup_insert_Some]]%lookup_insert_Some]]%lookup_insert_Some; auto.
  by rewrite lookup_empty in E.
Qed.

Lemma started_at : heap g !! L = Some (mkObj mL (BThread th)) /\ heap g !! gt = Some (mkObj 1 (BTable t)) /\
  heap g !! r = Some (mkObj 1 (BTable t)).
Proof.
  destruct S as [Hh (N1 & N2 & N3 & N4 & N5 & N6) _ _ _ _ _ _ _ _]. rewrite Hh.
  split_and!; [by rewrite lookup_insert_ne, lookup_insert_eq|do 2 (rewrite lookup_insert_ne by done); by rewrite lookup_insert_eq|by rewrite lookup_insert_eq].
Qed.

Lemma started_current p o : heap g !! p = Some o -> current g (marked o).
Proof.
  intros E. destruct (sd_mark _ _ _ _ _ _ _ S) as [Hm _]. destruct (started_cases p o E) as [[-> ->]|[_ ->]]; [done|].
  unfold current, deadbit. destruct (sd_state _ _ _ _ _ _ _ S) as [_ ->]. by vm_compute.
Qed.

Lemma started_safe p o tag : heap g !! p = Some o -> body_tt (body o) = tag -> safe_ref g (p, tag).
Proof.
  intros E T. split; [by exists o|]. exists o. split; [done|]. unfold dead. by rewrite (proj2 (started_current p o E)).
Qed.

Lemma started_linked : linked g.
Proof.
  destruct started_at as (EL & Eg & Er). destruct S as [Hh (N1 & N2 & N3 & N4 & N5 & N6) [Mc Mb] (T1 & T2 & T3 & T4) Tt [Ns Cs] [Rg Tm] [U1 U2] _ (R1 & _)].
  assert (forall q x, is_thread g q x -> q = L /\ x = th) as Th.
  { intros q x [m E]. by destruct (started_cases q _ E) as [[-> [= _ ->]]|[_ [=]]]. }
  split.
  - destruct (heap g !! UVHEAD) eqn:E; [|done]. destruct (started_cases _ _ E) as [[? _]|[[?|?] _]]; congruence.
  - rewrite Rg, Cs, Tm. simpl. repeat (apply NoDup_cons; split; [set_solver|]). constructor.
  - intros p o E. unfold in_chain. rewrite Rg. destruct (started_cases p o E) as [[-> ->]|[[->| ->] ->]]; simpl; left; set_solver.
  - intros p Hp. rewrite Rg in Hp.
    assert (p = r \/ p = gt \/ p = L) as [->|[->| ->]] by set_solver; (eexists; split; [eassumption|by split; [|intros []]]).
  - intros p Hp. rewrite Cs in Hp. by apply elem_of_nil in Hp.
  - intros p Hp. rewrite Tm in Hp. by apply elem_of_nil in Hp.
  - intros q x [-> ->]%Th. rewrite T2. split; [constructor|by intros p []%elem_of_nil].
  - intros q x [-> ->]%Th. rewrite T2. constructor.
  - exists [r; gt], []. split; [by rewrite Rg, R1|constructor].
  - exists []. split_and!; [by split|constructor|]. intros p. split; [by intros []%elem_of_nil|].
    intros (o & E & Ho). by destruct (started_cases p o E) as [[_ ->]|[_ ->]].
  - intros p o E F. rewrite R1. destruct (started_cases p o E) as [[-> ->]|[_ ->]]; [by left|]. discriminate F.
Qed.

Lemma started_phase : phase L g.
Proof.
  destruct started_at as (EL & Eg & Er). pose proof started_linked as Ln.
  destruct (sd_thread _ _ _ _ _ _ _ S) as (T1 & T2 & T3 & T4). destruct (sd_state _ _ _ _ _ _ _ S) as [G W].
  apply ph_pause; [done|]. split; [|intros p o E; right; left; by eapply started_current].
  split.
  - by left.
  - done.
  - intros p o E. destruct (started_cases p o E) as [[-> ->]|[_ ->]]; done.
  - intros p o E _. destruct (started_cases p o E) as [[-> ->]|[_ ->]]; simpl.
    + unfold thread_refs. rewrite T1. simpl. constructor; [by eapply started_safe|].
      rewrite <- (take_drop (Z.to_nat (top th)) (stack th)), bind_app in T4. apply app_eq_nil in T4 as [-> _]. constructor.
    + by rewrite (sd_table _ _ _ _ _ _ _ S).
  - destruct (sd_roots _ _ _ _ _ _ _ S) as (R1 & R2 & R3). split.
    + unfold root_refs. rewrite R1, R2, R3. simpl. repeat constructor; by eapply started_safe.
    + rewrite (proj2 (sd_chains _ _ _ _ _ _ _ S)). constructor.
  - intros p o E H. destruct (started_cases p o E) as [[-> ->]|[_ ->]]; [apply (sd_mark _ _ _ _ _ _ _ S)|done].
  - apply (sd_strt _ _ _ _ _ _ _ S).
Qed.

End Started.

(** ** Reserved words and names *)

Lemma set_reserved_phase L g p s x : phase L g -> string_at g p s ->
  wp (set_reserved p x) (fun _ g' => phase L g' /\ strings_kept g g' /\ tmname g' = tmname g) g.
Proof.
  intros P (m & h & r & E). unfold set_reserved. wp_step. eapply wp_gco2ts; [done|]. cbv beta. eapply wp_putbody; [done|].
  split_and!; [|by eapply strings_kept_insert|done].
  by apply (changed_phase L g p m m (mkStringObj h r s) (mkStringObj h x s)).
Qed.

Section Newstate.
Context (fresh : GState -> pointer).

(** the allocator returns a block that is not in use *)
Hypothesis fresh_ok : forall g, heap g !! fresh g = None /\ fresh g <> UVHEAD.

Lemma gafqS_new_phase L g s : phase L g -> zlen s + 1 <= MAX_SIZET - sizeof_TString ->
  wp (gafqS_new fresh s) (fun r g' => phase L g' /\ string_at g' r s /\ strings_kept g g' /\ tmname g' = tmname g) g.
Proof.
  intros P Hs. unfold gafqS_new. wp_step. wp_step. destruct (fresh_ok g) as [F1 F2].
  eapply wp_mono; [by apply internstr_phase|]. intros r g' (H1 & _ & H2 & H3 & H4). auto.
Qed.

Lemma phase_tmname L g l : phase L g -> phase L (set_tmname g l).
Proof.
  intros [B Pp]%phase_split. apply phase_split. split; [by eapply base_ext; [..|exact B]|]. destruct Pp as [G Tr|G M|G P1 P2 Tr].
  - by apply pp_idle.
  - apply pp_mark; [done|]. by eapply marking_state_ext; [..|exact M].
  - by apply pp_sweep.
Qed.

Definition fitsb (s : bytes) : bool := zlen s + 1 <=? MAX_SIZET - sizeof_TString.

Lemma fitsb_all {A} (f : A -> bytes) l : forallb (fun x => fitsb (f x)) l = true ->
  Forall (fun x => zlen (f x) + 1 <= MAX_SIZET - sizeof_TString) l.
Proof.
  intros H. rewrite forallb_forall in H. apply Forall_forall. intros x Hx. apply Z.leb_le, H. by apply list_elem_of_In.
Qed.

Lemma gafqT_init_phase L g : phase L g -> tmname g = [] ->
  wp (gafqT_init fresh) (fun _ g' => phase L g' /\ Forall2 (fun p s => string_at g' p (str s)) (tmname g') gafqT_eventname) g.
Proof.
  intros P Ht. unfold gafqT_init.
  pose proof (fitsb_all str gafqT_eventname ltac:(by vm_compute)) as Hf.
  apply (wp_for_each gafqT_eventname _ (fun done g => phase L g /\ Forall2 (fun p s => string_at g p (str s)) (tmname g) done)).
  - split; [done|]. rewrite Ht. constructor.
  - intros pre s rest g1 El [P1 F1]. rewrite El, Forall_app, Forall_cons in Hf. destruct Hf as (_ & Hs & _).
    wp_step. eapply wp_mono; [by apply (gafqS_new_phase L)|]. intros ts g2 (P2 & S2 & K2 & T2). cbv beta. wp_step. wp_step.
    eapply wp_mono; [apply (gafqS_fix_phase L _ ts (str s)); [by apply phase_tmname|exact S2]|].
    intros [] g3 (P3 & S3 & K3 & T3). split; [done|]. rewrite T3. simpl. rewrite T2. apply Forall2_app.
    + eapply Forall2_impl; [exact F1|]. intros q x Hq. apply K3. by apply K2.
    + by repeat constructor.
  - done.
Qed.

Lemma gafqX_init_phase L g : phase L g ->
  wp (gafqX_init fresh) (fun _ g' => phase L g' /\ strings_kept g g' /\ tmname g' = tmname g) g.
Proof.
  intros P. unfold gafqX_init.
  pose proof (fitsb_all snd (zip (seqZ 0 NUM_RESERVED) gafqX_tokens) ltac:(by vm_compute)) as Hf.
  revert Hf. generalize (zip (seqZ 0 NUM_RESERVED) gafqX_tokens). intros l Hf.
  apply (wp_for_each l _ (fun _ g' => phase L g' /\ strings_kept g g' /\ tmname g' = tmname g)); [by split_and!; [|intros q x|]| |done].
  intros pre s rest g1 El (P1 & K1 & T1). rewrite El, Forall_app, Forall_cons in Hf. destruct Hf as (_ & Hs & _).
  wp_step. eapply wp_mono; [by apply (gafqS_new_phase L)|]. intros ts g2 (P2 & S2 & K2 & T2). cbv beta.
  wp_step. eapply wp_mono; [by eapply (gafqS_fix_phase L)|]. intros [] g3 (P3 & S3 & K3 & T3). cbv beta.
  eapply wp_mono; [by eapply (set_reserved_phase L)|]. intros [] g4 (P4 & K4 & T4).
  split_and!; [done| |congruence]. intros q x Hq. by apply K4, K3, K2, K1.
Qed.

(** ** The whole of [f_gafqopen] *)

Definition two_nodes : Table :=
  match Table.gafqH_new 0 2 with Ok t => t | Err _ => mkTable 0 0 None [] 0 [] true 0 end.

Lemma new_table_spec g Q : (forall g', (exists n, g' = set_totalbytes (set_rootgc (on_heap (insert (fresh g)
    (mkObj (gafqC_white g) (BTable two_nodes))) g) (fresh g :: rootgc g)) n) -> Q (fresh g) g') ->
  wp (State.gafqH_new fresh 0 2) Q g.
Proof.
  intros H. unfold State.gafqH_new. wp_step. wp_step.
  replace (Table.gafqH_new 0 2) with (Ok two_nodes : res Table) by (by vm_compute). unfold gafqC_link, resize_block.
  destruct (fresh_ok g) as [F1 F2]. wp_step. wp_step. wp_step. wp_step. apply wp_alloc; [done|done|]. wp_step. wp_step. wp_step. wp_step.
  change (isdummy two_nodes) with false. cbv iota. wp_step. wp_step. apply H. by eexists.
Qed.

Lemma first_part_spec L Q : L <> UVHEAD ->
  (forall g gt r mL th t, started L gt r mL th t g -> tmname g = [] -> wp (gafqT_init fresh;; gafqX_init fresh;;
      ts ← gafqS_new fresh MEMERRMSG; gafqS_fix ts;; modify (fun g => set_GCthreshold g (size_t (4 * totalbytes g)))) Q g) ->
  wp (f_gafqopen fresh L) Q (initial_state L).
Proof.
  intros HL HQ. unfold f_gafqopen, stack_init, resize_block. do 5 wp_step. set (g0 := set_totalbytes _ _).
  assert (heap g0 = {[ L := mkObj 97 (BThread preinit_state) ]}) as H0 by done. wp_step.
  eapply wp_gco2th; [rewrite H0; apply lookup_singleton_eq|]. cbv beta. eapply wp_putbody; [rewrite H0; apply lookup_singleton_eq|].
  set (g1 := on_heap _ g0). cbn [set_body marked]. wp_step. apply new_table_spec. intros g2 [n2 ->]. cbv beta.
  destruct (fresh_ok g1) as [F1 F1']. set (gt := fresh g1) in *.
  assert (gt <> L) as Hgt by (intros Heq; rewrite Heq in F1; simpl in F1; by rewrite lookup_insert_eq in F1).
  set (g2 := set_totalbytes _ n2). wp_step.
  eapply wp_gco2th; [simpl; rewrite lookup_insert_ne by done; apply lookup_insert_eq|]. cbv beta. wp_step.
  eapply wp_putbody; [simpl; rewrite lookup_insert_ne by done; apply lookup_insert_eq|].
  set (g3 := on_heap _ g2). wp_step. apply new_table_spec. intros g4 [n4 ->]. cbv beta.
  destruct (fresh_ok g3) as [F3 F3']. set (r := fresh g3) in *.
  assert (r <> L /\ r <> gt) as [HrL Hrg].
  { split; intros Heq; rewrite Heq in F3; simpl in F3; [by rewrite lookup_insert_eq in F3|].
    rewrite lookup_insert_ne in F3 by done. by rewrite lookup_insert_eq in F3. }
  set (g4 := set_totalbytes _ n4). wp_step. wp_step. wp_step. set (g5 := set_l_registry g4 _).
  unfold gafqS_resize, resize_block. wp_step. wp_step. unfold id.
  change (gcstate g5 =? GCSsweepstring) with false. cbv iota. do 5 wp_step.
  apply (HQ _ gt r 97 (set_l_gt (init_stack preinit_state) (VTable gt)) two_nodes); [|done].
  match goal with |- started _ _ _ _ _ _ ?s => set (g6 := s) end.
  assert (heap g6 = <[r := mkObj 1 (BTable two_nodes)]> (heap g3)) as H6 by reflexivity.
  assert (heap g3 = <[L := mkObj 97 (BThread (set_l_gt (init_stack preinit_state) (VTable gt)))]> (heap g2)) as H3 by reflexivity.
  assert (heap g2 = <[gt := mkObj 1 (BTable two_nodes)]> (heap g1)) as H2 by reflexivity.
  assert (heap g1 = <[L := mkObj 97 (BThread (init_stack preinit_state))]> (heap g0)) as H1 by reflexivity.
  assert (currentwhite g6 = 33 /\ gcstate g6 = GCSpause /\ rootgc g6 = [r; gt; L] /\ tmudata g6 = [] /\ uvprev g6 = UVHEAD /\
    uvnext g6 = UVHEAD /\ mainthread g6 = L /\ l_registry g6 = VTable r /\ mt g6 = replicate (Z.to_nat NUM_TAGS) None)
    as (C6 & G6 & R6 & T6 & P6 & N6 & M6 & Rg6 & Mt6) by (split_and!; reflexivity).
  assert (strt g6 = replicate 32 []) as S6 by reflexivity. clearbody g6 gt r. clearbody g3. clearbody g2. clearbody g1. clearbody g0.
  clear HQ fresh_ok F1 F3. split.
  - rewrite H6, H3, H2, H1, H0. apply map_eq. intros q.
    destruct (decide (q = r)) as [->|]; [by rewrite !lookup_insert_eq|]. rewrite !(lookup_insert_ne _ r) by done.
    destruct (decide (q = L)) as [->|]; [by rewrite !lookup_insert_eq|]. rewrite !(lookup_insert_ne _ L) by done.
    destruct (decide (q = gt)) as [->|]; [by rewrite !lookup_insert_eq|].
    rewrite !lookup_insert_ne by done. by rewrite lookup_singleton_ne, lookup_empty.
  - split_and!; try assumption; by intros ->.
  - unfold current, deadbit. rewrite C6. by vm_compute.
  - split_and!; [reflexivity|reflexivity|by vm_compute|by vm_compute].
  - by vm_compute.
  - rewrite S6. by vm_compute.
  - by split.
  - by split.
  - by split.
  - split_and!; [assumption|assumption|]. rewrite Mt6. by vm_compute.
Qed.

(** [f_gafqopen] without a memory error *)
Lemma newstate_spec L : L <> UVHEAD ->
  exists g, gafq_newstate fresh L = Ok g /\ phase L g /\
    Forall2 (fun p s => string_at g p (str s)) (tmname g) gafqT_eventname.
Proof.
  intros HL. unfold gafq_newstate.
  assert (wp (f_gafqopen fresh L) (fun _ g => phase L g /\ Forall2 (fun p s => string_at g p (str s)) (tmname g) gafqT_eventname)
             (initial_state L)) as H.
  { apply first_part_spec; [done|]. intros g gt r mL th t Sd Tn.
    pose proof (started_phase _ _ _ _ _ _ _ Sd) as P. wp_step. eapply wp_mono; [by apply (gafqT_init_phase L)|].
    intros [] g1 [P1 T1]. cbv beta. wp_step. eapply wp_mono; [by apply (gafqX_init_phase L)|]. intros [] g2 (P2 & K2 & T2). cbv beta.
    wp_step. eapply wp_mono; [apply (gafqS_new_phase L g2 MEMERRMSG P2); by vm_compute|]. intros ts g3 (P3 & S3 & K3 & T3). cbv beta.
    wp_step. eapply wp_mono; [by eapply (gafqS_fix_phase L)|]. intros [] g4 (P4 & S4 & K4 & T4). cbv beta. wp_step. split.
    - apply (phase_quiet L g4); [by apply quiet_heap|exact P4].
    - simpl. rewrite T4, T3, T2. eapply Forall2_impl; [exact T1|]. intros q x Hq. by apply K4, K3, K2. }
  apply wp_ok in H as (u & g & -> & H1 & H2). by exists g.
Qed.

End Newstate.

(** ** A concrete allocator and a concrete state *)

(** the address after the last one in use *)
Definition next_free (g : GState) : pointer := map_fold (fun p _ n => Z.max n (p + 1)) 1 (heap g).

Lemma next_free_ok g : heap g !! next_free g = None /\ next_free g <> UVHEAD.
Proof.
  assert (1 <= next_free g /\ forall p, is_Some (heap g !! p) -> p < next_free g) as [H1 H2].
  { unfold next_free. generalize (heap g) as h. intros h.
    apply (map_fold_weak_ind (fun n h => 1 <= n /\ forall p, is_Some (h !! p) -> p < n)).
    - split; [lia|]. intros p [o E]. by rewrite lookup_empty in E.
    - intros p o h' n Np [IH1 IH2]. split; [lia|]. intros q [o' [[<- _]|[_ E]]%lookup_insert_Some]; [lia|].
      specialize (IH2 q (ltac:(by eexists))). lia. }
  split; [|unfold UVHEAD; lia]. apply eq_None_not_Some. intros H. apply H2 in H. lia.
Qed.

(** a new state with a string that nothing refers to *)
Definition sample : GState :=
  match gafq_newstate next_free 1 with
  | Ok g => match HeapString.gafqS_newlstr 100 (str "abc") g with Ok (_, g') => g' | Err _ => g end
  | Err _ => initial_state 1
  end.

Lemma sample_phase : phase 1 sample.
Proof.
  destruct (newstate_spec next_free next_free_ok 1 ltac:(done)) as (g & E & P & _). unfold sample. rewrite E.
  assert (exists g0, gafq_newstate next_free 1 = Ok g0 /\ heap g0 !! 100 = None) as (g0 & E0 & N0).
  { eexists. split; [vm_compute; reflexivity|vm_compute; reflexivity]. }
  rewrite E in E0. injection E0 as <-.
  pose proof (internstr_phase 1 g 100 (str "abc") P N0 ltac:(done) ltac:(by vm_compute)) as H.
  apply wp_ok in H as (r & g' & -> & H & _). exact H.
Qed.

Lemma sample_small : small sample.
Proof. by vm_compute. Qed.
