(* ===== verification/GcSafety.v ===== *)
(** * What the collector guarantees

    The roots are the running thread, the main thread, the registry and the
    metatables of the basic types; an object is reachable from them through the
    references that objects hold.  No step of the collector frees a reachable
    object; every object that is dead when a sweep starts is gone when it ends. *)

From stdpp Require Import gmap sets.
From S2P Require Import Prelude Number Object Table Lexer Heap Tm Gc Func GcSweep HeapString State GcLogic GcInv GcMark GcTraverse GcPropagate GcLinks GcAtomic GcPhase GcLists GcSwept GcFree GcSweepLoop GcStep GcFinalize GcAlloc StateProofs.

Inductive reach (L : pointer) (g : GState) : ref -> Prop :=
  | reach_root r : r ∈ (L, GAFQ_TTHREAD) :: root_refs g -> reach L g r
  | reach_ref r o r' : reach L g r -> heap g !! r.1 = Some o -> r' ∈ body_refs g (body o) -> reach L g r'.

Lemma reach_safe L g r : phase L g -> reach L g r -> safe_ref g r.
Proof.
  intros [B _]%phase_split. destruct (b_rooted _ _ B) as [R _]. rewrite Forall_forall in R.
  induction 1 as [r Hr|r o r' _ IH E Hr]; [by apply R|]. destruct IH as [_ (o' & E' & D)]. rewrite E in E'. injection E' as <-.
  pose proof (b_closed _ _ B _ _ E D) as C. rewrite Forall_forall in C. by apply C.
Qed.

(** ** A sweep from its start to its end *)

Section Sweep.
Context (gafqD_call : pointer -> gc unit) (L : pointer).

Lemma sweep_step_spec g : sweep_phase L g -> small g -> gcstate g = GCSsweepstring \/ gcstate g = GCSsweep ->
  wp (singlestep gafqD_call L) (fun _ g' => swept_to L g g') g.
Proof.
  intros Sp Sm [G|G]; unfold singlestep; wp_step; wp_step; unfold id; rewrite G;
    cbn [Z.eqb Pos.eqb GCSpause GCSpropagate GCSsweepstring GCSsweep].
  - by apply (sweep_string_spec L).
  - by apply (sweep_root_step_spec L).
Qed.

Lemma sweep_until n : forall g, sweep_phase L g -> small g -> gcstate g = GCSsweepstring \/ gcstate g = GCSsweep ->
  (smeasure g < n)%nat ->
  wp (until_state gafqD_call (S n) GCSfinalize L) (fun _ g' => gcstate g' = GCSfinalize /\ idle_phase L g' /\ kept g g') g.
Proof.
  induction n as [|n IH]; intros g Sp Sm G Hn; [lia|]. cbn [until_state]. wp_step. wp_step.
  destruct (Z.eqb_spec (gcstate g) GCSfinalize) as [E|_]; [by destruct G as [G|G]; rewrite G in E|].
  wp_step. eapply wp_mono; [by apply sweep_step_spec|]. intros c g1 (Sm1 & K1 & H). cbv beta.
  destruct H as [[G1 I1]|(G1 & S1 & M1)].
  - cbn [until_state]. wp_step. wp_step. rewrite G1. simpl. wp_step. auto.
  - eapply wp_mono; [apply IH; [done|done|done|lia]|]. intros [] g2 (G2 & I2 & K2). split_and!; [done|done|].
    eapply kept_trans; [apply Sp|apply S1|done|done].
Qed.

(** ** A collection from any point to the end of its sweep *)

Definition ends (g : GState) : Prop :=
  exists n g', until_state gafqD_call n GCSfinalize L g = Ok (tt, g') /\ gcstate g' = GCSfinalize /\ phase L g' /\ small g'.

Lemma ends_step g : gcstate g <> GCSfinalize ->
  wp (singlestep gafqD_call L) (fun _ g' => ends g') g -> ends g.
Proof.
  intros G H. apply wp_ok in H as (c & g1 & E & n & g' & E' & H). exists (S n), g'. split; [|done].
  cbn [until_state]. unfold mbind, stres_bind, gets. destruct (Z.eqb_spec (gcstate g) GCSfinalize); [done|].
  by rewrite E.
Qed.

Lemma sweep_ends g : sweep_phase L g -> small g -> gcstate g = GCSsweepstring \/ gcstate g = GCSsweep -> ends g.
Proof.
  remember (smeasure g) as n eqn:En. revert g En. induction (lt_wf n) as [n _ IH]. intros g -> Sp Sm G.
  apply ends_step; [destruct G as [G|G]; by rewrite G|]. eapply wp_mono; [by apply sweep_step_spec|].
  intros c g1 (Sm1 & K1 & [[G1 I1]|(G1 & S1 & M1)]).
  - exists 1%nat, g1. split_and!; [|done|by apply ph_finalize|done].
    cbn [until_state]. unfold mbind, stres_bind, gets. by rewrite G1.
  - by eapply IH.
Qed.

Lemma propagate_ends g : phase L g -> small g -> gcstate g = GCSpropagate -> ends g.
Proof.
  remember (size (todo_set g)) as n eqn:En. revert g En. induction (lt_wf n) as [n _ IH]. intros g -> P Sm G.
  apply ends_step; [by rewrite G|]. unfold singlestep. wp_step. wp_step. unfold id. rewrite G. cbn -[atomic propagatemark].
  destruct (gray g) as [|o rest] eqn:Gr.
  - wp_step. eapply wp_mono; [by apply atomic_step_spec|]. intros [] g1 (P1 & Sm1 & G1 & _). cbv beta. wp_step.
    destruct P1 as [G2 _|G2 _ _|_ S1|G2 _|G2 _]; try (rewrite G1 in G2; discriminate G2). by apply sweep_ends; [| |left].
  - eapply wp_mono; [by apply (propagate_step_spec L); [..|rewrite Gr]|]. intros c g1 (P1 & Sm1 & G1 & Td & _).
    by eapply IH.
Qed.

Lemma phase_ends g : phase L g -> small g -> ends g.
Proof.
  intros P Sm. pose proof P as P0. destruct P as [G I|G M T|G Sp|G Sp|G I].
  - apply ends_step; [by rewrite G|]. unfold singlestep. wp_step. wp_step. unfold id. rewrite G. simpl. wp_step.
    eapply wp_mono; [by apply (markroot_spec L)|]. intros [] g1 (M1 & G1 & T1 & Hs & _). cbv beta. wp_step.
    apply propagate_ends; [by apply ph_propagate|unfold small in *; by rewrite Hs|done].
  - by apply propagate_ends.
  - by apply sweep_ends; [| |left].
  - by apply sweep_ends; [| |right].
  - exists 1%nat, g. split_and!; [|done|done|done]. cbn [until_state]. unfold mbind, stres_bind, gets. by rewrite G.
Qed.

End Sweep.

Lemma idle_not_dead L g p o : idle_phase L g -> heap g !! p = Some o -> dead g (marked o) = false.
Proof. intros I E. unfold dead. by rewrite (idle_fresh L g p o I E). Qed.

Lemma kept_cases L g g' p o : white_ok g -> kept g g' -> idle_phase L g' -> heap g !! p = Some o ->
  (dead g (marked o) = true <-> heap g' !! p = None).
Proof.
  intros W K I E. pose proof (kp_heap _ _ K p) as H. rewrite E in H. destruct (heap g' !! p) as [o'|] eqn:E'; [|done].
  destruct H as [M _]. split; [|done]. intros D. exfalso. pose proof (idle_not_dead L g' p o' I E') as D'.
  rewrite (dead_same g), (sw_mark_dead g (marked o)) in D' by (done || apply K). congruence.
Qed.

(** ** A concrete state at the start of its sweep *)

Definition no_call (L : pointer) : gc unit := mret tt.

(** the same state at the start of the sweep *)
Definition sample_sweep : GState :=
  match until_state no_call 20 GCSsweepstring 1 sample with Ok (_, g) => g | Err _ => sample end.

Lemma mark_until L n : forall g g', phase L g -> small g -> gcstate g < GCSsweep ->
  until_state no_call n GCSsweepstring L g = Ok (tt, g') -> phase L g' /\ small g' /\ gcstate g' = GCSsweepstring.
Proof.
  induction n as [|n IH]; intros g g' P Sm G E; [discriminate|]. cbn [until_state] in E.
  unfold mbind, stres_bind, gets in E. destruct (Z.eqb_spec (gcstate g) GCSsweepstring) as [Eg|Ng].
  { unfold mret, stres_ret in E. by injection E as <-. }
  assert (wp (singlestep no_call L) (fun _ g1 => phase L g1 /\ small g1 /\ gcstate g1 < GCSsweep) g) as H.
  { unfold singlestep. wp_step. wp_step. unfold id. pose proof P as P0. destruct P as [G1 I|G1 M T|G1 _|G1 _|G1 _]; try (by rewrite G1 in *).
    - rewrite G1. simpl. wp_step. eapply wp_mono; [by apply (markroot_spec L)|]. intros [] g1 (M1 & G2 & T1 & Hs & _). cbv beta. wp_step.
      split_and!; [by apply ph_propagate|unfold small in *; by rewrite Hs|by rewrite G2].
    - rewrite G1. cbn -[atomic propagatemark]. destruct (gray g) as [|o rest] eqn:Gr.
      + wp_step. eapply wp_mono; [by apply atomic_step_spec|]. intros [] g1 (P1 & Sm1 & G2 & _). cbv beta. wp_step. by rewrite G2.
      + eapply wp_mono; [by apply (propagate_step_spec L); [..|rewrite Gr]|]. intros c g1 (P1 & Sm1 & G2 & _). by rewrite G2. }
  apply wp_ok in H as (c & g1 & E1 & P1 & Sm1 & G1). rewrite E1 in E. by eapply IH.
Qed.

Lemma sample_sweep_phase : sweep_phase 1 sample_sweep /\ small sample_sweep /\ gcstate sample_sweep = GCSsweepstring.
Proof.
  assert (exists g, until_state no_call 20 GCSsweepstring 1 sample = Ok (tt, g)) as [g E].
  { eexists. vm_compute. reflexivity. }
  unfold sample_sweep. rewrite E. destruct (mark_until 1 20 sample g sample_phase sample_small ltac:(by vm_compute) E) as (P & Sm & G).
  split_and!; [|done|done]. by destruct P as [G2 _|G2 _ _|_ S1|G2 _|G2 _]; try (rewrite G in G2; discriminate G2).
Qed.

Lemma gafqC_link_white p size b g g' : gafqC_link p size b g = Ok (tt, g') -> currentwhite g' = currentwhite g.
Proof.
  unfold gafqC_link, mbind, stres_bind, gets, alloc, modify. destruct (heap _ !! p); [done|]. destruct (p =? UVHEAD); [done|].
  by intros [= <-].
Qed.

(** ** The main theorems *)

(** C2: from any state that satisfies the invariant of its phase, a step of the collector ends without an
    error, in a state that satisfies the invariant of its phase; no object that the program can reach is freed
    by it (the finalizer called in the last phase excepted, which is arbitrary code), and every object that can be
    reached afterwards is allocated and has the type of the reference to it. *)
Theorem collector_step_safe gafqD_call L g :
  (forall g, phase L g -> small g -> wp (gafqD_call L) (fun _ g' => phase L g' /\ small g') g) ->
  phase L g -> small g -> (gcstate g = GCSfinalize -> room L g) ->
  exists c g', singlestep gafqD_call L g = Ok (c, g') /\ phase L g' /\ small g' /\
    (gcstate g <> GCSfinalize -> forall r, reach L g r -> typed g' r) /\
    (forall r, reach L g' r -> typed g' r).
Proof.
  intros Hc P Sm Rm. pose proof (singlestep_spec gafqD_call L Hc g P Sm Rm) as H.
  apply wp_ok in H as (c & g' & E & P' & Sm' & Ty). exists c, g'. split_and!; try done.
  - intros G r Hr. by apply Ty, (reach_safe L).
  - intros r Hr. by apply (reach_safe L g' r P').
Qed.

Lemma collector_step_safe_witness : exists c g', singlestep no_call 1 sample = Ok (c, g') /\ phase 1 g'.
Proof.
  destruct (collector_step_safe no_call 1 sample) as (c & g' & E & P & _).
  - intros g P Sm. exact (conj P Sm).
  - exact sample_phase.
  - exact sample_small.
  - intros G. exfalso. revert G. by vm_compute.
  - exists c, g'. exact (conj E P).
Defined.

(** C22: from the start of a sweep, or from any point of it, the steps of the collector reach the end of the sweep;
    there the objects that were dead have been freed, and only they, and the others keep their contents but for the
    open upvalues of dead threads, which are closed with the values of their slots. *)
Theorem sweep_frees_dead gafqD_call L g :
  sweep_phase L g -> small g -> gcstate g = GCSsweepstring \/ gcstate g = GCSsweep ->
  exists g', until_state gafqD_call (S (S (smeasure g))) GCSfinalize L g = Ok (tt, g') /\
    gcstate g' = GCSfinalize /\ idle_phase L g' /\
    forall p o, heap g !! p = Some o ->
      (dead g (marked o) = true <-> heap g' !! p = None) /\
      (forall o', heap g' !! p = Some o' -> sw_body g (body o) (body o')).
Proof.
  intros Sp Sm G. pose proof (sweep_until gafqD_call L (S (smeasure g)) g Sp Sm G ltac:(lia)) as H.
  apply wp_ok in H as ([] & g' & E & G' & I' & K). exists g'. split_and!; try done. intros p o Ep. split.
  - eapply kept_cases; [apply Sp|done|done|done].
  - intros o' Ep'. pose proof (kp_heap _ _ K p) as H. rewrite Ep, Ep' in H. apply H.
Qed.

(** the string at address 100 is freed *)
Lemma sweep_frees_dead_witness : exists n g', until_state no_call n GCSfinalize 1 sample_sweep = Ok (tt, g') /\ heap g' !! 100 = None.
Proof.
  destruct sample_sweep_phase as (Sp & Sm & G).
  destruct (sweep_frees_dead no_call 1 sample_sweep Sp Sm (or_introl G)) as (g' & E & _ & _ & H).
  eexists _, g'. split; [exact E|].
  assert (exists o, heap sample_sweep !! 100 = Some o /\ dead sample_sweep (marked o) = true) as (o & Ho & D).
  { eexists. split; [vm_compute; reflexivity|by vm_compute]. }
  exact (proj1 (proj1 (H 100 o Ho)) D).
Defined.

(** C23: a collection that has begun comes to its end: from any state that satisfies the invariant of its phase, and
    with no call of a finalizer, finitely many steps lead to the phase that calls the finalizers, where every object
    left is white or waits for its finalizer. *)
Theorem collection_ends gafqD_call L g : phase L g -> small g ->
  exists n g', until_state gafqD_call n GCSfinalize L g = Ok (tt, g') /\ gcstate g' = GCSfinalize /\ phase L g' /\
    forall p o, heap g' !! p = Some o -> p ∈ tmudata g' \/ iswhite (marked o) = true /\ dead g' (marked o) = false.
Proof.
  intros P Sm. destruct (phase_ends gafqD_call L g P Sm) as (n & g' & E & G & P' & _). exists n, g'. split_and!; [done|done|done|].
  intros p o Ep. destruct P' as [G2 _|G2 _ _|G2 _|G2 _|_ I]; try (rewrite G in G2; discriminate G2).
  destruct (ip_white _ _ I p o Ep) as [?|[[W _]|Lf]]; [by left|right; split; [done|by eapply idle_not_dead]|].
  exfalso. unfold left in Lf. destruct (body o) as [| | | | | |[]|]; try (by apply elem_of_nil in Lf).
  destruct Lf as [Lf|Lf]; by apply elem_of_nil in Lf.
Qed.

Lemma collection_ends_witness : exists n g', until_state no_call n GCSfinalize 1 sample = Ok (tt, g') /\ gcstate g' = GCSfinalize.
Proof. destruct (collection_ends no_call 1 sample sample_phase sample_small) as (n & g' & E & G & _). exists n, g'. exact (conj E G). Defined.

(** ** Allocation *)

(** C37: with an allocator that returns unused blocks, [gafq_newstate] raises no error; in the new state the collector
    is paused and its invariant holds, so that no object a reference leads to is missing or of another type, and the
    names of the metamethods are strings of the state, in the order of their events. *)
Theorem newstate_ready fresh L : (forall g, heap g !! fresh g = None /\ fresh g <> UVHEAD) -> L <> UVHEAD ->
  exists g, gafq_newstate fresh L = Ok g /\ phase L g /\ (forall r, reach L g r -> typed g r) /\
    Forall2 (fun p s => string_at g p (str s)) (tmname g) gafqT_eventname.
Proof.
  intros Hf HL. destruct (newstate_spec fresh Hf L HL) as (g & E & P & T). exists g. split_and!; try done.
  intros r Hr. by apply (reach_safe L g r P).
Qed.

Lemma newstate_ready_witness : exists g, gafq_newstate next_free 1 = Ok g /\ phase 1 g.
Proof.
  destruct (newstate_ready next_free 1 next_free_ok ltac:(done)) as (g & E & P & _). exists g. exact (conj E P).
Defined.

(** C38: in every phase of the collector, [gafqS_newlstr] returns a string with the given contents that is not dead,
    even where the string it finds was waiting for the sweep; the strings there were keep their contents, and the
    invariant of the phase is kept. *)
Theorem interning_safe L g ts s :
  phase L g -> heap g !! ts = None -> ts <> UVHEAD -> zlen s + 1 <= MAX_SIZET - sizeof_TString ->
  exists p g', HeapString.gafqS_newlstr ts s g = Ok (p, g') /\ phase L g' /\ safe_ref g' (p, GAFQ_TSTRING) /\
    string_at g' p s /\ forall q x, string_at g q x -> string_at g' q x.
Proof.
  intros P N H Hs. pose proof (internstr_phase L g ts s P N H Hs) as K.
  apply wp_ok in K as (p & g' & E & P' & Sf & St & Kp & _). by exists p, g'.
Qed.

(** the dead string of [sample_sweep] is taken back *)
Lemma interning_safe_witness : exists g', HeapString.gafqS_newlstr 300 (str "abc") sample_sweep = Ok (100, g') /\
  safe_ref g' (100, GAFQ_TSTRING).
Proof.
  destruct sample_sweep_phase as (Sp & Sm & G).
  destruct (interning_safe 1 sample_sweep 300 (str "abc") (ph_sweepstring _ _ G Sp)) as (p & g' & E & _ & H & _);
    [by vm_compute|done|by vm_compute|].
  assert (exists g2, HeapString.gafqS_newlstr 300 (str "abc") sample_sweep = Ok (100, g2)) as [g2 E2].
  { eexists. vm_compute. reflexivity. }
  rewrite E in E2. injection E2 as -> ->. exists g2. exact (conj E H).
Defined.

(** a new object whose references are valid may be linked in any phase of the collector: it is not dead, and the
    invariant of the phase is kept, in the middle of a sweep too, where the chain of objects is cut in two. *)
Theorem link_safe L g p size b :
  phase L g -> heap g !! p = None -> p <> UVHEAD -> ~ is_open b -> ~ is_string b ->
  (forall t, b = BThread t -> openupval t = []) -> body_ok g b -> Forall (safe_ref g) (body_refs g b) ->
  exists g', gafqC_link p size b g = Ok (tt, g') /\ phase L g' /\ safe_ref g' (p, body_tt b).
Proof.
  intros P N Hp No Ns Nt Ok Rf. pose proof (link_phase L g p size b P N Hp No Ns Nt Ok Rf) as K.
  apply wp_ok in K as ([] & g' & E & P' & [_ A] & _). exists g'. split_and!; [done|done|].
  pose proof P as [B _]%phase_split. destruct (white_marks g (b_white _ _ B)) as (_ & _ & D & _).
  assert (heap g' !! p = Some (mkObj (gafqC_white g) b)) as Ep by (rewrite A; apply lookup_insert_eq).
  assert (currentwhite g' = currentwhite g) as Ec by (by eapply gafqC_link_white).
  split; (eexists; split; [exact Ep|]); [done|]. cbn [marked]. rewrite (dead_same g) by done. unfold dead. by rewrite D.
Qed.

Lemma link_safe_witness : exists g', gafqC_link 300 64 (BTable two_nodes) sample_sweep = Ok (tt, g') /\ phase 1 g'.
Proof.
  destruct sample_sweep_phase as (Sp & Sm & G).
  destruct (link_safe 1 sample_sweep 300 64 (BTable two_nodes) (ph_sweepstring _ _ G Sp)) as (g' & E & P & _);
    [by vm_compute|done|by intros []|by intros []|done|done|constructor|]. exists g'. exact (conj E P).
Defined.
