(* ===== verification/FuncProofs.v ===== *)
(** * Upvalues in every phase of the collector

    [gafqF_findupval] gives the closures that refer to one slot of a stack one
    upvalue; [gafqF_close] moves the values of the slots into their upvalues.
    Both keep the invariant of the phase the collector is in. *)

From Stdlib Require Import Sorted.
From stdpp Require Import gmap sets.
From S2P Require Import Prelude Number Object Table Proto Heap Tm Gc Func GcSweep State GcLogic GcInv GcMark GcTraverse GcPropagate GcLinks GcAtomic GcPhase GcLists GcSwept GcFree GcSweepLoop GcStep GcFinalize GcAlloc StateProofs.

(** ** The walk along the open upvalues *)

Lemma StronglySorted_lookup {A} (R : A -> A -> Prop) l i j x y : StronglySorted R l -> l !! i = Some x -> l !! j = Some y -> (i < j)%nat -> R x y.
Proof.
  intros So. revert i j. induction So as [|z l _ IH F]; intros [|i] [|j] Hi Hj Hij; simpl in *; try done; try lia.
  - injection Hi as <-. rewrite Forall_forall in F. apply F. by eapply list_elem_of_lookup_2.
  - eapply IH; eauto. lia.
Qed.


Definition open_of (g : GState) (th p : pointer) (lv : Z) : Prop :=
  exists m pr nx, heap g !! p = Some (mkObj m (BUpVal (UOpen th lv pr nx))).

Lemma open_of_level g th p lv : open_of g th p lv -> uv_level g p = lv.
Proof. intros (m & pr & nx & E). unfold uv_level. by rewrite E. Qed.

Lemma find_open_spec g th level l : forall pre,
  (forall p, p ∈ l -> exists lv, open_of g th p lv) ->
  StronglySorted (fun p q => uv_level g q < uv_level g p) l ->
  Forall (fun p => level < uv_level g p) pre ->
  wp (find_open level pre l) (fun r g' => g' = g /\ match r with
      | inl p => p ∈ l /\ open_of g th p level
      | inr (a, b) => a ++ b = pre ++ l /\ Forall (fun p => level < uv_level g p) a /\ Forall (fun p => uv_level g p < level) b
      end) g.
Proof.
  induction l as [|p l IH]; intros pre Ho So Hp; simpl.
  { wp_step. split_and!; [done|done|done|constructor]. }
  destruct (Ho p) as (lv & O); [constructor|]. pose proof (open_of_level _ _ _ _ O) as Lv. pose proof O as (m & pr & nx & E).
  apply StronglySorted_inv in So as [So Fl]. wp_step. eapply wp_gco2uv; [done|]. cbv beta iota.
  destruct (Z.leb_spec level lv); [destruct (Z.eqb_spec lv level) as [->|]|].
  - wp_step. split; [done|]. split; [constructor|done].
  - eapply wp_mono; [apply (IH (pre ++ [p]))|].
    + intros q Hq. apply Ho. by constructor.
    + done.
    + apply Forall_app. split; [done|]. constructor; [lia|constructor].
    + intros [q|[a b]] g' [-> H']; (split; [done|]).
      * destruct H'. split; [by constructor|done].
      * by rewrite <- app_assoc in H'.
  - wp_step. split_and!; [done|done|done|]. constructor; [lia|]. eapply Forall_impl; [exact Fl|]. intros q Hq. cbv beta in *. lia.
Qed.

(** ** A new open upvalue *)

Lemma sorted_levels g g' l : (forall x, x ∈ l -> uv_level g' x = uv_level g x) ->
  StronglySorted (fun p q => uv_level g q < uv_level g p) l -> StronglySorted (fun p q => uv_level g' q < uv_level g' p) l.
Proof.
  intros Lv So. induction So as [|y l S IH F]; constructor.
  - apply IH. intros z Hz. apply Lv. by constructor.
  - rewrite Forall_forall in *. intros z Hz. rewrite !Lv by (by constructor). by apply F.
Qed.


(** [g1] is [g] with the object [p]; in [g'] it is also in the lists *)
Record opens (g g1 g' : GState) (p th : pointer) (a b : list pointer) : Prop := {
  op_new : heap g !! p = None /\ p <> UVHEAD;
  op_mark : exists m, heap g1 = <[p := mkObj m (BUpVal (UOpen th (uv_level g1 p) UVHEAD (uvnext g)))]> (heap g) /\
    Z.testbit m FIXEDBIT = false;
  op_thread : exists m t, heap g !! th = Some (mkObj m (BThread t)) /\ openupval t = a ++ b /\
    heap g' !! th = Some (mkObj m (BThread (set_openupval t (a ++ p :: b))));
  op_others q : q <> th -> relinked (heap g1 !! q) (heap g' !! q);
  op_levels : Forall (fun q => uv_level g1 p < uv_level g q) a /\ Forall (fun q => uv_level g q < uv_level g1 p) b;
  op_list : exists l, NoDup l /\ (forall q, q ∈ l <-> exists o, heap g !! q = Some o /\ is_open (body o)) /\ uvlist g' (p :: l);
  op_chains : rootgc g' = rootgc g /\ strt g' = strt g /\ tmudata g' = tmudata g /\ mainthread g' = mainthread g
}.

Section Opens.
Context (g g1 g' : GState) (p th : pointer) (a b : list pointer).
Hypothesis P : opens g g1 g' p th a b.
Hypothesis Ln : linked g.

Lemma opens_new_at : exists m pr nx, heap g' !! p = Some (mkObj m (BUpVal (UOpen th (uv_level g1 p) pr nx))) /\
  Z.testbit m FIXEDBIT = false.
Proof.
  destruct (op_mark _ _ _ _ _ _ _ P) as (m & H1 & F), (op_thread _ _ _ _ _ _ _ P) as (mt & t & Et & _), (op_new _ _ _ _ _ _ _ P) as [N _].
  assert (p <> th) as Hne by congruence. pose proof (op_others _ _ _ _ _ _ _ P p Hne) as R.
  rewrite H1, lookup_insert_eq in R. destruct (relinked_open _ _ _ _ _ _ R) as (pr & nx & E). exists m, pr, nx. by split.
Qed.

Lemma opens_fwd q o : heap g !! q = Some o -> exists o', heap g' !! q = Some o' /\ marked o' = marked o /\
  body_tt (body o') = body_tt (body o) /\ (is_open (body o') <-> is_open (body o)) /\ (~ is_open (body o) -> q <> th -> o' = o).
Proof.
  intros E. destruct (op_mark _ _ _ _ _ _ _ P) as (m & H1 & F), (op_thread _ _ _ _ _ _ _ P) as (mt & t & Et & _ & Et'), (op_new _ _ _ _ _ _ _ P) as [N _].
  destruct (decide (q = th)) as [->|Hq].
  - rewrite Et in E. injection E as <-. eexists. by split_and!; [exact Et'|..].
  - pose proof (op_others _ _ _ _ _ _ _ P q Hq) as R. rewrite H1, lookup_insert_ne, E in R by congruence.
    pose proof R as R0. apply relinked_some_l in R as (o' & E' & M & T & O). exists o'. split_and!; [done|done|done|tauto|].
    intros No _. destruct o as [mo bo]. rewrite E' in R0. apply relinked_same in R0; [by injection R0|done].
Qed.

Lemma opens_bwd q o' : heap g' !! q = Some o' -> q = p \/ exists o, heap g !! q = Some o.
Proof.
  intros E. destruct (op_mark _ _ _ _ _ _ _ P) as (m & H1 & F), (op_thread _ _ _ _ _ _ _ P) as (mt & t & Et & _ & Et').
  destruct (decide (q = p)) as [|Hp]; [by left|right]. destruct (decide (q = th)) as [->|Hq]; [eauto|].
  pose proof (op_others _ _ _ _ _ _ _ P q Hq) as R. rewrite H1, lookup_insert_ne, E in R by done.
  apply relinked_some_r in R as (o & E' & _). eauto.
Qed.

Lemma opens_open_fwd q m th' lv pr nx : heap g !! q = Some (mkObj m (BUpVal (UOpen th' lv pr nx))) ->
  exists pr' nx', heap g' !! q = Some (mkObj m (BUpVal (UOpen th' lv pr' nx'))).
Proof.
  intros E. destruct (op_mark _ _ _ _ _ _ _ P) as (mp & H1 & F), (op_thread _ _ _ _ _ _ _ P) as (mt & t & Et & _ & Et'), (op_new _ _ _ _ _ _ _ P) as [N _].
  assert (q <> th) as Hq by congruence. pose proof (op_others _ _ _ _ _ _ _ P q Hq) as R.
  rewrite H1, lookup_insert_ne, E in R by congruence. by eapply relinked_open.
Qed.

Lemma opens_level q lv : open_of g th q lv -> uv_level g' q = uv_level g q.
Proof.
  intros (m & pr & nx & E). destruct (opens_open_fwd _ _ _ _ _ _ E) as (pr' & nx' & E'). unfold uv_level. by rewrite E, E'.
Qed.

Lemma opens_threads q t' : is_thread g' q t' -> is_thread g q t' /\ q <> th \/
  q = th /\ exists t, is_thread g th t /\ openupval t = a ++ b /\ openupval t' = a ++ p :: b.
Proof.
  intros [m E]. destruct (op_thread _ _ _ _ _ _ _ P) as (mt & t & Et & Eo & Et'). destruct (decide (q = th)) as [->|Hq].
  - right. split; [done|]. rewrite Et' in E. injection E as _ <-. exists t. split_and!; [by exists mt|done|done].
  - left. split; [|done]. destruct (op_mark _ _ _ _ _ _ _ P) as (mp & H1 & F). pose proof (op_others _ _ _ _ _ _ _ P q Hq) as R.
    rewrite E, relinked_thread, H1 in R. apply lookup_insert_Some in R as [[_ R]|[_ R]]; [discriminate R|by exists m].
Qed.

Lemma opens_same q o : heap g !! q = Some o -> ~ is_open (body o) -> body_tt (body o) <> GAFQ_TTHREAD -> heap g' !! q = Some o.
Proof.
  intros E No Nt. destruct (opens_fwd q o E) as (o' & E' & _ & _ & _ & H). rewrite <- H; [done|done|].
  intros ->. destruct (op_thread _ _ _ _ _ _ _ P) as (mt & t & Et & _). rewrite E in Et. injection Et as ->. by apply Nt.
Qed.

Lemma opens_udata q : is_udata g q -> is_udata g' q.
Proof. intros (m & u & E). exists m, u. apply opens_same; [done|by intros []|done]. Qed.

Lemma opens_chain q o' : heap g' !! q = Some o' -> in_chain g' q (body o').
Proof.
  intros E. destruct (op_thread _ _ _ _ _ _ _ P) as (mt & t & Et & Eo & Et'). destruct opens_new_at as (m & pr & nx & Ep & _).
  destruct (op_chains _ _ _ _ _ _ _ P) as (C1 & C2 & C3 & _). destruct (decide (q = p)) as [->|Hp].
  { rewrite Ep in E. injection E as <-. exists (set_openupval t (a ++ p :: b)). split; [by exists mt|]. simpl. set_solver. }
  destruct (opens_bwd q o' E) as [|[o Eq]]; [done|]. pose proof (ln_all _ Ln q o Eq) as K.
  destruct (opens_fwd q o Eq) as (o2 & E2 & M & T & O & Hs). rewrite E in E2. injection E2 as <-.
  destruct (body o) as [| | | | | |[th' lv pr' nx'|]|] eqn:B; destruct (body o') as [| | | | | |[th'' lv' pr'' nx''|]|] eqn:B';
    try discriminate T; try (exfalso; destruct O as [O1 O2]; (exact (O1 I) || exact (O2 I))); unfold in_chain in *; rewrite ?C1, ?C2, ?C3; try done.
  destruct o as [mq bq]. simpl in B. subst bq. destruct (opens_open_fwd _ _ _ _ _ _ Eq) as (pr3 & nx3 & E3). rewrite E in E3. injection E3 as ->.
  simpl in B'. injection B' as <- <- <- <-. destruct K as (t0 & [m0 Et0] & Hq). destruct (decide (th' = th)) as [->|Hth].
  - rewrite Et in Et0. injection Et0 as <- <-. exists (set_openupval t (a ++ p :: b)). split; [by exists mt|]. simpl. rewrite Eo in Hq. set_solver.
  - exists t0. split; [|done]. exists m0. destruct (opens_fwd _ _ Et0) as (o3 & E3 & _ & _ & _ & H3). rewrite <- H3; [done|by intros []|done].
Qed.

Lemma opens_sorted : StronglySorted (fun x y => uv_level g' y < uv_level g' x) (a ++ p :: b).
Proof.
  destruct (op_thread _ _ _ _ _ _ _ P) as (mt & t & Et & Eo & Et'). destruct opens_new_at as (m & pr & nx & Ep & _).
  pose proof (ln_sorted _ Ln th t ltac:(by exists mt)) as So. destruct (ln_open _ Ln th t ltac:(by exists mt)) as [_ Ho].
  assert (uv_level g' p = uv_level g1 p) as Lp by (unfold uv_level at 1; by rewrite Ep).
  assert (forall q, q ∈ a ++ b -> uv_level g' q = uv_level g q) as Lv.
  { intros q Hq. rewrite <- Eo in Hq. destruct (Ho q Hq) as (mq & lv & pq & nq & Eq). apply (opens_level q lv). by exists mq, pq, nq. }
  destruct (op_levels _ _ _ _ _ _ _ P) as [La Lb]. rewrite Eo in So. clear -So Lp Lv La Lb.
  induction a as [|x a' IH]; simpl in *.
  - constructor.
    + by apply (sorted_levels g g').
    + rewrite Forall_forall in Lb |- *. intros y Hy. rewrite Lp, Lv by done. by apply Lb.
  - apply StronglySorted_inv in So as [So F]. inversion La; subst. constructor.
    + apply IH; [done| |done]. intros q Hq. apply Lv. by constructor.
    + rewrite Forall_app, Forall_cons in *. destruct F as [F1 F2]. rewrite (Lv x) by constructor. split_and!.
      * rewrite Forall_forall in F1 |- *. intros y Hy. rewrite Lv by set_solver. by apply F1.
      * by rewrite Lp.
      * rewrite Forall_forall in F2 |- *. intros y Hy. rewrite Lv by set_solver. by apply F2.
Qed.

Lemma linked_opens : linked g'.
Proof.
  destruct (op_thread _ _ _ _ _ _ _ P) as (mt & t & Et & Eo & Et'). destruct opens_new_at as (m & pr & nx & Ep & Ef).
  destruct (op_chains _ _ _ _ _ _ _ P) as (C1 & C2 & C3 & C4), (op_new _ _ _ _ _ _ _ P) as [Np Hp].
  assert (forall th' q m' lv pr nx, heap g !! q = Some (mkObj m' (BUpVal (UOpen th' lv pr nx))) ->
    exists m lv pr nx, heap g' !! q = Some (mkObj m (BUpVal (UOpen th' lv pr nx)))) as Fw.
  { intros th' q m' lv pr' nx' E. destruct (opens_open_fwd _ _ _ _ _ _ E) as (? & ? & ?). eauto. }
  split.
  - destruct (heap g' !! UVHEAD) as [o|] eqn:E; [|done]. destruct (opens_bwd _ _ E) as [|[o' E']]; [congruence|].
    by rewrite (ln_head _ Ln) in E'.
  - rewrite C1, C2, C3. apply Ln.
  - apply opens_chain.
  - intros q Hq. rewrite C1 in Hq. destruct (ln_root _ Ln q Hq) as (o & E & Ts & No).
    destruct (opens_fwd q o E) as (o' & E' & _ & T & O & _). exists o'. rewrite T, O. auto.
  - intros q Hq. rewrite C2 in Hq. destruct (ln_strt _ Ln q Hq) as (ms & ts & E). exists ms, ts. apply opens_same; [done|by intros []|done].
  - intros q Hq. rewrite C3 in Hq. by apply opens_udata, (ln_tmu _ Ln).
  - intros q t' [[Tq _]|(-> & t0 & T0 & Eo0 & ->)]%opens_threads.
    + destruct (ln_open _ Ln q t' Tq) as [N H]. split; [done|]. intros x Hx. destruct (H x Hx) as (? & ? & ? & ? & E). by eapply Fw.
    + destruct (ln_open _ Ln th t0 T0) as [N H]. rewrite Eo0 in N, H. split.
      * rewrite <- Permutation_middle. apply NoDup_cons. split; [|done]. intros Hx. destruct (H p Hx) as (? & ? & ? & ? & E). congruence.
      * intros x Hx. destruct (decide (x = p)) as [->|Hxp]; [eauto|]. destruct (H x) as (? & ? & ? & ? & E); [set_solver|by eapply Fw].
  - intros q t' [[Tq _]|(-> & t0 & T0 & Eo0 & ->)]%opens_threads; [|apply opens_sorted].
    destruct (ln_open _ Ln q t' Tq) as [_ H]. pose proof (ln_sorted _ Ln q t' Tq) as So.
    assert (forall x, x ∈ openupval t' -> uv_level g' x = uv_level g x) as Lv.
    { intros x Hx. destruct (H x Hx) as (? & ? & ? & ? & E). destruct (opens_open_fwd _ _ _ _ _ _ E) as (? & ? & E').
      unfold uv_level. by rewrite E, E'. }
    by apply (sorted_levels g g').
  - rewrite C1, C4. destruct (ln_main _ Ln) as (pre & us & E & U). exists pre, us. split; [done|].
    eapply Forall_impl; [exact U|]. apply opens_udata.
  - destruct (op_list _ _ _ _ _ _ _ P) as (l & Nl & Hl & Ul). exists (p :: l). split_and!.
    + done.
    + apply NoDup_cons. split; [|done]. intros (o & E & _)%Hl. congruence.
    + intros q. rewrite elem_of_cons, Hl. split.
      * intros [->|(o & E & Ho)]; [by eexists; split; [exact Ep|]|]. destruct (opens_fwd q o E) as (o' & E' & _ & _ & O & _). exists o'. tauto.
      * intros (o' & E' & Ho). destruct (opens_bwd q o' E') as [|[o E]]; [by left|right]. exists o. split; [done|].
        destruct (opens_fwd q o E) as (o2 & E2 & _ & _ & O & _). rewrite E' in E2. injection E2 as <-. tauto.
  - intros q o' E' Hf. destruct (opens_bwd q o' E') as [->|[o E]]; [rewrite Ep in E'; injection E' as <-; cbn [marked] in Hf; congruence|].
    destruct (opens_fwd q o E) as (o2 & E2 & M & T & _). rewrite E' in E2. injection E2 as <-. rewrite C4, T. rewrite M in Hf. by apply (ln_fixed _ Ln).
Qed.

End Opens.

(** ** Changes of the lists only *)

(** the marks and the references stay; the upvalues in [X] are closed with the
    values of their slots *)
Definition relisted (b b' : Body) : Prop :=
  match b, b' with
  | BThread t, BThread t' => t' = set_openupval t (openupval t')
  | BUpVal (UOpen th lv _ _), BUpVal (UOpen th' lv' _ _) => th' = th /\ lv' = lv
  | _, _ => b' = b
  end.

Record uvsame (X : pointer -> Prop) (g g' : GState) : Prop := {
  vs_fields : (currentwhite g', gcstate g', sweepstrgc g', sweepgc g', tmudata g', (l_registry g', mainthread g', mt g', tmname g', strt g')) =
              (currentwhite g, gcstate g, sweepstrgc g, sweepgc g, tmudata g, (l_registry g, mainthread g, mt g, tmname g, strt g));
  vs_lists : (gray g', grayagain g', weak g') = (gray g, grayagain g, weak g);
  vs_heap q : match heap g !! q, heap g' !! q with
              | Some o, Some o' => marked o' = marked o /\ (relisted (body o) (body o') \/
                  X q /\ exists th lv pr nx, body o = BUpVal (UOpen th lv pr nx) /\ body o' = BUpVal (UClosed (slot_of g th lv)))
              | None, None => True
              | _, _ => False
              end
}.

Lemma relisted_refl b : relisted b b.
Proof. destruct b as [| | | | | |[]|th]; simpl; auto. by destruct th. Qed.

Lemma relisted_sw g b b' : relisted b b' -> sw_body g b b'.
Proof. by destruct b as [| | | | | |[]|], b' as [| | | | | |[]|]; simpl. Qed.

Lemma relinked_relisted o o' : relinked (Some o) (Some o') -> marked o' = marked o /\ relisted (body o) (body o').
Proof.
  intros [[= ->]|(m & th & lv & pr & nx & pr' & nx' & [= ->] & [= ->])]; [split; [done|apply relisted_refl]|done].
Qed.

Section Uvsame.
Context (X : pointer -> Prop) (g g' : GState).
Hypothesis V : uvsame X g g'.

Lemma uvsame_fwd q o : heap g !! q = Some o -> exists o', heap g' !! q = Some o' /\ marked o' = marked o /\ sw_body g (body o) (body o').
Proof.
  intros E. pose proof (vs_heap _ _ _ V q) as H. rewrite E in H. destruct (heap g' !! q) as [o'|]; [|done]. exists o'.
  destruct H as [M [R|(_ & th & lv & pr & nx & B & B')]]; (split_and!; [done|done|]); [by apply relisted_sw|by rewrite B, B'].
Qed.

Lemma uvsame_bwd q o' : heap g' !! q = Some o' -> exists o, heap g !! q = Some o /\ marked o' = marked o /\
  sw_body g (body o) (body o') /\ (relisted (body o) (body o') \/ X q).
Proof.
  intros E. pose proof (vs_heap _ _ _ V q) as H. rewrite E in H. destruct (heap g !! q) as [o|]; [|done]. exists o.
  destruct H as [M [R|(Hx & th & lv & pr & nx & B & B')]]; (split_and!; [done|done| |auto]); [by apply relisted_sw|by rewrite B, B'].
Qed.

Lemma uvsame_swept : (forall q, q ∈ tmudata g -> is_udata g q) -> swept g g'.
Proof.
  intros Tm. split.
  - pose proof (vs_fields _ _ _ V) as F. injection F; intros. congruence.
  - intros q. destruct (heap g !! q) as [o|] eqn:E.
    + destruct (uvsame_fwd q o E) as (o' & -> & -> & B). split; [by left|done].
    + pose proof (vs_heap _ _ _ V q) as H. rewrite E in H. by destruct (heap g' !! q).
  - intros q Hq. destruct (Tm q Hq) as (m & u & E). destruct (uvsame_fwd q _ E) as ([m' b'] & -> & M & B). rewrite E. simpl in *.
    by subst.
Qed.

Lemma uvsame_tracked S R T O : (forall q o, X q -> heap g' !! q = Some o -> current g' (marked o)) ->
  tracked S R T O g -> tracked S R T O g'.
Proof.
  intros Hx Tr q o' E'. destruct (uvsame_bwd q o' E') as (o & E & M & _ & [R'|Xq]); [|right; left; by eapply Hx].
  pose proof (vs_fields _ _ _ V) as F. injection F as Ec _ _ _ Et _ _ _ _ _. rewrite Et, M. unfold current, deadbit. rewrite Ec.
  destruct (Tr q o E) as [?|[?|Lf]]; [by left|by right; left|right; right].
  destruct (body o) as [| | | | | |[]|], (body o') as [| | | | | |[]|]; simpl in *; try discriminate R'; try done.
  by destruct R' as [-> _].
Qed.

Lemma uvsame_nonwhite q : nonwhite g q -> nonwhite g' q.
Proof. intros (o & E & W). destruct (uvsame_fwd q o E) as (o' & E' & M & _). exists o'. by rewrite M. Qed.

Lemma uvsame_typed r : typed g r -> typed g' r.
Proof. intros (o & E & T). destruct (uvsame_fwd _ o E) as (o' & E' & M & B). exists o'. by rewrite (sw_body_tt _ _ _ B). Qed.

Lemma uvsame_scan q o o' : shape g' -> heap g' !! q = Some o' -> swept g g' -> marked o' = marked o -> sw_body g (body o) (body o') ->
  scan_refs g' o' = scan_refs g o.
Proof.
  intros Sh E' Sw M B. pose proof (swept_refs g g' Sw q o o' Sh E' B) as R. unfold scan_refs. rewrite M.
  destruct (body o) as [| | | | | |[]|], (body o') as [| | | | | |[]|]; simpl in *; try discriminate B; try done; by simplify_eq.
Qed.

Lemma uvsame_inv : inv (pending g) None g -> linked g' -> (forall q, q ∈ tmudata g -> is_udata g q) ->
  inv (fun q => pending g' q \/ X q) None g'.
Proof.
  intros [R Sh Tr [N M Wk Ex Th]] Ln Tm. pose proof (uvsame_swept Tm) as Sw. pose proof (vs_lists _ _ _ V) as Li. injection Li as HG HA HW.
  pose proof (vs_fields _ _ _ V) as F. injection F as Ec _ _ _ Et _ _ _ _ _.
  assert (shape g') as Sh' by (by eapply swept_shape). split; [|done| |].
  - intros q o' E'. destruct (uvsame_bwd q o' E') as (o & E & _ & B & _). rewrite (swept_refs g g' Sw q o o' Sh' E' B).
    eapply Forall_impl; [by eapply R|]. apply uvsame_typed.
  - intros q o' E' Wo. destruct (uvsame_bwd q o' E') as (o & E & Mq & B & Hx). rewrite Mq in Wo. rewrite HG.
    destruct (Tr q o E Wo) as [?|[Hp|[H1 H2]]]; [by left|right; left|right; right].
    + destruct Hp as [Hp|(o2 & E2 & Ho)]; [left; left; by rewrite Et, HA, HW|]. rewrite E in E2. injection E2 as <-.
      destruct Hx as [Rl|Hx]; [left; right|by right]. exists o'. split; [done|].
      by destruct (body o) as [| | | | | |[]|], (body o') as [| | | | | |[]|]; simpl in *.
    + split.
      * rewrite (uvsame_scan q o o') by done. eapply Forall_impl; [exact H1|]. intros r. apply uvsame_nonwhite.
      * rewrite Mq, HW, (sw_body_tt _ _ _ B). exact H2.
  - split.
    + unfold lists. by rewrite HG, HA, HW.
    + intros q Hq. unfold lists in Hq. rewrite HG, HA, HW in Hq. destruct (M q Hq) as (o & E & W & C & Bk).
      destruct (uvsame_fwd q o E) as (o' & E' & Mq & B). exists o'. rewrite Mq. split_and!; [done|done| |done].
      destruct (body o) as [| | | | | |[]|], (body o') as [| | | | | |[]|]; simpl in *; try discriminate B; done.
    + intros q Hq. rewrite HW in Hq. destruct (Wk q Hq) as (m & t & E). destruct (uvsame_fwd q _ E) as ([m' b'] & E' & Mq & B).
      simpl in B. subst b'. by exists m', t.
    + intros q o' E' H. destruct (uvsame_bwd q o' E') as (o & E & Mq & B & _). rewrite Mq in *. apply (Ex q o E).
      destruct H as [H|H]; [by left|right]. destruct (body o) as [| | | | | |[]|], (body o') as [| | | | | |[]|]; simpl in *; try discriminate B; done.
    + intros q m t E' W Hq. destruct (uvsame_bwd q _ E') as ([m0 b0] & E & Mq & B & _). simpl in *. subst m. rewrite HG, HA.
      destruct b0 as [| | | | | |[]|t0]; simpl in B; try discriminate B; try done. by eapply Th.
Qed.

End Uvsame.

(** ** [gafqF_findupval] *)

Lemma slot_in_refs t lv : 0 <= lv < top t -> forall r, r ∈ val_refs (vget VNil (stack t) lv) -> r ∈ thread_refs t.
Proof.
  intros H r Hr. unfold thread_refs. apply elem_of_app. right. unfold vget in Hr. destruct (Z.ltb_spec lv 0); [lia|].
  rewrite nth_lookup in Hr. destruct (stack t !! Z.to_nat lv) as [v|] eqn:E; [|by apply elem_of_nil in Hr].
  apply list_elem_of_bind. exists v. split; [done|]. apply list_elem_of_lookup. exists (Z.to_nat lv). by rewrite lookup_take_lt by lia.
Qed.

(** the value of a slot of a thread that is not dead *)
Lemma slot_safe g th m t lv : closed g -> heap g !! th = Some (mkObj m (BThread t)) -> dead g m = false -> 0 <= lv < top t ->
  Forall (safe_ref g) (val_refs (slot_of g th lv)).
Proof.
  intros C E D H. pose proof (C _ _ E D) as F. simpl in F. unfold slot_of. rewrite E. rewrite Forall_forall in F |- *.
  intros r Hr. apply F. by eapply slot_in_refs.
Qed.

(** a new object that is then put in the lists of open upvalues *)
Lemma opened_phase L0 g g1 g' p bd : phase L0 g -> adds g g1 p bd -> uvsame (fun _ => False) g1 g' -> linked g' ->
  (rootgc g', gray g1, grayagain g1, weak g1, sweepstrgc g1, sweepgc g1, strt g1) =
  (rootgc g, gray g, grayagain g, weak g, sweepstrgc g, sweepgc g, strt g) -> phase L0 g'.
Proof.
  intros [B Pp]%phase_split A V Ln' Ef. injection Ef as Erg G1 G2 G3 S1 S2 S3. pose proof (b_white _ _ B) as W.
  pose proof (ad_fields _ _ _ _ A) as F1. injection F1 as Ec1 Eg1 Er1 Em1 Emt1 Et1. pose proof (ad_heap _ _ _ _ A) as Ad.
  assert (core L0 g1) as C1 by (eapply adds_core; [done|by apply base_core in B as [? _]]).
  assert (forall q, q ∈ tmudata g1 -> is_udata g1 q) as Tm.
  { intros q Hq. rewrite Et1 in Hq. destruct (ln_tmu _ (b_linked _ _ B) q Hq) as (mq & u & E). exists mq, u. by eapply added_old. }
  apply phase_split. split; [apply base_core; split; [|done]; eapply swept_core; [by eapply uvsame_swept|done|done]|].
  pose proof (vs_fields _ _ _ V) as F. injection F as Ec Eg Ess Esg Et' Er Em Emt Etn Est.
  destruct Pp as [G Tr|G M|G P1 P2 Tr].
  - apply pp_idle; [by rewrite Eg, Eg1|]. apply (uvsame_tracked _ g1 g' V); [done|]. by apply (adds_tracked g g1 p bd A).
  - apply pp_mark; [by rewrite Eg, Eg1|]. pose proof (adds_mark g g1 p bd A W (b_shape _ _ B) G1 G2 G3 M) as M1.
    assert (inv (pending g1) None g1) as I1.
    { pose proof M1 as [Tr1 Q1 Fr1 _ _]. split; [|apply C1|done|done]. intros q o E.
      eapply Forall_impl; [apply (c_closed _ _ C1 q o E)|by intros r []]. unfold dead. by rewrite (Fr1 q o E). }
    pose proof (uvsame_inv _ g1 g' V I1 Ln' Tm) as [_ _ Tr' Q']. split; [|done|..].
    + eapply tricolour_weaken; [exact Tr'|]. by intros q [?|[]].
    + intros q o' E'. destruct (uvsame_bwd _ _ _ V q o' E') as (o & E & Mq & _). rewrite Mq. unfold deadbit. rewrite Ec. by apply (ms_fresh _ M1 q o).
    + rewrite Em. apply (uvsame_nonwhite _ _ _ V), M1.
    + rewrite Er. eapply Forall_impl; [exact (ms_registry _ M1)|]. intros r. apply (uvsame_nonwhite _ _ _ V).
  - apply pp_sweep; [by rewrite Eg, Eg1|by rewrite Ess, Eg, Est, S1, S3, Eg1|by rewrite Esg, Erg, S2|].
    unfold strings_left, root_left. rewrite Eg, Ess, Est, Esg, Erg, Eg1, S1, S2, S3. apply (uvsame_tracked _ g1 g' V); [done|].
    by apply (adds_tracked g g1 p bd A).
Qed.

Section Find.
Context (L0 L : pointer) (g : GState) (m : Z) (t : Thread) (level : Z).
Hypothesis P : phase L0 g.
Hypothesis Et : heap g !! L = Some (mkObj m (BThread t)).
Hypothesis Dt : dead g m = false.
Hypothesis Hl : 0 <= level < top t.

Lemma new_open_spec uv a b : heap g !! uv = None -> uv <> UVHEAD -> openupval t = a ++ b ->
  Forall (fun q => level < uv_level g q) a -> Forall (fun q => uv_level g q < level) b ->
  wp (new_open L level uv a b) (fun _ g' => phase L0 g' /\ open_of g' L uv level /\ live g' uv /\ currentwhite g' = currentwhite g /\
    heap g' !! L = Some (mkObj m (BThread (set_openupval t (a ++ uv :: b))))) g.
Proof.
  intros Np Hp Eo La Lb. pose proof P as [B Pp]%phase_split. pose proof (b_white _ _ B) as W. pose proof (b_linked _ _ B) as Ln.
  destruct (white_marks g W) as (Mw & Mb & Md & Mf). assert (uv <> L) as Hne by congruence.
  unfold new_open. wp_step. wp_step. wp_step. apply wp_alloc; [done|done|]. unfold id.
  set (bd := BUpVal (UOpen L level UVHEAD (uvnext g))). set (g1 := set_totalbytes _ _).
  assert (heap g1 = <[uv := mkObj (gafqC_white g) bd]> (heap g)) as H1 by done.
  wp_step. eapply wp_gco2th; [rewrite H1, lookup_insert_ne by done; exact Et|]. cbv beta. wp_step.
  eapply wp_putbody; [rewrite H1, lookup_insert_ne by done; exact Et|]. cbn [set_body marked]. set (g2 := on_heap _ g1).
  assert (heap g2 = <[L := mkObj m (BThread (set_openupval t (a ++ uv :: b)))]> (heap g1)) as H2 by done.
  destruct (ln_uv _ Ln) as (l & Ul & Nl & Hol).
  assert (uv ∉ l /\ L ∉ l) as [Nu NL].
  { split; intros (o & E & Ho)%Hol; [congruence|]. rewrite Et in E. injection E as <-. by destruct Ho. }
  change (uvnext g) with (uvnext g2). eapply wp_mono; [apply (linkhead_spec g2 l uv (gafqC_white g) L level)|].
  - rewrite H2, H1. rewrite !lookup_insert_ne; [apply Ln|done|]. intros E. rewrite E, (ln_head _ Ln) in Et. discriminate Et.
  - done.
  - done.
  - apply uvchain_seg. apply uvchain_seg in Ul. change (uvprev g2) with (uvprev g). change (uvnext g2) with (uvnext g).
    eapply uvseg_frame; [|exact Ul]. intros q Hq. rewrite H2, H1, !lookup_insert_ne; [done|by intros ->|by intros ->].
  - by rewrite H2, lookup_insert_ne, H1, lookup_insert_eq by done.
  - intros [] g' (Rl & U' & Es). cbv beta.
    assert (heap g' !! L = Some (mkObj m (BThread (set_openupval t (a ++ uv :: b))))) as EL'.
    { pose proof (rl_heap _ _ Rl L) as H. rewrite H2, lookup_insert_eq in H. apply relinked_same in H; [done|by intros []]. }
    assert (heap g' !! uv = Some (mkObj (gafqC_white g) bd)) as Eu' by (by rewrite Es, H2, lookup_insert_ne, H1, lookup_insert_eq by done).
    assert (uv_level g1 uv = level) as Lv by (unfold uv_level; by rewrite H1, lookup_insert_eq).
    assert (linked g') as Ln'.
    { apply (linked_opens g g1 g' uv L a b); [|done]. split.
      - done.
      - exists (gafqC_white g). by rewrite Lv.
      - by exists m, t.
      - intros q Hq. pose proof (rl_heap _ _ Rl q) as H. by rewrite H2, lookup_insert_ne in H.
      - by rewrite Lv.
      - by exists l.
      - by rewrite (rl_fields _ _ Rl). }
    assert (uvsame (fun _ => False) g1 g') as V.
    { split; [by rewrite (rl_fields _ _ Rl)|by rewrite (rl_fields _ _ Rl)|]. intros q. pose proof (rl_heap _ _ Rl q) as H. rewrite H2 in H.
      destruct (decide (q = L)) as [->|Hq].
      - rewrite EL', H1, lookup_insert_ne, Et by done. split; [done|]. by left.
      - rewrite lookup_insert_ne in H by done. destruct (heap g1 !! q) as [o|] eqn:E.
        + pose proof H as H0. apply relinked_some_l in H as (o' & E' & _). rewrite E' in *. apply relinked_relisted in H0 as [? ?]. auto.
        + destruct (heap g' !! q) eqn:E'; [|done]. by apply relinked_some_r in H as (? & ? & _). }
    assert (adds g g1 uv bd) as A.
    { split; try done; [by exists m, t|by eapply (slot_safe g L m t level); [apply B|..]|apply B]. }
    split_and!; [|by eexists _, _, _| |by rewrite (rl_fields _ _ Rl)|done].
    + eapply opened_phase; [exact P|exact A|exact V|exact Ln'|]. by rewrite (rl_fields _ _ Rl).
    + eexists. split; [exact Eu'|]. unfold dead, deadbit. rewrite (rl_fields _ _ Rl). cbn [marked]. change (currentwhite _) with (currentwhite g).
      fold (deadbit g). by rewrite Md.
Qed.

Lemma findupval_spec uv : heap g !! uv = None -> uv <> UVHEAD ->
  wp (gafqF_findupval L level uv) (fun p g' => phase L0 g' /\ open_of g' L p level /\ live g' p /\ currentwhite g' = currentwhite g /\
    (forall q, open_of g L q level -> q = p) /\
    exists t', heap g' !! L = Some (mkObj m (BThread t')) /\ t' = set_openupval t (openupval t') /\
      (forall q, q ∈ openupval t' <-> q ∈ openupval t \/ q = p)) g.
Proof.
  intros Np Hp. pose proof P as [B Pp]%phase_split. pose proof (b_white _ _ B) as W. pose proof (b_linked _ _ B) as Ln.
  destruct (ln_open _ Ln L t ltac:(by exists m)) as [Nd Ho]. pose proof (ln_sorted _ Ln L t ltac:(by exists m)) as So.
  assert (forall q lv, open_of g L q lv -> q ∈ openupval t /\ uv_level g q = lv) as Op.
  { intros q lv O. split; [|by eapply open_of_level]. destruct O as (mq & pr & nx & E). destruct (ln_all _ Ln q _ E) as (t0 & [m0 E0] & Hq).
    rewrite Et in E0. by injection E0 as _ <-. }
  unfold gafqF_findupval. wp_step. eapply wp_gco2th; [done|]. cbv beta. wp_step.
  eapply wp_mono; [apply (find_open_spec g L level (openupval t) []); [|done|constructor]|].
  { intros q Hq. destruct (Ho q Hq) as (mq & lv & pr & nx & E). exists lv. by exists mq, pr, nx. }
  intros [p|[a b]] g0 [-> H]; cbv beta iota.
  - destruct H as [Hin O]. pose proof O as (mp & pr & nx & E). wp_step. wp_step. wp_step. eapply wp_getmarked; [done|]. cbv beta. cbn [marked]. wp_step.
    assert (forall q, open_of g L q level -> q = p) as Un.
    { intros q O'. destruct (Op q level O') as [Hq Lq], (Op p level O) as [Hp' Lp'].
      apply list_elem_of_lookup in Hq as [i Hi]. apply list_elem_of_lookup in Hp' as [j Hj]. destruct (Nat.lt_trichotomy i j) as [Hij|[Hij|Hij]].
      - pose proof (StronglySorted_lookup _ _ _ _ _ _ So Hi Hj Hij) as K. cbv beta in K. lia.
      - congruence.
      - pose proof (StronglySorted_lookup _ _ _ _ _ _ So Hj Hi Hij) as K. cbv beta in K. lia. }
    unfold id. destruct (isdead g mp) eqn:D.
    + assert (p <> L) as Hne by congruence. eapply wp_mark_with; [done|]. cbn [set_marked body marked]. wp_step.
      destruct (revive_phase L0 g p mp _ P E) as [P' L']; [|done|].
      { by eapply (slot_safe g L m t level); [apply B|..]. }
      split_and!; [done|by eexists _, _, _; apply lookup_insert_eq|done|done|done|]. exists t. simpl. rewrite lookup_insert_ne by done.
      split_and!; [done|by destruct t|]. intros q. split; [auto|]. by intros [?| ->].
    + wp_step. wp_step. split_and!; [done|done| |done|done|].
      * exists (mkObj mp (BUpVal (UOpen L level pr nx))). split; [done|]. cbn [marked]. by rewrite <- (proj2 (open_isdead g p mp L level pr nx W Ln E)).
      * exists t. split_and!; [done|by destruct t|]. intros q. split; [auto|]. by intros [?| ->].
  - destruct H as (Eab & La & Lb). simpl in Eab. wp_step. eapply wp_mono; [by apply (new_open_spec uv a b)|].
    intros [] g' (P' & O' & L' & G' & E'). cbv beta. wp_step. split_and!; [done|done|done|done| |].
    + intros q O. destruct (Op q level O) as [Hq Lq]. rewrite <- Eab in Hq. rewrite Forall_forall in La, Lb.
      apply elem_of_app in Hq as [Hq|Hq]; [pose proof (La q Hq)|pose proof (Lb q Hq)]; cbv beta in *; lia.
    + exists (set_openupval t (a ++ uv :: b)). split_and!; [done|done|]. intros q. simpl. rewrite <- Eab. set_solver.
Qed.

End Find.

(** * Closing upvalues in every phase of the collector *)

(** ** The values of the upvalues *)

Definition uv_val (g : GState) (uv : UpVal) : TValue :=
  match uv with UClosed v => v | UOpen th lv _ _ => slot_of g th lv end.

(** the upvalues that are not dead keep their values *)
Definition values_kept (g g' : GState) : Prop := forall p m uv,
  heap g !! p = Some (mkObj m (BUpVal uv)) -> dead g m = false ->
  exists m' uv', heap g' !! p = Some (mkObj m' (BUpVal uv')) /\ dead g' m' = false /\ uv_val g' uv' = uv_val g uv.

Lemma values_kept_refl g : values_kept g g.
Proof. intros p m uv E D. eauto. Qed.

Lemma values_kept_trans g1 g2 g3 : values_kept g1 g2 -> values_kept g2 g3 -> values_kept g1 g3.
Proof.
  intros H1 H2 p m uv E D. destruct (H1 p m uv E D) as (m2 & uv2 & E2 & D2 & V2).
  destruct (H2 p m2 uv2 E2 D2) as (m3 & uv3 & E3 & D3 & V3). exists m3, uv3. split_and!; [done|done|congruence].
Qed.

Lemma swept_values g g' : white_ok g -> swept g g' -> linked g' -> values_kept g g'.
Proof.
  intros W Sw Ln p m uv E D. destruct (swept_live _ _ Sw p _ E D) as ([m' b'] & E' & M & B). cbn [marked body] in *.
  assert (dead g' m' = false) as D'.
  { rewrite (dead_same g) by (by apply swept_white). by rewrite (sw_mark_dead g m). }
  destruct uv as [th lv pr nx|v], b' as [| | | | | |[th' lv' pr' nx'|v']|]; simpl in B; try discriminate B.
  - destruct B as [-> ->]. exists m', (UOpen th lv pr' nx'). split_and!; [done|done|].
    destruct (ln_all _ Ln p _ E') as (t & [mt Et] & _). simpl. by eapply swept_slot.
  - exists m', (UClosed v'). by split_and!.
  - injection B as ->. exists m', (UClosed v). by split_and!.
Qed.

Lemma mark_le_dead g m m' : mark_le m m' -> dead g m = false -> dead g m' = false.
Proof.
  unfold dead. intros Le D. pose proof (fresh_mark_le m m' (deadbit g) Le (deadbit_cases g)) as F. destruct Le as (_ & _ & _ & ->).
  destruct (Z.testbit m (deadbit g)); [|by rewrite F]. cbn [andb] in D. rewrite D. apply andb_false_r.
Qed.

Lemma msim_values g g' : msim g g' -> shape g -> values_kept g g'.
Proof.
  intros Sm Sh p m uv E D. destruct (msim_fwd _ _ _ _ Sm E) as ([m' b'] & E' & Le & B). cbn [marked body] in *.
  apply body_sim_other in B as ->; [|done]. exists m', uv. split_and!; [done| |].
  - destruct (msim_frame_fields _ _ Sm) as (_ & _ & _ & _ & _ & _ & _ & _ & Ec & _). rewrite (dead_same g) by done. by eapply mark_le_dead.
  - destruct uv as [th lv pr nx|]; [|done]. destruct (Sh p _ E) as (mt & t & Et & Hl). by eapply slot_sim.
Qed.

Lemma level_sim g g' q : msim g g' -> uv_level g' q = uv_level g q.
Proof.
  intros [_ H]. specialize (H q). unfold uv_level. destruct (heap g !! q) as [[m b]|], (heap g' !! q) as [[m' b']|]; try done.
  destruct H as [_ B]. simpl in B. by destruct B.
Qed.

(** the barrier of the mark phase *)
Lemma barrier_mark D g p o v : inv D None g -> gcstate g = GCSpropagate -> heap g !! p = Some o -> isblack (marked o) = true ->
  Forall (typed g) (val_refs v) -> wp (gafqC_barrier p v) (fun _ g' => inv D None g' /\ marks g g' /\ nonwhite_val g' v) g.
Proof.
  intros I G E Bk Ty. unfold gafqC_barrier, valiswhite, nonwhite_val, val_refs in *. destruct (iscollectable v) eqn:C.
  - apply Forall_singleton in Ty as (x & Ex & Tx). simpl in Ex. wp_step. wp_step. eapply wp_getmarked; [done|]. cbv beta. wp_step. wp_step.
    eapply wp_getmarked; [done|]. cbv beta. rewrite Bk, andb_true_r. destruct (iswhite (marked x)) eqn:Wx.
    + unfold gafqC_barrierf. wp_step. wp_step. unfold id. rewrite G. simpl.
      eapply wp_mono; [by eapply reallymarkobject_spec|]. intros [] g' (I' & M' & N'). split_and!; [done|done|]. by apply Forall_singleton.
    + wp_step. split_and!; [done|apply marks_refl|]. apply Forall_singleton. by exists x.
  - wp_step. wp_step. wp_step. eapply wp_getmarked; [done|]. cbv beta. cbn [andb]. wp_step. split_and!; [done|apply marks_refl|constructor].
Qed.

(** ** One upvalue *)

(** the rest of the list of the thread [th] after a step *)
Record closed_to (L0 th : pointer) (l : list pointer) (t : Thread) (g g' : GState) : Prop := {
  ct_phase : phase L0 g';
  ct_values : values_kept g g';
  ct_state : gcstate g' = gcstate g /\ mainthread g' = mainthread g;
  ct_thread : exists m' t', heap g' !! th = Some (mkObj m' (BThread t')) /\ openupval t' = l /\ top t' = top t;
  ct_levels q : q ∈ l -> uv_level g' q = uv_level g q
}.

Section CloseOne.
Context (L0 th : pointer) (g : GState) (m : Z) (t : Thread) (p : pointer) (l : list pointer).
Hypothesis P : phase L0 g.
Hypothesis Et : heap g !! th = Some (mkObj m (BThread t)).
Hypothesis Eo : openupval t = p :: l.

Lemma close_open_at : open_at g (rootgc g) th m t [] p l.
Proof. split; [|done|done]. pose proof P as [B _]%phase_split. eapply linked_ext; [..|exact (b_linked _ _ B)]; done. Qed.

Lemma close_at : exists mu lv pr nx, heap g !! p = Some (mkObj mu (BUpVal (UOpen th lv pr nx))) /\ 0 <= lv < top t.
Proof.
  destruct (open_at_upval _ _ _ _ _ _ _ _ close_open_at) as (mu & lv & pr & nx & E). exists mu, lv, pr, nx. split; [done|].
  pose proof P as [B _]%phase_split. destruct (b_shape _ _ B p _ E) as (m' & t' & E' & H). rewrite Et in E'. by injection E' as _ <-.
Qed.

(** the upvalues that stay in the list are still open *)
Lemma close_levels g' m' t' q : (forall p o', heap g' !! p = Some o' -> exists o, heap g !! p = Some o /\ sw_body g (body o) (body o')) ->
  linked g' -> heap g' !! th = Some (mkObj m' (BThread t')) -> openupval t' = l -> q ∈ l -> uv_level g' q = uv_level g q.
Proof.
  intros Bw Ln' E' Eo' Hq. destruct (ln_open _ Ln' th t' ltac:(by exists m')) as [_ H]. rewrite Eo' in H.
  destruct (H q Hq) as (mq & lv & pr & nx & Eq). destruct (Bw q _ Eq) as ([mq0 b0] & E0 & B). unfold uv_level. rewrite Eq, E0.
  destruct b0 as [| | | | | |[]|]; simpl in B; try discriminate B; try done. by destruct B as [_ ->].
Qed.

(** an upvalue that left the list, outside the mark phase *)
Lemma removed_tracked S R T O x g' : linked g -> white_ok g -> removed g (rootgc g) th m t l x g' ->
  (forall o, heap g' !! p = Some o -> current g (marked o)) -> tracked S R T O g -> tracked S R T O g'.
Proof.
  intros Ln W [Sw Ln' Rt Et' Ot Hst] Cp Tr q o' E'. pose proof (sw_fields _ _ Sw) as F. injection F as Ec _ _ _ Etm _ _ _ _ _.
  assert (current g (marked o') -> q ∈ tmudata g' \/ current g' (marked o') \/ left S R T O q (body o')) as Hc.
  { intros H. right; left. unfold current, deadbit in *. by rewrite Ec. }
  destruct (decide (q = p)) as [->|Hp]; [apply Hc; by apply Cp|]. destruct (swept_bwd _ _ Sw q o' E') as (o & E & Mk & B).
  destruct Mk as [Mk|[D Mk]].
  2: { apply Hc. rewrite Mk. split; [by apply makewhite_white|by apply makewhite_dead]. }
  destruct (Tr q o E) as [?|[C|Lf]]; [left; by rewrite Etm|apply Hc; by rewrite Mk|right; right].
  destruct (body o) as [| | | | | |[th' lv pr nx|]|] eqn:Bo, (body o') as [| | | | | |[th'' lv' pr' nx'|]|] eqn:Bo';
    simpl in B; try discriminate B; try done.
  - by destruct B as [-> _].
  - exfalso. destruct o as [mq bq]. simpl in Bo. subst bq. destruct (decide (th' = th)) as [->|Hth].
    + destruct (ln_all _ Ln q _ E) as (t0 & [m0 E0] & Hq). rewrite Et in E0. injection E0 as _ <-. rewrite Eo in Hq.
      destruct (ln_open _ Ln' th (set_openupval t l)) as [_ Hop]; [by exists m|]. destruct (Hop q) as (m1 & lv1 & pr1 & nx1 & E1); [set_solver|].
      simpl in E1. rewrite E' in E1. injection E1 as ->. simpl in Bo'. discriminate Bo'.
    + destruct (relinked_open _ _ _ _ _ _ ltac:(rewrite <- E; exact (Ot q _ _ _ _ _ E Hth))) as (pr1 & nx1 & E1).
      rewrite E' in E1. injection E1 as ->. simpl in Bo'. discriminate Bo'.
Qed.

Lemma removed_closed_to x g' : gcstate g <> GCSpropagate -> removed g (rootgc g) th m t l x g' -> x = [] \/ x = [p] ->
  (forall o, heap g' !! p = Some o -> current g (marked o)) -> closed_to L0 th l t g g'.
Proof.
  intros Gs Rm Hx Cp. pose proof P as [B Pp]%phase_split. pose proof (b_white _ _ B) as W. pose proof (b_linked _ _ B) as Ln.
  pose proof Rm as [Sw Ln' Rt Et' Ot Hst]. pose proof (sw_fields _ _ Sw) as F. injection F as Ec Eg Ess Esg Etm Er Em Emt Etn Est.
  assert (linked g') as Ln2 by (eapply linked_ext; [..|exact Ln']; simpl; done).
  assert (forall q, q ∈ rootgc g -> q <> p) as Np.
  { intros q Hq ->. destruct close_at as (mu & lv & pr & nx & E & _). destruct (ln_root _ Ln p Hq) as (o & E0 & _ & No). rewrite E in E0.
    injection E0 as <-. by apply No. }
  split; [|by apply swept_values|done|by exists m, (set_openupval t l)|].
  - apply phase_split. split; [by eapply swept_base|]. destruct Pp as [G Tr|G M|G P1 P2 Tr]; [|done|].
    + apply pp_idle; [by rewrite Eg|]. by eapply removed_tracked.
    + assert (root_left g ⊆ root_left g') as Hr.
      { unfold root_left. rewrite Esg, Rt. destruct (sweepgc g) as [q|] eqn:Eq; simpl; [|set_solver].
        destruct Hx as [->| ->]; simpl; [done|]. destruct (Z.eqb_spec q p) as [->|]; [by destruct (Np p (P2 p eq_refl))|].
        by destruct (split_after q (rootgc g)). }
      apply pp_sweep; [by rewrite Eg| |rewrite Esg, Rt; intros q Hq; apply elem_of_app; right; by apply P2|].
      * rewrite Ess, Eg. unfold zlen. by rewrite Est.
      * eapply (tracked_mono (strings_left g) (root_left g) (root_left g) []); [|done|done|done|by eapply removed_tracked].
        unfold strings_left. by rewrite Eg, Ess, Hst.
  - intros q Hq. eapply close_levels; [|exact Ln2|exact Et'|done|done].
    intros p' o' E'. destruct (swept_bwd _ _ Sw p' o' E') as (o & E & _ & Bd). eauto.
Qed.

(** an open upvalue that was not dead, once it is closed *)
Lemma closed_current mu m' lv pr nx : exclusive g ->
  heap g !! p = Some (mkObj mu (BUpVal (UOpen th lv pr nx))) -> dead g mu = false -> sw_mark g mu m' -> isgray mu = false \/ m' = makewhite g mu ->
  current g m'.
Proof.
  intros X E D Sm Hg. pose proof P as [B _]%phase_split. pose proof (b_white _ _ B) as W.
  destruct Hg as [Hg| ->]; [|split; [by apply makewhite_white|by apply makewhite_dead]].
  destruct Sm as [->|[_ ->]]; [|split; [by apply makewhite_white|by apply makewhite_dead]].
  pose proof (X p _ E (or_intror I)) as Bk. cbn [marked] in Bk. unfold isgray in Hg. rewrite Bk in Hg. simpl in Hg. apply negb_false_iff in Hg.
  split; [done|]. unfold dead in D. apply andb_false_iff in D as [D|D]; [done|]. apply negb_false_iff in D.
  destruct (ln_fixed _ (b_linked _ _ B) p _ E D) as [->|]; [|done]. destruct (main_object g (b_linked _ _ B)) as (o & Eo' & No & _).
  rewrite E in Eo'. injection Eo' as <-. by destruct No.
Qed.

(** *** In the mark phase *)

Definition closed_state (g2 : GState) (mu lv : Z) : GState :=
  set_rootgc (on_heap (insert p (mkObj mu (BUpVal (UClosed (slot_of g th lv))))) g2) (p :: rootgc g).

Lemma closed_uvsame g2 mu lv pr nx : heap g !! p = Some (mkObj mu (BUpVal (UOpen th lv pr nx))) ->
  unlinked g (rootgc g) th m t [] p l g2 ->
  uvsame (fun q => q = p) g (closed_state g2 mu lv) /\ linked (closed_state g2 mu lv) /\
  heap (closed_state g2 mu lv) !! th = Some (mkObj m (BThread (set_openupval t l))).
Proof.
  intros E U. pose proof (open_at_ne _ _ _ _ _ _ _ _ close_open_at) as Hne. pose proof (ul_relink _ _ _ _ _ _ _ _ _ U) as Rl. split_and!.
  - split; [by rewrite (rl_fields _ _ Rl)|by rewrite (rl_fields _ _ Rl)|]. intros q. simpl. destruct (decide (q = p)) as [->|Hq].
    + rewrite E, lookup_insert_eq. split; [done|]. right. split; [done|]. by exists th, lv, pr, nx.
    + rewrite lookup_insert_ne by done. pose proof (unlinked_others _ _ _ _ _ _ _ _ close_open_at g2 q U Hq) as H.
      pose proof (rl_heap _ _ Rl q) as R. simpl in R.
      destruct (heap g !! q) as [o|] eqn:Eq, (heap g2 !! q) as [o'|] eqn:Eq'; try done. destruct H as (M & _ & _). split; [done|left].
      destruct (decide (q = th)) as [->|Hth].
      * rewrite lookup_insert_eq in R. apply relinked_same in R; [|by intros []]. injection R as ->. rewrite Et in Eq. by injection Eq as <-.
      * rewrite lookup_insert_ne, Eq in R by done. by apply relinked_relisted.
  - destruct (unlinked_fields _ _ _ _ _ _ _ _ g2 U) as (Er & Est & Etm & Em & _).
    by eapply (ul_linked _ _ _ _ _ _ _ _ _ U).
  - simpl. rewrite lookup_insert_ne by done. pose proof (rl_heap _ _ Rl th) as R. simpl in R. rewrite lookup_insert_eq in R.
    apply relinked_same in R; [done|by intros []].
Qed.

Lemma uvsame_frame X g' : uvsame X g g' -> linked g' -> mark_phase g -> mark_frame g'.
Proof.
  intros V Ln' [W Ln I Fr Rt Nm Nr Tm Ns]. pose proof (vs_fields _ _ _ V) as F. injection F as Ec _ _ _ Etm Er Em Emt _ Est.
  assert (root_refs g' = root_refs g) as Err by (unfold root_refs; by rewrite Er, Em, Emt).
  split; [unfold white_ok in *; by rewrite Ec|done| | | | | |by rewrite Est].
  - intros q o' E'. destruct (uvsame_bwd _ _ _ V q o' E') as (o & E & Mq & _). rewrite Mq. unfold deadbit. rewrite Ec. by apply (Fr q o).
  - rewrite Err. eapply Forall_impl; [exact Rt|]. apply (uvsame_typed _ _ _ V).
  - rewrite Em. by apply (uvsame_nonwhite _ _ _ V).
  - rewrite Er. eapply Forall_impl; [exact Nr|]. intros r. apply (uvsame_nonwhite _ _ _ V).
  - rewrite Etm. eapply Forall_impl; [exact Tm|]. apply (uvsame_nonwhite _ _ _ V).
Qed.

(** the state after the barrier *)
Lemma closed_mark g3 g5 : mark_phase g -> gcstate g = GCSpropagate -> typed g (L0, GAFQ_TTHREAD) ->
  uvsame (fun q => q = p) g g3 -> linked g3 -> heap g3 !! th = Some (mkObj m (BThread (set_openupval t l))) ->
  msim g3 g5 -> inv (pending g5) None g5 -> closed_to L0 th l t g g5.
Proof.
  intros M G T V Ln3 Et3 Sm I5. pose proof (uvsame_frame _ g3 V Ln3 M) as Fr3. pose proof (mark_frame_sim _ _ Sm I5 Fr3) as M5.
  pose proof (uvsame_swept _ _ _ V (ln_tmu _ (mp_linked _ M))) as Sw.
  pose proof (vs_fields _ _ _ V) as F. injection F as _ Eg _ _ _ _ Em _ _ _.
  destruct (msim_frame_fields _ _ Sm) as (_ & _ & _ & Em5 & _ & _ & _ & _ & _ & Eg5).
  destruct (thread_sim g3 g5 th _ _ Sm Et3) as (m5 & t5 & E5 & B5).
  assert (openupval t5 = l /\ top t5 = top t) as [O5 T5] by (by inversion B5; subst).
  split; [|eapply values_kept_trans; [by apply swept_values; [apply M|..]|]|split; congruence|by exists m5, t5|].
  - apply ph_propagate; [congruence|done|]. eapply typed_sim; [done|]. by apply (uvsame_typed _ _ _ V).
  - apply msim_values; [done|]. eapply swept_shape; [exact Sw|done|apply (mp_inv _ M)].
  - intros q Hq. rewrite (level_sim g3 g5 q Sm). eapply close_levels; [|exact Ln3|exact Et3|done|done].
    intros x o' E'. destruct (uvsame_bwd _ _ _ V x o' E') as (o & E & _ & Bd & _). eauto.
Qed.

Lemma close_upval_mark mu lv pr nx : gcstate g = GCSpropagate -> heap g !! p = Some (mkObj mu (BUpVal (UOpen th lv pr nx))) ->
  wp (close_upval p) (fun _ g' => closed_to L0 th l t g g') (drop_open g th m t l).
Proof.
  intros G E. destruct P as [G1 _|_ M T|G1 _|G1 _|G1 _]; try (rewrite G in G1; discriminate G1).
  eapply (close_upval_spec g (rootgc g) th m t [] p l close_open_at); [done|]. intros g2 U.
  destruct (closed_uvsame g2 mu lv pr nx E U) as (V & Ln3 & Et3). destruct (unlinked_fields _ _ _ _ _ _ _ _ g2 U) as (Er & _).
  pose proof (uvsame_inv _ _ _ V (mp_inv _ M) Ln3 (ln_tmu _ (mp_linked _ M))) as I3.
  pose proof (vs_fields _ _ _ V) as F. injection F as _ Eg3 _ _ _ _ _ _ _ _.
  unfold gafqC_linkupval. wp_step. wp_step. simpl. rewrite Er. fold (closed_state g2 mu lv). set (g3 := closed_state g2 mu lv) in *.
  assert (heap g3 !! p = Some (mkObj mu (BUpVal (UClosed (slot_of g th lv))))) as Ep by apply lookup_insert_eq.
  wp_step. eapply wp_getmarked; [exact Ep|]. cbv beta. cbn [marked]. destruct (isgray mu) eqn:Gr.
  - wp_step. wp_step. unfold id. change (gcstate g3) with (gcstate g2). rewrite Eg3, G. cbn -[gafqC_barrier mark_with gco2uv uv_value]. wp_step. eapply wp_mark_with; [exact Ep|]. cbn [set_marked body marked].
    set (g4 := on_heap _ g3). set (o4 := mkObj (gray2black mu) (BUpVal (UClosed (slot_of g th lv)))).
    unfold isgray in Gr. apply andb_true_iff in Gr as [Gb Gw]. apply negb_true_iff in Gb, Gw.
    assert (p ∉ lists g3) as Nl.
    { intros H. destruct (q_member _ _ (i_queued _ _ _ I3) p H) as (o & Eo' & _ & C & _). rewrite Ep in Eo'. injection Eo' as <-. exact C. }
    destruct (inv_update (fun q => pending g3 q \/ q = p) None g3 g4 p _ o4 I3 Ep) as [I4 M4]; try done.
    { apply obj_sim_mark. apply mark_le_gray2black. }
    { right; right; left. by right. }
    { intros [H|[]]. cbn [o4 marked] in H. rewrite gray2black_white in H. congruence. }
    wp_step. eapply wp_gco2uv; [apply lookup_insert_eq|]. cbv beta. wp_step. simpl. wp_step.
    eapply wp_mono; [eapply (barrier_mark _ g4 p _ (slot_of g th lv) I4); [simpl; rewrite <- G; exact Eg3|apply lookup_insert_eq|apply gray2black_black|]|].
    { apply (i_refs _ _ _ I4 p o4). apply lookup_insert_eq. }
    intros [] g5 (I5 & M5 & N5). cbv beta.
    assert (msim g3 g5) as Sm by (eapply msim_trans; [exact (mk_sim _ _ M4)|exact (mk_sim _ _ M5)]).
    eapply (closed_mark g3 g5); try done. apply (inv_weaken (pending g3)).
    + destruct (msim_fwd g4 g5 p o4 (mk_sim _ _ M5) (lookup_insert_eq _ _ _)) as ([m5 b5] & E5 & _ & B5).
      apply body_sim_other in B5; [|done]. simpl in B5. subst b5. eapply inv_drop; [exact I5|exact E5|]. split; [exact N5|done].
    + intros q. apply pending_sim; [done| |]; by rewrite ?(mk_again _ _ M5), ?(mk_weak _ _ M5), ?(mk_again _ _ M4), ?(mk_weak _ _ M4).
  - wp_step. eapply (closed_mark g3 g3); try done; [apply msim_refl|]. destruct I3 as [R3 Sh3 Tr3 Q3]. split; try done.
    intros q o Eq Wq. destruct (Tr3 q o Eq Wq) as [?|[[?| ->]|?]]; auto. exfalso. rewrite Ep in Eq. injection Eq as <-.
    cbn [marked] in Wq. unfold isgray in Gr. rewrite Wq, andb_true_r in Gr. apply negb_false_iff in Gr.
    pose proof (q_excl _ _ (i_queued _ _ _ (mp_inv _ M)) p _ E (or_intror I)) as K. cbn [marked] in *. congruence.
Qed.

End CloseOne.

(** ** The loop *)

Section Close.
Context (L0 th : pointer) (level : Z).

Lemma closed_to_trans l1 l2 t g1 g2 g3 m2 t2 : closed_to L0 th l1 t g1 g2 -> heap g2 !! th = Some (mkObj m2 (BThread t2)) ->
  top t2 = top t -> l2 ⊆ l1 -> closed_to L0 th l2 t2 g2 g3 -> closed_to L0 th l2 t g1 g3.
Proof.
  intros [P1 V1 [S1 S1'] T1 L1] E2 Ht Sub [P2 V2 [S2 S2'] (m3 & t3 & E3 & O3 & H3) L2]. split; [done| |split; congruence| |].
  - by eapply values_kept_trans.
  - exists m3, t3. split_and!; [done|done|congruence].
  - intros q Hq. rewrite L2, L1; [done|by apply Sub|done].
Qed.

Lemma close_one_spec g m t p l mu lv pr nx : phase L0 g -> heap g !! th = Some (mkObj m (BThread t)) -> openupval t = p :: l ->
  heap g !! p = Some (mkObj mu (BUpVal (UOpen th lv pr nx))) ->
  wp (if isdead g mu then gafqF_freeupval p else close_upval p) (fun _ g' => closed_to L0 th l t g g') (drop_open g th m t l).
Proof.
  intros P Et Eo E. pose proof P as [B _]%phase_split. pose proof (b_white _ _ B) as W. pose proof (b_linked _ _ B) as Ln.
  destruct (open_isdead g p mu th lv pr nx W Ln E) as [Hm ->]. pose proof (close_open_at L0 th g m t p l P Et Eo) as O.
  destruct (Z.eq_dec (gcstate g) GCSpropagate) as [G|G].
  - assert (dead g mu = false) as ->.
    { destruct (dead g mu) eqn:D; [|done]. apply andb_true_iff in D as [D _].
      destruct (phase_fresh L0 g p _ P E D) as [G'|G']; rewrite G in G'; discriminate G'. }
    by eapply close_upval_mark.
  - destruct (dead g mu) eqn:D.
    + eapply wp_mono; [by eapply (freeupval_spec g (rootgc g) th m t [] p l O)|]. intros [] g' [R N].
      eapply (removed_closed_to L0 th g m t p l); eauto. intros o Eo'. congruence.
    + eapply wp_mono; [by eapply (close_upval_sweep g (rootgc g) th m t [] p l O)|]. intros [] g' [R (m' & E' & Sm & Sg)].
      eapply (removed_closed_to L0 th g m t p l); eauto. intros o Eo'. rewrite E' in Eo'. injection Eo' as <-. cbn [marked].
      eapply closed_current; eauto. apply B.
Qed.

Lemma close_loop_spec l : forall g m t, phase L0 g -> heap g !! th = Some (mkObj m (BThread t)) -> openupval t = l ->
  wp (close_loop th level l) (fun _ g' => exists a b, l = a ++ b /\ Forall (fun q => level <= uv_level g q) a /\
    Forall (fun q => uv_level g q < level) b /\ closed_to L0 th b t g g') g.
Proof.
  induction l as [|p l IH]; intros g m t P Et Eo; simpl.
  { wp_step. exists [], []. split_and!; [done|constructor|constructor|]. by split; [|apply values_kept_refl| |exists m, t|]. }
  destruct (close_at L0 th g m t p l P Et Eo) as (mu & lv & pr & nx & E & Hl).
  pose proof (open_at_ne _ _ _ _ _ _ _ _ (close_open_at L0 th g m t p l P Et Eo)) as Hne.
  assert (uv_level g p = lv) as Lv by (unfold uv_level; by rewrite E).
  wp_step. eapply wp_gco2uv; [done|]. cbv beta iota. destruct (Z.leb_spec level lv).
  - wp_step. eapply wp_gco2th; [done|]. cbv beta. wp_step. eapply wp_putbody; [done|]. wp_step. wp_step. wp_step.
    eapply wp_getmarked; [simpl; by rewrite lookup_insert_ne|]. cbv beta. wp_step. cbn [marked]. change (isdead _ _) with (isdead g mu).
    eapply wp_mono; [by eapply (close_one_spec g m t p l)|]. intros [] g1 C1. cbv beta.
    destruct (ct_thread _ _ _ _ _ _ C1) as (m1 & t1 & E1 & O1 & T1).
    eapply wp_mono; [by eapply (IH g1 m1 t1); [apply C1|..]|]. intros [] g2 (a & b & El & La & Lb & C2).
    assert (forall q, q ∈ l -> uv_level g1 q = uv_level g q) as Lq by apply C1.
    exists (p :: a), b. split_and!; [by rewrite El| | |].
    + constructor; [lia|]. rewrite Forall_forall in La |- *. intros q Hq. rewrite <- Lq; [by apply La|rewrite El; apply elem_of_app; by left].
    + rewrite Forall_forall in Lb |- *. intros q Hq. rewrite <- Lq; [by apply Lb|rewrite El; apply elem_of_app; by right].
    + eapply (closed_to_trans l b); [exact C1|exact E1|exact T1| |exact C2]. rewrite El. intros q Hq. apply elem_of_app. by right.
  - wp_step. exists [], (p :: l). split_and!; [done|constructor| |by split; [|apply values_kept_refl| |exists m, t|]].
    pose proof P as [B _]%phase_split. pose proof (ln_sorted _ (b_linked _ _ B) th t ltac:(by exists m)) as So. rewrite Eo in So.
    apply StronglySorted_inv in So as [_ F]. constructor; [lia|]. eapply Forall_impl; [exact F|]. intros q Hq. cbv beta in *. lia.
Qed.

End Close.

(** ** The main theorems *)

(** C21: whatever the phase of the collector, [gafqF_findupval] ends without an error and keeps the invariant of the
    phase; its result is an open upvalue of the slot that is not dead (a dead one is taken back), the only one of this
    slot, and a second call for the same slot returns the same upvalue: closures share the variables they have in common. *)
Theorem findupval_shares L0 L g m t level uv :
  phase L0 g -> heap g !! L = Some (mkObj m (BThread t)) -> dead g m = false -> 0 <= level < top t ->
  heap g !! uv = None -> uv <> UVHEAD ->
  exists p g', gafqF_findupval L level uv g = Ok (p, g') /\ phase L0 g' /\ open_of g' L p level /\ live g' p /\
    (forall q, open_of g L q level -> q = p) /\
    forall uv', heap g' !! uv' = None -> uv' <> UVHEAD -> exists g'', gafqF_findupval L level uv' g' = Ok (p, g'').
Proof.
  intros P E D Hl Nu Hu. pose proof (findupval_spec L0 L g m t level P E D Hl uv Nu Hu) as H.
  apply wp_ok in H as (p & g' & Eq & P' & O & Lv & Ec & Un & t' & E' & Ht & _). exists p, g'. split_and!; try done.
  intros uv' Nu' Hu'.
  pose proof (findupval_spec L0 L g' m t' level P' E' ltac:(by rewrite (dead_same g)) ltac:(by rewrite Ht) uv' Nu' Hu') as H.
  apply wp_ok in H as (p' & g'' & Eq' & _ & _ & _ & _ & Un' & _). exists g''. by rewrite (Un' p O).
Qed.

Lemma findupval_shares_witness : exists p g', gafqF_findupval 1 0 200 sample = Ok (p, g') /\ open_of g' 1 p 0.
Proof.
  assert (exists m t, heap sample !! 1 = Some (mkObj m (BThread t)) /\ dead sample m = false /\ 0 <= 0 < top t) as (m & t & E & D & Ht).
  { eexists _, _. split_and!; [vm_compute; reflexivity|by vm_compute|lia|by vm_compute]. }
  destruct (findupval_shares 1 1 sample m t 0 200 sample_phase E D Ht) as (p & g' & H1 & _ & H2 & _); [by vm_compute|done|].
  exists p, g'. exact (conj H1 H2).
Defined.

(** C20: whatever the phase of the collector, [gafqF_close] ends without an error and keeps the invariant of the phase;
    the upvalues that are not dead keep their values, those of the slots from [level] up are closed, and the open
    upvalues of the slots below stay open, in their order. *)
Theorem close_keeps_values L0 th g m t level :
  phase L0 g -> heap g !! th = Some (mkObj m (BThread t)) ->
  exists g' m' t' a, gafqF_close th level g = Ok (tt, g') /\ phase L0 g' /\ values_kept g g' /\
    heap g' !! th = Some (mkObj m' (BThread t')) /\ openupval t = a ++ openupval t' /\
    Forall (fun q => level <= uv_level g q) a /\ (forall q lv, open_of g' th q lv -> lv < level).
Proof.
  intros P E. assert (wp (gafqF_close th level) (fun _ g' => exists a b, openupval t = a ++ b /\ Forall (fun q => level <= uv_level g q) a /\
    Forall (fun q => uv_level g q < level) b /\ closed_to L0 th b t g g') g) as H.
  { unfold gafqF_close. wp_step. eapply wp_gco2th; [done|]. by apply (close_loop_spec L0 th level (openupval t) g m t). }
  apply wp_ok in H as ([] & g' & Eq & a & b & Eo & La & Lb & [P' V _ (m' & t' & E' & Ob & _) Lv]).
  exists g', m', t', a. rewrite Ob. split_and!; try done. intros q lv O. pose proof P' as [B' _]%phase_split.
  rewrite <- (open_of_level _ _ _ _ O). destruct O as (mq & pr & nx & Eq').
  destruct (ln_all _ (b_linked _ _ B') q _ Eq') as (t0 & [m0 E0] & Hq). rewrite E' in E0. injection E0 as _ <-. rewrite Ob in Hq.
  rewrite Lv by done. rewrite Forall_forall in Lb. by apply Lb.
Qed.

Lemma close_keeps_values_witness : exists g', gafqF_close 1 0 sample = Ok (tt, g') /\ phase 1 g'.
Proof.
  assert (exists m t, heap sample !! 1 = Some (mkObj m (BThread t))) as (m & t & E) by (eexists _, _; vm_compute; reflexivity).
  destruct (close_keeps_values 1 1 sample m t 0 sample_phase E) as (g' & _ & _ & _ & H1 & H2 & _). exists g'. exact (conj H1 H2).
Defined.

(** ** Names of local variables *)

Definition active (pc : Z) (v : LocVar) : bool := (startpc v <=? pc) && (pc <? endpc v).

Lemma none_active pc l : Forall (fun v => pc < startpc v) l -> List.filter (active pc) l = [].
Proof.
  induction 1 as [|v l Hv _ IH]; [done|]. simpl. unfold active at 1. destruct (Z.leb_spec (startpc v) pc); [lia|]. done.
Qed.

(** when the local variables of a function are in the order of their first instructions, the way the compiler
    writes them, [gafqF_getlocalname] finds the [n]-th of those that are active at an instruction, although it stops at
    the first that starts later. *)
Theorem getlocalname_nth f n pc : StronglySorted (fun v w => startpc v <= startpc w) (locvars f) -> 1 <= n ->
  gafqF_getlocalname f n pc = varname <$> List.filter (active pc) (locvars f) !! Z.to_nat (n - 1).
Proof.
  unfold gafqF_getlocalname. intros So. revert n. induction So as [|v l So IH F]; intros n Hn; simpl; [done|].
  unfold active at 1. destruct (Z.leb_spec (startpc v) pc); simpl.
  - destruct (Z.ltb_spec pc (endpc v)); simpl; [|by apply IH]. destruct (Z.eqb_spec (n - 1) 0) as [Heq|].
    + by rewrite Heq.
    + rewrite IH by lia. replace (Z.to_nat (n - 1)) with (S (Z.to_nat (n - 1 - 1))) by lia. done.
  - rewrite none_active; [done|]. eapply Forall_impl; [exact F|]. intros w Hw. cbv beta in *. lia.
Qed.

Definition sample_locals : Proto :=
  mkProto [] [] [] [] [mkLocVar (Some [97]) 0 9; mkLocVar (Some [98]) 2 4; mkLocVar (Some [99]) 5 9] [] None 0 0 0 0 0 2.

Lemma getlocalname_nth_witness : gafqF_getlocalname sample_locals 2 6 = Some (Some [99]).
Proof.
  rewrite (getlocalname_nth sample_locals 2 6); [reflexivity| |lia].
  repeat (constructor; simpl; [|repeat constructor; simpl; lia]). constructor.
Defined.
