(* ===== verification/StackView.v ===== *)
(** * The stack of the running function as a list

    [Stk g L m th pre S post]: in [g] the thread [L] has the mark [m] and the fields
    of [th], and its stack is [pre ++ S ++ post] where [S] is what the running function
    sees, from [base] to [top].  The operations of the API are list operations on [S]. *)

From stdpp Require Import gmap.
From S2P Require Import Prelude Number Opcodes Object Table Heap Tm Gc Func GcSweep HeapString State Mach VmOps Do Execute Api GcLogic.

Definition with_slots (th : Thread) (pre S post : list TValue) : Thread :=
  set_top (set_stack th (pre ++ S ++ post)) (zlen pre + zlen S).

(** the state with the stack of [L] replaced *)
Definition put (g : GState) (L : pointer) (m : Z) (th : Thread) (pre S post : list TValue) : GState :=
  on_heap (insert L (mkObj m (BThread (with_slots th pre S post)))) g.

Definition Stk (g : GState) (L : pointer) (m : Z) (th : Thread) (pre S post : list TValue) : Prop :=
  heap g !! L = Some (mkObj m (BThread (with_slots th pre S post))) /\ base th = zlen pre.

(** ** Lists by position *)

Lemma zlen_app {A} (l k : list A) : zlen (l ++ k) = zlen l + zlen k.
Proof. unfold zlen. rewrite length_app. lia. Qed.

Lemma zlen_cons {A} (x : A) l : zlen (x :: l) = 1 + zlen l.
Proof. unfold zlen. simpl. lia. Qed.

Lemma zlen_nil {A} : zlen (@nil A) = 0.
Proof. done. Qed.

Lemma zlen_nonneg {A} (l : list A) : 0 <= zlen l.
Proof. unfold zlen. lia. Qed.

Lemma vget_app_l {A} (d : A) l k i : i < zlen l -> vget d (l ++ k) i = vget d l i.
Proof. unfold vget, zlen. intros H. destruct (Z.ltb_spec i 0); [done|]. apply app_nth1. lia. Qed.

Lemma vget_app_r {A} (d : A) l k i : zlen l <= i -> vget d (l ++ k) i = vget d k (i - zlen l).
Proof.
  unfold vget, zlen. intros H. destruct (Z.ltb_spec i 0), (Z.ltb_spec (i - Z.of_nat (length l)) 0); try lia.
  rewrite app_nth2 by lia. f_equal. lia.
Qed.

Lemma vset_app_l {A} (l k : list A) i x : i < zlen l -> vset (l ++ k) i x = vset l i x ++ k.
Proof. unfold vset, zlen. intros H. destruct (Z.ltb_spec i 0); [done|]. apply insert_app_l. lia. Qed.

Lemma vset_app_r {A} (l k : list A) i x : zlen l <= i -> vset (l ++ k) i x = l ++ vset k (i - zlen l) x.
Proof.
  unfold vset, zlen. intros H. destruct (Z.ltb_spec i 0), (Z.ltb_spec (i - Z.of_nat (length l)) 0); try lia.
  replace (Z.to_nat i) with (length l + Z.to_nat (i - Z.of_nat (length l)))%nat by lia. by rewrite insert_app_r.
Qed.

Lemma zlen_vset {A} (l : list A) i x : zlen (vset l i x) = zlen l.
Proof. unfold zlen. by rewrite length_vset. Qed.

Lemma zlen_replicate {A} k (x : A) : zlen (replicate k x) = Z.of_nat k.
Proof. unfold zlen. by rewrite length_replicate. Qed.

#[global] Hint Rewrite @zlen_app @zlen_cons @zlen_nil @zlen_vset @zlen_replicate : zlen.
Ltac zlen := autorewrite with zlen in *; try lia.

(** ** Slots *)

Section Slots.

Context (L : pointer) (m : Z) (th : Thread) (pre : list TValue).

Lemma Stk_put g S post : base th = zlen pre -> Stk (put g L m th pre S post) L m th pre S post.
Proof. intros Hb. split; [|done]. simpl. by rewrite lookup_insert_eq. Qed.

Lemma put_put g S post S' post' :
  on_heap (insert L (mkObj m (BThread (with_slots th pre S' post')))) (put g L m th pre S post) =
  put g L m th pre S' post'.
Proof. unfold put, on_heap. simpl. by rewrite insert_insert_eq. Qed.

Lemma put_id g S post : Stk g L m th pre S post -> put g L m th pre S post = g.
Proof. intros [E _]. unfold put, on_heap. rewrite insert_id by done. by destruct g. Qed.

Context (g : GState) (S post : list TValue).
Hypothesis V : Stk g L m th pre S post.

Lemma wp_thread (Q : Thread -> GState -> Prop) : Q (with_slots th pre S post) g -> wp (gco2th L) Q g.
Proof. intros H. eapply wp_gco2th; [apply V|done]. Qed.

Lemma wp_gettop (Q : Z -> GState -> Prop) : Q (zlen pre + zlen S) g -> wp (gettop L) Q g.
Proof. intros H. unfold gettop. wp_step. apply wp_thread. by wp_step. Qed.

Lemma wp_getbase (Q : Z -> GState -> Prop) : Q (zlen pre) g -> wp (getbase L) Q g.
Proof. intros H. unfold getbase. wp_step. apply wp_thread. wp_step. simpl. by rewrite (proj2 V). Qed.

Lemma in_stack_view i : 0 <= i < zlen pre + zlen S + zlen post -> in_stack (with_slots th pre S post) i = true.
Proof.
  intros H. unfold in_stack, stacksize. simpl. rewrite !zlen_app.
  destruct (Z.leb_spec 0 i), (Z.ltb_spec i (zlen pre + (zlen S + zlen post))); [done|lia..].
Qed.

(** a slot of the function, or one above its top *)
Lemma wp_slot i v (Q : TValue -> GState -> Prop) :
  0 <= i < zlen S + zlen post -> vget VNil (S ++ post) i = v -> Q v g -> wp (slot L (zlen pre + i)) Q g.
Proof.
  intros Hi <- H. unfold slot. wp_step. apply wp_thread. pose proof (zlen_nonneg pre).
  rewrite in_stack_view by lia. wp_step. simpl. rewrite vget_app_r by lia.
  by replace (zlen pre + i - zlen pre) with i by lia.
Qed.

Lemma wp_setslot i v (Q : unit -> GState -> Prop) :
  0 <= i < zlen S -> Q tt (put g L m th pre (vset S i v) post) -> wp (setslot L (zlen pre + i) v) Q g.
Proof.
  intros Hi H. unfold setslot. wp_step. apply wp_thread. pose proof (zlen_nonneg pre). pose proof (zlen_nonneg post).
  rewrite in_stack_view by lia. eapply wp_putbody; [apply V|]. unfold set_body. simpl.
  rewrite vset_app_r by lia. replace (zlen pre + i - zlen pre) with i by lia.
  rewrite vset_app_l by lia. unfold put, with_slots in H. rewrite zlen_vset in H. exact H.
Qed.

(** the slot at the top *)
Lemma wp_setslot_top x v (Q : unit -> GState -> Prop) :
  forall p, post = x :: p ->
  Q tt (put g L m th pre S (v :: p)) -> wp (setslot L (zlen pre + zlen S) v) Q g.
Proof.
  intros p Ep H. unfold setslot. wp_step. apply wp_thread. pose proof (zlen_nonneg pre). pose proof (zlen_nonneg S).
  assert (zlen post = 1 + zlen p) as El by (by rewrite Ep, zlen_cons). pose proof (zlen_nonneg p).
  rewrite in_stack_view by lia. eapply wp_putbody; [apply V|]. unfold set_body. simpl.
  rewrite !vset_app_r by lia. replace (zlen pre + zlen S - zlen pre - zlen S) with 0 by lia. rewrite Ep. exact H.
Qed.

Lemma wp_settop S' post' (Q : unit -> GState -> Prop) :
  S' ++ post' = S ++ post ->
  Q tt (put g L m th pre S' post') -> wp (settop L (zlen pre + zlen S')) Q g.
Proof.
  intros E H. unfold settop, putth. wp_step. apply wp_thread. eapply wp_putbody; [apply V|].
  unfold set_body. simpl. unfold put, with_slots in H. rewrite E in H. exact H.
Qed.

Lemma wp_pushobject x p v (Q : unit -> GState -> Prop) :
  post = x :: p -> Q tt (put g L m th pre (S ++ [v]) p) -> wp (gafqA_pushobject L v) Q g.
Proof.
  intros Ep H. unfold gafqA_pushobject. wp_step. apply wp_gettop. wp_step.
  apply (wp_setslot_top x v _ p); [done|]. cbv beta. unfold api_incr_top, putth. wp_step.
  eapply wp_gco2th; [apply lookup_insert_eq|]. eapply wp_putbody; [apply lookup_insert_eq|].
  unfold set_body. simpl. unfold put, with_slots, on_heap in *. simpl. rewrite insert_insert_eq. simpl.
  rewrite <- app_assoc in H. simpl in H. rewrite zlen_app in H. rewrite zlen_cons, zlen_nil in H.
  by replace (zlen pre + zlen S + 1) with (zlen pre + (zlen S + (1 + 0))) by lia.
Qed.

(** [L->top -= n] *)
Lemma wp_pop n S' (Q : unit -> GState -> Prop) :
  S = S' ++ n -> Q tt (put g L m th pre S' (n ++ post)) -> wp (pop L (zlen n)) Q g.
Proof.
  intros Es H. unfold pop, putth. wp_step. apply wp_thread. eapply wp_putbody; [apply V|].
  unfold set_body. simpl. unfold put, with_slots in H. replace (S' ++ n ++ post) with (S ++ post) in H by (by rewrite Es, <- app_assoc).
  replace (zlen pre + zlen S - zlen n) with (zlen pre + zlen S') by (rewrite Es, zlen_app; lia). exact H.
Qed.

(** ** Indices *)

(** the positions of the values that an index can mean *)
Lemma wp_index_pos i (Q : Addr -> GState -> Prop) :
  1 <= i <= zlen S -> Q (ASlot (zlen pre + (i - 1))) g -> wp (index2adr L i) Q g.
Proof.
  intros Hi H. unfold index2adr. wp_step. apply wp_thread. simpl. rewrite (proj2 V).
  destruct (Z.ltb_spec 0 i); [|lia]. wp_step. destruct (Z.leb_spec (zlen pre + zlen S) (zlen pre + (i - 1))); [lia|done].
Qed.

Lemma wp_index_none i (Q : Addr -> GState -> Prop) :
  zlen S < i -> Q ANone g -> wp (index2adr L i) Q g.
Proof.
  intros Hi H. unfold index2adr. wp_step. apply wp_thread. simpl. rewrite (proj2 V). pose proof (zlen_nonneg S).
  destruct (Z.ltb_spec 0 i); [|lia]. wp_step. destruct (Z.leb_spec (zlen pre + zlen S) (zlen pre + (i - 1))); [done|lia].
Qed.

Lemma wp_index_neg i (Q : Addr -> GState -> Prop) :
  GAFQ_REGISTRYINDEX < - i -> 1 <= i <= zlen S -> Q (ASlot (zlen pre + (zlen S - i))) g -> wp (index2adr L (- i)) Q g.
Proof.
  intros Hr Hi H. unfold index2adr. wp_step. apply wp_thread. simpl.
  destruct (Z.ltb_spec 0 (- i)); [lia|]. destruct (Z.ltb_spec GAFQ_REGISTRYINDEX (- i)); [|lia]. wp_step.
  by replace (zlen pre + zlen S + - i) with (zlen pre + (zlen S - i)) by lia.
Qed.

Lemma wp_value_pos i v (Q : TValue -> GState -> Prop) :
  1 <= i <= zlen S -> vget VNil S (i - 1) = v -> Q v g -> wp (value_at L i) Q g.
Proof.
  intros Hi E H. unfold value_at. wp_step. apply wp_index_pos; [done|]. cbv beta. simpl. pose proof (zlen_nonneg post).
  eapply wp_slot; [lia| |exact H]. by rewrite vget_app_l by lia.
Qed.

Lemma wp_value_neg i v (Q : TValue -> GState -> Prop) :
  GAFQ_REGISTRYINDEX < - i -> 1 <= i <= zlen S -> vget VNil S (zlen S - i) = v -> Q v g -> wp (value_at L (- i)) Q g.
Proof.
  intros Hr Hi E H. unfold value_at. wp_step. apply wp_index_neg; [done..|]. cbv beta. simpl. pose proof (zlen_nonneg post).
  eapply wp_slot; [lia| |exact H]. by rewrite vget_app_l by lia.
Qed.

Lemma wp_top_value i v (Q : TValue -> GState -> Prop) :
  1 <= i <= zlen S -> vget VNil S (zlen S - i) = v -> Q v g -> wp (top_value L i) Q g.
Proof.
  intros Hi E H. unfold top_value. wp_step. apply wp_gettop. pose proof (zlen_nonneg post).
  replace (zlen pre + zlen S - i) with (zlen pre + (zlen S - i)) by lia.
  eapply wp_slot; [lia| |exact H]. by rewrite vget_app_l by lia.
Qed.

(** ** Types, and the height of the stack *)

Lemma wp_type_pos i v (Q : Z -> GState -> Prop) :
  1 <= i <= zlen S -> vget VNil S (i - 1) = v -> Q (ttype v) g -> wp (gafq_type L i) Q g.
Proof.
  intros Hi E H. unfold gafq_type. wp_step. apply wp_index_pos; [done|]. cbv beta iota. wp_step. simpl. pose proof (zlen_nonneg post).
  eapply (wp_slot _ v); [lia|by rewrite vget_app_l by lia|]. by wp_step.
Qed.

Lemma wp_type_none i (Q : Z -> GState -> Prop) : zlen S < i -> Q GAFQ_TNONE g -> wp (gafq_type L i) Q g.
Proof. intros Hi H. unfold gafq_type. wp_step. apply wp_index_none; [done|]. cbv beta iota. by wp_step. Qed.

(** [gafq_settop] with a new top above the old one *)
Lemma wp_settop_up i (Q : unit -> GState -> Prop) :
  zlen S <= i -> i <= zlen S + zlen post ->
  Q tt (put g L m th pre (S ++ replicate (Z.to_nat (i - zlen S)) VNil) (drop (Z.to_nat (i - zlen S)) post)) ->
  wp (gafq_settop L i) Q g.
Proof.
  intros Hi Hp H. unfold gafq_settop. wp_step. apply wp_thread. pose proof (zlen_nonneg S). pose proof (zlen_nonneg pre).
  destruct (Z.leb_spec 0 i); [|lia]. simpl. rewrite (proj2 V). wp_step. unfold fill_nil. wp_step. apply wp_thread. simpl.
  destruct (Z.leb_spec (zlen pre + i) (zlen pre + zlen S)).
  - wp_step. replace i with (zlen S) in * by lia. apply (wp_settop S post); [done|].
    replace (zlen S - zlen S) with 0 in H by lia. simpl in H. by rewrite app_nil_r, drop_0 in H.
  - unfold stacksize. simpl. rewrite !zlen_app.
    destruct (Z.ltb_spec (zlen pre + zlen S) 0); [lia|]. simpl.
    destruct (Z.ltb_spec (zlen pre + (zlen S + zlen post)) (zlen pre + i)); [lia|].
    eapply wp_putbody; [apply V|]. cbv beta. unfold settop, putth. wp_step. eapply wp_gco2th; [apply lookup_insert_eq|].
    eapply wp_putbody; [apply lookup_insert_eq|]. unfold set_body, on_heap. simpl. rewrite insert_insert_eq.
    unfold put, with_slots, on_heap in H.
    replace (clear_slots _ _ _) with (pre ++ (S ++ replicate (Z.to_nat (i - zlen S)) VNil) ++ drop (Z.to_nat (i - zlen S)) post).
    2:{ unfold clear_slots. rewrite (app_assoc pre S post). unfold zlen in *.
        rewrite take_app_length' by (rewrite length_app; lia).
        replace (Z.to_nat (_ + i - 1 + 1)) with (length (pre ++ S) + Z.to_nat (i - Z.of_nat (length S)))%nat by (rewrite length_app; lia).
        rewrite drop_app_add, <- !app_assoc. do 4 f_equal. lia. }
    replace (zlen pre + i) with (zlen pre + zlen (S ++ replicate (Z.to_nat (i - zlen S)) VNil)); [exact H|].
    rewrite zlen_app. unfold zlen. rewrite length_replicate. unfold zlen in *. lia.
Qed.

End Slots.

(** room for [size] values above the top, the stack growing if it must *)
Lemma wp_room L m th pre g S post size (Q : unit -> GState -> Prop) :
  Stk g L m th pre S post -> 0 <= size ->
  (forall tb post', size < zlen post' -> Q tt (put (set_totalbytes g tb) L m th pre S post')) ->
  wp (gafqD_checkstack L size) Q g.
Proof.
  intros V Hs HQ. unfold gafqD_checkstack. wp_step. eapply wp_thread; [exact V|].
  pose proof (zlen_nonneg post). pose proof (zlen_nonneg S). pose proof (zlen_nonneg pre).
  destruct (Z.leb_spec (stack_last (with_slots th pre S post) - top (with_slots th pre S post)) size) as [Hl|Hl].
  2:{ wp_step. unfold stack_last, stacksize in Hl. simpl in Hl. rewrite !zlen_app in Hl.
      specialize (HQ (totalbytes g) post). unfold EXTRA_STACK in Hl. replace g with (put (set_totalbytes g (totalbytes g)) L m th pre S post); [apply HQ; lia|].
      replace (set_totalbytes g (totalbytes g)) with g by (by destruct g). by apply put_id. }
  assert (forall sz, zlen (pre ++ S ++ post) <= sz -> zlen pre + zlen S + size <= sz -> wp (gafqD_reallocstack L sz) Q g) as HR.
  { intros sz Hsz Hsz'. unfold gafqD_reallocstack. wp_step. eapply wp_thread; [exact V|]. unfold resize_block. wp_step. wp_step.
    eapply wp_putbody; [apply V|]. unfold set_body. simpl. unfold EXTRA_STACK.
    rewrite take_ge by (unfold zlen in *; lia). rewrite <- !app_assoc. unfold stacksize. simpl.
    match goal with |- context [replicate ?k VNil] => set (r := replicate k VNil) end.
    match goal with |- context [set_totalbytes _ ?x] => apply (HQ x (post ++ r)) end.
    unfold r, zlen in *. rewrite !length_app in *. rewrite length_replicate. lia. }
  unfold gafqD_growstack. wp_step. eapply wp_thread; [exact V|]. unfold stacksize. simpl.
  destruct (Z.leb_spec size (zlen (pre ++ S ++ post))); apply HR; rewrite ?zlen_app in *; lia.
Qed.

Lemma wp_checkstack L m th pre g S post size (Q : bool -> GState -> Prop) :
  Stk g L m th pre S post -> cis th <> [] -> 0 < size -> zlen S + size <= GAFQI_MAXCSTACK ->
  (forall tb th' post', base th' = base th -> size < zlen post' ->
     Q true (put (set_totalbytes g tb) L m th' pre S post')) ->
  wp (gafq_checkstack L size) Q g.
Proof.
  intros V Hc Hs Hm HQ. unfold gafq_checkstack. wp_step. eapply wp_thread; [exact V|]. simpl. rewrite (proj2 V).
  pose proof (zlen_nonneg S).
  destruct (Z.ltb_spec GAFQI_MAXCSTACK size); [lia|]. destruct (Z.ltb_spec GAFQI_MAXCSTACK (zlen pre + zlen S - zlen pre + size)); [lia|].
  simpl. destruct (Z.ltb_spec 0 size); [|lia]. wp_step. wp_step. eapply wp_room; [exact V|lia|].
  intros tb post' Hp. cbv beta. set (g1 := put _ _ _ _ _ _ _).
  assert (Stk g1 L m th pre S post') as V1 by (apply Stk_put, V).
  wp_step. eapply wp_thread; [exact V1|]. wp_step. unfold cur_ci. wp_step. eapply wp_thread; [exact V1|].
  unfold get_ci. wp_step. eapply wp_thread; [exact V1|]. unfold ci_index. simpl.
  assert (1 <= zlen (cis th)) as Hl by (destruct (cis th); [done|zlen; pose proof (zlen_nonneg l); lia]).
  destruct (Z.ltb_spec (zlen (cis th) - 1) 0); [lia|].
  destruct (lookup_lt_is_Some_2 (cis th) (Z.to_nat (zlen (cis th) - 1))) as [ci ->]; [unfold zlen in *; lia|].
  wp_step. destruct (ci_top ci <? _).
  - unfold put_ci, putth. wp_step. eapply wp_thread; [exact V1|]. eapply wp_putbody; [apply V1|]. cbv beta. wp_step.
    specialize (HQ tb (set_cis th (vset (cis th) (zlen (cis th) - 1) (set_ci_top ci (zlen pre + zlen S + size)))) post' eq_refl Hp).
    unfold g1, put, on_heap in *. simpl in *. by rewrite insert_insert_eq.
  - wp_step. wp_step. apply HQ; [done|lia].
Qed.
