(* ===== verification/TabState.v ===== *)
(** * An array under the table library: the state of a function that works on its first argument

    [St S f g]: the running function of [L] has the table [h] as its first argument,
    [cmp] as its second one and the temporaries [S] above them; the elements 1 .. [n]
    of the table are [f 1] .. [f n].  The operations of the API that gtablib.c uses
    are operations on [S] and [f]. *)

From stdpp Require Import gmap.
From S2P Require Import Prelude Number Opcodes Object Table TableInv TableSet TableSizes TableSpec Heap Tm Gc Func GcSweep HeapString State Mach VmOps Do Execute Api AuxLib TabLib GcLogic StackView.

Definition upd {A} (f : Z -> A) (i : Z) (v : A) : Z -> A := fun j => if decide (j = i) then v else f j.

(** the object of a value is allocated *)
Definition alive (g : GState) (v : TValue) : Prop :=
  iscollectable v = true -> is_Some (heap g !! gcvalue v).

Definition num_key (i : Z) : TValue := VNumber (cast_num i).

(** the slots a comparison needs, with those that a round of the sort holds *)
Definition SLOTS : Z := 9.

Section TabState.

Context `{Host} `{Calls} (L h : pointer) (cmp : TValue) (n : Z).
Hypothesis Hn : n <= INT_MAX.

Inductive St (S : list TValue) (f : Z -> TValue) (g : GState) : Prop :=
  | mkSt m th pre post mh hs t :
      Stk g L m th pre (VTable h :: cmp :: S) post ->
      SLOTS <= 2 + zlen S + zlen post ->
      heap g !! h = Some (mkObj mh (BTable t)) ->
      wf hs t ->
      (forall i, 1 <= i <= n -> content hs t (num_key i) = f i) ->
      (forall i, 1 <= i <= n -> alive g (f i)) ->
      Forall (alive g) S ->
      St S f g.

Lemma int_index i : 1 <= i <= n -> int_range i.
Proof. unfold int_range, INT_MIN. lia. Qed.

Lemma content_getnum hs t i : 1 <= i <= n -> content hs t (num_key i) = deref t (gafqH_getnum t i).
Proof. intros Hi. unfold content. unfold num_key. by rewrite gafqH_get_cast by (by apply int_index). Qed.

Lemma alive_mono g g' v :
  (forall p, is_Some (heap g !! p) -> is_Some (heap g' !! p)) -> alive g v -> alive g' v.
Proof. intros H1 H2 Hc. by apply H1, H2. Qed.

Lemma insert_grows (g : GState) p o q : is_Some (heap g !! q) -> is_Some (heap (on_heap (insert p o) g) !! q).
Proof. intros E. simpl. apply lookup_insert_is_Some. destruct (decide (p = q)); auto. Qed.

(** a state where the table and the slots are given *)
Lemma St_intro S f g g' m th pre post mh hs t :
  heap g' !! L = Some (mkObj m (BThread (with_slots th pre (VTable h :: cmp :: S) post))) -> base th = zlen pre ->
  SLOTS <= 2 + zlen S + zlen post ->
  heap g' !! h = Some (mkObj mh (BTable t)) -> wf hs t ->
  (forall i, 1 <= i <= n -> content hs t (num_key i) = f i) ->
  (forall p, is_Some (heap g !! p) -> is_Some (heap g' !! p)) ->
  (forall i, 1 <= i <= n -> alive g (f i)) -> Forall (alive g) S -> St S f g'.
Proof.
  intros E1 Hb Hr E2 W C Hg Af As. econstructor; [split; eassumption|done|exact E2|exact W|done| |].
  - intros i Hi. eapply alive_mono; [done|by apply Af].
  - eapply Forall_impl; [exact As|]. intros v. by apply alive_mono.
Qed.

(** only the slots change *)
Lemma St_slots S S' f g m th pre post mh hs t p :
  Stk g L m th pre (VTable h :: cmp :: S) post ->
  heap g !! h = Some (mkObj mh (BTable t)) -> wf hs t ->
  (forall i, 1 <= i <= n -> content hs t (num_key i) = f i) ->
  (forall i, 1 <= i <= n -> alive g (f i)) ->
  SLOTS <= 2 + zlen S' + zlen p -> Forall (alive g) S' ->
  St S' f (put g L m th pre (VTable h :: cmp :: S') p).
Proof.
  intros V Eh W C A Hr As.
  assert (L <> h) as Hne by (intros ->; destruct V as [E _]; congruence).
  eapply St_intro; [apply lookup_insert_eq|apply V|done| |exact W|done| |done|exact As].
  - simpl. by rewrite lookup_insert_ne.
  - intros q. by apply insert_grows.
Qed.

Lemma wp_run_in {A} (k : gc A) Q g : wp k Q g -> wp (run_in L k) Q g.
Proof. unfold wp, run_in. by destruct (k g) as [[a g']|e]. Qed.

Lemma wp_table1 S post m th pre g (Q : pointer -> GState -> Prop) :
  Stk g L m th pre (VTable h :: cmp :: S) post -> Q h g -> wp (table_at L 1) Q g.
Proof.
  intros V HQ. unfold table_at. wp_step. eapply wp_value_pos with (v := VTable h); [exact V| |reflexivity|by wp_step].
  rewrite !zlen_cons. pose proof (zlen_nonneg S). lia.
Qed.

(** [gafq_rawgeti(L, 1, i)] *)
Lemma St_rawgeti S f g i :
  St S f g -> 1 <= i <= n -> 2 + zlen S < SLOTS ->
  wp (gafq_rawgeti L 1 i) (fun _ => St (S ++ [f i]) f) g.
Proof.
  intros [m th pre post mh hs t V Hr Eh W C A As] Hi Hs. unfold gafq_rawgeti.
  wp_step. eapply wp_table1; [exact V|]. cbv beta. wp_step. unfold h_getnum. wp_step.
  eapply wp_gco2h; [exact Eh|]. wp_step. rewrite <- content_getnum with (hs := hs), C by done.
  destruct post as [|x post]; [rewrite zlen_nil in Hr; lia|].
  eapply wp_pushobject; [exact V|reflexivity|]. simpl.
  eapply St_slots; [exact V|done..| |].
  - rewrite zlen_app, zlen_cons, zlen_nil. rewrite zlen_cons in Hr. lia.
  - apply Forall_app. split; [done|]. constructor; [by apply A|done].
Qed.

(** the write barrier changes the mark of the table at most *)
Lemma wp_barriert g mh t v (Q : unit -> GState -> Prop) :
  heap g !! h = Some (mkObj mh (BTable t)) -> alive g v ->
  (forall mh' ga, Q tt (set_grayagain (on_heap (insert h (mkObj mh' (BTable t))) g) ga)) ->
  wp (gafqC_barriert h v) Q g.
Proof.
  intros Eh Av HQ. assert (Q tt g) as Q0.
  { specialize (HQ mh (grayagain g)). unfold on_heap, set_grayagain in HQ. simpl in HQ. rewrite insert_id in HQ by done.
    by destruct g. }
  unfold gafqC_barriert, valiswhite. wp_step. destruct (iscollectable v) eqn:Ec.
  - destruct (Av Ec) as [o Eo]. wp_step. eapply wp_getmarked; [exact Eo|]. cbv beta. wp_step. wp_step.
    eapply wp_getmarked; [exact Eh|]. cbv beta. destruct (_ && _); [|by wp_step].
    unfold gafqC_barrierback. wp_step. eapply wp_mark_with; [exact Eh|]. wp_step. simpl. apply HQ.
  - wp_step. wp_step. eapply wp_getmarked; [exact Eh|]. cbv beta. simpl. by wp_step.
Qed.

Lemma getnum_slot hs t i f : 1 <= i <= n -> content hs t (num_key i) = f i -> f i <> VNil ->
  exists s, gafqH_getnum t i = Some s /\ gafqH_get hs t (num_key i) = Some s.
Proof.
  intros Hi C Hf. rewrite content_getnum in C by done. destruct (gafqH_getnum t i) as [s|] eqn:E; [|by simpl in C].
  exists s. split; [done|]. unfold num_key. rewrite gafqH_get_cast; [done|by apply int_index].
Qed.

(** [gafq_rawseti(L, 1, i)] on an element that exists *)
Lemma St_rawseti S f g i v :
  St (S ++ [v]) f g -> 1 <= i <= n -> f i <> VNil ->
  wp (gafq_rawseti L 1 i) (fun _ => St S (upd f i v)) g.
Proof.
  intros [m th pre post mh hs t V Hr Eh W C A As] Hi Hf. unfold gafq_rawseti.
  apply Forall_app in As as [As Av]. apply Forall_inv in Av as Av. rewrite zlen_app, zlen_cons, zlen_nil in Hr.
  assert (L <> h) as Hne by (intros ->; destruct V as [E _]; congruence).
  wp_step. eapply wp_table1; [exact V|]. cbv beta. wp_step. apply wp_run_in. unfold h_setnum, h_slot. wp_step.
  eapply wp_gco2h; [exact Eh|]. wp_step. wp_step.
  destruct (getnum_slot hs t i f Hi (C i Hi) Hf) as (s & Es & Es').
  assert (gafqH_setnum (ts_hash_of (id g)) t i = Ok (t, s)) as -> by (unfold gafqH_setnum, gafqH_setnum_; by rewrite Es).
  wp_step. unfold update_table. wp_step. eapply wp_putbody; [exact Eh|]. cbv beta. unfold resize_block. wp_step. wp_step.
  wp_step. set (g1 := set_totalbytes _ _).
  assert (heap g1 = heap g) as E1 by (subst g1; simpl; apply insert_id; by rewrite Eh).
  clearbody g1.
  assert (Stk g1 L m th pre (VTable h :: cmp :: S ++ [v]) post) as V1 by (split; [rewrite E1|]; apply V).
  eapply wp_top_value; [exact V1| |reflexivity|].
  { pose proof (zlen_nonneg S). zlen. }
  assert (vget VNil (VTable h :: cmp :: S ++ [v]) (zlen (VTable h :: cmp :: S ++ [v]) - 1) = v) as ->.
  { change (VTable h :: cmp :: S ++ [v]) with ((VTable h :: cmp :: S) ++ [v]). rewrite zlen_app.
    rewrite vget_app_r by (zlen; lia). by replace (_ + zlen [v] - 1 - _) with 0 by (zlen; lia). }
  cbv beta. wp_step. unfold slot_put. wp_step. eapply wp_gco2h; [rewrite E1; exact Eh|].
  eapply wp_putbody; [rewrite E1; exact Eh|]. cbv beta. unfold set_body. simpl. set (t' := set_slot t s v).
  pose proof (set_slot_written hs t (num_key i) s v (wf_hash _ _ W) (okkey_cast i)) as Wr.
  specialize (Wr ltac:(unfold array_ok; rewrite (wf_array _ _ W); lia) Es').
  set (g2 := on_heap _ g1).
  wp_step. eapply (wp_barriert g2 mh t').
  { subst g2. simpl. by rewrite lookup_insert_eq. }
  { eapply alive_mono; [|exact Av]. intros q. unfold g2. rewrite <- E1. by apply insert_grows. }
  intros mh' ga. cbv beta. set (g3 := set_grayagain _ ga).
  assert (heap g3 !! L = heap g !! L) as EL.
  { subst g3 g2. simpl. by rewrite !lookup_insert_ne, E1. }
  assert (Stk g3 L m th pre (VTable h :: cmp :: S ++ [v]) post) as V3 by (split; [rewrite EL|]; apply V).
  change 1 with (zlen [v]). eapply wp_pop; [exact V3|by rewrite !app_comm_cons|].
  eapply (St_intro S (upd f i v) g _ m th pre ([v] ++ post) mh' hs t').
  - apply lookup_insert_eq.
  - apply V.
  - rewrite zlen_app, zlen_cons, zlen_nil. lia.
  - unfold put. simpl. rewrite lookup_insert_ne by done. subst g3. simpl. by rewrite lookup_insert_eq.
  - split; [apply Wr|]. unfold t'. rewrite (wr_length _ _ _ _ _ Wr), (wr_size _ _ _ _ _ Wr). apply (wf_array _ _ W).
  - intros j Hj. rewrite (wr_content _ _ _ _ _ Wr) by apply okkey_cast. unfold upd, num_key.
    destruct (decide (j = i)) as [->|Hji]; [by rewrite rawequal_refl by apply okkey_nan, okkey_cast|].
    destruct (gafqO_rawequalObj _ _) eqn:R; [|by apply C].
    destruct Hji. symmetry. apply cast_num_inj; [by apply int_index..|]. exact R.
  - intros q Hq. unfold put. simpl. apply lookup_insert_is_Some. destruct (decide (L = q)); [by left|right; split; [done|]].
    subst g3 g2. simpl. rewrite E1. rewrite insert_insert_eq. apply lookup_insert_is_Some. destruct (decide (h = q)); auto.
  - intros j Hj. unfold upd. destruct (decide _); [done|by apply A].
  - done.
Qed.

(** [gafq_pop] *)
Lemma St_pop S T f g k :
  St (S ++ T) f g -> zlen T = k -> 0 < k -> wp (gafq_pop L k) (fun _ => St S f) g.
Proof.
  intros [m th pre post mh hs t V Hr Eh W C A As] Hk Hk0. unfold gafq_pop, gafq_settop. apply Forall_app in As as [As _].
  wp_step. eapply wp_thread; [exact V|]. destruct (Z.leb_spec 0 (- k - 1)); [lia|]. simpl.
  replace (zlen pre + _ + (- k - 1 + 1)) with (zlen pre + zlen (VTable h :: cmp :: S)) by (zlen).
  eapply (wp_settop _ _ _ _ _ _ _ V _ (T ++ post)); [simpl; by rewrite <- app_assoc|].
  eapply St_slots; [exact V|done..| |done]. zlen.
Qed.

(** [gafq_pushvalue(L, -1)] *)
Lemma St_pushvalue S f g v :
  St (S ++ [v]) f g -> 3 + zlen S < SLOTS -> wp (gafq_pushvalue L (-1)) (fun _ => St (S ++ [v; v]) f) g.
Proof.
  intros [m th pre post mh hs t V Hr Eh W C A As] Hs. unfold gafq_pushvalue. pose proof (zlen_nonneg S).
  wp_step. change (-1) with (- (1)). eapply wp_value_neg with (v := v); [exact V|done|zlen| |].
  { rewrite !app_comm_cons, zlen_app, vget_app_r by zlen. by replace (_ + zlen [v] - 1 - _) with 0 by zlen. }
  destruct post as [|x post]; [zlen|]. eapply wp_pushobject; [exact V|reflexivity|].
  change [v; v] with ([v] ++ [v]). rewrite <- !app_comm_cons, <- app_assoc. eapply St_slots; [exact V|done..| |]; [zlen|].
  apply Forall_app in As as [As Av]. by repeat apply Forall_app_2.
Qed.

Lemma St_pushnil S f g : St S f g -> 2 + zlen S < SLOTS -> wp (gafq_pushnil L) (fun _ => St (S ++ [VNil]) f) g.
Proof.
  intros [m th pre post mh hs t V Hr Eh W C A As] Hs. unfold gafq_pushnil.
  destruct post as [|x post]; [zlen|]. eapply wp_pushobject; [exact V|reflexivity|].
  rewrite <- !app_comm_cons. eapply St_slots; [exact V|done..| |]; [zlen|].
  apply Forall_app. split; [done|]. constructor; [|done]. by intros Hc.
Qed.

Lemma St_ext S f f' g : St S f g -> (forall i, 1 <= i <= n -> f i = f' i) -> St S f' g.
Proof.
  intros [m th pre post mh hs t V Hr Eh W C A As] E. econstructor; [done..| | |done].
  - intros i Hi. by rewrite <- E, C.
  - intros i Hi. rewrite <- E by done. by apply A.
Qed.

End TabState.

(** ** The arguments of a function of the library *)

(** the function is called on the table [h], whose length is [n], and the arguments [args]; a
    C function has [GAFQ_MINSTACK] slots above its arguments *)
Inductive Called (L h : pointer) (args : list TValue) (n : Z) (f : Z -> TValue) (g : GState) : Prop :=
  | mkCalled m th pre post mh t :
      Stk g L m th pre (VTable h :: args) post -> cis th <> [] -> GAFQ_MINSTACK <= zlen post ->
      heap g !! h = Some (mkObj mh (BTable t)) -> wf (ts_hash_of g) t ->
      gafqH_getn t = Ok n ->
      (forall i, 1 <= i <= n -> content (ts_hash_of g) t (num_key i) = f i) ->
      (forall i, 1 <= i <= n -> alive g (f i)) ->
      Called L h args n f g.

Section Called.

Context `{Host} `{Calls} (L h : pointer) (args : list TValue) (n : Z) (f : Z -> TValue).
Hypothesis Hn : 0 <= n <= INT_MAX.

(** [aux_getn(L, 1)]; nothing changes *)
Lemma wp_aux_getn g (Q : Z -> GState -> Prop) : Called L h args n f g -> Q n g -> wp (aux_getn L 1) Q g.
Proof.
  intros [m th pre post mh t V Hc Hp Eh W En C A] HQ. unfold aux_getn, gafqL_checktype. wp_step. wp_step.
  pose proof (zlen_nonneg args). pose proof (zlen_nonneg post).
  eapply (wp_type_pos _ _ _ _ _ _ _ V 1 (VTable h)); [zlen|done|]. simpl ttype. rewrite Z.eqb_refl. wp_step.
  unfold gafqL_getn, gafq_objlen. wp_step. wp_step. eapply (wp_index_pos _ _ _ _ _ _ _ V 1); [zlen|]. cbv beta. wp_step. simpl addr_get.
  eapply (wp_slot _ _ _ _ _ _ _ V 0 (VTable h)); [zlen|done|]. cbv beta iota. wp_step. eapply wp_gco2h; [exact Eh|]. wp_step.
  rewrite En. unfold wp, object_op. simpl. unfold size_t, s32, SIZE_MOD, UINT_MOD, INT_MAX in *.
  rewrite Z.mod_small with (b := 18446744073709551616) by lia. rewrite Z.mod_small by lia.
  by replace (n + 2147483648 - 2147483648) with n by lia.
Qed.

Lemma Called_room g size (Q : bool -> GState -> Prop) :
  Called L h args n f g -> 0 < size -> 1 + zlen args + size <= GAFQI_MAXCSTACK ->
  (forall g' m th pre post mh hs t,
     Stk g' L m th pre (VTable h :: args) post -> size < zlen post ->
     heap g' !! h = Some (mkObj mh (BTable t)) -> wf hs t ->
     (forall i, 1 <= i <= n -> content hs t (num_key i) = f i) ->
     (forall i, 1 <= i <= n -> alive g' (f i)) -> Q true g') ->
  wp (gafq_checkstack L size) Q g.
Proof.
  intros [m th pre post mh t V Hc Hp Eh W En C A] Hs Hm HQ.
  assert (L <> h) as Hne by (intros ->; destruct V as [E _]; congruence).
  eapply wp_checkstack; [exact V|done|done|zlen|]. intros tb th' post' Hb Hp'.
  eapply (HQ _ m th' pre post' mh (ts_hash_of g) t); [apply Stk_put; rewrite Hb; apply V|done| |done|done|].
  - simpl. by rewrite lookup_insert_ne.
  - intros i Hi. eapply alive_mono; [|by apply A]. intros q. by apply (insert_grows (set_totalbytes g tb)).
Qed.

End Called.
