(* ===== verification/Samples.v ===== *)
(** * Small states

    A host with the order of the bytes as its collation, and a state whose main thread
    runs a function with given arguments; they evaluate, and the theorems about the
    interpreter are applied to them. *)

From stdpp Require Import gmap.
From S2P Require Import Prelude Number Opcodes Object Proto Table TableInv TableInsert TableSet TableSizes TableSpec Heap Tm Gc Func GcSweep HeapString State StateProofs Mach VmOps Do Execute Call StackView.

Fixpoint byte_order (a b : bytes) : Z :=
  match a, b with
  | [], [] => 0
  | [], _ => -1
  | _, [] => 1
  | x :: a, y :: b => if x <? y then -1 else if y <? x then 1 else byte_order a b
  end.

Definition sample_host : Host := {|
  fresh := next_free; strtod := fun _ => (cast_num 0, 0); strtoul16 := fun _ => (cast_num 0, 0);
  number2str := fun n => int_str (gafq_number2int n); pointer2str := int_str;
  strcoll := byte_order; num_pow := fun a _ => a; rounds := 100%nat
|}.

(** no call returns *)
Definition sample_calls : Calls := calls (H := sample_host) (fun _ _ _ => stuck Fuel) 0.

(** the main thread of [initial_state 1], with a stack, in a function called with [args] *)
Definition frame (args : list TValue) : GState :=
  put (initial_state 1) 1 0 (init_stack preinit_state) [VNil] args (replicate 44 VNil).

Lemma frame_stk args : Stk (frame args) 1 0 (init_stack preinit_state) [VNil] args (replicate 44 VNil).
Proof. by apply Stk_put. Qed.

Definition array_table (l : list TValue) : Table := mkTable 255 0 None l (zlen l) [dummynode_] true 0.

Lemma array_table_wf ts_hash l : zlen l <= MAXASIZE -> wf ts_hash (array_table l).
Proof.
  intros Hl. split; [|simpl; unfold zlen; lia]. apply whash_empty; try done; simpl; try done.
  - split; [apply zlen_nonneg|done].
  - by intros [|[|i]].
Qed.

(** [frame] with tables in the object memory *)
Definition with_table (h : pointer) (t : Table) (g : GState) : GState := on_heap (insert h (mkObj 0 (BTable t))) g.
