(* ===== verification/VmProofs.v ===== *)
(** * The operations of the virtual machine are what they should be

    The order of strings is the order of their bytes, zeros included; what the code
    generator folds is what the interpreter computes; loads, stores and chains of
    metatables. *)

From stdpp Require Import gmap.
From S2P Require Import Prelude Number Opcodes Object Table TableInv TableInsert TableSet TableSizes TableSpec Code Heap Tm Gc Func GcSweep HeapString State Mach VmOps Do Execute Api AuxLib TabLib GcLogic StackView TabState Samples.

(** ** The order of strings *)

Definition is_bytes (s : bytes) : Prop := Forall (fun c => 0 <= c) s.

(** [strcoll] in the C locale: the order of the bytes of two C strings *)
Class CLocale `{Host} : Prop :=
  strcoll_bytes a b : ~ 0 ∈ a -> ~ 0 ∈ b -> Z.sgn (strcoll a b) = byte_order a b.

Lemma cstr_no_zero s : ~ 0 ∈ cstr s.
Proof.
  induction s as [|c s IH]; simpl; [by intros ?%not_elem_of_nil|]. destruct (Z.eqb_spec c 0); [by intros ?%not_elem_of_nil|].
  intros [?|?]%elem_of_cons; [by subst|done].
Qed.

(** the pieces before the first zeros decide when they differ *)
Lemma byte_order_cstr l r : is_bytes l -> is_bytes r ->
  byte_order (cstr l) (cstr r) <> 0 -> byte_order l r = byte_order (cstr l) (cstr r).
Proof.
  revert r. induction l as [|x l IH]; intros [|y r] Hl Hr; simpl; [done| |..].
  - by destruct (y =? 0).
  - by destruct (x =? 0).
  - apply Forall_cons in Hl as [Hx Hl], Hr as [Hy Hr].
    destruct (Z.eqb_spec x 0), (Z.eqb_spec y 0); simpl; subst; [done| | |].
    + destruct (Z.ltb_spec 0 y); [done|lia].
    + destruct (Z.ltb_spec x 0); [lia|]. destruct (Z.ltb_spec 0 x); [done|lia].
    + destruct (x <? y); [done|]. destruct (y <? x); [done|]. by apply IH.
Qed.

Lemma byte_order_eq a b : byte_order a b = 0 -> a = b.
Proof.
  revert b. induction a as [|x a IH]; intros [|y b]; simpl; try done.
  destruct (Z.ltb_spec x y); [done|]. destruct (Z.ltb_spec y x); [done|]. intros E. apply IH in E as ->. f_equal. lia.
Qed.

(** otherwise the rest decides *)
Lemma byte_order_drop l r : cstr l = cstr r ->
  byte_order l r = byte_order (drop (length (cstr l)) l) (drop (length (cstr l)) r).
Proof.
  revert r. induction l as [|x l IH]; intros [|y r]; simpl; try done; [by destruct (x =? 0)|].
  destruct (Z.eqb_spec x 0), (Z.eqb_spec y 0); simpl; try done. intros [= <- E]. rewrite Z.ltb_irrefl. by apply IH.
Qed.

(** what follows the first piece is nothing, or a zero *)
Lemma cstr_rest s :
  (zlen (cstr s) = zlen s /\ drop (length (cstr s)) s = []) \/
  (zlen (cstr s) < zlen s /\ drop (length (cstr s)) s = 0 :: drop (Z.to_nat (zlen (cstr s) + 1)) s).
Proof.
  induction s as [|c s IH]; [by left|]. simpl cstr. destruct (Z.eqb_spec c 0) as [->|Hc].
  - right. split; [|done]. rewrite zlen_nil, zlen_cons. pose proof (zlen_nonneg s). lia.
  - destruct IH as [[E1 E2]|[E1 E2]]; [left|right]; simpl; rewrite !zlen_cons; split; try lia; try done.
    rewrite E2. f_equal. replace (Z.to_nat (1 + zlen (cstr s) + 1)) with (S (Z.to_nat (zlen (cstr s) + 1))) by (unfold zlen; lia). done.
Qed.

Lemma l_strcmp_spec `{CLocale} fuel l r : is_bytes l -> is_bytes r -> (length l < fuel)%nat ->
  exists z, l_strcmp_ fuel l r = Some z /\ Z.sgn z = byte_order l r.
Proof.
  revert l r. induction fuel as [|fuel IH]; intros l r Hl Hr Hf; [lia|]. cbn [l_strcmp_].
  pose proof (strcoll_bytes (cstr l) (cstr r) (cstr_no_zero l) (cstr_no_zero r)) as Hc.
  destruct (Z.eqb_spec (strcoll (cstr l) (cstr r)) 0) as [E|E]; cbn [negb].
  2:{ eexists. split; [done|]. rewrite Hc. symmetry. apply byte_order_cstr; [done..|]. lia. }
  rewrite E in Hc. symmetry in Hc. apply byte_order_eq in Hc as Ec. rewrite (byte_order_drop l r Ec).
  pose proof (cstr_rest l) as Rl. pose proof (cstr_rest r) as Rr. rewrite <- Ec in Rr. cbv zeta.
  destruct Rr as [[Er Dr]|[Er Dr]], Rl as [[El Dl]|[El Dl]]; rewrite Dl, Dr.
  - destruct (Z.eqb_spec (zlen (cstr l)) (zlen r)); [|lia]. destruct (Z.eqb_spec (zlen (cstr l)) (zlen l)); [|lia]. by eexists.
  - destruct (Z.eqb_spec (zlen (cstr l)) (zlen r)); [|lia]. destruct (Z.eqb_spec (zlen (cstr l)) (zlen l)); [lia|]. by eexists.
  - destruct (Z.eqb_spec (zlen (cstr l)) (zlen r)); [lia|]. destruct (Z.eqb_spec (zlen (cstr l)) (zlen l)); [|lia]. by eexists.
  - destruct (Z.eqb_spec (zlen (cstr l)) (zlen r)); [lia|]. destruct (Z.eqb_spec (zlen (cstr l)) (zlen l)); [lia|]. cbn [byte_order].
    change (0 <? 0) with false. cbv iota. apply IH; [by apply Forall_drop..|]. rewrite length_drop. unfold zlen in *. lia.
Qed.

(** C17: with the collation of the C locale the comparison of two strings ends within the
    rounds it is given and is the order of their bytes, also where they contain zeros:
    [l_strcmp] returns a negative number, 0 or a positive number. *)
Theorem l_strcmp_order `{CLocale} ls rs l r ml mr g :
  heap g !! ls = Some (mkObj ml (BString l)) -> heap g !! rs = Some (mkObj mr (BString r)) ->
  is_bytes (tsv_str l) -> is_bytes (tsv_str r) ->
  exists z, l_strcmp ls rs g = Ok (z, g) /\ Z.sgn z = byte_order (tsv_str l) (tsv_str r).
Proof.
  intros El Er Hl Hr. destruct (l_strcmp_spec (S (length (tsv_str l))) (tsv_str l) (tsv_str r) Hl Hr ltac:(lia)) as (z & E & Hz).
  assert (wp (l_strcmp ls rs) (fun z' g' => z' = z /\ g' = g) g) as W.
  { unfold l_strcmp. wp_step. eapply wp_gco2ts; [exact El|]. wp_step. eapply wp_gco2ts; [exact Er|]. rewrite E. by wp_step. }
  apply wp_ok in W as (z' & g' & E' & -> & ->). by exists z.
Qed.

#[export] Instance sample_locale : @CLocale sample_host.
Proof.
  intros a b _ _. simpl. revert b. induction a as [|x a IH]; intros [|y b]; simpl; try done.
  destruct (x <? y); [done|]. by destruct (y <? x).
Qed.

(** a zero inside, and a string that is the beginning of another *)
Definition two_strings : GState :=
  on_heap (insert 301 (mkObj 0 (BString (mkStringObj 0 0 [97; 0; 98])))) (on_heap (insert 300 (mkObj 0 (BString (mkStringObj 0 0 [97; 0])))) (frame [])).

Lemma l_strcmp_order_witness : exists z, l_strcmp (H := sample_host) 300 301 two_strings = Ok (z, two_strings) /\ Z.sgn z = -1.
Proof.
  apply (l_strcmp_order (H := sample_host) 300 301 (mkStringObj 0 0 [97; 0]) (mkStringObj 0 0 [97; 0; 98]) 0 0); [by vm_compute..| |]; repeat constructor; lia.
Defined.

(** ** Constant folding and execution *)

(** the operand [x] of an instruction means the value [v] *)
Definition reads (L cl : pointer) (base x : Z) (v : TValue) (g : GState) : Prop :=
  exists l, RK cl base x g = Ok (l, g) /\ loc_value L l g = Ok (v, g).

Definition is_arith (op : OpCode) : bool :=
  match op with OP_ADD | OP_SUB | OP_MUL | OP_DIV | OP_MOD | OP_POW | OP_UNM => true | _ => false end.

Lemma wp_exact {A} (m : gc A) a (Q : A -> GState -> Prop) g : m g = Ok (a, g) -> Q a g -> wp m Q g.
Proof. unfold wp. by intros ->. Qed.

(** the number that an arithmetic instruction computes *)
Definition arith_result `{Host} (op : OpCode) (a b : gafq_Number) : gafq_Number :=
  match op with
  | OP_ADD => gafqi_numadd a b | OP_SUB => gafqi_numsub a b | OP_MUL => gafqi_nummul a b | OP_DIV => gafqi_numdiv a b
  | OP_MOD => gafqi_nummod a b | OP_POW => num_pow a b | _ => gafqi_numunm a
  end.

Lemma folded_result `{Host} op e1 e2 e : is_arith op = true -> constfolding num_pow op e1 e2 = Some e ->
  nval e = arith_result op (nval e1) (nval e2).
Proof.
  intros Ha. unfold constfolding. destruct (negb (isnumeral e1) || negb (isnumeral e2)); [done|]. cbv zeta.
  destruct op; try done; simpl; repeat (destruct (gafqi_numeq _ _); [done|]); by destruct (gafqi_numisnan _); intros [= <-].
Qed.

Lemma exec_arith `{Host} `{Calls} L cl pc i nexeccalls op a b m th pre regs post g :
  Stk g L m th pre regs post -> is_arith op = true -> op_of (GET_OPCODE i) = Some op -> GETARG_A i < zlen regs ->
  reads L cl (zlen pre) (GETARG_B i) (VNumber a) g -> (op = OP_UNM -> ISK (GETARG_B i) = false) ->
  (op <> OP_UNM -> reads L cl (zlen pre) (GETARG_C i) (VNumber b) g) ->
  wp (exec_op L cl (zlen pre) pc i nexeccalls)
     (fun s g' => s = Next (zlen pre) pc /\ g' = put g L m th pre (vset regs (GETARG_A i) (VNumber (arith_result op a b))) post) g.
Proof.
  intros V Ha Ho Hr (lb & Eb & Vb) Hk Hc. pose proof (GETARG_range i) as Rg. destruct (decide (op = OP_UNM)) as [->|Hne].
  - unfold exec_op. rewrite Ho. unfold op_UNM, RB. wp_step. specialize (Hk eq_refl). unfold RK in Eb. rewrite Hk in Eb.
    injection Eb as <-. simpl in Vb. eapply wp_exact; [exact Vb|]. cbv beta iota. wp_step. unfold RA.
    eapply wp_setslot; [exact V|lia|]. cbv beta. by wp_step.
  - destruct (Hc Hne) as (lc & Ec & Vc).
    assert (forall tm, arith_op tm a b = Some (arith_result op a b) ->
      wp (op_arith L cl (zlen pre) pc i tm) (fun s g' => s = Next (zlen pre) pc /\
        g' = put g L m th pre (vset regs (GETARG_A i) (VNumber (arith_result op a b))) post) g) as W.
    { intros tm En. unfold op_arith, RKB, RKC. wp_step. eapply wp_exact; [exact Eb|]. cbv beta. wp_step.
      eapply wp_exact; [exact Ec|]. cbv beta. wp_step. eapply wp_exact; [exact Vb|]. cbv beta. wp_step.
      eapply wp_exact; [exact Vc|]. cbv beta iota. rewrite En. wp_step. unfold RA. eapply wp_setslot; [exact V|lia|]. cbv beta. by wp_step. }
    unfold exec_op. rewrite Ho. destruct op; try discriminate Ha; try (exfalso; apply Hne; reflexivity); apply W; unfold arith_op, arith_result; reflexivity.
Qed.

(** C16: what the code generator folds is what the interpreter would compute: if an
    arithmetic operation on two numerals is folded, then executing the instruction on the
    same two numbers puts the folded number into its target register, changes nothing else
    and goes on with the next instruction. *)
Theorem folded_as_executed `{Host} `{Calls} L cl pc i nexeccalls op e1 e2 e m th pre regs post g :
  constfolding num_pow op e1 e2 = Some e -> is_arith op = true ->
  Stk g L m th pre regs post -> op_of (GET_OPCODE i) = Some op -> GETARG_A i < zlen regs ->
  reads L cl (zlen pre) (GETARG_B i) (VNumber (nval e1)) g -> (op = OP_UNM -> ISK (GETARG_B i) = false) ->
  (op <> OP_UNM -> reads L cl (zlen pre) (GETARG_C i) (VNumber (nval e2)) g) ->
  exec_op L cl (zlen pre) pc i nexeccalls g =
    Ok (Next (zlen pre) pc, put g L m th pre (vset regs (GETARG_A i) (VNumber (nval e))) post).
Proof.
  intros Hf Ha V Ho Hr Hb Hk Hc. rewrite (folded_result op e1 e2 e Ha Hf).
  pose proof (exec_arith L cl pc i nexeccalls op (nval e1) (nval e2) m th pre regs post g V Ha Ho Hr Hb Hk Hc) as W.
  apply wp_ok in W as (s & g' & E & -> & ->). exact E.
Qed.

Lemma folded_as_executed_witness :
  exec_op (H := sample_host) (H0 := sample_calls) 1 7 1 4 (CREATE_ABC 12 0 0 1) 1 (frame (VNumber <$> [cast_num 6; cast_num 7])) =
    Ok (Next 1 4, put (frame (VNumber <$> [cast_num 6; cast_num 7])) 1 0 (init_stack preinit_state) [VNil] (VNumber <$> [cast_num 13; cast_num 7]) (replicate 44 VNil)).
Proof.
  apply (folded_as_executed (H := sample_host) (H0 := sample_calls) 1 7 4 (CREATE_ABC 12 0 0 1) 1 OP_ADD
    (mkExp VKNUM 0 0 (cast_num 6) NO_JUMP NO_JUMP) (mkExp VKNUM 0 0 (cast_num 7) NO_JUMP NO_JUMP)
    (mkExp VKNUM 0 0 (cast_num 13) NO_JUMP NO_JUMP) 0 (init_stack preinit_state) [VNil] (VNumber <$> [cast_num 6; cast_num 7]) (replicate 44 VNil) (frame (VNumber <$> [cast_num 6; cast_num 7]))
    ltac:(by vm_compute) ltac:(done) (frame_stk _) ltac:(by vm_compute) ltac:(by vm_compute)); [|by vm_compute|].
  - exists (AtStack 1). split; by vm_compute.
  - intros _. exists (AtStack 2). split; by vm_compute.
Defined.

(** * Tables under the virtual machine *)

(** ** The metatable stays *)

Section Metatable.

Variable ts_hash : pointer -> Z.

Definition keeps_mt (nk : newkey_fun) : Prop := forall t key t' s, nk t key = Ok (t', s) -> metatable t' = metatable t.

Lemma set_slot_mt t s v : metatable (set_slot t s v) = metatable t.
Proof. by destruct s. Qed.

Lemma setnodevector_mt t size t' : setnodevector t size = Ok t' -> metatable t' = metatable t.
Proof. unfold setnodevector. destruct (size =? 0); [by intros [= <-]|]. by destruct (MAXBITS <? _); intros [= <-]. Qed.

Lemma set_mt nk t key t' s : keeps_mt nk -> gafqH_set_ ts_hash nk t key = Ok (t', s) -> metatable t' = metatable t.
Proof.
  intros K. unfold gafqH_set_. destruct (gafqH_get ts_hash t key); [by intros [= <- <-]|].
  destruct (ttisnil key); [done|]. destruct (is_nan key); [done|]. by intros ->%K.
Qed.

Lemma reinsert_array_mt nk t i l t' : keeps_mt nk -> reinsert_array nk t i l = Ok t' -> metatable t' = metatable t.
Proof.
  intros K. revert t i. induction l as [|v l IH]; intros t i; simpl; [by intros [= <-]|].
  destruct (negb (ttisnil v)); [|apply IH]. destruct (gafqH_setnum_ nk t (i + 1)) as [[t1 s]|] eqn:E; [|done].
  intros H%IH. rewrite H, set_slot_mt. unfold gafqH_setnum_ in E. destruct (gafqH_getnum t (i + 1)); [by injection E as <-|by eapply K].
Qed.

Lemma reinsert_nodes_mt nk t l t' : keeps_mt nk -> reinsert_nodes ts_hash nk t l = Ok t' -> metatable t' = metatable t.
Proof.
  intros K. revert t. induction l as [|o l IH]; intros t; simpl; [by intros [= <-]|].
  destruct (negb (ttisnil (i_val o))); [|apply IH]. destruct (gafqH_set_ ts_hash nk t (i_key o)) as [[t1 s]|] eqn:E; [|done].
  intros H%IH. rewrite H, set_slot_mt. by eapply set_mt.
Qed.

Lemma resize_mt nk t a b t' : keeps_mt nk -> resize_ ts_hash nk t a b = Ok t' -> metatable t' = metatable t.
Proof.
  intros K. unfold resize_. set (t0 := if sizearray t <? a then _ else t). assert (metatable t0 = metatable t) as <- by (subst t0; by destruct (_ <? _)).
  destruct (setnodevector t0 b) as [t1|] eqn:E1; [|done]. apply setnodevector_mt in E1. rewrite <- E1. simpl.
  destruct (a <? sizearray t); simpl.
  - destruct (reinsert_array _ _ _ _) as [t2|] eqn:E2; [|done]. apply reinsert_array_mt in E2; [|done]. simpl in E2.
    intros H%reinsert_nodes_mt; [|done]. by rewrite H.
  - by apply reinsert_nodes_mt.
Qed.

Lemma rehash_mt nk t ek t' : keeps_mt nk -> rehash_ ts_hash nk t ek = Ok t' -> metatable t' = metatable t.
Proof.
  intros K. unfold rehash_. destruct (numusearray _ _) as [n1 nums1]. destruct (numusehash _ _ _) as [[u nums2] n2].
  destruct (countint _ _) as [c nums3]. destruct (computesizes _ _) as [na nn]. by apply resize_mt.
Qed.

Lemma getfreepos_mt t t' n : getfreepos t = (t', n) -> metatable t' = metatable t.
Proof. unfold getfreepos. by destruct (getfreepos_loop _ _); intros [= <- _]. Qed.

Lemma move_colliding_mt t a b c t' : move_colliding t a b c = Ok t' -> metatable t' = metatable t.
Proof. unfold move_colliding. destruct (find_previous _ _ _); [|done]. by intros [= <-]. Qed.

Lemma put_key_mt t mp key t' s : put_key t mp key = Ok (t', s) -> metatable t' = metatable t.
Proof. by intros [= <- _]. Qed.

Lemma newkey_mt fuel : keeps_mt (newkey ts_hash fuel).
Proof.
  induction fuel as [|fuel IH]; intros t key t' s; cbn [newkey]; (destruct (_ || _); [|apply put_key_mt]);
    destruct (getfreepos t) as [t1 n] eqn:E1; apply getfreepos_mt in E1; rewrite <- E1; destruct n as [n|].
  1,3: destruct (negb _); [|by intros ->%put_key_mt];
    destruct (move_colliding _ _ _ _) as [t2|] eqn:E2; [|done]; simpl; intros ->%put_key_mt; by eapply move_colliding_mt.
  - done.
  - destruct (rehash_ _ _ t1 key) as [t2|] eqn:E2; [|done]. simpl. intros ->%set_mt; [|done]. by eapply rehash_mt.
Qed.

Lemma gafqH_set_mt t key t' s : gafqH_set ts_hash t key = Ok (t', s) -> metatable t' = metatable t.
Proof. apply set_mt, newkey_mt. Qed.

End Metatable.

(** ** The contents depend on the hashes of strings only *)

Lemma gafqH_get_hash hs hs' t key : (forall p, hs p = hs' p) -> gafqH_get hs t key = gafqH_get hs' t key.
Proof.
  intros E. assert (mainposition hs t key = mainposition hs' t key) as Em.
  { destruct key; simpl; unfold hashstr; by rewrite ?E. }
  destruct key; simpl; unfold get_default, gafqH_getstr, hashstr in *; rewrite ?Em, ?E; done.
Qed.

(** the hashes of strings when only a table changed *)
Lemma hash_of_table (g g' : GState) h mh t o : heap g !! h = Some (mkObj mh (BTable t)) ->
  heap g' = <[h := o]> (heap g) -> body_tt (body o) = GAFQ_TTABLE -> forall p, ts_hash_of g' p = ts_hash_of g p.
Proof.
  intros E E' Ho p. unfold ts_hash_of. rewrite E'. destruct (decide (p = h)) as [->|]; [|by rewrite lookup_insert_ne].
  rewrite lookup_insert_eq, E. by destruct o as [? []].
Qed.

(** ** Store and load *)

Section Access.

Context `{Host} `{Calls} (L h : pointer).

Lemma wp_h_set g mh t key (Q : Slot -> GState -> Prop) :
  heap g !! h = Some (mkObj mh (BTable t)) -> wf (ts_hash_of g) t -> okkey key = true -> entry_count t < 2 ^ 26 ->
  (forall t' s tb, set_spec (ts_hash_of g) t key t' s -> metatable t' = metatable t ->
     Q s (set_totalbytes (on_heap (insert h (mkObj mh (BTable t'))) g) tb)) ->
  wp (h_set h key) Q g.
Proof.
  intros Eh W Hk Hc HQ. unfold h_set, h_slot. wp_step. eapply wp_gco2h; [exact Eh|]. wp_step. wp_step.
  change (ts_hash_of (id g)) with (ts_hash_of g).
  destruct (gafqH_set_total (ts_hash_of g) t key W Hk) as [(t' & s & E & Hs)|[_ L2]]; [|change MAXASIZE with (2 ^ 26) in L2; lia].
  rewrite E. apply gafqH_set_mt in E. unfold update_table. wp_step. wp_step. eapply wp_putbody; [exact Eh|]. cbv beta.
  unfold resize_block. wp_step. wp_step. by apply HQ.
Qed.

(** [setobj2t], the cache of absent methods and the barrier *)
Lemma wp_store g mh t s v (Q : unit -> GState -> Prop) :
  heap g !! h = Some (mkObj mh (BTable t)) -> alive g v ->
  (forall mh' ga, Q tt (set_grayagain (on_heap (insert h (mkObj mh' (BTable (with_flags (set_slot t s v) 0)))) g) ga)) ->
  wp (store L h s v) Q g.
Proof.
  intros Eh Av HQ. unfold store, slot_put. wp_step. wp_step. eapply wp_gco2h; [exact Eh|]. eapply wp_putbody; [exact Eh|]. cbv beta.
  unfold set_body. simpl. wp_step. eapply wp_gco2h; [apply lookup_insert_eq|]. wp_step. eapply wp_putbody; [apply lookup_insert_eq|]. cbv beta.
  unfold on_heap, set_body. simpl. rewrite insert_insert_eq.
  eapply (wp_barriert h _ mh (with_flags (set_slot t s v) 0)); [apply lookup_insert_eq| |].
  - eapply alive_mono; [|exact Av]. intros q. by apply (insert_grows g).
  - intros mh' ga. unfold on_heap. simpl. rewrite insert_insert_eq. apply HQ.
Qed.

(** the state after a store: only the table changed *)
Definition stored (g : GState) (t : Table) (key v : TValue) (g' : GState) : Prop :=
  exists mh' t', heap g' = <[h := mkObj mh' (BTable t')]> (heap g) /\ wf (ts_hash_of g') t' /\ metatable t' = metatable t /\
    forall k, okkey k = true -> content (ts_hash_of g') t' k = if gafqO_rawequalObj key k then v else content (ts_hash_of g) t k.

Lemma wf_hash_ext hs hs' t : (forall p, hs p = hs' p) -> wf hs t -> wf hs' t.
Proof.
  intros E [[]]. split; [|done].
  assert (forall key, mainposition hs t key = mainposition hs' t key) as Em by (intros key; destruct key; simpl; unfold hashstr; by rewrite ?E).
  split; try done.
  - intros i Hi. rewrite <- Em. by apply wh_main.
  - intros i j Hi Hj. rewrite <- !Em. by apply wh_own.
Qed.

Lemma stored_intro g g' mh mh' t t' s key v :
  heap g !! h = Some (mkObj mh (BTable t)) -> okkey key = true -> set_spec (ts_hash_of g) t key t' s -> metatable t' = metatable t ->
  heap g' = <[h := mkObj mh' (BTable (with_flags (set_slot t' s v) 0))]> (heap g) -> stored g t key v g'.
Proof.
  intros Eh Hk Hs Hm E. destruct (set_spec_store (ts_hash_of g) t key t' s v Hk Hs) as [W C].
  pose proof (hash_of_table g g' h mh t _ Eh E eq_refl) as Eq.
  eexists mh', _. split; [exact E|]. split; [|split].
  - apply wf_flags. by eapply wf_hash_ext; [|exact W].
  - simpl. by rewrite set_slot_mt.
  - intros k Hk'. rewrite <- C by done. unfold content. by rewrite (gafqH_get_hash _ (ts_hash_of g)).
Qed.

Lemma settable_stored g mh t key v :
  heap g !! h = Some (mkObj mh (BTable t)) -> wf (ts_hash_of g) t -> metatable t = None ->
  okkey key = true -> entry_count t < 2 ^ 26 -> alive g v ->
  wp (gafqV_settable L (Elsewhere (VTable h)) key v) (fun _ => stored g t key v) g.
Proof.
  intros Eh W Hm Hk Hc Av. unfold gafqV_settable, MAXTAGLOOP. change (Z.to_nat 100) with (S (Z.to_nat 99)). cbn [settable_loop].
  wp_step. unfold settable_round. wp_step. simpl loc_value. wp_step. cbv iota. wp_step. apply wp_run_in.
  eapply wp_h_set; [exact Eh|done..|]. intros t' s tb Hs Hm'. set (g1 := set_totalbytes _ tb).
  assert (heap g1 !! h = Some (mkObj mh (BTable t'))) as E1 by apply lookup_insert_eq.
  assert (wp (store L h s v) (fun _ => stored g t key v) g1) as Ws.
  { eapply wp_store; [exact E1| |].
    - eapply alive_mono; [|exact Av]. intros q. by apply (insert_grows g).
    - intros mh' ga. eapply (stored_intro g _ mh mh'); [exact Eh|done|exact Hs|done|]. simpl. by rewrite insert_insert_eq. }
  wp_step. unfold slot_get. wp_step. eapply wp_gco2h; [exact E1|]. wp_step. destruct (negb (ttisnil (slot_val t' s))).
  - wp_step. eapply wp_mono; [exact Ws|]. intros [] g2 H2. cbv beta. wp_step. cbv iota. by wp_step.
  - wp_step. eapply wp_gco2h; [exact E1|]. wp_step. rewrite Hm', Hm. simpl gfasttm. wp_step. cbv iota. wp_step.
    eapply wp_mono; [exact Ws|]. intros [] g2 H2. cbv beta. wp_step. cbv iota. by wp_step.
Qed.

Lemma gettable_loaded g mh t key val v (Q : unit -> GState -> Prop) :
  heap g !! h = Some (mkObj mh (BTable t)) -> metatable t = None -> content (ts_hash_of g) t key = v ->
  wp (setslot L val v) Q g -> wp (gafqV_gettable L (Elsewhere (VTable h)) key val) Q g.
Proof.
  intros Eh Hm <- HQ. unfold gafqV_gettable, MAXTAGLOOP. change (Z.to_nat 100) with (S (Z.to_nat 99)). cbn [gettable_loop].
  wp_step. unfold gettable_round. wp_step. simpl loc_value. wp_step. cbv iota. wp_step. unfold h_get. wp_step.
  eapply wp_gco2h; [exact Eh|]. wp_step. wp_step. wp_step. change (ts_hash_of (id g)) with (ts_hash_of g).
  fold (content (ts_hash_of g) t key). destruct (negb _).
  - wp_step. eapply wp_mono; [exact HQ|]. intros [] g2 H2. cbv beta. wp_step. cbv iota. by wp_step.
  - wp_step. eapply wp_gco2h; [exact Eh|]. wp_step. rewrite Hm. simpl gfasttm. wp_step. cbv iota. wp_step.
    eapply wp_mono; [exact HQ|]. intros [] g2 H2. cbv beta. wp_step. cbv iota. by wp_step.
Qed.

End Access.

(** C11: [t[key] = v] followed by [r = t[k]] in the interpreter, on a table without a metatable
    and with fewer than [2^26] entries: both succeed, and the register [r] holds [v] if [k]
    is raw-equal to [key] and what [t[k]] was before the store otherwise; the rest of the
    stack is as it was. *)
Theorem settable_gettable `{Host} `{Calls} L h g m th pre regs post mh t key v k r :
  Stk g L m th pre regs post -> heap g !! h = Some (mkObj mh (BTable t)) -> wf (ts_hash_of g) t -> metatable t = None ->
  okkey key = true -> okkey k = true -> entry_count t < 2 ^ 26 -> alive g v -> 0 <= r < zlen regs ->
  exists g', (gafqV_settable L (Elsewhere (VTable h)) key v;; gafqV_gettable L (Elsewhere (VTable h)) k (zlen pre + r)) g = Ok (tt, g') /\
    Stk g' L m th pre (vset regs r (if gafqO_rawequalObj key k then v else content (ts_hash_of g) t k)) post.
Proof.
  intros V Eh W Hm Hk Hk' Hc Av Hr.
  assert (L <> h) as Hne by (intros ->; destruct V as [E _]; congruence).
  assert (wp (gafqV_settable L (Elsewhere (VTable h)) key v;; gafqV_gettable L (Elsewhere (VTable h)) k (zlen pre + r))
    (fun _ g' => Stk g' L m th pre (vset regs r (if gafqO_rawequalObj key k then v else content (ts_hash_of g) t k)) post) g) as Wp.
  { wp_step. eapply wp_mono; [by eapply settable_stored|]. intros [] g1 (mh' & t' & E1 & W1 & M1 & C1). cbv beta.
    assert (Stk g1 L m th pre regs post) as V1 by (split; [rewrite E1, lookup_insert_ne by done|]; apply V).
    eapply gettable_loaded; [by rewrite E1, lookup_insert_eq|by rewrite M1|by apply C1|].
    eapply wp_setslot; [exact V1|done|]. apply Stk_put, V. }
  apply wp_ok in Wp as ([] & g' & E & V'). by exists g'.
Qed.

(** [t[true] = 5; r0 = t[true]] on an empty table *)
Lemma settable_gettable_witness :
  exists g', (gafqV_settable (H := sample_host) (H0 := sample_calls) 1 (Elsewhere (VTable 200)) (VBoolean 1) (VNumber (cast_num 5));;
    gafqV_gettable (H := sample_host) (H0 := sample_calls) 1 (Elsewhere (VTable 200)) (VBoolean 1) (1 + 0)) (with_table 200 table0 (frame [VNil])) = Ok (tt, g').
Proof.
  destruct (settable_gettable (H := sample_host) (H0 := sample_calls) 1 200 (with_table 200 table0 (frame [VNil])) 0 (init_stack preinit_state) [VNil] [VNil]
    (replicate 44 VNil) 0 table0 (VBoolean 1) (VNumber (cast_num 5)) (VBoolean 1) 0) as (g' & E & _);
    [split; [by vm_compute|done]|by vm_compute|apply table0_wf|done|done|done|by vm_compute|by intros Hc|by vm_compute|].
  exists g'. exact E.
Defined.

(** ** Indexing through __index tables

    [gafqV_gettable] follows the __index fields of metatables.  [index_step g key h h']:
    the table [h] has no [key], and the __index field of its metatable is the table [h'].
    A chain of less than [MAXTAGLOOP] steps is followed to its end, a longer one is
    reported as a loop. *)

Record index_step (g : GState) (key : TValue) (h h' : pointer) : Prop := {
  is_table : exists mh t mt mm tt', heap g !! h = Some (mkObj mh (BTable t)) /\ content (ts_hash_of g) t key = VNil /\
    metatable t = Some mt /\ heap g !! mt = Some (mkObj mm (BTable tt')) /\
    Z.land (flags tt') (Z.shiftl 1 (tms_index TM_INDEX)) = 0 /\
    deref tt' (gafqH_getstr (ts_hash_of g) tt' (tmname_of g TM_INDEX)) = VTable h'
}.

Inductive follows (g : GState) (key : TValue) : nat -> pointer -> pointer -> Prop :=
  | follows_here h : follows g key 0 h h
  | follows_step n h h' h'' : index_step g key h h' -> follows g key n h' h'' -> follows g key (S n) h h''.

(** the value where a chain ends *)
Definition ends_with (g : GState) (key : TValue) (h : pointer) (v : TValue) : Prop :=
  exists mh t, heap g !! h = Some (mkObj mh (BTable t)) /\ content (ts_hash_of g) t key = v /\ (v <> VNil \/ metatable t = None).

Section Index.

Context `{Host} `{Calls} (L : pointer) (g : GState) (key : TValue) (val : Z).

Lemma round_step h h' : index_step g key h h' -> gettable_round L (Elsewhere (VTable h)) key val g = Ok (Again (Elsewhere (VTable h')), g).
Proof.
  intros [(mh & t & mt & mm & tt' & Eh & C & Em & Emt & Hf & D)].
  assert (wp (gettable_round L (Elsewhere (VTable h)) key val) (fun r g' => r = Again (Elsewhere (VTable h')) /\ g' = g) g) as W.
  2:{ apply wp_ok in W as (r & g' & E & -> & ->). exact E. }
  unfold gettable_round. wp_step. simpl loc_value. wp_step. cbv iota. wp_step. unfold h_get. wp_step.
  eapply wp_gco2h; [exact Eh|]. wp_step. wp_step. wp_step. change (ts_hash_of (id g)) with (ts_hash_of g).
  fold (content (ts_hash_of g) t key). rewrite C. simpl negb. cbv iota. wp_step. eapply wp_gco2h; [exact Eh|]. wp_step. rewrite Em.
  unfold gfasttm. wp_step. eapply wp_gco2h; [exact Emt|]. rewrite Hf, Z.eqb_refl. simpl negb. cbv iota. wp_step. wp_step.
  unfold gafqT_gettm. wp_step. eapply wp_gco2h; [exact Emt|]. wp_step. wp_step. cbv zeta.
  change (id g) with g. rewrite D. change (ttisnil (VTable h')) with false. cbv iota. wp_step. unfold use_tm. change (ttisfunction (VTable h')) with false. cbv iota. by wp_step.
Qed.

Lemma loop_follows n h h' k : follows g key n h h' ->
  gettable_loop (n + k) L (Elsewhere (VTable h)) key val g = gettable_loop k L (Elsewhere (VTable h')) key val g.
Proof.
  induction 1 as [h|n h h1 h' Hs _ IH]; [done|]. rewrite <- IH. cbn [Nat.add gettable_loop].
  unfold mbind at 1, stres_bind at 1. by rewrite (round_step h h1 Hs).
Qed.

Lemma loop_ends k h v (Q : unit -> GState -> Prop) :
  ends_with g key h v -> wp (setslot L val v) Q g -> wp (gettable_loop (S k) L (Elsewhere (VTable h)) key val) Q g.
Proof.
  intros (mh & t & Eh & <- & Hv) HQ. cbn [gettable_loop].
  wp_step. unfold gettable_round. wp_step. simpl loc_value. wp_step. cbv iota. wp_step. unfold h_get. wp_step.
  eapply wp_gco2h; [exact Eh|]. wp_step. wp_step. wp_step. change (ts_hash_of (id g)) with (ts_hash_of g).
  fold (content (ts_hash_of g) t key). set (v := content (ts_hash_of g) t key) in *.
  assert (forall r, r = Done -> wp (setslot L val v) (fun _ => wp (mret r) (fun r => wp match r with Done => mret tt | Again t => gettable_loop k L t key val end Q)) g) as W.
  { intros r ->. eapply wp_mono; [exact HQ|]. intros [] g2 H2. cbv beta. wp_step. by wp_step. }
  destruct (ttisnil v) eqn:Ev; simpl negb; cbv iota.
  - wp_step. eapply wp_gco2h; [exact Eh|]. wp_step.
    destruct Hv as [Hv| ->]; [by destruct v|]. simpl gfasttm. wp_step. cbv iota. wp_step. by apply W.
  - wp_step. by apply W.
Qed.

(** C15: indexing a table whose chain of __index tables ends within [MAXTAGLOOP] tables
    (at one that has the key, or at one without a metatable) stores the value found there,
    nil if there is none, in the target register and changes nothing else. *)
Theorem gettable_chain n h h' v m th pre regs post r :
  Stk g L m th pre regs post -> follows g key n h h' -> ends_with g key h' v -> Z.of_nat n < MAXTAGLOOP ->
  val = zlen pre + r -> 0 <= r < zlen regs ->
  gafqV_gettable L (Elsewhere (VTable h)) key val g = Ok (tt, put g L m th pre (vset regs r v) post).
Proof.
  intros V F Hv Hn Er Hr. unfold gafqV_gettable. replace (Z.to_nat MAXTAGLOOP) with (n + S (Z.to_nat MAXTAGLOOP - n - 1))%nat by lia.
  rewrite (loop_follows n h h' _ F).
  assert (wp (gettable_loop (S (Z.to_nat MAXTAGLOOP - n - 1)) L (Elsewhere (VTable h')) key val)
    (fun _ g' => g' = put g L m th pre (vset regs r v) post) g) as W.
  { eapply loop_ends; [exact Hv|]. rewrite Er. by eapply wp_setslot. }
  apply wp_ok in W as ([] & g' & E & ->). exact E.
Qed.

(** C18: a chain of [MAXTAGLOOP] tables or more, as any cycle of __index tables gives it, is
    not followed forever: the error "loop in gettable" is raised in the state the
    operation began with. *)
Theorem gettable_long_chain h h' :
  follows g key (Z.to_nat MAXTAGLOOP) h h' ->
  gafqV_gettable L (Elsewhere (VTable h)) key val g = gafqG_runerror L "loop in gettable" [] g.
Proof. intros F. unfold gafqV_gettable. rewrite <- (Nat.add_0_r (Z.to_nat MAXTAGLOOP)). by rewrite (loop_follows _ h h' 0 F). Qed.

End Index.

(** ** A chain and a cycle *)

Definition index_meta (h : pointer) : Table :=
  mkTable 0 0 None [] 0 [mkNode (VTable h) (VString 300) None] false 0.

Definition indexed (mt : pointer) : Table := mkTable 255 0 (Some mt) [] 0 [dummynode_] true 0.

(** [__index] is the string at 300; the table 200 is its own __index, the one of 202 is an
    array of a single number *)
Definition index_state : GState :=
  with_table 200 (indexed 201) (with_table 201 (index_meta 200) (with_table 202 (indexed 203) (with_table 203 (index_meta 204)
    (with_table 204 (array_table [VNumber (cast_num 9)])
      (on_heap (insert 300 (mkObj 0 (BString (mkStringObj 0 0 (str "__index"))))) (set_tmname (frame [VNil]) [300])))))).

Lemma index_step_200 : index_step index_state (VNumber (cast_num 1)) 200 200.
Proof.
  split. exists 0, (indexed 201), 201, 0, (index_meta 200). split_and!; by vm_compute.
Qed.

Lemma index_step_202 : index_step index_state (VNumber (cast_num 1)) 202 204.
Proof. split. exists 0, (indexed 203), 203, 0, (index_meta 204). split_and!; by vm_compute. Qed.

Lemma gettable_chain_witness :
  gafqV_gettable (H := sample_host) (H0 := sample_calls) 1 (Elsewhere (VTable 202)) (VNumber (cast_num 1)) 1 index_state =
    Ok (tt, put index_state 1 0 (init_stack preinit_state) [VNil] [VNumber (cast_num 9)] (replicate 44 VNil)).
Proof.
  apply (gettable_chain (H := sample_host) (H0 := sample_calls) 1 index_state (VNumber (cast_num 1)) 1 1 202 204 (VNumber (cast_num 9))
    0 (init_stack preinit_state) [VNil] [VNil] (replicate 44 VNil) 0).
  - split; [by vm_compute|done].
  - eapply follows_step; [exact index_step_202|apply follows_here].
  - exists 0, (array_table [VNumber (cast_num 9)]). split_and!; [by vm_compute|by vm_compute|by left].
  - done.
  - done.
  - by vm_compute.
Defined.

Lemma follows_200 n : follows index_state (VNumber (cast_num 1)) n 200 200.
Proof. induction n as [|n IH]; [apply follows_here|]. eapply follows_step; [exact index_step_200|exact IH]. Qed.

Lemma gettable_long_chain_witness :
  gafqV_gettable (H := sample_host) (H0 := sample_calls) 1 (Elsewhere (VTable 200)) (VNumber (cast_num 1)) 1 index_state =
    gafqG_runerror (H := sample_host) (H0 := sample_calls) 1 "loop in gettable" [] index_state.
Proof. exact (gettable_long_chain (H := sample_host) (H0 := sample_calls) 1 index_state (VNumber (cast_num 1)) 1 200 200 (follows_200 _)). Defined.
