(* ===== verification/DoProofs.v ===== *)
(** * Frames, errors and the stack of the API

    A function that returns leaves its results where its caller expects them, as many
    as it wants; an error goes to the protected call that is running, which finds its
    frame as it was.  At the end, insertion and removal on the stack of a C function. *)

From stdpp Require Import gmap.
From S2P Require Import Prelude Number Opcodes Object Table TableInv TableSizes Heap Tm Gc Func GcSweep HeapString State Mach VmOps Do Execute Call Api AuxLib TabLib GcLogic StackView TabState Samples.

Section Thread.

Context (L : pointer) (m : Z).

(** the state with the thread [L] replaced *)
Definition put_thread (g : GState) (th : Thread) : GState := on_heap (insert L (mkObj m (BThread th))) g.

Lemma put_thread_at g th : heap (put_thread g th) !! L = Some (mkObj m (BThread th)).
Proof. apply lookup_insert_eq. Qed.

Lemma put_thread_twice g th th' : put_thread (put_thread g th) th' = put_thread g th'.
Proof. unfold put_thread, on_heap. simpl. by rewrite insert_insert_eq. Qed.

Context (g : GState) (th : Thread).
Hypothesis E : heap g !! L = Some (mkObj m (BThread th)).

Lemma wp_putth f (Q : unit -> GState -> Prop) : Q tt (put_thread g (f th)) -> wp (putth L f) Q g.
Proof. intros H. unfold putth. wp_step. eapply wp_gco2th; [done|]. by eapply wp_putbody. Qed.

Lemma wp_slot_th i (Q : TValue -> GState -> Prop) :
  0 <= i < stacksize th -> Q (vget VNil (stack th) i) g -> wp (slot L i) Q g.
Proof.
  intros Hi H. unfold slot. wp_step. eapply wp_gco2th; [done|]. unfold in_stack.
  destruct (Z.leb_spec 0 i), (Z.ltb_spec i (stacksize th)); try lia. simpl. by wp_step.
Qed.

Lemma wp_setslot_th i v (Q : unit -> GState -> Prop) :
  0 <= i < stacksize th -> Q tt (put_thread g (set_stack th (vset (stack th) i v))) -> wp (setslot L i v) Q g.
Proof.
  intros Hi H. unfold setslot. wp_step. eapply wp_gco2th; [done|]. unfold in_stack.
  destruct (Z.leb_spec 0 i), (Z.ltb_spec i (stacksize th)); try lia. simpl. by eapply wp_putbody.
Qed.

Lemma wp_get_ci i ci (Q : CallInfo -> GState -> Prop) :
  0 <= i -> cis th !! Z.to_nat i = Some ci -> Q ci g -> wp (get_ci L i) Q g.
Proof.
  intros Hi Hc H. unfold get_ci. wp_step. eapply wp_gco2th; [done|]. destruct (Z.ltb_spec i 0); [lia|]. rewrite Hc. by wp_step.
Qed.

Lemma wp_fill_nil from to (Q : unit -> GState -> Prop) :
  0 <= from -> to <= stacksize th ->
  Q tt (if to <=? from then g else put_thread g (set_stack th (clear_slots (stack th) from (to - 1)))) ->
  wp (fill_nil L from to) Q g.
Proof.
  intros Hf Ht H. unfold fill_nil. wp_step. eapply wp_gco2th; [done|]. destruct (to <=? from); [by wp_step|].
  destruct (Z.ltb_spec from 0); [lia|]. destruct (Z.ltb_spec (stacksize th) to); [lia|]. simpl. by eapply wp_putbody.
Qed.

End Thread.

(** ** Results *)

(** the number of values moved when [n] are there and [i] are wanted, negative for all *)
Definition moved (n i : Z) : Z := if i <? 0 then n else Z.min n i.

Lemma moved_range n i : 0 <= n -> 0 <= moved n i <= n.
Proof. unfold moved. intros. destruct (Z.ltb_spec i 0); lia. Qed.

Lemma moved_step n i : 0 <= n -> i <> 0 -> moved (1 + n) i = 1 + moved n (i - 1).
Proof. unfold moved. intros. destruct (Z.ltb_spec i 0), (Z.ltb_spec (i - 1) 0); lia. Qed.

(** The values [R] above a gap [G] come down, from the first one on. *)
Lemma move_results_ok R : forall L m g th A G P i,
  heap g !! L = Some (mkObj m (BThread th)) -> stack th = A ++ G ++ R ++ P -> G <> [] ->
  wp (move_results (length R) L (zlen A) (zlen A + zlen G) i)
     (fun r g' => r = (zlen A + moved (zlen R) i, i - moved (zlen R) i) /\
        exists G', zlen G' + moved (zlen R) i = zlen G + zlen R + zlen P /\
          g' = put_thread L m g (set_stack th (A ++ take (Z.to_nat (moved (zlen R) i)) R ++ G'))) g.
Proof.
  induction R as [|x R IH]; intros L m g th A G P i E Es HG.
  { unfold moved. change (zlen (@nil TValue)) with 0. cbn [move_results length]. wp_step. replace (if i <? 0 then 0 else Z.min 0 i) with 0 by (destruct (Z.ltb_spec i 0); lia).
    split; [f_equal; lia|]. exists (G ++ P). split; [zlen|]. simpl. rewrite app_nil_l in Es. rewrite <- Es. unfold put_thread, on_heap.
    rewrite insert_id; [by destruct g|]. rewrite E. by destruct th. }
  cbn [move_results length]. pose proof (zlen_nonneg A). pose proof (zlen_nonneg G). pose proof (zlen_nonneg R). pose proof (zlen_nonneg P).
  destruct (Z.eqb_spec i 0) as [->|Hi].
  { wp_step. replace (moved (zlen (x :: R)) 0) with 0 by (unfold moved; simpl; zlen). split; [f_equal; lia|].
    exists (G ++ (x :: R) ++ P). split; [zlen|]. simpl. simpl in Es. rewrite <- Es. unfold put_thread, on_heap.
    rewrite insert_id; [by destruct g|]. rewrite E. by destruct th. }
  wp_step. eapply wp_slot_th; [exact E|unfold stacksize; rewrite Es; zlen|]. wp_step.
  assert (vget VNil (stack th) (zlen A + zlen G) = x) as ->.
  { rewrite Es, !vget_app_r by lia. by replace (zlen A + zlen G - zlen A - zlen G) with 0 by lia. }
  destruct G as [|y G]; [done|]. eapply wp_setslot_th; [exact E|unfold stacksize; rewrite Es; zlen|]. cbv beta.
  assert (vset (stack th) (zlen A) x = (A ++ [x]) ++ (G ++ [x]) ++ R ++ P) as Es'.
  { rewrite Es, vset_app_r by lia. rewrite Z.sub_diag. by rewrite <- !app_assoc. }
  set (th1 := set_stack th _).
  eapply wp_mono.
  - replace (zlen A + 1) with (zlen (A ++ [x])) by zlen.
    replace (zlen A + zlen (y :: G) + 1) with (zlen (A ++ [x]) + zlen (G ++ [x])) by zlen.
    eapply (IH L m _ th1 (A ++ [x]) (G ++ [x]) P (i - 1)); [apply put_thread_at|exact Es'|by destruct G].
  - intros r g' [-> (G' & HG' & ->)]. rewrite zlen_cons, moved_step by (done || lia). pose proof (moved_range (zlen R) (i - 1)).
    split; [f_equal; zlen|]. exists G'. split; [zlen|]. rewrite put_thread_twice. f_equal. unfold th1.
    replace (Z.to_nat (1 + moved (zlen R) (i - 1))) with (S (Z.to_nat (moved (zlen R) (i - 1)))) by lia.
    unfold set_stack. simpl. by rewrite <- app_assoc.
Qed.

(** the results of a call that wants [wanted] of them, [GAFQ_MULTRET] for all *)
Definition adjusted (wanted : Z) (R : list TValue) : list TValue :=
  if wanted =? GAFQ_MULTRET then R else take (Z.to_nat wanted) (R ++ replicate (Z.to_nat wanted) VNil).

Lemma adjusted_moved wanted R : wanted = GAFQ_MULTRET \/ 0 <= wanted ->
  let k := moved (zlen R) wanted in
  adjusted wanted R = take (Z.to_nat k) R ++ replicate (Z.to_nat (Z.max (wanted - k) 0)) VNil.
Proof.
  intros Hw. cbv zeta. unfold adjusted, moved, GAFQ_MULTRET in *. destruct (Z.eqb_spec wanted (-1)) as [->|Hne].
  - simpl. pose proof (zlen_nonneg R). replace (Z.to_nat (Z.max (-1 - zlen R) 0)) with 0%nat by lia.
    simpl. rewrite app_nil_r. unfold zlen. rewrite Nat2Z.id. by rewrite firstn_all.
  - destruct (Z.ltb_spec wanted 0); [lia|]. unfold zlen. rewrite take_app, take_replicate.
    f_equal; [|f_equal; lia]. destruct (Z.leb_spec (Z.of_nat (length R)) wanted).
    + rewrite Z.min_l, !take_ge by lia. done.
    + by rewrite Z.min_r by lia.
Qed.

(** a gap filled with nil *)
Lemma clear_gap A G i : 0 < i <= zlen G ->
  clear_slots (A ++ G) (zlen A) (zlen A + i - 1) = A ++ replicate (Z.to_nat i) VNil ++ drop (Z.to_nat i) G.
Proof.
  intros Hi. unfold clear_slots, zlen in *. rewrite take_app_length' by lia. f_equal.
  replace (Z.to_nat (Z.of_nat (length A) + i - 1 + 1)) with (length A + Z.to_nat i)%nat by lia.
  rewrite drop_app_add. f_equal. f_equal. lia.
Qed.

(** the caller's frame is current again *)
Definition leave (th : Thread) (cs : list CallInfo) (prev : CallInfo) : Thread :=
  set_savedpc (set_base (set_cis th (cs ++ [prev])) (ci_base prev)) (ci_savedpc prev).

Definition set_values (th : Thread) (pre S rest : list TValue) : Thread :=
  set_top (set_stack th (pre ++ S ++ rest)) (zlen pre + zlen S).

Lemma finish_ok L m g th pre T G i (b : bool) : 0 <= i <= zlen G ->
  wp (fill_nil L (zlen pre + zlen T) (zlen pre + zlen T + i);; settop L (zlen pre + zlen T + i);; mret b)
     (fun b' g' => b' = b /\ g' = put_thread L m g (set_values th pre (T ++ replicate (Z.to_nat i) VNil) (drop (Z.to_nat i) G)))
     (put_thread L m g (set_stack th (pre ++ T ++ G))).
Proof.
  intros Hi. pose proof (zlen_nonneg pre). pose proof (zlen_nonneg T). set (th' := set_stack th _).
  wp_step. eapply wp_fill_nil; [apply put_thread_at|lia|unfold stacksize; simpl; zlen|].
  assert (forall st, st = pre ++ (T ++ replicate (Z.to_nat i) VNil) ++ drop (Z.to_nat i) G ->
    wp (settop L (zlen pre + zlen T + i);; mret b) (fun b' g' => b' = b /\ g' = put_thread L m g (set_values th pre (T ++ replicate (Z.to_nat i) VNil) (drop (Z.to_nat i) G)))
      (put_thread L m g (set_stack th st))) as W.
  { intros st ->. wp_step. unfold settop. eapply wp_putth; [apply put_thread_at|]. cbv beta. wp_step. split; [done|].
    rewrite put_thread_twice. unfold set_values. f_equal. unfold set_top, set_stack. simpl. f_equal. zlen. }
  destruct (Z.leb_spec (zlen pre + zlen T + i) (zlen pre + zlen T)).
  - apply W. replace i with 0 by lia. simpl. by rewrite app_nil_r, drop_0.
  - rewrite put_thread_twice. unfold th'. replace (set_stack (set_stack _ _) _) with (set_stack th (clear_slots (pre ++ T ++ G) (zlen pre + zlen T) (zlen pre + zlen T + i - 1))) by done.
    apply W. rewrite app_assoc. replace (zlen pre + zlen T) with (zlen (pre ++ T)) by zlen. rewrite clear_gap by lia. by rewrite <- !app_assoc.
Qed.

(** C14: when a function returns the values [R] at the top of its stack, [gafqD_poscall] puts
    them where the function was, cut or filled with nil to the number that the caller
    wants (or all of them), makes the top follow the last one and the frame of the caller
    current; what is below is as it was. *)
Theorem poscall_adjusts L m g th cs prev ci pre G R P :
  heap g !! L = Some (mkObj m (BThread th)) -> cis th = cs ++ [prev; ci] ->
  stack th = pre ++ G ++ R ++ P -> G <> [] -> ci_func ci = zlen pre -> top th = zlen pre + zlen G + zlen R ->
  ci_nresults ci = GAFQ_MULTRET \/ 0 <= ci_nresults ci <= zlen (G ++ R ++ P) ->
  exists rest, gafqD_poscall L (zlen pre + zlen G) g =
      Ok (negb (ci_nresults ci =? GAFQ_MULTRET),
          put_thread L m g (set_values (leave th cs prev) pre (adjusted (ci_nresults ci) R) rest)) /\
    zlen (adjusted (ci_nresults ci) R) + zlen rest = zlen (G ++ R ++ P).
Proof.
  intros E Ec Es HG Hf Ht Hw. set (wanted := ci_nresults ci) in *. set (res := adjusted wanted R).
  assert (wp (gafqD_poscall L (zlen pre + zlen G)) (fun b g' => b = negb (wanted =? GAFQ_MULTRET) /\ exists rest,
    g' = put_thread L m g (set_values (leave th cs prev) pre res rest) /\ zlen res + zlen rest = zlen (G ++ R ++ P)) g) as W.
  2:{ apply wp_ok in W as (b & g' & Eq & -> & rest & -> & Hr). by exists rest. }
  assert (ci_index th = zlen cs + 1) as Hci by (unfold ci_index; rewrite Ec; zlen). pose proof (zlen_nonneg cs).
  unfold gafqD_poscall. wp_step. eapply wp_gco2th; [exact E|]. cbv zeta. rewrite Hci. wp_step.
  eapply (wp_get_ci _ _ _ _ E _ ci); [lia| |].
  { rewrite Ec. unfold zlen. replace (Z.to_nat (Z.of_nat (length cs) + 1)) with (length cs + 1)%nat by lia. by rewrite lookup_app_r, Nat.add_sub' by lia. }
  wp_step. eapply (wp_get_ci _ _ _ _ E _ prev); [lia| |].
  { rewrite Ec. unfold zlen. replace (Z.to_nat (Z.of_nat (length cs) + 1 - 1)) with (length cs) by lia. by rewrite lookup_app_r, Nat.sub_diag by lia. }
  cbv beta. wp_step. eapply wp_putth; [exact E|]. cbv beta. wp_step.
  replace (take (Z.to_nat (zlen cs + 1)) (cis th)) with (cs ++ [prev]).
  2:{ rewrite Ec. unfold zlen. replace (Z.to_nat (Z.of_nat (length cs) + 1)) with (length cs + 1)%nat by lia. by rewrite take_app_add. }
  fold (leave th cs prev). rewrite Hf, Ht. fold wanted.
  replace (Z.to_nat _) with (length R) by (unfold zlen; lia).
  eapply wp_mono; [eapply move_results_ok; [apply put_thread_at|exact Es|done]|].
  intros r g1 [-> (G' & HG' & ->)]. cbv beta iota zeta. rewrite put_thread_twice.
  pose proof (zlen_nonneg R) as HR. pose proof (moved_range (zlen R) wanted HR) as Hk. pose proof (adjusted_moved wanted R) as Ha. cbv zeta in Ha.
  assert (zlen (take (Z.to_nat (moved (zlen R) wanted)) R) = moved (zlen R) wanted) as Hl.
  { unfold zlen in *. rewrite length_take. lia. }
  set (k := moved (zlen R) wanted) in *. set (i := Z.max (wanted - k) 0) in *.
  assert (0 <= i <= zlen G') as Hi.
  { unfold i, k, moved, GAFQ_MULTRET in *. rewrite !zlen_app in Hw. pose proof (zlen_nonneg G'). destruct (Z.ltb_spec wanted 0); lia. }
  pose proof (finish_ok L m g (leave th cs prev) pre (take (Z.to_nat k) R) G' i (negb (wanted =? GAFQ_MULTRET)) Hi) as F. rewrite Hl in F.
  eapply wp_mono; [exact F|]. intros b g' [-> ->]. split; [done|]. exists (drop (Z.to_nat i) G').
  unfold res. rewrite Ha by (destruct Hw; [by left|right; lia]). split; [done|]. fold i. zlen.
  unfold zlen in *. rewrite length_drop. lia.
Qed.

Definition returning : GState :=
  put_thread 1 0 (initial_state 1)
    (set_top (set_cis (set_stack (init_stack preinit_state) (VNumber <$> [cast_num 0; cast_num 1; cast_num 2; cast_num 3; cast_num 4]))
      [mkCI 1 0 5 7 0 0; mkCI 2 1 5 0 3 0]) 5).

(** a function with one local variable returns two values, and three are wanted *)
Lemma poscall_adjusts_witness : exists b g', gafqD_poscall 1 3 returning = Ok (b, g').
Proof.
  destruct (poscall_adjusts 1 0 returning
    (set_top (set_cis (set_stack (init_stack preinit_state) (VNumber <$> [cast_num 0; cast_num 1; cast_num 2; cast_num 3; cast_num 4]))
      [mkCI 1 0 5 7 0 0; mkCI 2 1 5 0 3 0]) 5) [] (mkCI 1 0 5 7 0 0) (mkCI 2 1 5 0 3 0)
    [VNumber (cast_num 0)] (VNumber <$> [cast_num 1; cast_num 2]) (VNumber <$> [cast_num 3; cast_num 4]) []) as (rest & E & _);
    [by vm_compute|done..|right; split; by vm_compute|].
  eexists _, _. exact E.
Defined.

(** ** Errors *)

(** no variable of the slots from [level] on is captured *)
Definition no_open_from (g : GState) (th : Thread) (level : Z) : Prop :=
  match openupval th with
  | [] => True
  | p :: _ => exists mu th' lv pr nx, heap g !! p = Some (mkObj mu (BUpVal (UOpen th' lv pr nx))) /\ lv < level
  end.

Lemma wp_close_nothing L m g th level (Q : unit -> GState -> Prop) :
  heap g !! L = Some (mkObj m (BThread th)) -> no_open_from g th level -> Q tt g -> wp (gafqF_close L level) Q g.
Proof.
  intros E Hn HQ. unfold gafqF_close. wp_step. eapply wp_gco2th; [exact E|]. unfold no_open_from in Hn.
  destruct (openupval th) as [|p l]; cbn [close_loop]; [by wp_step|]. destruct Hn as (mu & th' & lv & pr & nx & Ep & Hl).
  wp_step. eapply wp_gco2uv; [exact Ep|]. cbv beta iota. destruct (Z.leb_spec level lv); [lia|]. by wp_step.
Qed.

(** what [gafqD_pcall] gives back of the thread *)
Record restored (th th1 : Thread) (ci : CallInfo) (old_top : Z) (th' : Thread) : Prop := {
  r_stack : stack th' = vset (stack th1) old_top (vget VNil (stack th1) (top th1 - 1));
  r_top : top th' = old_top + 1;
  r_cis : cis th' = take (length (cis th)) (cis th1);
  r_base : base th' = ci_base ci;
  r_savedpc : savedpc th' = ci_savedpc ci;
  r_nCcalls : nCcalls th' = nCcalls th;
  r_allowhook : allowhook th' = allowhook th;
  r_errfunc : errfunc th' = errfunc th
}.

Lemma wp_restore_limit L m g th (Q : unit -> GState -> Prop) :
  heap g !! L = Some (mkObj m (BThread th)) ->
  (forall n tb, Q tt (set_totalbytes (put_thread L m g (set_size_ci th n)) tb)) -> wp (restore_stack_limit L) Q g.
Proof.
  intros E HQ. unfold restore_stack_limit. wp_step. eapply wp_gco2th; [exact E|]. destruct (_ && _).
  - unfold gafqD_reallocCI, resize_block. wp_step. eapply wp_gco2th; [exact E|]. wp_step. wp_step. eapply wp_putbody; [exact E|].
    match goal with |- context [set_totalbytes _ ?x] => apply (HQ GAFQI_MAXCALLS x) end.
  - wp_step. specialize (HQ (size_ci th) (totalbytes g)). unfold put_thread, on_heap in HQ. rewrite insert_id in HQ.
    + by destruct g.
    + rewrite E. by destruct th.
Qed.

Section Errors.

Context `{Host} `{Calls} (L : pointer).

(** the message of a run-time or syntax error goes to [oldtop] *)
Lemma wp_seterrorobj m g th errcode oldtop (Q : unit -> GState -> Prop) :
  heap g !! L = Some (mkObj m (BThread th)) -> errcode = GAFQ_ERRRUN \/ errcode = GAFQ_ERRSYNTAX ->
  0 < top th <= stacksize th -> 0 <= oldtop < stacksize th ->
  Q tt (put_thread L m g (set_top (set_stack th (vset (stack th) oldtop (vget VNil (stack th) (top th - 1)))) (oldtop + 1))) ->
  wp (gafqD_seterrorobj L errcode oldtop) Q g.
Proof.
  intros E He Ht Ho HQ. unfold gafqD_seterrorobj. wp_step.
  replace (errcode =? GAFQ_ERRMEM) with false by (by destruct He as [->| ->]).
  replace (errcode =? GAFQ_ERRERR) with false by (by destruct He as [->| ->]).
  replace ((errcode =? GAFQ_ERRSYNTAX) || (errcode =? GAFQ_ERRRUN)) with true by (by destruct He as [->| ->]).
  wp_step. unfold gettop. wp_step. eapply wp_gco2th; [exact E|]. wp_step. wp_step. eapply wp_slot_th; [exact E|lia|].
  eapply wp_setslot_th; [exact E|lia|]. cbv beta. unfold settop. eapply wp_putth; [apply put_thread_at|]. by rewrite put_thread_twice.
Qed.

Lemma pcall_error m g th func old_top ef errcode g1 m1 th1 ci :
  heap g !! L = Some (mkObj m (BThread th)) -> cis th <> [] ->
  func (put_thread L m g (set_errfunc th ef)) = Err (Thrown L errcode g1) ->
  errcode = GAFQ_ERRRUN \/ errcode = GAFQ_ERRSYNTAX ->
  heap g1 !! L = Some (mkObj m1 (BThread th1)) -> cis th1 !! Z.to_nat (ci_index th) = Some ci ->
  no_open_from g1 th1 old_top -> 0 < top th1 <= stacksize th1 -> 0 <= old_top < stacksize th1 ->
  exists g' th', gafqD_pcall L func old_top ef g = Ok (errcode, g') /\
    heap g' = <[L := mkObj m1 (BThread th')]> (heap g1) /\ restored th th1 ci old_top th'.
Proof.
  intros E Hc Hf He E1 Hci Hn Ht Ho. assert (0 <= ci_index th /\ Z.to_nat (ci_index th + 1) = length (cis th)) as [Hi Hi'].
  { unfold ci_index, zlen. destruct (cis th); [done|simpl; lia]. }
  assert (wp (gafqD_pcall L func old_top ef) (fun r g' => r = errcode /\ exists th',
    heap g' = <[L := mkObj m1 (BThread th')]> (heap g1) /\ restored th th1 ci old_top th') g) as W.
  2:{ apply wp_ok in W as (r & g' & Eq & -> & th' & HR). by exists g', th'. }
  unfold gafqD_pcall. wp_step. eapply wp_gco2th; [exact E|]. cbv zeta. wp_step. eapply wp_putth; [exact E|]. cbv beta. wp_step.
  unfold wp at 1, gafqD_rawrunprotected. rewrite Hf, Z.eqb_refl. cbv beta iota. wp_step.
  replace (errcode =? 0) with false by (by destruct He as [->| ->]). wp_step. eapply wp_close_nothing; [exact E1|done|]. wp_step.
  eapply wp_seterrorobj; [exact E1|done..|]. wp_step. eapply wp_get_ci; [apply put_thread_at|done|exact Hci|]. wp_step.
  eapply wp_putth; [apply put_thread_at|]. cbv beta. rewrite put_thread_twice, Hi'.
  eapply wp_restore_limit; [apply put_thread_at|]. intros n tb. rewrite put_thread_twice. wp_step.
  eapply wp_putth; [apply lookup_insert_eq|]. wp_step. split; [done|]. eexists. split; [simpl; by rewrite insert_insert_eq|]. by split.
Qed.


End Errors.


(** ** The stack operations of the C API *)

(** ** Insertion and removal *)

(** a hole is opened below the values [Y] *)
Lemma open_hole_ok Y : forall L m g th X z P,
  heap g !! L = Some (mkObj m (BThread th)) -> stack th = X ++ Y ++ z :: P ->
  wp (open_hole (length Y) L (zlen X + zlen Y)) (fun _ g' => exists w, g' = put_thread L m g (set_stack th (X ++ w :: Y ++ P))) g.
Proof.
  induction Y as [|y Y IH] using rev_ind; intros L m g th X z P E Es.
  - cbn [open_hole length]. wp_step. exists z. simpl in *. rewrite <- Es. unfold put_thread, on_heap.
    rewrite insert_id; [by destruct g|]. rewrite E. by destruct th.
  - rewrite length_app, Nat.add_comm. cbn [open_hole Nat.add length]. pose proof (zlen_nonneg X). pose proof (zlen_nonneg Y). pose proof (zlen_nonneg P).
    rewrite zlen_app. change (zlen [y]) with 1. wp_step. eapply wp_slot_th; [exact E|unfold stacksize; rewrite Es; zlen|]. cbv beta. wp_step.
    assert (vget VNil (stack th) (zlen X + (zlen Y + 1) - 1) = y) as ->.
    { rewrite Es, <- app_assoc, vget_app_r, vget_app_r by lia. by replace (_ - zlen X - zlen Y) with 0 by lia. }
    eapply wp_setslot_th; [exact E|unfold stacksize; rewrite Es; zlen|]. cbv beta.
    replace (zlen X + (zlen Y + 1) - 1) with (zlen X + zlen Y) by lia.
    eapply wp_mono; [eapply (IH L m _ (set_stack th (X ++ Y ++ y :: y :: P)) X y (y :: P))|].
    + replace (vset (stack th) (zlen X + (zlen Y + 1)) y) with (X ++ Y ++ y :: y :: P); [apply put_thread_at|].
      rewrite Es, <- app_assoc, vset_app_r, vset_app_r by lia. by replace (_ - zlen X - zlen Y) with 1 by lia.
    + done.
    + intros [] g' [w ->]. exists w. rewrite put_thread_twice. unfold set_stack. simpl. by rewrite <- app_assoc.
Qed.

(** the values [Y] come down by one *)
Lemma move_slots_ok Y : forall L m g th X z P,
  heap g !! L = Some (mkObj m (BThread th)) -> stack th = X ++ z :: Y ++ P ->
  wp (move_slots (length Y) L (zlen X) (zlen X + 1)) (fun _ g' => exists w, g' = put_thread L m g (set_stack th (X ++ Y ++ w :: P))) g.
Proof.
  induction Y as [|y Y IH]; intros L m g th X z P E Es.
  - cbn [move_slots length]. wp_step. exists z. simpl in *. rewrite <- Es. unfold put_thread, on_heap.
    rewrite insert_id; [by destruct g|]. rewrite E. by destruct th.
  - cbn [move_slots length]. pose proof (zlen_nonneg X). pose proof (zlen_nonneg Y). pose proof (zlen_nonneg P).
    wp_step. eapply wp_slot_th; [exact E|unfold stacksize; rewrite Es; zlen|]. cbv beta. wp_step.
    assert (vget VNil (stack th) (zlen X + 1) = y) as ->.
    { rewrite Es, vget_app_r by lia. by replace (zlen X + 1 - zlen X) with 1 by lia. }
    eapply wp_setslot_th; [exact E|unfold stacksize; rewrite Es; zlen|]. cbv beta.
    replace (zlen X + 1) with (zlen (X ++ [y])) by zlen.
    eapply wp_mono; [eapply (IH L m _ (set_stack th ((X ++ [y]) ++ y :: Y ++ P)) (X ++ [y]) y P)|].
    + replace (vset (stack th) (zlen X) y) with ((X ++ [y]) ++ y :: Y ++ P); [apply put_thread_at|].
      rewrite Es, vset_app_r, Z.sub_diag by lia. by rewrite <- app_assoc.
    + done.
    + intros [] g' [w ->]. exists w. rewrite put_thread_twice. unfold set_stack. simpl. by rewrite <- app_assoc.
Qed.

Lemma insert_ok L m g th pre A B v x p :
  Stk g L m th pre (A ++ B ++ [v]) (x :: p) ->
  wp (gafq_insert L (zlen A + 1)) (fun _ g' => g' = put g L m th pre (A ++ v :: B) (v :: p)) g.
Proof.
  intros V. pose proof (zlen_nonneg A). pose proof (zlen_nonneg B). pose proof (zlen_nonneg pre). pose proof (zlen_nonneg p).
  unfold gafq_insert. wp_step. eapply wp_index_pos; [exact V|zlen|]. cbv beta iota. wp_step. eapply wp_gettop; [exact V|]. wp_step.
  replace (Z.to_nat _) with (length (B ++ [v])) by (unfold zlen in *; rewrite !length_app; simpl; lia).
  replace (zlen pre + zlen (A ++ B ++ [v])) with (zlen (pre ++ A) + zlen (B ++ [v])) by zlen.
  eapply wp_mono; [eapply (open_hole_ok (B ++ [v]) L m g _ (pre ++ A) x p); [apply V|]|].
  { simpl. by rewrite <- !app_assoc. }
  intros [] g1 [w ->]. cbv beta. wp_step. set (st := (pre ++ A) ++ w :: (B ++ [v]) ++ p).
  eapply wp_slot_th; [apply put_thread_at|unfold stacksize; simpl; subst st; zlen|]. cbv beta. simpl stack.
  assert (vget VNil st (zlen (pre ++ A) + zlen (B ++ [v])) = v) as ->.
  { subst st. rewrite vget_app_r by (zlen). rewrite <- app_assoc.
    replace (w :: B ++ [v] ++ p) with ((w :: B) ++ v :: p) by done. rewrite vget_app_r by zlen.
    by replace (_ - _ - _) with 0 by zlen. }
  eapply wp_setslot_th; [apply put_thread_at|unfold stacksize; simpl; subst st; zlen|]. rewrite put_thread_twice.
  unfold put, put_thread. do 4 f_equal. unfold with_slots, set_top, set_stack. simpl. f_equal; [|zlen].
  subst st. replace (zlen pre + (zlen A + 1 - 1)) with (zlen (pre ++ A)) by zlen. rewrite vset_app_r, Z.sub_diag by lia.
  by rewrite <- !app_assoc.
Qed.

Lemma remove_ok L m g th pre A B v post :
  Stk g L m th pre (A ++ v :: B) post ->
  wp (gafq_remove L (zlen A + 1)) (fun _ g' => exists w, g' = put g L m th pre (A ++ B) (w :: post)) g.
Proof.
  intros V. pose proof (zlen_nonneg A). pose proof (zlen_nonneg B). pose proof (zlen_nonneg pre).
  unfold gafq_remove. wp_step. eapply wp_index_pos; [exact V|zlen|]. cbv beta iota. wp_step. eapply wp_gettop; [exact V|]. wp_step.
  replace (Z.to_nat _) with (length B) by (unfold zlen in *; rewrite !length_app; simpl; lia).
  replace (zlen pre + (zlen A + 1 - 1)) with (zlen (pre ++ A)) by zlen.
  eapply wp_mono; [eapply (move_slots_ok B L m g _ (pre ++ A) v post); [apply V|]|].
  { simpl. by rewrite <- !app_assoc. }
  intros [] g1 [w ->]. cbv beta. unfold settop. eapply wp_putth; [apply put_thread_at|]. exists w. rewrite put_thread_twice.
  unfold put, put_thread. do 4 f_equal. unfold with_slots, set_top, set_stack. simpl. f_equal; [|zlen]. by rewrite <- !app_assoc.
Qed.

(** C19: [gafq_insert] moves the value at the top of the stack to the given place, shifting up
    the ones above it, and [gafq_remove] takes it out there, shifting them down again: what
    remains is the stack without its top. *)
Theorem insert_remove L m g th pre A B v x p :
  Stk g L m th pre (A ++ B ++ [v]) (x :: p) ->
  exists w, gafq_insert L (zlen A + 1) g = Ok (tt, put g L m th pre (A ++ v :: B) (v :: p)) /\
    gafq_remove L (zlen A + 1) (put g L m th pre (A ++ v :: B) (v :: p)) = Ok (tt, put g L m th pre (A ++ B) (w :: v :: p)).
Proof.
  intros V. pose proof (insert_ok L m g th pre A B v x p V) as W. apply wp_ok in W as ([] & g1 & E1 & ->).
  pose proof (remove_ok L m _ th pre A B v (v :: p) (Stk_put L m th pre g (A ++ v :: B) (v :: p) (proj2 V))) as W.
  apply wp_ok in W as ([] & g2 & E2 & w & ->). exists w. split; [done|]. rewrite E2. do 2 f_equal. apply put_put.
Qed.

Lemma insert_remove_witness :
  exists g', gafq_insert 1 2 (frame [VNumber (cast_num 1); VNumber (cast_num 2); VNumber (cast_num 3)]) = Ok (tt, g').
Proof.
  destruct (insert_remove 1 0 (frame [VNumber (cast_num 1); VNumber (cast_num 2); VNumber (cast_num 3)]) (init_stack preinit_state) [VNil] [VNumber (cast_num 1)]
    [VNumber (cast_num 2)] (VNumber (cast_num 3)) VNil (replicate 43 VNil) (frame_stk _)) as (w & E & _).
  eexists. exact E.
Defined.
