(* ===== verification/SortProofs.v ===== *)
(** * Quicksort: [auxsort] sorts

    The elements of the array are a function [f] of the index.  [swaps l u f f']: [f']
    comes from [f] by exchanges of elements between [l] and [u].  For a comparison that
    is a strict weak order on the elements, [auxsort] on [l], [u] ends with [f'] that is
    in order between [l] and [u] and comes from [f] by exchanges there; it calls no
    error and never leaves the interval. *)

From stdpp Require Import gmap.
From S2P Require Import Prelude Number Opcodes Object Table TableInv Heap Tm Gc Func GcSweep HeapString State Mach VmOps Do Execute Api AuxLib TabLib GcLogic StackView TabState.

Definition swap {A} (f : Z -> A) (i j : Z) : Z -> A := upd (upd f i (f j)) j (f i).

Inductive swaps {A} (l u : Z) : (Z -> A) -> (Z -> A) -> Prop :=
  | swaps_refl f f' : (forall k, f k = f' k) -> swaps l u f f'
  | swaps_step f f' i j : l <= i <= u -> l <= j <= u -> swaps l u (swap f i j) f' -> swaps l u f f'.

Lemma upd_eq {A} (f : Z -> A) i v : upd f i v i = v.
Proof. unfold upd. by rewrite decide_True. Qed.

Lemma upd_ne {A} (f : Z -> A) i v k : k <> i -> upd f i v k = f k.
Proof. intros. unfold upd. by rewrite decide_False. Qed.

(** the value of an exchange at every place *)
Lemma swap_at {A} (f : Z -> A) i j k : swap f i j k = if decide (k = j) then f i else if decide (k = i) then f j else f k.
Proof. done. Qed.

Ltac swap_cases := rewrite ?swap_at; repeat case_decide; subst; try lia; try done.

Section Swaps.

Context {A : Type} (l u : Z).
Implicit Types f : Z -> A.

Lemma swaps_ext f1 f2 f' : (forall k, f1 k = f2 k) -> swaps l u f2 f' -> swaps l u f1 f'.
Proof.
  intros E Hs. revert f1 E. induction Hs as [f f' E'|f f' i j Hi Hj _ IH]; intros f1 E.
  - constructor. intros k. by rewrite E.
  - apply (swaps_step _ _ _ _ i j Hi Hj), IH. intros k. rewrite !swap_at. by rewrite !E.
Qed.

Lemma swaps_trans f1 f2 f3 : swaps l u f1 f2 -> swaps l u f2 f3 -> swaps l u f1 f3.
Proof.
  induction 1 as [f f' E|f f' i j Hi Hj _ IH]; intros Hs; [by eapply swaps_ext|].
  apply (swaps_step _ _ _ _ i j); [done..|]. by apply IH.
Qed.

Lemma swaps_one f i j : l <= i <= u -> l <= j <= u -> swaps l u f (swap f i j).
Proof. intros. by apply (swaps_step _ _ _ _ i j); [..|apply swaps_refl]. Qed.

Lemma swaps_weaken l' u' f f' : l' <= l -> u <= u' -> swaps l u f f' -> swaps l' u' f f'.
Proof.
  intros Hl Hu. induction 1 as [f f' E|f f' i j Hi Hj _ IH]; [by apply swaps_refl|].
  apply (swaps_step _ _ _ _ i j); [lia..|done].
Qed.

(** outside of the interval nothing changes *)
Lemma swaps_out f f' k : swaps l u f f' -> k < l \/ u < k -> f' k = f k.
Proof.
  intros Hs Hk. induction Hs as [f f' E|f f' i j Hi Hj _ IH]; [by rewrite E|]. rewrite IH. swap_cases.
Qed.

(** what holds of all elements of the interval still does *)
Lemma swaps_all (P : A -> Prop) f f' :
  swaps l u f f' -> (forall k, l <= k <= u -> P (f k)) -> forall k, l <= k <= u -> P (f' k).
Proof.
  induction 1 as [f f' E|f f' i j Hi Hj _ IH]; intros HP k Hk; [rewrite <- E; auto|].
  apply IH; [|done]. intros k' Hk'. rewrite swap_at. repeat case_decide; auto.
Qed.

End Swaps.

(** the elements from [l] on *)
Definition elems {A} (f : Z -> A) (l n : Z) : list A := f <$> seqZ l n.

Lemma elems_ext {A} (f f' : Z -> A) l n : (forall k, l <= k < l + n -> f k = f' k) -> elems f l n = elems f' l n.
Proof. intros E. apply list_fmap_ext. intros i k Hk. apply E. apply list_elem_of_lookup_2, elem_of_seqZ in Hk. lia. Qed.

Lemma elems_split {A} (f : Z -> A) l n i : l <= i < l + n ->
  elems f l n = elems f l (i - l) ++ f i :: elems f (i + 1) (l + n - i - 1).
Proof.
  intros Hi. unfold elems. replace n with ((i - l) + (l + n - i)) at 1 by lia. rewrite seqZ_app by lia.
  rewrite fmap_app. f_equal. replace (l + (i - l)) with i by lia. rewrite seqZ_cons by lia.
  simpl. do 3 f_equal; lia.
Qed.

Lemma swap_permutation_lt {A} (f : Z -> A) l n i j :
  l <= i -> i < j -> j < l + n -> elems (swap f i j) l n ≡ₚ elems f l n.
Proof.
  intros Hi Hij Hj. rewrite !(elems_split _ l n i) by lia.
  rewrite (elems_split f (i + 1) _ j), (elems_split (swap f i j) (i + 1) _ j) by lia.
  rewrite (elems_ext (swap f i j) f l (i - l)) by (intros; swap_cases).
  rewrite (elems_ext (swap f i j) f (i + 1) (j - (i + 1))) by (intros; swap_cases).
  rewrite (elems_ext (swap f i j) f (j + 1) _) by (intros; swap_cases).
  replace (swap f i j i) with (f j) by swap_cases. replace (swap f i j j) with (f i) by swap_cases.
  apply Permutation_app_head.
  rewrite <- !Permutation_middle. apply perm_swap.
Qed.

Lemma swaps_permutation {A} (f f' : Z -> A) l n : swaps l (l + n - 1) f f' -> elems f' l n ≡ₚ elems f l n.
Proof.
  induction 1 as [f f' E|f f' i j Hi Hj _ IH]; [by rewrite (elems_ext f' f)|]. rewrite IH.
  destruct (Z.lt_trichotomy i j) as [Hl|[->|Hl]].
  - apply swap_permutation_lt; lia.
  - rewrite (elems_ext _ f); [done|]. intros. swap_cases.
  - rewrite (elems_ext _ (swap f j i)); [apply swap_permutation_lt; lia|]. intros. swap_cases.
Qed.

(** ** A strict weak order *)

(** [good] values are the ones that the comparison [lt] orders *)
Class StrictWeak {A} (good : A -> Prop) (lt : A -> A -> bool) : Prop := {
  lt_asym x y : good x -> good y -> lt x y = true -> lt y x = false;
  le_trans x y z : good x -> good y -> good z -> lt y x = false -> lt z y = false -> lt z x = false
}.

Definition le {A} (lt : A -> A -> bool) (x y : A) : Prop := lt y x = false.

Lemma le_refl {A} {good : A -> Prop} {lt} `{!StrictWeak good lt} x : good x -> le lt x x.
Proof. intros Hx. unfold le. destruct (lt x x) eqn:E; [|done]. by rewrite lt_asym in E. Qed.

Definition sorted_in {A} (lt : A -> A -> bool) (l u : Z) (f : Z -> A) : Prop :=
  forall i j, l <= i -> i < j -> j <= u -> le lt (f i) (f j).

Section Sort.

Context `{Host} `{Calls} (L h : pointer) (cmp : TValue) (n : Z).
Hypothesis Hn : n <= INT_MAX.
Context (good : TValue -> Prop) (lt : TValue -> TValue -> bool) `{!StrictWeak good lt}.
Hypothesis good_value : forall v, good v -> v <> VNil.

Notation St := (St L h cmp n).

(** [sort_comp] compares two of the temporaries, and leaves everything as it was *)
Definition compares : Prop := forall f a b S g,
  St S f g -> 1 <= a <= zlen S -> 1 <= b <= zlen S -> zlen S <= 3 ->
  let x := vget VNil S (zlen S - a) in
  let y := vget VNil S (zlen S - b) in
  good x -> good y -> wp (sort_comp L (- a) (- b)) (fun r g' => r = lt x y /\ St S f g') g.

Hypothesis Hcomp : compares.

(** all elements can be compared *)
Definition goods (f : Z -> TValue) : Prop := forall k, 1 <= k <= n -> good (f k).

Lemma goods_swaps l u f f' : 1 <= l -> u <= n -> goods f -> swaps l u f f' -> goods f'.
Proof.
  intros Hl Hu G Hs. apply (swaps_weaken l u 1 n) in Hs; [|done..]. intros k Hk. revert k Hk. by apply (swaps_all 1 n good f).
Qed.

Lemma comp_two f g x y a b (Q : bool -> GState -> Prop) :
  St [x; y] f g -> good x -> good y -> (a = 1 /\ b = 2) \/ (a = 2 /\ b = 1) ->
  (forall g', St [x; y] f g' -> Q (if a =? 1 then lt y x else lt x y) g') ->
  wp (sort_comp L (- a) (- b)) Q g.
Proof.
  intros V Gx Gy [[-> ->]|[-> ->]] HQ; (eapply wp_mono; [by eapply (Hcomp f _ _ _ g V)|]);
    intros r g' [-> V']; by apply HQ.
Qed.

Lemma comp_three f g x y z (Q : bool -> GState -> Prop) :
  St [x; y; z] f g -> good x -> good z -> (forall g', St [x; y; z] f g' -> Q (lt x z) g') ->
  wp (sort_comp L (-3) (-1)) Q g.
Proof.
  intros V Gx Gz HQ. eapply wp_mono; [by eapply (Hcomp f 3 1 _ g V)|]. intros r g' [-> V']. by apply HQ.
Qed.

(** [set2(L, i, j)] with [a[i]] and [a[j]] on the stack exchanges them *)
Lemma St_set2 S f g i j x y :
  St (S ++ [x; y]) f g -> 1 <= i <= n -> 1 <= j <= n -> goods f -> x = f i -> y = f j ->
  wp (set2 L i j) (fun _ => St S (swap f i j)) g.
Proof.
  intros V Hi Hj G -> ->. unfold set2. wp_step.
  eapply wp_mono; [eapply (St_rawseti L h cmp n Hn (S ++ [f i]) f g i (f j)); [by rewrite <- app_assoc|done|by apply good_value, G]|].
  intros [] g' V'. cbv beta in *. eapply wp_mono; [eapply (St_rawseti L h cmp n Hn S); [exact V'|done|]|by intros [] g''].
  unfold upd. case_decide; by apply good_value, G.
Qed.

(** ** The scans *)

(** [i] goes up to the first element that is not less than the pivot; one exists at [e] *)
Lemma scan_up_ok k f g u i e P :
  St [P] f g -> goods f -> good P -> 0 <= i -> i < e -> e <= u -> e <= n -> le lt P (f e) -> e - i <= Z.of_nat k ->
  wp (scan_up k L u i) (fun i' g' => i < i' <= e /\ le lt P (f i') /\ (forall m, i < m < i' -> le lt (f m) P) /\
                                     St [P; f i'] f g') g.
Proof.
  intros V G GP Hi Hie Heu Hen HP. revert i g V Hi Hie. induction k as [|k IH]; intros i g V Hi Hie Hk; [lia|].
  cbn [scan_up]. wp_step. eapply wp_mono; [eapply (St_rawgeti L h cmp n Hn); [exact V|lia|done]|].
  intros [] g1 V1. cbv beta in V1 |- *. wp_step. assert (good (f (i + 1))) as Gi by (apply G; lia).
  eapply (comp_two _ _ _ _ 1 2); [exact V1|done..|by left|]. intros g2 V2. cbv beta. simpl (1 =? 1). cbv iota.
  destruct (lt (f (i + 1)) P) eqn:El.
  - assert (i + 1 <> e) as Hne by (intros Ee; rewrite <- Ee in HP; unfold le in HP; congruence).
    destruct (Z.ltb_spec u (i + 1)); [lia|]. wp_step. wp_step. wp_step.
    eapply wp_mono; [eapply (St_pop L h cmp n [P]); [exact V2|reflexivity|lia]|]. intros [] g3 V3. cbv beta in V3 |- *.
    eapply wp_mono; [eapply (IH (i + 1)); [exact V3|lia..]|]. intros i' g4 (Hi' & Hle & Hm & V4).
    repeat split; [lia..|done| |done]. intros m Hm'. destruct (decide (m = i + 1)) as [->|]; [by apply lt_asym|apply Hm; lia].
  - wp_step. repeat split; [lia..|done| |done]. intros. lia.
Qed.

(** [j] goes down to the first element that is not greater; one exists at [e] *)
Lemma scan_down_ok k f g l j e P x :
  St [P; x] f g -> goods f -> good P -> e < j -> j <= n + 1 -> l <= e -> 1 <= e -> le lt (f e) P -> j - e <= Z.of_nat k ->
  wp (scan_down k L l j) (fun j' g' => e <= j' < j /\ le lt (f j') P /\ (forall m, j' < m < j -> le lt P (f m)) /\
                                       St [P; x; f j'] f g') g.
Proof.
  intros V G GP Hj Hjn Hle He HP. revert j g V Hj Hjn. induction k as [|k IH]; intros j g V Hj Hjn Hk; [lia|].
  cbn [scan_down]. wp_step. eapply wp_mono; [eapply (St_rawgeti L h cmp n Hn); [exact V|lia|done]|].
  intros [] g1 V1. cbv beta in V1 |- *. wp_step. assert (good (f (j - 1))) as Gj by (apply G; lia).
  eapply comp_three; [exact V1|done..|]. intros g2 V2. cbv beta.
  destruct (lt P (f (j - 1))) eqn:El.
  - assert (j - 1 <> e) as Hne by (intros Ee; rewrite <- Ee in HP; unfold le in HP; congruence).
    destruct (Z.ltb_spec (j - 1) l); [lia|]. wp_step. wp_step. wp_step.
    eapply wp_mono; [eapply (St_pop L h cmp n [P; x]); [exact V2|reflexivity|lia]|]. intros [] g3 V3. cbv beta in V3 |- *.
    eapply wp_mono; [eapply (IH (j - 1)); [exact V3|lia..]|]. intros j' g4 (Hj' & Hl' & Hm & V4).
    repeat split; [lia..|done| |done]. intros m Hm'. destruct (decide (m = j - 1)) as [->|]; [by apply lt_asym|apply Hm; lia].
  - wp_step. repeat split; [lia..|done| |done]. intros. lia.
Qed.

(** ** The partition *)

(** the elements up to [i] are at most [P], the ones from [j] on at least *)
Definition split_at (l u i j : Z) (P : TValue) (f : Z -> TValue) : Prop :=
  (forall k, l <= k <= i -> le lt (f k) P) /\ (forall k, j <= k <= u -> le lt P (f k)).

Lemma split_swap l u i j i' j' P f :
  split_at l u i j P f -> i < i' <= j' -> j' < j ->
  le lt P (f i') -> (forall m, i < m < i' -> le lt (f m) P) ->
  le lt (f j') P -> (forall m, j' < m < j -> le lt P (f m)) ->
  split_at l u i' j' P (swap f i' j').
Proof.
  intros [Hl Hu] Hi Hj Hi' Hm Hj' Hm'. split; intros k Hk; rewrite swap_at; repeat case_decide; try done; try lia.
  - by replace i' with j' by lia.
  - destruct (decide (k <= i)); [apply Hl; lia|apply Hm; lia].
  - destruct (decide (j <= k)); [apply Hu; lia|apply Hm'; lia].
Qed.

Lemma partition_loop_ok k f g l u i j P :
  St [P] f g -> goods f -> good P -> 1 <= l -> u <= n -> l <= i < u - 1 -> l < j <= u - 1 -> i <= j ->
  f (u - 1) = P -> split_at l u i j P f -> j - i < Z.of_nat k ->
  wp (partition_loop k L l u i j)
     (fun i' g' => exists f', swaps l u f f' /\ St [] f' g' /\ l < i' <= u - 1 /\ f' (u - 1) = P /\
                              split_at l u (i' - 1) i' P f') g.
Proof.
  intros V G GP Hl Hu. revert f g i j V G.
  induction k as [|k IH]; intros f g i j V G Hi Hj Hij Hp Hs Hk; [lia|].
  assert (le lt P (f (u - 1))) as Hpe by (rewrite Hp; by apply le_refl).
  assert (le lt (f l) P) as Hle by (apply Hs; lia).
  cbn [partition_loop]. wp_step. eapply wp_mono; [eapply (scan_up_ok _ f g u i (u - 1)); try done; lia|].
  intros i' g1 (Hi' & Hpi & Hm & V1). cbv beta. wp_step.
  eapply wp_mono; [eapply (scan_down_ok _ f g1 l j l P); try done; lia|].
  intros j' g2 (Hj' & Hpj & Hm' & V2). cbv beta. destruct (Z.ltb_spec j' i').
  - wp_step. eapply wp_mono; [eapply (St_pop L h cmp n []); [exact V2|reflexivity|lia]|]. intros [] g3 V3. cbv beta. wp_step.
    exists f. split; [by apply swaps_refl|]. repeat split; [done|lia..|done| |].
    + intros m Hm1. destruct (decide (m <= i)); [apply Hs; lia|apply Hm; lia].
    + intros m Hm1. destruct (decide (j <= m)); [apply Hs; lia|apply Hm'; lia].
  - wp_step. eapply wp_mono; [eapply (St_set2 [P]); [exact V2|lia..|done|done|done]|]. intros [] g3 V3. cbv beta.
    eapply wp_mono; [eapply (IH (swap f i' j')); [exact V3| |lia..| | |lia]|].
    + apply (goods_swaps l u f); [done..|apply swaps_one; lia].
    + rewrite swap_at. repeat case_decide; try lia. done.
    + by eapply split_swap; [exact Hs|lia..| | | |].
    + intros i2 g4 (f' & Hs' & HR). exists f'. split; [|done]. eapply swaps_trans; [apply swaps_one|exact Hs']; lia.
Qed.

Lemma partition_ok f g l u :
  St [] f g -> goods f -> 1 <= l -> u <= n -> 3 <= u - l ->
  le lt (f l) (f ((l + u) / 2)) -> le lt (f ((l + u) / 2)) (f u) ->
  wp (partition L l u)
     (fun i g' => exists f', swaps l u f f' /\ St [] f' g' /\ l < i < u /\ split_at l u i i (f' i) f') g.
Proof.
  intros V G Hl Hu Hd H1 H2. unfold partition. set (m := (l + u) / 2) in *.
  assert (l < m < u) as Hm by (subst m; pose proof (Z.div_mod (l + u) 2); pose proof (Z.mod_pos_bound (l + u) 2); lia).
  cbv zeta. wp_step. eapply wp_mono; [eapply (St_rawgeti L h cmp n Hn []); [exact V|lia|done]|]. intros [] g1 V1. cbv beta.
  wp_step. eapply wp_mono; [eapply (St_pushvalue L h cmp n []); [exact V1|done]|]. intros [] g2 V2. cbv beta.
  wp_step. eapply wp_mono; [eapply (St_rawgeti L h cmp n Hn); [exact V2|lia|done]|]. intros [] g3 V3. cbv beta.
  wp_step. eapply wp_mono; [eapply (St_set2 [f m]); [exact V3|lia..|done|done|done]|]. intros [] g4 V4. cbv beta.
  set (f1 := swap f m (u - 1)) in *. assert (swaps l u f f1) as S1 by (apply swaps_one; lia).
  assert (goods f1) as G1 by (by apply (goods_swaps l u f)). assert (good (f m)) as Gm by (apply G; lia).
  wp_step. eapply wp_mono; [eapply (partition_loop_ok _ f1 _ l u l (u - 1)); [exact V4|done|done|lia..| | |lia]|].
  { subst f1. swap_cases. }
  { split; intros k Hk; subst f1; swap_cases; [by replace k with l by lia|by apply le_refl|by replace k with u by lia]. }
  intros i g5 (f2 & S2 & V5 & Hi & Hp & Hs). cbv beta. assert (goods f2) as G2 by (by apply (goods_swaps l u f1)).
  wp_step. eapply wp_mono; [eapply (St_rawgeti L h cmp n Hn []); [exact V5|lia|done]|]. intros [] g6 V6. cbv beta.
  wp_step. eapply wp_mono; [eapply (St_rawgeti L h cmp n Hn); [exact V6|lia|done]|]. intros [] g7 V7. cbv beta.
  wp_step. eapply wp_mono; [eapply (St_set2 []); [exact V7|lia..|done|done|done]|]. intros [] g8 V8. cbv beta. wp_step.
  exists (swap f2 (u - 1) i). split; [|split; [done|split; [lia|]]].
  - eapply swaps_trans; [exact S1|]. eapply swaps_trans; [exact S2|]. apply swaps_one; lia.
  - replace (swap f2 (u - 1) i i) with (f m) by (rewrite swap_at, decide_True; done).
    destruct Hs as [Hs1 Hs2]. split; intros k Hk; rewrite swap_at; repeat case_decide; subst; try lia;
      rewrite ?Hp; try (by apply le_refl); try (apply Hs1; lia); apply Hs2; lia.
Qed.

(** ** The ends and the middle *)

(** [a[i]] and [a[j]] on the stack are exchanged, or dropped *)
Lemma exchange_ok (b : bool) f g i j :
  St [f i; f j] f g -> goods f -> 1 <= i <= n -> 1 <= j <= n ->
  wp (if b then set2 L i j else gafq_pop L 2) (fun _ => St [] (if b then swap f i j else f)) g.
Proof.
  intros V G Hi Hj. destruct b.
  - eapply (St_set2 []); [exact V|done..].
  - eapply (St_pop L h cmp n []); [exact V|done|lia].
Qed.

(** after an exchange by the comparison, two elements are in order *)
Lemma order_swap f i j : goods f -> 1 <= i <= n -> 1 <= j <= n -> i <> j ->
  let f' := if lt (f j) (f i) then swap f i j else f in le lt (f' i) (f' j).
Proof.
  intros G Hi Hj Hne. simpl. destruct (lt (f j) (f i)) eqn:E; [|done]. swap_cases. apply lt_asym; auto.
Qed.

Lemma swaps_if (b : bool) (f : Z -> TValue) l u i j : l <= i <= u -> l <= j <= u -> swaps l u f (if b then swap f i j else f).
Proof. intros. destruct b; [by apply swaps_one|by apply swaps_refl]. Qed.

Lemma middle_ok f g l u m :
  St [f m; f l] f g -> goods f -> 1 <= l -> u <= n -> l < m < u -> le lt (f l) (f u) ->
  wp (if lt (f m) (f l) then set2 L m l
      else
        gafq_pop L 1;;
        gafq_rawgeti L 1 u;;
        lt ← sort_comp L (-1) (-2);
        if (lt : bool) then set2 L m u else gafq_pop L 2)
     (fun _ g' => exists f', swaps l u f f' /\ St [] f' g' /\ le lt (f' l) (f' m) /\ le lt (f' m) (f' u)) g.
Proof.
  intros V G Hl Hu Hm O1. assert (good (f l) /\ good (f m) /\ good (f u)) as (Gl & Gm & Gu) by (repeat split; apply G; lia).
  destruct (lt (f m) (f l)) eqn:E.
  - eapply wp_mono; [eapply (St_set2 []); [exact V|lia..|done|done|done]|]. intros [] g1 V1. exists (swap f m l).
    split; [apply swaps_one; lia|]. split; [done|]. split; swap_cases. by apply lt_asym.
  - wp_step. eapply wp_mono; [eapply (St_pop L h cmp n [f m]); [exact V|done|lia]|]. intros [] g1 V1. cbv beta.
    wp_step. eapply wp_mono; [eapply (St_rawgeti L h cmp n Hn); [exact V1|lia|done]|]. intros [] g2 V2. cbv beta.
    wp_step. eapply (comp_two _ _ _ _ 1 2); [exact V2|done|done|by left|]. intros g3 V3. cbv beta. simpl (1 =? 1). cbv iota.
    eapply wp_mono; [apply (exchange_ok _ f g3 m u); [done..|lia|lia]|]. intros [] g4 V4.
    pose proof (order_swap f m u G ltac:(lia) ltac:(lia) ltac:(lia)) as O2. cbv zeta in O2.
    exists (if lt (f u) (f m) then swap f m u else f). split; [apply swaps_if; lia|]. split; [exact V4|]. split; [|exact O2].
    destruct (lt (f u) (f m)); [|done]. swap_cases.
Qed.

Lemma middle_bounds l u : l + 1 < u -> l < (l + u) / 2 < u.
Proof. intros. pose proof (Z.div_mod (l + u) 2). pose proof (Z.mod_pos_bound (l + u) 2). lia. Qed.

(** three elements *)
Lemma sorted_three f l m u : l < m < u -> u - l = 2 -> goods f -> 1 <= l -> u <= n ->
  le lt (f l) (f m) -> le lt (f m) (f u) -> sorted_in lt l u f.
Proof.
  intros Hm E G Hl Hu H1 H2 i j Hi Hij Hj.
  destruct (decide (i = l)), (decide (j = u)); subst; [|by replace j with m by lia|by replace i with m by lia|lia].
  eapply (le_trans _ (f m)); [apply G; lia..|done|done].
Qed.

Lemma sort_ends_ok f g l u :
  St [] f g -> goods f -> 1 <= l -> u <= n -> l < u ->
  wp (sort_ends L l u)
     (fun more g' => exists f', swaps l u f f' /\ St [] f' g' /\
        if (more : bool) then 3 <= u - l /\ le lt (f' l) (f' ((l + u) / 2)) /\ le lt (f' ((l + u) / 2)) (f' u)
        else sorted_in lt l u f') g.
Proof.
  intros V G Hl Hu Hlu. unfold sort_ends.
  wp_step. eapply wp_mono; [eapply (St_rawgeti L h cmp n Hn []); [exact V|lia|done]|]. intros [] g1 V1. cbv beta.
  wp_step. eapply wp_mono; [eapply (St_rawgeti L h cmp n Hn); [exact V1|lia|done]|]. intros [] g2 V2. cbv beta.
  wp_step. eapply (comp_two _ _ _ _ 1 2); [exact V2|apply G; lia|apply G; lia|by left|]. intros g3 V3. cbv beta. simpl (1 =? 1). cbv iota.
  wp_step. eapply wp_mono; [apply (exchange_ok _ f g3 l u); [done..|lia|lia]|]. intros [] g4 V4. cbv beta.
  pose proof (order_swap f l u G ltac:(lia) ltac:(lia) ltac:(lia)) as O1. cbv zeta in O1.
  set (f1 := if lt (f u) (f l) then _ else f) in *.
  assert (swaps l u f f1) as S1 by (apply swaps_if; lia). assert (goods f1) as G1 by (by apply (goods_swaps l u f)).
  destruct (Z.eqb_spec (u - l) 1) as [E|E].
  { wp_step. exists f1. repeat split; [done..|]. intros i j Hi Hij Hj. by replace i with l by lia; replace j with u by lia. }
  cbv zeta. pose proof (middle_bounds l u ltac:(lia)) as Hm. set (m := (l + u) / 2) in *.
  wp_step. eapply wp_mono; [eapply (St_rawgeti L h cmp n Hn []); [exact V4|lia|done]|]. intros [] g5 V5. cbv beta.
  wp_step. eapply wp_mono; [eapply (St_rawgeti L h cmp n Hn); [exact V5|lia|done]|]. intros [] g6 V6. cbv beta.
  wp_step. eapply (comp_two _ _ _ _ 2 1); [exact V6|apply G1; lia|apply G1; lia|by right|]. intros g7 V7. cbv beta. simpl (2 =? 1). cbv iota.
  wp_step. eapply wp_mono; [by apply (middle_ok f1 g7 l u m)|]. intros [] g8 (f2 & S2 & V8 & O2 & O3). cbv beta. wp_step.
  exists f2. split; [by eapply swaps_trans|]. split; [done|]. destruct (Z.eqb_spec (u - l) 2) as [E2|E2]; simpl.
  - apply (sorted_three f2 l m u); try done. by apply (goods_swaps l u f1).
  - split; [lia|done].
Qed.

(** ** The recursion *)

(** what holds between a pivot and the parts makes the whole sorted *)
Lemma sorted_parts f l u i :
  goods f -> 1 <= l -> u <= n -> l <= i <= u -> split_at l u i i (f i) f ->
  sorted_in lt l (i - 1) f -> sorted_in lt (i + 1) u f -> sorted_in lt l u f.
Proof.
  intros G Hl Hu Hi [Hs1 Hs2] O1 O2 a b Ha Hab Hb.
  destruct (decide (b < i)); [apply O1; lia|]. destruct (decide (i < a)); [apply O2; lia|].
  eapply (le_trans _ (f i)); [apply G; lia..|apply Hs1; lia|apply Hs2; lia].
Qed.

Lemma split_swaps f f' l u a b i :
  split_at l u i i (f i) f -> l <= a -> b <= u -> b < i \/ i < a -> swaps a b f f' -> split_at l u i i (f' i) f'.
Proof.
  intros [Hs1 Hs2] Ha Hb Hi Hs. rewrite (swaps_out a b f f' i) by (done || lia).
  split; intros k Hk; (destruct (decide (a <= k <= b)) as [Hin|Hout]; [|rewrite (swaps_out a b f f') by (done || lia); auto]).
  - apply (swaps_all a b (fun v => le lt v (f i)) f f'); [done| |done]. intros k' Hk'. apply Hs1. lia.
  - apply (swaps_all a b (fun v => le lt (f i) v) f f'); [done| |done]. intros k' Hk'. apply Hs2. lia.
Qed.

Lemma sorted_out f f' l u a b : sorted_in lt l u f -> u < a \/ b < l -> swaps a b f f' -> sorted_in lt l u f'.
Proof.
  intros O Hd Hs i j Hi Hij Hj. rewrite !(swaps_out a b f f') by (done || lia). by apply O.
Qed.

(** two parts one after the other, in either order *)
Lemma two_parts (m1 m2 : gc unit) f g l u i a1 b1 a2 b2 :
  St [] f g -> goods f -> 1 <= l -> u <= n -> l < i < u -> split_at l u i i (f i) f ->
  (a1 = l /\ b1 = i - 1 /\ a2 = i + 1 /\ b2 = u) \/ (a1 = i + 1 /\ b1 = u /\ a2 = l /\ b2 = i - 1) ->
  (forall f g, St [] f g -> goods f -> wp m1 (fun _ g' => exists f', swaps a1 b1 f f' /\ St [] f' g' /\ sorted_in lt a1 b1 f') g) ->
  (forall f g, St [] f g -> goods f -> wp m2 (fun _ g' => exists f', swaps a2 b2 f f' /\ St [] f' g' /\ sorted_in lt a2 b2 f') g) ->
  wp (m1;; m2) (fun _ g' => exists f', swaps l u f f' /\ St [] f' g' /\ sorted_in lt l u f') g.
Proof.
  intros V G Hl Hu Hi Hs Hab H1 H2. wp_step. eapply wp_mono; [by apply (H1 f)|]. intros [] g1 (f1 & S1 & V1 & O1). cbv beta.
  assert (swaps l u f f1) as S1' by (eapply swaps_weaken; [| |exact S1]; lia).
  assert (goods f1) as G1 by (by apply (goods_swaps l u f)).
  eapply wp_mono; [by apply (H2 f1)|]. intros [] g2 (f2 & S2 & V2 & O2).
  assert (swaps l u f1 f2) as S2' by (eapply swaps_weaken; [| |exact S2]; lia).
  exists f2. split; [by eapply swaps_trans|]. split; [done|].
  apply (sorted_out _ f2 a1 b1 a2 b2) in O1; [|lia|done].
  assert (split_at l u i i (f2 i) f2) as Hs2.
  { apply (split_swaps f1 f2 l u a2 b2); [apply (split_swaps f f1 l u a1 b1); try done; lia|lia..|done]. }
  apply (sorted_parts f2 l u i); [by apply (goods_swaps l u f1)|lia..|done| |];
    by destruct Hab as [(-> & -> & -> & ->)|(-> & -> & -> & ->)].
Qed.

Lemma auxsort_ok k f g l u :
  St [] f g -> goods f -> 1 <= l -> u <= n -> u - l < Z.of_nat k -> (0 < k)%nat ->
  wp (auxsort k L l u) (fun _ g' => exists f', swaps l u f f' /\ St [] f' g' /\ sorted_in lt l u f') g.
Proof.
  revert f g l u. induction k as [|k IH]; intros f g l u V G Hl Hu Hk Hk0; [lia|]. cbn [auxsort].
  destruct (Z.ltb_spec l u) as [Hlu|Hlu].
  2:{ wp_step. exists f. split; [by apply swaps_refl|]. split; [done|]. intros i j. lia. }
  wp_step. eapply wp_mono; [by apply (sort_ends_ok f)|]. intros [] g1 (f1 & S1 & V1 & O1); cbv beta; simpl negb; cbv iota.
  2:{ wp_step. by exists f1. }
  destruct O1 as (Hd & O1 & O2). assert (goods f1) as G1 by (by apply (goods_swaps l u f)).
  wp_step. eapply wp_mono; [by apply (partition_ok f1)|]. intros i g2 (f2 & S2 & V2 & Hi & Hs). cbv beta.
  assert (goods f2) as G2 by (by apply (goods_swaps l u f1)).
  assert (swaps l u f f2) as S12 by (by eapply swaps_trans).
  assert (forall a b, 1 <= a -> b <= n -> b - a < Z.of_nat k -> forall f g, St [] f g -> goods f ->
    wp (auxsort k L a b) (fun _ g' => exists f', swaps a b f f' /\ St [] f' g' /\ sorted_in lt a b f') g) as IH'
    by (intros; apply IH; try done; lia).
  destruct (i - l <? u - i).
  - eapply wp_mono; [eapply (two_parts _ _ f2 g2 l u i l (i - 1) (i + 1) u); [done..|by left|apply IH'; lia|apply IH'; lia]|].
    intros [] g3 (f3 & S3 & HR). exists f3. split; [by eapply swaps_trans|done].
  - eapply wp_mono; [eapply (two_parts _ _ f2 g2 l u i (i + 1) u l (i - 1)); [done..|by right|apply IH'; lia|apply IH'; lia]|].
    intros [] g3 (f3 & S3 & HR). exists f3. split; [by eapply swaps_trans|done].
Qed.

End Sort.
