(* ===== verification/TabProofs.v ===== *)
(** * The table library: [table.sort] on numbers and [table.remove]

    The default order of numbers is a strict weak order but for NaN, [sort_comp] with no
    order function compares by it, and so [sort] puts the elements 1 .. [n] of its table
    in order.  [table.remove] takes an element out and moves the ones above it down. *)

From stdpp Require Import gmap.
From Stdlib Require Import SpecFloat.
From S2P Require Import Prelude Number Opcodes Object Table TableInv TableSizes Heap Tm Gc Func GcSweep HeapString State Mach VmOps Do Execute Api AuxLib TabLib GcLogic StackView TabState Samples SortProofs.

(** ** The order of numbers *)

Definition is_num (v : TValue) : Prop := exists x, v = VNumber x /\ x <> S754_nan.

Definition num_lt (v w : TValue) : bool :=
  match v, w with VNumber a, VNumber b => gafqi_numlt a b | _, _ => false end.

(** numbers are ordered by their class and sign first *)
Definition rank (x : spec_float) : Z :=
  match x with
  | S754_infinity true => -2 | S754_finite true _ _ => -1 | S754_zero _ => 0
  | S754_finite false _ _ => 1 | S754_infinity false => 2 | S754_nan => 3
  end.

(** then by a pair of integers *)
Definition weight (x : spec_float) : Z * Z :=
  match x with
  | S754_finite s m e => if s then (- e, - Zpos m) else (e, Zpos m)
  | _ => (0, 0)
  end.

Definition sf_lt (x y : spec_float) : Prop :=
  rank x < rank y \/ rank x = rank y /\ ((weight x).1 < (weight y).1 \/ (weight x).1 = (weight y).1 /\ (weight x).2 < (weight y).2).

Lemma numlt_spec x y : x <> S754_nan -> y <> S754_nan -> gafqi_numlt x y = true <-> sf_lt x y.
Proof.
  intros Hx Hy. unfold gafqi_numlt, SFltb, sf_lt.
  destruct x as [[]|[]| |[] ma ea], y as [[]|[]| |[] mb eb]; try done; cbn [SFcompare rank weight fst snd];
    try (split; [done|lia] || (split; [lia|done])).
  all: change (Pos.compare_cont Eq ma mb) with (Pos.compare ma mb).
  all: destruct (Z.compare_spec ea eb); try (split; [done|lia] || (split; [lia|done])).
  all: destruct (Pos.compare_spec ma mb); simpl; split; try done; lia.
Qed.

#[export] Instance num_lt_weak : StrictWeak is_num num_lt.
Proof.
  split.
  - intros x y (a & -> & Ha) (b & -> & Hb) E. apply not_true_iff_false. intros E'. simpl in E, E'.
    apply numlt_spec in E, E'; [|done..]. unfold sf_lt in *. lia.
  - intros x y z (a & -> & Ha) (b & -> & Hb) (c & -> & Hc) E1 E2. apply not_true_iff_false in E1, E2.
    apply not_true_iff_false. intros E'. simpl in *. rewrite numlt_spec in E1, E2, E' by done. unfold sf_lt in *. lia.
Qed.

(** ** The comparison *)

Section Sort.

Context `{Host} `{Calls} (L h : pointer) (n : Z).
Hypothesis Hn : n <= INT_MAX.

(** with nil as its second argument [sort] uses [gafq_lessthan] *)
Lemma compares_numbers : compares L h VNil n is_num num_lt.
Proof.
  intros f a b S g V Ha Hb Hs. cbv zeta. intros (x & Ex & _) (y & Ey & _). rewrite Ex, Ey. simpl num_lt.
  pose proof V as [m th pre post mh hs t Vs _ _ _ _ _ _]. unfold sort_comp. wp_step. unfold gafq_isnil. wp_step.
  pose proof (zlen_nonneg S). eapply (wp_type_pos _ _ _ _ _ _ _ Vs 2 VNil); [zlen|done|]. wp_step. cbv iota. simpl negb. cbv iota.
  unfold gafq_lessthan, compare_at. wp_step.
  eapply (wp_index_neg _ _ _ _ _ _ _ Vs a); [unfold GAFQ_REGISTRYINDEX; lia|zlen|]. cbv beta. wp_step.
  eapply (wp_index_neg _ _ _ _ _ _ _ Vs b); [unfold GAFQ_REGISTRYINDEX; lia|zlen|]. cbv beta iota.
  assert (forall c v, 1 <= c <= zlen S -> vget VNil S (zlen S - c) = v ->
    vget VNil ((VTable h :: VNil :: S) ++ post) (zlen (VTable h :: VNil :: S) - c) = v) as Hv.
  { intros c v Hc <-. rewrite vget_app_l by (zlen). change (VTable h :: VNil :: S) with ([VTable h; VNil] ++ S).
    rewrite vget_app_r by zlen. f_equal. zlen. }
  pose proof (zlen_nonneg post).
  wp_step. cbn [addr_get]. eapply (wp_slot _ _ _ _ _ _ _ Vs); [zlen|by apply Hv|]. wp_step. cbn [addr_get].
  eapply (wp_slot _ _ _ _ _ _ _ Vs); [zlen|by apply Hv|]. unfold gafqV_lessthan. simpl. by wp_step.
Qed.

(** ** The function *)

Context (good : TValue -> Prop) (lt : TValue -> TValue -> bool) `{!StrictWeak good lt}.
Hypothesis good_value : forall v, good v -> v <> VNil.

(** the order function, nil if there is none *)
Definition order_arg (args : list TValue) : TValue := vget VNil args 0.

Lemma wp_order_arg g m th pre args post (k : gc Z) (Q : Z -> GState -> Prop) :
  Stk g L m th pre (VTable h :: args) post -> zlen args <= 1 ->
  order_arg args = VNil \/ ttype (order_arg args) = GAFQ_TFUNCTION ->
  wp k Q g ->
  wp (none ← gafq_isnoneornil L 2; (if (none : bool) then mret tt else gafqL_checktype L 2 GAFQ_TFUNCTION);; k) Q g.
Proof.
  intros V Hl Ho HQ. unfold gafq_isnoneornil, gafqL_checktype. wp_step. wp_step. destruct args as [|c args].
  - eapply (wp_type_none _ _ _ _ _ _ _ V 2); [zlen|]. wp_step. simpl. wp_step. by wp_step.
  - pose proof (zlen_nonneg args). eapply (wp_type_pos _ _ _ _ _ _ _ V 2 c); [zlen|done|]. wp_step.
    unfold order_arg, vget in Ho. simpl in Ho. destruct Ho as [->|Ho]; [simpl; wp_step; by wp_step|]. rewrite Ho. simpl. wp_step. wp_step.
    eapply (wp_type_pos _ _ _ _ _ _ _ V 2 c); [zlen|done|]. rewrite Ho, Z.eqb_refl. by wp_step.
Qed.

Lemma sort_ok args f g :
  0 <= n -> Called L h args n f g -> zlen args <= 1 ->
  order_arg args = VNil \/ ttype (order_arg args) = GAFQ_TFUNCTION ->
  compares L h (order_arg args) n good lt -> goods n good f ->
  wp (sort L) (fun r g' => r = 0 /\ exists f', St L h (order_arg args) n [] f' g' /\
                           swaps 1 n f f' /\ sorted_in lt 1 n f') g.
Proof.
  intros Hn0 V Hl Ho Hc G. unfold sort. wp_step. eapply wp_aux_getn; [|exact V|]; [lia|]. wp_step. unfold gafqL_checkstack. wp_step.
  eapply Called_room; [exact V|lia|unfold GAFQI_MAXCSTACK; lia|].
  intros g1 m th pre post mh hs t V1 Hp Eh W C A. cbv beta. wp_step.
  eapply wp_order_arg; [exact V1|done|done|]. wp_step. pose proof (zlen_nonneg args).
  eapply (wp_settop_up _ _ _ _ _ _ _ V1 2); [zlen|zlen|]. cbv beta.
  replace ((VTable h :: args) ++ _) with [VTable h; order_arg args].
  2:{ destruct args as [|c [|d args]]; [done..|]. zlen. pose proof (zlen_nonneg args). lia. }
  set (post' := drop _ post).
  assert (SLOTS <= 2 + zlen (@nil TValue) + zlen post') as Hp'.
  { subst post'. unfold SLOTS, zlen in *. rewrite length_drop. simpl. lia. }
  assert (L <> h) as Hne by (intros ->; destruct V1 as [E _]; congruence).
  wp_step. eapply wp_mono.
  - eapply (auxsort_ok L h (order_arg args) n Hn good lt good_value Hc _ f); [|done..|lia|lia].
    eapply (St_intro L h (order_arg args) n [] f g1); [apply lookup_insert_eq|apply V1|exact Hp'| |exact W|done| |done|done].
    + simpl. by rewrite lookup_insert_ne.
    + intros q. by apply insert_grows.
  - intros [] g2 (f' & S1 & V2 & O). cbv beta. wp_step. split; [done|]. by exists f'.
Qed.

End Sort.

Lemma is_num_value v : is_num v -> v <> VNil.
Proof. by intros (x & -> & _). Qed.

(** C8: [table.sort] on a table whose elements 1 .. [n] are numbers other than NaN ([l + u]
    not overflowing an [int]), called without an order function, returns: no error is raised and the rounds of every loop are
    enough.  Afterwards the elements are the same numbers, in order. *)
Theorem sort_numbers `{Host} `{Calls} L h args n f g :
  Called L h args n f g -> 0 <= n -> 2 * n <= INT_MAX -> args = [] \/ args = [VNil] ->
  (forall i, 1 <= i <= n -> is_num (f i)) ->
  exists g' mh t' f', sort L g = Ok (0, g') /\ heap g' !! h = Some (mkObj mh (BTable t')) /\
    (forall i, 1 <= i <= n -> deref t' (gafqH_getnum t' i) = f' i) /\
    elems f' 1 n ≡ₚ elems f 1 n /\
    (forall i j, 1 <= i -> i < j -> j <= n -> num_lt (f' j) (f' i) = false).
Proof.
  intros V Hn0 Hn Ha G. unfold INT_MAX in Hn. assert (n <= INT_MAX) as Hn' by (unfold INT_MAX; lia). assert (order_arg args = VNil /\ zlen args <= 1) as [Eo Hl] by (by destruct Ha as [->| ->]).
  pose proof (sort_ok L h n Hn' is_num num_lt is_num_value args f g Hn0 V Hl) as W.
  rewrite Eo in W. specialize (W (or_introl eq_refl) (compares_numbers L h n) G).
  apply wp_ok in W as (r & g' & E & -> & f' & [m th pre post mh hs t' _ _ Eh _ C _ _] & Hs & O).
  exists g', mh, t', f'. repeat split; [done..| | |exact O].
  - intros i Hi. by rewrite <- (content_getnum n Hn' hs t'), C.
  - apply swaps_permutation. by replace (1 + n - 1) with n by lia.
Qed.

Definition three_numbers : list TValue := VNumber <$> [cast_num 30; cast_num 10; cast_num 20].

Lemma three_called : Called 1 200 [] 3 (fun i => vget VNil three_numbers (i - 1)) (with_table 200 (array_table three_numbers) (frame [VTable 200])).
Proof.
  apply (mkCalled _ _ _ _ _ _ 0 (init_stack preinit_state) [VNil] (replicate 44 VNil) 0 (array_table three_numbers)).
  - split; [by vm_compute|done].
  - done.
  - by vm_compute.
  - by vm_compute.
  - apply array_table_wf. rewrite MAXASIZE_val. by vm_compute.
  - by vm_compute.
  - intros i Hi. assert (i = 1 \/ i = 2 \/ i = 3) as [->|[->| ->]] by lia; by vm_compute.
  - intros i Hi. assert (i = 1 \/ i = 2 \/ i = 3) as [->|[->| ->]] by lia; intros Hc; by vm_compute in Hc.
Qed.

Lemma sort_numbers_witness :
  exists g', sort (H := sample_host) (H0 := sample_calls) 1 (with_table 200 (array_table three_numbers) (frame [VTable 200])) = Ok (0, g').
Proof.
  destruct (sort_numbers (H := sample_host) (H0 := sample_calls) 1 200 [] 3 _ _ three_called ltac:(lia) ltac:(unfold INT_MAX; lia) (or_introl eq_refl))
    as (g' & mh & t' & f' & E & _).
  - intros i Hi. assert (i = 1 \/ i = 2 \/ i = 3) as [->|[->| ->]] by lia; by eexists.
  - exists g'. exact E.
Defined.

(** ** Removal *)

(** the elements without the one at [pos] *)
Definition without {A} (f : Z -> A) (pos n : Z) (nil : A) (i : Z) : A :=
  if i <? pos then f i else if i <? n then f (i + 1) else if i =? n then nil else f i.

Lemma number2integer_cast i : int_range i -> gafq_number2integer (cast_num i) = i.
Proof.
  unfold int_range, INT_MIN, INT_MAX. intros Hi. unfold gafq_number2integer.
  assert (num_trunc (cast_num i) = Some i) as -> by (destruct i as [|p|p]; [done| |]; apply trunc_shifted; lia).
  destruct (Z.leb_spec (- 2 ^ 63) i), (Z.ltb_spec i (2 ^ 63)); simpl; lia.
Qed.

Section Remove.

Context `{Host} `{Calls} (L h : pointer) (n pos : Z) (f : Z -> TValue).
Hypothesis Hn : 0 <= n < INT_MAX.
Hypothesis Hpos : int_range pos.

Let arg : TValue := VNumber (cast_num pos).

Lemma wp_position g (Q : Z -> GState -> Prop) : Called L h [arg] n f g -> Q pos g -> wp (gafqL_optint L 2 n) Q g.
Proof.
  intros [m th pre post mh t V Hc Hp Eh W En C A] HQ. unfold gafqL_optint, gafqL_optinteger, gafqL_opt, gafq_isnoneornil.
  wp_step. wp_step. wp_step. eapply (wp_type_pos _ _ _ _ _ _ _ V 2 arg); [by vm_compute|done|]. wp_step. simpl. unfold gafqL_checkinteger.
  assert (forall k (Q' : TValue -> GState -> Prop), k = arg -> Q' k g -> wp (value_at L 2) Q' g) as Hv
    by (intros k Q' -> HQ'; eapply (wp_value_pos _ _ _ _ _ _ _ V 2 arg); [by vm_compute|done|done]).
  wp_step. unfold gafq_tointeger. wp_step. eapply (Hv arg); [done|]. cbv beta. wp_step. unfold arg. simpl gafqV_tonumber. wp_step. wp_step. wp_step.
  unfold gafq_isnumber. wp_step. eapply (Hv arg); [done|]. wp_step. unfold arg. simpl gafqV_tonumber. wp_step. wp_step. rewrite andb_false_r. wp_step. wp_step.
  by rewrite number2integer_cast, s32_id.
Qed.

(** a removal begins with the table and the position on the stack *)
Lemma Called_St g : Called L h [arg] n f g -> St L h arg n [] f g.
Proof.
  intros [m th pre post mh t V Hc Hp Eh W En C A]. econstructor; [exact V| |exact Eh|exact W|done|done|done].
  unfold SLOTS, GAFQ_MINSTACK in *. zlen.
Qed.

(** [k] elements from [i + 1] on come down by one *)
Lemma move_down_ok k T f0 g i :
  St L h arg n T f0 g -> zlen T <= 1 -> 1 <= i -> i + Z.of_nat k <= n -> (forall j, 1 <= j <= n -> f0 j <> VNil) ->
  wp (move_down k L i) (fun _ => St L h arg n T (fun j => if (i <=? j) && (j <? i + Z.of_nat k) then f0 (j + 1) else f0 j)) g.
Proof.
  revert f0 g i. induction k as [|k IH]; intros f0 g i V HT Hi Hk Hf; cbn [move_down].
  { wp_step. eapply St_ext; [exact V|]. intros j Hj. destruct (Z.leb_spec i j), (Z.ltb_spec j (i + Z.of_nat 0)); simpl; try done. lia. }
  wp_step. eapply wp_mono; [eapply (St_rawgeti L h arg n ltac:(lia)); [exact V|lia|unfold SLOTS; lia]|]. intros [] g1 V1. cbv beta.
  wp_step. eapply wp_mono; [eapply (St_rawseti L h arg n ltac:(lia)); [exact V1|lia|apply Hf; lia]|]. intros [] g2 V2. cbv beta.
  eapply wp_mono; [eapply (IH (upd f0 i (f0 (i + 1))) g2 (i + 1)); [exact V2|done|lia|lia|]|].
  { intros j Hj. unfold upd. case_decide; apply Hf; lia. }
  intros [] g3 V3. eapply St_ext; [exact V3|]. intros j Hj. cbv beta. unfold upd.
  destruct (Z.leb_spec (i + 1) j), (Z.ltb_spec j (i + 1 + Z.of_nat k)), (Z.leb_spec i j), (Z.ltb_spec j (i + Z.of_nat (S k)));
    simpl; repeat case_decide; subst; try lia; done.
Qed.

Lemma tremove_in g : Called L h [arg] n f g -> 1 <= pos <= n -> (forall i, 1 <= i <= n -> f i <> VNil) ->
  wp (tremove L) (fun r g' => r = 1 /\ St L h arg n [f pos] (without f pos n VNil) g') g.
Proof.
  intros V Hp Hf. unfold tremove. wp_step. eapply wp_aux_getn; [|exact V|]; [lia|]. wp_step. eapply wp_position; [exact V|]. cbv beta.
  destruct (Z.leb_spec 1 pos), (Z.leb_spec pos n); try lia. simpl negb. cbv iota.
  apply Called_St in V. wp_step. eapply wp_mono; [eapply (St_rawgeti L h arg n ltac:(lia) []); [exact V|lia|by vm_compute]|]. intros [] g1 V1. cbv beta.
  wp_step. eapply wp_mono; [eapply (move_down_ok _ _ f g1 pos); [exact V1|by vm_compute|lia|lia|done]|]. intros [] g2 V2. cbv beta.
  wp_step. eapply wp_mono; [eapply (St_pushnil L h arg n); [exact V2|by vm_compute]|]. intros [] g3 V3. cbv beta.
  wp_step. eapply wp_mono; [eapply (St_rawseti L h arg n ltac:(lia)); [exact V3|lia|]|].
  { cbv beta. rewrite Z2Nat.id by lia. destruct (Z.ltb_spec n (pos + (n - pos))); [lia|]. rewrite andb_false_r. apply Hf. lia. }
  intros [] g4 V4. cbv beta. wp_step. split; [done|]. eapply St_ext; [exact V4|]. intros j Hj. unfold upd, without. rewrite Z2Nat.id by lia.
  destruct (Z.leb_spec pos j), (Z.ltb_spec j (pos + (n - pos))), (Z.ltb_spec j pos), (Z.ltb_spec j n), (Z.eqb_spec j n);
    simpl; case_decide; try lia; done.
Qed.

Lemma tremove_out g : Called L h [arg] n f g -> ~ 1 <= pos <= n -> wp (tremove L) (fun r g' => r = 0 /\ g' = g) g.
Proof.
  intros V Hp. unfold tremove. wp_step. eapply wp_aux_getn; [|exact V|]; [lia|]. wp_step. eapply wp_position; [exact V|]. cbv beta.
  destruct (Z.leb_spec 1 pos), (Z.leb_spec pos n); try lia; simpl negb; cbv iota; by wp_step.
Qed.

End Remove.

(** [table.remove(t, pos)] for a position inside the array returns the element there;
    the elements above it come down by one and the last one becomes nil.  For a position
    outside it returns nothing and changes nothing. *)
Theorem tremove_shifts `{Host} `{Calls} L h n pos f g :
  Called L h [VNumber (cast_num pos)] n f g -> 0 <= n < INT_MAX -> int_range pos -> (forall i, 1 <= i <= n -> f i <> VNil) ->
  if (1 <=? pos) && (pos <=? n) then
    exists g', tremove L g = Ok (1, g') /\ St L h (VNumber (cast_num pos)) n [f pos] (without f pos n VNil) g'
  else tremove L g = Ok (0, g).
Proof.
  intros V Hn Hp Hf. destruct (Z.leb_spec 1 pos), (Z.leb_spec pos n); simpl.
  2-4: pose proof (tremove_out L h n pos f ltac:(lia) Hp g V ltac:(lia)) as W; apply wp_ok in W as (r & g' & E & -> & ->); exact E.
  pose proof (tremove_in L h n pos f Hn Hp g V ltac:(lia) Hf) as W. apply wp_ok in W as (r & g' & E & -> & V'). by exists g'.
Qed.

Definition four_numbers : list TValue := [VNumber (cast_num 40); VNumber (cast_num 30); VNumber (cast_num 20); VNumber (cast_num 10)].

Lemma tremove_shifts_witness :
  exists g', tremove (H := sample_host) (H0 := sample_calls) 1 (with_table 200 (array_table four_numbers) (frame [VTable 200; VNumber (cast_num 2)])) = Ok (1, g').
Proof.
  pose proof (tremove_shifts (H := sample_host) (H0 := sample_calls) 1 200 4 2 (fun i => vget VNil four_numbers (i - 1))
    (with_table 200 (array_table four_numbers) (frame [VTable 200; VNumber (cast_num 2)]))) as T.
  destruct T as (g' & E & _); [| | | |exists g'; exact E].
  - apply (mkCalled _ _ _ _ _ _ 0 (init_stack preinit_state) [VNil] (replicate 44 VNil) 0 (array_table four_numbers));
      [split; [by vm_compute|done]|done|by vm_compute|by vm_compute|apply array_table_wf; rewrite MAXASIZE_val; by vm_compute|by vm_compute| |];
      intros i Hi; assert (i = 1 \/ i = 2 \/ i = 3 \/ i = 4) as [->|[->|[->| ->]]] by lia; first [by vm_compute|intros Hc; by vm_compute in Hc].
  - split; by vm_compute.
  - split; by vm_compute.
  - intros i Hi. assert (i = 1 \/ i = 2 \/ i = 3 \/ i = 4) as [->|[->|[->| ->]]] by lia; discriminate.
Defined.
