(* ===== verification/LoadProofs.v ===== *)
(** * Loaded functions

    [install] (Load.v) keeps the invariant of the collector, in every phase, and the
    prototype that it puts in the memory is the one that the parser or the undumper gave:
    reading it back, as [gafq_dump] does, gives the same function.  The stack of a thread is
    written without a barrier.  [gafqL_loadbuffer] on a dumped function and on what is
    rejected. *)

From stdpp Require Import gmap sets.
From S2P Require Import Prelude Number Object Opcodes Proto Table StringTable Zio CheckCode Dump DumpProofs Heap Tm Gc Func GcSweep HeapString State Mach VmOps Do DoProofs Api AuxLib Load GcLogic GcInv GcMark GcTraverse GcPropagate GcLinks GcAtomic GcPhase GcLists GcSwept GcFree GcSweepLoop GcStep GcFinalize GcAlloc GcSafety StateProofs Samples.

(** ** A white object is filled

    An object that the collector has not reached gets its contents. *)

(** the objects that are made empty and filled afterwards *)
Definition fills (b b' : Body) : Prop :=
  match b, b' with
  | BProto _, BProto _ | BLClosure _ _ _, BLClosure _ _ _ => True
  | _, _ => False
  end.

Section Fill.
Context (L : pointer) (g : GState) (p : pointer) (m : Z) (b b' : Body).
Hypothesis E : heap g !! p = Some (mkObj m b).
Hypothesis White : iswhite m = true.
Hypothesis Kind : fills b b'.
Hypothesis Ok : body_ok g b'.
Hypothesis Refs : Forall (safe_ref g) (body_refs g b').

Definition filled : GState := on_heap (insert p (mkObj m b')) g.

Lemma fills_links : links_same b b' /\ body_tt b' = body_tt b.
Proof. by destruct b, b'. Qed.

Lemma filled_at q : q <> p -> heap filled !! q = heap g !! q.
Proof. intros Hq. by apply lookup_insert_ne. Qed.

Lemma filled_cases q x : heap filled !! q = Some x -> q = p /\ x = mkObj m b' \/ q <> p /\ heap g !! q = Some x.
Proof.
  destruct (decide (q = p)) as [->|Hne]; [|rewrite filled_at by done; auto].
  unfold filled. simpl. rewrite lookup_insert_eq. intros [= <-]. by left.
Qed.

Lemma filled_old q x : heap g !! q = Some x -> exists x', heap filled !! q = Some x' /\ body_tt (body x') = body_tt (body x) /\
  marked x' = marked x.
Proof.
  intros Ex. destruct (decide (q = p)) as [->|Hne]; [|exists x; by rewrite filled_at].
  rewrite E in Ex. injection Ex as <-. eexists. split; [apply lookup_insert_eq|]. cbn [body marked]. by destruct fills_links as [_ ->].
Qed.

Lemma filled_thread q mq t : heap filled !! q = Some (mkObj mq (BThread t)) <-> heap g !! q = Some (mkObj mq (BThread t)).
Proof.
  destruct (decide (q = p)) as [->|Hne]; [|by rewrite filled_at].
  rewrite E. unfold filled. simpl. rewrite lookup_insert_eq. destruct b, b'; try done; split; intros [=].
Qed.

Lemma filled_slot th lv : slot_of filled th lv = slot_of g th lv.
Proof.
  unfold slot_of. destruct (decide (th = p)) as [->|Hne]; [|by rewrite filled_at].
  unfold filled. simpl. rewrite lookup_insert_eq, E. by destruct b, b'.
Qed.

Lemma filled_refs x : body_refs filled x = body_refs g x.
Proof. destruct x as [| | | | | |[]|]; try done. simpl. by rewrite filled_slot. Qed.

Lemma filled_safe r : safe_ref g r -> safe_ref filled r.
Proof.
  intros [(x & Ex & T) (y & Ey & D)]. rewrite Ex in Ey. injection Ey as <-.
  destruct (filled_old _ _ Ex) as (x' & Ex' & T' & M). split; exists x'; (split; [done|]); [congruence|].
  rewrite M. exact D.
Qed.

Lemma filled_nonwhite q : nonwhite g q -> nonwhite filled q.
Proof. intros (x & Ex & W). destruct (filled_old _ _ Ex) as (x' & Ex' & _ & M). exists x'. split; [done|congruence]. Qed.

Lemma filled_linked : linked g -> linked filled.
Proof.
  apply linked_sim. split; [done|]. intros q. destruct (decide (q = p)) as [->|Hne].
  - rewrite E. unfold filled. cbn [heap on_heap set_heap]. rewrite lookup_insert_eq. split; [by left|]. apply fills_links.
  - rewrite filled_at by done. destruct (heap g !! q) as [x|]; [|done]. split; [by left|]. split; [done|]. by destruct (body x).
Qed.

Lemma filled_open x : is_open x -> x <> b /\ x <> b'.
Proof. intros H. split; intros ->; by destruct b, b'. Qed.

Lemma filled_excl : exclusive g -> exclusive filled.
Proof.
  intros X q x Ex H. destruct (filled_cases _ _ Ex) as [[-> ->]|[_ Eq]]; [|by eapply X].
  apply (X p _ E). by left.
Qed.

Lemma filled_base : base L g -> base L filled.
Proof.
  intros [W Ln Sh C [R T] X Ns]. split; [exact W|by apply filled_linked| | | |by apply filled_excl|exact Ns].
  - intros q x Ex. destruct (filled_cases _ _ Ex) as [[-> ->]|[_ Eq]].
    + cbn [body]. by destruct b, b'.
    + pose proof (Sh q x Eq) as K. destruct (body x) as [| | | | | |[]|]; try done. simpl in *.
      destruct K as (mq & t & Et & H). exists mq, t. by rewrite filled_thread.
  - intros q x Ex D. rewrite filled_refs. destruct (filled_cases _ _ Ex) as [[-> ->]|[_ Eq]].
    + eapply Forall_impl; [exact Refs|exact filled_safe].
    + eapply Forall_impl; [by eapply C|exact filled_safe].
  - split; [eapply Forall_impl; [exact R|exact filled_safe]|eapply Forall_impl; [exact T|exact filled_nonwhite]].
Qed.

Lemma filled_tracked S R T O : tracked S R T O g -> tracked S R T O filled.
Proof.
  intros Tr q x Ex. destruct (filled_cases _ _ Ex) as [[-> ->]|[_ Eq]]; [|exact (Tr q x Eq)].
  destruct (Tr p _ E) as [H|[H|H]]; [by left|by right; left|]. right; right. cbn [body] in *. by destruct b, b'.
Qed.

Lemma filled_marking : marking_state g -> marking_state filled.
Proof.
  intros [Tr [N M Wk X Th] Fr Nm Nr]. split; [| | |by apply filled_nonwhite|eapply Forall_impl; [exact Nr|intros r; apply filled_nonwhite]].
  - intros q x Ex Wq. destruct (filled_cases _ _ Ex) as [[-> ->]|[_ Eq]]; [cbn [marked] in Wq; congruence|].
    destruct (Tr q x Eq Wq) as [H|[H|[H1 H2]]]; [by left|right; left|right; right].
    + destruct H as [H|(o & Eo & Ho)]; [by left|right]. exists o. split; [|done]. rewrite filled_at; [done|].
      intros ->. rewrite E in Eo. injection Eo as <-. by destruct (filled_open _ Ho).
    + split; [|done]. replace (scan_refs filled x) with (scan_refs g x).
      * eapply Forall_impl; [exact H1|]. intros r. apply filled_nonwhite.
      * unfold scan_refs. pose proof (filled_refs (body x)) as K. by destruct (body x).
  - split; [exact N| | | |].
    + intros q Hq. destruct (M q Hq) as (o & Eo & Wo & Co & Bo). exists o. split; [|done]. rewrite filled_at; [done|].
      intros ->. rewrite E in Eo. injection Eo as <-. cbn [marked] in Wo. congruence.
    + intros q Hq. destruct (Wk q Hq) as (mq & t & Eq). exists mq, t. rewrite filled_at; [done|]. intros ->.
      rewrite E in Eq. injection Eq as -> ->. by destruct b'.
    + exact (filled_excl X).
    + intros q mq t Ex. rewrite filled_thread in Ex. by eapply Th.
  - intros q x Ex. change (deadbit filled) with (deadbit g). destruct (filled_cases _ _ Ex) as [[-> ->]|[_ Eq]]; [exact (Fr p _ E)|by eapply Fr].
Qed.

Lemma filled_phase : phase L g -> phase L filled.
Proof.
  intros [B Pp]%phase_split. apply phase_split. split; [by apply filled_base|]. destruct Pp as [G Tr|G M|G P1 P2 Tr].
  - apply pp_idle; [exact G|by apply filled_tracked].
  - apply pp_mark; [exact G|by apply filled_marking].
  - apply pp_sweep; [exact G|exact P1|exact P2|by apply filled_tracked].
Qed.

End Fill.

(** ** Memory that grows

    Everything that was in the memory stays there, with its contents; nothing dies. *)

Record grows (g g' : GState) : Prop := {
  gr_old q o : heap g !! q = Some o -> exists o', heap g' !! q = Some o' /\ body o' = body o /\
    (~ is_string (body o) -> marked o' = marked o) /\ (dead g (marked o) = false -> dead g' (marked o') = false);
  gr_white : currentwhite g' = currentwhite g
}.

Lemma grows_refl g : grows g g.
Proof. split; [|done]. intros q o Eq. by exists o. Qed.

Lemma grows_trans g1 g2 g3 : grows g1 g2 -> grows g2 g3 -> grows g1 g3.
Proof.
  intros [H1 W1] [H2 W2]. split; [|congruence]. intros q o Eq. destruct (H1 q o Eq) as (o2 & E2 & B2 & C2 & D2).
  destruct (H2 q o2 E2) as (o3 & E3 & B3 & C3 & D3). exists o3. split_and!; [done|congruence| |auto].
  intros Hs. rewrite C3, C2 by congruence. done.
Qed.

#[export] Instance grows_po : PreOrder grows.
Proof. split; [exact grows_refl|exact grows_trans]. Qed.

Lemma grows_same g g' : heap g' = heap g -> currentwhite g' = currentwhite g -> grows g g'.
Proof.
  intros Hh Hc. split; [|done]. intros q o Eq. exists o. rewrite Hh. split_and!; [done|done|done|].
  by rewrite (dead_same g g').
Qed.

Lemma grows_added p o g g' : added p o g g' -> currentwhite g' = currentwhite g -> grows g g'.
Proof.
  intros A Hc. split; [|done]. intros q x Eq. exists x. split_and!; [by eapply added_old|done|done|]. by rewrite (dead_same g g').
Qed.

Lemma grows_safe g g' r : grows g g' -> safe_ref g r -> safe_ref g' r.
Proof.
  intros [H _] [(x & Ex & T) (y & Ey & D)]. rewrite Ex in Ey. injection Ey as <-.
  destruct (H _ _ Ex) as (x' & Ex' & B & _ & D'). split; exists x'; (split; [done|]); [congruence|by apply D'].
Qed.

Lemma grows_none g g' q : grows g g' -> heap g' !! q = None -> heap g !! q = None.
Proof. intros [H _] N. destruct (heap g !! q) as [o|] eqn:Eq; [|done]. destruct (H q o Eq) as (o' & E' & _). congruence. Qed.

(** the object that is filled is a new one *)
Lemma grows_filled g g1 p m b : grows g g1 -> heap g !! p = None -> grows g (filled g1 p m b).
Proof.
  intros [H W] N. split; [|exact W]. intros q o Eq. destruct (H q o Eq) as (o' & E' & K). exists o'.
  split; [|exact K]. rewrite filled_at; [done|]. intros ->. congruence.
Qed.

(** a computation that returns *)
Lemma bind_ok {A B} (m : gc A) (k : A -> gc B) g b g' :
  (m ≫= k) g = Ok (b, g') -> exists a g1, m g = Ok (a, g1) /\ k a g1 = Ok (b, g').
Proof. unfold mbind, stres_bind. destruct (m g) as [[a g1]|]; [eauto|done]. Qed.

Lemma gco2ts_same o g ts g' : gco2ts o g = Ok (ts, g') -> g' = g /\ exists m, heap g !! o = Some (mkObj m (BString ts)).
Proof.
  intros (x & g1 & H1 & H2)%bind_ok. unfold getobj in H1. destruct (heap g !! o) as [[m bd]|]; [|done].
  injection H1 as <- <-. destruct bd; try done. injection H2 as <- <-. by split; [|exists m].
Qed.

Lemma find_string_same s l g r g' : find_string s l g = Ok (r, g') ->
  g' = g /\ forall o, r = Some o -> exists m ts, heap g !! o = Some (mkObj m (BString ts)).
Proof.
  revert r. induction l as [|o l IH]; intros r; simpl; [intros H; by injection H as <- <-|].
  intros (ts & g1 & [-> (m & E)]%gco2ts_same & H)%bind_ok. case_bool_decide; [|by apply IH].
  injection H as <- <-. split; [done|]. intros o' [= <-]. by exists m, ts.
Qed.

Lemma newlstr_grows g ts s h r g' : HeapString.newlstr ts s h g = Ok (r, g') -> grows g g'.
Proof.
  unfold HeapString.newlstr. destruct (_ <? _); [done|]. unfold mbind, stres_bind, gets, id, alloc.
  destruct (heap g !! ts) eqn:N; [done|]. destruct (ts =? UVHEAD); [done|]. unfold modify. cbv beta iota zeta.
  set (g1 := set_nuse _ _). assert (grows g g1) as G1 by (by eapply (grows_added ts)).
  destruct (_ && _); [|by intros [= <- <-]]. unfold GcSweep.gafqS_resize, resize_block, modify, mbind, stres_bind, gets, id.
  destruct (_ =? _); intros [= <- <-]; [done|]. etrans; [exact G1|]. by apply grows_same.
Qed.

Lemma revive_grows g p m ts : heap g !! p = Some (mkObj m (BString ts)) -> Z.testbit m (deadbit g) = true ->
  grows g (on_heap (insert p (mkObj (changewhite m) (BString ts))) g).
Proof.
  intros E D. split; [|done]. intros q o Eq. destruct (decide (p = q)) as [->|Hne].
  - rewrite E in Eq. injection Eq as <-. eexists. split; [apply lookup_insert_eq|]. split; [done|]. split; [by intros []|].
    intros _. unfold dead. change (deadbit (on_heap _ g)) with (deadbit g). cbn [marked]. by rewrite changewhite_dead.
  - exists o. simpl. rewrite lookup_insert_ne by done. done.
Qed.

Lemma internstr_grows g ts s r g' : white_ok g -> HeapString.gafqS_newlstr ts s g = Ok (r, g') -> grows g g'.
Proof.
  intros W (g0 & g1 & E0 & H)%bind_ok. injection E0 as <- <-. unfold id in H.
  apply bind_ok in H as (o & g1 & F & H). apply find_string_same in F as [-> F]. destruct o as [o|]; [|by apply newlstr_grows in H].
  destruct (F o eq_refl) as (m & t & E). apply bind_ok in H as (m' & g1 & Em & H).
  apply bind_ok in Em as (x & g2 & Ex & Em). unfold getobj in Ex. rewrite E in Ex. injection Ex as <- <-. injection Em as <- <-.
  apply bind_ok in H as ([] & g1 & Hm & H). injection H as <- <-. cbn [marked] in Hm. destruct (isdead g m) eqn:D; [|by injection Hm as <-].
  apply bind_ok in Hm as (x & g2 & Ex & Hm). unfold getobj in Ex. rewrite E in Ex. injection Ex as <- <-. injection Hm as <-.
  apply revive_grows; [done|]. by rewrite <- isdead_eq.
Qed.

(** ** What the memory shows of a prototype *)

(** [g2] has the objects of [g'] that are not in [g], and its strings, with their contents *)
Definition includes (g g' g2 : GState) : Prop := forall q o,
  heap g' !! q = Some o -> heap g !! q = None \/ is_string (body o) -> exists m, heap g2 !! q = Some (mkObj m (body o)).

Lemma includes_split g g1 g' g2 : grows g g1 -> grows g1 g' -> includes g g' g2 -> includes g g1 g2 /\ includes g1 g' g2.
Proof.
  intros G1 G2 I. split; intros q o E H.
  - destruct (gr_old _ _ G2 q o E) as (o' & E' & B & _). rewrite <- B. apply I; [done|]. by rewrite B.
  - apply I; [done|]. destruct H as [H|H]; [left; by eapply grows_none|by right].
Qed.

Definition short (s : bytes) : Prop := zlen s + 1 <= MAX_SIZET - sizeof_TString.
Definition short_opt (s : option bytes) : Prop := from_option short True s.

Definition installable_constant (c : Constant) : Prop :=
  match c with KString s => is_Some s /\ short_opt s | _ => True end.

(** functions that can be put in the memory, nested less than [n] deep *)
Inductive installable : nat -> Proto -> Prop :=
  | installable_intro n f :
      short_opt (source f) -> Forall installable_constant (k f) -> Forall (fun v => short_opt (varname v)) (locvars f) ->
      Forall short_opt (upvalues f) -> Forall (installable n) (p f) -> installable (S n) f.

Section Install.
Context `{Host} `{Calls} `{Stdio}.
Hypothesis fresh_ok : forall g, heap g !! fresh g = None /\ fresh g <> UVHEAD.
Context (L : pointer).

(** [m] gives a value with the references [refs], where the memory shows [shows] *)
Definition installs {A} (m : gc A) (refs : A -> list ref) (shows : GState -> A -> Prop) (g : GState) : Prop :=
  wp m (fun y g' => phase L g' /\ grows g g' /\ Forall (safe_ref g') (refs y) /\ forall g2, includes g g' g2 -> shows g2 y) g.

Lemma installs_ret {A} (y : A) refs shows g : phase L g -> Forall (safe_ref g) (refs y) -> (forall g2, shows g2 y) ->
  installs (mret y) refs shows g.
Proof. intros P R S. unfold installs. wp_step. by split_and!. Qed.

Lemma installs_newstring s g : phase L g -> short s ->
  installs (Mach.newstring s) (fun ts => [(ts, GAFQ_TSTRING)]) (fun g2 ts => Mach.string_at g2 (Some ts) = Some s) g.
Proof.
  intros P Hs. unfold installs, Mach.newstring. wp_step. wp_step. destruct (fresh_ok g) as [F1 F2].
  pose proof (internstr_phase L g (fresh g) s P F1 F2 Hs) as K. apply wp_ok in K as (ts & g' & E & P' & Sf & (m & h & r & St) & _).
  unfold wp. rewrite E. assert (white_ok g) as W by (by apply phase_split in P as [[] _]).
  split_and!; [done|by eapply internstr_grows|by constructor; [|constructor]|].
  intros g2 I. destruct (I ts _ St) as (m2 & E2); [by right|]. unfold Mach.string_at. by rewrite E2.
Qed.

Lemma installs_string s g : phase L g -> short_opt s ->
  installs (install_string s) (fun ts => opt_refs GAFQ_TSTRING ts) (fun g2 ts => Mach.string_at g2 ts = s) g.
Proof.
  intros P Hs. destruct s as [s|]; simpl; [|by apply installs_ret].
  unfold installs. wp_step. eapply wp_mono; [by apply installs_newstring|]. cbv beta. intros ts g' (P' & G & R & S).
  wp_step. by split_and!.
Qed.

Lemma installs_constant c g : phase L g -> installable_constant c ->
  installs (install_constant c) val_refs (fun g2 v => constant_at g2 v = c) g.
Proof.
  intros P Hc. destruct c as [| | |s]; simpl; try by apply installs_ret. destruct Hc as [[s' ->] Hs].
  unfold installs. wp_step. eapply wp_mono; [by apply installs_newstring|]. cbv beta. intros ts g' (P' & G & R & S).
  wp_step. split_and!; [done|done|done|]. intros g2 I. change (KString (Mach.string_at g2 (Some ts)) = KString (Some s')).
  by rewrite S.
Qed.

Lemma installs_locvar v g : phase L g -> short_opt (varname v) ->
  installs (install_locvar v) (fun x => opt_refs GAFQ_TSTRING x.1.1)
           (fun g2 x => mkLocVar (Mach.string_at g2 x.1.1) x.1.2 x.2 = v) g.
Proof.
  intros P Hs. unfold install_locvar, installs. wp_step. eapply wp_mono; [by apply installs_string|]. cbv beta.
  intros ts g' (P' & G & R & S). wp_step. split_and!; [done|done|done|]. intros g2 I. cbn [fst snd]. rewrite S by done. by destruct v.
Qed.

Lemma installs_each {A B} (m : A -> gc B) refs (shows : GState -> A -> B -> Prop) (P : A -> Prop) l g :
  (forall x g, P x -> phase L g -> installs (m x) refs (fun g2 => shows g2 x) g) ->
  phase L g -> Forall P l ->
  installs (each m l) (fun ys => ys ≫= refs) (fun g2 ys => Forall2 (shows g2) l ys) g.
Proof.
  intros Hm. revert g. induction l as [|x l IH]; intros g Hp Hl; simpl; [by apply installs_ret|].
  apply Forall_cons in Hl as [Hx Hl]. unfold installs. wp_step. eapply wp_mono; [by apply Hm|]. cbv beta.
  intros y g1 (P1 & G1 & R1 & S1). wp_step. eapply wp_mono; [by apply IH|]. cbv beta. intros ys g2 (P2 & G2 & R2 & S2). wp_step.
  split_and!; [done|by etrans| |].
  - simpl. apply Forall_app. split; [|done]. eapply Forall_impl; [exact R1|]. intros r. by apply grows_safe.
  - intros g3 I. destruct (includes_split g g1 g2 g3 G1 G2 I) as [I1 I2]. constructor; [by apply S1|by apply S2].
Qed.

Lemma shows_map {A B} (shows : A -> B -> Prop) (view : B -> A) l ys :
  (forall x y, shows x y -> view y = x) -> Forall2 shows l ys -> view <$> ys = l.
Proof. intros Hv. induction 1 as [|x y l ys Hx _ IH]; [done|]. simpl. f_equal; [by apply Hv|exact IH]. Qed.

Lemma shows_mapM {A B} (view : B -> option A) l ys :
  Forall2 (fun x y => view y = Some x) l ys -> mapM view ys = Some l.
Proof. induction 1 as [|x y l ys Hx _ IH]; [done|]. simpl. by rewrite Hx, IH. Qed.

(** a part of an installation, and the parts after it *)
Lemma installs_seq {A B} (m : gc A) (k : A -> gc B) refsA showsA refs shows g :
  installs m refsA showsA g ->
  (forall y g1, phase L g1 -> grows g g1 -> Forall (safe_ref g1) (refsA y) ->
     installs (k y) refs (fun g2 z => showsA g2 y -> shows g2 z) g1) ->
  installs (m ≫= k) refs shows g.
Proof.
  intros Hm Hk. unfold installs. wp_step. eapply wp_mono; [exact Hm|]. cbv beta. intros y g1 (P1 & G1 & R1 & S1).
  eapply wp_mono; [by apply Hk|]. cbv beta. intros z g' (P' & G' & R' & S'). split_and!; [done|by etrans|done|].
  intros g2 I. destruct (includes_split g g1 g' g2 G1 G' I) as [I1 I2]. apply S'; [done|]. by apply S1.
Qed.

Lemma grows_all g g' l : grows g g' -> Forall (safe_ref g) l -> Forall (safe_ref g') l.
Proof. intros G Hl. eapply Forall_impl; [exact Hl|]. intros r. by apply grows_safe. Qed.

(** the prototype of a memory with the prototypes inside it *)
Definition shows_proto (n : nat) (g2 : GState) (f : Proto) (o : ProtoObj) : Prop :=
  Forall2 (fun f q => match q with Some q => proto_tree n g2 q | None => None end = Some f) (p f) (p_p o) /\
  proto_view g2 (p f) o = f.

Lemma installs_parts n f nested g :
  installable (S n) f -> phase L g ->
  (forall f g, installable n f -> phase L g ->
     installs (nested f) (fun q => [(q, GAFQ_TPROTO)]) (fun g2 q => proto_tree n g2 q = Some f) g) ->
  installs (install_parts nested f) (fun o => proto_refs o) (fun g2 o => shows_proto n g2 f o) g.
Proof.
  intros Hf P Hn. inversion Hf as [n' f' Hs Hk Hl Hu Hp]; subst. unfold install_parts.
  eapply installs_seq; [by apply installs_string|]. intros source g1 P1 G1 R1.
  eapply installs_seq; [eapply (installs_each install_constant); [|done|exact Hk]; intros; by apply installs_constant|].
  intros ks g2 P2 G2 R2.
  eapply installs_seq.
  { eapply (installs_each (fun f => q ← nested f; mret (Some q)) (opt_refs GAFQ_TPROTO)
              (fun g2 f q => match q with Some q => proto_tree n g2 q | None => None end = Some f)); [|done|exact Hp].
    intros x gx Hx Px. unfold installs. wp_step. eapply wp_mono; [by apply Hn|]. cbv beta. intros q g' (P' & G' & R' & S').
    wp_step. by split_and!. }
  intros ps g3 P3 G3 R3.
  eapply installs_seq; [eapply (installs_each install_locvar); [|done|exact Hl]; intros; by apply installs_locvar|].
  intros lvs g4 P4 G4 R4.
  eapply installs_seq; [eapply (installs_each install_string); [|done|exact Hu]; intros; by apply installs_string|].
  intros ups g5 P5 G5 R5. apply installs_ret; [done| |].
  - unfold proto_refs. simpl. rewrite !Forall_app. split_and!; [..|done|eapply grows_all; [|exact R3]|eapply grows_all; [|exact R4]];
      [eapply grows_all; [|exact R1]|eapply grows_all; [|exact R2]|..]; eauto using grows_trans.
  - intros g6 S5 S4 S3 S2 S1. split; [exact S3|]. unfold proto_view. simpl. rewrite S1.
    rewrite (shows_map _ (constant_at g6) _ _ ltac:(intros ? ? Hx; exact Hx) S2).
    rewrite (shows_map _ (fun v => mkLocVar (Mach.string_at g6 v.1.1) v.1.2 v.2) _ _ ltac:(intros ? ? Hx; exact Hx) S4).
    rewrite (shows_map _ (Mach.string_at g6) _ _ ltac:(intros ? ? Hx; exact Hx) S5). by destruct f.
Qed.

Lemma install_eq f : install f = (
  tf ← gets fresh;
  gafqF_newproto tf;;
  o ← install_parts install f;
  putbody tf (BProto o);;
  resize_block 0 (zlen (p_code o) * Heap.sizeof_Instruction);;
  resize_block 0 (zlen (p_p o) * sizeof_pointer);;
  resize_block 0 (zlen (p_k o) * sizeof_TValue);;
  resize_block 0 (zlen (p_lineinfo o) * Heap.sizeof_int);;
  resize_block 0 (zlen (p_locvars o) * sizeof_LocVar);;
  resize_block 0 (zlen (p_upvalues o) * sizeof_pointer);;
  mret tf).
Proof. by destruct f. Qed.

(** the counter of bytes is nothing that the collector's invariant depends on *)
Lemma bytes_phase g x : phase L g -> phase L (set_totalbytes g x).
Proof.
  intros [B Pp]%phase_split. apply phase_split. split; [by eapply base_ext; [..|exact B]|]. destruct Pp as [G Tr|G M|G P1 P2 Tr].
  - apply pp_idle; [exact G|]. by eapply tracked_ext; [..|exact Tr].
  - apply pp_mark; [exact G|]. by eapply marking_state_ext; [..|exact M].
  - apply pp_sweep; [exact G|exact P1|exact P2|]. by eapply tracked_ext; [..|exact Tr].
Qed.

Lemma resize_block_wp osize nsize (Q : unit -> GState -> Prop) g :
  Q tt (set_totalbytes g (size_t (totalbytes g - osize + nsize))) -> wp (resize_block osize nsize) Q g.
Proof. done. Qed.

Lemma link_installs g p size b : phase L g -> heap g !! p = None -> p <> UVHEAD -> ~ is_open b -> ~ is_string b ->
  (forall t, b = BThread t -> openupval t = []) -> body_ok g b -> Forall (safe_ref g) (body_refs g b) ->
  wp (gafqC_link p size b) (fun _ g' => phase L g' /\ added p (mkObj (gafqC_white g) b) g g' /\ grows g g') g.
Proof.
  intros P N Hp K1 K2 K3 K4 K5. pose proof (link_phase L g p size b P N Hp K1 K2 K3 K4 K5) as K.
  apply wp_ok in K as ([] & g' & E & P' & Ad & _). unfold wp. rewrite E. split_and!; [done|done|].
  eapply grows_added; [exact Ad|]. unfold gafqC_link, mbind, stres_bind, gets, modify, alloc in E. rewrite N in E.
  destruct (p =? UVHEAD); [done|]. by injection E as <-.
Qed.

Lemma grows_white g g' p m b : grows g g' -> ~ is_string b -> heap g !! p = Some (mkObj m b) -> heap g' !! p = Some (mkObj m b).
Proof.
  intros [Hg _] Hs E. destruct (Hg p _ E) as ([m' b'] & E' & B & M & _). cbn [body marked] in *. rewrite E', B. f_equal.
  by rewrite M.
Qed.

Lemma install_spec n f g : installable n f -> phase L g ->
  installs (install f) (fun q => [(q, GAFQ_TPROTO)]) (fun g2 q => proto_tree n g2 q = Some f) g.
Proof.
  revert f g. induction n as [|n IH]; intros f g Hf P; [inversion Hf|].
  rewrite install_eq. unfold installs. wp_step. wp_step. destruct (fresh_ok g) as [F1 F2]. set (tf := fresh g) in *.
  pose proof (phase_split L g) as [[B _] _]; [done|]. destruct (white_marks g (b_white _ _ B)) as (Mw & _ & Md & _).
  wp_step. eapply wp_mono; [apply (link_installs g tf); try done; by intros []|]. cbv beta. intros [] g1 (P1 & Ad & G1).
  assert (heap g1 !! tf = Some (mkObj (gafqC_white g) (BProto (mkProtoObj [] [] [] [] [] [] None 0 0 0 0 0 0)))) as E1
    by (destruct Ad as [_ ->]; apply lookup_insert_eq).
  wp_step. eapply wp_mono; [by apply (installs_parts n)|]. cbv beta. intros o g2 (P2 & G2 & R2 & S2).
  assert (E2 := grows_white _ _ _ _ _ G2 (fun H : is_string (BProto _) => H) E1).
  wp_step. eapply wp_putbody; [exact E2|]. unfold set_body. cbn [marked]. fold (filled g2 tf (gafqC_white g) (BProto o)).
  set (g3 := filled _ _ _ _). assert (phase L g3) as P3 by (by eapply filled_phase).
  assert (grows g g3) as G3 by (apply grows_filled; [by etrans|done]).
  do 6 (wp_step; apply resize_block_wp). wp_step. set (g4 := set_totalbytes _ _).
  assert (heap g4 = heap g3) as H4 by done. assert (grows g3 g4) as G4 by (by apply grows_same).
  assert (heap g3 !! tf = Some (mkObj (gafqC_white g) (BProto o))) as E3 by apply lookup_insert_eq.
  split_and!; [by repeat apply bytes_phase|by etrans| |].
  - constructor; [|constructor]. apply (grows_safe g3); [done|]. split; eexists; (split; [exact E3|]); [done|].
    unfold dead. cbn [marked]. change (deadbit g3) with (deadbit g2). unfold deadbit.
    rewrite (gr_white _ _ G2), (gr_white _ _ G1). fold (deadbit g). by rewrite Md.
  - intros g5 I. destruct (I tf (mkObj (gafqC_white g) (BProto o))) as (m5 & E5); [by rewrite H4|by left|].
    destruct (S2 g5) as [St Sv].
    { intros q x Eq Hq. assert (q <> tf) as Hne.
      { intros ->. destruct Hq as [Hq|Hq]; [congruence|]. rewrite E2 in Eq. by injection Eq as <-. }
      apply I; [rewrite H4; unfold g3; by rewrite filled_at|]. destruct Hq as [Hq|Hq]; [left; by apply (grows_none g g1)|by right]. }
    simpl. rewrite E5. cbn [body]. rewrite (shows_mapM _ _ _ St). simpl. by rewrite Sv.
Qed.

End Install.

(** ** The stack of a thread is written

    No barrier is needed in any phase: a thread that the mark phase has reached is gray or in
    [grayagain], and is traversed again. *)

Section Stack.
Context (L : pointer) (g : GState) (p : pointer) (m : Z) (t t' : Thread).
Hypothesis E : heap g !! p = Some (mkObj m (BThread t)).
Hypothesis Ok : thread_ok t'.
Hypothesis Top : top t <= top t'.
Hypothesis Open : openupval t' = openupval t.
Hypothesis Refs : Forall (safe_ref g) (thread_refs t) -> Forall (safe_ref g) (thread_refs t').
Hypothesis Slots : forall lv, vget VNil (stack t') lv = vget VNil (stack t) lv \/
  Forall (safe_ref g) (val_refs (vget VNil (stack t') lv)).

Definition stacked : GState := on_heap (insert p (set_body (BThread t') (mkObj m (BThread t)))) g.

Lemma stacked_at : heap stacked !! p = Some (mkObj m (BThread t')).
Proof. apply lookup_insert_eq. Qed.

Lemma stacked_ne q : q <> p -> heap stacked !! q = heap g !! q.
Proof. intros Hq. by apply lookup_insert_ne. Qed.

Lemma stacked_marks q o : heap g !! q = Some o <-> exists o', heap stacked !! q = Some o' /\ marked o' = marked o /\
  (q = p /\ o = mkObj m (BThread t) /\ o' = mkObj m (BThread t') \/ q <> p /\ o' = o).
Proof.
  destruct (decide (q = p)) as [->|Hne].
  - rewrite stacked_at, E. split; [intros [= <-]; eauto 8|]. intros (o' & _ & _ & [(_ & -> & _)|[H _]]); done.
  - rewrite stacked_ne by done. split; [intros ->; eauto 8|]. by intros (o' & -> & _ & [(H & _)|[_ ->]]).
Qed.

Lemma stacked_nonwhite q : nonwhite g q -> nonwhite stacked q.
Proof. intros (o & Eo & W). apply stacked_marks in Eo as (o' & Eo' & M & _). exists o'. split; [done|congruence]. Qed.

Lemma stacked_base : base L g -> base L stacked.
Proof.
  intros B. apply base_write; [done|done|done| | |].
  - fold stacked. intros q x Eq. destruct (decide (q = p)) as [->|Hne].
    + rewrite stacked_at in Eq. by injection Eq as <-.
    + rewrite stacked_ne in Eq by done. pose proof (b_shape _ _ B q x Eq) as K.
      destruct (body x) as [| | | | | |[th' lv pr nx|]|]; try done. simpl in *. destruct K as (m' & t1 & Et & Hl).
      destruct (decide (th' = p)) as [->|Hth].
      * exists m, t'. split; [apply stacked_at|]. rewrite E in Et. injection Et as <- <-. lia.
      * exists m', t1. by rewrite lookup_insert_ne.
  - intros D. apply Refs. exact (b_closed _ _ B p _ E D).
  - fold stacked. intros lv. unfold slot_of. rewrite stacked_at, E. apply Slots.
Qed.

Lemma stacked_scanned q o : q <> p -> ~ is_open (body o) -> scanned g q o -> scanned stacked q o.
Proof.
  intros Hq Ho [H1 H2]. split; [|exact H2]. replace (scan_refs stacked o) with (scan_refs g o).
  - eapply Forall_impl; [exact H1|]. intros r. apply stacked_nonwhite.
  - unfold scan_refs. by destruct (body o) as [| | | | | |[]|].
Qed.

Lemma stacked_pending q : pending g q -> pending stacked q.
Proof.
  intros [H|(o & Eo & Ho)]; [by left|right]. apply stacked_marks in Eo as (o' & Eo' & _ & [(_ & -> & _)|[_ ->]]); [done|eauto].
Qed.

Lemma stacked_marking : marking_state g -> marking_state stacked.
Proof.
  intros [Tr [N M Wk X Th] Fr Nm Nr]. split; [| | |by apply stacked_nonwhite|eapply Forall_impl; [exact Nr|intros r; apply stacked_nonwhite]].
  - intros q x Ex Wq. destruct (decide (q = p)) as [->|Hne].
    + rewrite stacked_at in Ex. injection Ex as <-. destruct (Th p m t E Wq ltac:(done)) as [H|H]; [by left|].
      right; left; left. by right; left.
    + rewrite stacked_ne in Ex by done. destruct (Tr q x Ex Wq) as [H|[H|H]]; [by left|right; left; by apply stacked_pending|].
      destruct (body x) as [| | | | | |[]|] eqn:Bx; try (right; right; apply stacked_scanned; [done|rewrite Bx; by intros []|done]).
      right; left; right. exists x. rewrite stacked_ne by done. split; [done|]. by rewrite Bx.
  - split; [exact N| | | |].
    + intros q Hq. destruct (M q Hq) as (o & Eo & Wo & Co & Bo). apply stacked_marks in Eo as (o' & Eo' & Mo & K). exists o'.
      rewrite Mo. split_and!; [done|done| |done]. by destruct K as [(_ & -> & ->)|[_ ->]].
    + intros q Hq. destruct (Wk q Hq) as (mq & h & Eq). exists mq, h. rewrite stacked_ne; [done|]. intros ->. congruence.
    + intros q x Ex H. destruct (decide (q = p)) as [->|Hne]; [|rewrite stacked_ne in Ex by done; by eapply X].
      rewrite stacked_at in Ex. injection Ex as <-. destruct H as [H|[]]. apply (X p _ E). by left.
    + intros q mq t1 Ex Wq Hx. destruct (decide (q = p)) as [->|Hne]; [|rewrite stacked_ne in Ex by done; by eapply Th].
      rewrite stacked_at in Ex. injection Ex as <- <-. by eapply Th.
  - intros q x Ex. destruct (decide (q = p)) as [->|Hne]; [|rewrite stacked_ne in Ex by done; by apply Fr with q].
    rewrite stacked_at in Ex. injection Ex as <-. exact (Fr p _ E).
Qed.

Lemma stacked_phase : phase L g -> phase L stacked.
Proof.
  intros [B Pp]%phase_split. apply phase_split. split; [by apply stacked_base|]. destruct Pp as [G Tr|G M|G P1 P2 Tr].
  - apply pp_idle; [exact G|by eapply tracked_write].
  - apply pp_mark; [exact G|by apply stacked_marking].
  - apply pp_sweep; [exact G|exact P1|exact P2|by eapply tracked_write].
Qed.

End Stack.

Definition pushed (t : Thread) (v : TValue) : Thread := set_top (set_stack t (vset (stack t) (top t) v)) (top t + 1).

Lemma pushed_refs t v : 0 <= top t < stacksize t -> thread_refs (pushed t v) = thread_refs t ++ val_refs v.
Proof.
  intros Ht. unfold thread_refs, pushed, vset. cbn [l_gt top stack set_top set_stack]. destruct (Z.ltb_spec (top t) 0); [lia|].
  replace (Z.to_nat (top t + 1)) with (S (Z.to_nat (top t))) by lia. unfold stacksize, zlen in Ht.
  rewrite (take_S_r _ _ v) by (apply list_lookup_insert_eq; lia). rewrite take_insert_ge by lia.
  rewrite bind_app. simpl. by rewrite app_nil_r, <- app_assoc.
Qed.

Lemma pushed_slot t v lv : 0 <= top t < stacksize t ->
  vget VNil (stack (pushed t v)) lv = vget VNil (stack t) lv \/ vget VNil (stack (pushed t v)) lv = v.
Proof.
  intros Ht. unfold pushed, vset, vget. cbn [stack set_top set_stack]. destruct (Z.ltb_spec (top t) 0); [lia|].
  destruct (Z.ltb_spec lv 0); [by left|]. rewrite !nth_lookup. unfold stacksize, zlen in Ht.
  destruct (decide (Z.to_nat lv = Z.to_nat (top t))) as [->|Hne].
  - rewrite list_lookup_insert_eq by lia. by right.
  - rewrite list_lookup_insert_ne by done. by left.
Qed.

Lemma pushed_ok t v : thread_ok t -> top t + 1 < stacksize t -> thread_ok (pushed t v).
Proof.
  intros [H0 H1] H2. split; [simpl; lia|]. unfold stack_lim in *. apply stack_lim_bound in H1 as [_ H1].
  replace (stacksize (pushed t v)) with (stacksize t); [by apply stack_lim_bound|].
  unfold stacksize, zlen, pushed, vset. cbn [stack set_top set_stack]. destruct (Z.ltb_spec (top t) 0); [lia|]. by rewrite length_insert.
Qed.

Lemma push_spec L g m t v : phase L g -> heap g !! L = Some (mkObj m (BThread t)) -> 1 < stack_last t - top t ->
  Forall (safe_ref g) (val_refs v) ->
  wp (push L v) (fun _ g' => phase L g' /\ g' = on_heap (insert L (mkObj m (BThread (pushed t v)))) g) g.
Proof.
  intros P E Hr Hv. pose proof P as [B _]%phase_split. destruct (b_shape _ _ B L _ E) as [H0 H1].
  unfold stack_last in Hr. change EXTRA_STACK with 5 in Hr. assert (0 <= top t < stacksize t) as Ht by lia.
  unfold push, gettop. wp_step. wp_step. eapply wp_gco2th; [exact E|]. wp_step. wp_step. eapply wp_setslot_th; [exact E|done|]. cbv beta.
  unfold incr_top, gafqD_checkstack. wp_step. wp_step. eapply wp_gco2th; [apply put_thread_at|]. cbv beta.
  assert (stacksize (set_stack t (vset (stack t) (top t) v)) = stacksize t) as Es.
  { unfold stacksize, zlen, vset. cbn [stack set_stack]. destruct (Z.ltb_spec (top t) 0); [lia|]. by rewrite length_insert. }
  unfold stack_last. rewrite Es. cbn [top set_stack]. change EXTRA_STACK with 5. destruct (Z.leb_spec (stacksize t - 5 - 1 - top t) 1); [lia|].
  wp_step. eapply wp_putth; [apply put_thread_at|]. rewrite put_thread_twice. split; [|done].
  apply (stacked_phase L g L m t (pushed t v)); [done|by apply pushed_ok; [split|lia]|simpl; lia|done| | |done].
  - intros Hc. rewrite pushed_refs by done. by apply Forall_app.
  - intros lv. destruct (pushed_slot t v lv Ht) as [K|K]; [by left|right; by rewrite K].
Qed.

(** C39: writing to a stack needs no barrier: in every phase of the collector, pushing a value whose object is alive returns,
    puts the value on the top of the stack, changes nothing else, and keeps the invariant of the phase, also when the mark phase
    has already traversed the thread and the value is white. *)
Theorem push_no_barrier L g m t v : phase L g -> heap g !! L = Some (mkObj m (BThread t)) -> 1 < stack_last t - top t ->
  Forall (safe_ref g) (val_refs v) ->
  exists g', push L v g = Ok (tt, g') /\ phase L g' /\ heap g' = <[L := mkObj m (BThread (pushed t v))]> (heap g) /\
    (gcstate g', gray g', grayagain g') = (gcstate g, gray g, grayagain g).
Proof.
  intros P E Room Hv. destruct (wp_ok _ _ _ (push_spec L g m t v P E Room Hv)) as ([] & g' & Eq & P' & ->).
  eexists. by split_and!.
Qed.

(** ** A dumped function is loaded again *)

Section Reload.
Context `{Host} `{Calls} `{Stdio}.
Hypothesis fresh_ok : forall g, heap g !! fresh g = None /\ fresh g <> UVHEAD.

(** the undumper gets a block that is a dumped function, whatever the chunk is called *)
Lemma parse_dumped name ncalls f s : s = (gafqU_dump append_writer f [] false).1 ->
  dumpable (Z.to_nat (Do.GAFQI_MAXCCALLS - ncalls)) f -> sourced f -> Forall is_byte s -> zlen s < SIZE_MOD ->
  (parse_blocks name ncalls [s]).1 = Ok f.
Proof.
  intros Es Hd Hs Hb Hl. unfold parse_blocks. cbn [app].
  destruct (zok_init [s; []]) as [Hz Hp]; [constructor; [exact Hl|by constructor]|constructor; [exact Hb|by repeat constructor]|].
  pose proof (lookahead_spec _ Hz) as La. rewrite Hp in La.
  assert (exists r, s = 27 :: r) as [r Er].
  { rewrite Es, dump_appended. simpl. by eexists. }
  assert (stream [s; []] = s ++ []) as Est by (by rewrite Er).
  rewrite Est, app_nil_r in La. destruct s as [|c0 r0]; [discriminate Er|]. injection Er as -> ->. destruct La as (Lc & _ & Lz & Lp & _).
  destruct (gafqZ_lookahead _) as [c z]. cbn [fst snd] in *. subst c.
  change (27 =? vget 0 GAFQ_SIGNATURE 0) with true. cbv iota.
  destruct (undump_dump _ f z [] Hd Hs Lz) as (_ & z' & E & _ & _); [|by rewrite E].
  rewrite <- Es, app_nil_r. by rewrite Lp.
Qed.

(** *** A closure and its upvalues

    [f_parser] links the closure with upvalues that are [NULL] and fills them in afterwards.
    The memory in between is one in the invariant, [gb], with the closure [x] in place of a
    closure without upvalues. *)

Lemma link_beside p size b cl x gb gb' : p <> cl -> gafqC_link p size b gb = Ok (tt, gb') ->
  gafqC_link p size b (on_heap (insert cl x) gb) = Ok (tt, on_heap (insert cl x) gb').
Proof.
  intros Hp. unfold gafqC_link, mbind, stres_bind, gets, modify, alloc. cbn [heap on_heap set_heap id].
  rewrite lookup_insert_ne by done. destruct (heap gb !! p); [done|]. destruct (p =? UVHEAD); [done|].
  intros [= <-]. do 2 f_equal. unfold on_heap. simpl. by rewrite insert_insert_ne.
Qed.

Lemma link_instead cl size b b' g gb : gafqC_link cl size b g = Ok (tt, gb) ->
  gafqC_link cl size b' g = Ok (tt, on_heap (insert cl (mkObj (gafqC_white g) b')) gb).
Proof.
  unfold gafqC_link, mbind, stres_bind, gets, modify, alloc. destruct (heap g !! cl); [done|]. destruct (cl =? UVHEAD); [done|].
  intros [= <-]. do 2 f_equal. unfold on_heap. simpl. by rewrite insert_insert_eq.
Qed.

Lemma upvals_beside L cl m b x (l : list Z) gb : phase L gb -> heap gb !! cl = Some (mkObj m b) -> ~ is_string b ->
  wp (each (fun _ => uv ← gets fresh; gafqF_newupval uv;; mret (Some uv)) l)
     (fun ups g' => exists gb', g' = on_heap (insert cl x) gb' /\ phase L gb' /\ grows gb gb' /\ zlen ups = zlen l /\
        Forall is_Some ups /\ Forall (safe_ref gb') (ups ≫= opt_refs GAFQ_TUPVAL))
     (on_heap (insert cl x) gb).
Proof.
  intros P E Hb. revert gb P E. induction l as [|y l IH]; intros gb P E; simpl; [wp_step; eexists; by split_and!|].
  wp_step. wp_step. wp_step. destruct (fresh_ok (on_heap (insert cl x) gb)) as [F1 F2]. set (uv := fresh _) in *.
  assert (uv <> cl) as Hne by (intros Hq; rewrite Hq in F1; simpl in F1; by rewrite lookup_insert_eq in F1).
  assert (heap gb !! uv = None) as N by (simpl in F1; by rewrite lookup_insert_ne in F1).
  assert (wp (gafqC_link uv sizeof_UpVal (BUpVal (UClosed VNil)))
    (fun _ g' => phase L g' /\ added uv (mkObj (gafqC_white gb) (BUpVal (UClosed VNil))) gb g' /\ grows gb g') gb) as K
    by (apply link_installs; try done; by intros []).
  apply wp_ok in K as ([] & gb1 & E1 & P1 & [_ Ad] & G1). wp_step. unfold wp at 1. unfold gafqF_newupval.
  rewrite (link_beside uv _ _ cl x gb gb1) by done. wp_step. wp_step.
  eapply wp_mono; [apply IH; [done|by eapply grows_white]|]. cbv beta. intros ys g2 (gb2 & -> & P2 & G2 & Hl & Hs & Hr). wp_step.
  exists gb2. split_and!; [done|done|by etrans|unfold zlen in *; simpl; lia|by constructor|].
  simpl. constructor; [|done]. apply (grows_safe gb1); [done|]. pose proof P as [B _]%phase_split.
  destruct (white_marks gb (b_white _ _ B)) as (_ & _ & Md & _).
  assert (heap gb1 !! uv = Some (mkObj (gafqC_white gb) (BUpVal (UClosed VNil)))) as Eu by (rewrite Ad; apply lookup_insert_eq).
  split; (eexists; split; [exact Eu|]); [done|]. unfold dead, deadbit. rewrite (gr_white _ _ G1). fold (deadbit gb). cbn [marked]. by rewrite Md.
Qed.

(** the closure with its upvalues is in the invariant again *)
Lemma closure_spec L g e tf n cl : phase L g -> safe_ref g (e, GAFQ_TTABLE) -> safe_ref g (tf, GAFQ_TPROTO) -> 0 <= n ->
  heap g !! cl = None -> cl <> UVHEAD ->
  wp (gafqF_newLclosure cl n e tf;; upvals ← new_upvals n; putbody cl (BLClosure e tf upvals))
     (fun _ g' => phase L g' /\ grows g g' /\ safe_ref g' (cl, GAFQ_TFUNCTION) /\
        exists m upvals, heap g' !! cl = Some (mkObj m (BLClosure e tf upvals)) /\ zlen upvals = n /\ Forall is_Some upvals) g.
Proof.
  intros P Se St Hn N Hcl. pose proof P as [B _]%phase_split. destruct (white_marks g (b_white _ _ B)) as (Mw & _ & Md & _).
  assert (wp (gafqC_link cl (sizeLclosure n) (BLClosure e tf []))
    (fun _ g' => phase L g' /\ added cl (mkObj (gafqC_white g) (BLClosure e tf [])) g g' /\ grows g g') g) as K.
  { apply link_installs; try done; [by intros []..|by apply Forall_nil|]. constructor; [done|]. constructor; [done|]. by apply Forall_nil. }
  apply wp_ok in K as ([] & gb & E1 & P1 & [_ Ad] & G1). wp_step. unfold wp at 1, gafqF_newLclosure.
  rewrite (link_instead _ _ _ (BLClosure e tf (replicate (Z.to_nat (u8 n)) None)) _ _ E1).
  assert (heap gb !! cl = Some (mkObj (gafqC_white g) (BLClosure e tf []))) as Ec by (rewrite Ad; apply lookup_insert_eq).
  wp_step. eapply wp_mono; [apply (upvals_beside L cl _ _ _ _ gb P1 Ec (fun H : is_string (BLClosure _ _ _) => H))|]. cbv beta.
  intros ups g2 (gb2 & -> & P2 & G2 & Hl & Hs & Hr). eapply wp_putbody; [apply lookup_insert_eq|].
  assert (E2 := grows_white _ _ _ _ _ G2 (fun H : is_string (BLClosure _ _ _) => H) Ec).
  assert (forall x y, on_heap (insert cl y) (on_heap (insert cl x) gb2) = on_heap (insert cl y) gb2) as Tw
    by (intros x y; unfold on_heap; simpl; by rewrite insert_insert_eq).
  rewrite Tw. unfold set_body. cbn [marked]. fold (filled gb2 cl (gafqC_white g) (BLClosure e tf ups)).
  assert (grows g gb2) as G by (by etrans). split_and!.
  - eapply filled_phase; [exact E2|exact Mw|done|exact Hs| |done]. simpl. constructor; [by apply (grows_safe g)|].
    constructor; [by apply (grows_safe g)|done].
  - by apply grows_filled.
  - split; (eexists; split; [apply lookup_insert_eq|]); [done|]. unfold dead, deadbit. cbn [filled on_heap currentwhite set_heap marked].
    rewrite (gr_white _ _ G). fold (deadbit g). by rewrite Md.
  - eexists _, ups. split; [apply lookup_insert_eq|]. split; [|done]. rewrite Hl. unfold zlen. rewrite length_seqZ. lia.
Qed.

Lemma checkGC_idle (Q : unit -> GState -> Prop) L g : totalbytes g < GCthreshold g -> Q tt g -> wp (checkGC L) Q g.
Proof.
  intros Hb HQ. unfold checkGC, gafqC_checkGC. wp_step. wp_step. unfold id. destruct (Z.leb_spec (GCthreshold g) (totalbytes g)); [lia|].
  by wp_step.
Qed.

(** the loop with a reader that has given everything *)
Lemma parse_loop_one L name ncalls s f n (Q : pointer -> GState -> Prop) g :
  rounds = S n -> (parse_blocks name ncalls [s]).1 = Ok f -> wp (install f) Q g ->
  wp (parse_loop rounds L getS [] name ncalls [s]) Q g.
Proof.
  intros -> E W. simpl. destruct (parse_blocks name ncalls [s]) as [r d]. cbn [fst] in E. subst r.
  destruct d; [exact W|]. wp_step. unfold getS. wp_step. cbn [fst]. by rewrite bool_decide_eq_true_2.
Qed.

Lemma proto_tree_at n g q f : proto_tree n g q = Some f -> exists m o, heap g !! q = Some (mkObj m (BProto o)) /\ p_nups o = nups f.
Proof.
  destruct n as [|n]; [done|]. simpl. destruct (heap g !! q) as [[m []]|]; try done. intros E. eexists _, _. split; [done|].
  destruct (mapM _ _) as [nested|]; [|done]. simpl in E. by injection E as <-.
Qed.

Lemma wp_last {A} (m : gc unit) (n : gc A) (k : A -> gc unit) (j : gc unit) (Q : unit -> GState -> Prop) g :
  wp (m;; a ← n; k a) (fun _ g' => wp j Q g') g -> wp (m;; a ← n; k a;; j) Q g.
Proof.
  unfold wp, mbind, stres_bind. destruct (m g) as [[[] g1]|]; [|done]. destruct (n g1) as [[a g2]|]; [|done].
  by destruct (k a g2) as [[[] g3]|].
Qed.

Lemma wp_protected L (f : gc unit) (Q : Z -> GState -> Prop) g : wp f (fun _ => Q 0) g -> wp (gafqD_rawrunprotected L f) Q g.
Proof. unfold wp, gafqD_rawrunprotected. by destruct (f g) as [[[] g']|]. Qed.

Lemma includes_grows g g1 g2 : grows g1 g2 -> includes g g1 g2.
Proof. intros G q o E _. destruct (gr_old _ _ G q o E) as ([m b] & E' & B & _). simpl in B. subst b. by exists m. Qed.

(** the thread is not one of the objects that the install made *)
Lemma includes_thread g g1 g2 L x : includes g g1 g2 -> is_Some (heap g !! L) -> heap g1 !! L = heap g !! L ->
  (forall o, heap g !! L = Some o -> ~ is_string (body o)) -> includes g g1 (on_heap (insert L x) g2).
Proof.
  intros I [o0 E0] E1 Hs q o E H2. assert (q <> L) as Hne.
  { intros ->. rewrite E1, E0 in E. injection E as <-. destruct H2 as [H2|H2]; [congruence|by eapply Hs]. }
  destruct (I q o E H2) as (m & Em). exists m. simpl. by rewrite lookup_insert_ne.
Qed.

(** [f_parser] on a block that is a function *)
Lemma f_parser_accepts L n f name g m th e s :
  s <> [] -> (parse_blocks name (nCcalls th) [s]).1 = Ok f ->
  phase L g -> heap g !! L = Some (mkObj m (BThread th)) -> l_gt th = VTable e -> 1 < stack_last th - top th ->
  totalbytes g < GCthreshold g -> rounds <> O ->
  0 <= nups f -> installable n f ->
  wp (f_parser L getS s name) (fun _ g' => phase L g' /\ exists cl mc tf upvals,
    heap g' !! L = Some (mkObj m (BThread (pushed th (VFunction cl)))) /\
    heap g' !! cl = Some (mkObj mc (BLClosure e tf upvals)) /\ zlen upvals = nups f /\ proto_tree n g' tf = Some f) g.
Proof.
  intros Hne Ep P E Eg Room Hb Hr Hn Hi. unfold f_parser. wp_step. unfold getS at 1. wp_step.
  wp_step. apply checkGC_idle; [done|]. wp_step. eapply wp_gco2th; [exact E|]. cbv beta. cbn [fst snd].
  rewrite bool_decide_eq_false_2 by done.
  destruct rounds as [|r] eqn:Er; [done|]. rewrite <- Er. wp_step. eapply parse_loop_one; [exact Er|exact Ep|].
  eapply wp_mono; [apply (install_spec fresh_ok L n f g Hi P)|]. cbv beta. intros tf g1 (P1 & G1 & St & Sh).
  apply Forall_inv in St. destruct (proto_tree_at _ _ _ _ (Sh g1 (includes_grows g g1 g1 (grows_refl g1)))) as (mp & o & Eo & Nu).
  assert (E1 := grows_white _ _ _ _ _ G1 (fun H : is_string (BThread _) => H) E).
  wp_step. eapply wp_gco2p; [exact Eo|]. wp_step. eapply wp_gco2th; [exact E1|]. cbv beta. rewrite Eg.
  pose proof P1 as [B1 _]%phase_split. assert (safe_ref g1 (e, GAFQ_TTABLE)) as Se.
  { assert (safe_ref g1 (L, GAFQ_TTHREAD)) as [_ (oL & EL & Dd)] by (by destruct (b_rooted _ _ B1) as [R _]; apply Forall_inv in R).
    pose proof (b_closed _ _ B1 L oL EL Dd) as C. simpl in EL. rewrite E1 in EL. injection EL as <-. simpl in C. unfold thread_refs in C.
    rewrite Eg in C. by apply Forall_app in C as [C _]; apply Forall_inv in C. }
  wp_step. wp_step. destruct (fresh_ok g1) as [F1 F2]. set (cl := fresh g1) in *. apply wp_last. rewrite Nu.
  eapply wp_mono; [by apply (closure_spec L g1 e tf (nups f) cl)|]. cbv beta.
  intros [] g2 (P2 & G2 & Sc & mc & ups & Ec & Hl & _). assert (E2 := grows_white _ _ _ _ _ G2 (fun H : is_string (BThread _) => H) E1).
  eapply wp_mono; [apply (push_spec L g2 m th (VFunction cl)); [done|done|done|]|].
  { constructor; [exact Sc|constructor]. }
  cbv beta. intros [] g3 [P3 ->].
  split; [done|]. exists cl, mc, tf, ups. split_and!; [apply lookup_insert_eq| |done|].
  - simpl. rewrite lookup_insert_ne; [done|]. intros Hq. rewrite Hq in E1. congruence.
  - apply Sh, includes_thread; [by apply includes_grows|by rewrite E|by rewrite E, E1|]. rewrite E. by intros ? [= <-] [].
Qed.

(** C6: a function that [gafq_dump] has written is loaded again in every phase of the collector. [gafqL_loadbuffer]
    on the dump returns 0 and pushes one value, a new closure with the globals of the thread as its environment and an
    upvalue for each upvalue of the function; reading the prototype of the closure back from the memory gives the function
    that was dumped, with its constants, its debug information and the functions nested in it; and the memory is one that
    the collector can work on. *)
Theorem dump_reloads L n f name g m th e :
  phase L g -> heap g !! L = Some (mkObj m (BThread th)) -> l_gt th = VTable e -> 1 < stack_last th - top th ->
  totalbytes g < GCthreshold g -> rounds <> O ->
  dumpable (Z.to_nat (Do.GAFQI_MAXCCALLS - nCcalls th)) f -> sourced f -> installable n f ->
  Forall is_byte (gafqU_dump append_writer f [] false).1 -> zlen (gafqU_dump append_writer f [] false).1 < SIZE_MOD ->
  exists g' cl mc tf upvals,
    gafqL_loadbuffer L (gafqU_dump append_writer f [] false).1 name g = Ok (0, g') /\ phase L g' /\
    heap g' !! L = Some (mkObj m (BThread (pushed th (VFunction cl)))) /\
    heap g' !! cl = Some (mkObj mc (BLClosure e tf upvals)) /\ zlen upvals = nups f /\ proto_tree n g' tf = Some f.
Proof.
  intros P E Eg Room Hb Hr Hd Hs Hi By Sz.
  assert (forall t, set_errfunc t (errfunc t) = t) as Ef by (by intros []).
  assert ((gafqU_dump append_writer f [] false).1 <> []) as Hne by (by rewrite dump_appended).
  assert (0 <= nups f) as Hn by (inversion Hd as [? ? [_ _ [[? _] _] _ _ _ _ _ _] _ _]; subst; lia).
  assert (on_heap (insert L (mkObj m (BThread th))) g = g) as Eid.
  { unfold on_heap. rewrite insert_id by done. by destruct g. }
  assert (wp (gafqL_loadbuffer L (gafqU_dump append_writer f [] false).1 name) (fun st g' => st = 0 /\ phase L g' /\
    exists cl mc tf upvals, heap g' !! L = Some (mkObj m (BThread (pushed th (VFunction cl)))) /\
    heap g' !! cl = Some (mkObj mc (BLClosure e tf upvals)) /\ zlen upvals = nups f /\ proto_tree n g' tf = Some f) g) as K.
  { unfold gafqL_loadbuffer, gafq_load, gafqD_protectedparser, gafqD_pcall. wp_step. eapply wp_gco2th; [exact E|]. cbv beta.
    wp_step. eapply wp_gco2th; [exact E|]. cbv beta zeta. wp_step. eapply wp_putth; [exact E|]. cbv beta. unfold put_thread. rewrite Ef, Eid.
    wp_step. apply wp_protected. eapply wp_mono; [by eapply (f_parser_accepts L n f _ g m th e _ Hne (parse_dumped _ _ _ _ eq_refl Hd Hs By Sz))|]. cbv beta.
    intros [] g1 (P1 & cl & mc & tf & ups & E1 & Ec & Hl & Hp). change (0 =? 0) with true. cbv iota. wp_step. wp_step. wp_step.
    eapply wp_putth; [exact E1|]. cbv beta.
    change (errfunc th) with (errfunc (pushed th (VFunction cl))). unfold put_thread. rewrite Ef.
    replace (on_heap _ g1) with g1; [wp_step; split_and!; eauto 10|]. unfold on_heap. rewrite insert_id by done. by destruct g1. }
  apply wp_ok in K as (st & g' & Eq & -> & P' & cl & mc & tf & ups & K). exists g', cl, mc, tf, ups. by split_and!; try apply K.
Qed.

Lemma bind_eq {A B} (m : gc A) (k : A -> gc B) g a g' : m g = Ok (a, g') -> (m ≫= k) g = k a g'.
Proof. unfold mbind, stres_bind. by intros ->. Qed.

Lemma wp_eq {A} (m : gc A) (a : A) g g' : wp m (fun x y => x = a /\ y = g') g -> m g = Ok (a, g').
Proof. intros (x & y & E & -> & ->)%wp_ok. done. Qed.

(** ... and on one that is not *)
Lemma f_parser_rejects L msg unread name g m th s :
  s <> [] -> (parse_blocks name (nCcalls th) [s]).1 = Err (SyntaxError msg unread) -> short (str msg) ->
  phase L g -> heap g !! L = Some (mkObj m (BThread th)) -> 1 < stack_last th - top th ->
  totalbytes g < GCthreshold g -> rounds <> O ->
  exists ts g1, f_parser L getS s name g = Err (Thrown L GAFQ_ERRSYNTAX (on_heap (insert L (mkObj m (BThread (pushed th (VString ts))))) g1)) /\
    phase L (on_heap (insert L (mkObj m (BThread (pushed th (VString ts))))) g1) /\ grows g g1 /\
    Mach.string_at g1 (Some ts) = Some (str msg).
Proof.
  intros Hne Ep Sh P E Room Hb Hr.
  assert (K := installs_newstring fresh_ok L (str msg) g P Sh). apply wp_ok in K as (ts & g1 & Es & P1 & G1 & St & Hs).
  apply Forall_inv in St. assert (E1 := grows_white _ _ _ _ _ G1 (fun H : is_string (BThread _) => H) E).
  assert (K := push_spec L g1 m th (VString ts) P1 E1 Room ltac:(constructor; [exact St|constructor])).
  apply wp_ok in K as ([] & g2 & Eu & P2 & ->).
  exists ts, g1. split_and!; [|done|done|apply Hs, includes_grows, grows_refl]. unfold f_parser.
  rewrite (bind_eq (getS s) _ g (s, []) g) by done. cbn [fst snd]. rewrite bool_decide_eq_false_2 by done.
  rewrite (bind_eq (checkGC L) _ g tt g) by (apply wp_eq; by apply checkGC_idle).
  rewrite (bind_eq (gco2th L) _ g th g) by (apply wp_eq; by eapply wp_gco2th). cbv beta.
  assert (parsed L (Err (SyntaxError msg unread)) g = Err (Thrown L GAFQ_ERRSYNTAX (on_heap (insert L (mkObj m (BThread (pushed th (VString ts))))) g1))) as Pa.
  { unfold parsed. rewrite (bind_eq _ _ _ _ _ Es). by rewrite (bind_eq _ _ _ _ _ Eu). }
  assert (parse_loop rounds L getS [] name (nCcalls th) [s] g = parsed L (Err (SyntaxError msg unread)) g) as Lo.
  { destruct rounds as [|r]; [done|]. simpl. destruct (parse_blocks name (nCcalls th) [s]) as [x d]. cbn [fst] in Ep. subst x. by destruct d. }
  unfold mbind at 1, stres_bind at 1. by rewrite Lo, Pa.
Qed.

(** no open upvalue is above the top *)
Lemma phase_no_open L g m th : phase L g -> heap g !! L = Some (mkObj m (BThread th)) -> forall g' th', openupval th' = openupval th ->
  (forall p mp b, heap g !! p = Some (mkObj mp (BUpVal b)) -> exists mp', heap g' !! p = Some (mkObj mp' (BUpVal b))) -> no_open_from g' th' (top th).
Proof.
  intros [B _]%phase_split E g' th' Ho Hk. unfold no_open_from. rewrite Ho. destruct (openupval th) as [|q l] eqn:Eo; [done|].
  destruct (ln_open _ (b_linked _ _ B) L th) as [_ Hq]; [by exists m|].
  destruct (Hq q) as (mq & lv & pr & nx & Eq); [rewrite Eo; constructor|].
  destruct (b_shape _ _ B q _ Eq) as (mt & t & Et & Hl). rewrite E in Et. injection Et as <- <-.
  destruct (Hk _ _ _ Eq) as (mq' & Eq'). exists mq', L, lv, pr, nx. split; [done|lia].
Qed.

(** C10: a text that the parser rejects, and a chunk that the undumper rejects, is an error that the caller gets as a value.
    [gafqL_loadbuffer] returns [GAFQ_ERRSYNTAX]; above the former top is one value, a string with the message, the values below
    are the former ones, and the frames, the number of C calls, the base and the error function of the thread are as before. *)
Theorem load_rejects L msg unread name g m th ci s :
  s <> [] -> (parse_blocks (cstr name) (nCcalls th) [s]).1 = Err (SyntaxError msg unread) -> short (str msg) ->
  phase L g -> heap g !! L = Some (mkObj m (BThread th)) -> 1 < stack_last th - top th ->
  totalbytes g < GCthreshold g -> rounds <> O -> last (cis th) = Some ci ->
  exists g' th' ts, gafqL_loadbuffer L s name g = Ok (GAFQ_ERRSYNTAX, g') /\ heap g' !! L = Some (mkObj m (BThread th')) /\
    top th' = top th + 1 /\ stack th' = vset (stack th) (top th) (VString ts) /\ Mach.string_at g' (Some ts) = Some (str msg) /\
    cis th' = cis th /\ nCcalls th' = nCcalls th /\ errfunc th' = errfunc th /\ Heap.base th' = ci_base ci.
Proof.
  intros Hne Ep Sh P E Room Hb Hr Hci.
  destruct (f_parser_rejects L msg unread (cstr name) g m th s Hne Ep Sh P E Room Hb Hr) as (ts & g1 & Ef & P2 & G1 & St).
  pose proof P as [B _]%phase_split. destruct (b_shape _ _ B L _ E) as [H2 H3]. unfold stack_last in Room. change EXTRA_STACK with 5 in Room.
  assert (cis th <> []) as Hc by (by destruct (cis th)).
  assert (put_thread L m g (set_errfunc th (errfunc th)) = g) as Eid.
  { unfold put_thread, on_heap. rewrite insert_id; [by destruct g|]. rewrite E. by destruct th. }
  assert (stacksize (pushed th (VString ts)) = stacksize th) as Es.
  { unfold stacksize, zlen, pushed, vset. cbn [stack set_top set_stack]. destruct (Z.ltb_spec (top th) 0); [lia|]. by rewrite length_insert. }
  destruct (pcall_error L m g th (f_parser L getS s (cstr name)) (top th) (errfunc th) GAFQ_ERRSYNTAX
    (on_heap (insert L (mkObj m (BThread (pushed th (VString ts))))) g1) m (pushed th (VString ts)) ci
    E Hc) as (g' & th' & Eq & Hg & R); [by rewrite Eid|by right|apply lookup_insert_eq| | |rewrite Es; simpl; lia|rewrite Es; lia|].
  - unfold ci_index. cbn [cis pushed set_top set_stack]. rewrite last_lookup in Hci. rewrite <- Hci. f_equal. unfold zlen. lia.
  - eapply (phase_no_open L g m th P E); [done|]. intros q mq b Eq. destruct (decide (q = L)) as [->|Hq]; [congruence|].
    destruct (gr_old _ _ G1 q _ Eq) as ([mq' bq'] & Eq' & Bq & _). simpl in Bq. subst bq'. exists mq'. simpl. by rewrite lookup_insert_ne.
  - exists g', th', ts. destruct R as [R1 R2 R3 R4 R5 R6 R7 R8]. split_and!; try done.
    + unfold gafqL_loadbuffer, gafq_load, gafqD_protectedparser. rewrite (bind_eq (gco2th L) _ g th g) by (apply wp_eq; by eapply wp_gco2th). exact Eq.
    + rewrite Hg. apply lookup_insert_eq.
    + rewrite R1. cbn [top stack pushed set_top set_stack]. unfold vset, vget. destruct (Z.ltb_spec (top th) 0); [lia|].
      destruct (Z.ltb_spec (top th + 1 - 1) 0); [lia|]. replace (top th + 1 - 1) with (top th) by lia.
      rewrite nth_lookup, list_lookup_insert_eq by (unfold stacksize, zlen in Room; lia). by rewrite list_insert_insert_eq.
    + unfold Mach.string_at in *. rewrite Hg. simpl. assert (ts <> L) as Hq.
      { intros ->. assert (E1 := grows_white _ _ _ _ _ G1 (fun H : is_string (BThread _) => H) E). by rewrite E1 in St. }
      by rewrite !lookup_insert_ne.
    + rewrite R3. apply firstn_all.
Qed.

End Reload.

(** ** Examples *)

(** streams without any input *)
Definition sample_stdio : Stdio := {|
  c_decimal_point := chr "."; c_stdin := 1; c_stdout := 2; c_stderr := 3;
  c_errno := fun w => (0, w); c_strerror := fun _ => [];
  c_fopen := fun _ _ w => (0, w); c_freopen := fun _ _ _ w => (0, w); c_fclose := fun _ w => (0, w);
  c_getc := fun _ w => (EOF, w); c_ungetc := fun _ _ w => (tt, w);
  c_fread := fun _ _ w => ([], w); c_fgets := fun _ _ w => (None, w);
  c_fwrite := fun _ _ w => (0, w); c_fputs := fun _ _ w => (0, w);
  c_feof := fun _ w => (true, w); c_ferror := fun _ w => (false, w); c_clearerr := fun _ w => (tt, w);
  c_fscanf_number := fun _ w => (None, w); c_fprintf_number := fun _ _ w => (0, w);
  c_fseek := fun _ _ _ w => (0, w); c_ftell := fun _ w => (0, w); c_setvbuf := fun _ _ _ w => (0, w);
  c_fflush := fun _ w => (0, w); c_tmpfile := fun w => (0, w); c_popen := fun _ _ w => (0, w);
  c_pclose := fun _ w => (0, w); c_getenv := fun _ w => (None, w)
|}.

Definition new_state : GState := match gafq_newstate next_free 1 with Ok g => g | Err _ => initial_state 1 end.

Definition new_thread : Z * Thread :=
  match heap new_state !! 1 with Some (mkObj m (BThread th)) => (m, th) | _ => (0, init_stack preinit_state) end.

Definition new_globals : pointer := match l_gt new_thread.2 with VTable e => e | _ => 0 end.

Lemma new_state_phase : phase 1 new_state.
Proof. destruct (newstate_spec next_free next_free_ok 1 ltac:(done)) as (g & E & P & _). unfold new_state. by rewrite E. Qed.

Lemma hello_installable : installable 1 hello_proto.
Proof. constructor; [done|by repeat constructor|by repeat constructor|by repeat constructor|constructor]. Qed.

Lemma hello_bytes : Forall is_byte (gafqU_dump append_writer hello_proto [] false).1.
Proof. apply (bool_decide_eq_true_1 (Forall (fun c => 0 <= c < 256) _)). by vm_compute. Qed.

Lemma new_thread_levels : Z.to_nat (Do.GAFQI_MAXCCALLS - nCcalls new_thread.2) = 200%nat.
Proof. by vm_compute. Qed.

Lemma dump_reloads_witness : exists g' tf,
  gafqL_loadbuffer (H := sample_host) (H0 := sample_calls) (H1 := sample_stdio) 1 (gafqU_dump append_writer hello_proto [] false).1 (str "=hello") new_state = Ok (0, g') /\
  proto_tree 1 g' tf = Some hello_proto.
Proof.
  destruct (dump_reloads (H := sample_host) (H0 := sample_calls) (H1 := sample_stdio) next_free_ok 1 1 hello_proto (str "=hello") new_state new_thread.1 new_thread.2 new_globals new_state_phase)
    as (g' & cl & mc & tf & ups & E & _ & _ & _ & _ & T);
    [vm_compute; reflexivity|vm_compute; reflexivity|vm_compute; reflexivity|vm_compute; reflexivity|done|rewrite new_thread_levels; apply hello_dumpable|exact hello_sourced|exact hello_installable|exact hello_bytes|vm_compute; reflexivity|].
  exists g', tf. exact (conj E T).
Defined.

Lemma load_rejects_witness : exists g' th' ts,
  gafqL_loadbuffer (H := sample_host) (H0 := sample_calls) (H1 := sample_stdio) 1 (str "local x =") (str "=stdin") new_state = Ok (GAFQ_ERRSYNTAX, g') /\
  stack th' = vset (stack new_thread.2) 1 (VString ts) /\ Mach.string_at g' (Some ts) = Some (str "stdin:1: unexpected symbol near '<eof>'").
Proof.
  destruct (load_rejects (H := sample_host) (H0 := sample_calls) (H1 := sample_stdio) next_free_ok 1 "stdin:1: unexpected symbol near '<eof>'" 0
    (str "=stdin") new_state new_thread.1 new_thread.2 (List.hd (mkCI 0 0 0 0 0 0) (cis new_thread.2)) (str "local x ="))
    as (g' & th' & ts & E & _ & _ & S & M & _); [done|vm_compute; reflexivity|vm_compute; by intros|exact new_state_phase
    |vm_compute; reflexivity|vm_compute; reflexivity|vm_compute; reflexivity|done|vm_compute; reflexivity|].
  exists g', th', ts. exact (conj E (conj S M)).
Defined.

Lemma push_no_barrier_witness : exists g', push 1 (VTable new_globals) new_state = Ok (tt, g') /\ phase 1 g'.
Proof.
  destruct (push_no_barrier 1 new_state new_thread.1 new_thread.2 (VTable new_globals) new_state_phase) as (g' & E & P & _);
    [vm_compute; reflexivity|vm_compute; reflexivity|constructor; [|constructor]; split; vm_compute; eexists; split; reflexivity|].
  exists g'. exact (conj E P).
Defined.
