(* ===== verification/ProgramProofs.v ===== *)
(** * What the programs rely on

    The function that [gafqc] makes of several files is accepted by the verifier; the search
    path of [require] is the list of its parts; the interactive interpreter asks for another
    line exactly when a message ends in the mark of the end of the input. *)

From stdpp Require Import gmap.
From S2P Require Import Prelude Number Opcodes Zio Lexer CheckCode Object Proto DumpProofs Heap State StateProofs Mach AuxLib Load LoadLib Programs.

(** ** The function that calls the files *)

Section Combined.
Context (g : GState) (n : nat) (source : pointer) (ps : list (option pointer)) (fs : list Proto).
Hypothesis Len : length fs = n.
Hypothesis Main : Forall (fun f => nups f = 0) fs.
Hypothesis Fits : Z.of_nat n <= MAXARG_Bx.

Definition combined_view : Proto := proto_view g fs (combined n source ps).

Lemma pairs_lookup (f : nat -> Z * Z) m : forall s i, (i < m)%nat ->
  concat ((fun i => [(f i).1; (f i).2]) <$> seq s m) !! (2 * i)%nat = Some (f (s + i)%nat).1 /\
  concat ((fun i => [(f i).1; (f i).2]) <$> seq s m) !! (2 * i + 1)%nat = Some (f (s + i)%nat).2.
Proof.
  induction m as [|m IH]; intros s i Hi; [lia|]. destruct i as [|i]; simpl.
  - by rewrite Nat.add_0_r.
  - replace (i + S (i + 0))%nat with (S (2 * i)) by lia. replace (2 * i + 1)%nat with (S (2 * i)) in * by lia. simpl.
    destruct (IH (S s) i ltac:(lia)) as [H1 H2]. replace (s + S i)%nat with (S s + i)%nat by lia. by split.
Qed.

Lemma pairs_length (f : nat -> Z * Z) m s : length (concat ((fun i => [(f i).1; (f i).2]) <$> seq s m)) = (2 * m)%nat.
Proof. revert s. induction m as [|m IH]; intros s; simpl; [done|]. rewrite IH. lia. Qed.

Lemma combine_code_size : sizecode combined_view = 2 * Z.of_nat n + 1.
Proof.
  unfold sizecode. simpl. unfold combine_code.
  rewrite length_app, (pairs_length (fun i => (CREATE_ABx (op_num OP_CLOSURE) 0 (Z.of_nat i), CREATE_ABC (op_num OP_CALL) 0 1 1))). simpl. lia.
Qed.

Inductive combined_at (pc : Z) : Z -> Prop :=
  | at_closure i : 0 <= i < Z.of_nat n -> pc = 2 * i -> combined_at pc (CREATE_ABx (op_num OP_CLOSURE) 0 i)
  | at_call i : 0 <= i < Z.of_nat n -> pc = 2 * i + 1 -> combined_at pc (CREATE_ABC (op_num OP_CALL) 0 1 1)
  | at_return : pc = 2 * Z.of_nat n -> combined_at pc (CREATE_ABC (op_num OP_RETURN) 0 1 0).

Lemma combine_code_at pc : 0 <= pc <= 2 * Z.of_nat n -> exists i, vread (code combined_view) pc = Pass i /\ combined_at pc i.
Proof.
  intros Hpc. unfold vread. destruct (Z.ltb_spec pc 0); [lia|]. simpl. unfold combine_code.
  set (f := fun i => (CREATE_ABx (op_num OP_CLOSURE) 0 (Z.of_nat i), CREATE_ABC (op_num OP_CALL) 0 1 1)).
  pose proof (pairs_length f n 0) as Hl. pose proof (pairs_lookup f n 0) as Hk. cbn [f fst snd] in Hl, Hk.
  destruct (decide (pc = 2 * Z.of_nat n)) as [->|Hne].
  - rewrite lookup_app_r by lia. rewrite Hl. replace (Z.to_nat (2 * Z.of_nat n) - 2 * n)%nat with O by lia. eexists. split; [done|by apply at_return].
  - pose proof (Z.div_mod pc 2 ltac:(lia)) as Hd. pose proof (Z.mod_pos_bound pc 2 ltac:(lia)) as Hm.
    set (i := Z.to_nat (pc / 2)). assert (i < n)%nat as Hi by (unfold i; lia). destruct (Hk i Hi) as [H1 H2].
    rewrite lookup_app_l by lia. destruct (decide (pc mod 2 = 0)) as [H0|H0].
    + replace (Z.to_nat pc) with (2 * i)%nat by (unfold i; lia). rewrite H1. eexists. split; [done|]. apply at_closure; unfold i; lia.
    + replace (Z.to_nat pc) with (2 * i + 1)%nat by (unfold i; lia). rewrite H2. eexists. split; [done|]. apply (at_call _ (Z.of_nat i)); unfold i; lia.
Qed.

(** where the result of the verifier is read: a call or the return *)
Definition calls_at (last : Z) : Prop := exists i, vread (code combined_view) last = Pass i /\ i <> 0.

Lemma symb_step_op pt lastpc reg pc last i o b c : vread (code pt) pc = Pass i -> GET_OPCODE i = op_num o -> GETARG_A i < maxstacksize pt ->
  testTMode (op_num o) = false -> operands pt pc i (op_num o) = Pass (b, c) ->
  symb_step pt lastpc reg pc last =
  exec_op pt lastpc reg o pc (if testAMode (op_num o) then if GETARG_A i =? reg then pc else last else last) (GETARG_A i) b c.
Proof.
  intros Ei Eo Ha Et Eb. unfold symb_step. rewrite Ei. cbn [mbind verdict_bind]. rewrite Eo, Eb, Et, op_of_num.
  unfold checkreg, check. destruct (Z.ltb_spec (GETARG_A i) (maxstacksize pt)); [|lia].
  by replace (op_num o <? NUM_OPCODES) with true by (by destruct o).
Qed.

Lemma combined_step pc last : 0 <= pc < 2 * Z.of_nat n + 1 -> calls_at last ->
  exists last', symb_step combined_view (2 * Z.of_nat n + 1) NO_REG pc last = Pass (pc, last') /\ calls_at last'.
Proof.
  intros Hpc Hc. destruct (combine_code_at pc) as (i & Ei & Hi); [lia|]. pose proof combine_code_size as Hz.
  destruct Hi as [i Hi ->|i Hi ->| ->].
  - destruct (CREATE_ABx_get (op_num OP_CLOSURE) 0 i) as (_ & Eo & Ea & Eb); [done|done|lia|].
    destruct (fs !! Z.to_nat i) as [f|] eqn:Ef; [|apply lookup_ge_None in Ef; lia].
    pose proof Main as K. rewrite Forall_lookup in K. pose proof (K _ _ Ef) as Hn.
    exists last. split; [|done]. rewrite (symb_step_op _ _ _ _ _ _ OP_CLOSURE i 0 Ei Eo); [|by rewrite Ea|done|].
    2:{ unfold operands. change (getOpMode _) with iABx. by rewrite Eb. }
    rewrite Ea. change (testAMode (op_num OP_CLOSURE)) with true. change (0 =? NO_REG) with false. cbv iota.
    unfold exec_op, sizep, vread. rewrite Hz. change (p combined_view) with fs. unfold check. rewrite (proj2 (Z.ltb_lt i (Z.of_nat (length fs)))) by lia.
    cbn [mbind verdict_bind]. destruct (Z.ltb_spec i 0); [lia|]. rewrite Ef. cbn [mbind verdict_bind]. rewrite Hn.
    rewrite (proj2 (Z.ltb_lt (2 * i + 0) _)) by lia. done.
  - assert (GET_OPCODE (CREATE_ABC (op_num OP_CALL) 0 1 1) = op_num OP_CALL) as Eo by (by vm_compute).
    exists (2 * i + 1). split; [|eexists; split; [exact Ei|done]].
    by rewrite (symb_step_op _ _ _ _ _ _ OP_CALL 1 1 Ei Eo) by done.
  - assert (GET_OPCODE (CREATE_ABC (op_num OP_RETURN) 0 1 0) = op_num OP_RETURN) as Eo by (by vm_compute).
    exists last. split; [|done]. by rewrite (symb_step_op _ _ _ _ _ _ OP_RETURN 1 0 Ei Eo) by done.
Qed.

Lemma combined_loop fuel : forall pc last, 0 <= pc -> 2 * Z.of_nat n + 1 <= pc + Z.of_nat fuel -> calls_at last ->
  exists i, symb_loop (S fuel) combined_view (2 * Z.of_nat n + 1) NO_REG pc last = Pass i /\ i <> 0.
Proof.
  induction fuel as [|fuel IH]; intros pc last H0 Hf Hc; cbn [symb_loop].
  - destruct (Z.ltb_spec pc (2 * Z.of_nat n + 1)); [lia|exact Hc].
  - destruct (Z.ltb_spec pc (2 * Z.of_nat n + 1)); [|exact Hc].
    destruct (combined_step pc last ltac:(lia) Hc) as (last' & -> & Hc'). apply IH; [lia|lia|done].
Qed.

End Combined.

(** C34: the function that [gafqc] makes of several files, which calls the main function of each in turn, is accepted by the
    bytecode verifier, for any number of files that the operand of [OP_CLOSURE] can hold: what the compiler writes is loaded
    again by the interpreter. *)
Theorem combined_verified g n source ps fs :
  length fs = n -> Forall (fun f => nups f = 0) fs -> Z.of_nat n <= MAXARG_Bx ->
  gafqG_checkcode (proto_view g fs (combined n source ps)) = Pass true.
Proof.
  intros Len Main Fits. pose proof (combine_code_size g n source ps fs Len) as Hz. fold (combined_view g n source ps fs) in *.
  destruct (combine_code_at g n source ps fs Len (2 * Z.of_nat n)) as (i & Ei & Hi); [lia|].
  assert (i <> 0) as Hn.
  { destruct Hi as [i Hi E|i Hi E|E]; [lia|lia|done]. }
  destruct (combined_loop g n source ps fs Len Main Fits (length (code (combined_view g n source ps fs))) 0 (2 * Z.of_nat n)) as (j & Ej & Hj);
    [lia|unfold sizecode in Hz; lia|by exists i|].
  unfold gafqG_checkcode, symbexec. rewrite Hz.
  assert (precheck (combined_view g n source ps fs) = Pass tt) as ->.
  { unfold precheck. rewrite Hz. change (sizelineinfo _) with 0. rewrite (proj2 (Z.ltb_lt 0 (2 * Z.of_nat n + 1))) by lia.
    rewrite orb_true_r. cbn -[combined_view Z.mul Z.add]. replace (2 * Z.of_nat n + 1 - 1) with (2 * Z.of_nat n) by lia.
    rewrite Ei. simpl. destruct Hi as [k Hk E|k Hk E|E]; [lia|lia|by vm_compute]. }
  cbn [mbind verdict_bind]. replace (2 * Z.of_nat n + 1 - 1) with (2 * Z.of_nat n) by lia. rewrite Ej. by destruct (Z.eqb_spec j 0).
Qed.

(** ** The search path *)

(** the parts of a path between the separators *)
Fixpoint parts (path : bytes) : list bytes :=
  match path with
  | [] => [[]]
  | c :: path' =>
      if c =? chr ";" then [] :: parts path'
      else match parts path' with a :: l => (c :: a) :: l | [] => [[c]] end
  end.

(** the templates that [findfile] tries, in [n] rounds of its loop at most *)
Fixpoint templates (n : nat) (path : bytes) : list bytes :=
  match n with
  | O => []
  | S n' => match next_template path with None => [] | Some (template, rest) => template :: templates n' rest end
  end.

Notation nonempty := (fun a : bytes => a <> []).

Lemma parts_skip path : filter nonempty (parts (skip_separators path)) = filter nonempty (parts path).
Proof. induction path as [|c path IH]; [done|]. simpl. destruct (c =? chr ";") eqn:E; [by rewrite IH|]. simpl. by rewrite E. Qed.

Lemma parts_split path a b : LoadLib.split_at (chr ";") path = (a, b) ->
  parts path = a :: match b with [] => [] | _ :: b' => parts b' end /\
  (length path = length a + length b)%nat /\ (b = [] \/ exists b', b = chr ";" :: b').
Proof.
  revert a b. induction path as [|c path IH]; intros a b; simpl; [by intros [= <- <-]; auto|].
  destruct (Z.eqb_spec c (chr ";")) as [->|Hc].
  - intros [= <- <-]. split_and!; [done|done|eauto].
  - destruct (LoadLib.split_at _ path) as [a' b'] eqn:E. intros [= <- <-]. destruct (IH _ _ eq_refl) as (-> & Hl & Hb).
    split_and!; [done|simpl; lia|done].
Qed.

Lemma skip_separators_spec path : (length (skip_separators path) <= length path)%nat /\
  match skip_separators path with [] => True | c :: _ => c <> chr ";" end.
Proof.
  induction path as [|c path [IH1 IH2]]; simpl; [by split; [lia|]|]. destruct (Z.eqb_spec c (chr ";")); [by split; [lia|]|by split].
Qed.

(** the search path of [require]: the templates that [findfile] tries are the parts of the path between semicolons that are
    not empty, in their order, and a round for each character of the path and one more is enough. *)
Theorem templates_of_path n path : (length path < n)%nat -> templates n path = filter nonempty (parts path).
Proof.
  revert path. induction n as [|n IH]; intros path Hn; [lia|]. cbn [templates]. rewrite <- parts_skip. unfold next_template.
  destruct (skip_separators_spec path) as [Hl Hs]. destruct (skip_separators path) as [|c s] eqn:Es; [done|].
  destruct (LoadLib.split_at (chr ";") (c :: s)) as [a b] eqn:Ea. destruct (parts_split _ _ _ Ea) as (-> & Hk & Hb).
  assert (exists a', a = c :: a') as [a' ->].
  { simpl in Ea. destruct (Z.eqb_spec c (chr ";")); [done|]. destruct (LoadLib.split_at _ s). injection Ea as <- <-. eauto. }
  rewrite filter_cons_True by done. f_equal. simpl in Hk, Hl. rewrite IH by lia.
  destruct Hb as [->|(b' & ->)]; [done|]. simpl. by rewrite filter_cons_False by (by intros []).
Qed.

Lemma templates_of_path_witness : templates 20 (str ";./?.gafq;;/usr/?;") = [str "./?.gafq"; str "/usr/?"].
Proof. rewrite (templates_of_path 20 (str ";./?.gafq;;/usr/?;")); [vm_compute; reflexivity|vm_compute; lia]. Defined.

Lemma combined_verified_witness :
  gafqG_checkcode (proto_view (initial_state 1) [null_proto; null_proto] (combined 2 0 [])) = Pass true.
Proof. apply (combined_verified (initial_state 1) 2 0 [] [null_proto; null_proto]); [reflexivity|by repeat constructor|vm_compute; by intros]. Defined.

(** ** Statements that are not complete *)

Lemma strstr_end a : 39 ∉ a -> strstr (a ++ str "'<eof>'") (str "'<eof>'") = Some (a, []).
Proof.
  induction a as [|c a IH]; intros Ha; [by vm_compute|]. rewrite not_elem_of_cons in Ha. destruct Ha as [Hc Ha].
  cbn [app strstr]. rewrite (IH Ha). rewrite bool_decide_eq_false_2; [done|]. simpl. intros [= K _]. vm_compute in K. congruence.
Qed.

Lemma cstr_id b : 0 ∉ b -> cstr b = b.
Proof.
  induction b as [|c b IH]; intros Hb; simpl; [done|]. rewrite not_elem_of_cons in Hb. destruct Hb as [Hc Hb].
  destruct (Z.eqb_spec c 0); [congruence|]. by rewrite IH.
Qed.

Lemma str_text b : Forall is_byte b -> str (text b) = b.
Proof.
  induction 1 as [|c b Hc _ IH]; simpl; [done|]. rewrite IH. f_equal. unfold chr. rewrite N_ascii_embedding by (unfold is_byte in Hc; lia).
  unfold is_byte in Hc. lia.
Qed.

Lemma digits_range k n : Forall (fun c => 48 <= c <= 57) (digits k n).
Proof.
  revert n. induction k as [|k IH]; intros n; simpl; [constructor|]. apply Forall_app. split; [destruct (n <? 10); [constructor|apply IH]|].
  pose proof (Z.mod_pos_bound n 10 ltac:(lia)). constructor; [|constructor]. change (chr "0") with 48. lia.
Qed.

Lemma str_bytes s : Forall is_byte (str s).
Proof. induction s as [|c s IH]; simpl; constructor; [|done]. unfold is_byte, chr. pose proof (N_ascii_bounded c). lia. Qed.

Definition plain (b : bytes) : Prop := Forall is_byte b /\ 39 ∉ b /\ 0 ∉ b.

Lemma plain_app a b : plain a -> plain b -> plain (a ++ b).
Proof. intros (A1 & A2 & A3) (B1 & B2 & B3). split_and!; [by apply Forall_app|set_solver|set_solver]. Qed.

Lemma plain_int n : plain (int_str n).
Proof.
  pose proof (digits_range 20 n) as K. unfold int_str. split_and!.
  - eapply Forall_impl; [exact K|]. unfold is_byte. simpl. lia.
  - intros Hi. rewrite Forall_forall in K. apply K in Hi. lia.
  - intros Hi. rewrite Forall_forall in K. apply K in Hi. lia.
Qed.

Lemma plain_check b : Forall is_byte b -> bool_decide (39 ∉ b) && bool_decide (0 ∉ b) = true -> plain b.
Proof. intros Hb [H1%bool_decide_eq_true H2%bool_decide_eq_true]%andb_true_iff. done. Qed.

Lemma ends_at_eof_plain a : plain a -> ends_at_eof (a ++ str "'<eof>'") = true.
Proof.
  intros (H1 & H2 & H3). unfold ends_at_eof. rewrite cstr_id.
  - rewrite strstr_end by done. apply Z.eqb_eq. unfold zlen. rewrite length_app. lia.
  - rewrite not_elem_of_app. split; [done|]. by apply (bool_decide_eq_true (0 ∉ str "'<eof>'")); vm_compute.
Qed.


